(* ===== verification/_CoqProject ===== *)
-Q . S2P
Prelude.v
Io.v
Paths.v
Workspace.v
Config.v
ConfigFacts.v
StructuredJson.v
StructuredJsonFacts.v
Compaction.v
CompactionStore.v
Capability.v
EffectiveCapabilities.v
ToolProfile.v
ToolProfileFacts.v
Protocol.v
ProtocolFacts.v
BridgeClient.v
BridgeClientFacts.v
Json.v
RequestGuard.v
RequestGuardFacts.v
ConfigStore.v
ConfigStoreFacts.v
Normalization.v
SessionRouter.v
Credentials.v
ResponseStream.v
ResponseStreamFacts.v
ResponseItems.v
Replay.v
ReplayFacts.v
Connection.v
ToolSurface.v
Dispatch.v
DispatchFacts.v
ManualCompaction.v
ToolActivation.v
ToolActivationFacts.v
Tools.v
ToolsFacts.v
Render.v
Approval.v
Settings.v
SettingsFacts.v
Runtime.v
RuntimeFacts.v
Launch.v
LaunchFacts.v
Diagnostics.v
DiagnosticsFacts.v
Overlay.v
OverlayFacts.v
Extension.v
ExtensionFacts.v
Decimal.v
CompactionUi.v
SystemPrompt.v
ToolRenderer.v
ToolRendererFacts.v
BridgeControl.v
BridgeControlFacts.v
BridgeStream.v
BridgeStreamFacts.v
JsRegex.v
Redaction.v
LocalNative.v
LocalNativeFacts.v
Vendor.v
VendorRepo.v
VendorFacts.v
VendorSync.v
BridgeLaunchFacts.v
Sbom.v
Package.v
PackageFacts.v
SchemaCheck.v
Architecture.v
PackageVerify.v
Toolchain.v
PiFork.v
