(* ===== verification/Prelude.v ===== *)
(** * Verification of pi-codex-adaptor

    The program is an extension of the Pi coding agent, written in TypeScript,
    that lets Pi use OpenAI Codex through a native bridge process.  This library
    models its sources and proves what they promise.  Paths below are those of the
    repository, which is kept beside this library under [src/]: [src/extension.ts]
    is [src/src/extension.ts] there, and [scripts/] is [src/scripts/].  For a component [X], the file
    [X.v] holds the data and the operations, named as in the source, and
    [XFacts.v] the theorems; a component with few theorems keeps them in [X.v].

    ** The program and its parts

    [src/extension.ts] ([Extension]) is the composition root.  It checks the host,
    makes the native runtime, the configuration service, the stores and the
    managed tools of one instance, and binds the instance to a Pi session in the
    session router that all instances of a process share.  From there:

    - a provider request goes from Pi through the route of its provider
      ([Extension], [provider-dispatcher.ts]) to the router ([SessionRouter]) and
      the instance of its session, whose provider ([Dispatch], [codex-provider.ts])
      builds the request ([Normalization], [ResponseItems], [Connection],
      [ToolSurface], [Credentials]), has it approved ([RequestGuard]), possibly
      rebuilt from a checkpoint ([Replay]), sends it to the native runtime and
      turns the events that come back into a Pi message ([ResponseStream]);
    - the native runtime ([Runtime]) finds and checks the bridge executable
      ([Launch]), opens one bridge at a time and speaks to it with framed JSON
      messages ([Protocol] the schemas and the decoder, [BridgeClient] the state of
      a connection, [BridgeControl] the messages and control operations,
      [BridgeStream] decoder and client together);
    - the configuration ([Config], [ConfigStore]) says which providers, tools and
      policies are on; the capabilities of a model ([Capability],
      [EffectiveCapabilities]) say which of them the bridge supports;
    - the tools of the agent are switched by an activation ([ToolActivation] over
      [ToolProfile]), executed through the bridge ([Tools]), approved by the user
      ([Approval]) and shown ([ToolRenderer], [SystemPrompt]);
    - long sessions are compacted remotely ([Compaction] for checkpoints, the
      accounting store and the coordinator, [Replay] inline, [ManualCompaction] on
      demand, [CompactionUi] for what the user sees);
    - the settings dialog is a model ([Settings]) in a terminal ([Overlay]), laid
      out by [Render]; it can export diagnostics ([Diagnostics]);
    - [StructuredJson] checks that a value is plain data, over a model of the
      JavaScript heap; [Redaction] removes secrets from texts and values.

    Before anything runs there are the scripts that make what is run.  The vendored
    sources of the official Codex are fetched, recorded and checked ([Vendor]), with
    a bill of materials of the bridge ([Sbom]) and the committed part of the
    app-server schema ([SchemaCheck]).  The bridge is built, assembled and installed
    ([LocalNative]), and packaged with the sources ([Package]); the package holds the
    artifact that [Launch] then verifies, and is checked as a whole and installed on
    trial ([PackageVerify]).  That the layers of the sources depend on each other in
    one direction only is checked too ([Architecture]), and that the tools and the
    actions of the workflows are the pinned ones ([Toolchain]).

    ** Files and sources

    - [Prelude]: values, numbers, strings, throwing and stateful code, shared lemmas.
      [Json]: JSON text as an interface.  [Decimal]: numbers in decimal.
      [JsRegex]: the regular expressions of the language.
    - [Config]: [src/domain/config.ts].  [ConfigStore]: the configuration service,
      [src/application/configuration.ts], over
      [src/infrastructure/configuration/file-config-repository.ts], and the provider
      activation policy, [src/domain/provider-activation.ts].
    - [StructuredJson]: [src/application/structured-json.ts].
    - [Compaction], with [CompactionStore]:
      [src/application/compaction.ts].
    - [Capability]: [src/domain/capability.ts].  [EffectiveCapabilities]:
      [src/application/resolve-effective-capabilities.ts].
    - [Protocol], [BridgeClient], [BridgeControl], [BridgeStream], [Runtime],
      [Launch]: [protocol.ts]; [client.ts] for the next three; [runtime.ts];
      [binary.ts], [identity.ts] and [environment.ts], all in
      [src/infrastructure/codex-bridge/].
    - [RequestGuard], [Normalization], [SessionRouter], [ResponseStream],
      [ResponseItems], [Dispatch], [Replay], [Connection], [ToolSurface],
      [ManualCompaction], [CompactionUi], [ToolProfile], [ToolActivation],
      [SystemPrompt], [Tools]: the file of [src/integration/pi/] each of them names;
      [Tools] also has [src/domain/plan.ts], [src/application/update-plan.ts] and
      [tool-execute-params.ts].  [Credentials]: the account reader of
      [src/application/codex-runtime.ts] and the fingerprints of the guard.
    - [Render], [Approval], [Settings], [Overlay], [ToolRenderer]:
      [src/ui/terminal/].  [Diagnostics]: [src/application/diagnostics.ts] and its
      file exporter.  [Redaction]: [src/domain/redaction.ts].
    - [Extension]: [src/extension.ts], [provider-dispatcher.ts],
      [host-capability.ts] and the listeners of [codex-compaction.ts].
    - [Io]: code over a store whose calls may fail.  [Paths]: [node:path].
      [Workspace]: files, directories and programs as the scripts see them, as
      interfaces with laws, and a checkout that meets them; [VendorRepo] has another.
    - [LocalNative]: [scripts/prepare-local-native.ts].  [Vendor], with [VendorFacts]
      and [VendorSync]: [scripts/sync-codex-upstream.ts].  [Sbom]:
      [scripts/generate-native-sbom.ts].  [Package]:
      [scripts/assemble-native-artifact.ts] and [scripts/assemble-package.ts].
      [SchemaCheck]: [scripts/verify-app-server-schema.ts].  [Architecture]:
      [scripts/check-architecture.ts].  [PackageVerify]: [scripts/verify-package.ts].
      [Toolchain]: [scripts/verify-toolchain.ts].  [PiFork]:
      [scripts/test-pi-fork.ts].
    - [BridgeLaunchFacts] joins [Launch], [Runtime] and [BridgeClient].

    ** How code becomes definitions

    A function that may throw returns an [outcome]; one that changes state takes and
    returns it.  Asynchronous code is cut at its [await]s: a class whose methods
    overlap is a step function over events (calls, answers, timers, aborts) that may
    come in any order, and its theorems hold after every list of events.  What code
    awaits from outside is an argument of the definitions, an environment record or
    an event.  Shared objects that the code mutates are kept in stores: records of
    the guard by generation, bindings by token, and the heap of [StructuredJson] and
    [Redaction] by location.  Elsewhere values are trees, and freezing and cloning
    are the identity.

    Numbers are doubles without rounding: a rational, an infinity or NaN; integers
    are bounded as the code bounds them.  A string is a list of units below 256;
    the renderer's own glyphs are single units.  An object used as a map is a list
    of its entries in insertion order where the order can be seen, else a [gmap].

    ** Interfaces

    [ExtensionAPI] (the host's tool registry), [FileSystem] (files that may fail at
    every call), [Workspace], [SourceTree] and [FileAccess] (the same for the
    scripts), [JsonText], [UrlApi] and [Literal] are classes; those whose behaviour a
    theorem needs have a class of laws, with instances that meet them.  What a
    program writes is a hypothesis on its command ([VendorRepo.git_writes],
    [SchemaCheck.generates_below]), and so is what git leaves after a checkout
    ([VendorRepo.checks_out]).
    Parameters of the definitions are the TypeBox validator ([Check_], whose
    meaning is [Protocol.conforms]), JSON parsing of a frame, SHA-256, path and file
    functions of the platform, the TOML and YAML parsers, [localeCompare], the key names, the
    width and wrapping functions of the terminal library, the theme and the text of a
    number.

    ** Theorems

    - Composition: a request reaches the instance of its session and no other, the
      routes follow the policy, shutdown is final, an unsuitable host is refused
      ([ExtensionFacts]).
    - A request's way: one terminal event and then the end, which only events of the
      call that were still queued can follow, and at most one native call with an
      approved request ([DispatchFacts]), the stream rebuilds the message
      ([ResponseStreamFacts]), approvals cannot be reused or exchanged
      ([RequestGuardFacts]), checkpoints are replayed and replaced soundly
      ([ReplayFacts], [ManualCompaction], [CompactionStore]), the history is
      complete ([Normalization]), credentials stay apart ([Connection]).
    - The bridge: the decoder refines reading the stream byte by byte
      ([ProtocolFacts], [BridgeStreamFacts]), every request settles once and with
      what the bridge wrote ([BridgeClientFacts], [BridgeControlFacts]), one bridge
      is alive and every call is answered ([RuntimeFacts]), what is launched is what
      was checked ([LaunchFacts]).
    - Configuration and tools: the parser accepts exactly valid configurations
      ([ConfigFacts]), saving is atomic and can be undone ([ConfigStoreFacts]), only
      the newest activation acts ([ToolActivationFacts]), the profile is reversible
      and safe ([ToolProfileFacts]), the host owns what a tool may do but for the
      directory a native tool runs in ([ToolsFacts]).
    - The user: the settings keep a valid draft and act only with consent
      ([SettingsFacts], [OverlayFacts]), a tool never looks better than it went and
      fits its width ([ToolRendererFacts]), a diagnostics snapshot has the listed
      fields only, of the host bounded texts and of the bridge any ([DiagnosticsFacts]),
      and redaction leaves nothing but marks under the sensitive keys of objects
      ([Redaction]).
    - From source to launch: the vendored sources are the pinned ones, and checking
      them changes nothing ([VendorFacts], [VendorSync]); the bill of materials is
      complete ([Sbom]) and the schema current ([SchemaCheck]); installing an
      artifact is a transaction and what is installed is of the current commit
      ([LocalNativeFacts]); a packaged artifact is accepted at the launch
      ([PackageFacts]), and a package that passes its verification has the allowed
      files and an extension inside it ([PackageVerify]); imports stay in their
      layers ([Architecture]) and tools and actions are pinned ([Toolchain]); a fork
      of Pi that passes its test gave four packages at one version and a loadable adaptor
      ([PiFork]); a ready connection is with the verified build
      ([BridgeLaunchFacts]).

    ** Bounds and fuel

    Where the recursion of the code is not structural a definition has fuel, and a
    theorem says that the fuel given is enough.  [StructuredJson.visit] and
    [Redaction.redactUnknown] get one unit per object of the heap and one more: each
    call adds an object to the ones being visited, or seen.  [Protocol.push_lines]
    gets the length of the chunk, since each turn consumes a line feed;
    [JsRegex.replace_from], [Render.strip_from], [ToolRenderer.strip_csi] and
    [ToolRenderer.tokenize] the length of the text and [Render.pieces] that of the
    word, of which each turn consumes a unit, and so do [JsRegex.matches_from]
    and [Architecture.imports_from];
    [Decimal.dec_digits] the number of bits.  [Sbom.reach] gets the number of
    dependencies and one more, which is enough; [Vendor.collectFiles] and
    [Architecture.listTypeScriptFiles] a depth, and they are out of fuel only if a
    directory is that deep ([VendorFacts.too_deep]).  The bounds of the code are
    kept: frames of 16 MiB, 65536 ignored request identifiers, safe integers, and the limits of every text.

    ** Not modelled

    - [provider-payload-compaction-api.ts] and the interfaces at the top of the
      other files are type declarations.
    - [src/integration/pi/generated/core-tools.ts] is generated data.
    - Proxies, prototypes other than the ones [StructuredJson] distinguishes,
      rounding of doubles and strings with units above 255.
    - The streams, the process and the timers of the platform: they are the events
      of [BridgeClient], [BridgeControl] and [Runtime].
    - The native bridge (Rust), tests, fixtures and vendored code.
    - The scripts that are left: [verify-bridge-integration.ts],
      [generate-official-fixtures.ts], [generate-official-workspace.ts] and the short
      ones that only run other programs.  They start processes, compare their output
      and copy files of the repository.

    This file holds what all components share: JavaScript values and the pieces of
    the language's standard library that the modelled code uses, the error type of
    throwing code, and the generic lemmas and tactics. *)

From Stdlib Require Export Ascii String.
From Stdlib Require Import QArith Qcanon.
From stdpp Require Export base numbers list strings gmap sorting.

#[global] Open Scope string_scope.
#[global] Open Scope list_scope.
#[global] Open Scope nat_scope.

(** ** Throwing code

    A call that may throw returns an [outcome]: [Ret] is a normal return and
    [Throw] an exception.  The stdpp notation [x ← m; k] sequences them. *)

Inductive outcome (E A : Type) : Type :=
| Ret (a : A)
| Throw (e : E).
Arguments Ret {E A} a.
Arguments Throw {E A} e.

#[export] Instance outcome_ret {E} : MRet (outcome E) := fun A a => Ret a.
#[export] Instance outcome_bind {E} : MBind (outcome E) :=
  fun A B f m => match m with Ret a => f a | Throw e => Throw e end.
#[export] Instance outcome_fmap {E} : FMap (outcome E) :=
  fun A B f m => match m with Ret a => Ret (f a) | Throw e => Throw e end.

#[export] Instance outcome_eq_dec `{EqDecision E, EqDecision A} : EqDecision (outcome E A).
Proof. solve_decision. Defined.

(** [try m catch h]: the handler sees the exception. *)
Definition catch {E F A} (m : outcome E A) (h : E → outcome F A) : outcome F A :=
  match m with Ret a => Ret a | Throw e => h e end.

Definition outcome_opt {E A} (m : outcome E A) : option A :=
  match m with Ret a => Some a | Throw _ => None end.

Lemma bind_ret_iff {E A B} (m : outcome E A) (f : A → outcome E B) b :
  (m ≫= f) = Ret b ↔ ∃ a, m = Ret a ∧ f a = Ret b.
Proof. destruct m; naive_solver. Qed.

Lemma bind_throw_iff {E A B} (m : outcome E A) (f : A → outcome E B) e :
  (m ≫= f) = Throw e ↔ m = Throw e ∨ ∃ a, m = Ret a ∧ f a = Throw e.
Proof. destruct m; naive_solver. Qed.

(** [guard_throw b e] is [if (!b) throw e]. *)
Definition guard_throw {E} (b : bool) (e : E) : outcome E unit :=
  if b then Ret tt else Throw e.

Lemma guard_throw_ret {E} b (e : E) u : guard_throw b e = Ret u ↔ b = true.
Proof. destruct b, u; naive_solver. Qed.

Lemma guard_bind_iff {E B} b (e : E) (k : outcome E B) r :
  (guard_throw b e ≫= λ _, k) = Ret r ↔ b = true ∧ k = Ret r.
Proof. destruct b; simpl; naive_solver. Qed.

(** [map] with a callback that may throw: the first exception escapes. *)
Fixpoint map_throw {E A B} (f : A → outcome E B) (l : list A) : outcome E (list B) :=
  match l with
  | [] => Ret []
  | x :: l' => y ← f x; ys ← map_throw f l'; Ret (y :: ys)
  end.

Lemma map_throw_ret {E A B} (f : A → outcome E B) l ys :
  map_throw f l = Ret ys ↔ Forall2 (λ x y, f x = Ret y) l ys.
Proof.
  revert ys; induction l as [|x l IH]; intros ys; simpl.
  - split; [intros [= <-]; constructor | inversion 1; done].
  - rewrite bind_ret_iff; setoid_rewrite bind_ret_iff; split.
    + intros (y & Hy & ys' & Hys & [= <-]); constructor; [done|by apply IH].
    + inversion 1 as [|? y ? ys' Hy Hys]; subst.
      exists y; split; [done|]; exists ys'; split; [by apply IH|done].
Qed.

Lemma map_throw_throw {E A B} (f : A → outcome E B) l e : map_throw f l = Throw e → ∃ x, x ∈ l ∧ f x = Throw e.
Proof.
  induction l as [|x l IH]; [done|]. cbn [map_throw]. rewrite bind_throw_iff. intros [Hx|(y & _ & Hr)]; [set_solver|].
  apply bind_throw_iff in Hr as [Hr|(ys & _ & [=])]. destruct (IH Hr) as (z & ? & ?). set_solver.
Qed.

(** Stateful code that may throw half way: the state keeps what was done. *)
Definition stateful (S E A : Type) : Type := S → outcome E A * S.

#[export] Instance st_ret {S E} : MRet (stateful S E) := λ A a s, (Ret a, s).
#[export] Instance st_bind {S E} : MBind (stateful S E) := λ A B f m s,
  match m s with (Ret a, s') => f a s' | (Throw e, s') => (Throw e, s') end.

Definition st_lift {S E A} (r : outcome E A) : stateful S E A := λ s, (r, s).
Definition st_get {S E} : stateful S E S := λ s, (Ret s, s).
Definition st_put {S E} (s' : S) : stateful S E unit := λ _, (Ret tt, s').
Definition st_modify {S E} (f : S → S) : stateful S E unit := λ s, (Ret tt, f s).

(** What a step preserves, a sequence of steps preserves. *)
Definition preserves {S E A} (I : S → Prop) (m : stateful S E A) : Prop := ∀ s, I s → I (m s).2.

Lemma preserves_ret {S E A} I (a : A) : preserves (S := S) (E := E) I (mret a).
Proof. by intros s. Qed.
Lemma preserves_lift {S E A} I (r : outcome E A) : preserves (S := S) I (st_lift r).
Proof. by intros s. Qed.
Lemma preserves_bind {S E A B} (I : S → Prop) (m : stateful S E A) (f : A → stateful S E B) :
  preserves I m → (∀ a, preserves I (f a)) → preserves I (m ≫= f).
Proof.
  intros Hm Hf s Hs. specialize (Hm s Hs). unfold mbind, st_bind.
  destruct (m s) as [[a|e] s']; [by apply Hf|done].
Qed.

(** [try { m } catch (e) { h(e) }] and [try { m } finally { f }], over a state
    that keeps what was done. *)
Definition st_catch {S E F A} (m : stateful S E A) (h : E → stateful S F A) : stateful S F A :=
  λ s, match m s with (Ret a, s') => (Ret a, s') | (Throw e, s') => h e s' end.
Definition st_finally {S E A} (m : stateful S E A) (f : S → S) : stateful S E A :=
  λ s, let '(r, s') := m s in (r, f s').

(** What holds of the result and the state a step ends with. *)
Definition swp {S E A} (m : stateful S E A) (Q : outcome E A → S → Prop) (s : S) : Prop :=
  let '(r, s') := m s in Q r s'.

Section swp.
Context {S E : Type}.
Implicit Types s : S.

Lemma swp_bind {A B} (m : stateful S E A) (f : A → stateful S E B) Q s :
  swp m (λ r s', match r with Ret a => swp (f a) Q s' | Throw e => Q (Throw e) s' end) s →
  swp (m ≫= f) Q s.
Proof. unfold swp, mbind, st_bind. by destruct (m s) as [[a|e] s']. Qed.

Lemma swp_mono {A} (m : stateful S E A) (Q Q' : outcome E A → S → Prop) s :
  swp m Q s → (∀ r s', Q r s' → Q' r s') → swp m Q' s.
Proof. unfold swp. destruct (m s). naive_solver. Qed.

(** A step that keeps [I], about whose result nothing more is known. *)
Lemma swp_preserves {A} (I : S → Prop) (m : stateful S E A) Q s :
  preserves I m → I s → (∀ r s', I s' → Q r s') → swp m Q s.
Proof. unfold swp. intros Hm Hs HQ. specialize (Hm s Hs). destruct (m s). by apply HQ. Qed.

Lemma swp_ret {A} (a : A) (Q : outcome E A → S → Prop) s : Q (Ret a) s → swp (mret a) Q s.
Proof. done. Qed.
Lemma swp_lift {A} (r : outcome E A) (Q : outcome E A → S → Prop) s : Q r s → swp (st_lift r) Q s.
Proof. done. Qed.
Lemma swp_get (Q : outcome E S → S → Prop) s : Q (Ret s) s → swp st_get Q s.
Proof. done. Qed.
Lemma swp_modify f (Q : outcome E unit → S → Prop) s : Q (Ret tt) (f s) → swp (st_modify f) Q s.
Proof. done. Qed.

(** A step whose result is already known, and whatever its effect is. *)
Lemma swp_lift_ret {A} (r : outcome E A) (Q : outcome E A → S → Prop) s :
  (∀ a, r = Ret a → Q (Ret a) s) → (∀ e, r = Throw e → Q (Throw e) s) → swp (st_lift r) Q s.
Proof. intros HR HT. apply swp_lift. destruct r; auto. Qed.

Lemma swp_catch {F A} (m : stateful S E A) (h : E → stateful S F A) Q s :
  swp m (λ r s', match r with Ret a => Q (Ret a) s' | Throw e => swp (h e) Q s' end) s →
  swp (st_catch m h) Q s.
Proof. unfold swp, st_catch. by destruct (m s) as [[a|e] s']. Qed.

Lemma swp_finally {A} (m : stateful S E A) f Q s :
  swp m (λ r s', Q r (f s')) s → swp (st_finally m f) Q s.
Proof. unfold swp, st_finally. by destruct (m s). Qed.

(** Whatever the earlier steps do, the last one decides what is returned. *)
Lemma swp_bind_result {A B} (m : stateful S E A) (f : A → stateful S E B) (P : B → Prop) s :
  (∀ a s, swp (f a) (λ r _, ∀ b, r = Ret b → P b) s) → swp (m ≫= f) (λ r _, ∀ b, r = Ret b → P b) s.
Proof. intros Hf. apply swp_bind. unfold swp at 1. destruct (m s) as [[a|e] s']; [apply Hf|done]. Qed.

Lemma preserves_modify (I : S → Prop) f :
  (∀ s, I s → I (f s)) → preserves (E := E) I (st_modify f).
Proof. intros Hf s. apply Hf. Qed.
Lemma preserves_get (I : S → Prop) : preserves (E := E) I st_get.
Proof. by intros s. Qed.
End swp.

(** ** Numbers

    A JavaScript number is a finite rational (every double is one), an
    infinity or NaN.  The sign of zero is not kept: [===], [<] and the
    [Number] predicates do not see it. *)

Inductive jsnum : Set :=
| NFin (q : Qc)
| NPosInf
| NNegInf
| NNaN.

#[export] Instance jsnum_eq_dec : EqDecision jsnum.
Proof. solve_decision. Defined.

Definition num_of_Z (z : Z) : jsnum := NFin (Qc_of_Z z).
Coercion num_of_Z : Z >-> jsnum.

(** [a === b] on numbers: NaN differs from itself. *)
Definition num_eqb (a b : jsnum) : bool :=
  match a, b with
  | NNaN, _ | _, NNaN => false
  | _, _ => bool_decide (a = b)
  end.

(** [a < b] and [a <= b]; every comparison with NaN is false. *)
Definition num_ltb (a b : jsnum) : bool :=
  match a, b with
  | NFin p, NFin q => bool_decide (p < q)%Qc
  | NNaN, _ | _, NNaN => false
  | NPosInf, _ | _, NNegInf => false
  | _, _ => true
  end.
Definition num_leb (a b : jsnum) : bool :=
  match a, b with
  | NFin p, NFin q => bool_decide (p ≤ q)%Qc
  | NNaN, _ | _, NNaN => false
  | NNegInf, _ | _, NPosInf => true
  | _, _ => false
  end.
Definition num_gtb (a b : jsnum) : bool := num_ltb b a.
Definition num_geb (a b : jsnum) : bool := num_leb b a.

Definition is_finite (n : jsnum) : bool :=
  match n with NFin _ => true | _ => false end.

(** [Number.isInteger], with the integer it denotes. *)
Definition num_integer (n : jsnum) : option Z :=
  match n with
  | NFin q => if bool_decide (Qden (this q) = 1%positive) then Some (Qnum (this q)) else None
  | _ => None
  end.

Definition MAX_SAFE_INTEGER : Z := (2 ^ 53 - 1)%Z.

(** [Number.isSafeInteger]. *)
Definition is_safe_integer (n : jsnum) : bool :=
  match num_integer n with
  | Some z => bool_decide (Z.abs z ≤ MAX_SAFE_INTEGER)%Z
  | None => false
  end.

(** [Math.trunc]. *)
Definition num_trunc (n : jsnum) : jsnum :=
  match n with
  | NFin q => num_of_Z (Z.quot (Qnum (this q)) (Zpos (Qden (this q))))
  | _ => n
  end.

Lemma num_integer_Z (z : Z) : num_integer z = Some z.
Proof. reflexivity. Qed.

Lemma num_integer_Some (n : jsnum) z : num_integer n = Some z ↔ n = num_of_Z z.
Proof.
  split; [|intros ->; apply num_integer_Z].
  destruct n as [[[a b] Hq]| | |]; simpl; [|done..].
  case_bool_decide as Hb; [|done]. simpl in Hb; subst b. intros [= ->].
  unfold num_of_Z. f_equal. by apply Qc_is_canon.
Qed.

#[export] Instance num_of_Z_inj : Inj (=) (=) num_of_Z.
Proof. intros x y [=Hxy]. done. Qed.

Lemma num_eqb_spec_Z (n : jsnum) (z : Z) : num_eqb n z = true ↔ n = num_of_Z z.
Proof. destruct n; simpl; rewrite ?bool_decide_eq_true; naive_solver. Qed.

Lemma num_ltb_Z (x y : Z) : num_ltb x y = bool_decide (x < y)%Z.
Proof. simpl. apply bool_decide_ext. symmetry. apply Z2Qc_inj_lt. Qed.

Lemma num_leb_Z (x y : Z) : num_leb x y = bool_decide (x ≤ y)%Z.
Proof. simpl. apply bool_decide_ext. symmetry. apply Z2Qc_inj_le. Qed.

Lemma num_trunc_Z (z : Z) : num_trunc z = num_of_Z z.
Proof. simpl. by rewrite Z.quot_1_r. Qed.

Lemma is_safe_integer_spec (n : jsnum) :
  is_safe_integer n = true ↔ ∃ z, n = num_of_Z z ∧ (Z.abs z ≤ MAX_SAFE_INTEGER)%Z.
Proof.
  unfold is_safe_integer. destruct (num_integer n) as [z|] eqn:Hn.
  - apply num_integer_Some in Hn as ->. rewrite bool_decide_eq_true. split; [by exists z|].
    by intros (z' & <-%(inj _) & ?).
  - split; [done|]. intros (z & -> & _). done.
Qed.

Lemma is_safe_integer_Z (z : Z) :
  is_safe_integer z = bool_decide (Z.abs z ≤ MAX_SAFE_INTEGER)%Z.
Proof. reflexivity. Qed.

Lemma num_total (a b : jsnum) : a ≠ NNaN → b ≠ NNaN → num_ltb a b = negb (num_leb b a).
Proof.
  destruct a as [p| | |], b as [q| | |]; simpl; try done. intros _ _.
  do 2 case_bool_decide; simpl; try done.
  - by destruct (Qcle_not_lt _ _ H0).
  - destruct (Qclt_le_dec p q); done.
Qed.

(** ** Values

    A JavaScript value as the code reads it: the primitives, arrays, and
    objects with their own enumerable data properties in [Object.keys]
    order.  [VOpaque] stands for functions, symbols and bigints, which no
    modelled code looks into.  Identity, prototypes, accessors and cycles
    are the subject of [StructuredJson]. *)

Inductive jsval : Set :=
| VUndef
| VNull
| VBool (b : bool)
| VNum (n : jsnum)
| VStr (s : string)
| VArr (items : list jsval)
| VObj (fields : list (string * jsval))
| VOpaque.

Section jsval_induction.
  Variable P : jsval → Prop.
  Hypothesis Hundef : P VUndef.
  Hypothesis Hnull : P VNull.
  Hypothesis Hbool : ∀ b, P (VBool b).
  Hypothesis Hnum : ∀ n, P (VNum n).
  Hypothesis Hstr : ∀ s, P (VStr s).
  Hypothesis Harr : ∀ l, Forall P l → P (VArr l).
  Hypothesis Hobj : ∀ fs, Forall (λ kv, P kv.2) fs → P (VObj fs).
  Hypothesis Hopaque : P VOpaque.

Fixpoint jsval_nested_ind (v : jsval) : P v :=
    match v with
    | VUndef => Hundef
    | VNull => Hnull
    | VBool b => Hbool b
    | VNum n => Hnum n
    | VStr s => Hstr s
    | VArr l => Harr l
        ((fix go l := match l return Forall P l with
                      | [] => Forall_nil_2 _
                      | x :: l' => Forall_cons_2 _ x l' (jsval_nested_ind x) (go l')
                      end) l)
    | VObj fs => Hobj fs
        ((fix go fs := match fs return Forall (λ kv, P kv.2) fs with
                       | [] => Forall_nil_2 _
                       | kv :: fs' =>
                           Forall_cons_2 (λ kv, P kv.2) kv fs' (jsval_nested_ind kv.2) (go fs')
                       end) fs)
    | VOpaque => Hopaque
    end.
End jsval_induction.

#[export] Instance jsval_eq_dec : EqDecision jsval.
Proof.
  unfold EqDecision, Decision.
  fix go 1; intros x y.
  refine (match x, y with
          | VUndef, VUndef | VNull, VNull | VOpaque, VOpaque => left eq_refl
          | VBool a, VBool b => cast_if (decide (a = b))
          | VNum a, VNum b => cast_if (decide (a = b))
          | VStr a, VStr b => cast_if (decide (a = b))
          | VArr a, VArr b => cast_if (@list_eq_dec jsval go a b)
          | VObj a, VObj b =>
              cast_if (@list_eq_dec (string * jsval)
                         (λ p q, match go p.2 q.2 with
                                 | left _ => cast_if (decide (p.1 = q.1))
                                 | right _ => right _
                                 end) a b)
          | _, _ => right _
          end); abstract congruence || (destruct p, q; simpl in *; abstract congruence).
Defined.

(** Own keys of an object, and [o.k] ([undefined] when absent). *)
Definition keys (fs : list (string * jsval)) : list string := fs.*1.

Fixpoint field (fs : list (string * jsval)) (k : string) : jsval :=
  match fs with
  | [] => VUndef
  | (k', v) :: fs' => if String.eqb k' k then v else field fs' k
  end.

(** [typeof v === "object" && v !== null && !Array.isArray(v)]. *)
Definition as_record (v : jsval) : option (list (string * jsval)) :=
  match v with VObj fs => Some fs | _ => None end.

Definition js_elem (s : string) (l : list string) : bool := existsb (String.eqb s) l.

Lemma js_elem_spec s l : js_elem s l = true ↔ s ∈ l.
Proof.
  unfold js_elem. rewrite existsb_exists. setoid_rewrite String.eqb_eq.
  rewrite list_elem_of_In. naive_solver.
Qed.

Lemma js_elem_false s l : js_elem s l = false ↔ s ∉ l.
Proof. rewrite <-js_elem_spec. destruct (js_elem s l); naive_solver. Qed.

Lemma field_absent fs k : k ∉ keys fs → field fs k = VUndef.
Proof.
  induction fs as [|[k' v] fs IH]; [done|]. cbn. rewrite not_elem_of_cons.
  intros [??]. destruct (String.eqb_spec k' k); [congruence|auto].
Qed.

Lemma field_elem fs k v : NoDup (keys fs) → (k, v) ∈ fs → field fs k = v.
Proof.
  induction fs as [|[k' v'] fs IH]; cbn; [set_solver|].
  rewrite NoDup_cons, elem_of_cons. intros [Hk ?] [[= -> ->]|Hin].
  - by rewrite String.eqb_refl.
  - destruct (String.eqb_spec k' k) as [->|]; [|auto].
    destruct Hk. apply list_elem_of_fmap. by exists (k, v).
Qed.

(** ** Strings

    A string is the list of its UTF-16 code units, restricted to units
    below 256, so [String.length] is JavaScript's [length]. *)

Definition unit_of (c : ascii) : N := N_of_ascii c.

(** The white space and line terminators [String.prototype.trim] removes. *)
Definition is_js_space (c : ascii) : bool :=
  let n := unit_of c in
  (bool_decide (9 ≤ n ∧ n ≤ 13) || (n =? 32) || (n =? 160))%N.

Fixpoint trim_start (s : string) : string :=
  match s with
  | EmptyString => EmptyString
  | String c s' => if is_js_space c then trim_start s' else s
  end.

Fixpoint trim_end (s : string) : string :=
  match s with
  | EmptyString => EmptyString
  | String c s' =>
      match trim_end s' with
      | EmptyString => if is_js_space c then EmptyString else String c EmptyString
      | t => String c t
      end
  end.

Definition trim (s : string) : string := trim_end (trim_start s).

Fixpoint str_exists (f : ascii → bool) (s : string) : bool :=
  match s with
  | EmptyString => false
  | String c s' => f c || str_exists f s'
  end.

Definition str_forall (f : ascii → bool) (s : string) : bool :=
  negb (str_exists (λ c, negb (f c)) s).

(** [s.startsWith(p)] and [s.includes(sub)]. *)
Definition starts_with (p s : string) : bool := String.prefix p s.

Fixpoint includes (sub s : string) : bool :=
  starts_with sub s ||
  match s with
  | EmptyString => false
  | String _ s' => includes sub s'
  end.

(** [toLowerCase] and [toUpperCase] on the units below 256.  [ß] is the one
    unit whose upper case is longer; [µ] and [ÿ] leave the range and are kept. *)
Definition lower_unit (c : ascii) : ascii :=
  let n := unit_of c in
  if (bool_decide (65 ≤ n ∧ n ≤ 90) ||
      (bool_decide (192 ≤ n ∧ n ≤ 222) && negb (n =? 215)))%N
  then ascii_of_N (n + 32) else c.

Definition upper_unit (c : ascii) : string :=
  let n := unit_of c in
  if (n =? 223)%N then "SS"
  else if (bool_decide (97 ≤ n ∧ n ≤ 122) ||
           (bool_decide (224 ≤ n ∧ n ≤ 254) && negb (n =? 247)))%N
  then String (ascii_of_N (n - 32)) EmptyString else String c EmptyString.

Fixpoint to_lower (s : string) : string :=
  match s with
  | EmptyString => EmptyString
  | String c s' => String (lower_unit c) (to_lower s')
  end.

Fixpoint to_upper (s : string) : string :=
  match s with
  | EmptyString => EmptyString
  | String c s' => (upper_unit c ++ to_upper s')%string
  end.

Lemma str_forall_cons f c s : str_forall f (String c s) = f c && str_forall f s.
Proof. unfold str_forall. cbn. by rewrite negb_orb, negb_involutive. Qed.

Lemma length_str_app a b : String.length (a ++ b)%string = String.length a + String.length b.
Proof. induction a as [|c a IH]; [done|]. simpl. by rewrite IH. Qed.

(** [xs.join(sep)]. *)
Fixpoint join (sep : string) (xs : list string) : string :=
  match xs with
  | [] => ""
  | [x] => x
  | x :: xs' => (x ++ sep ++ join sep xs')%string
  end.

Definition is_line_break (c : ascii) : bool :=
  ((unit_of c =? 10) || (unit_of c =? 13))%N.

#[global] Arguments append !_ _ / : simpl nomatch.

Lemma str_exists_app f s t :
  str_exists f (s ++ t)%string = str_exists f s || str_exists f t.
Proof. induction s as [|c s IH]; simpl; [done|]. by rewrite IH, orb_assoc. Qed.

Lemma append_nil_r (s : string) : (s ++ "")%string = s.
Proof. induction s as [|c s IH]; simpl; [done|]. by f_equal. Qed.

Lemma append_assoc (s t u : string) : ((s ++ t) ++ u = s ++ t ++ u)%string.
Proof. induction s as [|c s IH]; simpl; [done|]. by f_equal. Qed.

Lemma append_inj_r (s t u : string) : (s ++ t = s ++ u)%string → t = u.
Proof. induction s as [|c s IH]; simpl; [done|]. intros [= ?]. auto. Qed.

Lemma starts_with_iff p s : starts_with p s = true ↔ ∃ t, s = (p ++ t)%string.
Proof.
  unfold starts_with. revert s; induction p as [|c p IH]; intros s; simpl.
  - split; [by exists s|by intros _; destruct s].
  - destruct s as [|c' s]; [split; [done|by intros [? [=]]]|].
    simpl. destruct (ascii_dec c c') as [->|]; [|naive_solver].
    split; [intros [t ->]%IH; by exists t|intros [t [= ->]]; apply IH; by exists t].
Qed.

(** [s.split(c)] for a separator of one unit, and whether a unit occurs. *)
Fixpoint split_on (c : ascii) (s : string) : list string :=
  match s with
  | EmptyString => [EmptyString]
  | String d s =>
      if Ascii.eqb d c then EmptyString :: split_on c s
      else match split_on c s with
           | part :: parts => String d part :: parts
           | [] => [String d EmptyString]
           end
  end.

Definition has_unit (c : ascii) (s : string) : bool := str_exists (Ascii.eqb c) s.

Lemma split_on_none c s : has_unit c s = false → split_on c s = [s].
Proof.
  unfold has_unit. induction s as [|d s IH]; cbn [str_exists split_on]; [done|].
  intros [Hd Hs]%orb_false_iff. by rewrite Ascii.eqb_sym, Hd, (IH Hs).
Qed.

Lemma split_on_app c a b : has_unit c a = false → split_on c (a ++ String c b) = a :: split_on c b.
Proof.
  unfold has_unit. induction a as [|d a IH]; cbn [str_exists String.append split_on].
  { by rewrite Ascii.eqb_refl. }
  intros [Hd Ha]%orb_false_iff. by rewrite Ascii.eqb_sym, Hd, (IH Ha).
Qed.

Lemma has_unit_app c a b : has_unit c (a ++ b)%string = has_unit c a || has_unit c b.
Proof. unfold has_unit. induction a as [|d a IH]; [done|]. simpl. by rewrite IH, orb_assoc. Qed.

Lemma includes_unit c s : includes (String c "") s = has_unit c s.
Proof.
  unfold has_unit. induction s as [|d s IH]; [done|]. cbn [includes str_exists]. rewrite IH. f_equal.
  unfold starts_with. cbn. destruct (ascii_dec c d) as [->|Hne]; [by rewrite Ascii.eqb_refl; destruct s|].
  symmetry. by apply Ascii.eqb_neq.
Qed.

Lemma split_on_nonempty c s : split_on c s ≠ [].
Proof. destruct s as [|d s]; simpl; [done|]. destruct (Ascii.eqb d c); [done|]. by destruct (split_on c s). Qed.

Lemma split_on_parts c s : Forall (λ p, has_unit c p = false) (split_on c s).
Proof.
  induction s as [|d s IH]; simpl; [by repeat constructor|].
  destruct (Ascii.eqb d c) eqn:Hd; [by constructor|].
  rewrite Ascii.eqb_sym in Hd. unfold has_unit in *.
  destruct (split_on c s) as [|p ps]; [by repeat constructor; simpl; rewrite Hd|].
  inversion IH as [|?? Hp Hps]; subst. constructor; [simpl; by rewrite Hd|done].
Qed.

(** ** [xs.sort()] on strings: by code units *)

Definition str_le (s t : string) : Prop := String.leb s t = true.
#[export] Instance str_le_dec s t : Decision (str_le s t).
Proof. unfold str_le. apply _. Defined.
#[export] Instance str_le_total : Total str_le.
Proof. intros s t. apply String.leb_total. Qed.
#[export] Instance str_le_antisymm : AntiSymm (=) str_le.
Proof. intros s t. apply String.leb_antisym. Qed.

Lemma ascii_compare_lt c d : Ascii.compare c d = Lt ↔ (unit_of c < unit_of d)%N.
Proof. unfold Ascii.compare. by rewrite N.compare_lt_iff. Qed.

Lemma ascii_compare_eq c d : Ascii.compare c d = Eq ↔ c = d.
Proof. split; [apply Ascii.compare_eq_iff|intros ->]. apply N.compare_refl. Qed.

#[export] Instance str_le_trans : Transitive str_le.
Proof.
  unfold Transitive, str_le, String.leb. intros s; induction s as [|c s IH]; intros t u.
  - destruct t, u; simpl; done.
  - destruct t as [|d t], u as [|e u]; simpl; try done.
    destruct (Ascii.compare c d) eqn:Hcd; [apply ascii_compare_eq in Hcd as ->| |done];
      destruct (Ascii.compare d e) eqn:Hde; try done.
    + apply IH.
    + apply ascii_compare_eq in Hde as ->. by rewrite Hcd.
    + assert (Ascii.compare c e = Lt) as ->; [|done]. apply ascii_compare_lt.
      apply (N.lt_trans _ (unit_of d)); by apply ascii_compare_lt.
Qed.

Definition js_sort (l : list string) : list string := merge_sort str_le l.

Lemma js_sort_eq l k : js_sort l = js_sort k ↔ l ≡ₚ k.
Proof.
  unfold js_sort. split.
  - intros He. rewrite <-(merge_sort_Permutation str_le l), He. apply merge_sort_Permutation.
  - intros Hp. apply (Sorted_unique str_le); [apply Sorted_merge_sort, _..|].
    by rewrite !merge_sort_Permutation.
Qed.

(** [a.length === b.length && a.every((x, i) => x === b[i])] *)
Fixpoint strs_eqb (a b : list string) : bool :=
  match a, b with
  | [], [] => true
  | x :: a, y :: b => String.eqb x y && strs_eqb a b
  | _, _ => false
  end.

Lemma strs_eqb_iff a b : strs_eqb a b = true ↔ a = b.
Proof.
  revert b; induction a as [|x a IH]; intros [|y b]; simpl; try done.
  rewrite andb_true_iff, String.eqb_eq, IH. naive_solver.
Qed.

(** ** Objects up to the order of their keys *)

(** Equality of values up to the order of object keys. *)
Inductive jseq : jsval → jsval → Prop :=
| jseq_undef : jseq VUndef VUndef
| jseq_null : jseq VNull VNull
| jseq_bool b : jseq (VBool b) (VBool b)
| jseq_num n : jseq (VNum n) (VNum n)
| jseq_str s : jseq (VStr s) (VStr s)
| jseq_arr l l' : Forall2 jseq l l' → jseq (VArr l) (VArr l')
| jseq_obj fs gs :
    (∀ k, k ∈ keys fs ↔ k ∈ keys gs) →
    (∀ k, k ∈ keys gs → jseq (field fs k) (field gs k)) →
    jseq (VObj fs) (VObj gs)
| jseq_opaque : jseq VOpaque VOpaque.

Lemma jseq_str_iff v s : jseq v (VStr s) ↔ v = VStr s.
Proof. split; [by inversion 1|intros ->; constructor]. Qed.
Lemma jseq_num_iff v n : jseq v (VNum n) ↔ v = VNum n.
Proof. split; [by inversion 1|intros ->; constructor]. Qed.
Lemma jseq_bool_iff v b : jseq v (VBool b) ↔ v = VBool b.
Proof. split; [by inversion 1|intros ->; constructor]. Qed.

Lemma jseq_strs_iff v ss : jseq v (VArr (VStr <$> ss)) ↔ v = VArr (VStr <$> ss).
Proof.
  split; [|intros ->; constructor; induction ss; constructor; [constructor|done]].
  intros Hj; inversion Hj as [| | | | |l l' Hl| |]; subst; clear Hj. f_equal.
  revert l Hl; induction ss as [|s ss IH]; intros l Hl; inversion Hl; subst; [done|].
  f_equal/=; [by apply jseq_str_iff|auto].
Qed.

Lemma jseq_obj_iff v gs :
  NoDup (keys gs) →
  jseq v (VObj gs) ↔ ∃ fs, as_record v = Some fs ∧ (∀ k, k ∈ keys fs ↔ k ∈ keys gs) ∧
                           Forall (λ kv, jseq (field fs kv.1) kv.2) gs.
Proof.
  intros Hnd. split.
  - inversion 1 as [| | | | | |fs gs' Hk Hf|]; subst. exists fs. split_and!; [done..|].
    apply Forall_forall. intros [k w] Hin; simpl.
    rewrite <-(field_elem gs k w) by done. apply Hf, list_elem_of_fmap. by exists (k, w).
  - intros (fs & Hv & Hk & Hf). destruct v; simplify_eq/=. constructor; [done|].
    intros k ((k', w) & -> & Hin)%list_elem_of_fmap; simpl.
    rewrite (field_elem gs k' w) by done. by apply (proj1 (Forall_forall _ _) Hf (k', w)).
Qed.

Lemma jseq_refl v : jseq v v.
Proof.
  induction v as [| | | | |l IH|fs IH|] using jsval_nested_ind; constructor; try done.
  - by apply Forall_Forall2_diag.
  - intros k _. induction IH as [|[k' w] fs Hw _ IH]; simpl; [constructor|].
    by destruct (String.eqb k' k).
Qed.

(** ** Sets of strings *)

Lemma list_to_set_size_NoDup (l : list string) :
  size (list_to_set l : gset string) = length l ↔ NoDup l.
Proof.
  split; [|apply size_list_to_set].
  assert (Hle : ∀ k : list string, size (list_to_set k : gset string) ≤ length k).
  { induction k as [|y k IH]; [done|]. simpl. rewrite size_union_alt, size_singleton.
    pose proof (subseteq_size (list_to_set k ∖ {[y]} : gset string) (list_to_set k)
      ltac:(set_solver)). lia. }
  induction l as [|x l IH]; [constructor|]; simpl. specialize (Hle l).
  destruct (decide (x ∈ l)) as [Hin|Hin]; intros Hs.
  - rewrite (subseteq_union_1_L {[x]} (list_to_set l)) in Hs by set_solver. lia.
  - rewrite size_union, size_singleton in Hs by set_solver.
    constructor; [done|]. apply IH. lia.
Qed.

(** [[...new Set(xs)]]: the first occurrence of each. *)
Fixpoint dedup (seen : list string) (xs : list string) : list string :=
  match xs with
  | [] => []
  | x :: xs => if js_elem x seen then dedup seen xs else x :: dedup (x :: seen) xs
  end.

Lemma elem_of_dedup seen xs x : x ∈ dedup seen xs ↔ x ∈ xs ∧ x ∉ seen.
Proof.
  revert seen; induction xs as [|y xs IH]; intros seen; simpl; [set_solver|].
  destruct (js_elem y seen) eqn:Hy.
  - apply js_elem_spec in Hy. rewrite IH, elem_of_cons.
    split; [tauto|]. intros [[->|?] ?]; tauto.
  - apply js_elem_false in Hy. rewrite !elem_of_cons, IH, not_elem_of_cons.
    destruct (decide (x = y)) as [->|]; tauto.
Qed.

Lemma NoDup_dedup seen xs : NoDup (dedup seen xs).
Proof.
  revert seen; induction xs as [|y xs IH]; intros seen; simpl; [constructor|].
  destruct (js_elem y seen); [done|]. constructor; [|done]. rewrite elem_of_dedup, not_elem_of_cons. tauto.
Qed.

Lemma dedup_id seen xs : NoDup xs → (∀ x, x ∈ xs → x ∉ seen) → dedup seen xs = xs.
Proof.
  revert seen; induction xs as [|y xs IH]; intros seen Hnd Hs; simpl; [done|].
  apply NoDup_cons in Hnd as [Hy Hnd].
  rewrite (proj2 (js_elem_false y seen)) by (apply Hs; by left).
  f_equal. apply IH; [done|]. intros x Hx. apply not_elem_of_cons.
  split; [by intros ->|]. apply Hs. by right.
Qed.

(** ** Tactics *)

(** Case on every [match] or [if] of the hypotheses and the goal. *)
Ltac split_matches :=
  repeat (simplify_eq/=; case_match); simplify_eq/=.

(** Turn boolean equalities into propositions, both in hypotheses and goal. *)
Ltac bool_to_prop :=
  repeat match goal with
  | H : context [andb _ _ = true] |- _ => rewrite andb_true_iff in H
  | H : context [orb _ _ = true] |- _ => rewrite orb_true_iff in H
  | H : context [andb _ _ = false] |- _ => rewrite andb_false_iff in H
  | H : context [orb _ _ = false] |- _ => rewrite orb_false_iff in H
  | H : context [negb _ = true] |- _ => rewrite negb_true_iff in H
  | H : context [negb _ = false] |- _ => rewrite negb_false_iff in H
  | H : context [bool_decide _ = true] |- _ => rewrite bool_decide_eq_true in H
  | H : context [bool_decide _ = false] |- _ => rewrite bool_decide_eq_false in H
  | H : context [js_elem _ _ = true] |- _ => rewrite js_elem_spec in H
  | H : context [js_elem _ _ = false] |- _ => rewrite js_elem_false in H
  | |- context [andb _ _ = true] => rewrite andb_true_iff
  | |- context [orb _ _ = true] => rewrite orb_true_iff
  | |- context [andb _ _ = false] => rewrite andb_false_iff
  | |- context [orb _ _ = false] => rewrite orb_false_iff
  | |- context [negb _ = true] => rewrite negb_true_iff
  | |- context [negb _ = false] => rewrite negb_false_iff
  | |- context [bool_decide _ = true] => rewrite bool_decide_eq_true
  | |- context [bool_decide _ = false] => rewrite bool_decide_eq_false
  | |- context [js_elem _ _ = true] => rewrite js_elem_spec
  | |- context [js_elem _ _ = false] => rewrite js_elem_false
  end.

Create HintDb js.
Create Rewrite HintDb js.
Create Rewrite HintDb js_num.
#[export] Hint Resolve field_absent field_elem : js.
#[export] Hint Rewrite @bind_ret_iff @bind_throw_iff @guard_throw_ret @map_throw_ret : js.
#[export] Hint Rewrite num_ltb_Z num_leb_Z is_safe_integer_Z num_integer_Z num_trunc_Z : js_num.
