(* ===== verification/Io.v ===== *)
(** * Io

    Asynchronous code over a store whose calls may fail: a computation returns
    its outcome, the final store and the stores after each of its calls, in
    order, so that a stop between two calls is covered.  The rules of [wp] reason
    about all of them. *)

From S2P Require Import Prelude.

(** What a call of the platform fails with. *)
Inductive errno := ENOENT | EEXIST | other_errno.
#[export] Instance errno_eq_dec : EqDecision errno. Proof. solve_decision. Defined.

Section io.
Context {Disk E : Type}.

Definition io (A : Type) : Type := Disk → outcome E A * Disk * list Disk.

#[export] Instance io_ret : MRet io := λ A a fs, (Ret a, fs, []).
#[export] Instance io_bind : MBind io := λ A B f m fs,
  match m fs with
  | (Ret a, fs1, t1) => let '(r, fs2, t2) := f a fs1 in (r, fs2, t1 ++ t2)
  | (Throw e, fs1, t1) => (Throw e, fs1, t1)
  end.

Definition io_throw {A} (e : E) : io A := λ fs, (Throw e, fs, []).
Definition io_lift {A} (r : outcome E A) : io A :=
  match r with Ret a => mret a | Throw e => io_throw e end.

(** One call; [err] makes an error of what it fails with. *)
Definition io_call {X A} (err : X → E) (op : Disk → outcome X A * Disk) : io A := λ fs,
  let '(r, fs') := op fs in
  (match r with Ret a => Ret a | Throw e => Throw (err e) end, fs', [fs']).

(** [try m finally fin]. *)
Definition try_finally {A} (m : io A) (fin : io unit) : io A := λ fs,
  let '(r, fs1, t1) := m fs in
  let '(r', fs2, t2) := fin fs1 in
  (match r' with Ret _ => r | Throw e => Throw e end, fs2, t1 ++ t2).

(** [for (const a of l) f(a)]. *)
Definition for_each {A} (f : A → io unit) (l : list A) : io unit := foldr (λ a rest, f a;; rest) (mret tt) l.

(** ** Every state of a computation *)

(** [m] from [fs] goes through states in [I] and ends as [Q] says. *)
Definition wp {A} (m : io A) (I : Disk → Prop)
    (Q : outcome E A → Disk → Prop) (fs : Disk) : Prop :=
  let '(r, fs', t) := m fs in Forall I t ∧ Q r fs'.

Lemma wp_ret {A} (a : A) I Q fs : Q (Ret a) fs → wp (mret a) I Q fs.
Proof. by split. Qed.

Lemma wp_throw {A} e I (Q : outcome E A → _) fs : Q (Throw e) fs → wp (io_throw e) I Q fs.
Proof. by split. Qed.

Lemma wp_mono {A} (m : io A) I (Q Q' : _ → _ → Prop) fs :
  wp m I Q fs → (∀ r fs', Q r fs' → Q' r fs') → wp m I Q' fs.
Proof. unfold wp. destruct (m fs) as [[r fs'] t]. naive_solver. Qed.

Lemma wp_bind {A B} (m : io A) (f : A → io B) I Q fs :
  wp m I (λ r fs', match r with Ret a => wp (f a) I Q fs' | Throw e => Q (Throw e) fs' end) fs →
  wp (m ≫= f) I Q fs.
Proof.
  unfold wp, mbind, io_bind. destruct (m fs) as [[[a|e] fs1] t1]; [|done].
  destruct (f a fs1) as [[r fs2] t2]. intros (Ht1 & Ht2 & HQ). split; [by apply Forall_app|done].
Qed.

Lemma wp_call {X A} (err : X → E) (op : Disk → outcome X A * Disk) I Q fs :
  (∀ r fs', op fs = (r, fs') → I fs' ∧
     Q match r with Ret a => Ret a | Throw e => Throw (err e) end fs') →
  wp (io_call err op) I Q fs.
Proof.
  unfold wp, io_call. destruct (op fs) as [r fs']. intros Hop.
  destruct (Hop r fs' eq_refl). split; [by constructor|done].
Qed.

Lemma wp_finally {A} (m : io A) fin I Q fs :
  wp m I (λ r fs', wp fin I (λ r' fs'',
    Q match r' with Ret _ => r | Throw e => Throw e end fs'') fs') fs →
  wp (try_finally m fin) I Q fs.
Proof.
  unfold wp, try_finally. destruct (m fs) as [[r fs1] t1], (fin fs1) as [[r' fs2] t2].
  intros (Ht1 & Ht2 & HQ). split; [by apply Forall_app|done].
Qed.

Lemma wp_lift {A} (r : outcome E A) I (Q : outcome E A → _) fs : Q r fs → wp (io_lift r) I Q fs.
Proof. destruct r; [apply wp_ret|apply wp_throw]. Qed.
End io.

Arguments io Disk E A : clear implicits.

(** [try m catch h]: the handler may throw errors of another type. *)
Definition try_catch {Disk E F A} (m : io Disk E A) (h : E → io Disk F A) : io Disk F A := λ fs,
  match m fs with
  | (Ret a, fs1, t1) => (Ret a, fs1, t1)
  | (Throw e, fs1, t1) => let '(r, fs2, t2) := h e fs1 in (r, fs2, t1 ++ t2)
  end.

Lemma wp_catch {Disk E F A} (m : io Disk E A) (h : E → io Disk F A) I Q fs :
  wp m I (λ r fs', match r with Ret a => Q (Ret a) fs' | Throw e => wp (h e) I Q fs' end) fs →
  wp (try_catch m h) I Q fs.
Proof.
  unfold wp, try_catch. destruct (m fs) as [[[a|e] fs1] t1]; [done|].
  destruct (h e fs1) as [[r fs2] t2]. intros (Ht1 & Ht2 & HQ). split; [by apply Forall_app|done].
Qed.

(** ** The states themselves

    [runs m Q fs]: what [Q] says of the outcome, the final store and all the
    stores [m] goes through from [fs]. *)

Definition runs {Disk E A} (m : io Disk E A) (Q : outcome E A → Disk → list Disk → Prop) (fs : Disk) : Prop :=
  let '(r, fs', t) := m fs in Q r fs' t.

Section runs.
Context {Disk E : Type}.

Lemma runs_mono {A} (m : io Disk E A) (Q Q' : _ → _ → _ → Prop) fs :
  runs m Q fs → (∀ r fs' t, Q r fs' t → Q' r fs' t) → runs m Q' fs.
Proof. unfold runs. destruct (m fs) as [[r fs'] t]. auto. Qed.

Lemma runs_ret {A} (a : A) (Q : outcome E A → Disk → _ → Prop) fs : Q (Ret a) fs [] → runs (mret a) Q fs.
Proof. done. Qed.

Lemma runs_throw {A} e (Q : outcome E A → Disk → _ → Prop) fs : Q (Throw e) fs [] → runs (io_throw e) Q fs.
Proof. done. Qed.

Lemma runs_lift {A} (r : outcome E A) (Q : outcome E A → Disk → _ → Prop) fs : Q r fs [] → runs (io_lift r) Q fs.
Proof. by destruct r. Qed.

Lemma runs_bind {A B} (m : io Disk E A) (f : A → io Disk E B) Q fs :
  runs m (λ r fs1 t1, match r with
    | Ret a => runs (f a) (λ r fs2 t2, Q r fs2 (t1 ++ t2)) fs1
    | Throw e => Q (Throw e) fs1 t1 end) fs →
  runs (m ≫= f) Q fs.
Proof.
  unfold runs, mbind, io_bind. destruct (m fs) as [[[a|e] fs1] t1]; [|done].
  by destruct (f a fs1) as [[r fs2] t2].
Qed.

Lemma runs_call {X A} (err : X → E) (op : Disk → outcome X A * Disk) (Q : outcome E A → Disk → _ → Prop) fs :
  (∀ r fs', op fs = (r, fs') → Q match r with Ret a => Ret a | Throw e => Throw (err e) end fs' [fs']) →
  runs (io_call err op) Q fs.
Proof. unfold runs, io_call. destruct (op fs) as [r fs']. auto. Qed.

Lemma runs_catch {F A} (m : io Disk E A) (h : E → io Disk F A) Q fs :
  runs m (λ r fs1 t1, match r with
    | Ret a => Q (Ret a) fs1 t1
    | Throw e => runs (h e) (λ r fs2 t2, Q r fs2 (t1 ++ t2)) fs1 end) fs →
  runs (try_catch m h) Q fs.
Proof.
  unfold runs, try_catch. destruct (m fs) as [[[a|e] fs1] t1]; [done|].
  by destruct (h e fs1) as [[r fs2] t2].
Qed.

Lemma runs_finally {A} (m : io Disk E A) fin Q fs :
  runs m (λ r fs1 t1, runs fin (λ r' fs2 t2,
    Q match r' with Ret _ => r | Throw e => Throw e end fs2 (t1 ++ t2)) fs1) fs →
  runs (try_finally m fin) Q fs.
Proof.
  unfold runs, try_finally. destruct (m fs) as [[r fs1] t1]. by destruct (fin fs1) as [[r' fs2] t2].
Qed.
End runs.

(** ** What every state keeps

    [stays R m]: every state [m] goes through from [d] is related to [d], and the
    last one is one of them. *)

Definition stays {Disk E A} (R : Disk → Disk → Prop) (m : io Disk E A) : Prop :=
  ∀ d, runs m (λ _ d' t, d' ∈ d :: t ∧ Forall (R d) (d :: t)) d.

Section stays.
Context {Disk E : Type} (R : Disk → Disk → Prop) `{!PreOrder R}.

Lemma stays_ret {A} (a : A) : stays R (mret a : io Disk E A).
Proof. intros d. split; [by left|]. apply Forall_cons_2; [reflexivity|constructor]. Qed.
Lemma stays_throw {A} (e : E) : stays R (io_throw e : io Disk E A).
Proof. intros d. split; [by left|]. apply Forall_cons_2; [reflexivity|constructor]. Qed.
Lemma stays_lift {A} (r : outcome E A) : stays R (io_lift r : io Disk E A).
Proof. destruct r; [apply stays_ret|apply stays_throw]. Qed.

Lemma stays_step d d1 d2 t1 t2 :
  d1 ∈ d :: t1 → Forall (R d) (d :: t1) → d2 ∈ d1 :: t2 → Forall (R d1) (d1 :: t2) →
  d2 ∈ d :: t1 ++ t2 ∧ Forall (R d) (d :: t1 ++ t2).
Proof.
  intros Hin1 Hk1 Hin2 Hk2. inversion Hk1 as [|?? Hd Hk1']; inversion Hk2 as [|?? _ Hk2']; subst.
  assert (R d d1) as Hk by (rewrite Forall_forall in Hk1; by apply Hk1).
  split; [apply elem_of_cons in Hin2 as [->|Hin2]; set_solver|].
  apply Forall_cons_2; [done|]. apply Forall_app. split; [done|].
  eapply Forall_impl; [exact Hk2'|]. intros s Hs. by etransitivity.
Qed.

Lemma stays_bind {A B} (m : io Disk E A) (f : A → io Disk E B) :
  stays R m → (∀ a, stays R (f a)) → stays R (m ≫= f).
Proof.
  intros Hm Hf d. apply runs_bind. eapply runs_mono; [apply Hm|].
  intros [a|e] d1 t1 [Hin1 Hk1]; [|done]. eapply runs_mono; [apply Hf|].
  intros r d2 t2 [Hin2 Hk2]. by eapply stays_step.
Qed.

Lemma stays_call {X A} (err : X → E) (op : Disk → outcome X A * Disk) :
  (∀ d, R d (op d).2) → stays R (io_call err op).
Proof.
  intros Hop d. apply runs_call. intros r d' Hd. specialize (Hop d). rewrite Hd in Hop.
  split; [set_solver|]. apply Forall_cons_2; [reflexivity|]. by apply Forall_cons_2.
Qed.
End stays.

(** [moves R m]: the last state and every state [m] goes through are related to
    the first. *)

Definition moves {Disk E A} (R : Disk → Disk → Prop) (m : io Disk E A) : Prop :=
  ∀ d, runs m (λ _ d' t, Forall (R d) (d' :: t)) d.

Section moves.
Context {Disk E : Type} (R : Disk → Disk → Prop) `{!PreOrder R}.

Lemma moves_chain d d1 d2 t1 t2 :
  Forall (R d) (d1 :: t1) → Forall (R d1) (d2 :: t2) → Forall (R d) (d2 :: t1 ++ t2).
Proof.
  intros H1 H2. inversion H1 as [|?? Hd1 H1']; inversion H2 as [|?? Hd2 H2']; subst.
  apply Forall_cons_2; [by etransitivity|]. apply Forall_app. split; [done|].
  eapply Forall_impl; [exact H2'|]. intros s Hs. by etransitivity.
Qed.

Lemma moves_ret {A} (a : A) : moves R (mret a : io Disk E A).
Proof. intros d. apply runs_ret, Forall_singleton. reflexivity. Qed.
Lemma moves_throw {A} (e : E) : moves R (io_throw e : io Disk E A).
Proof. intros d. apply runs_throw, Forall_singleton. reflexivity. Qed.
Lemma moves_lift {A} (r : outcome E A) : moves R (io_lift r : io Disk E A).
Proof. destruct r; [apply moves_ret|apply moves_throw]. Qed.
Lemma moves_bind {A B} (m : io Disk E A) (f : A → io Disk E B) :
  moves R m → (∀ a, moves R (f a)) → moves R (m ≫= f).
Proof.
  intros Hm Hf d. apply runs_bind. eapply runs_mono; [apply Hm|]. intros [a|e] d1 t1 H1; [|done].
  eapply runs_mono; [apply Hf|]. intros r d2 t2 H2. by eapply moves_chain.
Qed.
Lemma moves_call {X A} (err : X → E) (op : Disk → outcome X A * Disk) :
  (∀ d, R d (op d).2) → moves R (io_call err op).
Proof.
  intros Hop d. apply runs_call. intros r d' Hd. specialize (Hop d). rewrite Hd in Hop. apply Forall_cons_2; [done|by apply Forall_singleton].
Qed.
Lemma moves_catch {F A} (m : io Disk E A) (h : E → io Disk F A) :
  moves R m → (∀ e, moves R (h e)) → moves R (try_catch m h).
Proof.
  intros Hm Hh d. apply runs_catch. eapply runs_mono; [apply Hm|]. intros [a|e] d1 t1 H1; [done|].
  eapply runs_mono; [apply Hh|]. intros r d2 t2 H2. by eapply moves_chain.
Qed.
Lemma moves_finally {A} (m : io Disk E A) fin : moves R m → moves R fin → moves R (try_finally m fin).
Proof.
  intros Hm Hf d. apply runs_finally. eapply runs_mono; [apply Hm|]. intros r d1 t1 H1.
  eapply runs_mono; [apply Hf|]. intros r' d2 t2 H2. exact (moves_chain _ _ _ _ _ H1 H2).
Qed.
Lemma moves_each {A} (f : A → io Disk E unit) l : (∀ a, moves R (f a)) → moves R (for_each f l).
Proof.
  intros Hf. induction l as [|a l IH]; [apply moves_ret|]. by apply moves_bind; [apply Hf|intros _].
Qed.
End moves.

(** ** Errors

    [throws P m]: every error of [m] is in [P]. *)

Definition throws {Disk E A} (P : E → Prop) (m : io Disk E A) : Prop :=
  ∀ d, runs m (λ r _ _, match r with Ret _ => True | Throw e => P e end) d.

Section throws.
Context {Disk E : Type} (P : E → Prop).

Lemma throws_ret {A} (a : A) : throws P (mret a : io Disk E A).
Proof. by intros d. Qed.
Lemma throws_throw {A} (e : E) : P e → throws P (io_throw e : io Disk E A).
Proof. by intros HP d. Qed.
Lemma throws_lift {A} (r : outcome E A) :
  match r with Ret _ => True | Throw e => P e end → throws P (io_lift r : io Disk E A).
Proof. intros Hr d. by apply runs_lift. Qed.
Lemma throws_guard b (e : E) : P e → throws P (io_lift (guard_throw b e) : io Disk E unit).
Proof. intros He. apply throws_lift. by destruct b. Qed.
Lemma throws_bind {A B} (m : io Disk E A) (f : A → io Disk E B) :
  throws P m → (∀ a, throws P (f a)) → throws P (m ≫= f).
Proof.
  intros Hm Hf d. apply runs_bind. eapply runs_mono; [apply Hm|]. intros [a|e] d1 t1 HP; [apply Hf|done].
Qed.
Lemma throws_call {X A} (err : X → E) (op : Disk → outcome X A * Disk) :
  (∀ e, P (err e)) → throws P (io_call err op).
Proof. intros He d. apply runs_call. by intros [a|e] d' _. Qed.
End throws.
