(* ===== verification/Paths.v ===== *)
(** * Paths

    [node:path] on a POSIX system.  An absolute, normalized path is the list of
    its components; [path_text] writes it.  [resolve], [relative], [dirname] and
    [basename] are the functions of the module, and a path read back from its
    text is the path. *)

From Stdlib Require Import Lia.
From S2P Require Import Prelude.

Abbreviation path := (list string) (only parsing).

Definition SEP : ascii := "/".

Definition isAbsolute (p : string) : bool := starts_with "/" p.
Definition path_text (p : path) : string := ("/" ++ join "/" p)%string.

(** ** Resolving *)

(** One component of a text, as [normalize] treats it. *)
Definition step (p : path) (component : string) : path :=
  if String.eqb component "" || String.eqb component "." then p
  else if String.eqb component ".." then removelast p
  else p ++ [component].

Definition resolve_from (base : path) (text : string) : path :=
  fold_left step (split_on SEP text) (if isAbsolute text then [] else base).
(** [resolve(...texts)] in the working directory [cwd]. *)
Definition resolve_in (cwd : path) (texts : list string) : path := fold_left resolve_from texts cwd.

Definition dirname (p : path) : path := removelast p.
Definition basename (p : path) : string := List.last p "".

(** ** The way from one path to another *)

Fixpoint strip_common (a b : path) : path * path :=
  match a, b with
  | x :: a', y :: b' => if String.eqb x y then strip_common a' b' else (a, b)
  | _, _ => (a, b)
  end.
Definition relative (from to : path) : list string :=
  let '(up, down) := strip_common from to in repeat ".." (length up) ++ down.
Definition relative_text (from to : path) : string := join "/" (relative from to).

Example resolve_sample : resolve_in ["a"; "b"] ["../c/./d//"; "e"] = ["a"; "c"; "d"; "e"].
Proof. reflexivity. Qed.
Example resolve_absolute : resolve_in ["a"] ["b"; "/c/../../d"] = ["d"].
Proof. reflexivity. Qed.
Example relative_sample : relative_text ["a"; "b"; "c"] ["a"; "d"] = "../../d".
Proof. reflexivity. Qed.

(** ** Components *)

Definition is_component (c : string) : Prop :=
  c ≠ "" ∧ c ≠ "." ∧ c ≠ ".." ∧ has_unit SEP c = false.
Definition normal (p : path) : Prop := Forall is_component p.

Lemma normal_app p q : normal (p ++ q) ↔ normal p ∧ normal q.
Proof. apply Forall_app. Qed.

Lemma removelast_prefix {A} (l : list A) : removelast l `prefix_of` l.
Proof.
  induction l as [|x l IH]; [done|]. cbn [removelast]. destruct l as [|y l]; [apply prefix_nil|].
  by apply prefix_cons.
Qed.

Lemma normal_removelast p : normal p → normal (removelast p).
Proof.
  intros Hp. destruct (removelast_prefix p) as [q Hq]. unfold normal in *.
  rewrite Hq in Hp. by apply Forall_app in Hp as [? _].
Qed.

Lemma normal_step p c : normal p → has_unit SEP c = false → normal (step p c).
Proof.
  intros Hp Hc. unfold step. destruct (String.eqb_spec c "") as [->|]; [done|].
  destruct (String.eqb_spec c ".") as [->|]; [done|]. cbn.
  destruct (String.eqb_spec c "..") as [->|]; [by apply normal_removelast|].
  apply normal_app. by repeat constructor.
Qed.

Lemma normal_resolve_from base text : normal base → normal (resolve_from base text).
Proof.
  intros Hb. unfold resolve_from. pose proof (split_on_parts SEP text) as Hs.
  assert (normal (if isAbsolute text then [] else base)) as Hn by (destruct (isAbsolute text); [constructor|done]).
  revert Hn. generalize (if isAbsolute text then [] else base).
  induction Hs as [|c cs Hc _ IH]; intros p Hp; [done|]. by apply IH, normal_step.
Qed.

Lemma normal_resolve cwd texts : normal cwd → normal (resolve_in cwd texts).
Proof. revert cwd. induction texts as [|t ts IH]; intros cwd Hc; [done|]. by apply IH, normal_resolve_from. Qed.

(** A component is appended; the text of a normal path resolves to it. *)
Lemma step_component p c : is_component c → step p c = p ++ [c].
Proof.
  intros (H1 & H2 & H3 & _). unfold step.
  by rewrite (proj2 (String.eqb_neq _ _) H1), (proj2 (String.eqb_neq _ _) H2), (proj2 (String.eqb_neq _ _) H3).
Qed.

Lemma not_absolute c t : c ≠ "" → has_unit SEP c = false → isAbsolute (c ++ t)%string = false.
Proof.
  intros Hc Hd. unfold isAbsolute. apply not_true_iff_false. rewrite starts_with_iff. intros [u He].
  destruct c as [|d c]; [done|]. by simplify_eq/=.
Qed.

Lemma resolve_from_component base c : is_component c → resolve_from base c = base ++ [c].
Proof.
  intros Hc. pose proof Hc as (H1 & _ & _ & H4). unfold resolve_from.
  rewrite <- (append_nil_r c) at 2. rewrite not_absolute by done.
  rewrite split_on_none by done. by apply step_component.
Qed.

Lemma split_join p : normal p → p ≠ [] → split_on SEP (join "/" p) = p.
Proof.
  induction p as [|c p IH]; [done|]. intros Hp _. inversion Hp as [|?? Hc Hp']; subst.
  destruct Hc as (_ & _ & _ & Hc). destruct p as [|d p]; [by apply split_on_none|].
  change (join "/" (c :: d :: p)) with (c ++ String SEP (join "/" (d :: p)))%string.
  rewrite split_on_app by done. by rewrite IH.
Qed.

Lemma steps_components p q : normal q → fold_left step q p = p ++ q.
Proof.
  revert p. induction q as [|c q IH]; intros p Hq; [by rewrite app_nil_r|].
  inversion Hq; subst. cbn [fold_left]. rewrite step_component by done.
  rewrite IH by done. by rewrite <- app_assoc.
Qed.

Lemma resolve_path_text base p : normal p → resolve_from base (path_text p) = p.
Proof.
  intros Hp. unfold resolve_from, path_text.
  change (isAbsolute ("/" ++ join "/" p)) with (String.prefix "" (join "/" p)).
  assert (∀ s, String.prefix "" s = true) as -> by (by intros []).
  destruct p as [|c p]; [done|]. change ("/" ++ ?t)%string with ("" ++ String SEP t)%string.
  rewrite split_on_app, split_join by done.
  change (fold_left step ("" :: c :: p) []) with (fold_left step (c :: p) []). by rewrite steps_components.
Qed.

(** ** Containment *)

Lemma strip_common_spec a b up down :
  strip_common a b = (up, down) →
  ∃ common, a = common ++ up ∧ b = common ++ down ∧
    match up, down with x :: _, y :: _ => x ≠ y | _, _ => True end.
Proof.
  revert b. induction a as [|x a IH]; intros b; [intros [= <- <-]; by exists []|].
  destruct b as [|y b]; [intros [= <- <-]; by exists []|]. cbn [strip_common].
  destruct (String.eqb_spec x y) as [->|Hxy].
  - intros (common & -> & -> & Hd)%IH. by exists (y :: common).
  - intros [= <- <-]. by exists [].
Qed.

Lemma relative_below root rest : relative root (root ++ rest) = rest.
Proof.
  unfold relative. assert (strip_common root (root ++ rest) = ([], rest)) as ->; [|done].
  induction root as [|x root IH]; [by destruct rest|]. cbn. by rewrite String.eqb_refl.
Qed.

Lemma head_text c rest : ∃ t, join "/" (c :: rest) = (c ++ t)%string.
Proof. destruct rest; [exists ""; by rewrite append_nil_r|by eexists]. Qed.

(** Outside the root, the way begins by going up. *)
Lemma relative_outside root p : ¬ root `prefix_of` p → ∃ t, relative_text root p = (".." ++ t)%string.
Proof.
  unfold relative_text, relative. destruct (strip_common root p) as [up down] eqn:Hs.
  apply strip_common_spec in Hs as (common & -> & -> & _). destruct up as [|u up].
  - rewrite app_nil_r. intros Hn. destruct Hn. by eexists.
  - intros _. apply head_text.
Qed.

(** The test a containment check makes of the relative text. *)
Definition escapes (text : string) : bool :=
  String.eqb text "" || String.eqb text ".." || starts_with "../" text || isAbsolute text.

Lemma escapes_relative root p :
  normal p → escapes (relative_text root p) = false ↔ ∃ rest, rest ≠ [] ∧ p = root ++ rest.
Proof.
  intros Hp. unfold escapes, relative_text. split.
  - unfold relative. destruct (strip_common root p) as [up down] eqn:Hs.
    apply strip_common_spec in Hs as (common & -> & -> & _).
    destruct up as [|u up]; [rewrite app_nil_r; destruct down as [|d down]; [done|by exists (d :: down)]|].
    intros Hf. exfalso. revert Hf. cbn [length repeat app join].
    destruct (repeat ".." (length up) ++ down); [done|].
    rewrite !orb_false_iff. intros [[_ Hf] _]. apply not_true_iff_false in Hf. apply Hf, starts_with_iff. by eexists.
  - intros (rest & Hr & ->). rewrite relative_below. apply normal_app in Hp as [_ Hp].
    destruct rest as [|c rest]; [done|]. inversion Hp as [|?? (H1 & H2 & H3 & H4) _]; subst.
    assert (∃ t, join "/" (c :: rest) = (c ++ t)%string ∧ (t = "" ∨ ∃ t', t = String SEP t')) as (t & -> & Ht).
    { destruct rest as [|d rest]; [exists ""; split; [by rewrite append_nil_r|by left]|].
      exists (String SEP (join "/" (d :: rest))). split; [done|right; by eexists]. }
    rewrite not_absolute by done. rewrite orb_false_r, !orb_false_iff.
    rewrite !(String.eqb_neq (c ++ t)). split_and!.
    + by destruct c.
    + unfold SEP in *. destruct Ht as [->|[t' ->]]; [by rewrite append_nil_r|].
      intros He. by destruct c as [|a [|b [|? c]]]; simplify_eq/=.
    + apply not_true_iff_false. rewrite starts_with_iff. intros (u & He). unfold SEP in *.
      destruct Ht as [->|[t' ->]]; destruct c as [|a [|b [|? c]]]; simplify_eq/=; done.
Qed.
