(* ===== verification/Workspace.v ===== *)
(** * Workspace

    What the maintenance scripts act on: the files of a checkout, by absolute
    path, and the programs they run.  Every call may fail, and what a program
    does to the files is only known where a script relies on it. *)

From Stdlib Require Import Lia.
From S2P Require Import Prelude Io Paths.

(** An exit code and what was written to the standard output. *)
Record process_result := { exitCode : Z; stdout : string }.

(** [file] is the contents of the regular files.  [ws_lstat] tells that there is
    something at a path; [ws_cp] and [ws_rm] are recursive, the latter without an
    error when there is nothing. *)
Class Workspace (Disk : Type) := {
  file : Disk → path → option string;
  ws_mkdir : path → Disk → outcome errno unit * Disk;
  ws_cp : path → path → Disk → outcome errno unit * Disk;
  ws_lstat : path → Disk → outcome errno unit * Disk;
  ws_rename : path → path → Disk → outcome errno unit * Disk;
  ws_rm : path → Disk → outcome errno unit * Disk;
  ws_spawn : list string → Disk → outcome errno process_result * Disk;
  (** What reading a file gives in a state, whole and in chunks. *)
  ws_read : Disk → string → option string;
  ws_stream : Disk → string → option (list string) }.

(** The tree at a path: the contents of the files below it. *)
Definition tree := path → option string.
Definition no_tree : tree := λ _, None.
Definition tree_at `{Workspace Disk} (d : Disk) (p : path) : tree := λ rel, file d (p ++ rel).
Definition holds `{Workspace Disk} (d : Disk) (p : path) (t : tree) : Prop := ∀ rel, file d (p ++ rel) = t rel.

(** Neither path is below the other. *)
Definition apart (p q : path) : Prop := ¬ p `prefix_of` q ∧ ¬ q `prefix_of` p.

(** Every file that is not below one of [roots] is as before. *)
Definition kept_outside `{Workspace Disk} (roots : list path) (d d' : Disk) : Prop :=
  ∀ p, Forall (λ r, ¬ r `prefix_of` p) roots → file d' p = file d p.

(** What the calls promise.  Copying and removing may stop half way; [rename]
    moves a whole tree or changes nothing; a program in [read_only] changes no
    file. *)
Class WorkspaceLaws (Disk : Type) `{Workspace Disk} (read_only : list string → Prop) := {
  mkdir_keeps p d : kept_outside [] d (ws_mkdir p d).2;
  lstat_keeps p d : kept_outside [] d (ws_lstat p d).2;
  lstat_missing p d : (ws_lstat p d).1 = Throw ENOENT → holds d p no_tree;
  cp_keeps p q d : kept_outside [q] d (ws_cp p q d).2;
  cp_copies p q d : apart p q → holds d q no_tree → (ws_cp p q d).1 = Ret tt →
    holds (ws_cp p q d).2 q (tree_at d p);
  rename_keeps p q d :
    kept_outside (match (ws_rename p q d).1 with Ret _ => [p; q] | Throw _ => [] end) d (ws_rename p q d).2;
  rename_moves p q d : apart p q → (ws_rename p q d).1 = Ret tt →
    holds (ws_rename p q d).2 q (tree_at d p) ∧ holds (ws_rename p q d).2 p no_tree;
  rm_keeps p d : kept_outside [p] d (ws_rm p d).2;
  rm_removes p d : (ws_rm p d).1 = Ret tt → holds (ws_rm p d).2 p no_tree;
  spawn_keeps command d : read_only command → kept_outside [] d (ws_spawn command d).2 }.

(** ** Lemmas *)

Section facts.
Context {Disk} `{Workspace Disk}.
Implicit Types d : Disk.

Lemma holds_self d p : holds d p (tree_at d p).
Proof. done. Qed.

Lemma prefix_apart p q rel : apart p q → ¬ p `prefix_of` (q ++ rel).
Proof.
  intros [Hpq Hqp] [k Hk]. destruct (decide (length p ≤ length q)) as [Hl|Hl].
  - apply Hpq. assert (p = take (length p) (q ++ rel)) as -> by (by rewrite Hk, take_app_length).
    rewrite take_app_le by done. by exists (drop (length p) q); rewrite take_drop.
  - apply Hqp. assert (q = take (length q) (p ++ k)) as -> by (by rewrite <- Hk, take_app_length).
    rewrite take_app_le by lia. by exists (drop (length q) p); rewrite take_drop.
Qed.

Lemma apart_sym p q : apart p q → apart q p.
Proof. by intros []. Qed.

(** A tree outside the roots stays. *)
Lemma holds_kept roots d d' p t :
  kept_outside roots d d' → Forall (λ r, apart r p) roots → holds d p t → holds d' p t.
Proof.
  intros Hk Hr Hh rel. rewrite Hk; [apply Hh|]. eapply Forall_impl; [exact Hr|].
  intros r Ha. by apply prefix_apart.
Qed.

Lemma holds_ext d p t t' : (∀ rel, t rel = t' rel) → holds d p t → holds d p t'.
Proof. intros Ht Hh rel. by rewrite Hh. Qed.

Lemma siblings_apart parent a b : a ≠ b → apart (parent ++ [a]) (parent ++ [b]).
Proof.
  intros Hab. split; intros [k Hk]; rewrite <- app_assoc in Hk; apply app_inv_head in Hk; by simplify_eq/=.
Qed.
End facts.

#[export] Hint Resolve apart_sym : workspace.

(** * Directories, links and temporary directories

    The file system as the vendoring scripts see it: directories that are
    listed, files that are read and copied, symbolic links, temporary
    directories and programs.  Every call may fail.

    [node_at] is what is at a path itself and [content_at] what reading it gives,
    through links.  [Decides] is the way to specify a check that only reads. *)

Inductive kind := k_file | k_directory | k_symlink | k_other.
Inductive node := n_file (bytes : string) | n_directory | n_symlink | n_other.
#[export] Instance kind_eq_dec : EqDecision kind. Proof. solve_decision. Defined.
#[export] Instance node_eq_dec : EqDecision node. Proof. solve_decision. Defined.

Definition kind_of (n : node) : kind :=
  match n with n_file _ => k_file | n_directory => k_directory | n_symlink => k_symlink | n_other => k_other end.

(** [tr_mkdir] is recursive, [tr_rm] recursive and forced; [tr_mkdtemp] gives the
    directory it made. *)
Class SourceTree (Disk : Type) := {
  node_at : Disk → path → option node;
  content_at : Disk → path → option string;
  tr_readdir : path → Disk → outcome errno (list (string * kind)) * Disk;
  tr_lstat : path → Disk → outcome errno kind * Disk;
  tr_readFile : path → Disk → outcome errno string * Disk;
  tr_writeFile : path → string → Disk → outcome errno unit * Disk;
  tr_copyFile : path → path → Disk → outcome errno unit * Disk;
  tr_mkdir : path → Disk → outcome errno unit * Disk;
  tr_mkdtemp : path → Disk → outcome errno path * Disk;
  tr_rm : path → Disk → outcome errno unit * Disk;
  tr_spawn : list string → Disk → outcome errno process_result * Disk }.

(** Nothing was changed. *)
Definition unchanged `{SourceTree Disk} (d d' : Disk) : Prop :=
  (∀ p, node_at d' p = node_at d p) ∧ ∀ p, content_at d' p = content_at d p.

(** Outside [roots], nothing but missing directories was made. *)
Definition touched `{SourceTree Disk} (roots : list path) (d d' : Disk) : Prop :=
  ∀ p, Forall (λ r, ¬ r `prefix_of` p) roots →
    node_at d' p = node_at d p ∨ (node_at d p = None ∧ node_at d' p = Some n_directory).

(** What the calls promise.  [writes command] is where a program writes. *)
Class SourceTreeLaws (Disk : Type) `{SourceTree Disk} (writes : list string → list path → Prop) := {
  readdir_unchanged p d : unchanged d (tr_readdir p d).2;
  lstat_unchanged p d : unchanged d (tr_lstat p d).2;
  readFile_unchanged p d : unchanged d (tr_readFile p d).2;
  readdir_lists p d es : (tr_readdir p d).1 = Ret es →
    NoDup es.*1 ∧ ∀ name k, (name, k) ∈ es ↔ is_component name ∧ kind_of <$> node_at d (p ++ [name]) = Some k;
  lstat_tells p d k : (tr_lstat p d).1 = Ret k → kind_of <$> node_at d p = Some k;
  lstat_enoent p d : (tr_lstat p d).1 = Throw ENOENT → node_at d p = None;
  readFile_reads p d bytes : (tr_readFile p d).1 = Ret bytes → content_at d p = Some bytes;
  file_content p d bytes : node_at d p = Some (n_file bytes) → content_at d p = Some bytes;
  parent_is_directory p x d : node_at d (p ++ [x]) ≠ None →
    node_at d p = Some n_directory ∨ node_at d p = Some n_symlink;
  writeFile_touches p bytes d : touched [p] d (tr_writeFile p bytes d).2;
  copyFile_touches p q d : touched [q] d (tr_copyFile p q d).2;
  mkdir_touches p d : touched [] d (tr_mkdir p d).2;
  mkdtemp_makes p d :
    match (tr_mkdtemp p d).1 with
    | Ret r => (normal p → normal r) ∧ node_at (tr_mkdtemp p d).2 r = Some n_directory ∧
        (∀ rel, node_at d (r ++ rel) = None) ∧ (∀ rel, rel ≠ [] → node_at (tr_mkdtemp p d).2 (r ++ rel) = None) ∧
        touched [r] d (tr_mkdtemp p d).2
    | Throw _ => unchanged d (tr_mkdtemp p d).2
    end;
  rm_touches p d : touched [p] d (tr_rm p d).2;
  rm_empties p d : (tr_rm p d).1 = Ret tt → ∀ rel, node_at (tr_rm p d).2 (p ++ rel) = None;
  spawn_touches command roots d : writes command roots → touched roots d (tr_spawn command d).2;
  writeFile_writes p bytes d : (tr_writeFile p bytes d).1 = Ret tt → content_at (tr_writeFile p bytes d).2 p = Some bytes }.

Section relations.
Context {Disk} `{SourceTree Disk}.
Implicit Types d : Disk.

#[export] Instance unchanged_preorder : PreOrder unchanged.
Proof.
  split; [by intros d; split|]. intros d1 d2 d3 [Hn Hc] [Hn' Hc'].
  split; intros p; [by rewrite Hn', Hn|by rewrite Hc', Hc].
Qed.
Lemma unchanged_sym d d' : unchanged d d' → unchanged d' d.
Proof. by intros [Hn Hc]; split. Qed.

#[export] Instance touched_preorder roots : PreOrder (touched roots).
Proof.
  split; [by intros d p Hp; left|]. intros d1 d2 d3 H1 H2 p Hp.
  destruct (H1 p Hp) as [H1'|[H1' H1'']], (H2 p Hp) as [H2'|[H2' H2'']];
    rewrite ?H1', ?H2', ?H2''; auto; try congruence. right. split; congruence.
Qed.

Lemma unchanged_touched roots d d' : unchanged d d' → touched roots d d'.
Proof. intros [Hn _] p _. by left. Qed.

Lemma touched_more roots roots' d d' :
  Forall (λ r, ∃ r', r' ∈ roots' ∧ r' `prefix_of` r) roots → touched roots d d' → touched roots' d d'.
Proof.
  intros Hr Ht p Hp. apply Ht. rewrite Forall_forall in Hr |- *. rewrite Forall_forall in Hp.
  intros r Hin Hpre. destruct (Hr r Hin) as (r' & Hr' & Hpre'). apply (Hp r' Hr'). by etransitivity.
Qed.
End relations.

(** ** Checks that only read

    A verdict: what the answer is, what it means that there is none, and the
    errors that say nothing about the files.  [exhausted] is what being out of
    fuel means. *)

Section decides.
Context {Disk E : Type} `{SourceTree Disk}.
Context (silent : E → Prop) (exhausted : E → Disk → Prop).

Definition verdict {A} (P : Disk → A → Prop) (d : Disk) (r : outcome E A) : Prop :=
  match r with
  | Ret a => P d a
  | Throw e => silent e ∨ exhausted e d ∨ ∀ a, ¬ P d a
  end.

Record Decides {A} (m : Io.io Disk E A) (P : Disk → A → Prop) : Prop := {
  de_runs d : runs m (λ r d' t, Forall (unchanged d) (d' :: t) ∧ verdict P d r) d;
  de_one d a a' : P d a → P d a' → a = a';
  de_same d d' a : unchanged d d' → P d a → P d' a }.

Hypothesis exhausted_same : ∀ e d d', unchanged d d' → exhausted e d → exhausted e d'.

Lemma decides_ret {A} (a : A) : Decides (mret a) (λ _ x, x = a).
Proof. split; [|congruence|done]. intros d. apply runs_ret. by repeat constructor. Qed.

Lemma decides_throw {A} (e : E) : Decides (A := A) (io_throw e) (λ _ _, False).
Proof. split; [|done|done]. intros d. apply runs_throw. split; [by repeat constructor|]. right; right. auto. Qed.

Lemma decides_lift {A} (r : outcome E A) : Decides (io_lift r) (λ _ x, r = Ret x).
Proof.
  split; [|congruence|done]. intros d. apply runs_lift. split; [by repeat constructor|].
  destruct r; [done|]. right; right. done.
Qed.

Lemma decides_guard (b : bool) (e : E) : Decides (io_lift (guard_throw b e)) (λ _ _, b = true).
Proof.
  split; [|by intros _ [] []|done]. intros d. apply runs_lift. split; [by repeat constructor|].
  destruct b; [done|]. right; right. done.
Qed.

Lemma decides_bind {A B} (m : Io.io Disk E A) (f : A → Io.io Disk E B) P Q :
  Decides m P → (∀ a, Decides (f a) (Q a)) →
  Decides (m ≫= f) (λ d b, ∃ a, P d a ∧ Q a d b).
Proof.
  intros [Hm Hone Hsame] Hf. split.
  - intros d. apply runs_bind. eapply runs_mono; [apply Hm|]. intros [a|e] d1 t1 [Ht1 HP].
    + eapply runs_mono; [apply Hf|]. intros r d2 t2 [Ht2 HQ]. inversion Ht1 as [|?? Hd1 Ht1']; subst.
      inversion Ht2 as [|?? Hd2 Ht2']; subst. split.
      { apply Forall_cons_2; [by etransitivity|]. apply Forall_app. split; [done|].
        eapply Forall_impl; [exact Ht2'|]. intros s Hs. by etransitivity. }
      pose proof (unchanged_sym _ _ Hd1) as Hd1'. destruct r as [b|e].
      * exists a. split; [done|]. by eapply (de_same _ _ (Hf a)).
      * destruct HQ as [?|[?|Hno]]; [by left|right; left; by eapply exhausted_same|right; right].
        intros b (a' & HP' & HQ'). rewrite (Hone d a' a HP' HP) in HQ'. apply (Hno b).
        by eapply (de_same _ _ (Hf a)).
    + split; [done|]. destruct HP as [?|[?|Hno]]; [by left|by right; left|right; right].
      intros b (a & HP & _). by apply (Hno a).
  - intros d b b' (a & HP & HQ) (a' & HP' & HQ'). rewrite (Hone d a' a HP' HP) in HQ'.
    by eapply (de_one _ _ (Hf a)).
  - intros d d' b Hd (a & HP & HQ). exists a. split; [by eapply Hsame|]. by eapply (de_same _ _ (Hf a)).
Qed.

(** The meaning of a check, in other words. *)
Lemma decides_iff {A} (m : Io.io Disk E A) P P' : (∀ d a, P d a ↔ P' d a) → Decides m P → Decides m P'.
Proof.
  intros HP [Hm Hone Hsame]. split.
  - intros d. eapply runs_mono; [apply Hm|]. intros [a|e] d' t [Ht Hv]; (split; [done|]); cbn in *.
    + by apply HP.
    + destruct Hv as [?|[?|Hno]]; [auto|auto|]. right; right. intros a Ha. by apply (Hno a), HP.
  - intros d a a' Ha Ha'. apply HP in Ha, Ha'. by eapply Hone.
  - intros d d' a Hd Ha. apply HP in Ha. apply HP. by eapply Hsame.
Qed.

(** A check of one result. *)
Lemma decides_if {A} (b : bool) (m : Io.io Disk E A) e P :
  Decides m P → Decides (if b then io_throw e else m) (λ d a, b = false ∧ P d a).
Proof.
  intros Hm. destruct b.
  - eapply decides_iff; [|apply decides_throw]. intros d a. split; [done|]. by intros [].
  - eapply decides_iff; [|exact Hm]. intros d a. split; [done|]. by intros [].
Qed.

(** A call that only reads, and fails silently. *)
Lemma decides_call {A} (err : errno → E) (op : Disk → outcome errno A * Disk) P :
  (∀ e, silent (err e)) → (∀ d, unchanged d (op d).2) → (∀ d a, (op d).1 = Ret a → P d a) →
  (∀ d a a', P d a → P d a' → a = a') → (∀ d d' a, unchanged d d' → P d a → P d' a) →
  Decides (io_call err op) P.
Proof.
  intros Hs Hu HP Hone Hsame. split; [|done|done]. intros d. apply runs_call. intros r d' Hd.
  specialize (Hu d). specialize (HP d). rewrite Hd in Hu, HP. split; [by repeat apply Forall_cons_2|].
  destruct r as [a|e]; [by apply HP|by left].
Qed.

(** A loop of checks: every element passes. *)
Lemma decides_each_in {A} (f : A → Io.io Disk E unit) (P : A → Disk → Prop) (l : list A) :
  (∀ a, a ∈ l → Decides (f a) (λ d _, P a d)) →
  Decides (for_each f l) (λ d _, Forall (λ a, P a d) l).
Proof.
  induction l as [|a l IH]; intros Hf.
  - eapply decides_iff; [|apply decides_ret]. intros d []. split; [constructor|done].
  - assert (Decides (f a) (λ d _, P a d)) as Ha by (apply Hf; by left).
    assert (Decides (for_each f l) (λ d _, Forall (λ a, P a d) l)) as Hl by (apply IH; intros; apply Hf; by right).
    eapply decides_iff; [|apply (decides_bind (f a) _ (λ d _, P a d) (λ _ d _, Forall (λ a, P a d) l)); [exact Ha|intros _; exact Hl]].
    intros d u. rewrite Forall_cons. split; [by intros (_ & ? & ?)|]. intros [? ?]. by exists tt.
Qed.

Lemma decides_each {A} (f : A → Io.io Disk E unit) (P : A → Disk → Prop) (l : list A) :
  (∀ a, Decides (f a) (λ d _, P a d)) → Decides (for_each f l) (λ d _, Forall (λ a, P a d) l).
Proof. intros Hf. apply decides_each_in. auto. Qed.
End decides.

(** * A checkout

    A concrete [Workspace]: the files as an association list, the programs as a
    table, and a plan of the calls that fail.  A call takes the next entry of the
    plan; [stops_at name] makes a copy or a removal leave the files with that
    last component out, or behind, and then fail. *)

Inductive fault := works | fails | stops_at (name : string).

Record checkout := {
  co_files : list (path * string);
  co_programs : list string → outcome errno process_result;
  co_plan : list fault }.

(** ** Association lists *)

Definition assoc (l : list (path * string)) (p : path) : option string :=
  kv ← list_find (λ kv : path * string, kv.1 = p) l; Some kv.2.2.

Lemma assoc_cons q s l p : assoc ((q, s) :: l) p = if decide (q = p) then Some s else assoc l p.
Proof.
  unfold assoc. cbn. destruct (decide (q = p)); [done|]. by destruct (list_find _ l) as [[]|].
Qed.

(** [f] says which paths are kept. *)
Definition only (f : path → bool) (l : list (path * string)) : list (path * string) :=
  filter (λ kv, f kv.1 = true) l.

Lemma assoc_only f l p : assoc (only f l) p = if f p then assoc l p else None.
Proof.
  unfold only. induction l as [|[q s] l IH]; [by destruct (f p)|]. rewrite filter_cons. cbn [fst].
  destruct (decide (f q = true)) as [Hq|Hq]; rewrite !assoc_cons, IH.
  - destruct (decide (q = p)) as [<-|]; [by rewrite Hq|done].
  - destruct (decide (q = p)) as [<-|]; [|done]. apply not_true_is_false in Hq. by rewrite Hq.
Qed.

(** The files below [p], moved below [q]. *)
Definition moved (p q : path) (l : list (path * string)) : list (path * string) :=
  (λ kv, (q ++ drop (length p) kv.1, kv.2)) <$> only (λ x, bool_decide (p `prefix_of` x)) l.

Lemma assoc_moved p q l rel : assoc (moved p q l) (q ++ rel) = assoc l (p ++ rel).
Proof.
  unfold moved, only. induction l as [|[x s] l IH]; [done|]. rewrite filter_cons. cbn [fst].
  destruct (decide (bool_decide (p `prefix_of` x) = true)) as [Hx|Hx].
  - apply bool_decide_eq_true in Hx as [k ->]. rewrite fmap_cons. cbn [fst snd]. rewrite !assoc_cons, IH, drop_app_length.
    destruct (decide (q ++ k = q ++ rel)) as [He|He], (decide (p ++ k = p ++ rel)) as [He'|He']; try done.
    + apply app_inv_head in He as ->. done.
    + apply app_inv_head in He' as ->. done.
  - rewrite IH, assoc_cons. destruct (decide (x = p ++ rel)) as [->|]; [|done].
    exfalso. apply Hx, bool_decide_eq_true. by eexists.
Qed.

Lemma assoc_moved_outside p q l x : ¬ q `prefix_of` x → assoc (moved p q l) x = None.
Proof.
  intros Hx. unfold moved. induction (only _ l) as [|[y s] l' IH]; [done|]. rewrite fmap_cons. cbn [fst snd].
  rewrite assoc_cons, IH. destruct (decide _) as [<-|]; [|done]. exfalso. apply Hx. by eexists.
Qed.

Lemma assoc_app l l' p : assoc (l ++ l') p = match assoc l p with Some s => Some s | None => assoc l' p end.
Proof. induction l as [|[q s] l IH]; [done|]. cbn [app]. rewrite !assoc_cons, IH. by destruct (decide _). Qed.

Definition outside (roots : list path) (x : path) : bool := forallb (λ r, negb (bool_decide (r `prefix_of` x))) roots.

Lemma outside_iff roots x : outside roots x = true ↔ Forall (λ r, ¬ r `prefix_of` x) roots.
Proof.
  unfold outside. rewrite forallb_forall, Forall_forall. setoid_rewrite list_elem_of_In.
  setoid_rewrite negb_true_iff. by setoid_rewrite bool_decide_eq_false.
Qed.
Lemma outside_below roots p rel : p ∈ roots → outside roots (p ++ rel) = false.
Proof.
  intros Hp. apply not_true_iff_false. rewrite outside_iff, Forall_forall. intros Hf. apply (Hf p Hp). by eexists.
Qed.

(** ** The calls *)

Definition below (p x : path) : bool := bool_decide (p `prefix_of` x).
Definition named (name : string) (x : path) : bool := String.eqb (basename x) name.

Definition copied (p q : path) (l : list (path * string)) : list (path * string) := moved p q l ++ l.

Definition step_plan (d : checkout) (files : list (path * string)) : checkout :=
  {| co_files := files; co_programs := co_programs d; co_plan := tail (co_plan d) |}.

(** A call that does [ok], or [stopped name] half way. *)
Definition attempt (ok : list (path * string)) (stopped : string → list (path * string)) (d : checkout)
    : outcome errno unit * checkout :=
  match co_plan d with
  | fails :: _ => (Throw other_errno, step_plan d (co_files d))
  | stops_at name :: _ => (Throw other_errno, step_plan d (stopped name))
  | _ => (Ret tt, step_plan d ok)
  end.

#[export] Instance checkout_workspace : Workspace checkout := {
  file d := assoc (co_files d);
  ws_mkdir p d := attempt (co_files d) (λ _, co_files d) d;
  ws_cp p q d :=
    attempt (copied p q (co_files d))
      (λ name, moved p q (only (λ x, negb (named name x)) (co_files d)) ++ co_files d) d;
  ws_lstat p d :=
    match co_plan d with
    | fails :: _ | stops_at _ :: _ => (Throw other_errno, step_plan d (co_files d))
    | _ => (if bool_decide (only (below p) (co_files d) = []) then Throw ENOENT else Ret tt, step_plan d (co_files d))
    end;
  ws_rename p q d := attempt (moved p q (co_files d) ++ only (outside [p; q]) (co_files d)) (λ _, co_files d) d;
  ws_rm p d :=
    attempt (only (outside [p]) (co_files d)) (λ name, only (λ x, negb (below p x && negb (named name x))) (co_files d)) d;
  ws_spawn command d :=
    match co_plan d with
    | fails :: _ | stops_at _ :: _ => (Throw other_errno, step_plan d (co_files d))
    | _ => (co_programs d command, step_plan d (co_files d))
    end;
  ws_read d p := assoc (co_files d) (resolve_from [] p);
  ws_stream d p := s ← assoc (co_files d) (resolve_from [] p); Some [s] }.

Lemma attempt_cases ok stopped d (P : outcome errno unit → checkout → Prop) :
  (∀ d', co_files d' = ok → P (Ret tt) d') →
  (∀ d', co_files d' = co_files d → P (Throw other_errno) d') →
  (∀ name d', co_files d' = stopped name → P (Throw other_errno) d') →
  P (attempt ok stopped d).1 (attempt ok stopped d).2.
Proof. intros H1 H2 H3. unfold attempt. destruct (co_plan d) as [|[| |name] ?]; cbn; eauto. Qed.

Lemma attempt_ok ok stopped d : (attempt ok stopped d).1 = Ret tt → co_files (attempt ok stopped d).2 = ok.
Proof. unfold attempt. by destruct (co_plan d) as [|[| |name] ?]. Qed.

Lemma holds_nothing (d : checkout) p : only (below p) (co_files d) = [] → holds d p no_tree.
Proof.
  intros He rel. pose proof (assoc_only (below p) (co_files d) (p ++ rel)) as Ha. rewrite He in Ha.
  unfold below in Ha. rewrite bool_decide_eq_true_2 in Ha by (by eexists). done.
Qed.

(** ** The laws *)

Lemma outside_cons (x r : path) (roots : list path) : Forall (λ r, ¬ r `prefix_of` x) (r :: roots) → ¬ r `prefix_of` x.
Proof. by inversion 1. Qed.

Lemma lookup_copied p q l l' x : ¬ q `prefix_of` x → assoc (moved p q l ++ l') x = assoc l' x.
Proof. intros Hx. by rewrite assoc_app, assoc_moved_outside. Qed.

#[export] Instance checkout_laws : WorkspaceLaws checkout (λ _, True).
Proof.
  split.
  - intros p d x _. cbn. by apply (attempt_cases _ _ d (λ _ d', assoc (co_files d') x = assoc (co_files d) x)); intros; f_equal.
  - intros p d x _. cbn. by destruct (co_plan d) as [|[] ?].
  - intros p d Hl. apply holds_nothing. cbn in Hl.
    destruct (co_plan d) as [|[] ?]; cbn in Hl; try done; by case_bool_decide.
  - intros p q d x Hx%outside_cons. cbn.
    apply (attempt_cases _ _ d (λ _ d', assoc (co_files d') x = assoc (co_files d) x)); intros; [|congruence|];
      rewrite H; by apply lookup_copied.
  - intros p q d _ Hq Hr rel. cbn in *. rewrite (attempt_ok _ _ _ Hr). unfold copied. rewrite assoc_app, assoc_moved. unfold tree_at. cbn.
    specialize (Hq rel). destruct (assoc (co_files d) (p ++ rel)); [done|apply Hq].
  - intros p q d x. cbn.
    apply (attempt_cases _ _ d (λ r d', Forall (λ r, ¬ r `prefix_of` x) (match r with Ret _ => [p; q] | Throw _ => [] end) →
        assoc (co_files d') x = assoc (co_files d) x)); [|congruence..].
    intros d' -> Hx. rewrite assoc_app, assoc_moved_outside by (by inversion Hx as [|?? _ Hx']; inversion Hx').
    rewrite assoc_only. by rewrite (proj2 (outside_iff [p; q] x)).
  - intros p q d [Hpq Hqp] Hr. cbn in *. pose proof (attempt_ok _ _ _ Hr) as He. split; intros rel; cbn; rewrite He.
    + rewrite assoc_app, assoc_moved, assoc_only, outside_below by set_solver. unfold tree_at. cbn.
      by destruct (assoc (co_files d) (p ++ rel)).
    + rewrite assoc_app, assoc_moved_outside by (by apply prefix_apart).
      by rewrite assoc_only, outside_below by set_solver.
  - intros p d x Hx. cbn.
    apply (attempt_cases _ _ d (λ _ d', assoc (co_files d') x = assoc (co_files d) x)); [|congruence|].
    + intros d' ->. by rewrite assoc_only, (proj2 (outside_iff [p] x)).
    + intros name d' ->. rewrite assoc_only. unfold below. by rewrite bool_decide_eq_false_2 by (by inversion Hx).
  - intros p d Hr rel. cbn in *. rewrite (attempt_ok _ _ _ Hr). by rewrite assoc_only, outside_below by set_solver.
  - intros command d _ x _. cbn. by destruct (co_plan d) as [|[] ?].
Qed.
