(* ===== verification/Config.v ===== *)
(** * Config

    [src/src/domain/config.ts]: the configuration schema version 3, its
    strict parser, the save gate and the three-state settings evaluation. *)

From S2P Require Import Prelude.

(** ** Data *)

Inductive AutoOrOff := auto | off.
Inductive ServiceTier := tier_default | tier_priority | tier_flex.
Inductive Verbosity := verbosity_low | verbosity_medium | verbosity_high.
Inductive TransportMode := transport_auto | transport_sse.
Inductive WebSearchMode := search_disabled | search_cached | search_indexed | search_live.
Inductive ShellSurface := unified_exec | shell_command | shell_disabled.
Inductive ApprovalPolicy := on_request | never.
Inductive FilesystemAccessPolicy := workspace | unrestricted.

(** ["model" | number]. *)
Inductive TokenLimit := limit_model | limit_tokens (n : jsnum).

Inductive CompactionConfig :=
| compaction_off
| compaction_auto (autoCompactTokenLimit : TokenLimit).

Record ActivationConfig := { providers : list string }.
Record OptionalTools := { viewImage : AutoOrOff; imageGeneration : AutoOrOff }.
Record ToolsConfig := { backgroundSessions : bool; optional_tools : OptionalTools }.
Record SecurityConfig := {
  approvalPolicy : ApprovalPolicy;
  filesystemAccessPolicy : FilesystemAccessPolicy }.
Record CodexSection := {
  serviceTier : ServiceTier;
  verbosity : Verbosity;
  transport_mode : TransportMode;
  webSearch_mode : WebSearchMode;
  compaction : CompactionConfig }.
Record UiConfig := { status : bool }.

(** The only value of [schemaVersion] is 3. *)
Inductive SchemaVersion := schema_3.

Record CodexConfig := {
  schemaVersion : SchemaVersion;
  activation : ActivationConfig;
  tools : ToolsConfig;
  security : SecurityConfig;
  codex : CodexSection;
  ui : UiConfig }.

Inductive ConfigurationIssueCode :=
| invalid_type | invalid_value | missing_field | unknown_field
| unsupported_capability | capability_unavailable.

Record ConfigurationIssue := {
  issue_path : string;
  issue_code : ConfigurationIssueCode;
  issue_message : string }.

Inductive ConfigurationError := configuration_error (issues : list ConfigurationIssue).

#[export] Instance AutoOrOff_eq_dec : EqDecision AutoOrOff. Proof. solve_decision. Defined.
#[export] Instance ServiceTier_eq_dec : EqDecision ServiceTier. Proof. solve_decision. Defined.
#[export] Instance Verbosity_eq_dec : EqDecision Verbosity. Proof. solve_decision. Defined.
#[export] Instance TransportMode_eq_dec : EqDecision TransportMode. Proof. solve_decision. Defined.
#[export] Instance WebSearchMode_eq_dec : EqDecision WebSearchMode. Proof. solve_decision. Defined.
#[export] Instance ShellSurface_eq_dec : EqDecision ShellSurface. Proof. solve_decision. Defined.
#[export] Instance ApprovalPolicy_eq_dec : EqDecision ApprovalPolicy. Proof. solve_decision. Defined.
#[export] Instance FilesystemAccessPolicy_eq_dec : EqDecision FilesystemAccessPolicy.
Proof. solve_decision. Defined.
#[export] Instance TokenLimit_eq_dec : EqDecision TokenLimit. Proof. solve_decision. Defined.
#[export] Instance CompactionConfig_eq_dec : EqDecision CompactionConfig.
Proof. solve_decision. Defined.
#[export] Instance ActivationConfig_eq_dec : EqDecision ActivationConfig.
Proof. solve_decision. Defined.
#[export] Instance OptionalTools_eq_dec : EqDecision OptionalTools. Proof. solve_decision. Defined.
#[export] Instance ToolsConfig_eq_dec : EqDecision ToolsConfig. Proof. solve_decision. Defined.
#[export] Instance SecurityConfig_eq_dec : EqDecision SecurityConfig.
Proof. solve_decision. Defined.
#[export] Instance CodexSection_eq_dec : EqDecision CodexSection. Proof. solve_decision. Defined.
#[export] Instance UiConfig_eq_dec : EqDecision UiConfig. Proof. solve_decision. Defined.
#[export] Instance SchemaVersion_eq_dec : EqDecision SchemaVersion. Proof. solve_decision. Defined.
#[export] Instance CodexConfig_eq_dec : EqDecision CodexConfig. Proof. solve_decision. Defined.
#[export] Instance ConfigurationIssueCode_eq_dec : EqDecision ConfigurationIssueCode.
Proof. solve_decision. Defined.
#[export] Instance ConfigurationIssue_eq_dec : EqDecision ConfigurationIssue.
Proof. solve_decision. Defined.
#[export] Instance ConfigurationError_eq_dec : EqDecision ConfigurationError.
Proof. solve_decision. Defined.

(** String-literal union types: each value and the literal it is. *)
Class Literal (A : Type) := {
  literal_name : A → string;
  literal_name_inj :: Inj (=) (=) literal_name }.

Ltac solve_literal := intros [] []; simpl; congruence.

#[export] Program Instance AutoOrOff_literal : Literal AutoOrOff :=
  {| literal_name a := match a with auto => "auto" | off => "off" end |}.
Next Obligation. solve_literal. Defined.
#[export] Program Instance ServiceTier_literal : Literal ServiceTier :=
  {| literal_name a := match a with
       tier_default => "default" | tier_priority => "priority" | tier_flex => "flex" end |}.
Next Obligation. solve_literal. Defined.
#[export] Program Instance Verbosity_literal : Literal Verbosity :=
  {| literal_name a := match a with
       verbosity_low => "low" | verbosity_medium => "medium" | verbosity_high => "high" end |}.
Next Obligation. solve_literal. Defined.
#[export] Program Instance TransportMode_literal : Literal TransportMode :=
  {| literal_name a := match a with transport_auto => "auto" | transport_sse => "sse" end |}.
Next Obligation. solve_literal. Defined.
#[export] Program Instance WebSearchMode_literal : Literal WebSearchMode :=
  {| literal_name a := match a with
       search_disabled => "disabled" | search_cached => "cached"
     | search_indexed => "indexed" | search_live => "live" end |}.
Next Obligation. solve_literal. Defined.
#[export] Program Instance ShellSurface_literal : Literal ShellSurface :=
  {| literal_name a := match a with
       unified_exec => "unified-exec" | shell_command => "shell-command"
     | shell_disabled => "disabled" end |}.
Next Obligation. solve_literal. Defined.
#[export] Program Instance ApprovalPolicy_literal : Literal ApprovalPolicy :=
  {| literal_name a := match a with on_request => "on-request" | never => "never" end |}.
Next Obligation. solve_literal. Defined.
#[export] Program Instance FilesystemAccessPolicy_literal : Literal FilesystemAccessPolicy :=
  {| literal_name a := match a with
       workspace => "workspace" | unrestricted => "unrestricted" end |}.
Next Obligation. solve_literal. Defined.

(** The [mode] discriminant of the compaction section. *)
Inductive CompactionMode := mode_off | mode_auto.
#[export] Instance CompactionMode_eq_dec : EqDecision CompactionMode. Proof. solve_decision. Defined.
#[export] Program Instance CompactionMode_literal : Literal CompactionMode :=
  {| literal_name a := match a with mode_off => "off" | mode_auto => "auto" end |}.
Next Obligation. solve_literal. Defined.

Definition compaction_mode (c : CompactionConfig) : CompactionMode :=
  match c with compaction_off => mode_off | compaction_auto _ => mode_auto end.

(** [createDefaultConfig]. *)
Definition createDefaultConfig : CodexConfig := {|
  schemaVersion := schema_3;
  activation := {| providers := ["openai-codex"] |};
  tools := {| backgroundSessions := true;
              optional_tools := {| viewImage := auto; imageGeneration := auto |} |};
  security := {| approvalPolicy := on_request; filesystemAccessPolicy := workspace |};
  codex := {| serviceTier := tier_default;
              verbosity := verbosity_low;
              transport_mode := transport_auto;
              webSearch_mode := search_cached;
              compaction := compaction_auto limit_model |};
  ui := {| status := true |} |}.

(** ** The issue log

    Every check pushes onto one shared [issues] array, which is only ever
    appended to: a computation [W A] is its result and the issues it pushed. *)

Record W (A : Type) := mkW { result : A; pushed : list ConfigurationIssue }.
Arguments mkW {A} _ _.
Arguments result {A} _.
Arguments pushed {A} _.

#[export] Instance W_ret : MRet W := λ A a, mkW a [].
#[export] Instance W_bind : MBind W := λ A B f m,
  mkW (result (f (result m))) (pushed m ++ pushed (f (result m))).

Definition issue (path : string) (code : ConfigurationIssueCode) (message : string) : W unit :=
  mkW tt [{| issue_path := path; issue_code := code; issue_message := message |}].

#[global] Arguments issue : simpl never.

Definition when (b : bool) (m : W unit) : W unit := if b then m else mret tt.

Definition record (value : jsval) (path : string) : W (option (list (string * jsval))) :=
  match as_record value with
  | Some fs => mret (Some fs)
  | None => issue path invalid_type "must be an object";; mret None
  end.

Fixpoint require_keys (fs : list (string * jsval)) (expected : list string) (path : string) : W unit :=
  match expected with
  | [] => mret tt
  | key :: rest =>
      when (negb (js_elem key (keys fs)))
        (issue (if String.eqb path "$" then key else path +:+ "." +:+ key)
           missing_field "is required");;
      require_keys fs rest path
  end.

Definition exactKeys (fs : list (string * jsval)) (expected : list string) (path : string) : W unit :=
  when (existsb (λ key, negb (js_elem key expected)) (keys fs))
    (issue path unknown_field "contains unsupported fields");;
  require_keys fs expected path.

Definition enumValue `{Literal A} (value : jsval) (allowed : list A) (path : string) : W (option A) :=
  match value with
  | VStr s =>
      match find (λ a, String.eqb (literal_name a) s) allowed with
      | Some a => mret (Some a)
      | None => issue path invalid_value "has an unsupported value";; mret None
      end
  | _ => issue path invalid_value "has an unsupported value";; mret None
  end.

(** [literal(value, 3, path, issues)]. *)
Definition literal_3 (value : jsval) (path : string) : W (option SchemaVersion) :=
  match value with
  | VNum n =>
      if num_eqb n 3%Z then mret (Some schema_3)
      else issue path invalid_value "has an unsupported value";; mret None
  | _ => issue path invalid_value "has an unsupported value";; mret None
  end.

Definition booleanValue (value : jsval) (path : string) : W (option bool) :=
  match value with
  | VBool b => mret (Some b)
  | _ => issue path invalid_type "must be a boolean";; mret None
  end.

Definition nestedMode `{Literal A} (value : jsval) (allowed : list A) (path : string) : W (option A) :=
  container ← record value path;
  match container with
  | None => mret None
  | Some container =>
      exactKeys container ["mode"] path;;
      enumValue (field container "mode") allowed (path +:+ ".mode")
  end.

#[global] Arguments record : simpl never.
#[global] Arguments exactKeys : simpl never.
#[global] Arguments enumValue : simpl never.
#[global] Arguments literal_3 : simpl never.
#[global] Arguments booleanValue : simpl never.
#[global] Arguments nestedMode : simpl never.

(** ** Section parsers *)

(** The negation of the [providers.some(...)] test on one element. *)
Definition valid_provider_id (provider : string) : bool :=
  negb (String.length (trim provider) =? 0) &&
  (String.length provider <=? 256) &&
  negb (str_exists is_line_break provider) &&
  String.eqb provider (trim provider).

Definition as_provider (v : jsval) : option string :=
  match v with
  | VStr p => if valid_provider_id p then Some p else None
  | _ => None
  end.

Definition parseActivation (value : jsval) : W (option ActivationConfig) :=
  activation ← record value "activation";
  match activation with
  | None => mret None
  | Some activation =>
      exactKeys activation ["providers"] "activation";;
      match field activation "providers" with
      | VArr items =>
          match items, mapM as_provider items with
          | _ :: _, Some ps =>
              if negb (size (list_to_set ps : gset string) =? length ps) then
                issue "activation.providers" invalid_value "must contain unique provider ids";;
                mret None
              else mret (Some {| providers := ps |})
          | _, _ =>
              issue "activation.providers" invalid_value "must contain non-empty provider ids";;
              mret None
          end
      | _ => issue "activation.providers" invalid_type "must be an array";; mret None
      end
  end.

Definition parseTools (value : jsval) : W (option ToolsConfig) :=
  tools ← record value "tools";
  match tools with
  | None => mret None
  | Some tools =>
      exactKeys tools ["backgroundSessions"; "optional"] "tools";;
      backgroundSessions ← booleanValue (field tools "backgroundSessions") "tools.backgroundSessions";
      optional ← record (field tools "optional") "tools.optional";
      match optional with
      | None => mret None
      | Some optional =>
          exactKeys optional ["viewImage"; "imageGeneration"] "tools.optional";;
          viewImage ← enumValue (field optional "viewImage") [auto; off] "tools.optional.viewImage";
          imageGeneration ← enumValue (field optional "imageGeneration") [auto; off]
            "tools.optional.imageGeneration";
          mret (b ← backgroundSessions; vi ← viewImage; ig ← imageGeneration;
                Some {| backgroundSessions := b;
                        optional_tools := {| viewImage := vi; imageGeneration := ig |} |})
      end
  end.

Definition parseSecurity (value : jsval) : W (option SecurityConfig) :=
  security ← record value "security";
  match security with
  | None => mret None
  | Some security =>
      exactKeys security ["approvalPolicy"; "filesystemAccessPolicy"] "security";;
      approvalPolicy ← enumValue (field security "approvalPolicy") [on_request; never]
        "security.approvalPolicy";
      filesystemAccessPolicy ← enumValue (field security "filesystemAccessPolicy")
        [workspace; unrestricted] "security.filesystemAccessPolicy";
      mret (a ← approvalPolicy; f ← filesystemAccessPolicy;
            Some {| approvalPolicy := a; filesystemAccessPolicy := f |})
  end.

Definition parseCompaction (value : jsval) : W (option CompactionConfig) :=
  compaction ← record value "codex.compaction";
  match compaction with
  | None => mret None
  | Some compaction =>
      mode ← enumValue (field compaction "mode") [mode_off; mode_auto] "codex.compaction.mode";
      match mode with
      | Some mode_off =>
          exactKeys compaction ["mode"] "codex.compaction";;
          mret (Some compaction_off)
      | None => mret None
      | Some mode_auto =>
          exactKeys compaction ["mode"; "autoCompactTokenLimit"] "codex.compaction";;
          let invalid :=
            issue "codex.compaction.autoCompactTokenLimit" invalid_value
              "must be model or a positive integer";; mret None in
          match field compaction "autoCompactTokenLimit" with
          | VStr s =>
              if String.eqb s "model" then mret (Some (compaction_auto limit_model)) else invalid
          | VNum n =>
              if is_safe_integer n && num_gtb n 0%Z
              then mret (Some (compaction_auto (limit_tokens n))) else invalid
          | _ => invalid
          end
      end
  end.

Definition parseCodex (value : jsval) : W (option CodexSection) :=
  codex ← record value "codex";
  match codex with
  | None => mret None
  | Some codex =>
      exactKeys codex ["serviceTier"; "verbosity"; "transport"; "webSearch"; "compaction"] "codex";;
      serviceTier ← enumValue (field codex "serviceTier")
        [tier_default; tier_priority; tier_flex] "codex.serviceTier";
      verbosity ← enumValue (field codex "verbosity")
        [verbosity_low; verbosity_medium; verbosity_high] "codex.verbosity";
      transportMode ← nestedMode (field codex "transport") [transport_auto; transport_sse]
        "codex.transport";
      webSearchMode ← nestedMode (field codex "webSearch")
        [search_disabled; search_cached; search_indexed; search_live] "codex.webSearch";
      compaction ← parseCompaction (field codex "compaction");
      mret (t ← serviceTier; v ← verbosity; tm ← transportMode; wm ← webSearchMode;
            c ← compaction;
            Some {| serviceTier := t; verbosity := v; transport_mode := tm;
                    webSearch_mode := wm; compaction := c |})
  end.

Definition parseUi (value : jsval) : W (option UiConfig) :=
  ui ← record value "ui";
  match ui with
  | None => mret None
  | Some ui =>
      exactKeys ui ["status"] "ui";;
      status ← booleanValue (field ui "status") "ui.status";
      mret (s ← status; Some {| status := s |})
  end.

Definition root_keys : list string :=
  ["schemaVersion"; "activation"; "tools"; "security"; "codex"; "ui"].

Definition parse_root (root : list (string * jsval)) : W (option CodexConfig) :=
  exactKeys root root_keys "$";;
  schemaVersion ← literal_3 (field root "schemaVersion") "schemaVersion";
  activation ← parseActivation (field root "activation");
  tools ← parseTools (field root "tools");
  security ← parseSecurity (field root "security");
  codex ← parseCodex (field root "codex");
  ui ← parseUi (field root "ui");
  mret (v ← schemaVersion; a ← activation; t ← tools; s ← security; c ← codex; u ← ui;
        Some {| schemaVersion := v; activation := a; tools := t; security := s;
                codex := c; ui := u |}).

Definition parseConfig (value : jsval) : outcome ConfigurationError CodexConfig :=
  let 'mkW root issues := record value "$" in
  match root with
  | None => Throw (configuration_error issues)
  | Some root =>
      let 'mkW config issues := parse_root root in
      match issues, config with
      | [], Some config => Ret config
      | _, _ => Throw (configuration_error issues)
      end
  end.

(** ** The configuration as a value

    The object [parseConfig] returns, as [JSON.stringify] and a second
    [parseConfig] see it. *)

Definition lit `{Literal A} (a : A) : jsval := VStr (literal_name a).

Definition limit_value (l : TokenLimit) : jsval :=
  match l with limit_model => VStr "model" | limit_tokens n => VNum n end.

Definition compaction_value (c : CompactionConfig) : jsval :=
  match c with
  | compaction_off => VObj [("mode", lit mode_off)]
  | compaction_auto l => VObj [("mode", lit mode_auto); ("autoCompactTokenLimit", limit_value l)]
  end.

Definition activation_value (a : ActivationConfig) : jsval :=
  VObj [("providers", VArr (VStr <$> providers a))].
Definition tools_value (t : ToolsConfig) : jsval :=
  VObj [("backgroundSessions", VBool (backgroundSessions t));
        ("optional", VObj [("viewImage", lit (viewImage (optional_tools t)));
                           ("imageGeneration", lit (imageGeneration (optional_tools t)))])].
Definition security_value (s : SecurityConfig) : jsval :=
  VObj [("approvalPolicy", lit (approvalPolicy s));
        ("filesystemAccessPolicy", lit (filesystemAccessPolicy s))].
Definition codex_value (c : CodexSection) : jsval :=
  VObj [("serviceTier", lit (serviceTier c)); ("verbosity", lit (verbosity c));
        ("transport", VObj [("mode", lit (transport_mode c))]);
        ("webSearch", VObj [("mode", lit (webSearch_mode c))]);
        ("compaction", compaction_value (compaction c))].
Definition ui_value (u : UiConfig) : jsval := VObj [("status", VBool (status u))].

Definition config_value (c : CodexConfig) : jsval :=
  VObj [("schemaVersion", VNum 3%Z); ("activation", activation_value (activation c));
        ("tools", tools_value (tools c)); ("security", security_value (security c));
        ("codex", codex_value (codex c)); ("ui", ui_value (ui c))].

(** The invariant the parser establishes. *)
Definition valid_limit (l : TokenLimit) : bool :=
  match l with
  | limit_model => true
  | limit_tokens n => is_safe_integer n && num_gtb n 0%Z
  end.

Definition valid_providers (ps : list string) : Prop :=
  ps ≠ [] ∧ Forall (λ p, valid_provider_id p = true) ps ∧ NoDup ps.

Definition valid_compaction (c : CompactionConfig) : bool :=
  match c with compaction_off => true | compaction_auto l => valid_limit l end.

Definition valid_config (c : CodexConfig) : Prop :=
  valid_providers (providers (activation c)) ∧
  valid_compaction (compaction (codex c)) = true.

(** ** Capability context *)

(** A missing field is [None]; [modelAutoCompactTokenLimit] distinguishes
    missing ([None]), [null] ([Some None]) and a number. *)
Record ConfigCapabilityContext := {
  contextWindow : option jsnum;
  modelAutoCompactTokenLimit : option (option jsnum);
  bridgeCapabilities : option (list string);
  shellSurface : option ShellSurface;
  providerSupportsWebsockets : option bool;
  remoteCompactionV2 : option bool;
  compactEndpoint : option bool;
  backgroundSessionsAvailable : option bool;
  viewImageAvailable : option bool;
  imageGenerationAvailable : option bool;
  webSearchAvailable : option bool;
  manualCompactionAvailable : option bool;
  transportAvailable : option bool }.

(** The default argument [{}]. *)
Definition empty_context : ConfigCapabilityContext := {|
  contextWindow := None; modelAutoCompactTokenLimit := None; bridgeCapabilities := None;
  shellSurface := None; providerSupportsWebsockets := None; remoteCompactionV2 := None;
  compactEndpoint := None; backgroundSessionsAvailable := None; viewImageAvailable := None;
  imageGenerationAvailable := None; webSearchAvailable := None;
  manualCompactionAvailable := None; transportAvailable := None |}.

Inductive SettingAvailability :=
| setting_enabled
| setting_disabled (reason : string)
| setting_unsupported (reason : string).

Record ConfigSettingEvaluation := {
  eval_path : string;
  eval_availability : SettingAvailability }.

#[export] Instance SettingAvailability_eq_dec : EqDecision SettingAvailability.
Proof. solve_decision. Defined.
#[export] Instance ConfigSettingEvaluation_eq_dec : EqDecision ConfigSettingEvaluation.
Proof. solve_decision. Defined.

(** [x === false], [x === true] and [x === undefined] on an optional boolean. *)
Definition is_false (b : option bool) : bool := bool_decide (b = Some false).
Definition is_true_opt (b : option bool) : bool := bool_decide (b = Some true).
Definition is_undefined {A} (o : option A) : bool :=
  match o with None => true | Some _ => false end.

Definition capabilitySet (values : option (list string)) : option (gset string) :=
  list_to_set <$> values.

(** [capabilities !== undefined && !capabilities.has(name)]. *)
Definition lacks (capabilities : option (gset string)) (name : string) : bool :=
  match capabilities with None => false | Some s => bool_decide (name ∉ s) end.

(** ** The save gate *)

Definition collectCapabilityIssues (config : CodexConfig) (context : ConfigCapabilityContext) : W unit :=
  let capabilities := capabilitySet (bridgeCapabilities context) in
  let compaction := compaction (codex config) in
  let is_auto := bool_decide (compaction_mode compaction = mode_auto) in
  let searching := negb (bool_decide (webSearch_mode (codex config) = search_disabled)) in
  let transport := transport_mode (codex config) in
  when (backgroundSessions (tools config) && is_false (backgroundSessionsAvailable context))
    (issue "tools.backgroundSessions" capability_unavailable
       "Unavailable: the model and bridge do not provide a complete managed-session route");;
  when (searching && is_false (webSearchAvailable context))
    (issue "codex.webSearch.mode" capability_unavailable
       "Unavailable: no complete web search route exists");;
  when (is_auto && is_false (manualCompactionAvailable context))
    (issue "codex.compaction.mode" capability_unavailable
       "Unavailable: no complete compaction route exists");;
  when (is_false (transportAvailable context))
    (issue "codex.transport.mode" capability_unavailable
       "Unavailable: no complete Responses transport route exists");;
  when (match compaction, contextWindow context with
        | compaction_auto (limit_tokens n), Some w =>
            negb (is_safe_integer w) || num_leb w 0%Z || num_geb n w
        | _, _ => false
        end)
    (issue "codex.compaction.autoCompactTokenLimit" invalid_value
       "must be a positive integer below the model context window");;
  when (match compaction, modelAutoCompactTokenLimit context with
        | compaction_auto limit_model, Some None => true
        | _, _ => false
        end)
    (issue "codex.compaction.autoCompactTokenLimit" capability_unavailable
       "Unavailable: model metadata has no auto-compact limit");;
  when (is_auto && is_undefined (manualCompactionAvailable context) &&
        lacks capabilities "remote_compaction_v2" && lacks capabilities "compact_endpoint")
    (issue "codex.compaction.mode" unsupported_capability
       "Unavailable: bridge does not advertise an official compaction path");;
  when (is_auto && is_undefined (manualCompactionAvailable context) &&
        is_false (remoteCompactionV2 context) && is_false (compactEndpoint context) &&
        (negb (lacks capabilities "remote_compaction_v2") ||
         negb (lacks capabilities "compact_endpoint")))
    (issue "codex.compaction.mode" unsupported_capability
       "Unavailable: provider has no official compaction path");;
  when (bool_decide (transport = transport_auto) && is_undefined (transportAvailable context) &&
        is_false (providerSupportsWebsockets context) && lacks capabilities "responses_sse")
    (issue "codex.transport.mode" unsupported_capability
       "Unavailable: neither WebSocket nor SSE transport is available");;
  when (bool_decide (transport = transport_auto) && is_undefined (transportAvailable context) &&
        negb (is_false (providerSupportsWebsockets context)) &&
        lacks capabilities "responses_websocket" && lacks capabilities "responses_sse")
    (issue "codex.transport.mode" unsupported_capability
       "Unavailable: neither WebSocket nor SSE transport is available");;
  when (bool_decide (transport = transport_sse) && is_undefined (transportAvailable context) &&
        lacks capabilities "responses_sse")
    (issue "codex.transport.mode" unsupported_capability
       "Unavailable: bridge does not advertise responses_sse");;
  when (searching && is_undefined (webSearchAvailable context) &&
        lacks capabilities "standalone_web_search" && lacks capabilities "hosted_web_search")
    (issue "codex.webSearch.mode" unsupported_capability
       "Unavailable: bridge does not advertise a web search surface").

Definition validateConfigForSave (value : jsval) (context : ConfigCapabilityContext) :
    outcome ConfigurationError CodexConfig :=
  config ← parseConfig value;
  match pushed (collectCapabilityIssues config context) with
  | [] => Ret config
  | issues => Throw (configuration_error issues)
  end.

(** ** Three-state evaluation *)

Definition evaluation (path : string) (a : SettingAvailability) : ConfigSettingEvaluation :=
  {| eval_path := path; eval_availability := a |}.

Definition evaluateBackgroundSessions (config : CodexConfig) (context : ConfigCapabilityContext) :=
  evaluation "tools.backgroundSessions"
    (if is_false (backgroundSessionsAvailable context) then
       setting_unsupported "Unavailable: no complete managed-session route exists"
     else if is_true_opt (backgroundSessionsAvailable context) ||
             is_undefined (shellSurface context) ||
             bool_decide (shellSurface context = Some unified_exec) then
       if backgroundSessions (tools config) then setting_enabled
       else setting_disabled "Disabled: managed sessions terminate or remain unavailable"
     else setting_unsupported "Unavailable: the current model has no managed-session route").

Definition evaluateOptionalTool (path : string) (value : AutoOrOff)
    (capabilities : option (gset string)) (capability unsupportedReason : string)
    (effectiveAvailable : option bool) :=
  evaluation path
    (if bool_decide (value = off) then setting_disabled "Disabled by configuration"
     else if is_false effectiveAvailable then
       setting_unsupported "Unavailable: no complete route exists"
     else if lacks capabilities capability then setting_unsupported unsupportedReason
     else setting_enabled).

Definition evaluateTransport (config : CodexConfig) (context : ConfigCapabilityContext)
    (capabilities : option (gset string)) :=
  evaluation "codex.transport.mode"
    (if is_false (transportAvailable context) then
       setting_unsupported "Unavailable: no complete transport exists"
     else match transport_mode (codex config) with
     | transport_sse =>
         if lacks capabilities "responses_sse" then
           setting_unsupported "Unavailable: bridge does not advertise responses_sse"
         else setting_enabled
     | transport_auto =>
         if is_false (providerSupportsWebsockets context) then
           if lacks capabilities "responses_sse" then
             setting_unsupported "Unavailable: neither WebSocket nor SSE transport is available"
           else setting_disabled "WebSocket unavailable for this provider; SSE will be used"
         else if lacks capabilities "responses_websocket" && lacks capabilities "responses_sse" then
           setting_unsupported "Unavailable: bridge does not advertise Responses transport"
         else setting_enabled
     end).

Definition evaluateWebSearch (config : CodexConfig) (capabilities : option (gset string))
    (effectiveAvailable : option bool) :=
  evaluation "codex.webSearch.mode"
    (if bool_decide (webSearch_mode (codex config) = search_disabled) then
       setting_disabled "Disabled by configuration"
     else if is_false effectiveAvailable then
       setting_unsupported "Unavailable: no complete route exists"
     else if lacks capabilities "standalone_web_search" && lacks capabilities "hosted_web_search" then
       setting_unsupported "Unavailable: bridge does not advertise a web search surface"
     else setting_enabled).

Definition evaluateCompaction (config : CodexConfig) (context : ConfigCapabilityContext)
    (capabilities : option (gset string)) :=
  evaluation "codex.compaction.mode"
    (if bool_decide (compaction_mode (compaction (codex config)) = mode_off) then
       setting_disabled "Disabled by configuration"
     else if is_false (manualCompactionAvailable context) then
       setting_unsupported "Unavailable: no complete route exists"
     else if lacks capabilities "remote_compaction_v2" && lacks capabilities "compact_endpoint" then
       setting_unsupported "Unavailable: bridge does not advertise an official compaction path"
     else if is_false (remoteCompactionV2 context) && is_false (compactEndpoint context) then
       setting_unsupported "Unavailable: provider has no official compaction path"
     else setting_enabled).

Definition evaluateAutoCompactTokenLimit (config : CodexConfig) (context : ConfigCapabilityContext) :=
  evaluation "codex.compaction.autoCompactTokenLimit"
    match compaction (codex config) with
    | compaction_off => setting_disabled "Compaction is off"
    | compaction_auto limit_model =>
        if bool_decide (modelAutoCompactTokenLimit context = Some None) then
          setting_unsupported "Unavailable: model metadata has no auto-compact limit"
        else setting_enabled
    | compaction_auto (limit_tokens n) =>
        match contextWindow context with
        | Some w =>
            if num_geb n w then
              setting_unsupported "Unavailable: threshold must be below the model context window"
            else setting_enabled
        | None => setting_enabled
        end
    end.

Definition evaluateConfigSettings (config : CodexConfig) (context : ConfigCapabilityContext) :
    list ConfigSettingEvaluation :=
  let capabilities := capabilitySet (bridgeCapabilities context) in
  [ evaluateBackgroundSessions config context;
    evaluateOptionalTool "tools.optional.viewImage" (viewImage (optional_tools (tools config)))
      capabilities "view_image" "Unavailable: bridge does not advertise view_image"
      (viewImageAvailable context);
    evaluateOptionalTool "tools.optional.imageGeneration"
      (imageGeneration (optional_tools (tools config)))
      capabilities "image_generation" "Unavailable: bridge does not advertise image_generation"
      (imageGenerationAvailable context);
    evaluateTransport config context capabilities;
    evaluateWebSearch config capabilities (webSearchAvailable context);
    evaluateCompaction config context capabilities ] ++
  match compaction (codex config) with
  | compaction_auto _ => [evaluateAutoCompactTokenLimit config context]
  | compaction_off => []
  end.
