(* ===== verification/ConfigFacts.v ===== *)
(** * ConfigFacts

    The configuration parser accepts exactly the values of valid
    configurations, every rejection carries an issue, and the save gate and
    the settings evaluation agree. *)

From S2P Require Import Prelude Config.

(** ** Clean runs: a computation that pushed no issue *)

Lemma clean_bind {A B} (m : W A) (f : A → W B) b :
  (m ≫= f) = mkW b [] ↔ ∃ a, m = mkW a [] ∧ f a = mkW b [].
Proof.
  unfold mbind, W_bind. destruct m as [a w]; simpl. split.
  - intros [= <- Hn]. apply app_nil in Hn as [-> Hf]. exists a. split; [done|].
    destruct (f a); simpl in *; congruence.
  - intros (a0 & [= -> ->] & Hf). by rewrite Hf.
Qed.

Lemma clean_ret {A} (a b : A) : mret a = mkW b [] ↔ a = b.
Proof. unfold mret, W_ret. naive_solver. Qed.

Lemma clean_issue p c m b : issue p c m = mkW b [] ↔ False.
Proof. split; [by unfold issue|done]. Qed.

Lemma clean_when b m u : when b m = mkW u [] ↔ b = false ∨ m = mkW tt [].
Proof. destruct u, b; simpl; unfold mret, W_ret; naive_solver. Qed.

Lemma clean_issue_bind {A} p c m (f : unit → W A) b :
  (issue p c m ≫= f) = mkW b [] ↔ False.
Proof. rewrite clean_bind. setoid_rewrite clean_issue. naive_solver. Qed.

Create Rewrite HintDb clean.
#[export] Hint Rewrite @clean_issue_bind @clean_ret clean_issue clean_when : clean.

Lemma clean_record v p r :
  record v p = mkW r [] ↔ ∃ fs, r = Some fs ∧ as_record v = Some fs.
Proof.
  unfold record. destruct (as_record v) as [fs|]; autorewrite with clean; naive_solver.
Qed.

Lemma clean_require_keys fs ks p u :
  require_keys fs ks p = mkW u [] ↔ ∀ k, k ∈ ks → k ∈ keys fs.
Proof.
  destruct u. induction ks as [|k ks IH]; simpl.
  - rewrite clean_ret. split; [intros _ k ?; set_solver|done].
  - rewrite clean_bind. setoid_rewrite clean_when. setoid_rewrite clean_issue.
    setoid_rewrite negb_false_iff. setoid_rewrite js_elem_spec.
    setoid_rewrite elem_of_cons. split.
    + intros ([] & Hk & Hr). pose proof (proj1 IH Hr). naive_solver.
    + intros Hk. exists tt. split; [left; auto|]. apply IH; auto.
Qed.

Lemma clean_exactKeys fs ks p u :
  exactKeys fs ks p = mkW u [] ↔ ∀ k, k ∈ keys fs ↔ k ∈ ks.
Proof.
  unfold exactKeys. rewrite clean_bind. setoid_rewrite clean_when.
  setoid_rewrite clean_issue. setoid_rewrite clean_require_keys.
  assert (Hex : existsb (λ key, negb (js_elem key ks)) (keys fs) = false ↔
          ∀ k, k ∈ keys fs → k ∈ ks).
  { rewrite <-not_true_iff_false, existsb_exists. setoid_rewrite <-list_elem_of_In.
    setoid_rewrite negb_true_iff. setoid_rewrite js_elem_false.
    split; [|naive_solver]. intros Hn k Hk. destruct (decide (k ∈ ks)); naive_solver. }
  setoid_rewrite Hex. split; [intros ([] & ? & ?); naive_solver|].
  intros Hk; exists tt. split; [left|]; intros; by apply Hk.
Qed.

Lemma clean_enumValue `{Literal A} v (allowed : list A) p r :
  (∀ a, a ∈ allowed) →
  enumValue v allowed p = mkW r [] ↔ ∃ a, r = Some a ∧ v = lit a.
Proof.
  intros Hall. unfold enumValue, lit. destruct v; autorewrite with clean; try naive_solver.
  destruct (find _ _) as [a|] eqn:Hf; autorewrite with clean.
  - apply find_some in Hf as [_ <-%String.eqb_eq].
    split; [naive_solver|]. by intros (a' & -> & [= ->%(inj _)]).
  - split; [naive_solver|]. intros (a & _ & [= ->]).
    pose proof (find_none _ _ Hf a (proj1 (list_elem_of_In _ _) (Hall a))) as Hn.
    simpl in Hn. by rewrite String.eqb_refl in Hn.
Qed.

Lemma clean_boolean v p r :
  booleanValue v p = mkW r [] ↔ ∃ b, r = Some b ∧ v = VBool b.
Proof. unfold booleanValue. destruct v; autorewrite with clean; naive_solver. Qed.

Lemma clean_literal_3 v p r :
  literal_3 v p = mkW r [] ↔ r = Some schema_3 ∧ v = VNum 3%Z.
Proof.
  unfold literal_3. destruct v; autorewrite with clean; try naive_solver.
  destruct (num_eqb n 3%Z) eqn:Hn; autorewrite with clean.
  - apply num_eqb_spec_Z in Hn as ->. naive_solver.
  - split; [done|]. intros [_ [= ->]]. by rewrite (proj2 (num_eqb_spec_Z _ _) eq_refl) in Hn.
Qed.

(** Every value of an enumeration is in the list of allowed literals. *)
Ltac all_allowed := intros []; rewrite list_elem_of_In; simpl; tauto.

(** Read a clean run forwards, one statement at a time. *)
Ltac clean_fwd :=
  repeat (cbv beta iota in *; match goal with
  | H : (_ ≫= _) = mkW _ [] |- _ => apply clean_bind in H as (? & ? & ?)
  | H : record _ _ = mkW _ [] |- _ => apply clean_record in H as (? & -> & ?)
  | H : exactKeys _ _ _ = mkW _ [] |- _ => pose proof (proj1 (clean_exactKeys _ _ _ _) H); clear H
  | H : enumValue _ _ _ = mkW _ [] |- _ => apply clean_enumValue in H as (? & -> & ?); [|all_allowed]
  | H : booleanValue _ _ = mkW _ [] |- _ => apply clean_boolean in H as (? & -> & ?)
  | H : literal_3 _ _ = mkW _ [] |- _ => apply clean_literal_3 in H as (-> & ?)
  | H : mret _ = mkW _ [] |- _ => apply (proj1 (clean_ret _ _)) in H
  | H : issue _ _ _ = mkW _ [] |- _ => by apply clean_issue in H
  | H : ∃ _, _ |- _ => destruct H
  | H : _ ∧ _ |- _ => destruct H
  end); simplify_eq; cbn [mbind option_bind] in *; simplify_eq.

(** Replay a clean run: prove each statement clean in turn. *)
Ltac clean_step :=
  first
    [ apply clean_record; eexists; split; [reflexivity|eassumption]
    | apply (clean_exactKeys _ _ _ tt); eassumption
    | apply clean_enumValue; [all_allowed|]; eexists; split; [reflexivity|eassumption]
    | apply clean_boolean; eexists; split; [reflexivity|eassumption]
    | apply clean_literal_3; split; [reflexivity|eassumption] ].
Ltac clean_bwd :=
  repeat (apply clean_bind; eexists; split; [clean_step|cbv beta iota]); try reflexivity.

Lemma jseq_lit `{Literal A} v (a : A) : jseq v (lit a) ↔ v = lit a.
Proof. apply jseq_str_iff. Qed.

Ltac nodup_keys := unfold keys; simpl; apply (bool_decide_unpack (NoDup _)); vm_compute; exact I.

(** Case on [jseq v (VObj gs)] for an object literal [gs]. *)
Ltac jseq_obj :=
  repeat match goal with
  | H : jseq _ (VObj _) |- _ => apply jseq_obj_iff in H as (? & ? & ? & ?); [|nodup_keys]
  | H : Forall _ (_ :: _) |- _ => apply Forall_cons in H as [? ?]; cbn [fst snd] in *
  | H : Forall _ [] |- _ => clear H
  | H : jseq _ (lit _) |- _ => apply jseq_lit in H
  | H : jseq _ (VStr _) |- _ => apply jseq_str_iff in H
  | H : jseq _ (VNum _) |- _ => apply jseq_num_iff in H
  | H : jseq _ (VBool _) |- _ => apply jseq_bool_iff in H
  | H : jseq _ (VArr (VStr <$> _)) |- _ => apply jseq_strs_iff in H
  end; cbn [keys fmap list_fmap fst] in *.

Ltac jseq_intro :=
  repeat match goal with
  | |- jseq _ (VObj _) =>
      apply jseq_obj_iff; [nodup_keys|eexists; split_and!; [eassumption|eassumption|]]
  | |- Forall _ (_ :: _) => apply Forall_cons; split; simpl
  | |- Forall _ [] => constructor
  | |- jseq _ (lit _) => apply jseq_lit
  | |- jseq _ (VStr _) => apply jseq_str_iff
  | |- jseq _ (VNum _) => apply jseq_num_iff
  | |- jseq _ (VBool _) => apply jseq_bool_iff
  | |- jseq _ (VArr (VStr <$> _)) => apply jseq_strs_iff
  end; try eassumption.

(** ** What each section parser accepts *)

Lemma clean_parseUi v r :
  parseUi v = mkW r [] ↔ ∃ u, r = Some u ∧ jseq v (ui_value u).
Proof.
  unfold parseUi, ui_value. split.
  - intros Hc. clean_fwd. eexists {| status := _ |}. split; [done|]. jseq_intro.
  - intros ([s] & -> & Hv). jseq_obj. clean_bwd.
Qed.

Lemma clean_parseSecurity v r :
  parseSecurity v = mkW r [] ↔ ∃ s, r = Some s ∧ jseq v (security_value s).
Proof.
  unfold parseSecurity, security_value. split.
  - intros Hc. clean_fwd.
    eexists {| approvalPolicy := _; filesystemAccessPolicy := _ |}. split; [done|]. jseq_intro.
  - intros ([a f] & -> & Hv). jseq_obj. clean_bwd.
Qed.

Lemma clean_parseTools v r :
  parseTools v = mkW r [] ↔ ∃ t, r = Some t ∧ jseq v (tools_value t).
Proof.
  unfold parseTools, tools_value. split.
  - intros Hc. clean_fwd.
    eexists {| backgroundSessions := _; optional_tools := {| viewImage := _; imageGeneration := _ |} |}.
    split; [done|]. jseq_intro.
  - intros ([b [vi ig]] & -> & Hv). jseq_obj. clean_bwd.
Qed.

Lemma clean_nestedMode `{Literal A} v (allowed : list A) p r :
  (∀ a, a ∈ allowed) →
  nestedMode v allowed p = mkW r [] ↔ ∃ a, r = Some a ∧ jseq v (VObj [("mode", lit a)]).
Proof.
  intros Hall. unfold nestedMode. split.
  - intros Hc. clean_fwd. apply clean_enumValue in H2 as (a & -> & ?); [|exact Hall].
    exists a. split; [done|]. jseq_intro.
  - intros (a & -> & Hv). jseq_obj.
    do 2 (apply clean_bind; eexists; split; [clean_step|cbv beta iota]).
    apply clean_enumValue; [exact Hall|]. eauto.
Qed.

Lemma as_provider_Some v p :
  as_provider v = Some p ↔ v = VStr p ∧ valid_provider_id p = true.
Proof.
  destruct v; simpl; try (split; [done|by intros []]).
  destruct (valid_provider_id s) eqn:Hs; split.
  - by intros [= <-].
  - by intros [[= <-] _].
  - done.
  - intros [[= <-] ?]; congruence.
Qed.

Lemma mapM_as_provider items ps :
  mapM as_provider items = Some ps ↔
  items = VStr <$> ps ∧ Forall (λ p, valid_provider_id p = true) ps.
Proof.
  rewrite mapM_Some. split.
  - induction 1 as [|v p items ps Hp _ [-> IH]]; [done|].
    apply as_provider_Some in Hp as [-> ?]. split; [done|by constructor].
  - intros [-> Hps]. induction Hps; constructor; [by apply as_provider_Some|done].
Qed.

Lemma clean_parseActivation v r :
  parseActivation v = mkW r [] ↔
  ∃ a, r = Some a ∧ valid_providers (providers a) ∧ jseq v (activation_value a).
Proof.
  unfold parseActivation, activation_value, valid_providers. split.
  - intros Hc. clean_fwd. case_match; try by apply clean_issue_bind in H1.
    case_match; [by apply clean_issue_bind in H1|].
    case_match; [|by apply clean_issue_bind in H1].
    case_match; [by apply clean_issue_bind in H1|]. apply (proj1 (clean_ret _ _)) in H1 as <-.
    apply (proj1 (mapM_as_provider (_ :: _) _)) in H4 as [Hl Hf].
    apply negb_false_iff, Nat.eqb_eq, list_to_set_size_NoDup in H5.
    eexists {| providers := l0 |}. split_and!; [done|simpl; by intros ->|done..|].
    jseq_intro. rewrite H0. by f_equal.
  - intros ([ps] & -> & (Hne & Hf & Hnd) & Hv). jseq_obj.
    do 2 (apply clean_bind; eexists; split; [clean_step|cbv beta iota]).
    rewrite H1. destruct ps as [|p ps]; [done|]. cbn [providers fmap list_fmap] in *.
    rewrite (proj2 (mapM_as_provider (VStr p :: (VStr <$> ps)) (p :: ps)) (conj eq_refl Hf)).
    rewrite (proj2 (list_to_set_size_NoDup _) Hnd), Nat.eqb_refl. done.
Qed.

Lemma clean_parseCompaction v r :
  parseCompaction v = mkW r [] ↔
  ∃ c, r = Some c ∧ valid_compaction c = true ∧ jseq v (compaction_value c).
Proof.
  unfold parseCompaction. split.
  - intros Hc. clean_fwd. match goal with m : CompactionMode |- _ => destruct m end; clean_fwd.
    { eexists compaction_off. split_and!; [done..|]. unfold compaction_value. jseq_intro. }
    case_match; try by apply clean_issue_bind in H2.
    + case_match; [|by apply clean_issue_bind in H2]. apply (proj1 (clean_ret _ _)) in H2 as <-.
      eexists (compaction_auto (limit_tokens n)). split_and!; [done..|].
      unfold compaction_value. jseq_intro.
    + destruct (String.eqb_spec s "model") as [->|]; [|by apply clean_issue_bind in H2].
      apply (proj1 (clean_ret _ _)) in H2 as <-.
      eexists (compaction_auto limit_model). split_and!; [done..|].
      unfold compaction_value. jseq_intro.
  - intros ([|[|n]] & -> & Hl & Hv); unfold compaction_value in Hv; cbn [limit_value] in Hv; jseq_obj.
    all: apply clean_bind; eexists; split; [clean_step|cbv beta iota].
    all: apply clean_bind; eexists; split;
      [apply clean_enumValue; [all_allowed|eexists; split; [reflexivity|eassumption]]|cbv beta iota].
    all: apply clean_bind; eexists; split; [clean_step|cbv beta iota].
    + done.
    + by rewrite H2.
    + change (is_safe_integer n && num_gtb n 0%Z = true) in Hl. by rewrite H2, Hl.
Qed.

Lemma clean_parseCodex v r :
  parseCodex v = mkW r [] ↔
  ∃ c, r = Some c ∧ valid_compaction (compaction c) = true ∧ jseq v (codex_value c).
Proof.
  unfold parseCodex, codex_value. split.
  - intros Hc. clean_fwd.
    repeat match goal with
    | He : nestedMode _ _ _ = _ |- _ => apply clean_nestedMode in He as (? & -> & ?); [|all_allowed]
    | He : parseCompaction _ = _ |- _ => apply clean_parseCompaction in He as (? & -> & ? & ?)
    end; simplify_eq/=.
    eexists {| serviceTier := _; verbosity := _; transport_mode := _; webSearch_mode := _;
               compaction := _ |}. split_and!; [done|eassumption|].
    apply jseq_obj_iff; [nodup_keys|]. eexists; split_and!; [eassumption..|].
    repeat constructor; simpl; try apply jseq_lit; done.
  - intros ([t vb tm wm c] & -> & Hc & Hv). cbn [serviceTier verbosity transport_mode
      webSearch_mode compaction] in *.
    apply jseq_obj_iff in Hv as (fs & Hr & Hk & Hf); [|nodup_keys].
    rewrite !Forall_cons in Hf. cbn [fst snd] in Hf. destruct Hf as (H1 & H2 & H3 & H4 & H5 & _).
    apply jseq_lit in H1, H2.
    do 4 (apply clean_bind; eexists; split; [clean_step|cbv beta iota]).
    do 2 (apply clean_bind; eexists; split;
      [apply clean_nestedMode; [all_allowed|eexists; split; [reflexivity|eassumption]]|cbv beta iota]).
    apply clean_bind; eexists; split; [apply clean_parseCompaction; eauto|done].
Qed.

Lemma clean_parse_root root r :
  parse_root root = mkW r [] ↔
  ∃ c, r = Some c ∧ valid_config c ∧ jseq (VObj root) (config_value c).
Proof.
  unfold parse_root, config_value, valid_config. split.
  - intros Hc. clean_fwd.
    repeat match goal with
    | He : parseActivation _ = _ |- _ => apply clean_parseActivation in He as (? & -> & ? & ?)
    | He : parseTools _ = _ |- _ => apply clean_parseTools in He as (? & -> & ?)
    | He : parseSecurity _ = _ |- _ => apply clean_parseSecurity in He as (? & -> & ?)
    | He : parseCodex _ = _ |- _ => apply clean_parseCodex in He as (? & -> & ? & ?)
    | He : parseUi _ = _ |- _ => apply clean_parseUi in He as (? & -> & ?)
    end; simplify_eq/=.
    eexists {| schemaVersion := schema_3; activation := _; tools := _; security := _;
               codex := _; ui := _ |}. split_and!; [done|eassumption..|].
    apply jseq_obj_iff; [nodup_keys|]. eexists; split_and!; [reflexivity|eassumption|].
    repeat constructor; simpl; try apply jseq_num_iff; done.
  - intros ([[] a t s c u] & -> & [Ha Hc] & Hv). cbn [activation tools security codex ui] in *.
    apply jseq_obj_iff in Hv as (fs & [= <-] & Hk & Hf); [|nodup_keys].
    rewrite !Forall_cons in Hf. cbn [fst snd] in Hf.
    destruct Hf as (H1 & H2 & H3 & H4 & H5 & H6 & _). apply jseq_num_iff in H1.
    do 2 (apply clean_bind; eexists; split; [clean_step|cbv beta iota]).
    apply clean_bind; eexists; split; [apply clean_parseActivation; eauto|cbv beta iota].
    apply clean_bind; eexists; split; [apply clean_parseTools; eauto|cbv beta iota].
    apply clean_bind; eexists; split; [apply clean_parseSecurity; eauto|cbv beta iota].
    apply clean_bind; eexists; split; [apply clean_parseCodex; eauto|cbv beta iota].
    apply clean_bind; eexists; split; [apply clean_parseUi; eauto|done].
Qed.

(** ** The parser *)

Lemma record_eq v p :
  record v p = match v with
               | VObj fs => mkW (Some fs) []
               | _ => mkW None [{| issue_path := p; issue_code := invalid_type;
                                   issue_message := "must be an object" |}]
               end.
Proof. by destruct v. Qed.

Lemma parseConfig_iff v c : parseConfig v = Ret c ↔ valid_config c ∧ jseq v (config_value c).
Proof.
  unfold parseConfig. rewrite record_eq.
  assert (Hobj : ∀ r, v = VObj r → parseConfig v = Ret c ↔ valid_config c ∧ jseq v (config_value c)).
  { intros root ->. unfold parseConfig. rewrite record_eq.
    destruct (parse_root root) as [oc w] eqn:Hp. split.
    - destruct w, oc as [c'|]; try done. intros [= <-].
      by apply clean_parse_root in Hp as (c'' & [= <-] & ? & ?).
    - intros Hc. assert (parse_root root = mkW (Some c) []) as Hp'
        by (apply clean_parse_root; eauto).
      rewrite Hp in Hp'. by simplify_eq. }
  destruct v as [| | | | | |root|]; [..|by apply (Hobj root)|];
    (split; [done|intros [_ Hv]; inversion Hv]).
Qed.

Lemma parseConfig_valid v c : parseConfig v = Ret c → valid_config c.
Proof. by intros [??]%parseConfig_iff. Qed.

Lemma parseConfig_value c : valid_config c → parseConfig (config_value c) = Ret c.
Proof. intros Hc. apply parseConfig_iff. split; [done|apply jseq_refl]. Qed.

#[export] Hint Resolve parseConfig_valid parseConfig_value : js.

(** C39: [parseConfig] returns a configuration exactly when that configuration
    is valid (non-empty, well-formed, distinct provider ids; a positive safe
    integer or ["model"] as token limit) and the input is, up to the order of
    object keys, the object the configuration stands for: nothing missing,
    nothing extra, at any level. *)
Theorem parseConfig_accepts (v : jsval) (c : CodexConfig) :
  parseConfig v = Ret c ↔ valid_config c ∧ jseq v (config_value c).
Proof.
  apply parseConfig_iff.
Qed.

(** a rejected value is reported with at least one issue, so the
    [=== undefined] tests that follow [issues.length > 0] in the source never
    decide alone. *)
Theorem parseConfig_rejection_has_issue (v : jsval) (issues : list ConfigurationIssue) :
  parseConfig v = Throw (configuration_error issues) → issues ≠ [].
Proof.
  unfold parseConfig. rewrite record_eq. destruct v as [| | | | | |root|]; try by intros [= <-].
  destruct (parse_root root) as [oc w] eqn:Hp.
  intros Ht ->. destruct w, oc; simplify_eq.
  by apply clean_parse_root in Hp as (? & ? & _).
Qed.

Lemma parseConfig_rejection_witness :
  parseConfig (VObj [("schemaVersion", VNum 2%Z)]) ≠ Ret createDefaultConfig ∧
  ∃ issues, parseConfig (VObj [("schemaVersion", VNum 2%Z)]) = Throw (configuration_error issues) ∧ issues ≠ [].
Proof.
  split; [vm_compute; discriminate|]. eexists. split; [vm_compute; reflexivity|].
  apply (parseConfig_rejection_has_issue (VObj [("schemaVersion", VNum 2%Z)])).
  vm_compute. reflexivity.
Defined.

(** ** The save gate *)

Lemma elem_of_pushed_bind {A B} (m : W A) (f : A → W B) i :
  i ∈ pushed (m ≫= f) ↔ i ∈ pushed m ∨ i ∈ pushed (f (result m)).
Proof. unfold mbind, W_bind; simpl. apply elem_of_app. Qed.

Lemma elem_of_pushed_when b p k m i :
  i ∈ pushed (when b (issue p k m)) ↔
  b = true ∧ i = {| issue_path := p; issue_code := k; issue_message := m |}.
Proof.
  destruct b; unfold issue; simpl; [|set_solver].
  rewrite list_elem_of_singleton. naive_solver.
Qed.

(** An evaluation at [path] that reports the setting as unsupported. *)
Definition reported_unsupported (evs : list ConfigSettingEvaluation) (path : string) : Prop :=
  ∃ e r, e ∈ evs ∧ eval_path e = path ∧ eval_availability e = setting_unsupported r.

Lemma reported_intro evs e r path :
  eval_availability e = setting_unsupported r → eval_path e = path → e ∈ evs →
  reported_unsupported evs path.
Proof. intros. by exists e, r. Qed.

Ltac in_evaluations := unfold evaluateConfigSettings; rewrite !elem_of_app, !elem_of_cons; tauto.

Lemma gate_transport config context :
  (is_false (transportAvailable context) = true ∨
   match transport_mode (codex config) with
   | transport_auto =>
       (lacks (capabilitySet (bridgeCapabilities context)) "responses_sse" = true ∧
        (is_false (providerSupportsWebsockets context) = true ∨
         lacks (capabilitySet (bridgeCapabilities context)) "responses_websocket" = true))
   | transport_sse => lacks (capabilitySet (bridgeCapabilities context)) "responses_sse" = true
   end) →
  reported_unsupported (evaluateConfigSettings config context) "codex.transport.mode".
Proof.
  intros H.
  assert (∃ r, eval_availability (evaluateTransport config context
      (capabilitySet (bridgeCapabilities context))) = setting_unsupported r) as [r Hr].
  { unfold evaluateTransport, evaluation; simpl.
    destruct (is_false (transportAvailable context)); [eauto|].
    destruct H as [|H]; [done|].
    destruct (transport_mode (codex config)); [|rewrite H; eauto].
    destruct H as [-> [-> | ->]]; [eauto|]. case_match; eauto. }
  eapply reported_intro; [exact Hr|done|in_evaluations].
Qed.

Lemma gate_webSearch config context :
  webSearch_mode (codex config) ≠ search_disabled →
  (is_false (webSearchAvailable context) = true ∨
   lacks (capabilitySet (bridgeCapabilities context)) "standalone_web_search" = true ∧
   lacks (capabilitySet (bridgeCapabilities context)) "hosted_web_search" = true) →
  reported_unsupported (evaluateConfigSettings config context) "codex.webSearch.mode".
Proof.
  intros Hm H.
  assert (∃ r, eval_availability (evaluateWebSearch config
      (capabilitySet (bridgeCapabilities context)) (webSearchAvailable context))
      = setting_unsupported r) as [r Hr].
  { unfold evaluateWebSearch, evaluation; simpl. rewrite bool_decide_eq_false_2 by done.
    destruct (is_false (webSearchAvailable context)); [eauto|].
    destruct H as [|[-> ->]]; [done|eauto]. }
  eapply reported_intro; [exact Hr|done|in_evaluations].
Qed.

Lemma gate_compaction config context :
  compaction_mode (compaction (codex config)) = mode_auto →
  (is_false (manualCompactionAvailable context) = true ∨
   lacks (capabilitySet (bridgeCapabilities context)) "remote_compaction_v2" = true ∧
   lacks (capabilitySet (bridgeCapabilities context)) "compact_endpoint" = true ∨
   is_false (remoteCompactionV2 context) = true ∧ is_false (compactEndpoint context) = true) →
  reported_unsupported (evaluateConfigSettings config context) "codex.compaction.mode".
Proof.
  intros Hm H.
  assert (∃ r, eval_availability (evaluateCompaction config context
      (capabilitySet (bridgeCapabilities context))) = setting_unsupported r) as [r Hr].
  { unfold evaluateCompaction, evaluation; simpl. rewrite Hm; simpl.
    destruct (is_false (manualCompactionAvailable context)); [eauto|].
    destruct H as [|[[-> ->]|[-> ->]]]; [done|eauto|]. case_match; eauto. }
  eapply reported_intro; [exact Hr|done|in_evaluations].
Qed.

Lemma gate_limit config context l :
  compaction (codex config) = compaction_auto l →
  match l with
  | limit_model => modelAutoCompactTokenLimit context = Some None
  | limit_tokens n => ∃ w, contextWindow context = Some w ∧ num_geb n w = true
  end →
  reported_unsupported (evaluateConfigSettings config context) "codex.compaction.autoCompactTokenLimit".
Proof.
  intros Hl H.
  assert (∃ r, eval_availability (evaluateAutoCompactTokenLimit config context)
      = setting_unsupported r) as [r Hr].
  { unfold evaluateAutoCompactTokenLimit, evaluation; simpl. rewrite Hl.
    destruct l; [rewrite H; eauto|]. destruct H as (w & -> & ->). eauto. }
  eapply reported_intro; [exact Hr|done|].
  unfold evaluateConfigSettings. rewrite Hl, elem_of_app. right. by left.
Qed.

Lemma window_blocks_limit n w :
  valid_limit (limit_tokens n) = true → is_safe_integer w = true →
  negb (is_safe_integer w) || num_leb w 0%Z || num_geb n w = true → num_geb n w = true.
Proof.
  unfold valid_limit. intros Hn Hw Hor. rewrite Hw in Hor. apply andb_true_iff in Hn as [Hs Hpos].
  apply is_safe_integer_spec in Hs as (z & -> & _), Hw as (z' & -> & _).
  unfold num_gtb, num_geb in *. rewrite num_ltb_Z, !num_leb_Z in *.
  bool_to_prop. lia.
Qed.

(** every capability issue the save gate raises is visible in the
    settings UI beforehand: for a valid configuration and an integral context
    window, the evaluation of the same setting path is [unsupported]. *)
Theorem save_gate_issues_are_reported config context i :
  valid_config config →
  (∀ w, contextWindow context = Some w → is_safe_integer w = true) →
  i ∈ pushed (collectCapabilityIssues config context) →
  reported_unsupported (evaluateConfigSettings config context) (issue_path i).
Proof.
  intros [_ Hvalid] Hw. unfold collectCapabilityIssues.
  rewrite !elem_of_pushed_bind, !elem_of_pushed_when.
  intros Hi. repeat destruct Hi as [[Hb ->]|Hi]; [..|destruct Hi as [Hb ->]]; simpl issue_path.
  all: bool_to_prop.
  - apply (reported_intro _ (evaluateBackgroundSessions config context)
      "Unavailable: no complete managed-session route exists"); [|done|by left].
    simpl. by destruct Hb as [_ ->].
  - apply gate_webSearch; tauto.
  - apply gate_compaction; tauto.
  - apply gate_transport; tauto.
  - destruct (compaction (codex config)) as [|[|n]] eqn:Hc; try done.
    destruct (contextWindow context) as [w|] eqn:Hcw; [|done].
    apply (gate_limit _ _ _ Hc). exists w. split; [done|].
    by apply (window_blocks_limit n w); [done|apply Hw|].
  - destruct (compaction (codex config)) as [|[|n]] eqn:Hc; try done.
    apply (gate_limit _ _ _ Hc). by destruct (modelAutoCompactTokenLimit context) as [[]|].
  - apply gate_compaction; tauto.
  - apply gate_compaction; tauto.
  - apply gate_transport. destruct_and!. destruct (transport_mode (codex config)); naive_solver.
  - apply gate_transport. destruct_and!. destruct (transport_mode (codex config)); naive_solver.
  - apply gate_transport. destruct_and!. destruct (transport_mode (codex config)); naive_solver.
  - apply gate_webSearch; tauto.
Qed.

(** The default configuration with another token limit. *)
Definition with_limit (l : TokenLimit) : CodexConfig := {|
  schemaVersion := schema_3;
  activation := activation createDefaultConfig;
  tools := tools createDefaultConfig;
  security := security createDefaultConfig;
  codex := {| serviceTier := tier_default; verbosity := verbosity_low;
              transport_mode := transport_auto; webSearch_mode := search_cached;
              compaction := compaction_auto l |};
  ui := ui createDefaultConfig |}.

(** A bridge that advertises nothing, with an integral window. *)
Definition bare_bridge : ConfigCapabilityContext := {|
  contextWindow := Some (num_of_Z 1000); modelAutoCompactTokenLimit := None;
  bridgeCapabilities := Some []; shellSurface := None; providerSupportsWebsockets := None;
  remoteCompactionV2 := None; compactEndpoint := None; backgroundSessionsAvailable := None;
  viewImageAvailable := None; imageGenerationAvailable := None; webSearchAvailable := None;
  manualCompactionAvailable := None; transportAvailable := None |}.

Lemma valid_default_config : valid_config createDefaultConfig.
Proof. split; [|done]. split_and!; [done|by repeat constructor|apply NoDup_singleton]. Qed.

Lemma save_gate_issues_are_reported_witness :
  let i := {| issue_path := "codex.compaction.mode"; issue_code := unsupported_capability;
              issue_message := "Unavailable: bridge does not advertise an official compaction path" |} in
  i ∈ pushed (collectCapabilityIssues createDefaultConfig bare_bridge) ∧
  reported_unsupported (evaluateConfigSettings createDefaultConfig bare_bridge) (issue_path i).
Proof.
  assert (Hi : {| issue_path := "codex.compaction.mode"; issue_code := unsupported_capability;
      issue_message := "Unavailable: bridge does not advertise an official compaction path" |} ∈
    pushed (collectCapabilityIssues createDefaultConfig bare_bridge))
    by (vm_compute; repeat constructor).
  split; [exact Hi|]. apply save_gate_issues_are_reported; [apply valid_default_config| |exact Hi].
  intros w [= <-]. reflexivity.
Defined.

Lemma not_pushed_when_false {A} b p k m (f : unit → W A) :
  pushed (when b (issue p k m) ≫= f) = [] → b = false ∧ pushed (f tt) = [].
Proof. destruct b; unfold issue; simpl; [done|auto]. Qed.

(** a configuration saved with an explicit token limit while the model's
    context window is known has a limit strictly between zero and the window,
    and the window is a safe integer. *)
Theorem saved_limit_is_below_window v context c n w :
  validateConfigForSave v context = Ret c →
  compaction (codex c) = compaction_auto (limit_tokens n) →
  contextWindow context = Some w →
  ∃ zn zw : Z, n = zn ∧ w = zw ∧ (0 < zn < zw ∧ zw ≤ MAX_SAFE_INTEGER)%Z.
Proof.
  unfold validateConfigForSave. rewrite bind_ret_iff. intros (c' & Hp & Hi) Hn Hw.
  destruct (pushed (collectCapabilityIssues c' context)) eqn:Hg; simplify_eq.
  apply parseConfig_valid in Hp as [_ Hlim]. rewrite Hn in Hlim.
  unfold collectCapabilityIssues in Hg.
  do 4 apply not_pushed_when_false in Hg as [_ Hg].
  apply not_pushed_when_false in Hg as [Hg _]. rewrite Hn, Hw in Hg.
  unfold valid_compaction, valid_limit in Hlim. apply andb_true_iff in Hlim as [Hs Hpos].
  apply orb_false_iff in Hg as [[Hsw _]%orb_false_iff Hge]. apply negb_false_iff in Hsw.
  apply is_safe_integer_spec in Hs as (zn & -> & _), Hsw as (zw & -> & ?).
  unfold num_gtb, num_geb in *. rewrite num_ltb_Z in Hpos. rewrite num_leb_Z in Hge.
  bool_to_prop. exists zn, zw. split_and!; [done..|lia|lia].
Qed.

Lemma saved_limit_is_below_window_witness :
  ∃ zn zw : Z, num_of_Z 900 = zn ∧ num_of_Z 1000 = zw ∧ (0 < zn < zw ∧ zw ≤ MAX_SAFE_INTEGER)%Z.
Proof.
  apply (saved_limit_is_below_window
    (config_value (with_limit (limit_tokens (num_of_Z 900))))
    (Build_ConfigCapabilityContext (Some (num_of_Z 1000)) None None None None None None None None
       None None None None)
    (with_limit (limit_tokens (num_of_Z 900)))).
  - vm_compute. reflexivity.
  - reflexivity.
  - reflexivity.
Defined.
