(* ===== verification/StructuredJson.v ===== *)
(** * StructuredJson

    [src/src/application/structured-json.ts]: the check that a value is a
    finite acyclic JSON value of plain data properties, over a model of the
    JavaScript heap, and what it means for the rest of the development: the
    checked value is a tree of [jsval]. *)

From Stdlib Require Import QArith Qcanon.
From stdpp Require Import pretty.
From S2P Require Import Prelude.

(** ** Objects

    An own property is keyed by a string or a symbol and is a data property
    or an accessor.  Proxies are not modelled: no operation below throws. *)

Abbreviation loc := positive (only parsing).

Inductive rval :=
| RUndef
| RNull
| RBool (b : bool)
| RNum (n : jsnum)
| RStr (s : string)
| RRef (l : loc)      (* typeof "object" *)
| ROpaque.            (* functions, symbols, bigints *)

Inductive pkey := KStr (s : string) | KSym (id : positive).

Inductive descriptor :=
| DData (value : rval) (enumerable : bool)
| DAccessor (enumerable : bool).

Inductive prototype := proto_object | proto_array | proto_null | proto_other.

Record object := {
  obj_is_array : bool;
  obj_proto : prototype;
  obj_own : list (pkey * descriptor) }.

Abbreviation heap := (gmap loc object).

#[export] Instance rval_eq_dec : EqDecision rval. Proof. solve_decision. Defined.
#[export] Instance pkey_eq_dec : EqDecision pkey. Proof. solve_decision. Defined.
#[export] Instance prototype_eq_dec : EqDecision prototype. Proof. solve_decision. Defined.

(** [Reflect.ownKeys], [Object.getOwnPropertyDescriptor], [Object.keys]. *)
Definition ownKeys (o : object) : list pkey := (obj_own o).*1.

Fixpoint find_own (own : list (pkey * descriptor)) (k : pkey) : option descriptor :=
  match own with
  | [] => None
  | (k', d) :: own' => if bool_decide (k' = k) then Some d else find_own own' k
  end.
Definition getOwnPropertyDescriptor (o : object) (k : pkey) : option descriptor :=
  find_own (obj_own o) k.

Definition enumerable (d : descriptor) : bool :=
  match d with DData _ e => e | DAccessor e => e end.
Definition is_data (d : descriptor) : bool :=
  match d with DData _ _ => true | DAccessor _ => false end.
Definition str_key (k : pkey) : option string :=
  match k with KStr s => Some s | KSym _ => None end.

Definition object_keys (o : object) : list string :=
  omap (λ kd, if enumerable kd.2 then str_key kd.1 else None) (obj_own o).

(** [o[k]] where [o] has the own property [k].  [None] when reading it runs a
    getter (user code) or goes to the prototype. *)
Definition get_own (o : object) (k : string) : option rval :=
  match getOwnPropertyDescriptor o (KStr k) with
  | Some (DData v _) => Some v
  | _ => None
  end.

(** [a.length] of an array: the value of its own [length] property. *)
Definition array_length (o : object) : N :=
  match get_own o "length" with
  | Some (RNum n) => match num_integer n with Some z => Z.to_N z | None => 0 end
  | _ => 0
  end.

(** What the language guarantees of every array: an own non-enumerable data
    property [length] below 2^32, and no own property listed twice. *)
Definition object_wf (o : object) : Prop :=
  NoDup (ownKeys o) ∧
  (obj_is_array o = true → ∃ n : Z, (0 ≤ n < 2 ^ 32)%Z ∧
     getOwnPropertyDescriptor o (KStr "length") = Some (DData (RNum n) false)).

Definition refs_in (h : heap) (v : rval) : Prop :=
  match v with RRef l => is_Some (h !! l) | _ => True end.

Definition heap_wf (h : heap) : Prop :=
  ∀ l o, h !! l = Some o → object_wf o ∧
    ∀ k v e, (k, DData v e) ∈ obj_own o → refs_in h v.

(** ** [String] and [Number] on array indices *)

(** The value of a run of decimal digits, its length, and what follows. *)
Definition digit (c : ascii) : option N :=
  let n := unit_of c in
  if bool_decide (48 ≤ n ∧ n ≤ 57)%N then Some (n - 48)%N else None.

Fixpoint digits (acc : N) (len : nat) (s : string) : N * nat * string :=
  match s with
  | EmptyString => (acc, len, s)
  | String c s' =>
      match digit c with
      | Some d => digits (acc * 10 + d)%N (S len) s'
      | None => (acc, len, s)
      end
  end.

(** An unsigned decimal literal: digits, fraction, exponent. *)
Definition exponent (s : string) : option Z :=
  match s with
  | EmptyString => Some 0%Z
  | String c s' =>
      if bool_decide (c = "e"%char ∨ c = "E"%char) then
        let '(neg, s'') := match s' with
          | String "-" t => (true, t) | String "+" t => (false, t) | _ => (false, s') end in
        match digits 0 0 s'' with
        | (n, S _, EmptyString) => Some (if neg then (- Z.of_N n)%Z else Z.of_N n)
        | _ => None
        end
      else None
  end.

Definition scale (mantissa : N) (e : Z) : jsnum :=
  NFin (if bool_decide (0 ≤ e)%Z then Qc_of_Z (Z.of_N mantissa * 10 ^ e)%Z%Z
        else (Qc_of_Z (Z.of_N mantissa) / Qc_of_Z (10 ^ (- e))%Z)%Qc).

Definition unsigned_decimal (s : string) : jsnum :=
  if String.eqb s "Infinity" then NPosInf else
  let '(n, len, rest) := digits 0 0 s in
  let '(m, flen, rest') := match rest with
    | String "." t => digits n 0 t | _ => (n, 0, rest) end in
  match len + flen, exponent rest' with
  | S _, Some e => scale m (e - Z.of_nat flen)
  | _, _ => NNaN
  end.

Definition num_opp (n : jsnum) : jsnum :=
  match n with
  | NFin q => NFin (- q)%Qc | NPosInf => NNegInf | NNegInf => NPosInf | NNaN => NNaN
  end.

(** The value of a non-empty run of digits of the given radix. *)
Definition radix_digit (c : ascii) : option N :=
  let n := unit_of c in
  if bool_decide (48 ≤ n ∧ n ≤ 57)%N then Some (n - 48)%N
  else if bool_decide (65 ≤ n ∧ n ≤ 70)%N then Some (n - 55)%N
  else if bool_decide (97 ≤ n ∧ n ≤ 102)%N then Some (n - 87)%N
  else None.
Fixpoint radix_digits (radix acc : N) (s : string) : option N :=
  match s with
  | EmptyString => Some acc
  | String c s' =>
      match radix_digit c with
      | Some d => if (d <? radix)%N then radix_digits radix (acc * radix + d)%N s' else None
      | None => None
      end
  end.
Definition radix_literal (radix : N) (s : string) : jsnum :=
  match s with
  | EmptyString => NNaN
  | _ => match radix_digits radix 0 s with Some n => Z.of_N n | None => NNaN end
  end.

(** [Number(s)] on a string, exact where a double would round. *)
Definition js_Number (s : string) : jsnum :=
  match trim s with
  | EmptyString => 0%Z
  | String "0" (String x rest) as t =>
      if bool_decide (x = "x" ∨ x = "X")%char then radix_literal 16 rest
      else if bool_decide (x = "o" ∨ x = "O")%char then radix_literal 8 rest
      else if bool_decide (x = "b" ∨ x = "B")%char then radix_literal 2 rest
      else unsigned_decimal t
  | String "-" t => num_opp (unsigned_decimal t)
  | String "+" t => unsigned_decimal t
  | t => unsigned_decimal t
  end.

(** [String(n)] of a non-negative integer below 10^21. *)
Definition js_String (n : N) : string := pretty n.

Definition isArrayIndex (name : string) (length : N) : bool :=
  if String.eqb name "" then false else
  match num_integer (js_Number name) with
  | Some index =>
      bool_decide (0 ≤ index)%Z && bool_decide (index < Z.of_N length)%Z &&
      String.eqb (js_String (Z.to_N index)) name
  | None => false
  end.

(** ** The checks *)

Definition plain_property (o : object) (name : string) : bool :=
  match getOwnPropertyDescriptor o (KStr name) with
  | None => false
  | Some d => is_data d && enumerable d
  end.

(** The own names, when every own key is a string. *)
Definition own_names (o : object) : option (list string) := mapM str_key (ownKeys o).

Definition strictRecordProperties (o : object) : bool :=
  match own_names o with
  | None => false
  | Some names => forallb (plain_property o) names
  end.

(** [0, 1, ..., n - 1]. *)
Definition indices (n : N) : list N := N.of_nat <$> seq 0 (N.to_nat n).

Definition strictArrayProperties (o : object) : bool :=
  match own_names o with
  | None => false
  | Some names =>
      js_elem "length" names &&
      match getOwnPropertyDescriptor o (KStr "length") with
      | Some (DData v _) =>
          bool_decide (v = RNum (Z.of_N (array_length o))) &&
          forallb (λ index, plain_property o (js_String index)) (indices (array_length o)) &&
          forallb (λ name, String.eqb name "length" || isArrayIndex name (array_length o)) names
      | _ => false
      end
  end.

Definition is_plain_proto (p : prototype) : bool :=
  bool_decide (p = proto_object) || bool_decide (p = proto_null).

(** [isStrictPlainRecord] and [isStrictJsonArray] of an object. *)
Definition strict_plain_record (o : object) : bool :=
  negb (obj_is_array o) && is_plain_proto (obj_proto o) && strictRecordProperties o.
Definition strict_json_array (o : object) : bool :=
  obj_is_array o && bool_decide (obj_proto o = proto_array) && strictArrayProperties o.

Section check.
Context (h : heap).

Definition isStrictPlainRecord (v : rval) : bool :=
  match v with
  | RRef l => match h !! l with Some o => strict_plain_record o | None => false end
  | _ => false
  end.
Definition isStrictJsonArray (v : rval) : bool :=
  match v with
  | RRef l => match h !! l with Some o => strict_json_array o | None => false end
  | _ => false
  end.

(** The loop over the children, threading the shared [ancestors] set and
    stopping at the first child that is not JSON. *)
Fixpoint visit_children (visit : rval → gset loc → option (bool * gset loc))
    (o : object) (names : list string) (ancestors : gset loc) : option (bool * gset loc) :=
  match names with
  | [] => Some (true, ancestors)
  | name :: names' =>
      v ← get_own o name;
      '(ok, ancestors) ← visit v ancestors;
      if ok : bool then visit_children visit o names' ancestors else Some (false, ancestors)
  end.

(** [visit]; [None] when the fuel (the call stack) runs out or user code
    would run.  The [finally] clause deletes the value on every exit. *)
Fixpoint visit (fuel : nat) (v : rval) (ancestors : gset loc) : option (bool * gset loc) :=
  match v with
  | RNull | RStr _ | RBool _ => Some (true, ancestors)
  | RNum n => Some (is_finite n, ancestors)
  | RUndef | ROpaque => Some (false, ancestors)
  | RRef l =>
      match fuel with
      | O => None
      | S fuel' =>
          if bool_decide (l ∈ ancestors) then Some (false, ancestors) else
          let inner := {[ l ]} ∪ ancestors in
          '(ok, inner) ← match h !! l with
            | None => Some (false, inner)
            | Some o =>
                if obj_is_array o then
                  if negb (isStrictJsonArray v) then Some (false, inner)
                  else visit_children (visit fuel') o
                         (js_String <$> indices (array_length o)) inner
                else if negb (isStrictPlainRecord v) then Some (false, inner)
                else visit_children (visit fuel') o (object_keys o) inner
            end;
          Some (ok, inner ∖ {[ l ]})
      end
  end.

(** One frame per object of the heap is enough. *)
Definition visit_fuel : nat := S (size h).

Definition isStrictJsonValue (v : rval) : option bool := fst <$> visit visit_fuel v ∅.

(** ** Specification *)

(** [denotes v t]: [v] is the root of the plain tree [t], its objects plain
    records and dense arrays of enumerable data properties. *)
Inductive denotes : rval → jsval → Prop :=
| denotes_undef : denotes RUndef VUndef
| denotes_null : denotes RNull VNull
| denotes_bool b : denotes (RBool b) (VBool b)
| denotes_num n : denotes (RNum n) (VNum n)
| denotes_str s : denotes (RStr s) (VStr s)
| denotes_opaque : denotes ROpaque VOpaque
| denotes_array l o ts :
    h !! l = Some o → strict_json_array o = true →
    denotes_items o (js_String <$> indices (array_length o)) ts →
    denotes (RRef l) (VArr ts)
| denotes_record l o ts :
    h !! l = Some o → strict_plain_record o = true →
    denotes_items o (object_keys o) ts →
    denotes (RRef l) (VObj (zip (object_keys o) ts))
with denotes_items : object → list string → list jsval → Prop :=
| denotes_nil o : denotes_items o [] []
| denotes_cons o name names v t ts :
    get_own o name = Some v → denotes v t → denotes_items o names ts →
    denotes_items o (name :: names) (t :: ts).
End check.

Scheme denotes_ind' := Minimality for denotes Sort Prop
  with denotes_items_ind' := Minimality for denotes_items Sort Prop.
Combined Scheme denotes_mutind from denotes_ind', denotes_items_ind'.

(** The check on a tree: [isStrictJsonValue] where the value is known to be
    plain data. *)
Fixpoint json_value (t : jsval) : bool :=
  match t with
  | VNull | VBool _ | VStr _ => true
  | VNum n => is_finite n
  | VUndef | VOpaque => false
  | VArr ts => forallb json_value ts
  | VObj fs => forallb (λ kv, json_value kv.2) fs
  end.

Fixpoint tree_size (t : jsval) : nat :=
  match t with
  | VArr ts => S (sum_list_with tree_size ts)
  | VObj fs => S (sum_list_with (λ kv, tree_size kv.2) fs)
  | _ => 1
  end.
