(* ===== verification/StructuredJsonFacts.v ===== *)
(** * StructuredJsonFacts

    The strict JSON check terminates without running user code, restores its
    ancestor set, and accepts exactly the roots of finite plain JSON trees;
    strict arrays are exactly the dense ones. *)

From Stdlib Require Import QArith Qcanon.
From stdpp Require Import pretty.
From S2P Require Import Prelude StructuredJson.

(** ** [Number] inverts [String] on array indices *)

Fixpoint digits_value (acc : N) (s : string) : N :=
  match s with
  | EmptyString => acc
  | String c s' => digits_value (acc * 10 + (unit_of c - 48)) s'
  end.

Definition is_digit (c : ascii) : Prop := (48 ≤ unit_of c ∧ unit_of c ≤ 57)%N.

Fixpoint all_digits (s : string) : Prop :=
  match s with
  | EmptyString => True
  | String c s' => is_digit c ∧ all_digits s'
  end.

Lemma digits_all s : all_digits s → ∀ acc len,
  digits acc len s = (digits_value acc s, len + String.length s, EmptyString).
Proof.
  induction s as [|c s IH]; simpl; intros Hs acc len; [by rewrite Nat.add_0_r|].
  destruct Hs as [Hc Hs]. unfold digit. rewrite bool_decide_eq_true_2 by done.
  rewrite IH by done. by rewrite Nat.add_succ_comm.
Qed.

Lemma pretty_char_digit x : (x < 10)%N →
  is_digit (pretty_N_char x) ∧ unit_of (pretty_N_char x) = (48 + x)%N.
Proof.
  intros Hx. destruct x as [|p]; [done|].
  do 4 (destruct p as [p|p|]; try (by vm_compute); try lia).
Qed.

Lemma pretty_go_digits x s : all_digits s →
  all_digits (pretty_N_go x s) ∧ digits_value 0 (pretty_N_go x s) = digits_value x s.
Proof.
  revert s. induction (N.lt_wf_0 x) as [x _ IH]; intros s Hs.
  destruct (decide (0 < x)%N) as [Hx|Hx].
  - rewrite pretty_N_go_step by done.
    destruct (pretty_char_digit (x `mod` 10)) as [Hd Hv]; [by apply N.mod_lt|].
    destruct (IH (x `div` 10)%N) with (s := String (pretty_N_char (x `mod` 10)) s)
      as [Hall Hval]; [by apply N.div_lt|done|].
    split; [done|]. rewrite Hval. simpl. f_equal. rewrite Hv.
    pose proof (N.div_mod x 10 ltac:(done)) as Hq. revert Hq.
    generalize (x `div` 10)%N (x `mod` 10)%N. clear. intros q r Hq. lia.
  - assert (x = 0%N) as -> by lia. by rewrite pretty_N_go_0.
Qed.

Lemma js_String_unfold n : js_String n = if decide (n = 0)%N then "0" else pretty_N_go n "".
Proof. reflexivity. Qed.

Lemma js_String_digits n :
  all_digits (js_String n) ∧ digits_value 0 (js_String n) = n.
Proof.
  rewrite js_String_unfold. case_decide; [by subst|]. by apply (pretty_go_digits n "").
Qed.

Lemma js_String_nonempty n : js_String n ≠ "".
Proof.
  intros Hn. destruct (js_String_digits n) as [_ Hv]. rewrite Hn in Hv. simpl in Hv. by subst.
Qed.

Lemma digit_not_space c : is_digit c → is_js_space c = false.
Proof.
  unfold is_digit, is_js_space. intros [??].
  rewrite bool_decide_eq_false_2 by lia. simpl.
  rewrite orb_false_iff, !N.eqb_neq. lia.
Qed.

Lemma trim_digits s : all_digits s → trim s = s.
Proof.
  intros Hs. unfold trim.
  assert (trim_start s = s) as ->.
  { destruct s as [|c s]; [done|]. simpl. by rewrite digit_not_space by apply Hs. }
  induction s as [|c s IH]; [done|]. destruct Hs as [Hc Hs]. simpl. rewrite IH by done.
  destruct s; [by rewrite digit_not_space|done].
Qed.

Lemma unsigned_decimal_digits s : all_digits s → s ≠ "" →
  unsigned_decimal s = NFin (Qc_of_Z (Z.of_N (digits_value 0 s))).
Proof.
  intros Hs Hne. unfold unsigned_decimal.
  assert (String.eqb s "Infinity" = false) as ->.
  { apply String.eqb_neq. intros ->. by destruct Hs as [[]]. }
  rewrite digits_all by done. rewrite Nat.add_0_r.
  destruct s as [|c s]; [done|]. simpl. unfold scale. simpl. by rewrite Z.mul_1_r.
Qed.

(** [Number(String(n)) = n]. *)
Lemma js_Number_String n : js_Number (js_String n) = num_of_Z (Z.of_N n).
Proof.
  destruct (js_String_digits n) as [Hs Hv]. pose proof (js_String_nonempty n) as Hne.
  revert Hs Hv Hne. generalize (js_String n) as s.
  intros s Hs Hv Hne.
  assert (Hu : unsigned_decimal s = num_of_Z (Z.of_N n))
    by (rewrite unsigned_decimal_digits by done; by rewrite Hv).
  unfold js_Number. rewrite trim_digits by done.
  destruct s as [|c s]; [done|]. destruct Hs as [Hc Hs].
  destruct c as [[] [] [] [] [] [] [] []]; try exact Hu; try (by destruct Hc).
  destruct s as [|c' s]; [exact Hu|]. destruct Hs as [Hc' _].
  rewrite !bool_decide_eq_false_2; [exact Hu|..]; intros [-> | ->]; by destruct Hc'.
Qed.

Lemma js_String_inj : Inj (=) (=) js_String.
Proof. intros x y H%(f_equal js_Number). rewrite !js_Number_String in H. simplify_eq. lia. Qed.

Lemma isArrayIndex_iff name n :
  isArrayIndex name n = true ↔ ∃ i, (i < n)%N ∧ name = js_String i.
Proof.
  unfold isArrayIndex. split.
  - case_match; [done|]. case_match; [|done]. rewrite !andb_true_iff, !bool_decide_eq_true.
    rewrite String.eqb_eq. intros [[??] <-]. exists (Z.to_N z). split; [lia|done].
  - intros (i & Hi & ->).
    assert (String.eqb (js_String i) "" = false) as ->
      by (apply String.eqb_neq, js_String_nonempty).
    rewrite js_Number_String, num_integer_Z, N2Z.id, String.eqb_refl.
    rewrite !bool_decide_eq_true_2 by lia. done.
Qed.

(** ** Own properties *)

Lemma elem_indices i n : i ∈ indices n ↔ (i < n)%N.
Proof.
  unfold indices. rewrite list_elem_of_fmap. setoid_rewrite elem_of_seq. split.
  - intros (k & -> & ?). lia.
  - intros Hi. exists (N.to_nat i). split; [by rewrite N2Nat.id|lia].
Qed.

Lemma own_names_Some o names :
  own_names o = Some names → ∀ k, k ∈ ownKeys o ↔ ∃ s, s ∈ names ∧ k = KStr s.
Proof.
  unfold own_names. rewrite mapM_Some. intros Hf k.
  induction Hf as [|k' s ks names Hk _ IH]; [set_solver|].
  assert (k' = KStr s) as -> by (destruct k'; naive_solver).
  rewrite elem_of_cons, IH. setoid_rewrite elem_of_cons. naive_solver.
Qed.

Lemma find_own_elem own k d : find_own own k = Some d → (k, d) ∈ own.
Proof.
  induction own as [|[k' d'] own IH]; [done|]. simpl. case_bool_decide.
  - intros [= ->]. subst. by left.
  - intros ?. right. auto.
Qed.

Lemma find_own_is_Some own k : k ∈ own.*1 ↔ is_Some (find_own own k).
Proof.
  induction own as [|[k' d'] own IH]; simpl.
  - split; [set_solver|by intros [? ?]].
  - rewrite elem_of_cons. case_bool_decide; subst; naive_solver.
Qed.

Lemma object_keys_own o name : name ∈ object_keys o → KStr name ∈ ownKeys o.
Proof.
  unfold object_keys, ownKeys. rewrite list_elem_of_omap, list_elem_of_fmap.
  intros ([k d] & Hin & Hs). simpl in Hs. exists (k, d). split; [|done].
  destruct (enumerable d), k; naive_solver.
Qed.

Lemma get_own_plain o name : plain_property o name = true → ∃ v, get_own o name = Some v.
Proof.
  unfold plain_property, get_own. destruct (getOwnPropertyDescriptor o _) as [[]|]; naive_solver.
Qed.

Lemma get_own_refs h l o name v :
  heap_wf h → h !! l = Some o → get_own o name = Some v → refs_in h v.
Proof.
  intros Hwf Ho. unfold get_own, getOwnPropertyDescriptor.
  destruct (find_own _ _) as [[v' e|]|] eqn:Hf; [|done..]. intros [= ->].
  apply find_own_elem in Hf. by eapply (Hwf l o Ho).
Qed.

Lemma forallb_elem {A} (f : A → bool) l : forallb f l = true ↔ ∀ x, x ∈ l → f x = true.
Proof. rewrite forallb_forall. by setoid_rewrite list_elem_of_In. Qed.

Lemma strictRecordProperties_iff o :
  strictRecordProperties o = true ↔
  ∃ names, own_names o = Some names ∧ ∀ name, name ∈ names → plain_property o name = true.
Proof.
  unfold strictRecordProperties. destruct (own_names o); [|naive_solver].
  rewrite forallb_elem. naive_solver.
Qed.

Lemma strictArrayProperties_iff o :
  strictArrayProperties o = true ↔
  ∃ names e, own_names o = Some names ∧ "length" ∈ names ∧
    getOwnPropertyDescriptor o (KStr "length") =
      Some (DData (RNum (Z.of_N (array_length o))) e) ∧
    (∀ i, (i < array_length o)%N → plain_property o (js_String i) = true) ∧
    (∀ name, name ∈ names →
       name = "length" ∨ ∃ i, (i < array_length o)%N ∧ name = js_String i).
Proof.
  unfold strictArrayProperties. destruct (own_names o) as [names|]; [|naive_solver].
  rewrite andb_true_iff, js_elem_spec.
  destruct (getOwnPropertyDescriptor _ _) as [[v e|]|]; [|naive_solver..].
  rewrite !andb_true_iff, bool_decide_eq_true, !forallb_elem.
  setoid_rewrite elem_indices. setoid_rewrite orb_true_iff.
  setoid_rewrite String.eqb_eq. setoid_rewrite isArrayIndex_iff. naive_solver.
Qed.

(** ** The two container shapes, uniformly *)

Definition shape (o : object) : option (list string) :=
  if obj_is_array o then
    if strict_json_array o then Some (js_String <$> indices (array_length o)) else None
  else if strict_plain_record o then Some (object_keys o) else None.

Definition build (o : object) (ts : list jsval) : jsval :=
  if obj_is_array o then VArr ts else VObj (zip (object_keys o) ts).

Lemma shape_plain o names name :
  shape o = Some names → name ∈ names → plain_property o name = true.
Proof.
  unfold shape. case_match.
  - case_match; [|done]. intros [= <-] (i & -> & Hi%elem_indices)%list_elem_of_fmap.
    unfold strict_json_array in *. bool_to_prop. destruct_and!.
    destruct (proj1 (strictArrayProperties_iff o)) as (? & ? & _ & _ & _ & Hp & _); auto.
  - case_match; [|done]. intros [= <-] Hin. unfold strict_plain_record in *.
    bool_to_prop. destruct_and!.
    match goal with H : strictRecordProperties o = true |- _ =>
      apply strictRecordProperties_iff in H as (? & Hn & Hp) end.
    apply object_keys_own, (own_names_Some _ _ Hn) in Hin as (s & Hin & [= <-]). auto.
Qed.

Lemma visit_ref h n l o A : h !! l = Some o → l ∉ A →
  visit h (S n) (RRef l) A =
    '(ok, inner) ← match shape o with
      | None => Some (false, {[ l ]} ∪ A)
      | Some names => visit_children (visit h n) o names ({[ l ]} ∪ A)
      end;
    Some (ok, inner ∖ {[ l ]}).
Proof.
  intros Ho Hl. simpl. rewrite bool_decide_eq_false_2 by done. rewrite Ho.
  unfold shape. destruct (obj_is_array o), (strict_json_array o), (strict_plain_record o); done.
Qed.

Lemma denotes_ref h l t :
  denotes h (RRef l) t ↔ ∃ o names ts, h !! l = Some o ∧ shape o = Some names ∧
    denotes_items h o names ts ∧ t = build o ts.
Proof.
  split.
  - inversion 1 as [| | | | | |? o ts Ho Hs Hi|? o ts Ho Hs Hi]; subst; exists o; eexists; exists ts;
      (split_and!; [done| |done|]); unfold shape, build.
    1,2: pose proof Hs as Ha; apply andb_true_iff in Ha as [[-> _]%andb_true_iff _]; by rewrite ?Hs.
    1,2: pose proof Hs as Ha; apply andb_true_iff in Ha as [[Ha _]%andb_true_iff _];
      apply negb_true_iff in Ha as ->; by rewrite ?Hs.
  - intros (o & names & ts & Ho & Hs & Hi & ->). unfold shape, build in *.
    destruct (obj_is_array o); case_match; simplify_eq; by econstructor.
Qed.

Lemma denotes_fun h :
  (∀ v t, denotes h v t → ∀ t', denotes h v t' → t = t') ∧
  (∀ o names ts, denotes_items h o names ts → ∀ ts', denotes_items h o names ts' → ts = ts').
Proof.
  apply denotes_mutind; try (intros *; inversion 1; congruence).
  - intros l o ts Ho Hs _ IH t' (o' & names & ts' & Ho' & Hs' & Hi & ->)%denotes_ref.
    simplify_eq. unfold shape, build in *. pose proof Hs as Ha.
    apply andb_true_iff in Ha as [[Ha _]%andb_true_iff _]. rewrite Ha, Hs in *. simplify_eq.
    f_equal. by apply IH.
  - intros l o ts Ho Hs _ IH t' (o' & names & ts' & Ho' & Hs' & Hi & ->)%denotes_ref.
    simplify_eq. unfold shape, build in *. pose proof Hs as Ha.
    apply andb_true_iff in Ha as [[Ha%negb_true_iff _]%andb_true_iff _].
    rewrite Ha, Hs in *. simplify_eq. do 2 f_equal. by apply IH.
  - intros o name names v t ts Hv _ IHv _ IHs ts'. inversion 1; simplify_eq.
    f_equal; [by apply IHv|by apply IHs].
Qed.

Lemma denotes_items_length h o names ts : denotes_items h o names ts → length names = length ts.
Proof. induction 1; simpl; congruence. Qed.

Lemma forallb_zip_snd {A B} (f : B → bool) (ks : list A) ts :
  length ks = length ts → forallb (λ kv, f kv.2) (zip ks ts) = forallb f ts.
Proof. revert ts; induction ks; intros [|??] ?; simplify_eq/=; f_equal; auto. Qed.

Lemma sum_zip_snd {A B} (f : B → nat) (ks : list A) ts :
  length ks = length ts → sum_list_with (λ kv, f kv.2) (zip ks ts) = sum_list_with f ts.
Proof. revert ts; induction ks; intros [|??] ?; simplify_eq/=; f_equal; auto. Qed.

Lemma build_json o names ts :
  shape o = Some names → length names = length ts →
  json_value (build o ts) = forallb json_value ts ∧
  tree_size (build o ts) = S (sum_list_with tree_size ts).
Proof.
  unfold shape, build. destruct (obj_is_array o); [done|].
  case_match; [|done]. intros [= <-] Hl. simpl.
  by rewrite forallb_zip_snd, (sum_zip_snd tree_size).
Qed.

(** ** The traversal *)

Lemma visit_children_spec f o names (A : gset positive) :
  (∀ name, name ∈ names → ∃ v b, get_own o name = Some v ∧ f v A = Some (b, A)) →
  ∃ b, visit_children f o names A = Some (b, A) ∧
       (b = true ↔ Forall (λ name, ∃ v, get_own o name = Some v ∧ f v A = Some (true, A)) names).
Proof.
  induction names as [|name names IH]; intros Hn; simpl.
  { exists true. split; [done|]. split; [constructor|done]. }
  destruct (Hn name) as (v & b & Hv & Hf); [by left|]. rewrite Hv; simpl. rewrite Hf; simpl.
  destruct b.
  - destruct IH as (b & -> & Hb); [intros; apply Hn; by right|]. exists b. split; [done|].
    rewrite Forall_cons, Hb. naive_solver.
  - exists false. split; [done|]. rewrite Forall_cons. naive_solver.
Qed.

Lemma visit_shrink (h : gmap positive object) l (A : gset positive) n :
  is_Some (h !! l) → l ∉ A → size (dom h ∖ A) < S n → size (dom h ∖ ({[ l ]} ∪ A)) < n.
Proof.
  intros Hl HA Hs. assert (l ∈ dom h ∖ A) by (apply elem_of_difference; by rewrite elem_of_dom).
  pose proof (subset_size (dom h ∖ ({[l]} ∪ A)) (dom h ∖ A)). set_solver by lia.
Qed.

(** The traversal returns, and its ancestors are back to what they were. *)
Lemma visit_returns h : heap_wf h → ∀ n v A, refs_in h v → size (dom h ∖ A) < n →
  ∃ b, visit h n v A = Some (b, A).
Proof.
  intros Hwf n. induction n as [|n IH]; intros v A Hv Hn; [lia|].
  destruct v as [| | | | |l|]; try (by eexists). destruct Hv as [o Ho].
  destruct (decide (l ∈ A)) as [Hl|Hl].
  { exists false. simpl. by rewrite bool_decide_eq_true_2. }
  rewrite (visit_ref _ _ _ o) by done.
  assert (({[l]} ∪ A) ∖ {[l]} = A) as HA by set_solver.
  destruct (shape o) as [names|] eqn:Hs; simpl; [|rewrite HA; by eexists].
  destruct (visit_children_spec (visit h n) o names ({[l]} ∪ A)) as (b & -> & _).
  - intros name Hin. destruct (get_own_plain o name) as [v Hv]; [by eapply shape_plain|].
    destruct (IH v ({[l]} ∪ A)) as [b Hb]; [by eapply get_own_refs|by apply visit_shrink|].
    by exists v, b.
  - simpl. rewrite HA. by eexists.
Qed.

(** Unfolding of one object: accepted iff strict and every child is. *)
Lemma visit_ref_true h n l o A : heap_wf h → h !! l = Some o → l ∉ A → size (dom h ∖ A) < S n →
  visit h (S n) (RRef l) A = Some (true, A) ↔
  ∃ names, shape o = Some names ∧
    Forall (λ name, ∃ v, get_own o name = Some v ∧
                         visit h n v ({[ l ]} ∪ A) = Some (true, {[ l ]} ∪ A)) names.
Proof.
  intros Hwf Ho Hl Hn. rewrite (visit_ref _ _ _ o) by done.
  assert (({[l]} ∪ A) ∖ {[l]} = A) as HA by set_solver.
  destruct (shape o) as [names|] eqn:Hs; simpl; [|naive_solver].
  destruct (visit_children_spec (visit h n) o names ({[l]} ∪ A)) as (b & -> & Hb).
  - intros name Hin. destruct (get_own_plain o name) as [v Hv]; [by eapply shape_plain|].
    destruct (visit_returns h Hwf n v ({[l]} ∪ A)) as [b Hb];
      [by eapply get_own_refs|by apply visit_shrink|]. by exists v, b.
  - simpl. rewrite HA. naive_solver.
Qed.

Lemma visit_sound h : heap_wf h → ∀ n v A, refs_in h v → size (dom h ∖ A) < n →
  visit h n v A = Some (true, A) → ∃ t, denotes h v t ∧ json_value t = true.
Proof.
  intros Hwf n. induction n as [|n IH]; intros v A Hv Hn; [lia|].
  destruct v as [| | | | |l|]; try (intros Ht; simplify_eq/=; eexists; by split; [constructor|]).
  destruct Hv as [o Ho]. destruct (decide (l ∈ A)) as [Hl|Hl].
  { simpl. by rewrite bool_decide_eq_true_2. }
  rewrite visit_ref_true by done. intros (names & Hs & Hall).
  assert (∃ ts, denotes_items h o names ts ∧ forallb json_value ts = true) as (ts & Hi & Hj).
  { clear Hs. induction Hall as [|name names (v & Hv & Ht) _ IHl].
    - exists []. split; [constructor|done].
    - destruct IHl as (ts & Hi & Hj).
      destruct (IH v ({[l]} ∪ A)) as (t & Hd & Htj);
        [by eapply get_own_refs|by apply visit_shrink|done|].
      exists (t :: ts). split; [by econstructor|]. simpl. by rewrite Htj. }
  exists (build o ts). split.
  - apply denotes_ref. by exists o, names, ts.
  - by rewrite (proj1 (build_json _ _ _ Hs (denotes_items_length _ _ _ _ Hi))).
Qed.

Lemma denotes_items_inv h o names ts :
  denotes_items h o names ts →
  Forall (λ name, ∃ v t, get_own o name = Some v ∧ denotes h v t ∧ t ∈ ts) names.
Proof.
  induction 1 as [|o name names v t ts Hv Hd Hi IH]; constructor.
  - exists v, t. split_and!; [done..|by left].
  - eapply Forall_impl; [exact IH|]. intros name' (v' & t' & ? & ? & ?).
    exists v', t'. split_and!; [done..|by right].
Qed.

Lemma sum_list_elem {A} (f : A → nat) l x : x ∈ l → f x ≤ sum_list_with f l.
Proof. induction 1; simpl; lia. Qed.

Lemma visit_complete h : heap_wf h → ∀ n v A t, size (dom h ∖ A) < n →
  denotes h v t → json_value t = true →
  (∀ a t', a ∈ A → denotes h (RRef a) t' → tree_size t < tree_size t') →
  visit h n v A = Some (true, A).
Proof.
  intros Hwf n. induction n as [|n IH]; intros v A t Hn Hd Hj HA; [lia|].
  destruct v as [| | | | |l|]; try (inversion Hd; subst; simpl in *; congruence).
  pose proof Hd as Hd'. apply denotes_ref in Hd' as (o & names & ts & Ho & Hs & Hi & ->).
  assert (l ∉ A) as Hl by (intros Hl; specialize (HA l _ Hl Hd); lia).
  destruct (build_json _ _ _ Hs (denotes_items_length _ _ _ _ Hi)) as [Hbj Hbs].
  rewrite Hbj, forallb_forall in Hj.
  rewrite (visit_ref_true _ _ _ o) by done. exists names. split; [done|].
  eapply Forall_impl; [by apply denotes_items_inv|]. intros name (v & t & Hv & Ht & Hin).
  exists v. split; [done|].
  pose proof (sum_list_elem tree_size ts t Hin) as Hsize.
  apply (IH v _ t); [by apply visit_shrink|done|by apply Hj, list_elem_of_In|].
  intros a t' [->%elem_of_singleton|Ha]%elem_of_union Hat.
  - rewrite (proj1 (denotes_fun h) _ _ Hat _ Hd). lia.
  - specialize (HA a t' Ha Hat). lia.
Qed.

Lemma visit_fuel_enough (h : gmap positive object) :
  size (dom h ∖ (∅ : gset positive)) < visit_fuel h.
Proof.
  unfold visit_fuel. rewrite <-size_dom.
  pose proof (subseteq_size (dom h ∖ (∅ : gset positive)) (dom h)). set_solver by lia.
Qed.

Lemma is_strict_json_iff h v : heap_wf h → refs_in h v →
  ∃ b, isStrictJsonValue h v = Some b ∧
       (b = true ↔ ∃ t, denotes h v t ∧ json_value t = true).
Proof.
  intros Hwf Hv. pose proof (visit_fuel_enough h) as Hfuel. unfold isStrictJsonValue.
  destruct (visit_returns h Hwf _ v ∅ Hv Hfuel) as [b Hb]. exists b. rewrite Hb.
  split; [done|]. split.
  - intros ->. by eapply visit_sound.
  - intros (t & Hd & Hj). cut (visit h (visit_fuel h) v ∅ = Some (true, ∅)); [congruence|].
    eapply visit_complete; [done..|set_solver].
Qed.

(** C23: the check always returns a boolean, without exhausting the call stack
    allowed for and without running user code, and it answers [true] exactly
    for the roots of finite plain trees whose leaves are null, booleans,
    strings and finite numbers. *)
Theorem isStrictJsonValue_correct h v :
  heap_wf h → refs_in h v →
  ∃ b, isStrictJsonValue h v = Some b ∧
       (b = true ↔ ∃ t, denotes h v t ∧ json_value t = true).
Proof. apply is_strict_json_iff. Qed.

(** A heap with a record holding an array twice, and one holding itself. *)
Definition sample_heap : heap :=
  {[ 1%positive := {| obj_is_array := false; obj_proto := proto_object;
       obj_own := [(KStr "a", DData (RRef 2) true); (KStr "b", DData (RRef 2) true)] |};
     2%positive := {| obj_is_array := true; obj_proto := proto_array;
       obj_own := [(KStr "0", DData (RStr "x") true); (KStr "length", DData (RNum 1%Z) false)] |};
     3%positive := {| obj_is_array := false; obj_proto := proto_null;
       obj_own := [(KStr "self", DData (RRef 3) true)] |} ]}.

Lemma sample_heap_wf : heap_wf sample_heap.
Proof.
  intros l o. unfold sample_heap. rewrite !lookup_insert_Some, lookup_singleton_Some.
  intros [[<- <-]|[_ [[<- <-]|[_ [<- <-]]]]]; (split; [split|]); simpl.
  all: try (apply (bool_decide_unpack (NoDup _)); vm_compute; exact I).
  all: try done.
  all: try (intros _; exists 1%Z; split; [lia|reflexivity]).
  all: intros k v e Hin; rewrite ?elem_of_cons, elem_of_nil in Hin; naive_solver.
Qed.

Lemma isStrictJsonValue_witness :
  (∃ b, isStrictJsonValue sample_heap (RRef 1) = Some b ∧
     (b = true ↔ ∃ t, denotes sample_heap (RRef 1) t ∧ json_value t = true)) ∧
  isStrictJsonValue sample_heap (RRef 1) = Some true ∧
  isStrictJsonValue sample_heap (RRef 3) = Some false.
Proof.
  split; [|split; by vm_compute].
  apply isStrictJsonValue_correct; [apply sample_heap_wf|]. eexists; by vm_compute.
Defined.

(** ** Cycles *)

(** [l] has an own data property that refers to [l']. *)
Definition refers (h : heap) (l l' : positive) : Prop :=
  ∃ o name, h !! l = Some o ∧ get_own o name = Some (RRef l').

Lemma own_in_shape o names name v :
  shape o = Some names → get_own o name = Some v →
  name ∈ names ∨ name = "length" ∧ ∃ n, v = RNum n.
Proof.
  unfold shape. intros Hs Hg. pose proof Hg as Hg'. unfold get_own, getOwnPropertyDescriptor in Hg'.
  destruct (find_own (obj_own o) (KStr name)) as [d|] eqn:Hf; [|done].
  assert (Hk : KStr name ∈ ownKeys o) by (apply find_own_is_Some; by rewrite Hf).
  destruct (obj_is_array o).
  - destruct (strict_json_array o) eqn:Ha; simplify_eq. unfold strict_json_array in Ha.
    bool_to_prop. destruct Ha as [_ (ns & e & Hn & _ & Hlen & _ & Hall)%strictArrayProperties_iff].
    apply (own_names_Some _ _ Hn) in Hk as (s & Hin & [= <-]).
    destruct (Hall name Hin) as [->|(i & Hi & ->)].
    + right. split; [done|]. unfold getOwnPropertyDescriptor in Hlen. rewrite Hlen in Hf.
      simplify_eq. eauto.
    + left. apply list_elem_of_fmap_2. by apply elem_indices.
  - destruct (strict_plain_record o) eqn:Ha; simplify_eq. unfold strict_plain_record in Ha.
    bool_to_prop. destruct Ha as [_ (ns & Hn & Hall)%strictRecordProperties_iff].
    pose proof Hk as Hk'. apply (own_names_Some _ _ Hn) in Hk' as (s & Hin & [= <-]).
    apply Hall in Hin. unfold plain_property, getOwnPropertyDescriptor in Hin. rewrite Hf in Hin.
    apply andb_true_iff in Hin as [_ He]. left. unfold object_keys.
    apply list_elem_of_omap. exists (KStr name, d). split; [by apply find_own_elem|].
    simpl. by rewrite He.
Qed.

Lemma denotes_refers h l l' t :
  denotes h (RRef l) t → refers h l l' → ∃ t', denotes h (RRef l') t' ∧ tree_size t' < tree_size t.
Proof.
  intros (o & names & ts & Ho & Hs & Hi & ->)%denotes_ref (o' & name & Ho' & Hg). simplify_eq.
  destruct (own_in_shape _ _ _ _ Hs Hg) as [Hin|(_ & n & [=])].
  apply denotes_items_inv in Hi as Hall. rewrite Forall_forall in Hall.
  destruct (Hall name Hin) as (v & t & Hv & Hd & Hts). simplify_eq. exists t. split; [done|].
  rewrite (proj2 (build_json _ _ _ Hs (denotes_items_length _ _ _ _ Hi))).
  pose proof (sum_list_elem tree_size ts t Hts). lia.
Qed.

Lemma denotes_reaches h l l' t :
  tc (refers h) l l' → denotes h (RRef l) t →
  ∃ t', denotes h (RRef l') t' ∧ tree_size t' < tree_size t.
Proof.
  intros Htc. revert t. induction Htc as [l l' Hr|l l1 l' Hr _ IH]; intros t Hd.
  - by eapply denotes_refers.
  - destruct (denotes_refers _ _ _ _ Hd Hr) as (t1 & Hd1 & ?).
    destruct (IH t1 Hd1) as (t' & ? & ?). exists t'. split; [done|lia].
Qed.

Lemma cyclic_denotes_nothing h l l' t :
  rtc (refers h) l l' → tc (refers h) l' l' → ¬ denotes h (RRef l) t.
Proof.
  intros Hr Hc Hd.
  assert (∃ t', denotes h (RRef l') t') as [t' Hd'].
  { revert t Hd. induction Hr as [|l l1 l' Hr _ IH]; intros t Hd; [by eexists|].
    destruct (denotes_refers _ _ _ _ Hd Hr) as (t1 & ? & _). by eapply IH. }
  destruct (denotes_reaches _ _ _ _ Hc Hd') as (t'' & Hd'' & ?).
  rewrite (proj1 (denotes_fun h) _ _ Hd'' _ Hd') in *. lia.
Qed.

(** a value from which a cycle can be reached through own data properties
    is never accepted. *)
Theorem cyclic_values_rejected h l l' :
  heap_wf h → is_Some (h !! l) → rtc (refers h) l l' → tc (refers h) l' l' →
  isStrictJsonValue h (RRef l) ≠ Some true.
Proof.
  intros Hwf Hl Hr Hc. destruct (is_strict_json_iff h (RRef l) Hwf Hl) as (b & -> & Hb).
  intros [= ->]. destruct (proj1 Hb eq_refl) as (t & Hd & _). by eapply cyclic_denotes_nothing.
Qed.

Lemma cyclic_values_rejected_witness : isStrictJsonValue sample_heap (RRef 3) ≠ Some true.
Proof.
  apply (cyclic_values_rejected sample_heap 3%positive 3%positive).
  - apply sample_heap_wf.
  - eexists; by vm_compute.
  - apply rtc_refl.
  - apply tc_once. eexists _, "self". split; by vm_compute.
Defined.

(** ** Arrays *)

(** an array passes the property check exactly when it is dense: its own
    keys are [length] and the indices below it, each an enumerable data
    property; no symbol, hole, accessor or extra name. *)
Theorem strict_array_is_dense o :
  object_wf o → obj_is_array o = true →
  strictArrayProperties o = true ↔
  (∀ k, k ∈ ownKeys o ↔ k = KStr "length" ∨ ∃ i, (i < array_length o)%N ∧ k = KStr (js_String i)) ∧
  (∀ i, (i < array_length o)%N → plain_property o (js_String i) = true).
Proof.
  intros [_ Hlen] Harr. destruct (Hlen Harr) as (n & Hn & Hd). clear Hlen.
  assert (Hl : getOwnPropertyDescriptor o (KStr "length") =
               Some (DData (RNum (Z.of_N (array_length o))) false)).
  { unfold array_length, get_own. rewrite Hd, num_integer_Z. by rewrite Z2N.id by lia. }
  assert (Hin : ∀ k, plain_property o k = true → KStr k ∈ ownKeys o).
  { intros k Hp. apply find_own_is_Some. unfold plain_property, getOwnPropertyDescriptor in Hp.
    by destruct (find_own _ _). }
  rewrite strictArrayProperties_iff. split.
  - intros (names & e & Hns & Hin' & _ & Hp & Hall). split; [|done]. intros k.
    split.
    + intros (s & Hs & ->)%(own_names_Some _ _ Hns). naive_solver.
    + intros [->|(i & Hi & ->)]; [|by apply Hin, Hp]. apply (own_names_Some _ _ Hns). eauto.
  - intros [Hk Hp].
    assert (∃ names, own_names o = Some names) as [names Hns].
    { apply mapM_is_Some. apply Forall_forall. intros k Hkin. apply Hk in Hkin. naive_solver. }
    exists names, false. pose proof (own_names_Some _ _ Hns) as Hiff. split_and!; try done.
    + destruct (proj1 (Hiff (KStr "length"))) as (s & ? & [= <-]); [apply Hk; by left|done].
    + intros name Hname. destruct (proj1 (Hk (KStr name))) as [[= ->]|(i & ? & [= ->])]; eauto.
      apply Hiff. eauto.
Qed.

Lemma strict_array_is_dense_witness :
  let o := {| obj_is_array := true; obj_proto := proto_array;
              obj_own := [(KStr "0", DData RNull true); (KStr "2", DData RNull true);
                          (KStr "length", DData (RNum 3%Z) false)] |} in
  strictArrayProperties o = false ∧
  (strictArrayProperties o = true ↔
   (∀ k, k ∈ ownKeys o ↔
      k = KStr "length" ∨ ∃ i, (i < array_length o)%N ∧ k = KStr (js_String i)) ∧
   (∀ i, (i < array_length o)%N → plain_property o (js_String i) = true)).
Proof.
  split; [by vm_compute|]. apply strict_array_is_dense; [|done]. split.
  - apply (bool_decide_unpack (NoDup _)); vm_compute; exact I.
  - intros _. exists 3%Z. by vm_compute.
Defined.
