(* ===== verification/Compaction.v ===== *)
(** * Compaction

    [src/src/application/compaction.ts]: the remote compaction checkpoint and
    its validator, the process-local accounting store, the coordinator of the
    compaction phases and the compaction threshold.

    Values are plain data here: [StructuredJson] covers what
    [isStrictPlainRecord], [isStrictJsonArray] and [isStrictJsonValue] reject
    besides, and [structuredClone] and [Object.freeze] are the identity. *)

From S2P Require Import Prelude Config StructuredJson.

(** ** Data *)

Inductive BindingKind := jwt_account | credential.
#[export] Instance BindingKind_eq_dec : EqDecision BindingKind. Proof. solve_decision. Defined.
#[export] Program Instance BindingKind_literal : Literal BindingKind :=
  {| literal_name a := match a with
       jwt_account => "jwt_account" | credential => "credential" end |}.
Next Obligation. solve_literal. Defined.

Record CodexAuthenticationBindingV1 := {
  binding_kind : BindingKind;
  fingerprint : string }.

Record CodexCompactionIdentity := {
  sessionFingerprint : string;
  providerId : string;
  api : string;
  baseUrl : string;
  modelId : string;
  authenticationBinding : CodexAuthenticationBindingV1 }.

Record NormalizedUsage := {
  inputTokens : jsnum;
  outputTokens : jsnum;
  cachedInputTokens : jsnum;
  reasoningTokens : option jsnum }.

Inductive Implementation := remote_v2 | compact_endpoint.
#[export] Instance Implementation_eq_dec : EqDecision Implementation.
Proof. solve_decision. Defined.
#[export] Program Instance Implementation_literal : Literal Implementation :=
  {| literal_name a := match a with
       remote_v2 => "remote_v2" | compact_endpoint => "compact_endpoint" end |}.
Next Obligation. solve_literal. Defined.

(** [kind] and [version] have one value each and are not kept. *)
Record CodexRemoteCompactionCheckpointV1 := {
  cp_identity : CodexCompactionIdentity;
  checkpointId : string;
  coveredEntryId : string;
  implementation : Implementation;
  cp_output : list jsval;
  tokensBefore : jsnum;
  cp_usage : option NormalizedUsage }.

#[export] Instance binding_eq_dec : EqDecision CodexAuthenticationBindingV1.
Proof. solve_decision. Defined.
#[export] Instance identity_eq_dec : EqDecision CodexCompactionIdentity.
Proof. solve_decision. Defined.
#[export] Instance usage_eq_dec : EqDecision NormalizedUsage.
Proof. solve_decision. Defined.
#[export] Instance checkpoint_eq_dec : EqDecision CodexRemoteCompactionCheckpointV1.
Proof. solve_decision. Defined.

Definition CODEX_REMOTE_COMPACTION_KIND : string := "pi-codex-adaptor.remote-compaction".
Definition CODEX_REMOTE_COMPACTION_VERSION : Z := 1.
Definition MAX_IDENTITY_FIELD_LENGTH : nat := N.to_nat 4096.
Definition MAX_CHECKPOINT_ID_LENGTH : nat := N.to_nat 256.
Definition MAX_OUTPUT_ITEMS : nat := N.to_nat 8192.

(** ** Response items *)

Definition metadata_field : string := "internal_chat_message_metadata_passthrough".

Definition RESPONSE_ITEM_FIELDS : list (string * list string) := [
  ("additional_tools", ["type"; "id"; "role"; "tools"]);
  ("message", ["type"; "id"; "role"; "content"; "phase"; metadata_field]);
  ("agent_message", ["type"; "id"; "author"; "recipient"; "content"; metadata_field]);
  ("reasoning", ["type"; "id"; "summary"; "content"; "encrypted_content"; metadata_field]);
  ("local_shell_call", ["type"; "id"; "call_id"; "status"; "action"; metadata_field]);
  ("function_call",
     ["type"; "id"; "name"; "namespace"; "arguments"; "call_id"; metadata_field]);
  ("tool_search_call",
     ["type"; "id"; "call_id"; "status"; "execution"; "arguments"; metadata_field]);
  ("function_call_output", ["type"; "id"; "call_id"; "output"; metadata_field]);
  ("custom_tool_call",
     ["type"; "id"; "status"; "call_id"; "name"; "namespace"; "input"; metadata_field]);
  ("custom_tool_call_output", ["type"; "id"; "call_id"; "name"; "output"; metadata_field]);
  ("tool_search_output",
     ["type"; "id"; "call_id"; "status"; "execution"; "tools"; metadata_field]);
  ("web_search_call", ["type"; "id"; "status"; "action"; metadata_field]);
  ("image_generation_call",
     ["type"; "id"; "status"; "revised_prompt"; "result"; metadata_field]);
  ("compaction", ["type"; "id"; "encrypted_content"; metadata_field]);
  ("context_compaction", ["type"; "id"; "encrypted_content"; metadata_field])].

Fixpoint map_get {A} (m : list (string * A)) (k : string) : option A :=
  match m with
  | [] => None
  | (k', v) :: m' => if String.eqb k' k then Some v else map_get m' k
  end.

Definition nonempty_string (v : jsval) : bool :=
  match v with VStr s => (0 <? String.length s)%nat | _ => false end.

Definition isSupportedStructuredResponseItem (value : jsval) : bool :=
  match as_record value with
  | None => false
  | Some fs =>
      match field fs "type" with
      | VStr type =>
          match map_get RESPONSE_ITEM_FIELDS type with
          | None => false
          | Some fields =>
              if existsb (λ key, negb (js_elem key fields)) (keys fs) then false
              else if negb (forallb json_value fs.*2) then false
              else if String.eqb type "compaction" || String.eqb type "context_compaction" then
                nonempty_string (field fs "encrypted_content")
              else true
          end
      | _ => false
      end
  end.

(** [item.type] is the string [type]. *)
Definition has_type (type : string) (item : jsval) : bool :=
  match as_record item with
  | Some fs => bool_decide (field fs "type" = VStr type)
  | None => false
  end.

(** The loop of [validateCompactionOutput], with its counter. *)
Fixpoint map_output (items : list jsval) (compactionItems : nat)
    : outcome string (list jsval * nat) :=
  match items with
  | [] => Ret ([], compactionItems)
  | item :: items' =>
      _ ← guard_throw (isSupportedStructuredResponseItem item)
            "Remote compaction output item is invalid";
      let n := if has_type "compaction" item then S compactionItems else compactionItems in
      '(out, n) ← map_output items' n;
      Ret (item :: out, n)
  end.

Definition validateCompactionOutput (value : jsval) : outcome string (list jsval) :=
  match value with
  | VArr items =>
      _ ← guard_throw (negb ((length items =? 0)%nat || (MAX_OUTPUT_ITEMS <? length items)%nat))
            "Remote compaction output is invalid";
      '(output, compactionItems) ← map_output items 0;
      _ ← guard_throw (compactionItems =? 1)%nat
            "Remote compaction output must contain exactly one compaction item";
      Ret output
  | _ => Throw "Remote compaction output is invalid"
  end.

(** ** Checkpoints *)

Definition is_control (c : ascii) : bool :=
  ((unit_of c <? 32) || (unit_of c =? 127))%N.
Definition hasControlCharacter (value : string) : bool := str_exists is_control value.

Definition text_ok (s : string) (maximum : nat) : bool :=
  negb ((String.length s =? 0)%nat || (maximum <? String.length s)%nat ||
        (String.length (trim s) =? 0)%nat || hasControlCharacter s).

Definition requireText (value : jsval) (label : string) (maximum : nat)
    : outcome string string :=
  match value with
  | VStr s => if text_ok s maximum then Ret s else Throw (label ++ " is invalid")%string
  | _ => Throw (label ++ " is invalid")%string
  end.

Definition token_count (n : jsnum) : bool := is_safe_integer n && negb (num_ltb n 0%Z).

Definition normalizeNonNegativeInteger (value : jsval) (label : string)
    : outcome string jsnum :=
  match value with
  | VNum n => if token_count n then Ret n else Throw (label ++ " is invalid")%string
  | _ => Throw (label ++ " is invalid")%string
  end.

Definition hasExactKeys (fs : list (string * jsval)) (expected : list string) : bool :=
  strs_eqb (js_sort (keys fs)) (js_sort expected).

(** The literal of a two-value union a value is compared with. *)
Definition literal_of `{Literal A} (candidates : list A) (v : jsval) : option A :=
  match v with
  | VStr s => find (λ a, String.eqb (literal_name a) s) candidates
  | _ => None
  end.

Definition validateAuthenticationBinding (value : jsval)
    : outcome string CodexAuthenticationBindingV1 :=
  match as_record value with
  | Some fs =>
      if negb (hasExactKeys fs ["kind"; "fingerprint"])
      then Throw "Authentication binding is invalid" else
      match literal_of [jwt_account; credential] (field fs "kind") with
      | None => Throw "Authentication binding is invalid"
      | Some kind =>
          fp ← requireText (field fs "fingerprint") "authentication fingerprint"
                 MAX_IDENTITY_FIELD_LENGTH;
          Ret {| binding_kind := kind; fingerprint := fp |}
      end
  | None => Throw "Authentication binding is invalid"
  end.

Definition validateIdentity (identity : jsval) : outcome string CodexCompactionIdentity :=
  match as_record identity with
  | None => Throw "Compaction identity is invalid"
  | Some fs =>
      let text k label := requireText (field fs k) label MAX_IDENTITY_FIELD_LENGTH in
      session ← text "sessionFingerprint" "session fingerprint";
      provider ← text "providerId" "provider ID";
      api ← text "api" "API";
      url ← text "baseUrl" "base URL";
      model ← text "modelId" "model ID";
      binding ← validateAuthenticationBinding (field fs "authenticationBinding");
      Ret {| sessionFingerprint := session; providerId := provider; api := api;
             baseUrl := url; modelId := model; authenticationBinding := binding |}
  end.

(** The identity fields of an object, as [parseIdentity] collects them. *)
Definition parseIdentity (fs : list (string * jsval)) : outcome string CodexCompactionIdentity :=
  validateIdentity (VObj
    ((λ k, (k, field fs k)) <$>
     ["sessionFingerprint"; "providerId"; "api"; "baseUrl"; "modelId";
      "authenticationBinding"])).

Definition usage_keys : list string := ["inputTokens"; "outputTokens"; "cachedInputTokens"].

Definition validateUsage (value : jsval) : outcome string NormalizedUsage :=
  match as_record value with
  | None => Throw "Usage is invalid"
  | Some fs =>
      if negb (hasExactKeys fs usage_keys) &&
         negb (hasExactKeys fs (usage_keys ++ ["reasoningTokens"]))
      then Throw "Usage is invalid" else
      i ← normalizeNonNegativeInteger (field fs "inputTokens") "input tokens";
      o ← normalizeNonNegativeInteger (field fs "outputTokens") "output tokens";
      c ← normalizeNonNegativeInteger (field fs "cachedInputTokens") "cached input tokens";
      r ← (if bool_decide (field fs "reasoningTokens" = VUndef) then Ret None else
           n ← normalizeNonNegativeInteger (field fs "reasoningTokens") "reasoning tokens";
           Ret (Some n));
      Ret {| inputTokens := i; outputTokens := o; cachedInputTokens := c;
             reasoningTokens := r |}
  end.

(** The objects these records are at run time, with their keys in order. *)
Definition binding_value (b : CodexAuthenticationBindingV1) : jsval :=
  VObj [("kind", VStr (literal_name (binding_kind b))); ("fingerprint", VStr (fingerprint b))].

Definition identity_fields (i : CodexCompactionIdentity) : list (string * jsval) :=
  [("sessionFingerprint", VStr (sessionFingerprint i)); ("providerId", VStr (providerId i));
   ("api", VStr (api i)); ("baseUrl", VStr (baseUrl i)); ("modelId", VStr (modelId i));
   ("authenticationBinding", binding_value (authenticationBinding i))].

Definition usage_value (u : NormalizedUsage) : jsval :=
  VObj ([("inputTokens", VNum (inputTokens u)); ("outputTokens", VNum (outputTokens u));
         ("cachedInputTokens", VNum (cachedInputTokens u))] ++
        match reasoningTokens u with
        | None => [] | Some n => [("reasoningTokens", VNum n)] end).

Definition checkpoint_value (c : CodexRemoteCompactionCheckpointV1) : jsval :=
  VObj ([("kind", VStr CODEX_REMOTE_COMPACTION_KIND);
         ("version", VNum CODEX_REMOTE_COMPACTION_VERSION)] ++
        identity_fields (cp_identity c) ++
        [("checkpointId", VStr (checkpointId c)); ("coveredEntryId", VStr (coveredEntryId c));
         ("implementation", VStr (literal_name (implementation c)));
         ("output", VArr (cp_output c)); ("tokensBefore", VNum (tokensBefore c))] ++
        match cp_usage c with None => [] | Some u => [("usage", usage_value u)] end).

(** [createRemoteCompactionCheckpoint] on untyped arguments. *)
Definition createRemoteCompactionCheckpoint
    (identity checkpointId coveredEntryId implementation output tokensBefore usage : jsval)
    : outcome string CodexRemoteCompactionCheckpointV1 :=
  match literal_of [remote_v2; compact_endpoint] implementation with
  | None => Throw "Remote compaction implementation is invalid"
  | Some impl =>
      id ← validateIdentity identity;
      cid ← requireText checkpointId "checkpoint ID" MAX_CHECKPOINT_ID_LENGTH;
      entry ← requireText coveredEntryId "covered entry ID" MAX_IDENTITY_FIELD_LENGTH;
      out ← validateCompactionOutput output;
      tokens ← normalizeNonNegativeInteger tokensBefore "tokens before";
      u ← (if bool_decide (usage = VUndef) then Ret None else
           u ← validateUsage usage; Ret (Some u));
      Ret {| cp_identity := id; checkpointId := cid; coveredEntryId := entry;
             implementation := impl; cp_output := out; tokensBefore := tokens;
             cp_usage := u |}
  end.

Definition requiredKeys : list string :=
  ["kind"; "version"; "sessionFingerprint"; "providerId"; "api"; "baseUrl"; "modelId";
   "authenticationBinding"; "checkpointId"; "coveredEntryId"; "implementation"; "output";
   "tokensBefore"].

Definition parseRemoteCompactionCheckpoint (value : jsval)
    : option CodexRemoteCompactionCheckpointV1 :=
  match as_record value with
  | None => None
  | Some fs =>
      if negb (bool_decide (field fs "kind" = VStr CODEX_REMOTE_COMPACTION_KIND)) ||
         negb (bool_decide (field fs "version" = VNum CODEX_REMOTE_COMPACTION_VERSION)) ||
         (negb (hasExactKeys fs requiredKeys) && negb (hasExactKeys fs (requiredKeys ++ ["usage"])))
      then None else
      match literal_of [remote_v2; compact_endpoint] (field fs "implementation") with
      | None => None
      | Some impl =>
          match field fs "output" with
          | VArr items => outcome_opt (
              id ← parseIdentity fs;
              cid ← requireText (field fs "checkpointId") "checkpoint ID" MAX_CHECKPOINT_ID_LENGTH;
              entry ← requireText (field fs "coveredEntryId") "covered entry ID"
                        MAX_IDENTITY_FIELD_LENGTH;
              tokens ← normalizeNonNegativeInteger (field fs "tokensBefore") "tokens before";
              usage ← (if bool_decide (field fs "usage" = VUndef) then Ret VUndef else
                       u ← validateUsage (field fs "usage"); Ret (usage_value u));
              createRemoteCompactionCheckpoint (VObj (identity_fields id)) (VStr cid) (VStr entry)
                (VStr (literal_name impl)) (VArr items) (VNum tokens) usage)
          | _ => None
          end
      end
  end.

Definition sameCompactionIdentity (left right : option CodexCompactionIdentity) : bool :=
  match left, right with
  | Some l, Some r =>
      String.eqb (sessionFingerprint l) (sessionFingerprint r) &&
      String.eqb (providerId l) (providerId r) &&
      String.eqb (api l) (api r) &&
      String.eqb (baseUrl l) (baseUrl r) &&
      String.eqb (modelId l) (modelId r) &&
      bool_decide (binding_kind (authenticationBinding l) = binding_kind (authenticationBinding r)) &&
      String.eqb (fingerprint (authenticationBinding l)) (fingerprint (authenticationBinding r))
  | _, _ => false
  end.

(** The separators [\u0000] and [\u0001]. *)
Definition nul : ascii := ascii_of_N 0.
Definition soh : ascii := ascii_of_N 1.

Definition identityKey (i : CodexCompactionIdentity) : string :=
  join (String soh "")
    [sessionFingerprint i; providerId i; api i; baseUrl i; modelId i;
     literal_name (binding_kind (authenticationBinding i));
     fingerprint (authenticationBinding i)].

(** ** The accounting store

    Generations and request generations are the counters the code
    increments; they are kept as integers. *)

Record AccountingEntry := {
  totalTokens : jsnum;
  inputItemCount : jsnum;
  inputDigest : string;
  instructionsDigest : string;
  generation : Z;
  requestGeneration : Z }.

Record CodexContextUsageBaseline := {
  b_totalTokens : jsnum;
  b_inputItemCount : jsnum;
  b_inputDigest : string;
  b_instructionsDigest : string }.

Record CodexContextAccountingSnapshot := {
  snap_generation : Z;
  snap_baseline : option CodexContextUsageBaseline }.

Record CodexCompactionStore := {
  warningKeys : gset string;
  accountingGenerations : gmap string Z;
  activeAccountingIdentities : gmap string string;
  accounting : gmap string AccountingEntry }.

Definition new_store : CodexCompactionStore :=
  {| warningKeys := ∅; accountingGenerations := ∅;
     activeAccountingIdentities := ∅; accounting := ∅ |}.

(** [`${sessionId}\u0000`] and [accountingKey]. *)
Definition session_prefix (sessionId : string) : string := (sessionId ++ String nul "")%string.
Definition accountingKey (sessionId : string) (identity : CodexCompactionIdentity) : string :=
  (session_prefix sessionId ++ identityKey identity)%string.

Definition warn_key (key : string) (st : CodexCompactionStore) : bool * CodexCompactionStore :=
  if bool_decide (key ∈ warningKeys st) then (false, st) else
  (true, {| warningKeys := {[ key ]} ∪ warningKeys st;
            accountingGenerations := accountingGenerations st;
            activeAccountingIdentities := activeAccountingIdentities st;
            accounting := accounting st |}).

Definition warnOnce (sessionId : string) (identity : CodexCompactionIdentity) :=
  warn_key (accountingKey sessionId identity).
Definition warnSessionOnce (sessionId : string) :=
  warn_key (session_prefix sessionId ++ "<inactive>")%string.

Definition generation_of (st : CodexCompactionStore) (sessionId : string) : Z :=
  default 0%Z (accountingGenerations st !! sessionId).

(** Delete every key of the session while iterating over the map. *)
Definition drop_session {A} (sessionId : string) (m : gmap string A) : gmap string A :=
  filter (λ kv, starts_with (session_prefix sessionId) kv.1 = false) m.

Definition invalidateContextAccounting (sessionId : string) (st : CodexCompactionStore)
    : CodexCompactionStore :=
  {| warningKeys := warningKeys st;
     accountingGenerations :=
       <[ sessionId := (generation_of st sessionId + 1)%Z ]> (accountingGenerations st);
     activeAccountingIdentities := activeAccountingIdentities st;
     accounting := drop_session sessionId (accounting st) |}.

Definition baseline_of (e : AccountingEntry) : CodexContextUsageBaseline :=
  {| b_totalTokens := totalTokens e; b_inputItemCount := inputItemCount e;
     b_inputDigest := inputDigest e; b_instructionsDigest := instructionsDigest e |}.

Definition contextAccounting (sessionId : string) (identity : CodexCompactionIdentity)
    (st : CodexCompactionStore) : CodexContextAccountingSnapshot * CodexCompactionStore :=
  let selectedIdentity := identityKey identity in
  let st := match activeAccountingIdentities st !! sessionId with
    | Some activeIdentity =>
        if String.eqb activeIdentity selectedIdentity then st
        else invalidateContextAccounting sessionId st
    | None => st
    end in
  let st := {| warningKeys := warningKeys st;
               accountingGenerations := accountingGenerations st;
               activeAccountingIdentities :=
                 <[ sessionId := selectedIdentity ]> (activeAccountingIdentities st);
               accounting := accounting st |} in
  let gen := generation_of st sessionId in
  ({| snap_generation := gen;
      snap_baseline := match accounting st !! accountingKey sessionId identity with
        | Some e => if Z.eqb (generation e) gen then Some (baseline_of e) else None
        | None => None
        end |}, st).

Definition recordContextUsage (sessionId : string) (identity : CodexCompactionIdentity)
    (options : AccountingEntry) (st : CodexCompactionStore) : bool * CodexCompactionStore :=
  if negb (Z.eqb (generation_of st sessionId) (generation options)) ||
     negb (is_safe_integer (totalTokens options)) || num_ltb (totalTokens options) 0%Z ||
     negb (is_safe_integer (inputItemCount options)) || num_ltb (inputItemCount options) 0%Z
  then (false, st) else
  let key := accountingKey sessionId identity in
  if match accounting st !! key with
     | Some current => Z.eqb (generation current) (generation options) &&
                       (requestGeneration options <? requestGeneration current)%Z
     | None => false
     end
  then (false, st) else
  (true, {| warningKeys := warningKeys st;
            accountingGenerations := accountingGenerations st;
            activeAccountingIdentities := activeAccountingIdentities st;
            accounting := <[ key := options ]> (accounting st) |}).

Definition store_dispose (sessionId : string) (st : CodexCompactionStore) : CodexCompactionStore :=
  {| warningKeys := filter (λ key, starts_with (session_prefix sessionId) key = false)
                      (warningKeys st);
     accountingGenerations :=
       <[ sessionId := (generation_of st sessionId + 1)%Z ]> (accountingGenerations st);
     activeAccountingIdentities := delete sessionId (activeAccountingIdentities st);
     accounting := drop_session sessionId (accounting st) |}.

(** [disposeAll]: every known session moves to the next generation. *)
Definition store_disposeAll (st : CodexCompactionStore) : CodexCompactionStore :=
  let sessionIds := dom (accountingGenerations st) ∪ dom (activeAccountingIdentities st) in
  {| warningKeys := ∅;
     accountingGenerations := map_imap (λ sessionId _, Some (generation_of st sessionId + 1)%Z)
       (gset_to_gmap tt sessionIds);
     activeAccountingIdentities := ∅;
     accounting := ∅ |}.

(** ** The coordinator *)

Inductive CompactionCoordinatorPhase := idle | pending | requested | executing.
#[export] Instance phase_eq_dec : EqDecision CompactionCoordinatorPhase.
Proof. solve_decision. Defined.

Abbreviation coordinator := (gmap string CompactionCoordinatorPhase).

Definition isBusy (sessionId : string) (sessions : coordinator) : bool :=
  match sessions !! sessionId with
  | Some phase => negb (bool_decide (phase = idle))
  | None => false
  end.

Definition begin (sessionId : string) (sessions : coordinator) : bool * coordinator :=
  if isBusy sessionId sessions then (false, sessions)
  else (true, <[ sessionId := pending ]> sessions).

Definition requestExecution (sessionId : string) (sessions : coordinator) : bool * coordinator :=
  if isBusy sessionId sessions then (false, sessions)
  else (true, <[ sessionId := requested ]> sessions).

Definition beginExecution (sessionId : string) (sessions : coordinator) : bool * coordinator :=
  let phase := sessions !! sessionId in
  if bool_decide (phase = Some pending) || bool_decide (phase = Some executing)
  then (false, sessions)
  else (true, <[ sessionId := executing ]> sessions).

Inductive CompactionOutcome := success | error | cancel.

Definition end_ (sessionId : string) (_outcome : CompactionOutcome) (sessions : coordinator)
    : coordinator := <[ sessionId := idle ]> sessions.
Definition endPending (sessionId : string) (outcome : CompactionOutcome) (sessions : coordinator)
    : coordinator := end_ sessionId outcome sessions.
Definition coordinator_dispose (sessionId : string) (sessions : coordinator) : coordinator :=
  delete sessionId sessions.
Definition coordinator_disposeAll (sessions : coordinator) : coordinator := ∅.

(** ** Thresholds *)

(** [modelAutoCompactTokenLimit] is [None] when [null]. *)
Definition resolveCompactionThreshold (compaction : CompactionConfig)
    (modelAutoCompactTokenLimit : option jsnum) (contextWindow : jsnum) : option jsnum :=
  match compaction with
  | compaction_off => None
  | compaction_auto autoCompactTokenLimit =>
      if negb (is_finite contextWindow) || num_leb contextWindow 0%Z then None else
      let candidate := match autoCompactTokenLimit with
        | limit_tokens n => Some n | limit_model => modelAutoCompactTokenLimit end in
      match candidate with
      | None => None
      | Some candidate =>
          if negb (is_finite candidate) || num_leb candidate 0%Z then None else
          let threshold := num_trunc candidate in
          if num_ltb threshold contextWindow then Some threshold else None
      end
  end.

Definition shouldCreateAutomaticCheckpoint (mode : CompactionMode) (contextTokens : option jsnum)
    (threshold : option jsnum) (hasUncheckpointedInput busy : bool) : bool :=
  bool_decide (mode = mode_auto) &&
  match contextTokens with
  | Some tokens => is_finite tokens &&
      match threshold with Some t => num_geb tokens t | None => false end
  | None => false
  end && hasUncheckpointedInput && negb busy.

(** * What the coordinator and the checkpoints promise

    Checkpoints survive being written to and read from a session, the
    accounting store implements a per-session table whose stale snapshots can
    never be recorded, and the coordinator admits one owner per session. *)

(** ** Validators *)

Lemma requireText_iff v l m s : requireText v l m = Ret s ↔ v = VStr s ∧ text_ok s m = true.
Proof.
  unfold requireText. destruct v as [| | | |t| | |]; try (split; [done|by intros [[=] _]]).
  destruct (text_ok t m) eqn:Ht; split; [by intros [= <-]|by intros [[= <-] _]|done|].
  intros [[= <-] ?]. congruence.
Qed.

Lemma normalize_iff v l n :
  normalizeNonNegativeInteger v l = Ret n ↔ v = VNum n ∧ token_count n = true.
Proof.
  unfold normalizeNonNegativeInteger.
  destruct v as [| | |k| | | |]; try (split; [done|by intros [[=] _]]).
  destruct (token_count k) eqn:Ht; split; [by intros [= <-]|by intros [[= <-] _]|done|].
  intros [[= <-] ?]. congruence.
Qed.

Lemma hasExactKeys_iff fs ks : hasExactKeys fs ks = true ↔ keys fs ≡ₚ ks.
Proof. unfold hasExactKeys. by rewrite strs_eqb_iff, js_sort_eq. Qed.

Lemma hasExactKeys_refl fs ks : keys fs = ks → hasExactKeys fs ks = true.
Proof. intros <-. by apply hasExactKeys_iff. Qed.

Lemma literal_of_iff `{Literal A} (cs : list A) v a :
  (∀ a, a ∈ cs) → literal_of cs v = Some a ↔ v = VStr (literal_name a).
Proof.
  intros Hall. unfold literal_of. destruct v; try naive_solver. split.
  - intros [_ <-%String.eqb_eq]%find_some. done.
  - intros [= ->]. destruct (find _ _) as [a'|] eqn:Hf.
    + apply find_some in Hf as [_ Heq%String.eqb_eq]. by apply (inj _) in Heq as ->.
    + pose proof (find_none _ _ Hf a (proj1 (list_elem_of_In _ _) (Hall a))) as Hn.
      simpl in Hn. by rewrite String.eqb_refl in Hn.
Qed.

Lemma binding_kind_iff v k :
  literal_of [jwt_account; credential] v = Some k ↔ v = VStr (literal_name k).
Proof. apply literal_of_iff. intros []; rewrite list_elem_of_In; simpl; tauto. Qed.

Lemma implementation_iff v i :
  literal_of [remote_v2; compact_endpoint] v = Some i ↔ v = VStr (literal_name i).
Proof. apply literal_of_iff. intros []; rewrite list_elem_of_In; simpl; tauto. Qed.

Definition compaction_items (items : list jsval) : nat :=
  length (filter (λ i, has_type "compaction" i = true) items).

Lemma map_output_iff items n out m :
  map_output items n = Ret (out, m) ↔
  Forall (λ i, isSupportedStructuredResponseItem i = true) items ∧ out = items ∧
  m = n + compaction_items items.
Proof.
  unfold compaction_items. revert n out m; induction items as [|i items IH]; intros n out m.
  { simpl. rewrite Nat.add_0_r. split; [intros [= <- <-]; by split_and!; [constructor|..]|].
    by intros (_ & -> & ->). }
  simpl. rewrite bind_ret_iff. setoid_rewrite guard_throw_ret. setoid_rewrite bind_ret_iff.
  rewrite Forall_cons, filter_cons. split.
  - intros ([] & Hi & [out' m'] & Hm & [= <- <-]). apply IH in Hm as (? & -> & ->).
    split_and!; [done..|]. destruct (has_type _ i); case_decide; simpl; try done; lia.
  - intros ([Hi Hall] & -> & Hm). exists tt. split; [done|]. exists (items, m).
    split; [|done]. apply IH. split_and!; [done..|].
    destruct (has_type _ i); case_decide; simpl in *; try done; lia.
Qed.

Definition valid_output (items : list jsval) : Prop :=
  0 < length items ≤ MAX_OUTPUT_ITEMS ∧
  Forall (λ i, isSupportedStructuredResponseItem i = true) items ∧
  compaction_items items = 1.

Lemma validateCompactionOutput_iff v out :
  validateCompactionOutput v = Ret out ↔ v = VArr out ∧ valid_output out.
Proof.
  unfold validateCompactionOutput, valid_output. destruct v as [| | | | |items| |]; try naive_solver.
  rewrite bind_ret_iff. setoid_rewrite bind_ret_iff. setoid_rewrite guard_throw_ret. split.
  - intros ([] & Hlen & [out' n] & Hm & Hr).
    apply map_output_iff in Hm as (Hall & -> & Hc). apply bind_ret_iff in Hr as ([] & Hn & [= ->]).
    apply guard_throw_ret, Nat.eqb_eq in Hn.
    apply negb_true_iff, orb_false_iff in Hlen as [?%Nat.eqb_neq ?%Nat.ltb_ge].
    split; [done|]. split; [lia|]. split; [done|]. simpl in Hc. lia.
  - intros ([= <-] & Hlen & Hall & Hc). exists tt. split.
    { apply negb_true_iff, orb_false_iff. rewrite Nat.eqb_neq, Nat.ltb_ge. lia. }
    exists (items, 1). split; [apply map_output_iff; by split_and!|]. done.
Qed.

Definition valid_binding (b : CodexAuthenticationBindingV1) : Prop :=
  text_ok (fingerprint b) MAX_IDENTITY_FIELD_LENGTH = true.

Definition valid_identity (i : CodexCompactionIdentity) : Prop :=
  Forall (λ s, text_ok s MAX_IDENTITY_FIELD_LENGTH = true)
    [sessionFingerprint i; providerId i; api i; baseUrl i; modelId i] ∧
  valid_binding (authenticationBinding i).

Definition valid_usage (u : NormalizedUsage) : Prop :=
  token_count (inputTokens u) = true ∧ token_count (outputTokens u) = true ∧
  token_count (cachedInputTokens u) = true ∧
  from_option (λ n, token_count n = true) True (reasoningTokens u).

(** What every checkpoint the code creates satisfies. *)
Definition valid_checkpoint (c : CodexRemoteCompactionCheckpointV1) : Prop :=
  valid_identity (cp_identity c) ∧
  text_ok (checkpointId c) MAX_CHECKPOINT_ID_LENGTH = true ∧
  text_ok (coveredEntryId c) MAX_IDENTITY_FIELD_LENGTH = true ∧
  valid_output (cp_output c) ∧ token_count (tokensBefore c) = true ∧
  from_option valid_usage True (cp_usage c).

Lemma binding_complete b : valid_binding b → validateAuthenticationBinding (binding_value b) = Ret b.
Proof.
  intros Hb. unfold validateAuthenticationBinding, binding_value. cbn [as_record].
  rewrite hasExactKeys_refl by done. cbn [field String.eqb Ascii.eqb Bool.eqb negb].
  rewrite (proj2 (binding_kind_iff _ (binding_kind b))) by done.
  rewrite (proj2 (requireText_iff _ _ _ (fingerprint b))) by done. by destruct b.
Qed.

Lemma keys_perm_jseq fs gs :
  NoDup (keys gs) → keys fs ≡ₚ keys gs → Forall (λ kv, jseq (field fs kv.1) kv.2) gs →
  jseq (VObj fs) (VObj gs).
Proof.
  intros Hnd Hp Hf. apply jseq_obj_iff; [done|]. exists fs. split_and!; [done| |done].
  intros k. by rewrite Hp.
Qed.

Lemma binding_sound v b :
  validateAuthenticationBinding v = Ret b → jseq v (binding_value b) ∧ valid_binding b.
Proof.
  unfold validateAuthenticationBinding. destruct (as_record v) as [fs|] eqn:Hv; [|done].
  destruct v; simplify_eq/=. case_match eqn:Hk; [done|]. apply negb_false_iff, hasExactKeys_iff in Hk.
  destruct (literal_of _ _) as [kd|] eqn:Hl; [|done]. rewrite bind_ret_iff.
  apply binding_kind_iff in Hl.
  intros (s & [Hs Hok]%requireText_iff & [= <-]). split; [|done].
  apply keys_perm_jseq; [by apply (bool_decide_unpack _); vm_compute|done|].
  repeat constructor; simpl; by rewrite ?Hl, ?Hs; constructor.
Qed.

Lemma identity_complete i : valid_identity i → validateIdentity (VObj (identity_fields i)) = Ret i.
Proof.
  intros [Htext Hb]. rewrite !Forall_cons in Htext. destruct_and!. unfold validateIdentity.
  cbn [as_record identity_fields field String.eqb Ascii.eqb Bool.eqb].
  rewrite binding_complete by done. simpl requireText.
  repeat match goal with H : text_ok ?s _ = true |- _ => rewrite H; clear H end. by destruct i.
Qed.

Lemma identity_sound fs i :
  validateIdentity (VObj fs) = Ret i →
  Forall (λ kv, jseq (field fs kv.1) kv.2) (identity_fields i) ∧ valid_identity i.
Proof.
  unfold validateIdentity. simpl as_record. cbv beta iota zeta. rewrite !bind_ret_iff.
  repeat setoid_rewrite bind_ret_iff. setoid_rewrite requireText_iff.
  intros (? & [Hs ?] & ? & [Hp ?] & ? & [Ha ?] & ? & [Hu ?] & ? & [Hm ?] & b & Hb & [= <-]).
  apply binding_sound in Hb as [Hb ?]. split.
  - repeat constructor; simpl; rewrite ?Hs, ?Hp, ?Ha, ?Hu, ?Hm; try constructor. done.
  - split; [by repeat constructor|done].
Qed.

Lemma usage_complete u : valid_usage u → validateUsage (usage_value u) = Ret u.
Proof.
  intros (Hi & Ho & Hc & Hr). unfold validateUsage, usage_value.
  destruct u as [i o c [r|]]; simpl in Hi, Ho, Hc, Hr; cbn [as_record reasoningTokens].
  - rewrite (hasExactKeys_refl _ (usage_keys ++ ["reasoningTokens"])) by done.
    rewrite andb_false_r. simpl. rewrite Hi, Ho, Hc; simpl. by rewrite Hr.
  - rewrite hasExactKeys_refl by done. simpl. by rewrite Hi, Ho, Hc.
Qed.

(** No field of a JSON value is [undefined] unless it is absent. *)
Lemma json_field_absent fs k :
  json_value (VObj fs) = true → field fs k = VUndef → k ∉ keys fs.
Proof.
  simpl. intros Hj. induction fs as [|[k' v] fs IH]; simpl in *; [set_solver|].
  apply andb_true_iff in Hj as [Hv Hj]. destruct (String.eqb_spec k' k) as [->|Hne].
  - intros ->. done.
  - intros Hf Hin. apply elem_of_cons in Hin as [->|Hin]; [done|]. by apply IH.
Qed.

Lemma json_field fs k :
  json_value (VObj fs) = true → k ∈ keys fs → json_value (field fs k) = true.
Proof.
  simpl. intros Hj. induction fs as [|[k' v] fs IH]; simpl in *; [set_solver|].
  apply andb_true_iff in Hj as [Hv Hj]. destruct (String.eqb_spec k' k) as [->|Hne]; [done|].
  intros [->|Hin]%elem_of_cons; [done|]. by apply IH.
Qed.

(** Keys listed in one of two ways, told apart by an optional last key. *)
Lemma optional_key fs ks k :
  json_value (VObj fs) = true → k ∉ ks →
  negb (hasExactKeys fs ks) && negb (hasExactKeys fs (ks ++ [k])) = false →
  keys fs ≡ₚ ks ++ (if bool_decide (field fs k = VUndef) then [] else [k]).
Proof.
  intros Hj Hk. rewrite andb_false_iff, !negb_false_iff, !hasExactKeys_iff. case_bool_decide as Hf.
  - rewrite app_nil_r. intros [?|Hp]; [done|]. destruct (json_field_absent _ _ Hj Hf).
    rewrite Hp. set_solver.
  - intros [Hp|?]; [|done]. destruct Hf. apply field_absent. by rewrite Hp.
Qed.

Ltac nodup_literal := apply (bool_decide_unpack (NoDup _)); vm_compute; exact I.

Lemma usage_valid v u : validateUsage v = Ret u → valid_usage u.
Proof.
  unfold validateUsage. destruct (as_record v) as [fs|]; [|done]. case_match; [done|].
  rewrite !bind_ret_iff. repeat setoid_rewrite bind_ret_iff. setoid_rewrite normalize_iff.
  intros (i & [_ ?] & o & [_ ?] & c & [_ ?] & r & Hr & [= <-]). split_and!; [done..|]. simpl.
  case_bool_decide; [by injection Hr as <-|].
  by apply bind_ret_iff in Hr as (n & [_ ?]%normalize_iff & [= <-]).
Qed.

Lemma usage_sound v u :
  json_value v = true → validateUsage v = Ret u → jseq v (usage_value u).
Proof.
  intros Hj. unfold validateUsage. destruct v as [| | | | | |fs|]; simpl as_record; try done.
  cbv beta iota. destruct (negb _ && negb _) eqn:Hk; [done|].
  apply optional_key in Hk; [|done|by apply js_elem_false].
  rewrite !bind_ret_iff. repeat setoid_rewrite bind_ret_iff. setoid_rewrite normalize_iff.
  intros (i & [Hi _] & o & [Ho _] & c & [Hc _] & r & Hr & [= <-]).
  case_bool_decide as Hf.
  - injection Hr as <-. apply keys_perm_jseq; [nodup_literal|by rewrite Hk|].
    repeat constructor; simpl; rewrite ?Hi, ?Ho, ?Hc; constructor.
  - apply bind_ret_iff in Hr as (n & [Hn _]%normalize_iff & [= <-]).
    apply keys_perm_jseq; [nodup_literal|by rewrite Hk|].
    repeat constructor; simpl; rewrite ?Hi, ?Ho, ?Hc, ?Hn; constructor.
Qed.

(** ** Checkpoints *)

Lemma create_valid identity cid entry impl out tokens usage c :
  createRemoteCompactionCheckpoint identity cid entry impl out tokens usage = Ret c →
  valid_checkpoint c.
Proof.
  unfold createRemoteCompactionCheckpoint. destruct (literal_of _ _) as [i|]; [|done].
  rewrite !bind_ret_iff. repeat setoid_rewrite bind_ret_iff. setoid_rewrite requireText_iff.
  setoid_rewrite normalize_iff. setoid_rewrite validateCompactionOutput_iff.
  intros (id & Hid & c' & [_ ?] & e & [_ ?] & o & [_ ?] & t & [_ ?] & u & Hr & [= <-]).
  split_and!; simpl; try done.
  - unfold validateIdentity in Hid. destruct identity as [| | | | | |fs|]; try done.
    by apply (identity_sound fs).
  - case_bool_decide; simplify_eq/=; [done|]. apply bind_ret_iff in Hr as (u' & Hv & [= <-]).
    by apply usage_valid in Hv.
Qed.

Lemma usage_value_defined u : bool_decide (usage_value u = VUndef) = false.
Proof. by apply bool_decide_eq_false. Qed.

Lemma create_complete c u :
  valid_checkpoint c → u = match cp_usage c with None => VUndef | Some u => usage_value u end →
  createRemoteCompactionCheckpoint (VObj (identity_fields (cp_identity c))) (VStr (checkpointId c))
    (VStr (coveredEntryId c)) (VStr (literal_name (implementation c))) (VArr (cp_output c))
    (VNum (tokensBefore c)) u = Ret c.
Proof.
  intros (Hid & Hc & He & Ho & Ht & Hu) ->. unfold createRemoteCompactionCheckpoint.
  rewrite (proj2 (implementation_iff _ (implementation c))) by done.
  rewrite identity_complete by done. cbn [mbind outcome_bind requireText].
  rewrite Hc, He. cbn [mbind outcome_bind].
  rewrite (proj2 (validateCompactionOutput_iff _ _) (conj eq_refl Ho)).
  cbn [mbind outcome_bind normalizeNonNegativeInteger]. rewrite Ht. cbn [mbind outcome_bind].
  destruct (cp_usage c) as [u|] eqn:Hcu; [|by destruct c; simpl in *; subst].
  rewrite usage_value_defined, usage_complete by done. by destruct c; simpl in *; subst.
Qed.

(** Reading a rendered checkpoint gives it back. *)
Lemma parse_checkpoint_value c :
  valid_checkpoint c → parseRemoteCompactionCheckpoint (checkpoint_value c) = Some c.
Proof.
  intros Hc. pose proof (create_complete c _ Hc eq_refl) as Hcreate.
  destruct Hc as (Hid & Hci & He & _ & Ht & Hu).
  unfold parseRemoteCompactionCheckpoint, checkpoint_value.
  set (fs := _ ++ _). cbn [as_record].
  assert (negb (hasExactKeys fs requiredKeys) && negb (hasExactKeys fs (requiredKeys ++ ["usage"]))
          = false) as ->.
  { apply andb_false_iff. rewrite !negb_false_iff. subst fs.
    destruct (cp_usage c); [right|left]; by apply hasExactKeys_refl. }
  rewrite !bool_decide_eq_true_2 by done. cbn [negb orb].
  rewrite (proj2 (implementation_iff _ (implementation c))) by done.
  replace (field fs "output") with (VArr (cp_output c)) by done.
  assert (parseIdentity fs = Ret (cp_identity c)) as -> by exact (identity_complete _ Hid).
  replace (field fs "checkpointId") with (VStr (checkpointId c)) by done.
  replace (field fs "coveredEntryId") with (VStr (coveredEntryId c)) by done.
  replace (field fs "tokensBefore") with (VNum (tokensBefore c)) by done.
  replace (field fs "usage") with (match cp_usage c with None => VUndef | Some u => usage_value u end)
    by (subst fs; by destruct (cp_usage c)).
  cbn [mbind outcome_bind requireText normalizeNonNegativeInteger]. rewrite Hci, He, Ht.
  cbn [mbind outcome_bind].
  destruct (cp_usage c) as [u|] eqn:Hcu.
  - rewrite usage_value_defined, usage_complete by done. cbn [mbind outcome_bind]. by rewrite Hcreate.
  - rewrite bool_decide_eq_true_2 by done. cbn [mbind outcome_bind]. by rewrite Hcreate.
Qed.

Lemma parse_inversion fs c :
  parseRemoteCompactionCheckpoint (VObj fs) = Some c →
  field fs "kind" = VStr CODEX_REMOTE_COMPACTION_KIND ∧
  field fs "version" = VNum CODEX_REMOTE_COMPACTION_VERSION ∧
  negb (hasExactKeys fs requiredKeys) && negb (hasExactKeys fs (requiredKeys ++ ["usage"])) = false ∧
  field fs "implementation" = VStr (literal_name (implementation c)) ∧
  field fs "output" = VArr (cp_output c) ∧
  parseIdentity fs = Ret (cp_identity c) ∧
  field fs "checkpointId" = VStr (checkpointId c) ∧
  field fs "coveredEntryId" = VStr (coveredEntryId c) ∧
  field fs "tokensBefore" = VNum (tokensBefore c) ∧
  match cp_usage c with
  | None => field fs "usage" = VUndef
  | Some u => field fs "usage" ≠ VUndef ∧ validateUsage (field fs "usage") = Ret u
  end ∧ valid_checkpoint c.
Proof.
  unfold parseRemoteCompactionCheckpoint. cbn [as_record]. case_match eqn:Hg; [done|].
  rewrite !orb_false_iff, !negb_false_iff, !bool_decide_eq_true in Hg. destruct Hg as [[Hk Hv] Hkeys].
  destruct (literal_of _ _) as [i|] eqn:Hi; [|done]. apply implementation_iff in Hi.
  destruct (field fs "output") as [| | | | |items| |] eqn:Ho; try done.
  destruct (_ ≫= _) as [c'|] eqn:Hb; [|done]. intros [= ->].
  apply bind_ret_iff in Hb as (id & Hid & Hb).
  apply bind_ret_iff in Hb as (ci & [Hci Hcok]%requireText_iff & Hb).
  apply bind_ret_iff in Hb as (e & [He Heok]%requireText_iff & Hb).
  apply bind_ret_iff in Hb as (t & [Ht Htok]%normalize_iff & Hb).
  apply bind_ret_iff in Hb as (u & Hu & Hcreate).
  pose proof (create_valid _ _ _ _ _ _ _ _ Hcreate) as Hvalid.
  assert (Hidv : valid_identity id) by exact (proj2 (identity_sound _ _ Hid)).
  revert Hcreate. unfold createRemoteCompactionCheckpoint.
  rewrite (proj2 (implementation_iff _ i)) by done.
  rewrite identity_complete by done. cbn [mbind outcome_bind requireText]. rewrite Hcok, Heok.
  cbn [mbind outcome_bind]. rewrite bind_ret_iff. setoid_rewrite validateCompactionOutput_iff.
  cbn [normalizeNonNegativeInteger]. rewrite Htok. cbn [mbind outcome_bind].
  intros (out & [[= <-] _] & (u' & Hu' & [= <-])%bind_ret_iff). simpl. split_and!; try done.
  destruct (decide (field fs "usage" = VUndef)) as [Hf|Hf];
    [rewrite (bool_decide_eq_true_2 _ Hf) in Hu|rewrite (bool_decide_eq_false_2 _ Hf) in Hu].
  - injection Hu as <-. rewrite bool_decide_eq_true_2 in Hu' by done. by injection Hu' as <-.
  - apply bind_ret_iff in Hu as (uv & Hu & [= <-]). rewrite usage_value_defined in Hu'.
    rewrite usage_complete in Hu' by (by eapply usage_valid). by injection Hu' as <-.
Qed.

(** every checkpoint the code creates is read back unchanged from the
    object it is written as. *)
Theorem checkpoint_round_trip identity cid entry impl out tokens usage c :
  createRemoteCompactionCheckpoint identity cid entry impl out tokens usage = Ret c →
  parseRemoteCompactionCheckpoint (checkpoint_value c) = Some c.
Proof. intros Hc. apply parse_checkpoint_value. by eapply create_valid. Qed.

Definition sample_binding : CodexAuthenticationBindingV1 :=
  {| binding_kind := jwt_account; fingerprint := "f00d" |}.
Definition sample_identity : CodexCompactionIdentity :=
  {| sessionFingerprint := "5e55"; providerId := "openai-codex"; api := "openai-responses";
     baseUrl := "https://x"; modelId := "m"; authenticationBinding := sample_binding |}.
Definition sample_items : list jsval :=
  [VObj [("type", VStr "message"); ("role", VStr "user")];
   VObj [("type", VStr "compaction"); ("encrypted_content", VStr "z")]].
Definition sample_checkpoint : CodexRemoteCompactionCheckpointV1 :=
  {| cp_identity := sample_identity; checkpointId := "c1"; coveredEntryId := "e1";
     implementation := remote_v2; cp_output := sample_items; tokensBefore := 12%Z;
     cp_usage := None |}.

Lemma checkpoint_round_trip_witness :
  parseRemoteCompactionCheckpoint (checkpoint_value sample_checkpoint) = Some sample_checkpoint.
Proof.
  apply (checkpoint_round_trip (VObj (identity_fields sample_identity)) (VStr "c1") (VStr "e1")
    (VStr "remote_v2") (VArr sample_items) (VNum 12%Z) VUndef).
  vm_compute. reflexivity.
Defined.

(** a JSON value read as a checkpoint is, up to the order of its keys, the
    object of that checkpoint, whose texts, counts and output items are all
    valid: one to 8192 supported items, exactly one of type [compaction]. *)
Theorem parsed_checkpoint_is_valid v c :
  json_value v = true →
  parseRemoteCompactionCheckpoint v = Some c →
  jseq v (checkpoint_value c) ∧ valid_checkpoint c.
Proof.
  intros Hj Hp. destruct v as [| | | | | |fs|]; try done.
  apply parse_inversion in Hp as (Hk & Hv & Hkeys & Hi & Ho & Hid & Hci & He & Ht & Hu & Hvalid).
  split; [|done]. apply optional_key in Hkeys; [|done|by apply js_elem_false].
  assert (Hids : Forall (λ kv, jseq (field fs kv.1) kv.2) (identity_fields (cp_identity c))).
  { apply identity_sound in Hid as [Hid _]. unfold identity_fields in *.
    rewrite !Forall_cons in Hid |- *. destruct Hid as (H1 & H2 & H3 & H4 & H5 & H6 & _).
    exact (conj H1 (conj H2 (conj H3 (conj H4 (conj H5 (conj H6 (Forall_nil_2 _))))))). }
  apply keys_perm_jseq.
  - destruct (cp_usage c); nodup_literal.
  - rewrite Hkeys. destruct (cp_usage c) as [u|].
    + rewrite bool_decide_eq_false_2; [done|by destruct Hu].
    + by rewrite bool_decide_eq_true_2.
  - repeat apply Forall_app_2; [..|done| |].
    + repeat constructor; simpl; rewrite ?Hk, ?Hv; constructor.
    + repeat constructor; simpl; rewrite ?Hci, ?He, ?Hi, ?Ho, ?Ht; apply jseq_refl.
    + destruct (cp_usage c) as [u|]; [|constructor]. destruct Hu as [Hne Hu].
      repeat constructor. simpl. apply usage_sound; [|done]. apply json_field; [done|].
      destruct (decide ("usage" ∈ keys fs)) as [|Hn]; [done|]. by destruct Hne; apply field_absent.
Qed.

Lemma parsed_checkpoint_is_valid_witness :
  jseq (checkpoint_value sample_checkpoint) (checkpoint_value sample_checkpoint) ∧
  valid_checkpoint sample_checkpoint.
Proof.
  apply parsed_checkpoint_is_valid; vm_compute; reflexivity.
Defined.
