(* ===== verification/CompactionStore.v ===== *)
(** * CompactionStore

    The accounting store and the coordinator of [Compaction] against their
    specifications: a table per session, indexed by identity, for the store;
    an owner per session for the coordinator. *)

From S2P Require Import Prelude StructuredJson Config Compaction.

(** ** Keys *)

Definition free_of (c : ascii) (s : string) : Prop := str_exists (Ascii.eqb c) s = false.

Lemma free_of_cons c d s : free_of c (String d s) ↔ c ≠ d ∧ free_of c s.
Proof. unfold free_of. simpl. by rewrite orb_false_iff, Ascii.eqb_neq. Qed.

(** The first separator splits a string in one way. *)
Lemma split_at_separator c s s' t t' :
  free_of c s → free_of c s' → (s ++ String c t = s' ++ String c t')%string → s = s' ∧ t = t'.
Proof.
  revert s'; induction s as [|d s IH]; intros [|d' s']; simpl.
  - by intros _ _ [= ->].
  - intros _ [? _]%free_of_cons [= ? ?]. done.
  - intros [? _]%free_of_cons _ [= ? ?]. done.
  - intros [_ ?]%free_of_cons [_ ?]%free_of_cons [= -> ?]. naive_solver.
Qed.

Lemma not_separated c s s' t : free_of c s → s ≠ (s' ++ String c t)%string.
Proof.
  intros Hs ->. unfold free_of in Hs. rewrite str_exists_app in Hs.
  apply orb_false_iff in Hs as [_ Hs]. simpl in Hs. by rewrite Ascii.eqb_refl in Hs.
Qed.

Lemma join_inj c xs ys :
  Forall (free_of c) xs → Forall (free_of c) ys → length xs = length ys →
  join (String c "") xs = join (String c "") ys → xs = ys.
Proof.
  intros Hxs. revert ys. induction Hxs as [|x xs Hx Hxs IH]; intros [|y ys] Hys Hl; try done.
  apply Forall_cons in Hys as [Hy Hys]. injection Hl as Hl. destruct xs, ys; try done; simpl.
  - by intros ->.
  - intros [-> Hj]%split_at_separator; [|done..]. f_equal. by apply IH.
Qed.

(** A text no checkpoint validator rejects for its characters. *)
Definition clean_text (s : string) : Prop := hasControlCharacter s = false.

Lemma clean_free c s : is_control c = true → clean_text s → free_of c s.
Proof.
  unfold clean_text, hasControlCharacter, free_of. intros Hc.
  induction s as [|d s IH]; simpl; [done|]. rewrite !orb_false_iff. intros [Hd Hs].
  split; [|auto]. apply Ascii.eqb_neq. intros ->. congruence.
Qed.

Definition clean_identity (i : CodexCompactionIdentity) : Prop :=
  Forall clean_text [sessionFingerprint i; providerId i; api i; baseUrl i; modelId i;
                     fingerprint (authenticationBinding i)].

Lemma identityKey_inj_clean i j :
  clean_identity i → clean_identity j → identityKey i = identityKey j → i = j.
Proof.
  assert (Hfree : ∀ i, clean_identity i → Forall (free_of soh)
    [sessionFingerprint i; providerId i; api i; baseUrl i; modelId i;
     literal_name (binding_kind (authenticationBinding i)); fingerprint (authenticationBinding i)]).
  { unfold clean_identity. intros k Hk. rewrite !Forall_cons in Hk. destruct_and!.
    repeat constructor; try (by apply clean_free). by destruct (binding_kind _). }
  intros Hi Hj Hk%join_inj; [|by apply Hfree..|done].
  destruct i as [? ? ? ? ? [ki fi]], j as [? ? ? ? ? [kj fj]]; simpl in *.
  injection Hk as -> -> -> -> -> Hkind ->. do 2 f_equal. by apply (inj literal_name).
Qed.

Lemma identityKey_separated i : ∃ s t, identityKey i = (s ++ String soh t)%string.
Proof. unfold identityKey. simpl. by eexists _, _. Qed.

Lemma inactive_not_identity i : "<inactive>" ≠ identityKey i.
Proof. destruct (identityKey_separated i) as (s & t & ->). by apply not_separated. Qed.

Definition clean_session (s : string) : Prop := free_of nul s.

Lemma session_prefix_app s t : (session_prefix s ++ t = s ++ String nul t)%string.
Proof. unfold session_prefix. by rewrite append_assoc. Qed.

Lemma session_keys_inj s s' t t' : clean_session s → clean_session s' →
  (session_prefix s ++ t = session_prefix s' ++ t')%string → s = s' ∧ t = t'.
Proof. rewrite !session_prefix_app. apply split_at_separator. Qed.

Lemma session_prefix_iff s s' t : clean_session s → clean_session s' →
  starts_with (session_prefix s) (session_prefix s' ++ t) = bool_decide (s = s').
Proof.
  intros Hs Hs'. case_bool_decide as He; [subst; apply starts_with_iff; by eexists|].
  apply not_true_iff_false. rewrite starts_with_iff. intros [u Hu].
  by apply session_keys_inj in Hu as [-> _].
Qed.

(** ** Operations of the store as a transition function *)

Inductive store_op :=
| OpContext (s : string) (i : CodexCompactionIdentity)
| OpRecord (s : string) (i : CodexCompactionIdentity) (e : AccountingEntry)
| OpInvalidate (s : string)
| OpDispose (s : string)
| OpDisposeAll
| OpWarn (s : string) (i : CodexCompactionIdentity)
| OpWarnSession (s : string).

Inductive store_result :=
| ResSnapshot (r : CodexContextAccountingSnapshot)
| ResBool (b : bool)
| ResVoid.

Definition store_step (op : store_op) (st : CodexCompactionStore)
    : store_result * CodexCompactionStore :=
  match op with
  | OpContext s i => let '(r, st) := contextAccounting s i st in (ResSnapshot r, st)
  | OpRecord s i e => let '(b, st) := recordContextUsage s i e st in (ResBool b, st)
  | OpInvalidate s => (ResVoid, invalidateContextAccounting s st)
  | OpDispose s => (ResVoid, store_dispose s st)
  | OpDisposeAll => (ResVoid, store_disposeAll st)
  | OpWarn s i => let '(b, st) := warnOnce s i st in (ResBool b, st)
  | OpWarnSession s => let '(b, st) := warnSessionOnce s st in (ResBool b, st)
  end.

Fixpoint store_run (ops : list store_op) (st : CodexCompactionStore)
    : list store_result * CodexCompactionStore :=
  match ops with
  | [] => ([], st)
  | op :: ops =>
      let '(r, st) := store_step op st in
      let '(rs, st) := store_run ops st in (r :: rs, st)
  end.

(** ** Specification: one table per session *)

#[export] Instance BindingKind_countable : Countable BindingKind.
Proof.
  apply (inj_countable' (λ k, bool_decide (k = credential))
           (λ b, if b : bool then credential else jwt_account)). by intros [].
Defined.
#[export] Instance binding_countable : Countable CodexAuthenticationBindingV1.
Proof.
  apply (inj_countable' (λ b, (binding_kind b, fingerprint b))
           (λ p, {| binding_kind := p.1; fingerprint := p.2 |})). by intros [].
Defined.
#[export] Instance identity_countable : Countable CodexCompactionIdentity.
Proof.
  apply (inj_countable'
    (λ i, (sessionFingerprint i, providerId i, api i, baseUrl i, modelId i, authenticationBinding i))
    (λ '(a, b, c, d, e, f), {| sessionFingerprint := a; providerId := b; api := c;
       baseUrl := d; modelId := e; authenticationBinding := f |})). by intros [].
Defined.

(** What a session remembers: its generation (absent until one is assigned),
    the identity in use, the usage recorded for each identity in this
    generation, and the warnings shown. *)
Record session_table := {
  t_generation : option Z;
  t_active : option CodexCompactionIdentity;
  t_usage : gmap CodexCompactionIdentity AccountingEntry;
  t_warned : gset CodexCompactionIdentity;
  t_warned_session : bool }.

Definition empty_table : session_table :=
  {| t_generation := None; t_active := None; t_usage := ∅; t_warned := ∅;
     t_warned_session := false |}.

Definition t_gen (t : session_table) : Z := default 0%Z (t_generation t).

Definition t_invalidate (t : session_table) : session_table :=
  {| t_generation := Some (t_gen t + 1)%Z; t_active := t_active t; t_usage := ∅;
     t_warned := t_warned t; t_warned_session := t_warned_session t |}.

(** A change of identity starts a new generation. *)
Definition t_context (i : CodexCompactionIdentity) (t : session_table)
    : CodexContextAccountingSnapshot * session_table :=
  let t := match t_active t with
    | Some j => if decide (i = j) then t else t_invalidate t
    | None => t end in
  ({| snap_generation := t_gen t; snap_baseline := baseline_of <$> t_usage t !! i |},
   {| t_generation := t_generation t; t_active := Some i; t_usage := t_usage t;
      t_warned := t_warned t; t_warned_session := t_warned_session t |}).

Definition counts_ok (e : AccountingEntry) : bool :=
  token_count (totalTokens e) && token_count (inputItemCount e).

(** Usage of the current generation is kept unless a later request's is. *)
Definition t_record (i : CodexCompactionIdentity) (e : AccountingEntry) (t : session_table)
    : bool * session_table :=
  if bool_decide (generation e = t_gen t) && counts_ok e &&
     match t_usage t !! i with
     | Some cur => bool_decide (requestGeneration cur ≤ requestGeneration e)%Z
     | None => true end
  then (true, {| t_generation := t_generation t; t_active := t_active t;
                 t_usage := <[i := e]> (t_usage t);
                 t_warned := t_warned t; t_warned_session := t_warned_session t |})
  else (false, t).

Definition t_dispose (t : session_table) : session_table :=
  {| t_generation := Some (t_gen t + 1)%Z; t_active := None; t_usage := ∅; t_warned := ∅;
     t_warned_session := false |}.

(** [disposeAll] only reaches sessions it knows. *)
Definition t_disposeAll (t : session_table) : session_table :=
  {| t_generation := match t_generation t, t_active t with
       | None, None => None | _, _ => Some (t_gen t + 1)%Z end;
     t_active := None; t_usage := ∅; t_warned := ∅; t_warned_session := false |}.

Definition t_warn (i : CodexCompactionIdentity) (t : session_table) : bool * session_table :=
  if decide (i ∈ t_warned t) then (false, t) else
  (true, {| t_generation := t_generation t; t_active := t_active t; t_usage := t_usage t;
            t_warned := {[ i ]} ∪ t_warned t; t_warned_session := t_warned_session t |}).

Definition t_warn_session (t : session_table) : bool * session_table :=
  (negb (t_warned_session t),
   {| t_generation := t_generation t; t_active := t_active t; t_usage := t_usage t;
      t_warned := t_warned t; t_warned_session := true |}).

(** Tables of all sessions; an operation changes its own session only. *)
Abbreviation tables := (string → session_table).
Definition upd (s : string) (t : session_table) (T : tables) : tables :=
  λ s', if String.eqb s s' then t else T s'.

Definition table_step (op : store_op) (T : tables) : store_result * tables :=
  match op with
  | OpContext s i => let '(r, t) := t_context i (T s) in (ResSnapshot r, upd s t T)
  | OpRecord s i e => let '(b, t) := t_record i e (T s) in (ResBool b, upd s t T)
  | OpInvalidate s => (ResVoid, upd s (t_invalidate (T s)) T)
  | OpDispose s => (ResVoid, upd s (t_dispose (T s)) T)
  | OpDisposeAll => (ResVoid, λ s, t_disposeAll (T s))
  | OpWarn s i => let '(b, t) := t_warn i (T s) in (ResBool b, upd s t T)
  | OpWarnSession s => let '(b, t) := t_warn_session (T s) in (ResBool b, upd s t T)
  end.

Fixpoint table_run (ops : list store_op) (T : tables) : list store_result * tables :=
  match ops with
  | [] => ([], T)
  | op :: ops =>
      let '(r, T) := table_step op T in
      let '(rs, T) := table_run ops T in (r :: rs, T)
  end.

(** Session ids without NUL; identities as the validators leave them. *)
Definition clean_op (op : store_op) : Prop :=
  match op with
  | OpContext s i | OpRecord s i _ | OpWarn s i => clean_session s ∧ clean_identity i
  | OpInvalidate s | OpDispose s | OpWarnSession s => clean_session s
  | OpDisposeAll => True
  end.

(** The store holds, under its joined keys, the table of a session. *)
Record session_rep (st : CodexCompactionStore) (s : string) (t : session_table) : Prop := {
  rep_generation : accountingGenerations st !! s = t_generation t;
  rep_active : activeAccountingIdentities st !! s = identityKey <$> t_active t;
  rep_active_clean i : t_active t = Some i → clean_identity i;
  rep_usage i : clean_identity i → accounting st !! accountingKey s i = t_usage t !! i;
  rep_usage_gen i e : t_usage t !! i = Some e → generation e = t_gen t;
  rep_warned i : clean_identity i → accountingKey s i ∈ warningKeys st ↔ i ∈ t_warned t;
  rep_warned_session :
    (session_prefix s ++ "<inactive>")%string ∈ warningKeys st ↔ t_warned_session t = true }.

Definition represents (st : CodexCompactionStore) (T : tables) : Prop :=
  ∀ s, clean_session s → session_rep st s (T s).

(** ** The simulation *)

Lemma rep_gen st s t : session_rep st s t → generation_of st s = t_gen t.
Proof. intros Hr. unfold generation_of, t_gen. by rewrite (rep_generation _ _ _ Hr). Qed.

(** Nothing the session reads has changed. *)
Record same_session (st st' : CodexCompactionStore) (s : string) : Prop := {
  same_generation : accountingGenerations st' !! s = accountingGenerations st !! s;
  same_active : activeAccountingIdentities st' !! s = activeAccountingIdentities st !! s;
  same_usage i : accounting st' !! accountingKey s i = accounting st !! accountingKey s i;
  same_warned t : (session_prefix s ++ t)%string ∈ warningKeys st' ↔
                  (session_prefix s ++ t)%string ∈ warningKeys st }.

Lemma session_rep_same st st' s t : same_session st st' s → session_rep st s t → session_rep st' s t.
Proof.
  intros [Hg Ha Hu Hw] [Hg' Ha' Hc Hu' Hug Hw' Hws']. constructor; try done.
  - by rewrite Hg.
  - by rewrite Ha.
  - intros i Hi. rewrite Hu. by apply Hu'.
  - intros i Hi. unfold accountingKey. rewrite Hw. by apply Hw'.
  - by rewrite Hw.
Qed.

Lemma represents_upd st st' T s t :
  represents st T → clean_session s →
  (∀ s', clean_session s' → s' ≠ s → same_session st st' s') →
  session_rep st' s t → represents st' (upd s t T).
Proof.
  intros HT Hs Hsame Ht s' Hs'. unfold upd. destruct (String.eqb_spec s s') as [<-|Hne]; [done|].
  eapply session_rep_same; [by apply Hsame|by apply HT].
Qed.

Lemma drop_session_lookup {A} s s' t (m : gmap string A) :
  clean_session s → clean_session s' →
  drop_session s m !! (session_prefix s' ++ t)%string =
    if decide (s = s') then None else m !! (session_prefix s' ++ t)%string.
Proof.
  intros Hs Hs'. unfold drop_session. rewrite map_lookup_filter. simpl.
  rewrite session_prefix_iff by done. destruct (m !! _); simpl; [|by case_decide].
  case_decide; subst.
  - rewrite bool_decide_eq_true_2 by done. by rewrite option_guard_False.
  - rewrite bool_decide_eq_false_2 by done. by rewrite option_guard_True.
Qed.

Lemma drop_warnings s s' t (m : gset string) :
  clean_session s → clean_session s' →
  (session_prefix s' ++ t)%string ∈ filter (λ k, starts_with (session_prefix s) k = false) m ↔
  s ≠ s' ∧ (session_prefix s' ++ t)%string ∈ m.
Proof.
  intros Hs Hs'. rewrite elem_of_filter, session_prefix_iff by done. by rewrite bool_decide_eq_false.
Qed.

Lemma accountingKey_ne s s' i i' : clean_session s → clean_session s' → s ≠ s' →
  accountingKey s i ≠ accountingKey s' i'.
Proof. intros ?? Hne Heq. unfold accountingKey in Heq. by apply session_keys_inj in Heq as [-> _]. Qed.

Lemma accountingKey_inj s i i' : clean_session s → clean_identity i → clean_identity i' →
  accountingKey s i = accountingKey s i' → i = i'.
Proof. intros ??? [_ ?]%session_keys_inj; [by apply identityKey_inj_clean|done..]. Qed.

(** *** Invalidation, disposal *)

Lemma invalidate_same st s s' : clean_session s → clean_session s' → s' ≠ s →
  same_session st (invalidateContextAccounting s st) s'.
Proof.
  intros Hs Hs' Hne. constructor; simpl; try done.
  - by rewrite lookup_insert_ne.
  - intros i. unfold accountingKey. rewrite drop_session_lookup by done. by rewrite decide_False.
Qed.

Lemma invalidate_rep st s t : clean_session s → session_rep st s t →
  session_rep (invalidateContextAccounting s st) s (t_invalidate t).
Proof.
  intros Hs Hr. constructor; simpl; try apply Hr.
  - rewrite lookup_insert_eq. by rewrite (rep_gen _ _ _ Hr).
  - intros i Hi. unfold accountingKey. rewrite drop_session_lookup by done.
    by rewrite decide_True, lookup_empty.
  - intros i e. by rewrite lookup_empty.
Qed.

Lemma dispose_same st s s' : clean_session s → clean_session s' → s' ≠ s →
  same_session st (store_dispose s st) s'.
Proof.
  intros Hs Hs' Hne. constructor; simpl.
  - by rewrite lookup_insert_ne.
  - by rewrite lookup_delete_ne.
  - intros i. unfold accountingKey. rewrite drop_session_lookup by done. by rewrite decide_False.
  - intros t. rewrite drop_warnings by done. naive_solver.
Qed.

Lemma dispose_rep st s t : clean_session s → session_rep st s t →
  session_rep (store_dispose s st) s (t_dispose t).
Proof.
  intros Hs Hr. constructor; simpl; try done.
  - rewrite lookup_insert_eq. by rewrite (rep_gen _ _ _ Hr).
  - by rewrite lookup_delete_eq.
  - intros i Hi. unfold accountingKey. rewrite drop_session_lookup by done.
    by rewrite decide_True, lookup_empty.
  - intros i Hi. unfold accountingKey. rewrite drop_warnings by done. set_solver.
  - rewrite drop_warnings by done. naive_solver.
Qed.

Lemma disposeAll_rep st s t : session_rep st s t → session_rep (store_disposeAll st) s (t_disposeAll t).
Proof.
  intros Hr. constructor; simpl; try done.
  - rewrite map_lookup_imap, lookup_gset_to_gmap.
    pose proof (rep_generation _ _ _ Hr) as Hg. pose proof (rep_active _ _ _ Hr) as Ha.
    destruct (decide (s ∈ dom (accountingGenerations st) ∪ dom (activeAccountingIdentities st))) as [Hin|Hin].
    + rewrite option_guard_True by done. simpl. rewrite (rep_gen _ _ _ Hr).
      rewrite elem_of_union, !elem_of_dom, Hg, Ha in Hin.
      destruct (t_generation t), (t_active t); try done. by destruct Hin as [[? [=]]|[? [=]]].
    + rewrite option_guard_False by done. simpl.
      rewrite not_elem_of_union, !not_elem_of_dom, Hg, Ha in Hin. destruct Hin as [-> Hn].
      by destruct (t_active t).
Qed.

(** *** Warnings *)

Lemma warn_same st s s' u : clean_session s → clean_session s' → s' ≠ s →
  same_session st (warn_key (session_prefix s ++ u)%string st).2 s'.
Proof.
  intros Hs Hs' Hne. unfold warn_key. case_bool_decide; simpl; [done|].
  constructor; simpl; try done. intros t. rewrite elem_of_union, elem_of_singleton.
  split; [|auto]. intros [Heq|]; [|done]. by apply session_keys_inj in Heq as [-> _].
Qed.

Lemma warn_identity_rep st s i t : clean_session s → clean_identity i → session_rep st s t →
  (warnOnce s i st).1 = (t_warn i t).1 ∧ session_rep (warnOnce s i st).2 s (t_warn i t).2.
Proof.
  intros Hs Hi Hr. unfold warnOnce, warn_key, t_warn.
  pose proof (rep_warned _ _ _ Hr i Hi) as Hw.
  case_bool_decide as Hin; case_decide as Hin'; try tauto. simpl. split; [done|].
  constructor; simpl; try apply Hr.
  - intros j Hj. rewrite !elem_of_union, !elem_of_singleton, (rep_warned _ _ _ Hr j Hj).
    split; (intros [Heq|]; [left|by right]); [by eapply accountingKey_inj|by subst].
  - rewrite elem_of_union, elem_of_singleton, (rep_warned_session _ _ _ Hr).
    split; [|by right]. intros [Heq|]; [|done]. apply append_inj_r in Heq.
    by destruct (inactive_not_identity i).
Qed.

Lemma warn_session_rep st s t : clean_session s → session_rep st s t →
  (warnSessionOnce s st).1 = (t_warn_session t).1 ∧
  session_rep (warnSessionOnce s st).2 s (t_warn_session t).2.
Proof.
  intros Hs Hr. unfold warnSessionOnce, warn_key, t_warn_session.
  pose proof (rep_warned_session _ _ _ Hr) as Hw. case_bool_decide as Hin; simpl.
  - apply Hw in Hin as Ht. rewrite Ht. split; [done|]. constructor; simpl; try apply Hr.
    split; [done|]. by intros _.
  - destruct (t_warned_session t); [tauto|]. split; [done|]. constructor; simpl; try apply Hr.
    + intros j Hj. rewrite elem_of_union, elem_of_singleton, (rep_warned _ _ _ Hr j Hj).
      split; [|by right]. intros [Heq|]; [|done]. apply append_inj_r in Heq.
      by destruct (inactive_not_identity j).
    + split; [done|]. intros _. set_solver.
Qed.

(** *** Accounting *)

Definition set_active (s key : string) (st : CodexCompactionStore) : CodexCompactionStore :=
  {| warningKeys := warningKeys st; accountingGenerations := accountingGenerations st;
     activeAccountingIdentities := <[ s := key ]> (activeAccountingIdentities st);
     accounting := accounting st |}.

Lemma set_active_same st s s' key : s' ≠ s → same_session st (set_active s key st) s'.
Proof. intros Hne. constructor; simpl; try done. by rewrite lookup_insert_ne. Qed.

Lemma same_session_trans st1 st2 st3 s :
  same_session st1 st2 s → same_session st2 st3 s → same_session st1 st3 s.
Proof. intros [Hg Ha Hu Hw] [Hg' Ha' Hu' Hw']. constructor; congruence || (intros; by rewrite Hw'). Qed.

(** The store an accounting request reads from. *)
Definition context_store (s : string) (i : CodexCompactionIdentity) (st : CodexCompactionStore) :=
  match activeAccountingIdentities st !! s with
  | Some active => if String.eqb active (identityKey i) then st else invalidateContextAccounting s st
  | None => st
  end.

Lemma context_same st s s' i : clean_session s → clean_session s' → s' ≠ s →
  same_session st (contextAccounting s i st).2 s'.
Proof.
  intros Hs Hs' Hne. apply (same_session_trans _ (context_store s i st)); [|by apply set_active_same].
  unfold context_store. case_match; [case_match|]; [done|by apply invalidate_same|done].
Qed.

Definition context_table (i : CodexCompactionIdentity) (t : session_table) : session_table :=
  match t_active t with
  | Some j => if decide (i = j) then t else t_invalidate t
  | None => t
  end.

Lemma context_store_rep st s i t : clean_session s → clean_identity i → session_rep st s t →
  session_rep (context_store s i st) s (context_table i t).
Proof.
  intros Hs Hi Hr. unfold context_store, context_table. rewrite (rep_active _ _ _ Hr).
  destruct (t_active t) as [j|] eqn:Hj; simpl; [|done].
  apply (rep_active_clean _ _ _ Hr) in Hj.
  destruct (String.eqb_spec (identityKey j) (identityKey i)) as [Heq|Hne]; case_decide; subst; try done.
  - by apply identityKey_inj_clean in Heq as ->.
  - by apply invalidate_rep.
Qed.

Lemma context_rep st s i t : clean_session s → clean_identity i → session_rep st s t →
  (contextAccounting s i st).1 = (t_context i t).1 ∧
  session_rep (contextAccounting s i st).2 s (t_context i t).2.
Proof.
  intros Hs Hi Hr. pose proof (context_store_rep _ _ _ _ Hs Hi Hr) as Hc.
  pose proof (rep_gen _ _ _ Hc) as Hg.
  change (contextAccounting s i st) with
    (let st := context_store s i st in let st := set_active s (identityKey i) st in
     ({| snap_generation := generation_of st s;
         snap_baseline := match accounting st !! accountingKey s i with
           | Some e => if Z.eqb (generation e) (generation_of st s) then Some (baseline_of e) else None
           | None => None end |}, st)).
  change (t_context i t) with (let t := context_table i t in
    ({| snap_generation := t_gen t; snap_baseline := baseline_of <$> t_usage t !! i |},
     {| t_generation := t_generation t; t_active := Some i; t_usage := t_usage t;
        t_warned := t_warned t; t_warned_session := t_warned_session t |})).
  cbv zeta. change (generation_of (set_active s (identityKey i) (context_store s i st)) s)
    with (generation_of (context_store s i st) s).
  rewrite Hg. cbn [fst snd set_active accounting].
  rewrite (rep_usage _ _ _ Hc i Hi). split.
  - f_equal. destruct (t_usage (context_table i t) !! i) as [e|] eqn:He; simpl; [|done].
    rewrite (rep_usage_gen _ _ _ Hc i e He). by rewrite Z.eqb_refl.
  - constructor; simpl; try apply Hc.
    + by rewrite lookup_insert_eq.
    + by intros j [= <-].
Qed.

Lemma record_same st s s' i e : clean_session s → clean_session s' → s' ≠ s →
  same_session st (recordContextUsage s i e st).2 s'.
Proof.
  intros Hs Hs' Hne. unfold recordContextUsage. case_match; [done|]. case_match; [done|].
  constructor; simpl; try done. intros j. rewrite lookup_insert_ne; [done|].
  by apply accountingKey_ne.
Qed.

Lemma record_rep st s i e t : clean_session s → clean_identity i → session_rep st s t →
  (recordContextUsage s i e st).1 = (t_record i e t).1 ∧
  session_rep (recordContextUsage s i e st).2 s (t_record i e t).2.
Proof.
  intros Hs Hi Hr. unfold recordContextUsage, t_record. rewrite (rep_gen _ _ _ Hr).
  assert (negb (Z.eqb (t_gen t) (generation e)) || negb (is_safe_integer (totalTokens e)) ||
    num_ltb (totalTokens e) 0%Z || negb (is_safe_integer (inputItemCount e)) ||
    num_ltb (inputItemCount e) 0%Z = negb (bool_decide (generation e = t_gen t) && counts_ok e)) as ->.
  { unfold counts_ok, token_count.
    replace (Z.eqb (t_gen t) (generation e)) with (bool_decide (generation e = t_gen t))
      by (case_bool_decide; symmetry; [by apply Z.eqb_eq|apply Z.eqb_neq; congruence]).
    destruct (bool_decide _), (is_safe_integer _), (num_ltb _ _), (is_safe_integer _), (num_ltb _ _); done. }
  destruct (bool_decide (generation e = t_gen t) && counts_ok e) eqn:Hok; simpl; [|done].
  apply andb_true_iff in Hok as [Hgen%bool_decide_eq_true _].
  rewrite (rep_usage _ _ _ Hr i Hi).
  assert (match t_usage t !! i with
          | Some cur => Z.eqb (generation cur) (generation e) && (requestGeneration e <? requestGeneration cur)%Z
          | None => false end =
          negb match t_usage t !! i with
          | Some cur => bool_decide (requestGeneration cur ≤ requestGeneration e)%Z
          | None => true end) as ->.
  { destruct (t_usage t !! i) as [cur|] eqn:Hcur; [|done].
    rewrite (rep_usage_gen _ _ _ Hr i cur Hcur), Hgen, Z.eqb_refl. simpl.
    case_bool_decide; simpl; [by apply Z.ltb_ge|by apply Z.ltb_lt, Z.nle_gt]. }
  destruct (match t_usage t !! i with Some _ => _ | None => _ end); simpl; [|done].
  split; [done|]. constructor; simpl; try apply Hr.
  - intros j Hj. destruct (decide (i = j)) as [->|Hne]; [by rewrite !lookup_insert_eq|].
    rewrite !lookup_insert_ne; [by apply Hr|done|]. intros Heq. by apply accountingKey_inj in Heq.
  - intros j e'. rewrite lookup_insert_Some. intros [[_ <-]|[_ Hj]]; [done|].
    by apply (rep_usage_gen _ _ _ Hr j).
Qed.

(** *** All operations *)

Lemma store_step_refines op st T : clean_op op → represents st T →
  (store_step op st).1 = (table_step op T).1 ∧ represents (store_step op st).2 (table_step op T).2.
Proof.
  intros Hop HT. destruct op as [s i|s i e|s|s| |s i|s]; simpl in Hop;
    cbn [store_step table_step].
  - destruct Hop as [Hs Hi]. destruct (context_rep st s i (T s) Hs Hi (HT s Hs)) as [H1 H2].
    destruct (contextAccounting s i st) as [r st'] eqn:Hc, (t_context i (T s)) as [r' t'].
    cbn [fst snd] in *. split; [congruence|]. eapply represents_upd; [done..| |done].
    intros s' Hs' Hne. pose proof (context_same st s s' i Hs Hs' Hne) as Hk. by rewrite Hc in Hk.
  - destruct Hop as [Hs Hi]. destruct (record_rep st s i e (T s) Hs Hi (HT s Hs)) as [H1 H2].
    destruct (recordContextUsage s i e st) as [r st'] eqn:Hc, (t_record i e (T s)) as [r' t'].
    cbn [fst snd] in *. split; [congruence|]. eapply represents_upd; [done..| |done].
    intros s' Hs' Hne. pose proof (record_same st s s' i e Hs Hs' Hne) as Hk. by rewrite Hc in Hk.
  - split; [done|]. eapply represents_upd; [done..| |by apply invalidate_rep, HT].
    intros; by apply invalidate_same.
  - split; [done|]. eapply represents_upd; [done..| |by apply dispose_rep, HT].
    intros; by apply dispose_same.
  - split; [done|]. intros s Hs. by apply disposeAll_rep, HT.
  - destruct Hop as [Hs Hi]. destruct (warn_identity_rep st s i (T s) Hs Hi (HT s Hs)) as [H1 H2].
    destruct (warnOnce s i st) as [r st'] eqn:Hc, (t_warn i (T s)) as [r' t'].
    cbn [fst snd] in *. split; [congruence|]. eapply represents_upd; [done..| |done].
    intros s' Hs' Hne. pose proof (warn_same st s s' (identityKey i) Hs Hs' Hne) as Hk.
    change (warn_key _ st) with (warnOnce s i st) in Hk. by rewrite Hc in Hk.
  - destruct (warn_session_rep st s (T s) Hop (HT s Hop)) as [H1 H2].
    destruct (warnSessionOnce s st) as [r st'] eqn:Hc, (t_warn_session (T s)) as [r' t'].
    cbn [fst snd] in *. split; [congruence|]. eapply represents_upd; [done..| |done].
    intros s' Hs' Hne. pose proof (warn_same st s s' "<inactive>" Hop Hs' Hne) as Hk.
    change (warn_key _ st) with (warnSessionOnce s st) in Hk. by rewrite Hc in Hk.
Qed.

Lemma store_run_refines ops : Forall clean_op ops → ∀ st T, represents st T →
  (store_run ops st).1 = (table_run ops T).1.
Proof.
  induction 1 as [|op ops Hop _ IH]; intros st T HT; simpl; [done|].
  destruct (store_step_refines op st T Hop HT) as [Hres Hrep].
  destruct (store_step op st) as [r st'], (table_step op T) as [r' T']. simpl in *.
  specialize (IH st' T' Hrep).
  destruct (store_run ops st') as [rs ?], (table_run ops T') as [rs' ?]. simpl in *. congruence.
Qed.

Lemma new_store_represents : represents new_store (λ _, empty_table).
Proof. intros s Hs. constructor; simpl; intros; set_solver. Qed.

(** C22: for session ids without NUL and identities the validators accept,
    every sequence of operations on the store answers what independent tables
    per session answer: the joined keys never confuse sessions or identities,
    deletions by key prefix clear one session, a baseline is the usage
    recorded for that identity in the current generation, and it is replaced
    only by an equal or later request. *)
Theorem store_refines_tables ops :
  Forall clean_op ops →
  (store_run ops new_store).1 = (table_run ops (λ _, empty_table)).1.
Proof. intros Hops. by apply store_run_refines, new_store_represents. Qed.

(** Two identities that differ in the model, and usage recorded for them. *)
Definition identity_of (model : string) : CodexCompactionIdentity :=
  {| sessionFingerprint := "5e55"; providerId := "openai-codex"; api := "openai-responses";
     baseUrl := "https://x"; modelId := model;
     authenticationBinding := {| binding_kind := credential; fingerprint := "f00d" |} |}.
Definition usage_of (gen request : Z) : AccountingEntry :=
  {| totalTokens := 10%Z; inputItemCount := 2%Z; inputDigest := "a"; instructionsDigest := "b";
     generation := gen; requestGeneration := request |}.

Lemma store_refines_tables_witness :
  let a := identity_of "a" in let b := identity_of "b" in
  let ops := [OpContext "s" a; OpRecord "s" a (usage_of 0 2); OpRecord "s" a (usage_of 0 1);
              OpContext "s" a; OpContext "s" b; OpContext "s" a; OpWarn "s" a; OpWarn "s" a] in
  (store_run ops new_store).1 = (table_run ops (λ _, empty_table)).1 ∧
  (store_run ops new_store).1 !! 2%nat = Some (ResBool false).
Proof.
  split; [apply store_refines_tables; repeat constructor|reflexivity].
Defined.

(** ** Stale snapshots *)

(** The operation ends the generation the session had with this identity. *)
Definition leaves (s : string) (i : CodexCompactionIdentity) (op : store_op) : Prop :=
  match op with
  | OpInvalidate s' | OpDispose s' => s' = s
  | OpDisposeAll => True
  | OpContext s' i' => s' = s ∧ identityKey i' ≠ identityKey i
  | _ => False
  end.

Definition fresh (s : string) (i : CodexCompactionIdentity) (g : Z) (st : CodexCompactionStore) :=
  generation_of st s = g ∧ activeAccountingIdentities st !! s = Some (identityKey i).
Definition stale (s : string) (g : Z) (st : CodexCompactionStore) :=
  ∃ g', accountingGenerations st !! s = Some g' ∧ (g < g')%Z.

Lemma disposeAll_generation st s :
  accountingGenerations (store_disposeAll st) !! s =
  if decide (s ∈ dom (accountingGenerations st) ∪ dom (activeAccountingIdentities st))
  then Some (generation_of st s + 1)%Z else None.
Proof.
  simpl. rewrite map_lookup_imap, lookup_gset_to_gmap. case_decide.
  - by rewrite option_guard_True.
  - by rewrite option_guard_False.
Qed.

Lemma invalidate_stale st s s' g : stale s g st → stale s g (invalidateContextAccounting s' st).
Proof.
  intros (g' & Hg & Hlt). destruct (decide (s' = s)) as [->|Hne].
  - exists (g' + 1)%Z. simpl. rewrite lookup_insert_eq. unfold generation_of. rewrite Hg.
    simpl. split; [done|lia].
  - exists g'. simpl. by rewrite lookup_insert_ne.
Qed.

Lemma step_context s i st :
  (store_step (OpContext s i) st).2 = set_active s (identityKey i) (context_store s i st).
Proof. reflexivity. Qed.

(** The other operations leave generations and identities alone. *)
Lemma step_record s i e st :
  let st' := (store_step (OpRecord s i e) st).2 in
  accountingGenerations st' = accountingGenerations st ∧
  activeAccountingIdentities st' = activeAccountingIdentities st.
Proof.
  cbn [store_step]. unfold recordContextUsage. destruct (_ || _ || _ || _ || _); [done|].
  by destruct (match accounting st !! _ with Some _ => _ | None => _ end).
Qed.

Lemma step_warn key st :
  accountingGenerations (warn_key key st).2 = accountingGenerations st ∧
  activeAccountingIdentities (warn_key key st).2 = activeAccountingIdentities st.
Proof. unfold warn_key. by case_bool_decide. Qed.

Lemma step_warn_identity s i st :
  (store_step (OpWarn s i) st).2 = (warn_key (accountingKey s i) st).2.
Proof. cbn [store_step]. unfold warnOnce. by destruct (warn_key _ _). Qed.

Lemma step_warn_session s st :
  (store_step (OpWarnSession s) st).2 = (warn_key (session_prefix s ++ "<inactive>")%string st).2.
Proof. cbn [store_step]. unfold warnSessionOnce. by destruct (warn_key _ _). Qed.

Lemma stale_ext s g st st' :
  accountingGenerations st' = accountingGenerations st → stale s g st → stale s g st'.
Proof. unfold stale. by intros ->. Qed.

Lemma fresh_ext s i g st st' :
  accountingGenerations st' = accountingGenerations st ∧
  activeAccountingIdentities st' = activeAccountingIdentities st → fresh s i g st → fresh s i g st'.
Proof. unfold fresh, generation_of. by intros [-> ->]. Qed.

Lemma store_step_stale op st s g : stale s g st → stale s g (store_step op st).2.
Proof.
  intros Hst. destruct op as [s' i'|s' i' e|s'|s'| |s' i'|s'].
  - rewrite step_context. apply (stale_ext _ _ (context_store s' i' st)); [done|].
    unfold context_store. case_match; [case_match|]; [done|by apply invalidate_stale|done].
  - eapply stale_ext; [apply step_record|done].
  - by apply invalidate_stale.
  - apply (invalidate_stale _ _ s') in Hst. done.
  - destruct Hst as (g' & Hg & Hlt). exists (g' + 1)%Z. cbn [store_step snd].
    rewrite disposeAll_generation.
    rewrite decide_True by (apply elem_of_union; left; rewrite elem_of_dom; by eexists).
    unfold generation_of. rewrite Hg. simpl. split; [done|lia].
  - rewrite step_warn_identity. eapply stale_ext; [apply step_warn|done].
  - rewrite step_warn_session. eapply stale_ext; [apply step_warn|done].
Qed.

Lemma invalidate_self st s : stale s (generation_of st s) (invalidateContextAccounting s st).
Proof. exists (generation_of st s + 1)%Z. simpl. rewrite lookup_insert_eq. split; [done|lia]. Qed.

Lemma store_step_leaves op st s i g :
  fresh s i g st → leaves s i op → stale s g (store_step op st).2.
Proof.
  intros [<- Hact] Hl. destruct op as [s' i'|s' i' e|s'|s'| |s' i'|s']; simpl in Hl; try done; subst.
  - destruct Hl as [-> Hne]. rewrite step_context. apply (stale_ext _ _ (context_store s i' st)); [done|].
    unfold context_store. rewrite Hact, (proj2 (String.eqb_neq _ _)) by done. apply invalidate_self.
  - apply invalidate_self.
  - apply invalidate_self.
  - exists (generation_of st s + 1)%Z. cbn [store_step snd]. rewrite disposeAll_generation.
    rewrite decide_True by (apply elem_of_union; right; rewrite elem_of_dom; by eexists).
    split; [done|lia].
Qed.

Lemma store_step_stays op st s i g :
  fresh s i g st → ¬ leaves s i op → fresh s i g (store_step op st).2.
Proof.
  intros [Hg Hact] Hl.
  destruct op as [s' i'|s' i' e|s'|s'| |s' i'|s']; simpl in Hl; try done.
  - rewrite step_context. unfold context_store, fresh.
    destruct (decide (s' = s)) as [->|Hne].
    + destruct (decide (identityKey i' = identityKey i)) as [He|]; [|tauto].
      rewrite Hact, He, String.eqb_refl. split; [done|]. simpl. by rewrite lookup_insert_eq.
    + simpl. rewrite lookup_insert_ne by done. rewrite <-Hg, <-Hact. unfold generation_of.
      case_match; [case_match|]; simpl; by rewrite ?lookup_insert_ne.
  - eapply fresh_ext; [apply step_record|done].
  - split; [|done]. rewrite <-Hg. unfold generation_of; simpl. by rewrite lookup_insert_ne.
  - split; [|simpl; by rewrite lookup_delete_ne].
    rewrite <-Hg. unfold generation_of; simpl. by rewrite lookup_insert_ne.
  - rewrite step_warn_identity. eapply fresh_ext; [apply step_warn|done].
  - rewrite step_warn_session. eapply fresh_ext; [apply step_warn|done].
Qed.

Lemma store_run_cons op ops st :
  (store_run (op :: ops) st).2 = (store_run ops (store_step op st).2).2.
Proof. simpl. destruct (store_step op st) as [r st']. simpl. by destruct (store_run ops st'). Qed.

Lemma store_run_stale ops st s g : stale s g st → stale s g (store_run ops st).2.
Proof.
  revert st; induction ops as [|op ops IH]; intros st Hst; [done|].
  rewrite store_run_cons. by apply IH, store_step_stale.
Qed.

Lemma store_run_leaves ops st s i g :
  fresh s i g st → Exists (leaves s i) ops → stale s g (store_run ops st).2.
Proof.
  intros Hst Hex. revert st Hst.
  induction ops as [|op ops IH]; intros st Hst; [by apply Exists_nil in Hex|].
  rewrite store_run_cons.
  assert (leaves s i op ∨ ¬ leaves s i op) as [Hl|Hl].
  { destruct op as [s' i'| | | | | |]; simpl; try tauto.
    - destruct (decide (s' = s)), (decide (identityKey i' = identityKey i)); tauto.
    - by destruct (decide (s0 = s)); [left|right].
    - by destruct (decide (s0 = s)); [left|right]. }
  - by eapply store_run_stale, store_step_leaves.
  - apply Exists_cons in Hex as [|Hex]; [done|]. by apply IH; [|by eapply store_step_stays].
Qed.

(** usage measured against a snapshot is refused once the session has
    been invalidated or disposed, all sessions have been, or another identity
    has been in use, whatever happened in between and even if the session came
    back to the same identity. *)
Theorem stale_snapshot_rejected s i st snap st1 ops rs st2 j e :
  contextAccounting s i st = (snap, st1) →
  store_run ops st1 = (rs, st2) →
  Exists (leaves s i) ops →
  generation e = snap_generation snap →
  recordContextUsage s j e st2 = (false, st2).
Proof.
  intros Hc Hr Hex He.
  assert (fresh s i (snap_generation snap) st1) as Hf.
  { injection Hc as <- <-. split; [done|]. simpl. by rewrite lookup_insert_eq. }
  pose proof (store_run_leaves _ _ _ _ _ Hf Hex) as (g & Hg & Hlt). rewrite Hr in Hg. simpl in Hg.
  unfold recordContextUsage.
  assert (Z.eqb (generation_of st2 s) (generation e) = false) as ->; [|done].
  apply Z.eqb_neq. unfold generation_of. rewrite Hg. simpl. lia.
Qed.

Lemma stale_snapshot_rejected_witness :
  let a := identity_of "a" in let b := identity_of "b" in
  let c := contextAccounting "s" a new_store in
  let r := store_run [OpContext "s" b; OpContext "s" a] c.2 in
  recordContextUsage "s" a (usage_of 0 1) r.2 = (false, r.2).
Proof.
  intros a b c r. apply (stale_snapshot_rejected "s" a new_store c.1 c.2
    [OpContext "s" b; OpContext "s" a] r.1 r.2).
  - apply surjective_pairing.
  - apply surjective_pairing.
  - left. split; [done|]. by vm_compute.
  - reflexivity.
Defined.

(** ** The coordinator *)

Inductive coordinator_op :=
| CBegin (s : string) | CRequest (s : string) | CBeginExecution (s : string)
| CEnd (s : string) (o : CompactionOutcome) | CEndPending (s : string) (o : CompactionOutcome)
| CDispose (s : string) | CDisposeAll.

Definition coordinator_step (op : coordinator_op) (m : coordinator) : option bool * coordinator :=
  match op with
  | CBegin s => let '(b, m) := begin s m in (Some b, m)
  | CRequest s => let '(b, m) := requestExecution s m in (Some b, m)
  | CBeginExecution s => let '(b, m) := beginExecution s m in (Some b, m)
  | CEnd s o => (None, end_ s o m)
  | CEndPending s o => (None, endPending s o m)
  | CDispose s => (None, coordinator_dispose s m)
  | CDisposeAll => (None, coordinator_disposeAll m)
  end.

(** The operations that obtained the session for themselves: a host-side
    compaction that begins, or one that starts to execute. *)
Fixpoint grants (s : string) (ops : list coordinator_op) (m : coordinator) : list coordinator_op :=
  match ops with
  | [] => []
  | op :: ops =>
      let '(r, m) := coordinator_step op m in
      match op with
      | CBegin s' | CBeginExecution s' =>
          if bool_decide (s' = s ∧ r = Some true) then op :: grants s ops m else grants s ops m
      | _ => grants s ops m
      end
  end.

Definition releases (s : string) (op : coordinator_op) : Prop :=
  match op with
  | CEnd s' _ | CEndPending s' _ | CDispose s' => s' = s
  | CDisposeAll => True
  | _ => False
  end.

Definition owned (s : string) (m : coordinator) : Prop :=
  m !! s = Some pending ∨ m !! s = Some executing.

Lemma owned_busy s m : owned s m → isBusy s m = true.
Proof. unfold isBusy. by intros [-> | ->]. Qed.

Ltac coordinator_cases :=
  unfold coordinator_step, begin, requestExecution, beginExecution, end_, endPending,
    coordinator_dispose, end_ in *; repeat case_match; simplify_eq/=.

Lemma coordinator_step_other op s m r m' :
  coordinator_step op m = (r, m') → ¬ releases s op → owned s m → owned s m'.
Proof.
  intros Hs Hn Ho. destruct op as [s'|s'|s'|s' o|s' o|s'|]; simpl in Hn; coordinator_cases;
    try done; unfold owned in *; try (rewrite lookup_insert_ne; [done|intros ->]);
    try (by rewrite owned_busy in * ); try (rewrite lookup_delete_ne; done);
    try congruence.
  bool_to_prop. naive_solver.
Qed.

Lemma no_grants_when_owned s ops : Forall (λ op, ¬ releases s op) ops →
  ∀ m, owned s m → grants s ops m = [].
Proof.
  induction 1 as [|op ops Hop _ IH]; intros m Ho; [done|]. simpl.
  destruct (coordinator_step op m) as [r m'] eqn:Hs.
  assert (owned s m') as Ho' by (by eapply coordinator_step_other).
  destruct op; try (by apply IH); rewrite bool_decide_eq_false_2; try (by apply IH);
    intros [-> ->]; simpl in Hs.
  - unfold begin in Hs. by rewrite owned_busy in Hs.
  - unfold beginExecution in Hs. destruct Ho as [Ho|Ho]; by rewrite Ho in Hs.
Qed.

(** as long as nobody ends or disposes a session, at most one operation
    obtains it: a begun compaction excludes every other start, and of several
    executions only one starts. *)
Theorem coordinator_exclusive s ops m :
  Forall (λ op, ¬ releases s op) ops → length (grants s ops m) ≤ 1.
Proof.
  intros Hops. revert m. induction Hops as [|op ops Hop Hops IH]; intros m; simpl; [lia|].
  destruct (coordinator_step op m) as [r m'] eqn:Hs.
  destruct op as [s'|s'|s'|s' o|s' o|s'|]; try apply IH; case_bool_decide as Hg; try apply IH;
    destruct Hg as [-> ->]; simpl; rewrite no_grants_when_owned; try done;
    unfold owned; simpl in Hs.
  - unfold begin in Hs. destruct (isBusy s m); simplify_eq. left. apply lookup_insert_eq.
  - unfold beginExecution in Hs. destruct (bool_decide _ || bool_decide _); simplify_eq. right. apply lookup_insert_eq.
Qed.

Lemma coordinator_exclusive_witness :
  let ops := [CRequest "s"; CBegin "s"; CBeginExecution "s"; CBeginExecution "s"; CBegin "s"] in
  length (grants "s" ops ∅) ≤ 1 ∧ grants "s" ops ∅ = [CBeginExecution "s"].
Proof.
  split; [apply coordinator_exclusive; repeat constructor; by intros []|reflexivity].
Defined.
