(* ===== verification/Capability.v ===== *)
(** * Capability

    [src/src/domain/capability.ts]: what the native resolver is asked and the
    strict parsing of what it answers. *)

From S2P Require Import Prelude Config.

(** ** Data *)

Inductive ManagedToolName :=
| update_plan | exec_command | write_stdin | tool_shell_command | apply_patch | view_image
| image_gen_imagegen | web_run.
#[export] Instance ManagedToolName_eq_dec : EqDecision ManagedToolName.
Proof. solve_decision. Defined.
#[export] Program Instance ManagedToolName_literal : Literal ManagedToolName :=
  {| literal_name a := match a with
       update_plan => "update_plan" | exec_command => "exec_command"
     | write_stdin => "write_stdin" | tool_shell_command => "shell_command"
     | apply_patch => "apply_patch" | view_image => "view_image"
     | image_gen_imagegen => "image_gen.imagegen" | web_run => "web.run" end |}.
Next Obligation. solve_literal. Defined.

Definition MANAGED_TOOL_NAMES : list ManagedToolName :=
  [update_plan; exec_command; write_stdin; tool_shell_command; apply_patch; view_image;
   image_gen_imagegen; web_run].

Inductive AvailabilitySource := official | supplemental | provider_contract.
#[export] Instance AvailabilitySource_eq_dec : EqDecision AvailabilitySource.
Proof. solve_decision. Defined.
#[export] Program Instance AvailabilitySource_literal : Literal AvailabilitySource :=
  {| literal_name a := match a with
       official => "official" | supplemental => "supplemental"
     | provider_contract => "provider-contract" end |}.
Next Obligation. solve_literal. Defined.

Inductive Availability :=
| available (source : AvailabilitySource)
| disabled (reason : string)
| unavailable (reason : string).
#[export] Instance Availability_eq_dec : EqDecision Availability. Proof. solve_decision. Defined.

Definition is_available (a : Availability) : bool :=
  match a with available _ => true | _ => false end.

Inductive ResponsesWebsocket := ws_official_only | ws_unavailable.
#[export] Instance ResponsesWebsocket_eq_dec : EqDecision ResponsesWebsocket.
Proof. solve_decision. Defined.

(** Every other field of the contract is the literal [true]. *)
Record CompleteCodexProviderContract := { responsesWebsocket : ResponsesWebsocket }.

Record ResolvedModelCapability := {
  model : list (string * jsval);
  model_shellSurface : ShellSurface;
  autoCompactTokenLimit : option jsnum }.

Record NativeToolCapabilityEvidence := {
  ev_sessions : Availability;
  ev_applyPatch : Availability;
  ev_viewImage : Availability;
  ev_imageGeneration : Availability;
  ev_webSearch : Availability }.

Inductive SessionSurface :=
| session_official | session_supplemental | session_disabled | session_unavailable.
#[export] Instance SessionSurface_eq_dec : EqDecision SessionSurface.
Proof. solve_decision. Defined.
#[export] Program Instance SessionSurface_literal : Literal SessionSurface :=
  {| literal_name a := match a with
       session_official => "official" | session_supplemental => "supplemental"
     | session_disabled => "disabled" | session_unavailable => "unavailable" end |}.
Next Obligation. solve_literal. Defined.

Inductive WebSurface := web_standalone | web_hosted | web_disabled | web_unsupported.
#[export] Instance WebSurface_eq_dec : EqDecision WebSurface. Proof. solve_decision. Defined.
#[export] Program Instance WebSurface_literal : Literal WebSurface :=
  {| literal_name a := match a with
       web_standalone => "standalone" | web_hosted => "hosted" | web_disabled => "disabled"
     | web_unsupported => "unsupported" end |}.
Next Obligation. solve_literal. Defined.

Inductive ImageSurface := image_standalone | image_disabled.
#[export] Instance ImageSurface_eq_dec : EqDecision ImageSurface. Proof. solve_decision. Defined.
#[export] Program Instance ImageSurface_literal : Literal ImageSurface :=
  {| literal_name a := match a with
       image_standalone => "standalone" | image_disabled => "disabled" end |}.
Next Obligation. solve_literal. Defined.

Record ResolvedToolCapability := {
  modelTools : list jsval;
  dispatchTools : list jsval;
  localToolNames : list ManagedToolName;
  hostedToolNames : list string;
  tool_shellSurface : ShellSurface;
  sessionSurface : SessionSurface;
  webSurface : WebSurface;
  imageGenerationSurface : ImageSurface;
  capabilities : NativeToolCapabilityEvidence }.

Inductive CapabilityErrorCode :=
| inactive_provider | model_metadata_unavailable | provider_capability_unavailable
| compaction_unsupported | effective_capability_invalid | provider_session_unavailable
| provider_contract_mismatch.

(** [CapabilityError]; an error of any other class only has its message. *)
Inductive CapabilityError :=
| capability_error (code : CapabilityErrorCode) (reason : string)
| other_error (message : string).

Abbreviation result := (outcome CapabilityError).

Record ToolsResolveHostOptions := {
  opt_providerId : string;
  allowedLocalToolNames : list ManagedToolName;
  opt_webSearchMode : WebSearchMode;
  opt_viewImage : bool;
  opt_imageGeneration : bool;
  opt_backgroundSessions : bool;
  opt_bridgeCapabilities : list string;
  allowLoginShell : option bool;
  execPermissionApprovalsEnabled : option bool }.

Definition completeProviderContract (providerId : string) : CompleteCodexProviderContract :=
  {| responsesWebsocket :=
       if String.eqb providerId "openai-codex" then ws_official_only else ws_unavailable |}.

Definition contract_value (c : CompleteCodexProviderContract) : jsval := VObj [
  ("responsesSse", VBool true);
  ("responsesWebsocket", VStr match responsesWebsocket c with
     ws_official_only => "official-only" | ws_unavailable => "unavailable" end);
  ("remoteCompactionV2", VBool true); ("compactEndpoint", VBool true);
  ("namespaceTools", VBool true); ("imagesApi", VBool true); ("searchApi", VBool true);
  ("hostedWebSearch", VBool true)].

(** ** Parsing *)

Definition metadataError (reason : string) : CapabilityError :=
  capability_error model_metadata_unavailable reason.
Definition invalidCapability (reason : string) : CapabilityError :=
  capability_error effective_capability_invalid reason.

Definition parseShellSurface (value : jsval) : result ShellSurface :=
  match value with
  | VStr s =>
      match find (λ a, String.eqb (literal_name a) s) [unified_exec; shell_command; shell_disabled] with
      | Some a => Ret a
      | None => Throw (metadataError
                  "OpenAI Codex model metadata did not include a valid shell surface")
      end
  | _ => Throw (metadataError "OpenAI Codex model metadata did not include a valid shell surface")
  end.

Definition parseAutoCompactTokenLimit (value : jsval) : result (option jsnum) :=
  let err := metadataError
    "OpenAI Codex model metadata did not include a valid auto-compact limit" in
  match value with
  | VNull => Ret None
  | VNum n => if is_safe_integer n && num_gtb n 0%Z then Ret (Some n) else Throw err
  | _ => Throw err
  end.

Definition parseModelResolution (value : jsval) (expectedModelId : string)
    : result ResolvedModelCapability :=
  match as_record value with
  | None => Throw (metadataError "OpenAI Codex model metadata is unavailable")
  | Some root =>
      let mismatch := metadataError
        "OpenAI Codex model metadata did not match the selected model" in
      match as_record (field root "model") with
      | None => Throw mismatch
      | Some m =>
          if negb (bool_decide (field m "slug" = VStr expectedModelId)) then Throw mismatch else
          surface ← parseShellSurface (field root "shellSurface");
          limit ← parseAutoCompactTokenLimit (field root "autoCompactTokenLimit");
          Ret {| model := m; model_shellSurface := surface; autoCompactTokenLimit := limit |}
      end
  end.

Definition buildToolsResolveParams (resolution : ResolvedModelCapability)
    (options : ToolsResolveHostOptions) : jsval :=
  let has c := js_elem c (opt_bridgeCapabilities options) in
  VObj [
    ("model", VObj (model resolution));
    ("allowedLocalToolNames", VArr (lit <$> allowedLocalToolNames options));
    ("webSearchMode", lit (opt_webSearchMode options));
    ("providerContract", contract_value (completeProviderContract (opt_providerId options)));
    ("standaloneWebSearch", VObj [("featureEnabled", VBool false);
       ("executorAvailable", VBool (has "standalone_web_search"))]);
    ("sessions", VObj [("enabled", VBool (opt_backgroundSessions options));
       ("executorAvailable", VBool (has "unified_exec"))]);
    ("shell", VObj [("allowLoginShell", VBool (default true (allowLoginShell options)));
       ("execPermissionApprovalsEnabled",
        VBool (default false (execPermissionApprovalsEnabled options)))]);
    ("optional", VObj [
       ("viewImage", VBool (opt_viewImage options && has "view_image"));
       ("imageGeneration", VBool (opt_imageGeneration options && has "image_generation"))])].

Definition array (value : jsval) (name : string) : result (list jsval) :=
  match value with
  | VArr items => Ret items
  | _ => Throw (invalidCapability ("native " ++ name ++ " is invalid")%string)
  end.

Definition nonempty_text (v : jsval) : option string :=
  match v with
  | VStr s => if (0 <? String.length s)%nat then Some s else None
  | _ => None
  end.

Definition stringArray (value : jsval) (name : string) : result (list string) :=
  values ← array value name;
  match mapM nonempty_text values with
  | Some ss => Ret ss
  | None => Throw (invalidCapability ("native " ++ name ++ " is invalid")%string)
  end.

(** [enumValue]. *)
Definition enum_value `{Literal A} (value : jsval) (values : list A) : result A :=
  let err := invalidCapability "native capability enum value is invalid" in
  match value with
  | VStr s => match find (λ a, String.eqb (literal_name a) s) values with
              | Some a => Ret a | None => Throw err end
  | _ => Throw err
  end.

Definition requiredRecord (value : jsval) (name : string) : result (list (string * jsval)) :=
  match as_record value with
  | Some item => Ret item
  | None => Throw (invalidCapability (name ++ " is invalid")%string)
  end.

Definition managed_tool (name : string) : option ManagedToolName :=
  find (λ a, String.eqb (literal_name a) name) MANAGED_TOOL_NAMES.

Definition managedToolNames (value : jsval) : result (list ManagedToolName) :=
  names ← stringArray value "localToolNames";
  _ ← guard_throw (size (list_to_set names : gset string) =? length names)%nat
        (invalidCapability "native local tool names contain duplicates");
  map_throw (λ name, match managed_tool name with
    | Some a => Ret a
    | None => Throw (invalidCapability "native local tool name is not registered by the adaptor")
    end) names.

Definition parseAvailability (value : jsval) : result Availability :=
  item ← requiredRecord value "capability availability";
  let status := field item "status" in
  if bool_decide (status = VStr "available") then
    source ← enum_value (field item "source") [official; supplemental; provider_contract];
    Ret (available source)
  else if bool_decide (status = VStr "disabled") || bool_decide (status = VStr "unavailable") then
    match nonempty_text (field item "reason") with
    | None => Throw (invalidCapability "capability availability reason is invalid")
    | Some reason =>
        Ret (if bool_decide (status = VStr "disabled") then disabled reason else unavailable reason)
    end
  else Throw (invalidCapability "capability availability status is invalid").

Definition parseToolResolution (value : jsval) : result ResolvedToolCapability :=
  root ← requiredRecord value "native tools.resolve result";
  caps ← requiredRecord (field root "capabilities") "native capability evidence";
  mt ← array (field root "modelTools") "modelTools";
  dt ← array (field root "dispatchTools") "dispatchTools";
  local ← managedToolNames (field root "localToolNames");
  hosted ← stringArray (field root "hostedToolNames") "hostedToolNames";
  shell ← enum_value (field root "shellSurface") [unified_exec; shell_command; shell_disabled];
  session ← enum_value (field root "sessionSurface")
    [session_official; session_supplemental; session_disabled; session_unavailable];
  web ← enum_value (field root "webSurface")
    [web_standalone; web_hosted; web_disabled; web_unsupported];
  image ← enum_value (field root "imageGenerationSurface") [image_standalone; image_disabled];
  sessions ← parseAvailability (field caps "sessions");
  patch ← parseAvailability (field caps "applyPatch");
  view ← parseAvailability (field caps "viewImage");
  imagegen ← parseAvailability (field caps "imageGeneration");
  search ← parseAvailability (field caps "webSearch");
  Ret {| modelTools := mt; dispatchTools := dt; localToolNames := local;
         hostedToolNames := hosted; tool_shellSurface := shell; sessionSurface := session;
         webSurface := web; imageGenerationSurface := image;
         capabilities := {| ev_sessions := sessions; ev_applyPatch := patch;
           ev_viewImage := view; ev_imageGeneration := imagegen; ev_webSearch := search |} |}.
