(* ===== verification/EffectiveCapabilities.v ===== *)
(** * EffectiveCapabilities

    [src/src/application/resolve-effective-capabilities.ts]: the resolution
    of one model's capabilities through the native runtime, its cache, and the
    projections the settings use. *)

From S2P Require Import Prelude Config StructuredJson Compaction Capability.

(** ** Data *)

Definition SUPPLEMENTAL_SESSION_INSTRUCTIONS : string :=
  "Use shell_command for bounded commands. For commands expected to remain running after the initial yield or that require later input, use exec_command, retain its session_id, and poll or write through write_stdin until the process exits.".

Inductive CompactionImplementation := impl_remote_v2 | impl_compact_endpoint.
#[export] Instance CompactionImplementation_eq_dec : EqDecision CompactionImplementation.
Proof. solve_decision. Defined.

Record ShellCapability := {
  primary : ShellSurface;
  bounded : Availability;
  sessions : Availability;
  sh_sessionSurface : SessionSurface }.

Record CompactionCapability := {
  manual : Availability;
  automatic : Availability;
  modelThreshold : option jsnum;
  threshold : option jsnum;
  comp_implementation : option CompactionImplementation }.

Record EffectiveCapabilitySnapshot := {
  modelId : string;
  snap_model : list (string * jsval);
  snap_bridgeCapabilities : list string;
  providerContract : CompleteCodexProviderContract;
  snap_providerSupportsWebsockets : bool;
  snap_modelTools : list jsval;
  snap_dispatchTools : list jsval;
  localTools : list ManagedToolName;
  hostedTools : list string;
  shell : ShellCapability;
  applyPatch : Availability;
  snap_viewImage : Availability;
  snap_imageGeneration : Availability;
  snap_webSearch : Availability;
  snap_webSurface : WebSurface;
  snap_compaction : CompactionCapability;
  transport : Availability }.

Inductive Modality := modality_text | modality_image.
#[export] Instance Modality_eq_dec : EqDecision Modality. Proof. solve_decision. Defined.

Record ResolveEffectiveCapabilitiesInput := {
  in_modelId : string;
  in_providerId : string;
  modelInputModalities : list Modality;
  in_config : CodexConfig;
  in_contextWindow : option jsnum;
  hostToolNames : option (list ManagedToolName) }.

(** The native runtime: what its three calls answer. [readDiagnostics] is an
    optional method. *)
Record CodexRuntime := {
  readDiagnostics : option (result jsval);
  resolveModel : string → result jsval;
  resolveTools : jsval → result jsval }.

(** ** Resolution *)

Definition parseBridgeCapabilities (value : option jsval) : result (list string) :=
  match value ≫= as_record with
  | None => Throw (other_error "Verified bridge diagnostics are unavailable")
  | Some fs =>
      let err := other_error "Verified bridge capability identity is unavailable" in
      match field fs "capabilities" with
      | VArr items => match mapM nonempty_text items with
                      | Some ss => Ret (dedup [] ss) | None => Throw err end
      | _ => Throw err
      end
  end.

Definition resolveThreshold (config : CodexConfig) (modelThreshold : option jsnum)
    (contextWindow : option jsnum) : option jsnum :=
  match compaction (codex config) with
  | compaction_off => None
  | compaction_auto limit =>
      let value := match limit with limit_tokens n => Some n | limit_model => modelThreshold end in
      match value with
      | None => None
      | Some v =>
          if num_leb v 0%Z then None else
          match contextWindow with
          | Some w => if num_geb v w then None else Some v
          | None => Some v
          end
      end
  end.

Definition requireBridge (value : Availability) (bridge : list string) (capability : string)
    : Availability :=
  if is_available value && negb (js_elem capability bridge)
  then unavailable (capability ++ "_executor_unavailable")%string else value.

Definition requireEitherBridge (value : Availability) (bridge : list string)
    (first second : string) : Availability :=
  if is_available value && negb (js_elem first bridge) && negb (js_elem second bridge)
  then unavailable "web_search_executor_unavailable" else value.

Definition allowed_tools (input : ResolveEffectiveCapabilitiesInput) : list ManagedToolName :=
  let names := default MANAGED_TOOL_NAMES (hostToolNames input) in
  if bool_decide (modality_image ∈ modelInputModalities input) then names
  else filter (λ n, n ≠ view_image ∧ n ≠ image_gen_imagegen) names.

Definition resolve_options (input : ResolveEffectiveCapabilitiesInput) (bridge : list string)
    : ToolsResolveHostOptions :=
  let config := in_config input in {|
  opt_providerId := in_providerId input;
  allowedLocalToolNames := allowed_tools input;
  opt_webSearchMode := webSearch_mode (codex config);
  opt_viewImage := bool_decide (viewImage (optional_tools (tools config)) = auto);
  opt_imageGeneration := bool_decide (imageGeneration (optional_tools (tools config)) = auto);
  opt_backgroundSessions :=
    backgroundSessions (tools config) && js_elem "unified_exec" bridge;
  opt_bridgeCapabilities := bridge;
  allowLoginShell := None;
  execPermissionApprovalsEnabled := None |}.

Definition implementation_of (bridge : list string) : option CompactionImplementation :=
  if js_elem "remote_compaction_v2" bridge || js_elem "compact_endpoint" bridge then
    Some (if js_elem "remote_compaction_v2" bridge then impl_remote_v2 else impl_compact_endpoint)
  else None.

Definition manual_compaction (config : CodexConfig) (implementation : option CompactionImplementation)
    : Availability :=
  match compaction (codex config) with
  | compaction_off => disabled "disabled_by_configuration"
  | compaction_auto _ =>
      match implementation with
      | None => unavailable "compaction_executor_unavailable"
      | Some _ => available provider_contract
      end
  end.

Definition automatic_compaction (manual : Availability) (threshold : option jsnum) : Availability :=
  if negb (is_available manual) then manual else
  match threshold with
  | None => unavailable "auto_compact_threshold_unavailable"
  | Some _ => available official
  end.

Definition bounded_shell (surface : ShellSurface) (bridge : list string) : Availability :=
  match surface with
  | shell_disabled => unavailable "model_shell_disabled"
  | unified_exec => if js_elem "unified_exec" bridge then available official
                    else unavailable "shell_executor_unavailable"
  | shell_command => if js_elem "shell_command" bridge then available official
                     else unavailable "shell_executor_unavailable"
  end.

(** The private method [#resolve]. *)
Definition resolve_uncached (runtime : CodexRuntime) (input : ResolveEffectiveCapabilitiesInput)
    : result EffectiveCapabilitySnapshot :=
  nativeDiagnostics ← match readDiagnostics runtime with
    | None => Ret None | Some r => Some <$> r end;
  bridge ← parseBridgeCapabilities nativeDiagnostics;
  modelAnswer ← resolveModel runtime (in_modelId input);
  modelResolution ← parseModelResolution modelAnswer (in_modelId input);
  toolsAnswer ← resolveTools runtime
    (buildToolsResolveParams modelResolution (resolve_options input bridge));
  tools ← parseToolResolution toolsAnswer;
  let config := in_config input in
  let requestedSessionExecutorMissing :=
    backgroundSessions (Config.tools config) && negb (js_elem "unified_exec" bridge) in
  let providerContract := completeProviderContract (in_providerId input) in
  let providerSupportsWebsockets :=
    bool_decide (responsesWebsocket providerContract = ws_official_only) &&
    js_elem "responses_websocket" bridge && String.eqb (in_providerId input) "openai-codex" in
  let transport := if js_elem "responses_sse" bridge then available provider_contract
                   else unavailable "responses_sse_executor_unavailable" in
  let implementation := implementation_of bridge in
  let manualCompaction := manual_compaction config implementation in
  let threshold := resolveThreshold config (autoCompactTokenLimit modelResolution)
                     (in_contextWindow input) in
  Ret {| modelId := in_modelId input;
         snap_model := model modelResolution;
         snap_bridgeCapabilities := bridge;
         providerContract := providerContract;
         snap_providerSupportsWebsockets := providerSupportsWebsockets;
         snap_modelTools := modelTools tools;
         snap_dispatchTools := dispatchTools tools;
         localTools := localToolNames tools;
         hostedTools := hostedToolNames tools;
         shell := {|
           primary := tool_shellSurface tools;
           bounded := bounded_shell (tool_shellSurface tools) bridge;
           sessions := if requestedSessionExecutorMissing
                       then unavailable "session_executor_unavailable"
                       else ev_sessions (capabilities tools);
           sh_sessionSurface := if requestedSessionExecutorMissing
                                then session_unavailable else sessionSurface tools |};
         applyPatch := requireBridge (ev_applyPatch (capabilities tools)) bridge "apply_patch";
         snap_viewImage := requireBridge (ev_viewImage (capabilities tools)) bridge "view_image";
         snap_imageGeneration :=
           requireBridge (ev_imageGeneration (capabilities tools)) bridge "image_generation";
         snap_webSearch := requireEitherBridge (ev_webSearch (capabilities tools)) bridge
                             "standalone_web_search" "hosted_web_search";
         snap_webSurface := webSurface tools;
         snap_compaction := {|
           manual := manualCompaction;
           automatic := automatic_compaction manualCompaction threshold;
           modelThreshold := autoCompactTokenLimit modelResolution;
           threshold := threshold;
           comp_implementation := implementation |};
         transport := transport |}.

(** ** The cache

    [capabilityCacheKey] is kept as the value whose JSON text is the key. *)

Definition opt_num (n : option jsnum) : jsval :=
  match n with Some n => if is_finite n then VNum n else VNull | None => VNull end.

Definition capabilityCacheKey (input : ResolveEffectiveCapabilitiesInput) : jsval :=
  let config := in_config input in
  let compaction := compaction (codex config) in
  VArr [
    VStr (in_modelId input);
    VStr (in_providerId input);
    VBool (bool_decide (modality_image ∈ modelInputModalities input));
    opt_num (in_contextWindow input);
    VArr (lit <$> default MANAGED_TOOL_NAMES (hostToolNames input));
    VObj [
      ("webSearchMode", lit (webSearch_mode (codex config)));
      ("viewImage", lit (viewImage (optional_tools (tools config))));
      ("imageGeneration", lit (imageGeneration (optional_tools (tools config))));
      ("backgroundSessions", VBool (backgroundSessions (tools config)));
      ("compactionMode", lit (compaction_mode compaction));
      ("autoCompactTokenLimit", match compaction with
         | compaction_auto (limit_tokens n) => opt_num (Some n)
         | compaction_auto limit_model => VStr "model"
         | compaction_off => VNull end)]].

(** A promise of the cache: the input it resolves and how it settled. *)
Inductive settled := pending | fulfilled (s : EffectiveCapabilitySnapshot) | rejected (e : CapabilityError).

Record promise := { p_input : ResolveEffectiveCapabilitiesInput; p_state : settled }.

(** Promises are numbered in the order they are created. *)
Record resolver := { cache : list (jsval * nat); promises : list promise }.

Definition new_resolver : resolver := {| cache := []; promises := [] |}.

Fixpoint cache_get (c : list (jsval * nat)) (k : jsval) : option nat :=
  match c with
  | [] => None
  | (k', p) :: c => if bool_decide (k' = k) then Some p else cache_get c k
  end.
Definition cache_delete (c : list (jsval * nat)) (k : jsval) : list (jsval * nat) :=
  filter (λ kp, kp.1 ≠ k) c.

(** [resolve]: the cached promise of the key, or a new one. *)
Definition resolve (input : ResolveEffectiveCapabilitiesInput) (r : resolver) : nat * resolver :=
  let key := capabilityCacheKey input in
  match cache_get (cache r) key with
  | Some p => (p, r)
  | None =>
      let p := length (promises r) in
      (p, {| cache := (key, p) :: cache r;
             promises := promises r ++ [{| p_input := input; p_state := pending |}] |})
  end.

Definition invalidate (r : resolver) : resolver := {| cache := []; promises := promises r |}.

(** A pending promise settles; the [catch] handler deletes its key before the
    rejection is seen. *)
Definition settle (p : nat) (answer : result EffectiveCapabilitySnapshot) (r : resolver) : resolver :=
  match promises r !! p with
  | Some {| p_input := input; p_state := pending |} =>
      match answer with
      | Ret s => {| cache := cache r;
                    promises := <[p := {| p_input := input; p_state := fulfilled s |}]> (promises r) |}
      | Throw e => {| cache := cache_delete (cache r) (capabilityCacheKey input);
                      promises := <[p := {| p_input := input; p_state := rejected e |}]> (promises r) |}
      end
  | _ => r
  end.

(** ** Projections *)

Definition capabilityContextFromSnapshot (snapshot : EffectiveCapabilitySnapshot)
    (window : option jsnum) : ConfigCapabilityContext := {|
  contextWindow := window;
  modelAutoCompactTokenLimit := Some (modelThreshold (snap_compaction snapshot));
  bridgeCapabilities := Some (snap_bridgeCapabilities snapshot);
  shellSurface := Some (primary (shell snapshot));
  backgroundSessionsAvailable :=
    Some (js_elem "unified_exec" (snap_bridgeCapabilities snapshot) &&
          negb (bool_decide (sh_sessionSurface (shell snapshot) = session_unavailable)));
  viewImageAvailable := Some (is_available (snap_viewImage snapshot));
  imageGenerationAvailable := Some (is_available (snap_imageGeneration snapshot));
  webSearchAvailable := Some (is_available (snap_webSearch snapshot));
  manualCompactionAvailable := Some (is_available (manual (snap_compaction snapshot)));
  transportAvailable := Some (is_available (transport snapshot));
  providerSupportsWebsockets := Some (snap_providerSupportsWebsockets snapshot);
  remoteCompactionV2 :=
    Some (bool_decide (comp_implementation (snap_compaction snapshot) = Some impl_remote_v2));
  compactEndpoint :=
    Some (bool_decide (comp_implementation (snap_compaction snapshot) = Some impl_compact_endpoint)) |}.

Definition withSupplementalSessionInstructions (instructions : string)
    (snapshot : EffectiveCapabilitySnapshot) : string :=
  if negb (bool_decide (sh_sessionSurface (shell snapshot) = session_supplemental))
  then instructions
  else if includes SUPPLEMENTAL_SESSION_INSTRUCTIONS instructions then instructions
  else if (String.length instructions =? 0)%nat then SUPPLEMENTAL_SESSION_INSTRUCTIONS
  else (instructions ++ String (ascii_of_N 10) (String (ascii_of_N 10)
          SUPPLEMENTAL_SESSION_INSTRUCTIONS))%string.

(** * What a resolution promises

    A resolved snapshot offers only what the bridge can execute, the cache key
    covers everything a resolution depends on, the cache never answers with a
    failed or foreign resolution, and the save gate agrees with the resolver. *)

(** ** Inversion of a resolution *)

Lemma resolve_inversion rt input s :
  resolve_uncached rt input = Ret s →
  ∃ diag answer m bridge toolsAnswer t,
    parseBridgeCapabilities diag = Ret bridge ∧
    parseModelResolution answer (in_modelId input) = Ret m ∧
    parseToolResolution toolsAnswer = Ret t ∧
    s = {| modelId := in_modelId input; snap_model := model m; snap_bridgeCapabilities := bridge;
           providerContract := completeProviderContract (in_providerId input);
           snap_providerSupportsWebsockets := snap_providerSupportsWebsockets s;
           snap_modelTools := modelTools t; snap_dispatchTools := dispatchTools t;
           localTools := localToolNames t; hostedTools := hostedToolNames t;
           shell := shell s;
           applyPatch := requireBridge (ev_applyPatch (capabilities t)) bridge "apply_patch";
           snap_viewImage := requireBridge (ev_viewImage (capabilities t)) bridge "view_image";
           snap_imageGeneration :=
             requireBridge (ev_imageGeneration (capabilities t)) bridge "image_generation";
           snap_webSearch := requireEitherBridge (ev_webSearch (capabilities t)) bridge
                               "standalone_web_search" "hosted_web_search";
           snap_webSurface := webSurface t;
           snap_compaction :=
             let man := manual_compaction (in_config input) (implementation_of bridge) in
             let th := resolveThreshold (in_config input) (autoCompactTokenLimit m)
                         (in_contextWindow input) in
             {| manual := man; automatic := automatic_compaction man th;
                modelThreshold := autoCompactTokenLimit m; threshold := th;
                comp_implementation := implementation_of bridge |};
           transport := if js_elem "responses_sse" bridge then available provider_contract
                        else unavailable "responses_sse_executor_unavailable" |} ∧
    bounded (shell s) = bounded_shell (tool_shellSurface t) bridge ∧
    primary (shell s) = tool_shellSurface t ∧
    sh_sessionSurface (shell s) =
      (if backgroundSessions (Config.tools (in_config input)) && negb (js_elem "unified_exec" bridge)
       then session_unavailable else sessionSurface t) ∧
    sessions (shell s) =
      (if backgroundSessions (Config.tools (in_config input)) && negb (js_elem "unified_exec" bridge)
       then unavailable "session_executor_unavailable" else ev_sessions (capabilities t)).
Proof.
  unfold resolve_uncached. intros Hr.
  apply bind_ret_iff in Hr as (diag & _ & Hr). apply bind_ret_iff in Hr as (bridge & Hb & Hr).
  apply bind_ret_iff in Hr as (answer & _ & Hr). apply bind_ret_iff in Hr as (m & Hm & Hr).
  apply bind_ret_iff in Hr as (ta & _ & Hr). apply bind_ret_iff in Hr as (t & Ht & [= <-]).
  exists diag, answer, m, bridge, ta, t. by split_and!.
Qed.

(** ** What is offered can be executed *)

Lemma requireBridge_available v bridge c :
  is_available (requireBridge v bridge c) = true → c ∈ bridge.
Proof.
  unfold requireBridge. destruct (is_available v && _) eqn:H; [done|]. intros Hv.
  rewrite Hv in H. apply negb_false_iff in H. by apply js_elem_spec.
Qed.

Lemma requireEitherBridge_available v bridge c d :
  is_available (requireEitherBridge v bridge c d) = true → c ∈ bridge ∨ d ∈ bridge.
Proof.
  unfold requireEitherBridge. destruct (is_available v && _ && _) eqn:H; [done|]. intros Hv.
  rewrite Hv in H. simpl in H. apply andb_false_iff in H.
  rewrite !negb_false_iff, !js_elem_spec in H. done.
Qed.

(** everything a resolved snapshot reports as available has an executor
    the bridge advertises, whatever the native evidence says: bounded
    commands, patches, images, web search, compaction and the transport; and a
    snapshot whose sessions the user asked for but the bridge cannot run
    reports them unavailable. *)
Theorem available_has_executor rt input s :
  resolve_uncached rt input = Ret s →
  let has c := c ∈ snap_bridgeCapabilities s in
  (is_available (bounded (shell s)) = true → has "unified_exec" ∨ has "shell_command") ∧
  (is_available (applyPatch s) = true → has "apply_patch") ∧
  (is_available (snap_viewImage s) = true → has "view_image") ∧
  (is_available (snap_imageGeneration s) = true → has "image_generation") ∧
  (is_available (snap_webSearch s) = true →
     has "standalone_web_search" ∨ has "hosted_web_search") ∧
  (is_available (manual (snap_compaction s)) = true →
     has "remote_compaction_v2" ∨ has "compact_endpoint") ∧
  (is_available (transport s) = true → has "responses_sse") ∧
  (backgroundSessions (Config.tools (in_config input)) = true → ¬ has "unified_exec" →
     is_available (sessions (shell s)) = false).
Proof.
  intros (diag & answer & m & bridge & ta & t & _ & _ & _ & -> & Hbounded & _ & _ & Hs)%resolve_inversion.
  rewrite Hbounded, Hs. simpl. split_and!.
  - unfold bounded_shell. destruct (tool_shellSurface t); [..|done].
    + destruct (js_elem "unified_exec" bridge) eqn:He; [|done]. apply js_elem_spec in He. auto.
    + destruct (js_elem "shell_command" bridge) eqn:He; [|done]. apply js_elem_spec in He. auto.
  - apply requireBridge_available.
  - apply requireBridge_available.
  - apply requireBridge_available.
  - apply requireEitherBridge_available.
  - unfold manual_compaction, implementation_of. destruct (compaction _); [done|].
    destruct (js_elem "remote_compaction_v2" bridge) eqn:H1; simpl;
      [apply js_elem_spec in H1; auto|].
    destruct (js_elem "compact_endpoint" bridge) eqn:H2; simpl; [apply js_elem_spec in H2; auto|done].
  - destruct (js_elem "responses_sse" bridge) eqn:He; [|done]. intros _. by apply js_elem_spec.
  - intros -> Hn%js_elem_false. by rewrite Hn.
Qed.

(** A native runtime that answers with the given capabilities. *)
Definition sample_runtime (caps : list string) : CodexRuntime :=
  let ok := VObj [("status", VStr "available"); ("source", VStr "official")] in {|
  readDiagnostics := Some (Ret (VObj [("capabilities", VArr (VStr <$> caps))]));
  resolveModel := λ m, Ret (VObj [("model", VObj [("slug", VStr m)]);
    ("shellSurface", VStr "shell-command"); ("autoCompactTokenLimit", VNum 900%Z)]);
  resolveTools := λ _, Ret (VObj [("modelTools", VArr []); ("dispatchTools", VArr []);
    ("localToolNames", VArr [VStr "shell_command"]); ("hostedToolNames", VArr []);
    ("shellSurface", VStr "shell-command"); ("sessionSurface", VStr "supplemental");
    ("webSurface", VStr "disabled"); ("imageGenerationSurface", VStr "disabled");
    ("capabilities", VObj [("sessions", ok); ("applyPatch", ok); ("viewImage", ok);
       ("imageGeneration", ok); ("webSearch", ok)])]) |}.

Definition sample_input : ResolveEffectiveCapabilitiesInput := {|
  in_modelId := "m"; in_providerId := "openai-codex"; modelInputModalities := [modality_text];
  in_config := createDefaultConfig; in_contextWindow := Some (num_of_Z 1000);
  hostToolNames := None |}.

Definition sample_caps : list string := ["shell_command"; "responses_sse"; "compact_endpoint"].

Definition sample_snapshot : EffectiveCapabilitySnapshot :=
  Eval vm_compute in
    match resolve_uncached (sample_runtime sample_caps) sample_input with
    | Ret s => s
    | Throw _ => {| modelId := ""; snap_model := []; snap_bridgeCapabilities := [];
        providerContract := completeProviderContract ""; snap_providerSupportsWebsockets := false;
        snap_modelTools := []; snap_dispatchTools := []; localTools := []; hostedTools := [];
        shell := {| primary := shell_disabled; bounded := disabled ""; sessions := disabled "";
                    sh_sessionSurface := session_disabled |};
        applyPatch := disabled ""; snap_viewImage := disabled ""; snap_imageGeneration := disabled "";
        snap_webSearch := disabled ""; snap_webSurface := web_disabled;
        snap_compaction := {| manual := disabled ""; automatic := disabled "";
           modelThreshold := None; threshold := None; comp_implementation := None |};
        transport := disabled "" |}
    end.

Lemma sample_resolves :
  resolve_uncached (sample_runtime sample_caps) sample_input = Ret sample_snapshot.
Proof. vm_compute. reflexivity. Qed.

Lemma available_has_executor_witness :
  is_available (bounded (shell sample_snapshot)) = true ∧
  "shell_command" ∈ snap_bridgeCapabilities sample_snapshot ∧
  is_available (sessions (shell sample_snapshot)) = false.
Proof.
  destruct (available_has_executor _ _ _ sample_resolves) as (_ & _ & _ & _ & _ & _ & _ & Hs).
  split_and!; [reflexivity|by apply js_elem_spec|].
  apply Hs; [reflexivity|]. by apply js_elem_false.
Defined.

(** ** The cache key *)

Lemma opt_num_inj a b :
  from_option is_finite true a = true → from_option is_finite true b = true →
  opt_num a = opt_num b → a = b.
Proof. destruct a as [a|], b as [b|]; simpl; intros; repeat case_match; naive_solver. Qed.

(** Numbers JSON keeps: a window and a token limit that are finite. *)
Definition finite_input (input : ResolveEffectiveCapabilitiesInput) : Prop :=
  from_option is_finite true (in_contextWindow input) = true ∧
  match compaction (codex (in_config input)) with
  | compaction_auto (limit_tokens n) => is_finite n = true
  | _ => True
  end.

Lemma lit_inj `{Literal A} (a b : A) : lit a = lit b → a = b.
Proof. unfold lit. intros [= ?%(inj literal_name)]. done. Qed.

Lemma lits_inj `{Literal A} (l k : list A) : lit <$> l = lit <$> k → l = k.
Proof.
  revert k; induction l as [|a l IH]; intros [|b k] Heq; try done.
  injection Heq as Hab Hl. f_equal; [|by apply IH]. by apply (inj literal_name).
Qed.

Record same_projection (i j : ResolveEffectiveCapabilitiesInput) : Prop := {
  sp_model : in_modelId i = in_modelId j;
  sp_provider : in_providerId i = in_providerId j;
  sp_image : bool_decide (modality_image ∈ modelInputModalities i) =
             bool_decide (modality_image ∈ modelInputModalities j);
  sp_window : in_contextWindow i = in_contextWindow j;
  sp_hosts : default MANAGED_TOOL_NAMES (hostToolNames i) = default MANAGED_TOOL_NAMES (hostToolNames j);
  sp_web : webSearch_mode (codex (in_config i)) = webSearch_mode (codex (in_config j));
  sp_view : viewImage (optional_tools (Config.tools (in_config i))) =
            viewImage (optional_tools (Config.tools (in_config j)));
  sp_imagegen : imageGeneration (optional_tools (Config.tools (in_config i))) =
            imageGeneration (optional_tools (Config.tools (in_config j)));
  sp_sessions : backgroundSessions (Config.tools (in_config i)) =
            backgroundSessions (Config.tools (in_config j));
  sp_compaction : compaction (codex (in_config i)) = compaction (codex (in_config j)) }.

Lemma key_projection i j :
  finite_input i → finite_input j → capabilityCacheKey i = capabilityCacheKey j →
  same_projection i j.
Proof.
  intros [Hwi Hli] [Hwj Hlj] Hk. unfold capabilityCacheKey in Hk.
  injection Hk as Hm Hp Himg Hw Hh Hweb Hv Hig Hbs Hmode Hlim.
  constructor; try done; try (by apply (inj literal_name)).
  - by apply opt_num_inj.
  - by apply lits_inj.
  - destruct (compaction (codex (in_config i))) as [|[|n]],
      (compaction (codex (in_config j))) as [|[|n']]; simpl in *; try done;
      rewrite ?Hli, ?Hlj in Hlim; simplify_eq; done.
Qed.

Lemma same_projection_resolves rt i j :
  same_projection i j → resolve_uncached rt i = resolve_uncached rt j.
Proof.
  intros [Hm Hp Himg Hw Hh Hweb Hv Hig Hbs Hc].
  unfold resolve_uncached, resolve_options, allowed_tools, manual_compaction, resolveThreshold.
  by rewrite Hm, Hp, Himg, Hw, Hh, Hweb, Hv, Hig, Hbs, Hc.
Qed.

(** two inputs with the same cache key resolve to the same snapshot or
    the same error against the same runtime: the key covers everything the
    resolution reads (for finite windows and limits; JSON drops the others). *)
Theorem cache_key_determines_resolution rt i j :
  finite_input i → finite_input j → capabilityCacheKey i = capabilityCacheKey j →
  resolve_uncached rt i = resolve_uncached rt j.
Proof. intros Hi Hj Hk. by apply same_projection_resolves, key_projection. Qed.

Lemma cache_key_determines_resolution_witness :
  let j := {| in_modelId := "m"; in_providerId := "openai-codex";
              modelInputModalities := [modality_text; modality_text];
              in_config := createDefaultConfig; in_contextWindow := Some (num_of_Z 1000);
              hostToolNames := Some MANAGED_TOOL_NAMES |} in
  resolve_uncached (sample_runtime sample_caps) sample_input =
  resolve_uncached (sample_runtime sample_caps) j.
Proof. apply cache_key_determines_resolution; [split; done|split; done|reflexivity]. Defined.

(** ** The cache *)

Inductive resolver_op :=
| RResolve (input : ResolveEffectiveCapabilitiesInput)
| RInvalidate
| RSettle (p : nat) (answer : result EffectiveCapabilitySnapshot).

Definition resolver_step (op : resolver_op) (r : resolver) : resolver :=
  match op with
  | RResolve input => (resolve input r).2
  | RInvalidate => invalidate r
  | RSettle p answer => settle p answer r
  end.

Definition resolver_run (ops : list resolver_op) (r : resolver) : resolver :=
  fold_left (λ r op, resolver_step op r) ops r.

(** Each entry of the cache is a promise of its key that has not failed. *)
Definition coherent (r : resolver) : Prop :=
  ∀ k p, (k, p) ∈ cache r → ∃ pr, promises r !! p = Some pr ∧
    capabilityCacheKey (p_input pr) = k ∧ ∀ e, p_state pr ≠ rejected e.

Lemma cache_get_elem c k p : cache_get c k = Some p → (k, p) ∈ c.
Proof.
  induction c as [|[k' p'] c IH]; simpl; [done|]. case_bool_decide as Hk.
  - intros [= ->]. subst. by left.
  - intros ?. right. auto.
Qed.

Lemma settle_lookup p answer r q pr :
  promises (settle p answer r) !! q = Some pr →
  ∃ pr', promises r !! q = Some pr' ∧ p_input pr' = p_input pr.
Proof.
  unfold settle. destruct (promises r !! p) as [[i []]|] eqn:Hp; eauto.
  destruct answer; simpl; rewrite list_lookup_insert_Some; intros [(-> & <- & _)|[_ ?]]; eauto.
Qed.

Lemma coherent_step op r : coherent r → coherent (resolver_step op r).
Proof.
  intros Hr. destruct op as [input| |p answer]; simpl.
  - unfold resolve. destruct (cache_get _ _); [done|]. intros k p. simpl.
    rewrite elem_of_cons. intros [[= -> ->]|Hin].
    + eexists. split; [by apply list_lookup_middle|]. done.
    + destruct (Hr k p Hin) as (pr & Hp & ?). exists pr. split; [|done].
      by apply lookup_app_l_Some.
  - intros k p Hin. simpl in Hin. by apply elem_of_nil in Hin.
  - unfold settle. destruct (promises r !! p) as [[i []]|] eqn:Hp; [|done..].
    assert (Hlen : p < length (promises r)) by (by eapply lookup_lt_Some).
    destruct answer as [s|e]; intros k q; simpl.
    + intros Hin. destruct (Hr k q Hin) as (pr & Hq & Hk & Hne).
      destruct (decide (p = q)) as [<-|Hpq].
      * rewrite list_lookup_insert_eq by done. eexists. split; [done|]. simplify_eq/=. done.
      * rewrite list_lookup_insert_ne by done. eauto.
    + unfold cache_delete. rewrite list_elem_of_filter. simpl. intros [Hne Hin].
      destruct (Hr k q Hin) as (pr & Hq & Hk & Hok).
      destruct (decide (p = q)) as [<-|Hpq]; [simplify_eq/=; done|].
      rewrite list_lookup_insert_ne by done. eauto.
Qed.

Lemma coherent_run ops r : coherent r → coherent (resolver_run ops r).
Proof. revert r; induction ops as [|op ops IH]; intros r Hr; [done|]. by apply IH, coherent_step. Qed.

(** whatever was resolved, settled and invalidated before, [resolve]
    returns a promise that has not failed and that resolves an input with the
    same key, so a failed resolution is retried by the next call; and asking
    again before anything settles returns the very same promise. *)
Theorem resolve_is_coherent ops input :
  let r := resolver_run ops new_resolver in
  let '(p, r') := resolve input r in
  (∃ pr, promises r' !! p = Some pr ∧ capabilityCacheKey (p_input pr) = capabilityCacheKey input ∧
         ∀ e, p_state pr ≠ rejected e) ∧
  resolve input r' = (p, r').
Proof.
  intros r. assert (Hr : coherent r).
  { apply coherent_run. intros k p Hin. by apply elem_of_nil in Hin. }
  unfold resolve. destruct (cache_get (cache r) _) as [p|] eqn:Hc.
  - rewrite Hc. split; [|done]. by apply cache_get_elem, Hr in Hc.
  - simpl. rewrite bool_decide_eq_true_2 by done. split; [|done].
    eexists. split; [by apply list_lookup_middle|]. done.
Qed.

(** ** Thresholds *)

Lemma safe_integer_finite n : is_safe_integer n = true → is_finite n = true ∧ num_trunc n = n.
Proof.
  intros (z & -> & _)%is_safe_integer_spec. split; [done|]. by rewrite num_trunc_Z.
Qed.

Lemma num_geb_ltb (a b : jsnum) :
  is_finite a = true → is_finite b = true → num_ltb a b = negb (num_geb a b).
Proof. intros. apply num_total; by destruct a, b. Qed.

(** on a validated configuration, an integral model limit and a positive
    finite window, the two threshold computations of the program agree. *)
Theorem thresholds_agree config limit window :
  valid_config config →
  from_option is_safe_integer true limit = true →
  is_finite window = true → num_ltb 0%Z window = true →
  resolveCompactionThreshold (compaction (codex config)) limit window =
  resolveThreshold config limit (Some window).
Proof.
  intros [_ Hv] Hl Hw Hpos. unfold resolveCompactionThreshold, resolveThreshold.
  destruct (compaction (codex config)) as [|l]; [done|]. rewrite Hw.
  assert (num_leb window 0%Z = false) as ->.
  { rewrite num_total in Hpos by (by destruct window). by apply negb_true_iff in Hpos. }
  simpl.
  assert (Hc : ∀ c, is_safe_integer c = true →
    (if negb (is_finite c) || num_leb c 0%Z then None
     else if num_ltb (num_trunc c) window then Some (num_trunc c) else None) =
    (if num_leb c 0%Z then None else if num_geb c window then None else Some c)).
  { intros c Hc. apply safe_integer_finite in Hc as [Hf ->]. rewrite Hf. simpl.
    destruct (num_leb c _); [done|]. rewrite num_geb_ltb by done. by destruct (num_geb c window). }
  destruct l as [|n]; [destruct limit as [c|]; [by apply Hc|done]|].
  apply Hc. unfold valid_compaction, valid_limit in Hv. by apply andb_true_iff in Hv as [? _].
Qed.

Lemma valid_default : valid_config createDefaultConfig.
Proof. split; [|done]. split_and!; [done|by repeat constructor|apply NoDup_singleton]. Qed.

Lemma thresholds_agree_witness :
  resolveCompactionThreshold (compaction (codex createDefaultConfig)) (Some (num_of_Z 900)) (num_of_Z 1000) =
  resolveThreshold createDefaultConfig (Some (num_of_Z 900)) (Some (num_of_Z 1000)).
Proof. by apply thresholds_agree; [apply valid_default|..]. Defined.

(** ** The save gate and the resolver *)

Lemma pushed_bind_nil {A B} (m : W A) (f : A → W B) :
  pushed (m ≫= f) = [] → pushed m = [] ∧ pushed (f (Config.result m)) = [].
Proof. unfold mbind, W_bind. simpl. intros H%app_nil. exact H. Qed.

Lemma when_issue_nil b p k m : pushed (when b (issue p k m)) = [] → b = false.
Proof. by destruct b. Qed.

Lemma gate_facts config context :
  pushed (collectCapabilityIssues config context) = [] →
  bool_decide (compaction_mode (compaction (codex config)) = mode_auto) &&
    is_false (manualCompactionAvailable context) = false ∧
  match compaction (codex config), contextWindow context with
  | compaction_auto (limit_tokens n), Some w =>
      negb (is_safe_integer w) || num_leb w 0%Z || num_geb n w
  | _, _ => false
  end = false ∧
  match compaction (codex config), modelAutoCompactTokenLimit context with
  | compaction_auto limit_model, Some None => true
  | _, _ => false
  end = false.
Proof.
  unfold collectCapabilityIssues. intros Hg.
  apply pushed_bind_nil in Hg as [_ Hg]. apply pushed_bind_nil in Hg as [_ Hg].
  apply pushed_bind_nil in Hg as [Hman%when_issue_nil Hg]. apply pushed_bind_nil in Hg as [_ Hg].
  apply pushed_bind_nil in Hg as [Hlim%when_issue_nil Hg].
  apply pushed_bind_nil in Hg as [Hmod%when_issue_nil _].
  split_and!; [exact Hman|exact Hlim|]. revert Hmod.
  by destruct (compaction (codex config)) as [|[|]], (modelAutoCompactTokenLimit context) as [[]|].
Qed.

Lemma positive_integer_Z n : is_safe_integer n = true → num_gtb n 0%Z = true → num_leb n 0%Z = false.
Proof.
  intros (z & -> & _)%is_safe_integer_spec. unfold num_gtb. rewrite num_ltb_Z, num_leb_Z.
  intros ?. bool_to_prop. lia.
Qed.

Lemma parsed_limit_positive v id m l :
  parseModelResolution v id = Ret m → autoCompactTokenLimit m = Some l → num_leb l 0%Z = false.
Proof.
  unfold parseModelResolution. destruct (as_record v) as [root|]; [|done].
  destruct (as_record (field root "model")) as [fs|]; [|done]. destruct (negb _); [done|].
  rewrite bind_ret_iff. intros (surface & _ & (lim & Hp & [= <-])%bind_ret_iff) Hl. simpl in Hl.
  subst lim. unfold parseAutoCompactTokenLimit in Hp.
  destruct (field root "autoCompactTokenLimit") as [| | |n| | | |]; try done.
  destruct (is_safe_integer n && num_gtb n 0%Z) eqn:Hn; [|done]. injection Hp as ->.
  apply andb_true_iff in Hn as [??]. by apply positive_integer_Z.
Qed.

(** a configuration the save gate lets through, against the snapshot
    resolved for that very configuration, has automatic compaction available
    whenever it asks for it: an executor exists and the threshold is set and
    below the window.  (For the model's own limit, provided that limit is below
    the window, which the gate does not check.) *)
Theorem saved_compaction_is_available rt input s :
  resolve_uncached rt input = Ret s →
  valid_config (in_config input) →
  pushed (collectCapabilityIssues (in_config input)
            (capabilityContextFromSnapshot s (in_contextWindow input))) = [] →
  compaction_mode (compaction (codex (in_config input))) = mode_auto →
  (compaction (codex (in_config input)) = compaction_auto limit_model →
     ∀ l w, modelThreshold (snap_compaction s) = Some l → in_contextWindow input = Some w →
     num_geb l w = false) →
  is_available (automatic (snap_compaction s)) = true ∧
  ∃ t, threshold (snap_compaction s) = Some t ∧
       ∀ w, in_contextWindow input = Some w → num_geb t w = false.
Proof.
  intros Hr [_ Hv] Hg Hauto Hmodel. apply gate_facts in Hg as (Hman & Hlim & Hmod).
  apply resolve_inversion in Hr as (diag & answer & m & bridge & ta & t & _ & Hm & _ & Hs & _).
  pose proof (λ l, parsed_limit_positive _ _ _ l Hm) as Hml.
  assert (Hman' : is_available (manual (snap_compaction s)) = true).
  { rewrite (bool_decide_eq_true_2 _ Hauto) in Hman. simpl in Hman. unfold is_false in Hman.
    apply bool_decide_eq_false in Hman. destruct (is_available _); congruence. }
  rewrite Hs in Hlim, Hmod, Hman', Hmodel |- *. simpl in *.
  destruct (compaction (codex (in_config input))) as [|l] eqn:Hc; [done|].
  assert (∃ v, resolveThreshold (in_config input) (autoCompactTokenLimit m) (in_contextWindow input)
                 = Some v ∧ ∀ w, in_contextWindow input = Some w → num_geb v w = false)
    as (v & Hth & Hw).
  { unfold resolveThreshold. rewrite Hc. destruct l as [|n].
    - destruct (autoCompactTokenLimit m) as [l|] eqn:Hl; [|done]. rewrite (Hml l eq_refl).
      exists l. destruct (in_contextWindow input) as [w|]; [|by split].
      rewrite (Hmodel eq_refl l w) by done. split; [done|]. intros ? [= <-]. by apply Hmodel.
    - apply andb_true_iff in Hv as [Hsafe Hpos]. rewrite positive_integer_Z by done.
      exists n. destruct (in_contextWindow input) as [w|]; [|by split].
      apply orb_false_iff in Hlim as [_ Hge]. rewrite Hge. split; [done|]. by intros ? [= <-]. }
  rewrite Hth. split; [|by exists v]. unfold automatic_compaction. by rewrite Hman'.
Qed.

Definition full_runtime : CodexRuntime :=
  sample_runtime ("unified_exec" :: "hosted_web_search" :: sample_caps).
Definition full_snapshot : EffectiveCapabilitySnapshot :=
  Eval vm_compute in
    match resolve_uncached full_runtime sample_input with
    | Ret s => s | Throw _ => sample_snapshot end.

Lemma saved_compaction_is_available_witness :
  is_available (automatic (snap_compaction full_snapshot)) = true ∧
  ∃ t, threshold (snap_compaction full_snapshot) = Some t ∧
       ∀ w, in_contextWindow sample_input = Some w → num_geb t w = false.
Proof.
  apply (saved_compaction_is_available full_runtime sample_input).
  - vm_compute. reflexivity.
  - apply valid_default.
  - vm_compute. reflexivity.
  - reflexivity.
  - intros _ l w [= <-] [= <-]. reflexivity.
Defined.

(** ** Instructions *)

Lemma starts_with_app p t : starts_with p (p ++ t)%string = true.
Proof. apply starts_with_iff. by exists t. Qed.

Lemma includes_suffix s t : includes s (t ++ s)%string = true.
Proof.
  induction t as [|c t IH]; simpl append.
  - assert (starts_with s s = true) as H by (rewrite <-(append_nil_r s) at 2; apply starts_with_app).
    destruct s; simpl; [done|]. simpl in H. by rewrite H.
  - simpl. by rewrite IH, orb_true_r.
Qed.

(** the supplemental instructions are added once: the result contains
    them when the snapshot needs them, keeps the caller's text as a prefix, and
    adding them again changes nothing. *)
Theorem supplemental_instructions_idempotent text s :
  let f t := withSupplementalSessionInstructions t s in
  f (f text) = f text ∧ starts_with text (f text) = true ∧
  (sh_sessionSurface (shell s) = session_supplemental →
   includes SUPPLEMENTAL_SESSION_INSTRUCTIONS (f text) = true).
Proof.
  unfold withSupplementalSessionInstructions. generalize SUPPLEMENTAL_SESSION_INSTRUCTIONS as I.
  intros I. assert (Hself : ∀ t, starts_with t t = true)
    by (intros t; rewrite <-(append_nil_r t) at 2; apply starts_with_app).
  case_bool_decide as Hs; simpl; [|by split_and!].
  destruct (includes I text) eqn:Hi; [by rewrite Hi|].
  destruct (String.length text =? 0)%nat eqn:Hl.
  - apply Nat.eqb_eq in Hl. assert (includes I I = true) as HI by apply (includes_suffix I "").
    rewrite HI. destruct text; [|done]. split_and!; [done|apply (starts_with_app "")|done].
  - set (nl := String _ (String _ I)).
    assert (includes I (text ++ nl) = true) as HI.
    { change nl with (String (ascii_of_N 10) (String (ascii_of_N 10) "") ++ I)%string.
      rewrite <-append_assoc. apply includes_suffix. }
    rewrite HI. split_and!; [done|apply starts_with_app|done].
Qed.
