(* ===== verification/ToolProfile.v ===== *)
(** * ToolProfile

    [src/src/integration/pi/codex-tool-profile.ts]: the reversible switch of
    Pi's active tools between its own coding tools and the managed Codex
    tools, over the host's registry interface. *)

From S2P Require Import Prelude Config Capability.

(** ** The host

    Pi is third-party code: the profile calls three operations of its
    extension interface, and relies on what they promise each other. *)

Record ToolInfo := { tool_name : string; tool_path : option string }.

Definition names_of (tools : list ToolInfo) : list string := tool_name <$> tools.

(** [getAllTools] is [None] when it throws. *)
Class ExtensionAPI (H : Type) := {
  getActiveTools : H → list string;
  getAllTools : H → option (list ToolInfo);
  setActiveTools : list string → H → H }.

(** Activating registered tools activates exactly them, in that order, and
    leaves the registry alone. *)
Class ExtensionAPILaws (H : Type) `{ExtensionAPI H} := {
  get_set_active names h tools :
    getAllTools h = Some tools → NoDup names → (∀ n, n ∈ names → n ∈ names_of tools) →
    getActiveTools (setActiveTools names h) = names;
  get_all_set names h : getAllTools (setActiveTools names h) = getAllTools h }.

(** ** Name lists *)

Definition PI_CORE_AGENT_TOOL_NAMES : list string :=
  ["read"; "bash"; "edit"; "write"; "grep"; "find"; "ls"].

Definition isPiCoreAgentToolName (name : string) : bool := js_elem name PI_CORE_AGENT_TOOL_NAMES.
Definition isManagedToolName (name : string) : bool :=
  js_elem name (literal_name <$> MANAGED_TOOL_NAMES).

Definition orderedUnique (names : list string) : list string := dedup [] names.

(** Neither a Pi core tool nor a managed one. *)
Definition is_additive (name : string) : bool :=
  negb (isPiCoreAgentToolName name) && negb (isManagedToolName name).

(** [if (condition(name) && !result.includes(name)) result.push(name)] over a list. *)
Fixpoint push_new (keep : string → bool) (names result : list string) : list string :=
  match names with
  | [] => result
  | name :: names =>
      push_new keep names (if keep name && negb (js_elem name result) then result ++ [name] else result)
  end.

Definition reconcileCodexActiveToolNames (currentNames availableNames activeManaged : list string)
    : list string :=
  push_new (λ name, js_elem name availableNames && isManagedToolName name)
    (orderedUnique activeManaged)
    (orderedUnique (filter (λ name, js_elem name availableNames && is_additive name = true) currentNames)).

Definition restorePiActiveToolNames (currentNames availableNames : list string)
    (baselineOrder : option (list string)) (capturedPiCore : list string) : list string :=
  let current := orderedUnique currentNames in
  let available name := js_elem name availableNames in
  match baselineOrder with
  | None => filter (λ name, available name && negb (isManagedToolName name) = true) current
  | Some baseline =>
      let captured := filter (λ name, isPiCoreAgentToolName name = true) capturedPiCore in
      let currentAdditives := filter (λ name, available name && is_additive name = true) current in
      let restored := push_new (λ name, available name && negb (isManagedToolName name) &&
          (if isPiCoreAgentToolName name then js_elem name captured
           else js_elem name currentAdditives)) (orderedUnique baseline) [] in
      push_new available currentAdditives restored
  end.

(** ** The profile *)

Inductive Readiness :=
| inactive
| ready_pending (capabilityKey : option string)
| healthy (capabilityKey : string)
| ready_unavailable (capabilityKey : option string).

Inductive Phase := phase_pending | phase_healthy | phase_unavailable.
#[export] Instance Phase_eq_dec : EqDecision Phase. Proof. solve_decision. Defined.

Inductive SkillLoader := loader_exec_command | loader_shell_command.

Record CodexProfileState := {
  phase : Phase;
  baselineOrder : list string;
  suppressedPiCore : list string;
  activeManaged : list string;
  state_skillLoader : option SkillLoader }.

(** [ProfileState]: [None] is [{ kind: "pi" }]. *)
Record CodexToolProfile := {
  expectedEntryPath : option string;
  state : option CodexProfileState;
  readiness : Readiness;
  profileGeneration : Z;
  conflictNotificationGeneration : Z }.

Record ManagedToolOwnership := { ok : bool; conflictingTool : option string }.

Section profile.
Context {H : Type} `{ExtensionAPI H}.
(** The absolute real path of an entry: the file system decides it. *)
Context (normalizedEntryPath : string → string).

(** [new Map(tools.map(...)).get(name)]: the last tool of that name. *)
Definition tool_by_name (tools : list ToolInfo) (name : string) : option ToolInfo :=
  last (filter (λ t, tool_name t = name) tools).

Definition owns (tool : ToolInfo) (expectedEntryPath : option string) : bool :=
  match expectedEntryPath with
  | None => true
  | Some expected =>
      match tool_path tool with
      | Some path => String.eqb (normalizedEntryPath path) (normalizedEntryPath expected)
      | None => false
      end
  end.

Fixpoint first_conflict (tools : list ToolInfo) (names : list string) (expected : option string)
    : option string :=
  match names with
  | [] => None
  | name :: names =>
      if negb (isManagedToolName name) then Some name else
      match tool_by_name tools name with
      | None => Some name
      | Some tool => if owns tool expected then first_conflict tools names expected else Some name
      end
  end.

Definition validateManagedToolOwnership (tools : option (list ToolInfo))
    (activeManaged : list string) (expected : option string) : ManagedToolOwnership :=
  match tools with
  | None => {| ok := false; conflictingTool := None |}
  | Some tools =>
      match first_conflict tools (orderedUnique activeManaged) expected with
      | Some name => {| ok := false; conflictingTool := Some name |}
      | None => {| ok := true; conflictingTool := None |}
      end
  end.

Definition registeredManagedToolNames (tools : option (list ToolInfo)) : list ManagedToolName :=
  match tools with
  | None => []
  | Some tools => filter (λ n, literal_name n ∈ names_of tools) MANAGED_TOOL_NAMES
  end.

(** The constructor. *)
Definition new_profile (entryPath : option string) : CodexToolProfile :=
  {| expectedEntryPath := normalizedEntryPath <$> entryPath; state := None;
     readiness := inactive; profileGeneration := 0; conflictNotificationGeneration := -1 |}.

Definition skillLoader (p : CodexToolProfile) : option SkillLoader :=
  state p ≫= state_skillLoader.
Definition registeredManagedTools (h : H) : list ManagedToolName :=
  registeredManagedToolNames (getAllTools h).

(** The methods act on the profile, the host and the messages notified. *)
Definition world : Type := CodexToolProfile * H * list string.

Definition set_state (s : option CodexProfileState) (p : CodexToolProfile) : CodexToolProfile :=
  {| expectedEntryPath := expectedEntryPath p; state := s; readiness := readiness p;
     profileGeneration := profileGeneration p;
     conflictNotificationGeneration := conflictNotificationGeneration p |}.
Definition set_readiness (r : Readiness) (p : CodexToolProfile) : CodexToolProfile :=
  {| expectedEntryPath := expectedEntryPath p; state := state p; readiness := r;
     profileGeneration := profileGeneration p;
     conflictNotificationGeneration := conflictNotificationGeneration p |}.

Definition fallbackAvailableNames (s : CodexProfileState) (h : H) : list string :=
  getActiveTools h ++ baselineOrder s ++ suppressedPiCore s ++ activeManaged s.

Definition available_names (s : CodexProfileState) (h : H) : list string :=
  match getAllTools h with Some tools => names_of tools | None => fallbackAvailableNames s h end.

Definition applyActiveNames (next : list string) (h : H) : H :=
  let current := orderedUnique (getActiveTools h) in
  let ordered := orderedUnique next in
  if strs_eqb current ordered then h else setActiveTools ordered h.

Definition captured_state (h : H) : CodexProfileState :=
  let current := orderedUnique (getActiveTools h) in
  let availableNames :=
    match getAllTools h with Some tools => names_of tools | None => current end in
  {| phase := phase_pending; baselineOrder := current;
     suppressedPiCore :=
       filter (λ name, isPiCoreAgentToolName name && js_elem name availableNames = true) current;
     activeManaged := []; state_skillLoader := None |}.

Definition ensureCodexState (w : world) : world :=
  let '(p, h, out) := w in
  match state p with
  | Some _ => w
  | None => (set_state (Some (captured_state h)) p, h, out)
  end.

Definition suppressManagedTools (ph : Phase) (w : world) : bool * world :=
  let '(p, h, out) := w in
  match state p with
  | None => (false, w)
  | Some s =>
      let h' := applyActiveNames
        (reconcileCodexActiveToolNames (getActiveTools h) (available_names s h) []) h in
      (true, (set_state (Some {| phase := ph; baselineOrder := baselineOrder s;
                                 suppressedPiCore := suppressedPiCore s; activeManaged := [];
                                 state_skillLoader := None |}) p, h', out))
  end.

Definition enterPending (capabilityKey : option string) (w : world) : world :=
  let '(p, h, out) := ensureCodexState w in
  let p := {| expectedEntryPath := expectedEntryPath p; state := state p; readiness := readiness p;
              profileGeneration := profileGeneration p + 1;
              conflictNotificationGeneration := -1 |} in
  let '(suppressed, (p, h, out)) := suppressManagedTools phase_pending (p, h, out) in
  if suppressed then (set_readiness (ready_pending capabilityKey) p, h, out) else (p, h, out).

(** [notify] is whether the caller passed a callback. *)
Definition installUnavailable (capabilityKey : option string) (conflicting : option string)
    (notify : bool) (w : world) : world :=
  let '(suppressed, (p, h, out)) := suppressManagedTools phase_unavailable (ensureCodexState w) in
  if suppressed then
    let p := set_readiness (ready_unavailable capabilityKey) p in
    match conflicting with
    | Some tool =>
        if notify && negb (Z.eqb (conflictNotificationGeneration p) (profileGeneration p)) then
          ({| expectedEntryPath := expectedEntryPath p; state := state p; readiness := readiness p;
              profileGeneration := profileGeneration p;
              conflictNotificationGeneration := profileGeneration p |}, h,
           out ++ [("Codex unavailable: managed tool ownership conflict for " ++ tool)%string])
        else (p, h, out)
    | None => (p, h, out)
    end
  else (p, h, out).

Definition orderedManaged (names : list string) : list string :=
  filter (λ n, isManagedToolName n = true) (orderedUnique names).

Definition installHealthy (capabilityKey : string) (managed : list string)
    (loader : option SkillLoader) (notify : bool) (w : world) : bool * world :=
  let '(p, h, out) := ensureCodexState w in
  match state p with
  | None => (false, (p, h, out))
  | Some s =>
      let ownership := validateManagedToolOwnership (getAllTools h) managed (expectedEntryPath p) in
      if negb (ok ownership) then
        (false, installUnavailable (Some capabilityKey) (conflictingTool ownership) notify (p, h, out))
      else
        let h' := applyActiveNames
          (reconcileCodexActiveToolNames (getActiveTools h) (available_names s h) managed) h in
        (true, (set_readiness (healthy capabilityKey)
                  (set_state (Some {| phase := phase_healthy; baselineOrder := baselineOrder s;
                     suppressedPiCore := suppressedPiCore s;
                     activeManaged := orderedManaged managed;
                     state_skillLoader := loader |}) p), h', out))
  end.

Definition revalidateHealthyOwnership (notify : bool) (w : world) : bool * world :=
  let '(p, h, out) := w in
  match state p with
  | Some s =>
      if negb (bool_decide (phase s = phase_healthy)) then (false, w) else
      let ownership :=
        validateManagedToolOwnership (getAllTools h) (activeManaged s) (expectedEntryPath p) in
      if negb (ok ownership) then
        (false, installUnavailable
                  match readiness p with healthy key => Some key | _ => None end
                  (conflictingTool ownership) notify w)
      else
        (true, (p, applyActiveNames (reconcileCodexActiveToolNames (getActiveTools h)
                     (available_names s h) (activeManaged s)) h, out))
  | None => (false, w)
  end.

Definition isHealthy (capabilityKey : string) (p : CodexToolProfile) : bool :=
  match readiness p with healthy key => String.eqb key capabilityKey | _ => false end.

Definition restorePi (w : world) : world :=
  let '(p, h, out) := w in
  let current := getActiveTools h in
  let restored := match state p with
    | Some s => restorePiActiveToolNames current (available_names s h) (Some (baselineOrder s))
                  (suppressedPiCore s)
    | None => restorePiActiveToolNames current
                match getAllTools h with Some tools => names_of tools | None => current end None []
    end in
  (set_readiness inactive (set_state None p), applyActiveNames restored h, out).

Definition profile_dispose (w : world) : world := restorePi w.

(** Calls of the coordinator, in any order. *)
Inductive profile_op :=
| PPending (key : option string)
| PHealthy (key : string) (managed : list string) (loader : option SkillLoader) (notify : bool)
| PUnavailable (key conflicting : option string) (notify : bool)
| PRevalidate (notify : bool)
| PRestore.

Definition profile_step (op : profile_op) (w : world) : world :=
  match op with
  | PPending key => enterPending key w
  | PHealthy key managed loader notify => (installHealthy key managed loader notify w).2
  | PUnavailable key conflicting notify => installUnavailable key conflicting notify w
  | PRevalidate notify => (revalidateHealthyOwnership notify w).2
  | PRestore => restorePi w
  end.

Definition profile_run (ops : list profile_op) (w : world) : world :=
  fold_left (λ w op, profile_step op w) ops w.
End profile.

Arguments world : clear implicits.
