(* ===== verification/ToolProfileFacts.v ===== *)
(** * ToolProfileFacts

    Switching to the Codex profile and back gives the host its own tools
    again, and while the profile is on no Pi core tool and no managed tool of
    foreign origin is active. *)

From S2P Require Import Prelude Config Capability ToolProfile.

(** ** Name lists *)

Lemma core_not_managed n : isPiCoreAgentToolName n = true → isManagedToolName n = false.
Proof.
  unfold isPiCoreAgentToolName. rewrite js_elem_spec. unfold PI_CORE_AGENT_TOOL_NAMES.
  rewrite !elem_of_cons, elem_of_nil. intros Hn. repeat destruct Hn as [->|Hn]; done.
Qed.

Lemma additive_iff n : is_additive n = true ↔
  isPiCoreAgentToolName n = false ∧ isManagedToolName n = false.
Proof. unfold is_additive. by rewrite andb_true_iff, !negb_true_iff. Qed.

Lemma elem_of_orderedUnique n l : n ∈ orderedUnique l ↔ n ∈ l.
Proof. unfold orderedUnique. rewrite elem_of_dedup, elem_of_nil. tauto. Qed.

Lemma NoDup_orderedUnique l : NoDup (orderedUnique l).
Proof. apply NoDup_dedup. Qed.

Lemma orderedUnique_id l : NoDup l → orderedUnique l = l.
Proof. intros Hl. apply dedup_id; [done|]. intros x _. apply not_elem_of_nil. Qed.

Definition keeps (f : string → bool) (l : list string) : list string := filter (λ n, f n = true) l.

Lemma elem_of_keeps f l n : n ∈ keeps f l ↔ f n = true ∧ n ∈ l.
Proof. unfold keeps. by rewrite list_elem_of_filter. Qed.

Lemma keeps_cons f n l : keeps f (n :: l) = if f n then n :: keeps f l else keeps f l.
Proof. unfold keeps. rewrite filter_cons. by destruct (f n). Qed.

Lemma keeps_ext f g l : (∀ n, n ∈ l → f n = g n) → keeps f l = keeps g l.
Proof.
  induction l as [|n l IH]; intros Hfg; [done|]. rewrite !keeps_cons, (Hfg n) by (by left).
  rewrite IH; [done|]. intros m Hm. apply Hfg. by right.
Qed.

Lemma keeps_all f l : (∀ n, n ∈ l → f n = true) → keeps f l = l.
Proof.
  induction l as [|n l IH]; intros Hf; [done|]. rewrite keeps_cons, (Hf n) by (by left).
  f_equal. apply IH. intros m Hm. apply Hf. by right.
Qed.

Lemma keeps_none f l : (∀ n, n ∈ l → f n = false) → keeps f l = [].
Proof.
  induction l as [|n l IH]; intros Hf; [done|]. rewrite keeps_cons, (Hf n) by (by left).
  apply IH. intros m Hm. apply Hf. by right.
Qed.

Lemma keeps_app f l k : keeps f (l ++ k) = keeps f l ++ keeps f k.
Proof. unfold keeps. apply filter_app. Qed.

Lemma NoDup_keeps f l : NoDup l → NoDup (keeps f l).
Proof. apply NoDup_filter. Qed.

(** Pushing new names of a list appends the kept ones not yet there. *)
Lemma push_new_eq keep names res : NoDup names →
  push_new keep names res = res ++ keeps (λ n, keep n && negb (js_elem n res)) names.
Proof.
  intros Hnd. revert res. induction Hnd as [|n names Hn _ IH]; intros res; cbn [push_new].
  { by rewrite app_nil_r. }
  rewrite keeps_cons. destruct (keep n && negb (js_elem n res)) eqn:Hk; [|by rewrite IH].
  rewrite IH, <-app_assoc. simpl. do 2 f_equal. apply keeps_ext. intros m Hm.
  f_equal. f_equal. apply eq_true_iff_eq. rewrite !js_elem_spec, elem_of_app, list_elem_of_singleton.
  split; [|tauto]. intros [?| ->]; done.
Qed.

Lemma push_all keep names : NoDup names → (∀ n, n ∈ names → keep n = true) →
  push_new keep names [] = names.
Proof.
  intros Hnd Hk. rewrite push_new_eq by done. apply keeps_all. intros n Hn. by rewrite Hk.
Qed.

Lemma push_none keep names res : NoDup names → (∀ n, n ∈ names → n ∈ res) →
  push_new keep names res = res.
Proof.
  intros Hnd Hk. rewrite push_new_eq by done. rewrite keeps_none; [apply app_nil_r|].
  intros n Hn. apply andb_false_iff. right. apply negb_false_iff, js_elem_spec. auto.
Qed.

Lemma reconcile_eq cur avail managed :
  reconcileCodexActiveToolNames cur avail managed =
  orderedUnique (keeps (λ n, js_elem n avail && is_additive n) cur) ++
  keeps (λ n, js_elem n avail && isManagedToolName n) (orderedUnique managed).
Proof.
  unfold reconcileCodexActiveToolNames. rewrite push_new_eq by apply NoDup_orderedUnique.
  fold (keeps (λ n, js_elem n avail && is_additive n) cur). f_equal. apply keeps_ext. intros n Hn.
  destruct (js_elem n avail && isManagedToolName n) eqn:Hk; [|done]. simpl.
  apply negb_true_iff, js_elem_false. rewrite elem_of_orderedUnique, elem_of_keeps.
  rewrite andb_true_iff, additive_iff. apply andb_true_iff in Hk as [_ Hk].
  intros [[_ [_ ?]] _]. congruence.
Qed.

Lemma elem_of_reconcile cur avail managed n :
  n ∈ reconcileCodexActiveToolNames cur avail managed ↔
  n ∈ avail ∧ ((n ∈ cur ∧ is_additive n = true) ∨ (n ∈ managed ∧ isManagedToolName n = true)).
Proof.
  rewrite reconcile_eq, elem_of_app, elem_of_orderedUnique, !elem_of_keeps, elem_of_orderedUnique,
    !andb_true_iff, js_elem_spec. tauto.
Qed.

Lemma NoDup_reconcile cur avail managed : NoDup (reconcileCodexActiveToolNames cur avail managed).
Proof.
  rewrite reconcile_eq. apply NoDup_app. split_and!; [apply NoDup_orderedUnique| |
    apply NoDup_keeps, NoDup_orderedUnique].
  intros n. rewrite elem_of_orderedUnique, !elem_of_keeps, !andb_true_iff, additive_iff.
  intros [[_ [_ ?]] _] [[_ ?] _]. congruence.
Qed.

(** Reconciling keeps the additive tools and their order. *)
Lemma reconcile_additives cur avail managed :
  NoDup cur → (∀ n, n ∈ cur → n ∈ avail) →
  keeps is_additive (reconcileCodexActiveToolNames cur avail managed) = keeps is_additive cur.
Proof.
  intros Hnd Hav. rewrite reconcile_eq, keeps_app.
  rewrite (keeps_ext (λ n, js_elem n avail && is_additive n) is_additive) by
    (intros n Hn; by rewrite (proj2 (js_elem_spec n avail) (Hav n Hn))).
  rewrite orderedUnique_id by (by apply NoDup_keeps).
  rewrite (keeps_all is_additive) by (intros n [? _]%elem_of_keeps; done).
  rewrite (keeps_none is_additive (keeps _ (orderedUnique managed))); [by rewrite app_nil_r|].
  intros n [Hn _]%elem_of_keeps.
  apply andb_true_iff in Hn as [_ Hn]. apply not_true_iff_false. rewrite additive_iff. intros [_ ?].
  congruence.
Qed.

(** Restoring from any list with the additive tools of the baseline. *)
Lemma restore_baseline cur avail base :
  NoDup base → NoDup cur → (∀ n, n ∈ base → n ∈ avail ∧ isManagedToolName n = false) →
  keeps is_additive cur = keeps is_additive base → (∀ n, n ∈ cur → n ∈ avail) →
  restorePiActiveToolNames cur avail (Some base) (keeps isPiCoreAgentToolName base) = base.
Proof.
  intros Hb Hc Hbase Hadd Hav. unfold restorePiActiveToolNames.
  rewrite (orderedUnique_id base), (orderedUnique_id cur) by done.
  fold (keeps (λ n, js_elem n avail && is_additive n) cur).
  fold (keeps isPiCoreAgentToolName (keeps isPiCoreAgentToolName base)).
  rewrite (keeps_ext (λ n, js_elem n avail && is_additive n) is_additive cur) by
    (intros n Hn; by rewrite (proj2 (js_elem_spec n avail) (Hav n Hn))).
  rewrite Hadd, push_all; [|done|].
  - apply push_none; [by apply NoDup_keeps|]. intros n [_ Hn]%elem_of_keeps. done.
  - intros n Hn. destruct (Hbase n Hn) as [Ha Hm]. rewrite (proj2 (js_elem_spec n avail) Ha), Hm.
    destruct (isPiCoreAgentToolName n) eqn:Hcore; apply js_elem_spec;
      rewrite !elem_of_keeps; [done|]. split; [|done]. by apply additive_iff.
Qed.

(** ** Calls over a registry that stays the same *)

Section runs.
Context {H : Type} `{ExtensionAPI H} `{!ExtensionAPILaws H}.
Context (normalizedEntryPath : string → string) (tools : list ToolInfo).

Local Abbreviation step := (profile_step normalizedEntryPath).
Local Abbreviation run := (profile_run normalizedEntryPath).

Lemma available_registered s (h : H) : getAllTools h = Some tools → available_names s h = names_of tools.
Proof. intros Ht. unfold available_names. by rewrite Ht. Qed.

Lemma apply_registry next (h : H) : getAllTools (applyActiveNames next h) = getAllTools h.
Proof. unfold applyActiveNames. case_match; [done|apply get_all_set]. Qed.

(** Applying registered names activates them; duplicates aside, exactly them. *)
Lemma apply_active next (h : H) :
  getAllTools h = Some tools → NoDup next → (∀ n, n ∈ next → n ∈ names_of tools) →
  (NoDup (getActiveTools h) → getActiveTools (applyActiveNames next h) = next) ∧
  ∀ n, n ∈ getActiveTools (applyActiveNames next h) ↔ n ∈ next.
Proof.
  intros Ht Hnd Hin. unfold applyActiveNames. rewrite (orderedUnique_id next) by done.
  destruct (strs_eqb _ _) eqn:He.
  - apply strs_eqb_iff in He. split.
    + intros Hact. by rewrite orderedUnique_id in He.
    + intros n. by rewrite <-He, elem_of_orderedUnique.
  - rewrite (get_set_active next h tools) by done. done.
Qed.

Lemma reconcile_registered s (h : H) managed n :
  getAllTools h = Some tools →
  n ∈ reconcileCodexActiveToolNames (getActiveTools h) (available_names s h) managed →
  n ∈ names_of tools.
Proof. intros Ht. rewrite (available_registered _ _ Ht), elem_of_reconcile. by intros [? _]. Qed.

(** *** What every call does to state and host: a relation *)

(** The active tools are those of a reconciliation with the state's managed
    tools. *)
Record reconciled (s s' : CodexProfileState) (h h' : H) : Prop := {
  rc_baseline : baselineOrder s' = baselineOrder s;
  rc_captured : suppressedPiCore s' = suppressedPiCore s;
  rc_host : h' = applyActiveNames (reconcileCodexActiveToolNames (getActiveTools h)
                   (available_names s h) (activeManaged s')) h }.

Definition entry_state (p : CodexToolProfile) (h : H) : CodexProfileState :=
  default (captured_state h) (state p).

Definition path_of (w : world H) : option string := expectedEntryPath w.1.1.
Definition host_of (w : world H) : H := w.1.2.
Definition state_of (w : world H) : option CodexProfileState := state w.1.1.
Definition readiness_of (w : world H) : Readiness := readiness w.1.1.

(** A call that leaves the profile in the Codex state. *)
Record codex_step (w w' : world H) (s' : CodexProfileState) : Prop := {
  cs_path : path_of w' = path_of w;
  cs_state : state_of w' = Some s';
  cs_reconciled : reconciled (entry_state w.1.1 (host_of w)) s' (host_of w) (host_of w');
  cs_phase : phase s' = phase_healthy ↔ ∃ key, readiness_of w' = healthy key;
  cs_managed : phase s' ≠ phase_healthy → activeManaged s' = [];
  cs_owned : ∀ n, n ∈ activeManaged s' → isManagedToolName n = true ∧
    ∃ t, tool_by_name tools n = Some t ∧ owns normalizedEntryPath t (path_of w') = true }.

Lemma ensure_host w : host_of (ensureCodexState w) = host_of w.
Proof. destruct w as [[p h] out]. unfold ensureCodexState. by destruct (state p). Qed.

Lemma ensure_state w : state_of (ensureCodexState w) = Some (entry_state w.1.1 (host_of w)).
Proof.
  destruct w as [[p h] out]. unfold ensureCodexState, entry_state, state_of. simpl.
  by destruct (state p) eqn:Hs.
Qed.

Lemma ensure_path w : path_of (ensureCodexState w) = path_of w.
Proof. destruct w as [[p h] out]. unfold ensureCodexState. by destruct (state p). Qed.

Lemma ensure_entry w : entry_state (ensureCodexState w).1.1 (host_of (ensureCodexState w)) =
  entry_state w.1.1 (host_of w).
Proof.
  pose proof (ensure_state w) as Hs. unfold state_of in Hs. unfold entry_state at 1. by rewrite Hs.
Qed.

(** A state without managed tools. *)
Definition suppressed_state (ph : Phase) (s : CodexProfileState) : CodexProfileState :=
  {| phase := ph; baselineOrder := baselineOrder s; suppressedPiCore := suppressedPiCore s;
     activeManaged := []; state_skillLoader := None |}.

Definition suppressed_host (s : CodexProfileState) (h : H) : H :=
  applyActiveNames (reconcileCodexActiveToolNames (getActiveTools h) (available_names s h) []) h.

Lemma suppress_eq ph w s : state_of w = Some s →
  suppressManagedTools ph w =
    (true, (set_state (Some (suppressed_state ph s)) w.1.1, suppressed_host s (host_of w), w.2)).
Proof.
  destruct w as [[p h] out]. unfold state_of. simpl. intros Hs. unfold suppressManagedTools.
  by rewrite Hs.
Qed.

Lemma suppressed_codex_step w w' ph :
  ph ≠ phase_healthy → path_of w' = path_of w →
  state_of w' = Some (suppressed_state ph (entry_state w.1.1 (host_of w))) →
  host_of w' = suppressed_host (entry_state w.1.1 (host_of w)) (host_of w) →
  (∀ key, readiness_of w' ≠ healthy key) →
  codex_step w w' (suppressed_state ph (entry_state w.1.1 (host_of w))).
Proof.
  intros Hph Hp Hs Hh Hr. constructor; try done.
  - split; [done|]. intros [key Hk]. by destruct (Hr key).
  - intros n Hn. by apply elem_of_nil in Hn.
Qed.

Lemma enterPending_step key w : ∃ s', codex_step w (enterPending key w) s'.
Proof.
  eexists. apply (suppressed_codex_step _ _ phase_pending); try done.
  all: pose proof (ensure_state w) as He; pose proof (ensure_host w) as Hh;
    pose proof (ensure_path w) as Hp; unfold enterPending;
    destruct (ensureCodexState w) as [[p h] out]; unfold state_of, host_of, path_of in *;
    simpl in He, Hh, Hp; rewrite (suppress_eq _ _ (entry_state w.1.1 w.1.2)) by done; simpl; by subst.
Qed.

Lemma installUnavailable_result key conflicting notify w :
  let w' := installUnavailable key conflicting notify w in
  path_of w' = path_of w ∧
  state_of w' = Some (suppressed_state phase_unavailable (entry_state w.1.1 (host_of w))) ∧
  host_of w' = suppressed_host (entry_state w.1.1 (host_of w)) (host_of w) ∧
  readiness_of w' = ready_unavailable key.
Proof.
  pose proof (ensure_state w) as He. pose proof (ensure_host w) as Hh.
  pose proof (ensure_path w) as Hp. unfold installUnavailable.
  rewrite (suppress_eq _ _ (entry_state w.1.1 (host_of w))) by done. rewrite Hh.
  destruct (ensureCodexState w) as [[p h] out]. unfold path_of, state_of, host_of, readiness_of in *.
  simpl in Hp. simpl. destruct conflicting as [tool|]; [|by subst].
  by destruct (notify && _); subst.
Qed.

Lemma installUnavailable_step key conflicting notify w :
  ∃ s', codex_step w (installUnavailable key conflicting notify w) s'.
Proof.
  eexists. destruct (installUnavailable_result key conflicting notify w) as (Hp & Hs & Hh & Hr).
  apply (suppressed_codex_step _ _ phase_unavailable); try done. intros k. by rewrite Hr.
Qed.

Lemma first_conflict_None names expected n :
  first_conflict normalizedEntryPath tools names expected = None → n ∈ names →
  isManagedToolName n = true ∧
  ∃ t, tool_by_name tools n = Some t ∧ owns normalizedEntryPath t expected = true.
Proof.
  induction names as [|m names IH]; simpl; [intros _ Hn; by apply elem_of_nil in Hn|].
  destruct (isManagedToolName m) eqn:Hm; simpl; [|done].
  destruct (tool_by_name tools m) as [t|] eqn:Ht; [|done].
  destruct (owns _ t expected) eqn:Ho; [|done]. intros Hc [->|Hn]%elem_of_cons; [|by apply IH].
  eauto.
Qed.

Lemma ownership_ok managed expected n :
  ok (validateManagedToolOwnership normalizedEntryPath (Some tools) managed expected) = true →
  n ∈ managed → isManagedToolName n = true ∧
  ∃ t, tool_by_name tools n = Some t ∧ owns normalizedEntryPath t expected = true.
Proof.
  unfold validateManagedToolOwnership. destruct (first_conflict _ _ _ _) eqn:Hc; [done|].
  intros _ Hn. eapply first_conflict_None; [done|]. by apply elem_of_orderedUnique.
Qed.

Lemma elem_of_orderedManaged n managed :
  n ∈ orderedManaged managed ↔ n ∈ managed ∧ isManagedToolName n = true.
Proof.
  unfold orderedManaged. fold (keeps isManagedToolName (orderedUnique managed)).
  rewrite elem_of_keeps, elem_of_orderedUnique. tauto.
Qed.

(** Reconciling drops duplicates and foreign names from the managed list. *)
Lemma reconcile_orderedManaged cur avail managed :
  reconcileCodexActiveToolNames cur avail (orderedManaged managed) =
  reconcileCodexActiveToolNames cur avail managed.
Proof.
  rewrite !reconcile_eq. f_equal. unfold orderedManaged.
  fold (keeps isManagedToolName (orderedUnique managed)).
  rewrite orderedUnique_id by apply NoDup_keeps, NoDup_orderedUnique.
  unfold keeps. rewrite list_filter_filter. apply list_filter_iff. intros n.
  rewrite andb_true_iff. tauto.
Qed.

Lemma codex_step_ensure w w' s' :
  codex_step (ensureCodexState w) w' s' → codex_step w w' s'.
Proof.
  intros [Hp Hs Hr Hph Hm Ho]. constructor; try done.
  - by rewrite Hp, ensure_path.
  - by rewrite ensure_entry, ensure_host in Hr.
Qed.

Lemma installHealthy_step key managed loader notify w :
  getAllTools (host_of w) = Some tools →
  ∃ s', codex_step w (installHealthy normalizedEntryPath key managed loader notify w).2 s'.
Proof.
  intros Ht. pose proof (ensure_state w) as He. pose proof (ensure_host w) as Hh.
  assert (∃ s', codex_step (ensureCodexState w)
    (installHealthy normalizedEntryPath key managed loader notify w).2 s') as [s' Hs'];
    [|exists s'; by apply codex_step_ensure].
  unfold installHealthy. destruct (ensureCodexState w) as [[p h] out].
  unfold state_of, host_of in *. simpl in He, Hh. subst h. rewrite He. rewrite Ht.
  destruct (ok _) eqn:Hok; simpl; [|apply installUnavailable_step].
  eexists. constructor; unfold path_of, state_of, host_of, readiness_of; simpl.
  - done.
  - done.
  - constructor; simpl; try done.
    + unfold entry_state. simpl. by rewrite He.
    + unfold entry_state. simpl. by rewrite He.
    + unfold host_of. simpl. by rewrite reconcile_orderedManaged; unfold entry_state; simpl; rewrite He.
  - split; [by eexists|done].
  - done.
  - intros n [Hn _]%elem_of_orderedManaged. by eapply ownership_ok.
Qed.

(** *** Invariants *)

(** What holds of a profile in the Codex state. *)
Record safe_state (w : world H) (s : CodexProfileState) : Prop := {
  ss_phase : phase s = phase_healthy ↔ ∃ key, readiness_of w = healthy key;
  ss_idle : phase s ≠ phase_healthy → activeManaged s = [];
  ss_owned n : n ∈ activeManaged s → isManagedToolName n = true ∧
    ∃ t, tool_by_name tools n = Some t ∧ owns normalizedEntryPath t (path_of w) = true;
  ss_core n : n ∈ getActiveTools (host_of w) → isPiCoreAgentToolName n = false;
  ss_managed n : isManagedToolName n = true →
    n ∈ getActiveTools (host_of w) ↔ n ∈ activeManaged s }.

Definition profile_safe (w : world H) : Prop :=
  match state_of w with Some s => safe_state w s | None => readiness_of w = inactive end.

Lemma tool_by_name_registered n t : tool_by_name tools n = Some t → n ∈ names_of tools.
Proof.
  unfold tool_by_name. intros [l Hl]%last_Some.
  assert (t ∈ filter (λ t, tool_name t = n) tools) as [<- Hin]%list_elem_of_filter
    by (rewrite Hl; set_solver).
  apply list_elem_of_fmap. by exists t.
Qed.

Lemma codex_step_active w w' s' n :
  getAllTools (host_of w) = Some tools → codex_step w w' s' →
  n ∈ getActiveTools (host_of w') ↔ n ∈ names_of tools ∧
    ((n ∈ getActiveTools (host_of w) ∧ is_additive n = true) ∨
     (n ∈ activeManaged s' ∧ isManagedToolName n = true)).
Proof.
  intros Ht [_ _ Hr _ _ _]. rewrite (rc_host _ _ _ _ Hr).
  rewrite (proj2 (apply_active _ _ Ht (NoDup_reconcile _ _ _)
    (λ m, reconcile_registered _ _ _ m Ht))).
  by rewrite elem_of_reconcile, (available_registered _ _ Ht).
Qed.

Lemma codex_step_safe w w' s' :
  getAllTools (host_of w) = Some tools → codex_step w w' s' → profile_safe w'.
Proof.
  intros Ht Hc. pose proof (λ n, codex_step_active w w' s' n Ht Hc) as Hact.
  destruct Hc as [Hp Hs Hr Hph Hm Ho]. unfold profile_safe. rewrite Hs. constructor; try done.
  - intros n [_ [[_ Hn]|[_ Hn]]]%Hact; [by apply additive_iff in Hn as [? _]|].
    destruct (isPiCoreAgentToolName n) eqn:Hcore; [|done].
    apply core_not_managed in Hcore. congruence.
  - intros n Hn. rewrite Hact. split.
    + intros [_ [[_ Ha]|[? _]]]; [|done]. apply additive_iff in Ha as [_ Ha]. congruence.
    + intros Hin. destruct (Ho n Hin) as (_ & t & Hby & _).
      split; [by eapply tool_by_name_registered|by right].
Qed.

Lemma codex_step_registry w w' s' :
  codex_step w w' s' → getAllTools (host_of w') = getAllTools (host_of w).
Proof. intros [_ _ Hr _ _ _]. rewrite (rc_host _ _ _ _ Hr). apply apply_registry. Qed.

Lemma revalidate_step notify w :
  getAllTools (host_of w) = Some tools → profile_safe w →
  (revalidateHealthyOwnership normalizedEntryPath notify w).2 = w ∨
  ∃ s', codex_step w (revalidateHealthyOwnership normalizedEntryPath notify w).2 s'.
Proof.
  intros Ht Hsafe. destruct w as [[p h] out]. unfold profile_safe, state_of, host_of in *.
  simpl in Ht, Hsafe. unfold revalidateHealthyOwnership.
  destruct (state p) as [s|] eqn:Hs; [|by left].
  destruct (bool_decide (phase s = phase_healthy)); simpl; [|by left]. right. rewrite Ht.
  destruct (ok _) eqn:Hok; simpl; [|apply installUnavailable_step].
  exists s. destruct Hsafe as [Hph Hidle _ _ _].
  constructor; unfold path_of, state_of, host_of; simpl; try done.
  - unfold entry_state. rewrite Hs. by constructor.
  - intros n Hn. by eapply ownership_ok.
Qed.

(** One call either changes nothing, restores Pi's tools, or leaves a Codex
    state. *)
Lemma step_cases op w :
  getAllTools (host_of w) = Some tools → profile_safe w →
  step op w = w ∨ step op w = restorePi w ∨ ∃ s', codex_step w (step op w) s'.
Proof.
  intros Ht Hs. destruct op as [key|key managed loader notify|key conflicting notify|notify|]; simpl.
  - right. right. apply enterPending_step.
  - right. right. by apply installHealthy_step.
  - right. right. apply installUnavailable_step.
  - destruct (revalidate_step notify w Ht Hs); auto.
  - auto.
Qed.

Lemma restore_result w :
  path_of (restorePi w) = path_of w ∧ state_of (restorePi w) = None ∧
  readiness_of (restorePi w) = inactive ∧
  getAllTools (host_of (restorePi w)) = getAllTools (host_of w).
Proof. destruct w as [[p h] out]. unfold host_of. simpl. split_and!; try done. apply apply_registry. Qed.

Lemma step_safe op w :
  getAllTools (host_of w) = Some tools → profile_safe w →
  getAllTools (host_of (step op w)) = Some tools ∧ profile_safe (step op w).
Proof.
  intros Ht Hs. destruct (step_cases op w Ht Hs) as [->|[->|[s' Hc]]]; [done| |].
  - destruct (restore_result w) as (_ & Hst & Hr & ->). split; [done|].
    unfold profile_safe. by rewrite Hst.
  - split; [by rewrite (codex_step_registry _ _ _ Hc)|by eapply codex_step_safe].
Qed.

Lemma run_safe ops w :
  getAllTools (host_of w) = Some tools → profile_safe w → profile_safe (run ops w).
Proof.
  revert w; induction ops as [|op ops IH]; intros w Ht Hs; [done|]. simpl.
  destruct (step_safe op w Ht Hs). by apply IH.
Qed.

(** *** The way back *)

Context (base : list string).

(** Pi's own tools can be recovered. *)
Record recoverable (w : world H) : Prop := {
  rv_state : match state_of w with
    | Some s => baselineOrder s = base ∧ suppressedPiCore s = keeps isPiCoreAgentToolName base
    | None => getActiveTools (host_of w) = base
    end;
  rv_nodup : NoDup (getActiveTools (host_of w));
  rv_registered n : n ∈ getActiveTools (host_of w) → n ∈ names_of tools;
  rv_additives : keeps is_additive (getActiveTools (host_of w)) = keeps is_additive base }.

Hypothesis base_nodup : NoDup base.
Hypothesis base_names : ∀ n, n ∈ base → n ∈ names_of tools ∧ isManagedToolName n = false.

Lemma entry_recoverable w : getAllTools (host_of w) = Some tools → recoverable w →
  let s := entry_state w.1.1 (host_of w) in
  baselineOrder s = base ∧ suppressedPiCore s = keeps isPiCoreAgentToolName base.
Proof.
  intros Ht [Hs _ _ _]. unfold entry_state. unfold state_of in Hs.
  destruct (state w.1.1) as [s|]; simpl; [done|].
  rewrite Hs, orderedUnique_id, Ht by done. split; [done|].
  fold (keeps (λ n, isPiCoreAgentToolName n && js_elem n (names_of tools)) base).
  apply keeps_ext. intros n [Hn _]%base_names.
  by rewrite (proj2 (js_elem_spec n _) Hn), andb_true_r.
Qed.

Lemma codex_step_recoverable w w' s' :
  getAllTools (host_of w) = Some tools → codex_step w w' s' → recoverable w → recoverable w'.
Proof.
  intros Ht Hc Hv. destruct (entry_recoverable w Ht Hv) as [Hb Hcap].
  pose proof (λ n, codex_step_active w w' s' n Ht Hc) as Hact.
  destruct Hc as [Hp Hs Hr _ _ _]. pose proof (rc_host _ _ _ _ Hr) as Hh.
  destruct (apply_active _ _ Ht (NoDup_reconcile (getActiveTools (host_of w))
    (available_names (entry_state w.1.1 (host_of w)) (host_of w)) (activeManaged s'))
    (λ m, reconcile_registered _ _ _ m Ht)) as [Heq _].
  specialize (Heq (rv_nodup _ Hv)). rewrite <-Hh in Heq.
  constructor.
  - rewrite Hs, (rc_baseline _ _ _ _ Hr), (rc_captured _ _ _ _ Hr). done.
  - rewrite Heq. apply NoDup_reconcile.
  - intros n Hn. by apply Hact in Hn as [? _].
  - rewrite Heq, reconcile_additives; [apply Hv|apply Hv|].
    intros n Hn. rewrite (available_registered _ _ Ht). by apply (rv_registered _ Hv).
Qed.

Lemma restore_recoverable w :
  getAllTools (host_of w) = Some tools → recoverable w →
  getActiveTools (host_of (restorePi w)) = base.
Proof.
  intros Ht [Hs Hnd Hreg Hadd]. destruct w as [[p h] out].
  unfold state_of, host_of in *. simpl in Ht, Hs, Hnd, Hreg, Hadd.
  unfold restorePi. cbn [fst snd].
  assert (Hnext : (match state p with
    | Some s => restorePiActiveToolNames (getActiveTools h) (available_names s h)
                  (Some (baselineOrder s)) (suppressedPiCore s)
    | None => restorePiActiveToolNames (getActiveTools h)
                match getAllTools h with Some tools => names_of tools | None => getActiveTools h end
                None [] end) = base).
  { destruct (state p) as [s|].
    - destruct Hs as [-> ->]. rewrite (available_registered _ _ Ht). by apply restore_baseline.
    - rewrite Ht. unfold restorePiActiveToolNames. rewrite orderedUnique_id by done.
      fold (keeps (λ n, js_elem n (names_of tools) && negb (isManagedToolName n)) (getActiveTools h)).
      rewrite Hs. apply keeps_all. intros n [Hn ->]%base_names.
      by rewrite (proj2 (js_elem_spec n _) Hn). }
  rewrite Hnext. apply apply_active; [done..| |done]. intros n Hn. by apply base_names.
Qed.

Lemma step_recoverable op w :
  getAllTools (host_of w) = Some tools → profile_safe w → recoverable w → recoverable (step op w).
Proof.
  intros Ht Hs Hv. destruct (step_cases op w Ht Hs) as [->|[->|[s' Hc]]]; [done| |].
  - pose proof (restore_recoverable w Ht Hv) as Hb.
    destruct (restore_result w) as (_ & Hst & _ & _).
    constructor; rewrite ?Hst, ?Hb; try done. intros n Hn. by apply base_names.
  - by eapply codex_step_recoverable.
Qed.

Lemma run_recoverable ops w :
  getAllTools (host_of w) = Some tools → profile_safe w → recoverable w →
  getAllTools (host_of (run ops w)) = Some tools ∧ recoverable (run ops w).
Proof.
  revert w; induction ops as [|op ops IH]; intros w Ht Hs Hv; [done|]. simpl.
  destruct (step_safe op w Ht Hs). apply IH; [done..|by apply step_recoverable].
Qed.
End runs.

(** after any calls on a fresh profile, over a registry that stays the
    same, a profile in the Codex state has no Pi core tool active, and the
    managed tools that are active are exactly those of its state, each
    registered last by the adaptor's own entry; unless the readiness is
    [healthy] there are none. *)
Theorem codex_profile_is_safe {H} `{ExtensionAPILaws H} norm tools (h : H) entry ops s :
  getAllTools h = Some tools →
  let w := profile_run norm ops (new_profile norm entry, h, []) in
  state_of w = Some s → safe_state norm tools w s.
Proof.
  intros Ht w Hs. pose proof (run_safe norm tools ops (new_profile norm entry, h, []) Ht eq_refl) as Hsafe.
  fold w in Hsafe. unfold profile_safe in Hsafe. by rewrite Hs in Hsafe.
Qed.

(** whatever the profile did since Pi started with the active tools
    [base], restoring gives the host exactly those tools in their order, and
    the profile is inactive. *)
Theorem restore_gives_tools_back {H} `{ExtensionAPILaws H} norm tools (h : H) entry ops :
  getAllTools h = Some tools →
  NoDup (getActiveTools h) →
  (∀ n, n ∈ getActiveTools h → n ∈ names_of tools ∧ isManagedToolName n = false) →
  let w := restorePi (profile_run norm ops (new_profile norm entry, h, [])) in
  getActiveTools (host_of w) = getActiveTools h ∧ state_of w = None ∧ readiness_of w = inactive.
Proof.
  intros Ht Hnd Hbase w.
  destruct (run_recoverable norm tools (getActiveTools h) Hnd Hbase ops
    (new_profile norm entry, h, [])) as [Ht' Hv]; [done|done| |].
  { constructor; try done. intros n Hn. by apply Hbase. }
  split; [by apply (restore_recoverable tools)|]. by destruct (restore_result
    (profile_run norm ops (new_profile norm entry, h, []))) as (_ & ? & ? & _).
Qed.

(** ** A host that keeps its two lists *)

Record plain_host := { ph_active : list string; ph_tools : list ToolInfo }.
#[export] Instance plain_host_api : ExtensionAPI plain_host := {|
  getActiveTools := ph_active;
  getAllTools h := Some (ph_tools h);
  setActiveTools names h := {| ph_active := names; ph_tools := ph_tools h |} |}.
#[export] Instance plain_host_laws : ExtensionAPILaws plain_host.
Proof. by constructor. Qed.

Definition sample_host : plain_host := {|
  ph_active := ["read"; "todo"; "bash"];
  ph_tools := (λ n, {| tool_name := n; tool_path := Some "/ext" |}) <$>
    ["read"; "bash"; "todo"; "exec_command"; "apply_patch"] |}.

Definition sample_ops : list profile_op :=
  [PPending (Some "k"); PHealthy "k" ["exec_command"; "apply_patch"] (Some loader_exec_command) true].

Lemma codex_profile_is_safe_witness :
  let w := profile_run (λ p, p) sample_ops (new_profile (λ p, p) (Some "/ext"), sample_host, []) in
  getActiveTools (host_of w) = ["todo"; "exec_command"; "apply_patch"] ∧
  (isPiCoreAgentToolName "todo" = false).
Proof.
  split; [reflexivity|].
  refine (ss_core _ _ _ _ (codex_profile_is_safe (λ p, p) (ph_tools sample_host) sample_host
    (Some "/ext") sample_ops _ eq_refl eq_refl) "todo" _).
  by apply js_elem_spec.
Defined.

Lemma restore_gives_tools_back_witness :
  let w := restorePi (profile_run (λ p, p) sample_ops
             (new_profile (λ p, p) (Some "/ext"), sample_host, [])) in
  getActiveTools (host_of w) = ["read"; "todo"; "bash"] ∧ state_of w = None ∧
  readiness_of w = inactive.
Proof.
  change ["read"; "todo"; "bash"] with (getActiveTools sample_host).
  apply (restore_gives_tools_back (λ p, p) (ph_tools sample_host) sample_host (Some "/ext") sample_ops).
  - reflexivity.
  - apply (bool_decide_unpack (NoDup _)); vm_compute; exact I.
  - intros n Hn. simpl in Hn. rewrite !elem_of_cons, elem_of_nil in Hn.
    repeat destruct Hn as [->|Hn]; try done; (split; [by apply js_elem_spec|reflexivity]).
Defined.
