(* ===== verification/Protocol.v ===== *)
(** * Protocol

    [src/src/infrastructure/codex-bridge/protocol.ts]: the message schemas of
    the bridge protocol, the handshake check, the line framing with its incremental
    decoder, and the encoder. *)

From Stdlib Require Import Strings.Byte.
From S2P Require Import Prelude.

Abbreviation byte := Byte.byte.
Abbreviation bytes := (list Byte.byte).

#[export] Instance byte_eq_dec : EqDecision byte.
Proof. exact Byte.byte_eq_dec. Defined.

Definition LF : byte := x0a.
Definition CR : byte := x0d.
Definition byteLength (b : bytes) : Z := Z.of_nat (length b).

(** ** Identity ([identity.ts]) *)

Definition BRIDGE_PROTOCOL_VERSION : Z := 8.
Definition OFFICIAL_CODEX_VERSION : string := "0.146.0".
Definition OFFICIAL_CODEX_TAG : string := "rust-v0.146.0".
Definition OFFICIAL_SOURCE_COMMIT : string := "e363b08c9175ac1cbe5893615dd2cb9ddf95043b".
Definition VENDOR_TREE_SHA256 : string := "4480020e4ec987e750247807b040a0402f391baa7c268242c0019eaac6da6574".

Inductive SupportedNativeTarget :=
| linux_x64 | linux_arm64 | darwin_x64 | darwin_arm64 | windows_x64.
Definition target_triple (t : SupportedNativeTarget) : string :=
  match t with
  | linux_x64 => "x86_64-unknown-linux-musl"
  | linux_arm64 => "aarch64-unknown-linux-musl"
  | darwin_x64 => "x86_64-apple-darwin"
  | darwin_arm64 => "aarch64-apple-darwin"
  | windows_x64 => "x86_64-pc-windows-msvc"
  end.
Definition targetByPlatform : list (string * SupportedNativeTarget) :=
  [("linux/x64", linux_x64); ("linux/arm64", linux_arm64); ("darwin/x64", darwin_x64);
   ("darwin/arm64", darwin_arm64); ("win32/x64", windows_x64)].
Definition nativeTargetFor (platform architecture : string) : option SupportedNativeTarget :=
  snd <$> find (λ e, String.eqb e.1 (platform ++ "/" ++ architecture)%string) targetByPlatform.

Definition MAX_FRAME_BYTES : Z := 16 * 1024 * 1024.
Definition MAX_PENDING_EVENTS : Z := 256.

(** ** Schemas

    The schema language is TypeBox's, a third-party library; [conforms] is
    the documented meaning of the constructors the code uses (JSON Schema),
    with [additionalProperties: false] on every object. *)

Inductive schema :=
| SString (minLength maxLength : option Z)
| SHex (count : nat)                       (* pattern ^[0-9a-f]{count}$ *)
| SInteger (minimum : Z) (maximum : option Z)
| SBoolean
| SUnknown
| SLiteral (s : string)
| SLiteralInt (z : Z)
| SArray (item : schema) (minItems : Z)    (* uniqueItems *)
| SRecord (key value : schema)
| SObject (properties : list (string * bool * schema)) (* name, optional, schema *)
| SUnion (alternatives : list schema).

Definition hex_digit (c : ascii) : bool :=
  let n := unit_of c in
  (bool_decide (48 ≤ n ∧ n ≤ 57) || bool_decide (97 ≤ n ∧ n ≤ 102))%N.
Definition is_hex (count : nat) (s : string) : bool :=
  (String.length s =? count)%nat && str_forall hex_digit s.

Definition within (lo : Z) (hi : option Z) (n : Z) : bool :=
  bool_decide (lo ≤ n)%Z && match hi with Some hi => bool_decide (n ≤ hi)%Z | None => true end.

Fixpoint conforms (s : schema) (v : jsval) : bool :=
  match s, v with
  | SUnknown, _ => true
  | SString lo hi, VStr t => within (default 0%Z lo) hi (Z.of_nat (String.length t))
  | SHex count, VStr t => is_hex count t
  | SInteger lo hi, VNum n => match num_integer n with Some z => within lo hi z | None => false end
  | SBoolean, VBool _ => true
  | SLiteral t, VStr t' => String.eqb t t'
  | SLiteralInt z, VNum n => num_eqb n z
  | SArray item lo, VArr vs =>
      bool_decide (lo ≤ Z.of_nat (length vs))%Z && forallb (conforms item) vs && bool_decide (NoDup vs)
  | SRecord key value, VObj fs =>
      forallb (λ kv, conforms key (VStr kv.1) && conforms value kv.2) fs
  | SObject properties, VObj fs =>
      forallb (λ p, let '(k, optional, s') := p in
        if js_elem k (keys fs) then conforms s' (field fs k) else optional) properties &&
      forallb (λ k, js_elem k ((λ p, p.1.1) <$> properties)) (keys fs)
  | SUnion alternatives, _ => existsb (λ s', conforms s' v) alternatives
  | _, _ => false
  end.

Definition text (lo hi : Z) : schema := SString (Some lo) (Some hi).
Definition literals (ls : list string) : schema := SUnion (SLiteral <$> ls).
Definition req (k : string) (s : schema) : string * bool * schema := (k, false, s).
Definition opt (k : string) (s : schema) : string * bool * schema := (k, true, s).

Definition RequestId : schema := text 1 256.
Definition Sequence : schema := SInteger 0 (Some 4294967295%Z).

Definition ProviderAuthentication : schema := SUnion [
  SObject [req "kind" (SLiteral "bearer"); req "token" (text 1 (1024 * 1024))];
  SObject [req "kind" (SLiteral "none")]].

Definition ProviderConnectionSchema : schema := SObject [
  req "providerId" (text 1 256);
  req "baseUrl" (text 1 2048);
  req "headers" (SRecord (text 1 256) (SString None (Some (1024 * 1024)%Z)));
  req "authentication" ProviderAuthentication;
  opt "accountId" (text 1 256);
  opt "maxRetries" (SInteger 0 (Some 10%Z));
  opt "timeoutMs" (SUnion [SInteger 1 (Some 86400000%Z); SLiteralInt 2147483647]);
  opt "websocketConnectTimeoutMs" (SInteger 1 (Some 86400000%Z))].

Definition ApprovalDecision : schema :=
  literals ["allow_once"; "allow_session"; "decline"; "cancel"].
Definition NativeApprovalPolicySchema : schema := literals ["on-request"; "never"].
Definition RequestMethod : schema := literals
  ["responses.create"; "responses.compact"; "responses.estimate_context"; "models.resolve";
   "tools.resolve"; "tools.execute"; "diagnostics.read"].

Definition ClientMessageSchema : schema := SUnion [
  SObject [req "type" (SLiteral "initialize"); req "requestId" RequestId;
           req "protocolVersion" (SInteger 0 (Some 4294967295%Z));
           req "client" (SObject [req "name" (text 1 256); req "version" (text 1 256)])];
  SObject [req "type" (SLiteral "request"); req "requestId" RequestId;
           req "method" RequestMethod; req "params" SUnknown];
  SObject [req "type" (SLiteral "cancel"); req "requestId" RequestId;
           req "targetRequestId" RequestId];
  SObject [req "type" (SLiteral "approval_decision"); req "requestId" RequestId;
           req "approvalId" RequestId; req "decision" ApprovalDecision];
  SObject [req "type" (SLiteral "session_write"); req "requestId" RequestId;
           req "sessionId" RequestId; req "approvalPolicy" NativeApprovalPolicySchema;
           req "data" (SString None None)];
  SObject [req "type" (SLiteral "session_resize"); req "requestId" RequestId;
           req "sessionId" RequestId; req "columns" (SInteger 1 (Some 65535%Z));
           req "rows" (SInteger 1 (Some 65535%Z))];
  SObject [req "type" (SLiteral "session_terminate"); req "requestId" RequestId;
           req "sessionId" RequestId];
  SObject [req "type" (SLiteral "acknowledge"); req "targetRequestId" RequestId;
           req "sequence" Sequence];
  SObject [req "type" (SLiteral "shutdown"); req "requestId" RequestId]].

Definition bridge_capabilities : list string :=
  ["responses_sse"; "responses_websocket"; "remote_compaction_v2"; "compact_endpoint";
   "model_metadata"; "context_estimation"; "update_plan"; "unified_exec"; "shell_command";
   "apply_patch"; "view_image"; "image_generation"; "standalone_web_search";
   "hosted_web_search"].
Definition BridgeCapability : schema := literals bridge_capabilities.
Definition TerminalStatus : schema :=
  literals ["completed"; "incomplete"; "failed"; "aborted"; "timed_out"].

Definition BridgeError : schema := SObject [
  req "category" (literals ["ConfigurationError"; "AuthenticationError"; "ProtocolError";
                            "CapabilityError"; "NativeToolError"]);
  req "code" (text 1 256);
  req "message" (SString None (Some 4096%Z));
  req "retryable" SBoolean].

Definition ApprovalRequest : schema := SObject [
  req "approvalId" RequestId;
  req "operation" (literals ["command"; "patch"; "filesystem"; "network"]);
  req "summary" (SString None (Some 4096%Z));
  req "details" SUnknown;
  req "availableDecisions" (SArray ApprovalDecision 1)].

Definition HandshakeSchema : schema := SObject [
  req "bridgeProtocolVersion" (SInteger 0 (Some 4294967295%Z));
  req "officialCodexVersion" (SString (Some 1%Z) None);
  req "officialCodexTag" (SString (Some 1%Z) None);
  req "officialSourceCommit" (SHex 40);
  req "buildTarget" (text 1 256);
  req "buildSourceCommit" (SUnion [SHex 40; SLiteral "development"]);
  req "vendorTreeSha256" (SHex 64);
  req "maxFrameBytes" (SInteger 1 None);
  req "maxPendingEvents" (SInteger 1 (Some 4294967295%Z));
  req "capabilities" (SArray BridgeCapability 0)].

Definition server_alternatives : list (string * list (string * bool * schema)) := [
  ("handshake", [req "requestId" RequestId; req "handshake" HandshakeSchema]);
  ("event", [req "requestId" RequestId; req "sequence" Sequence; req "event" SUnknown]);
  ("result", [req "requestId" RequestId; req "status" TerminalStatus; req "result" SUnknown]);
  ("error", [opt "requestId" RequestId; req "error" BridgeError]);
  ("approval_request", [req "requestId" RequestId; req "approval" ApprovalRequest]);
  ("backpressure", [opt "requestId" RequestId; req "state" (literals ["paused"; "resumed"]);
                    req "pendingEvents" (SInteger 0 (Some 4294967295%Z));
                    req "capacity" (SInteger 1 (Some 4294967295%Z))])].

Definition ServerMessageSchema : schema :=
  SUnion ((λ a, SObject (req "type" (SLiteral a.1) :: a.2)) <$> server_alternatives).

(** ** Errors *)

Inductive BridgeProtocolErrorCode :=
| empty_frame | frame_too_large | handshake_mismatch | invalid_frame | multiple_frames
| truncated_frame.
#[export] Instance code_eq_dec : EqDecision BridgeProtocolErrorCode.
Proof. solve_decision. Defined.

(** [BridgeProtocolError], by its code. *)
Abbreviation protocol := (outcome BridgeProtocolErrorCode).

(** ** Handshake *)

Record BridgeHandshake := {
  bridgeProtocolVersion : Z;
  officialCodexVersion : string;
  officialCodexTag : string;
  officialSourceCommit : string;
  buildTarget : string;
  buildSourceCommit : string;
  vendorTreeSha256 : string;
  maxFrameBytes : Z;
  maxPendingEvents : Z;
  capabilities : list string }.

Record HandshakeVerificationOptions := {
  allowDevelopmentBuild : bool;
  expectedBuildSourceCommit : option string }.

Definition verifyHandshake (handshake : BridgeHandshake) (expectedBuildTarget : string)
    (options : HandshakeVerificationOptions) : protocol unit :=
  let mismatch b := guard_throw b handshake_mismatch in
  _ ← mismatch (Z.eqb (bridgeProtocolVersion handshake) BRIDGE_PROTOCOL_VERSION);
  _ ← mismatch (String.eqb (officialCodexVersion handshake) OFFICIAL_CODEX_VERSION);
  _ ← mismatch (String.eqb (officialCodexTag handshake) OFFICIAL_CODEX_TAG);
  _ ← mismatch (String.eqb (officialSourceCommit handshake) OFFICIAL_SOURCE_COMMIT);
  _ ← mismatch (String.eqb (buildTarget handshake) expectedBuildTarget);
  _ ← mismatch (String.eqb (vendorTreeSha256 handshake) VENDOR_TREE_SHA256);
  _ ← mismatch (Z.eqb (maxFrameBytes handshake) MAX_FRAME_BYTES);
  _ ← mismatch (Z.eqb (maxPendingEvents handshake) MAX_PENDING_EVENTS);
  _ ← mismatch (if String.eqb (buildSourceCommit handshake) "development"
                then allowDevelopmentBuild options
                else is_hex 40 (buildSourceCommit handshake));
  mismatch (match expectedBuildSourceCommit options with
            | Some commit => String.eqb (buildSourceCommit handshake) commit
            | None => true end).

(** ** Frames *)

Definition stripLineTerminator (frame : bytes) : bytes :=
  if bool_decide (last frame = Some LF) then
    let withoutLineFeed := removelast frame in
    if bool_decide (last withoutLineFeed = Some CR) then removelast withoutLineFeed
    else withoutLineFeed
  else frame.

Section frames.
(** TypeBox's compiled validator; UTF-8 decoding followed by [JSON.parse], and
    [JSON.stringify] followed by UTF-8 encoding, which fail when they throw. *)
Context (Check_ : schema → jsval → bool).
Context (parse_json : bytes → option jsval) (json_bytes : jsval → option bytes).

Definition decodeServerFrame (frame : bytes) : protocol jsval :=
  let payload := stripLineTerminator frame in
  if bool_decide (byteLength payload = 0%Z) then Throw empty_frame
  else if bool_decide (MAX_FRAME_BYTES < byteLength payload)%Z then Throw frame_too_large
  else if bool_decide (LF ∈ payload) || bool_decide (CR ∈ payload) then Throw multiple_frames
  else match parse_json payload with
    | None => Throw invalid_frame
    | Some value => if Check_ ServerMessageSchema value then Ret value else Throw invalid_frame
    end.

Definition encodeClientMessage (message : jsval) : protocol bytes :=
  if negb (Check_ ClientMessageSchema message) then Throw invalid_frame else
  match json_bytes message with
  | None => Throw invalid_frame
  | Some payload =>
      if bool_decide (MAX_FRAME_BYTES < byteLength payload)%Z then Throw frame_too_large
      else Ret (payload ++ [LF])
  end.

(** *** The incremental decoder *)

Record ServerFrameDecoder := { chunks : list bytes; pendingBytes : Z }.

Definition new_decoder : ServerFrameDecoder := {| chunks := []; pendingBytes := 0 |}.
Definition reset : ServerFrameDecoder := {| chunks := []; pendingBytes := 0 |}.

(** Methods return their outcome and the decoder after it, thrown or not. *)
Definition append_part (part : bytes) (d : ServerFrameDecoder)
    : protocol unit * ServerFrameDecoder :=
  if bool_decide (byteLength part = 0%Z) then (Ret tt, d) else
  let d := {| chunks := chunks d ++ [part]; pendingBytes := pendingBytes d + byteLength part |} in
  let permitsTrailingCarriageReturn :=
    bool_decide (pendingBytes d = MAX_FRAME_BYTES + 1)%Z && bool_decide (last part = Some CR) in
  if bool_decide (MAX_FRAME_BYTES < pendingBytes d)%Z && negb permitsTrailingCarriageReturn
  then (Throw frame_too_large, reset)
  else (Ret tt, d).

(** The bytes up to the first line feed, and those after it. *)
Fixpoint split_line (chunk : bytes) : option (bytes * bytes) :=
  match chunk with
  | [] => None
  | b :: chunk' =>
      if bool_decide (b = LF) then Some ([], chunk')
      else '(line, rest) ← split_line chunk'; Some (b :: line, rest)
  end.

(** The loop of [push]; [fuel] bounds the lines of the chunk by its length. *)
Fixpoint push_lines (fuel : nat) (chunk : bytes) (messages : list jsval) (d : ServerFrameDecoder)
    : protocol (list jsval) * ServerFrameDecoder :=
  match fuel, split_line chunk with
  | S fuel, Some (line, rest) =>
      match append_part line d with
      | (Throw e, d) => (Throw e, d)
      | (Ret _, d) =>
          let frame := concat (chunks d) ++ [LF] in
          match decodeServerFrame frame with
          | Throw e => (Throw e, reset)
          | Ret message => push_lines fuel rest (messages ++ [message]) reset
          end
      end
  | _, _ =>
      match append_part chunk d with
      | (Throw e, d) => (Throw e, d)
      | (Ret _, d) => (Ret messages, d)
      end
  end.

Definition push (chunk : bytes) (d : ServerFrameDecoder)
    : protocol (list jsval) * ServerFrameDecoder :=
  push_lines (length chunk) chunk [] d.

Definition finish (d : ServerFrameDecoder) : protocol unit * ServerFrameDecoder :=
  if bool_decide (pendingBytes d = 0%Z) then (Ret tt, d) else (Throw truncated_frame, reset).

(** A consumer that pushes chunks until one throws. *)
Fixpoint push_all (cs : list bytes) (d : ServerFrameDecoder)
    : protocol (list jsval) * ServerFrameDecoder :=
  match cs with
  | [] => (Ret [], d)
  | c :: cs =>
      match push c d with
      | (Throw e, d) => (Throw e, d)
      | (Ret ms, d) =>
          match push_all cs d with
          | (Throw e, d) => (Throw e, d)
          | (Ret ms', d) => (Ret (ms ++ ms'), d)
          end
      end
  end.
End frames.
