(* ===== verification/ProtocolFacts.v ===== *)
(** * ProtocolFacts

    The incremental decoder is independent of how the stream is cut into
    chunks and holds a bounded number of bytes, whatever the stream; a stream
    of valid frames is delivered whole and in order. *)

From Stdlib Require Import Strings.Byte.
From S2P Require Import Prelude Protocol.

(** ** The handshake *)

(** a handshake is accepted exactly when every product constant matches,
    the target is the expected one, and the build source is a commit, or a
    development build where those are allowed, and the packaged commit when
    one is expected. *)
Theorem verifyHandshake_iff h target options :
  verifyHandshake h target options = Ret tt ↔
  bridgeProtocolVersion h = BRIDGE_PROTOCOL_VERSION ∧
  officialCodexVersion h = OFFICIAL_CODEX_VERSION ∧
  officialCodexTag h = OFFICIAL_CODEX_TAG ∧
  officialSourceCommit h = OFFICIAL_SOURCE_COMMIT ∧
  buildTarget h = target ∧
  vendorTreeSha256 h = VENDOR_TREE_SHA256 ∧
  maxFrameBytes h = MAX_FRAME_BYTES ∧
  maxPendingEvents h = MAX_PENDING_EVENTS ∧
  (if decide (buildSourceCommit h = "development") then allowDevelopmentBuild options = true
   else is_hex 40 (buildSourceCommit h) = true) ∧
  (∀ commit, expectedBuildSourceCommit options = Some commit → buildSourceCommit h = commit).
Proof.
  assert (Hd : (if String.eqb (buildSourceCommit h) "development"
                then allowDevelopmentBuild options else is_hex 40 (buildSourceCommit h)) = true ↔
    if decide (buildSourceCommit h = "development") then allowDevelopmentBuild options = true
    else is_hex 40 (buildSourceCommit h) = true).
  { destruct (String.eqb_spec (buildSourceCommit h) "development"); by case_decide. }
  assert (He : (match expectedBuildSourceCommit options with
                | Some commit => String.eqb (buildSourceCommit h) commit | None => true end) = true ↔
    ∀ commit, expectedBuildSourceCommit options = Some commit → buildSourceCommit h = commit).
  { destruct (expectedBuildSourceCommit options) as [c|]; [|done]. rewrite String.eqb_eq.
    split; [by intros ? ? [= <-]|intros Hc; by apply Hc]. }
  rewrite <-Hd, <-He. unfold verifyHandshake. rewrite !guard_bind_iff, guard_throw_ret.
  by rewrite !Z.eqb_eq, !String.eqb_eq.
Qed.

(** ** Reference: one byte at a time *)

Section decoder.
Context (Check_ : schema → jsval → bool) (parse_json : bytes → option jsval).
Local Abbreviation decode := (decodeServerFrame Check_ parse_json).

Definition overlong (pending : bytes) : bool :=
  bool_decide (MAX_FRAME_BYTES < byteLength pending)%Z &&
  negb (bool_decide (byteLength pending = MAX_FRAME_BYTES + 1)%Z && bool_decide (last pending = Some CR)).

(** The messages of a stream and the unfinished line at its end; a line that
    grows too long, or does not decode, is the error of the stream. *)
Fixpoint read_stream (pending input : bytes) : protocol (list jsval * bytes) :=
  match input with
  | [] => Ret ([], pending)
  | b :: input =>
      if bool_decide (b = LF) then
        m ← decode (pending ++ [LF]);
        '(ms, rest) ← read_stream [] input;
        Ret (m :: ms, rest)
      else if overlong (pending ++ [b]) then Throw frame_too_large
      else read_stream (pending ++ [b]) input
  end.

Lemma byteLength_app a b : byteLength (a ++ b) = (byteLength a + byteLength b)%Z.
Proof. unfold byteLength. rewrite length_app. lia. Qed.

Lemma overlong_grows p q : q ≠ [] → overlong p = true → overlong (p ++ q) = true.
Proof.
  intros Hq. unfold overlong. rewrite !andb_true_iff, !negb_true_iff, byteLength_app.
  assert (0 < byteLength q)%Z by (destruct q; [done|]; unfold byteLength; simpl; lia).
  intros [Hlen%bool_decide_eq_true _]. split; [apply bool_decide_eq_true; lia|].
  rewrite bool_decide_eq_false_2; [done|lia].
Qed.

Lemma read_part pending part rest :
  LF ∉ part → overlong pending = false →
  read_stream pending (part ++ rest) =
    if overlong (pending ++ part) then Throw frame_too_large
    else read_stream (pending ++ part) rest.
Proof.
  revert pending; induction part as [|b part IH]; intros pending Hlf Hp; cbn [app read_stream].
  { rewrite app_nil_r. by rewrite Hp. }
  apply not_elem_of_cons in Hlf as [Hb Hlf]. rewrite bool_decide_eq_false_2 by done.
  destruct (overlong (pending ++ [b])) eqn:Hov.
  - destruct part as [|c part]; [by rewrite Hov|].
    replace (pending ++ b :: c :: part) with ((pending ++ [b]) ++ c :: part)
      by (by rewrite <-app_assoc). by rewrite overlong_grows.
  - rewrite IH, <-app_assoc by done. done.
Qed.

Lemma read_stream_app pending a b :
  read_stream pending (a ++ b) =
    ('(ms, p) ← read_stream pending a;
     '(ms', p') ← read_stream p b;
     Ret (ms ++ ms', p')).
Proof.
  revert pending; induction a as [|c a IH]; intros pending; cbn [app read_stream].
  { simpl. by destruct (read_stream pending b) as [[]|]. }
  case_bool_decide.
  - destruct (decode _) as [m|e]; [|done]. cbn [mbind outcome_bind]. rewrite IH.
    destruct (read_stream [] a) as [[ms p]|e]; [|done]. cbn [mbind outcome_bind].
    by destruct (read_stream p b) as [[]|].
  - case_match; [done|]. apply IH.
Qed.

(** ** The chunked decoder *)

Record decoder_wf (d : ServerFrameDecoder) : Prop := {
  wf_bytes : pendingBytes d = byteLength (concat (chunks d));
  wf_short : overlong (concat (chunks d)) = false }.

Lemma new_decoder_wf : decoder_wf new_decoder.
Proof. by split. Qed.

Lemma append_spec part d : decoder_wf d →
  if overlong (concat (chunks d) ++ part) then append_part part d = (Throw frame_too_large, reset)
  else ∃ d', append_part part d = (Ret tt, d') ∧ decoder_wf d' ∧
             concat (chunks d') = concat (chunks d) ++ part.
Proof.
  intros [Hb Hs]. unfold append_part. case_bool_decide as Hp.
  - assert (part = []) as -> by (destruct part; [done|]; unfold byteLength in Hp; simpl in Hp; lia).
    rewrite app_nil_r, Hs. by exists d.
  - assert (last (concat (chunks d) ++ part) = last part) as Hlast.
    { destruct part as [|b part] using rev_ind; [done|]. by rewrite app_assoc, !last_snoc. }
    cbn [pendingBytes]. rewrite Hb, <-byteLength_app.
    destruct (overlong (concat (chunks d) ++ part)) eqn:Hov; unfold overlong in Hov;
      rewrite Hlast in Hov; rewrite Hov; [done|].
    eexists. split; [done|]. assert (Hc : concat (chunks d ++ [part]) = concat (chunks d) ++ part)
      by (by rewrite concat_app; simpl; rewrite app_nil_r).
    split; [|exact Hc]. split; cbn [pendingBytes chunks]; rewrite Hc; [done|].
    unfold overlong. by rewrite Hlast.
Qed.

Lemma split_line_Some chunk line rest :
  split_line chunk = Some (line, rest) → chunk = line ++ LF :: rest ∧ LF ∉ line.
Proof.
  revert line; induction chunk as [|b chunk IH]; intros line; simpl; [done|].
  case_bool_decide as Hb.
  - intros [= <- <-]. subst. split; [done|]. apply not_elem_of_nil.
  - destruct (split_line chunk) as [[l r]|]; [|done]. intros [= <- <-].
    destruct (IH l eq_refl) as [-> Hl]. split; [done|]. apply not_elem_of_cons. naive_solver.
Qed.

Lemma split_line_None chunk : split_line chunk = None → LF ∉ chunk.
Proof.
  induction chunk as [|b chunk IH]; simpl; [intros _; apply not_elem_of_nil|].
  case_bool_decide; [done|]. destruct (split_line chunk) as [[]|]; [done|].
  intros _. apply not_elem_of_cons. naive_solver.
Qed.

(** What a push should do, given what the reference reads. *)
Definition agrees (messages : list jsval) (r : protocol (list jsval * bytes))
    (res : protocol (list jsval) * ServerFrameDecoder) : Prop :=
  decoder_wf res.2 ∧
  match r with
  | Throw e => res = (Throw e, reset)
  | Ret (ms, p) => res.1 = Ret (messages ++ ms) ∧ concat (chunks res.2) = p
  end.

Lemma push_lines_spec fuel chunk messages d :
  decoder_wf d → length chunk ≤ fuel →
  agrees messages (read_stream (concat (chunks d)) chunk)
    (push_lines Check_ parse_json fuel chunk messages d).
Proof.
  revert chunk messages d; induction fuel as [|fuel IH]; intros chunk messages d Hwf Hlen.
  { destruct chunk; [|simpl in Hlen; lia]. simpl. split; [done|]. by rewrite app_nil_r. }
  cbn [push_lines]. destruct (split_line chunk) as [[line rest]|] eqn:Hsplit.
  - apply split_line_Some in Hsplit as [-> Hlf].
    rewrite (read_part _ line) by (done || apply Hwf).
    pose proof (append_spec line d Hwf) as Happ. destruct (overlong _).
    { rewrite Happ. split; [apply new_decoder_wf|done]. }
    destruct Happ as (d' & -> & _ & Hc). rewrite Hc. cbn [read_stream].
    rewrite bool_decide_eq_true_2 by done.
    destruct (decode _) as [m|e]; cbn [mbind outcome_bind]; [|split; [apply new_decoder_wf|done]].
    rewrite length_app in Hlen. simpl in Hlen.
    destruct (IH rest (messages ++ [m]) reset new_decoder_wf ltac:(lia)) as [Hwf' Hres].
    split; [done|]. cbn [chunks reset concat] in Hres.
    destruct (read_stream [] rest) as [[ms p]|e]; cbn [mbind outcome_bind]; [|done].
    destruct Hres as [-> ?]. by rewrite <-app_assoc.
  - apply split_line_None in Hsplit. rewrite <-(app_nil_r chunk) at 1.
    rewrite (read_part _ chunk) by (done || apply Hwf).
    pose proof (append_spec chunk d Hwf) as Happ. destruct (overlong _).
    { rewrite Happ. split; [apply new_decoder_wf|done]. }
    destruct Happ as (d' & -> & Hwf' & Hc). split; [done|]. simpl. by rewrite app_nil_r.
Qed.

Lemma push_spec chunk d : decoder_wf d →
  agrees [] (read_stream (concat (chunks d)) chunk) (push Check_ parse_json chunk d).
Proof. intros Hwf. by apply push_lines_spec. Qed.

Lemma push_all_spec cs d : decoder_wf d →
  agrees [] (read_stream (concat (chunks d)) (concat cs)) (push_all Check_ parse_json cs d).
Proof.
  revert d; induction cs as [|c cs IH]; intros d Hwf; cbn [concat push_all]; [by split|].
  rewrite read_stream_app. destruct (push_spec c d Hwf) as [Hwf' Hc].
  destruct (push Check_ parse_json c d) as [res d'].
  destruct (read_stream (concat (chunks d)) c) as [[ms p]|e]; cbn [mbind outcome_bind].
  - destruct Hc as [Hres Hp]. simpl in Hres, Hp, Hwf'. subst res p. simpl.
    destruct (IH d' Hwf') as [Hwf2 Hcs]. destruct (push_all Check_ parse_json cs d') as [res2 d2].
    destruct (read_stream (concat (chunks d')) (concat cs)) as [[ms2 p2]|e2]; cbn [mbind outcome_bind].
    + destruct Hcs as [Hres2 Hp2]. simpl in *. subst. by split.
    + simplify_eq. by split.
  - simplify_eq. split; [apply new_decoder_wf|done].
Qed.
End decoder.

(** the outcome of pushing a stream chunk by chunk (the messages and the
    unfinished rest, or the error) is that of reading it one byte at a time, so
    it does not depend on where the stream is cut. *)
Theorem push_all_reads_stream Check_ parse_json cs :
  let res := push_all Check_ parse_json cs new_decoder in
  match read_stream Check_ parse_json [] (concat cs) with
  | Ret (ms, rest) => res.1 = Ret ms ∧ concat (chunks res.2) = rest
  | Throw e => res = (Throw e, new_decoder)
  end.
Proof.
  destruct (push_all_spec Check_ parse_json cs new_decoder new_decoder_wf) as [_ Hag].
  exact Hag.
Qed.

(** after any chunks, accepted or refused, the decoder retains at most
    16 MiB and one byte, and its counter is the number of bytes it retains. *)
Theorem decoder_memory_bounded Check_ parse_json cs :
  let d := (push_all Check_ parse_json cs new_decoder).2 in
  pendingBytes d = byteLength (concat (chunks d)) ∧
  (0 ≤ pendingBytes d ≤ MAX_FRAME_BYTES + 1)%Z.
Proof.
  destruct (push_all_spec Check_ parse_json cs new_decoder new_decoder_wf) as [[Hb Hs] _].
  split; [done|]. rewrite Hb. unfold overlong in Hs. unfold byteLength in *. split; [lia|].
  apply andb_false_iff in Hs as [Hs|Hs]; [apply bool_decide_eq_false in Hs; lia|].
  apply negb_false_iff, andb_true_iff in Hs as [Hs%bool_decide_eq_true _]. lia.
Qed.

(** ** Delivery *)

(** A line the server may send: a payload and how it ends it. *)
Record line := { payload : bytes; crlf : bool }.
Definition line_bytes (l : line) : bytes := payload l ++ (if crlf l then [CR; LF] else [LF]).

Definition good_line Check_ (parse_json : bytes → option jsval) (l : line) (v : jsval) : Prop :=
  payload l ≠ [] ∧ (byteLength (payload l) ≤ MAX_FRAME_BYTES)%Z ∧
  (LF ∉ payload l) ∧ (CR ∉ payload l) ∧
  parse_json (payload l) = Some v ∧ Check_ ServerMessageSchema v = true.

Lemma strip_line l : CR ∉ payload l → LF ∉ payload l → stripLineTerminator (line_bytes l) = payload l.
Proof.
  intros Hcr Hlf. unfold stripLineTerminator, line_bytes. destruct (crlf l).
  - replace (payload l ++ [CR; LF]) with ((payload l ++ [CR]) ++ [LF]) by (by rewrite <-app_assoc).
    rewrite last_snoc, bool_decide_eq_true_2, removelast_last by done. cbv zeta.
    by rewrite last_snoc, bool_decide_eq_true_2, removelast_last by done.
  - rewrite last_snoc, bool_decide_eq_true_2, removelast_last by done. cbv zeta.
    rewrite bool_decide_eq_false_2; [done|]. intros [k Hk]%last_Some. apply Hcr. rewrite Hk. set_solver.
Qed.

Lemma decode_line Check_ parse_json l v :
  good_line Check_ parse_json l v → decodeServerFrame Check_ parse_json (line_bytes l) = Ret v.
Proof.
  intros (Hne & Hlen & Hlf & Hcr & Hp & Hc). unfold decodeServerFrame. rewrite strip_line by done.
  rewrite !bool_decide_eq_false_2; [by rewrite Hp, Hc|done|done|lia|].
  unfold byteLength. destruct (payload l); [done|simpl; lia].
Qed.

Lemma read_line Check_ parse_json l v rest :
  good_line Check_ parse_json l v →
  read_stream Check_ parse_json [] (line_bytes l ++ rest) =
    ('(ms, p) ← read_stream Check_ parse_json [] rest; Ret (v :: ms, p)).
Proof.
  intros Hg. pose proof (decode_line _ _ _ _ Hg) as Hd. destruct Hg as (_ & Hlen & Hlf & _).
  unfold line_bytes in *. set (part := payload l ++ if crlf l then [CR] else []).
  assert (payload l ++ (if crlf l then [CR; LF] else [LF]) = part ++ [LF]) as Heq.
  { unfold part. destruct (crlf l); [by rewrite <-app_assoc|by rewrite app_nil_r]. }
  rewrite Heq in *. rewrite <-app_assoc.
  rewrite read_part; [|unfold part; destruct (crlf l); set_solver|done].
  assert (overlong ([] ++ part) = false) as ->.
  { cbn [app]. unfold overlong, part. destruct (crlf l).
    - rewrite last_snoc, byteLength_app, (bool_decide_eq_true_2 (Some CR = _)) by done.
      unfold byteLength at 2 4. simpl. apply andb_false_iff.
      destruct (decide (byteLength (payload l) = MAX_FRAME_BYTES)) as [->|].
      + right. by rewrite bool_decide_eq_true_2.
      + left. apply bool_decide_eq_false. lia.
    - rewrite app_nil_r, bool_decide_eq_false_2; [done|lia]. }
  cbn [app read_stream]. rewrite bool_decide_eq_true_2 by done. rewrite Hd. done.
Qed.

(** a stream of valid frames, each ended by LF or CR LF and up to the full
    16 MiB long, is delivered whole and in order however it is cut, nothing is
    left pending, and the end of the stream is accepted. *)
Theorem frames_are_delivered Check_ parse_json cs ls vs :
  Forall2 (good_line Check_ parse_json) ls vs →
  concat cs = concat (line_bytes <$> ls) →
  let res := push_all Check_ parse_json cs new_decoder in
  res.1 = Ret vs ∧ (finish res.2).1 = Ret tt.
Proof.
  intros Hls Hcs res.
  assert (Hread : read_stream Check_ parse_json [] (concat (line_bytes <$> ls)) = Ret (vs, [])).
  { clear Hcs res. induction Hls as [|l v ls vs Hl _ IH]; [done|].
    cbn [fmap list_fmap concat]. rewrite (read_line _ _ _ v) by done. by rewrite IH. }
  destruct (push_all_spec Check_ parse_json cs new_decoder new_decoder_wf) as [[Hb _] Hag].
  cbn [new_decoder chunks concat] in Hag. rewrite Hcs, Hread in Hag. fold res in Hag, Hb.
  destruct Hag as [Hr Hrest]. split; [exact Hr|]. unfold finish. rewrite Hb, Hrest. done.
Qed.

(** A parser of one-letter payloads, and a validator that accepts all. *)
Definition letter_json (b : bytes) : option jsval :=
  match b with [x] => Some (VNum (Z.of_N (Byte.to_N x))) | _ => None end.

Lemma frames_are_delivered_witness :
  let res := push_all (λ _ _, true) letter_json [[x41; x0d]; [x0a; x42]; []; [x0a]] new_decoder in
  res.1 = Ret [VNum 65%Z; VNum 66%Z] ∧ (finish res.2).1 = Ret tt.
Proof.
  apply (frames_are_delivered (λ _ _, true) letter_json _
    [{| payload := [x41]; crlf := true |}; {| payload := [x42]; crlf := false |}]).
  - repeat constructor; try done; try lia; simpl; rewrite list_elem_of_singleton; done.
  - reflexivity.
Defined.

(** an encoded client message is one line: its JSON text, at most 16 MiB,
    and a single line feed at the end; framing by line feeds and parsing gives
    the message back.  ([JSON.stringify] escapes line breaks, and [JSON.parse]
    inverts it on JSON values.) *)
Theorem encoded_message_is_one_line Check_ (parse_json : bytes → option jsval) json_bytes m f :
  (∀ v b, json_bytes v = Some b → parse_json b = Some v ∧ (LF ∉ b) ∧ (CR ∉ b)) →
  encodeClientMessage Check_ json_bytes m = Ret f →
  ∃ p, split_line f = Some (p, []) ∧ parse_json p = Some m ∧ stripLineTerminator f = p ∧
       (byteLength f ≤ MAX_FRAME_BYTES + 1)%Z ∧ Check_ ClientMessageSchema m = true.
Proof.
  intros Hjson. unfold encodeClientMessage. destruct (Check_ _ m) eqn:Hc; [|done]. simpl.
  destruct (json_bytes m) as [p|] eqn:Hp; [|done]. case_bool_decide as Hlen; [done|].
  intros [= <-]. destruct (Hjson m p Hp) as (Hparse & Hlf & Hcr). exists p. split_and!; try done.
  - clear Hp Hparse Hcr Hlen Hc. induction p as [|b p IH]; simpl.
    + done.
    + apply not_elem_of_cons in Hlf as [Hb Hlf]. rewrite bool_decide_eq_false_2 by done.
      by rewrite IH.
  - by apply (strip_line {| payload := p; crlf := false |}).
  - rewrite byteLength_app. unfold byteLength in *. simpl. lia.
Qed.

Definition letter_bytes (v : jsval) : option bytes :=
  if decide (v = VNull) then Some [x6e] else None.

Lemma encoded_message_is_one_line_witness :
  ∃ p, split_line [x6e; x0a] = Some (p, []) ∧
       (if decide (p = [x6e]) then Some VNull else None) = Some VNull ∧
       stripLineTerminator [x6e; x0a] = p ∧
       (byteLength [x6e; x0a] ≤ MAX_FRAME_BYTES + 1)%Z ∧ true = true.
Proof.
  apply (encoded_message_is_one_line (λ _ _, true)
    (λ b, if decide (b = [x6e]) then Some VNull else None) letter_bytes VNull [x6e; x0a]).
  - intros v b. unfold letter_bytes. case_decide; [|done]. intros [= <-]. subst.
    rewrite decide_True by done. split; [done|]. by rewrite !list_elem_of_singleton.
  - reflexivity.
Defined.

(** ** Schemas *)

Lemma object_conforms properties v :
  conforms (SObject properties) v = true →
  ∃ fs, v = VObj fs ∧
    (∀ k o s, (k, o, s) ∈ properties →
       if decide (k ∈ keys fs) then conforms s (field fs k) = true else o = true) ∧
    (∀ k, k ∈ keys fs → k ∈ (λ p : string * bool * schema, p.1.1) <$> properties).
Proof.
  destruct v as [| | | | | |fs|]; try done. simpl. intros [Hp Hk]%andb_true_iff.
  exists fs. split; [done|]. rewrite forallb_forall in Hp, Hk. split.
  - intros k o s Hin. apply list_elem_of_In, Hp in Hin. simpl in Hin.
    destruct (js_elem k (keys fs)) eqn:Hin'.
    + apply js_elem_spec in Hin'. by rewrite decide_True.
    + apply js_elem_false in Hin'. by rewrite decide_False.
  - intros k Hin. apply list_elem_of_In, Hk in Hin. by apply js_elem_spec.
Qed.

Lemma literal_conforms s v : conforms (SLiteral s) v = true → v = VStr s.
Proof. destruct v; try done. simpl. by intros ->%String.eqb_eq. Qed.

(** with a validator that means what JSON Schema means, a server message
    that is accepted is of one of the six types, has only the fields of its
    type, and every request id in it is a string of 1 to 256 units; only
    errors and backpressure reports may have none. *)
Theorem accepted_server_message Check_ v :
  (∀ s w, Check_ s w = conforms s w) →
  Check_ ServerMessageSchema v = true →
  ∃ fs type properties,
    v = VObj fs ∧ field fs "type" = VStr type ∧ (type, properties) ∈ server_alternatives ∧
    (∀ k, k ∈ keys fs → k = "type" ∨ k ∈ (λ p : string * bool * schema, p.1.1) <$> properties) ∧
    ("requestId" ∉ keys fs → type = "error" ∨ type = "backpressure") ∧
    ("requestId" ∈ keys fs → ∃ id, field fs "requestId" = VStr id ∧ 1 ≤ String.length id ≤ 256).
Proof.
  intros Hdoc. rewrite Hdoc. unfold ServerMessageSchema. cbn [conforms].
  rewrite existsb_exists. intros (s & Hs & Hc). apply list_elem_of_In, list_elem_of_fmap in Hs
    as ([type properties] & -> & Hin). cbn [fst snd] in Hc.
  apply object_conforms in Hc as (fs & -> & Hp & Hk). exists fs, type, properties.
  assert (Hreq : ∃ o, ("requestId", o, RequestId) ∈ properties ∧
                 (o = true → type = "error" ∨ type = "backpressure")).
  { unfold server_alternatives in Hin. rewrite !elem_of_cons, elem_of_nil in Hin.
    repeat destruct Hin as [[= -> ->]|Hin]; try done;
      (eexists; split; [by left|]); try done; auto. }
  destruct Hreq as (o & Hreq & Ho). split_and!; [done| |done| | |].
  - specialize (Hp "type" false (SLiteral type) ltac:(by left)). case_decide; [|done].
    by apply literal_conforms.
  - intros k Hin'. apply Hk in Hin'. simpl in Hin'. apply elem_of_cons in Hin' as [->|]; auto.
  - intros Hn. specialize (Hp "requestId" o RequestId ltac:(by right)). rewrite decide_False in Hp by done.
    auto.
  - intros Hin'. specialize (Hp "requestId" o RequestId ltac:(by right)). rewrite decide_True in Hp by done.
    destruct (field fs "requestId") as [| | | |id| | |]; try done. exists id. split; [done|].
    simpl in Hp. unfold within in Hp. simpl in Hp. apply andb_true_iff in Hp as [Hlo Hhi].
    apply bool_decide_eq_true in Hlo, Hhi. lia.
Qed.

Lemma accepted_server_message_witness :
  ∃ fs type properties,
    VObj [("type", VStr "result"); ("requestId", VStr "r1"); ("status", VStr "completed");
          ("result", VNull)] = VObj fs ∧
    field fs "type" = VStr type ∧ (type, properties) ∈ server_alternatives ∧
    (∀ k, k ∈ keys fs → k = "type" ∨ k ∈ (λ p : string * bool * schema, p.1.1) <$> properties) ∧
    ("requestId" ∉ keys fs → type = "error" ∨ type = "backpressure") ∧
    ("requestId" ∈ keys fs → ∃ id, field fs "requestId" = VStr id ∧ 1 ≤ String.length id ≤ 256).
Proof. apply (accepted_server_message conforms); [done|]. vm_compute. reflexivity. Defined.
