(* ===== verification/BridgeClient.v ===== *)
(** * BridgeClient

    [src/src/infrastructure/codex-bridge/client.ts]: the client side of a
    bridge connection as a transition system.  The inputs are the calls of the
    application, the messages the decoder of [Protocol] returns, timers, abort
    signals, stream events and the completion of queued handlers, in any
    order; a request identifier is the UUID the code draws. *)

From S2P Require Import Prelude Protocol.

(** ** Data *)

(** A validated server message. *)
Inductive ServerMessage :=
| m_handshake (requestId : string) (handshake : BridgeHandshake)
| m_event (requestId : string) (sequence : Z) (event : jsval)
| m_result (requestId : string) (status : string) (result : jsval)
| m_error (requestId : option string) (error : jsval)
| m_approval_request (requestId : string) (approval : jsval)
| m_backpressure (requestId : option string) (state : string) (pendingEvents capacity : Z).

Definition message_id (m : ServerMessage) : option string :=
  match m with
  | m_handshake id _ | m_event id _ _ | m_result id _ _ | m_approval_request id _ => Some id
  | m_error id _ | m_backpressure id _ _ _ => id
  end.

Inductive ConnectionErrorCode :=
| connection_closed | control_timeout | event_handler_failed | handshake_timeout
| protocol_failure | write_failed.

(** [BridgeConnectionError], [BridgeRemoteError], a frame that could not be
    encoded, and the abort exception. *)
Inductive ClientError :=
| BridgeConnectionError (code : ConnectionErrorCode)
| BridgeRemoteError (error : jsval)
| BridgeProtocolError (code : BridgeProtocolErrorCode)
| AbortError.

Inductive settlement :=
| resolved (status : string) (result : jsval)
| rejected (e : ClientError).

(** What the closures of a pending request remember. *)
Record PendingRequest := { p_control : bool; p_signal : bool }.

(** Tasks chained on a request's [eventChain], oldest first: a handler, with
    the sequence number to acknowledge after it, or the resolution. *)
Inductive task :=
| t_handler (acknowledge : option Z)
| t_resolve (status : string) (result : jsval).

Inductive handshake_state := hs_waiting | hs_resolved | hs_rejected (e : ClientError).
Record PendingHandshake := { hs_requestId : string; hs_state : handshake_state }.

(** [settlements], [issued] and [acknowledged] record what the client did: the
    promises it settled, the identifiers it registered and the
    acknowledgements it wrote, in order. *)
Record client := {
  ready : bool;
  closing : bool;
  closed : bool;
  handshake : option PendingHandshake;
  pending : gmap string PendingRequest;
  ignoredRequestIds : gset string;
  chains : gmap string (list task);
  shutdownRequest : option string;
  settlements : list (string * settlement);
  issued : list string;
  acknowledged : list (string * Z) }.

Definition with_flags (rd cl cd : bool) (c : client) : client :=
  {| ready := rd; closing := cl; closed := cd; handshake := handshake c; pending := pending c;
     ignoredRequestIds := ignoredRequestIds c; chains := chains c;
     shutdownRequest := shutdownRequest c; settlements := settlements c; issued := issued c;
     acknowledged := acknowledged c |}.
Definition with_handshake (h : option PendingHandshake) (c : client) : client :=
  {| ready := ready c; closing := closing c; closed := closed c; handshake := h;
     pending := pending c; ignoredRequestIds := ignoredRequestIds c; chains := chains c;
     shutdownRequest := shutdownRequest c; settlements := settlements c; issued := issued c;
     acknowledged := acknowledged c |}.
Definition with_pending (p : gmap string PendingRequest) (s : list (string * settlement))
    (i : list string) (c : client) : client :=
  {| ready := ready c; closing := closing c; closed := closed c; handshake := handshake c;
     pending := p; ignoredRequestIds := ignoredRequestIds c; chains := chains c;
     shutdownRequest := shutdownRequest c; settlements := s; issued := i;
     acknowledged := acknowledged c |}.
Definition with_ignored (g : gset string) (c : client) : client :=
  {| ready := ready c; closing := closing c; closed := closed c; handshake := handshake c;
     pending := pending c; ignoredRequestIds := g; chains := chains c;
     shutdownRequest := shutdownRequest c; settlements := settlements c; issued := issued c;
     acknowledged := acknowledged c |}.
Definition with_chains (ch : gmap string (list task)) (a : list (string * Z)) (c : client) : client :=
  {| ready := ready c; closing := closing c; closed := closed c; handshake := handshake c;
     pending := pending c; ignoredRequestIds := ignoredRequestIds c; chains := ch;
     shutdownRequest := shutdownRequest c; settlements := settlements c; issued := issued c;
     acknowledged := a |}.
Definition with_shutdown (s : option string) (c : client) : client :=
  {| ready := ready c; closing := closing c; closed := closed c; handshake := handshake c;
     pending := pending c; ignoredRequestIds := ignoredRequestIds c; chains := chains c;
     shutdownRequest := s; settlements := settlements c; issued := issued c;
     acknowledged := acknowledged c |}.

Section client.
(** The options of the connection. *)
Context (buildTarget : string) (options : HandshakeVerificationOptions).

(** The state after the constructor and the synchronous part of
    [#initialize], which drew [requestId]. *)
Definition connecting (requestId : string) : client :=
  {| ready := false; closing := false; closed := false;
     handshake := Some {| hs_requestId := requestId; hs_state := hs_waiting |};
     pending := ∅; ignoredRequestIds := ∅; chains := ∅; shutdownRequest := None;
     settlements := []; issued := []; acknowledged := [] |}.

Definition isReady (c : client) : bool := ready c && negb (closed c).
Definition requireReady (c : client) : bool := isReady c && negb (closing c).
Definition requireReadyOrClosing (c : client) : bool :=
  negb ((negb (ready c) && negb (closing c)) || closed c).

(** ** Settling *)

(** Delete the request and settle its promise; a request that is not pending
    any more stays as it was settled. *)
Definition settle_pending (requestId : string) (s : settlement) (c : client) : client :=
  match pending c !! requestId with
  | None => c
  | Some _ => with_pending (delete requestId (pending c)) (settlements c ++ [(requestId, s)]) (issued c) c
  end.
Definition resolvePending (requestId status : string) (result : jsval) : client → client :=
  settle_pending requestId (resolved status result).
Definition rejectPending (requestId : string) (e : ClientError) : client → client :=
  settle_pending requestId (rejected e).

(** The first of resolve and reject decides. *)
Definition settle_handshake (s : handshake_state) (c : client) : client :=
  match handshake c with
  | Some {| hs_requestId := id; hs_state := hs_waiting |} =>
      with_handshake (Some {| hs_requestId := id; hs_state := s |}) c
  | _ => c
  end.

Definition rejectAll (e : ClientError) (c : client) : client :=
  foldr (λ id c, rejectPending id e c) (settle_handshake (hs_rejected e) c)
    (map_to_list (pending c)).*1.

Definition fail (e : ClientError) (c : client) : client :=
  if closed c then c else rejectAll e (with_flags false (closing c) true c).

Definition close (c : client) : client :=
  if closed c then c
  else rejectAll (BridgeConnectionError connection_closed) (with_flags false true true c).

Definition maximumIgnoredRequestIds : nat := N.to_nat 65536.

Definition ignoreLateMessages (requestId : string) (c : client) : client :=
  if negb (bool_decide (requestId ∈ ignoredRequestIds c)) &&
     bool_decide (maximumIgnoredRequestIds ≤ size (ignoredRequestIds c))
  then fail (BridgeConnectionError connection_closed) c
  else with_ignored ({[ requestId ]} ∪ ignoredRequestIds c) c.

(** ** Requests *)

Definition register (requestId : string) (p : PendingRequest) (c : client) : client :=
  with_pending (<[ requestId := p ]> (pending c)) (settlements c) (issued c ++ [requestId]) c.

(** [request]: [None] when it throws. [signal] is [None] without a signal,
    else whether it is aborted already. *)
Definition request (requestId : string) (signal : option bool) (c : client) : option client :=
  if negb (requireReady c) then None
  else if bool_decide (signal = Some true) then None
  else Some (register requestId {| p_control := false; p_signal := bool_decide (signal ≠ None) |} c).

Definition controlRequest (requestId : string) (signal : option bool) (allowClosing : bool)
    (c : client) : option client :=
  if negb (if allowClosing then requireReadyOrClosing c else requireReady c) then None
  else if bool_decide (signal = Some true) then None
  else Some (register requestId {| p_control := true; p_signal := bool_decide (signal ≠ None) |} c).

(** The abort listener of a request; it sends a [cancel] under a new id. *)
Definition abort (requestId cancelId : string) (c : client) : client :=
  match pending c !! requestId with
  | Some {| p_control := control; p_signal := true |} =>
      let c := ignoreLateMessages requestId (rejectPending requestId AbortError c) in
      if control then c else default c (controlRequest cancelId None false c)
  | _ => c
  end.

Definition control_timed_out (requestId : string) (c : client) : client :=
  match pending c !! requestId with
  | Some {| p_control := true |} =>
      ignoreLateMessages requestId
        (rejectPending requestId (BridgeConnectionError control_timeout) c)
  | _ => c
  end.

(** ** Receiving *)

Definition enqueue (requestId : string) (t : task) (c : client) : client :=
  with_chains (<[ requestId := default [] (chains c !! requestId) ++ [t] ]> (chains c))
    (acknowledged c) c.

Definition routeHandshake (message : ServerMessage) (c : client) : client :=
  match handshake c with
  | None => fail (BridgeConnectionError protocol_failure) c
  | Some h =>
      match message with
      | m_error (Some id) error =>
          if String.eqb id (hs_requestId h) then settle_handshake (hs_rejected (BridgeRemoteError error)) c
          else settle_handshake (hs_rejected (BridgeConnectionError protocol_failure)) c
      | m_handshake id hs =>
          if String.eqb id (hs_requestId h) then
            match verifyHandshake hs buildTarget options with
            | Ret _ => settle_handshake hs_resolved c
            | Throw _ => settle_handshake (hs_rejected (BridgeConnectionError protocol_failure)) c
            end
          else settle_handshake (hs_rejected (BridgeConnectionError protocol_failure)) c
      | _ => settle_handshake (hs_rejected (BridgeConnectionError protocol_failure)) c
      end
  end.

Definition is_terminal (m : ServerMessage) : bool :=
  match m with m_result _ _ _ | m_error _ _ => true | _ => false end.

Definition is_ignored (m : ServerMessage) (c : client) : bool :=
  match message_id m with
  | Some id => bool_decide (id ∈ ignoredRequestIds c)
  | None => false
  end.

Definition drop_ignored (m : ServerMessage) (c : client) : client :=
  if is_terminal m then
    match message_id m with
    | Some id => with_ignored (ignoredRequestIds c ∖ {[ id ]}) c
    | None => c
    end
  else c.

(** The switch on a message of a pending request. *)
Definition dispatch (message : ServerMessage) (requestId : string) (c : client) : client :=
  match message with
  | m_event _ sequence _ => enqueue requestId (t_handler (Some sequence)) c
  | m_approval_request _ _ | m_backpressure _ _ _ _ => enqueue requestId (t_handler None) c
  | m_result _ status result => enqueue requestId (t_resolve status result) c
  | m_handshake _ _ | m_error _ _ => c
  end.

Definition route (message : ServerMessage) (c : client) : client :=
  if negb (ready c) then routeHandshake message c else
  match message with
  | m_handshake _ _ => fail (BridgeConnectionError protocol_failure) c
  | _ =>
      if is_ignored message c then drop_ignored message c else
      match message with
      | m_error None error => fail (BridgeRemoteError error) c
      | m_error (Some id) error => rejectPending id (BridgeRemoteError error) c
      | _ =>
          match message_id message with
          | None => fail (BridgeConnectionError protocol_failure) c
          | Some id =>
              match pending c !! id with
              | None => fail (BridgeConnectionError protocol_failure) c
              | Some _ => dispatch message id c
              end
          end
      end
  end.

(** [decoded] is what [ServerFrameDecoder.push] returns for the chunk. *)
Definition receive (decoded : protocol (list ServerMessage)) (c : client) : client :=
  if closed c then c else
  match decoded with
  | Throw _ => fail (BridgeConnectionError protocol_failure) c
  | Ret messages => fold_left (λ c m, route m c) messages c
  end.

(** The next task of a chain runs: its handler succeeds or fails, and an
    acknowledgement is written unless the connection is closed. *)
Definition run_task (requestId : string) (succeeds : bool) (c : client) : client :=
  match chains c !! requestId with
  | Some (t :: ts) =>
      let c := with_chains (<[ requestId := ts ]> (chains c)) (acknowledged c) c in
      match t with
      | t_resolve status result => resolvePending requestId status result c
      | t_handler ack =>
          if negb succeeds then fail (BridgeConnectionError event_handler_failed) c else
          match ack with
          | None => c
          | Some sequence =>
              if closed c then fail (BridgeConnectionError event_handler_failed) c
              else with_chains (chains c) (acknowledged c ++ [(requestId, sequence)]) c
          end
      end
  | _ => c
  end.

(** [#initialize] resumes after its [await]: the handshake settled, or the
    write of [initialize] failed. *)
Definition initialized (write_error : bool) (c : client) : client :=
  match handshake c with
  | None => c
  | Some h =>
      if write_error then fail (BridgeConnectionError write_failed) (with_handshake None c) else
      match hs_state h with
      | hs_waiting => c
      | hs_resolved => with_handshake None (with_flags true (closing c) (closed c) c)
      | hs_rejected e => fail e (with_handshake None c)
      end
  end.

(** [shutdown]: the request is drawn once; [#performShutdown] closes whether or
    not it could be sent. *)
Definition shutdown (requestId : string) (signal : option bool) (c : client) : client :=
  if closed c then c else
  match shutdownRequest c with
  | Some _ => c
  | None =>
      let c := with_shutdown (Some requestId) (with_flags (ready c) true (closed c) c) in
      match controlRequest requestId signal true c with
      | Some c => c
      | None => close c
      end
  end.

(** [#performShutdown] resumes once its request is settled. *)
Definition shutdown_settled (c : client) : client :=
  match shutdownRequest c with
  | Some id => if bool_decide (id ∈ (settlements c).*1) then close c else c
  | None => c
  end.

(** ** Inputs *)

Inductive input :=
| i_request (requestId : string) (signal : option bool)
| i_control (requestId : string) (signal : option bool)
| i_abort (requestId cancelId : string)
| i_timeout (requestId : string)
| i_write_failed (requestId : string) (e : ClientError)
| i_receive (decoded : protocol (list ServerMessage))
| i_task (requestId : string) (succeeds : bool)
| i_handshake_timeout
| i_initialized (write_error : bool)
| i_output_ended (truncated : bool)
| i_transport_closed
| i_shutdown (requestId : string) (signal : option bool)
| i_shutdown_settled
| i_close.

(** A call that throws changes nothing. *)
Definition apply_input (i : input) (c : client) : client :=
  match i with
  | i_request id signal => default c (request id signal c)
  | i_control id signal => default c (controlRequest id signal false c)
  | i_abort id cancelId => abort id cancelId c
  | i_timeout id => control_timed_out id c
  | i_write_failed id e => rejectPending id e c
  | i_receive decoded => receive decoded c
  | i_task id succeeds => run_task id succeeds c
  | i_handshake_timeout => settle_handshake (hs_rejected (BridgeConnectionError handshake_timeout)) c
  | i_initialized write_error => initialized write_error c
  | i_output_ended truncated =>
      fail (BridgeConnectionError (if truncated then protocol_failure else connection_closed)) c
  | i_transport_closed => fail (BridgeConnectionError connection_closed) c
  | i_shutdown id signal => shutdown id signal c
  | i_shutdown_settled => shutdown_settled c
  | i_close => close c
  end.

(** The identifier the input draws. *)
Definition draws (i : input) : option string :=
  match i with
  | i_request id _ | i_control id _ | i_abort _ id | i_shutdown id _ => Some id
  | _ => None
  end.

(** UUIDs are never drawn twice. *)
Definition fresh_input (i : input) (c : client) : Prop :=
  ∀ id, draws i = Some id → id ∉ issued c.

Inductive step (c : client) : client → Prop :=
| step_input i : fresh_input i c → step c (apply_input i c).

Definition reachable (c : client) : Prop := ∃ id, rtc step (connecting id) c.
End client.
