(* ===== verification/BridgeClientFacts.v ===== *)
(** * BridgeClientFacts

    In every reachable state of the client each request is pending or settled
    exactly once, a closed client has nothing pending, the set of ignored
    identifiers is bounded, and aborting a request neither fails the
    connection nor lets its late messages through. *)

From S2P Require Import Prelude Protocol BridgeClient.

(** ** Invariant *)

Definition settled_ids (c : client) : list string := (settlements c).*1.

Record accounted (c : client) : Prop := {
  ac_once : NoDup (settled_ids c);
  ac_issued id : id ∈ issued c ↔ id ∈ settled_ids c ∨ is_Some (pending c !! id);
  ac_apart id : id ∈ settled_ids c → pending c !! id = None;
  ac_ignored id : id ∈ ignoredRequestIds c → id ∈ settled_ids c;
  ac_bound : size (ignoredRequestIds c) ≤ maximumIgnoredRequestIds }.

Definition invariant (c : client) : Prop :=
  accounted c ∧ (closed c = true → pending c = ∅).

(** The parts of a state the accounting reads. *)
Lemma accounted_ext c c' :
  pending c' = pending c → settlements c' = settlements c → issued c' = issued c →
  ignoredRequestIds c' = ignoredRequestIds c → accounted c → accounted c'.
Proof. intros Hp Hs Hi Hg [? ? ? ? ?]. constructor; unfold settled_ids in *; rewrite ?Hp, ?Hs, ?Hi, ?Hg; done. Qed.

Lemma settle_flags id s c :
  closed (settle_pending id s c) = closed c ∧ ready (settle_pending id s c) = ready c ∧
  ignoredRequestIds (settle_pending id s c) = ignoredRequestIds c ∧
  handshake (settle_pending id s c) = handshake c ∧ issued (settle_pending id s c) = issued c.
Proof. unfold settle_pending. by destruct (pending c !! id). Qed.

Lemma settle_pending_pending id s c :
  pending (settle_pending id s c) = delete id (pending c).
Proof.
  unfold settle_pending. destruct (pending c !! id) eqn:Hp; [done|].
  by rewrite delete_id.
Qed.

Lemma settle_settled id s c x :
  x ∈ settled_ids (settle_pending id s c) ↔
  x ∈ settled_ids c ∨ (x = id ∧ is_Some (pending c !! id)).
Proof.
  unfold settle_pending, settled_ids. destruct (pending c !! id) eqn:Hp; simpl.
  - rewrite fmap_app, elem_of_app. simpl. rewrite list_elem_of_singleton.
    split; [intros [?| ->]; eauto|intros [?|[-> _]]; auto].
  - split; [auto|]. intros [?|[_ [? [=]]]]; done.
Qed.

Lemma settle_accounted id s c : accounted c → accounted (settle_pending id s c).
Proof.
  intros [Ho Hi Ha Hg Hb]. destruct (settle_flags id s c) as (_ & _ & Hig & _ & His).
  constructor.
  - unfold settle_pending, settled_ids. destruct (pending c !! id) eqn:Hp; [|done]. simpl.
    rewrite fmap_app. apply NoDup_app. split_and!; [done| |apply NoDup_singleton].
    intros x Hx ->%list_elem_of_singleton. apply Ha in Hx. simpl in Hx. congruence.
  - intros x. rewrite His, Hi, settle_settled, settle_pending_pending.
    destruct (decide (id = x)) as [->|Hne]; [rewrite lookup_delete_eq|rewrite lookup_delete_ne by done].
    + split; [intros [?|?]; auto|]. intros [[?|[_ ?]]|[? [=]]]; auto.
    + split; [intros [?|?]; auto|]. intros [[?|[-> _]]|?]; auto; done.
  - intros x Hx%settle_settled. rewrite settle_pending_pending.
    destruct (decide (id = x)) as [->|Hne]; [apply lookup_delete_eq|].
    rewrite lookup_delete_ne by done. destruct Hx as [Hx|[-> _]]; [by apply Ha|done].
  - intros x. rewrite Hig, settle_settled. auto.
  - by rewrite Hig.
Qed.

Lemma settle_handshake_frame s c :
  pending (settle_handshake s c) = pending c ∧ settlements (settle_handshake s c) = settlements c ∧
  issued (settle_handshake s c) = issued c ∧ closed (settle_handshake s c) = closed c ∧
  ignoredRequestIds (settle_handshake s c) = ignoredRequestIds c ∧
  ready (settle_handshake s c) = ready c.
Proof. unfold settle_handshake. by destruct (handshake c) as [[? []]|]. Qed.

Lemma settle_handshake_accounted s c : accounted c → accounted (settle_handshake s c).
Proof.
  destruct (settle_handshake_frame s c) as (? & ? & ? & ? & ? & ?).
  by apply accounted_ext.
Qed.

(** Rejecting all leaves nothing pending. *)
Lemma reject_keys e ids c :
  let c' := foldr (λ id c, rejectPending id e c) c ids in
  (accounted c → accounted c') ∧ closed c' = closed c ∧
  (∀ id, pending c' !! id = None ↔ id ∈ ids ∨ pending c !! id = None).
Proof.
  induction ids as [|i ids IH]; simpl.
  - split_and!; [done..|]. intros id. rewrite elem_of_nil. tauto.
  - set (c1 := foldr _ c ids) in *. destruct IH as (Ha & Hcl & Hp). split_and!.
    + intros Hac. by apply settle_accounted, Ha.
    + unfold rejectPending. by rewrite (proj1 (settle_flags _ _ _)).
    + intros id. unfold rejectPending. rewrite settle_pending_pending, lookup_delete_None, Hp, elem_of_cons.
      split; [intros [->|?]; tauto|intros [[->|?]|?]; tauto].
Qed.

Lemma rejectAll_result e c :
  (accounted c → accounted (rejectAll e c)) ∧ closed (rejectAll e c) = closed c ∧
  pending (rejectAll e c) = ∅.
Proof.
  unfold rejectAll.
  destruct (reject_keys e (map_to_list (pending c)).*1 (settle_handshake (hs_rejected e) c))
    as (Ha & Hc & Hp). destruct (settle_handshake_frame (hs_rejected e) c) as (Hpe & _ & _ & Hcl & _).
  split_and!.
  - intros Hac. by apply Ha, settle_handshake_accounted.
  - by rewrite Hc, Hcl.
  - apply map_empty. intros id. apply Hp. rewrite Hpe.
    destruct (pending c !! id) as [p|] eqn:Hl; [left|by right].
    apply list_elem_of_fmap. exists (id, p). split; [done|]. by apply elem_of_map_to_list.
Qed.

Lemma fail_invariant e c : invariant c → invariant (fail e c).
Proof.
  intros Hinv. unfold fail. destruct (closed c) eqn:Hcl; [exact Hinv|]. destruct Hinv as [Ha _].
  destruct (rejectAll_result e (with_flags false (closing c) true c)) as (Hra & _ & Hp).
  split; [|done]. apply Hra. by apply (accounted_ext c).
Qed.

Lemma close_invariant c : invariant c → invariant (close c).
Proof.
  intros Hinv. unfold close. destruct (closed c) eqn:Hcl; [exact Hinv|]. destruct Hinv as [Ha _].
  destruct (rejectAll_result (BridgeConnectionError connection_closed) (with_flags false true true c))
    as (Hra & _ & Hp).
  split; [|done]. apply Hra. by apply (accounted_ext c).
Qed.

Lemma invariant_ext c c' :
  pending c' = pending c → settlements c' = settlements c → issued c' = issued c →
  ignoredRequestIds c' = ignoredRequestIds c → closed c' = closed c → invariant c → invariant c'.
Proof.
  intros Hp Hs Hi Hg Hcl [Ha Hc]. split; [by apply (accounted_ext c)|]. by rewrite Hcl, Hp.
Qed.

Lemma settle_invariant id s c : invariant c → invariant (settle_pending id s c).
Proof.
  intros [Ha Hc]. split; [by apply settle_accounted|].
  rewrite (proj1 (settle_flags id s c)), settle_pending_pending. intros Hcl.
  by rewrite Hc, delete_empty.
Qed.

Lemma settle_handshake_invariant s c : invariant c → invariant (settle_handshake s c).
Proof.
  destruct (settle_handshake_frame s c) as (? & ? & ? & ? & ? & ?). by apply invariant_ext.
Qed.

Lemma register_invariant id p c :
  id ∉ issued c → closed c = false → invariant c → invariant (register id p c).
Proof.
  intros Hn Hcl [[Ho Hi Ha Hg Hb] _].
  assert (Hns : id ∉ settled_ids c) by (intros ?; apply Hn, Hi; auto).
  split; [|simpl; by rewrite Hcl]. constructor; simpl; try done.
  - intros x. unfold settled_ids. simpl. rewrite elem_of_app, list_elem_of_singleton, Hi.
    destruct (decide (id = x)) as [->|Hne]; [rewrite lookup_insert_eq|rewrite lookup_insert_ne by done];
      unfold settled_ids; naive_solver.
  - intros x Hx. rewrite lookup_insert_ne; [by apply Ha|by intros ->].
Qed.

Lemma ignore_invariant id c :
  id ∈ settled_ids c → invariant c → invariant (ignoreLateMessages id c).
Proof.
  intros Hid Hinv. unfold ignoreLateMessages. case_match eqn:Hg; [by apply fail_invariant|].
  destruct Hinv as [[Ho Hi Ha Hig Hb] Hc]. split; [|done]. constructor; simpl; try done.
  - intros x. rewrite elem_of_union, elem_of_singleton. intros [->|?]; [done|by apply Hig].
  - apply andb_false_iff in Hg as [Hin|Hlt].
    + apply negb_false_iff, bool_decide_eq_true in Hin.
      by rewrite (subseteq_union_1_L {[id]}) by set_solver.
    + apply bool_decide_eq_false in Hlt. rewrite size_union_alt, size_singleton.
      pose proof (subseteq_size (ignoredRequestIds c ∖ {[id]}) (ignoredRequestIds c)
        ltac:(set_solver)). lia.
Qed.

Lemma unignore_invariant id c :
  invariant c → invariant (with_ignored (ignoredRequestIds c ∖ {[ id ]}) c).
Proof.
  intros [[Ho Hi Ha Hig Hb] Hc]. split; [|done]. constructor; simpl; try done.
  - intros x [Hx _]%elem_of_difference. by apply Hig.
  - pose proof (subseteq_size (ignoredRequestIds c ∖ {[id]}) (ignoredRequestIds c)
      ltac:(set_solver)). lia.
Qed.

Lemma settle_issued id s c : issued (settle_pending id s c) = issued c.
Proof. unfold settle_pending. by destruct (pending c !! id). Qed.

Lemma rejectAll_issued e c : issued (rejectAll e c) = issued c.
Proof.
  unfold rejectAll. induction (map_to_list (pending c)).*1 as [|id ids IH]; simpl.
  - unfold settle_handshake. by destruct (handshake c) as [[? []]|].
  - unfold rejectPending at 1. by rewrite settle_issued.
Qed.

Lemma fail_issued e c : issued (fail e c) = issued c.
Proof. unfold fail. destruct (closed c); [done|]. by rewrite rejectAll_issued. Qed.

Lemma ignore_issued id c : issued (ignoreLateMessages id c) = issued c.
Proof. unfold ignoreLateMessages. case_match; [apply fail_issued|done]. Qed.

Lemma requireReady_open c : requireReady c = true → closed c = false.
Proof. unfold requireReady, isReady. destruct (closed c), (ready c); done. Qed.

Lemma requireReadyOrClosing_open c : requireReadyOrClosing c = true → closed c = false.
Proof. unfold requireReadyOrClosing. rewrite negb_true_iff, orb_false_iff. by intros [_ ?]. Qed.

Lemma request_invariant id signal c :
  id ∉ issued c → invariant c → invariant (default c (request id signal c)).
Proof.
  intros Hn Hinv. unfold request. destruct (requireReady c) eqn:Hr; simpl; [|done].
  case_bool_decide; [done|]. simpl. apply register_invariant; [done| |done].
  by apply requireReady_open.
Qed.

Lemma control_invariant id signal allow c c' :
  id ∉ issued c → invariant c → controlRequest id signal allow c = Some c' → invariant c'.
Proof.
  intros Hn Hinv. unfold controlRequest.
  destruct (if allow then requireReadyOrClosing c else requireReady c) eqn:Hr; simpl; [|done].
  case_bool_decide; [done|]. intros [= <-]. apply register_invariant; [done| |done].
  destruct allow; [by apply requireReadyOrClosing_open|by apply requireReady_open].
Qed.

Lemma reject_settles id e c : is_Some (pending c !! id) → id ∈ settled_ids (rejectPending id e c).
Proof. intros Hp. apply settle_settled. auto. Qed.

Lemma abort_invariant id cancelId c :
  cancelId ∉ issued c → invariant c → invariant (abort id cancelId c).
Proof.
  intros Hn Hinv. unfold abort. destruct (pending c !! id) as [[control []]|] eqn:Hp; try done.
  assert (invariant (ignoreLateMessages id (rejectPending id AbortError c))) as Hi.
  { apply ignore_invariant; [apply reject_settles; by eexists|by apply settle_invariant]. }
  destruct control; [done|]. destruct (controlRequest _ _ _ _) as [c'|] eqn:Hc; simpl; [|done].
  eapply control_invariant; [|exact Hi|exact Hc]. by rewrite ignore_issued; unfold rejectPending; rewrite settle_issued.
Qed.

Lemma timeout_invariant id c : invariant c → invariant (control_timed_out id c).
Proof.
  intros Hinv. unfold control_timed_out. destruct (pending c !! id) as [[[] ?]|] eqn:Hp; try done.
  apply ignore_invariant; [apply reject_settles; by eexists|by apply settle_invariant].
Qed.

Section inputs.
Context (buildTarget : string) (options : HandshakeVerificationOptions).
Local Abbreviation apply_ := (apply_input buildTarget options).
Local Abbreviation reach := (reachable buildTarget options).

Lemma enqueue_invariant id t c : invariant c → invariant (enqueue id t c).
Proof. by apply invariant_ext. Qed.

Lemma routeHandshake_invariant m c : invariant c → invariant (routeHandshake buildTarget options m c).
Proof.
  intros Hinv. unfold routeHandshake. destruct (handshake c) as [h|]; [|by apply fail_invariant].
  repeat case_match; by apply settle_handshake_invariant.
Qed.

Lemma dispatch_invariant m id c : invariant c → invariant (dispatch m id c).
Proof. intros Hinv. destruct m; try done; by apply enqueue_invariant. Qed.

Lemma drop_ignored_invariant m c : invariant c → invariant (drop_ignored m c).
Proof.
  intros Hinv. unfold drop_ignored. destruct (is_terminal m); [|done].
  destruct (message_id m); [by apply unignore_invariant|done].
Qed.

Lemma route_invariant m c : invariant c → invariant (route buildTarget options m c).
Proof.
  intros Hinv. unfold route. destruct (ready c); simpl; [|by apply routeHandshake_invariant].
  destruct m; [by apply fail_invariant|..];
    (destruct (is_ignored _ c); [by apply drop_ignored_invariant|]); simpl;
    repeat case_match; try by apply fail_invariant; try by apply settle_invariant;
    try by apply enqueue_invariant.
  all: first [by apply enqueue_invariant | by apply settle_invariant | by apply fail_invariant].
Qed.

Lemma receive_invariant decoded c : invariant c → invariant (receive buildTarget options decoded c).
Proof.
  intros Hinv. unfold receive. destruct (closed c); [done|]. destruct decoded as [ms|e];
    [|by apply fail_invariant].
  revert c Hinv; induction ms as [|m ms IH]; intros c Hinv; [done|]. by apply IH, route_invariant.
Qed.

Lemma run_task_invariant id ok c : invariant c → invariant (run_task id ok c).
Proof.
  intros Hinv. unfold run_task. destruct (chains c !! id) as [[|t ts]|]; try done.
  set (c1 := with_chains _ _ c). assert (invariant c1) as H1 by (by apply (invariant_ext c)).
  destruct t as [ack|status result]; [|by apply settle_invariant].
  destruct ok; simpl; [|by apply fail_invariant]. destruct ack as [seq|]; [|done].
  destruct (closed c); [by apply fail_invariant|]. by apply (invariant_ext c1).
Qed.

Lemma initialized_invariant we c : invariant c → invariant (initialized we c).
Proof.
  intros Hinv. unfold initialized. destruct (handshake c) as [h|]; [|done].
  assert (∀ f, invariant (with_handshake f c)) as H1 by (intros f; by apply (invariant_ext c)).
  destruct we; [by apply fail_invariant|]. destruct (hs_state h); [done| |by apply fail_invariant].
  by apply (invariant_ext c).
Qed.

Lemma shutdown_invariant id signal c : id ∉ issued c → invariant c → invariant (shutdown id signal c).
Proof.
  intros Hn Hinv. unfold shutdown. destruct (closed c) eqn:Hcl; [done|].
  destruct (shutdownRequest c); [done|]. set (c1 := with_shutdown _ _).
  assert (invariant c1) as H1 by (by apply (invariant_ext c)).
  destruct (controlRequest id signal true c1) as [c2|] eqn:Hc; [|by apply close_invariant].
  eapply control_invariant; [|exact H1|exact Hc]. done.
Qed.

Lemma apply_invariant i c : fresh_input i c → invariant c → invariant (apply_ i c).
Proof.
  intros Hf Hinv. destruct i as [id s|id s|id cid|id|id e|d|id ok| |we|t| |id s| |]; simpl.
  - apply request_invariant; [by apply Hf|done].
  - destruct (controlRequest id s false c) as [c'|] eqn:Hc; [|done]. simpl.
    eapply control_invariant; [|done|exact Hc]. by apply Hf.
  - apply abort_invariant; [by apply Hf|done].
  - by apply timeout_invariant.
  - by apply settle_invariant.
  - by apply receive_invariant.
  - by apply run_task_invariant.
  - by apply settle_handshake_invariant.
  - by apply initialized_invariant.
  - by apply fail_invariant.
  - by apply fail_invariant.
  - apply shutdown_invariant; [by apply Hf|done].
  - unfold shutdown_settled. repeat case_match; try done. by apply close_invariant.
  - by apply close_invariant.
Qed.

Lemma connecting_invariant id : invariant (connecting id).
Proof.
  split; [|done]. constructor.
  - constructor.
  - intros x. unfold settled_ids. simpl. rewrite !elem_of_nil, lookup_empty.
    split; [done|]. intros [?|[? [=]]]. done.
  - done.
  - intros x. simpl. set_solver.
  - change (size (∅ : gset string) ≤ maximumIgnoredRequestIds). rewrite size_empty. lia.
Qed.

Lemma step_invariant c c' : step buildTarget options c c' → invariant c → invariant c'.
Proof. intros [i Hf]. by apply apply_invariant. Qed.

Lemma reachable_invariant c : reach c → invariant c.
Proof.
  intros [id Hs]. assert (Hrtc : ∀ a b, rtc (step buildTarget options) a b → invariant a → invariant b).
  { induction 1 as [|a b c' Hab _ IH]; [done|]. intros Ha. by apply IH, (step_invariant a). }
  by eapply Hrtc, connecting_invariant.
Qed.
End inputs.

(** C5: in every reachable state each promise was settled at most once, a
    registered request is settled or still pending but never both, and nothing
    else ever was: no result is delivered twice and none is lost. *)
Theorem requests_settle_once target options c :
  reachable target options c →
  NoDup (settled_ids c) ∧
  (∀ id, id ∈ issued c ↔ id ∈ settled_ids c ∨ is_Some (pending c !! id)) ∧
  (∀ id, id ∈ settled_ids c → pending c !! id = None).
Proof. intros [[? ? ? ? ?] _]%reachable_invariant. done. Qed.

(** C27: once the connection is closed, by whatever failure or call, every
    request ever registered is settled: none is left hanging. *)
Theorem closed_client_settles_all target options c id :
  reachable target options c → closed c = true → id ∈ issued c → id ∈ settled_ids c.
Proof.
  intros [[_ Hi _ _ _] Hc]%reachable_invariant Hcl. rewrite Hi, (Hc Hcl), lookup_empty.
  intros [?|[? [=]]]. done.
Qed.

(** the identifiers of aborted requests the client remembers are at most
    65536, and each of them belongs to a settled request. *)
Theorem ignored_ids_bounded target options c :
  reachable target options c →
  size (ignoredRequestIds c) ≤ maximumIgnoredRequestIds ∧
  ∀ id, id ∈ ignoredRequestIds c → id ∈ settled_ids c.
Proof. by intros [[_ _ _ Hg Hb] _]%reachable_invariant. Qed.

(** ** Aborting *)

(** aborting a pending request rejects it with the abort error and keeps
    the connection open; messages that still arrive for it change nothing, and
    its terminal message only forgets the identifier. *)
Theorem abort_is_absorbed target options c id cancelId control :
  reachable target options c →
  ready c = true → closed c = false → cancelId ∉ issued c →
  pending c !! id = Some {| p_control := control; p_signal := true |} →
  size (ignoredRequestIds c) < maximumIgnoredRequestIds →
  let c' := abort id cancelId c in
  (id, rejected AbortError) ∈ settlements c' ∧ closed c' = false ∧ ready c' = true ∧
  ∀ m, message_id m = Some id → (∀ hs, m ≠ m_handshake id hs) →
    route target options m c' =
      if is_terminal m then with_ignored (ignoredRequestIds c' ∖ {[ id ]}) c' else c'.
Proof.
  intros _ Hr Hcl Hfresh Hp Hsize c'.
  set (c1 := with_ignored ({[ id ]} ∪ ignoredRequestIds c) (rejectPending id AbortError c)).
  destruct (settle_flags id (rejected AbortError) c) as (Hcl1 & Hr1 & Hig1 & _ & _).
  assert (Habort : c' = if control then c1 else default c1 (controlRequest cancelId None false c1)).
  { unfold c', abort. rewrite Hp. unfold ignoreLateMessages, rejectPending. rewrite Hig1.
    rewrite (bool_decide_eq_false_2 (maximumIgnoredRequestIds ≤ _)) by lia. rewrite andb_false_r.
    reflexivity. }
  assert (Hflags : closed c' = false ∧ ready c' = true ∧ id ∈ ignoredRequestIds c' ∧
                   settlements c' = settlements c1).
  { assert (H1 : closed c1 = false ∧ ready c1 = true ∧ id ∈ ignoredRequestIds c1).
    { simpl. unfold rejectPending. rewrite Hcl1, Hr1. set_solver. }
    rewrite Habort. destruct control; [tauto|]. unfold controlRequest.
    destruct (negb _); simpl; [tauto|]. simpl in H1. tauto. }
  destruct Hflags as (Hc' & Hr' & Hin & Hs). split_and!; [|done..|].
  - rewrite Hs. simpl. unfold rejectPending, settle_pending. rewrite Hp. simpl.
    apply elem_of_app. right. by left.
  - intros m Hm Hh. unfold route. rewrite Hr'. simpl. unfold is_ignored, drop_ignored. rewrite Hm.
    rewrite bool_decide_eq_true_2 by done. destruct m; try done.
    simpl in Hm. injection Hm as ->. exfalso. by eapply Hh.
Qed.

(** ** A connection that is made and used *)

Definition sample_options : HandshakeVerificationOptions :=
  {| allowDevelopmentBuild := true; expectedBuildSourceCommit := None |}.
Definition sample_handshake : BridgeHandshake := {|
  bridgeProtocolVersion := BRIDGE_PROTOCOL_VERSION; officialCodexVersion := OFFICIAL_CODEX_VERSION;
  officialCodexTag := OFFICIAL_CODEX_TAG; officialSourceCommit := OFFICIAL_SOURCE_COMMIT;
  buildTarget := "t"; buildSourceCommit := "development"; vendorTreeSha256 := VENDOR_TREE_SHA256;
  maxFrameBytes := MAX_FRAME_BYTES; maxPendingEvents := MAX_PENDING_EVENTS;
  capabilities := [] |}.

Definition run_inputs (ins : list input) (c : client) : client :=
  fold_left (λ c i, apply_input "t" sample_options i c) ins c.

Fixpoint all_fresh (ins : list input) (c : client) : bool :=
  match ins with
  | [] => true
  | i :: ins =>
      match draws i with Some id => negb (js_elem id (issued c)) | None => true end &&
      all_fresh ins (apply_input "t" sample_options i c)
  end.

Lemma run_reachable ins id : all_fresh ins (connecting id) = true →
  reachable "t" sample_options (run_inputs ins (connecting id)).
Proof.
  intros Hf. exists id. revert Hf. generalize (connecting id) as c.
  induction ins as [|i ins IH]; intros c Hf; simpl; [apply rtc_refl|].
  simpl in Hf. apply andb_true_iff in Hf as [Hi Hf].
  eapply rtc_l; [|by apply IH]. constructor. intros x Hx. rewrite Hx in Hi.
  by apply negb_true_iff, js_elem_false in Hi.
Qed.

Definition connected_inputs : list input :=
  [i_receive (Ret [m_handshake "h" sample_handshake]); i_initialized false].
Definition two_requests : list input :=
  connected_inputs ++ [i_request "a" (Some false); i_request "b" None].
Definition failed_inputs : list input := two_requests ++ [i_output_ended true].

Lemma requests_settle_once_witness :
  let c := run_inputs (two_requests ++ [i_receive (Ret [m_result "b" "completed" VNull]);
                                        i_task "b" true]) (connecting "h") in
  settlements c = [("b", resolved "completed" VNull)] ∧
  NoDup (settled_ids c) ∧
  (∀ id, id ∈ issued c ↔ id ∈ settled_ids c ∨ is_Some (pending c !! id)) ∧
  (∀ id, id ∈ settled_ids c → pending c !! id = None).
Proof.
  intros c. split; [vm_compute; reflexivity|].
  apply (requests_settle_once "t" sample_options). apply run_reachable. vm_compute. reflexivity.
Defined.

Lemma closed_client_settles_all_witness :
  "a" ∈ settled_ids (run_inputs failed_inputs (connecting "h")).
Proof.
  apply (closed_client_settles_all "t" sample_options).
  - apply run_reachable. vm_compute. reflexivity.
  - vm_compute. reflexivity.
  - apply js_elem_spec. vm_compute. reflexivity.
Defined.

Lemma ignored_ids_bounded_witness :
  let c := run_inputs (two_requests ++ [i_abort "a" "x"]) (connecting "h") in
  "a" ∈ ignoredRequestIds c ∧
  size (ignoredRequestIds c) ≤ maximumIgnoredRequestIds ∧
  ∀ id, id ∈ ignoredRequestIds c → id ∈ settled_ids c.
Proof.
  intros c. split; [apply (bool_decide_unpack _); vm_compute; exact I|].
  apply (ignored_ids_bounded "t" sample_options). apply run_reachable. vm_compute. reflexivity.
Defined.

Lemma abort_is_absorbed_witness :
  let c := run_inputs two_requests (connecting "h") in
  route "t" sample_options (m_event "a" 0 VNull) (abort "a" "x" c) = abort "a" "x" c.
Proof.
  intros c. refine (proj2 (proj2 (proj2 (abort_is_absorbed "t" sample_options c "a" "x" false
    _ _ _ _ _ _))) (m_event "a" 0 VNull) eq_refl _).
  - apply run_reachable. vm_compute. reflexivity.
  - vm_compute. reflexivity.
  - vm_compute. reflexivity.
  - apply js_elem_false. vm_compute. reflexivity.
  - vm_compute. reflexivity.
  - change (size (∅ : gset string) < maximumIgnoredRequestIds). rewrite size_empty.
    unfold maximumIgnoredRequestIds. lia.
  - done.
Defined.
