(* ===== verification/Json.v ===== *)
(** * Json

    JSON text as an interface, well-formed values, and the equivalence
    [jseq] of values up to the order of object keys.

    [JSON.stringify], with and without indentation, and [JSON.parse] are
    members of the class [JsonText] with the laws the code relies on;
    [bits_json] is a concrete instance. *)

From Stdlib Require Import QArith Qcanon.
From S2P Require Import Prelude StructuredJson.

(** An object has no own key twice. *)
Fixpoint wf_value (v : jsval) : bool :=
  match v with
  | VArr l => forallb wf_value l
  | VObj fs => bool_decide (NoDup (keys fs)) && forallb (λ kv, wf_value kv.2) fs
  | _ => true
  end.

Definition line_feed : string := String (ascii_of_N 10) "".

(** Writing a JSON value and reading the text gives the value back, its keys
    in the order the language lists them; white space may follow.
    [stringify_indented v] is [JSON.stringify(v, null, 2)]. *)
Class JsonText := {
  stringify : jsval → string;
  stringify_indented : jsval → string;
  json_parse : string → option jsval;
  json_parse_stringify v :
    json_value v = true → wf_value v = true →
    ∃ w, json_parse (stringify v) = Some w ∧ jseq v w;
  json_parse_indented v :
    json_value v = true → wf_value v = true →
    ∃ w, json_parse (stringify_indented v ++ line_feed)%string = Some w ∧ jseq v w }.

(** ** [jseq] is an equivalence *)

Lemma field_in fs k : k ∈ keys fs → (k, field fs k) ∈ fs.
Proof.
  induction fs as [|[k' v] fs IH]; cbn; [set_solver|].
  rewrite !elem_of_cons. destruct (String.eqb_spec k' k) as [->|Hne]; [by left|].
  intros [->|Hin]; [done|]. right. auto.
Qed.

Lemma jseq_sym v w : jseq v w → jseq w v.
Proof.
  revert w; induction v as [| | | | |l IH|fs IH|] using jsval_nested_ind; intros w Hj;
    inversion Hj as [| | | | |l0 l' Hl|fs0 gs Hk Hf|]; subst; constructor.
  - clear Hj. revert l' Hl; induction IH as [|x l Hx _ IH]; intros l' Hl;
      inversion Hl; subst; constructor; auto.
  - intros k; split; apply Hk.
  - intros k Hin. rewrite Forall_forall in IH.
    apply (IH (k, field fs k)); [by apply field_in|]. apply Hf. by apply Hk.
Qed.

Lemma jseq_trans u v w : jseq u v → jseq v w → jseq u w.
Proof.
  revert v w; induction u as [| | | | |l IH|fs IH|] using jsval_nested_ind; intros v w Huv Hvw;
    inversion Huv as [| | | | |l0 l' Hl|fs0 gs Hk Hf|]; subst; try done.
  - inversion Hvw as [| | | | |l1 l'' Hl'| |]; subst. constructor. clear Huv Hvw.
    revert l' l'' Hl Hl'. induction IH as [|x l Hx _ IH]; intros l' l'' Hl Hl';
      inversion Hl; subst; inversion Hl'; subst; constructor; eauto.
  - inversion Hvw as [| | | | | |gs0 hs Hk' Hf'|]; subst. constructor.
    + intros k. by rewrite Hk.
    + intros k Hin. rewrite Forall_forall in IH.
      apply (IH (k, field fs k)) with (field gs k).
      * apply field_in, Hk. by apply Hk'.
      * apply Hf. by apply Hk'.
      * by apply Hf'.
Qed.

#[export] Instance jseq_equivalence : Equivalence jseq.
Proof. split; [exact jseq_refl|exact jseq_sym|exact jseq_trans]. Qed.

(** Being JSON does not depend on the order of keys. *)
Lemma json_value_jseq v w : wf_value v = true → wf_value w = true →
  jseq v w → json_value v = true → json_value w = true.
Proof.
  revert w; induction v as [| | | | |l IH|fs IH|] using jsval_nested_ind; intros w Hv Hw Hj Hok;
    inversion Hj as [| | | | |l0 l' Hl|fs0 gs Hk Hf|]; subst; try done; simpl in *.
  - clear Hj. revert l' Hl Hw; induction IH as [|x l Hx _ IH]; intros l' Hl Hw;
      inversion Hl; subst; [done|]. simpl in *. bool_to_prop. naive_solver.
  - apply andb_true_iff in Hv as [Hnd Hv], Hw as [Hnd' Hw]. bool_to_prop.
    apply forallb_forall. intros [k x] Hin%list_elem_of_In. simpl.
    rewrite forallb_forall in Hv, Hw, Hok. rewrite Forall_forall in IH.
    assert (Hkg : k ∈ keys gs) by (apply list_elem_of_fmap; by exists (k, x)).
    assert (Hkf : (k, field fs k) ∈ fs) by (apply field_in; by apply Hk).
    rewrite <-(field_elem gs k x) by done.
    apply (IH (k, field fs k)); [done|..].
    + apply (Hv (k, field fs k)). by apply list_elem_of_In.
    + rewrite (field_elem gs k x) by done. apply (Hw (k, x)). by apply list_elem_of_In.
    + by apply Hf.
    + apply (Hok (k, field fs k)). by apply list_elem_of_In.
Qed.

Section json_text.
Context `{JsonText}.

(** Two well-formed JSON values with the same text are equal up to the order
    of keys. *)
Lemma stringify_jseq v w :
  json_value v = true → wf_value v = true → json_value w = true → wf_value w = true →
  stringify v = stringify w → jseq v w.
Proof.
  intros Hv Hv' Hw Hw' He.
  destruct (json_parse_stringify v) as (x & Hx & ?), (json_parse_stringify w) as (y & Hy & ?);
    [done..|].
  rewrite He, Hy in Hx. injection Hx as ->. etrans; [done|]. by symmetry.
Qed.
End json_text.

(** ** A concrete instance: values as bit strings *)

#[export] Instance Qc_countable : Countable Qc.
Proof.
  refine (inj_countable' (λ q, (Qnum (this q), Qden (this q))) (λ p, Q2Qc (p.1 # p.2)%Q) _).
  intros [[a b] Hq]. simpl. apply Qc_is_canon. simpl. apply Qred_correct.
Defined.

#[export] Instance jsnum_countable : Countable jsnum.
Proof.
  refine (inj_countable' (λ n, match n with
      | NFin q => inl q | NPosInf => inr 0 | NNegInf => inr 1 | NNaN => inr 2 end)
    (λ s, match s with inl q => NFin q | inr 0 => NPosInf | inr 1 => NNegInf | inr _ => NNaN end) _).
  by intros [].
Defined.

(** Leaves are numbers or strings; the tag of a node tells the rest apart. *)
Fixpoint to_tree (v : jsval) : gen_tree (jsnum + string) :=
  match v with
  | VUndef => GenNode 0 []
  | VNull => GenNode 1 []
  | VBool b => GenNode (if b then 2 else 3) []
  | VNum n => GenLeaf (inl n)
  | VStr s => GenLeaf (inr s)
  | VArr l => GenNode 4 (to_tree <$> l)
  | VObj fs => GenNode 5 ((λ kv, GenNode 7 [GenLeaf (inr kv.1); to_tree kv.2]) <$> fs)
  | VOpaque => GenNode 6 []
  end.

Fixpoint of_tree (t : gen_tree (jsnum + string)) : jsval :=
  match t with
  | GenLeaf (inl n) => VNum n
  | GenLeaf (inr s) => VStr s
  | GenNode 0 _ => VUndef
  | GenNode 1 _ => VNull
  | GenNode 2 _ => VBool true
  | GenNode 3 _ => VBool false
  | GenNode 4 ts => VArr (of_tree <$> ts)
  | GenNode 5 ts => VObj ((λ t, match t with
      | GenNode _ [GenLeaf (inr k); t'] => (k, of_tree t') | _ => ("", VUndef) end) <$> ts)
  | GenNode _ _ => VOpaque
  end.

Lemma of_to_tree v : of_tree (to_tree v) = v.
Proof.
  induction v as [|  |[]| | |l IH|fs IH|] using jsval_nested_ind; simpl; try done.
  - f_equal. induction IH; simpl; [done|]. by f_equal.
  - f_equal. induction IH as [|[k w] fs Hw _ IH]; simpl; [done|]. f_equal; [|done].
    simpl in Hw. by rewrite Hw.
Qed.

#[export] Instance jsval_countable : Countable jsval := inj_countable' to_tree of_tree of_to_tree.

Fixpoint pos_bits (p : positive) : string :=
  match p with
  | xH => ""
  | xO p => String "0" (pos_bits p)
  | xI p => String "1" (pos_bits p)
  end.
Fixpoint bits_pos (s : string) : positive :=
  match s with
  | "" => xH
  | String c s =>
      if Ascii.eqb c "0" then xO (bits_pos s)
      else if Ascii.eqb c "1" then xI (bits_pos s) else xH
  end.
Lemma bits_pos_bits p s : bits_pos s = xH → bits_pos (pos_bits p ++ s)%string = p.
Proof. intros Hs. induction p; simpl; congruence. Qed.

Program Definition bits_json : JsonText := {|
  stringify v := pos_bits (encode v);
  stringify_indented v := pos_bits (encode v);
  json_parse s := decode (bits_pos s) |}.
Next Obligation.
  intros v _ _. exists v. split; [|apply jseq_refl].
  rewrite <-(append_nil_r (pos_bits _)), bits_pos_bits by done. apply decode_encode.
Qed.
Next Obligation.
  intros v _ _. exists v. split; [|apply jseq_refl].
  rewrite bits_pos_bits by done. apply decode_encode.
Qed.
