(* ===== verification/RequestGuard.v ===== *)
(** * RequestGuard

    [src/src/integration/pi/codex-provider-request-guard.ts]: the digest of a
    request, the snapshots a record takes, and the guard through which a
    provider request must be approved before it is dispatched.

    Values are trees, so [deepFreeze] and [structuredClone] are the identity.
    A record is identified by its generation.  The async-local scope is the
    argument [current] of the calls that read it.  Abort signals are shared
    with the caller: the state holds the set of those aborted so far. *)

From S2P Require Import Prelude StructuredJson Compaction Json.

(** [new Error(RECORD_UNAVAILABLE)], [new Error(RECORD_REJECTED)], and the
    recorded cause of a failure, which is thrown as it is. *)
Inductive GuardError :=
| RECORD_UNAVAILABLE
| RECORD_REJECTED
| failure_cause (cause : jsval).

#[export] Instance GuardError_eq_dec : EqDecision GuardError. Proof. solve_decision. Defined.

(** ** Canonical order *)

(** The index a key is, if it is an array index; such keys are listed first,
    in ascending order, by every object. *)
Definition index_of (k : string) : option N :=
  if isArrayIndex k 4294967295 then Z.to_N <$> num_integer (js_Number k) else None.

Definition is_index (k : string) : bool := negb (bool_decide (index_of k = None)).

Definition index_le (x y : string * jsval) : Prop :=
  (default 0 (index_of x.1) <= default 0 (index_of y.1))%N.
#[export] Instance index_le_dec : RelDecision index_le.
Proof. intros x y. unfold index_le. apply _. Defined.

Definition object_order (fs : list (string * jsval)) : list (string * jsval) :=
  merge_sort index_le (filter (λ kv, is_index kv.1 = true) fs) ++
  filter (λ kv, is_index kv.1 = false) fs.

Fixpoint sortJson (value : jsval) : jsval :=
  match value with
  | VArr l => VArr (sortJson <$> l)
  | VObj fs =>
      let gs := (λ kv, (kv.1, sortJson kv.2)) <$> fs in
      VObj (object_order ((λ k, (k, field gs k)) <$> js_sort (keys fs)))
  | _ => value
  end.

(** ** Snapshots *)

Fixpoint cloneOptionValue (value : jsval) : jsval :=
  match value with
  | VArr l => VArr (cloneOptionValue <$> l)
  | VObj fs => VObj ((λ kv, (kv.1, cloneOptionValue kv.2)) <$> fs)
  | _ => value
  end.

Definition cloneOptionRecord (value : jsval) : outcome GuardError jsval :=
  match as_record value with
  | Some _ => Ret (cloneOptionValue value)
  | None => Throw RECORD_UNAVAILABLE
  end.

Definition snapshotSimpleStreamOptions (options : jsval) : outcome GuardError jsval :=
  match options with
  | VUndef => Ret VUndef
  | _ => cloneOptionRecord options
  end.

Definition cloneFrozenJson (value : jsval) : outcome GuardError jsval :=
  if json_value value then Ret value else Throw RECORD_UNAVAILABLE.

Definition is_str (v : jsval) : bool := match v with VStr _ => true | _ => false end.
Definition is_modality (v : jsval) : bool :=
  bool_decide (v = VStr "text") || bool_decide (v = VStr "image").

Definition snapshotProviderModel (model : jsval) : outcome GuardError jsval :=
  match as_record model with
  | None => Throw RECORD_UNAVAILABLE
  | Some fs =>
      match field fs "contextWindow", field fs "input" with
      | VNum w, VArr input =>
          if negb (is_str (field fs "id")) || negb (is_str (field fs "provider")) ||
             negb (is_str (field fs "api")) || negb (is_finite w) || negb (forallb is_modality input)
          then Throw RECORD_UNAVAILABLE else
          cost ← cloneFrozenJson (field fs "cost");
          Ret (VObj [("id", field fs "id"); ("provider", field fs "provider");
                     ("api", field fs "api"); ("cost", cost);
                     ("contextWindow", VNum w); ("input", VArr input)])
      | _, _ => Throw RECORD_UNAVAILABLE
      end
  end.

(** ** Records *)

Abbreviation signal_id := positive (only parsing).

(** The signals are kept apart from the options that hold one. *)
Record CodexProviderRequestRecordInput := {
  in_options : jsval;
  in_options_signal : option signal_id;
  in_sessionId : string;
  in_model : jsval;
  in_context : jsval;
  in_request : jsval;
  in_inputLedger : jsval;
  in_connection : jsval;
  in_config : jsval;
  in_capabilities : jsval;
  in_signal : option signal_id }.

(** What the replay hook leaves on a record for the accounting store. *)
Record RecordContextAccounting := {
  ca_generation : Z;
  ca_identity : CodexCompactionIdentity;
  ca_inputItemCount : jsnum;
  ca_inputDigest : string;
  ca_instructionsDigest : string }.

Record CodexProviderRequestRecord := {
  rec_input : CodexProviderRequestRecordInput;
  requestDigest : string;
  contextAccounting : option RecordContextAccounting;
  approvedRequest : option jsval;
  approvedDigest : option string;
  failure : option jsval;
  rec_closed : bool }.

Record CodexProviderRequestGuard := {
  heap : gmap Z CodexProviderRequestRecord;
  records : gset Z;
  nextGeneration : Z;
  disposed : bool;
  aborted : gset signal_id }.

Definition new_guard : CodexProviderRequestGuard :=
  {| heap := ∅; records := ∅; nextGeneration := 0; disposed := false; aborted := ∅ |}.

Definition with_record (gen : Z) (r : CodexProviderRequestRecord) (g : CodexProviderRequestGuard) :=
  {| heap := <[ gen := r ]> (heap g); records := records g;
     nextGeneration := nextGeneration g; disposed := disposed g; aborted := aborted g |}.

Definition with_approval (req : jsval) (digest : option string) (r : CodexProviderRequestRecord) :=
  {| rec_input := rec_input r; requestDigest := requestDigest r;
     contextAccounting := contextAccounting r; approvedRequest := Some req;
     approvedDigest := digest; failure := failure r; rec_closed := rec_closed r |}.

Definition with_failure (cause : jsval) (r : CodexProviderRequestRecord) :=
  {| rec_input := rec_input r; requestDigest := requestDigest r;
     contextAccounting := contextAccounting r; approvedRequest := approvedRequest r;
     approvedDigest := approvedDigest r; failure := Some cause; rec_closed := rec_closed r |}.

Definition with_closed (r : CodexProviderRequestRecord) :=
  {| rec_input := rec_input r; requestDigest := requestDigest r;
     contextAccounting := contextAccounting r; approvedRequest := approvedRequest r;
     approvedDigest := approvedDigest r; failure := failure r; rec_closed := true |}.

(** ** The guard *)

Section guard.
Context `{JsonText} (sha256Hex : string → string).

Definition sha256 (value : string) : string := "sha256:" +:+ sha256Hex value.

Definition sessionFingerprint_of (sessionId : string) : string :=
  sha256 ("pi-codex-adaptor/session/v1/" +:+ sessionId).
Definition credentialFingerprint (credential : string) : string :=
  sha256 ("pi-codex-adaptor/credential/v1/" +:+ credential).
Definition accountFingerprint (accountId : string) : string :=
  sha256 ("pi-codex-adaptor/jwt-account/v1/" +:+ accountId).

Definition digestJson (value : jsval) : outcome GuardError string :=
  if json_value value then Ret (sha256 (stringify (sortJson value))) else Throw RECORD_REJECTED.

(** The record [open] builds: a snapshot of its input and the digest. *)
Definition build_record (input : CodexProviderRequestRecordInput)
    : outcome GuardError CodexProviderRequestRecord :=
  options ← snapshotSimpleStreamOptions (in_options input);
  model ← snapshotProviderModel (in_model input);
  connection ← cloneFrozenJson (in_connection input);
  inputLedger ← cloneFrozenJson (in_inputLedger input);
  config ← cloneFrozenJson (in_config input);
  capabilities ← cloneFrozenJson (in_capabilities input);
  digest ← digestJson (in_request input);
  Ret {| rec_input := {|
           in_options := options; in_options_signal := in_options_signal input;
           in_sessionId := in_sessionId input; in_model := model;
           in_context := in_context input; in_request := in_request input;
           in_inputLedger := inputLedger; in_connection := connection;
           in_config := config; in_capabilities := capabilities;
           in_signal := in_signal input |};
         requestDigest := digest; contextAccounting := None; approvedRequest := None;
         approvedDigest := None; failure := None; rec_closed := false |}.

Definition open (input : CodexProviderRequestRecordInput) (g : CodexProviderRequestGuard)
    : outcome GuardError Z * CodexProviderRequestGuard :=
  if disposed g then (Throw RECORD_UNAVAILABLE, g) else
  let generation := (nextGeneration g + 1)%Z in
  let g := {| heap := heap g; records := records g; nextGeneration := generation;
              disposed := disposed g; aborted := aborted g |} in
  match build_record input with
  | Throw e => (Throw e, g)
  | Ret r => (Ret generation,
      {| heap := <[ generation := r ]> (heap g); records := {[ generation ]} ∪ records g;
         nextGeneration := generation; disposed := disposed g; aborted := aborted g |})
  end.

Definition signal_aborted (s : option signal_id) (g : CodexProviderRequestGuard) : bool :=
  match s with Some s => bool_decide (s ∈ aborted g) | None => false end.

(** [assertLive] returns instead of throwing [RECORD_REJECTED]. *)
Definition assertLive (gen : Z) (g : CodexProviderRequestGuard) : bool :=
  match heap g !! gen with
  | None => false
  | Some r =>
      negb (disposed g || rec_closed r || negb (bool_decide (gen ∈ records g)) ||
            signal_aborted (in_signal (rec_input r)) g ||
            signal_aborted (in_options_signal (rec_input r)) g)
  end.

(** The record of a live generation. *)
Definition live_record (gen : Z) (g : CodexProviderRequestGuard)
    : outcome GuardError CodexProviderRequestRecord :=
  if assertLive gen g then
    match heap g !! gen with Some r => Ret r | None => Throw RECORD_REJECTED end
  else Throw RECORD_REJECTED.

(** [run]: the callback sees the record as the current one. *)
Definition run {A} (gen : Z)
    (callback : option Z → CodexProviderRequestGuard → outcome GuardError A * CodexProviderRequestGuard)
    (g : CodexProviderRequestGuard) : outcome GuardError A * CodexProviderRequestGuard :=
  if assertLive gen g then callback (Some gen) g else (Throw RECORD_REJECTED, g).

(** The request is stored before its digest is computed. *)
Definition approve (current : option Z) (gen : Z) (request : jsval) (g : CodexProviderRequestGuard)
    : outcome GuardError jsval * CodexProviderRequestGuard :=
  match live_record gen g with
  | Throw e => (Throw e, g)
  | Ret r =>
      if negb (bool_decide (current = Some gen)) then (Throw RECORD_REJECTED, g) else
      match digestJson request with
      | Throw e => (Throw e, with_record gen (with_approval request (approvedDigest r) r) g)
      | Ret d => (Ret request, with_record gen (with_approval request (Some d) r) g)
      end
  end.

Definition recordFailure (current : option Z) (gen : Z) (cause : jsval) (g : CodexProviderRequestGuard)
    : outcome GuardError unit * CodexProviderRequestGuard :=
  match live_record gen g with
  | Throw e => (Throw e, g)
  | Ret r =>
      if negb (bool_decide (current = Some gen)) then (Throw RECORD_REJECTED, g) else
      match failure r with
      | None => (Ret tt, with_record gen (with_failure cause r) g)
      | Some _ => (Ret tt, g)
      end
  end.

Definition assertApproved (gen : Z) (request : jsval) (g : CodexProviderRequestGuard)
    : outcome GuardError jsval :=
  r ← live_record gen g;
  match failure r with
  | Some cause => Throw (failure_cause cause)
  | None =>
      match approvedRequest r, approvedDigest r, as_record request with
      | Some approved, Some digest, Some _ =>
          d ← digestJson request;
          if String.eqb d digest then Ret approved else Throw RECORD_REJECTED
      | _, _, _ => Throw RECORD_REJECTED
      end
  end.

Definition assertRoute (gen : Z) (hookSessionId : string) (g : CodexProviderRequestGuard)
    : outcome GuardError unit :=
  r ← live_record gen g;
  if String.eqb (in_sessionId (rec_input r)) hookSessionId then Ret tt else Throw RECORD_REJECTED.

(** [#close], and [consume], which leaves a closed record alone. *)
Definition close_record (gen : Z) (g : CodexProviderRequestGuard) : CodexProviderRequestGuard :=
  match heap g !! gen with
  | None => g
  | Some r => {| heap := <[ gen := with_closed r ]> (heap g); records := records g ∖ {[ gen ]};
                 nextGeneration := nextGeneration g; disposed := disposed g; aborted := aborted g |}
  end.

Definition consume (gen : Z) (g : CodexProviderRequestGuard) : CodexProviderRequestGuard :=
  match heap g !! gen with
  | Some r => if rec_closed r then g else close_record gen g
  | None => g
  end.

(** The loops over the values of [#records]. *)
Definition close_where (P : CodexProviderRequestRecord → bool) (g : CodexProviderRequestGuard)
    : CodexProviderRequestGuard :=
  foldr (λ gen g, match heap g !! gen with
                  | Some r => if P r then close_record gen g else g
                  | None => g
                  end) g (elements (records g)).

Definition invalidateSession (sessionId : string) : CodexProviderRequestGuard → CodexProviderRequestGuard :=
  close_where (λ r, String.eqb (in_sessionId (rec_input r)) sessionId).
Definition invalidateAll : CodexProviderRequestGuard → CodexProviderRequestGuard :=
  close_where (λ _, true).

Definition dispose (g : CodexProviderRequestGuard) : CodexProviderRequestGuard :=
  invalidateAll {| heap := heap g; records := records g; nextGeneration := nextGeneration g;
                   disposed := true; aborted := aborted g |}.

Definition activeRecordCount (g : CodexProviderRequestGuard) : nat := size (records g).

(** A signal is aborted by its owner. *)
Definition abort_signal (s : signal_id) (g : CodexProviderRequestGuard) : CodexProviderRequestGuard :=
  {| heap := heap g; records := records g; nextGeneration := nextGeneration g;
     disposed := disposed g; aborted := {[ s ]} ∪ aborted g |}.

(** ** Histories *)

Inductive guard_op :=
| g_open (input : CodexProviderRequestRecordInput)
| g_approve (current : option Z) (gen : Z) (request : jsval)
| g_failure (current : option Z) (gen : Z) (cause : jsval)
| g_consume (gen : Z)
| g_invalidateSession (sessionId : string)
| g_invalidateAll
| g_dispose
| g_abort (s : signal_id).

Definition guard_step (o : guard_op) (g : CodexProviderRequestGuard) : CodexProviderRequestGuard :=
  match o with
  | g_open input => (open input g).2
  | g_approve current gen request => (approve current gen request g).2
  | g_failure current gen cause => (recordFailure current gen cause g).2
  | g_consume gen => consume gen g
  | g_invalidateSession s => invalidateSession s g
  | g_invalidateAll => invalidateAll g
  | g_dispose => dispose g
  | g_abort s => abort_signal s g
  end.

Definition guard_run (ops : list guard_op) (g : CodexProviderRequestGuard) : CodexProviderRequestGuard :=
  fold_left (λ g o, guard_step o g) ops g.

End guard.
