(* ===== verification/RequestGuardFacts.v ===== *)
(** * RequestGuardFacts

    The digest of a request depends on its value up to the order of object
    keys and on nothing else, and what the guard promises: an approved request
    is the one that was last approved, and a closed record stays closed. *)

From S2P Require Import Prelude StructuredJson Compaction Json RequestGuard.

(** ** Canonical order *)

Lemma object_order_perm fs : object_order fs ≡ₚ fs.
Proof.
  unfold object_order. rewrite merge_sort_Permutation.
  rewrite <-(filter_app_complement (λ kv, is_index kv.1 = true) fs) at 3.
  f_equiv. erewrite list_filter_iff; [done|]. intros kv.
  by rewrite not_true_iff_false.
Qed.

Lemma keys_perm (fs gs : list (string * jsval)) : fs ≡ₚ gs → keys fs ≡ₚ keys gs.
Proof. intros Hp. unfold keys. by rewrite Hp. Qed.

Lemma field_perm fs gs k : fs ≡ₚ gs → NoDup (keys fs) → field fs k = field gs k.
Proof.
  intros Hp Hnd. destruct (decide (k ∈ keys fs)) as [Hin|Hn].
  - symmetry. apply field_elem; [by rewrite <-(keys_perm fs gs Hp)|].
    rewrite <-Hp. by apply field_in.
  - rewrite !field_absent; [done| |done]. by rewrite <-(keys_perm fs gs Hp).
Qed.

Lemma keys_map_values (f : jsval → jsval) fs :
  keys ((λ kv, (kv.1, f kv.2)) <$> fs) = keys fs.
Proof. unfold keys. rewrite <-list_fmap_compose. by apply list_fmap_ext. Qed.

Lemma field_map_values (f : jsval → jsval) fs k :
  k ∈ keys fs → field ((λ kv, (kv.1, f kv.2)) <$> fs) k = f (field fs k).
Proof.
  induction fs as [|[k' v] fs IH]; cbn; [set_solver|].
  destruct (String.eqb_spec k' k) as [->|Hne]; [done|].
  rewrite elem_of_cons. intros [->|?]; [done|auto].
Qed.

Lemma keys_pairs (f : string → jsval) ks : keys ((λ k, (k, f k)) <$> ks) = ks.
Proof. unfold keys. rewrite <-list_fmap_compose. apply list_fmap_id. Qed.

Lemma field_pairs (f : string → jsval) ks k :
  k ∈ ks → field ((λ k, (k, f k)) <$> ks) k = f k.
Proof.
  induction ks as [|k' ks IH]; simpl; [set_solver|].
  destruct (String.eqb_spec k' k) as [->|Hne]; [done|].
  rewrite elem_of_cons. intros [->|?]; [done|auto].
Qed.

(** The fields of a sorted object, as the code lists them. *)
Definition sorted_fields (fs : list (string * jsval)) : list (string * jsval) :=
  (λ k, (k, field ((λ kv, (kv.1, sortJson kv.2)) <$> fs) k)) <$> js_sort (keys fs).

Lemma sortJson_obj fs : sortJson (VObj fs) = VObj (object_order (sorted_fields fs)).
Proof. reflexivity. Qed.

Lemma js_sort_perm l : js_sort l ≡ₚ l.
Proof. apply merge_sort_Permutation. Qed.

Lemma sorted_keys fs : keys (object_order (sorted_fields fs)) ≡ₚ keys fs.
Proof.
  rewrite (keys_perm _ _ (object_order_perm _)). unfold sorted_fields.
  rewrite keys_pairs. apply js_sort_perm.
Qed.

Lemma sorted_field fs k :
  NoDup (keys fs) → k ∈ keys fs →
  field (object_order (sorted_fields fs)) k = sortJson (field fs k).
Proof.
  intros Hnd Hin. rewrite (field_perm _ (sorted_fields fs)).
  - unfold sorted_fields. rewrite field_pairs by (by rewrite js_sort_perm).
    by apply field_map_values.
  - apply object_order_perm.
  - by rewrite sorted_keys.
Qed.

Lemma elem_sorted fs k v :
  NoDup (keys fs) → (k, v) ∈ object_order (sorted_fields fs) →
  k ∈ keys fs ∧ v = sortJson (field fs k).
Proof.
  intros Hnd Hin. assert (k ∈ keys fs) as Hk.
  { rewrite <-sorted_keys. apply list_elem_of_fmap. by exists (k, v). }
  split; [done|]. rewrite <-sorted_field by done. symmetry.
  apply field_elem; [by rewrite sorted_keys|done].
Qed.

Lemma wf_obj_iff fs : wf_value (VObj fs) = true ↔
  NoDup (keys fs) ∧ ∀ k v, (k, v) ∈ fs → wf_value v = true.
Proof.
  simpl. rewrite andb_true_iff, bool_decide_eq_true, forallb_forall. f_equiv. split.
  - intros Hf k v Hin. apply (Hf (k, v)). by apply list_elem_of_In.
  - intros Hf [k v] Hin. apply (Hf k v). by apply list_elem_of_In.
Qed.

Lemma sortJson_jseq v : wf_value v = true → jseq v (sortJson v).
Proof.
  induction v as [| | | | |l IH|fs IH|] using jsval_nested_ind; intros Hwf; try apply jseq_refl.
  - simpl. constructor. simpl in Hwf. induction IH as [|x l Hx _ IH]; simpl in *; constructor.
    + apply Hx. by apply andb_true_iff in Hwf as [? _].
    + apply IH. by apply andb_true_iff in Hwf as [_ ?].
  - rewrite sortJson_obj. apply wf_obj_iff in Hwf as [Hnd Hwf]. constructor.
    + intros k. by rewrite sorted_keys.
    + intros k Hk. rewrite sorted_keys in Hk. rewrite sorted_field by done.
      rewrite Forall_forall in IH. pose proof (field_in fs k Hk) as Hin.
      apply (IH (k, field fs k) Hin). by apply (Hwf k).
Qed.

Lemma sortJson_wf v : wf_value v = true → wf_value (sortJson v) = true.
Proof.
  induction v as [| | | | |l IH|fs IH|] using jsval_nested_ind; intros Hwf; try done.
  - simpl in *. induction IH as [|x l Hx _ IH]; simpl in *; [done|]. bool_to_prop. naive_solver.
  - rewrite sortJson_obj. apply wf_obj_iff in Hwf as [Hnd Hwf]. apply wf_obj_iff.
    split; [by rewrite sorted_keys|]. intros k v (Hk & ->)%elem_sorted; [|done].
    rewrite Forall_forall in IH. pose proof (field_in fs k Hk) as Hin.
    apply (IH (k, field fs k) Hin). by apply (Hwf k).
Qed.

(** [sortJson] gives the same value for values that differ in key order only. *)
Lemma sortJson_proper v w :
  wf_value v = true → wf_value w = true → jseq v w → sortJson v = sortJson w.
Proof.
  revert w; induction v as [| | | | |l IH|fs IH|] using jsval_nested_ind; intros w Hv Hw Hj;
    inversion Hj as [| | | | |l0 l' Hl|fs0 gs Hk Hf|]; subst; try done.
  - simpl in *. f_equal. clear Hj. revert l' Hl Hw.
    induction IH as [|x l Hx _ IH]; intros l' Hl Hw; inversion Hl; subst; [done|].
    simpl in *. bool_to_prop. f_equal; naive_solver.
  - rewrite !sortJson_obj. do 2 f_equal. unfold sorted_fields.
    apply wf_obj_iff in Hv as [Hnd Hv], Hw as [Hnd' Hw].
    assert (js_sort (keys fs) = js_sort (keys gs)) as ->.
    { apply js_sort_eq. by apply NoDup_Permutation. }
    apply list_fmap_ext. intros i k Hi. f_equal.
    assert (Hkg : k ∈ keys gs) by (rewrite <-js_sort_perm; by eapply list_elem_of_lookup_2).
    assert (Hkf : k ∈ keys fs) by (by apply Hk).
    rewrite !field_map_values by done. rewrite Forall_forall in IH.
    pose proof (field_in fs k Hkf) as Hin. apply (IH (k, field fs k) Hin); simpl.
    + by apply (Hv k).
    + apply (Hw k). by apply field_in.
    + by apply Hf.
Qed.

Section digest.
Context `{JsonText} (sha256Hex : string → string).

(** Two texts with the same hash. *)
Definition collision : Prop := ∃ x y, x ≠ y ∧ sha256Hex x = sha256Hex y.

Lemma digestJson_ret v d :
  digestJson sha256Hex v = Ret d ↔
  json_value v = true ∧ d = sha256 sha256Hex (stringify (sortJson v)).
Proof.
  unfold digestJson. destruct (json_value v); split; intros; naive_solver.
Qed.

Lemma sha256_inj x y : sha256 sha256Hex x = sha256 sha256Hex y → x = y ∨ collision.
Proof.
  unfold sha256. intros He%append_inj_r. destruct (decide (x = y)); [by left|].
  right. by exists x, y.
Qed.

Lemma digest_same_value v w d :
  wf_value v = true → wf_value w = true →
  digestJson sha256Hex v = Ret d → digestJson sha256Hex w = Ret d → jseq v w ∨ collision.
Proof.
  intros Hv Hw (Hjv & ->)%digestJson_ret (Hjw & He)%digestJson_ret.
  apply sha256_inj in He as [He|?]; [left|by right].
  assert (Hvs := sortJson_jseq v Hv). assert (Hws := sortJson_jseq w Hw).
  etrans; [exact Hvs|]. symmetry. etrans; [exact Hws|]. symmetry.
  apply stringify_jseq; try (by apply sortJson_wf); try done.
  - exact (json_value_jseq v _ Hv (sortJson_wf v Hv) Hvs Hjv).
  - exact (json_value_jseq w _ Hw (sortJson_wf w Hw) Hws Hjw).
Qed.

Lemma digest_of_jseq v w d :
  wf_value v = true → wf_value w = true →
  jseq v w → digestJson sha256Hex v = Ret d → digestJson sha256Hex w = Ret d.
Proof.
  intros Hv Hw Hj (Hjv & ->)%digestJson_ret. apply digestJson_ret.
  split; [by apply (json_value_jseq v)|]. by rewrite (sortJson_proper v w).
Qed.

(** The digest of a JSON request identifies its value: a value that
    differs in the order of object keys only has the same digest, and one with
    the same digest differs in that order only, unless two texts with the same
    SHA-256 hash have been found. *)
Theorem digest_identifies_value v w d :
  wf_value v = true → wf_value w = true → digestJson sha256Hex v = Ret d →
  (jseq v w → digestJson sha256Hex w = Ret d) ∧
  (digestJson sha256Hex w = Ret d → jseq v w ∨ collision).
Proof.
  intros Hv Hw Hd. split; [intros; by apply (digest_of_jseq v)|].
  intros. by apply (digest_same_value v w d).
Qed.
End digest.

Lemma digest_identifies_value_witness :
  let v := VObj [("b", VNum 1%Z); ("10", VNull); ("9", VStr "x")] in
  let w := VObj [("9", VStr "x"); ("10", VNull); ("b", VNum 1%Z)] in
  @digestJson bits_json id w = @digestJson bits_json id v ∧
  sortJson v = VObj [("9", VStr "x"); ("10", VNull); ("b", VNum 1%Z)].
Proof.
  intros v w. split; [|vm_compute; reflexivity].
  destruct (@digest_identifies_value bits_json id v w
    (sha256 id (@stringify bits_json (sortJson v))) eq_refl eq_refl eq_refl) as [Hs _].
  apply Hs. constructor.
  - intros k. cbn. set_solver.
  - intros k Hk. cbn in Hk. repeat (apply elem_of_cons in Hk as [->|Hk]); [constructor..|].
    by apply not_elem_of_nil in Hk.
Defined.

(** ** The life of a record *)

(** What no step undoes for a record that exists already. *)
Record evolves (gen : Z) (g g' : CodexProviderRequestGuard) : Prop := {
  ev_record r' : heap g' !! gen = Some r' →
    ∃ r, heap g !! gen = Some r ∧ rec_input r' = rec_input r ∧
         (rec_closed r = true → rec_closed r' = true);
  ev_records : gen ∈ records g' → gen ∈ records g;
  ev_aborted : aborted g ⊆ aborted g';
  ev_disposed : disposed g = true → disposed g' = true;
  ev_next : (nextGeneration g ≤ nextGeneration g')%Z }.

#[export] Instance evolves_preorder gen : PreOrder (evolves gen).
Proof.
  split; [intros g; split; naive_solver|].
  intros g1 g2 g3 [R1 I1 A1 D1 N1] [R2 I2 A2 D2 N2]; split; [|tauto|set_solver|tauto|lia].
  intros r3 Hr3. destruct (R2 _ Hr3) as (r2 & Hr2 & E2 & C2).
  destruct (R1 _ Hr2) as (r1 & Hr1 & E1 & C1).
  exists r1. split_and!; [done|congruence|tauto].
Qed.

Lemma assertLive_iff gen g : assertLive gen g = true ↔
  ∃ r, heap g !! gen = Some r ∧ disposed g = false ∧ rec_closed r = false ∧ gen ∈ records g ∧
       signal_aborted (in_signal (rec_input r)) g = false ∧
       signal_aborted (in_options_signal (rec_input r)) g = false.
Proof.
  unfold assertLive. destruct (heap g !! gen) as [r|].
  - bool_to_prop. split; [intros H; exists r|intros (r' & [= <-] & H)]; tauto.
  - split; [done|]. intros (r & [=] & _).
Qed.

Lemma signal_aborted_mono s g g' :
  aborted g ⊆ aborted g' → signal_aborted s g' = false → signal_aborted s g = false.
Proof. unfold signal_aborted. destruct s; [|done]. bool_to_prop. set_solver. Qed.

Lemma signal_aborted_abort s g : signal_aborted (Some s) (abort_signal s g) = true.
Proof. apply bool_decide_eq_true_2, elem_of_union_l, elem_of_singleton. done. Qed.

Lemma evolves_live gen g g' : evolves gen g g' → assertLive gen g' = true → assertLive gen g = true.
Proof.
  intros [R I A D _] (r' & Hr' & Hd & Hc & Hin & Hs & Ho)%assertLive_iff.
  destruct (R _ Hr') as (r & Hr & He & Hcl). apply assertLive_iff. exists r.
  rewrite He in Hs, Ho. split_and!; [done|..].
  - destruct (disposed g); [by rewrite D in Hd|done].
  - destruct (rec_closed r); [by rewrite Hcl in Hc|done].
  - auto.
  - by apply (signal_aborted_mono _ g g').
  - by apply (signal_aborted_mono _ g g').
Qed.

Lemma with_record_evolves gen gen' r r' g :
  heap g !! gen' = Some r → rec_input r' = rec_input r → rec_closed r' = rec_closed r →
  evolves gen g (with_record gen' r' g).
Proof.
  intros Hr Hi Hc. split; simpl; [|done..|lia]. intros r0.
  destruct (decide (gen' = gen)) as [->|].
  - rewrite lookup_insert_eq. intros [= <-]. exists r. split_and!; congruence.
  - rewrite lookup_insert_ne by done. naive_solver.
Qed.

Lemma close_record_evolves gen gen' g : evolves gen g (close_record gen' g).
Proof.
  unfold close_record. destruct (heap g !! gen') as [r|] eqn:Hr; [|done].
  split; simpl; [|set_solver|done..]. intros r0.
  destruct (decide (gen' = gen)) as [->|].
  - rewrite lookup_insert_eq. intros [= <-]. by exists r.
  - rewrite lookup_insert_ne by done. naive_solver.
Qed.

Lemma close_record_closes gen g : assertLive gen (close_record gen g) = false.
Proof.
  apply not_true_iff_false. intros (r & Hr & _ & Hc & Hin & _)%assertLive_iff.
  revert Hr Hin. unfold close_record. destruct (heap g !! gen) as [r0|] eqn:Hr0; simpl; [set_solver|].
  by rewrite Hr0.
Qed.

Definition close_each (P : CodexProviderRequestRecord → bool) (gens : list Z)
    (g : CodexProviderRequestGuard) : CodexProviderRequestGuard :=
  foldr (λ gen g, match heap g !! gen with
                  | Some r => if P r then close_record gen g else g
                  | None => g
                  end) g gens.

Lemma close_each_evolves P gen gens g : evolves gen g (close_each P gens g).
Proof.
  induction gens as [|x gens IH]; simpl; [done|]. etrans; [exact IH|].
  destruct (heap (close_each P gens g) !! x); [|done].
  destruct (P c); [apply close_record_evolves|done].
Qed.

(** A record the loop should close is not live afterwards. *)
Lemma close_where_closes P gen r g :
  (∀ r', rec_input r' = rec_input r → P r' = true) →
  heap g !! gen = Some r → assertLive gen (close_where P g) = false.
Proof.
  intros HP Hr. change (close_where P g) with (close_each P (elements (records g)) g).
  destruct (decide (gen ∈ records g)) as [Hin|Hn].
  - apply elem_of_elements in Hin. revert Hin. generalize (elements (records g)). intros gens.
    induction gens as [|x gens IH]; [set_solver|]. rewrite elem_of_cons. intros Hin.
    destruct (decide (gen ∈ gens)) as [Hin'|Hn'].
    + specialize (IH Hin'). apply not_true_iff_false. intros Hl. apply not_true_iff_false in IH.
      apply IH. revert Hl. simpl. destruct (heap (close_each P gens g) !! x); [|done].
      destruct (P c); [|done]. apply evolves_live, close_record_evolves.
    + destruct Hin as [<-|]; [|done]. simpl.
      destruct (heap (close_each P gens g) !! gen) as [r'|] eqn:Hr'.
      * destruct (ev_record _ _ _ (close_each_evolves P gen gens g) r' Hr') as (r0 & Hr0 & He & _).
        rewrite HP; [apply close_record_closes|]. congruence.
      * apply not_true_iff_false. intros (? & ? & _)%assertLive_iff. congruence.
  - apply not_true_iff_false. intros (? & _ & _ & _ & Hin & _)%assertLive_iff. destruct Hn.
    by apply (ev_records _ _ _ (close_each_evolves P gen (elements (records g)) g)).
Qed.

Section guard.
Context `{JsonText} (sha256Hex : string → string).

Abbreviation step := (guard_step sha256Hex).
Abbreviation grun := (guard_run sha256Hex).

Lemma live_record_ret gen g r : live_record gen g = Ret r ↔ assertLive gen g = true ∧ heap g !! gen = Some r.
Proof. unfold live_record, assertLive. destruct (heap g !! gen); split; intros; split_matches; naive_solver. Qed.

(** Every step lets the records that exist evolve. *)
Lemma step_evolves' o gen g :
  (∀ input, o = g_open input → (gen ≤ nextGeneration g)%Z) → evolves gen g (step o g).
Proof.
  intros Hgen. destruct o as [input|cur gen' req|cur gen' cause|gen'|s| | |s]; simpl.
  - unfold open. destruct (disposed g) eqn:Hd; [done|].
    specialize (Hgen input eq_refl).
    destruct (build_record sha256Hex input); split; simpl; try lia; try done; try naive_solver.
    + intros r'. rewrite lookup_insert_ne by lia. naive_solver.
    + rewrite elem_of_union, elem_of_singleton. intros [->|]; [lia|done].
  - unfold approve. destruct (live_record gen' g) as [r|] eqn:Hr; [|done].
    apply live_record_ret in Hr as [_ Hr].
    destruct (negb _); [done|]. destruct (digestJson sha256Hex req);
      by eapply with_record_evolves.
  - unfold recordFailure. destruct (live_record gen' g) as [r|] eqn:Hr; [|done].
    apply live_record_ret in Hr as [_ Hr].
    destruct (negb _); [done|]. destruct (failure r); [done|]. by eapply with_record_evolves.
  - unfold consume. destruct (heap g !! gen'); [|done].
    destruct (rec_closed c); [done|]. apply close_record_evolves.
  - apply close_each_evolves.
  - apply close_each_evolves.
  - etrans; [|apply close_each_evolves]. split; simpl; naive_solver.
  - split; simpl; [naive_solver..|set_solver|done|lia].
Qed.

Lemma step_evolves o gen g : (gen ≤ nextGeneration g)%Z → evolves gen g (step o g).
Proof. intros Hgen. by apply step_evolves'. Qed.

Lemma step_next o g : (nextGeneration g ≤ nextGeneration (step o g))%Z.
Proof. apply (ev_next (nextGeneration g)). by apply step_evolves. Qed.

Lemma run_evolves ops gen g : (gen ≤ nextGeneration g)%Z → evolves gen g (grun ops g).
Proof.
  revert g; induction ops as [|o ops IH]; intros g Hgen; simpl; [done|].
  etrans; [by apply (step_evolves o)|]. apply IH. pose proof (step_next o g). lia.
Qed.

(** The steps after which a record is not live any more. *)
Definition ends (gen : Z) (g : CodexProviderRequestGuard) (o : guard_op) : Prop :=
  match o with
  | g_consume gen' => gen' = gen
  | g_invalidateSession s =>
      ∃ r, heap g !! gen = Some r ∧ in_sessionId (rec_input r) = s
  | g_invalidateAll | g_dispose => True
  | g_abort s =>
      ∃ r, heap g !! gen = Some r ∧
           (in_signal (rec_input r) = Some s ∨ in_options_signal (rec_input r) = Some s)
  | _ => False
  end.

Lemma no_record_not_live gen g : heap g !! gen = None → assertLive gen g = false.
Proof. unfold assertLive. by intros ->. Qed.

Lemma ends_not_live gen g o : (gen ≤ nextGeneration g)%Z → ends gen g o → assertLive gen (step o g) = false.
Proof.
  intros Hgen He. destruct (heap g !! gen) as [r|] eqn:Hr; last first.
  { apply not_true_iff_false. intros Hl. apply (evolves_live _ g) in Hl; [|by apply step_evolves].
    by rewrite no_record_not_live in Hl. }
  destruct o as [input|cur gen' req|cur gen' cause|gen'|s| | |s]; simpl in *; try done.
  - subst gen'. unfold consume. rewrite Hr. destruct (rec_closed r) eqn:Hc; [|apply close_record_closes].
    unfold assertLive. rewrite Hr, Hc. by rewrite orb_true_r.
  - destruct He as (r' & Hr' & <-). assert (r' = r) as -> by congruence. apply (close_where_closes _ _ r); [|done].
    intros r' ->. apply String.eqb_refl.
  - by apply (close_where_closes _ _ r).
  - by apply (close_where_closes _ _ r).
  - destruct He as (r' & Hr' & Hs). assert (r' = r) as -> by congruence. apply not_true_iff_false.
    intros (r' & Hr'' & _ & _ & _ & Hs1 & Hs2)%assertLive_iff.
    simpl in Hr''. assert (r' = r) as -> by congruence.
    destruct Hs as [Hs|Hs]; rewrite Hs, signal_aborted_abort in *; done.
Qed.

(** Consuming a record, invalidating its session or all of them,
    disposing the guard, or aborting one of the record's signals is final:
    whatever is called afterwards, the record is never live again, so it can
    neither be approved nor dispatched. *)
Theorem ended_record_is_final ops ops' gen o request :
  let g := grun ops new_guard in
  (gen ≤ nextGeneration g)%Z → ends gen g o →
  let g' := grun ops' (step o g) in
  assertLive gen g' = false ∧
  assertApproved sha256Hex gen request g' = Throw RECORD_REJECTED ∧
  ∀ current, approve sha256Hex current gen request g' = (Throw RECORD_REJECTED, g').
Proof.
  intros g Hgen He g'.
  assert (Hl : assertLive gen g' = false).
  { apply not_true_iff_false. intros Hl. apply (evolves_live _ (step o g)) in Hl.
    - by rewrite (ends_not_live gen g o) in Hl.
    - apply run_evolves. pose proof (step_next o g). lia. }
  unfold assertApproved, approve, live_record. by rewrite Hl.
Qed.
(** ** Approval *)

(** The effective approvals and failures of a record are those of its own scope. *)
Definition concerns (gen : Z) (o : guard_op) : Prop :=
  match o with
  | g_approve current gen' _ | g_failure current gen' _ => gen' = gen ∧ current = Some gen
  | _ => False
  end.

Definition same_approval (r r' : CodexProviderRequestRecord) : Prop :=
  approvedRequest r' = approvedRequest r ∧ approvedDigest r' = approvedDigest r ∧ failure r' = failure r.

#[local] Instance same_approval_preorder : PreOrder same_approval.
Proof. unfold same_approval. split; [by intros r|intros r1 r2 r3]; intuition congruence. Qed.

(** Every record of [g'] is one of [g] with the same approval. *)
Definition approvals_kept (gen : Z) (g g' : CodexProviderRequestGuard) : Prop :=
  ∀ r', heap g' !! gen = Some r' → ∃ r, heap g !! gen = Some r ∧ same_approval r r'.

Lemma approvals_kept_refl gen g : approvals_kept gen g g.
Proof. intros r Hr. by exists r. Qed.

Lemma approvals_kept_trans gen g1 g2 g3 :
  approvals_kept gen g1 g2 → approvals_kept gen g2 g3 → approvals_kept gen g1 g3.
Proof.
  intros H1 H2 r3 (r2 & Hr2 & H23)%H2. destruct (H1 _ Hr2) as (r1 & Hr1 & H12).
  exists r1. split; [done|]. by etrans.
Qed.

Lemma close_record_approvals gen gen' g : approvals_kept gen g (close_record gen' g).
Proof.
  unfold close_record. destruct (heap g !! gen') as [r|] eqn:Hr; [|apply approvals_kept_refl].
  intros r'. simpl. destruct (decide (gen' = gen)) as [->|].
  - rewrite lookup_insert_eq. intros [= <-]. by exists r.
  - rewrite lookup_insert_ne by done. intros Hr'. by exists r'.
Qed.

Lemma close_each_approvals P gen gens g : approvals_kept gen g (close_each P gens g).
Proof.
  induction gens as [|x gens IH]; simpl; [apply approvals_kept_refl|].
  eapply approvals_kept_trans; [exact IH|].
  destruct (heap (close_each P gens g) !! x); [|apply approvals_kept_refl].
  destruct (P c); [apply close_record_approvals|apply approvals_kept_refl].
Qed.

Lemma with_record_approvals gen gen' r g : gen' ≠ gen → approvals_kept gen g (with_record gen' r g).
Proof. intros Hne r'. simpl. rewrite lookup_insert_ne by done. intros. by exists r'. Qed.

Lemma open_new_record gen input g r' :
  heap (open sha256Hex input g).2 !! gen = Some r' →
  heap g !! gen = Some r' ∨ approvedRequest r' = None.
Proof.
  unfold open. destruct (disposed g); [by left|].
  destruct (build_record sha256Hex input) as [r|e] eqn:Hb; simpl; [|by left].
  destruct (decide (nextGeneration g + 1 = gen)%Z) as [->|].
  - rewrite lookup_insert_eq. intros [= <-]. right. revert Hb. unfold build_record.
    repeat (intros Hb; apply bind_ret_iff in Hb as (? & _ & Hb); revert Hb). by intros [= <-].
  - rewrite lookup_insert_ne by done. by left.
Qed.

Lemma step_approvals o gen g r' :
  ¬ concerns gen o → heap (step o g) !! gen = Some r' → approvedRequest r' ≠ None →
  ∃ r, heap g !! gen = Some r ∧ same_approval r r'.
Proof.
  intros Hc Hr' Ha. cut (heap g !! gen = Some r' ∨ approvals_kept gen g (step o g)).
  { intros [?|Hk]; [by exists r'|by apply Hk]. }
  destruct o as [input|cur gen' req|cur gen' cause|gen'|s| | |s]; simpl in *.
  - apply open_new_record in Hr' as [?|?]; [by left|done].
  - right. unfold approve. destruct (live_record gen' g); [|apply approvals_kept_refl].
    case_bool_decide as Hcur; simpl; [|apply approvals_kept_refl].
    destruct (digestJson sha256Hex req); apply with_record_approvals; naive_solver.
  - right. unfold recordFailure. destruct (live_record gen' g); [|apply approvals_kept_refl].
    case_bool_decide as Hcur; simpl; [|apply approvals_kept_refl].
    destruct (failure a); [apply approvals_kept_refl|apply with_record_approvals; naive_solver].
  - right. unfold consume. destruct (heap g !! gen'); [|apply approvals_kept_refl].
    destruct (rec_closed c); [apply approvals_kept_refl|apply close_record_approvals].
  - right. apply close_each_approvals.
  - right. apply close_each_approvals.
  - right. unfold dispose, invalidateAll.
    eapply approvals_kept_trans; [|apply close_each_approvals]. intros r Hr. by exists r.
  - right. intros r Hr. by exists r.
Qed.

(** The part of the history that decides what [assertApproved] returns: the
    last approval in the record's scope, and no failure after it. *)
Definition last_approval (ops : list guard_op) (gen : Z) (req : jsval) : Prop :=
  ∃ ops1 ops2, ops = ops1 ++ g_approve (Some gen) gen req :: ops2 ∧
    assertLive gen (grun ops1 new_guard) = true ∧ Forall (λ o, ¬ concerns gen o) ops2.

Lemma grun_snoc ops o g : grun (ops ++ [o]) g = step o (grun ops g).
Proof. unfold guard_run. by rewrite fold_left_app. Qed.

Lemma concerns_dec gen o : concerns gen o ∨ ¬ concerns gen o.
Proof.
  destruct o; simpl; try (right; naive_solver);
    destruct (decide (gen0 = gen)), (decide (current = Some gen)); tauto.
Qed.

(** Generations are numbered up to the counter. *)
Lemma step_generations o g :
  (∀ gen r, heap g !! gen = Some r → gen ≤ nextGeneration g)%Z →
  (∀ gen r, heap (step o g) !! gen = Some r → gen ≤ nextGeneration (step o g))%Z.
Proof.
  intros Hg gen r Hr. pose proof (step_next o g) as Hn.
  destruct (heap g !! gen) as [r0|] eqn:Hr0; [specialize (Hg _ _ Hr0); lia|].
  destruct (match o with g_open _ => true | _ => false end) eqn:Ho; last first.
  { destruct (ev_record gen g (step o g)) with r as (? & ? & _); [|done|congruence].
    apply step_evolves'. by intros input ->. }
  destruct o as [input| | | | | | |]; try done.
  revert Hr. simpl. unfold open. destruct (disposed g); simpl; [congruence|].
  destruct (build_record sha256Hex input); simpl; [|congruence].
  intros [[<- _]|[_ ?]]%lookup_insert_Some; [lia|congruence].
Qed.

Lemma live_generation ops gen r :
  heap (grun ops new_guard) !! gen = Some r → (gen ≤ nextGeneration (grun ops new_guard))%Z.
Proof.
  revert gen r. induction ops as [|o ops IH] using rev_ind; [done|].
  rewrite grun_snoc. apply step_generations, IH.
Qed.

(** The requests approved for a record are JSON objects. *)
Definition json_approvals (gen : Z) (ops : list guard_op) : Prop :=
  ∀ cur req, g_approve cur gen req ∈ ops → json_value req = true ∧ wf_value req = true.

Lemma live_before ops o gen r :
  heap (grun ops new_guard) !! gen = Some r →
  assertLive gen (step o (grun ops new_guard)) = true → assertLive gen (grun ops new_guard) = true.
Proof. intros Hr. apply evolves_live, step_evolves. by eapply live_generation. Qed.

Lemma approve_stores gen req g r :
  json_value req = true → assertLive gen (approve sha256Hex (Some gen) gen req g).2 = true →
  heap (approve sha256Hex (Some gen) gen req g).2 !! gen = Some r →
  assertLive gen g = true ∧ approvedRequest r = Some req ∧
  approvedDigest r = Some (sha256 sha256Hex (stringify (sortJson req))).
Proof.
  intros Hj. unfold approve. destruct (live_record gen g) as [r0|e] eqn:Hr0.
  - apply live_record_ret in Hr0 as [Hl Hr0]. rewrite bool_decide_eq_true_2 by done. simpl.
    unfold digestJson. rewrite Hj. simpl. rewrite lookup_insert_eq. by intros _ [= <-].
  - simpl. intros Hl Hr. rewrite (proj2 (live_record_ret gen g r)) in Hr0 by done. done.
Qed.

Lemma failure_stays gen cause g r :
  assertLive gen (recordFailure (Some gen) gen cause g).2 = true →
  heap (recordFailure (Some gen) gen cause g).2 !! gen = Some r → failure r ≠ None.
Proof.
  unfold recordFailure. destruct (live_record gen g) as [r0|e] eqn:Hr0.
  - apply live_record_ret in Hr0 as [Hl Hr0]. rewrite bool_decide_eq_true_2 by done. simpl.
    destruct (failure r0) eqn:Hf; simpl; [congruence|]. rewrite lookup_insert_eq. by intros _ [= <-].
  - simpl. intros Hl Hr. rewrite (proj2 (live_record_ret gen g r)) in Hr0 by done. done.
Qed.

(** What is stored in a live record is its last approval. *)
Lemma stored_approval ops gen r req :
  json_approvals gen ops →
  assertLive gen (grun ops new_guard) = true →
  heap (grun ops new_guard) !! gen = Some r → approvedRequest r = Some req → failure r = None →
  last_approval ops gen req ∧ wf_value req = true ∧
  ∃ d, approvedDigest r = Some d ∧ digestJson sha256Hex req = Ret d.
Proof.
  revert r. induction ops as [|o ops IH] using rev_ind; intros r Hj Hl Hr Ha Hf; [done|].
  rewrite grun_snoc in Hl, Hr. destruct (concerns_dec gen o) as [Hc|Hc].
  - destruct o as [|cur gen' req'|cur gen' cause| | | | |]; try done; destruct Hc as [-> ->].
    + destruct (Hj (Some gen) req') as [Hjr Hwf]; [apply elem_of_app; right; by left|].
      destruct (approve_stores gen req' _ r Hjr Hl Hr) as (Hlb & Ha' & Hd).
      rewrite Ha in Ha'. injection Ha' as <-. split_and!; [|done|].
      * exists ops, []. split_and!; [done..|constructor].
      * eexists. split; [done|]. by apply digestJson_ret.
    + by destruct (failure_stays gen cause _ r Hl Hr).
  - destruct (step_approvals o gen _ r Hc Hr) as (r0 & Hr0 & Ea & Ed & Ef); [congruence|].
    destruct (IH r0) as ((ops1 & ops2 & -> & H1 & H2) & Hwf & d & Hd & Hdd); try congruence.
    + intros cur req' Hin. apply (Hj cur). apply elem_of_app. by left.
    + by eapply live_before.
    + split_and!; [|done|exists d; split; congruence].
      exists ops1, (ops2 ++ [o]). split_and!; [by rewrite <-app_assoc|done|].
      apply Forall_app. split; [done|]. by constructor.
Qed.

(** C29: The request a dispatch gets is the one last approved for its record,
    in the record's own scope and while it was live, with no failure recorded
    since, and it is the request presented up to the order of keys, unless two
    texts with the same hash have been found.  The approved requests are JSON,
    as those of the replay hook are. *)
Theorem dispatched_request_was_approved ops gen request req :
  json_approvals gen ops → wf_value request = true →
  assertApproved sha256Hex gen request (grun ops new_guard) = Ret req →
  assertLive gen (grun ops new_guard) = true ∧ last_approval ops gen req ∧
  (jseq request req ∨ collision sha256Hex).
Proof.
  intros Hj Hwf Ha. unfold assertApproved in Ha.
  apply bind_ret_iff in Ha as (r & [Hl Hr]%live_record_ret & Ha).
  destruct (failure r) eqn:Hf; [done|].
  destruct (approvedRequest r) as [req'|] eqn:Hreq; [|done].
  destruct (stored_approval ops gen r req') as (Hlast & Hwf' & d & Hd & Hdd); [done..|].
  rewrite Hd in Ha. destruct (as_record request); [|done].
  apply bind_ret_iff in Ha as (d' & Hd' & Ha).
  destruct (String.eqb_spec d' d) as [->|]; [|done]. injection Ha as ->.
  split_and!; [done..|]. by apply (digest_same_value sha256Hex request req d).
Qed.
End guard.

(** A guard with one open record, approved for a request. *)
Definition example_input : CodexProviderRequestRecordInput := {|
  in_options := VObj [("sessionId", VStr "s")]; in_options_signal := None;
  in_sessionId := "s";
  in_model := VObj [("id", VStr "m"); ("provider", VStr "openai-codex");
                    ("api", VStr "openai-codex-responses"); ("cost", VObj []);
                    ("contextWindow", VNum 1000%Z); ("input", VArr [VStr "text"])];
  in_context := VUndef; in_request := VObj [("model", VStr "m"); ("input", VArr [])];
  in_inputLedger := VArr []; in_connection := VObj []; in_config := VObj [];
  in_capabilities := VObj []; in_signal := Some 1%positive |}.

Lemma ended_record_is_final_witness :
  let ops := [g_open example_input; g_approve (Some 1%Z) 1 (in_request example_input)] in
  assertLive 1 (@guard_run bits_json id ops new_guard) = true ∧
  assertLive 1 (@guard_run bits_json id [g_open example_input]
    (@guard_step bits_json id (g_abort 1%positive) (@guard_run bits_json id ops new_guard))) = false.
Proof.
  intros ops. split; [vm_compute; reflexivity|].
  apply (@ended_record_is_final bits_json id ops [g_open example_input] 1 (g_abort 1%positive) VNull).
  - vm_compute. discriminate.
  - eexists. split; [vm_compute; reflexivity|]. left. reflexivity.
Defined.

Lemma dispatched_request_was_approved_witness :
  let request := VObj [("input", VArr []); ("model", VStr "m")] in
  let ops := [g_open example_input; g_approve (Some 1%Z) 1 (in_request example_input)] in
  assertLive 1 (@guard_run bits_json id ops new_guard) = true ∧
  last_approval (H := bits_json) id ops 1 (in_request example_input) ∧
  (jseq request (in_request example_input) ∨ collision id).
Proof.
  intros request ops. apply (@dispatched_request_was_approved bits_json id ops 1 request).
  - intros cur req Hin. repeat (apply elem_of_cons in Hin as [Hin|Hin]; [simplify_eq; done|]).
    by apply not_elem_of_nil in Hin.
  - reflexivity.
  - vm_compute. reflexivity.
Defined.
