(* ===== verification/ConfigStore.v ===== *)
(** * ConfigStore

    [src/src/infrastructure/configuration/file-config-repository.ts],
    [src/src/application/configuration.ts] and the provider activation
    policy: how the configuration is kept in a file, over an interface for
    the file system.  A file call may fail at any point, and the states the
    file system goes through are recorded, so that a crash between two calls
    is covered.  One call of the repository runs at a time. *)

From S2P Require Import Prelude Io StructuredJson Config Json.

(** ** The file system

    [node:fs/promises], seen as the contents of the files: handles are
    identified with the path they were opened for, directories and modes are
    not kept. *)

Class FileSystem (Disk : Type) := {
  contents : Disk → string → option string;
  fs_readFile : string → Disk → outcome errno string * Disk;
  fs_open_wx : string → Disk → outcome errno unit * Disk;
  fs_writeFile : string → string → Disk → outcome errno unit * Disk;
  fs_sync : string → Disk → outcome errno unit * Disk;
  fs_close : string → Disk → outcome errno unit * Disk;
  fs_rename : string → string → Disk → outcome errno unit * Disk;
  fs_rm : string → Disk → outcome errno unit * Disk;
  fs_mkdir : string → Disk → outcome errno unit * Disk }.

(** Every file but those of [ps] is as before. *)
Definition kept_except `{FileSystem Disk} (ps : list string) (fs fs' : Disk) : Prop :=
  ∀ p, p ∉ ps → contents fs' p = contents fs p.

(** What the calls promise.  Writing may fail half way; [rename] replaces its
    target or changes nothing; an exclusive open never touches a file. *)
Class FileSystemLaws (Disk : Type) `{FileSystem Disk} := {
  read_law p fs : kept_except [] fs (fs_readFile p fs).2 ∧
    match (fs_readFile p fs).1 with
    | Ret s => contents fs p = Some s
    | Throw e => e = ENOENT → contents fs p = None
    end;
  open_law p fs :
    match (fs_open_wx p fs).1 with
    | Ret _ => contents fs p = None ∧ kept_except [p] fs (fs_open_wx p fs).2
    | Throw e => kept_except [] fs (fs_open_wx p fs).2
    end;
  write_law p s fs : kept_except [p] fs (fs_writeFile p s fs).2 ∧
    ((fs_writeFile p s fs).1 = Ret tt → contents (fs_writeFile p s fs).2 p = Some s);
  sync_law p fs : kept_except [] fs (fs_sync p fs).2;
  close_law p fs : kept_except [] fs (fs_close p fs).2;
  rename_law p q fs :
    match (fs_rename p q fs).1 with
    | Ret _ => kept_except [p; q] fs (fs_rename p q fs).2 ∧
               contents (fs_rename p q fs).2 q = contents fs p
    | Throw e => kept_except [] fs (fs_rename p q fs).2
    end;
  rm_law p fs : kept_except [p] fs (fs_rm p fs).2;
  mkdir_law p fs : kept_except [] fs (fs_mkdir p fs).2 }.

(** ** Errors *)

Inductive storage_code := backup_unavailable | invalid_json | storage_failure.
#[export] Instance storage_code_eq_dec : EqDecision storage_code. Proof. solve_decision. Defined.

Inductive store_error :=
| node_error (code : errno)
| ConfigurationStorageError (code : storage_code)
| schema_error (e : ConfigurationError).

Definition storageFailure : store_error := ConfigurationStorageError storage_failure.

Definition isMissingFile (e : store_error) : bool := match e with node_error ENOENT => true | _ => false end.
Definition isExistingFile (e : store_error) : bool := match e with node_error EEXIST => true | _ => false end.

(** The errors of a file that is there but holds no configuration. *)
Definition is_invalid_config (e : store_error) : bool :=
  match e with
  | schema_error _ | ConfigurationStorageError invalid_json => true
  | _ => false
  end.

(** ** Asynchronous calls *)

Abbreviation io Disk := (Io.io Disk store_error).

Definition call {Disk A} (op : Disk → outcome errno A * Disk) : io Disk A := io_call node_error op.

(** An error of the schema, among the errors of the store. *)
Definition outcome_schema {A} (r : outcome ConfigurationError A) : outcome store_error A :=
  match r with Ret a => Ret a | Throw e => Throw (schema_error e) end.

(** ** The repository *)

Inductive ConfigurationProbeResult :=
| probe_ready (config : CodexConfig)
| probe_missing
| probe_invalid_json
| probe_invalid_schema (issues : list ConfigurationIssue)
| probe_storage_failure.

Inductive ConfigurationRecoveryAction := reset_to_defaults | restore_backup.

Section repository.
Context {Disk} `{FileSystem Disk} `{JsonText} (configFile directory : string).

Definition backupFile : string := (configFile ++ ".bak")%string.

Definition serialize (config : CodexConfig) : string :=
  (stringify_indented (config_value config) ++ line_feed)%string.

Definition readConfig (path : string) : io Disk CodexConfig :=
  source ← try_catch (call (fs_readFile path))
    (λ e, if isMissingFile e then io_throw e else io_throw storageFailure);
  match json_parse source with
  | None => io_throw (ConfigurationStorageError invalid_json)
  | Some value => io_lift (outcome_schema (parseConfig value))
  end.

(** [uuid] is the UUID the call draws. *)
Definition temporary (path uuid : string) : string := (path ++ ".tmp-" ++ uuid)%string.

Definition atomicWrite (path text uuid : string) : io Disk unit :=
  let tmp := temporary path uuid in
  try_catch
    (call (fs_open_wx tmp);;
     try_finally (call (fs_writeFile tmp text);; call (fs_sync tmp)) (call (fs_close tmp));;
     call (fs_rename tmp path))
    (λ _, try_catch (call (fs_rm tmp)) (λ _, mret tt);; io_throw storageFailure).

Definition readValidCurrent : io Disk (option CodexConfig) :=
  try_catch (c ← readConfig configFile; mret (Some c))
    (λ e, if isMissingFile e || is_invalid_config e then mret None else io_throw e).

Definition probe : io Disk ConfigurationProbeResult :=
  try_catch (c ← readConfig configFile; mret (probe_ready c))
    (λ e, mret match e with
       | node_error ENOENT => probe_missing
       | schema_error (configuration_error issues) => probe_invalid_schema issues
       | ConfigurationStorageError invalid_json => probe_invalid_json
       | _ => probe_storage_failure
       end).

(** The default configuration is written in place, not renamed into place. *)
Definition create_default : io Disk CodexConfig :=
  let config := createDefaultConfig in
  call (fs_mkdir directory);;
  try_catch
    (call (fs_open_wx configFile);;
     try_finally (call (fs_writeFile configFile (serialize config));; call (fs_sync configFile))
       (call (fs_close configFile));;
     mret config)
    (λ e, if isExistingFile e then readConfig configFile else io_throw storageFailure).

Definition loadOrCreate : io Disk CodexConfig :=
  found ← try_catch (c ← readConfig configFile; mret (Some c))
            (λ e, if isMissingFile e then mret None else io_throw e);
  match found with
  | Some c => mret c
  | None => create_default
  end.

Definition save (config : CodexConfig) (uuid1 uuid2 : string) : io Disk unit :=
  validated ← io_lift (outcome_schema (parseConfig (config_value config)));
  call (fs_mkdir directory);;
  current ← readValidCurrent;
  match current with
  | Some c => atomicWrite backupFile (serialize c) uuid1
  | None => mret tt
  end;;
  atomicWrite configFile (serialize validated) uuid2.

Definition restoreBackup (uuid : string) : io Disk CodexConfig :=
  backup ← try_catch (readConfig backupFile)
    (λ e, if isMissingFile e || is_invalid_config e
          then io_throw (ConfigurationStorageError backup_unavailable) else io_throw e);
  atomicWrite configFile (serialize backup) uuid;;
  mret backup.

Definition backupAvailable : io Disk bool :=
  try_catch (readConfig backupFile;; mret true) (λ _, mret false).

(** ** The service

    Listeners are numbered in the order they were added; a notification is
    logged with the listener it reaches.  A listener that throws is ignored. *)

Definition inspect : io Disk (ConfigurationProbeResult * list ConfigurationRecoveryAction) :=
  p ← probe;
  let reset := match p with
    | probe_invalid_json | probe_invalid_schema _ | probe_missing => [reset_to_defaults]
    | _ => [] end in
  match p with
  | probe_invalid_json | probe_invalid_schema _ =>
      available ← backupAvailable;
      mret (p, reset ++ if available : bool then [restore_backup] else [])
  | _ => mret (p, reset)
  end.

Definition notify (listeners : list nat) (config : CodexConfig) : list (nat * CodexConfig) :=
  (λ l, (l, config)) <$> listeners.

Definition applyDraft (draft : jsval) (context : ConfigCapabilityContext) (listeners : list nat)
    (uuid1 uuid2 : string) : io Disk (CodexConfig * list (nat * CodexConfig)) :=
  config ← io_lift (outcome_schema (validateConfigForSave draft context));
  save config uuid1 uuid2;;
  mret (config, notify listeners config).

Definition resetToDefaults (listeners : list nat) (uuid1 uuid2 : string)
    : io Disk (CodexConfig * list (nat * CodexConfig)) :=
  save createDefaultConfig uuid1 uuid2;;
  mret (createDefaultConfig, notify listeners createDefaultConfig).

Definition service_restoreBackup (listeners : list nat) (uuid : string)
    : io Disk (CodexConfig * list (nat * CodexConfig)) :=
  config ← restoreBackup uuid;
  mret (config, notify listeners config).

End repository.

(** ** Provider activation *)

Inductive ProviderActivationReason := no_model | provider_not_selected | unsupported_pi_api.
Inductive ProviderActivationDecision := active | not_active (reason : ProviderActivationReason).
#[export] Instance ProviderActivationReason_eq_dec : EqDecision ProviderActivationReason.
Proof. solve_decision. Defined.
#[export] Instance ProviderActivationDecision_eq_dec : EqDecision ProviderActivationDecision.
Proof. solve_decision. Defined.

Record ProviderActivationModel := { am_provider : string; am_api : string }.

Definition CODEX_PI_APIS : list string := ["openai-responses"; "openai-codex-responses"].
Definition isCodexPiApi (api : string) : bool := js_elem api CODEX_PI_APIS.

Definition resolveProviderActivation (model : option ProviderActivationModel)
    (selected : list string) : ProviderActivationDecision :=
  match model with
  | None => not_active no_model
  | Some m =>
      if negb (js_elem (am_provider m) selected) then not_active provider_not_selected
      else if negb (isCodexPiApi (am_api m)) then not_active unsupported_pi_api
      else active
  end.

(** The policy keeps the providers of the last valid configuration: [refresh]
    keeps them when loading throws, a change notification replaces them. *)
Definition initial_providers : list string := providers (activation createDefaultConfig).
Definition replace_providers (c : CodexConfig) (_ : list string) : list string :=
  providers (activation c).
Definition refresh (loaded : outcome store_error CodexConfig) (selected : list string) : list string :=
  match loaded with Ret c => replace_providers c selected | Throw _ => selected end.
Definition isActive (model : option ProviderActivationModel) (selected : list string) : bool :=
  bool_decide (resolveProviderActivation model selected = active).
