(* ===== verification/ConfigStoreFacts.v ===== *)
(** * ConfigStoreFacts

    What the configuration repository keeps on disk, whatever file calls
    fail and wherever the process stops: the specifications of saving, loading
    and restoring, by the rules of [Io]. *)

From S2P Require Import Prelude Io StructuredJson Config ConfigFacts Json ConfigStore.

(** ** The file system *)

Section facts.
Context {Disk} {Hfs : FileSystem Disk} {Hlaws : FileSystemLaws Disk} {Hjson : JsonText} (configFile directory : string).

Lemma kept_refl ps (fs : Disk) : kept_except ps fs fs.
Proof. by intros p _. Qed.

Lemma kept_trans ps (fs1 fs2 fs3 : Disk) :
  kept_except ps fs1 fs2 → kept_except ps fs2 fs3 → kept_except ps fs1 fs3.
Proof. intros Hk1 Hk2 p Hp. by rewrite Hk2, Hk1. Qed.

Lemma kept_weaken ps qs (fs1 fs2 : Disk) :
  (∀ p, p ∈ ps → p ∈ qs) → kept_except ps fs1 fs2 → kept_except qs fs1 fs2.
Proof. intros Hs Hk p Hp. apply Hk. auto. Qed.

Abbreviation same := (kept_except []).

Lemma same_kept ps (fs1 fs2 : Disk) : same fs1 fs2 → kept_except ps fs1 fs2.
Proof. apply kept_weaken. set_solver. Qed.

(** The text of a configuration and what reading it gives. *)
Definition decode_config (s : string) : outcome store_error CodexConfig :=
  match json_parse s with
  | None => Throw (ConfigurationStorageError invalid_json)
  | Some v => match parseConfig v with Ret c => Ret c | Throw e => Throw (schema_error e) end
  end.

(** The valid configuration a file holds, if any. *)
Definition stored (p : string) (fs : Disk) : option CodexConfig :=
  s ← contents fs p; outcome_opt (decode_config s).

Lemma config_value_json c : valid_config c → json_value (config_value c) = true.
Proof.
  intros [_ Hc]. unfold config_value. simpl.
  assert (Hp : forallb json_value (VStr <$> providers (activation c)) = true)
    by (induction (providers (activation c)); done).
  rewrite Hp. simpl. destruct (compaction (codex c)) as [|[|n]]; simpl in *; try done.
  apply andb_true_iff in Hc as [Hn _]. apply is_safe_integer_spec in Hn as (z & -> & _). done.
Qed.

Lemma config_value_wf c : wf_value (config_value c) = true.
Proof.
  unfold config_value. simpl.
  assert (Hp : forallb wf_value (VStr <$> providers (activation c)) = true)
    by (induction (providers (activation c)); done).
  rewrite Hp. by destruct (compaction (codex c)) as [|[|n]].
Qed.

Lemma decode_serialize c : valid_config c → decode_config (serialize c) = Ret c.
Proof.
  intros Hc. unfold decode_config, serialize.
  destruct (json_parse_indented (config_value c)) as (w & -> & Hw);
    [by apply config_value_json|apply config_value_wf|].
  rewrite (proj2 (parseConfig_iff w c)); [done|]. split; [done|]. by symmetry.
Qed.

Lemma decode_valid s c : decode_config s = Ret c → valid_config c.
Proof.
  unfold decode_config. destruct (json_parse s) as [v|]; [|done].
  destruct (parseConfig v) eqn:Hp; [|done]. intros [= <-]. by eapply parseConfig_valid.
Qed.

Lemma stored_valid p fs c : stored p fs = Some c → valid_config c.
Proof.
  unfold stored. destruct (contents fs p) as [s|]; [|done]. simpl.
  destruct (decode_config s) eqn:Hd; [|done]. intros [= <-]. by eapply decode_valid.
Qed.

Lemma stored_serialize p fs c :
  valid_config c → contents fs p = Some (serialize c) → stored p fs = Some c.
Proof. intros Hc Hp. unfold stored. rewrite Hp. simpl. by rewrite decode_serialize. Qed.

(** ** Reading and writing one file *)

(** What [readConfig] may give on the contents of its file. *)
Definition read_outcome (s : option string) (r : outcome store_error CodexConfig) : Prop :=
  r = Throw storageFailure ∨
  r = match s with None => Throw (node_error ENOENT) | Some s => decode_config s end.

Lemma wp_readConfig p I Q fs :
  (∀ fs', same fs fs' → I fs') →
  (∀ r fs', same fs fs' → read_outcome (contents fs p) r → Q r fs') →
  wp (readConfig p) I Q fs.
Proof.
  intros HI HQ. unfold readConfig. apply wp_bind, wp_catch, wp_call. intros r fs' Hop.
  destruct (read_law p fs) as [Hs Hr]. rewrite Hop in Hs, Hr. simpl in *.
  split; [by apply HI|]. destruct r as [s|e].
  - rewrite Hr in HQ. unfold read_outcome, decode_config in HQ. destruct (json_parse s) as [v|].
    + apply wp_lift. apply HQ; auto.
    + apply wp_throw. apply HQ; auto.
  - destruct e; apply wp_throw; apply HQ; unfold read_outcome; try rewrite Hr by done; auto.
Qed.

(** [writeFile], [sync] and [close] of a file opened for writing. *)
Lemma wp_write_file p s I fs0 :
  (∀ fs, kept_except [p] fs0 fs → I fs) →
  wp (try_finally (call (fs_writeFile p s);; call (fs_sync p)) (call (fs_close p))) I
    (λ r fs, kept_except [p] fs0 fs ∧ (r = Ret tt → contents fs p = Some s)) fs0.
Proof.
  intros HI. apply wp_finally.
  apply (wp_mono _ _ (λ r fs, kept_except [p] fs0 fs ∧ (r = Ret tt → contents fs p = Some s))).
  - apply wp_bind, wp_call. intros r fs Hop. destruct (write_law p s fs0) as [Hw Hw'].
    rewrite Hop in Hw, Hw'; simpl in Hw, Hw'. split; [by apply HI|].
    destruct r as [[]|e]; [|done]. apply wp_call. intros r' fs' Hop'.
    pose proof (sync_law p fs) as Hs. rewrite Hop' in Hs; simpl in Hs.
    assert (kept_except [p] fs0 fs') by (eapply kept_trans; [done|by apply same_kept]).
    split; [by apply HI|]. split; [done|]. intros _. rewrite (Hs p) by set_solver. auto.
  - intros r fs [Hk Hr]. apply wp_call. intros r' fs' Hop.
    pose proof (close_law p fs) as Hs. rewrite Hop in Hs; simpl in Hs.
    assert (kept_except [p] fs0 fs') by (eapply kept_trans; [done|by apply same_kept]).
    split; [by apply HI|]. split; [done|]. rewrite (Hs p) by set_solver. destruct r'; auto.
    done.
Qed.

Lemma temporary_ne path uuid : path ∉ [temporary path uuid].
Proof.
  rewrite list_elem_of_singleton. unfold temporary. intros He.
  rewrite <-(append_nil_r path) in He at 1. by apply append_inj_r in He.
Qed.

Lemma wp_atomicWrite path s uuid I Q fs0 :
  let tmp := temporary path uuid in
  (∀ fs, kept_except [tmp; path] fs0 fs →
     contents fs path = contents fs0 path ∨ contents fs path = Some s → I fs) →
  (∀ fs, kept_except [tmp; path] fs0 fs → contents fs path = Some s → Q (Ret tt) fs) →
  (∀ fs, kept_except [tmp] fs0 fs → Q (Throw storageFailure) fs) →
  wp (atomicWrite path s uuid) I Q fs0.
Proof.
  intros tmp HI HR HT. pose proof (temporary_ne path uuid : path ∉ [tmp]) as Htmp.
  assert (HK : ∀ fs, kept_except [tmp] fs0 fs → I fs).
  { intros fs Hk. apply HI; [|left; by apply Hk]. eapply kept_weaken; [|done]. set_solver. }
  assert (Hfail : ∀ fs, kept_except [tmp] fs0 fs →
    wp (try_catch (call (fs_rm tmp)) (λ _, mret tt);; io_throw storageFailure) I Q fs).
  { intros fs Hk. apply wp_bind, wp_catch, wp_call. intros r fs' Hop.
    pose proof (rm_law tmp fs) as Hs. rewrite Hop in Hs.
    assert (kept_except [tmp] fs0 fs') as Hk' by (by eapply kept_trans).
    split; [by apply HK|]. destruct r; [|apply wp_ret]; apply wp_throw; auto. }
  unfold atomicWrite. fold tmp. apply wp_catch, wp_bind, wp_call. intros r1 fs1 Hop1.
  pose proof (open_law tmp fs0) as Hopen. rewrite Hop1 in Hopen; simpl in Hopen.
  assert (kept_except [tmp] fs0 fs1) as Hk1.
  { destruct r1; [apply Hopen|by apply same_kept]. }
  split; [by apply HK|]. destruct r1 as [[]|e1]; [|by apply Hfail].
  apply wp_bind. eapply wp_mono; [apply wp_write_file; intros; apply HK; by eapply kept_trans|].
  intros r2 fs2 [Hk2 Hr2]; simpl in *.
  assert (kept_except [tmp] fs0 fs2) as Hk by (by eapply kept_trans).
  destruct r2 as [[]|e2]; [|by apply Hfail]. apply wp_call. intros r3 fs3 Hop3.
  pose proof (rename_law tmp path fs2) as Hren. rewrite Hop3 in Hren; simpl in Hren.
  destruct r3 as [[]|e3].
  - destruct Hren as [Hren Hc]. rewrite Hr2 in Hc by done.
    assert (kept_except [tmp; path] fs0 fs3).
    { eapply kept_trans; [|exact Hren]. eapply kept_weaken; [|exact Hk]. set_solver. }
    split; auto.
  - assert (kept_except [tmp] fs0 fs3) by (eapply kept_trans; [done|by apply same_kept]).
    split; auto.
Qed.
(** ** The repository *)

Abbreviation backup := (backupFile configFile).

Lemma read_stored s c : read_outcome s (Ret c) → (s ≫= λ s, outcome_opt (decode_config s)) = Some c.
Proof. intros [?|Hr]; [done|]. destruct s as [s|]; [|done]. simpl. by rewrite <-Hr. Qed.

Lemma read_not_stored s e : read_outcome s (Throw e) → e ≠ storageFailure →
  (s ≫= λ s, outcome_opt (decode_config s)) = None.
Proof. intros [[= ->]|Hr] He; [done|]. destruct s as [s|]; [|done]. simpl. by rewrite <-Hr. Qed.

Lemma backup_ne : backup ≠ configFile.
Proof.
  unfold backupFile. intros He. rewrite <-(append_nil_r configFile) in He at 2.
  by apply append_inj_r in He.
Qed.

Lemma temporary_of_backup_ne u : temporary backup u ≠ configFile.
Proof.
  unfold temporary, backupFile. rewrite append_assoc. intros He.
  rewrite <-(append_nil_r configFile) in He at 2. by apply append_inj_r in He.
Qed.

Lemma temporary_not_backup u : temporary configFile u ≠ backup.
Proof. unfold temporary, backupFile. intros [=]%append_inj_r. Qed.

(** A state of [save]: the file is as before, or the new configuration is in
    place and the backup holds the valid one it replaces; the backup is as
    before or holds the valid configuration of the file. *)
Definition untouched_or_saved (fs0 : Disk) (c : CodexConfig) (fs : Disk) : Prop :=
  (contents fs configFile = contents fs0 configFile ∨
   (contents fs configFile = Some (serialize c) ∧
    ∀ c0, stored configFile fs0 = Some c0 → contents fs backup = Some (serialize c0))) ∧
  (contents fs backup = contents fs0 backup ∨
   ∃ c0, stored configFile fs0 = Some c0 ∧ contents fs backup = Some (serialize c0)).

Definition save_result (fs0 : Disk) (c : CodexConfig) (r : outcome store_error unit) (fs : Disk) : Prop :=
  match r with
  | Ret _ => contents fs configFile = Some (serialize c) ∧
             match stored configFile fs0 with
             | Some c0 => contents fs backup = Some (serialize c0)
             | None => contents fs backup = contents fs0 backup
             end
  | Throw _ => contents fs configFile = contents fs0 configFile
  end.

Lemma wp_readValidCurrent I Q fs :
  (∀ fs', same fs fs' → I fs') →
  (∀ r fs', same fs fs' → r = Ret (stored configFile fs) ∨ r = Throw storageFailure → Q r fs') →
  wp (readValidCurrent configFile) I Q fs.
Proof.
  intros HI HQ. unfold readValidCurrent. apply wp_catch, wp_bind, wp_readConfig; [done|].
  intros [c|e] fs' Hs Hr.
  - apply wp_ret, HQ; [done|]. left. unfold stored. by rewrite (read_stored _ _ Hr).
  - destruct (isMissingFile e || is_invalid_config e) eqn:He.
    + apply wp_ret, HQ; [done|]. left. unfold stored.
      rewrite (read_not_stored _ _ Hr); [done|]. by intros ->.
    + apply wp_throw, HQ; [done|]. right. destruct Hr as [[= ->]|Hr]; [done|].
      destruct (contents fs configFile) as [s|]; [|by simplify_eq/=].
      revert Hr. unfold decode_config. destruct (json_parse s); [|by intros [= ->]].
      destruct (parseConfig j); [done|]. by intros [= ->].
Qed.

(** The last step of [save], the backup being in place. *)
Lemma wp_replace c uuid fs0 fs1 :
  contents fs1 configFile = contents fs0 configFile →
  match stored configFile fs0 with
  | Some c0 => contents fs1 backup = Some (serialize c0)
  | None => contents fs1 backup = contents fs0 backup
  end →
  wp (atomicWrite configFile (serialize c) uuid) (untouched_or_saved fs0 c) (save_result fs0 c) fs1.
Proof.
  intros Hf Hb. pose proof (temporary_not_backup uuid) as Hne. pose proof backup_ne as Hne'.
  assert (Hkb : ∀ fs, kept_except [temporary configFile uuid; configFile] fs1 fs →
    contents fs backup = contents fs1 backup) by (intros fs Hk; apply Hk; set_solver).
  apply wp_atomicWrite.
  - intros fs Hk Hc. unfold untouched_or_saved. rewrite (Hkb fs Hk). rewrite Hf in Hc. split.
    + destruct Hc as [Hc|Hc]; [by left|right]. split; [done|]. intros c0 Hc0. by rewrite Hc0 in Hb.
    + destruct (stored configFile fs0) as [c0|]; [right; by exists c0|by left].
  - intros fs Hk Hc. unfold save_result. by rewrite (Hkb fs Hk).
  - intros fs Hk. unfold save_result. rewrite (Hk configFile); [done|].
    apply (temporary_ne configFile uuid).
Qed.

Lemma wp_save c u1 u2 fs0 :
  valid_config c →
  wp (save configFile directory c u1 u2) (untouched_or_saved fs0 c) (save_result fs0 c) fs0.
Proof.
  intros Hc. unfold save. apply wp_bind, wp_lift. rewrite parseConfig_value by done.
  assert (Hsame : ∀ fs, same fs0 fs → untouched_or_saved fs0 c fs).
  { intros fs Hs. split; left; apply Hs; set_solver. }
  apply wp_bind, wp_call. intros r1 fs1 Hop. pose proof (mkdir_law directory fs0) as Hs1.
  rewrite Hop in Hs1; simpl in Hs1. split; [by apply Hsame|].
  destruct r1 as [[]|e]; [|apply Hs1; set_solver].
  assert (Hst : stored configFile fs1 = stored configFile fs0).
  { unfold stored. by rewrite (Hs1 configFile) by set_solver. }
  apply wp_bind, wp_readValidCurrent; [intros; apply Hsame; by eapply kept_trans|].
  intros r2 fs2 Hs2 Hr2. assert (Hs : same fs0 fs2) by (by eapply kept_trans).
  rewrite Hst in Hr2. destruct Hr2 as [-> | ->]; [|apply Hs; set_solver].
  pose proof (wp_replace c u2 fs0) as Hrep.
  destruct (stored configFile fs0) as [c0|] eqn:Hc0; apply wp_bind.
  - apply wp_atomicWrite.
    + intros fs Hk Hb. assert (Hf : contents fs configFile = contents fs0 configFile).
      { rewrite Hk, Hs; [done|set_solver|]. pose proof backup_ne. pose proof (temporary_of_backup_ne u1).
        rewrite !not_elem_of_cons. split_and!; [congruence..|apply not_elem_of_nil]. }
      split; [by left|]. rewrite (Hs backup) in Hb by set_solver.
      destruct Hb as [Hb|Hb]; [by left|right; by exists c0].
    + intros fs Hk Hb. apply Hrep; [|done].
      rewrite Hk, Hs; [done|set_solver|]. pose proof backup_ne. pose proof (temporary_of_backup_ne u1).
      rewrite !not_elem_of_cons. split_and!; [congruence..|apply not_elem_of_nil].
    + intros fs Hk. simpl. rewrite Hk, Hs; [done|set_solver|].
      pose proof (temporary_of_backup_ne u1). rewrite list_elem_of_singleton. congruence.
  - apply wp_ret, Hrep; apply Hs; set_solver.
Qed.

(** C33: Saving is atomic.  Whatever file call fails and wherever the process
    stops, the configuration file holds what it held before, or the new
    configuration with the valid one it replaces in the backup; it never holds
    a partial text.  If [save] returns, the new configuration is in place; if it throws, the
    file is untouched. *)
Theorem save_is_atomic c u1 u2 fs0 :
  valid_config c →
  wp (save configFile directory c u1 u2) (untouched_or_saved fs0 c) (save_result fs0 c) fs0.
Proof. apply wp_save. Qed.

Lemma wp_run {A} (m : io Disk A) I Q fs0 r fs t : wp m I Q fs0 → m fs0 = (r, fs, t) → Q r fs.
Proof. unfold wp. intros Hw Hm. rewrite Hm in Hw. apply Hw. Qed.

(** Loading an existing valid file. *)
Lemma wp_load_stored c I (Q : outcome store_error CodexConfig → Disk → Prop) fs :
  (∀ fs', same fs fs' → I fs') →
  contents fs configFile = Some (serialize c) → valid_config c →
  (∀ r fs', same fs fs' → r = Ret c ∨ r = Throw storageFailure → Q r fs') →
  wp (loadOrCreate configFile directory) I Q fs.
Proof.
  intros HI Hc Hv HQ. unfold loadOrCreate.
  apply wp_bind, wp_catch, wp_bind, wp_readConfig; [done|].
  rewrite Hc. intros r fs' Hs Hr. assert (r = Ret c ∨ r = Throw storageFailure) as [-> | ->].
  { destruct Hr as [-> | ->]; [by right|left]. by apply decode_serialize. }
  - by apply wp_ret, wp_ret, HQ; [|left].
  - apply wp_throw, HQ; [done|by right].
Qed.

(** C34: A saved configuration is what the next load reads, and restoring the
    backup undoes the save: it gives back the valid configuration the file
    held, which is then stored in the file again.  The only other outcome of
    either call is a storage failure, which leaves the file as it is. *)
Theorem save_then_load_and_undo c c0 u1 u2 u3 fs0 fs t :
  valid_config c → stored configFile fs0 = Some c0 →
  save configFile directory c u1 u2 fs0 = (Ret tt, fs, t) →
  wp (loadOrCreate configFile directory) (same fs)
     (λ r _, r = Ret c ∨ r = Throw storageFailure) fs ∧
  wp (restoreBackup configFile u3) (λ fs', stored configFile fs' = Some c ∨ stored configFile fs' = Some c0)
     (λ r fs', match r with
        | Ret d => d = c0 ∧ stored configFile fs' = Some c0
        | Throw e => e = storageFailure ∧ stored configFile fs' = Some c
        end) fs.
Proof.
  intros Hc Hc0 Hsave. pose proof (wp_run _ _ _ _ _ _ _ (wp_save c u1 u2 fs0 Hc) Hsave) as [Hf Hb].
  rewrite Hc0 in Hb. pose proof (stored_valid _ _ _ Hc0) as Hv0. split.
  { apply (wp_load_stored c); auto. }
  assert (Hstored : ∀ fs' d, contents fs' configFile = Some (serialize d) → valid_config d →
    stored configFile fs' = Some d) by (intros; by apply stored_serialize).
  assert (Hsame : ∀ fs', same fs fs' → stored configFile fs' = Some c).
  { intros fs' Hs. apply Hstored; [|done]. by rewrite (Hs configFile) by set_solver. }
  unfold restoreBackup. apply wp_bind, wp_catch, wp_readConfig; [auto|].
  rewrite Hb. intros r fs1 Hs1 Hr. assert (r = Ret c0 ∨ r = Throw storageFailure) as [-> | ->].
  { destruct Hr as [-> | ->]; [by right|left]. by apply decode_serialize. }
  - apply wp_bind, wp_atomicWrite.
    + intros fs' Hk [Hf'|Hf']; [left|right; auto].
      apply Hstored; [|done]. by rewrite Hf', (Hs1 configFile) by set_solver.
    + intros fs' Hk Hf'. apply wp_ret. auto.
    + intros fs' Hk. split; [done|]. apply Hstored; [|done].
      rewrite (Hk configFile) by apply temporary_ne. by rewrite (Hs1 configFile) by set_solver.
  - by apply wp_throw; auto.
Qed.

(** Loading never changes a file that exists, valid or not, nor any file
    but the configuration file, and a configuration it returns is the one the
    file then holds: an invalid file stays as it is until it is explicitly
    replaced, and only a missing one is created. *)
Theorem load_keeps_existing_files fs0 :
  wp (loadOrCreate configFile directory)
     (λ fs, kept_except [configFile] fs0 fs ∧ (contents fs0 configFile ≠ None → same fs0 fs))
     (λ r fs, match r with Ret c => stored configFile fs = Some c | Throw _ => True end) fs0.
Proof.
  assert (HI : ∀ fs, same fs0 fs →
    kept_except [configFile] fs0 fs ∧ (contents fs0 configFile ≠ None → same fs0 fs)).
  { intros fs Hs. split; [by apply same_kept|done]. }
  unfold loadOrCreate. apply wp_bind, wp_catch, wp_bind, wp_readConfig; [done|].
  intros [c|e] fs1 Hs1 Hr.
  { apply wp_ret, wp_ret. unfold stored. rewrite (Hs1 configFile) by set_solver. by apply read_stored. }
  destruct (isMissingFile e) eqn:He; [apply wp_ret|by apply wp_throw].
  assert (Hnone : contents fs0 configFile = None).
  { destruct Hr as [[= ->]|Hr]; [done|]. destruct (contents fs0 configFile) as [s|]; [|done].
    revert Hr. unfold decode_config. destruct (json_parse s); [|by intros [= ->]].
    destruct (parseConfig j); [done|]. by intros [= ->]. }
  assert (HK : ∀ fs, kept_except [configFile] fs0 fs →
    kept_except [configFile] fs0 fs ∧ (contents fs0 configFile ≠ None → same fs0 fs)) by done.
  unfold create_default. apply wp_bind, wp_call. intros r2 fs2 Hop2.
  pose proof (mkdir_law directory fs1) as Hs2. rewrite Hop2 in Hs2; simpl in Hs2.
  assert (kept_except [configFile] fs0 fs2) as Hk2 by (apply same_kept; by eapply kept_trans).
  split; [by apply HK|]. destruct r2 as [[]|]; [|done].
  apply wp_catch, wp_bind, wp_call. intros r3 fs3 Hop3.
  pose proof (open_law configFile fs2) as Hs3. rewrite Hop3 in Hs3; simpl in Hs3.
  assert (kept_except [configFile] fs0 fs3) as Hk3.
  { eapply kept_trans; [done|]. destruct r3; [apply Hs3|by apply same_kept]. }
  split; [by apply HK|].
  assert (Hcatch : ∀ e fs, kept_except [configFile] fs0 fs →
    wp (if isExistingFile e then readConfig configFile else io_throw storageFailure)
      (λ fs, kept_except [configFile] fs0 fs ∧ (contents fs0 configFile ≠ None → same fs0 fs))
      (λ r fs, match r with Ret c => stored configFile fs = Some c | Throw _ => True end) fs).
  { intros e' fs Hk. destruct (isExistingFile e'); [|by apply wp_throw].
    apply wp_readConfig.
    - intros fs' Hs. apply HK. eapply kept_trans; [done|by apply same_kept].
    - intros [c|?] fs' Hs Hr'; [|done]. unfold stored. rewrite (Hs configFile) by set_solver.
      by apply read_stored. }
  destruct r3 as [[]|e3]; [|by apply Hcatch].
  apply wp_bind. eapply wp_mono; [apply wp_write_file; intros; apply HK; by eapply kept_trans|].
  intros r4 fs4 [Hk4 Hr4]. destruct r4 as [[]|e4].
  - apply wp_ret. apply stored_serialize; [apply valid_default_config|auto].
  - apply Hcatch. by eapply kept_trans.
Qed.
End facts.

(** ** A concrete file system

    Files by path, and the calls that fail: a call takes the next flag and
    fails if it is set; a failed write leaves the file empty. *)

Record disk := { files : gmap string string; faults : list bool }.

Definition disk_call {A} (op : gmap string string → outcome errno A * gmap string string) (d : disk)
    : outcome errno A * disk :=
  match faults d with
  | true :: rest => (Throw other_errno, {| files := files d; faults := rest |})
  | rest => let '(r, m) := op (files d) in (r, {| files := m; faults := tail rest |})
  end.

#[export] Instance disk_fs : FileSystem disk := {
  contents d p := files d !! p;
  fs_readFile p := disk_call (λ m, (match m !! p with Some s => Ret s | None => Throw ENOENT end, m));
  fs_open_wx p := disk_call (λ m,
    match m !! p with Some _ => (Throw EEXIST, m) | None => (Ret tt, <[ p := "" ]> m) end);
  fs_writeFile p s d :=
    match disk_call (λ m, (Ret tt, <[ p := s ]> m)) d with
    | (Throw e, d') => (Throw e, {| files := <[ p := "" ]> (files d'); faults := faults d' |})
    | ok => ok
    end;
  fs_sync p := disk_call (λ m, (Ret tt, m));
  fs_close p := disk_call (λ m, (Ret tt, m));
  fs_rename p q := disk_call (λ m,
    match m !! p with
    | None => (Throw ENOENT, m)
    | Some s => (Ret tt, <[ q := s ]> (delete p m))
    end);
  fs_rm p := disk_call (λ m, (Ret tt, delete p m));
  fs_mkdir p := disk_call (λ m, (Ret tt, m)) }.

#[export] Instance disk_laws : FileSystemLaws disk.
Proof.
  split; unfold kept_except; intros; simpl; unfold disk_call;
    destruct (faults fs) as [|[] ?]; simpl; repeat case_match; simplify_eq/=;
    split_and?; intros; rewrite ?lookup_insert_ne, ?lookup_delete_ne, ?lookup_insert_eq
      by set_solver; done.
Qed.

Abbreviation example_disk fl :=
  {| files := {[ "c" := @serialize bits_json createDefaultConfig ]}; faults := fl |}.

Lemma save_is_atomic_witness :
  wp (Disk := disk) (save (H0 := bits_json) "c" "d" createDefaultConfig "1" "2")
    (untouched_or_saved (Hjson := bits_json) "c" (example_disk [false; false; true]) createDefaultConfig)
    (save_result (Hjson := bits_json) "c" (example_disk [false; false; true]) createDefaultConfig)
    (example_disk [false; false; true]).
Proof. apply save_is_atomic, valid_default_config. Defined.

Definition sse_config : CodexConfig :=
  let c := createDefaultConfig in
  {| schemaVersion := schemaVersion c; activation := activation c; tools := tools c;
     security := security c;
     codex := {| serviceTier := tier_default; verbosity := verbosity_low;
                 transport_mode := transport_sse; webSearch_mode := search_cached;
                 compaction := compaction_off |};
     ui := ui c |}.

Lemma save_then_load_and_undo_witness :
  let m := save (Disk := disk) (H0 := bits_json) "c" "d" sse_config "1" "2" (example_disk []) in
  m.1.1 = Ret tt ∧
  wp (loadOrCreate (H0 := bits_json) "c" "d") (kept_except [] m.1.2)
     (λ r _, r = Ret sse_config ∨ r = Throw storageFailure) m.1.2.
Proof.
  intros m. assert (Hm : m.1.1 = Ret tt) by (vm_compute; reflexivity). split; [exact Hm|].
  apply (save_then_load_and_undo (Hjson := bits_json) "c" "d" sse_config createDefaultConfig
    "1" "2" "3" (example_disk []) m.1.2 m.2).
  - split; [apply valid_default_config|reflexivity].
  - vm_compute. reflexivity.
  - change m with (save (Disk := disk) (H0 := bits_json) "c" "d" sse_config "1" "2" (example_disk [])) in *.
    destruct (save (Disk := disk) (H0 := bits_json) "c" "d" sse_config "1" "2" (example_disk []))
      as [[r fs] t]. simpl in Hm. by rewrite Hm.
Defined.

(** A file that is not JSON: loading it throws, and the file stays as it is. *)
Lemma load_keeps_existing_files_witness :
  let fs := {| files := {[ "c" := "{" ]}; faults := [] |} in
  (loadOrCreate (H0 := bits_json) "c" "d" fs).1.1 ≠ Ret createDefaultConfig ∧
  wp (Disk := disk) (loadOrCreate (H0 := bits_json) "c" "d")
    (λ fs', kept_except ["c"] fs fs' ∧ (contents fs "c" ≠ None → kept_except [] fs fs'))
    (λ r fs', match r with Ret c => stored (Hjson := bits_json) "c" fs' = Some c | Throw _ => True end) fs.
Proof.
  intros fs. split; [vm_compute; discriminate|].
  apply (load_keeps_existing_files (Hjson := bits_json) "c" "d" fs).
Defined.
