(* ===== verification/Normalization.v ===== *)
(** * Normalization

    [src/src/integration/pi/codex-message-normalization.ts]: every tool call
    of the history sent to the provider gets a result before the next turn,
    and turns that failed are left out. *)

From S2P Require Import Prelude StructuredJson Json.

Definition INTERRUPTED_TOOL_RESULT_TEXT : string :=
  "Tool result was not recorded. The tool may have partially executed; inspect state before retrying.".
Definition NORMALIZATION_ERROR : string := "OpenAI Codex message history is invalid".
Definition RESPONSE_ITEM_SIGNATURE_KIND : string := "pi-codex-adaptor.response-item".
Definition RESPONSE_ITEM_SIGNATURE_VERSION : Z := 2.

Inductive OutputKind := kind_function | kind_custom.
#[export] Instance OutputKind_eq_dec : EqDecision OutputKind. Proof. solve_decision. Defined.

Record PendingToolCall := { callId : string; toolName : string; outputKind : OutputKind }.
#[export] Instance PendingToolCall_eq_dec : EqDecision PendingToolCall. Proof. solve_decision. Defined.

Definition failNormalization {A} : outcome string A := Throw NORMALIZATION_ERROR.

Definition nonEmptyString (v : jsval) : option string :=
  match v with VStr s => if (0 <? String.length s)%nat then Some s else None | _ => None end.

Definition outputKindForToolName (name : string) : OutputKind :=
  if String.eqb name "apply_patch" then kind_custom else kind_function.

(** An own function of the file, as in the provider: exactly these keys. *)
Definition exact_keys (fs : list (string * jsval)) (expected : list string) : bool :=
  (length (keys fs) =? length expected)%nat && forallb (λ k, js_elem k expected) (keys fs).

Definition isTurnBoundary (fs : list (string * jsval)) : bool :=
  match field fs "role" with
  | VStr role =>
      if js_elem role ["user"; "custom"; "branchSummary"; "compactionSummary"; "assistant"] then true
      else String.eqb role "bashExecution" &&
           negb (bool_decide (field fs "excludeFromContext" = VBool true))
  | _ => false
  end.

Section normalization.
Context `{JsonText}.

(** The kind a signed item says the call has, if the signature is one. *)
Definition signedToolCallKind (value : jsval) (visibleCallId : string) : outcome string (option OutputKind) :=
  match nonEmptyString value with
  | None => Ret None
  | Some text =>
      match json_parse text ≫= as_record with
      | None => Ret None
      | Some envelope =>
          if negb (exact_keys envelope ["v"; "kind"; "item"]) ||
             negb (bool_decide (field envelope "v" = VNum RESPONSE_ITEM_SIGNATURE_VERSION)) ||
             negb (bool_decide (field envelope "kind" = VStr RESPONSE_ITEM_SIGNATURE_KIND))
          then Ret None else
          match as_record (field envelope "item") with
          | None => failNormalization
          | Some item =>
              match nonEmptyString (field item "call_id") with
              | None => failNormalization
              | Some id =>
                  if negb (String.eqb id visibleCallId) then failNormalization
                  else if bool_decide (field item "type" = VStr "custom_tool_call")
                  then Ret (Some kind_custom)
                  else if bool_decide (field item "type" = VStr "function_call")
                  then Ret (Some kind_function)
                  else failNormalization
              end
          end
      end
  end.

(** The loop over the content blocks, with the ids seen so far. *)
Fixpoint collect_blocks (blocks : list jsval) (ids : list string)
    : outcome string (list PendingToolCall) :=
  match blocks with
  | [] => Ret []
  | block :: blocks =>
      match as_record block with
      | None => collect_blocks blocks ids
      | Some content =>
          if negb (bool_decide (field content "type" = VStr "toolCall"))
          then collect_blocks blocks ids else
          match nonEmptyString (field content "id"), nonEmptyString (field content "name") with
          | Some callId, Some toolName =>
              if js_elem callId ids then failNormalization else
              let visibleKind := outputKindForToolName toolName in
              signedKind ← signedToolCallKind (field content "thoughtSignature") callId;
              if match signedKind with
                 | Some k => negb (bool_decide (k = visibleKind)) | None => false end
              then failNormalization else
              calls ← collect_blocks blocks (callId :: ids);
              Ret ({| callId := callId; toolName := toolName;
                      outputKind := default visibleKind signedKind |} :: calls)
          | _, _ => failNormalization
          end
      end
  end.

Definition collectToolCalls (fs : list (string * jsval)) : outcome string (list PendingToolCall) :=
  match field fs "content" with VArr blocks => collect_blocks blocks [] | _ => Ret [] end.

Definition syntheticToolResult (call : PendingToolCall) : jsval :=
  VObj [("role", VStr "toolResult"); ("toolCallId", VStr (callId call));
        ("toolName", VStr (toolName call));
        ("content", VArr [VObj [("type", VStr "text"); ("text", VStr INTERRUPTED_TOOL_RESULT_TEXT)]]);
        ("isError", VBool true); ("timestamp", VNum 0%Z)].

Definition resultKind (fs : list (string * jsval)) : OutputKind :=
  outputKindForToolName match field fs "toolName" with VStr n => n | _ => "" end.

(** [findIndex]. *)
Fixpoint find_index (f : PendingToolCall → bool) (l : list PendingToolCall) : option nat :=
  match l with
  | [] => None
  | c :: l => if f c then Some 0 else S <$> find_index f l
  end.

(** A tool result takes the call it answers off the pending list. *)
Definition settle_call (fs : list (string * jsval)) (pending : list PendingToolCall)
    : outcome string (list PendingToolCall) :=
  match field fs "toolCallId" with
  | VStr id =>
      match find_index (λ c, String.eqb (callId c) id) pending with
      | None => Ret pending
      | Some index =>
          match pending !! index with
          | Some call =>
              if bool_decide (resultKind fs = outputKind call) then Ret (delete index pending)
              else failNormalization
          | None => failNormalization
          end
      end
  | _ => Ret pending
  end.

(** One turn of the loop, on the normalized list and the pending calls. *)
Definition normalize_message (message : jsval) (st : list jsval * list PendingToolCall)
    : outcome string (list jsval * list PendingToolCall) :=
  let '(normalized, pending) := st in
  match as_record message with
  | None => Ret (normalized ++ [message], pending)
  | Some raw =>
      match field raw "role" with
      | VStr role =>
          let '(normalized, pending) :=
            if isTurnBoundary raw then (normalized ++ (syntheticToolResult <$> pending), [])
            else (normalized, pending) in
          if String.eqb role "assistant" then
            if bool_decide (field raw "stopReason" = VStr "error") ||
               bool_decide (field raw "stopReason" = VStr "aborted")
            then Ret (normalized, pending) else
            calls ← collectToolCalls raw;
            Ret (normalized ++ [message], calls)
          else
            pending ← (if String.eqb role "toolResult" then settle_call raw pending else Ret pending);
            Ret (normalized ++ [message], pending)
      | _ => Ret (normalized ++ [message], pending)
      end
  end.

Fixpoint normalize_messages (messages : list jsval) (st : list jsval * list PendingToolCall)
    : outcome string (list jsval * list PendingToolCall) :=
  match messages with
  | [] => Ret st
  | m :: messages => st ← normalize_message m st; normalize_messages messages st
  end.

Definition normalizeCodexContextMessages (messages : list jsval) : outcome string (list jsval) :=
  '(normalized, pending) ← normalize_messages messages ([], []);
  let normalized := normalized ++ (syntheticToolResult <$> pending) in
  Ret (if bool_decide (messages = normalized) then messages else normalized).

End normalization.

(** * Facts of the normalization

    In a normalized history every tool call is answered within its turn, and
    normalization only leaves out failed turns and only adds results that say
    the call was interrupted. *)

Section facts.
Context `{JsonText}.

Definition boundary (m : jsval) : bool :=
  match as_record m with Some fs => isTurnBoundary fs | None => false end.

Definition assistant (m : jsval) : bool :=
  match as_record m with Some fs => bool_decide (field fs "role" = VStr "assistant") | None => false end.

(** A turn the provider failed to finish. *)
Definition failed_turn (m : jsval) : bool :=
  assistant m && match as_record m with
  | Some fs => bool_decide (field fs "stopReason" = VStr "error") ||
               bool_decide (field fs "stopReason" = VStr "aborted")
  | None => false
  end.

Definition tool_calls (m : jsval) : list PendingToolCall :=
  match as_record m with
  | Some fs => if assistant m then default [] (outcome_opt (collectToolCalls fs)) else []
  | None => []
  end.

(** [m] is a tool result for the call [c], of its kind. *)
Definition answers (m : jsval) (c : PendingToolCall) : Prop :=
  ∃ fs, as_record m = Some fs ∧ field fs "role" = VStr "toolResult" ∧
        field fs "toolCallId" = VStr (callId c) ∧ resultKind fs = outputKind c.

(** Every call of an assistant message is answered before the next turn. *)
Definition calls_answered (out : list jsval) : Prop :=
  ∀ pre a post c, out = pre ++ a :: post → c ∈ tool_calls a →
    ∃ mid m rest, post = mid ++ m :: rest ∧ answers m c ∧ Forall (λ x, boundary x = false) mid.

(** ** The pending calls of the loop *)

(** Every call is answered in its turn, or its turn is still open and the
    call is pending. *)
Definition tracked (out : list jsval) (pending : list PendingToolCall) : Prop :=
  ∀ pre a post c, out = pre ++ a :: post → c ∈ tool_calls a →
    (∃ mid m rest, post = mid ++ m :: rest ∧ answers m c ∧ Forall (λ x, boundary x = false) mid) ∨
    (Forall (λ x, boundary x = false) post ∧ c ∈ pending).

Definition plain_kinds (pending : list PendingToolCall) : Prop :=
  Forall (λ c, outputKind c = outputKindForToolName (toolName c)) pending.

Lemma tracked_nil : tracked [] [].
Proof. intros pre a post c He. by destruct pre. Qed.

(** Split the decomposition of an extended list at its last element. *)
Lemma snoc_split {A} (out pre post : list A) m a :
  out ++ [m] = pre ++ a :: post →
  (post = [] ∧ m = a ∧ out = pre) ∨ ∃ post', post = post' ++ [m] ∧ out = pre ++ a :: post'.
Proof.
  destruct post as [|x post' _] using rev_ind; intros He.
  - left. by apply app_inj_tail in He as [-> ->].
  - right. exists post'.
    change (pre ++ a :: post' ++ [x]) with (pre ++ (a :: post') ++ [x]) in He.
    rewrite app_assoc in He. by apply app_inj_tail in He as [-> ->].
Qed.

Lemma tracked_snoc out pending pending' m :
  boundary m = false → tool_calls m = [] →
  (∀ c, c ∈ pending → c ∈ pending' ∨ answers m c) →
  tracked out pending → tracked (out ++ [m]) pending'.
Proof.
  intros Hb Hc Hp Ht pre a post c [(-> & <- & ->)|(post' & -> & ->)]%snoc_split Ha.
  { rewrite Hc in Ha. by apply not_elem_of_nil in Ha. }
  destruct (Ht pre a post' c eq_refl Ha) as [(mid & m' & rest & -> & Hm & Hmid)|[Hpost Hin]].
  - left. exists mid, m', (rest ++ [m]). by rewrite <-app_assoc.
  - destruct (Hp c Hin) as [?|?].
    + right. split; [|done]. apply Forall_app. split; [done|]. by constructor.
    + left. by exists post', m, [].
Qed.

Lemma synthetic_answers c :
  outputKind c = outputKindForToolName (toolName c) → answers (syntheticToolResult c) c.
Proof. intros Hk. eexists. split; [reflexivity|]. by cbn. Qed.

Lemma tracked_flush pending out :
  plain_kinds pending → tracked out pending →
  tracked (out ++ (syntheticToolResult <$> pending)) [].
Proof.
  revert out; induction pending as [|c pending IH]; intros out Hk Ht; simpl.
  - by rewrite app_nil_r.
  - apply Forall_cons in Hk as [Hc Hk]. rewrite cons_middle, app_assoc. apply IH; [done|].
    apply (tracked_snoc out (c :: pending)); [done..| |done].
    intros c' [->|?]%elem_of_cons; [right; by apply synthetic_answers|by left].
Qed.

(** A boundary closes the turn: nothing is pending, then its own calls are. *)
Lemma tracked_boundary out m : tracked out [] → tracked (out ++ [m]) (tool_calls m).
Proof.
  intros Ht pre a post c [(-> & <- & ->)|(post' & -> & ->)]%snoc_split Ha; [by right|].
  destruct (Ht pre a post' c eq_refl Ha) as [(mid & m' & rest & -> & Hm & Hmid)|[_ Hin]].
  - left. exists mid, m', (rest ++ [m]). by rewrite <-app_assoc.
  - by apply not_elem_of_nil in Hin.
Qed.

Lemma tracked_done out : tracked out [] → calls_answered out.
Proof.
  intros Ht pre a post c He Ha. destruct (Ht pre a post c He Ha) as [?|[_ Hin]]; [done|].
  by apply not_elem_of_nil in Hin.
Qed.

(** ** One message *)

Lemma collect_blocks_kinds blocks ids calls :
  collect_blocks blocks ids = Ret calls → plain_kinds calls.
Proof.
  revert ids calls; induction blocks as [|b blocks IH]; intros ids calls; simpl.
  { intros [= <-]. constructor. }
  destruct (as_record b) as [content|]; [|apply IH].
  case_bool_decide; simpl; [|apply IH].
  destruct (nonEmptyString (field content "id")) as [id|]; [|done].
  destruct (nonEmptyString (field content "name")) as [name|]; [|done].
  destruct (js_elem id ids); [done|]. intros Hb.
  apply bind_ret_iff in Hb as (k & _ & Hb). revert Hb.
  destruct (match k with Some k => negb (bool_decide (k = outputKindForToolName name)) | None => false end)
    eqn:Hk; [done|]. intros Hb. apply bind_ret_iff in Hb as (cs & Hcs & [= <-]).
  constructor; [|by eapply IH]. destruct k as [k|]; [|done]. simpl. by bool_to_prop.
Qed.

Lemma collect_kinds fs calls : collectToolCalls fs = Ret calls → plain_kinds calls.
Proof.
  unfold collectToolCalls. destruct (field fs "content"); try (intros [= <-]; constructor).
  apply collect_blocks_kinds.
Qed.

Lemma find_index_Some f l i : find_index f l = Some i → ∃ c, l !! i = Some c ∧ f c = true.
Proof.
  revert i; induction l as [|c l IH]; intros i; simpl; [done|]. destruct (f c) eqn:Hf.
  - intros [= <-]. by exists c.
  - intros (j & Hj & ->)%fmap_Some. destruct (IH j Hj) as (c' & ? & ?). by exists c'.
Qed.

Lemma elem_of_delete (l : list PendingToolCall) i c c' :
  l !! i = Some c → c' ∈ l → c' ∈ delete i l ∨ c' = c.
Proof.
  intros Hi. rewrite <-(take_drop_middle l i c Hi) at 1. rewrite delete_take_drop.
  rewrite !elem_of_app, elem_of_cons. tauto.
Qed.

Lemma plain_kinds_delete l i : plain_kinds l → plain_kinds (delete i l).
Proof.
  unfold plain_kinds. rewrite delete_take_drop, Forall_app. split; [by apply Forall_take|by apply Forall_drop].
Qed.

(** A result that settles the pending call it answers. *)
Lemma settle_call_answers fs pending pending' :
  field fs "role" = VStr "toolResult" → settle_call fs pending = Ret pending' →
  plain_kinds pending →
  plain_kinds pending' ∧ ∀ c, c ∈ pending → c ∈ pending' ∨ answers (VObj fs) c.
Proof.
  unfold settle_call. intros Hrole Hs Hk.
  destruct (field fs "toolCallId") as [| | | |id| | |] eqn:Hid; try (simplify_eq; by auto).
  destruct (find_index _ pending) as [i|] eqn:Hi; [|simplify_eq; by auto].
  apply find_index_Some in Hi as (c0 & Hc0 & Heq). rewrite Hc0 in Hs.
  case_bool_decide as Hkind; [|done]. injection Hs as <-. split; [by apply plain_kinds_delete|].
  intros c Hin. apply String.eqb_eq in Heq as <-.
  destruct (elem_of_delete pending i c0 c Hc0 Hin) as [?| ->]; [by left|right]. by exists fs.
Qed.

Lemma tool_calls_assistant m : assistant m = false → tool_calls m = [].
Proof. unfold tool_calls. destruct (as_record m); [|done]. by intros ->. Qed.

(** What one turn of the loop appends. *)
Lemma normalize_message_app m out pending out' pending' :
  normalize_message m (out, pending) = Ret (out', pending') →
  ∃ flushed, (flushed = [] ∨ flushed = syntheticToolResult <$> pending) ∧
    out' = out ++ flushed ++ (if failed_turn m then [] else [m]).
Proof.
  unfold normalize_message, failed_turn, assistant. destruct (as_record m) as [fs|] eqn:Hm.
  2: { intros [= <- <-]. exists []. split; [by left|done]. }
  destruct (field fs "role") as [| | | |role| | |] eqn:Hrole;
    try (intros [= <- <-]; exists []; split; [by left|]; by rewrite bool_decide_eq_false_2).
  set (ext := if isTurnBoundary fs then syntheticToolResult <$> pending else []).
  set (pend := if isTurnBoundary fs then [] else pending).
  assert ((if isTurnBoundary fs then (out ++ (syntheticToolResult <$> pending), [])
           else (out, pending)) = (out ++ ext, pend)) as ->.
  { subst ext pend. destruct (isTurnBoundary fs); [done|]. by rewrite app_nil_r. }
  assert (ext = [] ∨ ext = syntheticToolResult <$> pending) as Hext.
  { subst ext. destruct (isTurnBoundary fs); auto. }
  destruct (String.eqb_spec role "assistant") as [->|Hne].
  - rewrite (bool_decide_eq_true_2 (VStr "assistant" = _)) by done. simpl.
    destruct (bool_decide _ || bool_decide _).
    + intros [= <- <-]. exists ext. by rewrite app_nil_r.
    + intros Hb. apply bind_ret_iff in Hb as (calls & _ & [= <- <-]). exists ext.
      by rewrite app_assoc.
  - rewrite bool_decide_eq_false_2 by congruence. simpl.
    intros Hb. apply bind_ret_iff in Hb as (p & _ & [= <- <-]). exists ext.
    by rewrite app_assoc.
Qed.

Lemma normalize_message_tracked m out pending out' pending' :
  normalize_message m (out, pending) = Ret (out', pending') →
  plain_kinds pending → tracked out pending → plain_kinds pending' ∧ tracked out' pending'.
Proof.
  unfold normalize_message. destruct (as_record m) as [fs|] eqn:Hm.
  2: { intros [= <- <-] Hk Ht. split; [done|].
       apply (tracked_snoc _ pending); unfold boundary, tool_calls; rewrite ?Hm; auto. }
  destruct (field fs "role") as [| | | |role| | |] eqn:Hrole;
    try (intros [= <- <-] Hk Ht; split; [done|];
      apply (tracked_snoc _ pending); unfold boundary, tool_calls, assistant, isTurnBoundary;
      rewrite ?Hm, ?Hrole; auto; by rewrite bool_decide_eq_false_2).
  assert (m = VObj fs) as -> by (destruct m; simplify_eq/=; done).
  intros Hn Hk Ht.
  assert (Htc : role ≠ "assistant" → tool_calls (VObj fs) = []).
  { intros Hne. apply tool_calls_assistant. unfold assistant. simpl. rewrite Hrole. apply bool_decide_eq_false_2.
    congruence. }
  destruct (isTurnBoundary fs) eqn:Hb.
  - pose proof (tracked_flush _ _ Hk Ht) as Hf.
    destruct (String.eqb_spec role "assistant") as [->|Hne].
    + destruct (bool_decide _ || bool_decide _); [injection Hn as <- <-; by split; [constructor|]|].
      apply bind_ret_iff in Hn as (calls & Hcalls & [= <- <-]). split; [by eapply collect_kinds|].
      replace calls with (tool_calls (VObj fs)); [by apply tracked_boundary|].
      unfold tool_calls, assistant. simpl. rewrite Hrole, bool_decide_eq_true_2 by done.
      by rewrite Hcalls.
    + destruct (String.eqb_spec role "toolResult") as [->|_].
      { unfold isTurnBoundary in Hb. by rewrite Hrole in Hb. }
      injection Hn as <- <-. split; [constructor|]. rewrite <-Htc by done. by apply tracked_boundary.
  - destruct (String.eqb_spec role "assistant") as [->|Hne].
    { unfold isTurnBoundary in Hb. by rewrite Hrole in Hb. }
    apply bind_ret_iff in Hn as (p & Hp & [= <- <-]).
    destruct (String.eqb_spec role "toolResult") as [->|_].
    + destruct (settle_call_answers fs pending p) as [Hk' Hans]; [done..|]. split; [done|].
      apply (tracked_snoc _ pending); auto.
    + injection Hp as <-. split; [done|]. apply (tracked_snoc _ pending); auto.
Qed.

(** ** The loop *)

Lemma normalize_messages_tracked ms out pending out' pending' :
  normalize_messages ms (out, pending) = Ret (out', pending') →
  plain_kinds pending → tracked out pending → plain_kinds pending' ∧ tracked out' pending'.
Proof.
  revert out pending; induction ms as [|m ms IH]; intros out pending; simpl.
  - by intros [= <- <-].
  - intros Hn Hk Ht. apply bind_ret_iff in Hn as ([out1 p1] & H1 & Hn).
    destruct (normalize_message_tracked _ _ _ _ _ H1 Hk Ht). by eapply IH.
Qed.

Definition synthetic (m : jsval) : Prop := ∃ c, m = syntheticToolResult c.

Lemma normalize_messages_app ms out pending out' pending' :
  normalize_messages ms (out, pending) = Ret (out', pending') →
  ∃ ext, out' = out ++ ext ∧ filter (λ m, failed_turn m = false) ms `sublist_of` ext ∧
    ∀ m, m ∈ ext → (m ∈ ms ∧ failed_turn m = false) ∨ synthetic m.
Proof.
  revert out pending; induction ms as [|m ms IH]; intros out pending; simpl.
  - intros [= <- <-]. exists []. rewrite app_nil_r. split_and!; [done..|]. by intros m ?%not_elem_of_nil.
  - intros Hn. apply bind_ret_iff in Hn as ([out1 p1] & H1 & Hn).
    apply normalize_message_app in H1 as (flushed & Hf & ->).
    apply IH in Hn as (ext & -> & Hsub & Hin).
    exists ((flushed ++ (if failed_turn m then [] else [m])) ++ ext).
    split_and!; [by rewrite <-!app_assoc|..].
    + rewrite <-app_assoc. apply sublist_inserts_l. destruct (failed_turn m) eqn:Hm.
      * by rewrite filter_cons_False by congruence.
      * rewrite filter_cons_True by done. by apply sublist_skip.
    + intros x. rewrite !elem_of_app. intros [[Hx|Hx]|Hx].
      * right. destruct Hf as [-> | ->]; [by apply not_elem_of_nil in Hx|].
        apply list_elem_of_fmap in Hx as (c & -> & _). by exists c.
      * left. destruct (failed_turn m) eqn:Hm; [by apply not_elem_of_nil in Hx|].
        apply list_elem_of_singleton in Hx as ->. split; [by left|done].
      * destruct (Hin x Hx) as [[? ?]|?]; [left|by right]. split; [by right|done].
Qed.

(** In a normalized history every tool call is answered, by a result for
    its id and of its kind, before the next turn begins.  Of the source
    history only turns that failed are left out, the rest keeps its order, and
    only interrupted-tool results are added. *)
Theorem normalized_history_is_complete messages out :
  normalizeCodexContextMessages messages = Ret out →
  calls_answered out ∧
  filter (λ m, failed_turn m = false) messages `sublist_of` out ∧
  (∀ m, m ∈ out → (m ∈ messages ∧ failed_turn m = false) ∨ synthetic m).
Proof.
  unfold normalizeCodexContextMessages. intros Hn.
  apply bind_ret_iff in Hn as ([norm pending] & Hn & Hout).
  assert (out = norm ++ (syntheticToolResult <$> pending)) as ->.
  { injection Hout as <-. by case_bool_decide. }
  destruct (normalize_messages_tracked _ _ _ _ _ Hn) as [Hk Ht]; [constructor|apply tracked_nil|].
  split; [by apply tracked_done, tracked_flush|].
  apply normalize_messages_app in Hn as (ext & -> & Hsub & Hin). split.
  - by apply sublist_inserts_r.
  - intros m [Hm|Hm]%elem_of_app; [by apply Hin|right].
    apply list_elem_of_fmap in Hm as (c & -> & _). by exists c.
Qed.
End facts.

Lemma normalized_history_witness :
  let call := VObj [("role", VStr "assistant");
    ("content", VArr [VObj [("type", VStr "toolCall"); ("id", VStr "1"); ("name", VStr "exec")]])] in
  let user := VObj [("role", VStr "user"); ("content", VStr "hi")] in
  let result := syntheticToolResult {| callId := "1"; toolName := "exec"; outputKind := kind_function |} in
  @normalizeCodexContextMessages bits_json [call; user] = Ret [call; result; user] ∧
  calls_answered (H := bits_json) [call; result; user].
Proof.
  intros call user result.
  assert (Hn : @normalizeCodexContextMessages bits_json [call; user] = Ret [call; result; user])
    by (vm_compute; reflexivity).
  split; [exact Hn|]. apply (normalized_history_is_complete (H := bits_json) [call; user] _ Hn).
Defined.
