(* ===== verification/SessionRouter.v ===== *)
(** * SessionRouter

    [src/src/integration/pi/provider-session-router.ts]: the process-wide
    router that sends a request to the extension instance bound to its Pi
    session.  The router refers to a binding weakly: the collector may take
    a binding whose lease is gone, and the finalizer may run later or never.

    A binding's token is its index in the order of [createLease]; the
    dispatchers of a binding are named by its token. *)

From S2P Require Import Prelude.

Inductive dispatcher_field := codexResponses | openAiResponses.

Record SessionDispatchBinding := { sessionId : option string; released : bool }.

(** [buckets] holds the tokens of each session in the order of its [Map];
    [registrations] is the finalization registry; [collected] are the bindings
    whose weak references are cleared. *)
Record router := {
  bindings : list SessionDispatchBinding;
  buckets : gmap string (list nat);
  registrations : gmap nat string;
  collected : gset nat }.

Definition createProviderSessionRouter : router :=
  {| bindings := []; buckets := ∅; registrations := ∅; collected := ∅ |}.

Inductive route_error := ROUTE_UNAVAILABLE | ROUTE_AMBIGUOUS.
Inductive bind_error := empty_session_id | released_binding.

(** The request goes to a dispatcher of a binding, or the caller gets a stream
    with one error. *)
Inductive route_result :=
| routed (token : nat) (field : dispatcher_field)
| createRouteErrorStream (error : route_error).

Definition blank (s : string) : bool := (String.length (trim s) =? 0)%nat.

(** [removeToken]. *)
Definition removeToken (s : string) (token : nat) (b : gmap string (list nat)) : gmap string (list nat) :=
  match b !! s with
  | None => b
  | Some bucket =>
      let bucket := filter (λ t, t ≠ token) bucket in
      if (length bucket =? 0)%nat then delete s b else <[ s := bucket ]> b
  end.

(** [bucket.set(token, ...)]: a token the map has keeps its place. *)
Definition add_token (s : string) (token : nat) (b : gmap string (list nat)) : gmap string (list nat) :=
  let bucket := default [] (b !! s) in
  <[ s := if bool_decide (token ∈ bucket) then bucket else bucket ++ [token] ]> b.

Definition createLease (r : router) : nat * router :=
  (length (bindings r),
   {| bindings := bindings r ++ [{| sessionId := None; released := false |}];
      buckets := buckets r; registrations := registrations r; collected := collected r |}).

Definition bind (token : nat) (s : string) (r : router) : outcome bind_error router :=
  match bindings r !! token with
  | None => Ret r
  | Some binding =>
      if blank s then Throw empty_session_id
      else if released binding then Throw released_binding
      else
        let '(b, regs) := match sessionId binding with
          | Some old => (removeToken old token (buckets r), delete token (registrations r))
          | None => (buckets r, registrations r)
          end in
        Ret {| bindings := <[ token := {| sessionId := Some s; released := false |} ]> (bindings r);
               buckets := add_token s token b;
               registrations := <[ token := s ]> regs;
               collected := collected r |}
  end.

Definition release (token : nat) (r : router) : router :=
  match bindings r !! token with
  | None => r
  | Some binding =>
      if released binding then r else
      {| bindings := <[ token := {| sessionId := None; released := true |} ]> (bindings r);
         buckets := match sessionId binding with
                    | Some s => removeToken s token (buckets r) | None => buckets r end;
         registrations := delete token (registrations r);
         collected := collected r |}
  end.

(** The binding a weak reference gives, if it serves the session. *)
Definition deref_live (r : router) (s : string) (token : nat) : bool :=
  negb (bool_decide (token ∈ collected r)) &&
  match bindings r !! token with
  | Some b => negb (released b) && bool_decide (sessionId b = Some s)
  | None => false
  end.

(** [resolveBinding] walks the bucket and deletes what is not live. *)
Definition resolveBinding (s : string) (r : router) : outcome route_error nat * router :=
  match buckets r !! s with
  | None => (Throw ROUTE_UNAVAILABLE, r)
  | Some bucket =>
      let live := filter (λ t, deref_live r s t = true) bucket in
      let r' := {| bindings := bindings r;
                   buckets := if (length live =? 0)%nat then delete s (buckets r)
                              else <[ s := live ]> (buckets r);
                   registrations := registrations r; collected := collected r |} in
      (match live with
       | [] => Throw ROUTE_UNAVAILABLE
       | [token] => Ret token
       | _ => Throw ROUTE_AMBIGUOUS
       end, r')
  end.

(** [dispatch(field)], on the session id of the options snapshot. *)
Definition dispatch (field : dispatcher_field) (session : jsval) (r : router) : route_result * router :=
  match session with
  | VStr s =>
      if blank s then (createRouteErrorStream ROUTE_UNAVAILABLE, r) else
      match resolveBinding s r with
      | (Ret token, r') => (routed token field, r')
      | (Throw e, r') => (createRouteErrorStream e, r')
      end
  | _ => (createRouteErrorStream ROUTE_UNAVAILABLE, r)
  end.

(** The collector takes an unreachable binding; later its finalizer runs. *)
Definition collect (token : nat) (r : router) : router :=
  {| bindings := bindings r; buckets := buckets r; registrations := registrations r;
     collected := {[ token ]} ∪ collected r |}.

Definition finalize (token : nat) (r : router) : router :=
  match registrations r !! token with
  | Some s =>
      {| bindings := bindings r; buckets := removeToken s token (buckets r);
         registrations := delete token (registrations r); collected := collected r |}
  | None => r
  end.

Inductive router_op :=
| r_createLease
| r_bind (token : nat) (s : string)
| r_release (token : nat)
| r_dispatch (field : dispatcher_field) (session : jsval)
| r_collect (token : nat)
| r_finalize (token : nat).

(** A call that throws changes nothing.  The lease of a collected binding is
    gone, so nobody calls it; only a collected binding is finalized. *)
Definition router_step (o : router_op) (r : router) : router :=
  match o with
  | r_createLease => (createLease r).2
  | r_bind t s =>
      if bool_decide (t ∈ collected r) then r else
      match bind t s r with Ret r' => r' | Throw _ => r end
  | r_release t => if bool_decide (t ∈ collected r) then r else release t r
  | r_dispatch f s => (dispatch f s r).2
  | r_collect t => collect t r
  | r_finalize t => if bool_decide (t ∈ collected r) then finalize t r else r
  end.

Definition router_run (ops : list router_op) (r : router) : router :=
  fold_left (λ r o, router_step o r) ops r.

(** ** The process slot *)

Definition ROUTER_KIND : string := "pi-codex-adaptor-provider-session-router".
Definition ROUTER_VERSION : Z := 1.

(** The value of the global slot: not an object, or an object whose [router]
    has the three functions ([Some]) or not ([None]). *)
Inductive global_slot (R : Type) :=
| slot_other
| slot_object (kind version : jsval) (router : option R).
Arguments slot_other {R}.
Arguments slot_object {R} _ _ _.

Definition isCompatibleSlot {R} (v : global_slot R) : option R :=
  match v with
  | slot_object kind version (Some r) =>
      if bool_decide (kind = VStr ROUTER_KIND) && bool_decide (version = VNum ROUTER_VERSION)
      then Some r else None
  | _ => None
  end.

(** [fresh] is the router it would construct; [settable] tells whether
    [Reflect.set] succeeds. *)
Definition getProcessProviderSessionRouter {R} (fresh : R) (settable : bool)
    (global : option (global_slot R)) : option R * option (global_slot R) :=
  match global with
  | Some current => (isCompatibleSlot current, global)
  | None =>
      if settable then
        let slot := slot_object (VStr ROUTER_KIND) (VNum ROUTER_VERSION) (Some fresh) in
        (isCompatibleSlot slot, Some slot)
      else (None, None)
  end.

(** ** Isolation *)

(** The binding of [token] is bound to the session and can be called. *)
Definition serves (r : router) (s : string) (token : nat) : Prop := deref_live r s token = true.

(** Every serving binding is in the bucket of its session. *)
Record router_ok (r : router) : Prop := {
  ok_bucket s t : serves r s t → ∃ l, buckets r !! s = Some l ∧ t ∈ l;
  ok_nodup s l : buckets r !! s = Some l → NoDup l;
  ok_blank s t : serves r s t → blank s = false }.

Lemma serves_iff r s t : serves r s t ↔
  (t ∉ collected r) ∧ ∃ b, bindings r !! t = Some b ∧ released b = false ∧ sessionId b = Some s.
Proof.
  unfold serves, deref_live. destruct (bindings r !! t) as [b|].
  - bool_to_prop. split; [intros (? & ? & ?); split; [done|]; by exists b|].
    intros (? & b' & [= <-] & ? & ?). done.
  - rewrite andb_false_r. split; [done|]. by intros (_ & b & [=] & _).
Qed.

Lemma removeToken_keeps s t b s' t' l :
  t' ≠ t ∨ s' ≠ s → b !! s' = Some l → t' ∈ l →
  ∃ l', removeToken s t b !! s' = Some l' ∧ t' ∈ l'.
Proof.
  intros Hne Hb Hin. unfold removeToken. destruct (b !! s) as [bucket|] eqn:Hs; [|by exists l].
  destruct (decide (s' = s)) as [->|Hss].
  - assert (bucket = l) as -> by congruence. destruct Hne as [Hne|]; [|done].
    assert (t' ∈ filter (λ t'', t'' ≠ t) l) as Hf by (by apply list_elem_of_filter).
    destruct (filter (λ t'', t'' ≠ t) l) as [|x xs] eqn:He; [by apply not_elem_of_nil in Hf|].
    simpl. exists (x :: xs). by rewrite lookup_insert_eq.
  - exists l. split; [|done].
    destruct (length _ =? 0)%nat; [by rewrite lookup_delete_ne|by rewrite lookup_insert_ne].
Qed.

Lemma removeToken_nodup s t b s' l :
  (∀ l, b !! s' = Some l → NoDup l) → removeToken s t b !! s' = Some l → NoDup l.
Proof.
  intros Hnd. unfold removeToken. destruct (b !! s) as [bucket|] eqn:Hs; [|apply Hnd].
  destruct (length _ =? 0)%nat.
  - destruct (decide (s' = s)) as [->|]; [by rewrite lookup_delete_eq|].
    rewrite lookup_delete_ne by done. apply Hnd.
  - destruct (decide (s' = s)) as [->|]; [|rewrite lookup_insert_ne by done; apply Hnd].
    rewrite lookup_insert_eq. intros [= <-]. apply NoDup_filter. by apply Hnd.
Qed.

Lemma add_token_nodup s t b s' l :
  (∀ l, b !! s' = Some l → NoDup l) → add_token s t b !! s' = Some l → NoDup l.
Proof.
  intros Hnd. unfold add_token. destruct (decide (s' = s)) as [->|];
    [|rewrite lookup_insert_ne by done; apply Hnd].
  rewrite lookup_insert_eq. intros [= <-].
  assert (NoDup (default [] (b !! s))) by (destruct (b !! s); [by apply Hnd|constructor]).
  case_bool_decide; [done|]. apply NoDup_app. split_and!; [done| |apply NoDup_singleton].
  intros x Hx ->%list_elem_of_singleton. done.
Qed.

Lemma add_token_keeps s t b s' t' l :
  b !! s' = Some l → t' ∈ l → ∃ l', add_token s t b !! s' = Some l' ∧ t' ∈ l'.
Proof.
  intros Hb Hin. unfold add_token. destruct (decide (s' = s)) as [->|];
    [|rewrite lookup_insert_ne by done; by exists l].
  rewrite lookup_insert_eq. eexists. split; [done|]. rewrite Hb; simpl.
  case_bool_decide; [done|]. apply elem_of_app. by left.
Qed.

Lemma add_token_adds s t b : ∃ l, add_token s t b !! s = Some l ∧ t ∈ l.
Proof.
  unfold add_token. rewrite lookup_insert_eq. eexists. split; [done|].
  case_bool_decide; [done|]. apply elem_of_app. right. by left.
Qed.

Lemma removeToken_ok s t b s' t' :
  t' ≠ t ∨ s' ≠ s → (∃ l, b !! s' = Some l ∧ t' ∈ l) → ∃ l, (removeToken s t b) !! s' = Some l ∧ t' ∈ l.
Proof. intros Hne (l & Hb & Hin). by eapply removeToken_keeps. Qed.

(** Which bindings serve after a step. *)
Lemma serves_createLease r s t : serves (createLease r).2 s t ↔ serves r s t.
Proof.
  rewrite !serves_iff. simpl. split; intros (Hc & b & Hb & Hr & Hs); (split; [done|]); exists b.
  - apply lookup_snoc_Some in Hb as [[_ Hb]|[_ <-]]; done.
  - split; [|done]. apply lookup_snoc_Some. left. split; [|done]. by apply lookup_lt_Some in Hb.
Qed.

Lemma serves_release t r s t' : serves (release t r) s t' → serves r s t' ∧ t' ≠ t.
Proof.
  unfold release. destruct (bindings r !! t) as [b|] eqn:Hb.
  - destruct (released b) eqn:Hr.
    + intros Hs. split; [done|]. intros ->. apply serves_iff in Hs as (_ & b' & ? & ? & _). congruence.
    + rewrite !serves_iff. simpl. intros (Hc & b' & Hb' & ? & ?).
      destruct (decide (t' = t)) as [->|].
      * rewrite list_lookup_insert_eq in Hb' by (by eapply lookup_lt_Some). by simplify_eq/=.
      * rewrite list_lookup_insert_ne in Hb' by done. split; [|done]. split; [done|]. by exists b'.
  - intros Hs. split; [done|]. intros ->. apply serves_iff in Hs as (_ & b' & ? & _). congruence.
Qed.

Lemma serves_bind t s r r' s' t' :
  bind t s r = Ret r' → serves r' s' t' →
  (t' ≠ t ∧ serves r s' t') ∨ (t' = t ∧ s' = s ∧ blank s = false) ∨ r' = r.
Proof.
  unfold bind. destruct (bindings r !! t) as [b|] eqn:Hb; [|intros [= <-]; auto].
  destruct (blank s) eqn:Hbl; [done|]. destruct (released b); [done|].
  destruct (match sessionId b with Some _ => _ | None => _ end) as [bk regs].
  intros [= <-]. rewrite !serves_iff. simpl. intros (Hc & b' & Hb' & ? & Hs).
  destruct (decide (t' = t)) as [->|].
  - rewrite list_lookup_insert_eq in Hb' by (by eapply lookup_lt_Some).
    right; left. by simplify_eq/=.
  - rewrite list_lookup_insert_ne in Hb' by done. left. split; [done|]. split; [done|]. by exists b'.
Qed.

(** [resolveBinding] decides by the bindings that serve and keeps them. *)
Lemma resolve_serves s r s' t : serves (resolveBinding s r).2 s' t ↔ serves r s' t.
Proof. unfold resolveBinding. by destruct (buckets r !! s). Qed.

Lemma resolve_bucket s r s' t l :
  buckets r !! s' = Some l → t ∈ l → serves r s' t →
  ∃ l', buckets (resolveBinding s r).2 !! s' = Some l' ∧ t ∈ l'.
Proof.
  intros Hl Hin Hs. unfold resolveBinding. destruct (buckets r !! s) as [bucket|] eqn:Hb; [|by exists l].
  simpl. destruct (decide (s' = s)) as [->|].
  - assert (bucket = l) as -> by congruence.
    assert (t ∈ filter (λ t, deref_live r s t = true) l) as Hf by (by apply list_elem_of_filter).
    destruct (filter _ l) as [|x xs]; [by apply not_elem_of_nil in Hf|]. simpl.
    exists (x :: xs). by rewrite lookup_insert_eq.
  - exists l. split; [|done].
    destruct (length _ =? 0)%nat; [by rewrite lookup_delete_ne|by rewrite lookup_insert_ne].
Qed.

Lemma resolve_nodup s r s' l :
  (∀ l, buckets r !! s' = Some l → NoDup l) →
  buckets (resolveBinding s r).2 !! s' = Some l → NoDup l.
Proof.
  intros Hnd. unfold resolveBinding. destruct (buckets r !! s) as [bucket|] eqn:Hb; [|apply Hnd].
  simpl. destruct (decide (s' = s)) as [->|].
  - destruct (length _ =? 0)%nat; [by rewrite lookup_delete_eq|].
    rewrite lookup_insert_eq. intros [= <-]. apply NoDup_filter. by apply Hnd.
  - destruct (length _ =? 0)%nat; [rewrite lookup_delete_ne by done|rewrite lookup_insert_ne by done];
      apply Hnd.
Qed.

Lemma router_ok_resolve s r : router_ok r → router_ok (resolveBinding s r).2.
Proof.
  intros [Hb Hn Hbl]. split.
  - intros s' t Hs. apply resolve_serves in Hs. destruct (Hb s' t Hs) as (l & Hl & Hin).
    by eapply resolve_bucket.
  - intros s' l. apply resolve_nodup, Hn.
  - intros s' t Hs. apply resolve_serves in Hs. by eapply Hbl.
Qed.

Lemma router_ok_bind t s r r' : bind t s r = Ret r' → router_ok r → router_ok r'.
Proof.
  intros Hbind [Hb Hn Hbl]. split.
  - intros s' t' Hs. destruct (serves_bind t s r r' s' t' Hbind Hs) as [[Hne Hs']|[(-> & -> & _)| ->]];
      [| |by apply Hb]; revert Hbind; unfold bind;
      (destruct (bindings r !! t) as [b|] eqn:Hbt; [|intros [= <-]; by apply Hb]);
      (destruct (blank s); [done|]); (destruct (released b); [done|]).
    + destruct (Hb s' t' Hs') as (l & Hl & Hin). destruct (sessionId b) as [old|]; intros [= <-]; simpl.
      * destruct (removeToken_ok old t (buckets r) s' t') as (l' & ? & ?); [by left|by exists l|].
        by eapply add_token_keeps.
      * by eapply add_token_keeps.
    + destruct (sessionId b); intros [= <-]; apply add_token_adds.
  - intros s' l. revert Hbind. unfold bind.
    destruct (bindings r !! t) as [b|]; [|intros [= <-]; apply Hn].
    destruct (blank s); [done|]. destruct (released b); [done|].
    destruct (sessionId b); intros [= <-]; simpl; apply add_token_nodup; [|apply Hn].
    intros l'. apply removeToken_nodup, Hn.
  - intros s' t' Hs. destruct (serves_bind t s r r' s' t' Hbind Hs) as [[_ ?]|[(_ & -> & ?)| ->]];
      [by eapply Hbl|done|by eapply Hbl].
Qed.

Lemma router_ok_release t r : router_ok r → router_ok (release t r).
Proof.
  intros [Hb Hn Hbl]. split.
  - intros s' t' [Hs Hne]%serves_release. destruct (Hb s' t' Hs) as (l & Hl & Hin).
    unfold release. destruct (bindings r !! t) as [b|]; [|by exists l].
    destruct (released b); [by exists l|]. simpl. destruct (sessionId b); [|by exists l].
    apply removeToken_ok; [by left|by exists l].
  - intros s' l. unfold release. destruct (bindings r !! t) as [b|]; [|apply Hn].
    destruct (released b); [apply Hn|]. simpl. destruct (sessionId b); [|apply Hn].
    apply removeToken_nodup, Hn.
  - intros s' t' [Hs _]%serves_release. by eapply Hbl.
Qed.

Lemma router_ok_step o r : router_ok r → router_ok (router_step o r).
Proof.
  intros Hok. destruct o as [|t s|t|f v|t|t]; cbn [router_step].
  - destruct Hok as [Hb Hn Hbl]. split; [|done|].
    + intros s t Hs. rewrite serves_createLease in Hs. by apply (Hb s t).
    + intros s t Hs. rewrite serves_createLease in Hs. by apply (Hbl s t).
  - case_bool_decide; [done|]. destruct (bind t s r) eqn:Hbind; [|done]. by eapply router_ok_bind.
  - case_bool_decide; [done|]. by apply router_ok_release.
  - unfold dispatch. destruct v as [| | | |s| | |]; try done. destruct (blank s); [done|].
    pose proof (router_ok_resolve s r Hok). by destruct (resolveBinding s r) as [[] ?].
  - destruct Hok as [Hb Hn Hbl].
    assert (Hsub : ∀ s t', serves (collect t r) s t' → serves r s t').
    { intros s t'. rewrite !serves_iff. simpl. rewrite not_elem_of_union. tauto. }
    split; [|done|]; eauto.
  - case_bool_decide as Hc; [|done]. unfold finalize.
    destruct (registrations r !! t) as [s0|]; [|done]. destruct Hok as [Hb Hn Hbl]. split; simpl.
    + intros s t' Hs. apply removeToken_ok; [|by apply Hb]. left. intros ->.
      apply serves_iff in Hs as [? _]. done.
    + intros s l. apply removeToken_nodup, Hn.
    + intros s t' Hs. by eapply Hbl.
Qed.

Lemma router_ok_run ops r : router_ok r → router_ok (router_run ops r).
Proof.
  revert r; induction ops as [|o ops IH]; intros r Hok; simpl; [done|]. by apply IH, router_ok_step.
Qed.

Lemma router_ok_new : router_ok createProviderSessionRouter.
Proof. split; [|done|]; intros s t (_ & b & ? & _)%serves_iff; done. Qed.

(** The live tokens of a bucket, by their number. *)
Lemma resolve_result s r : router_ok r →
  match (resolveBinding s r).1 with
  | Ret t => serves r s t ∧ ∀ t', serves r s t' → t' = t
  | Throw ROUTE_AMBIGUOUS => ∃ t t', t ≠ t' ∧ serves r s t ∧ serves r s t'
  | Throw ROUTE_UNAVAILABLE => ∀ t, ¬ serves r s t
  end.
Proof.
  intros [Hb Hn _]. unfold resolveBinding. destruct (buckets r !! s) as [bucket|] eqn:Hbk.
  - assert (Hlive : ∀ t, t ∈ filter (λ t, deref_live r s t = true) bucket ↔ serves r s t).
    { intros t. rewrite list_elem_of_filter. split; [by intros [? _]|]. intros Hs.
      destruct (Hb s t Hs) as (l & ? & ?). split; [done|]. congruence. }
    assert (Hnd : NoDup (filter (λ t, deref_live r s t = true) bucket))
      by (apply NoDup_filter; by eapply Hn).
    destruct (filter _ bucket) as [|t [|t' ts]]; simpl.
    + intros t Hs. apply Hlive in Hs. by apply not_elem_of_nil in Hs.
    + split; [apply Hlive; by left|]. intros t' Hs. apply Hlive in Hs.
      by apply list_elem_of_singleton in Hs.
    + exists t, t'. apply NoDup_cons in Hnd as [Hnt _]. apply not_elem_of_cons in Hnt as [? _].
      split_and!; [done|apply Hlive; by left|apply Hlive; right; by left].
  - simpl. intros t Hs. destruct (Hb s t Hs) as (l & ? & _). congruence.
Qed.

(** A request is dispatched to the binding of its own session only: the
    one live, unreleased binding bound to that session, if there is exactly
    one.  It is refused as ambiguous when there are several, as unavailable
    when there is none, whatever was bound, rebound, released, collected or
    finalized before, and dispatching changes none of this. *)
Theorem dispatch_is_isolated ops field session :
  let r := router_run ops createProviderSessionRouter in
  let '(result, r') := dispatch field session r in
  match result with
  | routed t f => f = field ∧ ∃ s, session = VStr s ∧ serves r s t ∧ ∀ t', serves r s t' → t' = t
  | createRouteErrorStream ROUTE_AMBIGUOUS =>
      ∃ s t t', session = VStr s ∧ t ≠ t' ∧ serves r s t ∧ serves r s t'
  | createRouteErrorStream ROUTE_UNAVAILABLE => ∀ s t, session = VStr s → ¬ serves r s t
  end ∧
  ∀ s t, serves r' s t ↔ serves r s t.
Proof.
  intros r. assert (Hok : router_ok r) by (apply router_ok_run, router_ok_new).
  unfold dispatch. destruct session as [| | | |s| | |]; try (split; [naive_solver|done]).
  destruct (blank s) eqn:Hbl.
  - split; [|done]. intros s' t [= <-] Hs. apply (ok_blank r Hok) in Hs. congruence.
  - pose proof (resolve_result s r Hok) as Hr. pose proof (resolve_serves s r) as Hs.
    destruct (resolveBinding s r) as [[t|[]] r']; simpl in *; (split; [|done]).
    + split; [done|]. by exists s.
    + by intros s' t [= <-].
    + destruct Hr as (t & t' & ?). by exists s, t, t'.
Qed.
