(* ===== verification/Credentials.v ===== *)
(** * Credentials

    The account a ChatGPT token names ([extractAccountId] of
    [src/src/application/codex-runtime.ts] and the claim reader of the request
    guard), and the fingerprints that bind a compaction checkpoint to the
    credentials of its session. *)

From S2P Require Import Prelude Compaction Json RequestGuard.

(** ** [atob] *)

Definition is_ascii_space (c : ascii) : bool :=
  let n := unit_of c in ((n =? 9) || (n =? 10) || (n =? 12) || (n =? 13) || (n =? 32))%N.

Fixpoint str_filter (f : ascii → bool) (s : string) : string :=
  match s with
  | EmptyString => EmptyString
  | String c s => if f c then String c (str_filter f s) else str_filter f s
  end.

(** The value of a base64 digit. *)
Definition sextet (c : ascii) : option N :=
  let n := unit_of c in
  if bool_decide (65 ≤ n ∧ n ≤ 90)%N then Some (n - 65)%N
  else if bool_decide (97 ≤ n ∧ n ≤ 122)%N then Some (n - 71)%N
  else if bool_decide (48 ≤ n ∧ n ≤ 57)%N then Some (n + 4)%N
  else if (n =? 43)%N then Some 62%N
  else if (n =? 47)%N then Some 63%N
  else None.

(** One or two trailing [=] of a text whose length is a multiple of four. *)
Definition strip_padding (s : list ascii) : list ascii :=
  if (length s mod 4 =? 0)%nat then
    match rev s with
    | "="%char :: "="%char :: t => rev t
    | "="%char :: t => rev t
    | _ => s
    end
  else s.

(** Four digits are three units; a rest of two is one unit, of three two. *)
Fixpoint decode_sextets (l : list N) : option (list N) :=
  match l with
  | [] => Some []
  | a :: b :: c :: d :: l =>
      rest ← decode_sextets l;
      Some (a * 4 + b / 16 :: (b mod 16) * 16 + c / 4 :: (c mod 4) * 64 + d :: rest)%N
  | [a; b; c] => Some [(a * 4 + b / 16)%N; ((b mod 16) * 16 + c / 4)%N]
  | [a; b] => Some [(a * 4 + b / 16)%N]
  | [_] => None
  end.

Definition atob (s : string) : option string :=
  digits ← mapM sextet (strip_padding (list_ascii_of_string
             (str_filter (λ c, negb (is_ascii_space c)) s)));
  units ← decode_sextets digits;
  Some (string_of_list_ascii (ascii_of_N <$> units)).

(** ** Token claims *)

(** [s.split(".")]. *)
Fixpoint split_dots (s : string) : list string :=
  match s with
  | EmptyString => [""]
  | String c s =>
      if Ascii.eqb c "." then "" :: split_dots s else
      match split_dots s with
      | [] => [String c ""]
      | p :: ps => String c p :: ps
      end
  end.

Fixpoint repeat_char (c : ascii) (n : nat) : string :=
  match n with 0 => "" | S n => String c (repeat_char c n) end.

(** Base64url to base64, padded to a multiple of four. *)
Definition from_base64url (s : string) : string :=
  let normalized := string_of_list_ascii ((λ c,
    if Ascii.eqb c "-" then "+"%char else if Ascii.eqb c "_" then "/"%char else c)
      <$> list_ascii_of_string s) in
  (normalized ++ repeat_char "=" ((4 - String.length normalized mod 4) mod 4))%string.

Definition decodeBase64Url (s : string) : option string := atob (from_base64url s).

Definition OFFICIAL_ACCOUNT_CLAIM : string := "https://api.openai.com/auth".

Definition nonempty_text (v : jsval) : option string :=
  match v with VStr s => if (0 <? String.length s)%nat then Some s else None | _ => None end.

Section claims.
Context `{JsonText} (sha256Hex : string → string).

Definition extractAccountId (credential : string) : option string :=
  match split_dots credential with
  | [_; payload; _] =>
      if (String.length payload =? 0)%nat then None else
      payloadText ← decodeBase64Url payload;
      decoded ← json_parse payloadText;
      root ← as_record decoded;
      auth ← as_record (field root OFFICIAL_ACCOUNT_CLAIM);
      nonempty_text (field auth "chatgpt_account_id")
  | _ => None
  end.

(** The request guard reads the same claim in its own words. *)
Definition extractAccountClaim (token : string) : option string :=
  match split_dots token with
  | [_; payload; _] =>
      if (String.length payload =? 0)%nat then None else
      match atob (from_base64url payload) ≫= json_parse with
      | None => None
      | Some payload =>
          match as_record payload with
          | None => None
          | Some fs =>
              match as_record (field fs OFFICIAL_ACCOUNT_CLAIM) with
              | None => None
              | Some auth =>
                  match field auth "chatgpt_account_id" with
                  | VStr id => if (0 <? String.length id)%nat then Some id else None
                  | _ => None
                  end
              end
          end
      end
  | _ => None
  end.

(** ** Bindings *)

Inductive AccountIdSource := source_header | source_jwt.
#[local] Instance AccountIdSource_eq_dec : EqDecision AccountIdSource. Proof. solve_decision. Defined.

(** The authentication is a bearer token ([Some]) or none. *)
Definition authenticationSummary (authentication : option string) (accountId : option string)
    (accountIdSource : option AccountIdSource) : option CodexAuthenticationBindingV1 :=
  match authentication with
  | None => None
  | Some token =>
      match extractAccountClaim token with
      | Some account =>
          if bool_decide (accountIdSource = Some source_header) &&
             negb (bool_decide (accountId = Some account))
          then None
          else Some {| binding_kind := jwt_account;
                       fingerprint := accountFingerprint sha256Hex account |}
      | None => Some {| binding_kind := credential;
                        fingerprint := credentialFingerprint sha256Hex token |}
      end
  end.

(** The connection details an identity is made of. *)
Record ProviderConnectionDetails := {
  conn_providerId : string;
  conn_baseUrl : string;
  conn_authentication : option string;
  conn_accountId : option string;
  conn_accountIdSource : option AccountIdSource }.

Definition providerCompactionIdentityFromValues (sessionId modelId modelApi : string)
    (connection : ProviderConnectionDetails) : option CodexCompactionIdentity :=
  binding ← authenticationSummary (conn_authentication connection)
              (conn_accountId connection) (conn_accountIdSource connection);
  Some {| sessionFingerprint := sessionFingerprint_of sha256Hex sessionId;
          providerId := conn_providerId connection;
          api := modelApi;
          baseUrl := conn_baseUrl connection;
          modelId := modelId;
          authenticationBinding := binding |}.

End claims.

Example atob_padded : atob "aGk=" = Some "hi". Proof. reflexivity. Qed.
Example atob_unpadded : atob "aGk" = Some "hi". Proof. reflexivity. Qed.
Example atob_invalid : atob "aGk*" = None. Proof. reflexivity. Qed.
Example split_token : split_dots "a.b.c" = ["a"; "b"; "c"]. Proof. reflexivity. Qed.
