(* ===== verification/ResponseStream.v ===== *)
(** * ResponseStream

    [src/src/integration/pi/codex-provider.ts]: how the events of a native
    response become the content blocks and the stream events of a Pi
    assistant message ([ResponseState]), with the signatures that carry whole
    response items, and the tool calls. *)

From Stdlib Require Import QArith Qcanon.
From S2P Require Import Prelude StructuredJson Compaction Json Normalization.

(** ** Data *)

Record ToolCall := {
  call_id : string;
  call_name : string;
  call_arguments : jsval;
  thoughtSignature : option string }.

(** The blocks of [output.content]. *)
Inductive block :=
| text_block (text : string) (textSignature : option string)
| thinking_block (thinking : string) (thinkingSignature : option string)
| tool_block (call : ToolCall).

(** The events pushed, without the [partial] they all share. *)
Inductive stream_event :=
| text_start (contentIndex : nat)
| text_delta (contentIndex : nat) (delta : string)
| text_end (contentIndex : nat) (content : string)
| thinking_start (contentIndex : nat)
| thinking_delta (contentIndex : nat) (delta : string)
| thinking_end (contentIndex : nat) (content : string)
| toolcall_start (contentIndex : nat)
| toolcall_end (contentIndex : nat) (call : ToolCall).

Inductive StopReason := stop_pending | stop | stop_length | stop_toolUse.

(** Token counts are integers: [Math.trunc] of a finite number. *)
Record Usage := {
  usage_input : Z; usage_cacheRead : Z; usage_output : Z; usage_reasoning : Z; usage_total : Z }.

Record ResponseState := {
  content : list block;
  textIndex : option nat;
  thinkingIndex : option nat;
  hasToolCall : bool;
  pushed_events : list stream_event;
  responseModel : option string;
  responseId : option string;
  stopReason : StopReason;
  usage : Usage }.

Definition new_response : ResponseState :=
  {| content := []; textIndex := None; thinkingIndex := None; hasToolCall := false;
     pushed_events := []; responseModel := None; responseId := None; stopReason := stop_pending;
     usage := {| usage_input := 0; usage_cacheRead := 0; usage_output := 0;
                 usage_reasoning := 0; usage_total := 0 |} |}.

Abbreviation st := (stateful ResponseState string).

Definition with_content (bs : list block) (s : ResponseState) : ResponseState :=
  {| content := bs; textIndex := textIndex s; thinkingIndex := thinkingIndex s;
     hasToolCall := hasToolCall s; pushed_events := pushed_events s;
     responseModel := responseModel s; responseId := responseId s; stopReason := stopReason s;
     usage := usage s |}.
Definition with_indices (t th : option nat) (s : ResponseState) : ResponseState :=
  {| content := content s; textIndex := t; thinkingIndex := th; hasToolCall := hasToolCall s;
     pushed_events := pushed_events s; responseModel := responseModel s;
     responseId := responseId s; stopReason := stopReason s; usage := usage s |}.
Definition with_events (es : list stream_event) (s : ResponseState) : ResponseState :=
  {| content := content s; textIndex := textIndex s; thinkingIndex := thinkingIndex s;
     hasToolCall := hasToolCall s; pushed_events := es; responseModel := responseModel s;
     responseId := responseId s; stopReason := stopReason s; usage := usage s |}.
Definition with_tool_call (s : ResponseState) : ResponseState :=
  {| content := content s; textIndex := textIndex s; thinkingIndex := thinkingIndex s;
     hasToolCall := true; pushed_events := pushed_events s; responseModel := responseModel s;
     responseId := responseId s; stopReason := stopReason s; usage := usage s |}.
Definition with_model (m : string) (s : ResponseState) : ResponseState :=
  {| content := content s; textIndex := textIndex s; thinkingIndex := thinkingIndex s;
     hasToolCall := hasToolCall s; pushed_events := pushed_events s; responseModel := Some m;
     responseId := responseId s; stopReason := stopReason s; usage := usage s |}.
Definition with_result (id : option string) (r : StopReason) (u : Usage) (s : ResponseState)
    : ResponseState :=
  {| content := content s; textIndex := textIndex s; thinkingIndex := thinkingIndex s;
     hasToolCall := hasToolCall s; pushed_events := pushed_events s;
     responseModel := responseModel s; responseId := id; stopReason := r; usage := u |}.

Definition push (e : stream_event) (s : ResponseState) : ResponseState :=
  with_events (pushed_events s ++ [e]) s.
Definition push_block (b : block) (s : ResponseState) : ResponseState :=
  with_content (content s ++ [b]) s.

(** ** Blocks *)

Definition endText (s : ResponseState) : ResponseState :=
  match textIndex s with
  | None => s
  | Some index =>
      with_indices None (thinkingIndex s)
        match content s !! index with
        | Some (text_block text _) => push (text_end index text) s
        | _ => s
        end
  end.

Definition endThinking (s : ResponseState) : ResponseState :=
  match thinkingIndex s with
  | None => s
  | Some index =>
      with_indices (textIndex s) None
        match content s !! index with
        | Some (thinking_block thinking _) => push (thinking_end index thinking) s
        | _ => s
        end
  end.

Definition endOpenBlocks (s : ResponseState) : ResponseState := endThinking (endText s).

(** The index, and the state in which it is open. *)
Definition ensureText (s : ResponseState) : nat * ResponseState :=
  match textIndex s with
  | Some index => (index, s)
  | None =>
      let s := endThinking s in
      let index := length (content s) in
      (index, push (text_start index)
                (with_indices (Some index) (thinkingIndex s) (push_block (text_block "" None) s)))
  end.

Definition ensureThinking (s : ResponseState) : nat * ResponseState :=
  match thinkingIndex s with
  | Some index => (index, s)
  | None =>
      let s := endText s in
      let index := length (content s) in
      (index, push (thinking_start index)
                (with_indices (textIndex s) (Some index) (push_block (thinking_block "" None) s)))
  end.

Definition set_block (index : nat) (b : block) (s : ResponseState) : ResponseState :=
  with_content (<[ index := b ]> (content s)) s.

Definition appendText (delta : string) (s : ResponseState) : ResponseState :=
  let '(index, s) := ensureText s in
  match content s !! index with
  | Some (text_block text sig) =>
      push (text_delta index delta) (set_block index (text_block (text ++ delta)%string sig) s)
  | _ => s
  end.

Definition appendThinking (delta : string) (s : ResponseState) : ResponseState :=
  let '(index, s) := ensureThinking s in
  match content s !! index with
  | Some (thinking_block thinking sig) =>
      push (thinking_delta index delta)
        (set_block index (thinking_block (thinking ++ delta)%string sig) s)
  | _ => s
  end.

(** [s.slice(n)]. *)
Fixpoint str_drop (n : nat) (s : string) : string :=
  match n, s with
  | S n, String _ s => str_drop n s
  | _, _ => s
  end.

(** The texts of the parts of one type, joined. *)
Definition completed_text (type : string) (items : list jsval) : string :=
  join "" (omap (λ v, match as_record v with
    | Some fs => if bool_decide (field fs "type" = VStr type)
                 then match field fs "text" with VStr t => Some t | _ => None end else None
    | None => None end) items).

(** What the completed text adds to the text received so far. *)
Definition missing_delta (completed text : string) : string :=
  if starts_with text completed then str_drop (String.length text) completed else completed.

Definition applyCompletedText (value : jsval) (s : ResponseState) : ResponseState :=
  match value with
  | VArr items =>
      let completed := completed_text "output_text" items in
      if (String.length completed =? 0)%nat then s else
      let '(index, s) := ensureText s in
      match content s !! index with
      | Some (text_block text _) =>
          if String.eqb completed text then s else
          let delta := missing_delta completed text in
          if (0 <? String.length delta)%nat then appendText delta s else s
      | _ => s
      end
  | _ => s
  end.

Definition applyCompletedThinking (value : jsval) (s : ResponseState) : ResponseState :=
  match value with
  | VArr items =>
      let completed := completed_text "summary_text" items in
      if (String.length completed =? 0)%nat then s else
      let '(index, s) := ensureThinking s in
      match content s !! index with
      | Some (thinking_block thinking _) =>
          if String.eqb completed thinking then s else
          let delta := missing_delta completed thinking in
          if (0 <? String.length delta)%nat then appendThinking delta s else s
      | _ => s
      end
  | _ => s
  end.

(** ** Signatures *)

Section json.
Context `{JsonText}.

Definition encodeResponseItemSignature (item : jsval) : outcome string string :=
  if json_value item && isSupportedStructuredResponseItem item then
    Ret (stringify (VObj [("v", VNum RESPONSE_ITEM_SIGNATURE_VERSION);
                          ("kind", VStr RESPONSE_ITEM_SIGNATURE_KIND); ("item", item)]))
  else Throw "Provider response item cannot be persisted safely".

Definition decodeResponseItemSignature (value : jsval) : option jsval :=
  match nonEmptyString value with
  | None => None
  | Some text =>
      match json_parse text ≫= as_record with
      | None => None
      | Some envelope =>
          let item := field envelope "item" in
          if exact_keys envelope ["v"; "kind"; "item"] &&
             bool_decide (field envelope "v" = VNum RESPONSE_ITEM_SIGNATURE_VERSION) &&
             bool_decide (field envelope "kind" = VStr RESPONSE_ITEM_SIGNATURE_KIND) &&
             json_value item && isSupportedStructuredResponseItem item
          then Some item else None
      end
  end.

(** [{ ...fs, k: v }]: a key that exists keeps its place. *)
Fixpoint set_field (fs : list (string * jsval)) (k : string) (v : jsval) : list (string * jsval) :=
  match fs with
  | [] => [(k, v)]
  | (k', v') :: fs => if String.eqb k' k then (k, v) :: fs else (k', v') :: set_field fs k v
  end.

(** The message item as it is signed. *)
Definition normalized_message (fs : list (string * jsval)) (text : string) : jsval :=
  let fs' := match field fs "role" with VStr _ => fs | _ => set_field fs "role" (VStr "assistant") end in
  VObj match field fs "content" with
       | VArr _ => fs'
       | _ => set_field fs' "content"
                (VArr (if (String.length text =? 0)%nat then []
                       else [VObj [("type", VStr "output_text"); ("text", VStr text)]]))
       end.

Definition applyTextSignature (fs : list (string * jsval)) : st unit :=
  s ← st_get;
  let '(index, s) := ensureText s in
  st_put s;;
  match content s !! index with
  | Some (text_block text _) =>
      signature ← st_lift (encodeResponseItemSignature (normalized_message fs text));
      st_put (set_block index (text_block text (Some signature)) s)
  | _ => mret tt
  end.

Definition applyThinkingSignature (fs : list (string * jsval)) : st unit :=
  signature ← st_lift (encodeResponseItemSignature (VObj fs));
  s ← st_get;
  let '(index, s) := ensureThinking s in
  match content s !! index with
  | Some (thinking_block thinking _) =>
      st_put (set_block index (thinking_block thinking (Some signature)) s)
  | _ => st_put s
  end.

(** ** Items *)

Definition toToolCall (fs : list (string * jsval)) : outcome string (option ToolCall) :=
  match field fs "call_id", field fs "name" with
  | VStr id, VStr name =>
      let custom := bool_decide (field fs "type" = VStr "custom_tool_call") in
      match field fs (if custom then "input" else "arguments") with
      | VStr raw =>
          let input := VObj [("input", VStr raw)] in
          let parsed := if custom then input else default input (json_parse raw) in
          signature ← encodeResponseItemSignature (VObj fs);
          Ret (Some {| call_id := id;
            call_name := match field fs "namespace" with
              | VStr namespace => (namespace ++ "." ++ name)%string | _ => name end;
            call_arguments := match as_record parsed with Some _ => parsed | None => input end;
            thoughtSignature := Some signature |})
      | _ => Ret None
      end
  | _, _ => Ret None
  end.

Definition addToolCall (call : ToolCall) (s : ResponseState) : ResponseState :=
  let s := endOpenBlocks s in
  let index := length (content s) in
  push (toolcall_end index call)
    (push (toolcall_start index) (with_tool_call (push_block (tool_block call) s))).

Definition consumeOpaqueItem (fs : list (string * jsval)) : st unit :=
  s ← st_get;
  let s := endOpenBlocks s in
  st_put s;;
  signature ← st_lift (encodeResponseItemSignature (VObj fs));
  let index := length (content s) in
  st_put (push (text_end index "") (push (text_start index)
            (push_block (text_block "" (Some signature)) s))).

Definition search_query (action : option (list (string * jsval))) : string :=
  match action with
  | None => ""
  | Some a =>
      match field a "query", field a "queries", field a "url", field a "pattern" with
      | VStr q, _, _, _ => q
      | _, VArr qs, _, _ =>
          join "; " (omap (λ v, match v with VStr q => Some q | _ => None end) qs)
      | _, _, VStr u, _ => u
      | _, _, _, VStr p => p
      | _, _, _, _ => ""
      end
  end.

Definition search_summary (action : option (list (string * jsval))) : string :=
  let query := search_query action in
  let suffix := if (0 <? String.length query)%nat then (": " ++ query)%string else "" in
  let kind := match action with
    | Some a => match field a "type" with VStr k => k | _ => "search" end
    | None => "search" end in
  ((if String.eqb kind "open_page" then "Opened page"
    else if String.eqb kind "find_in_page" then "Find in page" else "Web search") ++ suffix)%string.

Definition consumeHostedWebSearch (fs : list (string * jsval)) : st unit :=
  s ← st_get;
  let s := endOpenBlocks s in
  st_put s;;
  signature ← st_lift (encodeResponseItemSignature (VObj fs));
  let summary := search_summary (as_record (field fs "action")) in
  let index := length (content s) in
  st_put (push (text_end index summary) (push (text_delta index summary) (push (text_start index)
            (push_block (text_block summary (Some signature)) s)))).

Definition finishItem (value : jsval) : st unit :=
  match as_record value with
  | None => mret tt
  | Some fs =>
      match field fs "type" with
      | VStr type =>
          if String.eqb type "message" then
            st_modify (applyCompletedText (field fs "content"));; applyTextSignature fs
          else if String.eqb type "web_search_call" then consumeHostedWebSearch fs
          else if String.eqb type "reasoning" then
            st_modify (applyCompletedThinking (field fs "summary"));; applyThinkingSignature fs
          else if String.eqb type "function_call" || String.eqb type "custom_tool_call" then
            call ← st_lift (toToolCall fs);
            match call with Some call => st_modify (addToolCall call) | None => mret tt end
          else consumeOpaqueItem fs
      | _ => mret tt
      end
  end.

(** ** Events *)

Definition accept (value : jsval) : st unit :=
  match as_record value with
  | None => mret tt
  | Some event =>
      match field event "type" with
      | VStr type =>
          if String.eqb type "response.output_text.delta" then
            match field event "delta" with VStr d => st_modify (appendText d) | _ => mret tt end
          else if String.eqb type "response.reasoning_summary_text.delta" ||
                  String.eqb type "response.reasoning_text.delta" then
            match field event "delta" with VStr d => st_modify (appendThinking d) | _ => mret tt end
          else if String.eqb type "response.output_item.done" then finishItem (field event "item")
          else if String.eqb type "response.server_model" then
            match field event "model" with VStr m => st_modify (with_model m) | _ => mret tt end
          else mret tt
      | _ => mret tt
      end
  end.

Definition integer (v : jsval) : Z :=
  match v with
  | VNum (NFin q) => Z.max 0 (Z.quot (Qnum (this q)) (Zpos (Qden (this q))))
  | _ => 0
  end.

Definition applyUsage (value : jsval) (u : Usage) : Usage :=
  match as_record value with
  | None => u
  | Some fs =>
      let cached := integer (field fs "cached_input_tokens") in
      {| usage_input := Z.max 0 (integer (field fs "input_tokens") - cached);
         usage_cacheRead := cached;
         usage_output := integer (field fs "output_tokens");
         usage_reasoning := integer (field fs "reasoning_output_tokens");
         usage_total := integer (field fs "total_tokens") |}
  end.

(** [terminalReason] is [stop] or [stop_length]. *)
Definition complete (value : jsval) (terminalReason : StopReason) (s : ResponseState) : ResponseState :=
  let s := endOpenBlocks s in
  let '(id, u) := match as_record value with
    | None => (responseId s, usage s)
    | Some fs =>
        (match field fs "responseId" with VStr id => Some id | _ => responseId s end,
         applyUsage (field fs "tokenUsage") (usage s))
    end in
  with_result id
    match terminalReason with
    | stop_length => stop_length
    | _ => if hasToolCall s then stop_toolUse else stop
    end u s.

(** The events of a response, until one of them throws. *)
Fixpoint accept_all (values : list jsval) : st unit :=
  match values with
  | [] => mret tt
  | v :: values => accept v;; accept_all values
  end.

End json.
