(* ===== verification/ResponseStreamFacts.v ===== *)
(** * ResponseStreamFacts

    A consumer that only reads the stream events rebuilds the content of the
    message: blocks are opened and closed one at a time, in order, and the text
    an end event carries is the concatenation of the deltas before it. *)

From S2P Require Import Prelude StructuredJson Compaction Json Normalization ResponseStream.

(** ** A consumer of the stream *)

Inductive part :=
| p_text (text : string)
| p_thinking (thinking : string)
| p_tool (call : option ToolCall).

(** The blocks seen so far and the one that is open. *)
Record view := { parts : list part; opened : option nat }.

Definition open_part (i : nat) (p : part) (v : view) : option view :=
  match opened v with
  | None => if (i =? length (parts v))%nat
            then Some {| parts := parts v ++ [p]; opened := Some i |} else None
  | Some _ => None
  end.

(** The open block is replaced by what [f] makes of it. *)
Definition on_open (i : nat) (f : part → option part) (still : option nat) (v : view) : option view :=
  if bool_decide (opened v = Some i) then
    p ← parts v !! i;
    p' ← f p;
    Some {| parts := <[ i := p' ]> (parts v); opened := still |}
  else None.

Definition consume (v : view) (e : stream_event) : option view :=
  match e with
  | text_start i => open_part i (p_text "") v
  | text_delta i d =>
      on_open i (λ p, match p with p_text t => Some (p_text (t ++ d)%string) | _ => None end) (Some i) v
  | text_end i c =>
      on_open i (λ p, match p with
        | p_text t => if String.eqb t c then Some p else None | _ => None end) None v
  | thinking_start i => open_part i (p_thinking "") v
  | thinking_delta i d =>
      on_open i (λ p, match p with
        | p_thinking t => Some (p_thinking (t ++ d)%string) | _ => None end) (Some i) v
  | thinking_end i c =>
      on_open i (λ p, match p with
        | p_thinking t => if String.eqb t c then Some p else None | _ => None end) None v
  | toolcall_start i => open_part i (p_tool None) v
  | toolcall_end i call =>
      on_open i (λ p, match p with p_tool None => Some (p_tool (Some call)) | _ => None end) None v
  end.

Definition replay (es : list stream_event) : option view :=
  fold_left (λ v e, v ≫= λ v, consume v e) es (Some {| parts := []; opened := None |}).

Lemma replay_snoc es e : replay (es ++ [e]) = replay es ≫= λ v, consume v e.
Proof. unfold replay. by rewrite fold_left_app. Qed.

(** ** The message and its view *)

Definition block_view (b : block) : part :=
  match b with
  | text_block t _ => p_text t
  | thinking_block t _ => p_thinking t
  | tool_block c => p_tool (Some c)
  end.

Definition is_tool (b : block) : bool := match b with tool_block _ => true | _ => false end.

Definition open_index (s : ResponseState) : option nat :=
  match textIndex s with Some i => Some i | None => thinkingIndex s end.

Definition view_of (s : ResponseState) : view :=
  {| parts := block_view <$> content s; opened := open_index s |}.

Record inv (s : ResponseState) : Prop := {
  inv_replay : replay (pushed_events s) = Some (view_of s);
  inv_text i : textIndex s = Some i →
    thinkingIndex s = None ∧ ∃ t sig, content s !! i = Some (text_block t sig);
  inv_thinking i : thinkingIndex s = Some i → ∃ t sig, content s !! i = Some (thinking_block t sig);
  inv_tool : hasToolCall s = existsb is_tool (content s) }.

Lemma inv_new : inv new_response.
Proof. by split. Qed.

(** Pushing an event the consumer turns into the new view. *)
Lemma push_replay e s s' :
  replay (pushed_events s) = Some (view_of s) → consume (view_of s) e = Some (view_of s') →
  pushed_events s' = pushed_events s ++ [e] → replay (pushed_events s') = Some (view_of s').
Proof. intros Hr Hc ->. by rewrite replay_snoc, Hr. Qed.

Lemma view_lookup s i b : content s !! i = Some b → parts (view_of s) !! i = Some (block_view b).
Proof. intros Hi. simpl. by rewrite list_lookup_fmap, Hi. Qed.

Lemma existsb_snoc {A} f (l : list A) x : existsb f (l ++ [x]) = existsb f l || f x.
Proof. rewrite existsb_app. simpl. by rewrite orb_false_r. Qed.

Lemma existsb_insert (l : list block) i b b' :
  l !! i = Some b → is_tool b = is_tool b' → existsb is_tool (<[ i := b' ]> l) = existsb is_tool l.
Proof.
  revert i; induction l as [|x l IH]; intros [|i] Hi Hb; simplify_eq/=; [by rewrite Hb|].
  by rewrite IH.
Qed.

(** ** Each operation *)

Lemma inv_endText s : inv s → inv (endText s) ∧ textIndex (endText s) = None ∧
  content (endText s) = content s ∧ thinkingIndex (endText s) = thinkingIndex s.
Proof.
  intros [Hr Ht Hk Htool]. unfold endText. destruct (textIndex s) as [i|] eqn:Hi.
  - destruct (Ht i eq_refl) as (Hth & t & sig & Hc). rewrite Hc. split; [|done]. split; [|done|simpl; by rewrite Hth|done].
    eapply (push_replay (text_end i t) s); [done| |done].
    unfold consume, on_open. rewrite bool_decide_eq_true_2 by (simpl; unfold open_index; by rewrite Hi).
    rewrite (view_lookup s i _ Hc). simpl. rewrite String.eqb_refl. simpl.
    unfold view_of, open_index. simpl. rewrite Hth, list_insert_id; [done|].
    by rewrite list_lookup_fmap, Hc.
  - split; [|done]. split; try done. by intros i; rewrite Hi.
Qed.

Lemma inv_endThinking s : inv s → inv (endThinking s) ∧ thinkingIndex (endThinking s) = None ∧
  content (endThinking s) = content s ∧ textIndex (endThinking s) = textIndex s.
Proof.
  intros [Hr Ht Hk Htool]. unfold endThinking. destruct (thinkingIndex s) as [i|] eqn:Hi.
  - assert (Htx : textIndex s = None).
    { destruct (textIndex s) as [j|]; [|done]. by destruct (Ht j eq_refl) as [? _]. }
    destruct (Hk i eq_refl) as (t & sig & Hc). rewrite Hc. split; [|done].
    split; [|simpl; by rewrite Htx|done|done].
    eapply (push_replay (thinking_end i t) s); [done| |done].
    unfold consume, on_open.
    rewrite bool_decide_eq_true_2 by (simpl; unfold open_index; by rewrite Htx, Hi).
    rewrite (view_lookup s i _ Hc). simpl. rewrite String.eqb_refl. simpl.
    unfold view_of, open_index. simpl. rewrite Htx, list_insert_id; [done|].
    by rewrite list_lookup_fmap, Hc.
  - split; [|done]. split; try done.
    + intros j Hj. split; [done|]. by apply Ht.
    + by intros j; rewrite Hi.
Qed.

Lemma inv_endOpenBlocks s : inv s → inv (endOpenBlocks s) ∧ textIndex (endOpenBlocks s) = None ∧
  thinkingIndex (endOpenBlocks s) = None ∧ content (endOpenBlocks s) = content s.
Proof.
  intros Hs. unfold endOpenBlocks. destruct (inv_endText s Hs) as (H1 & Ht & Hc & _).
  destruct (inv_endThinking _ H1) as (H2 & Hth & Hc' & Ht'). split_and!; [done|..]; congruence.
Qed.

(** Opening a block when none is open. *)
Lemma view_open s b i es s' :
  open_index s = None → i = length (content s) →
  content s' = content s ++ [b] → open_index s' = Some i →
  replay (pushed_events s) = Some (view_of s) →
  pushed_events s' = pushed_events s ++ [es] →
  consume (view_of s) es = open_part i (block_view b) (view_of s) →
  replay (pushed_events s') = Some (view_of s').
Proof.
  intros Ho -> Hc Ho' Hr He Hcons. eapply push_replay; [exact Hr| |exact He].
  rewrite Hcons. unfold open_part. simpl. rewrite Ho, length_fmap, Nat.eqb_refl.
  unfold view_of. rewrite Hc, Ho', fmap_app. done.
Qed.

Lemma inv_ensureText s : inv s →
  let '(i, s') := ensureText s in
  inv s' ∧ textIndex s' = Some i ∧ ∃ t sig, content s' !! i = Some (text_block t sig).
Proof.
  intros Hs. unfold ensureText. destruct (textIndex s) as [i|] eqn:Hi.
  - split_and!; [done|done|]. by apply (inv_text s Hs i).
  - destruct (inv_endThinking s Hs) as (H1 & Hth & Hc & Ht). set (s1 := endThinking s) in *.
    assert (Hl : ∀ b, (content s1 ++ [b]) !! length (content s1) = Some b)
      by (intros; by apply list_lookup_middle).
    rewrite Hi in Ht.
    split_and!; [split; [|simpl..]|done|exists "", None; apply Hl].
    + eapply (view_open s1 (text_block "" None) _ (text_start (length (content s1))));
        try done; [|apply H1]. unfold open_index. by rewrite Ht.
    + intros i [= <-]. split; [done|]. exists "", None. apply Hl.
    + by rewrite Hth.
    + rewrite existsb_snoc, orb_false_r. apply H1.
Qed.

Lemma inv_ensureThinking s : inv s →
  let '(i, s') := ensureThinking s in
  inv s' ∧ thinkingIndex s' = Some i ∧ textIndex s' = None ∧
  ∃ t sig, content s' !! i = Some (thinking_block t sig).
Proof.
  intros Hs. unfold ensureThinking. destruct (thinkingIndex s) as [i|] eqn:Hi.
  - split_and!; [done|done| |by apply (inv_thinking s Hs i)].
    destruct (textIndex s) as [j|] eqn:Hj; [|done]. destruct (inv_text s Hs j Hj) as [? _]. congruence.
  - destruct (inv_endText s Hs) as (H1 & Ht & Hc & Hth). set (s1 := endText s) in *.
    assert (Hl : ∀ b, (content s1 ++ [b]) !! length (content s1) = Some b)
      by (intros; by apply list_lookup_middle).
    rewrite Hi in Hth.
    split_and!; [split; [|simpl..]|done|done|exists "", None; apply Hl].
    + eapply (view_open s1 (thinking_block "" None) _ (thinking_start (length (content s1))));
        try done; unfold open_index; simpl; rewrite ?Ht, ?Hth; try done. apply H1.
    + by rewrite Ht.
    + intros i [= <-]. exists "", None. apply Hl.
    + rewrite existsb_snoc, orb_false_r. apply H1.
Qed.

(** Replacing the open block, whose view may grow by a delta. *)
Lemma inv_set_block s i b b' :
  inv s → content s !! i = Some b → block_view b' = block_view b → inv (set_block i b' s).
Proof.
  intros [Hr Ht Hk Htool] Hb Hv.
  assert (Hl : i < length (content s)) by (by eapply lookup_lt_Some).
  split; simpl.
  - rewrite Hr. unfold view_of. simpl. f_equal. f_equal.
    rewrite list_fmap_insert, Hv, list_insert_id; [done|]. by rewrite list_lookup_fmap, Hb.
  - intros j Hj. destruct (Ht j Hj) as (Hth & t & sig & Hc). split; [done|].
    destruct (decide (i = j)) as [->|]; [|rewrite list_lookup_insert_ne by done; by exists t, sig].
    rewrite list_lookup_insert_eq by done. assert (b = text_block t sig) as -> by congruence.
    destruct b'; simplify_eq/=. by eexists _, _.
  - intros j Hj. destruct (Hk j Hj) as (t & sig & Hc).
    destruct (decide (i = j)) as [->|]; [|rewrite list_lookup_insert_ne by done; by exists t, sig].
    rewrite list_lookup_insert_eq by done. assert (b = thinking_block t sig) as -> by congruence.
    destruct b'; simplify_eq/=. by eexists _, _.
  - rewrite Htool. symmetry. apply (existsb_insert _ _ b); [done|]. by destruct b, b'; simplify_eq/=.
Qed.

Lemma inv_appendText d s : inv s → inv (appendText d s).
Proof.
  intros Hs. unfold appendText. pose proof (inv_ensureText s Hs) as He.
  destruct (ensureText s) as [i s1]. destruct He as ([Hr Ht Hk Htool] & Hi & t & sig & Hc).
  rewrite Hc. assert (Hl : i < length (content s1)) by (by eapply lookup_lt_Some).
  destruct (Ht i Hi) as [Hth _]. split; [|simpl..].
  - eapply (push_replay (text_delta i d) s1); [done| |done].
    unfold consume, on_open. rewrite bool_decide_eq_true_2 by (simpl; unfold open_index; by rewrite Hi).
    rewrite (view_lookup s1 i _ Hc). unfold view_of, open_index. simpl.
    by rewrite list_fmap_insert, Hi.
  - intros j Hj. rewrite Hi in Hj. injection Hj as <-. split; [done|].
    rewrite list_lookup_insert_eq by done. by eexists _, _.
  - by rewrite Hth.
  - rewrite Htool. symmetry. by apply (existsb_insert _ _ _ _ Hc).
Qed.

Lemma inv_appendThinking d s : inv s → inv (appendThinking d s).
Proof.
  intros Hs. unfold appendThinking. pose proof (inv_ensureThinking s Hs) as He.
  destruct (ensureThinking s) as [i s1].
  destruct He as ([Hr Ht Hk Htool] & Hi & Htx & t & sig & Hc).
  rewrite Hc. assert (Hl : i < length (content s1)) by (by eapply lookup_lt_Some).
  split; [|simpl..].
  - eapply (push_replay (thinking_delta i d) s1); [done| |done]. unfold consume, on_open.
    rewrite bool_decide_eq_true_2 by (simpl; unfold open_index; by rewrite Htx, Hi).
    rewrite (view_lookup s1 i _ Hc). unfold view_of, open_index. simpl.
    by rewrite list_fmap_insert, Htx, Hi.
  - by rewrite Htx.
  - intros j Hj. rewrite Hi in Hj. injection Hj as <-.
    rewrite list_lookup_insert_eq by done. by eexists _, _.
  - rewrite Htool. symmetry. by apply (existsb_insert _ _ _ _ Hc).
Qed.

Lemma inv_applyCompletedText v s : inv s → inv (applyCompletedText v s).
Proof.
  intros Hs. unfold applyCompletedText. destruct v; try done.
  destruct (String.length _ =? 0)%nat; [done|]. pose proof (inv_ensureText s Hs) as He.
  destruct (ensureText s) as [i s1]. destruct He as (H1 & _ & t & sig & ->).
  destruct (String.eqb _ _); [done|]. destruct (0 <? _)%nat; [by apply inv_appendText|done].
Qed.

Lemma inv_applyCompletedThinking v s : inv s → inv (applyCompletedThinking v s).
Proof.
  intros Hs. unfold applyCompletedThinking. destruct v; try done.
  destruct (String.length _ =? 0)%nat; [done|]. pose proof (inv_ensureThinking s Hs) as He.
  destruct (ensureThinking s) as [i s1]. destruct He as (H1 & _ & _ & t & sig & ->).
  destruct (String.eqb _ _); [done|]. destruct (0 <? _)%nat; [by apply inv_appendThinking|done].
Qed.

(** A closed text block pushed with its start, an optional delta, and end. *)
Lemma inv_closed_text s text sig es :
  inv s → textIndex s = None → thinkingIndex s = None →
  es = [] ∧ text = "" ∨ es = [text_delta (length (content s)) text] →
  inv (with_events (pushed_events s ++ text_start (length (content s)) :: es ++
                    [text_end (length (content s)) text])
        (push_block (text_block text sig) s)).
Proof.
  intros [Hr Ht Hk Htool] Htx Hth Hes. split; simpl; [|by rewrite Htx|by rewrite Hth|].
  - assert (Hlook : ∀ p : part, ((block_view <$> content s) ++ [p]) !! length (content s) = Some p).
    { intros p. apply list_lookup_middle. by rewrite length_fmap. }
    assert (Hins : ∀ p q : part, <[length (content s) := q]> ((block_view <$> content s) ++ [p]) =
      (block_view <$> content s) ++ [q]).
    { intros p q. rewrite insert_app_r_alt by (by rewrite length_fmap).
      by rewrite length_fmap, Nat.sub_diag. }
    unfold replay in *. rewrite fold_left_app, Hr. simpl.
    unfold open_part, view_of, open_index. simpl. rewrite Htx, Hth, length_fmap, Nat.eqb_refl.
    destruct Hes as [[-> ->]| ->]; simpl; unfold on_open; simpl;
      rewrite bool_decide_eq_true_2 by done; rewrite Hlook; simpl; rewrite Hins; simpl;
      [|rewrite bool_decide_eq_true_2 by done; rewrite Hlook; simpl; rewrite String.eqb_refl; simpl;
        rewrite Hins]; by rewrite fmap_app.
  - rewrite existsb_snoc, orb_false_r. done.
Qed.

Lemma inv_addToolCall call s : inv s → inv (addToolCall call s).
Proof.
  intros Hs. unfold addToolCall. destruct (inv_endOpenBlocks s Hs) as ([Hr Ht Hk Htool] & Htx & Hth & _).
  set (s1 := endOpenBlocks s) in *. split; simpl; [|by rewrite Htx|by rewrite Hth|].
  - rewrite !replay_snoc, Hr. simpl. unfold open_part, view_of, open_index. simpl.
    rewrite Htx, Hth, length_fmap, Nat.eqb_refl. simpl. unfold on_open. simpl.
    rewrite bool_decide_eq_true_2 by done.
    rewrite list_lookup_middle by (by rewrite length_fmap). simpl.
    rewrite insert_app_r_alt by (by rewrite length_fmap). rewrite length_fmap, Nat.sub_diag.
    by rewrite fmap_app.
  - rewrite existsb_snoc. simpl. by rewrite orb_true_r.
Qed.

(** ** What a response pushes *)

Definition longer (es : list stream_event) (s : ResponseState) : Prop := es `prefix_of` pushed_events s.

Lemma longer_push es e s : longer es s → longer es (push e s).
Proof. intros Hs. unfold longer. cbn. by apply prefix_app_r. Qed.
Lemma longer_endText es s : longer es s → longer es (endText s).
Proof. intros Hs. unfold endText. repeat case_match; try done. by apply longer_push. Qed.
Lemma longer_endThinking es s : longer es s → longer es (endThinking s).
Proof. intros Hs. unfold endThinking. repeat case_match; try done. by apply longer_push. Qed.
Lemma longer_endOpenBlocks es s : longer es s → longer es (endOpenBlocks s).
Proof. intros Hs. by apply longer_endThinking, longer_endText. Qed.
Lemma longer_ensureText es s : longer es s → longer es (ensureText s).2.
Proof. intros Hs. unfold ensureText. case_match; [done|]. by apply longer_push, (longer_endThinking es s). Qed.
Lemma longer_ensureThinking es s : longer es s → longer es (ensureThinking s).2.
Proof. intros Hs. unfold ensureThinking. case_match; [done|]. by apply longer_push, (longer_endText es s). Qed.
Lemma longer_appendText es d s : longer es s → longer es (appendText d s).
Proof.
  intros Hs%longer_ensureText. unfold appendText. destruct (ensureText s) as [i s'].
  destruct (_ !! i) as [[]|]; try done. by apply longer_push.
Qed.
Lemma longer_appendThinking es d s : longer es s → longer es (appendThinking d s).
Proof.
  intros Hs%longer_ensureThinking. unfold appendThinking. destruct (ensureThinking s) as [i s'].
  destruct (_ !! i) as [[]|]; try done. by apply longer_push.
Qed.
Lemma longer_completedText es v s : longer es s → longer es (applyCompletedText v s).
Proof.
  intros Hs. unfold applyCompletedText. destruct v; try done. case_match; [done|].
  apply longer_ensureText in Hs. destruct (ensureText s) as [i s']. repeat case_match; try done. by apply longer_appendText.
Qed.
Lemma longer_completedThinking es v s : longer es s → longer es (applyCompletedThinking v s).
Proof.
  intros Hs. unfold applyCompletedThinking. destruct v; try done. case_match; [done|].
  apply longer_ensureThinking in Hs. destruct (ensureThinking s) as [i s']. repeat case_match; try done. by apply longer_appendThinking.
Qed.
Lemma longer_complete es v r s : longer es s → longer es (complete v r s).
Proof. intros Hs%longer_endOpenBlocks. unfold complete. by destruct (as_record v). Qed.

Section json.
Context `{JsonText}.

Lemma inv_applyTextSignature fs : preserves inv (applyTextSignature fs).
Proof.
  intros s Hs. unfold applyTextSignature, mbind, st_bind, st_get, st_put. simpl.
  pose proof (inv_ensureText s Hs) as He. destruct (ensureText s) as [i s1].
  destruct He as (H1 & _ & t & sig & Hc). rewrite Hc. unfold st_lift.
  destruct (encodeResponseItemSignature _); simpl; [|done]. by eapply inv_set_block.
Qed.

Lemma inv_applyThinkingSignature fs : preserves inv (applyThinkingSignature fs).
Proof.
  intros s Hs. unfold applyThinkingSignature, mbind, st_bind, st_lift, st_get, st_put.
  destruct (encodeResponseItemSignature _); simpl; [|done].
  pose proof (inv_ensureThinking s Hs) as He. destruct (ensureThinking s) as [i s1].
  destruct He as (H1 & _ & _ & t & sig & Hc). rewrite Hc. simpl. by eapply inv_set_block.
Qed.

Lemma inv_consumeOpaqueItem fs : preserves inv (consumeOpaqueItem fs).
Proof.
  intros s Hs. unfold consumeOpaqueItem, mbind, st_bind, st_lift, st_get, st_put.
  destruct (inv_endOpenBlocks s Hs) as (H1 & Ht & Hth & _). set (s1 := endOpenBlocks s) in *.
  destruct (encodeResponseItemSignature _) as [sig|]; simpl; [|done].
  pose proof (inv_closed_text s1 "" (Some sig) [] H1 Ht Hth (or_introl (conj eq_refl eq_refl))) as Hi.
  unfold push. simpl in *. by rewrite <-app_assoc.
Qed.

Lemma inv_consumeHostedWebSearch fs : preserves inv (consumeHostedWebSearch fs).
Proof.
  intros s Hs. unfold consumeHostedWebSearch, mbind, st_bind, st_lift, st_get, st_put.
  destruct (inv_endOpenBlocks s Hs) as (H1 & Ht & Hth & _). set (s1 := endOpenBlocks s) in *.
  destruct (encodeResponseItemSignature _) as [sig|]; simpl; [|done].
  set (summary := search_summary _).
  pose proof (inv_closed_text s1 summary (Some sig) [text_delta (length (content s1)) summary]
    H1 Ht Hth (or_intror eq_refl)) as Hi.
  unfold push. simpl in *. by rewrite <-!app_assoc.
Qed.

Lemma inv_finishItem v : preserves inv (finishItem v).
Proof.
  unfold finishItem. destruct (as_record v) as [fs|]; [|apply preserves_ret].
  destruct (field fs "type"); try apply preserves_ret. destruct (String.eqb s "message").
  { apply preserves_bind; [intros s'; apply inv_applyCompletedText|intros _; apply inv_applyTextSignature]. }
  destruct (String.eqb s "web_search_call"); [apply inv_consumeHostedWebSearch|].
  destruct (String.eqb s "reasoning").
  { apply preserves_bind;
      [intros s'; apply inv_applyCompletedThinking|intros _; apply inv_applyThinkingSignature]. }
  destruct (_ || _); [|apply inv_consumeOpaqueItem].
  apply preserves_bind; [apply preserves_lift|]. intros [call|]; [|apply preserves_ret].
  intros s'. apply inv_addToolCall.
Qed.

Lemma inv_accept v : preserves inv (accept v).
Proof.
  intros s Hs. unfold accept. destruct (as_record v) as [event|]; [|done].
  destruct (field event "type"); try done. destruct (String.eqb s0 "response.output_text.delta").
  { destruct (field event "delta"); try done. by apply inv_appendText. }
  destruct (_ || _). { destruct (field event "delta"); try done. by apply inv_appendThinking. }
  destruct (String.eqb s0 "response.output_item.done"); [by apply inv_finishItem|].
  destruct (String.eqb s0 "response.server_model"); [|done].
  destruct (field event "model"); try done. by destruct Hs.
Qed.

Lemma inv_accept_all vs : preserves inv (accept_all vs).
Proof.
  induction vs as [|v vs IH]; [apply preserves_ret|].
  apply preserves_bind; [apply inv_accept|]. intros _. apply IH.
Qed.

Lemma longer_applyTextSignature es fs : preserves (longer es) (applyTextSignature fs).
Proof.
  intros s Hs. unfold applyTextSignature, mbind, st_bind, st_get, st_put. cbn.
  apply longer_ensureText in Hs. destruct (ensureText s) as [i s1]. destruct (_ !! i) as [[]|]; try done.
  unfold st_lift. by destruct (encodeResponseItemSignature _).
Qed.

Lemma longer_applyThinkingSignature es fs : preserves (longer es) (applyThinkingSignature fs).
Proof.
  intros s Hs. unfold applyThinkingSignature, mbind, st_bind, st_lift, st_get, st_put.
  destruct (encodeResponseItemSignature _); [|done]. cbn.
  apply longer_ensureThinking in Hs. destruct (ensureThinking s) as [i s1]. by destruct (_ !! i) as [[]|].
Qed.

Lemma longer_consumeOpaqueItem es fs : preserves (longer es) (consumeOpaqueItem fs).
Proof.
  intros s Hs%longer_endOpenBlocks. unfold consumeOpaqueItem, mbind, st_bind, st_lift, st_get, st_put.
  destruct (encodeResponseItemSignature _); [|done]. by repeat apply longer_push.
Qed.

Lemma longer_consumeHostedWebSearch es fs : preserves (longer es) (consumeHostedWebSearch fs).
Proof.
  intros s Hs%longer_endOpenBlocks. unfold consumeHostedWebSearch, mbind, st_bind, st_lift, st_get, st_put.
  destruct (encodeResponseItemSignature _); [|done]. by repeat apply longer_push.
Qed.

Lemma longer_addToolCall es call s : longer es s → longer es (addToolCall call s).
Proof. intros Hs%longer_endOpenBlocks. unfold addToolCall. by repeat apply longer_push. Qed.

Lemma longer_finishItem es v : preserves (longer es) (finishItem v).
Proof.
  unfold finishItem. destruct (as_record v) as [fs|]; [|apply preserves_ret].
  destruct (field fs "type"); try apply preserves_ret. destruct (String.eqb s "message").
  { apply preserves_bind; [intros s'; apply longer_completedText|intros _; apply longer_applyTextSignature]. }
  destruct (String.eqb s "web_search_call"); [apply longer_consumeHostedWebSearch|].
  destruct (String.eqb s "reasoning").
  { apply preserves_bind;
      [intros s'; apply longer_completedThinking|intros _; apply longer_applyThinkingSignature]. }
  destruct (_ || _); [|apply longer_consumeOpaqueItem].
  apply preserves_bind; [apply preserves_lift|]. intros [call|]; [|apply preserves_ret].
  intros s'. apply longer_addToolCall.
Qed.

(** An event only adds to what was pushed. *)
Lemma longer_accept es v : preserves (longer es) (accept v).
Proof.
  intros s Hs. unfold accept. destruct (as_record v) as [event|]; [|done].
  destruct (field event "type"); try done. destruct (String.eqb s0 "response.output_text.delta").
  { destruct (field event "delta"); try done. by apply longer_appendText. }
  destruct (_ || _). { destruct (field event "delta"); try done. by apply longer_appendThinking. }
  destruct (String.eqb s0 "response.output_item.done"); [by apply longer_finishItem|].
  destruct (String.eqb s0 "response.server_model"); [|done]. by destruct (field event "model").
Qed.

Lemma complete_facts v r s : inv s →
  replay (pushed_events (complete v r s)) =
    Some {| parts := block_view <$> content (complete v r s); opened := None |} ∧
  content (complete v r s) = content s ∧ hasToolCall (endOpenBlocks s) = existsb is_tool (content s).
Proof.
  intros Hs. unfold complete. destruct (inv_endOpenBlocks s Hs) as ([Hr _ _ Htool] & Ht & Hth & Hc).
  rewrite Hc in Htool. destruct (match as_record v with Some _ => _ | None => _ end) as [id u]. simpl.
  split_and!; [|done|done]. rewrite Hr. unfold view_of, open_index. by rewrite Ht, Hth.
Qed.

(** C4: Whatever events the native response sends, and even when one of them
    throws, a consumer of the stream events is never confused: replaying them
    rebuilds exactly the content of the message, with consecutive indices, at
    most one open block, and end texts that are the concatenation of the
    deltas.  After completion no block is open, and the message stops for tool
    use exactly when it was not cut short and has a tool call. *)
Theorem stream_replays_to_content values completion reason :
  let s := (accept_all values new_response).2 in
  let s' := complete completion reason s in
  replay (pushed_events s) = Some (view_of s) ∧
  replay (pushed_events s') = Some {| parts := block_view <$> content s'; opened := None |} ∧
  (stopReason s' = stop_toolUse ↔ reason ≠ stop_length ∧ ∃ call, tool_block call ∈ content s').
Proof.
  intros s s'. assert (Hs : inv s) by (apply inv_accept_all, inv_new).
  destruct (complete_facts completion reason s Hs) as (Hr & Hc & Ht).
  split_and!; [apply Hs|exact Hr|]. fold s' in Hc. rewrite Hc.
  assert (stopReason s' = match reason with
    | stop_length => stop_length
    | _ => if existsb is_tool (content s) then stop_toolUse else stop end) as ->.
  { subst s'. unfold complete. rewrite <-Ht.
    by destruct (match as_record completion with Some _ => _ | None => _ end). }
  assert (existsb is_tool (content s) = true ↔ ∃ call, tool_block call ∈ content s) as <-.
  { rewrite existsb_exists. setoid_rewrite <-list_elem_of_In. split.
    - intros ([| |call] & Hin & ?); try done. by exists call.
    - intros [call Hin]. by exists (tool_block call). }
  destruct reason, (existsb is_tool (content s)); naive_solver.
Qed.
End json.
