(* ===== verification/ResponseItems.v ===== *)
(** * ResponseItems

    [src/src/integration/pi/codex-provider.ts]: the response items that stand
    for Pi's context messages in a provider request
    ([responseItemsFromMessages]). *)

From Stdlib Require Import QArith Qcanon.
From S2P Require Import Prelude StructuredJson Compaction Json Normalization ResponseStream.

Definition COMPACTION_SUMMARY_PREFIX : string :=
  "The conversation history before this point was compacted into the following summary:" ++
  line_feed ++ line_feed ++ "<summary>" ++ line_feed.
Definition COMPACTION_SUMMARY_SUFFIX : string := (line_feed ++ "</summary>")%string.

(** [value ? a : b]. *)
Definition truthy (v : jsval) : bool :=
  match v with
  | VUndef | VNull => false
  | VBool b => b
  | VNum n => negb (num_eqb n 0%Z) && negb (bool_decide (n = NNaN))
  | VStr s => (0 <? String.length s)%nat
  | VArr _ | VObj _ | VOpaque => true
  end.

Definition input_text (text : string) : jsval :=
  VObj [("type", VStr "input_text"); ("text", VStr text)].

Definition userTextItem (text : string) : jsval :=
  VObj [("type", VStr "message"); ("role", VStr "user"); ("content", VArr [input_text text])].

Definition image_url (data mimeType : string) : string :=
  "data:" ++ mimeType ++ ";base64," ++ data.

(** The image item; only user input asks for the original detail. *)
Definition content_item (detail : bool) (item : jsval) : option jsval :=
  fs ← as_record item;
  match field fs "type", field fs "text", field fs "data", field fs "mimeType" with
  | VStr type, text, data, mime =>
      if String.eqb type "text" then
        match text with VStr t => Some (input_text t) | _ => None end
      else if String.eqb type "image" then
        match data, mime with
        | VStr d, VStr m => Some (VObj ([("type", VStr "input_image"); ("image_url", VStr (image_url d m))] ++
                                        if detail then [("detail", VStr "original")] else []))
        | _, _ => None
        end
      else None
  | _, _, _, _ => None
  end.

Definition inputContent (content : jsval) : jsval :=
  match content with
  | VStr s => VArr [input_text s]
  | VArr items => VArr (omap (content_item true) items)
  | _ => VArr []
  end.

Definition item_text (item : jsval) : option string :=
  fs ← as_record item;
  if bool_decide (field fs "type" = VStr "input_text")
  then Some match field fs "text" with VStr t => t | _ => "" end else None.

(** One string when all parts are text. *)
Definition toolOutput (content : jsval) : jsval :=
  let items := match content with VArr items => omap (content_item false) items | _ => [] end in
  match mapM item_text items with
  | Some texts => VStr (join line_feed texts)
  | None => VArr items
  end.

(** The parts before and after the first dot, up to the second:
    [name.split(".", 2)] of a name with a dot. *)
Fixpoint split_dot (s : string) : option (string * string) :=
  match s with
  | EmptyString => None
  | String c s =>
      if Ascii.eqb c "." then Some ("", s)
      else '(a, b) ← split_dot s; Some (String c a, b)
  end.
Definition split_namespace (s : string) : option (string * string) :=
  '(a, b) ← split_dot s;
  Some (a, match split_dot b with Some (b, _) => b | None => b end).

Section items.
Context `{JsonText}.

(** [JSON.stringify(v)]: [undefined] for what has no JSON text. *)
Definition js_stringify (v : jsval) : jsval :=
  match v with VUndef | VOpaque => VUndef | _ => VStr (stringify v) end.

Definition parseTextSignature (value : jsval) : option (list (string * jsval)) :=
  text ← nonEmptyString value;
  parsed ← json_parse text;
  as_record parsed.

(** [typeof v === "string" ? { k: v } : {}]. *)
Definition string_field (k : string) (v : jsval) : list (string * jsval) :=
  match v with VStr _ => [(k, v)] | _ => [] end.

Definition text_item (content : list (string * jsval)) : jsval :=
  match decodeResponseItemSignature (field content "textSignature") with
  | Some preserved => preserved
  | None =>
      let signature := default [] (parseTextSignature (field content "textSignature")) in
      if bool_decide (field signature "kind" = VStr "web_search_call") then
        VObj ([("type", VStr "web_search_call")] ++ string_field "id" (field signature "id") ++
              string_field "status" (field signature "status") ++
              (if bool_decide (field signature "action" = VUndef) then []
               else [("action", field signature "action")]))
      else
        VObj ([("type", VStr "message"); ("role", VStr "assistant")] ++
              string_field "id" (field signature "id") ++
              (if bool_decide (field signature "phase" = VStr "commentary") ||
                  bool_decide (field signature "phase" = VStr "final_answer")
               then [("phase", field signature "phase")] else []) ++
              [("content", VArr [VObj [("type", VStr "output_text"); ("text", field content "text")]])])
  end.

Definition thinking_item (content : list (string * jsval)) : jsval :=
  let sig := field content "thinkingSignature" in
  match decodeResponseItemSignature sig with
  | Some preserved => preserved
  | None =>
      let legacy := parseTextSignature sig in
      VObj ([("type", VStr "reasoning")] ++ string_field "id" (field (default [] legacy) "id") ++
            [("summary", VArr (if truthy (field content "thinking")
                               then [VObj [("type", VStr "summary_text"); ("text", field content "thinking")]]
                               else []));
             ("content", VNull);
             ("encrypted_content", match sig, legacy with VStr _, None => sig | _, _ => VNull end)])
  end.

Definition call_item (content : list (string * jsval)) : jsval :=
  let arguments := field content "arguments" in
  let plain := VObj [("type", VStr "function_call"); ("name", field content "name");
                     ("arguments", js_stringify arguments); ("call_id", field content "id")] in
  match decodeResponseItemSignature (field content "thoughtSignature") with
  | Some preserved => preserved
  | None =>
      match field content "name", field (default [] (as_record arguments)) "input" with
      | VStr name, input =>
          match String.eqb name "apply_patch", input with
          | true, VStr _ =>
              VObj [("type", VStr "custom_tool_call"); ("name", VStr name); ("input", input);
                    ("call_id", field content "id")]
          | _, _ =>
              match split_namespace name with
              | Some (namespace, name) =>
                  VObj [("type", VStr "function_call"); ("namespace", VStr namespace);
                        ("name", VStr name); ("arguments", js_stringify arguments);
                        ("call_id", field content "id")]
              | None => plain
              end
          end
      | _, _ => plain
      end
  end.

Definition assistant_item (value : jsval) : option jsval :=
  content ← as_record value;
  Some (if bool_decide (field content "type" = VStr "text") then text_item content
        else if bool_decide (field content "type" = VStr "thinking") then thinking_item content
        else call_item content).

Definition toResponseItems (message : jsval) : list jsval :=
  match as_record message with
  | None => []
  | Some raw =>
      let user_item := VObj [("type", VStr "message"); ("role", VStr "user");
                             ("content", inputContent (field raw "content"))] in
      match field raw "role" with
      | VStr role =>
          match role, field raw "summary" with
          | "compactionSummary", VStr summary =>
              [userTextItem (COMPACTION_SUMMARY_PREFIX ++ summary ++ COMPACTION_SUMMARY_SUFFIX)%string]
          | "branchSummary", VStr summary => [userTextItem summary]
          | "custom", _ | "user", _ => [user_item]
          | "bashExecution", _ =>
              if bool_decide (field raw "excludeFromContext" = VBool true) then [] else
              let text k := match field raw k with VStr s => s | _ => "" end in
              [userTextItem ("Command: " ++ text "command" ++ line_feed ++ "Output:" ++ line_feed ++
                             text "output")%string]
          | "toolResult", _ =>
              [VObj [("type", VStr (if bool_decide (field raw "toolName" = VStr "apply_patch")
                                    then "custom_tool_call_output" else "function_call_output"));
                     ("call_id", field raw "toolCallId");
                     ("output", toolOutput (field raw "content"))]]
          | "assistant", _ =>
              match field raw "content" with
              | VArr blocks => omap assistant_item blocks
              | _ => []
              end
          | _, _ => []
          end
      | _ => []
      end
  end.

Definition responseItemsFromMessages (messages : list jsval) : outcome string (list jsval) :=
  normalized ← normalizeCodexContextMessages messages;
  Ret (normalized ≫= toResponseItems).

End items.
