(* ===== verification/Replay.v ===== *)
(** * Replay

    [src/src/integration/pi/codex-compaction-replay.ts]: how a provider
    request is rebuilt from the session's checkpoint, and when a new
    checkpoint is made before the request is approved.

    The handler runs over the request guard, the accounting store and the
    phase coordinator.  What it awaits is in its environment: the answers of
    the configuration, the capability resolver, the context estimate and the
    native compaction, and what other callbacks do to the guard meanwhile. *)

From Stdlib Require Import QArith Qcanon.
From S2P Require Import Prelude StructuredJson Config Compaction Capability EffectiveCapabilities.
From S2P Require Import Json Normalization ResponseStream ResponseItems Credentials RequestGuard.

(** ** Session entries *)

(** A custom entry, with its type and data, or another entry of the session. *)
Inductive entry_body :=
| custom_entry (customType : string) (data : jsval)
| message_entry (body : jsval).

Record SessionEntry := { entry_id : string; entry_content : entry_body }.

Record CheckpointSelection := {
  sel_entry : SessionEntry;
  sel_checkpoint : CodexRemoteCompactionCheckpointV1;
  coveredIndex : nat;
  entryIndex : nat }.

Record CheckpointScan := { matching : option CheckpointSelection; hasIdentityMismatch : bool }.

Definition sameIdentity (left right : CodexCompactionIdentity) : bool :=
  String.eqb (sessionFingerprint left) (sessionFingerprint right) &&
  String.eqb (providerId left) (providerId right) &&
  String.eqb (api left) (api right) &&
  String.eqb (baseUrl left) (baseUrl right) &&
  String.eqb (Compaction.modelId left) (Compaction.modelId right) &&
  bool_decide (binding_kind (authenticationBinding left) = binding_kind (authenticationBinding right)) &&
  String.eqb (fingerprint (authenticationBinding left)) (fingerprint (authenticationBinding right)).

(** [findIndex] by entry id. *)
Fixpoint find_entry (id : string) (branch : list SessionEntry) : option nat :=
  match branch with
  | [] => None
  | e :: branch => if String.eqb (entry_id e) id then Some 0 else S <$> find_entry id branch
  end.

(** The checkpoint a custom entry holds. *)
Definition entry_checkpoint (e : SessionEntry) : option CodexRemoteCompactionCheckpointV1 :=
  match entry_content e with
  | custom_entry kind data =>
      if String.eqb kind CODEX_REMOTE_COMPACTION_KIND then parseRemoteCompactionCheckpoint data else None
  | message_entry _ => None
  end.

(** The loop over the first [n] entries, from the last one down. *)
Fixpoint scan_from (n : nat) (branch : list SessionEntry) (identity : CodexCompactionIdentity)
    (coveredBeforeIndex : nat) (mismatch : bool) : CheckpointScan :=
  match n with
  | 0 => {| matching := None; hasIdentityMismatch := mismatch |}
  | S index =>
      match branch !! index with
      | None => scan_from index branch identity coveredBeforeIndex mismatch
      | Some entry =>
          match entry_checkpoint entry with
          | None => scan_from index branch identity coveredBeforeIndex mismatch
          | Some checkpoint =>
              if negb (sameIdentity (cp_identity checkpoint) identity)
              then scan_from index branch identity coveredBeforeIndex true else
              match find_entry (coveredEntryId checkpoint) branch with
              | None => scan_from index branch identity coveredBeforeIndex mismatch
              | Some covered =>
                  if (index <=? covered)%nat || (coveredBeforeIndex <=? covered)%nat
                  then scan_from index branch identity coveredBeforeIndex mismatch
                  else {| matching := Some {| sel_entry := entry; sel_checkpoint := checkpoint;
                                              coveredIndex := covered; entryIndex := index |};
                          hasIdentityMismatch := mismatch |}
              end
          end
      end
  end.

Definition scanRemoteCompactionCheckpoints (branch : list SessionEntry)
    (identity : CodexCompactionIdentity) : CheckpointScan :=
  scan_from (length branch) branch identity (length branch) false.

Definition hasValidRemoteCheckpoint (branch : list SessionEntry) : bool :=
  existsb (λ e, match entry_checkpoint e with Some _ => true | None => false end) branch.

(** ** Errors and numbers *)

Inductive handle_error :=
| REPLAY_ERROR
| CodexProviderContextWindowError
| guard_error (e : GuardError)
| AbortError                                (* an error of that name *)
| handle_message (message : string).

Definition lift_guard {A} (r : outcome GuardError A) : outcome handle_error A :=
  match r with Ret a => Ret a | Throw e => Throw (guard_error e) end.
Definition lift_message {A} (r : outcome string A) : outcome handle_error A :=
  match r with Ret a => Ret a | Throw e => Throw (handle_message e) end.

(** [Math.max] and [Math.min] of two numbers. *)
Definition num_max (a b : jsnum) : jsnum :=
  match a, b with NNaN, _ | _, NNaN => NNaN | _, _ => if num_ltb a b then b else a end.
Definition num_min (a b : jsnum) : jsnum :=
  match a, b with NNaN, _ | _, NNaN => NNaN | _, _ => if num_ltb a b then a else b end.

Definition positive_number (n : option jsnum) : option jsnum :=
  n ← n; if num_ltb 0%Z n then Some n else None.

(** The least positive candidate. *)
Definition least_threshold (candidates : list (option jsnum)) : option jsnum :=
  match omap positive_number candidates with
  | [] => None
  | n :: ns => Some (fold_left num_min ns n)
  end.

(** ** The native answers *)

Record ContextEstimate := {
  activeContextTokens : jsnum;
  fullEstimatedTokens : jsnum;
  est_autoCompactTokenLimit : option jsnum;
  est_contextWindow : jsnum }.

Record CompactAnswer := { compact_status : string; compact_output : jsval; compact_usage : jsval }.

(** The usage a proposal reports; its costs are all zero. *)
Record CheckpointUsage := {
  cu_input : Z; cu_output : Z; cu_cacheRead : Z; cu_cacheWrite : Z; cu_totalTokens : Z;
  cu_reasoning : option Z }.

Record ProviderCheckpointProposal := {
  proposal_token : jsval;
  proposal_customType : string;
  proposal_checkpointId : string;
  proposal_checkpoint : CodexRemoteCompactionCheckpointV1;
  proposal_usage : option CheckpointUsage }.

(** Validated usage is in safe integers. *)
Definition count (n : jsnum) : Z := default 0%Z (num_integer n).

Definition providerCheckpointUsage (usage : NormalizedUsage) : CheckpointUsage :=
  {| cu_input := Z.max 0 (count (inputTokens usage) - count (cachedInputTokens usage));
     cu_output := count (outputTokens usage);
     cu_cacheRead := count (cachedInputTokens usage);
     cu_cacheWrite := 0;
     cu_totalTokens := count (inputTokens usage) + count (outputTokens usage);
     cu_reasoning := count <$> reasoningTokens usage |}.

Definition checkpoint_implementation (i : CompactionImplementation) : Implementation :=
  match i with impl_remote_v2 => remote_v2 | impl_compact_endpoint => compact_endpoint end.

(** ** State and environment *)

(** [boundary] is the last call of the host's boundary setter; warnings are
    counted. *)
Record handler_state := {
  h_guard : CodexProviderRequestGuard;
  h_store : CodexCompactionStore;
  h_coordinator : coordinator;
  h_warnings : nat;
  h_boundary : option (option string) }.

Definition with_guard (g : CodexProviderRequestGuard) (s : handler_state) : handler_state :=
  {| h_guard := g; h_store := h_store s; h_coordinator := h_coordinator s;
     h_warnings := h_warnings s; h_boundary := h_boundary s |}.
Definition with_store (st : CodexCompactionStore) (s : handler_state) : handler_state :=
  {| h_guard := h_guard s; h_store := st; h_coordinator := h_coordinator s;
     h_warnings := h_warnings s; h_boundary := h_boundary s |}.
Definition with_coordinator (c : coordinator) (s : handler_state) : handler_state :=
  {| h_guard := h_guard s; h_store := h_store s; h_coordinator := c;
     h_warnings := h_warnings s; h_boundary := h_boundary s |}.
Definition with_warning (s : handler_state) : handler_state :=
  {| h_guard := h_guard s; h_store := h_store s; h_coordinator := h_coordinator s;
     h_warnings := S (h_warnings s); h_boundary := h_boundary s |}.
Definition with_boundary (b : option string) (s : handler_state) : handler_state :=
  {| h_guard := h_guard s; h_store := h_store s; h_coordinator := h_coordinator s;
     h_warnings := h_warnings s; h_boundary := Some b |}.

(** The model of the context: id, provider and api. *)
Record ContextModel := { cm_id : string; cm_provider : string; cm_api : string }.
#[export] Instance ContextModel_eq_dec : EqDecision ContextModel. Proof. solve_decision. Defined.

Record environment := {
  e_current : option Z;                         (* the async-local record *)
  e_model : option ContextModel;                (* ctx.model *)
  e_isActive : option ContextModel → bool;      (* the activation policy *)
  e_sessionId : string;                         (* ctx.sessionManager.getSessionId() *)
  e_branch : list SessionEntry;
  e_leafId : option string;                     (* getLeafId() before the compaction *)
  e_leafId_after : option string;               (* and after it *)
  e_payload : jsval;
  e_attribution_session : string;
  e_attribution_signal : option signal_id;
  e_origin : jsval;
  e_token : option jsval;
  e_connection : ProviderConnectionDetails;     (* of the record *)
  e_has_setter : bool;
  e_config : outcome handle_error CodexConfig;
  e_healthy : bool;
  e_snapshot : outcome handle_error EffectiveCapabilitySnapshot;
  e_estimate : option (string → list jsval → option (jsnum * jsnum) → outcome handle_error ContextEstimate);
  e_compact : jsval → outcome handle_error CompactAnswer;
  e_checkpointId : string;
  e_during_estimate : list guard_op;            (* guard calls of others, while awaiting *)
  e_during_compact : list guard_op }.

Abbreviation handler A := (stateful handler_state handle_error A).

Section replay.
Context `{JsonText} (sha256Hex : string → string).
(** Pi's own conversion of session entries to model messages. *)
Context (sessionEntryToContextMessages : SessionEntry → list jsval).
Context (convertToLlm : list jsval → list jsval).

Definition supported_item (item : jsval) : bool :=
  json_value item && isSupportedStructuredResponseItem item.

Definition projectCanonicalEntries (entries : list SessionEntry) : outcome handle_error (list jsval) :=
  let messages := entries ≫= λ e, match entry_content e with
    | custom_entry _ _ => [] | message_entry _ => sessionEntryToContextMessages e end in
  items ← lift_message (responseItemsFromMessages (convertToLlm messages));
  if forallb supported_item items then Ret items else Throw REPLAY_ERROR.

Definition checkpointSuffix (branch : list SessionEntry) (covered endExclusive : nat)
    : outcome handle_error (list jsval) :=
  projectCanonicalEntries (drop (S covered) (take endExclusive branch)).

Definition checkpointPayload (selection : CheckpointSelection) (branch : list SessionEntry)
    (endExclusive : nat) : outcome handle_error (list jsval) :=
  if (endExclusive <=? coveredIndex selection)%nat || (length branch <? endExclusive)%nat
  then Throw REPLAY_ERROR else
  suffix ← checkpointSuffix branch (coveredIndex selection) endExclusive;
  Ret (cp_output (sel_checkpoint selection) ++ suffix).

Definition responseInput (value : jsval) : outcome handle_error (list jsval) :=
  match value with
  | VArr items => if forallb supported_item items then Ret items else Throw REPLAY_ERROR
  | _ => Throw REPLAY_ERROR
  end.

Definition responseInstructions (value : jsval) : outcome handle_error string :=
  match value with VStr s => Ret s | _ => Throw REPLAY_ERROR end.

Definition rewritePayload (payload : list (string * jsval)) (input : list jsval) : jsval :=
  VObj (set_field payload "input" (VArr input)).

(** [Math.max(1, Math.ceil(JSON.stringify(input).length / 4))]. *)
Definition estimateTokens (input : list jsval) : jsnum :=
  Z.max 1 ((Z.of_nat (String.length (stringify (VArr input))) + 3) / 4).

(** [value ?? fallback]. *)
Definition or_else (v fallback : jsval) : jsval :=
  match v with VUndef | VNull => fallback | _ => v end.

Definition buildCompactRequest (modelId : string) (input : list jsval)
    (payload : list (string * jsval)) (snapshot : EffectiveCapabilitySnapshot) (config : CodexConfig)
    (sessionId : string) : jsval :=
  VObj [("model", VStr modelId);
        ("input", VArr input);
        ("instructions", match field payload "instructions" with
           | VStr s => VStr s
           | _ => VStr (withSupplementalSessionInstructions "" snapshot) end);
        ("tools", or_else (field payload "tools") VNull);
        ("parallel_tool_calls", or_else (field payload "parallel_tool_calls") (VBool true));
        ("reasoning", or_else (field payload "reasoning") VNull);
        ("service_tier", or_else (field payload "service_tier") (lit (serviceTier (codex config))));
        ("prompt_cache_key", VStr sessionId);
        ("text", or_else (field payload "text") (VObj [("verbosity", lit (verbosity (codex config)))]))].

Definition cancelled {A} : outcome handle_error A := Throw (handle_message "Compaction cancelled").

(** [createRemoteCheckpointProposal]; the two flags tell whether the signal is
    aborted before and after the native call. *)
Definition createRemoteCheckpointProposal (implementation : option CompactionImplementation)
    (identity : option CodexCompactionIdentity) (compact : jsval → outcome handle_error CompactAnswer)
    (request : jsval) (input : list jsval) (coveredEntryId checkpointId : string)
    (token : jsval) (aborted_before aborted_after : bool)
    : outcome handle_error (ProviderCheckpointProposal * list jsval) :=
  match implementation with
  | None => Throw (handle_message "OpenAI Codex Remote Compaction is unavailable")
  | Some implementation =>
      if aborted_before then cancelled else
      answer ← compact request;
      if String.eqb (compact_status answer) "aborted" || aborted_after then cancelled else
      if negb (String.eqb (compact_status answer) "completed")
      then Throw (handle_message ("OpenAI Codex Remote Compaction ended with status " ++
                                  compact_status answer)%string) else
      output ← lift_message (validateCompactionOutput (compact_output answer));
      match identity with
      | None => Throw (handle_message "OpenAI Codex compaction credentials are unsupported")
      | Some ident =>
          checkpoint ← lift_message (createRemoteCompactionCheckpoint (VObj (identity_fields ident))
            (VStr checkpointId) (VStr coveredEntryId)
            (lit (checkpoint_implementation implementation)) (VArr output)
            (VNum (estimateTokens input)) (compact_usage answer));
          Ret ({| proposal_token := token; proposal_customType := CODEX_REMOTE_COMPACTION_KIND;
                  proposal_checkpointId := checkpointId; proposal_checkpoint := checkpoint;
                  proposal_usage := providerCheckpointUsage <$> cp_usage checkpoint |}, output)
      end
  end.

(** ** The handler *)

Definition identity_of (e : environment) (record : CodexProviderRequestRecord) : option CodexCompactionIdentity :=
  let model := default [] (as_record (in_model (rec_input record))) in
  match field model "id", field model "api" with
  | VStr id, VStr api =>
      providerCompactionIdentityFromValues sha256Hex (in_sessionId (rec_input record)) id api (e_connection e)
  | _, _ => None
  end.

(** The model of the record as the context sees one. *)
Definition record_model (record : CodexProviderRequestRecord) : option ContextModel :=
  let model := default [] (as_record (in_model (rec_input record))) in
  match field model "id", field model "provider", field model "api" with
  | VStr id, VStr provider, VStr api => Some {| cm_id := id; cm_provider := provider; cm_api := api |}
  | _, _, _ => None
  end.

Definition require (b : bool) : handler unit := st_lift (if b then Ret tt else Throw REPLAY_ERROR).

Definition on_store {A} (f : CodexCompactionStore → A * CodexCompactionStore) : handler A :=
  λ s, let '(a, store) := f (h_store s) in (Ret a, with_store store s).

(** A call of the guard. *)
Definition on_guard {A} (f : CodexProviderRequestGuard → outcome GuardError A * CodexProviderRequestGuard)
    : handler A :=
  λ s, let '(r, g) := f (h_guard s) in (lift_guard r, with_guard g s).

(** Other callbacks run while the handler waits. *)
Definition await_guard (ops : list guard_op) : handler unit :=
  st_modify (λ s, with_guard (guard_run sha256Hex ops (h_guard s)) s).

(** The live record of the scope, which [assertLive] checks. *)
Definition live (gen : Z) : handler CodexProviderRequestRecord :=
  on_guard (λ g, (live_record gen g, g)).

Definition warn_mismatch (scan : CheckpointScan) (sessionId : string) (identity : CodexCompactionIdentity)
    : handler unit :=
  if hasIdentityMismatch scan then
    first ← on_store (warnOnce sessionId identity);
    if first : bool then st_modify with_warning else mret tt
  else mret tt.

Definition warnInactiveIdentity (sessionId : string) (hasCheckpoint : bool) : handler unit :=
  if hasCheckpoint then
    first ← on_store (warnSessionOnce sessionId);
    if first : bool then st_modify with_warning else mret tt
  else mret tt.

Definition refreshBoundaryForRequest (e : environment) (record : CodexProviderRequestRecord) : handler unit :=
  if negb (e_has_setter e) then mret tt else
  let sessionId := in_sessionId (rec_input record) in
  match identity_of e record with
  | None =>
      st_modify (with_boundary None);;
      warnInactiveIdentity sessionId (hasValidRemoteCheckpoint (e_branch e))
  | Some ident =>
      let scan := scanRemoteCompactionCheckpoints (e_branch e) ident in
      warn_mismatch scan sessionId ident;;
      st_modify (with_boundary (entry_id ∘ sel_entry <$> matching scan))
  end.

(** The boundary as a session is entered, with the connection the provider
    has then, if it has one. *)
Definition restoreProviderCheckpointUsageBoundary (e : environment)
    (connection : option ProviderConnectionDetails) : handler unit :=
  if negb (e_has_setter e) then mret tt else
  let sessionId := e_sessionId e in
  let inactive :=
    st_modify (with_boundary None);;
    warnInactiveIdentity sessionId (hasValidRemoteCheckpoint (e_branch e)) in
  match e_model e, connection with
  | Some model, Some connection =>
      if negb (e_isActive e (Some model)) then inactive else
      match providerCompactionIdentityFromValues sha256Hex sessionId (cm_id model) (cm_api model)
              connection with
      | None => inactive
      | Some ident =>
          let scan := scanRemoteCompactionCheckpoints (e_branch e) ident in
          warn_mismatch scan sessionId ident;;
          st_modify (with_boundary (entry_id ∘ sel_entry <$> matching scan))
      end
  | _, _ => inactive
  end.

(** The checks before the payload is looked at. *)
Definition check_request (e : environment) (gen : Z) : handler (CodexProviderRequestRecord * list (string * jsval)) :=
  record ← live gen;
  on_guard (λ g, (assertRoute gen (e_sessionId e) g, g));;
  require (bool_decide (is_Some (e_model e)) && bool_decide (e_model e = record_model record) &&
           String.eqb (e_attribution_session e) (in_sessionId (rec_input record)) &&
           bool_decide (e_attribution_signal e = in_signal (rec_input record)));;
  require (e_isActive e (record_model record));;
  refreshBoundaryForRequest e record;;
  match as_record (e_payload e) with
  | None => st_lift (Throw REPLAY_ERROR)
  | Some payload =>
      require (bool_decide (field payload "model" =
        match record_model record with Some m => VStr (cm_id m) | None => VUndef end));;
      digest ← st_lift (lift_guard (digestJson sha256Hex (e_payload e)));
      require (String.eqb digest (requestDigest record));;
      mret (record, payload)
  end.

(** The input a request is made of: the checkpoint's output and what came
    after it, or the input as it is. *)
Definition replay_input (e : environment) (current : option CheckpointSelection) (input : list jsval)
    : outcome handle_error (list jsval) :=
  match current with
  | None => Ret input
  | Some selection => checkpointPayload selection (e_branch e) (length (e_branch e))
  end.

(** [replayInput.slice(0, n)] for a count [n <= length]. *)
Definition aligned_baseline (baseline : option CodexContextUsageBaseline) (instructionsDigest : string)
    (replayInput : list jsval) : outcome handle_error (option (jsnum * jsnum)) :=
  match baseline with
  | None => Ret None
  | Some b =>
      match num_integer (b_inputItemCount b) with
      | Some n =>
          if String.eqb (b_instructionsDigest b) instructionsDigest &&
             (n <=? Z.of_nat (length replayInput))%Z then
            digest ← lift_guard (digestJson sha256Hex (VArr (take (Z.to_nat n) replayInput)));
            Ret (if String.eqb digest (b_inputDigest b)
                 then Some (b_totalTokens b, b_inputItemCount b) else None)
          else Ret None
      | None => Ret None
      end
  end.

Definition decision_tokens (current : option CheckpointSelection) (estimate : ContextEstimate) : jsnum :=
  match current with
  | None => num_max (activeContextTokens estimate) (fullEstimatedTokens estimate)
  | Some _ => activeContextTokens estimate
  end.

Definition decision_threshold (snapshot : EffectiveCapabilitySnapshot) (estimate : ContextEstimate)
    : option jsnum :=
  least_threshold [threshold (snap_compaction snapshot); est_autoCompactTokenLimit estimate;
                   Some (est_contextWindow estimate)].

Definition uncheckpointed (e : environment) (current : option CheckpointSelection) (input : list jsval)
    : outcome handle_error bool :=
  match current with
  | None => Ret (0 <? length input)%nat
  | Some selection =>
      suffix ← checkpointSuffix (e_branch e) (coveredIndex selection) (length (e_branch e));
      Ret (0 <? length suffix)%nat
  end.

(** [record.contextAccounting = {...}] and the approval of the payload. *)
Definition account_and_approve (e : environment) (gen : Z) (accounting : RecordContextAccounting)
    (payload : jsval) : handler jsval :=
  st_modify (λ s, match heap (h_guard s) !! gen with
    | None => s
    | Some r => with_guard (with_record gen {|
        rec_input := rec_input r; requestDigest := requestDigest r;
        contextAccounting := Some accounting; approvedRequest := approvedRequest r;
        approvedDigest := approvedDigest r; failure := failure r;
        rec_closed := rec_closed r |} (h_guard s)) s
    end);;
  on_guard (approve sha256Hex (e_current e) gen payload).

Definition accounting_of (generation : Z) (identity : CodexCompactionIdentity) (input : list jsval)
    (instructionsDigest : string) : outcome handle_error RecordContextAccounting :=
  digest ← lift_guard (digestJson sha256Hex (VArr input));
  Ret {| ca_generation := generation; ca_identity := identity;
         ca_inputItemCount := Z.of_nat (length input); ca_inputDigest := digest;
         ca_instructionsDigest := instructionsDigest |}.

(** What the decision is made on. *)
Record prepared := {
  pr_identity : CodexCompactionIdentity;
  pr_current : option CheckpointSelection;
  pr_input : list jsval;
  pr_replayInput : list jsval;
  pr_instructionsDigest : string;
  pr_config : CodexConfig;
  pr_snapshot : EffectiveCapabilitySnapshot;
  pr_generation : Z;
  pr_estimate : ContextEstimate }.

Definition prepare (e : environment) (gen : Z) (record : CodexProviderRequestRecord)
    (payload : list (string * jsval)) : handler prepared :=
  let sessionId := in_sessionId (rec_input record) in
  input ← st_lift (responseInput (field payload "input"));
  identity ← st_lift match identity_of e record with Some i => Ret i | None => Throw REPLAY_ERROR end;
  let scan := scanRemoteCompactionCheckpoints (e_branch e) identity in
  warn_mismatch scan sessionId identity;;
  replayInput ← st_lift (replay_input e (matching scan) input);
  instructions ← st_lift (responseInstructions (field payload "instructions"));
  instructionsDigest ← st_lift (lift_guard (digestJson sha256Hex (VStr instructions)));
  config ← st_lift (e_config e);
  require (e_healthy e);;
  snapshot ← st_lift (e_snapshot e);
  accounting ← on_store (Compaction.contextAccounting sessionId identity);
  baseline ← st_lift (aligned_baseline (snap_baseline accounting) instructionsDigest replayInput);
  estimate ← st_lift match e_estimate e with
    | None => Throw REPLAY_ERROR
    | Some estimate => estimate instructions replayInput baseline
    end;
  await_guard (e_during_estimate e);;
  live gen;;
  mret {| pr_identity := identity; pr_current := matching scan; pr_input := input;
          pr_replayInput := replayInput; pr_instructionsDigest := instructionsDigest;
          pr_config := config; pr_snapshot := snapshot;
          pr_generation := snap_generation accounting; pr_estimate := estimate |}.

(** The [try] block of a compaction. *)
Definition compact_and_approve (e : environment) (gen : Z) (record : CodexProviderRequestRecord)
    (payload : list (string * jsval)) (p : prepared) (token : jsval)
    : handler (jsval * option ProviderCheckpointProposal) :=
  let sessionId := in_sessionId (rec_input record) in
  coveredEntryId ← st_lift match e_leafId e with Some id => Ret id | None => Throw REPLAY_ERROR end;
  s ← st_get;
  await_guard (e_during_compact e);;
  s' ← st_get;
  '(proposal, output) ← st_lift (createRemoteCheckpointProposal
      (comp_implementation (snap_compaction (pr_snapshot p))) (identity_of e record) (e_compact e)
      (buildCompactRequest match record_model record with Some m => cm_id m | None => "" end
         (pr_replayInput p) payload (pr_snapshot p) (pr_config p) sessionId)
      (pr_replayInput p) coveredEntryId (e_checkpointId e) token
      (signal_aborted (in_signal (rec_input record)) (h_guard s))
      (signal_aborted (in_signal (rec_input record)) (h_guard s')));
  live gen;;
  require (bool_decide (e_leafId_after e = Some coveredEntryId) &&
           negb (signal_aborted (in_signal (rec_input record)) (h_guard s')));;
  on_store (λ store, (tt, invalidateContextAccounting sessionId store));;
  replacement ← on_store (Compaction.contextAccounting sessionId (pr_identity p));
  accounting ← st_lift (accounting_of (snap_generation replacement) (pr_identity p) output
                          (pr_instructionsDigest p));
  approved ← account_and_approve e gen accounting (rewritePayload payload output);
  mret (approved, Some proposal).

Definition isCompactionCancellation (err : handle_error) : bool :=
  match err with
  | AbortError => true
  | handle_message message => String.eqb message "Compaction cancelled"
  | _ => false
  end.

(** [try { ... } catch { outcome = ... } finally { coordinator.end(...) }]. *)
Definition finally_end {A} (sessionId : string) (signal : option signal_id) (m : handler A) : handler A := λ s,
  let '(r, s') := m s in
  let outcome := match r with
    | Ret _ => success
    | Throw err =>
        if signal_aborted signal (h_guard s') || isCompactionCancellation err then cancel else error
    end in
  (r, with_coordinator (end_ sessionId outcome (h_coordinator s')) s').

Definition decide_and_approve (e : environment) (gen : Z) (record : CodexProviderRequestRecord)
    (payload : list (string * jsval)) (p : prepared)
    : handler (jsval * option ProviderCheckpointProposal) :=
  let sessionId := in_sessionId (rec_input record) in
  let tokens := decision_tokens (pr_current p) (pr_estimate p) in
  hasUncheckpointedInput ← st_lift (uncheckpointed e (pr_current p) (pr_input p));
  s ← st_get;
  let shouldCompact := shouldCreateAutomaticCheckpoint
    (compaction_mode (compaction (codex (pr_config p)))) (Some tokens)
    (decision_threshold (pr_snapshot p) (pr_estimate p)) hasUncheckpointedInput
    (isBusy sessionId (h_coordinator s)) in
  let window := est_contextWindow (pr_estimate p) in
  require (negb (negb shouldCompact && num_ltb 0%Z window && num_geb tokens window));;
  if negb shouldCompact then
    accounting ← st_lift (accounting_of (pr_generation p) (pr_identity p) (pr_replayInput p)
                            (pr_instructionsDigest p));
    approved ← account_and_approve e gen accounting (rewritePayload payload (pr_replayInput p));
    mret (approved, None)
  else
    match e_token e with
    | None => st_lift (Throw CodexProviderContextWindowError)
    | Some token =>
        began ← (λ s, let '(b, c) := begin sessionId (h_coordinator s) in (Ret b, with_coordinator c s));
        require began;;
        finally_end sessionId (in_signal (rec_input record)) (compact_and_approve e gen record payload p token)
    end.

Definition handleBeforeProviderPayload (e : environment)
    : handler (jsval * option ProviderCheckpointProposal) :=
  match e_current e with
  | None =>
      if negb (e_isActive e (e_model e)) then mret (e_payload e, None)
      else st_lift (Throw REPLAY_ERROR)
  | Some gen =>
      '(record, payload) ← check_request e gen;
      if negb (bool_decide (e_origin e = VStr "agent")) then
        approved ← on_guard (approve sha256Hex (e_current e) gen (e_payload e));
        mret (approved, None)
      else
        p ← prepare e gen record payload;
        decide_and_approve e gen record payload p
  end.

(** The registered hook: a failure is recorded on the current record, and a
    request that needs a checkpoint it cannot make goes on unapproved. *)
Definition codexCompactionReplay (e : environment) : handler (jsval * option ProviderCheckpointProposal) :=
  λ s, match handleBeforeProviderPayload e s with
  | (Ret r, s') => (Ret r, s')
  | (Throw err, s') =>
      match e_current e with
      | None => (Throw err, s')
      | Some gen =>
          let cause := match err with
            | CodexProviderContextWindowError => VStr "CodexProviderContextWindowError"
            | _ => VStr "Error" end in
          let '(r, g) := recordFailure (e_current e) gen cause (h_guard s') in
          match r, err with
          | Throw e', _ => (Throw (guard_error e'), with_guard g s')
          | Ret _, CodexProviderContextWindowError => (Ret (e_payload e, None), with_guard g s')
          | Ret _, _ => (Throw err, with_guard g s')
          end
      end
  end.

End replay.
