(* ===== verification/ReplayFacts.v ===== *)
(** * ReplayFacts

    The scan finds the newest usable checkpoint, and the contract of the
    replay handler: what it returns has been approved for its record, a new
    checkpoint is the one the request is rebuilt from, and the coordinator is
    released on every path. *)

From S2P Require Import Prelude StructuredJson Config Compaction Capability EffectiveCapabilities.
From S2P Require Import Json Normalization ResponseStream ResponseItems Credentials RequestGuard RequestGuardFacts Replay.

(** ** The scan *)

(** A checkpoint the scan may use: of the identity, and covering an entry
    before its own. *)
Definition usable (branch : list SessionEntry) (ident : CodexCompactionIdentity) (limit i : nat)
    (covered : nat) (cp : CodexRemoteCompactionCheckpointV1) : Prop :=
  (∃ e, branch !! i = Some e ∧ entry_checkpoint e = Some cp) ∧
  sameIdentity (cp_identity cp) ident = true ∧
  find_entry (coveredEntryId cp) branch = Some covered ∧ covered < i ∧ covered < limit.

Lemma scan_from_spec n branch ident limit mismatch :
  match matching (scan_from n branch ident limit mismatch) with
  | Some sel =>
      entryIndex sel < n ∧ usable branch ident limit (entryIndex sel) (coveredIndex sel) (sel_checkpoint sel) ∧
      (∀ i covered cp, entryIndex sel < i < n → ¬ usable branch ident limit i covered cp)
  | None => ∀ i covered cp, i < n → ¬ usable branch ident limit i covered cp
  end.
Proof.
  revert mismatch; induction n as [|n IH]; intros mismatch; simpl; [intros; lia|].
  assert (Hskip : ∀ mm, (∀ covered cp, ¬ usable branch ident limit n covered cp) →
    match matching (scan_from n branch ident limit mm) with
    | Some sel =>
        entryIndex sel < S n ∧ usable branch ident limit (entryIndex sel) (coveredIndex sel) (sel_checkpoint sel) ∧
        (∀ i covered cp, entryIndex sel < i < S n → ¬ usable branch ident limit i covered cp)
    | None => ∀ i covered cp, i < S n → ¬ usable branch ident limit i covered cp
    end).
  { intros mm Hn. specialize (IH mm). destruct (matching _) as [sel|].
    - destruct IH as (? & ? & Hnew). split_and!; [lia|done|]. intros i covered cp Hi.
      destruct (decide (i = n)) as [->|]; [apply Hn|apply Hnew; lia].
    - intros i covered cp Hi. destruct (decide (i = n)) as [->|]; [apply Hn|apply IH; lia]. }
  destruct (branch !! n) as [e|] eqn:He; last first.
  { apply Hskip. intros covered cp ((e & He' & _) & _). congruence. }
  destruct (entry_checkpoint e) as [cp|] eqn:Hcp; last first.
  { apply Hskip. intros covered cp ((e' & He' & ?) & _). congruence. }
  destruct (sameIdentity (cp_identity cp) ident) eqn:Hid; last first.
  { apply Hskip. intros covered cp' ((e' & He' & ?) & ? & _). congruence. }
  destruct (find_entry (coveredEntryId cp) branch) as [covered|] eqn:Hf; last first.
  { apply Hskip. intros covered cp' ((e' & He' & ?) & _ & Hf' & _). congruence. }
  destruct ((n <=? covered) || (limit <=? covered)) eqn:Hle; simpl.
  { apply Hskip. intros covered' cp' ((e' & He' & Hcp') & _ & Hf' & ? & ?).
    assert (cp' = cp) as -> by congruence. assert (covered' = covered) as -> by congruence.
    apply orb_true_iff in Hle as [?%Nat.leb_le|?%Nat.leb_le]; lia. }
  apply orb_false_iff in Hle as [?%Nat.leb_gt ?%Nat.leb_gt].
  split_and!; [lia| |intros; lia]. split; [by exists e|]. by split_and!.
Qed.

(** ** Steps *)

Lemma swp_on_store {A} f (Q : outcome handle_error A → handler_state → Prop) s :
  (∀ a st, f (h_store s) = (a, st) → Q (Ret a) (with_store st s)) → swp (on_store f) Q s.
Proof. unfold swp, on_store. destruct (f (h_store s)) as [a st]. auto. Qed.
Lemma swp_on_guard {A} f (Q : outcome handle_error A → handler_state → Prop) s :
  (∀ r g, f (h_guard s) = (r, g) → Q (lift_guard r) (with_guard g s)) → swp (on_guard f) Q s.
Proof. unfold swp, on_guard. destruct (f (h_guard s)) as [r g]. auto. Qed.
Lemma swp_require b (Q : outcome handle_error unit → handler_state → Prop) s :
  (b = true → Q (Ret tt) s) → (b = false → Q (Throw REPLAY_ERROR) s) → swp (require b) Q s.
Proof. unfold swp, require. destruct b; simpl; auto. Qed.

Definition on_coordinator (c : coordinator) (s : handler_state) : Prop := h_coordinator s = c.

Lemma keeps_on_guard {A} c (f : CodexProviderRequestGuard → outcome GuardError A * CodexProviderRequestGuard) :
  preserves (on_coordinator c) (on_guard f).
Proof. intros s Hs. unfold on_guard. by destruct (f (h_guard s)). Qed.

Lemma keeps_on_store {A} c (f : CodexCompactionStore → A * CodexCompactionStore) :
  preserves (on_coordinator c) (on_store f).
Proof. intros s Hs. unfold on_store. by destruct (f (h_store s)). Qed.

Lemma keeps_modify c (f : handler_state → handler_state) :
  (∀ s, h_coordinator (f s) = h_coordinator s) →
  preserves (E := handle_error) (on_coordinator c) (st_modify f).
Proof. intros Hf s Hs. unfold on_coordinator. simpl. by rewrite Hf. Qed.

Lemma keeps_get c : preserves (E := handle_error) (on_coordinator c) st_get.
Proof. by intros s. Qed.

(** Every statement of a handler without a coordinator call keeps it. *)
Ltac keeps_step :=
  first
    [ apply preserves_bind; [|intros ?] | apply preserves_lift | apply preserves_ret
    | apply keeps_on_guard | apply keeps_on_store | apply keeps_get
    | apply keeps_modify; intros ?; done
    | match goal with |- preserves _ (match ?x with _ => _ end) => destruct x end ].
Ltac keeps := unfold require; repeat keeps_step.

Section replay.
Context `{JsonText} (sha256Hex : string → string).
Context (sessionEntryToContextMessages : SessionEntry → list jsval).
Context (convertToLlm : list jsval → list jsval).

Lemma keeps_check_request c e gen : preserves (on_coordinator c) (check_request sha256Hex e gen).
Proof.
  unfold check_request, live, refreshBoundaryForRequest, warn_mismatch, warnInactiveIdentity. keeps.
Qed.

Lemma keeps_prepare c e gen record payload :
  preserves (on_coordinator c) (prepare sha256Hex sessionEntryToContextMessages convertToLlm e gen record payload).
Proof. unfold prepare, warn_mismatch, await_guard, live. keeps. Qed.

Lemma keeps_account c e gen accounting payload :
  preserves (on_coordinator c) (account_and_approve sha256Hex e gen accounting payload).
Proof.
  unfold account_and_approve. keeps. apply keeps_modify. intros s. by destruct (heap (h_guard s) !! gen).
Qed.

Lemma keeps_compact c e gen record payload p token :
  preserves (on_coordinator c) (compact_and_approve sha256Hex e gen record payload p token).
Proof.
  unfold compact_and_approve, await_guard, live, require.
  repeat first [apply keeps_account | keeps_step].
Qed.

(** ** Approval *)

(** The payload stands approved for the record, and dispatching exactly it is
    allowed unless a failure has been recorded. *)
Definition approved_for (gen : Z) (payload : jsval) (g : CodexProviderRequestGuard) : Prop :=
  ∃ r, heap g !! gen = Some r ∧ approvedRequest r = Some payload ∧
       (failure r = None → assertApproved sha256Hex gen payload g = Ret payload).

Lemma approve_approves cur gen payload g r g' fs :
  as_record payload = Some fs → approve sha256Hex cur gen payload g = (Ret r, g') →
  r = payload ∧ approved_for gen payload g'.
Proof.
  intros Hfs. unfold approve. destruct (live_record gen g) as [r0|] eqn:Hr; [|done].
  apply live_record_ret in Hr as [Hl Hr]. destruct (negb _); [done|].
  destruct (digestJson sha256Hex payload) as [d|] eqn:Hd; [|done]. intros [= <- <-].
  split; [done|]. set (r1 := with_approval payload (Some d) r0).
  assert (Hg : heap (with_record gen r1 g) !! gen = Some r1) by (simpl; by rewrite lookup_insert_eq).
  assert (Hl' : assertLive gen (with_record gen r1 g) = true).
  { apply assertLive_iff in Hl as (r' & Hr' & Hrest). assert (r' = r0) as -> by congruence.
    apply assertLive_iff. by exists r1. }
  exists r1. split_and!; [done|done|]. intros Hf. unfold assertApproved, live_record.
  rewrite Hl', Hg. simpl. simpl in Hf. rewrite Hf, Hfs, Hd. simpl. by rewrite String.eqb_refl.
Qed.

Lemma account_approves e gen accounting payload fs s :
  as_record payload = Some fs →
  swp (account_and_approve sha256Hex e gen accounting payload)
    (λ r s', match r with Ret a => a = payload ∧ approved_for gen payload (h_guard s') | Throw _ => True end) s.
Proof.
  intros Hfs. unfold account_and_approve. apply swp_bind, swp_modify, swp_on_guard.
  intros r g Ha. destruct r as [r|]; simpl; [|done]. by eapply approve_approves.
Qed.

(** ** The checkpoint *)

(** What a request rebuilt from a new checkpoint is: the checkpoint is the
    validated answer, of the record's identity, covering the leaf of the
    session, and the request's input is its output. *)
Definition checkpoint_request (e : environment) (record : CodexProviderRequestRecord)
    (payload0 : list (string * jsval)) (payload : jsval) (proposal : ProviderCheckpointProposal) : Prop :=
  let cp := proposal_checkpoint proposal in
  valid_checkpoint cp ∧ identity_of sha256Hex e record = Some (cp_identity cp) ∧
  e_leafId e = Some (coveredEntryId cp) ∧ e_leafId_after e = Some (coveredEntryId cp) ∧
  payload = rewritePayload payload0 (cp_output cp).

Lemma binding_same b b' : validateAuthenticationBinding (binding_value b) = Ret b' → b' = b.
Proof.
  unfold validateAuthenticationBinding. cbn [as_record binding_value].
  rewrite hasExactKeys_refl by done. cbn [negb].
  destruct (literal_of _ _) as [k|] eqn:Hk; [|done].
  apply binding_kind_iff in Hk. intros Hb. apply bind_ret_iff in Hb as (fp & Hfp & [= <-]).
  apply requireText_iff in Hfp as [Hfp _]. cbn in Hk, Hfp. destruct b as [kind fp'].
  simplify_eq/=. f_equal. by apply (inj literal_name).
Qed.

Lemma identity_same i i' : validateIdentity (VObj (identity_fields i)) = Ret i' → i' = i.
Proof.
  unfold validateIdentity. cbn [as_record identity_fields field String.eqb Ascii.eqb Bool.eqb].
  rewrite !bind_ret_iff. repeat setoid_rewrite bind_ret_iff. setoid_rewrite requireText_iff.
  intros (? & [[= ?] _] & ? & [[= ?] _] & ? & [[= ?] _] & ? & [[= ?] _] & ? & [[= ?] _] & b & Hb & [= <-]).
  apply binding_same in Hb as ->. subst. by destruct i.
Qed.

(** The proposal the native answer is turned into. *)
Lemma proposal_is_checkpoint impl ident compact request input covered uuid token b1 b2 proposal out :
  createRemoteCheckpointProposal impl ident compact request input covered uuid token b1 b2 =
    Ret (proposal, out) →
  let cp := proposal_checkpoint proposal in
  valid_checkpoint cp ∧ ident = Some (cp_identity cp) ∧ coveredEntryId cp = covered ∧ cp_output cp = out.
Proof.
  unfold createRemoteCheckpointProposal. destruct impl as [impl|]; [|done]. destruct b1; [done|].
  intros Hp. apply bind_ret_iff in Hp as (answer & _ & Hp). destruct (_ || _); [done|].
  destruct (negb _); [done|]. apply bind_ret_iff in Hp as (o & Ho & Hp).
  destruct ident as [i|]; [|done]. apply bind_ret_iff in Hp as (cp & Hcp & [= <- <-]).
  unfold lift_message in Hcp. destruct (createRemoteCompactionCheckpoint _ _ _ _ _ _ _) as [c|] eqn:Hc; [|done].
  injection Hcp as <-. cbn. split; [by eapply create_valid|].
  unfold createRemoteCompactionCheckpoint in Hc. destruct (literal_of _ _); [|done].
  apply bind_ret_iff in Hc as (i' & Hi & Hc). apply identity_same in Hi as ->.
  apply bind_ret_iff in Hc as (c' & _ & Hc). apply bind_ret_iff in Hc as (e' & He & Hc).
  apply requireText_iff in He as [[= ->] _]. apply bind_ret_iff in Hc as (o' & Ho' & Hc).
  apply validateCompactionOutput_iff in Ho' as [[= ->] _].
  apply bind_ret_iff in Hc as (t & _ & Hc). by apply bind_ret_iff in Hc as (u & _ & [= <-]).
Qed.

(** The request a compaction gives is approved and is its checkpoint's. *)
Lemma compact_contract e gen record payload p token s :
  swp (compact_and_approve sha256Hex e gen record payload p token)
    (λ r s', match r with
       | Ret (a, proposal) => approved_for gen a (h_guard s') ∧
           ∃ pr, proposal = Some pr ∧ checkpoint_request e record payload a pr
       | Throw _ => True
       end) s.
Proof.
  unfold compact_and_approve. apply swp_bind, swp_lift.
  destruct (e_leafId e) as [covered|] eqn:Hleaf; [|done].
  apply swp_bind, swp_get, swp_bind, swp_modify, swp_bind, swp_get, swp_bind, swp_lift.
  destruct (createRemoteCheckpointProposal _ _ _ _ _ _ _ _ _ _) as [[pr out]|] eqn:Hp; [|done].
  apply proposal_is_checkpoint in Hp as (Hv & Hid & Hcov & Hout).
  apply swp_bind, swp_on_guard. intros [r1|] g1 _; [|done].
  apply swp_bind, swp_require; [|done]. intros [Hafter%bool_decide_eq_true _]%andb_true_iff.
  apply swp_bind, swp_on_store. intros _ st1 _. apply swp_bind, swp_on_store. intros snap st2 _.
  apply swp_bind, swp_lift. destruct (accounting_of _ _ _ _ _) as [acc|]; [|done].
  apply swp_bind. eapply swp_mono; [by apply (account_approves _ _ _ _ (set_field payload "input" (VArr out)))|].
  intros [a|] s' Ha; [|done]. destruct Ha as [-> Ha]. apply swp_ret. split; [done|].
  exists pr. split; [done|]. unfold checkpoint_request. rewrite Hcov, Hout. by split_and!.
Qed.

(** ** The handler *)

(** The coordinator as a handler leaves it: nobody's phase is busy because of it. *)
Definition released_as (c : coordinator) (s : handler_state) : Prop :=
  ∀ id, isBusy id (h_coordinator s) = isBusy id c.

Lemma isBusy_end id id' o c : isBusy id (end_ id' o c) = if decide (id = id') then false else isBusy id c.
Proof.
  unfold isBusy, end_. destruct (decide (id = id')) as [->|].
  - by rewrite lookup_insert_eq.
  - by rewrite lookup_insert_ne.
Qed.

(** What a handled request is: approved as it is returned, and with a new
    checkpoint only the checkpoint's own request. *)
Definition handled (e : environment) (gen : Z) (r : jsval * option ProviderCheckpointProposal)
    (s : handler_state) : Prop :=
  approved_for gen r.1 (h_guard s) ∧
  ∀ pr, r.2 = Some pr → ∃ record payload0,
    as_record (e_payload e) = Some payload0 ∧ checkpoint_request e record payload0 r.1 pr.

Lemma decide_contract e gen record payload p s :
  as_record (e_payload e) = Some payload →
  swp (decide_and_approve sha256Hex sessionEntryToContextMessages convertToLlm e gen record payload p)
    (λ r s', released_as (h_coordinator s) s' ∧
       match r with Ret r => handled e gen r s' | Throw _ => True end) s.
Proof.
  intros Hpay. unfold decide_and_approve. apply swp_bind, swp_lift.
  destruct (uncheckpointed _ _ _ _ _) as [hu|]; [|done].
  apply swp_bind, swp_get. set (should := shouldCreateAutomaticCheckpoint _ _ _ _ _).
  apply swp_bind, swp_require; [|done]. intros _. destruct should; simpl.
  - destruct (e_token e) as [token|]; [|by apply swp_lift].
    apply swp_bind. unfold swp at 1. unfold begin.
    destruct (isBusy (in_sessionId (rec_input record)) (h_coordinator s)) eqn:Hbusy; simpl.
    { apply swp_bind. by apply swp_require. }
    apply swp_bind, swp_require; [|done]. intros _.
    set (s1 := with_coordinator _ s). unfold swp, finally_end.
    pose proof (keeps_compact (h_coordinator s1) e gen record payload p token s1 eq_refl) as Hk.
    pose proof (compact_contract e gen record payload p token s1) as Hc. unfold swp in Hc.
    destruct (compact_and_approve _ _ _ _ _ _ _ _) as [r s2]. simpl in Hk. split.
    + intros id. simpl. rewrite isBusy_end, Hk. destruct (decide _) as [->|Hne]; [by rewrite Hbusy|].
      unfold isBusy. simpl. by rewrite lookup_insert_ne.
    + destruct r as [[a pr]|]; [|done]. destruct Hc as [Ha (pr' & -> & Hreq)].
      split; [done|]. simpl. intros pr [= <-]. by exists record, payload.
  - apply swp_bind, swp_lift. destruct (accounting_of _ _ _ _ _) as [acc|]; [|done].
    apply swp_bind.
    pose proof (keeps_account (h_coordinator s) e gen acc
      (rewritePayload payload (pr_replayInput p)) s eq_refl) as Hk.
    pose proof (account_approves e gen acc (rewritePayload payload (pr_replayInput p)) _ s eq_refl) as Ha.
    unfold swp in *. destruct (account_and_approve _ _ _ _ _ _) as [[a|] s2]; simpl in *.
    + destruct Ha as [-> Ha]. split; [intros id; by rewrite Hk|]. by split.
    + split; [intros id; by rewrite Hk|done].
Qed.

(** A step about which only its effect on the coordinator matters. *)
Lemma swp_keeps {A} (m : handler A) Q s :
  (∀ c, preserves (on_coordinator c) m) →
  (∀ r s', h_coordinator s' = h_coordinator s → Q r s') → swp m Q s.
Proof.
  intros Hm HQ. unfold swp. specialize (Hm (h_coordinator s) s eq_refl). destruct (m s). by apply HQ.
Qed.

Lemma check_request_payload e gen s :
  swp (check_request sha256Hex e gen)
    (λ r s', h_coordinator s' = h_coordinator s ∧
       match r with Ret (_, payload) => as_record (e_payload e) = Some payload | Throw _ => True end) s.
Proof.
  assert (Hp : swp (check_request sha256Hex e gen)
    (λ r _, ∀ b, r = Ret b → as_record (e_payload e) = Some b.2) s).
  { unfold check_request. repeat (apply swp_bind_result; intros ? ?).
    destruct (as_record (e_payload e)); [|done].
    repeat (apply swp_bind_result; intros ? ?). apply swp_ret. by intros _ [= <-]. }
  pose proof (keeps_check_request (h_coordinator s) e gen s eq_refl) as Hk. unfold swp in *.
  destruct (check_request sha256Hex e gen s) as [[[record payload]|] s']; split; try done.
  by apply (Hp (record, payload)).
Qed.

Lemma handler_contract e s :
  swp (handleBeforeProviderPayload sha256Hex sessionEntryToContextMessages convertToLlm e)
    (λ r s', released_as (h_coordinator s) s' ∧
       match r, e_current e with Ret r, Some gen => handled e gen r s' | _, _ => True end) s.
Proof.
  unfold handleBeforeProviderPayload. destruct (e_current e) as [gen|] eqn:Hcur; last first.
  { destruct (negb _); by split. }
  apply swp_bind. eapply swp_mono; [apply check_request_payload|].
  intros [[record payload]|err] s1 [Hc Hpay]; [|by split; [intros id; rewrite Hc|]].
  destruct (negb (bool_decide (e_origin e = VStr "agent"))).
  - apply swp_bind, swp_on_guard. intros r g Ha. destruct r as [r|]; simpl.
    + apply swp_ret. split; [by intros id; simpl; rewrite Hc|].
      apply (approve_approves _ _ _ _ _ _ payload) in Ha as [-> Ha]; [|done]. by split.
    + by split; [intros id; simpl; rewrite Hc|].
  - apply swp_bind, swp_keeps; [intros c; apply keeps_prepare|]. intros [p|err] s2 Hc2.
    + eapply swp_mono; [by apply decide_contract|]. intros r s3 [Hrel Hr].
      split; [intros id; rewrite Hrel; congruence|done].
    + by split; [intros id; rewrite Hc2, Hc|].
Qed.
(** C3: The contract of the replay handler, on every path of it: the phase
    coordinator is left as it was found, success or failure, and a payload
    returned for a request in scope stands approved for that request, so that
    dispatching exactly it passes the guard unless a failure is on record.
    When the handler proposes a new checkpoint, the checkpoint is valid, has
    the identity of the request, covers the leaf of the session, which did
    not move while the compaction ran, and the approved request is the
    original one with the checkpoint's output as its input. *)
Theorem replay_contract e s :
  let '(r, s') := handleBeforeProviderPayload sha256Hex sessionEntryToContextMessages convertToLlm e s in
  released_as (h_coordinator s) s' ∧
  match r, e_current e with Ret r, Some gen => handled e gen r s' | _, _ => True end.
Proof. pose proof (handler_contract e s) as Hh. unfold swp in Hh. by destruct (handleBeforeProviderPayload _ _ _ _ _). Qed.
End replay.
