(* ===== verification/Connection.v ===== *)
(** * Connection

    [src/src/integration/pi/provider-connection.ts]: the connection details a
    provider request is sent with, made of the model and the request options.

    [new URL] and [url.toString()] are members of the class [UrlApi].  A
    header map is the list of its entries in insertion order, its names
    pairwise different. *)

From S2P Require Import Prelude Json ConfigStore Credentials.

Definition MAX_HEADER_COUNT : nat := 128.
Definition MAX_HEADER_NAME_LENGTH : nat := 256.
Definition MAX_HEADER_VALUE_LENGTH : N := (1024 * 1024)%N.
Definition MAX_ACCOUNT_ID_LENGTH : nat := 256.
Definition MAX_RETRIES : Z := 10.
Definition MAX_TIMEOUT_MS : Z := 24 * 60 * 60 * 1000.
Definition PI_DISABLED_IDLE_TIMEOUT_MS : Z := 2147483647.

Definition ACCOUNT_ID_HEADER : string := "chatgpt-account-id".
Definition AUTHORIZATION_HEADER : string := "authorization".

(** ** URLs *)

Record Url := {
  protocol : string; hostname : string; username : string; password : string;
  hash : string; search : string; pathname : string }.

Class UrlApi := {
  parse_url : string → option Url;
  url_to_string : Url → string }.

Definition with_pathname (path : string) (u : Url) : Url :=
  {| protocol := protocol u; hostname := hostname u; username := username u;
     password := password u; hash := hash u; search := search u; pathname := path |}.

(** [s.endsWith(suffix)], and a text without its trailing slashes: all of
    them ([replace(/\/+$/, "")]) or at most one ([replace(/\/$/, "")]). *)
Fixpoint ends_with (suffix s : string) : bool :=
  String.eqb s suffix || match s with EmptyString => false | String _ s => ends_with suffix s end.

Fixpoint trim_slashes (s : string) : string :=
  match s with
  | EmptyString => EmptyString
  | String c s =>
      match trim_slashes s with
      | EmptyString => if Ascii.eqb c "/" then EmptyString else String c EmptyString
      | t => String c t
      end
  end.

Fixpoint drop_slash (s : string) : string :=
  match s with
  | EmptyString => EmptyString
  | String c EmptyString => if Ascii.eqb c "/" then EmptyString else String c EmptyString
  | String c s => String c (drop_slash s)
  end.

Definition has_line_break (s : string) : bool := str_exists is_line_break s.
Definition longer_than (n : N) (s : string) : bool := (n <? N.of_nat (String.length s))%N.

Definition validateProviderId (value : string) : outcome string string :=
  if (String.length value =? 0)%nat || (256 <? String.length value)%nat ||
     negb (String.eqb value (trim value)) || has_line_break value
  then Throw "Provider id is invalid" else Ret value.

Section url.
Context `{UrlApi}.

Definition normalizeBaseUrl (value : string) : outcome string string :=
  match parse_url value with
  | None => Throw "Provider base URL is invalid"
  | Some url =>
      if (negb (String.eqb (protocol url) "https:") && negb (String.eqb (protocol url) "http:")) ||
         (String.length (hostname url) =? 0)%nat || (0 <? String.length (username url))%nat ||
         (0 <? String.length (password url))%nat || (0 <? String.length (hash url))%nat ||
         (0 <? String.length (search url))%nat
      then Throw "Provider base URL is invalid" else
      let path := trim_slashes (pathname url) in
      if String.eqb path "/responses" || ends_with "/responses" path
      then Throw "Provider base URL must be an API root" else
      let url :=
        if String.eqb (protocol url) "https:" &&
           (String.eqb (hostname url) "chatgpt.com" || String.eqb (hostname url) "chat.openai.com") &&
           String.eqb path "/backend-api"
        then with_pathname "/backend-api/codex" url else url in
      Ret (drop_slash (url_to_string url))
  end.
End url.

(** ** Headers *)

Abbreviation header_map := (list (string * string)) (only parsing).

Definition same_name (a b : string) : bool := String.eqb (to_lower a) (to_lower b).

(** [/[!#$%&'*+\-.^_`|~0-9A-Za-z]/] *)
Definition is_token_unit (c : ascii) : bool :=
  let n := unit_of c in
  bool_decide (48 ≤ n ∧ n ≤ 57)%N || bool_decide (65 ≤ n ∧ n ≤ 90)%N || bool_decide (97 ≤ n ∧ n ≤ 122)%N ||
  existsb (N.eqb n) [33; 35; 36; 37; 38; 39; 42; 43; 45; 46; 94; 95; 96; 124; 126]%N.

Definition validateHeaderName (name : string) : outcome string unit :=
  if (String.length name =? 0)%nat || (MAX_HEADER_NAME_LENGTH <? String.length name)%nat ||
     negb (str_forall is_token_unit name)
  then Throw "Provider headers are invalid" else Ret tt.

Definition removeHeader (headers : header_map) (name : string) : header_map :=
  filter (λ kv, same_name kv.1 name = false) headers.

Record NormalizedHeaders := { values : header_map; suppressed : list string }.

(** One entry of the input; [None] is [null]. *)
Definition normalize_header (entry : string * option string) (h : NormalizedHeaders)
    : outcome string NormalizedHeaders :=
  let '(name, rawValue) := entry in
  validateHeaderName name;;
  let normalizedName := to_lower name in
  match rawValue with
  | None => Ret {| values := removeHeader (values h) name;
                   suppressed := normalizedName :: suppressed h |}
  | Some value =>
      if longer_than MAX_HEADER_VALUE_LENGTH value || has_line_break value
      then Throw "Provider headers are invalid" else
      Ret {| values := removeHeader (values h) name ++ [(name, value)];
             suppressed := filter (.≠ normalizedName) (suppressed h) |}
  end.

Fixpoint normalize_headers (entries : list (string * option string)) (h : NormalizedHeaders)
    : outcome string NormalizedHeaders :=
  match entries with
  | [] => Ret h
  | e :: entries => h ← normalize_header e h; normalize_headers entries h
  end.

Definition normalizeHeaders (input : option (list (string * option string)))
    : outcome string NormalizedHeaders :=
  match input with
  | None => Ret {| values := []; suppressed := [] |}
  | Some entries =>
      if (MAX_HEADER_COUNT <? length entries)%nat then Throw "Provider headers are invalid"
      else normalize_headers entries {| values := []; suppressed := [] |}
  end.

(** The first header of a (lower case) name, taken out of the map. *)
Fixpoint takeHeader (headers : header_map) (name : string) : option (string * string) * header_map :=
  match headers with
  | [] => (None, [])
  | (key, value) :: headers =>
      if String.eqb (to_lower key) name then (Some (key, value), headers)
      else let '(r, headers) := takeHeader headers name in (r, (key, value) :: headers)
  end.

(** [s.slice(n)]. *)
Fixpoint slice_from (n : nat) (s : string) : string :=
  match n, s with S n, String _ s => slice_from n s | _, _ => s end.
#[global] Arguments slice_from : simpl never.

Definition is_bearer (value : string) : bool := starts_with "bearer " (to_lower (trim value)).

(** [Some token] is a bearer authentication, [None] the kind [none]. *)
Definition resolveAuthentication (authorization : option (string * string))
    (authorizationSuppressed : bool) (apiKey : option string) : outcome string (option string) :=
  match authorization with
  | Some (_, value) =>
      if is_bearer value then
        let token := trim (slice_from (String.length "bearer ") (trim value)) in
        if (String.length token =? 0)%nat then Throw "Authorization header is invalid"
        else Ret (Some token)
      else Ret None
  | None =>
      if authorizationSuppressed then Ret None else
      match apiKey with
      | None => Ret None
      | Some key =>
          if (String.length key =? 0)%nat then Ret None
          else if has_line_break key || longer_than MAX_HEADER_VALUE_LENGTH key
          then Throw "Provider credential is invalid" else Ret (Some key)
      end
  end.

Definition optionalNumber (value : option jsnum) (minimum maximum : Z)
    : outcome string (option jsnum) :=
  match value with
  | None => Ret None
  | Some v =>
      if negb (is_safe_integer v) || num_ltb v minimum || num_gtb v maximum
      then Throw "Provider request settings are invalid" else Ret (Some v)
  end.

Definition optionalTimeoutMs (value : option jsnum) : outcome string (option jsnum) :=
  match value with
  | None => Ret None
  | Some v =>
      if num_eqb v PI_DISABLED_IDLE_TIMEOUT_MS then Ret (Some (num_of_Z PI_DISABLED_IDLE_TIMEOUT_MS))
      else optionalNumber value 1 MAX_TIMEOUT_MS
  end.

(** ** The connection *)

Record ConnectionOptions := {
  apiKey : option string;
  opt_headers : option (list (string * option string));
  opt_maxRetries : option jsnum;
  opt_timeoutMs : option jsnum;
  opt_websocketConnectTimeoutMs : option jsnum }.

Record CodexProviderConnection := {
  details : ProviderConnectionDetails;
  headers : header_map;
  maxRetries : option jsnum;
  timeoutMs : option jsnum;
  websocketConnectTimeoutMs : option jsnum }.

(** [map.set(name, value)] of a new name, as the code does it. *)
Definition set_header (name value : string) (m : header_map) : header_map :=
  if bool_decide (name ∈ m.*1)
  then (λ kv, if String.eqb kv.1 name then (name, value) else kv) <$> m
  else m ++ [(name, value)].

Section connection.
Context `{JsonText} `{UrlApi}.

Definition account_id (explicit : option (string * string)) (accountSuppressed : bool)
    (authentication : option string) : option string :=
  match explicit with
  | Some (_, value) => if (0 <? String.length value)%nat then Some value else None
  | None =>
      if accountSuppressed then None else
      token ← authentication; extractAccountId token
  end.

Definition createProviderConnection (provider modelBaseUrl : string) (options : ConnectionOptions)
    : outcome string CodexProviderConnection :=
  providerId ← validateProviderId provider;
  baseUrl ← normalizeBaseUrl modelBaseUrl;
  normalized ← normalizeHeaders (opt_headers options);
  let '(authorization, source) := takeHeader (values normalized) AUTHORIZATION_HEADER in
  let '(explicitAccountId, source) := takeHeader source ACCOUNT_ID_HEADER in
  authentication ← resolveAuthentication authorization
    (js_elem AUTHORIZATION_HEADER (suppressed normalized)) (apiKey options);
  let accountId := account_id explicitAccountId
    (js_elem ACCOUNT_ID_HEADER (suppressed normalized)) authentication in
  if match accountId with Some a => (MAX_ACCOUNT_ID_LENGTH <? String.length a)%nat | None => false end
  then Throw "Provider account id is invalid" else
  if String.eqb providerId "openai-codex" && bool_decide (authentication = None) &&
     bool_decide (authorization = None)
  then Throw "Provider credentials are unavailable" else
  let source := match authorization with
    | Some (name, value) => if is_bearer value then source else set_header name value source
    | None => source end in
  maxRetries ← optionalNumber (opt_maxRetries options) 0 MAX_RETRIES;
  timeoutMs ← optionalTimeoutMs (opt_timeoutMs options);
  websocketConnectTimeoutMs ← optionalNumber (opt_websocketConnectTimeoutMs options) 1 MAX_TIMEOUT_MS;
  Ret {| details := {| conn_providerId := providerId; conn_baseUrl := baseUrl;
                       conn_authentication := authentication; conn_accountId := accountId;
                       conn_accountIdSource := (λ _, source_header) <$> explicitAccountId |};
         headers := source; maxRetries := maxRetries; timeoutMs := timeoutMs;
         websocketConnectTimeoutMs := websocketConnectTimeoutMs |}.

(** The model of a context, and what the registry says of its credentials:
    [None] is [{ ok: false }]. *)
Record PiModel := { pm_provider : string; pm_api : string; pm_baseUrl : string }.

Definition activation_model (m : PiModel) : ProviderActivationModel :=
  {| am_provider := pm_provider m; am_api := pm_api m |}.

Definition assertProviderActive (model : option PiModel) (selected : list string)
    (inactiveMessage : string) : outcome string unit :=
  if isActive (activation_model <$> model) selected then Ret tt else Throw inactiveMessage.

Definition resolveProviderConnection (model : option PiModel) (selected : list string)
    (inactiveMessage : string)
    (getApiKeyAndHeaders : PiModel → option (option string * option (list (string * option string))))
    : outcome string CodexProviderConnection :=
  assertProviderActive model selected inactiveMessage;;
  match model with
  | None => Throw "Provider connection requires an active model"
  | Some m =>
      match getApiKeyAndHeaders m with
      | None => Throw "Provider authentication is unavailable"
      | Some (key, hs) =>
          createProviderConnection (pm_provider m) (pm_baseUrl m)
            {| apiKey := key; opt_headers := hs; opt_maxRetries := None; opt_timeoutMs := None;
               opt_websocketConnectTimeoutMs := None |}
      end
  end.
End connection.

(** * Connection: facts

    What every connection made from a model and request options satisfies:
    the headers are well formed and carry neither the account nor a bearer
    credential, and the numbers are within their bounds. *)

(** ** Header maps *)

Lemma sublist_fmap {A B} (f : A → B) l l' : sublist l l' → sublist (f <$> l) (f <$> l').
Proof. induction 1; simpl; by constructor. Qed.
Lemma sublist_filter {A} (P : A → Prop) `{!∀ x, Decision (P x)} l : sublist (filter P l) l.
Proof.
  induction l as [|x l IH]; [done|]. rewrite filter_cons. case_decide; by constructor.
Qed.

Definition lower_names (m : header_map) : list string := (λ kv, to_lower kv.1) <$> m.

(** No two names are equal up to case, and no value can end a header line. *)
Definition headers_ok (m : header_map) : Prop :=
  NoDup (lower_names m) ∧
  Forall (λ kv, validateHeaderName kv.1 = Ret tt ∧ has_line_break kv.2 = false ∧
                longer_than MAX_HEADER_VALUE_LENGTH kv.2 = false) m.

Lemma same_name_iff a b : same_name a b = true ↔ to_lower a = to_lower b.
Proof. apply String.eqb_eq. Qed.

Lemma headers_ok_sublist m m' : sublist m' m → headers_ok m → headers_ok m'.
Proof.
  intros Hs [Hnd Hf]. split; [by eapply sublist_NoDup, sublist_fmap|].
  rewrite Forall_forall in Hf |- *. intros x Hx. apply Hf.
  by eapply elem_of_submseteq; [|apply sublist_submseteq].
Qed.

Lemma headers_ok_remove name m : headers_ok m → headers_ok (removeHeader m name).
Proof. apply headers_ok_sublist, sublist_filter. Qed.

Lemma not_in_removed name m : to_lower name ∉ (lower_names (removeHeader m name)).
Proof.
  intros ((k, v) & Hk & [Hs _]%list_elem_of_filter)%list_elem_of_fmap. simpl in *.
  assert (same_name k name = true) by (by apply same_name_iff). congruence.
Qed.

Lemma normalize_header_ok e h h' :
  normalize_header e h = Ret h' → headers_ok (values h) → headers_ok (values h').
Proof.
  destruct e as [name [value|]]; unfold normalize_header; intros He Hok;
    apply bind_ret_iff in He as ([] & Hn & He).
  - destruct (_ || _) eqn:Hv; [done|]. apply orb_false_iff in Hv as [Hl Hb].
    injection He as <-. destruct (headers_ok_remove name _ Hok) as [Hnd Hf]. split; simpl.
    + unfold lower_names; rewrite fmap_app. apply NoDup_app. split_and!; [done| |by apply NoDup_singleton].
      intros x Hx ->%list_elem_of_singleton. by apply not_in_removed in Hx.
    + apply Forall_app. split; [done|]. by repeat constructor.
  - injection He as <-. by apply headers_ok_remove.
Qed.

Lemma normalize_headers_ok es h h' :
  normalize_headers es h = Ret h' → headers_ok (values h) → headers_ok (values h').
Proof.
  revert h; induction es as [|e es IH]; intros h; simpl; [by intros [= ->]|].
  intros (h1 & H1 & H2)%bind_ret_iff Hok. eapply IH; [done|]. by eapply normalize_header_ok.
Qed.

Lemma normalizeHeaders_ok input h : normalizeHeaders input = Ret h → headers_ok (values h).
Proof.
  assert (headers_ok []) by (split; constructor).
  destruct input as [es|]; simpl; [|by intros [= <-]].
  destruct (_ <? _); [done|]. intros Hn. by eapply normalize_headers_ok.
Qed.

(** ** Taking a header *)

Lemma takeHeader_spec m name r m' :
  takeHeader m name = (r, m') → NoDup (lower_names m) →
  sublist m' m ∧ (name ∉ lower_names m') ∧
  match r with Some (k, v) => (k, v) ∈ m ∧ to_lower k = name | None => m' = m end.
Proof.
  revert r m'; induction m as [|[k v] m IH]; intros r m'; simpl.
  { intros [= <- <-] _. split_and!; [done|set_solver|done]. }
  destruct (String.eqb_spec (to_lower k) name) as [Hk|Hk].
  - intros [= <- <-] [Hnin Hnd]%NoDup_cons. split_and!; [by constructor|by rewrite <-Hk| |done]. by left.
  - destruct (takeHeader m name) as [r1 m1] eqn:Ht. intros [= <- <-] [Hnin Hnd]%NoDup_cons.
    destruct (IH _ _ eq_refl Hnd) as (Hsub & Hout & Hr). split_and!.
    + by constructor.
    + simpl. rewrite not_elem_of_cons. split; [by intros ->|done].
    + destruct r1 as [[k1 v1]|]; [|by rewrite Hr]. destruct Hr. split; [by right|done].
Qed.


Lemma headers_ok_snoc m k v :
  headers_ok m → to_lower k ∉ (lower_names m) → validateHeaderName k = Ret tt →
  has_line_break v = false → longer_than MAX_HEADER_VALUE_LENGTH v = false → headers_ok (m ++ [(k, v)]).
Proof.
  intros [Hnd Hf] Hk ???. split.
  - unfold lower_names; rewrite fmap_app. apply NoDup_app. split_and!; [done| |by apply NoDup_singleton].
    by intros x Hx ->%list_elem_of_singleton.
  - apply Forall_app. split; [done|]. by repeat constructor.
Qed.

Lemma set_header_new k v m : to_lower k ∉ (lower_names m) → set_header k v m = m ++ [(k, v)].
Proof.
  intros Hk. unfold set_header. rewrite bool_decide_eq_false_2; [done|].
  intros ((k', v') & -> & Hin)%list_elem_of_fmap. apply Hk.
  apply list_elem_of_fmap. by exists (k', v').
Qed.

(** ** Tokens *)

Lemma line_break_trim s : has_line_break s = false → has_line_break (trim s) = false.
Proof.
  assert (Hs : ∀ s, has_line_break s = false → has_line_break (trim_start s) = false).
  { unfold has_line_break. intros t; induction t as [|c t IH]; simpl; [done|].
    intros Ht. destruct (is_js_space c); [|done]. apply IH. by apply orb_false_iff in Ht as [_ ?]. }
  assert (He : ∀ s, has_line_break s = false → has_line_break (trim_end s) = false).
  { unfold has_line_break. intros t; induction t as [|c t IH]; simpl; [done|].
    intros [Hc Ht]%orb_false_iff. specialize (IH Ht). destruct (trim_end t); simpl in *.
    - destruct (is_js_space c); simpl; [done|]. by rewrite Hc.
    - by rewrite Hc. }
  intros H. by apply He, Hs.
Qed.

Lemma line_break_slice n s : has_line_break s = false → has_line_break (slice_from n s) = false.
Proof.
  unfold has_line_break. revert s; induction n as [|n IH]; intros [|c s]; simpl; try done.
  intros [_ Hs]%orb_false_iff. by apply IH.
Qed.

(** A token is a credential that can stand in a header. *)
Definition token_ok (token : string) : Prop := token ≠ "" ∧ has_line_break token = false.

Lemma length_eqb_0 s : (String.length s =? 0) = false ↔ s ≠ "".
Proof. destruct s; naive_solver. Qed.

Lemma resolveAuthentication_ok authorization sup key a :
  match authorization with Some (_, v) => has_line_break v = false | None => True end →
  resolveAuthentication authorization sup key = Ret a →
  (∀ t, a = Some t → token_ok t) ∧
  match authorization with Some (_, v) => is_bearer v = bool_decide (is_Some a) | None => True end.
Proof.
  destruct authorization as [[k v]|]; cbn [resolveAuthentication]; intros Hv.
  - destruct (is_bearer v).
    + destruct (_ =? 0) eqn:Hl; [done|]. intros Ha. injection Ha as <-. split; [|done]. intros t Ht. injection Ht as <-.
      split; [by apply length_eqb_0|]. by apply line_break_trim, line_break_slice, line_break_trim.
    + by intros [= <-].
  - destruct sup; [by intros [= <-]|]. destruct key as [key|]; [|by intros [= <-]].
    destruct (_ =? 0) eqn:Hl; [by intros [= <-]|]. destruct (_ || _) eqn:Hb; [done|].
    apply orb_false_iff in Hb as [Hb _]. intros [= <-]. split; [|done]. intros t [= <-].
    split; [by apply length_eqb_0|done].
Qed.

(** ** Numbers *)

Definition in_range (lo hi : Z) (n : jsnum) : Prop := ∃ z : Z, n = num_of_Z z ∧ (lo ≤ z ≤ hi)%Z.

Lemma optionalNumber_ok v lo hi r :
  optionalNumber v lo hi = Ret r → ∀ n, r = Some n → in_range lo hi n.
Proof.
  unfold optionalNumber. destruct v as [v|]; [|by intros [= <-]].
  destruct (_ || _) eqn:Hb; [done|]. intros [= <-] n [= <-]. unfold num_gtb in Hb. bool_to_prop.
  destruct Hb as [[Hs Hlo] Hhi]. apply is_safe_integer_spec in Hs as (z & -> & _).
  exists z. split; [done|]. rewrite num_ltb_Z in Hlo, Hhi. bool_to_prop. lia.
Qed.

Lemma optionalTimeoutMs_ok v r :
  optionalTimeoutMs v = Ret r →
  ∀ n, r = Some n → in_range 1 MAX_TIMEOUT_MS n ∨ n = num_of_Z PI_DISABLED_IDLE_TIMEOUT_MS.
Proof.
  unfold optionalTimeoutMs. destruct v as [v|]; [|by intros [= <-]].
  destruct (num_eqb _ _); [intros [= <-] n [= <-]; by right|].
  intros Hn n ->. left. by eapply optionalNumber_ok.
Qed.

Section connection.
Context `{JsonText} `{UrlApi}.

Lemma account_id_nonempty e s a x : account_id e s a = Some x → x ≠ "".
Proof.
  unfold account_id. destruct e as [[k v]|]; [destruct v; naive_solver|].
  destruct s; [done|]. destruct a as [t|]; [|done]. simpl. unfold extractAccountId. intros He.
  split_matches. apply bind_Some in He as (? & _ & He). apply bind_Some in He as (? & _ & He).
  apply bind_Some in He as (? & _ & He). apply bind_Some in He as (? & _ & He).
  unfold nonempty_text in He. split_matches. by destruct x.
Qed.

(** The headers that are left, with a non-bearer authorization put back. *)
Lemma final_headers_ok m authorization source1 explicit source2 :
  headers_ok m → takeHeader m AUTHORIZATION_HEADER = (authorization, source1) →
  takeHeader source1 ACCOUNT_ID_HEADER = (explicit, source2) →
  let final := match authorization with
    | Some (name, value) => if is_bearer value then source2 else set_header name value source2
    | None => source2 end in
  headers_ok final ∧ (ACCOUNT_ID_HEADER ∉ lower_names final) ∧
  (AUTHORIZATION_HEADER ∈ lower_names final ↔
     ∃ k v, authorization = Some (k, v) ∧ is_bearer v = false).
Proof.
  intros Hm H1 H2. pose proof Hm as [Hnd Hf].
  apply takeHeader_spec in H1 as (Hs1 & Hout1 & Ha); [|done].
  pose proof (headers_ok_sublist _ _ Hs1 Hm) as [Hnd1 _].
  apply takeHeader_spec in H2 as (Hs2 & Hout2 & _); [|done].
  pose proof (headers_ok_sublist _ _ Hs2 (headers_ok_sublist _ _ Hs1 Hm)) as Hok2.
  assert (Hout : AUTHORIZATION_HEADER ∉ lower_names source2).
  { intros Hin. apply Hout1. eapply elem_of_submseteq; [done|].
    by apply sublist_submseteq, sublist_fmap. }
  destruct authorization as [[k v]|]; simpl; last first.
  { split_and!; [done..|]. split; [by intros ?|by intros (? & ? & [=] & _)]. }
  destruct Ha as [Hin Hk]. destruct (is_bearer v) eqn:Hb.
  { split_and!; [done..|]. split; [by intros ?|intros (? & ? & [= <- <-] & ?); congruence]. }
  rewrite Forall_forall in Hf. destruct (Hf _ Hin) as (Hn & Hv & Hl). simpl in *.
  rewrite set_header_new by by rewrite Hk. split_and!.
  - apply headers_ok_snoc; [done|by rewrite Hk|done..].
  - unfold lower_names. rewrite fmap_app, elem_of_app. simpl. rewrite list_elem_of_singleton, Hk.
    by intros [?|?].
  - split; [by eauto|]. intros _. unfold lower_names. rewrite fmap_app, elem_of_app. right. simpl.
    rewrite Hk. by apply list_elem_of_singleton.
Qed.

(** C35: Whatever headers and key a request is made with, a connection that
    is made has well formed headers, no two of one name up to case, none that
    carries the account, and an [authorization] header exactly when there is
    no bearer token; the token is not empty and breaks no line.  The provider
    [openai-codex] never goes without credentials, the account id has 1 to
    256 units, and retries and timeouts lie in their bounds, the one larger
    timeout being the value Pi uses for no timeout. *)
Theorem connection_keeps_credentials_apart provider baseUrl options c :
  createProviderConnection provider baseUrl options = Ret c →
  headers_ok (headers c) ∧
  (ACCOUNT_ID_HEADER ∉ lower_names (headers c)) ∧
  (∀ token, conn_authentication (details c) = Some token →
     token_ok token ∧ AUTHORIZATION_HEADER ∉ lower_names (headers c)) ∧
  (provider = "openai-codex" → conn_authentication (details c) = None →
     AUTHORIZATION_HEADER ∈ lower_names (headers c)) ∧
  (∀ a, conn_accountId (details c) = Some a → 1 ≤ String.length a ≤ MAX_ACCOUNT_ID_LENGTH) ∧
  (∀ n, maxRetries c = Some n → in_range 0 MAX_RETRIES n) ∧
  (∀ n, timeoutMs c = Some n → in_range 1 MAX_TIMEOUT_MS n ∨ n = num_of_Z PI_DISABLED_IDLE_TIMEOUT_MS) ∧
  (∀ n, websocketConnectTimeoutMs c = Some n → in_range 1 MAX_TIMEOUT_MS n).
Proof.
  unfold createProviderConnection. intros (p & Hp & (b & _ & (n & Hn & Hc)%bind_ret_iff)%bind_ret_iff)%bind_ret_iff.
  assert (p = provider) as ->.
  { unfold validateProviderId in Hp. destruct (_ || _); congruence. }
  apply normalizeHeaders_ok in Hn.
  destruct (takeHeader (values n) _) as [authorization source1] eqn:H1.
  destruct (takeHeader source1 _) as [explicit source2] eqn:H2.
  apply bind_ret_iff in Hc as (a & Ha & Hc).
  match type of Hc with (if ?b then _ else _) = _ => destruct b eqn:Hacc end; [done|].
  destruct (_ && bool_decide (authorization = None)) eqn:Hcred; [done|].
  apply bind_ret_iff in Hc as (r & Hr & Hc). apply bind_ret_iff in Hc as (t & Ht & Hc).
  apply bind_ret_iff in Hc as (w & Hw & Hc). injection Hc as <-.
  destruct (final_headers_ok _ _ _ _ _ Hn H1 H2) as (Hok & Hnacc & Hauth).
  apply resolveAuthentication_ok in Ha as [Htok Hbear]; last first.
  { destruct authorization as [[k v]|]; [|done]. apply takeHeader_spec in H1 as (_ & _ & Hin & _); [|apply Hn].
    destruct Hn as [_ Hf]. rewrite Forall_forall in Hf. by apply (Hf (k, v)). }
  cbn [headers details conn_authentication conn_accountId maxRetries timeoutMs websocketConnectTimeoutMs].
  split_and!; [done|done| | | |exact (optionalNumber_ok _ _ _ _ Hr)|
               exact (optionalTimeoutMs_ok _ _ Ht)|exact (optionalNumber_ok _ _ _ _ Hw)].
  - intros tok ->. split; [by apply Htok|]. rewrite Hauth. intros (k & v & -> & Hv). by rewrite Hv in Hbear.
  - intros -> ->. apply Hauth. destruct authorization as [[k v]|]; [|done]. exists k, v. by split.
  - intros x Hx. rewrite Hx in Hacc. apply Nat.ltb_ge in Hacc. split; [|done].
    apply account_id_nonempty in Hx. destruct x; [done|simpl; lia].
Qed.
End connection.

(** A URL interface for examples: every text is the host of a secure URL. *)
Definition host_only : UrlApi := {|
  parse_url s := Some {| protocol := "https:"; hostname := s; username := ""; password := "";
                         hash := ""; search := ""; pathname := "/" |};
  url_to_string u := (protocol u ++ "//" ++ hostname u ++ pathname u)%string |}.

Definition example_options : ConnectionOptions := {|
  apiKey := Some "key"; opt_headers := Some [("Authorization", Some "Bearer abc"); ("X-Trace", Some "1")];
  opt_maxRetries := Some (num_of_Z 2); opt_timeoutMs := Some (num_of_Z 2147483647);
  opt_websocketConnectTimeoutMs := None |}.

Definition example_connection : CodexProviderConnection := {|
  details := {| conn_providerId := "openai-codex"; conn_baseUrl := "https://host";
                conn_authentication := Some "abc"; conn_accountId := None;
                conn_accountIdSource := None |};
  headers := [("X-Trace", "1")]; maxRetries := Some (num_of_Z 2);
  timeoutMs := Some (num_of_Z 2147483647); websocketConnectTimeoutMs := None |}.

Lemma connection_keeps_credentials_apart_witness :
  AUTHORIZATION_HEADER ∉ lower_names (headers example_connection).
Proof.
  refine (proj2 (proj1 (proj2 (proj2 (connection_keeps_credentials_apart (H := bits_json) (H0 := host_only)
    "openai-codex" "host" example_options example_connection _))) "abc" _)); vm_compute; reflexivity.
Defined.
