(* ===== verification/ToolSurface.v ===== *)
(** * ToolSurface

    [src/src/integration/pi/codex-tool-surface.ts]: the tools a request shows
    to the model, the official ones followed by those of other extensions. *)

From S2P Require Import Prelude StructuredJson Capability Config ToolProfile.

Record PiResponsesToolDefinition := {
  def_name : string; def_description : jsval; def_parameters : jsval }.

(** The names a tool answers to, a namespace with its nested tools. *)
Definition tool_names (value : jsval) : list string :=
  match as_record value with
  | None => []
  | Some tool =>
      match field tool "name" with
      | VStr name =>
          name :: match field tool "type", field tool "tools" with
                  | VStr type, VArr nested =>
                      if String.eqb type "namespace" then
                        omap (λ v, fs ← as_record v;
                                   match field fs "name" with
                                   | VStr n => Some (name ++ "." ++ n)%string | _ => None end) nested
                      else []
                  | _, _ => []
                  end
      | _ => []
      end
  end.

Definition officialToolNames (tools : list jsval) : list string := tools ≫= tool_names.

Definition isOfficialToolName (name : string) (officialNames : list string) : bool :=
  js_elem name officialNames.

Definition isAdditiveToolName (name : string) (officialNames : list string) : bool :=
  negb (isPiCoreAgentToolName name) && negb (isManagedToolName name) &&
  negb (isOfficialToolName name officialNames).

(** The copy of a tree of data properties, [None] when something in it is not
    JSON. *)
Fixpoint projectJsonValue (value : jsval) : option jsval :=
  match value with
  | VNull | VStr _ | VBool _ => Some value
  | VNum n => if is_finite n then Some value else None
  | VUndef | VOpaque => None
  | VArr items => VArr <$> mapM projectJsonValue items
  | VObj fields =>
      VObj <$> mapM (λ kv, v ← projectJsonValue kv.2; Some (kv.1, v)) fields
  end.

Definition projectToolParameters (value : jsval) : option jsval :=
  match projectJsonValue value with Some (VObj fs) => Some (VObj fs) | _ => None end.

Definition toResponsesFunctionTool (tool : PiResponsesToolDefinition) : option jsval :=
  match projectToolParameters (def_parameters tool), def_description tool with
  | Some parameters, VStr description =>
      if (String.length (def_name tool) =? 0)%nat then None else
      Some (VObj [("type", VStr "function"); ("name", VStr (def_name tool));
                  ("description", VStr description); ("parameters", parameters);
                  ("strict", VBool false)])
  | _, _ => None
  end.

(** The loop, with the names added so far. *)
Fixpoint select_additions (officialNames activeNames seen : list string)
    (definitions : list PiResponsesToolDefinition) : list jsval :=
  match definitions with
  | [] => []
  | definition :: definitions =>
      let name := def_name definition in
      if negb (js_elem name activeNames) || negb (isAdditiveToolName name officialNames) ||
         js_elem name seen
      then select_additions officialNames activeNames seen definitions else
      match toResponsesFunctionTool definition with
      | None => select_additions officialNames activeNames seen definitions
      | Some converted =>
          converted :: select_additions officialNames activeNames (name :: seen) definitions
      end
  end.

Definition selectCodexToolSurface (officialTools : list jsval) (activeNames : list string)
    (activeDefinitions : list PiResponsesToolDefinition) : list jsval :=
  officialTools ++ select_additions (officialToolNames officialTools) activeNames [] activeDefinitions.

Definition orderedToolNames (tools : list PiResponsesToolDefinition) : list string :=
  dedup [] (def_name <$> tools).

(** ** Facts *)

(** What is projected is JSON, and JSON is projected to itself. *)
Lemma mapM_id_iff {A} (f : A → option A) (P : A → bool) l :
  Forall (λ x, ∀ y, f x = Some y ↔ P x = true ∧ y = x) l →
  ∀ k, mapM f l = Some k ↔ forallb P l = true ∧ k = l.
Proof.
  induction 1 as [|x l Hx _ IH]; intros k; cbn [forallb].
  { simpl. split; [by intros [= <-]|by intros [_ ->]]. }
  simpl. rewrite bind_Some, andb_true_iff. setoid_rewrite bind_Some. setoid_rewrite Hx.
  setoid_rewrite IH. split.
  - by intros (? & [? ->] & ? & [? ->] & [= <-]).
  - intros [[??] ->]. exists x. split; [done|]. by exists l.
Qed.

Lemma projectJsonValue_iff v w : projectJsonValue v = Some w ↔ json_value v = true ∧ w = v.
Proof.
  revert w; induction v as [| |b|n|s|l IH|fs IH|] using jsval_nested_ind; intros w; simpl;
    try (split; [by intros [=]|by intros [[=] _]]);
    try (split; [by intros [= <-]|by intros [_ ->]]).
  - destruct (is_finite n); split; [by intros [= <-]|by intros [_ ->]|done|by intros [[=] _]].
  - rewrite fmap_Some. setoid_rewrite (mapM_id_iff _ json_value); [|done].
    split; [by intros (? & [? ->] & ->)|intros [? ->]; by exists l].
  - rewrite fmap_Some. setoid_rewrite (mapM_id_iff _ (λ kv : string * jsval, json_value kv.2)).
    { split; [by intros (? & [? ->] & ->)|intros [? ->]; by exists fs]. }
    eapply Forall_impl; [done|]. intros [k x0] Hx [k' y]; simpl in *. rewrite bind_Some.
    setoid_rewrite Hx. split; [by intros (? & [? ->] & [= <- <-])|intros [? [= -> ->]]; by exists x0].
Qed.

(** The tools added are function tools of active definitions, no name twice,
    none of an official, managed or Pi core tool. *)
Definition added_name (v : jsval) : option string :=
  fs ← as_record v; match field fs "name" with VStr n => Some n | _ => None end.

Lemma select_additions_spec officialNames activeNames seen definitions :
  ∃ names, added_name <$> select_additions officialNames activeNames seen definitions = Some <$> names ∧
    NoDup names ∧
    (∀ n, n ∈ names → (n ∉ seen) ∧ n ∈ activeNames ∧ isAdditiveToolName n officialNames = true ∧
                      n ∈ def_name <$> definitions) ∧
    (∀ v, v ∈ select_additions officialNames activeNames seen definitions → json_value v = true).
Proof.
  revert seen; induction definitions as [|d ds IH]; intros seen; simpl.
  { exists []. split_and!; [done|constructor|set_solver..]. }
  assert (Hskip : ∀ seen', ∃ names,
    added_name <$> select_additions officialNames activeNames seen' ds = Some <$> names ∧ NoDup names ∧
    (∀ n, n ∈ names → (n ∉ seen') ∧ n ∈ activeNames ∧ isAdditiveToolName n officialNames = true ∧
                      n ∈ def_name d :: (def_name <$> ds)) ∧
    (∀ v, v ∈ select_additions officialNames activeNames seen' ds → json_value v = true)).
  { intros seen'. destruct (IH seen') as (names & ? & ? & Hn & ?). exists names. split_and!; [done..| |done].
    intros n Hin. destruct (Hn n Hin) as (? & ? & ? & ?). split_and!; [done..|by right]. }
  destruct (_ || _) eqn:Hc; [apply Hskip|]. bool_to_prop. destruct Hc as [[Hact Hadd] Hseen].
  destruct (toResponsesFunctionTool d) as [c|] eqn:Hconv; [|apply Hskip].
  destruct (Hskip (def_name d :: seen)) as (names & Hnames & Hnd & Hn & Hjson).
  unfold toResponsesFunctionTool, projectToolParameters in Hconv.
  destruct (projectJsonValue (def_parameters d)) as [p|] eqn:Hp; [|done].
  apply projectJsonValue_iff in Hp as [Hp ->].
  destruct (def_parameters d) as [| | | | | |ps|]; [done..| |done].
  destruct (def_description d); try done. destruct (_ =? 0); [done|]. injection Hconv as <-.
  exists (def_name d :: names). split_and!.
  - rewrite !fmap_cons. by rewrite Hnames.
  - constructor; [|done]. intros Hin. destruct (Hn _ Hin) as [Hns _]. set_solver.
  - intros n [->|Hin]%elem_of_cons; [split_and!; [done..|by left]|].
    destruct (Hn n Hin) as (Hns & ? & ? & ?). split_and!; [set_solver|done..].
  - intros v [->|Hin]%elem_of_cons; [simpl in *; by rewrite Hp|by apply Hjson].
Qed.
