(* ===== verification/Dispatch.v ===== *)
(** * Dispatch

    [src/src/integration/pi/codex-provider.ts] and
    [src/src/integration/pi/codex-provider-error.ts]: how a provider request
    is built, offered to the host, approved, sent to the native runtime, and
    how its outcome becomes the one terminal event of the stream
    ([runResponse]).

    What the code awaits is in the environment: the configuration, the
    capability resolver, the host's payload hook (any computation over the
    guard and the accounting store), the native answer, the events that are
    handled before it is and those that are handled when the run has ended, and
    what others do to the guard and the store until the answer comes. *)

From Stdlib Require Import QArith Qcanon.
From S2P Require Import Prelude StructuredJson Config Compaction CompactionStore Capability.
From S2P Require Import EffectiveCapabilities Json ConfigStore Normalization ResponseStream.
From S2P Require Import ResponseItems Credentials RequestGuard Connection ToolSurface.

(** ** Errors *)

Inductive provider_error :=
| AbortError                                                    (* a [DOMException] of that name *)
| err_capability (e : CapabilityError)
| CodexProviderContextWindowError
| BridgeRemoteError (code message : string) (retryable : bool)
| BridgeConnectionError (message : string)
| ConfigurationError (message : string)
| err_guard (e : GuardError)
| err_plain (message : string).

Definition PI_RETRYABLE_PROVIDER_ERROR : string := "OpenAI provider service unavailable".

Definition isExistingSafeProviderError (error : provider_error) : option string :=
  match error with
  | BridgeRemoteError _ message _ | BridgeConnectionError message | ConfigurationError message =>
      Some message
  | _ => None
  end.

(** The class of a recorded failure is read by [cause_error]: the guard throws
    the object that was recorded. *)
Definition thrown_error (cause_error : jsval → provider_error) (error : provider_error) : provider_error :=
  match error with err_guard (failure_cause cause) => cause_error cause | _ => error end.

Definition toPiProviderErrorMessage (error : provider_error) : string :=
  match error with
  | AbortError => "Request aborted"
  | err_capability (capability_error _ reason) => reason
  | CodexProviderContextWindowError =>
      "context_length_exceeded: the request reached the model context checkpoint threshold"
  | BridgeRemoteError code message retryable =>
      if String.eqb code "context_window_exceeded"
      then "context_length_exceeded: the request exceeded the model context window"
      else if retryable then (PI_RETRYABLE_PROVIDER_ERROR ++ ": " ++ message)%string
      else default "OpenAI Codex request failed" (isExistingSafeProviderError error)
  | _ => default "OpenAI Codex request failed" (isExistingSafeProviderError error)
  end.

Definition isAbortError (error : provider_error) : bool :=
  match error with AbortError => true | _ => false end.

(** ** Objects at run time *)

Definition availability_value (a : Availability) : jsval :=
  VObj match a with
       | available source => [("status", VStr "available"); ("source", lit source)]
       | disabled reason => [("status", VStr "disabled"); ("reason", VStr reason)]
       | unavailable reason => [("status", VStr "unavailable"); ("reason", VStr reason)]
       end.

Definition implementation_value (i : option CompactionImplementation) : jsval :=
  match i with
  | None => VNull
  | Some impl_remote_v2 => VStr "remote_v2"
  | Some impl_compact_endpoint => VStr "compact_endpoint"
  end.

Definition nullable (n : option jsnum) : jsval := match n with Some n => VNum n | None => VNull end.

Definition snapshot_value (s : EffectiveCapabilitySnapshot) : jsval := VObj [
  ("modelId", VStr (modelId s)); ("model", VObj (snap_model s));
  ("bridgeCapabilities", VArr (VStr <$> snap_bridgeCapabilities s));
  ("providerContract", contract_value (providerContract s));
  ("providerSupportsWebsockets", VBool (snap_providerSupportsWebsockets s));
  ("modelTools", VArr (snap_modelTools s)); ("dispatchTools", VArr (snap_dispatchTools s));
  ("localTools", VArr (lit <$> localTools s)); ("hostedTools", VArr (VStr <$> hostedTools s));
  ("shell", VObj [("primary", lit (primary (shell s)));
                  ("bounded", availability_value (bounded (shell s)));
                  ("sessions", availability_value (sessions (shell s)));
                  ("sessionSurface", lit (sh_sessionSurface (shell s)))]);
  ("applyPatch", availability_value (applyPatch s));
  ("viewImage", availability_value (snap_viewImage s));
  ("imageGeneration", availability_value (snap_imageGeneration s));
  ("webSearch", availability_value (snap_webSearch s)); ("webSurface", lit (snap_webSurface s));
  ("compaction", VObj [("manual", availability_value (manual (snap_compaction s)));
                       ("automatic", availability_value (automatic (snap_compaction s)));
                       ("modelThreshold", nullable (modelThreshold (snap_compaction s)));
                       ("threshold", nullable (threshold (snap_compaction s)));
                       ("implementation", implementation_value (comp_implementation (snap_compaction s)))]);
  ("transport", availability_value (transport s))].

(** [...(v === undefined ? {} : { k: v })]. *)
Definition optional_field {A} (k : string) (f : A → jsval) (v : option A) : list (string * jsval) :=
  match v with Some v => [(k, f v)] | None => [] end.

Definition connection_value (c : CodexProviderConnection) : jsval :=
  let d := details c in
  VObj ([("providerId", VStr (conn_providerId d)); ("baseUrl", VStr (conn_baseUrl d));
         ("headers", VObj ((λ kv, (kv.1, VStr kv.2)) <$> headers c));
         ("authentication", match conn_authentication d with
            | Some token => VObj [("kind", VStr "bearer"); ("token", VStr token)]
            | None => VObj [("kind", VStr "none")] end)] ++
        optional_field "accountId" VStr (conn_accountId d) ++
        optional_field "accountIdSource" (λ s, VStr match s with
          source_header => "header" | source_jwt => "jwt" end) (conn_accountIdSource d) ++
        optional_field "maxRetries" VNum (maxRetries c) ++
        optional_field "timeoutMs" VNum (timeoutMs c) ++
        optional_field "websocketConnectTimeoutMs" VNum (websocketConnectTimeoutMs c)).

(** ** The request *)

Record ModelInfo := {
  m_id : string; m_provider : string; m_api : string; m_baseUrl : string; m_cost : jsval;
  m_contextWindow : jsnum; m_input : list Modality; m_thinkingLevelMap : jsval }.

Definition model_value (m : ModelInfo) : jsval := VObj [
  ("id", VStr (m_id m)); ("provider", VStr (m_provider m)); ("api", VStr (m_api m));
  ("baseUrl", VStr (m_baseUrl m)); ("cost", m_cost m); ("contextWindow", VNum (m_contextWindow m));
  ("input", VArr ((λ i, VStr match i with modality_text => "text" | modality_image => "image" end)
                    <$> m_input m));
  ("thinkingLevelMap", m_thinkingLevelMap m)].

Record Context := {
  systemPrompt : option string; ctx_messages : list jsval;
  ctx_tools : option (list PiResponsesToolDefinition) }.

(** The options of a request: those the connection reads, the session, the
    signal, the reasoning level, whether a custom [fetch] is given, and the
    object as a whole. *)
Record SimpleStreamOptions := {
  so_connection : ConnectionOptions;
  so_sessionId : option string;
  so_signal : option signal_id;
  so_reasoning : option string;
  so_fetch : bool;
  so_value : jsval }.

Section dispatch.
Context `{JsonText} `{UrlApi} (sha256Hex : string → string).

(** [model.thinkingLevelMap?.[reasoning] ?? reasoning]. *)
Definition reasoning_effort (m : ModelInfo) (reasoning : option string) : option jsval :=
  r ← reasoning;
  Some match as_record (m_thinkingLevelMap m) with
       | None => VStr r
       | Some fs => match field fs r with VUndef | VNull => VStr r | v => v end
       end.

Definition buildCodexRequest (m : ModelInfo) (context : Context)
    (options : option SimpleStreamOptions) (codex : CodexSection) (officialTools : list jsval)
    (capabilities : EffectiveCapabilitySnapshot) : outcome string jsval :=
  let activeDefinitions := default [] (ctx_tools context) in
  let tools := selectCodexToolSurface officialTools (def_name <$> activeDefinitions) activeDefinitions in
  input ← responseItemsFromMessages (ctx_messages context);
  Ret (VObj [
    ("model", VStr (m_id m));
    ("instructions", VStr (withSupplementalSessionInstructions (default "" (systemPrompt context)) capabilities));
    ("input", VArr input);
    ("tools", match tools with [] => VNull | _ => VArr tools end);
    ("tool_choice", VStr "auto");
    ("parallel_tool_calls", VBool true);
    ("reasoning", match reasoning_effort m (options ≫= so_reasoning) with
       | None => VNull
       | Some effort => VObj [("effort", effort); ("summary", VStr "auto"); ("context", VStr "all_turns")]
       end);
    ("store", VBool false); ("stream", VBool true);
    ("include", VArr [VStr "reasoning.encrypted_content"]);
    ("service_tier", lit (serviceTier codex));
    ("prompt_cache_key", match options ≫= so_sessionId with Some s => VStr s | None => VUndef end);
    ("text", VObj [("verbosity", lit (verbosity codex))])]).

Definition asRequest (value : jsval) : outcome string jsval :=
  match as_record value with
  | Some fs =>
      if json_value value && match field fs "input" with VArr _ => true | _ => false end
      then Ret value else Throw "OpenAI Codex provider payload is invalid"
  | None => Throw "OpenAI Codex provider payload is invalid"
  end.

Definition responseTotalTokens (value : jsval) : option jsnum :=
  completion ← as_record value;
  usage ← as_record (field completion "tokenUsage");
  match field usage "total_tokens" with
  | VNum n => if is_safe_integer n && num_geb n 0%Z then Some n else None
  | _ => None
  end.

(** The key and value of [CodexRemoteCompactionV2Context]. *)
Definition remoteCompactionV2Context (implementation : option CompactionImplementation)
    (sessionId : option string) (trigger : option string) : option (string * option string) :=
  match implementation, sessionId with
  | Some impl_remote_v2, Some s => Some (s, trigger)
  | _, _ => None
  end.

(** ** State *)

(** What [runtime.createResponse] is called with. *)
Record NativeCall := {
  nc_connection : jsval; nc_request : jsval; nc_transportMode : jsval;
  nc_websockets : jsval; nc_context : option (string * option string) }.

Inductive terminal := done_event (reason : StopReason) | error_event (aborted : bool) (message : string).

(** What is pushed to the stream, and its end.  [requestRecord] is [ds_record];
    [ds_calls] are the native calls made so far, each with the guard as it was at
    the call, and [ds_stream] is all that was done to the stream, in order. *)
Inductive pushed := start_event | block_event (e : stream_event) | terminal_event (t : terminal) | stream_end.

Record dispatch_state := {
  ds_guard : CodexProviderRequestGuard;
  ds_store : CodexCompactionStore;
  ds_response : ResponseState;
  ds_record : option Z;
  ds_calls : list (CodexProviderRequestGuard * NativeCall);
  ds_stream : list pushed }.

Definition set_guard g s := {| ds_guard := g; ds_store := ds_store s; ds_response := ds_response s;
  ds_record := ds_record s; ds_calls := ds_calls s; ds_stream := ds_stream s |}.
Definition set_store st s := {| ds_guard := ds_guard s; ds_store := st; ds_response := ds_response s;
  ds_record := ds_record s; ds_calls := ds_calls s; ds_stream := ds_stream s |}.
Definition set_request_record gen s := {| ds_guard := ds_guard s; ds_store := ds_store s; ds_response := ds_response s;
  ds_record := Some gen; ds_calls := ds_calls s; ds_stream := ds_stream s |}.
Definition add_call (c : NativeCall) s := {| ds_guard := ds_guard s; ds_store := ds_store s; ds_response := ds_response s;
  ds_record := ds_record s; ds_calls := ds_calls s ++ [(ds_guard s, c)]; ds_stream := ds_stream s |}.
Definition stream_push (xs : list pushed) s := {| ds_guard := ds_guard s; ds_store := ds_store s; ds_response := ds_response s;
  ds_record := ds_record s; ds_calls := ds_calls s; ds_stream := ds_stream s ++ xs |}.
(** [stream.push(terminal); stream.end()]. *)
Definition push_terminal (t : terminal) : dispatch_state → dispatch_state :=
  stream_push [terminal_event t; stream_end].

(** A method of the [ResponseState], which writes to the same stream: what it
    pushes goes behind all that is there. *)
Definition on_response {A} (f : ResponseState → A * ResponseState) (s : dispatch_state) : A * dispatch_state :=
  let '(a, r) := f (ds_response s) in
  (a, {| ds_guard := ds_guard s; ds_store := ds_store s; ds_response := r; ds_record := ds_record s; ds_calls := ds_calls s;
         ds_stream := ds_stream s ++
           (block_event <$> drop (length (pushed_events (ds_response s))) (pushed_events r)) |}).

Abbreviation run_step A := (stateful dispatch_state provider_error A).

Record CreateResponseResult := { res_status : string; res_result : jsval }.

Record dispatch_env := {
  d_model : ModelInfo;
  d_context : Context;
  d_options : option SimpleStreamOptions;
  d_providers : list string;                       (* of the activation policy *)
  d_guarded : bool;                                (* a guard was given *)
  d_config : outcome provider_error CodexConfig;
  d_hostTools : list ManagedToolName;
  d_isHealthy : jsval → bool;
  d_resolve : ResolveEffectiveCapabilitiesInput → outcome provider_error EffectiveCapabilitySnapshot;
  d_onPayload : option (option Z → jsval →
    stateful (CodexProviderRequestGuard * CodexCompactionStore) provider_error jsval);
  d_events : NativeCall → list jsval;              (* handled before the run goes on *)
  d_late : NativeCall → list jsval;                (* and when the run has ended *)
  d_answer : NativeCall → outcome provider_error CreateResponseResult;
  d_meanwhile_guard : list guard_op;
  d_meanwhile_store : list store_op;
  d_cause_error : jsval → provider_error }.

(** ** Steps *)

Definition lift_plain {A} (r : outcome string A) : run_step A :=
  st_lift match r with Ret a => Ret a | Throw m => Throw (err_plain m) end.

Definition fail_unless (b : bool) (e : provider_error) : run_step unit :=
  st_lift (if b then Ret tt else Throw e).

Definition signal_is_aborted (e : dispatch_env) (s : dispatch_state) : bool :=
  signal_aborted (d_options e ≫= so_signal) (ds_guard s).

Definition default_options : ConnectionOptions :=
  {| apiKey := None; opt_headers := None; opt_maxRetries := None; opt_timeoutMs := None;
     opt_websocketConnectTimeoutMs := None |}.

Definition capability_input (e : dispatch_env) (config : CodexConfig) : ResolveEffectiveCapabilitiesInput :=
  {| in_modelId := m_id (d_model e); in_providerId := m_provider (d_model e);
     modelInputModalities := m_input (d_model e); EffectiveCapabilities.in_config := config;
     in_contextWindow := Some (m_contextWindow (d_model e)); hostToolNames := Some (d_hostTools e) |}.

(** A guard call, and a value that is returned or thrown. *)
Definition guard_call {A} (f : CodexProviderRequestGuard → outcome GuardError A * CodexProviderRequestGuard)
    : run_step A :=
  λ s, let '(r, g) := f (ds_guard s) in
       (match r with Ret a => Ret a | Throw e => Throw (err_guard e) end, set_guard g s).

Definition call_hook (e : dispatch_env) (current : option Z) (request : jsval) : run_step jsval := λ s,
  match d_onPayload e with
  | None => (Ret VUndef, s)
  | Some hook =>
      let '(r, (g, st)) := hook current request (ds_guard s, ds_store s) in
      (r, set_store st (set_guard g s))
  end.

(** [guard.run(record, hook)]: the record must be live. *)
Definition run_hook (e : dispatch_env) (gen : Z) (request : jsval) : run_step jsval := λ s,
  if assertLive gen (ds_guard s) then call_hook e (Some gen) request s
  else (Throw (err_guard RECORD_REJECTED), s).

Definition replaced (request replacement : jsval) : run_step jsval :=
  match replacement with VUndef => mret request | _ => lift_plain (asRequest replacement) end.

(** The guarded branch: the approved request and the snapshots it is sent with. *)
Definition approve_guarded (e : dispatch_env) (connection : CodexProviderConnection)
    (config : CodexConfig) (snapshot : EffectiveCapabilitySnapshot) (request : jsval) : run_step NativeCall :=
  match d_options e with
  | None => st_lift (Throw (err_plain "Codex provider session route is unavailable"))
  | Some options =>
      match so_sessionId options with
      | None => st_lift (Throw (err_plain "Codex provider session route is unavailable"))
      | Some sessionId =>
          gen ← guard_call (open sha256Hex {|
            in_options := so_value options; in_options_signal := so_signal options;
            in_sessionId := sessionId; in_model := model_value (d_model e); in_context := VOpaque;
            in_request := request;
            in_inputLedger := match field (default [] (as_record request)) "input" with
              | VArr items => VArr items | _ => VArr [] end;
            in_connection := connection_value connection; RequestGuard.in_config := config_value config;
            in_capabilities := snapshot_value snapshot; in_signal := so_signal options |});
          st_modify (set_request_record gen);;
          replacement ← run_hook e gen request;
          request ← replaced request replacement;
          request ← guard_call (λ g, (assertApproved sha256Hex gen request g, g));
          s ← st_get;
          match heap (ds_guard s) !! gen with
          | None => st_lift (Throw (err_guard RECORD_REJECTED))
          | Some r =>
              let fields v := default [] (as_record v) in
              mret {| nc_connection := in_connection (rec_input r); nc_request := request;
                      nc_transportMode := field (fields (field (fields (field (fields
                        (RequestGuard.in_config (rec_input r))) "codex")) "transport")) "mode";
                      nc_websockets := field (fields (in_capabilities (rec_input r)))
                                         "providerSupportsWebsockets";
                      nc_context := remoteCompactionV2Context
                        (comp_implementation (snap_compaction snapshot)) (d_options e ≫= so_sessionId) None |}
          end
      end
  end.

Definition approve_unguarded (e : dispatch_env) (connection : CodexProviderConnection)
    (config : CodexConfig) (snapshot : EffectiveCapabilitySnapshot) (request : jsval) : run_step NativeCall :=
  replacement ← (match d_options e with Some _ => call_hook e None request | None => mret VUndef end);
  request ← replaced request replacement;
  mret {| nc_connection := connection_value connection; nc_request := request;
          nc_transportMode := lit (transport_mode (codex config));
          nc_websockets := VBool (snap_providerSupportsWebsockets snapshot);
          nc_context := remoteCompactionV2Context
            (comp_implementation (snap_compaction snapshot)) (d_options e ≫= so_sessionId) None |}.

(** [onEvent] of the native call.  The bridge client calls it, and catches what
    it throws: that fails the connection, not this run, and the events that are
    queued are still handled. *)
Definition handle_event (s : dispatch_state) (event : jsval) : dispatch_state := (on_response (accept event) s).2.
Definition handle_events (events : list jsval) (s : dispatch_state) : dispatch_state :=
  fold_left handle_event events s.

(** The native call, the events that are handled until its answer is there, and
    what others do meanwhile.  An abort or a failure rejects the call before its
    queued events are handled: the rest is in [after_run]. *)
Definition create_response (e : dispatch_env) (call : NativeCall) : run_step CreateResponseResult :=
  st_modify (add_call call);;
  st_modify (handle_events (d_events e call));;
  st_modify (λ s, set_store (store_run (d_meanwhile_store e) (ds_store s)).2
                    (set_guard (guard_run sha256Hex (d_meanwhile_guard e) (ds_guard s)) s));;
  st_lift (d_answer e call).

(** The usage of an accounted request whose input is still the one accounted. *)
Definition record_usage (request : jsval) (result : jsval) : run_step unit := λ s,
  match ds_record s ≫= λ gen, heap (ds_guard s) !! gen with
  | None => (Ret tt, s)
  | Some r =>
      match contextAccounting r, responseTotalTokens result, as_record request with
      | Some ca, Some total, Some fs =>
          match field fs "input", field fs "instructions", ds_record s with
          | VArr input, VStr instructions, Some gen =>
              if negb (num_eqb (Z.of_nat (length input)) (ca_inputItemCount ca)) then (Ret tt, s) else
              match digestJson sha256Hex (VArr input), digestJson sha256Hex (VStr instructions) with
              | Throw err, _ => (Throw (err_guard err), s)
              | Ret d, di =>
                  if negb (String.eqb d (ca_inputDigest ca)) then (Ret tt, s) else
                  match di with
                  | Throw err => (Throw (err_guard err), s)
                  | Ret di =>
                      if negb (String.eqb di (ca_instructionsDigest ca)) then (Ret tt, s) else
                      (Ret tt, set_store (recordContextUsage (in_sessionId (rec_input r)) (ca_identity ca)
                         {| generation := ca_generation ca; requestGeneration := gen;
                            totalTokens := total; inputItemCount := ca_inputItemCount ca;
                            inputDigest := ca_inputDigest ca;
                            instructionsDigest := ca_instructionsDigest ca |} (ds_store s)).2 s)
                  end
              end
          | _, _, _ => (Ret tt, s)
          end
      | _, _, _ => (Ret tt, s)
      end
  end.

(** ** [runResponse] *)

Definition prepare_request (e : dispatch_env)
    : run_step (CodexProviderConnection * CodexConfig * EffectiveCapabilitySnapshot * jsval) :=
  fail_unless (negb match d_options e with Some o => so_fetch o | None => false end)
    (err_capability (capability_error provider_capability_unavailable
       "Codex provider does not support custom fetch for native dispatch"));;
  fail_unless (isActive (Some {| am_provider := m_provider (d_model e); am_api := m_api (d_model e) |})
                 (d_providers e))
    (err_capability (capability_error inactive_provider
       "Codex dispatch is inactive for the selected provider and API"));;
  connection ← lift_plain (createProviderConnection (m_provider (d_model e)) (m_baseUrl (d_model e))
                 match d_options e with Some o => so_connection o | None => default_options end);
  config ← st_lift (d_config e);
  fail_unless (d_isHealthy e (capabilityCacheKey (capability_input e config)))
    (err_capability (capability_error effective_capability_invalid
       "Codex tool profile is unavailable for the selected capability"));;
  snapshot ← st_lift (d_resolve e (capability_input e config));
  request ← lift_plain (buildCodexRequest (d_model e) (d_context e) (d_options e) (codex config)
              (snap_modelTools snapshot) snapshot);
  mret (connection, config, snapshot, request).

Definition complete_response (e : dispatch_env) (result : CreateResponseResult) : run_step unit :=
  s ← st_get;
  fail_unless (negb (String.eqb (res_status result) "aborted" || signal_is_aborted e s)) AbortError;;
  if String.eqb (res_status result) "completed" then
    on_response (λ r, (Ret tt, complete (res_result result) stop r))
  else if String.eqb (res_status result) "incomplete" then
    on_response (λ r, (Ret tt, complete (res_result result) stop_length r))
  else st_lift (Throw (err_plain ("OpenAI Codex response ended with status " ++ res_status result)%string)).

(** The [try] block. *)
Definition run_body (e : dispatch_env) : run_step unit :=
  '(connection, config, snapshot, request) ← prepare_request e;
  call ← (if d_guarded e then approve_guarded e connection config snapshot request
          else approve_unguarded e connection config snapshot request);
  result ← create_response e call;
  complete_response e result;;
  record_usage (nc_request call) (res_result result);;
  s ← st_get;
  match stopReason (ds_response s) with
  | stop_pending => st_lift (Throw (err_plain "OpenAI Codex response ended without a terminal success reason"))
  | reason => st_modify (push_terminal (done_event reason))
  end.

(** The [catch] block, and the [finally] block. *)
Definition run_failed (e : dispatch_env) (thrown : provider_error) : stateful dispatch_state Empty_set unit :=
  let error := thrown_error (d_cause_error e) thrown in
  st_modify (λ s, push_terminal (error_event (signal_is_aborted e s || isAbortError error)
                                   (toPiProviderErrorMessage error)) s).

Definition consume_record (e : dispatch_env) (s : dispatch_state) : dispatch_state :=
  match d_guarded e, ds_record s with
  | true, Some gen => set_guard (consume gen (ds_guard s)) s
  | _, _ => s
  end.

Definition start_state (g : CodexProviderRequestGuard) (st : CodexCompactionStore) : dispatch_state :=
  {| ds_guard := g; ds_store := st; ds_response := new_response; ds_record := None; ds_calls := [];
     ds_stream := [] |}.

Definition runResponse (e : dispatch_env) (g : CodexProviderRequestGuard) (st : CodexCompactionStore)
    : dispatch_state :=
  (st_finally (st_catch (run_body e) (run_failed e)) (consume_record e)
     (stream_push [start_event] (start_state g st))).2.

(** The events of the native call that were still queued when the run ended. *)
Definition after_run (e : dispatch_env) (s : dispatch_state) : dispatch_state :=
  match ds_calls s with
  | (_, call) :: _ => handle_events (d_late e call) s
  | [] => s
  end.

(** [createCodexStreamSimple]: the options are copied before anything runs. *)
Definition createCodexStreamSimple (e : dispatch_env) (g : CodexProviderRequestGuard)
    (st : CodexCompactionStore) : outcome GuardError dispatch_state :=
  options ← match d_options e with
    | None => Ret VUndef
    | Some o => snapshotSimpleStreamOptions (so_value o)
    end;
  Ret (runResponse e g st).

End dispatch.
