(* ===== verification/DispatchFacts.v ===== *)
(** * DispatchFacts

    The contract of [runResponse]: one terminal event and one end on every path,
    in front of which the stream rebuilds the message, at most one native call,
    made with the approved request, and a record that is closed when the run
    ends. *)

From Stdlib Require Import QArith Qcanon.
From S2P Require Import Prelude StructuredJson Config Compaction CompactionStore Capability.
From S2P Require Import EffectiveCapabilities Json ConfigStore Normalization ResponseStream.
From S2P Require Import ResponseItems Credentials RequestGuard RequestGuardFacts Connection ToolSurface.
From S2P Require Import ResponseStreamFacts Dispatch.

Section dispatch.
Context `{JsonText} `{UrlApi} (sha256Hex : string → string).

(** ** Steps that leave the stream alone *)

(** The stream has the start event and then what the response pushed, and what it
    pushed rebuilds the content of the message. *)
Definition streaming (s : dispatch_state) : Prop :=
  ds_stream s = start_event :: (block_event <$> pushed_events (ds_response s)) ∧ inv (ds_response s).

Definition idle (calls : list (CodexProviderRequestGuard * NativeCall)) (record : option Z)
    (s : dispatch_state) : Prop :=
  ds_calls s = calls ∧ ds_record s = record ∧ streaming s.

(** From [s] to [s'] the response pushed [es], and nothing else was done. *)
Record responded (s : dispatch_state) (es : list stream_event) (s' : dispatch_state) : Prop := {
  rs_stream : ds_stream s' = ds_stream s ++ (block_event <$> es);
  rs_pushed : pushed_events (ds_response s') = pushed_events (ds_response s) ++ es;
  rs_inv : inv (ds_response s');
  rs_calls : ds_calls s' = ds_calls s;
  rs_record : ds_record s' = ds_record s;
  rs_guard : ds_guard s' = ds_guard s;
  rs_store : ds_store s' = ds_store s }.

Lemma on_response_responded {A} (f : ResponseState → A * ResponseState) s :
  (∀ r, inv r → inv (f r).2) → (∀ es r, longer es r → longer es (f r).2) → inv (ds_response s) →
  ∃ es, responded s es (on_response f s).2.
Proof.
  intros Hi Hl Hs. specialize (Hi _ Hs). specialize (Hl (pushed_events (ds_response s)) (ds_response s) (reflexivity _)).
  unfold on_response. destruct (f (ds_response s)) as [a r]. destruct Hl as [es Hes]. cbn in Hi, Hes.
  exists es. split; cbn; try done. by rewrite Hes, drop_app_length.
Qed.

Lemma responded_trans s1 s2 s3 es1 es2 : responded s1 es1 s2 → responded s2 es2 s3 → responded s1 (es1 ++ es2) s3.
Proof.
  intros [A1 A2 _ A4 A5 A6 A7] [B1 B2 B3 B4 B5 B6 B7]. split; try congruence.
  - by rewrite B1, A1, fmap_app, (assoc_L (++)).
  - by rewrite B2, A2, (assoc_L (++)).
Qed.

Lemma handle_events_responded vs s : inv (ds_response s) → ∃ es, responded s es (handle_events vs s).
Proof.
  revert s. induction vs as [|v vs IH]; intros s Hs.
  { exists []. split; cbn; rewrite ?app_nil_r; done. }
  destruct (on_response_responded (accept v) s) as [es1 H1]; [apply inv_accept|intros es; apply longer_accept|done|].
  destruct (IH _ (rs_inv _ _ _ H1)) as [es2 H2]. exists (es1 ++ es2). by eapply responded_trans.
Qed.

Lemma idle_responded calls record s es s' : idle calls record s → responded s es s' → idle calls record s'.
Proof.
  intros (Hc & Hr & Hst & _) []. split_and!; [congruence..|]. split; [|done].
  rewrite rs_stream0, rs_pushed0, Hst, fmap_app. done.
Qed.

Lemma idle_guard_call {A} calls record
    (f : CodexProviderRequestGuard → outcome GuardError A * CodexProviderRequestGuard) :
  preserves (idle calls record) (guard_call f).
Proof. intros s Hs. unfold guard_call. by destruct (f (ds_guard s)). Qed.

Lemma idle_call_hook calls record e current request :
  preserves (idle calls record) (call_hook e current request).
Proof.
  intros s Hs. unfold call_hook. destruct (d_onPayload e) as [hook|]; [|done].
  by destruct (hook _ _ _) as [r [g st]].
Qed.

Lemma idle_run_hook calls record e gen request :
  preserves (idle calls record) (run_hook e gen request).
Proof.
  intros s Hs. unfold run_hook. destruct (assertLive _ _); [by apply idle_call_hook|done].
Qed.

Lemma idle_modify calls record f :
  (∀ s, ds_calls (f s) = ds_calls s ∧ ds_record (f s) = ds_record s ∧
        ds_stream (f s) = ds_stream s ∧ ds_response (f s) = ds_response s) →
  preserves (E := provider_error) (idle calls record) (st_modify f).
Proof.
  intros Hf s (? & ? & ? & ?). destruct (Hf s) as (? & ? & ? & Hr). unfold idle, streaming. simpl. rewrite Hr.
  by split_and!; congruence.
Qed.

Ltac idle_step :=
  first
    [ apply preserves_bind; [|intros ?] | apply preserves_lift | apply preserves_ret | apply preserves_get
    | apply idle_guard_call | apply idle_call_hook | apply idle_run_hook
    | apply idle_modify; intros ?; done
    | match goal with |- preserves _ (match ?x with _ => _ end) => destruct x end ].
Ltac idle_steps := repeat idle_step.

Lemma idle_prepare_request calls record e : preserves (idle calls record) (prepare_request e).
Proof. unfold prepare_request, fail_unless, lift_plain. idle_steps. Qed.

Lemma idle_replaced calls record request replacement :
  preserves (idle calls record) (replaced request replacement).
Proof. unfold replaced, lift_plain. idle_steps. Qed.

Lemma idle_approve_unguarded calls record e c config snapshot request :
  preserves (idle calls record) (approve_unguarded e c config snapshot request).
Proof.
  unfold approve_unguarded. apply preserves_bind; [idle_steps|intros ?].
  apply preserves_bind; [apply idle_replaced|intros ?]. idle_steps.
Qed.

(** ** The guarded branch *)

(** The call carries the request that stands approved for the live record it
    belongs to, no failure being on record, and the record's connection. *)
Definition approved_call (gen : Z) (call : NativeCall) (g : CodexProviderRequestGuard) : Prop :=
  assertLive gen g = true ∧
  ∃ r, heap g !! gen = Some r ∧ failure r = None ∧ approvedRequest r = Some (nc_request call) ∧
       nc_connection call = in_connection (rec_input r).

Lemma assertApproved_inv gen request req g :
  assertApproved sha256Hex gen request g = Ret req →
  assertLive gen g = true ∧ ∃ r, heap g !! gen = Some r ∧ failure r = None ∧ approvedRequest r = Some req.
Proof.
  unfold assertApproved. intros (r & [Hl Hr]%live_record_ret & Ha)%bind_ret_iff. split; [done|].
  exists r. split; [done|]. destruct (failure r); [done|]. split; [done|].
  destruct (approvedRequest r) as [a|]; [|done]. destruct (approvedDigest r); [|done].
  destruct (as_record request); [|done]. apply bind_ret_iff in Ha as (d & _ & Ha).
  destruct (String.eqb _ _); [|done]. by injection Ha as ->.
Qed.

Lemma approve_guarded_spec e c config snapshot request s :
  idle [] None s →
  swp (approve_guarded sha256Hex e c config snapshot request) (λ r s',
    match r with
    | Ret call => ∃ gen, idle [] (Some gen) s' ∧ approved_call gen call (ds_guard s')
    | Throw _ => ∃ record, idle [] record s'
    end) s.
Proof.
  intros Hs. unfold approve_guarded. destruct (d_options e) as [o|]; [|by exists None].
  destruct (so_sessionId o) as [sid|]; [|by exists None].
  apply swp_bind. eapply swp_preserves; [apply (idle_guard_call [] None)|done|].
  intros [gen|err] s1 Hs1; [|by exists None].
  apply swp_bind, swp_modify, swp_bind.
  eapply swp_preserves; [apply (idle_run_hook [] (Some gen))|by destruct Hs1 as (? & _ & ?)|].
  intros [rep|err] s2 Hs2; [|by exists (Some gen)].
  apply swp_bind. eapply swp_preserves; [apply (idle_replaced [] (Some gen))|done|].
  intros [req|err] s3 Hs3; [|by exists (Some gen)].
  apply swp_bind. unfold swp at 1, guard_call.
  destruct (assertApproved sha256Hex gen req (ds_guard s3)) as [a|] eqn:Ha; [|by exists (Some gen)].
  apply assertApproved_inv in Ha as (Hl & r & Hr & Hf & Hap).
  apply swp_bind, swp_get. simpl. rewrite Hr. apply swp_ret. exists gen.
  split; [done|]. split; [done|]. by exists r.
Qed.

(** ** The native call and after *)

Definition called (g : CodexProviderRequestGuard) (call : NativeCall) (record : option Z) : dispatch_state → Prop :=
  idle [(g, call)] record.

Lemma create_response_spec e call record s :
  idle [] record s →
  swp (create_response sha256Hex e call) (λ _ s', called (ds_guard s) call record s') s.
Proof.
  intros (Hc & Hr & Hst). unfold create_response. apply swp_bind, swp_modify.
  assert (Hs : called (ds_guard s) call record (add_call call s)).
  { unfold called, idle. simpl. by rewrite Hc. }
  revert Hs. generalize (add_call call s). intros s1 Hs1.
  apply swp_bind, swp_modify.
  destruct (handle_events_responded (d_events e call) s1) as [es Hes]; [apply Hs1|].
  apply (idle_responded _ _ _ _ _ Hs1) in Hes. by apply swp_bind, swp_modify, swp_lift.
Qed.

Lemma inv_complete v r s : inv s → inv (complete v r s).
Proof.
  intros Hs. destruct (inv_endOpenBlocks s Hs) as ([Hr Ht Hth Hc] & _).
  unfold complete. destruct (as_record v); by split.
Qed.

Lemma complete_not_pending v r s : r = stop ∨ r = stop_length → stopReason (complete v r s) ≠ stop_pending.
Proof.
  unfold complete. intros Hr.
  destruct (as_record v); simpl; (destruct Hr as [-> | ->]; [|done]); by destruct (hasToolCall _).
Qed.

Lemma complete_response_spec e result calls record s :
  idle calls record s →
  swp (complete_response e result) (λ r s', idle calls record s' ∧
    match r with Ret _ => stopReason (ds_response s') ≠ stop_pending | Throw _ => True end) s.
Proof.
  intros Hs. unfold complete_response, fail_unless. apply swp_bind, swp_get, swp_bind, swp_lift.
  destruct (negb _); [|done].
  assert (Hc : ∀ reason, reason = stop ∨ reason = stop_length →
    swp (E := provider_error) (on_response (λ r, (Ret tt, complete (res_result result) reason r)))
      (λ r s', idle calls record s' ∧
         match r with Ret _ => stopReason (ds_response s') ≠ stop_pending | Throw _ => True end) s).
  { intros reason Hreason. split; [|by apply complete_not_pending].
    destruct (on_response_responded (λ r, (Ret (E := provider_error) tt, complete (res_result result) reason r)) s)
      as [es Hes]; [intros r; apply inv_complete|intros es r; apply longer_complete|apply Hs|].
    by eapply idle_responded. }
  destruct (String.eqb _ _); [apply Hc; by left|]. destruct (String.eqb _ _); [apply Hc; by right|done].
Qed.

Lemma record_usage_spec request result calls record s :
  idle calls record s →
  swp (record_usage sha256Hex request result) (λ _ s', idle calls record s' ∧ ds_response s' = ds_response s) s.
Proof.
  intros Hs. unfold swp, record_usage. repeat case_match; simplify_eq/=; by split.
Qed.

(** ** The body *)

(** The calls a run has made: at most one, approved if there is a guard. *)
Definition calls_ok (e : dispatch_env) (s : dispatch_state) : Prop :=
  ds_calls s = [] ∨
  ∃ g call, ds_calls s = [(g, call)] ∧
    (d_guarded e = true → ∃ gen, ds_record s = Some gen ∧ approved_call gen call g).

(** The stream of a run that is over. *)
Definition ended_with (t : terminal) (s : dispatch_state) : Prop :=
  ds_stream s = start_event :: (block_event <$> pushed_events (ds_response s)) ++ [terminal_event t; stream_end] ∧
  inv (ds_response s).

Lemma push_terminal_ends t s : streaming s → ended_with t (push_terminal t s).
Proof. intros [Hs Hi]. split; [|done]. cbn. by rewrite Hs. Qed.

Lemma run_body_spec e s :
  idle [] None s →
  swp (run_body sha256Hex e) (λ r s', calls_ok e s' ∧
    match r with
    | Ret _ => ds_calls s' ≠ [] ∧ stopReason (ds_response s') ≠ stop_pending ∧
               ended_with (done_event (stopReason (ds_response s'))) s'
    | Throw _ => streaming s'
    end) s.
Proof.
  assert (Hnone : ∀ record s', idle [] record s' → calls_ok e s' ∧ streaming s').
  { intros record s' (? & _ & ?). split; [by left|done]. }
  intros Hs. unfold run_body. apply swp_bind.
  eapply swp_preserves; [apply (idle_prepare_request [] None)|done|].
  intros [[[[c config] snapshot] request]|err] s1 Hs1; [|by eapply Hnone].
  apply swp_bind.
  apply (swp_mono _ (λ r s', match r with
    | Ret call => ∃ record, idle [] record s' ∧
        (d_guarded e = true → ∃ gen, record = Some gen ∧ approved_call gen call (ds_guard s'))
    | Throw _ => ∃ record, idle [] record s' end)).
  { destruct (d_guarded e) eqn:Hg.
    - eapply swp_mono; [by apply approve_guarded_spec|]. intros [call|err] s' Hpost; [|done].
      destruct Hpost as (gen & Hi & Ha). exists (Some gen). split; [done|]. intros _. by exists gen.
    - eapply swp_preserves; [apply (idle_approve_unguarded [] None)|done|].
      intros [call|err] s' Hi; [|by exists None]. exists None. by split. }
  intros [call|err] s2; [|intros (record & Hi); by eapply Hnone].
  intros (record & Hi & Happ). apply swp_bind.
  eapply swp_mono; [by apply create_response_spec|]. intros r s3 Hcalled.
  assert (Hok : ∀ s', called (ds_guard s2) call record s' → calls_ok e s' ∧ streaming s').
  { intros s' (Hc & Hr & ?). split; [|done]. right. exists (ds_guard s2), call. split; [done|].
    intros Hg. destruct (Happ Hg) as (gen & -> & ?). by exists gen. }
  destruct r as [result|err]; [|by apply Hok].
  apply swp_bind. eapply swp_mono; [by eapply complete_response_spec|].
  intros [[]|err] s4 [Hs4 Hstop]; [|by apply Hok].
  apply swp_bind. eapply swp_mono; [by eapply record_usage_spec|].
  intros [[]|err] s5 [Hs5 Hresp]; [|by apply Hok].
  apply swp_bind, swp_get. rewrite <-Hresp in Hstop. destruct (Hok _ Hs5) as (Hcalls & Hst).
  destruct Hs5 as (Hc & _).
  assert (Hend : swp (E := provider_error) (st_modify (push_terminal (done_event (stopReason (ds_response s5)))))
    (λ r s', calls_ok e s' ∧ match r with
      | Ret _ => ds_calls s' ≠ [] ∧ stopReason (ds_response s') ≠ stop_pending ∧
                 ended_with (done_event (stopReason (ds_response s'))) s'
      | Throw _ => streaming s' end) s5).
  { apply swp_modify. split; [done|]. split_and!; [cbn; by rewrite Hc|done|]. by apply (push_terminal_ends _ s5). }
  by destruct (stopReason (ds_response s5)).
Qed.

Lemma consume_not_live gen g : assertLive gen (RequestGuard.consume gen g) = false.
Proof.
  apply not_true_iff_false. intros (r & Hr & _ & Hc & Hin & _)%assertLive_iff.
  unfold RequestGuard.consume in *. destruct (heap g !! gen) as [r0|] eqn:Hr0; [|congruence].
  destruct (rec_closed r0) eqn:Hc0; [congruence|].
  unfold close_record in *. rewrite Hr0 in *. simpl in *. rewrite lookup_insert_eq in Hr.
  injection Hr as <-. done.
Qed.

(** C1: Every run of [runResponse], whatever fails in it and whatever others
    do to the guard meanwhile, pushes the start event, then block events that
    rebuild exactly the content of the message, then one terminal event, and then
    ends the stream, once.  The terminal event is a success only after a native
    call, with the message's own stop reason.  Afterwards only block events can
    follow, and only if the bridge client hands over events of the call that were
    still queued when it was settled: they go on from the content the terminal
    event found.  At most one native call is
    made; under a guard it carries the request that at that moment stands
    approved, with no failure on record, for the live record of this very run,
    over the connection the record holds.  When the run is over that record is
    no longer live, and stays so. *)
Theorem dispatch_contract e g st :
  let s := runResponse sha256Hex e g st in
  let s' := after_run e s in
  (∃ before t after,
     ds_stream s = start_event :: (block_event <$> before) ++ [terminal_event t; stream_end] ∧
     replay before = Some (view_of (ds_response s)) ∧
     ds_stream s' = ds_stream s ++ (block_event <$> after) ∧
     replay (before ++ after) = Some (view_of (ds_response s')) ∧
     (∀ reason, t = done_event reason →
        ds_calls s ≠ [] ∧ reason = stopReason (ds_response s) ∧ reason ≠ stop_pending)) ∧
  ((∀ g call, (g, call) ∈ ds_calls s → d_late e call = []) → s' = s) ∧
  calls_ok e s ∧ ds_calls s' = ds_calls s ∧
  (∀ gen, d_guarded e = true → ds_record s = Some gen → assertLive gen (ds_guard s') = false).
Proof.
  intros s s'.
  assert (Hinit : idle [] None (stream_push [start_event] (start_state g st))).
  { split_and!; [done..|]. split; [done|apply inv_new]. }
  pose proof (run_body_spec e _ Hinit) as Hb. unfold swp in Hb.
  assert (Hfin : ∃ s2 t, s = consume_record e s2 ∧ calls_ok e s2 ∧ ended_with t s2 ∧
    (∀ reason, t = done_event reason →
       ds_calls s2 ≠ [] ∧ reason = stopReason (ds_response s2) ∧ reason ≠ stop_pending)).
  { unfold runResponse, st_finally, st_catch in s. destruct (run_body sha256Hex e _) as [[[]|err] s1];
      destruct Hb as [Hcalls Hr].
    - destruct Hr as (? & ? & Ht). exists s1, (done_event (stopReason (ds_response s1))).
      split_and!; try done. by intros reason [= <-].
    - subst s. eexists (push_terminal _ s1), _. split; [reflexivity|].
      split_and!; [done|by apply push_terminal_ends|done]. }
  destruct Hfin as (s2 & t & Hs & Hc & [Hst Hi] & Hdone).
  assert (Hsame : ds_calls s = ds_calls s2 ∧ ds_record s = ds_record s2 ∧ ds_stream s = ds_stream s2 ∧
    ds_response s = ds_response s2).
  { rewrite Hs. unfold consume_record. destruct (d_guarded e); [|done]. by destruct (ds_record s2) eqn:E; rewrite ?E. }
  destruct Hsame as (E1 & E2 & E3 & E4).
  assert (Hlate : ∃ es, responded s es s').
  { subst s'. unfold after_run. destruct (ds_calls s) as [|[g' call] calls].
    - exists []. rewrite <-E4 in Hi. split; rewrite ?app_nil_r; done.
    - apply handle_events_responded. by rewrite E4. }
  destruct Hlate as [after Hafter]. split_and!.
  - exists (pushed_events (ds_response s)), t, after. destruct Hafter. split_and!.
    + by rewrite E3, Hst, E4.
    + rewrite E4. apply Hi.
    + done.
    + rewrite <-rs_pushed0. by apply rs_inv0.
    + by rewrite E1, E4.
  - intros Hnone. subst s'. unfold after_run. destruct (ds_calls s) as [|[g' call] calls]; [done|].
    by rewrite (Hnone g' call) by (by left).
  - unfold calls_ok. by rewrite E1, E2.
  - apply Hafter.
  - intros gen Hg Hrec. rewrite (rs_guard _ _ _ Hafter), Hs. rewrite E2 in Hrec. unfold consume_record.
    rewrite Hg, Hrec. apply consume_not_live.
Qed.
(** A delta that was queued when an abort settled the call is pushed behind the
    terminal event and the end, and the message the terminal event carries gets a
    block it did not have. *)
Lemma late_delta_follows_the_end e s g call d :
  ds_calls s = [(g, call)] → ds_response s = new_response →
  d_late e call = [VObj [("type", VStr "response.output_text.delta"); ("delta", VStr d)]] →
  ds_stream (after_run e s) = ds_stream s ++ [block_event (text_start 0); block_event (text_delta 0 d)] ∧
  content (ds_response (after_run e s)) = [text_block d None].
Proof.
  intros Hc Hr Hl. unfold after_run. rewrite Hc, Hl. cbn [handle_events fold_left].
  unfold handle_event, on_response. rewrite Hr. done.
Qed.
End dispatch.
