(* ===== verification/ManualCompaction.v ===== *)
(** * ManualCompaction

    [src/src/integration/pi/codex-compaction.ts]: the compaction Pi asks for
    ([compactForPi]) and the session events that reset its state, over the
    state of [Replay].

    The environment holds what is awaited and when the signal was aborted;
    [mc_during] are the calls others make to the coordinator while the native
    compaction runs. *)

From S2P Require Import Prelude Config StructuredJson Compaction CompactionStore Capability EffectiveCapabilities Json.
From S2P Require Import RequestGuard ConfigStore Normalization Credentials ResponseStream ResponseItems Replay ReplayFacts Connection.

Definition INACTIVE_MESSAGE : string :=
  "Codex compaction is inactive for the selected provider and API".

Inductive CompactReason := reason_manual | reason_threshold | reason_overflow.
#[export] Instance CompactReason_eq_dec : EqDecision CompactReason. Proof. solve_decision. Defined.

(** [undefined], a cancellation with its message, or a checkpoint. *)
Inductive SessionBeforeCompactResult :=
| not_ours
| cancel_compaction (errorMessage : option string)
| compacted (proposal : ProviderCheckpointProposal).

(** What an [Error] says. *)
Definition error_message (err : handle_error) : string :=
  match err with
  | REPLAY_ERROR => "OpenAI Codex request could not be safely reconstructed"
  | CodexProviderContextWindowError => "the request reached the model context checkpoint threshold"
  | guard_error RECORD_UNAVAILABLE => "Codex provider request approval is unavailable"
  | guard_error RECORD_REJECTED => "Codex provider request failed approval"
  | guard_error (failure_cause cause) => match cause with VStr s => s | _ => "" end
  | AbortError => "The bridge request was aborted"
  | handle_message message => message
  end.

Record compact_model := {
  cm_model : PiModel; cm_modelId : string; cm_input : list Modality; cm_contextWindow : jsnum }.

Record manual_env := {
  mc_sessionId : string;
  mc_model : option compact_model;
  mc_providers : list string;                     (* of the activation policy *)
  mc_customInstructions : option string;
  mc_reason : CompactReason;
  mc_token : option jsval;
  mc_aborted_start : bool;                        (* the signal, when the handler starts *)
  mc_aborted_before : bool;                       (* before the native call *)
  mc_aborted_after : bool;                        (* after it *)
  mc_aborted_failed : bool;                       (* when an error is handled *)
  mc_branch : list SessionEntry;
  mc_firstKept : string;
  mc_leafId : option string;                      (* after the native call *)
  mc_auth : PiModel → option (option string * option (list (string * option string)));
  mc_config : outcome handle_error CodexConfig;
  mc_hostTools : list ManagedToolName;
  mc_isHealthy : jsval → bool;
  mc_resolve : ResolveEffectiveCapabilitiesInput → outcome handle_error EffectiveCapabilitySnapshot;
  mc_compact : jsval → outcome handle_error CompactAnswer;
  mc_checkpointId : string;
  mc_during : list coordinator_op }.

Section manual.
Context `{JsonText} `{UrlApi} (sha256Hex : string → string).
Context (sessionEntryToContextMessages : SessionEntry → list jsval).
Context (convertToLlm : list jsval → list jsval).

(** [event.customInstructions?.trim()] as a condition. *)
Definition has_instructions (e : manual_env) : bool :=
  match mc_customInstructions e with
  | Some s => (0 <? String.length (trim s))%nat | None => false end.

Definition manual_capability_input (e : manual_env) (m : compact_model) (config : CodexConfig)
    : ResolveEffectiveCapabilitiesInput :=
  {| in_modelId := cm_modelId m; in_providerId := pm_provider (cm_model m);
     modelInputModalities := cm_input m; EffectiveCapabilities.in_config := config;
     in_contextWindow := Some (cm_contextWindow m); hostToolNames := Some (mc_hostTools e) |}.

(** The connection, configuration and snapshot, or the early cancellation. *)
Definition manual_prepare (e : manual_env) (m : compact_model)
    : outcome handle_error (option (CodexProviderConnection * CodexConfig * EffectiveCapabilitySnapshot)) :=
  connection ← lift_message (resolveProviderConnection (Some (cm_model m)) (mc_providers e)
                               INACTIVE_MESSAGE (mc_auth e));
  config ← mc_config e;
  match compaction_mode (compaction (codex config)) with
  | mode_off => Ret None
  | mode_auto =>
      let input := manual_capability_input e m config in
      if negb (mc_isHealthy e (capabilityCacheKey input))
      then Throw (handle_message "Codex tool profile is unavailable for the selected capability") else
      snapshot ← mc_resolve e input;
      match comp_implementation (snap_compaction snapshot) with
      | None => Throw (handle_message "OpenAI Codex Remote Compaction is unavailable")
      | Some _ => Ret (Some (connection, config, snapshot))
      end
  end.

(** The entry before the first kept one. *)
Definition covered_entry (e : manual_env) : option (nat * SessionEntry) :=
  firstKeptIndex ← find_entry (mc_firstKept e) (mc_branch e);
  match firstKeptIndex with
  | 0 => None
  | S i => entry ← mc_branch e !! i; Some (firstKeptIndex, entry)
  end.

(** The scan up to the first kept entry. *)
Definition manual_scan (e : manual_env) (identity : CodexCompactionIdentity) (firstKeptIndex : nat)
    : CheckpointScan :=
  scan_from (length (mc_branch e)) (mc_branch e) identity firstKeptIndex false.

Definition manual_input (e : manual_env) (scan : CheckpointScan) (firstKeptIndex : nat)
    : outcome handle_error (list jsval) :=
  match matching scan with
  | None => projectCanonicalEntries sessionEntryToContextMessages convertToLlm
              (take firstKeptIndex (mc_branch e))
  | Some selection => checkpointPayload sessionEntryToContextMessages convertToLlm selection
                        (mc_branch e) firstKeptIndex
  end.

(** From [execution = true] to the successful return. *)
Definition manual_execute (e : manual_env) (m : compact_model) (token : jsval)
    (connection : CodexProviderConnection) (config : CodexConfig) (snapshot : EffectiveCapabilitySnapshot)
    : handler ProviderCheckpointProposal :=
  let sessionId := mc_sessionId e in
  '(firstKeptIndex, covered) ← st_lift match covered_entry e with
    | Some c => Ret c
    | None => Throw (handle_message "Codex compaction boundary is unavailable") end;
  let identity := providerCompactionIdentityFromValues sha256Hex sessionId (cm_modelId m)
                    (pm_api (cm_model m)) (details connection) in
  identity ← st_lift match identity with
    | Some i => Ret i
    | None => Throw (handle_message "OpenAI Codex compaction credentials are unsupported") end;
  let scan := manual_scan e identity firstKeptIndex in
  warn_mismatch scan sessionId identity;;
  input ← st_lift (manual_input e scan firstKeptIndex);
  (if match input with [] => true | _ => false end
   then st_lift (Throw (handle_message "Codex compaction input is empty")) else mret tt);;
  st_modify (λ s, with_coordinator
    (fold_left (λ c op, (coordinator_step op c).2) (mc_during e) (h_coordinator s)) s);;
  '(proposal, _) ← st_lift (createRemoteCheckpointProposal (comp_implementation (snap_compaction snapshot))
    (Some identity) (mc_compact e)
    (buildCompactRequest (cm_modelId m) input [] snapshot config sessionId)
    input (entry_id covered) (mc_checkpointId e) token (mc_aborted_before e) (mc_aborted_after e));
  (if mc_aborted_after e || negb (bool_decide (mc_leafId e = entry_id <$> last (mc_branch e)))
   then st_lift (Throw (handle_message "Codex compaction became stale")) else mret tt);;
  st_modify (λ s, with_store (invalidateContextAccounting sessionId (h_store s)) s);;
  st_modify (λ s, with_coordinator (end_ sessionId success (h_coordinator s)) s);;
  mret proposal.

(** The [catch] block. *)
Definition manual_failed (e : manual_env) (execution : bool) (err : handle_error)
    : handler SessionBeforeCompactResult :=
  (if execution then
     st_modify (λ s, with_coordinator
       (end_ (mc_sessionId e) (if mc_aborted_failed e then cancel else error) (h_coordinator s)) s)
   else mret tt);;
  mret (if mc_aborted_failed e then cancel_compaction None
        else cancel_compaction (Some (error_message err))).

Definition manual_try (e : manual_env) (m : compact_model) (token : jsval)
    : handler SessionBeforeCompactResult :=
  match manual_prepare e m with
  | Throw err => manual_failed e false err
  | Ret None => mret (cancel_compaction None)
  | Ret (Some (connection, config, snapshot)) =>
      began ← (λ s, let '(b, c) := beginExecution (mc_sessionId e) (h_coordinator s) in
                    (Ret b, with_coordinator c s));
      if negb began then mret (cancel_compaction None) else
      st_catch (proposal ← manual_execute e m token connection config snapshot; mret (compacted proposal))
        (manual_failed e true)
  end.

Definition compactForPi (e : manual_env) : handler SessionBeforeCompactResult :=
  match mc_model e with
  | None => mret not_ours
  | Some m =>
      if negb (isActive (Some (activation_model (cm_model m))) (mc_providers e)) then mret not_ours
      else if has_instructions e
      then mret (cancel_compaction (Some "Codex remote compaction does not support custom instructions"))
      else if bool_decide (mc_reason e = reason_threshold) then mret (cancel_compaction None)
      else if mc_aborted_start e then mret (cancel_compaction None)
      else match mc_token e with
           | None => mret (cancel_compaction (Some "Codex checkpoint capability is unavailable"))
           | Some token => manual_try e m token
           end
  end.

(** ** Session events

    The host's boundary setter does not throw, so the outer handlers of
    [restore] have nothing to catch. *)

Definition restore (r : environment) (e : manual_env) : handler unit :=
  restoreProviderCheckpointUsageBoundary sha256Hex r
    match resolveProviderConnection (cm_model <$> mc_model e) (mc_providers e) INACTIVE_MESSAGE (mc_auth e) with
    | Ret connection => Some (details connection)
    | Throw _ => None
    end.

Definition dispose_session (sessionId : string) : handler unit :=
  st_modify (λ s, with_store (store_dispose sessionId (h_store s))
                    (with_coordinator (coordinator_dispose sessionId (h_coordinator s)) s)).

Definition on_session_start (r : environment) (e : manual_env) : handler unit :=
  dispose_session (mc_sessionId e);; restore r e.

(** [model_select] and [session_tree]. *)
Definition on_model_select (r : environment) (e : manual_env) : handler unit :=
  st_modify (λ s, with_store (invalidateContextAccounting (mc_sessionId e) (h_store s)) s);;
  restore r e.

Definition on_session_shutdown (e : manual_env) : handler unit := dispose_session (mc_sessionId e).

End manual.

(** * ManualCompaction: facts

    The contract of [compactForPi]: it answers on every path, frees the
    session it began to execute, and proposes only the checkpoint it was
    asked for. *)

Section manual.
Context `{JsonText} `{UrlApi} (sha256Hex : string → string).
Context (sessionEntryToContextMessages : SessionEntry → list jsval).
Context (convertToLlm : list jsval → list jsval).

(** What a proposed checkpoint is: valid, of the session, model and
    credentials of the connection made for this compaction, covering the
    entry just before the first one kept, in a session whose leaf is still
    the last entry of the branch, the signal not aborted. *)
Definition manual_checkpoint (e : manual_env) (p : ProviderCheckpointProposal) : Prop :=
  let cp := proposal_checkpoint p in
  valid_checkpoint cp ∧ proposal_checkpointId p = mc_checkpointId e ∧
  (∃ m connection,
     mc_model e = Some m ∧ mc_reason e ≠ reason_threshold ∧
     resolveProviderConnection (Some (cm_model m)) (mc_providers e) INACTIVE_MESSAGE (mc_auth e) = Ret connection ∧
     providerCompactionIdentityFromValues sha256Hex (mc_sessionId e) (cm_modelId m)
       (pm_api (cm_model m)) (details connection) = Some (cp_identity cp)) ∧
  (∃ i kept entry, find_entry (mc_firstKept e) (mc_branch e) = Some (S i) ∧
     mc_branch e !! i = Some entry ∧ kept = S i ∧ entry_id entry = coveredEntryId cp) ∧
  mc_leafId e = entry_id <$> last (mc_branch e) ∧ mc_aborted_after e = false.

Definition others (e : manual_env) (c : coordinator) : coordinator :=
  fold_left (λ c op, (coordinator_step op c).2) (mc_during e) c.

(** The coordinator of a run that began to execute, before it ends: what the
    others made of it. *)
Definition executing_state (e : manual_env) (c0 : coordinator) (s : handler_state) : Prop :=
  h_coordinator s = c0 ∨ h_coordinator s = others e c0.

Lemma covered_entry_inv e i covered :
  covered_entry e = Some (i, covered) →
  ∃ j, i = S j ∧ find_entry (mc_firstKept e) (mc_branch e) = Some (S j) ∧ mc_branch e !! j = Some covered.
Proof.
  unfold covered_entry. intros (k & Hk & Hc)%bind_Some. destruct k as [|j]; [done|].
  apply bind_Some in Hc as (en & Hen & [= <- <-]). by exists j.
Qed.

Lemma keeps_warn_mismatch c scan sessionId identity :
  preserves (on_coordinator c) (warn_mismatch scan sessionId identity).
Proof. unfold warn_mismatch. keeps. Qed.

Lemma manual_execute_spec e m token connection config snapshot c0 s :
  mc_model e = Some m → mc_reason e ≠ reason_threshold →
  resolveProviderConnection (Some (cm_model m)) (mc_providers e) INACTIVE_MESSAGE (mc_auth e) = Ret connection →
  h_coordinator s = c0 →
  swp (manual_execute sha256Hex sessionEntryToContextMessages convertToLlm e m token connection config snapshot)
    (λ r s', match r with
      | Ret p => manual_checkpoint e p ∧ h_coordinator s' = end_ (mc_sessionId e) success (others e c0)
      | Throw _ => executing_state e c0 s'
      end) s.
Proof.
  intros Hm Hreason Hconn Hs. unfold manual_execute.
  apply swp_bind, swp_lift. destruct (covered_entry e) as [[i covered]|] eqn:Hcov; [|by left].
  apply covered_entry_inv in Hcov as (j & -> & Hfind & Hentry).
  apply swp_bind, swp_lift. destruct (providerCompactionIdentityFromValues _ _ _ _ _) as [ident|] eqn:Hid; [|by left].
  apply swp_bind. eapply swp_preserves; [apply (keeps_warn_mismatch c0)|done|].
  intros [[]|err] s1 Hs1; [|by left].
  apply swp_bind, swp_lift. destruct (manual_input _ _ _ _ _) as [input|]; [|by left].
  apply swp_bind. destruct input as [|it input]; [by left|]. apply swp_ret.
  apply swp_bind, swp_modify, swp_bind, swp_lift.
  assert (Hothers : h_coordinator (with_coordinator (others e (h_coordinator s1)) s1) = others e c0).
  { simpl. by rewrite Hs1. }
  destruct (createRemoteCheckpointProposal _ _ _ _ _ _ _ _ _ _) as [[p out]|] eqn:Hp; [|by right].
  destruct (mc_aborted_after e) eqn:Hab; [by right|]. simpl orb.
  destruct (bool_decide _) eqn:Hleaf; [|by right]. apply bool_decide_eq_true in Hleaf.
  apply swp_bind, swp_ret, swp_bind, swp_modify, swp_bind, swp_modify, swp_ret.
  split; [|by simpl; rewrite Hs1].
  assert (proposal_checkpointId p = mc_checkpointId e).
  { revert Hp. unfold createRemoteCheckpointProposal. repeat case_match; try done.
    intros (? & _ & Hp)%bind_ret_iff. repeat case_match; try done.
    apply bind_ret_iff in Hp as (? & _ & Hp). apply bind_ret_iff in Hp as (? & _ & [= <- _]). done. }
  apply proposal_is_checkpoint in Hp as (Hv & Hid' & Hcovered & _). injection Hid' as Hid'.
  split_and!; [done|done| | |done|done].
  - exists m, connection. rewrite Hid, Hid'. by split_and!.
  - exists j, (S j), covered. by split_and!.
Qed.

Lemma isBusy_end_ id o c : isBusy id (end_ id o c) = false.
Proof. rewrite isBusy_end. by rewrite decide_True. Qed.

(** The coordinator as a run leaves it: untouched, or with the session free
    and the others as they were left. *)
Definition freed (e : manual_env) (c c' : coordinator) : Prop :=
  c' = c ∨
  isBusy (mc_sessionId e) c' = false ∧
  (mc_during e = [] → ∀ id, id ≠ mc_sessionId e → c' !! id = c !! id).

Lemma end_freed e c o s :
  executing_state e (<[ mc_sessionId e := executing ]> c) s →
  freed e c (end_ (mc_sessionId e) o (h_coordinator s)).
Proof.
  intros Hs. right. split; [apply isBusy_end_|]. intros Hd id Hid. unfold end_.
  rewrite lookup_insert_ne by done. unfold executing_state, others in Hs. rewrite Hd in Hs. simpl in Hs.
  destruct Hs as [-> | ->]; by rewrite lookup_insert_ne.
Qed.

Definition on_guard_state (g : CodexProviderRequestGuard) (s : handler_state) : Prop := h_guard s = g.

Lemma guard_modify g f : (∀ s, h_guard (f s) = h_guard s) →
  preserves (E := handle_error) (on_guard_state g) (st_modify f).
Proof. intros Hf s Hs. unfold on_guard_state. simpl. by rewrite Hf. Qed.

Lemma guard_on_store {A} g (f : CodexCompactionStore → A * CodexCompactionStore) :
  preserves (on_guard_state g) (on_store f).
Proof. intros s Hs. unfold on_store. by destruct (f (h_store s)). Qed.

Lemma guard_manual_execute g e m token connection config snapshot :
  preserves (on_guard_state g)
    (manual_execute sha256Hex sessionEntryToContextMessages convertToLlm e m token connection config snapshot).
Proof.
  unfold manual_execute, warn_mismatch.
  repeat first
    [ apply preserves_bind; [|intros ?] | apply preserves_lift | apply preserves_ret | apply guard_on_store
    | apply guard_modify; intros ?; done
    | match goal with |- preserves _ (match ?x with _ => _ end) => destruct x end ].
Qed.

(** The part after the early returns. *)
Lemma manual_try_spec e m token s :
  mc_model e = Some m → mc_reason e ≠ reason_threshold →
  swp (manual_try sha256Hex sessionEntryToContextMessages convertToLlm e m token)
    (λ r s', freed e (h_coordinator s) (h_coordinator s') ∧ h_guard s' = h_guard s ∧
       match r with Ret (compacted p) => manual_checkpoint e p | Ret _ => True | Throw _ => False end) s.
Proof.
  intros Hm Hreason. assert (Hdone : freed e (h_coordinator s) (h_coordinator s)) by by left.
  unfold manual_try. destruct (manual_prepare e m) as [[[[connection config] snapshot]|]|err] eqn:Hprep.
  2: by split_and!.
  2: { unfold manual_failed. apply swp_bind, swp_ret. by destruct (mc_aborted_failed e). }
  unfold manual_prepare in Hprep. apply bind_ret_iff in Hprep as (connection' & Hconn & Hprep).
  unfold lift_message in Hconn. destruct (resolveProviderConnection _ _ _ _) as [c|] eqn:Hres; [|done].
  injection Hconn as ->. apply bind_ret_iff in Hprep as (config' & _ & Hprep).
  assert (connection' = connection) as ->.
  { destruct (compaction_mode _); [done|]. destruct (negb _); [done|].
    apply bind_ret_iff in Hprep as (snap & _ & Hprep). by destruct (comp_implementation _); simplify_eq. }
  clear Hprep. apply swp_bind. unfold swp at 1, beginExecution. destruct (_ || _); simpl; [by split_and!|].
  set (s1 := with_coordinator _ s).
  pose proof (guard_manual_execute (h_guard s1) e m token connection config snapshot s1 eq_refl) as Hg.
  pose proof (manual_execute_spec e m token connection config snapshot _ s1 Hm Hreason Hres eq_refl) as Hx.
  apply swp_catch, swp_bind. unfold swp in Hx |- *.
  destruct (manual_execute _ _ _ _ _ _ _ _ _) as [[p|err] s2]; simpl in *.
  - destruct Hx as [Hcp Hcoord]. split_and!; [|done|done]. rewrite Hcoord.
    apply (end_freed e _ success (with_coordinator (others e (h_coordinator s1)) s1)). by right.
  - destruct (mc_aborted_failed e); (split_and!; [by eapply end_freed|done|done]).
Qed.

(** C30: The compaction Pi asks for never throws.  Whatever fails in it, a
    session it began to execute is free again when it answers, and if nobody
    else used the coordinator meanwhile every other session is as it was; if
    it did not begin, the coordinator is untouched.  It answers with a
    checkpoint only when that is valid, has the session, model and
    credentials of the connection made for it, covers the entry just before
    the first one Pi keeps, and the branch Pi showed is still current. *)
Theorem manual_compaction_contract e s :
  let '(r, s') := compactForPi sha256Hex sessionEntryToContextMessages convertToLlm e s in
  freed e (h_coordinator s) (h_coordinator s') ∧ h_guard s' = h_guard s ∧
  match r with
  | Ret (compacted p) => manual_checkpoint e p
  | Ret _ => True
  | Throw _ => False
  end.
Proof.
  assert (Hdone : freed e (h_coordinator s) (h_coordinator s)) by by left.
  unfold compactForPi. destruct (mc_model e) as [m|] eqn:Hm; [|by split_and!].
  destruct (negb _); [by split_and!|]. destruct (has_instructions e); [by split_and!|].
  destruct (bool_decide _) eqn:Hreason; [by split_and!|]. apply bool_decide_eq_false in Hreason.
  destruct (mc_aborted_start e); [by split_and!|]. destruct (mc_token e) as [token|]; [|by split_and!].
  exact (manual_try_spec e m token s Hm Hreason).
Qed.
End manual.
