(* ===== verification/ToolActivation.v ===== *)
(** * ToolActivation

    [src/src/integration/pi/codex-tools.ts] ([registerCodexTools]), with
    [src/src/application/security-policy.ts] and
    [src/src/integration/pi/codex-status.ts]: when a session starts, a model
    is selected or the configuration changes, an activation reads the
    configuration, resolves the capabilities and installs the tools.
    Activations overlap; each has a generation, and only the newest may act.

    An activation is synchronous up to an [await] and is kept as a task while
    it waits; the events of [tools_step] are what the host calls and what the
    awaited promises deliver, in any order.  Calls of [setStatus] are kept in
    order. *)

From S2P Require Import Prelude Config Capability EffectiveCapabilities Json ConfigStore ToolProfile.

(** ** Texts *)

Definition securityPolicyWarning (config : CodexConfig) : option string :=
  match approvalPolicy (security config), filesystemAccessPolicy (security config) with
  | never, unrestricted => Some
      "Codex dangerous full access is enabled: operations do not prompt, structured tools may use external paths, and native commands run with the user's permissions."
  | never, _ => Some
      "Codex approval policy is never: operations do not prompt, explicit structured-tool paths remain workspace constrained, and native commands run with the user's permissions."
  | _, unrestricted => Some
      "Codex filesystem access is unrestricted: structured tools may use external paths after operation approval; this is not an OS sandbox."
  | _, _ => None
  end.

Definition shellToken (surface : ShellSurface) : option string :=
  match surface with
  | unified_exec => Some "exec" | shell_command => Some "sh" | shell_disabled => None end.

Definition sessionToken (surface : SessionSurface) : option string :=
  match surface with
  | session_official => Some "bg" | session_supplemental => Some "bg+"
  | session_disabled | session_unavailable => None
  end.

Definition webToken (snapshot : EffectiveCapabilitySnapshot) : option string :=
  if negb (is_available (snap_webSearch snapshot)) then None else
  match snap_webSurface snapshot with
  | web_standalone | web_hosted => Some "web" | web_disabled | web_unsupported => None end.

Definition token_if (b : bool) (token : string) : option string := if b then Some token else None.

Definition formatCodexStatus (snapshot : EffectiveCapabilitySnapshot) (approval : ApprovalPolicy)
    (filesystem : FilesystemAccessPolicy) : string :=
  let prompts_never := bool_decide (approval = never) in
  let fs_open := bool_decide (filesystem = unrestricted) in
  join " " (omap id [Some "Codex"; shellToken (primary (shell snapshot));
    sessionToken (sh_sessionSurface (shell snapshot)); webToken snapshot;
    token_if prompts_never "!never"; token_if fs_open "!fs"; token_if (prompts_never && fs_open) "!full"]).

(** ** State *)

Record tool_model := {
  tm_id : string; tm_provider : string; tm_api : string; tm_input : list Modality;
  tm_contextWindow : option jsnum }.

(** The value whose JSON text is the identity. *)
Definition modelProfileIdentity (model : option tool_model) : option jsval :=
  m ← model;
  Some (VArr [VStr (tm_id m); VStr (tm_provider m); VStr (tm_api m); opt_num (tm_contextWindow m);
              VBool (bool_decide (modality_image ∈ tm_input m))]).

(** [config] is [undefined] before it is loaded: then the policy decides, with
    the providers it holds. *)
Definition providerActive (model : option tool_model) (config : option CodexConfig)
    (policy : list string) : bool :=
  let m := (λ m, {| am_provider := tm_provider m; am_api := tm_api m |}) <$> model in
  match config with
  | Some c => bool_decide (resolveProviderActivation m (providers (activation c)) = active)
  | None => isActive m policy
  end.

(** Where an activation waits: for the configuration, or for a promise of the
    capability resolver. *)
Inductive wait := wait_config | wait_capabilities (config : CodexConfig) (key : string) (promise : nat).

Record task := {
  t_ctx : nat;
  t_generation : Z;
  t_selected : option tool_model;
  t_hostToolNames : list ManagedToolName;
  t_startupWarning : bool;
  t_shouldFailClosed : bool;
  t_wait : wait }.

(** [session] is what [registerCodexTools] keeps, [ts_world] the profile with
    the host and its notifications, [ts_statuses] the calls of [setStatus]. *)
Record session := {
  activationGeneration : Z;
  activeContext : option nat;
  lastHealthyCapabilityKey : option string;
  lastHealthyModelIdentity : option jsval;
  startupSecurityWarningShown : bool;
  subscribed : bool }.

Record tools_state (H : Type) := {
  ts_session : session;
  ts_world : world H;
  ts_statuses : list (nat * option string);
  ts_resolver : resolver;
  ts_tasks : list task }.
Arguments ts_session {H} _. Arguments ts_world {H} _. Arguments ts_statuses {H} _.
Arguments ts_resolver {H} _. Arguments ts_tasks {H} _.

Definition STATUS_UNAVAILABLE : string := "Codex unavailable".

Section activation.
Context {H : Type} `{ExtensionAPI H} `{JsonText}.
Context (normalizedEntryPath : string → string).

Definition on_session (f : session → session) (s : tools_state H) : tools_state H :=
  {| ts_session := f (ts_session s); ts_world := ts_world s; ts_statuses := ts_statuses s;
     ts_resolver := ts_resolver s; ts_tasks := ts_tasks s |}.
Definition on_world (f : world H → world H) (s : tools_state H) : tools_state H :=
  {| ts_session := ts_session s; ts_world := f (ts_world s); ts_statuses := ts_statuses s;
     ts_resolver := ts_resolver s; ts_tasks := ts_tasks s |}.
Definition setStatus (ctx : nat) (value : option string) (s : tools_state H) : tools_state H :=
  {| ts_session := ts_session s; ts_world := ts_world s; ts_statuses := ts_statuses s ++ [(ctx, value)];
     ts_resolver := ts_resolver s; ts_tasks := ts_tasks s |}.
Definition on_resolver (f : resolver → resolver) (s : tools_state H) : tools_state H :=
  {| ts_session := ts_session s; ts_world := ts_world s; ts_statuses := ts_statuses s;
     ts_resolver := f (ts_resolver s); ts_tasks := ts_tasks s |}.
Definition on_tasks (f : list task → list task) (s : tools_state H) : tools_state H :=
  {| ts_session := ts_session s; ts_world := ts_world s; ts_statuses := ts_statuses s;
     ts_resolver := ts_resolver s; ts_tasks := f (ts_tasks s) |}.

Definition set_generation (g : Z) (x : session) : session :=
  {| activationGeneration := g; activeContext := activeContext x;
     lastHealthyCapabilityKey := lastHealthyCapabilityKey x;
     lastHealthyModelIdentity := lastHealthyModelIdentity x;
     startupSecurityWarningShown := startupSecurityWarningShown x; subscribed := subscribed x |}.
Definition set_active_context (c : option nat) (x : session) : session :=
  {| activationGeneration := activationGeneration x; activeContext := c;
     lastHealthyCapabilityKey := lastHealthyCapabilityKey x;
     lastHealthyModelIdentity := lastHealthyModelIdentity x;
     startupSecurityWarningShown := startupSecurityWarningShown x; subscribed := subscribed x |}.
Definition set_last_healthy (key : option string) (identity : option jsval) (x : session) : session :=
  {| activationGeneration := activationGeneration x; activeContext := activeContext x;
     lastHealthyCapabilityKey := key; lastHealthyModelIdentity := identity;
     startupSecurityWarningShown := startupSecurityWarningShown x; subscribed := subscribed x |}.
Definition set_warning_shown (b : bool) (x : session) : session :=
  {| activationGeneration := activationGeneration x; activeContext := activeContext x;
     lastHealthyCapabilityKey := lastHealthyCapabilityKey x;
     lastHealthyModelIdentity := lastHealthyModelIdentity x;
     startupSecurityWarningShown := b; subscribed := subscribed x |}.
Definition unsubscribeConfig (x : session) : session :=
  {| activationGeneration := activationGeneration x; activeContext := activeContext x;
     lastHealthyCapabilityKey := lastHealthyCapabilityKey x;
     lastHealthyModelIdentity := lastHealthyModelIdentity x;
     startupSecurityWarningShown := startupSecurityWarningShown x; subscribed := false |}.

Definition current (t : task) (s : tools_state H) : bool :=
  Z.eqb (t_generation t) (activationGeneration (ts_session s)).

Definition notify (message : string) (w : world H) : world H :=
  let '(p, h, out) := w in (p, h, out ++ [message]).

(** ** An activation *)

Definition input_of (t : task) (m : tool_model) (config : CodexConfig) : ResolveEffectiveCapabilitiesInput :=
  {| in_modelId := tm_id m; in_providerId := tm_provider m; modelInputModalities := tm_input m;
     in_config := config; in_contextWindow := tm_contextWindow m;
     hostToolNames := Some (t_hostToolNames t) |}.
Definition capability_key (t : task) (m : tool_model) (config : CodexConfig) : string :=
  stringify (capabilityCacheKey (input_of t m config)).

Definition forget (s : tools_state H) : tools_state H := on_session (set_last_healthy None None) s.

(** Pi's tools come back, and no status is shown. *)
Definition give_back (ctx : nat) (s : tools_state H) : tools_state H :=
  setStatus ctx None (forget (on_world restorePi s)).

(** The [catch] block. *)
Definition activation_failed (t : task) (s : tools_state H) : tools_state H :=
  if negb (current t s) then s
  else if t_shouldFailClosed t
  then setStatus (t_ctx t) (Some STATUS_UNAVAILABLE) (forget (on_world (installUnavailable None None false) s))
  else give_back (t_ctx t) s.

Definition warn_startup (t : task) (config : CodexConfig) (s : tools_state H) : tools_state H :=
  if t_startupWarning t && negb (startupSecurityWarningShown (ts_session s)) then
    match securityPolicyWarning config with
    | Some warning => on_world (notify warning) (on_session (set_warning_shown true) s)
    | None => s
    end
  else s.

Definition waiting (t : task) (failClosed : bool) (w : wait) : task :=
  {| t_ctx := t_ctx t; t_generation := t_generation t; t_selected := t_selected t;
     t_hostToolNames := t_hostToolNames t; t_startupWarning := t_startupWarning t;
     t_shouldFailClosed := failClosed; t_wait := w |}.

(** From the resolver call to its [await]. *)
Definition request_capabilities (t : task) (m : tool_model) (config : CodexConfig) (s : tools_state H)
    : tools_state H :=
  let '(promise, r) := resolve (input_of t m config) (ts_resolver s) in
  on_tasks (λ ts, ts ++ [waiting t true (wait_capabilities config (capability_key t m config) promise)])
    (on_resolver (λ _, r) s).

(** With the configuration at hand. *)
Definition with_config (t : task) (config : CodexConfig) (s : tools_state H) : tools_state H :=
  if negb (current t s) then s else
  let s := warn_startup t config s in
  match t_selected t with
  | None => give_back (t_ctx t) s
  | Some m =>
      if negb (providerActive (Some m) (Some config) []) then give_back (t_ctx t) s else
      let key := capability_key t m config in
      if isHealthy key (ts_world s).1.1 then
        let '(owned, w) := revalidateHealthyOwnership normalizedEntryPath true (ts_world s) in
        let s := on_world (λ _, w) s in
        if owned then request_capabilities t m config s
        else setStatus (t_ctx t) (Some STATUS_UNAVAILABLE) (forget s)
      else
        request_capabilities t m config
          (setStatus (t_ctx t) None (on_world (enterPending (Some key)) s))
  end.

Definition snapshot_loader (snapshot : EffectiveCapabilitySnapshot) : option SkillLoader :=
  let names := literal_name <$> localTools snapshot in
  if js_elem "exec_command" names then Some loader_exec_command
  else if js_elem "shell_command" names then Some loader_shell_command else None.

Definition status_text (config : CodexConfig) (snapshot : EffectiveCapabilitySnapshot) : option string :=
  if status (ui config)
  then Some (formatCodexStatus snapshot (approvalPolicy (security config))
               (filesystemAccessPolicy (security config)))
  else None.

(** With the snapshot at hand. *)
Definition with_snapshot (t : task) (config : CodexConfig) (key : string)
    (snapshot : EffectiveCapabilitySnapshot) (s : tools_state H) : tools_state H :=
  if negb (current t s) then s else
  let '(installed, w) := installHealthy normalizedEntryPath key (literal_name <$> localTools snapshot)
                           (snapshot_loader snapshot) true (ts_world s) in
  let s := on_world (λ _, w) s in
  if installed then
    setStatus (t_ctx t) (status_text config snapshot)
      (on_session (set_last_healthy (Some key) (modelProfileIdentity (t_selected t))) s)
  else setStatus (t_ctx t) (Some STATUS_UNAVAILABLE) (forget s).

Definition not_known_healthy (selected : option tool_model) (suppliedKey : option string)
    (s : tools_state H) : bool :=
  let p := (ts_world s).1.1 in
  negb (match readiness p with healthy _ => true | _ => false end) ||
  bool_decide (lastHealthyCapabilityKey (ts_session s) = None) ||
  negb (bool_decide (lastHealthyModelIdentity (ts_session s) = modelProfileIdentity selected)) ||
  match suppliedKey with Some key => negb (isHealthy key p) | None => false end.

(** [configOverride] is the configuration of a change notification: with it
    nothing is awaited before the resolver. *)
Definition activate (ctx : nat) (selected : option tool_model) (policy : list string)
    (configOverride : option CodexConfig) (startupWarning : bool) (s : tools_state H) : tools_state H :=
  let generation := (activationGeneration (ts_session s) + 1)%Z in
  let s := on_session (set_generation generation) s in
  let activeBeforeLoad := bool_decide (selected ≠ None) && providerActive selected configOverride policy in
  let t := {| t_ctx := ctx; t_generation := generation; t_selected := selected;
              t_hostToolNames := registeredManagedTools (ts_world s).1.2;
              t_startupWarning := startupWarning; t_shouldFailClosed := activeBeforeLoad;
              t_wait := wait_config |} in
  let suppliedKey := if activeBeforeLoad then
    config ← configOverride; m ← selected; Some (capability_key t m config) else None in
  let s :=
    if negb activeBeforeLoad then give_back ctx s
    else if not_known_healthy selected suppliedKey s
    then setStatus ctx None (on_world (enterPending suppliedKey) s)
    else s in
  match configOverride with
  | Some config => with_config t config s
  | None => on_tasks (λ ts, ts ++ [t]) s
  end.

(** ** Events *)

Inductive tools_event :=
| session_start (ctx : nat) (selected : option tool_model) (policy : list string)
| model_select (ctx : nat) (selected : option tool_model) (policy : list string)
| config_changed (config : CodexConfig) (selected : option tool_model) (policy : list string)
| session_shutdown (ctx : nat)
| config_loaded (i : nat) (r : outcome store_error CodexConfig)
| capabilities_answered (promise : nat) (answer : result EffectiveCapabilitySnapshot)
| capabilities_awaited (i : nat).

Definition remember (ctx : nat) (s : tools_state H) : tools_state H :=
  on_session (set_active_context (Some ctx)) s.

Definition shutdown (ctx : nat) (s : tools_state H) : tools_state H :=
  let s := on_session (λ x, set_generation (activationGeneration x + 1)%Z x) s in
  let s := on_resolver invalidate s in
  let s := give_back ctx s in
  on_session (λ x, unsubscribeConfig (set_warning_shown false (set_active_context None x))) s.

(** Task [i] goes on with [f], when it waits for what [f] takes. *)
Definition resume (i : nat) (f : task → option (tools_state H → tools_state H)) (s : tools_state H)
    : tools_state H :=
  match ts_tasks s !! i ≫= f with
  | Some k => k (on_tasks (delete i) s)
  | None => s
  end.

Definition tools_step (e : tools_event) (s : tools_state H) : tools_state H :=
  match e with
  | session_start ctx selected policy => activate ctx selected policy None true (remember ctx s)
  | model_select ctx selected policy => activate ctx selected policy None false (remember ctx s)
  | config_changed config selected policy =>
      if negb (subscribed (ts_session s)) then s else
      match activeContext (ts_session s) with
      | None => s
      | Some ctx => activate ctx selected policy (Some config) false s
      end
  | session_shutdown ctx => shutdown ctx s
  | config_loaded i r => resume i (λ t, match t_wait t with
      | wait_config => Some match r with
          | Ret config => with_config t config
          | Throw _ => activation_failed t end
      | wait_capabilities _ _ _ => None end) s
  | capabilities_answered promise answer => on_resolver (settle promise answer) s
  | capabilities_awaited i => resume i (λ t, match t_wait t with
      | wait_config => None
      | wait_capabilities config key promise =>
          match p_state <$> promises (ts_resolver s) !! promise with
          | Some (fulfilled snapshot) => Some (with_snapshot t config key snapshot)
          | Some (rejected _) => Some (activation_failed t)
          | _ => None
          end end) s
  end.

Definition tools_run (events : list tools_event) (s : tools_state H) : tools_state H :=
  fold_left (λ s e, tools_step e s) events s.

(** [registerCodexTools]: nothing has happened yet. *)
Definition registerCodexTools (entryPath : option string) (h : H) : tools_state H :=
  {| ts_session := {| activationGeneration := 0; activeContext := None; lastHealthyCapabilityKey := None;
                      lastHealthyModelIdentity := None; startupSecurityWarningShown := false;
                      subscribed := true |};
     ts_world := (new_profile normalizedEntryPath entryPath, h, []);
     ts_statuses := []; ts_resolver := new_resolver; ts_tasks := [] |}.

End activation.
