(* ===== verification/ToolActivationFacts.v ===== *)
(** * ToolActivationFacts

    The status that is shown tells the state of the profile, only the newest
    activation acts, and nothing happens after the session has ended. *)

From S2P Require Import Prelude Config Capability EffectiveCapabilities Json ConfigStore ToolProfile.
From S2P Require Import ToolProfileFacts ToolActivation.

Section facts.
Context {H : Type} `{ExtensionAPI H} `{JsonText} (normalizedEntryPath : string → string).
Implicit Types (s : tools_state H) (w : world H) (t : task).

Local Abbreviation step := (tools_step normalizedEntryPath).
Local Abbreviation run := (tools_run normalizedEntryPath).

(** ** The profile, the status and the keys *)

Definition coherent w : Prop :=
  match state_of w with
  | None => readiness_of w = inactive
  | Some p => readiness_of w ≠ inactive ∧ (phase p = phase_healthy ↔ ∃ key, readiness_of w = healthy key)
  end.

Definition is_unavailable (r : Readiness) : Prop := ∃ key, r = ready_unavailable key.
Definition is_healthy (r : Readiness) : Prop := ∃ key, r = healthy key.

(** What the last call of [setStatus] shows. *)
Definition shown s : option string := last (ts_statuses s) ≫= snd.

Record profile_ok s : Prop := {
  po_coherent : coherent (ts_world s);
  po_key key : readiness_of (ts_world s) = healthy key →
    lastHealthyCapabilityKey (ts_session s) = Some key;
  po_unavailable : is_unavailable (readiness_of (ts_world s)) → shown s = Some STATUS_UNAVAILABLE;
  po_shown text : shown s = Some text →
    (text = STATUS_UNAVAILABLE ∧ is_unavailable (readiness_of (ts_world s))) ∨
    (is_healthy (readiness_of (ts_world s)) ∧
     ∃ config snapshot, status_text config snapshot = Some text) }.

Lemma shown_setStatus ctx v s : shown (setStatus ctx v s) = v.
Proof. unfold shown. simpl. by rewrite last_snoc. Qed.

(** What each call leaves the profile in. *)
Lemma restorePi_readiness w : readiness_of (restorePi w) = inactive ∧ state_of (restorePi w) = None.
Proof. by destruct w as [[p h] out]. Qed.

Lemma enterPending_readiness key w :
  readiness_of (enterPending key w) = ready_pending key ∧ coherent (enterPending key w).
Proof.
  destruct w as [[p h] out]. unfold coherent, enterPending, ensureCodexState.
  destruct (state p) as [x|] eqn:Hs; unfold suppressManagedTools, readiness_of, state_of; simpl;
    rewrite ?Hs; simpl; split_and!; try done; split; [done|by intros [? [=]]|done|by intros [? [=]]].
Qed.

Lemma installUnavailable_readiness key c b w :
  readiness_of (installUnavailable key c b w) = ready_unavailable key ∧
  coherent (installUnavailable key c b w).
Proof.
  destruct (installUnavailable_result key c b w) as (_ & Hs & _ & Hr). split; [done|].
  unfold coherent. rewrite Hs, Hr. split; [done|]. split; [done|by intros [? [=]]].
Qed.

Lemma installHealthy_readiness key managed loader b w :
  let '(installed, w') := installHealthy normalizedEntryPath key managed loader b w in
  coherent w' ∧
  if installed then readiness_of w' = healthy key else is_unavailable (readiness_of w').
Proof.
  pose proof (ensure_state w) as He. unfold installHealthy.
  destruct (ensureCodexState w) as [[p h] out]. unfold state_of in He. simpl in He. rewrite He.
  destruct (negb _).
  - destruct (installUnavailable_readiness (Some key)
      (conflictingTool (validateManagedToolOwnership normalizedEntryPath (getAllTools h) managed
         (expectedEntryPath p))) b (p, h, out)) as [Hr Hc].
    split; [done|]. rewrite Hr. by eexists.
  - unfold coherent, state_of, readiness_of. simpl. split; [|done]. split; [done|].
    split; [by eexists|done].
Qed.

Lemma revalidate_readiness b w key :
  coherent w → readiness_of w = healthy key →
  let '(owned, w') := revalidateHealthyOwnership normalizedEntryPath b w in
  coherent w' ∧ if owned then readiness_of w' = healthy key else is_unavailable (readiness_of w').
Proof.
  destruct w as [[p h] out]. unfold coherent, revalidateHealthyOwnership, state_of, readiness_of. simpl.
  destruct (state p) as [x|] eqn:Hs; intros Hc Hr; [|congruence].
  rewrite bool_decide_true by (apply Hc; by eexists). simpl.
  destruct (negb _) eqn:Ho.
  - destruct (installUnavailable_readiness (match readiness p with healthy key => Some key | _ => None end)
      (conflictingTool (validateManagedToolOwnership normalizedEntryPath (getAllTools h)
         (activeManaged x) (expectedEntryPath p))) b (p, h, out)) as [Hr' Hc'].
    split; [done|]. unfold readiness_of in Hr'. rewrite Hr'. by eexists.
  - simpl. by rewrite Hs.
Qed.

(** *** The pieces of an activation *)

Lemma profile_ok_hidden s :
  coherent (ts_world s) → shown s = None →
  (∀ key, readiness_of (ts_world s) ≠ ready_unavailable key) →
  (∀ key, readiness_of (ts_world s) ≠ healthy key) → profile_ok s.
Proof.
  intros Hc Hs Hu Hh. constructor; try done.
  - by intros key ?%Hh.
  - by intros [key ?%Hu].
  - rewrite Hs. done.
Qed.

Lemma give_back_ok ctx s : profile_ok (give_back ctx s).
Proof.
  destruct (restorePi_readiness (ts_world s)) as [Hr Hs].
  apply profile_ok_hidden; unfold give_back; [|apply shown_setStatus|simpl; by rewrite Hr..].
  unfold coherent. simpl. by rewrite Hs, Hr.
Qed.

Lemma pending_ok ctx key s : profile_ok (setStatus ctx None (on_world (enterPending key) s)).
Proof.
  destruct (enterPending_readiness key (ts_world s)) as [Hr Hc].
  by apply profile_ok_hidden; [|apply shown_setStatus|simpl; rewrite Hr..].
Qed.

Lemma unavailable_ok ctx w s :
  coherent w → is_unavailable (readiness_of w) →
  profile_ok (setStatus ctx (Some STATUS_UNAVAILABLE) (forget (on_world (λ _, w) s))).
Proof.
  intros Hc Hu. constructor; rewrite ?shown_setStatus; simpl; try done.
  - destruct Hu as [? ->]. done.
  - intros text [= <-]. by left.
Qed.

Lemma installed_ok ctx w key identity s config snapshot :
  coherent w → readiness_of w = healthy key →
  profile_ok (setStatus ctx (status_text config snapshot)
                (on_session (set_last_healthy (Some key) identity) (on_world (λ _, w) s))).
Proof.
  intros Hc Hr. constructor; rewrite ?shown_setStatus; simpl; try done.
  - rewrite Hr. by intros ? [= ->].
  - rewrite Hr. by intros [? [=]].
  - intros text Htext. right. split; [by eexists|]. by exists config, snapshot.
Qed.

(** What does not touch the profile, its keys or the statuses. *)
Lemma profile_ok_ext s s' :
  profile_ok s → coherent (ts_world s') → readiness_of (ts_world s') = readiness_of (ts_world s) →
  lastHealthyCapabilityKey (ts_session s') = lastHealthyCapabilityKey (ts_session s) →
  ts_statuses s' = ts_statuses s → profile_ok s'.
Proof.
  intros [? Hk Hu Hs] Hc Hr Hl Hst. assert (shown s' = shown s) as E by (unfold shown; by rewrite Hst).
  by constructor; rewrite ?Hr, ?Hl, ?E.
Qed.

Lemma notify_world m w : coherent (notify m w) ↔ coherent w.
Proof. by destruct w as [[p h] out]. Qed.
Lemma notify_readiness m w : readiness_of (notify m w) = readiness_of w.
Proof. by destruct w as [[p h] out]. Qed.

Lemma warn_ok t config s : profile_ok s → profile_ok (warn_startup t config s).
Proof.
  intros Hs. unfold warn_startup. destruct (_ && _); [|done]. destruct (securityPolicyWarning _); [|done].
  apply (profile_ok_ext s); simpl; rewrite ?notify_readiness; try done. apply notify_world, Hs.
Qed.

Lemma requested_ok t m config s : profile_ok s → profile_ok (request_capabilities t m config s).
Proof.
  intros Hs. unfold request_capabilities. destruct (resolve _ _) as [promise r].
  by apply (profile_ok_ext s); try apply Hs.
Qed.

Lemma isHealthy_spec key w : isHealthy key w.1.1 = true → readiness_of w = healthy key.
Proof.
  unfold isHealthy, readiness_of. destruct (readiness _); try done. by intros ->%String.eqb_eq.
Qed.

Lemma with_config_ok t config s : profile_ok s → profile_ok (with_config normalizedEntryPath t config s).
Proof.
  intros Hs. unfold with_config. destruct (negb _); [done|]. pose proof (warn_ok t config s Hs) as Hw.
  destruct (t_selected t) as [m|]; [|apply give_back_ok]. destruct (negb _); [apply give_back_ok|].
  destruct (isHealthy _ _) eqn:Hh; [|apply requested_ok, pending_ok].
  apply isHealthy_spec in Hh. pose proof (revalidate_readiness true _ _ (po_coherent _ Hw) Hh) as Hr.
  destruct (revalidateHealthyOwnership _ _ _) as [[] w]; destruct Hr as [Hc Hr].
  - apply requested_ok. apply (profile_ok_ext (warn_startup t config s)); simpl; congruence || done.
  - by apply unavailable_ok.
Qed.

Lemma activation_failed_ok t s : profile_ok s → profile_ok (activation_failed t s).
Proof.
  intros Hs. unfold activation_failed. destruct (negb _); [done|].
  destruct (t_shouldFailClosed t); [|apply give_back_ok].
  destruct (installUnavailable_readiness None None false (ts_world s)) as [Hr Hc].
  apply (unavailable_ok _ _ s Hc). rewrite Hr. by eexists.
Qed.

Lemma with_snapshot_ok t config key snapshot s :
  profile_ok s → profile_ok (with_snapshot normalizedEntryPath t config key snapshot s).
Proof.
  intros Hs. unfold with_snapshot. destruct (negb _); [done|].
  pose proof (installHealthy_readiness key (literal_name <$> localTools snapshot)
    (snapshot_loader snapshot) true (ts_world s)) as Hi.
  destruct (installHealthy _ _ _ _ _ _) as [[] w]; destruct Hi as [Hc Hr];
    [by apply installed_ok|by apply unavailable_ok].
Qed.

Lemma activate_ok ctx selected policy override b s :
  profile_ok s → profile_ok (activate normalizedEntryPath ctx selected policy override b s).
Proof.
  intros Hs. unfold activate.
  match goal with |- context [if negb ?a then give_back ctx ?s0 else ?e] =>
    assert (profile_ok (if negb a then give_back ctx s0 else e)) as Hok end.
  { destruct (negb _); [apply give_back_ok|]. destruct (not_known_healthy _ _ _); [apply pending_ok|].
    by apply (profile_ok_ext s); try apply Hs. }
  destruct override as [config|]; [by apply with_config_ok|].
  match goal with |- profile_ok (on_tasks _ ?x) => by apply (profile_ok_ext x); try apply Hok end.
Qed.

(** ** The tasks *)

Definition of_generation (g : Z) (ts : list task) : list task := filter (λ t, t_generation t = g) ts.

Record tasks_ok s : Prop := {
  to_old t : t ∈ ts_tasks s → (t_generation t ≤ activationGeneration (ts_session s))%Z;
  to_one : length (of_generation (activationGeneration (ts_session s)) (ts_tasks s)) ≤ 1;
  to_context t : t ∈ ts_tasks s → current t s = true → activeContext (ts_session s) = Some (t_ctx t) }.

(** A piece of an activation at most waits on, for the same context. *)
Definition waits_on t s s' : Prop :=
  activationGeneration (ts_session s') = activationGeneration (ts_session s) ∧
  activeContext (ts_session s') = activeContext (ts_session s) ∧
  (ts_tasks s' = ts_tasks s ∨
   ∃ t', ts_tasks s' = ts_tasks s ++ [t'] ∧ t_generation t' = t_generation t ∧ t_ctx t' = t_ctx t).

Lemma waits_on_refl t s : waits_on t s s.
Proof. split_and!; [done..|by left]. Qed.
#[local] Ltac waits := repeat case_match; solve [apply waits_on_refl | split_and!; [done..|by left]].

Lemma warn_waits t config s : waits_on t s (warn_startup t config s).
Proof. unfold warn_startup. waits. Qed.

Lemma warn_session t config s : ts_tasks (warn_startup t config s) = ts_tasks s.
Proof. unfold warn_startup. by repeat case_match. Qed.

Lemma request_waits t m config s0 s :
  waits_on t s0 s → ts_tasks s = ts_tasks s0 → waits_on t s0 (request_capabilities t m config s).
Proof.
  intros (Hg & Hc & _) Ht. unfold request_capabilities. destruct (resolve _ _) as [promise r].
  split_and!; [done..|]. right. simpl. rewrite Ht. by eexists.
Qed.

Lemma with_config_waits t config s : waits_on t s (with_config normalizedEntryPath t config s).
Proof.
  unfold with_config. destruct (negb _); [apply waits_on_refl|]. pose proof (warn_waits t config s) as Hw.
  pose proof (warn_session t config s) as Ht.
  destruct (t_selected t) as [m|]; [|by apply Hw]. destruct (negb _); [by apply Hw|].
  destruct (isHealthy _ _); [destruct (revalidateHealthyOwnership _ _ _) as [[] w]|];
    [by apply request_waits|by apply Hw|by apply request_waits].
Qed.

Lemma failed_waits t s : waits_on t s (activation_failed t s).
Proof. unfold activation_failed. waits. Qed.

Lemma with_snapshot_waits t config key snapshot s :
  waits_on t s (with_snapshot normalizedEntryPath t config key snapshot s).
Proof. unfold with_snapshot. waits. Qed.

Lemma current_iff t s : current t s = true ↔ t_generation t = activationGeneration (ts_session s).
Proof. unfold current. by rewrite Z.eqb_eq. Qed.

(** Going on with a task that is alone in its generation. *)
Lemma waits_on_ok t s s' :
  tasks_ok s → waits_on t s s' → of_generation (activationGeneration (ts_session s)) (ts_tasks s) = [] →
  (t_generation t ≤ activationGeneration (ts_session s))%Z →
  (current t s = true → activeContext (ts_session s) = Some (t_ctx t)) → tasks_ok s'.
Proof.
  intros [Ho Hone Hc] (Hg & Ha & Ht) Hnone Hle Hctx. unfold current in *.
  destruct Ht as [Ht|(t' & Ht & Hgt & Hct)].
  { by constructor; unfold current; rewrite ?Hg, ?Ha, Ht. }
  constructor; unfold current; rewrite ?Hg, ?Ha, Ht.
  - intros x [Hx|[->|[]%elem_of_nil]%elem_of_cons]%elem_of_app; [by apply Ho|lia].
  - unfold of_generation in *. rewrite filter_app, Hnone, app_nil_l. apply (length_filter _ [t']).
  - intros x [Hx|[->|[]%elem_of_nil]%elem_of_cons]%elem_of_app; [by apply Hc|].
    rewrite Hgt, Hct. done.
Qed.

Lemma of_generation_delete g i ts t :
  ts !! i = Some t → t_generation t = g → length (of_generation g ts) ≤ 1 →
  of_generation g (delete i ts) = [].
Proof.
  intros Hi Hg Hle. apply list_elem_of_split_length in Hi as (l1 & l2 & -> & ->).
  rewrite delete_middle. unfold of_generation in *. rewrite filter_app in *. rewrite filter_cons_True in Hle by done.
  rewrite length_app in Hle. simpl in Hle. apply nil_length_inv. rewrite length_app. lia.
Qed.

Lemma of_generation_sublist g ts ts' : sublist ts ts' → sublist (of_generation g ts) (of_generation g ts').
Proof.
  unfold of_generation. induction 1 as [|x l k Hs IH|x l k Hs IH]; [done|..].
  - rewrite !filter_cons. destruct (decide _); [by apply sublist_skip|done].
  - rewrite (filter_cons _ x k). destruct (decide _); [by apply sublist_cons|done].
Qed.

Lemma delete_tasks_ok i s : tasks_ok s → tasks_ok (on_tasks (delete i) s).
Proof.
  intros [Ho Hone Hc]. assert (Hsub : ∀ t, t ∈ delete i (ts_tasks s) → t ∈ ts_tasks s).
  { intros t. intros Ht. eapply elem_of_submseteq; [done|].
    apply sublist_submseteq, sublist_delete. }
  constructor; simpl; [by intros t ?%Hsub; apply Ho| |by intros t ?%Hsub; apply Hc].
  etransitivity; [|exact Hone]. apply submseteq_length, sublist_submseteq, of_generation_sublist, sublist_delete.
Qed.

Lemma of_generation_none g ts :
  (∀ t, t ∈ ts → (t_generation t < g)%Z) → of_generation g ts = [].
Proof.
  unfold of_generation. induction ts as [|t ts IH]; intros Hlt; [done|].
  rewrite filter_cons_False; [apply IH; intros x Hx; apply Hlt; by right|].
  assert (t_generation t < g)%Z by (apply Hlt; by left). lia.
Qed.

Lemma activate_tasks ctx selected policy override b s :
  (∀ t, t ∈ ts_tasks s → (t_generation t ≤ activationGeneration (ts_session s))%Z) →
  activeContext (ts_session s) = Some ctx →
  tasks_ok (activate normalizedEntryPath ctx selected policy override b s).
Proof.
  intros Ho Hctx. unfold activate.
  set (g := (activationGeneration (ts_session s) + 1)%Z).
  match goal with |- context [if negb ?a then give_back ctx ?s0 else ?e] =>
    set (s1 := if negb a then give_back ctx s0 else e);
    assert (activationGeneration (ts_session s1) = g ∧ activeContext (ts_session s1) = Some ctx ∧
            ts_tasks s1 = ts_tasks s) as (Hg1 & Hc1 & Ht1) end.
  { subst s1. by repeat case_match. }
  assert (Hnone : of_generation g (ts_tasks s1) = []).
  { apply of_generation_none. intros t Ht. rewrite Ht1 in Ht. apply Ho in Ht. subst g. lia. }
  assert (Hs1 : tasks_ok s1).
  { constructor; unfold current; rewrite ?Hg1, ?Hc1.
    - intros t Ht. rewrite Ht1 in Ht. apply Ho in Ht. subst g. lia.
    - rewrite Hnone. simpl. lia.
    - intros t Ht Hcur. rewrite Ht1 in Ht. apply Ho in Ht. apply Z.eqb_eq in Hcur. subst g. lia. }
  match goal with |- context [with_config _ ?t] => set (t0 := t) end.
  apply (waits_on_ok t0 s1); [done| |by rewrite Hg1|simpl; rewrite Hg1; lia|by rewrite Hc1].
  destruct override as [config|]; [apply with_config_waits|]. split_and!; [done..|right; by exists t0].
Qed.

(** What holds of the state before a task goes on, and of how it goes on. *)
Lemma resume_cases i f s :
  resume i f s = s ∨
  ∃ t k, ts_tasks s !! i = Some t ∧ f t = Some k ∧ resume i f s = k (on_tasks (delete i) s).
Proof.
  unfold resume. destruct (ts_tasks s !! i) as [t|] eqn:Ht; simpl; [|by left].
  destruct (f t) as [k|] eqn:Hk; [right; by exists t, k|by left].
Qed.

Lemma resume_tasks i f s :
  tasks_ok s → (∀ t k, f t = Some k → ∀ s, waits_on t s (k s) ∧ (current t s = false → k s = s)) →
  tasks_ok (resume i f s).
Proof.
  intros Hs Hf. destruct (resume_cases i f s) as [->|(t & k & Ht & Hk & ->)]; [done|].
  pose proof (delete_tasks_ok i s Hs) as Hd. pose proof (list_elem_of_lookup_2 _ _ _ Ht) as Hin.
  destruct (Hf t k Hk (on_tasks (delete i) s)) as [Hw Hstale].
  destruct (current t s) eqn:Hcur; [|by rewrite Hstale].
  apply (waits_on_ok t (on_tasks (delete i) s)); try done; [|by apply Hs|by intros _; apply Hs].
  apply current_iff in Hcur. eapply of_generation_delete; [exact Ht|done|apply Hs].
Qed.

Lemma resume_profile i f s :
  profile_ok s → (∀ t k, f t = Some k → ∀ s, profile_ok s → profile_ok (k s)) → profile_ok (resume i f s).
Proof.
  intros Hs Hf. destruct (resume_cases i f s) as [->|(t & k & _ & Hk & ->)]; [done|].
  apply (Hf t k Hk). by apply (profile_ok_ext s); try apply Hs.
Qed.

(** Only the newest activation acts. *)
Lemma config_loaded_stale (r : outcome store_error CodexConfig) t s : current t s = false →
  match r with Ret config => with_config normalizedEntryPath t config s
             | Throw _ => activation_failed t s end = s.
Proof.
  intros Hc. destruct r as [config|e]; unfold with_config, activation_failed; by rewrite Hc.
Qed.

Lemma with_snapshot_stale t config key snapshot s : current t s = false →
  with_snapshot normalizedEntryPath t config key snapshot s = s.
Proof. intros Hc. unfold with_snapshot. by rewrite Hc. Qed.

Lemma failed_stale t s : current t s = false → activation_failed t s = s.
Proof. intros Hc. unfold activation_failed. by rewrite Hc. Qed.

Record inv s : Prop := { inv_profile : profile_ok s; inv_tasks : tasks_ok s }.

Lemma shutdown_inv ctx s : inv s → inv (shutdown ctx s).
Proof.
  intros [_ [Ho _ _]]. unfold shutdown. split.
  - match goal with |- profile_ok (on_session _ ?x) =>
      apply (profile_ok_ext x); try done; apply give_back_ok end.
  - constructor; simpl.
    + intros t Ht. apply Ho in Ht. lia.
    + rewrite of_generation_none; [simpl; lia|]. intros t Ht. apply Ho in Ht. lia.
    + intros t Ht Hc. apply Z.eqb_eq in Hc. simpl in Hc. apply Ho in Ht. lia.
Qed.

Lemma activate_inv ctx selected policy override b s :
  profile_ok s →
  (∀ t, t ∈ ts_tasks s → (t_generation t ≤ activationGeneration (ts_session s))%Z) →
  activeContext (ts_session s) = Some ctx →
  inv (activate normalizedEntryPath ctx selected policy override b s).
Proof. intros. split; [by apply activate_ok|by apply activate_tasks]. Qed.

Lemma remember_inv ctx selected policy b s :
  inv s → inv (activate normalizedEntryPath ctx selected policy None b (remember ctx s)).
Proof.
  intros [Hp Ht]. apply activate_inv; [|apply Ht|done]. by apply (profile_ok_ext s); try apply Hp.
Qed.

Lemma step_inv e s : inv s → inv (step e s).
Proof.
  intros Hs. pose proof Hs as [Hp Ht].
  destruct e as [ctx m pol|ctx m pol|c m pol|ctx|i r|p a|i]; cbn [tools_step].
  - by apply remember_inv.
  - by apply remember_inv.
  - destruct (negb _); [done|]. destruct (activeContext _) as [ctx|] eqn:Hc; [|done].
    apply activate_inv; [done|apply Ht|done].
  - by apply shutdown_inv.
  - split; [apply resume_profile|apply resume_tasks]; try done; intros t k Hk s0;
      destruct (t_wait t); try done; injection Hk as <-; destruct r as [config|err].
    + apply with_config_ok.
    + apply activation_failed_ok.
    + split; [apply with_config_waits|apply (config_loaded_stale (Ret config))].
    + split; [apply failed_waits|apply failed_stale].
  - split; [by apply (profile_ok_ext s); try apply Hp|by destruct Ht].
  - split; [apply resume_profile|apply resume_tasks]; try done; intros t k Hk s0;
      destruct (t_wait t) as [|config key promise]; try done;
      destruct (p_state <$> _) as [[| |]|]; try done; injection Hk as <-.
    + apply with_snapshot_ok.
    + apply activation_failed_ok.
    + split; [apply with_snapshot_waits|apply with_snapshot_stale].
    + split; [apply failed_waits|apply failed_stale].
Qed.

Lemma run_inv events s : inv s → inv (run events s).
Proof. revert s; induction events as [|e es IH]; intros s Hs; [done|]. simpl. by apply IH, step_inv. Qed.

Lemma register_inv entry (h : H) : inv (registerCodexTools normalizedEntryPath entry h).
Proof.
  split; [apply profile_ok_hidden; done|]. split; [intros t Ht|simpl; lia|intros t Ht];
    by apply elem_of_nil in Ht.
Qed.

(** ** The host *)

(** What every call of the profile and every notification keeps. *)
Lemma step_world (P : world H → Prop) e s :
  (∀ op w, P w → P (profile_step normalizedEntryPath op w)) → (∀ m w, P w → P (notify m w)) →
  P (ts_world s) → P (ts_world (step e s)).
Proof.
  intros Hop Hn Hs.
  assert (Hback : ∀ ctx s, P (ts_world s) → P (ts_world (give_back ctx s)))
    by (intros ctx s0; apply (Hop PRestore)).
  assert (Hwarn : ∀ t c s, P (ts_world s) → P (ts_world (warn_startup t c s))).
  { intros t c s0 Hs0. unfold warn_startup. repeat case_match; try done. by apply Hn. }
  assert (Hreq : ∀ t m c s, P (ts_world s) → P (ts_world (request_capabilities t m c s)))
    by (intros t m c s0 Hs0; unfold request_capabilities; by destruct (resolve _ _)).
  assert (Hcfg : ∀ t c s, P (ts_world s) → P (ts_world (with_config normalizedEntryPath t c s))).
  { intros t c s0 Hs0. unfold with_config. destruct (negb _); [done|]. apply (Hwarn t c) in Hs0.
    destruct (t_selected t); [|by apply Hback]. destruct (negb _); [by apply Hback|].
    destruct (isHealthy _ _).
    - apply (Hop (PRevalidate true)) in Hs0. cbn [profile_step] in Hs0.
      destruct (revalidateHealthyOwnership _ _ _) as [[] w]; [by apply Hreq|done].
    - apply Hreq. by apply (Hop (PPending _)). }
  assert (Hfail : ∀ t s, P (ts_world s) → P (ts_world (activation_failed t s))).
  { intros t s0 Hs0. unfold activation_failed. destruct (negb _); [done|].
    destruct (t_shouldFailClosed t); [by apply (Hop (PUnavailable None None false))|by apply Hback]. }
  assert (Hsnap : ∀ t c k sn s, P (ts_world s) → P (ts_world (with_snapshot normalizedEntryPath t c k sn s))).
  { intros t c k sn s0 Hs0. unfold with_snapshot. destruct (negb _); [done|].
    apply (Hop (PHealthy k (literal_name <$> localTools sn) (snapshot_loader sn) true)) in Hs0.
    cbn [profile_step] in Hs0. by destruct (installHealthy _ _ _ _ _ _) as [[] w]. }
  assert (Hact : ∀ ctx m pol o b s, P (ts_world s) →
    P (ts_world (activate normalizedEntryPath ctx m pol o b s))).
  { intros ctx m pol o b s0 Hs0. unfold activate.
    match goal with |- context [if negb ?a then give_back ctx ?s0 else ?e] =>
      assert (P (ts_world (if negb a then give_back ctx s0 else e))) as Hx end.
    { destruct (negb _); [by apply Hback|]. destruct (not_known_healthy _ _ _); [|done].
      by apply (Hop (PPending _)). }
    destruct o; [by apply Hcfg|done]. }
  assert (Hres : ∀ i f, (∀ t k, f t = Some k → ∀ s, P (ts_world s) → P (ts_world (k s))) →
    P (ts_world (resume i f s))).
  { intros i f Hf. destruct (resume_cases i f s) as [->|(t & k & _ & Hk & ->)]; [done|]. by apply (Hf t k Hk). }
  destruct e as [ctx m pol|ctx m pol|c m pol|ctx|i r|p a|i]; cbn [tools_step].
  - by apply Hact.
  - by apply Hact.
  - destruct (negb _); [done|]. destruct (activeContext _); [by apply Hact|done].
  - by apply (Hback ctx).
  - apply Hres. intros t k Hk. destruct (t_wait t); [|done]. injection Hk as <-.
    destruct r; [by apply Hcfg|by apply Hfail].
  - done.
  - apply Hres. intros t k Hk. destruct (t_wait t); [done|].
    destruct (p_state <$> _) as [[| |]|]; try done; injection Hk as <-; [by apply Hsnap|by apply Hfail].
Qed.

Lemma run_world (P : world H → Prop) events s :
  (∀ op w, P w → P (profile_step normalizedEntryPath op w)) → (∀ m w, P w → P (notify m w)) →
  P (ts_world s) → P (ts_world (run events s)).
Proof.
  intros Hop Hn. revert s; induction events as [|e es IH]; intros s Hs; [done|]. simpl.
  by apply IH, step_world.
Qed.

(** C21: In every order of events, a profile that is healthy is so for the
    capability key the session remembers; a profile that is unavailable says
    so in the status; what the status shows otherwise is the text of a
    resolved snapshot, and only while the profile is healthy.  At most one
    activation that waits is current, it acts for the active context, and
    what is delivered to any other leaves session, tools, notifications and
    statuses alone. *)
Theorem only_newest_activation_acts entry (h : H) events :
  let s := run events (registerCodexTools normalizedEntryPath entry h) in
  (∀ key, readiness_of (ts_world s) = healthy key → lastHealthyCapabilityKey (ts_session s) = Some key) ∧
  (is_unavailable (readiness_of (ts_world s)) → shown s = Some STATUS_UNAVAILABLE) ∧
  (∀ text, shown s = Some text →
     (text = STATUS_UNAVAILABLE ∧ is_unavailable (readiness_of (ts_world s))) ∨
     (is_healthy (readiness_of (ts_world s)) ∧
      ∃ config snapshot, status_text config snapshot = Some text)) ∧
  length (filter (λ t, current t s = true) (ts_tasks s)) ≤ 1 ∧
  ∀ i t, ts_tasks s !! i = Some t →
    if current t s then activeContext (ts_session s) = Some (t_ctx t)
    else ∀ e s', e = capabilities_awaited i ∨ (∃ r, e = config_loaded i r) → s' = step e s →
         ts_session s' = ts_session s ∧ ts_world s' = ts_world s ∧ ts_statuses s' = ts_statuses s.
Proof.
  intros s. assert (inv s) as [[_ Hk Hu Hsh] [Ho Hone Hc]] by apply run_inv, register_inv.
  split_and!; [done..| |].
  - rewrite (list_filter_iff (λ t, current t s = true) (λ t, t_generation t =
      activationGeneration (ts_session s))); [done|]. intros t. apply current_iff.
  - intros i t Ht. destruct (current t s) eqn:Hcur.
    { apply Hc; [by eapply list_elem_of_lookup_2|done]. }
    intros e s' He ->. assert (Hcur' : current t (on_tasks (delete i) s) = false) by done.
    destruct He as [->|[r ->]]; cbn [tools_step]; unfold resume; rewrite Ht; simpl;
      destruct (t_wait t) as [|c k p]; try done.
    + destruct (p_state <$> _) as [[| |]|]; try done.
      * by rewrite with_snapshot_stale.
      * by rewrite failed_stale.
    + pose proof (config_loaded_stale r t _ Hcur') as Hst. destruct r; by rewrite Hst.
Qed.

(** ** After the session *)

(** Events other than those that begin a session or end it once more. *)
Definition is_late (e : tools_event) : bool :=
  match e with session_start _ _ _ | model_select _ _ _ | session_shutdown _ => false | _ => true end.

Record quiet s : Prop := {
  qu_tasks t : t ∈ ts_tasks s → current t s = false;
  qu_subscribed : subscribed (ts_session s) = false }.

Lemma resume_quiet i f s :
  quiet s → (∀ t k, f t = Some k → ∀ s, current t s = false → k s = s) →
  quiet (resume i f s) ∧ ts_world (resume i f s) = ts_world s ∧ ts_statuses (resume i f s) = ts_statuses s.
Proof.
  intros Hs Hf. destruct (resume_cases i f s) as [->|(t & k & Ht & Hk & ->)]; [done|].
  rewrite (Hf t k Hk) by (apply (qu_tasks _ Hs); by eapply list_elem_of_lookup_2).
  split; [|done]. destruct Hs as [Hq Hsub]. split; [|done]. intros x Hx. apply (Hq x).
  eapply elem_of_submseteq; [done|]. apply sublist_submseteq, sublist_delete.
Qed.

Lemma step_quiet e s : is_late e = true → quiet s →
  quiet (step e s) ∧ ts_world (step e s) = ts_world s ∧ ts_statuses (step e s) = ts_statuses s.
Proof.
  intros He Hs. pose proof Hs as [Hq Hsub].
  destruct e as [ctx m pol|ctx m pol|c m pol|ctx|i r|p a|i]; try done; cbn [tools_step].
  - by rewrite Hsub.
  - apply resume_quiet; [done|]. intros t k Hk s0 Hc. destruct (t_wait t); [|done]. injection Hk as <-.
    pose proof (config_loaded_stale r t s0 Hc). by destruct r.
  - apply resume_quiet; [done|]. intros t k Hk s0 Hc. destruct (t_wait t); [done|].
    destruct (p_state <$> _) as [[| |]|]; try done; injection Hk as <-;
      [by apply with_snapshot_stale|by apply failed_stale].
Qed.

Lemma run_quiet events s : quiet s →
  ts_world (run (filter (λ e, is_late e = true) events) s) = ts_world s ∧
  ts_statuses (run (filter (λ e, is_late e = true) events) s) = ts_statuses s.
Proof.
  revert s; induction events as [|e es IH]; intros s Hs; [done|].
  rewrite filter_cons. destruct (decide _) as [He|]; [|by apply IH]. cbn [tools_run fold_left].
  destruct (step_quiet e s He Hs) as (Hq & Hw & Hst). rewrite <-Hw, <-Hst. by apply IH.
Qed.

Lemma shutdown_quiet ctx s : inv s → quiet (shutdown ctx s).
Proof.
  intros [_ [Ho _ _]]. split; [|done]. intros t Ht. apply Ho in Ht. apply Z.eqb_neq. simpl. lia.
Qed.
End facts.

Lemma notify_safe {H} `{ExtensionAPI H} norm tools m (w : world H) :
  profile_safe norm tools w → profile_safe norm tools (notify m w).
Proof.
  destruct w as [[p h] out]. unfold profile_safe, state_of. simpl.
  destruct (state p); [|done]. by intros [? ? ? ? ?].
Qed.

Lemma notify_recoverable {H} `{ExtensionAPI H} tools base m (w : world H) :
  recoverable tools base w → recoverable tools base (notify m w).
Proof. destruct w as [[p h] out]. by intros [? ? ? ?]. Qed.

(** When a session ends, after any events, Pi has exactly the tools back
    that were active when the adaptor was registered, in their order, the
    profile is inactive and no status is shown; and whatever is delivered
    later - a loaded configuration, a change of it, an answer of the native
    runtime - changes neither tools nor notifications nor status. *)
Theorem shutdown_is_final {H} `{ExtensionAPILaws H} `{JsonText} norm tools entry (h : H) events ctx late :
  getAllTools h = Some tools → NoDup (getActiveTools h) →
  (∀ n, n ∈ getActiveTools h → n ∈ names_of tools ∧ isManagedToolName n = false) →
  let ended := shutdown ctx (tools_run norm events (registerCodexTools norm entry h)) in
  let s := tools_run norm (filter (λ e, is_late e = true) late) ended in
  getActiveTools (host_of (ts_world s)) = getActiveTools h ∧ readiness_of (ts_world s) = inactive ∧
  shown s = None ∧ ts_world s = ts_world ended ∧ ts_statuses s = ts_statuses ended.
Proof.
  intros Ht Hnd Hbase ended s.
  set (s0 := tools_run norm events (registerCodexTools norm entry h)) in ended.
  assert (Hi : inv s0) by apply run_inv, register_inv.
  assert (Hw : getAllTools (host_of (ts_world s0)) = Some tools ∧ profile_safe norm tools (ts_world s0) ∧
    recoverable tools (getActiveTools h) (ts_world s0)).
  { subst s0. apply (run_world norm (λ w, getAllTools (host_of w) = Some tools ∧
      profile_safe norm tools w ∧ recoverable tools (getActiveTools h) w)).
    - intros op w (? & ? & ?). destruct (step_safe norm tools op w); [done..|].
      split_and!; [done..|by apply (step_recoverable norm)].
    - intros m w (? & Hsafe & Hrec). by destruct w as [[p h0] out];
        split_and!; [|apply notify_safe|apply notify_recoverable].
    - split_and!; [done|done|]. constructor; try done. intros n Hn. by apply Hbase. }
  destruct Hw as (Ht0 & _ & Hv). destruct (run_quiet norm late ended (shutdown_quiet ctx _ Hi)) as [Ew Es].
  fold s in Ew, Es. unfold shown. rewrite Ew, Es. split_and!; try done.
  - by apply (restore_recoverable tools).
  - subst ended. destruct (restorePi_readiness (ts_world s0)) as [Hr _]. exact Hr.
  - subst ended. simpl. by rewrite last_snoc.
Qed.

Definition sample_model : tool_model := {|
  tm_id := "gpt"; tm_provider := "openai-codex"; tm_api := "openai-codex-responses";
  tm_input := [modality_text]; tm_contextWindow := None |}.

(** The activation waits for the resolver when the session ends. *)
Definition sample_events : list tools_event :=
  [session_start 1 (Some sample_model) ["openai-codex"]; config_loaded 0 (Ret createDefaultConfig)].
Definition sample_late : list tools_event :=
  [config_changed createDefaultConfig (Some sample_model) ["openai-codex"];
   capabilities_answered 0 (Throw (other_error "late")); capabilities_awaited 0].

Definition sample_registered : tools_state plain_host := registerCodexTools (λ p, p) (Some "/ext") sample_host.

Lemma shutdown_is_final_witness :
  let s := tools_run (H1 := bits_json) (λ p, p) sample_events sample_registered in
  let late := tools_run (H1 := bits_json) (λ p, p) (filter (λ e, is_late e = true) sample_late) (shutdown 1 s) in
  getActiveTools (host_of (ts_world s)) = ["todo"] ∧
  getActiveTools (host_of (ts_world late)) = ["read"; "todo"; "bash"].
Proof.
  split; [vm_compute; reflexivity|].
  refine (proj1 (shutdown_is_final (H2 := bits_json) (λ p, p) (ph_tools sample_host) (Some "/ext") sample_host
    sample_events 1 sample_late eq_refl _ _)).
  - apply (bool_decide_unpack (NoDup _)); vm_compute; exact I.
  - intros n Hn. simpl in Hn. rewrite !elem_of_cons, elem_of_nil in Hn.
    repeat destruct Hn as [->|Hn]; try done; (split; [by apply js_elem_spec|reflexivity]).
Defined.
