(* ===== verification/Tools.v ===== *)
(** * Tools

    The managed tools at work: [src/src/integration/pi/codex-tools.ts] (the
    [execute] functions and their arguments), [src/src/domain/plan.ts],
    [src/src/application/update-plan.ts] and
    [src/src/infrastructure/codex-bridge/tool-execute-params.ts], down to the
    [tools.execute] request the native bridge is sent.

    The configuration, the credentials and the bridge's answer with its events
    are in the environment; the state is what was shown and sent. *)

From S2P Require Import Prelude Json StructuredJson Config Capability EffectiveCapabilities ConfigStore.
From S2P Require Import Normalization ResponseStream ResponseItems Credentials RequestGuard Connection Dispatch.

(** ** Plans *)

Inductive PlanItemStatus := plan_pending | plan_in_progress | plan_completed.
#[export] Instance PlanItemStatus_eq_dec : EqDecision PlanItemStatus. Proof. solve_decision. Defined.
#[export] Program Instance PlanItemStatus_literal : Literal PlanItemStatus :=
  {| literal_name a := match a with
       plan_pending => "pending" | plan_in_progress => "in_progress" | plan_completed => "completed" end |}.
Next Obligation. solve_literal. Defined.

Record PlanItem := { step : string; item_status : PlanItemStatus }.
Record PlanUpdate := { explanation : option string; plan : list PlanItem }.

Inductive tool_error :=
| PlanArgumentsError
| PlanModeError
| tool_failed (message : string).

Definition isPlanItemStatus (value : jsval) : option PlanItemStatus :=
  match value with
  | VStr s => if String.eqb s "pending" then Some plan_pending
              else if String.eqb s "in_progress" then Some plan_in_progress
              else if String.eqb s "completed" then Some plan_completed else None
  | _ => None
  end.

Definition hasUnknownKeys (fs : list (string * jsval)) (allowed : list string) : bool :=
  existsb (λ key, negb (js_elem key allowed)) (keys fs).

Definition plan_item (item : jsval) : outcome tool_error PlanItem :=
  match as_record item with
  | None => Throw PlanArgumentsError
  | Some fs =>
      if hasUnknownKeys fs ["step"; "status"] then Throw PlanArgumentsError else
      match field fs "step", isPlanItemStatus (field fs "status") with
      | VStr text, Some st => Ret {| step := text; item_status := st |}
      | _, _ => Throw PlanArgumentsError
      end
  end.

Definition parsePlanUpdate (value : jsval) : outcome tool_error PlanUpdate :=
  match as_record value with
  | None => Throw PlanArgumentsError
  | Some fs =>
      if hasUnknownKeys fs ["explanation"; "plan"] then Throw PlanArgumentsError else
      explanation ← match field fs "explanation" with
        | VUndef => Ret None | VStr s => Ret (Some s) | _ => Throw PlanArgumentsError end;
      match field fs "plan" with
      | VArr items =>
          items ← map_throw plan_item items;
          Ret {| explanation := explanation; plan := items |}
      | _ => Throw PlanArgumentsError
      end
  end.

Definition renderPlan (update : PlanUpdate) : list string :=
  "Plan" :: ((λ item, (match item_status item with
     | plan_completed => "[x]" | plan_in_progress => "[>]" | plan_pending => "[ ]" end
     ++ " " ++ step item)%string) <$> plan update).

Definition PLAN_MODE_MARK : string := "[PLAN MODE ACTIVE]".

(** What one entry says about the plan mode, from the newest. *)
Definition entry_plan_mode (entry : jsval) : option bool :=
  entry ← as_record entry;
  match field entry "type", field entry "customType", field entry "content" with
  | VStr type, VStr custom, content =>
      if String.eqb type "custom" && String.eqb custom "plan-mode"
      then Some match as_record (field entry "data") with
                | Some data => bool_decide (field data "enabled" = VBool true) | None => false end
      else match content with
           | VStr text =>
               if String.eqb type "custom_message" && String.eqb custom "plan-mode-context" &&
                  includes PLAN_MODE_MARK text
               then Some true else None
           | _ => None
           end
  | _, _, _ => None
  end.

Definition detectPlanMode (entries : list jsval) (systemPrompt : string) : bool :=
  match head (omap entry_plan_mode (reverse entries)) with
  | Some mode => mode
  | None => includes PLAN_MODE_MARK systemPrompt
  end.

(** ** Arguments *)

Abbreviation fields := (list (string * jsval)) (only parsing).

Definition pickString (source : fields) (key : string) : fields :=
  match field source key with VStr s => [(key, VStr s)] | _ => [] end.
Definition pickBoolean (source : fields) (key : string) : fields :=
  match field source key with VBool b => [(key, VBool b)] | _ => [] end.
Definition pickNumber (source : fields) (key : string) : fields :=
  match field source key with VNum n => if is_finite n then [(key, VNum n)] else [] | _ => [] end.
Definition is_text (v : jsval) : bool := match v with VStr _ => true | _ => false end.
Definition pickStringArray (source : fields) (key : string) : fields :=
  match field source key with
  | VArr items => if forallb is_text items then [(key, VArr items)] else []
  | _ => []
  end.

Inductive NativeManagedTool := native_exec | native_stdin | native_shell | native_patch | native_image.
Definition native_name (t : NativeManagedTool) : string :=
  match t with
  | native_exec => "exec_command" | native_stdin => "write_stdin" | native_shell => "shell_command"
  | native_patch => "apply_patch" | native_image => "view_image"
  end.

Definition source_of (params : jsval) : fields := default [] (as_record params).

Definition buildNativeToolArguments (name : NativeManagedTool) (params : jsval)
    (allowBackgroundSessions : bool) (modelId : string) : fields :=
  let source := source_of params in
  ("model", VStr modelId) ::
  match name with
  | native_exec =>
      pickString source "cmd" ++ pickString source "shell" ++ pickBoolean source "login" ++
      pickNumber source "max_output_tokens" ++ pickBoolean source "tty" ++
      pickNumber source "yield_time_ms" ++
      [("allow_background_sessions", VBool allowBackgroundSessions)]
  | native_shell =>
      pickString source "command" ++ pickBoolean source "login" ++ pickNumber source "timeout_ms" ++
      pickNumber source "max_output_tokens"
  | native_stdin =>
      pickNumber source "session_id" ++ pickString source "chars" ++
      pickNumber source "yield_time_ms" ++ pickNumber source "max_output_tokens"
  | native_patch => pickString source "input"
  | native_image => pickString source "path" ++ pickString source "detail"
  end.

(** The contents of one message, newest first; [images] are the newest first
    too, and the [break] is taken when exactly [count] are found. *)
Definition image_url_of (content : jsval) : option jsval :=
  fs ← as_record content;
  match field fs "type", field fs "data", field fs "mimeType" with
  | VStr type, VStr data, VStr mime =>
      if String.eqb type "image" then Some (VStr ("data:" ++ mime ++ ";base64," ++ data)%string) else None
  | _, _, _ => None
  end.

Fixpoint collect_images (contents : list jsval) (count : jsnum) (images : list jsval) : list jsval :=
  match contents with
  | [] => images
  | content :: contents =>
      match image_url_of content with
      | None => collect_images contents count images
      | Some url =>
          let images := images ++ [url] in
          if num_eqb (Z.of_nat (length images)) count then images
          else collect_images contents count images
      end
  end.

Definition message_contents (entry : jsval) : option (list jsval) :=
  fs ← as_record entry;
  if bool_decide (field fs "type" = VStr "message") then
    message ← as_record (field fs "message");
    match field message "content" with VArr items => Some items | _ => None end
  else None.

Fixpoint collect_entries (entries : list jsval) (count : jsnum) (images : list jsval) : list jsval :=
  match entries with
  | [] => images
  | entry :: entries =>
      if negb (num_ltb (Z.of_nat (length images)) count) then images else
      collect_entries entries count
        match message_contents entry with
        | None => images
        | Some contents => collect_images (reverse contents) count images
        end
  end.

Definition recentConversationImageUrls (branch : list jsval) (count : jsnum) : list jsval :=
  reverse (collect_entries (reverse branch) count []).

Definition buildImageGenerationArguments (params : jsval) (branch : list jsval) : fields :=
  let source := source_of params in
  let argumentsValue := pickString source "prompt" ++ pickStringArray source "referenced_image_paths" ++
                        pickNumber source "num_last_images_to_include" in
  match field argumentsValue "num_last_images_to_include" with
  | VNum count => argumentsValue ++ [("recent_image_urls", VArr (recentConversationImageUrls branch count))]
  | _ => argumentsValue
  end.

Definition buildWebRunArguments (params : jsval) (conversationItems : list jsval) (model : option string)
    (requestSessionId : string) (webSearchMode : WebSearchMode) : fields :=
  [("commands", VObj (source_of params)); ("conversation_items", VArr conversationItems)] ++
  optional_field "model" VStr model ++
  [("request_session_id", VStr requestSessionId); ("web_search_mode", lit webSearchMode)].

Definition nativeApprovalPolicyFor (policy : ApprovalPolicy) : ApprovalPolicy :=
  match policy with on_request => on_request | never => never end.

Definition workdirFrom (params : jsval) (fallback : string) : string :=
  match field (source_of params) "workdir" with
  | VStr dir => if (0 <? String.length dir)%nat then dir else fallback
  | _ => fallback
  end.

(** ** The request of the bridge *)

Definition TOOL_EXECUTE_ARGUMENT_KEYS : list string :=
  ["command"; "cmd"; "timeoutMs"; "timeout_ms"; "shell"; "tty"; "yield_time_ms"; "yieldTimeMs";
   "max_output_tokens"; "maxOutputTokens"; "login"; "allow_login_shell"; "allowLoginShell";
   "allow_background_sessions"; "allowBackgroundSessions"; "session_id"; "sessionId"; "chars";
   "path"; "detail"; "input"; "prompt"; "referenced_image_paths"; "referencedImagePaths";
   "num_last_images_to_include"; "numLastImagesToInclude"; "recent_image_urls"; "recentImageUrls";
   "commands"; "conversation_items"; "conversationItems"; "model"; "request_session_id";
   "requestSessionId"; "web_search_mode"; "webSearchMode"].

Record ToolsExecuteParamsInput := {
  x_tool : string;
  x_argumentsValue : fields;
  x_workdir : string;
  x_workspaceRoots : list string;
  x_approvalPolicy : ApprovalPolicy;
  x_filesystemAccessPolicy : FilesystemAccessPolicy }.

(** [params[key] = value] for the own keys that are not [undefined]. *)
Definition copied_argument (args : fields) (key : string) : option (string * jsval) :=
  if js_elem key (keys args) then
    match field args key with VUndef => None | v => Some (key, v) end
  else None.

Definition buildToolsExecuteParams (input : ToolsExecuteParamsInput) : fields :=
  [("tool", VStr (x_tool input)); ("workdir", VStr (x_workdir input));
   ("workspaceRoots", VArr (VStr <$> x_workspaceRoots input));
   ("approvalPolicy", lit (x_approvalPolicy input));
   ("filesystemAccessPolicy", lit (x_filesystemAccessPolicy input))] ++
  omap (copied_argument (x_argumentsValue input)) TOOL_EXECUTE_ARGUMENT_KEYS.

Definition isNetworkTool (tool : string) : bool :=
  String.eqb tool "web.run" || String.eqb tool "image_gen.imagegen".

(** [executeTool] of the runtime: the parameters of its [tools.execute]. *)
Definition execute_params (input : ToolsExecuteParamsInput) (connection : option CodexProviderConnection)
    : fields :=
  buildToolsExecuteParams input ++
  (if isNetworkTool (x_tool input) then optional_field "connection" connection_value connection else []).

(** ** Results *)

(** [o[k] = v] on an object. *)
Fixpoint assign_field (k : string) (v : jsval) (fs : fields) : fields :=
  match fs with
  | [] => [(k, v)]
  | (k', v') :: fs => if String.eqb k' k then (k, v) :: fs else (k', v') :: assign_field k v fs
  end.
Definition spread_fields (extra fs : fields) : fields :=
  fold_left (λ fs kv, assign_field kv.1 kv.2 fs) extra fs.

(** The texts before and after the first [c]. *)
Fixpoint cut_at (c : ascii) (s : string) : option (string * string) :=
  match s with
  | EmptyString => None
  | String d s => if Ascii.eqb d c then Some (EmptyString, s)
                  else '(a, b) ← cut_at c s; Some (String d a, b)
  end.

(** The data and the type of an image. *)
Definition imageContent (value : jsval) : option (string * string) :=
  match value with
  | VStr s =>
      if negb (starts_with "data:" s) then None else
      '(before, data) ← cut_at "," s;
      match split_on ";" (slice_from 5 before) with
      | mimeType :: base :: _ => if String.eqb base "base64" then Some (data, mimeType) else None
      | _ => None
      end
  | _ => None
  end.

Definition toolOutputDelta (event : jsval) : option string :=
  fs ← as_record event;
  match field fs "type", field fs "text" with
  | VStr type, VStr text => if String.eqb type "tool.output.delta" then Some text else None
  | _, _ => None
  end.

Fixpoint ends_with_newline (s : string) : bool :=
  match s with
  | EmptyString => false
  | String c EmptyString => (unit_of c =? 10)%N
  | String _ s => ends_with_newline s
  end.

Section tools.
Context `{JsonText} `{UrlApi}.

Definition result_metadata (status : string) (details : fields) : fields :=
  spread_fields (filter (λ kv, negb (String.eqb kv.1 "output") && negb (String.eqb kv.1 "status") = true)
                   details) [("status", VStr status)].

Definition modelVisibleNativeToolResult (status : string) (details : fields) (streamedOutput : string)
    : string :=
  let output := match field details "output" with VStr s => s | _ => streamedOutput end in
  let serializedMetadata := stringify (VObj (object_order (result_metadata status details))) in
  if (String.length output =? 0)%nat then serializedMetadata
  else (output ++ (if ends_with_newline output then "" else line_feed) ++ serializedMetadata)%string.

(** ** Execution *)

Inductive tool_content := text_content (text : string) | image_content (data mimeType : string).

Record tool_result := { r_content : list tool_content; r_details : jsval }.

(** What was shown while a tool runs, and what the bridge was sent. *)
Inductive tool_effect :=
| show_running (text : string)
| show_plan (lines : list string)
| bridge_execute (params : fields).

Record tool_env := {
  te_model : option (PiModel * string);
  te_providers : list string;
  te_cwd : string;
  te_sessionId : string;
  te_entries : list jsval;                  (* [getEntries], or the branch *)
  te_branch : list jsval;
  te_systemPrompt : string;
  te_config : outcome tool_error CodexConfig;
  te_auth : PiModel → option (option string * option (list (string * option string)));
  te_events : fields → list jsval;
  te_answer : fields → outcome tool_error CreateResponseResult }.

Definition INACTIVE_TOOLS : string := "Codex tools are inactive for the selected provider and API".

Abbreviation tool_run A := (stateful (list tool_effect) tool_error A).

Definition emit (x : tool_effect) : tool_run unit := st_modify (λ l, l ++ [x]).
Definition lift_tool {A} (r : outcome string A) : tool_run A :=
  st_lift match r with Ret a => Ret a | Throw m => Throw (tool_failed m) end.
Definition notifyToolRunning : tool_run unit := emit (show_running "").

Definition executeTool (e : tool_env) (input : ToolsExecuteParamsInput)
    (connection : option CodexProviderConnection) : tool_run CreateResponseResult :=
  let params := execute_params input connection in
  emit (bridge_execute params);; st_lift (te_answer e params).

Definition bridge_input (e : tool_env) (config : CodexConfig) (tool : string) (args : fields)
    (workdir : string) : ToolsExecuteParamsInput :=
  {| x_tool := tool; x_argumentsValue := args; x_workdir := workdir; x_workspaceRoots := [te_cwd e];
     x_approvalPolicy := nativeApprovalPolicyFor (approvalPolicy (security config));
     x_filesystemAccessPolicy := filesystemAccessPolicy (security config) |}.

Definition update_plan_tool (e : tool_env) (params : jsval) : tool_run tool_result :=
  notifyToolRunning;;
  lift_tool (assertProviderActive (fst <$> te_model e) (te_providers e) INACTIVE_TOOLS);;
  (if detectPlanMode (te_entries e) (te_systemPrompt e) then st_lift (Throw PlanModeError) else mret tt);;
  update ← st_lift (parsePlanUpdate params);
  emit (show_plan (renderPlan update));;
  mret {| r_content := [text_content "Plan updated"];
          r_details := VObj (optional_field "explanation" VStr (explanation update) ++
            [("plan", VArr ((λ item, VObj [("step", VStr (step item)); ("status", lit (item_status item))])
                              <$> plan update))]) |}.

(** The output streamed so far, shown at each delta. *)
Fixpoint stream_output (events : list jsval) (streamed : string) : tool_run string :=
  match events with
  | [] => mret streamed
  | event :: events =>
      match toolOutputDelta event with
      | None => stream_output events streamed
      | Some delta =>
          let streamed := (streamed ++ delta)%string in
          emit (show_running streamed);; stream_output events streamed
      end
  end.

Definition native_tool (e : tool_env) (name : NativeManagedTool) (params : jsval) : tool_run tool_result :=
  lift_tool (assertProviderActive (fst <$> te_model e) (te_providers e) INACTIVE_TOOLS);;
  notifyToolRunning;;
  config ← st_lift (te_config e);
  modelId ← st_lift match te_model e with
    | Some (_, id) => Ret id | None => Throw (tool_failed "Codex tool model is unavailable") end;
  let input := bridge_input e config (native_name name)
    (buildNativeToolArguments name params (backgroundSessions (tools config)) modelId)
    (workdirFrom params (te_cwd e)) in
  let sent := execute_params input None in
  emit (bridge_execute sent);;
  streamed ← stream_output (te_events e sent) "";
  result ← st_lift (te_answer e sent);
  let details := default [] (as_record (res_result result)) in
  match name with
  | native_image =>
      match imageContent (field details "image_url") with
      | None => st_lift (Throw (tool_failed "Native image result is invalid"))
      | Some (data, mime) =>
          mret {| r_content := [image_content data mime];
                  r_details := VObj [("status", VStr (res_status result)); ("detail", field details "detail")] |}
      end
  | _ =>
      mret {| r_content := [text_content (modelVisibleNativeToolResult (res_status result) details streamed)];
              r_details := VObj (spread_fields details [("status", VStr (res_status result))]) |}
  end.

Definition network_connection (e : tool_env) : tool_run CodexProviderConnection :=
  lift_tool (resolveProviderConnection (fst <$> te_model e) (te_providers e) INACTIVE_TOOLS (te_auth e)).

Definition image_generation_tool (e : tool_env) (params : jsval) : tool_run tool_result :=
  notifyToolRunning;;
  config ← st_lift (te_config e);
  connection ← network_connection e;
  result ← executeTool e (bridge_input e config "image_gen.imagegen"
    (buildImageGenerationArguments params (te_branch e)) (te_cwd e)) (Some connection);
  match as_record (res_result result) ≫= λ details, imageContent (field details "image_url") with
  | None => st_lift (Throw (tool_failed "Native image generation result is invalid"))
  | Some (data, mime) =>
      mret {| r_content := [image_content data mime];
              r_details := VObj [("status", VStr (res_status result))] |}
  end.

(** The messages of the branch's entries. *)
Definition branch_messages (branch : list jsval) : list jsval :=
  omap (λ entry, fs ← as_record entry;
                 if bool_decide (field fs "type" = VStr "message") then Some (field fs "message") else None)
    branch.

Definition standalone_web_tool (e : tool_env) (params : jsval) : tool_run tool_result :=
  notifyToolRunning;;
  config ← st_lift (te_config e);
  connection ← network_connection e;
  conversationItems ← lift_tool (responseItemsFromMessages (branch_messages (te_branch e)));
  result ← executeTool e (bridge_input e config "web.run"
    (buildWebRunArguments params conversationItems (snd <$> te_model e) (te_sessionId e)
       (webSearch_mode (codex config))) (te_cwd e)) (Some connection);
  mret {| r_content := [text_content match as_record (res_result result) with
            | Some details => match field details "output" with VStr s => s | _ => "" end
            | None => "" end];
          r_details := VObj [("status", VStr (res_status result))] |}.

(** The managed tools, by name. *)
Definition run_tool (e : tool_env) (name : ManagedToolName) (params : jsval) : tool_run tool_result :=
  match name with
  | update_plan => update_plan_tool e params
  | exec_command => native_tool e native_exec params
  | write_stdin => native_tool e native_stdin params
  | tool_shell_command => native_tool e native_shell params
  | apply_patch => native_tool e native_patch params
  | view_image => native_tool e native_image params
  | image_gen_imagegen => image_generation_tool e params
  | web_run => standalone_web_tool e params
  end.
End tools.
