(* ===== verification/ToolsFacts.v ===== *)
(** * ToolsFacts

    What the native bridge is asked to do is the host's to decide; the images
    and arguments that reach it are the ones the conversation has. *)

From S2P Require Import Prelude Json StructuredJson Config Capability EffectiveCapabilities ConfigStore.
From S2P Require Import Normalization ResponseStream ResponseItems Credentials RequestGuard Connection.
From S2P Require Import Dispatch Tools.

(** ** Fields *)

Lemma field_app fs gs k : field (fs ++ gs) k = if js_elem k (keys fs) then field fs k else field gs k.
Proof.
  induction fs as [|[k' v] fs IH]; [done|]. cbn [app field keys fmap list_fmap fst js_elem existsb].
  rewrite String.eqb_sym. destruct (String.eqb_spec k k') as [->|]; [done|]. exact IH.
Qed.

Lemma keys_app (fs gs : list (string * jsval)) : keys (fs ++ gs) = keys fs ++ keys gs.
Proof. apply fmap_app. Qed.

Lemma copied_key args k kv : copied_argument args k = Some kv → kv.1 = k.
Proof.
  unfold copied_argument. destruct (js_elem k _); [|done]. by destruct (field args k); intros [= <-].
Qed.

Lemma keys_copied args ks k : k ∈ keys (omap (copied_argument args) ks) → k ∈ ks.
Proof.
  unfold keys. rewrite list_elem_of_fmap. intros (kv & -> & (k0 & Hk0 & Hc)%list_elem_of_omap).
  by rewrite (copied_key _ _ _ Hc).
Qed.

(** The copy of one key. *)
Lemma field_copied args ks k :
  NoDup ks → field (omap (copied_argument args) ks) k = if js_elem k ks then field args k else VUndef.
Proof.
  induction 1 as [|k0 ks Hk0 _ IH]; [done|]. cbn [omap list_omap js_elem existsb].
  destruct (String.eqb_spec k k0) as [->|Hne].
  - assert (Hnone : field (omap (copied_argument args) ks) k0 = VUndef).
    { apply field_absent. by intros ?%keys_copied. }
    unfold copied_argument at 1. destruct (js_elem k0 (keys args)) eqn:Hin.
    + destruct (field args k0) eqn:Hv; cbn [field]; rewrite ?String.eqb_refl; done.
    + rewrite Hnone. symmetry. apply field_absent. by rewrite <-js_elem_false.
  - cbn [orb]. fold (js_elem k ks). rewrite <-IH. unfold copied_argument at 1. destruct (js_elem k0 _); [|done].
    assert (String.eqb k0 k = false) by (by apply String.eqb_neq).
    destruct (field args k0); cbn [field]; by rewrite ?H.
Qed.

Definition HOST_KEYS : list string :=
  ["tool"; "workdir"; "workspaceRoots"; "approvalPolicy"; "filesystemAccessPolicy"].

Lemma argument_keys_nodup : NoDup TOOL_EXECUTE_ARGUMENT_KEYS.
Proof. apply (bool_decide_unpack (NoDup _)). vm_compute. exact I. Qed.

Lemma argument_keys_apart k : k ∈ TOOL_EXECUTE_ARGUMENT_KEYS → k ≠ "connection" ∧ (k ∉ HOST_KEYS).
Proof.
  intros Hk. apply not_elem_of_cons. intros Hh. assert (existsb (λ k, js_elem k TOOL_EXECUTE_ARGUMENT_KEYS) ("connection" :: HOST_KEYS) = false)
    as Hno by reflexivity.
  apply not_true_iff_false in Hno. apply Hno, existsb_exists. exists k.
  by rewrite js_elem_spec, <-list_elem_of_In.
Qed.

(** Every field of the parameters, by its key. *)
Lemma field_params input connection k :
  field (execute_params input connection) k =
    if js_elem k HOST_KEYS then field (buildToolsExecuteParams input) k
    else if js_elem k TOOL_EXECUTE_ARGUMENT_KEYS then field (x_argumentsValue input) k
    else if String.eqb k "connection" && isNetworkTool (x_tool input)
         then match connection with Some c => connection_value c | None => VUndef end
    else VUndef.
Proof.
  unfold execute_params, buildToolsExecuteParams. rewrite <-app_assoc, !field_app.
  change (keys [("tool", VStr (x_tool input)); ("workdir", VStr (x_workdir input));
     ("workspaceRoots", VArr (VStr <$> x_workspaceRoots input));
     ("approvalPolicy", lit (x_approvalPolicy input));
     ("filesystemAccessPolicy", lit (x_filesystemAccessPolicy input))]) with HOST_KEYS.
  destruct (js_elem k HOST_KEYS) eqn:Hh; [done|].
  destruct (js_elem k (keys _)) eqn:Hc.
  - apply js_elem_spec in Hc as Hin. apply keys_copied, js_elem_spec in Hin as ->.
    rewrite field_copied by apply argument_keys_nodup.
    apply js_elem_spec, keys_copied, js_elem_spec in Hc. by rewrite Hc.
  - apply js_elem_false in Hc. pose proof (field_absent _ _ Hc) as Hf.
    rewrite field_copied in Hf by apply argument_keys_nodup.
    assert (Htail : field (if isNetworkTool (x_tool input)
        then optional_field "connection" connection_value connection else []) k =
      if String.eqb k "connection" && isNetworkTool (x_tool input)
      then match connection with Some c => connection_value c | None => VUndef end else VUndef).
    { destruct (isNetworkTool _); rewrite ?andb_false_r, ?andb_true_r; [|done].
      destruct connection as [c|]; cbn [optional_field field]; [|by destruct (String.eqb _ _)].
      rewrite String.eqb_sym. by destruct (String.eqb k _). }
    rewrite Htail. destruct (js_elem k TOOL_EXECUTE_ARGUMENT_KEYS) eqn:Ha; [|done].
    rewrite Hf. apply js_elem_spec, argument_keys_apart in Ha as [Hne _].
    apply String.eqb_neq in Hne. by rewrite Hne.
Qed.

Lemma NoDup_copied args ks : NoDup ks → NoDup (keys (omap (copied_argument args) ks)).
Proof.
  induction 1 as [|k ks Hk _ IH]; [constructor|]. cbn [omap list_omap].
  destruct (copied_argument args k) as [kv|] eqn:Hc; [|done]. apply copied_key in Hc as <-.
  constructor; [|done]. by intros ?%keys_copied.
Qed.

Lemma params_keys input connection :
  NoDup (keys (execute_params input connection)) ∧
  ∀ k, k ∈ keys (execute_params input connection) →
    k ∈ HOST_KEYS ∨ k ∈ TOOL_EXECUTE_ARGUMENT_KEYS ∨ (k = "connection" ∧ isNetworkTool (x_tool input) = true).
Proof.
  unfold execute_params, buildToolsExecuteParams. rewrite !keys_app.
  set (args := keys (omap _ _)). set (conn := keys (if isNetworkTool _ then _ else _)).
  assert (Hargs : ∀ k, k ∈ args → k ∈ TOOL_EXECUTE_ARGUMENT_KEYS) by (intros k; apply keys_copied).
  assert (Hconn : ∀ k, k ∈ conn → k = "connection" ∧ isNetworkTool (x_tool input) = true).
  { intros k. subst conn. destruct (isNetworkTool _); [|by intros []%elem_of_nil].
    destruct connection; cbn; [by intros ->%list_elem_of_singleton|by intros []%elem_of_nil]. }
  change (keys [_; _; _; _; _]) with HOST_KEYS. split.
  - assert (NoDup HOST_KEYS) by (apply (bool_decide_unpack (NoDup _)); vm_compute; exact I).
    assert (NoDup conn).
    { subst conn. destruct (isNetworkTool _); [|constructor]. destruct connection; cbn; repeat constructor.
      apply not_elem_of_nil. }
    apply NoDup_app. split_and!; [apply NoDup_app; split_and!| |done]; try done.
    + by intros k Hh [_ Hn]%Hargs%argument_keys_apart.
    + by apply NoDup_copied, argument_keys_nodup.
    + intros k [Hh|[Hn _]%Hargs%argument_keys_apart]%elem_of_app [-> _]%Hconn; [|done].
      by apply js_elem_spec in Hh.
  - intros k [[Hk|Hk]%elem_of_app|Hk]%elem_of_app; [by left|right; left|right; right]; auto.
Qed.

(** ** What the bridge is sent *)

Definition bridge_calls (effects : list tool_effect) : list (list (string * jsval)) :=
  omap (λ x, match x with bridge_execute params => Some params | _ => None end) effects.

Lemma pick_sublist (source : list (string * jsval)) key :
  sublist (keys (pickString source key)) [key] ∧ sublist (keys (pickBoolean source key)) [key] ∧
  sublist (keys (pickNumber source key)) [key] ∧ sublist (keys (pickStringArray source key)) [key].
Proof.
  unfold pickString, pickBoolean, pickNumber, pickStringArray.
  split_and!; destruct (field source key); simpl; try apply sublist_nil_l; try done;
    case_match; simpl; try apply sublist_nil_l; done.
Qed.

Lemma field_behind fs gs a k :
  sublist (keys fs) [a] → k ≠ a → field (fs ++ gs) k = field gs k.
Proof.
  intros Hs Hne. rewrite field_app. assert (js_elem k (keys fs) = false) as ->; [|done].
  apply js_elem_false. intros Hk. eapply sublist_subseteq in Hk; [|done]. by apply list_elem_of_singleton in Hk.
Qed.

Section tools.
Context `{JsonText} `{UrlApi}.

Definition name_of (t : NativeManagedTool) : ManagedToolName :=
  match t with
  | native_exec => exec_command | native_stdin => write_stdin | native_shell => tool_shell_command
  | native_patch => apply_patch | native_image => view_image
  end.

(** The working directory the model may ask for. *)
Definition asked_workdir (params : jsval) (dir : string) : Prop :=
  ∃ fs, as_record params = Some fs ∧ field fs "workdir" = VStr dir ∧ dir ≠ "".

(** The arguments that are the host's. *)
Definition host_arguments (e : tool_env) (name : ManagedToolName) (config : CodexConfig) : list (string * jsval) :=
  let model := match te_model e with Some (_, id) => VStr id | None => VUndef end in
  match name with
  | exec_command => [("model", model); ("allow_background_sessions", VBool (backgroundSessions (tools config)))]
  | write_stdin | tool_shell_command | apply_patch | view_image => [("model", model)]
  | web_run => [("model", model); ("request_session_id", VStr (te_sessionId e));
                ("web_search_mode", lit (webSearch_mode (codex config)))]
  | image_gen_imagegen | update_plan => []
  end.

(** A request that the host owns: only the listed arguments are from the
    model, and of the rest only the working directory of a tool that does not go
    to the network; the credentials go with the network tools alone. *)
Record host_owned (e : tool_env) (name : ManagedToolName) (params : jsval) (m : PiModel) (config : CodexConfig)
    (sent : list (string * jsval)) : Prop := {
  ho_model : fst <$> te_model e = Some m;
  ho_active : isActive (Some (activation_model m)) (te_providers e) = true;
  ho_config : te_config e = Ret config;
  ho_nodup : NoDup (keys sent);
  ho_tool : field sent "tool" = lit name;
  ho_workdir :
    if isNetworkTool (literal_name name) then field sent "workdir" = VStr (te_cwd e)
    else (∃ dir, asked_workdir params dir ∧ field sent "workdir" = VStr dir) ∨
         (¬ (∃ dir, asked_workdir params dir) ∧ field sent "workdir" = VStr (te_cwd e));
  ho_arguments k v : (k, v) ∈ host_arguments e name config → field sent k = v;
  ho_roots : field sent "workspaceRoots" = VArr [VStr (te_cwd e)];
  ho_approval : field sent "approvalPolicy" = lit (approvalPolicy (security config));
  ho_filesystem : field sent "filesystemAccessPolicy" = lit (filesystemAccessPolicy (security config));
  ho_keys k : k ∈ keys sent → k ∈ HOST_KEYS ∨ k ∈ TOOL_EXECUTE_ARGUMENT_KEYS ∨ k = "connection";
  ho_connection :
    if isNetworkTool (literal_name name)
    then ∃ c, resolveProviderConnection (Some m) (te_providers e) INACTIVE_TOOLS (te_auth e) = Ret c ∧
              field sent "connection" = connection_value c
    else "connection" ∉ keys sent }.

Definition sends_owned (e : tool_env) (name : ManagedToolName) (params : jsval) (effects : list tool_effect) : Prop :=
  bridge_calls effects = [] ∨
  ∃ sent m config, bridge_calls effects = [sent] ∧ host_owned e name params m config sent.

Lemma workdir_asked params fallback :
  (∃ dir, asked_workdir params dir ∧ workdirFrom params fallback = dir) ∨
  (¬ (∃ dir, asked_workdir params dir) ∧ workdirFrom params fallback = fallback).
Proof.
  unfold workdirFrom, source_of, asked_workdir. destruct (as_record params) as [fs|]; cbn [from_option id].
  - destruct (field fs "workdir") as [| | | |dir| | |] eqn:Hf;
      try (right; split; [by intros (? & ? & [= <-] & ? & _); congruence|done]).
    destruct dir as [|c dir].
    + right. split; [|done]. intros (d & ? & [= <-] & Hd & Hne). congruence.
    + left. exists (String c dir). split; [|done]. by exists fs.
  - right. split; [by intros (? & ? & [=] & _)|done].
Qed.

(** The host's arguments, as each tool passes them. *)
Definition passes_host (e : tool_env) (name : ManagedToolName) (config : CodexConfig) (args : list (string * jsval)) : Prop :=
  Forall (λ kv, kv.1 ∈ TOOL_EXECUTE_ARGUMENT_KEYS ∧ field args kv.1 = kv.2) (host_arguments e name config).

Lemma argument_key k : js_elem k TOOL_EXECUTE_ARGUMENT_KEYS = true → k ∈ TOOL_EXECUTE_ARGUMENT_KEYS.
Proof. by intros Hk%js_elem_spec. Qed.

Lemma native_passes e t config m id params :
  te_model e = Some (m, id) →
  passes_host e (name_of t) config
    (buildNativeToolArguments t params (backgroundSessions (tools config)) id).
Proof.
  intros Hm. unfold passes_host, host_arguments. rewrite Hm.
  destruct t; cbn [name_of]; repeat apply Forall_cons_2; try apply Forall_nil_2; cbn [fst snd];
    (split; [by apply argument_key|]); try reflexivity.
  unfold buildNativeToolArguments. pose proof (pick_sublist (source_of params)) as Hp.
  change (field (("model", VStr id) :: ?fs) _) with (field fs "allow_background_sessions").
  repeat (erewrite field_behind; [|apply Hp|done]). reflexivity.
Qed.

Lemma web_passes e config params items :
  passes_host e web_run config
    (buildWebRunArguments params items (snd <$> te_model e) (te_sessionId e) (webSearch_mode (codex config))).
Proof.
  unfold passes_host, host_arguments, buildWebRunArguments.
  destruct (te_model e) as [[m id]|]; repeat apply Forall_cons_2; try apply Forall_nil_2; cbn [fst snd];
    (split; [by apply argument_key|reflexivity]).
Qed.

Lemma params_owned e name params m config args workdir connection :
  fst <$> te_model e = Some m → isActive (Some (activation_model m)) (te_providers e) = true →
  te_config e = Ret config →
  passes_host e name config args →
  (if isNetworkTool (literal_name name)
   then workdir = te_cwd e ∧ ∃ c, connection = Some c ∧
     resolveProviderConnection (Some m) (te_providers e) INACTIVE_TOOLS (te_auth e) = Ret c
   else workdir = workdirFrom params (te_cwd e)) →
  host_owned e name params m config
    (execute_params (bridge_input e config (literal_name name) args workdir) connection).
Proof.
  intros Hm Ha Hcfg Hargs Hc. set (input := bridge_input _ _ _ _ _).
  destruct (params_keys input connection) as [Hnd Hk].
  constructor; [exact Hm|exact Ha|exact Hcfg|exact Hnd|..].
  all: rewrite ?field_params; try reflexivity.
  - change (field (buildToolsExecuteParams input) "workdir") with (VStr workdir). cbn [js_elem existsb].
    destruct (isNetworkTool (literal_name name)); [by destruct Hc as [-> _]|]. subst workdir.
    destruct (workdir_asked params (te_cwd e)) as [(dir & ? & ->)|[? ->]]; [left; by exists dir|by right].
  - intros k v Hkv. unfold passes_host in Hargs. rewrite Forall_forall in Hargs. destruct (Hargs _ Hkv) as [Hin Hv].
    cbn [fst snd] in Hin, Hv. rewrite field_params. destruct (argument_keys_apart _ Hin) as [_ Hh]. apply js_elem_false in Hh. rewrite Hh.
    apply js_elem_spec in Hin. rewrite Hin. exact Hv.
  - change (lit (nativeApprovalPolicyFor (approvalPolicy (security config))) =
            lit (approvalPolicy (security config))). by destruct (approvalPolicy _).
  - intros k [?|[?|[-> _]]]%Hk; auto.
  - change (x_tool input) with (literal_name name) in Hk.
    destruct (isNetworkTool (literal_name name)) eqn:Hnet.
    + destruct Hc as (_ & c & -> & Hr). exists c. split; [done|].
      change (x_tool input) with (literal_name name). rewrite Hnet. reflexivity.
    + intros [Hh|[Hh%argument_keys_apart|[_ Hh]]]%Hk; [by apply js_elem_spec in Hh|by destruct Hh|done].
Qed.

Lemma assert_active_swp e (Q : outcome tool_error unit → list tool_effect → Prop) l :
  (∀ m, fst <$> te_model e = Some m → isActive (Some (activation_model m)) (te_providers e) = true →
        Q (Ret tt) l) →
  (∀ err, Q (Throw err) l) →
  swp (lift_tool (assertProviderActive (fst <$> te_model e) (te_providers e) INACTIVE_TOOLS)) Q l.
Proof.
  intros HR HT. apply swp_lift. unfold assertProviderActive.
  destruct (isActive _ _) eqn:Ha; [|apply HT].
  destruct (fst <$> te_model e) as [m|] eqn:Hm; [by apply (HR m)|].
  simpl in Ha. unfold isActive in Ha. by apply bool_decide_eq_true in Ha.
Qed.

Lemma connection_swp e (Q : outcome tool_error CodexProviderConnection → list tool_effect → Prop) l :
  (∀ m c, fst <$> te_model e = Some m → isActive (Some (activation_model m)) (te_providers e) = true →
     resolveProviderConnection (Some m) (te_providers e) INACTIVE_TOOLS (te_auth e) = Ret c → Q (Ret c) l) →
  (∀ err, Q (Throw err) l) → swp (network_connection e) Q l.
Proof.
  intros HR HT. apply swp_lift. destruct (resolveProviderConnection _ _ _ _) as [c|err] eqn:Hc; [|apply HT].
  destruct (fst <$> te_model e) as [m|] eqn:Hm.
  - apply (HR m); try done. unfold resolveProviderConnection, assertProviderActive in Hc.
    simpl in Hc. by destruct (isActive _ _).
  - unfold resolveProviderConnection, assertProviderActive, isActive in Hc. simpl in Hc. done.
Qed.

Lemma bridge_calls_app l k : bridge_calls (l ++ k) = bridge_calls l ++ bridge_calls k.
Proof. apply omap_app. Qed.

(** Streaming shows output and sends nothing. *)
Lemma stream_output_swp events streamed (Q : outcome tool_error string → list tool_effect → Prop) l :
  (∀ s l', bridge_calls l' = bridge_calls l → Q (Ret s) l') → swp (stream_output events streamed) Q l.
Proof.
  revert streamed l; induction events as [|event events IH]; intros streamed l HQ; [by apply HQ|].
  cbn [stream_output]. destruct (toolOutputDelta event); [|by apply IH].
  apply swp_bind, swp_modify, IH. intros r l' Hl. apply HQ. rewrite Hl, bridge_calls_app. apply app_nil_r.
Qed.

Lemma native_tool_owned e t params :
  swp (native_tool e t params) (λ _ l, sends_owned e (name_of t) params l) [].
Proof.
  unfold native_tool. apply swp_bind, assert_active_swp; [|by left]. intros m Hm Ha.
  apply swp_bind, swp_modify, swp_bind, swp_lift_ret; [|by left]. intros config Hcfg.
  apply swp_bind, swp_lift_ret; [|by left]. intros id Hid.
  apply swp_bind, swp_modify, swp_bind, stream_output_swp. intros streamed l Hl.
  assert (Hdone : sends_owned e (name_of t) params l).
  { right. eexists _, m, config. split; [exact Hl|].
    replace (native_name t) with (literal_name (name_of t)) by (by destruct t).
    destruct (te_model e) as [[m' id']|] eqn:Hmodel; simplify_eq.
    apply params_owned; [by rewrite Hmodel|done|done|by eapply native_passes|by destruct t]. }
  apply swp_bind, swp_lift_ret; [|done]. intros result _.
  destruct t; try done. by destruct (imageContent _) as [[]|].
Qed.

Lemma executeTool_owned {A} e name params m config args connection
    (k : CreateResponseResult → stateful (list tool_effect) tool_error A) l :
  bridge_calls l = [] → fst <$> te_model e = Some m →
  isActive (Some (activation_model m)) (te_providers e) = true → te_config e = Ret config →
  resolveProviderConnection (Some m) (te_providers e) INACTIVE_TOOLS (te_auth e) = Ret connection →
  passes_host e name config args → isNetworkTool (literal_name name) = true →
  (∀ r l, (k r l).2 = l) →
  swp (executeTool e (bridge_input e config (literal_name name) args (te_cwd e)) (Some connection) ≫= k)
    (λ _ l, sends_owned e name params l) l.
Proof.
  intros Hl Hm Ha Hcfg Hc Hargs Hnet Hk. apply swp_bind, swp_bind, swp_modify.
  assert (Hdone : sends_owned e name params (l ++ [bridge_execute (execute_params
    (bridge_input e config (literal_name name) args (te_cwd e)) (Some connection))])).
  { right. eexists _, m, config. rewrite bridge_calls_app, Hl. split; [reflexivity|].
    apply params_owned; [done..|]. rewrite Hnet. split; [done|by exists connection]. }
  apply swp_lift_ret; [|done]. intros r _. unfold swp. specialize (Hk r (l ++ [bridge_execute (execute_params
    (bridge_input e config (literal_name name) args (te_cwd e)) (Some connection))])).
  destruct (k r _) as [? l']. simpl in Hk. by rewrite Hk.
Qed.

Lemma update_plan_silent e params :
  swp (update_plan_tool e params) (λ _ l, bridge_calls l = []) [].
Proof.
  unfold update_plan_tool. apply swp_bind, swp_modify, swp_bind, assert_active_swp; [|done].
  intros m _ _. apply swp_bind. destruct (detectPlanMode _ _); [done|]. apply swp_ret, swp_bind.
  by apply swp_lift_ret.
Qed.

Lemma run_tool_owned e name params : swp (run_tool e name params) (λ _ l, sends_owned e name params l) [].
Proof.
  destruct name; try exact (native_tool_owned e _ params).
  - eapply swp_mono; [apply update_plan_silent|]. by left.
  - unfold run_tool, image_generation_tool. apply swp_bind, swp_modify, swp_bind, swp_lift_ret; [|by left].
    intros config Hcfg. apply swp_bind, connection_swp; [|by left]. intros m c Hm Ha Hc.
    apply (executeTool_owned e image_gen_imagegen params m); try done; [by apply Forall_nil_2|]. intros r l.
    by destruct (_ ≫= _) as [[]|].
  - unfold run_tool, standalone_web_tool. apply swp_bind, swp_modify, swp_bind, swp_lift_ret; [|by left].
    intros config Hcfg. apply swp_bind, connection_swp; [|by left]. intros m c Hm Ha Hc.
    apply swp_bind, swp_lift_ret; [|by left]. intros items _.
    by apply (executeTool_owned e web_run params m); try apply web_passes.
Qed.

(** C10: Whatever tool the model calls, with whatever arguments, at most one
    request goes to the native bridge; it runs that tool, for an active model,
    with the session's working directory as the only workspace root and under the
    approval and filesystem policies of the configuration just loaded.  The model
    chooses the directory a native tool runs in, by a non-empty text, and no
    more: a network tool runs in the session's directory, of the other arguments
    it has listed keys only, and among those the model, the session, the web
    search mode and whether background sessions are allowed are the host's.  Only
    the network tools carry the connection, which is the one resolved for the
    session's model. *)
Theorem tool_requests_are_host_owned e name params :
  let '(_, effects) := run_tool e name params [] in
  sends_owned e name params effects ∧ (name = update_plan → bridge_calls effects = []).
Proof.
  pose proof (run_tool_owned e name params) as Hown. unfold swp in Hown.
  destruct (run_tool e name params []) as [r l] eqn:Hrun. split; [done|]. intros ->.
  pose proof (update_plan_silent e params) as Hs. unfold swp in Hs. cbn [run_tool] in Hrun.
  by rewrite Hrun in Hs.
Qed.
End tools.

(** ** The arguments *)

Definition native_keys (t : NativeManagedTool) : list string :=
  "model" :: match t with
  | native_exec => ["cmd"; "shell"; "login"; "max_output_tokens"; "tty"; "yield_time_ms";
                    "allow_background_sessions"]
  | native_shell => ["command"; "login"; "timeout_ms"; "max_output_tokens"]
  | native_stdin => ["session_id"; "chars"; "yield_time_ms"; "max_output_tokens"]
  | native_patch => ["input"]
  | native_image => ["path"; "detail"]
  end.
Definition image_keys : list string :=
  ["prompt"; "referenced_image_paths"; "num_last_images_to_include"; "recent_image_urls"].
Definition web_keys : list string :=
  ["commands"; "conversation_items"; "model"; "request_session_id"; "web_search_mode"].

Lemma native_keys_sublist t params b id :
  sublist (keys (buildNativeToolArguments t params b id)) (native_keys t).
Proof.
  unfold buildNativeToolArguments, native_keys. apply (sublist_skip "model" (keys _)).
  pose proof (pick_sublist (source_of params)) as Hp.
  destruct t; rewrite ?keys_app;
    repeat first [apply (sublist_app _ [_]); [apply Hp|] | apply Hp]; apply sublist_skip, sublist_nil_l.
Qed.

Lemma image_keys_sublist params branch :
  sublist (keys (buildImageGenerationArguments params branch)) image_keys.
Proof.
  unfold buildImageGenerationArguments. pose proof (pick_sublist (source_of params)) as Hp.
  set (args := _ ++ _ ++ _).
  assert (Hargs : sublist (keys args) ["prompt"; "referenced_image_paths"; "num_last_images_to_include"]).
  { unfold args. rewrite !keys_app. repeat first [apply (sublist_app _ [_]); [apply Hp|] | apply Hp]. }
  change image_keys with (["prompt"; "referenced_image_paths"; "num_last_images_to_include"] ++
                          ["recent_image_urls"]).
  destruct (field args _); try (etransitivity; [exact Hargs|apply sublist_inserts_r]; done).
  rewrite keys_app. by apply sublist_app.
Qed.

Lemma web_keys_sublist params items model sessionId mode :
  sublist (keys (buildWebRunArguments params items model sessionId mode)) web_keys.
Proof.
  destruct model as [m|]; [done|].
  apply (sublist_app ["commands"; "conversation_items"] ["commands"; "conversation_items"]); [done|].
  by apply sublist_cons.
Qed.

Section arguments.
Context `{JsonText} `{UrlApi}.

(** Arguments whose keys are listed reach the bridge. *)
Lemma listed_arguments_reach ks args input connection k v :
  sublist (keys args) ks → NoDup ks → forallb (λ k, js_elem k TOOL_EXECUTE_ARGUMENT_KEYS) ks = true →
  x_argumentsValue input = args → (k, v) ∈ args → field (execute_params input connection) k = v.
Proof.
  intros Hs Hnd Hks Hargs Hin.
  assert (Hk : k ∈ ks).
  { eapply elem_of_submseteq; [|by apply sublist_submseteq]. apply list_elem_of_fmap. by exists (k, v). }
  rewrite forallb_forall in Hks. specialize (Hks k (proj1 (list_elem_of_In _ _) Hk)).
  apply js_elem_spec in Hks as Hin'. apply argument_keys_apart in Hin' as [_ Hh].
  apply js_elem_false in Hh. rewrite field_params, Hh, Hks, Hargs.
  apply field_elem; [by eapply sublist_NoDup|done].
Qed.

(** Every argument the host builds for a tool of the bridge - from the
    model's parameters, the conversation and the configuration - is sent as
    it was built: the list of keys the request copies drops none of them, and
    none is overwritten. *)
Theorem built_arguments_reach_bridge e config tool workdir connection :
  let reaches args := Forall (λ kv, field (execute_params (bridge_input e config tool args workdir)
                                             connection) kv.1 = kv.2) args in
  (∀ t params background modelId, reaches (buildNativeToolArguments t params background modelId)) ∧
  (∀ params branch, reaches (buildImageGenerationArguments params branch)) ∧
  (∀ params items model sessionId mode, reaches (buildWebRunArguments params items model sessionId mode)).
Proof.
  intros reaches.
  assert (Hr : ∀ ks args, sublist (keys args) ks → bool_decide (NoDup ks) = true →
    forallb (λ k, js_elem k TOOL_EXECUTE_ARGUMENT_KEYS) ks = true → reaches args).
  { intros ks args Hs Hnd Hks. apply Forall_forall. intros [k v] Hin.
    eapply listed_arguments_reach; [exact Hs|by apply bool_decide_eq_true in Hnd|exact Hks|done|exact Hin]. }
  split_and!; intros.
  - eapply Hr; [apply native_keys_sublist|by destruct t; vm_compute..].
  - eapply Hr; [apply image_keys_sublist|by vm_compute..].
  - eapply Hr; [apply web_keys_sublist|by vm_compute..].
Qed.
End arguments.

(** ** The images of the conversation *)

(** All images of a branch, oldest first. *)
Definition entry_images (entry : jsval) : list jsval := omap image_url_of (default [] (message_contents entry)).
Definition branch_images (branch : list jsval) : list jsval := branch ≫= entry_images.

Lemma collect_images_spec contents (n : nat) images :
  length images < n →
  collect_images contents (Z.of_nat n) images = take n (images ++ omap image_url_of contents).
Proof.
  revert images; induction contents as [|c contents IH]; intros images Hlt; cbn [collect_images omap list_omap].
  { rewrite app_nil_r, take_ge by lia. done. }
  destruct (image_url_of c) as [url|]; [|by apply IH].
  destruct (num_eqb _ _) eqn:He.
  - apply num_eqb_spec_Z, (inj _) in He. apply Nat2Z.inj in He.
    rewrite (cons_middle url images (omap _ _)), app_assoc. symmetry. by apply take_app_length'.
  - rewrite IH; [by rewrite <-app_assoc|].
    assert (length (images ++ [url]) ≠ n); [|rewrite length_app in *; simpl in *; lia].
    intros Hn. rewrite Hn in He. by rewrite (proj2 (num_eqb_spec_Z _ _) eq_refl) in He.
Qed.

Lemma omap_reverse {A B} (f : A → option B) l : omap f (reverse l) = reverse (omap f l).
Proof.
  induction l as [|x l IH]; [done|]. rewrite reverse_cons, omap_app, IH. cbn [omap list_omap].
  destruct (f x); [by rewrite reverse_cons|apply app_nil_r].
Qed.

Lemma collect_entries_spec entries (n : nat) images :
  length images ≤ n →
  collect_entries entries (Z.of_nat n) images =
    take n (images ++ (entries ≫= λ e, reverse (entry_images e))).
Proof.
  revert images; induction entries as [|entry entries IH]; intros images Hle; cbn [collect_entries].
  { cbn. rewrite app_nil_r, take_ge by lia. done. }
  rewrite num_ltb_Z. case_bool_decide as Hlt; cbn [negb]; last first.
  { assert (length images = n) as <- by lia. by rewrite take_app_length. }
  rewrite bind_cons, app_assoc.
  assert (Hnext : match message_contents entry with
    | None => images | Some contents => collect_images (reverse contents) (Z.of_nat n) images
    end = take n (images ++ reverse (entry_images entry))).
  { unfold entry_images. destruct (message_contents entry) as [contents|]; cbn [default from_option id].
    - rewrite collect_images_spec by lia. by rewrite omap_reverse.
    - cbn. rewrite app_nil_r, take_ge by lia. done. }
  rewrite Hnext, IH by (rewrite length_take; lia).
  destruct (decide (length (images ++ reverse (entry_images entry)) ≤ n)) as [Hs|Hs].
  - by rewrite (take_ge (images ++ reverse _) n).
  - rewrite (take_app_le (take n _)) by (rewrite length_take; lia).
    rewrite (take_app_le (images ++ _)) by lia. rewrite take_take. by rewrite Nat.min_id.
Qed.

Lemma reverse_bind {A B} (f : A → list B) l : reverse (reverse l ≫= λ x, reverse (f x)) = l ≫= f.
Proof.
  induction l as [|x l IH]; [done|].
  rewrite reverse_cons, bind_app, reverse_app, IH.
  assert (([x] ≫= λ x, reverse (f x)) = reverse (f x)) as -> by apply app_nil_r. by rewrite reverse_involutive.
Qed.

Lemma recent_images_eq branch (n : nat) :
  recentConversationImageUrls branch (Z.of_nat n) =
    drop (length (branch_images branch) - n) (branch_images branch).
Proof.
  unfold recentConversationImageUrls. rewrite collect_entries_spec by (simpl; lia). rewrite app_nil_l.
  rewrite <-(reverse_involutive (reverse branch ≫= _)), reverse_bind, take_reverse.
  apply reverse_involutive.
Qed.

(** *** Reading an image URL back *)

Lemma cut_at_app c a b : has_unit c a = false → cut_at c (a ++ String c b) = Some (a, b).
Proof.
  unfold has_unit. induction a as [|d a IH]; cbn [str_exists String.append cut_at].
  { by rewrite Ascii.eqb_refl. }
  intros [Hd Ha]%orb_false_iff. rewrite Ascii.eqb_sym, Hd. by rewrite (IH Ha).
Qed.

Lemma imageContent_url data mime :
  has_unit "," mime = false → has_unit ";" mime = false →
  imageContent (VStr ("data:" ++ mime ++ ";base64," ++ data)) = Some (data, mime).
Proof.
  intros Hc Hs. unfold imageContent.
  replace (starts_with "data:" _) with true by (by destruct mime).
  cbn [negb].
  replace ("data:" ++ mime ++ ";base64," ++ data)%string
    with (("data:" ++ mime ++ ";base64") ++ String "," data)%string
    by (rewrite !append_assoc; reflexivity).
  rewrite cut_at_app by (rewrite !has_unit_app, Hc; reflexivity).
  cbn [mbind option_bind]. change (slice_from 5 ("data:" ++ mime ++ ";base64")) with (mime ++ String ";" "base64")%string.
  by rewrite split_on_app.
Qed.

(** Asked for the last [n] images of a conversation, the image tool sends
    exactly the last [n] of all its images (all of them when there are
    fewer), in their order; and each one whose type has no comma or semicolon
    reads back as the data and the type it was made of. *)
Theorem conversation_images_are_the_last branch (n : nat) :
  recentConversationImageUrls branch (Z.of_nat n) =
    drop (length (branch_images branch) - n) (branch_images branch) ∧
  ∀ data mime, has_unit "," mime || has_unit ";" mime = false →
    image_url_of (VObj [("type", VStr "image"); ("data", VStr data); ("mimeType", VStr mime)])
      ≫= imageContent = Some (data, mime).
Proof.
  split; [apply recent_images_eq|]. intros data mime [Hc Hs]%orb_false_iff. by apply imageContent_url.
Qed.

Definition image_entry (data : string) : jsval :=
  VObj [("type", VStr "message"); ("message", VObj [("content", VArr [
    VObj [("type", VStr "image"); ("data", VStr data); ("mimeType", VStr "image/png")];
    VObj [("type", VStr "text"); ("text", VStr "look")]])])].

Lemma conversation_images_are_the_last_witness :
  recentConversationImageUrls [image_entry "A"; image_entry "B"; image_entry "C"] (Z.of_nat 2) =
    [VStr "data:image/png;base64,B"; VStr "data:image/png;base64,C"] ∧
  imageContent (VStr "data:image/png;base64,A") = Some ("A", "image/png").
Proof.
  split.
  - refine (eq_trans (proj1 (conversation_images_are_the_last
      [image_entry "A"; image_entry "B"; image_entry "C"] 2)) _). vm_compute. reflexivity.
  - refine (proj2 (conversation_images_are_the_last [] 0) "A" "image/png" _). vm_compute. reflexivity.
Defined.
