(* ===== verification/Render.v ===== *)
(** * Render

    [src/src/ui/terminal/render.ts]: the text layout of the terminal views.
    Widths are integers; every unit takes one column. *)

From Stdlib Require Import Lia.
From S2P Require Import Prelude.

(** ** Strings *)

(** [s.slice(0, n)] and [s.slice(n)]. *)
Fixpoint str_take (n : nat) (s : string) : string :=
  match n, s with S n, String c s => String c (str_take n s) | _, _ => EmptyString end.
Fixpoint str_drop (n : nat) (s : string) : string :=
  match n, s with S n, String _ s => str_drop n s | _, _ => s end.

(** [" ".repeat(n)]. *)
Fixpoint spaces (n : nat) : string :=
  match n with O => EmptyString | S n => String " " (spaces n) end.

(** [trimmed.split(/\s+/)] of a text without outer spaces: its words. *)
Fixpoint split_words (s : string) (word : string) : list string :=
  match s with
  | EmptyString => if String.eqb word "" then [] else [word]
  | String c s =>
      if is_js_space c
      then (if String.eqb word "" then [] else [word]) ++ split_words s ""
      else split_words s (word ++ String c EmptyString)
  end.

(** ** Control sequences

    [ANSI_PATTERN], as its two alternatives: what follows [ESC \[] up to the
    final unit, and what follows [ESC \]] up to the next [BEL], or without one
    up to the last [ESC \]. *)

Definition ESC : ascii := ascii_of_N 27.
Definition BEL : ascii := ascii_of_N 7.
Definition in_units (a b : N) (c : ascii) : bool := bool_decide (a ≤ unit_of c ∧ unit_of c ≤ b)%N.
Definition is_parameter (c : ascii) : bool :=
  in_units 48 57 c || Ascii.eqb c ";" || Ascii.eqb c "?".

Fixpoint after_intermediates (s : string) : option string :=
  match s with
  | EmptyString => None
  | String c s => if in_units 32 47 c then after_intermediates s
                  else if in_units 64 126 c then Some s else None
  end.
Fixpoint after_parameters (s : string) : option string :=
  match s with
  | EmptyString => None
  | String c s' => if is_parameter c then after_parameters s' else after_intermediates s
  end.

Fixpoint after_bell (s : string) : option string :=
  match s with
  | EmptyString => None
  | String c s => if Ascii.eqb c BEL then Some s else after_bell s
  end.
Fixpoint after_last_terminator (s : string) : option string :=
  match s with
  | EmptyString => None
  | String c s =>
      match after_last_terminator s with
      | Some rest => Some rest
      | None => match s with
                | String d rest => if Ascii.eqb c ESC && Ascii.eqb d "\" then Some rest else None
                | EmptyString => None
                end
      end
  end.

(** The text after a control sequence at the start of [s]. *)
Definition after_sequence (s : string) : option string :=
  match s with
  | String c (String d s) =>
      if negb (Ascii.eqb c ESC) then None
      else if Ascii.eqb d "[" then after_parameters s
      else if Ascii.eqb d "]" then
        match after_bell s with Some rest => Some rest | None => after_last_terminator s end
      else None
  | _ => None
  end.

(** The fuel is the length of the text: each step takes at least one unit. *)
Fixpoint strip_from (fuel : nat) (s : string) : string :=
  match fuel, s with
  | S fuel, String c rest =>
      match after_sequence s with
      | Some rest => strip_from fuel rest
      | None => String c (strip_from fuel rest)
      end
  | _, _ => EmptyString
  end.
Definition stripAnsi (value : string) : string := strip_from (String.length value) value.

Definition visibleWidth (value : string) : nat := String.length (stripAnsi value).

(** [process.env] as the three variables that are read. *)
Definition isMonochromeEnvironment (NO_COLOR TERM FORCE_COLOR : option string) : bool :=
  let is_set v := match v with Some s => negb (String.eqb s "") | None => false end in
  if is_set FORCE_COLOR && negb (bool_decide (FORCE_COLOR = Some "0")) then false
  else if is_set NO_COLOR then true
  else js_elem (to_lower (default "" TERM)) ["dumb"; ""; "unknown"].

(** ** Lines *)

Definition len (s : string) : Z := Z.of_nat (String.length s).

Definition fitLine (value : string) (width : Z) : string :=
  if (width <=? 0)%Z then "" else
  let plain := stripAnsi value in
  if (len plain <=? width)%Z then plain
  else if (width <=? 3)%Z then str_take (Z.to_nat width) plain
  else (str_take (Z.to_nat (width - 3)) plain ++ "...")%string.

(** The pieces of a long word. *)
Fixpoint pieces (fuel : nat) (width : nat) (word : string) : list string :=
  match fuel, word with
  | S fuel, String _ _ => str_take width word :: pieces fuel width (str_drop width word)
  | _, _ => []
  end.

Fixpoint wrap_words (width : nat) (words : list string) (current : string) : list string :=
  match words with
  | [] => if (0 <? String.length current)%nat then [current] else []
  | word :: words =>
      if (width <? String.length word)%nat then
        (if (0 <? String.length current)%nat then [current] else []) ++
        pieces (String.length word) width word ++ wrap_words width words ""
      else
        let next := if (String.length current =? 0)%nat then word else (current ++ " " ++ word)%string in
        if (width <? String.length next)%nat then current :: wrap_words width words word
        else wrap_words width words next
  end.

Definition wrapText (value : string) (width : Z) : list string :=
  if (width <=? 0)%Z then [] else
  let plain := trim (stripAnsi value) in
  if (String.length plain =? 0)%nat then []
  else wrap_words (Z.to_nat width) (split_words plain "") "".

Definition padEndVisible (value : string) (width : Z) : string :=
  let plain := fitLine value width in
  if (width <=? len plain)%Z then plain
  else (plain ++ spaces (Z.to_nat (width - len plain)))%string.

Inductive StatusKind := kind_ok | kind_warn | kind_error | kind_dirty | kind_info | kind_disabled.
Definition statusLabel (kind : StatusKind) : string :=
  match kind with
  | kind_ok => "[ok]" | kind_warn => "[warn]" | kind_error => "[error]" | kind_dirty => "[modified]"
  | kind_disabled => "[disabled]" | kind_info => "[info]"
  end.

(** The actions that still fit, after [line]. *)
Fixpoint footer_line (line : string) (actions : list string) (width : Z) : string :=
  match actions with
  | [] => line
  | action :: actions =>
      let next := (line ++ "  " ++ action)%string in
      if (width <? len next)%Z then line else footer_line next actions width
  end.

Definition joinFooter (actions : list string) (width : Z) : string :=
  match actions with
  | [] => ""
  | action :: actions => fitLine (footer_line action actions width) width
  end.

(** ** Facts *)

Lemma length_str_take n s : String.length (str_take n s) = n `min` String.length s.
Proof. revert s; induction n as [|n IH]; intros [|c s]; simpl; [done..|]. by rewrite IH. Qed.

Lemma length_spaces n : String.length (spaces n) = n.
Proof. induction n as [|n IH]; simpl; [done|]. by rewrite IH. Qed.

Lemma str_take_drop n s : (str_take n s ++ str_drop n s)%string = s.
Proof. revert s; induction n as [|n IH]; intros [|c s]; simpl; [done..|]. by rewrite IH. Qed.

Lemma length_str_drop n s : String.length (str_drop n s) = String.length s - n.
Proof. revert s; induction n as [|n IH]; intros [|c s]; simpl; [done..|]. by rewrite IH. Qed.

Lemma fitLine_bound value width : (len (fitLine value width) ≤ Z.max 0 width)%Z.
Proof.
  unfold fitLine, len. destruct (Z.leb_spec width 0); [simpl; lia|].
  destruct (Z.leb_spec (Z.of_nat (String.length (stripAnsi value))) width); [lia|].
  destruct (Z.leb_spec width 3); rewrite ?length_str_app, length_str_take; simpl; lia.
Qed.

Lemma padEndVisible_width value width : len (padEndVisible value width) = Z.max 0 width.
Proof.
  pose proof (fitLine_bound value width) as Hb. unfold padEndVisible.
  destruct (Z.leb_spec width (len (fitLine value width))) as [Hw|Hw].
  - unfold len in *. lia.
  - unfold len in *. rewrite length_str_app, length_spaces. lia.
Qed.

Lemma pieces_bound fuel width word : Forall (λ l, String.length l ≤ width) (pieces fuel width word).
Proof.
  revert word; induction fuel as [|fuel IH]; intros [|c w]; cbn [pieces]; constructor; [|apply IH].
  rewrite length_str_take. lia.
Qed.

Lemma wrap_words_bound width words current :
  String.length current ≤ width → Forall (λ l, String.length l ≤ width) (wrap_words width words current).
Proof.
  revert current; induction words as [|w words IH]; intros current Hc; cbn [wrap_words].
  { case_match; by repeat constructor. }
  destruct (Nat.ltb_spec width (String.length w)) as [Hw|Hw].
  - apply Forall_app; split; [case_match; by repeat constructor|].
    apply Forall_app; split; [apply pieces_bound|apply IH; simpl; lia].
  - match goal with |- context [if (width <? String.length ?n)%nat then _ else _] =>
      destruct (Nat.ltb_spec width (String.length n)) end; [constructor; [done|by apply IH]|by apply IH].
Qed.

Lemma wrapText_bound value width :
  Forall (λ l, (len l ≤ Z.max 0 width)%Z) (wrapText value width).
Proof.
  unfold wrapText. destruct (Z.leb_spec width 0); [constructor|]. case_match; [constructor|].
  eapply Forall_impl; [apply (wrap_words_bound (Z.to_nat width)); simpl; lia|].
  intros l Hl. simpl in Hl. unfold len. lia.
Qed.

(** The units that are not spaces: wrapping keeps them, in order. *)
Fixpoint visible (s : string) : string :=
  match s with
  | EmptyString => EmptyString
  | String c s => if is_js_space c then visible s else String c (visible s)
  end.

Lemma visible_app a b : visible (a ++ b) = (visible a ++ visible b)%string.
Proof. induction a as [|c a IH]; [done|]. simpl. rewrite IH. by destruct (is_js_space c). Qed.

Lemma str_app_nil_r s : (s ++ "")%string = s.
Proof. induction s as [|c s IH]; [done|]. simpl. by rewrite IH. Qed.

Lemma concat_str_app (l k : list string) :
  String.concat "" (l ++ k) = (String.concat "" l ++ String.concat "" k)%string.
Proof.
  assert (Hcons : ∀ x l, String.concat "" (x :: l) = (x ++ String.concat "" l)%string).
  { intros x [|y l']; simpl; [by rewrite str_app_nil_r|done]. }
  induction l as [|x l IH]; [done|]. rewrite <-app_comm_cons, !Hcons, IH.
  clear. induction x as [|c x IHx]; [done|]. simpl. by rewrite IHx.
Qed.

Lemma str_assoc (a b c : string) : ((a ++ b) ++ c = a ++ (b ++ c))%string.
Proof. induction a as [|x a IH]; [done|]. simpl. by rewrite IH. Qed.

(** The texts of a list, one after the other, without spaces. *)
Definition visible_text (l : list string) : string := visible (String.concat "" l).

Lemma visible_text_app l k : visible_text (l ++ k) = (visible_text l ++ visible_text k)%string.
Proof. unfold visible_text. by rewrite concat_str_app, visible_app. Qed.

Lemma visible_text_cons x l : visible_text (x :: l) = (visible x ++ visible_text l)%string.
Proof. exact (visible_text_app [x] l). Qed.

Lemma pieces_keep fuel width word :
  0 < width → String.length word ≤ fuel → visible_text (pieces fuel width word) = visible word.
Proof.
  intros Hw. revert word; induction fuel as [|fuel IH]; intros [|c w] Hl; cbn [pieces];
    [done..|simpl in Hl; lia|done|]. rewrite visible_text_cons, IH.
  - by rewrite <-visible_app, str_take_drop.
  - rewrite length_str_drop. simpl in *. lia.
Qed.

Lemma visible_text_current current :
  visible_text (if (0 <? String.length current)%nat then [current] else []) = visible current.
Proof. by destruct current. Qed.

Lemma wrap_words_keep width words current : 0 < width →
  visible_text (wrap_words width words current) = (visible current ++ visible_text words)%string.
Proof.
  intros Hw. revert current; induction words as [|w words IH]; intros current; cbn [wrap_words].
  { rewrite visible_text_current. by rewrite str_app_nil_r. }
  rewrite visible_text_cons. destruct (width <? String.length w).
  - rewrite !visible_text_app, visible_text_current, pieces_keep, IH by done. done.
  - assert (Hnext : visible (if (String.length current =? 0)%nat then w else (current ++ " " ++ w)%string)
                    = (visible current ++ visible w)%string).
    { destruct current; [done|]. cbn [String.length Nat.eqb]. by rewrite !visible_app. }
    destruct (width <? _).
    + by rewrite visible_text_cons, IH.
    + by rewrite IH, Hnext, str_assoc.
Qed.

Lemma split_words_keep s word : visible_text (split_words s word) = (visible word ++ visible s)%string.
Proof.
  assert (Hword : ∀ w, visible_text (if String.eqb w "" then [] else [w]) = visible w) by (by intros []).
  revert word; induction s as [|c s IH]; intros word; cbn [split_words].
  { by rewrite Hword, str_app_nil_r. }
  destruct (is_js_space c) eqn:Hc.
  - rewrite visible_text_app, Hword, IH. simpl. by rewrite Hc.
  - rewrite IH, visible_app, str_assoc. simpl. by rewrite Hc.
Qed.

Lemma visible_trim s : visible (trim s) = visible s.
Proof.
  unfold trim. assert (Hs : ∀ s, visible (trim_start s) = visible s).
  { intros t. induction t as [|c t IH]; [done|]. simpl. by destruct (is_js_space c) eqn:Hc; simpl; rewrite ?Hc. }
  assert (He : ∀ s, visible (trim_end s) = visible s).
  { intros t. induction t as [|c t IH]; [done|]. simpl. destruct (trim_end t) eqn:Ht.
    - rewrite <-IH. by destruct (is_js_space c) eqn:Hc; simpl; rewrite ?Hc.
    - simpl in *. by rewrite IH. }
  by rewrite He.
Qed.

Lemma wrapText_keep value width :
  (0 < width)%Z → visible_text (wrapText value width) = visible (stripAnsi value).
Proof.
  intros Hw. unfold wrapText. destruct (Z.leb_spec width 0); [lia|].
  rewrite <-(visible_trim (stripAnsi value)). destruct (trim (stripAnsi value)) as [|c s]; [done|].
  cbn [String.length Nat.eqb]. rewrite wrap_words_keep by lia. by rewrite split_words_keep.
Qed.

(** The fuel of [stripAnsi] is enough: more changes nothing. *)
Lemma after_shorter s rest : after_sequence s = Some rest → String.length rest < String.length s.
Proof.
  assert (Hi : ∀ s r, after_intermediates s = Some r → String.length r < String.length s).
  { intros t. induction t as [|c t IH]; intros r; simpl; [done|].
    destruct (in_units 32 47 c); [intros ?%IH; lia|]. destruct (in_units 64 126 c); [|done].
    intros [= ->]. lia. }
  assert (Hp : ∀ s r, after_parameters s = Some r → String.length r < String.length s).
  { intros t. induction t as [|c t IH]; intros r; [done|]. cbn [after_parameters].
    destruct (is_parameter c); [intros ?%IH; simpl; lia|apply Hi]. }
  assert (Hb : ∀ s r, after_bell s = Some r → String.length r < String.length s).
  { intros t. induction t as [|c t IH]; intros r; simpl; [done|].
    destruct (Ascii.eqb c BEL); [intros [= ->]; lia|intros ?%IH; lia]. }
  assert (Ht : ∀ s r, after_last_terminator s = Some r → String.length r < String.length s).
  { intros t. induction t as [|c t IH]; intros r; simpl; [done|].
    destruct (after_last_terminator t) as [r'|]; [intros [= ->]; specialize (IH r eq_refl); lia|].
    destruct t as [|d t']; [done|]. destruct (_ && _); [|done]. intros [= ->]. simpl. lia. }
  unfold after_sequence. destruct s as [|c [|d s]]; [done..|]. destruct (negb _); [done|].
  destruct (Ascii.eqb d "["); [intros ?%Hp; simpl; lia|]. destruct (Ascii.eqb d "]"); [|done].
  destruct (after_bell s) eqn:Hbell; [intros [= <-]; apply Hb in Hbell; simpl; lia|].
  intros ?%Ht. simpl. lia.
Qed.

Lemma strip_from_enough fuel s :
  String.length s ≤ fuel → strip_from fuel s = strip_from (String.length s) s.
Proof.
  revert s. induction (lt_wf fuel) as [fuel _ IH]. intros s Hf.
  destruct s as [|c s]; [by destruct fuel|]. destruct fuel as [|fuel]; [simpl in Hf; lia|].
  cbn [strip_from String.length]. simpl in Hf. destruct (after_sequence (String c s)) as [rest|] eqn:Ha.
  - apply after_shorter in Ha. simpl in Ha. rewrite (IH fuel) by lia. destruct (decide (String.length s = fuel)) as [->|].
    + rewrite (IH fuel); [done|lia..].
    + rewrite (IH (String.length s)); [done|lia..].
  - f_equal. apply IH; lia.
Qed.

(** Every line that is wrapped or fitted has at most the width asked for,
    a padded one exactly that width; wrapping loses no visible unit of the
    text and keeps their order, and the fuel of the control sequence filter
    never runs out. *)
Theorem text_layout_fits value width :
  Forall (λ l, (len l ≤ Z.max 0 width)%Z) (wrapText value width) ∧
  (len (fitLine value width) ≤ Z.max 0 width)%Z ∧
  len (padEndVisible value width) = Z.max 0 width ∧
  visible_text (wrapText value width) = (if (0 <? width)%Z then visible (stripAnsi value) else "") ∧
  ∀ more, strip_from (String.length value + more) value = stripAnsi value.
Proof.
  split_and!; [apply wrapText_bound|apply fitLine_bound|apply padEndVisible_width| |].
  - destruct (Z.ltb_spec 0 width); [by apply wrapText_keep|].
    unfold wrapText. by destruct (Z.leb_spec width 0); [|lia].
  - intros more. apply strip_from_enough. lia.
Qed.
