(* ===== verification/Approval.v ===== *)
(** * Approval

    [src/src/ui/terminal/approval-model.ts] and
    [src/src/ui/terminal/approval-prompt.ts]: how a native operation is put
    to the user, and the decision that comes back.

    Which key a terminal input is, is a function of the terminal library
    ([matchesKey]); an overlay runs over a sequence of inputs, aborts of the
    request and disposals by the host. *)

From S2P Require Import Prelude Render.

Inductive ApprovalDecision := allow_once | decline | cancel.
#[export] Instance ApprovalDecision_eq_dec : EqDecision ApprovalDecision. Proof. solve_decision. Defined.

Record ApprovalRequestView := {
  operation : string; view_summary : string; view_details : option (list (string * jsval)) }.

Record ApprovalOption := { option_id : ApprovalDecision; label : string }.

Record ApprovalModel := {
  am_request : ApprovalRequestView; am_cwd : string; am_focus : nat; am_resolved : option ApprovalDecision }.

Definition new_model (request : ApprovalRequestView) (cwd : option string) : ApprovalModel :=
  {| am_request := request; am_cwd := default "." cwd; am_focus := 0; am_resolved := None |}.

Definition details_of (m : ApprovalModel) : list (string * jsval) :=
  default [] (view_details (am_request m)).

Definition text_detail (m : ApprovalModel) (key : string) : option string :=
  match field (details_of m) key with
  | VStr s => if (0 <? String.length s)%nat then Some s else None
  | _ => None
  end.

Definition sessionId (m : ApprovalModel) : option string := text_detail m "sessionId".
Definition inputPreview (m : ApprovalModel) : option string := text_detail m "inputPreview".
Definition summary (m : ApprovalModel) : string := view_summary (am_request m).

Definition title (m : ApprovalModel) : string :=
  let external := bool_decide (field (details_of m) "scope" = VStr "external") in
  let op := operation (am_request m) in
  if String.eqb op "command"
  then match sessionId m with None => "Approve native command" | Some _ => "Approve session write" end
  else if String.eqb op "patch" then (if external then "Approve external patch" else "Approve workspace patch")
  else if String.eqb op "network" then "Approve network access"
  else if String.eqb op "filesystem"
  then (if external then "Approve external file access" else "Approve file access")
  else "Approve operation".

Definition target (m : ApprovalModel) : string :=
  match sessionId m, text_detail m "workdir", text_detail m "path" with
  | Some s, _, _ => ("session " ++ s)%string
  | _, Some workdir, _ => workdir
  | _, _, Some path => path
  | _, _, _ =>
      match field (details_of m) "paths" with
      | VArr items =>
          match omap (λ v, match v with VStr s => Some s | _ => None end) items with
          | [] => am_cwd m | paths => join ", " paths end
      | _ => am_cwd m
      end
  end.

Definition options (m : ApprovalModel) : list ApprovalOption :=
  [{| option_id := decline; label := "Decline" |}; {| option_id := cancel; label := "Cancel tool call" |};
   {| option_id := allow_once; label := ("Allow once: " ++ summary m)%string |}].

Definition focusedOption (m : ApprovalModel) : ApprovalOption :=
  default {| option_id := decline; label := "Decline" |} (options m !! am_focus m).

Definition set_focus (f : nat) (m : ApprovalModel) : ApprovalModel :=
  {| am_request := am_request m; am_cwd := am_cwd m; am_focus := f; am_resolved := am_resolved m |}.
Definition set_resolved (d : ApprovalDecision) (m : ApprovalModel) : ApprovalModel :=
  {| am_request := am_request m; am_cwd := am_cwd m; am_focus := am_focus m; am_resolved := Some d |}.

Inductive delta := backward | forward.

(** [Math.max(0, Math.min(count - 1, focus + delta))]. *)
Definition clamp_move (count focus : nat) (d : delta) : nat :=
  match d with backward => (count - 1) `min` (focus - 1) | forward => (count - 1) `min` (focus + 1) end.

Definition moveFocus (d : delta) (m : ApprovalModel) : ApprovalModel :=
  match am_resolved m with
  | Some _ => m
  | None => set_focus (clamp_move (length (options m)) (am_focus m) d) m
  end.

Definition selectFocused (m : ApprovalModel) : ApprovalDecision * ApprovalModel :=
  let decision := option_id (focusedOption m) in (decision, set_resolved decision m).
Definition model_cancel (m : ApprovalModel) : ApprovalDecision * ApprovalModel := (cancel, set_resolved cancel m).
Definition dismiss (m : ApprovalModel) : ApprovalDecision * ApprovalModel := model_cancel m.

Definition option_line (m : ApprovalModel) (width : Z) (i : nat) (o : ApprovalOption) : string :=
  fitLine ((if (i =? am_focus m)%nat then ">" else " ") ++ " " ++ label o)%string width.

Definition lines (m : ApprovalModel) (width : Z) : list string :=
  [fitLine (title m) width; fitLine ("Target: " ++ target m)%string width; ""] ++
  wrapText (summary m) width ++
  match inputPreview m with
  | Some preview =>
      if String.eqb preview (summary m) then []
      else ["" ; fitLine "Input preview:" width] ++ wrapText preview width
  | None => []
  end ++
  [""] ++ imap (option_line m width) (options m) ++
  [""; fitLine "Up/Down move  Enter select  Esc cancel" width].

(** ** The overlay *)

Record ApprovalOverlay := { ov_model : ApprovalModel; ov_disposed : bool; ov_done : list ApprovalDecision }.

Definition finish (r : ApprovalDecision * ApprovalModel) (o : ApprovalOverlay) : ApprovalOverlay :=
  let '(decision, m) := r in
  if ov_disposed o then {| ov_model := m; ov_disposed := true; ov_done := ov_done o |}
  else {| ov_model := m; ov_disposed := true; ov_done := ov_done o ++ [decision] |}.

Definition overlay_dispose (o : ApprovalOverlay) : ApprovalOverlay :=
  if ov_disposed o then o else finish (dismiss (ov_model o)) o.

Definition with_model (f : ApprovalModel → ApprovalModel) (o : ApprovalOverlay) : ApprovalOverlay :=
  {| ov_model := f (ov_model o); ov_disposed := ov_disposed o; ov_done := ov_done o |}.

Section prompt.
Context (matchesKey : string → string → bool).

Definition handleInput (data : string) (o : ApprovalOverlay) : ApprovalOverlay :=
  if ov_disposed o then o
  else if matchesKey data "escape" then finish (dismiss (ov_model o)) o
  else if matchesKey data "up" || String.eqb data "k" then with_model (moveFocus backward) o
  else if matchesKey data "down" || String.eqb data "j" then with_model (moveFocus forward) o
  else if matchesKey data "return" then finish (selectFocused (ov_model o)) o
  else o.

(** What happens while the overlay is open. *)
Inductive overlay_event := key_input (data : string) | request_aborted | host_disposed.

(** The race of the decision with the abort signal: [Some d] once it is over;
    [None] of the race is a cancellation. *)
Definition overlay_step (e : overlay_event) (so : option ApprovalDecision * ApprovalOverlay)
    : option ApprovalDecision * ApprovalOverlay :=
  let '(settled, o) := so in
  match e with
  | key_input data =>
      let o := handleInput data o in
      (match settled with Some d => Some d | None => head (ov_done o) end, o)
  | host_disposed =>
      let o := overlay_dispose o in
      (match settled with Some d => Some d | None => head (ov_done o) end, o)
  | request_aborted =>
      match settled with
      | Some d => (Some d, o)
      | None => (Some cancel, overlay_dispose o)
      end
  end.

Definition open_overlay (m : ApprovalModel) : option ApprovalDecision * ApprovalOverlay :=
  (None, {| ov_model := m; ov_disposed := false; ov_done := [] |}).

Definition run_overlay (events : list overlay_event) (m : ApprovalModel)
    : option ApprovalDecision * ApprovalOverlay :=
  fold_left (λ so e, overlay_step e so) events (open_overlay m).

(** ** [requestCodexApproval] *)

Record prompt_env := {
  pe_aborted : bool;                           (* the signal, at the start *)
  pe_hasUI : bool;
  pe_tui : bool;                               (* mode [tui] with [ui.custom] *)
  pe_cwd : string;
  pe_events : list overlay_event;
  pe_selected : option string;                 (* the label [ui.select] answers *)
  pe_abort_first : bool;                       (* the signal aborts before it does *)
  pe_aborted_after : bool }.                   (* or right after *)

(** The decision, [None] while the user has not answered, and the notices. *)
Definition finalizeDecision (m : ApprovalModel) (decision : ApprovalDecision) : list string :=
  match decision with allow_once => [("Approved: " ++ target m)%string] | _ => [] end.

Definition find_label (m : ApprovalModel) (selected : string) : option ApprovalOption :=
  List.find (λ o, String.eqb (label o) selected) (options m).

Definition requestCodexApproval (e : prompt_env) (request : ApprovalRequestView)
    : option ApprovalDecision * list string :=
  if pe_aborted e then (Some cancel, [])
  else if negb (pe_hasUI e) then (Some decline, []) else
  let m := new_model request (Some (pe_cwd e)) in
  if pe_tui e then
    match (run_overlay (pe_events e) m).1 with
    | None => (None, [])
    | Some d => (Some d, finalizeDecision m d)
    end
  else
    let d := if pe_abort_first e then cancel else
             match pe_selected e with
             | None => cancel
             | Some selected =>
                 if pe_aborted_after e then cancel
                 else match find_label m selected with Some o => option_id o | None => cancel end
             end in
    (Some d, finalizeDecision m d).
End prompt.

(** ** Facts *)

Section facts.
Context (matchesKey : string → string → bool).
Local Abbreviation run := (run_overlay matchesKey).

(** Inputs that move the focus towards the last option, and events that end
    the dialog otherwise. *)
Definition is_forward (e : overlay_event) : bool :=
  match e with key_input d => matchesKey d "down" || String.eqb d "j" | _ => false end.
Definition is_end (e : overlay_event) : bool :=
  match e with key_input d => matchesKey d "escape" | _ => true end.

(** The user moved to the last option and confirmed it. *)
Definition chosen (events : list overlay_event) : Prop :=
  ∃ before data after, events = before ++ key_input data :: after ∧ matchesKey data "return" = true ∧
    2 ≤ length (filter (λ e, is_forward e = true) before) ∧ Forall (λ e, is_end e = false) before.

Record open_ok (events : list overlay_event) (m : ApprovalModel)
    (so : option ApprovalDecision * ApprovalOverlay) : Prop := {
  oo_request : am_request (ov_model so.2) = am_request m ∧ am_cwd (ov_model so.2) = am_cwd m;
  oo_open : ov_disposed so.2 = false → so.1 = None ∧ ov_done so.2 = [] ∧ am_resolved (ov_model so.2) = None ∧
    am_focus (ov_model so.2) ≤ length (filter (λ e, is_forward e = true) events) ∧
    Forall (λ e, is_end e = false) events;
  oo_done : ov_disposed so.2 = true → ∃ d, so.1 = Some d ∧ ov_done so.2 = [d];
  oo_allowed : so.1 = Some allow_once → chosen events }.

Lemma chosen_app events e : chosen events → chosen (events ++ [e]).
Proof. intros (b & d & a & -> & ?). exists b, d, (a ++ [e]). by rewrite <-app_assoc. Qed.

Lemma forward_app events e :
  length (filter (λ e, is_forward e = true) (events ++ [e])) =
  length (filter (λ e, is_forward e = true) events) + if is_forward e then 1 else 0.
Proof.
  rewrite filter_app, length_app. f_equal. destruct (is_forward e) eqn:He.
  - by rewrite filter_cons_True.
  - by rewrite filter_cons_False by congruence.
Qed.

Lemma run_snoc events e m : run (events ++ [e]) m = overlay_step matchesKey e (run events m).
Proof. unfold run_overlay. by rewrite fold_left_app. Qed.

(** Ending the dialog with a decision that is not an approval. *)
Lemma closed_ok events m so o d e :
  open_ok events m so → ov_disposed so.2 = false →
  o = finish (d, set_resolved d (ov_model so.2)) so.2 → (d = allow_once → chosen (events ++ [e])) →
  open_ok (events ++ [e]) m (Some d, o).
Proof.
  intros [Hreq Hopen _ _] Hd -> Hc. destruct (Hopen Hd) as (_ & Hdone & _).
  unfold finish. rewrite Hd, Hdone. constructor; simpl; try done.
  - by eexists.
  - intros [= ?]. by apply Hc.
Qed.

(** A closed overlay takes no more input. *)
Lemma disposed_ok events m so e :
  open_ok events m so → ov_disposed so.2 = true → open_ok (events ++ [e]) m so.
Proof.
  intros [Hreq _ Hdone Hallow] Hd. constructor; try done; [congruence|].
  intros ?%Hallow. by apply chosen_app.
Qed.

(** Input that only moves the focus, or does nothing. *)
Lemma moved_ok events m so o e :
  open_ok events m so → ov_disposed so.2 = false → is_end e = false →
  ov_disposed o = false → ov_done o = ov_done so.2 → am_resolved (ov_model o) = am_resolved (ov_model so.2) →
  am_request (ov_model o) = am_request (ov_model so.2) → am_cwd (ov_model o) = am_cwd (ov_model so.2) →
  am_focus (ov_model o) ≤ am_focus (ov_model so.2) + (if is_forward e then 1 else 0) →
  open_ok (events ++ [e]) m (so.1, o).
Proof.
  intros [Hreq Hopen _ _] Hd He Hd' Hdone Hres Hr Hc Hf. destruct (Hopen Hd) as (Hs & Hn & Hm & Hle & Hall).
  constructor; simpl; rewrite ?Hr, ?Hc, ?Hd'; try done.
  - intros _. rewrite Hdone, Hres, forward_app. split_and!; try done; [lia|].
    apply Forall_app. split; [done|by constructor].
  - by rewrite Hs.
Qed.

Lemma focused_allow m : option_id (focusedOption m) = allow_once → am_focus m = 2.
Proof.
  unfold focusedOption, options. destruct (am_focus m) as [|[|[|n]]]; simpl; try done.
Qed.

Lemma clamp_le count f d : clamp_move count f d ≤ f + match d with forward => 1 | backward => 0 end.
Proof. destruct d; simpl; lia. Qed.

Lemma input_ok events m so data :
  open_ok events m so →
  open_ok (events ++ [key_input data]) m (overlay_step matchesKey (key_input data) so).
Proof.
  intros Hok. destruct so as [settled o]. cbn [overlay_step]. unfold handleInput.
  destruct (ov_disposed o) eqn:Hd.
  { destruct (oo_done _ _ _ Hok Hd) as (d & Hs & Hn). simpl in Hs, Hn. rewrite Hs. rewrite <-Hs.
    by apply disposed_ok. }
  destruct (oo_open _ _ _ Hok Hd) as (Hs & Hn & Hm & Hle & Hall). simpl in *. subst settled.
  destruct (matchesKey data "escape") eqn:Hesc.
  { pose proof (closed_ok events m (None, o) _ cancel (key_input data) Hok Hd eq_refl) as Hc.
    unfold finish in *. simpl in *. rewrite Hd, Hn in *. simpl in *. by apply Hc. }
  assert (Hmove : ∀ d, (d = forward → is_forward (key_input data) = true) →
    open_ok (events ++ [key_input data]) m
      (head (ov_done (with_model (moveFocus d) o)), with_model (moveFocus d) o)).
  { intros d Hfw. simpl. rewrite Hn. apply (moved_ok _ _ (None, o)); try done;
      simpl; unfold moveFocus; rewrite Hm; try done. simpl.
    etransitivity; [apply (clamp_le 3)|]. destruct d; [lia|]. simpl in Hfw. by rewrite Hfw. }
  destruct (matchesKey data "up" || _); [by apply Hmove|].
  destruct (matchesKey data "down" || _) eqn:Hdown; [by apply Hmove|].
  destruct (matchesKey data "return") eqn:Hret.
  - pose proof (closed_ok events m (None, o) _ (option_id (focusedOption (ov_model o))) (key_input data)
      Hok Hd eq_refl) as Hc. unfold finish, selectFocused in *. simpl in *. rewrite Hd, Hn in *. simpl in *.
    apply Hc. intros Ha%focused_allow. exists events, data, []. split_and!; [done|done|lia|done].
  - rewrite Hn. by apply (moved_ok _ _ (None, o)); simpl; try lia.
Qed.

Lemma step_ok events m so e : open_ok events m so → open_ok (events ++ [e]) m (overlay_step matchesKey e so).
Proof.
  intros Hok. destruct e as [data| |]; [by apply input_ok|..]; destruct so as [settled o]; cbn [overlay_step];
    unfold overlay_dispose; destruct (ov_disposed o) eqn:Hd.
  - destruct (oo_done _ _ _ Hok Hd) as (d & Hs & _). simpl in Hs. subst. by apply disposed_ok.
  - destruct (oo_open _ _ _ Hok Hd) as (Hs & _). simpl in Hs. subst.
    by apply (closed_ok events m (None, o)).
  - destruct (oo_done _ _ _ Hok Hd) as (d & Hs & Hn). simpl in Hs, Hn. subst. by apply disposed_ok.
  - destruct (oo_open _ _ _ Hok Hd) as (Hs & Hn & _). simpl in Hs, Hn. subst.
    pose proof (closed_ok events m (None, o) _ cancel host_disposed Hok Hd eq_refl) as Hc.
    unfold finish in *. simpl in *. rewrite Hd, Hn in *. simpl in *. by apply Hc.
Qed.

Lemma run_ok events m : am_focus m = 0 → am_resolved m = None → open_ok events m (run events m).
Proof.
  intros Hf Hr. induction events as [|e events IH] using rev_ind.
  { constructor; try done. intros _. split_and!; try done. simpl. lia. }
  rewrite run_snoc. by apply step_ok.
Qed.

Lemma find_label_allow m selected o :
  find_label m selected = Some o → option_id o = allow_once → selected = ("Allow once: " ++ summary m)%string.
Proof.
  intros Hfind Ho. unfold find_label in Hfind. apply find_some in Hfind as [Hin Heq].
  apply String.eqb_eq in Heq as <-. unfold options in Hin. simpl in Hin.
  by destruct Hin as [<-|[<-|[<-|[]]]].
Qed.

(** An operation is only allowed by an explicit choice: the prompt
    answers [allow_once] - and says so, once - only if the request was not
    aborted before, there is a user interface, and either the user moved the
    focus from the first to the last option and confirmed it, with no escape,
    abort or disposal before that, or the host's select dialog returned the
    label of that option and the request was not aborted meanwhile.  Whatever
    happens, the overlay delivers at most one decision, and exactly one once
    it is closed. *)
Theorem approval_is_explicit e request :
  let '(decision, notices) := requestCodexApproval matchesKey e request in
  (if bool_decide (decision = Some allow_once) then
     pe_aborted e = false ∧ pe_hasUI e = true ∧ length notices = 1 ∧
     if pe_tui e then chosen (pe_events e)
     else pe_abort_first e = false ∧ pe_aborted_after e = false ∧
          pe_selected e = Some ("Allow once: " ++ view_summary request)%string
   else notices = []) ∧
  let '(settled, o) := run (pe_events e) (new_model request (Some (pe_cwd e))) in
  if ov_disposed o then ∃ d, ov_done o = [d] ∧ settled = Some d else ov_done o = [] ∧ settled = None.
Proof.
  set (m := new_model request (Some (pe_cwd e))).
  pose proof (run_ok (pe_events e) m eq_refl eq_refl) as Hok.
  assert (Hlast : let '(settled, o) := run (pe_events e) m in
    if ov_disposed o then ∃ d, ov_done o = [d] ∧ settled = Some d else ov_done o = [] ∧ settled = None).
  { destruct (run (pe_events e) m) as [settled o]. destruct (ov_disposed o) eqn:Hd.
    - destruct (oo_done _ _ _ Hok Hd) as (d & ? & ?). by exists d.
    - by destruct (oo_open _ _ _ Hok Hd) as (? & ? & _). }
  unfold requestCodexApproval. destruct (pe_aborted e); [done|]. destruct (pe_hasUI e); [|done]. cbn [negb].
  fold m. destruct (pe_tui e).
  - destruct (run (pe_events e) m) as [[[]|] o]; try (split; [done|exact Hlast]); cbn [fst finalizeDecision].
    + split; [|exact Hlast]. rewrite bool_decide_true by done. split_and!; try done. by apply Hok.
  - split; [|exact Hlast]. destruct (pe_abort_first e); [done|].
    destruct (pe_selected e) as [selected|]; [|done]. destruct (pe_aborted_after e); [done|].
    destruct (find_label m selected) as [o|] eqn:Hfind; [|done].
    destruct (option_id o) eqn:Ho; try done. rewrite bool_decide_true by done.
    split_and!; try done. f_equal. by apply (find_label_allow m selected o).
Qed.
End facts.
