(* ===== verification/Settings.v ===== *)
(** * Settings

    [src/src/ui/terminal/settings-model.ts]: the settings dialog as a state
    machine over a saved and a draft configuration, its rows, its dialogs and
    the lines it shows.

    What key a terminal input is comes from the terminal library
    ([parseTuiKey]); [number_text] is the text of a number. *)

From S2P Require Import Prelude Config ConfigStore EffectiveCapabilities ToolActivation Render.

(** ** Data *)

Inductive SettingsCategory := General | Tools | Codex | Diagnostics.
#[export] Instance SettingsCategory_eq_dec : EqDecision SettingsCategory. Proof. solve_decision. Defined.
Definition SETTINGS_CATEGORIES : list SettingsCategory := [General; Tools; Codex; Diagnostics].
Definition category_name (c : SettingsCategory) : string :=
  match c with
  | General => "General" | Tools => "Tools" | Codex => "Codex" | Diagnostics => "Diagnostics" end.

Inductive SettingsLayout := layout_wide | layout_medium | layout_narrow.
#[export] Instance SettingsLayout_eq_dec : EqDecision SettingsLayout. Proof. solve_decision. Defined.

Inductive SettingsState :=
| pristine | dirty | validating | saving | saved_state | validation_error | write_error.
#[export] Instance SettingsState_eq_dec : EqDecision SettingsState. Proof. solve_decision. Defined.
Definition state_name (s : SettingsState) : string :=
  match s with
  | pristine => "pristine" | dirty => "dirty" | validating => "validating" | saving => "saving"
  | saved_state => "saved" | validation_error => "validation-error" | write_error => "write-error" end.

Inductive SettingsFocusRegion := region_nav | region_list.
#[export] Instance SettingsFocusRegion_eq_dec : EqDecision SettingsFocusRegion. Proof. solve_decision. Defined.
Inductive NarrowScreen := screen_categories | screen_settings.
#[export] Instance NarrowScreen_eq_dec : EqDecision NarrowScreen. Proof. solve_decision. Defined.

Inductive SettingsDialog :=
| no_dialog
| dirty_close (focus : nat)
| reset_confirm (focus : nat)
| approval_never_confirm (focus : nat)
| filesystem_unrestricted_confirm (focus : nat)
| help.
#[export] Instance SettingsDialog_eq_dec : EqDecision SettingsDialog. Proof. solve_decision. Defined.

Inductive SettingsEffect :=
| effect_none | effect_save | effect_save_and_close | effect_close | effect_compact | effect_export
| effect_edit_providers | effect_edit_auto_compact | effect_reset_defaults
| security_policy_enabled (message : string).

Inductive SettingsRowKind := row_readonly | row_toggle | row_enum | row_action | row_number.
#[export] Instance SettingsRowKind_eq_dec : EqDecision SettingsRowKind. Proof. solve_decision. Defined.

Record SettingsRow := {
  row_id : string; row_label : string; row_value : string; row_description : string;
  row_kind : SettingsRowKind; enabled : bool; disabledReason : option string }.

Record SettingsModelOptions := {
  baseline : string; opt_provider : string; opt_model : string; bridge : string;
  opt_activationModel : option ProviderActivationModel;
  opt_activationStatus : option string;
  opt_capabilities : option (list string);
  disabledReasons : list (string * string);
  opt_modelLimit : option jsnum }.                (* [undefined] and [null] are [None] *)

Definition DIRTY_CLOSE_OPTIONS : list string := ["Continue editing"; "Discard changes"; "Save"].
Definition RESET_OPTIONS : list string := ["Cancel"; "Reset to defaults"].
Definition APPROVAL_NEVER_OPTIONS : list string := ["Cancel"; "Enable never"].
Definition FILESYSTEM_UNRESTRICTED_OPTIONS : list string := ["Cancel"; "Enable unrestricted"].
Definition NAV_WIDTH : Z := 20.
Definition APPROVAL_NEVER_CONFIRMATION : string :=
  "Never suppresses approval prompts. Failures return to the model, and native commands still run with the user's permissions.".
Definition FILESYSTEM_UNRESTRICTED_CONFIRMATION : string :=
  "Unrestricted allows structured tools to use paths outside workspace roots. This is a path guardrail setting, not an OS sandbox.".

(** ** Changes of a configuration *)

Definition with_tools (t : ToolsConfig) (c : CodexConfig) : CodexConfig :=
  {| schemaVersion := schemaVersion c; activation := activation c; tools := t; security := security c;
     codex := codex c; ui := ui c |}.
Definition with_security (s : SecurityConfig) (c : CodexConfig) : CodexConfig :=
  {| schemaVersion := schemaVersion c; activation := activation c; tools := tools c; security := s;
     codex := codex c; ui := ui c |}.
Definition with_codex (x : CodexSection) (c : CodexConfig) : CodexConfig :=
  {| schemaVersion := schemaVersion c; activation := activation c; tools := tools c; security := security c;
     codex := x; ui := ui c |}.
Definition with_ui (u : UiConfig) (c : CodexConfig) : CodexConfig :=
  {| schemaVersion := schemaVersion c; activation := activation c; tools := tools c; security := security c;
     codex := codex c; ui := u |}.
Definition with_providers (ps : list string) (c : CodexConfig) : CodexConfig :=
  {| schemaVersion := schemaVersion c; activation := {| providers := ps |}; tools := tools c;
     security := security c; codex := codex c; ui := ui c |}.

Definition set_background (b : bool) (c : CodexConfig) : CodexConfig :=
  with_tools {| backgroundSessions := b; optional_tools := optional_tools (tools c) |} c.
Definition set_view_image (a : AutoOrOff) (c : CodexConfig) : CodexConfig :=
  with_tools {| backgroundSessions := backgroundSessions (tools c);
                optional_tools := {| viewImage := a; imageGeneration := imageGeneration (optional_tools (tools c)) |} |} c.
Definition set_image_generation (a : AutoOrOff) (c : CodexConfig) : CodexConfig :=
  with_tools {| backgroundSessions := backgroundSessions (tools c);
                optional_tools := {| viewImage := viewImage (optional_tools (tools c)); imageGeneration := a |} |} c.
Definition set_approval (p : ApprovalPolicy) (c : CodexConfig) : CodexConfig :=
  with_security {| approvalPolicy := p; filesystemAccessPolicy := filesystemAccessPolicy (security c) |} c.
Definition set_filesystem (p : FilesystemAccessPolicy) (c : CodexConfig) : CodexConfig :=
  with_security {| approvalPolicy := approvalPolicy (security c); filesystemAccessPolicy := p |} c.
Definition set_service_tier (t : ServiceTier) (c : CodexConfig) : CodexConfig :=
  let x := codex c in
  with_codex {| serviceTier := t; verbosity := verbosity x; transport_mode := transport_mode x;
                webSearch_mode := webSearch_mode x; compaction := compaction x |} c.
Definition set_verbosity (v : Verbosity) (c : CodexConfig) : CodexConfig :=
  let x := codex c in
  with_codex {| serviceTier := serviceTier x; verbosity := v; transport_mode := transport_mode x;
                webSearch_mode := webSearch_mode x; compaction := compaction x |} c.
Definition set_transport (m : TransportMode) (c : CodexConfig) : CodexConfig :=
  let x := codex c in
  with_codex {| serviceTier := serviceTier x; verbosity := verbosity x; transport_mode := m;
                webSearch_mode := webSearch_mode x; compaction := compaction x |} c.
Definition set_web_search (m : WebSearchMode) (c : CodexConfig) : CodexConfig :=
  let x := codex c in
  with_codex {| serviceTier := serviceTier x; verbosity := verbosity x; transport_mode := transport_mode x;
                webSearch_mode := m; compaction := compaction x |} c.
Definition set_compaction (k : CompactionConfig) (c : CodexConfig) : CodexConfig :=
  let x := codex c in
  with_codex {| serviceTier := serviceTier x; verbosity := verbosity x; transport_mode := transport_mode x;
                webSearch_mode := webSearch_mode x; compaction := k |} c.

Definition flipAutoOff (value : AutoOrOff) : AutoOrOff := match value with auto => off | off => auto end.

(** [values[(index + 1) % values.length] ?? values[0] ?? value], where a
    missing value has the index -1. *)
Definition cycle {A} `{EqDecision A} (value : A) (values : list A) : A :=
  let next := match list_find (value =.) values with
              | Some (i, _) => (i + 1) `mod` length values | None => 0 end in
  default (default value (values !! 0)) (values !! next).

(** ** State *)

Record view := {
  categoryIndex : nat; focus : nat; region : SettingsFocusRegion; narrowScreen : NarrowScreen;
  scroll : nat; width : Z }.

Record SettingsModel := {
  saved : CodexConfig;
  draft : CodexConfig;
  options : SettingsModelOptions;
  activationStatus : option string;
  m_view : view;
  state : SettingsState;
  message : option string;
  dialog : SettingsDialog;
  disposed : bool }.

Definition on_view (f : view → view) (m : SettingsModel) : SettingsModel :=
  {| saved := saved m; draft := draft m; options := options m; activationStatus := activationStatus m;
     m_view := f (m_view m); state := state m; message := message m; dialog := dialog m;
     disposed := disposed m |}.
Definition on_draft (f : CodexConfig → CodexConfig) (m : SettingsModel) : SettingsModel :=
  {| saved := saved m; draft := f (draft m); options := options m; activationStatus := activationStatus m;
     m_view := m_view m; state := state m; message := message m; dialog := dialog m;
     disposed := disposed m |}.
Definition set_state (s : SettingsState) (text : option string) (m : SettingsModel) : SettingsModel :=
  {| saved := saved m; draft := draft m; options := options m; activationStatus := activationStatus m;
     m_view := m_view m; state := s; message := text; dialog := dialog m; disposed := disposed m |}.
Definition set_dialog (d : SettingsDialog) (m : SettingsModel) : SettingsModel :=
  {| saved := saved m; draft := draft m; options := options m; activationStatus := activationStatus m;
     m_view := m_view m; state := state m; message := message m; dialog := d; disposed := disposed m |}.
Definition set_configs (c d : CodexConfig) (m : SettingsModel) : SettingsModel :=
  {| saved := c; draft := d; options := options m; activationStatus := activationStatus m;
     m_view := m_view m; state := state m; message := message m; dialog := dialog m;
     disposed := disposed m |}.
Definition set_status (s : option string) (m : SettingsModel) : SettingsModel :=
  {| saved := saved m; draft := draft m; options := options m; activationStatus := s;
     m_view := m_view m; state := state m; message := message m; dialog := dialog m;
     disposed := disposed m |}.

Definition set_category (i : nat) (v : view) : view :=
  {| categoryIndex := i; focus := focus v; region := region v; narrowScreen := narrowScreen v;
     scroll := scroll v; width := width v |}.
Definition set_focus (f : nat) (v : view) : view :=
  {| categoryIndex := categoryIndex v; focus := f; region := region v; narrowScreen := narrowScreen v;
     scroll := scroll v; width := width v |}.
Definition set_scroll (s : nat) (v : view) : view :=
  {| categoryIndex := categoryIndex v; focus := focus v; region := region v; narrowScreen := narrowScreen v;
     scroll := s; width := width v |}.
Definition set_region (r : SettingsFocusRegion) (v : view) : view :=
  {| categoryIndex := categoryIndex v; focus := focus v; region := r; narrowScreen := narrowScreen v;
     scroll := scroll v; width := width v |}.
Definition set_narrow (n : NarrowScreen) (v : view) : view :=
  {| categoryIndex := categoryIndex v; focus := focus v; region := region v; narrowScreen := n;
     scroll := scroll v; width := width v |}.
Definition set_view_width (w : Z) (v : view) : view :=
  {| categoryIndex := categoryIndex v; focus := focus v; region := region v; narrowScreen := narrowScreen v;
     scroll := scroll v; width := Z.max 0 w |}.
Definition to_top (v : view) : view := set_scroll 0 (set_focus 0 v).

Definition markDirty (m : SettingsModel) : SettingsModel := set_state dirty None m.

(** [formatActivationStatus]. *)
Definition formatActivationStatus (model : option ProviderActivationModel) (providers : list string) : string :=
  let provider := default "unknown" (am_provider <$> model) in
  let api := default "unknown" (am_api <$> model) in
  match resolveProviderActivation model providers with
  | active => ("active (" ++ provider ++ " / " ++ api ++ ")")%string
  | not_active no_model => "inactive (no model)"
  | not_active provider_not_selected => ("inactive (provider not selected: " ++ provider ++ ")")%string
  | not_active unsupported_pi_api => ("inactive (unsupported API: " ++ api ++ ")")%string
  end.

Definition new_settings (config : CodexConfig) (o : SettingsModelOptions) : SettingsModel :=
  {| saved := config; draft := config; options := o;
     activationStatus := match opt_activationStatus o with
       | Some s => Some s
       | None => (λ m, formatActivationStatus (Some m) (providers (activation config))) <$> opt_activationModel o end;
     m_view := {| categoryIndex := 0; focus := 0; region := region_list; narrowScreen := screen_categories;
                  scroll := 0; width := 80 |};
     state := pristine; message := None; dialog := no_dialog; disposed := false |}.

Definition category (m : SettingsModel) : SettingsCategory :=
  default General (SETTINGS_CATEGORIES !! categoryIndex (m_view m)).

Definition layoutFor (w : Z) : SettingsLayout :=
  if (100 <=? w)%Z then layout_wide else if (60 <=? w)%Z then layout_medium else layout_narrow.
Definition layout (m : SettingsModel) : SettingsLayout := layoutFor (width (m_view m)).

Definition dispose (m : SettingsModel) : SettingsModel :=
  {| saved := saved m; draft := draft m; options := options m; activationStatus := activationStatus m;
     m_view := m_view m; state := state m; message := message m; dialog := no_dialog; disposed := true |}.

Definition routeIsActive (m : SettingsModel) : bool :=
  match activationStatus m with None => true | Some s => starts_with "active" s end.

Definition refreshActivationStatus (config : CodexConfig) (m : SettingsModel) : SettingsModel :=
  match opt_activationModel (options m) with
  | None => m
  | Some model => set_status (Some (formatActivationStatus (Some model) (providers (activation config)))) m
  end.

(** ** Rows *)

Section rows.
Context (number_text : jsnum → string).

(** The reason a row is disabled for, with [{ enabled: false }]. *)
Definition row (id label value description : string) (kind : SettingsRowKind) (reason : option string)
    : SettingsRow :=
  {| row_id := id; row_label := label; row_value := value; row_description := description; row_kind := kind;
     enabled := match reason with None => true | Some _ => false end; disabledReason := reason |}.

Definition on_off (b : bool) : string := if b then "on" else "off".

Definition disabled (m : SettingsModel) (id : string) : option string :=
  snd <$> List.find (λ kv, String.eqb kv.1 id) (disabledReasons (options m)).

Definition general_rows (m : SettingsModel) : list SettingsRow := [
  row "baseline" "Baseline" (baseline (options m)) "Pinned OpenAI Codex runtime baseline." row_readonly None;
  row "provider" "Provider" (opt_provider (options m)) "Active Pi provider id for this session." row_readonly None;
  row "model" "Model" (opt_model (options m)) "Active model id resolved by Pi." row_readonly None;
  row "providers" "Active providers" (join ", " (providers (activation (draft m))))
    "Exact Pi provider ids that opt into the Codex adaptor. Separate ids with commas." row_action None;
  row "route" "Current route" (default "unavailable" (activationStatus m))
    "Whether the current provider and API use the Codex adaptor." row_readonly None;
  row "status" "Status bar" (on_off (status (ui (draft m))))
    "Show a compact Codex status line in the Pi UI." row_toggle None;
  row "reset" "Reset to defaults" "action"
    "Replace the draft with the product default configuration." row_action None].

Definition tools_rows (m : SettingsModel) : list SettingsRow := [
  row "backgroundSessions" "Background sessions" (on_off (backgroundSessions (tools (draft m))))
    "Keep managed sessions alive and expose supplemental exec/write tools when needed." row_toggle
    (disabled m "backgroundSessions");
  row "approvalPolicy" "Approval policy" (literal_name (approvalPolicy (security (draft m))))
    "On-request is the safe default. Never suppresses operation approval prompts." row_enum None;
  row "filesystemAccessPolicy" "Filesystem access" (literal_name (filesystemAccessPolicy (security (draft m))))
    "Workspace is the safe default. Unrestricted permits explicit structured-tool paths outside workspace roots."
    row_enum None;
  row "viewImage" "view_image" (literal_name (viewImage (optional_tools (tools (draft m)))))
    "Enable the official view_image tool when the model accepts image inputs." row_enum (disabled m "viewImage");
  row "imageGeneration" "image_gen.imagegen" (literal_name (imageGeneration (optional_tools (tools (draft m)))))
    "Enable image generation when the provider and bridge advertise the capability." row_enum
    (disabled m "imageGeneration")].

Definition is_auto (c : CompactionConfig) : bool :=
  match c with compaction_auto _ => true | compaction_off => false end.

Definition limit_text (m : SettingsModel) (l : TokenLimit) : string :=
  match l, opt_modelLimit (options m) with
  | limit_model, Some n => (number_text n ++ " (model)")%string
  | limit_model, None => "model"
  | limit_tokens n, _ => number_text n
  end.

Definition limit_rows (m : SettingsModel) : list SettingsRow :=
  match compaction (codex (draft m)) with
  | compaction_off => []
  | compaction_auto l => [
      row "autoCompactTokenLimit" "Auto compact limit" (limit_text m l)
        "model uses the official model threshold. A positive integer overrides it." row_number
        (disabled m "autoCompactTokenLimit")]
  end.

Definition compact_now_row (m : SettingsModel) : SettingsRow :=
  let is_dirty := bool_decide (state m = dirty) in
  let auto := is_auto (compaction (codex (draft m))) in
  row "compactNow" "Compact now"
    (if is_dirty then "save first" else if negb auto then "disabled"
     else if routeIsActive m then "action" else "inactive")
    "Run official compaction for the current session after settings are clean." row_action
    match disabled m "compactNow" with
    | Some reason => Some reason
    | None =>
        if is_dirty then Some "Save or discard the draft before compaction."
        else if negb auto then Some "Compaction is disabled."
        else if routeIsActive m then None
        else Some "Codex route is inactive for the current provider and API."
    end.

Definition codex_rows (m : SettingsModel) : list SettingsRow :=
  let x := codex (draft m) in
  [row "serviceTier" "Service tier" (literal_name (serviceTier x))
     "OpenAI service tier preference for Responses requests." row_enum None;
   row "verbosity" "Verbosity" (literal_name (verbosity x))
     "Text verbosity preference for Responses requests." row_enum None;
   row "transport" "Transport" (literal_name (transport_mode x))
     "Preferred transport mode. auto selects the official default path." row_enum (disabled m "transport");
   row "webSearch" "Web search mode" (literal_name (webSearch_mode x))
     "Standalone or hosted web search mode requested from the resolver." row_enum (disabled m "webSearch");
   row "compaction" "Compaction" (literal_name (compaction_mode (compaction x)))
     "off disables adaptor compaction. auto uses the official compaction path." row_enum
     (disabled m "compaction")] ++
  limit_rows m ++ [compact_now_row m].

Definition diagnostics_rows (m : SettingsModel) : list SettingsRow := [
  row "bridge" "Bridge" (bridge (options m)) "Native bridge protocol identity." row_readonly None;
  row "capabilities" "Capabilities"
    match opt_capabilities (options m) with
    | Some names => let text := join ", " names in if String.eqb text "" then "unavailable" else text
    | None => "unavailable" end
    "Capabilities advertised by the native bridge handshake." row_readonly None;
  row "schema" "Config schema" "v3" "Supported configuration schema version." row_readonly None;
  row "state" "Draft state" (state_name (state m)) "Current settings transaction state." row_readonly None;
  row "export" "Export diagnostics" "action"
    "Export redacted adaptor and bridge metadata after confirmation." row_action None].

Definition rows (m : SettingsModel) : list SettingsRow :=
  match category m with
  | General => general_rows m | Tools => tools_rows m | Codex => codex_rows m
  | Diagnostics => diagnostics_rows m
  end.

Definition focusedRow (m : SettingsModel) : option SettingsRow := rows m !! focus (m_view m).

Definition value (m : SettingsModel) (key : string) : string :=
  default "n/a" (row_value <$> List.find (λ r, String.eqb (row_id r) key) (rows m)).

(** ** Operations *)

Definition idle (m : SettingsModel) : bool := negb (disposed m) && bool_decide (dialog m = no_dialog).

Inductive delta := backward | forward.

(** [(index + delta + 4) % 4]. *)
Definition next_category (i : nat) (d : delta) : nat :=
  (i + match d with backward => 3 | forward => 5 end) `mod` length SETTINGS_CATEGORIES.
Definition clamp (count i : nat) (d : delta) : nat :=
  match d with backward => (count - 1) `min` (i - 1) | forward => (count - 1) `min` (i + 1) end.

Definition moveCategory (d : delta) (m : SettingsModel) : SettingsModel :=
  if idle m then on_view (λ v, to_top (set_category (next_category (categoryIndex v) d) v)) m else m.

Definition setCategory (c : SettingsCategory) (m : SettingsModel) : SettingsModel :=
  if disposed m then m else
  on_view (λ v, to_top (set_category match c with General => 0 | Tools => 1 | Codex => 2 | Diagnostics => 3 end v)) m.

Definition ensureFocusVisible (m : SettingsModel) : SettingsModel :=
  if (length (rows m) =? 0)%nat then on_view to_top m
  else on_view (λ v, if (focus v <? scroll v)%nat then set_scroll (focus v) v else v) m.

Definition moveFocus (d : delta) (m : SettingsModel) : SettingsModel :=
  if negb (idle m) then m else
  let v := m_view m in
  if bool_decide (layout m = layout_narrow) && bool_decide (narrowScreen v = screen_categories)
  then on_view (λ v, set_category (clamp (length SETTINGS_CATEGORIES) (categoryIndex v) d) v) m
  else if bool_decide (layout m = layout_wide) && bool_decide (region v = region_nav)
  then moveCategory d m
  else
    let count := length (rows m) in
    if (count =? 0)%nat then on_view (set_focus 0) m
    else ensureFocusVisible (on_view (λ v, set_focus (clamp count (focus v) d) v) m).

Definition toggleFocused (m : SettingsModel) : SettingsModel :=
  if negb (idle m) then m else
  match focusedRow m with
  | None => m
  | Some r =>
      if negb (enabled r) || negb (bool_decide (row_kind r = row_toggle)) then m
      else if String.eqb (row_id r) "backgroundSessions"
      then markDirty (on_draft (λ c, set_background (negb (backgroundSessions (tools c))) c) m)
      else if String.eqb (row_id r) "status"
      then markDirty (on_draft (λ c, with_ui {| status := negb (status (ui c)) |} c) m)
      else m
  end.

(** What cycling a row does to the draft; the two security rows ask first. *)
Definition cycle_row (id : string) : option (CodexConfig → CodexConfig) :=
  if String.eqb id "viewImage"
  then Some (λ c, set_view_image (flipAutoOff (viewImage (optional_tools (tools c)))) c)
  else if String.eqb id "imageGeneration"
  then Some (λ c, set_image_generation (flipAutoOff (imageGeneration (optional_tools (tools c)))) c)
  else if String.eqb id "serviceTier"
  then Some (λ c, set_service_tier (cycle (serviceTier (codex c)) [tier_default; tier_priority; tier_flex]) c)
  else if String.eqb id "verbosity"
  then Some (λ c, set_verbosity (cycle (verbosity (codex c)) [verbosity_low; verbosity_medium; verbosity_high]) c)
  else if String.eqb id "transport"
  then Some (λ c, set_transport (cycle (transport_mode (codex c)) [transport_auto; transport_sse]) c)
  else if String.eqb id "webSearch"
  then Some (λ c, set_web_search (cycle (webSearch_mode (codex c))
              [search_disabled; search_cached; search_indexed; search_live]) c)
  else if String.eqb id "compaction"
  then Some (λ c, set_compaction (if is_auto (compaction (codex c)) then compaction_off
                                  else compaction_auto limit_model) c)
  else None.

Definition cycleFocused (m : SettingsModel) : SettingsEffect * SettingsModel :=
  if negb (idle m) then (effect_none, m) else
  match focusedRow m with
  | None => (effect_none, m)
  | Some r =>
      if negb (enabled r) || negb (bool_decide (row_kind r = row_enum)) then (effect_none, m)
      else if String.eqb (row_id r) "approvalPolicy" then
        match approvalPolicy (security (draft m)) with
        | on_request => (effect_none, set_dialog (approval_never_confirm 0) m)
        | never => (effect_none, markDirty (on_draft (set_approval on_request) m))
        end
      else if String.eqb (row_id r) "filesystemAccessPolicy" then
        match filesystemAccessPolicy (security (draft m)) with
        | workspace => (effect_none, set_dialog (filesystem_unrestricted_confirm 0) m)
        | unrestricted => (effect_none, markDirty (on_draft (set_filesystem workspace) m))
        end
      else match cycle_row (row_id r) with
           | Some f => (effect_none, markDirty (on_draft f m))
           | None => (effect_none, m)
           end
  end.

(** [beginSave] throws on a disposed model and on a draft that does not
    parse. *)
Inductive save_error := overlay_disposed | save_rejected (e : ConfigurationError).

Definition beginSave (m : SettingsModel) : outcome save_error CodexConfig * SettingsModel :=
  if disposed m then (Throw overlay_disposed, m) else
  let m := set_state validating None m in
  match parseConfig (config_value (draft m)) with
  | Throw e => (Throw (save_rejected e), m)
  | Ret validated => (Ret validated, set_state saving (message m) m)
  end.

Definition markSaved (config : CodexConfig) (m : SettingsModel) : SettingsModel :=
  if disposed m then m else
  set_state saved_state (Some (statusLabel kind_ok ++ " Saved")%string)
    (refreshActivationStatus config (set_configs config config m)).

Definition markError (text : string) (s : SettingsState) (m : SettingsModel) : SettingsModel :=
  if disposed m then m else set_state s (Some (statusLabel kind_error ++ " " ++ text)%string) m.

Definition setAutoCompactTokenLimit (l : TokenLimit) (m : SettingsModel) : SettingsModel :=
  if disposed m then m
  else if negb (is_auto (compaction (codex (draft m)))) then m
  else markDirty (on_draft (set_compaction (compaction_auto l)) m).

Definition setActivationProviders (ps : list string) (m : SettingsModel) : SettingsModel :=
  if disposed m then m else markDirty (on_draft (with_providers ps) m).

Definition discard (m : SettingsModel) : SettingsModel :=
  if disposed m then m
  else set_dialog no_dialog (set_state pristine None (on_draft (λ _, saved m) m)).

Definition applyDefaultsToDraft (m : SettingsModel) : SettingsModel :=
  if disposed m then m else
  on_view to_top (set_dialog no_dialog
    (set_state dirty (Some (statusLabel kind_info ++ " Draft reset to defaults. Save to apply.")%string)
       (on_draft (λ _, createDefaultConfig) m))).

Definition replaceWithSaved (config : CodexConfig) (m : SettingsModel) : SettingsModel :=
  if disposed m then m else
  on_view to_top (set_dialog no_dialog
    (set_state saved_state (Some (statusLabel kind_ok ++ " Defaults restored")%string)
       (refreshActivationStatus config (set_configs config config m)))).

(** [openDirtyCloseDialog], [openResetDialog], [openHelp], [closeDialog]. *)
Definition open_dialog (d : SettingsDialog) (m : SettingsModel) : SettingsModel :=
  if disposed m then m else set_dialog d m.

(** *** Keys *)

Context (parseTuiKey : string → option string).

Definition plus_to_minus (c : ascii) : ascii := if Ascii.eqb c "+" then "-"%char else c.
Fixpoint replace_plus (s : string) : string :=
  match s with EmptyString => EmptyString | String c s => String (plus_to_minus c) (replace_plus s) end.

Definition parseKey (data : string) : string :=
  match parseTuiKey data with
  | Some key => if String.eqb key "escape" then "esc" else replace_plus (to_lower key)
  | None => replace_plus (to_lower data)
  end.

Definition activateFocused (m : SettingsModel) : SettingsEffect * SettingsModel :=
  let v := m_view m in
  if bool_decide (layout m = layout_narrow) && bool_decide (narrowScreen v = screen_categories)
  then (effect_none, on_view (λ v, set_region region_list (to_top (set_narrow screen_settings v))) m)
  else if bool_decide (layout m = layout_wide) && bool_decide (region v = region_nav)
  then (effect_none, on_view (λ v, set_focus 0 (set_region region_list v)) m)
  else match focusedRow m with
  | None => (effect_none, m)
  | Some r =>
      if negb (enabled r) then (effect_none, m) else
      match row_kind r with
      | row_toggle => (effect_none, toggleFocused m)
      | row_enum => cycleFocused m
      | _ =>
          if String.eqb (row_id r) "autoCompactTokenLimit" then (effect_edit_auto_compact, m)
          else if String.eqb (row_id r) "providers" then (effect_edit_providers, m)
          else if String.eqb (row_id r) "export" then (effect_export, m)
          else if String.eqb (row_id r) "compactNow" then (effect_compact, m)
          else if String.eqb (row_id r) "reset" then (effect_none, open_dialog (reset_confirm 0) m)
          else (effect_none, m)
      end
  end.

(** A list of choices: the key moves the focus, selects it or does nothing. *)
Inductive choice := choice_moved (focus : nat) | choice_selected (option : string) | choice_closed | choice_none.

Definition choose (choices : list string) (focus : nat) (key : string) : choice :=
  if String.eqb key "esc" then choice_closed
  else if String.eqb key "up" || String.eqb key "k" then choice_moved (focus - 1)
  else if String.eqb key "down" || String.eqb key "j" then choice_moved ((length choices - 1) `min` (focus + 1))
  else if String.eqb key "enter" || String.eqb key "space"
  then choice_selected (default (default "" (choices !! 0)) (choices !! focus))
  else choice_none.

Definition confirm_policy (f : CodexConfig → CodexConfig) (m : SettingsModel) : SettingsEffect * SettingsModel :=
  let m := set_dialog no_dialog (markDirty (on_draft f m)) in
  (security_policy_enabled (default "Codex security policy changed." (securityPolicyWarning (draft m))), m).

Definition handleDialogKey (key : string) (m : SettingsModel) : SettingsEffect * SettingsModel :=
  match dialog m with
  | no_dialog => (effect_none, m)
  | help =>
      (effect_none, if js_elem key ["esc"; "enter"; "?"; "space"] then set_dialog no_dialog m else m)
  | dirty_close f =>
      match choose DIRTY_CLOSE_OPTIONS f key with
      | choice_closed => (effect_none, set_dialog no_dialog m)
      | choice_moved f => (effect_none, set_dialog (dirty_close f) m)
      | choice_selected o =>
          if String.eqb o "Continue editing" then (effect_none, set_dialog no_dialog m)
          else if String.eqb o "Discard changes" then (effect_close, discard m)
          else (effect_save_and_close, set_dialog no_dialog m)
      | choice_none => (effect_none, m)
      end
  | reset_confirm f =>
      match choose RESET_OPTIONS f key with
      | choice_closed => (effect_none, set_dialog no_dialog m)
      | choice_moved f => (effect_none, set_dialog (reset_confirm f) m)
      | choice_selected o =>
          if String.eqb o "Cancel" then (effect_none, set_dialog no_dialog m)
          else (effect_reset_defaults, set_dialog no_dialog m)
      | choice_none => (effect_none, m)
      end
  | approval_never_confirm f =>
      match choose APPROVAL_NEVER_OPTIONS f key with
      | choice_closed => (effect_none, set_dialog no_dialog m)
      | choice_moved f => (effect_none, set_dialog (approval_never_confirm f) m)
      | choice_selected o =>
          if String.eqb o "Cancel" then (effect_none, set_dialog no_dialog m)
          else confirm_policy (set_approval never) m
      | choice_none => (effect_none, m)
      end
  | filesystem_unrestricted_confirm f =>
      match choose FILESYSTEM_UNRESTRICTED_OPTIONS f key with
      | choice_closed => (effect_none, set_dialog no_dialog m)
      | choice_moved f => (effect_none, set_dialog (filesystem_unrestricted_confirm f) m)
      | choice_selected o =>
          if String.eqb o "Cancel" then (effect_none, set_dialog no_dialog m)
          else confirm_policy (set_filesystem unrestricted) m
      | choice_none => (effect_none, m)
      end
  end.

Definition in_narrow_settings (m : SettingsModel) : bool :=
  bool_decide (layout m = layout_narrow) && bool_decide (narrowScreen (m_view m) = screen_settings).

Definition switch_region (m : SettingsModel) : SettingsModel :=
  if bool_decide (layout m = layout_wide)
  then on_view (λ v, set_region match region v with region_nav => region_list | region_list => region_nav end v) m
  else m.

Definition handleKey (data : string) (m : SettingsModel) : SettingsEffect * SettingsModel :=
  if disposed m then (effect_none, m) else
  let key := parseKey data in
  let pressed k := String.eqb key k in
  if negb (bool_decide (dialog m = no_dialog)) then handleDialogKey key m
  else if pressed "esc" then
    if in_narrow_settings m then (effect_none, on_view (set_narrow screen_categories) m)
    else if bool_decide (state m = dirty) then (effect_none, open_dialog (dirty_close 0) m)
    else (effect_close, m)
  else if pressed "up" || pressed "k" then (effect_none, moveFocus backward m)
  else if pressed "down" || pressed "j" then (effect_none, moveFocus forward m)
  else if pressed "left" || pressed "[" then
    (effect_none, if in_narrow_settings m then m else moveCategory backward m)
  else if pressed "right" || pressed "]" then
    (effect_none, if in_narrow_settings m then m else moveCategory forward m)
  else if pressed "tab" || pressed "shift-tab" then (effect_none, switch_region m)
  else if pressed "space" then (effect_none, toggleFocused m)
  else if pressed "enter" then activateFocused m
  else if pressed "ctrl-s" then (effect_save, m)
  else if pressed "?" then (effect_none, open_dialog help m)
  else if pressed "r" then (effect_none, open_dialog (reset_confirm 0) m)
  else if pressed "c" then (if bool_decide (category m = Codex) then effect_compact else effect_none, m)
  else if pressed "e" then (if bool_decide (category m = Diagnostics) then effect_export else effect_none, m)
  else (effect_none, m).

(** *** Lines *)

Definition middle_dot : string := (" " ++ String (ascii_of_N 183) " ")%string.

Definition headerLine (m : SettingsModel) (w : Z) : string :=
  let modified := match state m with
    | dirty | validation_error | write_error => statusLabel kind_dirty
    | saved_state => statusLabel kind_ok
    | s => state_name s end in
  let prefix := ("Codex adaptor" ++ middle_dot ++ baseline (options m))%string in
  let suffix := (middle_dot ++ modified)%string in
  if (w <=? 0)%Z then "" else
  if (w <=? len (prefix ++ suffix)%string)%Z then fitLine (prefix ++ suffix)%string w else
  let available := (w - len prefix - len suffix)%Z in
  (prefix ++ fitLine (middle_dot ++ opt_provider (options m))%string available ++ suffix)%string.

Definition footer_actions (m : SettingsModel) (l : SettingsLayout) : list string :=
  ["Up/Down"] ++ (match l with layout_wide => ["Tab region"] | _ => [] end) ++
  (match l with layout_narrow => [] | _ => ["[/] category"] end) ++
  ["Space"; "Enter"; "Ctrl+S"; "R reset"] ++
  (if bool_decide (category m = Codex) then ["C compact"] else []) ++
  (if bool_decide (category m = Diagnostics) then ["E export"] else []) ++
  [match l with layout_narrow => "Esc back" | _ => "Esc close" end; "? help"].

Definition footer (m : SettingsModel) (w : Z) : string :=
  let l := layoutFor w in
  if bool_decide (l = layout_narrow) && bool_decide (narrowScreen (m_view m) = screen_categories)
  then joinFooter ["Up/Down"; "Enter open"; "Esc close"; "? help"] w
  else joinFooter (footer_actions m l) w.

Definition setting_line (m : SettingsModel) (w : Z) (showFocus : bool) (i : nat) (r : SettingsRow) : string :=
  let prefix := if showFocus && (i =? focus (m_view m))%nat then ">" else " " in
  let disabled := if enabled r then "" else (" " ++ statusLabel kind_disabled)%string in
  let label := padEndVisible (row_label r) (Z.min 22 (Z.max 10 (2 * w / 5))) in
  let valueWidth := Z.max 4 (w - 2 - len label - len disabled) in
  fitLine (prefix ++ " " ++ label ++ " " ++ fitLine (row_value r) valueWidth ++ disabled)%string w.

Definition settingsLines (m : SettingsModel) (w : Z) (showFocus : bool) : list string :=
  imap (setting_line m w showFocus) (rows m).

Definition descriptionLines (m : SettingsModel) (w : Z) : list string :=
  match focusedRow m with
  | None => []
  | Some r =>
      let text := match disabledReason r with
        | None => row_description r
        | Some reason => (row_description r ++ " " ++ statusLabel kind_disabled ++ " " ++ reason)%string end in
      (λ l, fitLine l w) <$> wrapText text w
  end.

Definition nav_line (m : SettingsModel) (navWidth : Z) (i : nat) (c : SettingsCategory) : string :=
  let is_active := (i =? categoryIndex (m_view m))%nat in
  let mark := if bool_decide (region (m_view m) = region_nav) && is_active then ">" else " " in
  let label := if is_active then ("[" ++ category_name c ++ "]")%string else category_name c in
  padEndVisible (mark ++ label)%string navWidth.

(** The two columns, row by row. *)
Definition columns (navWidth contentWidth : Z) (navLines contentLines : list string) : list string :=
  (λ i, (padEndVisible (default "" (navLines !! i)) navWidth ++ "  " ++
         fitLine (default "" (contentLines !! i)) contentWidth)%string) <$>
    seq 0 (length navLines `max` length contentLines).

Definition wideBody (m : SettingsModel) (w : Z) : list string :=
  let navWidth := Z.min 22 (Z.max 18 NAV_WIDTH) in
  let contentWidth := Z.max 20 (w - navWidth - 2) in
  columns navWidth contentWidth (imap (nav_line m navWidth) SETTINGS_CATEGORIES)
    (settingsLines m contentWidth (bool_decide (region (m_view m) = region_list)) ++ [""] ++
     descriptionLines m contentWidth).

Definition mediumBody (m : SettingsModel) (w : Z) : list string :=
  let tabs := join "  " ((λ c, if bool_decide (c = category m) then ("[" ++ category_name c ++ "]")%string
                               else category_name c) <$> SETTINGS_CATEGORIES) in
  [fitLine tabs w; ""] ++ settingsLines m w true ++ [""] ++ descriptionLines m w.

Definition narrowBody (m : SettingsModel) (w : Z) : list string :=
  match narrowScreen (m_view m) with
  | screen_categories =>
      [fitLine "Select section" w; ""] ++
      imap (λ i c, fitLine ((if (i =? categoryIndex (m_view m))%nat then ">" else " ") ++ " " ++ category_name c)%string w)
        SETTINGS_CATEGORIES
  | screen_settings =>
      [fitLine (category_name (category m)) w; ""] ++ settingsLines m w true ++ [""] ++ descriptionLines m w
  end.

Definition HELP_LINES : list string := [
  "Codex settings help"; ""; "Up/Down or j/k: move"; "[/] or Left/Right: switch category";
  "Tab: switch wide layout region"; "Space: toggle booleans";
  "Enter: activate enum, action, or narrow section"; "Ctrl+S: validate and save draft";
  "R: reset draft to product defaults"; "C: compact now on Codex section";
  "E: export diagnostics on Diagnostics section"; "Esc: back, cancel dialog, or close"; "";
  "Enter/Esc/? close help"].

Definition choice_lines (title text : string) (choices : list string) (f : nat) (default_line : string) (w : Z)
    : list string :=
  [fitLine title w; ""] ++ wrapText text w ++ [""] ++
  imap (λ i o, fitLine ((if (i =? f)%nat then ">" else " ") ++ " " ++ o)%string w) choices ++
  [""; fitLine default_line w].

Definition dialogLines (m : SettingsModel) (w : Z) : list string :=
  match dialog m with
  | no_dialog => []
  | help => (λ l, fitLine l w) <$> HELP_LINES
  | dirty_close f => choice_lines "Unsaved Codex settings" "Save, discard, or continue editing the draft."
      DIRTY_CLOSE_OPTIONS f "Default: Continue editing" w
  | reset_confirm f => choice_lines "Reset Codex settings" "Replace the configuration with product defaults?"
      RESET_OPTIONS f "Default: Cancel" w
  | approval_never_confirm f => choice_lines "Enable approval never" APPROVAL_NEVER_CONFIRMATION
      APPROVAL_NEVER_OPTIONS f "Default: Cancel" w
  | filesystem_unrestricted_confirm f => choice_lines "Enable unrestricted filesystem access"
      FILESYSTEM_UNRESTRICTED_CONFIRMATION FILESYSTEM_UNRESTRICTED_OPTIONS f "Default: Cancel" w
  end.

(** [lines] keeps the width it was asked for. *)
Definition lines (m : SettingsModel) (w : Z) : list string * SettingsModel :=
  let m := on_view (set_view_width w) m in
  (if disposed m then [fitLine "Settings closed" w]
   else if negb (bool_decide (dialog m = no_dialog)) then dialogLines m w
   else
     let body := match layoutFor w with
       | layout_wide => wideBody m w | layout_medium => mediumBody m w | layout_narrow => narrowBody m w end in
     (λ l, fitLine l w) <$>
       ([headerLine m w] ++ body ++
        match message m with Some text => [""] ++ wrapText text w | None => [] end ++ [""; footer m w]),
   m).

(** What the overlay calls, in any order. *)
Inductive settings_op :=
| op_key (data : string)
| op_begin_save
| op_saved (config : CodexConfig)
| op_error (text : string) (s : SettingsState)
| op_limit (l : TokenLimit)
| op_providers (ps : list string)
| op_replace (config : CodexConfig)
| op_defaults
| op_lines (w : Z)
| op_dispose.

Definition settings_step (op : settings_op) (m : SettingsModel) : SettingsModel :=
  match op with
  | op_key data => (handleKey data m).2
  | op_begin_save => (beginSave m).2
  | op_saved config => markSaved config m
  | op_error text s => markError text s m
  | op_limit l => setAutoCompactTokenLimit l m
  | op_providers ps => setActivationProviders ps m
  | op_replace config => replaceWithSaved config m
  | op_defaults => applyDefaultsToDraft m
  | op_lines w => (lines m w).2
  | op_dispose => dispose m
  end.

Definition settings_run (ops : list settings_op) (m : SettingsModel) : SettingsModel :=
  fold_left (λ m op, settings_step op m) ops m.

End rows.
