(* ===== verification/SettingsFacts.v ===== *)
(** * SettingsFacts

    The settings dialog asks before a dangerous policy, before unsaved edits
    are dropped in the states it marks as dirty, keeps its draft valid, and
    never draws past the width. *)

From Stdlib Require Import Lia.
From S2P Require Import Prelude Config ConfigFacts ConfigStore EffectiveCapabilities ToolActivation.
From S2P Require Import Render Settings.

Section facts.
Context (number_text : jsnum → string) (parseTuiKey : string → option string).
Implicit Types (m : SettingsModel) (c : CodexConfig).

Local Abbreviation handle := (handleKey number_text parseTuiKey).
Local Abbreviation step := (settings_step number_text parseTuiKey).
Local Abbreviation run := (settings_run number_text parseTuiKey).
Local Abbreviation key_of := (parseKey parseTuiKey).

(** ** Dangerous policies *)

Definition is_never c : Prop := approvalPolicy (security c) = never.
Definition is_unrestricted c : Prop := filesystemAccessPolicy (security c) = unrestricted.
Definition no_more_danger c c' : Prop :=
  (is_never c' → is_never c) ∧ (is_unrestricted c' → is_unrestricted c).

Lemma no_more_refl c : no_more_danger c c.
Proof. done. Qed.
#[local] Hint Resolve no_more_refl : core.

Lemma moveCategory_draft d m : draft (moveCategory d m) = draft m.
Proof. unfold moveCategory. by destruct (idle m). Qed.

Lemma moveFocus_draft d m : draft (moveFocus number_text d m) = draft m.
Proof.
  unfold moveFocus, ensureFocusVisible. repeat case_match; try done. apply moveCategory_draft.
Qed.

Lemma toggle_danger m : no_more_danger (draft m) (draft (toggleFocused number_text m)).
Proof. unfold toggleFocused. by repeat case_match. Qed.

Lemma cycle_row_danger id f c : cycle_row id = Some f → no_more_danger c (f c).
Proof. unfold cycle_row. by repeat case_match; intros [= <-]. Qed.

Lemma cycle_danger m : no_more_danger (draft m) (draft (cycleFocused number_text m).2).
Proof.
  unfold cycleFocused. destruct (negb (idle m)); [done|]. destruct (focusedRow _ m) as [r|]; [|done].
  destruct (_ || _); [done|]. destruct (String.eqb (row_id r) "approvalPolicy").
  { by destruct (approvalPolicy _). }
  destruct (String.eqb (row_id r) "filesystemAccessPolicy").
  { by destruct (filesystemAccessPolicy _). }
  destruct (cycle_row (row_id r)) eqn:Hr; [|done]. by eapply cycle_row_danger.
Qed.

Lemma open_dialog_draft d m : draft (open_dialog d m) = draft m.
Proof. unfold open_dialog. by destruct (disposed m). Qed.

Lemma activate_danger m : no_more_danger (draft m) (draft (activateFocused number_text m).2).
Proof.
  unfold activateFocused. do 2 (destruct (_ && _); [done|]). destruct (focusedRow _ m) as [r|]; [|done].
  destruct (negb _); [done|]. destruct (row_kind r);
    try (repeat case_match; try done; simpl; by rewrite open_dialog_draft).
  - apply toggle_danger.
  - apply cycle_danger.
Qed.

(** *** Dialogs *)

Lemma choose_selected choices f key o : choose choices f key = choice_selected o →
  (key = "enter" ∨ key = "space") ∧ o = default (default "" (choices !! 0)) (choices !! f).
Proof.
  unfold choose. destruct (String.eqb key "esc"); [discriminate|].
  destruct (String.eqb key "up" || _); [discriminate|]. destruct (String.eqb key "down" || _); [discriminate|].
  destruct (String.eqb key "enter" || _) eqn:Hk; [|discriminate]. intros [= <-]. split; [|done].
  apply orb_true_iff in Hk as [Hk|Hk]; apply String.eqb_eq in Hk; auto.
Qed.

(** The second of two choices. *)
Lemma second_choice a b f o : o = default (default "" ([a; b] !! 0)) ([a; b] !! f) → o ≠ a → f = 1 ∧ o = b.
Proof. destruct f as [|[|f]]; simpl; intros ->; done. Qed.

(** The key that confirms, in the dialog that asks for it. *)
Definition confirms (m : SettingsModel) (data : string) (d : SettingsDialog) (eff : SettingsEffect) c' : Prop :=
  dialog m = d ∧ (key_of data = "enter" ∨ key_of data = "space") ∧
  ∃ warning, securityPolicyWarning c' = Some warning ∧ eff = security_policy_enabled warning.

Definition discards (m : SettingsModel) (eff : SettingsEffect) c' : Prop :=
  dialog m = dirty_close 1 ∧ eff = effect_close ∧ c' = saved m.

Lemma warning_of_never c : is_never c → ∃ w, securityPolicyWarning c = Some w.
Proof. unfold is_never, securityPolicyWarning. intros ->. destruct (filesystemAccessPolicy _); by eexists. Qed.
Lemma warning_of_unrestricted c : is_unrestricted c → ∃ w, securityPolicyWarning c = Some w.
Proof. unfold is_unrestricted, securityPolicyWarning. intros ->. destruct (approvalPolicy _); by eexists. Qed.

Definition asked_for (m : SettingsModel) (data : string) (eff : SettingsEffect) (m' : SettingsModel) : Prop :=
  (is_never (draft m') →
     is_never (draft m) ∨ confirms m data (approval_never_confirm 1) eff (draft m') ∨ discards m eff (draft m')) ∧
  (is_unrestricted (draft m') →
     is_unrestricted (draft m) ∨ confirms m data (filesystem_unrestricted_confirm 1) eff (draft m') ∨
     discards m eff (draft m')).

Lemma harmless m data eff m' : no_more_danger (draft m) (draft m') → asked_for m data eff m'.
Proof. intros [Ha Hf]. split; auto. Qed.

Lemma dialog_asks data m : disposed m = false →
  asked_for m data (handleDialogKey (key_of data) m).1 (handleDialogKey (key_of data) m).2.
Proof.
  intros Hdis. unfold handleDialogKey. destruct (dialog m) as [|f|f|f|f|] eqn:Hd.
  - by apply harmless.
  - destruct (choose _ f _) eqn:Hc; try by apply harmless. apply choose_selected in Hc as [_ Ho].
    destruct (String.eqb_spec option "Continue editing"); [by apply harmless|].
    destruct (String.eqb_spec option "Discard changes") as [He|]; [|by apply harmless].
    assert (Hdisc : discards m effect_close (draft (discard m))).
    { unfold discard. rewrite Hdis. split_and!; try done. rewrite Hd.
      destruct f as [|[|[|f]]]; simpl in Ho; subst; done. }
    split; auto.
  - destruct (choose _ f _) as [|o| |]; try by apply harmless. by destruct (String.eqb o _); apply harmless.
  - destruct (choose _ f _) eqn:Hc; try by apply harmless. apply choose_selected in Hc as [Hk Ho].
    destruct (String.eqb_spec option "Cancel") as [|Hne]; [by apply harmless|].
    destruct (second_choice _ _ _ _ Ho Hne) as [-> _]. split; simpl; intros Hx; [|by left].
    right. left. destruct (warning_of_never (set_approval never (draft m)) Hx) as [w Hw].
    split_and!; [done|done|]. exists w. by rewrite Hw.
  - destruct (choose _ f _) eqn:Hc; try by apply harmless. apply choose_selected in Hc as [Hk Ho].
    destruct (String.eqb_spec option "Cancel") as [|Hne]; [by apply harmless|].
    destruct (second_choice _ _ _ _ Ho Hne) as [-> _]. split; simpl; intros Hx; [by left|].
    right. left. destruct (warning_of_unrestricted (set_filesystem unrestricted (draft m)) Hx) as [w Hw].
    split_and!; [done|done|]. exists w. by rewrite Hw.
  - apply harmless. by destruct (js_elem _ _).
Qed.

Lemma handle_cases data m : disposed m = false →
  (dialog m ≠ no_dialog ∧ handle data m = handleDialogKey (key_of data) m) ∨
  (dialog m = no_dialog ∧ no_more_danger (draft m) (draft (handle data m).2)).
Proof.
  intros Hd. unfold handleKey. rewrite Hd. destruct (decide (dialog m = no_dialog)) as [Hn|Hn]; last first.
  { left. by rewrite bool_decide_false. }
  right. split; [done|]. rewrite bool_decide_true by done. cbn [negb].
  repeat (match goal with |- context [if ?b then _ else _] => destruct b end; simpl; try done;
          rewrite ?moveFocus_draft, ?moveCategory_draft, ?open_dialog_draft; try done).
  all: first [apply toggle_danger|apply activate_danger|idtac].
  all: unfold switch_region; by case_match.
Qed.

(** No key makes the draft more dangerous by itself: after any key, in
    any state of the dialog, the policy [never] or [unrestricted] of the draft
    was there before, or the key confirmed the dialog that asks for exactly
    that policy, on its second choice, and the effect carries the warning to
    show; or unsaved changes were discarded and the saved configuration has
    it. *)
Theorem dangerous_policies_are_confirmed data m :
  let '(eff, m') := handle data m in asked_for m data eff m'.
Proof.
  destruct (disposed m) eqn:Hd.
  { unfold handleKey. rewrite Hd. by apply harmless. }
  destruct (handle_cases data m Hd) as [[_ ->]|[_ Hno]].
  - pose proof (dialog_asks data m Hd) as Ha. by destruct (handleDialogKey _ m).
  - destruct (handle data m) as [eff m']. by apply harmless.
Qed.

(** ** The draft stays valid *)

Definition configs_valid m : Prop := valid_config (saved m) ∧ valid_config (draft m).

(** An edit that leaves providers and compaction alone, or resets the
    latter. *)
Definition benign (f : CodexConfig → CodexConfig) : Prop := ∀ c, valid_config c → valid_config (f c).

Lemma benign_refl f :
  (∀ c, activation (f c) = activation c ∧ compaction (codex (f c)) = compaction (codex c)) → benign f.
Proof. intros Hf c. unfold valid_config. by destruct (Hf c) as [-> ->]. Qed.

Lemma on_draft_valid f m : benign f → configs_valid m → configs_valid (markDirty (on_draft f m)).
Proof. intros Hf [Hs Hd]. split; [done|]. by apply Hf. Qed.

Lemma cycle_row_benign id f : cycle_row id = Some f → benign f.
Proof.
  unfold cycle_row. repeat case_match; intros [= <-] c [Hp Hc]; split; try done. simpl.
  by destruct (is_auto _).
Qed.

Lemma moveCategory_valid d m : configs_valid m → configs_valid (moveCategory d m).
Proof. unfold moveCategory. by destruct (idle m). Qed.
Lemma moveFocus_valid d m : configs_valid m → configs_valid (moveFocus number_text d m).
Proof.
  intros Hm. unfold moveFocus, ensureFocusVisible. repeat case_match; try done. by apply moveCategory_valid.
Qed.
Lemma open_dialog_valid d m : configs_valid m → configs_valid (open_dialog d m).
Proof. unfold open_dialog. by destruct (disposed m). Qed.
Lemma discard_valid m : configs_valid m → configs_valid (discard m).
Proof. unfold discard. destruct (disposed m); [done|]. by intros [? _]. Qed.

Lemma toggle_valid m : configs_valid m → configs_valid (toggleFocused number_text m).
Proof.
  intros Hm. unfold toggleFocused. repeat case_match; try done; apply on_draft_valid; try done;
    by apply benign_refl.
Qed.

Lemma cycle_valid m : configs_valid m → configs_valid (cycleFocused number_text m).2.
Proof.
  intros Hm. unfold cycleFocused. destruct (negb (idle m)); [done|].
  destruct (focusedRow _ m) as [r|]; [|done]. destruct (_ || _); [done|].
  destruct (String.eqb (row_id r) "approvalPolicy").
  { destruct (approvalPolicy _); [done|apply on_draft_valid; [by apply benign_refl|done]]. }
  destruct (String.eqb (row_id r) "filesystemAccessPolicy").
  { destruct (filesystemAccessPolicy _); [done|apply on_draft_valid; [by apply benign_refl|done]]. }
  destruct (cycle_row (row_id r)) eqn:Hr; [|done]. apply on_draft_valid; [|done].
  by eapply cycle_row_benign.
Qed.

Lemma activate_valid m : configs_valid m → configs_valid (activateFocused number_text m).2.
Proof.
  intros Hm. unfold activateFocused. do 2 (destruct (_ && _); [done|]).
  destruct (focusedRow _ m) as [r|]; [|done]. destruct (negb _); [done|].
  destruct (row_kind r); try (repeat case_match; try done; by apply open_dialog_valid).
  - by apply toggle_valid.
  - by apply cycle_valid.
Qed.

Lemma dialog_valid key m : configs_valid m → configs_valid (handleDialogKey key m).2.
Proof.
  intros Hm. unfold handleDialogKey. destruct (dialog m); try done; try (by destruct (js_elem _ _));
    destruct (choose _ _ _); try done; repeat case_match; try done.
  by apply discard_valid.
Qed.

Lemma handle_valid data m : configs_valid m → configs_valid (handle data m).2.
Proof.
  intros Hm. unfold handleKey. destruct (disposed m); [done|].
  destruct (negb _); [by apply dialog_valid|].
  repeat (match goal with |- context [if ?b then _ else _] => destruct b end; simpl; try done;
    try by first [apply moveFocus_valid|apply moveCategory_valid|apply open_dialog_valid|apply toggle_valid
                 |apply activate_valid]).
  unfold switch_region. by case_match.
Qed.

(** ** Steps of the keys *)

Definition dialog_ok (d : SettingsDialog) : Prop :=
  match d with
  | no_dialog | help => True
  | dirty_close f => f < length DIRTY_CLOSE_OPTIONS
  | reset_confirm f => f < length RESET_OPTIONS
  | approval_never_confirm f => f < length APPROVAL_NEVER_OPTIONS
  | filesystem_unrestricted_confirm f => f < length FILESYSTEM_UNRESTRICTED_OPTIONS
  end.

(** Keys leave the saved configuration alone; the draft stays, or becomes
    dirty, or is the saved one again. *)
Record key_step m m' : Prop := {
  ks_saved : saved m' = saved m;
  ks_draft : (state m' = state m ∧ draft m' = draft m) ∨ state m' = dirty ∨ draft m' = saved m;
  ks_category : categoryIndex (m_view m) < 4 → categoryIndex (m_view m') < 4;
  ks_dialog : dialog_ok (dialog m) → dialog_ok (dialog m');
  ks_disposed : disposed m' = disposed m }.

Lemma key_step_view f m :
  (categoryIndex (m_view m) < 4 → categoryIndex (f (m_view m)) < 4) → key_step m (on_view f m).
Proof. intros Hf. constructor; simpl; auto. Qed.

Lemma key_step_refl m : key_step m m.
Proof. constructor; auto. Qed.
Lemma key_step_dialog d m : dialog_ok d → key_step m (set_dialog d m).
Proof. constructor; simpl; auto. Qed.
Lemma key_step_dirty f m : key_step m (markDirty (on_draft f m)).
Proof. constructor; simpl; auto. Qed.
#[local] Hint Resolve key_step_refl key_step_dirty : core.

Lemma next_category_lt i d : next_category i d < 4.
Proof. unfold next_category. apply Nat.mod_upper_bound. done. Qed.
Lemma clamp_lt count i d : 0 < count → clamp count i d < count.
Proof. destruct d; simpl; lia. Qed.

Lemma moveCategory_step d m : key_step m (moveCategory d m).
Proof.
  unfold moveCategory. destruct (idle m); [|done]. apply key_step_view. intros _. apply next_category_lt.
Qed.

Lemma moveFocus_step d m : key_step m (moveFocus number_text d m).
Proof.
  unfold moveFocus, ensureFocusVisible. destruct (negb _); [done|].
  destruct (_ && _); [apply key_step_view; intros _; apply clamp_lt; simpl; lia|].
  destruct (_ && _); [apply moveCategory_step|].
  case_match; [by apply key_step_view|]. case_match; constructor; simpl; auto; by case_match.
Qed.

Lemma open_dialog_step d m : dialog_ok d → key_step m (open_dialog d m).
Proof. intros Hd. unfold open_dialog. destruct (disposed m); [done|by apply key_step_dialog]. Qed.

Lemma toggle_step m : key_step m (toggleFocused number_text m).
Proof. unfold toggleFocused. repeat case_match; done || apply key_step_dirty. Qed.

Lemma cycle_step m : key_step m (cycleFocused number_text m).2.
Proof.
  unfold cycleFocused. repeat case_match; try done; try apply key_step_dirty;
    apply key_step_dialog; simpl; lia.
Qed.

Lemma activate_step m : key_step m (activateFocused number_text m).2.
Proof.
  unfold activateFocused. destruct (_ && _); [by apply key_step_view|].
  destruct (_ && _); [by apply key_step_view|]. destruct (focusedRow _ m) as [r|]; [|done].
  destruct (negb _); [done|].
  destruct (row_kind r); try (repeat case_match; try done; apply open_dialog_step; simpl; lia).
  - apply toggle_step.
  - apply cycle_step.
Qed.

Lemma choose_moved choices f key f' :
  0 < length choices → f < length choices → choose choices f key = choice_moved f' → f' < length choices.
Proof. unfold choose. intros Hc Hf. repeat case_match; intros [= <-]; lia. Qed.

Lemma discard_step m : key_step m (discard m).
Proof. unfold discard. destruct (disposed m); [done|]. constructor; simpl; auto. Qed.

Lemma confirm_step f m : key_step m (confirm_policy f m).2.
Proof. constructor; simpl; auto. Qed.

Lemma dialog_step key m : dialog_ok (dialog m) → key_step m (handleDialogKey key m).2.
Proof.
  intros Hd. unfold handleDialogKey.
  destruct (dialog m) as [|f|f|f|f|] eqn:Hdm; try done;
    try (destruct (choose _ f key) as [f'|o| |] eqn:Hc;
         [apply choose_moved in Hc; [by apply key_step_dialog|simpl; lia|done]
         |repeat case_match; try (by apply key_step_dialog);
            first [apply discard_step|apply confirm_step]
         |by apply key_step_dialog|done]).
  by destruct (js_elem _ _); [apply key_step_dialog|].
Qed.

Lemma handle_step data m : dialog_ok (dialog m) → key_step m (handle data m).2.
Proof.
  intros Hd. unfold handleKey. destruct (disposed m); [done|].
  destruct (negb _); [by apply dialog_step|].
  repeat (match goal with |- context [if ?b then _ else _] => destruct b end; simpl; try done;
    try by first [apply moveFocus_step|apply moveCategory_step|apply toggle_step|apply activate_step
                 |apply open_dialog_step; simpl; lia|apply key_step_view]).
  unfold switch_region. case_match; [by apply key_step_view|done].
Qed.

(** *** Closing *)

Lemma cycle_effect m : (cycleFocused number_text m).1 = effect_none.
Proof. unfold cycleFocused. by repeat case_match. Qed.

Lemma activate_effect m : (activateFocused number_text m).1 ≠ effect_close.
Proof. unfold activateFocused. repeat case_match; try done. by rewrite cycle_effect. Qed.

Lemma dialog_close key m :
  disposed m = false → (handleDialogKey key m).1 = effect_close →
  draft (handleDialogKey key m).2 = saved (handleDialogKey key m).2.
Proof.
  intros Hd. unfold handleDialogKey. destruct (dialog m); try done;
    destruct (choose _ _ _); try done; repeat case_match; try done.
  intros _. simpl. unfold discard. by rewrite Hd.
Qed.

(** A key closes the dialog with the draft saved, or in a state in which the
    code does not take the draft for unsaved. *)
Lemma handle_close data m :
  (state m = pristine ∨ state m = saved_state → draft m = saved m) →
  (handle data m).1 = effect_close →
  draft (handle data m).2 = saved (handle data m).2 ∨
  state m = validating ∨ state m = saving ∨ state m = validation_error ∨ state m = write_error.
Proof.
  intros Hsync. unfold handleKey. destruct (disposed m) eqn:Hd; [done|].
  destruct (negb _); [intros Hc; left; by apply dialog_close|].
  destruct (String.eqb _ "esc").
  { destruct (in_narrow_settings m); [done|]. destruct (bool_decide (state m = dirty)) eqn:Hs; [done|].
    apply bool_decide_eq_false in Hs. intros _. simpl. destruct (state m); auto 6; try done. }
  repeat (match goal with |- context [if ?b then _ else _] => destruct b end; simpl; try done).
  intros Hc. by apply activate_effect in Hc.
Qed.

(** ** Operations *)

(** What the overlay passes in was parsed, or checked. *)
Definition op_ok (op : settings_op) : Prop :=
  match op with
  | op_saved c | op_replace c => valid_config c
  | op_limit l => valid_limit l = true
  | op_providers ps => valid_providers ps
  | op_error _ s => s = validation_error ∨ s = write_error
  | _ => True
  end.

Record settings_ok m : Prop := {
  so_configs : configs_valid m;
  so_sync : state m = pristine ∨ state m = saved_state → draft m = saved m;
  so_category : categoryIndex (m_view m) < 4;
  so_dialog : dialog_ok (dialog m) }.

Lemma handle_ok data m : settings_ok m → settings_ok (handle data m).2.
Proof.
  intros [Hc Hs Hcat Hd]. pose proof (handle_step data m Hd) as [Esaved Hdraft Hcat' Hd' _].
  constructor; [by apply handle_valid| |by apply Hcat'|by apply Hd'].
  rewrite Esaved. destruct Hdraft as [[-> ->]|[-> | ->]]; [done|by intros [?|?]|done].
Qed.

Lemma refresh_eq c m : saved (refreshActivationStatus c m) = saved m ∧ draft (refreshActivationStatus c m) = draft m ∧
  m_view (refreshActivationStatus c m) = m_view m ∧ dialog (refreshActivationStatus c m) = dialog m.
Proof. unfold refreshActivationStatus. by destruct (opt_activationModel _). Qed.

Lemma begin_ok m : settings_ok m → settings_ok (beginSave m).2.
Proof.
  intros Hm. unfold beginSave. destruct (disposed m); [done|]. destruct Hm as [[Hc Hd] Hs Hcat Hdl].
  simpl. by destruct (parseConfig _); split; try done; intros [?|?].
Qed.

Lemma limit_ok l m : valid_limit l = true → settings_ok m → settings_ok (setAutoCompactTokenLimit l m).
Proof.
  intros Hl Hm. unfold setAutoCompactTokenLimit. destruct (disposed m); [done|]. destruct (negb _); [done|].
  destruct Hm as [[Hc [Hp _]] Hs Hcat Hdl]. split; try done. by intros [?|?].
Qed.

Lemma providers_ok ps m : valid_providers ps → settings_ok m → settings_ok (setActivationProviders ps m).
Proof.
  intros Hps Hm. unfold setActivationProviders. destruct (disposed m); [done|].
  destruct Hm as [[Hc [_ Hk]] Hs Hcat Hdl]. split; try done. by intros [?|?].
Qed.

Lemma step_settings_ok op m : op_ok op → settings_ok m → settings_ok (step op m).
Proof.
  intros Hop Hm. pose proof Hm as [[Hc Hd] Hs Hcat Hdl].
  destruct op as [data| |c|text s|l|ps|c| |w|]; cbn [settings_step].
  - by apply handle_ok.
  - by apply begin_ok.
  - unfold markSaved. destruct (disposed m); [done|].
    destruct (refresh_eq c (set_configs c c m)) as (E1 & E2 & E3 & E4).
    by split; [split|..]; simpl; rewrite ?E1, ?E2, ?E3, ?E4.
  - unfold markError. destruct (disposed m); [done|]. split; try done. simpl.
    destruct Hop as [-> | ->]; by intros [?|?].
  - by apply limit_ok.
  - by apply providers_ok.
  - unfold replaceWithSaved. destruct (disposed m); [done|].
    destruct (refresh_eq c (set_configs c c m)) as (E1 & E2 & E3 & E4).
    by split; [split|..]; simpl; rewrite ?E1, ?E2, ?E3, ?E4.
  - unfold applyDefaultsToDraft. destruct (disposed m); [done|]. split; try done.
    + split; [done|apply valid_default_config].
    + by intros [?|?].
  - by split.
  - by split.
Qed.

Lemma new_ok c o : valid_config c → settings_ok (new_settings c o).
Proof. intros Hc. split; try done. simpl. lia. Qed.

Lemma run_settings_ok ops m : Forall op_ok ops → settings_ok m → settings_ok (run ops m).
Proof.
  intros Hops. revert m; induction Hops as [|op ops Hop _ IH]; intros m Hm; [done|]. simpl.
  by apply IH, step_settings_ok.
Qed.
End facts.

(** ** Lines *)

Definition fits (w : Z) (l : string) : Prop := (len l ≤ Z.max 0 w)%Z.

Lemma Forall_imap {A B} (P : B → Prop) (f : nat → A → B) l : (∀ i x, P (f i x)) → Forall P (imap f l).
Proof.
  revert f; induction l as [|x l IH]; intros f Hf; constructor; [apply Hf|]. apply IH. intros i y. apply Hf.
Qed.

Lemma fits_line s w : fits w (fitLine s w).
Proof. apply fitLine_bound. Qed.
Lemma fits_empty w : fits w "".
Proof. unfold fits, len. simpl. lia. Qed.
Lemma fits_wrapped s w : Forall (fits w) (wrapText s w).
Proof. apply wrapText_bound. Qed.
#[local] Hint Resolve fits_line fits_empty fits_wrapped : core.

Lemma choice_lines_fit title text choices f line w : Forall (fits w) (choice_lines title text choices f line w).
Proof.
  unfold choice_lines.
  repeat first [apply Forall_app; split|apply Forall_cons; split|apply Forall_nil]; auto.
  apply Forall_imap. auto.
Qed.

Lemma lines_fit number_text m w : Forall (fits w) (lines number_text m w).1.
Proof.
  unfold lines. cbn [fst]. destruct (disposed _).
  { repeat constructor. apply fits_line. }
  destruct (negb _).
  - unfold dialogLines. destruct (dialog _); [constructor|apply choice_lines_fit..|].
    apply Forall_fmap, Forall_forall. intros l _. apply fits_line.
  - apply Forall_fmap, Forall_forall. intros l _. apply fits_line.
Qed.

(** C31: Whatever keys are pressed and whatever checked values and results of
    saves come in between, a draft of a valid configuration stays valid, so
    that saving it is never rejected by the parser; in the states [pristine]
    and [saved] the draft is the saved configuration; category and dialog
    choice stay in range, and no line is longer than the width; and a key
    closes the dialog only when nothing is unsaved, unless a save is in
    progress or has failed. *)
Theorem settings_draft_is_sound number_text parseTuiKey config o ops :
  valid_config config → Forall op_ok ops →
  let m := settings_run number_text parseTuiKey ops (new_settings config o) in
  (disposed m = false → (beginSave m).1 = Ret (draft m)) ∧
  (state m = pristine ∨ state m = saved_state → draft m = saved m) ∧
  categoryIndex (m_view m) < length SETTINGS_CATEGORIES ∧ dialog_ok (dialog m) ∧
  (∀ w, Forall (fits w) (lines number_text m w).1) ∧
  ∀ data, (handleKey number_text parseTuiKey data m).1 = effect_close →
    draft (handleKey number_text parseTuiKey data m).2 = saved (handleKey number_text parseTuiKey data m).2 ∨
    state m = validating ∨ state m = saving ∨ state m = validation_error ∨ state m = write_error.
Proof.
  intros Hc Hops m. assert (settings_ok m) as [[Hs Hd] Hsync Hcat Hdl]
    by (apply run_settings_ok; [done|by apply new_ok]).
  split_and!; try done.
  - intros Hdis. unfold beginSave. rewrite Hdis. cbn [draft set_state].
    by rewrite (parseConfig_value _ Hd).
  - intros w. apply lines_fit.
  - intros data. by apply handle_close.
Qed.

(** ** Examples *)

Definition plain_key (data : string) : option string :=
  if String.eqb data "" then None else Some data.
Definition example_options : SettingsModelOptions := {|
  baseline := "0"; opt_provider := "openai-codex"; opt_model := "gpt"; bridge := "protocol v8";
  opt_activationModel := None; opt_activationStatus := None; opt_capabilities := None;
  disabledReasons := []; opt_modelLimit := None |}.
Definition example_run (ops : list settings_op) : SettingsModel :=
  settings_run (λ _, "") plain_key ops (new_settings createDefaultConfig example_options).
Definition press (keys : list string) : list settings_op := op_key <$> keys.

(** Turning the status bar off and saving, until the save is answered. *)
Definition save_status_off : list settings_op :=
  press ["down"; "down"; "down"; "down"; "down"; "space"; "ctrl+s"] ++ [op_begin_save].

Lemma settings_draft_is_sound_witness :
  (beginSave (example_run save_status_off)).1 = Ret (draft (example_run save_status_off)) ∧
  status (ui (draft (example_run save_status_off))) = false.
Proof.
  split; [|vm_compute; reflexivity].
  refine (proj1 (settings_draft_is_sound (λ _, "") plain_key createDefaultConfig example_options
    save_status_off valid_default_config _) eq_refl).
  repeat (apply List.Forall_cons; [exact I|]). apply List.Forall_nil.
Defined.

(** After a save that failed, escape closes the dialog and drops the draft:
    it is not asked for, as it is when the state is [dirty]. *)
Lemma failed_save_closes_without_asking :
  let m := example_run (save_status_off ++ [op_error "Codex settings could not be saved" write_error]) in
  draft m ≠ saved m ∧ handleKey (λ _, "") plain_key "escape" m = (effect_close, m).
Proof. split; [vm_compute; discriminate|vm_compute; reflexivity]. Qed.

(** An edit made while a save is in progress is replaced by what was saved. *)
Lemma edits_during_a_save_are_lost :
  let editing := example_run (save_status_off ++ press ["space"]) in
  let m := markSaved (draft (example_run save_status_off)) editing in
  status (ui (draft editing)) = true ∧ state editing = dirty ∧
  status (ui (draft m)) = false ∧ state m = saved_state.
Proof. vm_compute. done. Qed.

(** Choosing a shorter category on a narrow terminal keeps the focus, which is
    then past the last row when the terminal is widened. *)
Lemma narrow_category_keeps_focus :
  let m := example_run (press ["down"; "down"; "down"; "down"; "down"; "down"] ++ [op_lines 50] ++
                        press ["down"] ++ [op_lines 80]) in
  category m = Tools ∧ focusedRow (λ _, "") m = None.
Proof. vm_compute. done. Qed.
