(* ===== verification/Runtime.v ===== *)
(** * Runtime

    [src/src/infrastructure/codex-bridge/runtime.ts] ([BundledCodexRuntime]):
    the calls of the application become requests of one bridge process, which
    is opened on the first call, shared by the calls that wait for it, dropped
    when it has failed, and shut down with the session.

    A call is synchronous up to an [await] and is kept as a task while it
    waits.  The events of [runtime_step] are the calls of the application and
    what the awaited promises deliver, in any order.  The [n]-th call of
    [openBridge] and the client it gives are both named [n]; what a client does
    with a request is [BridgeClient]'s. *)

From S2P Require Import Prelude Config Capability Compaction EffectiveCapabilities.
From S2P Require Import Connection Dispatch Tools BridgeClient.

(** ** Calls and their requests *)

Inductive runtime_error :=
| client_error (e : ClientError)       (* of the client *)
| open_error (message : string)        (* the bridge could not be opened *)
| runtime_failure (message : string).  (* an [Error] of the runtime *)

Record ResponseOptions := {
  ro_connection : CodexProviderConnection;
  ro_request : jsval;
  ro_transportMode : TransportMode;
  ro_providerSupportsWebsockets : bool;
  ro_remoteCompactionV2Context : option (string * option string) }.

Inductive call :=
| createResponse (o : ResponseOptions)
| compact (o : ResponseOptions) (implementation : CompactionImplementation)
| estimateContext (model instructions : string) (input : list jsval) (baseline : option (jsnum * jsnum))
| readDiagnostics
| resolveModel (modelId : string)
| resolveTools (params : jsval)
| executeTool (input : ToolsExecuteParamsInput) (connection : option CodexProviderConnection).

Definition context_value (c : string * option string) : jsval :=
  VObj (("sessionId", VStr c.1) :: optional_field "compactionTrigger" VStr c.2).
Definition baseline_value (b : jsnum * jsnum) : jsval :=
  VObj [("totalTokens", VNum b.1); ("minimumModelGeneratedIndex", VNum b.2)].

Definition response_params (o : ResponseOptions) (implementation : list (string * jsval)) : jsval :=
  VObj ([("connection", connection_value (ro_connection o)); ("request", ro_request o)] ++ implementation ++
        [("transportMode", lit (ro_transportMode o));
         ("providerSupportsWebsockets", VBool (ro_providerSupportsWebsockets o))] ++
        optional_field "remoteCompactionV2Context" context_value (ro_remoteCompactionV2Context o)).

Definition request_of (c : call) : string * jsval :=
  match c with
  | createResponse o => ("responses.create", response_params o [])
  | compact o implementation =>
      ("responses.compact",
       response_params o [("implementation", implementation_value (Some implementation))])
  | estimateContext model instructions input baseline =>
      ("responses.estimate_context",
       VObj ([("model", VStr model); ("instructions", VStr instructions); ("input", VArr input)] ++
             optional_field "baseline" baseline_value baseline))
  | readDiagnostics => ("diagnostics.read", VObj [])
  | resolveModel modelId => ("models.resolve", VObj [("modelId", VStr modelId)])
  | resolveTools params => ("tools.resolve", params)
  | executeTool input connection => ("tools.execute", VObj (execute_params input connection))
  end.

(** ** Replies and what the calls make of them *)

Record BridgeResult := { br_status : string; br_result : jsval }.

Definition ESTIMATE_KEYS : list string :=
  ["activeContextTokens"; "fullEstimatedTokens"; "suffixEstimatedTokens"; "accountingSource";
   "autoCompactTokenLimit"; "contextWindow"].
Definition COUNT_KEYS : list string :=
  ["activeContextTokens"; "fullEstimatedTokens"; "suffixEstimatedTokens"; "contextWindow"].

Definition is_count (v : jsval) : bool :=
  match v with VNum n => is_safe_integer n && negb (num_ltb n 0%Z) | _ => false end.
Definition is_limit (v : jsval) : bool :=
  match v with
  | VNull => true
  | VNum n => is_safe_integer n && negb (num_leb n 0%Z)
  | _ => false
  end.
Definition is_source (v : jsval) : bool :=
  match v with
  | VStr s => String.eqb s "server_usage_plus_suffix" || String.eqb s "full_estimate"
  | _ => false
  end.

Definition decodeContextEstimate (value : jsval) : outcome runtime_error jsval :=
  let invalid := runtime_failure "Native context estimate is invalid" in
  match as_record value with
  | None => Throw invalid
  | Some fs =>
      guard_throw ((length (keys fs) =? length ESTIMATE_KEYS)%nat &&
                   forallb (λ k, js_elem k (keys fs)) ESTIMATE_KEYS) invalid;;
      guard_throw (forallb (λ k, is_count (field fs k)) COUNT_KEYS) invalid;;
      guard_throw (is_limit (field fs "autoCompactTokenLimit")) invalid;;
      guard_throw (is_source (field fs "accountingSource")) invalid;;
      Ret value
  end.

Definition is_completed (r : BridgeResult) : bool := String.eqb (br_status r) "completed".

Definition completed (r : BridgeResult) (message : string) : outcome runtime_error jsval :=
  guard_throw (is_completed r) (runtime_failure message);; Ret (br_result r).

Definition decode (c : call) (r : BridgeResult) : outcome runtime_error jsval :=
  match c with
  | createResponse _ | executeTool _ _ =>
      Ret (VObj [("status", VStr (br_status r)); ("result", br_result r)])
  | compact _ _ =>
      Ret (if is_completed r then VObj [("status", VStr "completed"); ("result", br_result r)]
           else VObj [("status", VStr (br_status r))])
  | estimateContext _ _ _ _ =>
      result ← completed r "Native context estimation did not complete"; decodeContextEstimate result
  | readDiagnostics => completed r "Native diagnostics did not complete"
  | resolveModel _ => completed r "Native model metadata resolution did not complete"
  | resolveTools _ => completed r "Native tool surface resolution did not complete"
  end.

Definition answer (c : call) (reply : outcome ClientError BridgeResult) : outcome runtime_error jsval :=
  match reply with Ret r => decode c r | Throw e => Throw (client_error e) end.

(** ** State *)

Inductive open_state := open_pending | opened | open_failed (message : string).

(** Where a call waits: as the one that opened the bridge, as one that joined
    it, with the client, or for the reply. *)
Inductive stage := opening (n : nat) | joining (n : nat) | connected (n : nat) | requesting (n : nat).

Record pending_call := { pc_call : call; pc_stage : stage }.

(** The fields of the class. *)
Record runtime := {
  rt_client : option nat;
  rt_connecting : option nat;
  rt_models : gmap string jsval }.

(** [opens] and [dead] are the world's: how the calls of [openBridge] ended,
    and the clients that are no longer ready.  [sent], [stopped], [replies] and
    [results] record what happened. *)
Record state := {
  rt : runtime;
  opens : list open_state;
  dead : gset nat;
  calls : list pending_call;
  sent : list (nat * call);
  stopped : list nat;
  replies : list (nat * call * outcome ClientError BridgeResult);
  results : list (call * outcome runtime_error jsval) }.

Definition new_runtime : state :=
  {| rt := {| rt_client := None; rt_connecting := None; rt_models := ∅ |};
     opens := []; dead := ∅; calls := []; sent := []; stopped := []; replies := []; results := [] |}.

Definition on_rt (f : runtime → runtime) (s : state) : state :=
  {| rt := f (rt s); opens := opens s; dead := dead s; calls := calls s; sent := sent s;
     stopped := stopped s; replies := replies s; results := results s |}.
Definition on_opens (f : list open_state → list open_state) (s : state) : state :=
  {| rt := rt s; opens := f (opens s); dead := dead s; calls := calls s; sent := sent s;
     stopped := stopped s; replies := replies s; results := results s |}.
Definition on_dead (f : gset nat → gset nat) (s : state) : state :=
  {| rt := rt s; opens := opens s; dead := f (dead s); calls := calls s; sent := sent s;
     stopped := stopped s; replies := replies s; results := results s |}.
Definition on_calls (f : list pending_call → list pending_call) (s : state) : state :=
  {| rt := rt s; opens := opens s; dead := dead s; calls := f (calls s); sent := sent s;
     stopped := stopped s; replies := replies s; results := results s |}.
Definition record_sent (x : nat * call) (s : state) : state :=
  {| rt := rt s; opens := opens s; dead := dead s; calls := calls s; sent := sent s ++ [x];
     stopped := stopped s; replies := replies s; results := results s |}.
Definition record_stopped (n : nat) (s : state) : state :=
  {| rt := rt s; opens := opens s; dead := dead s; calls := calls s; sent := sent s;
     stopped := stopped s ++ [n]; replies := replies s; results := results s |}.
Definition record_reply (x : nat * call * outcome ClientError BridgeResult) (s : state) : state :=
  {| rt := rt s; opens := opens s; dead := dead s; calls := calls s; sent := sent s;
     stopped := stopped s; replies := replies s ++ [x]; results := results s |}.
Definition end_call (c : call) (r : outcome runtime_error jsval) (s : state) : state :=
  {| rt := rt s; opens := opens s; dead := dead s; calls := calls s; sent := sent s;
     stopped := stopped s; replies := replies s; results := results s ++ [(c, r)] |}.

Definition set_client (n : nat) (r : runtime) : runtime :=
  {| rt_client := Some n; rt_connecting := rt_connecting r; rt_models := rt_models r |}.
Definition set_connecting (p : option nat) (r : runtime) : runtime :=
  {| rt_client := rt_client r; rt_connecting := p; rt_models := rt_models r |}.
Definition set_model (modelId : string) (v : jsval) (r : runtime) : runtime :=
  {| rt_client := rt_client r; rt_connecting := rt_connecting r;
     rt_models := <[modelId := v]> (rt_models r) |}.

(** ** Connections *)

Definition forgetClient (s : state) : state :=
  on_rt (λ _, {| rt_client := None; rt_connecting := None; rt_models := ∅ |}) s.

(** [client.isReady]. *)
Definition is_ready (n : nat) (s : state) : bool :=
  match opens s !! n with Some opened => bool_decide (n ∉ dead s) | _ => false end.

Definition wait_at (c : call) (w : stage) (s : state) : state :=
  on_calls (λ l, l ++ [{| pc_call := c; pc_stage := w |}]) s.

(** [#connect] up to its first [await]. *)
Definition connect (c : call) (s : state) : state :=
  let s := match rt_client (rt s) with
           | Some n => if is_ready n s then s else forgetClient s
           | None => s end in
  match rt_client (rt s), rt_connecting (rt s) with
  | Some n, _ => wait_at c (connected n) s
  | None, Some n => wait_at c (joining n) s
  | None, None =>
      let n := length (opens s) in
      wait_at c (opening n) (on_rt (set_connecting (Some n)) (on_opens (λ l, l ++ [open_pending]) s))
  end.

(** The rest of [#connect], for the call that opened the bridge and for one
    that joined it; [None] while the promise is pending. *)
Definition opening_done (c : call) (n : nat) (s : state) : option state :=
  match opens s !! n with
  | Some opened => Some (wait_at c (connected n) (on_rt (λ r, set_connecting None (set_client n r)) s))
  | Some (open_failed m) => Some (end_call c (Throw (open_error m)) (on_rt (set_connecting None) s))
  | _ => None
  end.
Definition joining_done (c : call) (n : nat) (s : state) : option state :=
  match opens s !! n with
  | Some opened => Some (if is_ready n s then wait_at c (connected n) s else connect c (forgetClient s))
  | Some (open_failed m) => Some (end_call c (Throw (open_error m)) s)
  | _ => None
  end.

Definition discardClientIfFatal (n : nat) (s : state) : state :=
  if bool_decide (rt_client (rt s) = Some n) && negb (is_ready n s) then forgetClient s else s.

(** ** Calls *)

(** [resolveModel] looks into the cache first. *)
Definition cached (c : call) (s : state) : option jsval :=
  match c with
  | resolveModel modelId =>
      match rt_models (rt s) !! modelId with Some VUndef => None | v => v end
  | _ => None
  end.

Definition start (c : call) (s : state) : state :=
  match cached c s with Some v => end_call c (Ret v) s | None => connect c s end.

Definition remember (c : call) (v : jsval) (s : state) : state :=
  match c with resolveModel modelId => on_rt (set_model modelId v) s | _ => s end.

(** After the [await] of the request. *)
Definition replied (c : call) (n : nat) (reply : outcome ClientError BridgeResult) (s : state) : state :=
  let s := record_reply (n, c, reply) s in
  match answer c reply with
  | Ret v => end_call c (Ret v) (remember c v s)
  | Throw e => end_call c (Throw e) (discardClientIfFatal n s)
  end.

Definition shutdown (s : state) : state :=
  match rt_client (rt s) with
  | Some n => record_stopped n (forgetClient s)
  | None => forgetClient s
  end.

(** ** Events *)

Inductive runtime_event :=
| ev_call (c : call)
| ev_opened (n : nat)
| ev_open_failed (n : nat) (message : string)
| ev_died (n : nat)
| ev_resume (i : nat)
| ev_reply (i : nat) (reply : outcome ClientError BridgeResult)
| ev_shutdown.

Definition settle_open (n : nat) (o : open_state) (s : state) : state :=
  match opens s !! n with
  | Some open_pending => on_opens (<[n := o]>) s
  | _ => s
  end.

(** Task [i] leaves its [await] when what it waits for is there. *)
Definition resume (p : pending_call) (s : state) : option state :=
  let c := pc_call p in
  match pc_stage p with
  | opening n => opening_done c n s
  | joining n => joining_done c n s
  | connected n => Some (wait_at c (requesting n) (record_sent (n, c) s))
  | requesting _ => None
  end.

Definition at_task (i : nat) (k : pending_call → state → option state) (s : state) : state :=
  match calls s !! i with
  | Some p => default s (k p (on_calls (delete i) s))
  | None => s
  end.

Definition runtime_step (e : runtime_event) (s : state) : state :=
  match e with
  | ev_call c => start c s
  | ev_opened n => settle_open n opened s
  | ev_open_failed n m => settle_open n (open_failed m) s
  | ev_died n => on_dead (λ d, {[n]} ∪ d) s
  | ev_resume i => at_task i resume s
  | ev_reply i reply => at_task i (λ p s, match pc_stage p with
      | requesting n => Some (replied (pc_call p) n reply s)
      | _ => None end) s
  | ev_shutdown => shutdown s
  end.

Definition runtime_run (events : list runtime_event) (s : state) : state :=
  fold_left (λ s e, runtime_step e s) events s.

(** ** Approvals *)

Inductive BridgeApprovalDecision := allow_once | allow_session | decline | cancel.

(** When the signal of the call is aborted, if it is. *)
Inductive abort_point := at_entry | during_handler | after_handler | during_decision.

Record approval_world := {
  aw_abort : option abort_point;
  (** [onApproval]: [None] when it is not given or returns [undefined]. *)
  aw_handler : option (outcome runtime_error BridgeApprovalDecision);
  (** How [client.decideApproval] ends. *)
  aw_decide : outcome ClientError unit }.

Definition abort_rank (p : abort_point) : nat :=
  match p with at_entry => 0 | during_handler => 1 | after_handler => 2 | during_decision => 3 end.
(** [isSignalAborted(options.signal)] at a point. *)
Definition isSignalAborted (w : approval_world) (now : abort_point) : bool :=
  match aw_abort w with Some p => (abort_rank p <=? abort_rank now)%nat | None => false end.

Definition isExpiredApprovalError (error : ClientError) : bool :=
  match error with
  | BridgeRemoteError e => match field (default [] (as_record e)) "code" with
      | VStr code => String.eqb code "unknown_approval" | _ => false end
  | BridgeConnectionError protocol_failure => true
  | _ => false
  end.

Definition isAbortError (error : runtime_error) : bool :=
  match error with client_error AbortError => true | _ => false end.

(** [raceWithAbort]: an abort while the handler works wins. *)
Definition raceWithAbort (w : approval_world) : outcome runtime_error BridgeApprovalDecision :=
  if isSignalAborted w during_handler then Throw (client_error AbortError)
  else default (Ret decline) (aw_handler w).

(** The decision that is sent for the approval, if any, and how the handler of
    the request ends. *)
Definition handleApprovalRequest (w : approval_world)
    : option BridgeApprovalDecision * outcome runtime_error unit :=
  if isSignalAborted w at_entry then (None, Ret tt) else
  match raceWithAbort w with
  | Throw e => (None, if isAbortError e || isSignalAborted w after_handler then Ret tt else Throw e)
  | Ret decision =>
      if isSignalAborted w after_handler then (None, Ret tt) else
      (Some decision, match aw_decide w with
         | Ret _ => Ret tt
         | Throw e => if isExpiredApprovalError e || isSignalAborted w during_decision then Ret tt
                      else Throw (client_error e)
         end)
  end.
