(* ===== verification/RuntimeFacts.v ===== *)
(** * RuntimeFacts

    Facts of [Runtime]: every call ends at most once, with the answer of the
    bridge it was sent to; at most one bridge is alive while the session is
    not shut down in the middle of a connection; approvals fail closed. *)

From S2P Require Import Prelude Config Capability Compaction EffectiveCapabilities.
From S2P Require Import Connection Dispatch Tools BridgeClient Runtime.

Arguments connect : simpl never.
Arguments decode : simpl never.

(** ** Reading the state *)

Definition is_open (s : state) (n : nat) : Prop := opens s !! n = Some opened.

(** The calls that ended or wait. *)
Definition accounted (s : state) : list call := (results s).*1 ++ (pc_call <$> calls s).

(** Where a result may come from: the bridge failed to open, or it replied. *)
Definition origin (s : state) (c : call) (r : outcome runtime_error jsval) : Prop :=
  (∃ m, r = Throw (open_error m) ∧ open_failed m ∈ opens s) ∨
  (∃ n reply, (n, c, reply) ∈ replies s ∧ r = answer c reply).

Definition stage_ok (s : state) (p : pending_call) : Prop :=
  match pc_stage p with
  | connected n => is_open s n
  | requesting n => (n, pc_call p) ∈ sent s
  | _ => True
  end.

Record facts (s : state) : Prop := {
  f_client : ∀ n, rt_client (rt s) = Some n → is_open s n;
  f_calls : ∀ p, p ∈ calls s → stage_ok s p;
  f_sent : ∀ n c, (n, c) ∈ sent s → is_open s n;
  f_replies : ∀ n c r, (n, c, r) ∈ replies s → (n, c) ∈ sent s;
  f_models : ∀ modelId v, rt_models (rt s) !! modelId = Some v → origin s (resolveModel modelId) (Ret v);
  f_results : ∀ c r, (c, r) ∈ results s → origin s c r }.

(** What a state knows, a later one knows. *)
Record later (s s' : state) : Prop := {
  l_open : ∀ n, is_open s n → is_open s' n;
  l_failed : ∀ m, open_failed m ∈ opens s → open_failed m ∈ opens s';
  l_sent : ∀ x, x ∈ sent s → x ∈ sent s';
  l_replies : ∀ x, x ∈ replies s → x ∈ replies s' }.

Lemma later_refl s : later s s.
Proof. by split. Qed.

Lemma origin_later s s' c r : later s s' → origin s c r → origin s' c r.
Proof. intros Hl [(m & -> & Hm)|(n & reply & Hin & ->)]; [left|right]; destruct Hl; eauto. Qed.
Lemma stage_ok_later s s' p : later s s' → stage_ok s p → stage_ok s' p.
Proof. intros Hl. unfold stage_ok. destruct (pc_stage p), Hl; eauto. Qed.

Create HintDb runtime.
#[local] Hint Resolve later_refl origin_later stage_ok_later : runtime.

(** A step that changes none of the calls, requests, replies and results keeps
    the facts when the client and the models it leaves are accounted for. *)
Lemma facts_step s s' :
  facts s → later s s' → calls s' = calls s → sent s' = sent s → replies s' = replies s →
  results s' = results s →
  (∀ n, rt_client (rt s') = Some n → is_open s' n) →
  (∀ modelId v, rt_models (rt s') !! modelId = Some v → origin s' (resolveModel modelId) (Ret v)) →
  facts s'.
Proof.
  intros [Hc Hp Hs Hr Hm Hres] Hl Ec Es Er Eres Hc' Hm'. split; try done.
  - rewrite Ec. eauto with runtime.
  - rewrite Es. intros n c Hin. apply (l_open _ _ Hl). eauto.
  - rewrite Er, Es. eauto.
  - rewrite Eres. eauto with runtime.
Qed.

Lemma facts_forget s : facts s → facts (forgetClient s).
Proof. intros Hs. apply (facts_step s); try done. Qed.

Lemma facts_end s c r : facts s → origin s c r → facts (end_call c r s).
Proof.
  intros [Hc Hp Hs Hr Hm Hres] Ho. split; try done; simpl.
  intros c' r' [Hin|[= <- <-]%list_elem_of_singleton]%elem_of_app; [by apply Hres|done].
Qed.

Lemma facts_wait s c w : facts s → stage_ok s {| pc_call := c; pc_stage := w |} → facts (wait_at c w s).
Proof.
  intros [Hc Hp Hs Hr Hm Hres] Hw. split; try done; simpl.
  intros p [Hin| ->%list_elem_of_singleton]%elem_of_app; [by apply Hp|done].
Qed.

Lemma later_new s o r :
  later s (on_rt r (on_opens (λ l, l ++ [o]) s)).
Proof.
  split; simpl; try done.
  - intros n Hn. unfold is_open in *. simpl. by apply lookup_app_l_Some.
  - intros m Hm. apply elem_of_app. by left.
Qed.

Lemma facts_connect c s : facts s → facts (connect c s).
Proof.
  intros Hs. unfold connect.
  set (s' := match rt_client (rt s) with Some n => _ | None => s end).
  assert (Hs' : facts s').
  { unfold s'. destruct (rt_client (rt s)); [|done]. destruct (is_ready _ _); [done|by apply facts_forget]. }
  clearbody s'. destruct (rt_client (rt s')) as [n|] eqn:En.
  { apply facts_wait; [done|]. by apply (f_client _ Hs'). }
  destruct (rt_connecting (rt s')) as [n|] eqn:Ec; [by apply facts_wait|].
  apply facts_wait; [|done]. apply (facts_step s'); try done; [apply later_new|..]; simpl.
  - intros n Hn. by rewrite En in Hn.
  - intros modelId v Hv. apply (origin_later s'); [apply later_new|by apply (f_models _ Hs')].
Qed.

(** A task is taken off the list before it goes on. *)
Lemma facts_take s i p : calls s !! i = Some p → facts s →
  facts (on_calls (delete i) s) ∧ stage_ok (on_calls (delete i) s) p.
Proof.
  intros Hi [Hc Hp Hs Hr Hm Hres]. split; [split; try done|].
  - simpl. intros q Hq. apply Hp. rewrite (delete_Permutation _ _ _ Hi). by right.
  - apply Hp. by eapply list_elem_of_lookup_2.
Qed.

Lemma facts_resume p s s' : facts s → stage_ok s p → resume p s = Some s' → facts s'.
Proof.
  intros Hs Hp. unfold resume. destruct (pc_stage p) as [n|n|n|n] eqn:Ep; unfold stage_ok in Hp; rewrite Ep in Hp.
  - unfold opening_done. destruct (opens s !! n) as [[| |m]|] eqn:Eo; try done; intros [= <-].
    + apply facts_wait; [|done]. apply (facts_step s); try done; simpl.
      * by intros k [= <-].
      * apply (f_models _ Hs).
    + apply facts_end.
      * apply (facts_step s); try done; [apply (f_client _ Hs)|apply (f_models _ Hs)].
      * left. exists m. split; [done|]. by eapply list_elem_of_lookup_2.
  - unfold joining_done. destruct (opens s !! n) as [[| |m]|] eqn:Eo; try done; intros [= <-].
    + destruct (is_ready n s); [by apply facts_wait|]. by apply facts_connect, facts_forget.
    + apply facts_end; [done|]. left. exists m. split; [done|]. by eapply list_elem_of_lookup_2.
  - intros [= <-]. destruct Hs as [Hc Hq Hs Hr Hm Hres]. apply facts_wait; simpl.
    + split; try done; simpl.
      * intros q Hin. specialize (Hq q Hin). unfold stage_ok in *. destruct (pc_stage q); try done.
        apply elem_of_app. by left.
      * intros k c [Hin|[= -> ->]%list_elem_of_singleton]%elem_of_app; [by apply (Hs k c)|done].
      * intros k c r Hin. apply elem_of_app. left. by eapply Hr.
    + apply elem_of_app. right. by apply list_elem_of_singleton.
  - done.
Qed.

Lemma facts_replied c n reply s : facts s → (n, c) ∈ sent s → facts (replied c n reply s).
Proof.
  intros Hs Hn. unfold replied. set (s' := record_reply (n, c, reply) s).
  assert (Hl : later s s').
  { split; try done. simpl. intros x Hx. apply elem_of_app. by left. }
  assert (Ho : origin s' c (answer c reply)).
  { right. exists n, reply. split; [|done]. simpl. apply elem_of_app. right. by apply list_elem_of_singleton. }
  assert (Hs' : facts s').
  { destruct Hs as [Hc Hp Hs Hr Hm Hres]. split; try done.
    - intros k c' r [Hin|[= -> -> ->]%list_elem_of_singleton]%elem_of_app; [by eapply Hr|done].
    - eauto with runtime.
    - eauto with runtime. }
  clearbody s'. destruct (answer c reply) as [v|e].
  - apply facts_end.
    + unfold remember. destruct c; try done. apply (facts_step s'); try done; simpl.
      * apply (f_client _ Hs').
      * intros k w. rewrite lookup_insert_Some. intros [[<- <-]|[_ Hk]]; [done|by apply (f_models _ Hs')].
    + destruct c; done.
  - unfold discardClientIfFatal. case_match; apply facts_end; try done. by apply facts_forget.
Qed.

Lemma facts_settle n o s : facts s → (o = opened ∨ ∃ m, o = open_failed m) → facts (settle_open n o s).
Proof.
  intros Hs Ho. unfold settle_open. destruct (opens s !! n) as [[| |m]|] eqn:En; try done.
  assert (Hl : later s (on_opens <[n:=o]> s)).
  { split; try done; unfold is_open; simpl.
    - intros k Hk. rewrite list_lookup_insert_ne; [done|]. by intros ->; rewrite Hk in En.
    - intros m (k & Hk)%list_elem_of_lookup. apply list_elem_of_lookup. exists k.
      rewrite list_lookup_insert_ne; [done|]. by intros ->; rewrite Hk in En. }
  apply (facts_step s); try done.
  - intros k Hk. apply (l_open _ _ Hl). by apply (f_client _ Hs).
  - intros k v Hk. eapply origin_later; [done|]. by apply (f_models _ Hs).
Qed.

Lemma facts_runtime_step e s : facts s → facts (runtime_step e s).
Proof.
  intros Hs. destruct e as [c|n|n m|n|i|i reply|]; simpl.
  - unfold start, cached. destruct c as [| | | |modelId| |]; try by apply facts_connect.
    destruct (rt_models (rt s) !! modelId) as [v|] eqn:Em; [|by apply facts_connect].
    assert (facts (end_call (resolveModel modelId) (Ret v) s)).
    { apply facts_end; [done|by apply (f_models _ Hs)]. }
    destruct v; try done. by apply facts_connect.
  - apply facts_settle; eauto.
  - apply facts_settle; eauto.
  - apply (facts_step s); try done; [apply (f_client _ Hs)|apply (f_models _ Hs)].
  - unfold at_task. destruct (calls s !! i) as [p|] eqn:Hi; [|done].
    destruct (facts_take s i p Hi Hs) as [Hd Hp]. destruct (resume p _) eqn:Er; simpl; [|done].
    by eapply facts_resume.
  - unfold at_task. destruct (calls s !! i) as [p|] eqn:Hi; [|done].
    destruct (facts_take s i p Hi Hs) as [Hd Hp]. unfold stage_ok in Hp.
    destruct (pc_stage p); simpl; try done. by apply facts_replied.
  - unfold shutdown. destruct (rt_client (rt s)); [|by apply facts_forget].
    apply (facts_step s); try done.
Qed.

Lemma facts_run events s : facts s → facts (runtime_run events s).
Proof.
  revert s. induction events as [|e events IH]; intros s Hs; [done|]. by apply IH, facts_runtime_step.
Qed.

Lemma facts_new : facts new_runtime.
Proof. split; simpl; try done; intros *; rewrite ?elem_of_nil; done. Qed.

(** ** No call is lost or answered twice *)

Definition started (e : runtime_event) : list call := match e with ev_call c => [c] | _ => [] end.

Lemma accounted_wait c w s : accounted (wait_at c w s) ≡ₚ c :: accounted s.
Proof.
  unfold accounted. simpl. rewrite fmap_app, (assoc_L app). simpl. by rewrite Permutation_app_comm.
Qed.
Lemma accounted_end c r s : accounted (end_call c r s) ≡ₚ c :: accounted s.
Proof.
  unfold accounted. simpl. rewrite fmap_app. simpl. rewrite <- (assoc_L app). simpl.
  by rewrite <- Permutation_middle.
Qed.
Lemma accounted_connect c s : accounted (connect c s) ≡ₚ c :: accounted s.
Proof. unfold connect. repeat case_match; by rewrite accounted_wait. Qed.

Lemma accounted_resume p s s' : resume p s = Some s' → accounted s' ≡ₚ pc_call p :: accounted s.
Proof.
  unfold resume, opening_done, joining_done. intros Hr.
  repeat case_match; simplify_eq/=; by rewrite ?accounted_wait, ?accounted_end, ?accounted_connect.
Qed.

Lemma accounted_replied c n reply s : accounted (replied c n reply s) ≡ₚ c :: accounted s.
Proof.
  unfold replied. case_match; rewrite accounted_end.
  - unfold remember. by destruct c.
  - unfold discardClientIfFatal. by case_match.
Qed.

Lemma accounted_take i p s : calls s !! i = Some p →
  accounted s ≡ₚ pc_call p :: accounted (on_calls (delete i) s).
Proof.
  intros Hi. unfold accounted. simpl. rewrite (delete_Permutation _ _ _ Hi) at 1. simpl.
  by rewrite Permutation_middle.
Qed.

Lemma accounted_at i k s :
  (∀ p s0 s', k p s0 = Some s' → accounted s' ≡ₚ pc_call p :: accounted s0) →
  accounted (at_task i k s) ≡ₚ accounted s.
Proof.
  intros Hk. unfold at_task. destruct (calls s !! i) as [p|] eqn:Hi; [|done].
  destruct (k p _) eqn:Ek; simpl; [|done]. by rewrite (Hk _ _ _ Ek), (accounted_take _ _ _ Hi).
Qed.

Lemma accounted_step e s : accounted (runtime_step e s) ≡ₚ accounted s ++ started e.
Proof.
  destruct e as [c|n|n m|n|i|i reply|]; simpl; rewrite ?app_nil_r.
  - rewrite (Permutation_app_comm (accounted s)). simpl. unfold start.
    case_match; [by rewrite accounted_end|by rewrite accounted_connect].
  - unfold settle_open. by repeat case_match.
  - unfold settle_open. by repeat case_match.
  - done.
  - apply accounted_at, accounted_resume.
  - apply accounted_at. intros p s0 s' Hp. case_match; simplify_eq. apply accounted_replied.
  - unfold shutdown. by case_match.
Qed.

Lemma accounted_run events s :
  accounted (runtime_run events s) ≡ₚ accounted s ++ (events ≫= started).
Proof.
  revert s. induction events as [|e events IH]; intros s; simpl; [by rewrite app_nil_r|].
  unfold runtime_run in *. simpl. by rewrite IH, accounted_step, <- (assoc_L app).
Qed.

(** ** Answers *)

Definition count (v : jsval) : Prop := ∃ z, v = VNum (num_of_Z z) ∧ (0 ≤ z ≤ MAX_SAFE_INTEGER)%Z.

(** What [ContextEstimate] declares. *)
Definition estimate_shape (v : jsval) : Prop :=
  ∃ fs, v = VObj fs ∧ keys fs ≡ₚ ESTIMATE_KEYS ∧
    (∀ k, k ∈ COUNT_KEYS → count (field fs k)) ∧
    (field fs "autoCompactTokenLimit" = VNull ∨
     (count (field fs "autoCompactTokenLimit") ∧
      field fs "autoCompactTokenLimit" ≠ VNum (num_of_Z 0))) ∧
    (field fs "accountingSource" = VStr "server_usage_plus_suffix" ∨
     field fs "accountingSource" = VStr "full_estimate").

Lemma is_count_iff v : is_count v = true ↔ count v.
Proof.
  unfold is_count, count. split.
  - destruct v as [| | |n| | | |]; try done.
    intros [(z & -> & Hz)%is_safe_integer_spec Hn%negb_true_iff]%andb_true_iff.
    rewrite num_ltb_Z in Hn. apply bool_decide_eq_false in Hn. exists z. split; [done|lia].
  - intros (z & -> & Hz). apply andb_true_iff. split.
    + apply is_safe_integer_spec. exists z. split; [done|lia].
    + rewrite num_ltb_Z, negb_true_iff. apply bool_decide_eq_false. lia.
Qed.

Lemma is_limit_iff v : is_limit v = true ↔ v = VNull ∨ (count v ∧ v ≠ VNum (num_of_Z 0)).
Proof.
  unfold is_limit, count. split.
  - destruct v as [| | |n| | | |]; try done; [by left|].
    intros [(z & -> & Hz)%is_safe_integer_spec Hn%negb_true_iff]%andb_true_iff.
    rewrite num_leb_Z in Hn. apply bool_decide_eq_false in Hn. right. split.
    + exists z. split; [done|lia].
    + intros [= ->]. lia.
  - intros [-> | [(z & -> & Hz) Hne]]; [done|]. apply andb_true_iff. split.
    + apply is_safe_integer_spec. exists z. split; [done|lia].
    + rewrite num_leb_Z, negb_true_iff. apply bool_decide_eq_false. intros ?.
      apply Hne. do 2 f_equal. lia.
Qed.

Lemma key_test_iff l :
  (length l =? length ESTIMATE_KEYS)%nat && forallb (λ k, js_elem k l) ESTIMATE_KEYS = true ↔
  l ≡ₚ ESTIMATE_KEYS.
Proof.
  rewrite andb_true_iff, Nat.eqb_eq, forallb_forall. split.
  - intros [Hl Hk]. symmetry. apply submseteq_length_Permutation; [|lia].
    apply NoDup_submseteq; [by apply (bool_decide_unpack _)|].
    intros k Hin%list_elem_of_In. by apply js_elem_spec, Hk.
  - intros Hp. split; [by apply Permutation_length|].
    intros k Hin%list_elem_of_In. apply js_elem_spec. by rewrite Hp.
Qed.

Lemma guard_then_ret {E A} (b : bool) (e : E) (m : outcome E A) v :
  (guard_throw b e;; m) = Ret v ↔ b = true ∧ m = Ret v.
Proof. destruct b; simpl; naive_solver. Qed.

(** The decoder accepts exactly the estimates, and returns them unchanged. *)
Lemma decodeContextEstimate_iff v w : decodeContextEstimate v = Ret w ↔ v = w ∧ estimate_shape v.
Proof.
  unfold decodeContextEstimate, estimate_shape. destruct (as_record v) as [fs|] eqn:Ev.
  2:{ split; [done|]. intros [_ (fs & -> & _)]. done. }
  assert (v = VObj fs) as -> by (destruct v; naive_solver).
  rewrite !guard_then_ret, key_test_iff, is_limit_iff, forallb_forall.
  assert (Hs : is_source (field fs "accountingSource") = true ↔
    field fs "accountingSource" = VStr "server_usage_plus_suffix" ∨
    field fs "accountingSource" = VStr "full_estimate").
  { unfold is_source. destruct (field fs "accountingSource"); try (split; [done|by intros [|]]).
    rewrite orb_true_iff, !String.eqb_eq. split; intros [|]; naive_solver. }
  rewrite Hs. setoid_rewrite <- list_elem_of_In. setoid_rewrite is_count_iff.
  split.
  - intros (? & ? & ? & ? & [= <-]). split; [done|]. by exists fs.
  - intros [<- (fs' & [= <-] & ?)]. naive_solver.
Qed.

(** C9: whatever the application calls and however the bridges, the clients and
    the replies behave, no call is lost or answered twice; a call that ended got
    the failure to open the bridge, or what its method makes of a reply to its
    own request from a bridge that had opened; and an estimate that is returned
    has the six fields it declares, each in its range. *)
Theorem runtime_answers (events : list runtime_event) :
  let s := runtime_run events new_runtime in
  (results s).*1 ++ (pc_call <$> calls s) ≡ₚ events ≫= started ∧
  (∀ c r, (c, r) ∈ results s →
     (∃ m, r = Throw (open_error m) ∧ open_failed m ∈ opens s) ∨
     (∃ n reply, (n, c, reply) ∈ replies s ∧ (n, c) ∈ sent s ∧ opens s !! n = Some opened ∧
                 r = answer c reply)) ∧
  (∀ model instructions input baseline v,
     (estimateContext model instructions input baseline, Ret v) ∈ results s → estimate_shape v).
Proof.
  intros s. pose proof (facts_run events _ facts_new : facts s) as Hs. split_and!.
  - exact (accounted_run events new_runtime).
  - intros c r [Hf|(n & reply & Hn & ->)]%(f_results _ Hs); [by left|right].
    exists n, reply. pose proof (f_replies _ Hs _ _ _ Hn) as Hsent. split_and!; try done.
    by apply (f_sent _ Hs n c).
  - intros model instructions input baseline v [(m & [=] & _)|(n & [r|e] & Hn & Hv)]%(f_results _ Hs);
      [|done].
    unfold answer, decode in Hv. symmetry in Hv. apply bind_ret_iff in Hv as (w & _ & Hw).
    by apply decodeContextEstimate_iff in Hw as [-> Hw].
Qed.

(** ** One bridge at a time *)

(** A shutdown does not fall into an attempt to connect, and a client is still
    ready when a call that joined its attempt goes on. *)
Definition orderly (e : runtime_event) (s : state) : bool :=
  match e with
  | ev_shutdown => bool_decide (rt_connecting (rt s) = None)
  | ev_resume i => match pc_stage <$> calls s !! i with
      | Some (joining n) => match opens s !! n with Some opened => is_ready n s | _ => true end
      | _ => true end
  | _ => true
  end.
Fixpoint orderly_run (events : list runtime_event) (s : state) : bool :=
  match events with
  | [] => true
  | e :: events => orderly e s && orderly_run events (runtime_step e s)
  end.

Definition opener (p : pending_call) : option nat :=
  match pc_stage p with opening n => Some n | _ => None end.
Definition openers (s : state) : list nat := omap opener (calls s).

Record single (s : state) : Prop := {
  g_client : ∀ n, rt_client (rt s) = Some n →
    rt_connecting (rt s) = None ∧ S n = length (opens s) ∧ opens s !! n = Some opened;
  g_connecting : ∀ n, rt_connecting (rt s) = Some n → S n = length (opens s);
  g_pending : ∀ n, opens s !! n = Some open_pending → rt_connecting (rt s) = Some n;
  g_opened : ∀ n, opens s !! n = Some opened →
    rt_client (rt s) = Some n ∨ rt_connecting (rt s) = Some n ∨ n ∈ dead s ∨ n ∈ stopped s }.

(** The call that opened the bridge is waiting as long as the attempt lasts. *)
Definition attended (s : state) : Prop := openers s ≡ₚ option_list (rt_connecting (rt s)).

Lemma single_frame s s' :
  single s → rt s' = rt s → opens s' = opens s → dead s ⊆ dead s' → stopped s ⊆ stopped s' → single s'.
Proof.
  intros [Hc Hn Hp Ho] Er Eo Hd Hst. split; rewrite Er, ?Eo; try done.
  intros n Hn'. destruct (Ho n Hn') as [?|[?|[?|?]]]; auto.
Qed.

(** [rt_models] does not matter. *)
Lemma single_models s r : rt_client r = rt_client (rt s) → rt_connecting r = rt_connecting (rt s) →
  single s → single (on_rt (λ _, r) s).
Proof. intros E1 E2 [Hc Hn Hp Ho]. split; simpl; rewrite ?E1, ?E2; done. Qed.

Lemma single_forget s : single s → rt_connecting (rt s) = None →
  (∀ n, rt_client (rt s) = Some n → n ∈ dead s ∨ n ∈ stopped s) → single (forgetClient s).
Proof.
  intros [Hc Hn Hp Ho] Ec Hcl. split; simpl; try done.
  - intros n Hn'. specialize (Hp n Hn'). by rewrite Ec in Hp.
  - intros n Hn'. destruct (Ho n Hn') as [?|[He|?]]; auto. by rewrite Ec in He.
Qed.

Lemma single_dead s n : single s → rt_client (rt s) = Some n → is_ready n s = false →
  rt_connecting (rt s) = None ∧ single (forgetClient s).
Proof.
  intros Hs En Hr. destruct (g_client _ Hs n En) as (Ec & _ & Eo). split; [done|].
  apply single_forget; [done..|]. intros k Hk. left. simplify_eq.
  unfold is_ready in Hr. rewrite Eo in Hr. apply bool_decide_eq_false in Hr. by apply dec_stable.
Qed.

Lemma openers_wait c w s : openers (wait_at c w s) =
  openers s ++ match w with opening n => [n] | _ => [] end.
Proof. unfold openers. simpl. rewrite omap_app. by destruct w. Qed.

Lemma single_connect c s : single s → attended s → single (connect c s) ∧ attended (connect c s).
Proof.
  intros Hs Ha. unfold connect.
  set (s' := match rt_client (rt s) with Some n => _ | None => s end).
  assert (Hs' : single s' ∧ attended s').
  { unfold s'. destruct (rt_client (rt s)) as [n|] eqn:En; [|done].
    destruct (is_ready n s) eqn:Er; [done|].
    destruct (single_dead s n Hs En Er) as [Ec Hf]. split; [done|].
    unfold attended in *. by rewrite Ec in Ha. }
  clearbody s'. clear Hs Ha. destruct Hs' as [Hs Ha]. unfold attended in *.
  destruct (rt_client (rt s')) as [n|] eqn:En.
  { rewrite openers_wait, app_nil_r. split; [|done]. by apply (single_frame s'). }
  destruct (rt_connecting (rt s')) as [n|] eqn:Ec.
  { rewrite openers_wait, app_nil_r. change (rt (wait_at _ _ s')) with (rt s'). rewrite Ec.
    split; [|done]. by apply (single_frame s'). }
  rewrite openers_wait. simpl in *. split.
  2:{ change (openers (on_rt _ _)) with (openers s'). by rewrite Ha. }
  split; simpl.
  - intros n Hn. by rewrite En in Hn.
  - intros n [= <-]. rewrite length_app. simpl. lia.
  - intros n [Hn|[Hl [Hz _]%list_lookup_singleton_Some]]%lookup_app_Some.
    + specialize (g_pending _ Hs n Hn). by rewrite Ec.
    + f_equal. lia.
  - intros n [Hn|[_ [_ [=]]%list_lookup_singleton_Some]]%lookup_app_Some.
    destruct (g_opened _ Hs n Hn) as [He|[He|?]]; auto; congruence.
Qed.

Lemma openers_take s i p : calls s !! i = Some p →
  openers s ≡ₚ option_list (opener p) ++ openers (on_calls (delete i) s).
Proof.
  intros Hi. unfold openers at 1. rewrite (delete_Permutation _ _ _ Hi). simpl.
  unfold openers. simpl. by destruct (opener p).
Qed.

(** A call that did not open the bridge leaves the list: nothing changes. *)
Lemma single_take s i p : calls s !! i = Some p → opener p = None → single s → attended s →
  single (on_calls (delete i) s) ∧ attended (on_calls (delete i) s).
Proof.
  intros Hi Hp Hs Ha. split; [by apply (single_frame s)|].
  unfold attended in *. rewrite (openers_take _ _ _ Hi), Hp in Ha. exact Ha.
Qed.

Lemma single_opening s i p n s' : calls s !! i = Some p → pc_stage p = opening n →
  single s → attended s → opening_done (pc_call p) n (on_calls (delete i) s) = Some s' →
  single s' ∧ attended s'.
Proof.
  intros Hi Hp Hs Ha. unfold attended in Ha. rewrite (openers_take _ _ _ Hi) in Ha.
  unfold opener in Ha. rewrite Hp in Ha. simpl in Ha.
  destruct (rt_connecting (rt s)) as [k|] eqn:Ec; simpl in Ha.
  2:{ by apply Permutation_nil_r in Ha. }
  apply Permutation_singleton_r in Ha. injection Ha as <- He.
  pose proof (g_connecting _ Hs _ Ec) as Hn.
  assert (Hcl : rt_client (rt s) = None).
  { destruct (rt_client (rt s)) eqn:E; [|done]. apply (g_client _ Hs) in E as (E & _). congruence. }
  unfold opening_done. simpl. destruct (opens s !! n) as [[| |m]|] eqn:Eo; try done; intros [= <-].
  - unfold attended. rewrite openers_wait, app_nil_r. simpl.
    change (openers (on_rt _ _)) with (openers (on_calls (delete i) s)). rewrite He. split; [|done].
    split; simpl; try done.
    + by intros k [= <-].
    + intros k Hk. pose proof (g_pending _ Hs k Hk). congruence.
    + intros k Hk. destruct (g_opened _ Hs k Hk) as [Hx|[Hx|?]]; [congruence| |auto].
      left. congruence.
  - unfold attended. change (openers (end_call _ _ _)) with (openers (on_calls (delete i) s)).
    rewrite He. split; [|done]. split; simpl; try done.
    + intros k Hk. congruence.
    + intros k Hk. pose proof (g_pending _ Hs k Hk). congruence.
    + intros k Hk. destruct (g_opened _ Hs k Hk) as [Hx|[Hx|?]]; [congruence|congruence|auto].
Qed.

Lemma single_settle n o s : single s → attended s → o ≠ open_pending →
  single (settle_open n o s) ∧ attended (settle_open n o s).
Proof.
  intros Hs Ha Ho. unfold settle_open. destruct (opens s !! n) as [[| |m]|] eqn:En; try done.
  split; [|done]. pose proof (g_pending _ Hs n En) as Hcn. split; simpl; rewrite ?length_insert.
  - intros k Hk. destruct (g_client _ Hs k Hk) as (E1 & E2 & E3). split_and!; try done.
    rewrite list_lookup_insert_ne; [done|]. congruence.
  - apply (g_connecting _ Hs).
  - intros k [(<- & ? & ?)|[_ Hk]]%list_lookup_insert_Some; [done|by apply (g_pending _ Hs)].
  - intros k [(<- & _ & _)|[_ Hk]]%list_lookup_insert_Some; [auto|by apply (g_opened _ Hs)].
Qed.

Lemma single_step e s : orderly e s = true → single s → attended s →
  single (runtime_step e s) ∧ attended (runtime_step e s).
Proof.
  intros He Hs Ha. destruct e as [c|n|n m|n|i|i reply|]; simpl in *.
  - unfold start. case_match; [|by apply single_connect]. split; [|done]. by apply (single_frame s).
  - by apply single_settle.
  - by apply single_settle.
  - split; [|done]. apply (single_frame s); try done. simpl. set_solver.
  - unfold at_task. destruct (calls s !! i) as [p|] eqn:Hi; [|done]. simpl in He.
    unfold resume. destruct (pc_stage p) as [n|n|n|n] eqn:Ep.
    + destruct (opening_done _ _ _) eqn:Eo; [|done]. by eapply single_opening.
    + destruct (single_take s i p Hi) as [Hs' Ha']; try done; [by unfold opener; rewrite Ep|].
      unfold joining_done. simpl. destruct (opens s !! n) as [[| |m]|] eqn:Eo; try done; simpl.
      * change (is_ready n (on_calls _ s)) with (is_ready n s). rewrite He.
        unfold attended. rewrite openers_wait, app_nil_r. split; [|done].
        by apply (single_frame (on_calls (delete i) s)).
      * split; [|done]. by apply (single_frame (on_calls (delete i) s)).
    + destruct (single_take s i p Hi) as [Hs' Ha']; try done; [by unfold opener; rewrite Ep|].
      unfold attended. simpl. rewrite openers_wait, app_nil_r. split; [|done].
      by apply (single_frame (on_calls (delete i) s)).
    + done.
  - unfold at_task. destruct (calls s !! i) as [p|] eqn:Hi; [|done].
    destruct (pc_stage p) as [n|n|n|n] eqn:Ep; simpl; try done.
    destruct (single_take s i p Hi) as [Hs' Ha']; try done; [by unfold opener; rewrite Ep|].
    unfold replied. set (s' := record_reply _ _).
    assert (Hs0 : single s' ∧ attended s').
    { split; [|done]. by apply (single_frame (on_calls (delete i) s)). }
    clearbody s'. clear Hs' Ha' Hs Ha. destruct Hs0 as [Hs Ha].
    destruct (answer (pc_call p) reply) as [v|err].
    + unfold remember. destruct (pc_call p); (split; [|done]).
      5: apply (single_frame (on_rt (set_model modelId v) s')); [|done..]; by apply single_models.
      all: by apply (single_frame s').
    + unfold discardClientIfFatal. case_bool_decide as Hb; simpl.
      2:{ split; [|done]. by apply (single_frame s'). }
      destruct (is_ready n s') eqn:Er; simpl.
      { split; [|done]. by apply (single_frame s'). }
      destruct (single_dead s' n Hs Hb Er) as [Ec Hf].
      split; [by apply (single_frame (forgetClient s'))|].
      unfold attended in *. rewrite Ec in Ha. exact Ha.
  - apply bool_decide_eq_true in He. unfold shutdown.
    assert (Ha' : attended (forgetClient s)) by (unfold attended in *; by rewrite He in Ha).
    destruct (rt_client (rt s)) as [n|] eqn:En.
    + split; [|done]. set (s' := record_stopped n s).
      change (single (forgetClient s')). apply single_forget; [|done|].
      * apply (single_frame s); try done. simpl. intros x Hx. apply elem_of_app. by left.
      * simpl. intros k Hk. right. apply elem_of_app. right. apply list_elem_of_singleton. congruence.
    + split; [|done]. apply single_forget; [done..|]. congruence.
Qed.

Lemma single_run events s : orderly_run events s = true → single s → attended s →
  single (runtime_run events s).
Proof.
  revert s. induction events as [|e events IH]; intros s Ho Hs Ha; [done|].
  apply andb_true_iff in Ho as [He Ho]. destruct (single_step e s He Hs Ha) as [Hs' Ha'].
  by apply IH.
Qed.

Lemma single_new : single new_runtime ∧ attended new_runtime.
Proof. split; [|apply perm_nil]. split; simpl; intros n; by rewrite ?lookup_nil. Qed.

(** in an orderly run a bridge is opened only when every earlier one failed
    to open, is no longer ready, or was shut down; so at most one attempt is
    pending and at most one bridge is alive, the one all calls share. *)
Theorem one_bridge_at_a_time (events : list runtime_event) :
  orderly_run events new_runtime = true →
  let s := runtime_run events new_runtime in
  (∀ n m, n < m < length (opens s) →
     (∃ message, opens s !! n = Some (open_failed message)) ∨ n ∈ dead s ∨ n ∈ stopped s) ∧
  (∀ n, opens s !! n = Some opened → is_ready n s = true → n ∉ stopped s →
     rt_client (rt s) = Some n ∨ rt_connecting (rt s) = Some n).
Proof.
  intros Ho s. destruct single_new as [Hn Ha].
  pose proof (single_run events _ Ho Hn Ha : single s) as Hs. split.
  - intros n m Hnm. destruct (opens s !! n) as [[| |msg]|] eqn:En; [| |by eauto|].
    + apply (g_pending _ Hs), (g_connecting _ Hs) in En. lia.
    + destruct (g_opened _ Hs n En) as [Hx|[Hx|?]]; [| |auto].
      * apply (g_client _ Hs) in Hx. lia.
      * apply (g_connecting _ Hs) in Hx. lia.
    + apply lookup_ge_None in En. lia.
  - intros n En Hr Hst. destruct (g_opened _ Hs n En) as [?|[?|[Hd|?]]]; auto; [|done].
    unfold is_ready in Hr. rewrite En in Hr. apply bool_decide_eq_true in Hr. done.
Qed.

(** Two calls share the first bridge; it dies, and the next call opens another. *)
Definition reconnect_run : list runtime_event :=
  [ev_call readDiagnostics; ev_call (resolveModel "m"); ev_opened 0; ev_resume 0; ev_resume 0;
   ev_resume 0; ev_resume 0; ev_died 0;
   ev_reply 0 (Throw (BridgeConnectionError connection_closed)); ev_call readDiagnostics;
   ev_opened 1; ev_resume 1].

Lemma one_bridge_at_a_time_witness :
  let s := runtime_run reconnect_run new_runtime in
  length (opens s) = 2 ∧
  ((∃ message, opens s !! 0 = Some (open_failed message)) ∨ 0 ∈ dead s ∨ 0 ∈ stopped s) ∧
  rt_client (rt s) = Some 1.
Proof.
  split; [vm_compute; reflexivity|]. split; [|vm_compute; reflexivity].
  apply (proj1 (one_bridge_at_a_time reconnect_run ltac:(vm_compute; reflexivity)) 0 1).
  vm_compute. lia.
Defined.

(** Outside orderly runs a bridge outlives the session: [shutdown] finds no
    client while the bridge is being opened, and the call that opened it then
    keeps a client that nothing shuts down. *)
Lemma shutdown_while_connecting_keeps_bridge :
  let s := runtime_run [ev_call readDiagnostics; ev_shutdown; ev_opened 0; ev_resume 0] new_runtime in
  rt_client (rt s) = Some 0 ∧ is_ready 0 s = true ∧ stopped s = [].
Proof. vm_compute. done. Qed.

(** ** Approvals *)

(** the decision sent for a native approval is the handler's own, or
    [decline] when there is none, and only while the call is not aborted; an
    abort sends nothing and ends quietly; a handler that fails sends nothing and
    its error is reported; and an error of the client is reported unless the
    approval had expired or the call was aborted. *)
Theorem approvals_fail_closed (w : approval_world) :
  (∀ d, (handleApprovalRequest w).1 = Some d →
     isSignalAborted w after_handler = false ∧ (aw_handler w = Some (Ret d) ∨ (aw_handler w = None ∧ d = decline))) ∧
  (isSignalAborted w after_handler = true → handleApprovalRequest w = (None, Ret tt)) ∧
  (∀ e, aw_handler w = Some (Throw e) → isSignalAborted w after_handler = false → isAbortError e = false →
     handleApprovalRequest w = (None, Throw e)) ∧
  (∀ e, (handleApprovalRequest w).2 = Throw e → isSignalAborted w after_handler = false ∧
     (aw_handler w = Some (Throw e) ∨
      ∃ x, aw_decide w = Throw x ∧ e = client_error x ∧ isExpiredApprovalError x = false ∧ aw_abort w = None)).
Proof.
  destruct w as [ab h d]. unfold handleApprovalRequest, raceWithAbort, isSignalAborted.
  destruct ab as [[]|], h as [[dec|e]|], d as [[]|x]; simpl; split_and!;
    intros; simplify_eq/=; rewrite ?orb_false_r, ?orb_true_r in *; repeat case_match; simplify_eq/=;
    split_and?; naive_solver.
Qed.
