(* ===== verification/Launch.v ===== *)
(** * Launch

    [src/src/infrastructure/codex-bridge/binary.ts], [identity.ts] and
    [environment.ts]: which executable is launched as the bridge, what is
    verified before it is spawned, and with which environment.

    [path.resolve], the file system and SHA-256 are parameters; a file is read
    as a stream of chunks, or fails. *)

From S2P Require Import Prelude Json Protocol Connection.

(** ** Targets *)

Definition SUPPORTED_NATIVE_TARGETS : list string :=
  ["x86_64-unknown-linux-musl"; "aarch64-unknown-linux-musl"; "x86_64-apple-darwin";
   "aarch64-apple-darwin"; "x86_64-pc-windows-msvc"].

Definition targetByPlatform : list (string * string) :=
  [("linux/x64", "x86_64-unknown-linux-musl"); ("linux/arm64", "aarch64-unknown-linux-musl");
   ("darwin/x64", "x86_64-apple-darwin"); ("darwin/arm64", "aarch64-apple-darwin");
   ("win32/x64", "x86_64-pc-windows-msvc")].

Definition nativeTargetFor (platform architecture : string) : option string :=
  found ← list_find (λ kv, kv.1 = (platform ++ "/" ++ architecture)%string) targetByPlatform;
  Some found.2.2.

(** ** Errors *)

Inductive loader_code :=
| unsupported_target | missing_artifact | invalid_artifact | artifact_tampered
| development_override_required.

Inductive launch_error := BridgeLoaderError (code : loader_code) (message : string).

Definition MISSING := BridgeLoaderError missing_artifact "Packaged codex-bridge artifact is missing".
Definition INVALID := BridgeLoaderError invalid_artifact "Packaged codex-bridge artifact is invalid".
Definition TAMPERED :=
  BridgeLoaderError artifact_tampered "Packaged codex-bridge artifact failed integrity verification".
Definition OVERRIDE :=
  BridgeLoaderError development_override_required
    "Development bridge overrides require allowDevelopmentBuild".

Definition resolveNativeTarget (platform architecture : string) : outcome launch_error string :=
  match nativeTargetFor platform architecture with
  | Some target => Ret target
  | None => Throw (BridgeLoaderError unsupported_target
      ("No codex-bridge binary is available for " ++ platform ++ "/" ++ architecture)%string)
  end.

(** ** The manifest *)

Record NativeArtifactManifest := {
  mf_target : string;
  mf_executable : string;
  mf_executableSize : Z;
  mf_executableSha256 : string;
  mf_projectSourceCommit : string }.

Definition expectedExecutableName (target : string) : string :=
  if String.eqb target "x86_64-pc-windows-msvc" then "codex-bridge.exe" else "codex-bridge".

Definition is_str (s : string) (v : jsval) : bool :=
  match v with VStr t => String.eqb t s | _ => false end.
Definition is_num (n : Z) (v : jsval) : bool :=
  match v with VNum m => num_eqb m n | _ => false end.
Definition hex_text (count : nat) (v : jsval) : option string :=
  match v with VStr t => if is_hex count t then Some t else None | _ => None end.
Definition positive_integer (v : jsval) : option Z :=
  match v with
  | VNum n => match num_integer n with
      | Some z => if bool_decide (z < 1)%Z then None else Some z
      | None => None end
  | _ => None
  end.

(** The fields that are product constants are those of the result too. *)
Definition parseNativeArtifactManifest (value : jsval) (expectedTarget : string)
    : outcome launch_error NativeArtifactManifest :=
  match as_record value with
  | None => Throw INVALID
  | Some record =>
      let executableName := expectedExecutableName expectedTarget in
      match positive_integer (field record "executableSize"),
            hex_text 64 (field record "executableSha256"),
            hex_text 40 (field record "projectSourceCommit") with
      | Some size, Some sha256, Some commit =>
          guard_throw
            (is_num 1 (field record "schemaVersion") &&
             is_str expectedTarget (field record "target") &&
             is_str executableName (field record "executable") &&
             is_num BRIDGE_PROTOCOL_VERSION (field record "bridgeProtocolVersion") &&
             is_str OFFICIAL_CODEX_VERSION (field record "officialCodexVersion") &&
             is_str OFFICIAL_CODEX_TAG (field record "officialCodexTag") &&
             is_str OFFICIAL_SOURCE_COMMIT (field record "officialSourceCommit") &&
             is_str VENDOR_TREE_SHA256 (field record "vendorTreeSha256")) INVALID;;
          Ret {| mf_target := expectedTarget; mf_executable := executableName;
                 mf_executableSize := size; mf_executableSha256 := sha256;
                 mf_projectSourceCommit := commit |}
      | _, _, _ => Throw INVALID
      end
  end.

(** ** The artifact *)

Record ConnectBundledBridgeOptions := {
  bo_packageRoot : string;
  bo_allowDevelopmentBuild : option bool;
  bo_expectedBuildSourceCommit : option string;
  bo_platform : string;
  bo_architecture : string;
  bo_executable : option string;
  bo_buildTarget : option string }.

Section launch.
Context `{JsonText} (resolve : list string → string) (sha256Hex : string → string).
(** [readFile(path, "utf8")], and [createReadStream(path)] to its end. *)
Context (readFile : string → option string) (read_stream : string → option (list string)).

Definition resolveBridgeExecutable (packageRoot target : string) : string :=
  resolve [packageRoot; "native"; "bin"; target; expectedExecutableName target].
Definition resolveBridgeArtifactManifest (packageRoot target : string) : string :=
  resolve [packageRoot; "native"; "bin"; target; "native-artifact.json"].

(** The size is summed and the digest updated chunk by chunk. *)
Definition hashFileSha256 (path : string) : option (Z * string) :=
  chunks ← read_stream path;
  Some (fold_left (λ size chunk, size + Z.of_nat (String.length chunk))%Z chunks 0%Z,
        sha256Hex (String.concat "" chunks)).

Definition verifyPackagedBridgeArtifact (packageRoot target : string)
    : outcome launch_error (string * NativeArtifactManifest) :=
  match readFile (resolveBridgeArtifactManifest packageRoot target) with
  | None => Throw MISSING
  | Some raw =>
      match json_parse raw with
      | None => Throw INVALID
      | Some parsed =>
          manifest ← parseNativeArtifactManifest parsed target;
          let executablePath := resolve [packageRoot; "native"; "bin"; target; mf_executable manifest] in
          match hashFileSha256 executablePath with
          | None => Throw MISSING
          | Some (size, sha256) =>
              guard_throw (Z.eqb size (mf_executableSize manifest) &&
                           String.eqb sha256 (mf_executableSha256 manifest)) TAMPERED;;
              Ret (executablePath, manifest)
          end
      end
  end.

Definition resolveBundledBridgeLaunch (options : ConnectBundledBridgeOptions) (target : string)
    : outcome launch_error (string * option string) :=
  match bo_executable options with
  | Some executable =>
      guard_throw (bool_decide (bo_allowDevelopmentBuild options = Some true)) OVERRIDE;;
      Ret (executable, bo_expectedBuildSourceCommit options)
  | None =>
      verified ← verifyPackagedBridgeArtifact (bo_packageRoot options) target;
      Ret (verified.1, Some (mf_projectSourceCommit verified.2))
  end.

(** What [connectBundledBridge] spawns, the target and the options it gives
    [BridgeClient.connect] for the handshake. *)
Record bridge_launch := {
  bl_executable : string; bl_target : string; bl_handshake : HandshakeVerificationOptions }.

Definition connectBundledBridge (options : ConnectBundledBridgeOptions) : outcome launch_error bridge_launch :=
  target ← match bo_buildTarget options with
           | Some target => Ret target
           | None => resolveNativeTarget (bo_platform options) (bo_architecture options)
           end;
  resolved ← resolveBundledBridgeLaunch options target;
  Ret {| bl_executable := resolved.1; bl_target := target;
         bl_handshake := {| allowDevelopmentBuild := bool_decide (bo_allowDevelopmentBuild options = Some true);
                            expectedBuildSourceCommit := resolved.2 |} |}.

End launch.

(** ** The environment of the child *)

Definition UNIX_CORE_VARIABLES : list string :=
  ["PATH"; "SHELL"; "TMPDIR"; "TEMP"; "TMP"; "HOME"; "LANG"; "LC_ALL"; "LC_CTYPE"; "LOGNAME"; "USER";
   "TZ"; "TERM"; "NO_COLOR"; "COLORTERM"; "FORCE_COLOR"].
Definition WINDOWS_CORE_VARIABLES : list string :=
  ["PATH"; "PATHEXT"; "SHELL"; "COMSPEC"; "SYSTEMROOT"; "SYSTEMDRIVE"; "USERNAME"; "USERDOMAIN";
   "USERPROFILE"; "HOMEDRIVE"; "HOMEPATH"; "PROGRAMFILES"; "PROGRAMFILES(X86)"; "PROGRAMW6432";
   "PROGRAMDATA"; "LOCALAPPDATA"; "APPDATA"; "TEMP"; "TMP"; "TMPDIR"; "POWERSHELL"; "PWSH"; "TZ";
   "TERM"; "NO_COLOR"; "COLORTERM"; "FORCE_COLOR"].
Definition NETWORK_VARIABLES : list string :=
  ["HTTP_PROXY"; "HTTPS_PROXY"; "ALL_PROXY"; "NO_PROXY"; "http_proxy"; "https_proxy"; "all_proxy";
   "no_proxy"; "SSL_CERT_FILE"; "SSL_CERT_DIR"; "CURL_CA_BUNDLE"; "REQUESTS_CA_BUNDLE";
   "NODE_EXTRA_CA_CERTS"].

(** The two alternatives of [CREDENTIAL_NAME], in lower case: words between
    underscores or the ends, and words anywhere. *)
Definition BOUNDED_WORDS : list string :=
  ["apikey"; "api_key"; "api-key"; "accesstoken"; "access_token"; "access-token"; "refreshtoken";
   "refresh_token"; "refresh-token"; "idtoken"; "id_token"; "id-token"; "sessiontoken";
   "session_token"; "session-token"; "auth"; "authorization"; "password"; "secret"; "credential";
   "token"].
Definition ANYWHERE_WORDS : list string := ["key"; "secret"; "token"; "password"; "credential"].

(** [(?:^|_)word(?:_|$)], [boundary] being whether a word may start here. *)
Fixpoint ends_word (word s : string) : bool :=
  match word, s with
  | EmptyString, EmptyString => true
  | EmptyString, String c _ => Ascii.eqb c "_"
  | String a word, String b s => Ascii.eqb a b && ends_word word s
  | String _ _, EmptyString => false
  end.
Fixpoint bounded (word : string) (boundary : bool) (s : string) : bool :=
  (boundary && ends_word word s) ||
  match s with
  | EmptyString => false
  | String c s => bounded word (Ascii.eqb c "_") s
  end.

Definition credential_name (name : string) : bool :=
  let s := to_lower name in
  existsb (λ word, bounded word true s) BOUNDED_WORDS || existsb (λ word, includes word s) ANYWHERE_WORDS.

Definition NEVER_CREDENTIALS : list string :=
  ["SSL_CERT_FILE"; "SSL_CERT_DIR"; "CURL_CA_BUNDLE"; "REQUESTS_CA_BUNDLE"; "NODE_EXTRA_CA_CERTS";
   "PATHEXT"; "PATH"; "TERM"; "TMPDIR"; "TEMP"; "TMP"].

Definition isCredentialVariable (name : string) : bool :=
  if js_elem (to_upper name) NEVER_CREDENTIALS then false else credential_name name.

Definition isAllowlisted (name : string) (allowlist : list string) : bool :=
  js_elem name allowlist || existsb (λ allowed, String.eqb (to_upper allowed) (to_upper name)) allowlist.

Definition isProxyVariable (name : string) : bool :=
  js_elem (to_lower name) ["http_proxy"; "https_proxy"; "all_proxy"].

(** What follows the first [sub], and what precedes the first of [/?#]. *)
Fixpoint after_first (sub s : string) : option string :=
  if String.prefix sub s then Some (substring (String.length sub) (String.length s) s)
  else match s with EmptyString => None | String _ s => after_first sub s end.
Fixpoint before_delimiter (s : string) : string :=
  match s with
  | EmptyString => EmptyString
  | String c s =>
      if Ascii.eqb c "/" || Ascii.eqb c "?" || Ascii.eqb c "#" then EmptyString
      else String c (before_delimiter s)
  end.

Definition proxyAuthority (value : string) : string :=
  before_delimiter (default value (after_first "://" value)).

Section environment.
Context `{UrlApi}.

Definition hasProxyCredentials (value : string) : bool :=
  includes "@" (proxyAuthority value) ||
  match parse_url value with
  | Some proxy => negb (String.eqb (username proxy) "") || negb (String.eqb (password proxy) "")
  | None => includes "@" value
  end.

Definition child_allowlist (platform : string) : list string :=
  (if String.eqb platform "win32" then WINDOWS_CORE_VARIABLES else UNIX_CORE_VARIABLES) ++ NETWORK_VARIABLES.

Fixpoint child_variables (allowlist : list string) (entries : list (string * option string))
    : outcome string (list (string * string)) :=
  match entries with
  | [] => Ret []
  | (name, None) :: entries => child_variables allowlist entries
  | (name, Some value) :: entries =>
      if negb (isAllowlisted name allowlist) || isCredentialVariable name
      then child_variables allowlist entries
      else if isProxyVariable name && hasProxyCredentials value
      then Throw "Credential-bearing proxy URLs are not allowed"
      else rest ← child_variables allowlist entries; Ret ((name, value) :: rest)
  end.

Definition createBridgeChildEnvironment (source : list (string * option string)) (platform : string)
    : outcome string (list (string * string)) :=
  child_variables (child_allowlist platform) source.

End environment.
