(* ===== verification/LaunchFacts.v ===== *)
(** * LaunchFacts

    Facts of [Launch]: a packaged bridge is spawned only when its manifest
    and its bytes are the expected ones, and the handshake it must then pass
    pins the same build; its environment holds only listed variables. *)

From S2P Require Import Prelude Json Protocol ProtocolFacts Connection Launch.

(** ** The manifest *)

(** A manifest of this product for the target. *)
Definition manifest_ok (value : jsval) (target : string) (m : NativeArtifactManifest) : Prop :=
  ∃ record, value = VObj record ∧
    field record "schemaVersion" = VNum (num_of_Z 1) ∧
    field record "target" = VStr target ∧
    field record "executable" = VStr (expectedExecutableName target) ∧
    field record "bridgeProtocolVersion" = VNum (num_of_Z BRIDGE_PROTOCOL_VERSION) ∧
    field record "officialCodexVersion" = VStr OFFICIAL_CODEX_VERSION ∧
    field record "officialCodexTag" = VStr OFFICIAL_CODEX_TAG ∧
    field record "officialSourceCommit" = VStr OFFICIAL_SOURCE_COMMIT ∧
    field record "vendorTreeSha256" = VStr VENDOR_TREE_SHA256 ∧
    field record "executableSize" = VNum (num_of_Z (mf_executableSize m)) ∧
    field record "executableSha256" = VStr (mf_executableSha256 m) ∧
    field record "projectSourceCommit" = VStr (mf_projectSourceCommit m) ∧
    (1 ≤ mf_executableSize m)%Z ∧ is_hex 64 (mf_executableSha256 m) = true ∧
    is_hex 40 (mf_projectSourceCommit m) = true ∧
    mf_target m = target ∧ mf_executable m = expectedExecutableName target.

Lemma is_str_iff s v : is_str s v = true ↔ v = VStr s.
Proof. destruct v; simpl; try done. rewrite String.eqb_eq. split; [by intros ->|congruence]. Qed.
Lemma is_num_iff n v : is_num n v = true ↔ v = VNum (num_of_Z n).
Proof. destruct v; simpl; try done. rewrite num_eqb_spec_Z. split; [by intros ->|congruence]. Qed.
Lemma hex_text_iff n v t : hex_text n v = Some t ↔ v = VStr t ∧ is_hex n t = true.
Proof.
  destruct v as [| | | |s| | |]; simpl; try (split; [done|by intros []]).
  destruct (is_hex n s) eqn:Hs; split; [by intros [= <-]|by intros [[= <-] _]|done|].
  intros [[= <-] Hs']. congruence.
Qed.
Lemma positive_integer_iff v z : positive_integer v = Some z ↔ v = VNum (num_of_Z z) ∧ (1 ≤ z)%Z.
Proof.
  unfold positive_integer. split.
  - destruct v; try done. destruct (num_integer n) as [k|] eqn:En; [|done].
    apply num_integer_Some in En as ->. case_bool_decide; intros [= <-]. split; [done|lia].
  - intros [-> Hz]. rewrite num_integer_Z. by case_bool_decide; [lia|].
Qed.

Lemma parseNativeArtifactManifest_iff v target m :
  parseNativeArtifactManifest v target = Ret m ↔ manifest_ok v target m.
Proof.
  unfold parseNativeArtifactManifest, manifest_ok. split.
  - destruct (as_record v) as [record|] eqn:Ev; [|done].
    assert (v = VObj record) as -> by (destruct v; naive_solver).
    destruct (positive_integer _) as [size|] eqn:E1; [|done].
    destruct (hex_text 64 _) as [sha|] eqn:E2; [|done].
    destruct (hex_text 40 _) as [commit|] eqn:E3; [|done].
    apply positive_integer_iff in E1. apply hex_text_iff in E2, E3.
    destruct (_ && _) eqn:Eb; [|done]. intros [= <-]. exists record. simpl.
    rewrite !andb_true_iff, !is_str_iff, !is_num_iff in Eb. naive_solver.
  - intros (record & -> & H1 & H2 & H3 & H4 & H5 & H6 & H7 & H8 & H9 & H10 & H11 & H12 & H13 & H14 & H15 & H16).
    cbn [as_record]. rewrite (proj2 (positive_integer_iff _ _) (conj H9 H12)).
    rewrite (proj2 (hex_text_iff _ _ _) (conj H10 H13)), (proj2 (hex_text_iff _ _ _) (conj H11 H14)).
    rewrite (proj2 (is_num_iff _ _) H1), (proj2 (is_str_iff _ _) H2), (proj2 (is_str_iff _ _) H3),
      (proj2 (is_num_iff _ _) H4), (proj2 (is_str_iff _ _) H5), (proj2 (is_str_iff _ _) H6),
      (proj2 (is_str_iff _ _) H7), (proj2 (is_str_iff _ _) H8).
    destruct m. simpl in *. by subst.
Qed.

Lemma parse_manifest_throws v target e :
  parseNativeArtifactManifest v target = Throw e → e = INVALID ∧ ∀ m, ¬ manifest_ok v target m.
Proof.
  intros He. split.
  - revert He. unfold parseNativeArtifactManifest. repeat case_match; try congruence.
    destruct (_ && _); simpl; congruence.
  - intros m Hm%parseNativeArtifactManifest_iff. congruence.
Qed.

(** ** The launch *)

(** Summing the chunks measures the file. *)
Lemma chunks_length chunks acc :
  fold_left (λ size chunk, size + Z.of_nat (String.length chunk))%Z chunks acc =
  (acc + Z.of_nat (String.length (String.concat "" chunks)))%Z.
Proof.
  revert acc. induction chunks as [|c chunks IH]; intros acc; cbn [fold_left]; [simpl; lia|].
  rewrite IH. destruct chunks as [|d chunks]; [simpl; lia|].
  change (String.concat "" (c :: d :: chunks)) with (c ++ "" ++ String.concat "" (d :: chunks))%string.
  cbn [String.append]. rewrite length_str_app. lia.
Qed.

Section launch.
Context `{JsonText} (resolve : list string → string) (sha256Hex : string → string).
Context (readFile : string → option string) (read_stream : string → option (list string)).

(** The manifest that was read, if it is one. *)
Definition packaged (root target : string) (m : NativeArtifactManifest) : Prop :=
  ∃ raw value, readFile (resolveBridgeArtifactManifest resolve root target) = Some raw ∧
    json_parse raw = Some value ∧ manifest_ok value target m.

(** The executable has the size and the digest of its manifest. *)
Definition intact (m : NativeArtifactManifest) (chunks : list string) : Prop :=
  let bytes := String.concat "" chunks in
  Z.of_nat (String.length bytes) = mf_executableSize m ∧ sha256Hex bytes = mf_executableSha256 m.

(** Why a packaged bridge is refused. *)
Definition refused (root target : string) (code : loader_code) : Prop :=
  let exe := resolveBridgeExecutable resolve root target in
  match code with
  | missing_artifact =>
      readFile (resolveBridgeArtifactManifest resolve root target) = None ∨
      ((∃ m, packaged root target m) ∧ read_stream exe = None)
  | invalid_artifact =>
      readFile (resolveBridgeArtifactManifest resolve root target) ≠ None ∧ ∀ m, ¬ packaged root target m
  | artifact_tampered =>
      ∃ m chunks, packaged root target m ∧ read_stream exe = Some chunks ∧ ¬ intact m chunks
  | _ => False
  end.

Lemma packaged_inj root target raw value m :
  readFile (resolveBridgeArtifactManifest resolve root target) = Some raw →
  json_parse raw = Some value → packaged root target m → manifest_ok value target m.
Proof. intros Hr Hv (raw' & value' & Hr' & Hv' & Hm). congruence. Qed.

Lemma verify_contract root target :
  match verifyPackagedBridgeArtifact resolve sha256Hex readFile read_stream root target with
  | Ret (exe, m) => exe = resolveBridgeExecutable resolve root target ∧ packaged root target m ∧
      ∃ chunks, read_stream exe = Some chunks ∧ intact m chunks
  | Throw (BridgeLoaderError code _) => refused root target code
  end.
Proof.
  unfold verifyPackagedBridgeArtifact.
  destruct (readFile _) as [raw|] eqn:Er; [|by left].
  destruct (json_parse raw) as [value|] eqn:Ev.
  2:{ split; [congruence|]. intros m (raw' & value' & Hr & Hv & _). congruence. }
  destruct (parseNativeArtifactManifest value target) as [m|[code msg]] eqn:Em; simpl.
  2:{ apply parse_manifest_throws in Em as [[= -> ->] Hno]. split; [congruence|].
      intros m Hm. by apply (Hno m), (packaged_inj root target raw). }
  apply parseNativeArtifactManifest_iff in Em.
  assert (Hp : packaged root target m) by (by exists raw, value).
  assert (Hexe : mf_executable m = expectedExecutableName target)
    by (destruct Em as (? & ?); naive_solver).
  unfold hashFileSha256. rewrite Hexe.
  change (resolve _) with (resolveBridgeExecutable resolve root target).
  destruct (read_stream _) as [chunks|] eqn:Es; simpl; [|right; eauto].
  rewrite chunks_length, Z.add_0_l.
  destruct (_ && _) eqn:Eb; simpl.
  - rewrite andb_true_iff, Z.eqb_eq, String.eqb_eq in Eb. split_and!; eauto.
  - exists m, chunks. split_and!; try done. intros [E1 E2]. rewrite E1, E2, Z.eqb_refl, String.eqb_refl in Eb. done.
Qed.

Definition chosen_target (options : ConnectBundledBridgeOptions) : option string :=
  match bo_buildTarget options with
  | Some target => Some target
  | None => nativeTargetFor (bo_platform options) (bo_architecture options)
  end.

(** C11: what is launched.  Without an override it is the packaged executable
    of the target, whose manifest names this product and whose bytes have the
    manifest's size and digest, and the handshake it must pass is one of a
    bridge built for that target from the manifest's commit, never a
    development build.  An override needs [allowDevelopmentBuild].  Each error
    is thrown for its own reason only. *)
Theorem bridge_launch_contract (options : ConnectBundledBridgeOptions) :
  match connectBundledBridge resolve sha256Hex readFile read_stream options with
  | Ret l => chosen_target options = Some (bl_target l) ∧
      match bo_executable options with
      | Some exe => bo_allowDevelopmentBuild options = Some true ∧ bl_executable l = exe
      | None => ∃ m chunks, bl_executable l = resolveBridgeExecutable resolve (bo_packageRoot options) (bl_target l) ∧
          packaged (bo_packageRoot options) (bl_target l) m ∧
          read_stream (bl_executable l) = Some chunks ∧ intact m chunks ∧
          ∀ h, verifyHandshake h (bl_target l) (bl_handshake l) = Ret tt →
            buildTarget h = bl_target l ∧ buildSourceCommit h = mf_projectSourceCommit m ∧
            buildSourceCommit h ≠ "development" ∧ vendorTreeSha256 h = VENDOR_TREE_SHA256
      end
  | Throw (BridgeLoaderError code _) =>
      match chosen_target options, bo_executable options with
      | None, _ => code = unsupported_target
      | Some _, Some _ => code = development_override_required ∧ bo_allowDevelopmentBuild options ≠ Some true
      | Some target, None => refused (bo_packageRoot options) target code
      end
  end.
Proof.
  assert (Ht : match bo_buildTarget options with
               | Some target => Ret target
               | None => resolveNativeTarget (bo_platform options) (bo_architecture options) end =
    match chosen_target options with
    | Some target => Ret target
    | None => Throw (BridgeLoaderError unsupported_target ("No codex-bridge binary is available for " ++
        bo_platform options ++ "/" ++ bo_architecture options)%string) end).
  { unfold chosen_target, resolveNativeTarget. destruct (bo_buildTarget options); [done|].
    by destruct (nativeTargetFor _ _). }
  unfold connectBundledBridge. rewrite Ht. clear Ht. destruct (chosen_target options) as [target|]; [|done].
  unfold resolveBundledBridgeLaunch. cbn [mbind outcome_bind].
  destruct (bo_executable options) as [exe|].
  { case_bool_decide as Hb; cbn; [|done]. done. }
  pose proof (verify_contract (bo_packageRoot options) target) as Hv.
  destruct (verifyPackagedBridgeArtifact _ _ _ _ _ _) as [[exe m]|[code msg]];
    cbn [mbind outcome_bind fst snd bl_executable bl_target bl_handshake]; [|done].
  destruct Hv as (-> & Hp & chunks & Hs & Hi). split; [done|]. exists m, chunks. split_and!; try done.
  intros h Hh%verifyHandshake_iff. destruct Hh as (_ & _ & _ & _ & Hb & Hvt & _ & _ & Hdev & Hc).
  specialize (Hc _ eq_refl). split_and!; try done.
  rewrite Hc. intros Hd. destruct Hp as (? & ? & _ & _ & ? & _ & Hok). destruct_and! Hok.
  assert (Hx : is_hex 40 (mf_projectSourceCommit m) = true) by done. by rewrite Hd in Hx.
Qed.
End launch.

(** ** The environment *)

Section environment.
Context `{UrlApi}.

(** A variable the child may see. *)
Definition passes (platform name : string) : Prop :=
  (∃ allowed, allowed ∈ child_allowlist platform ∧ to_upper allowed = to_upper name) ∧
  isCredentialVariable name = false.

(** A proxy variable that carries a user or a password, or may carry one. *)
Definition leaks (name value : string) : Prop :=
  to_lower name ∈ ["http_proxy"; "https_proxy"; "all_proxy"] ∧
  (includes "@" (proxyAuthority value) = true ∨
   match parse_url value with
   | Some proxy => username proxy ≠ "" ∨ password proxy ≠ ""
   | None => includes "@" value = true
   end).

Lemma allowlisted_iff name allowlist :
  isAllowlisted name allowlist = true ↔
  ∃ allowed, allowed ∈ allowlist ∧ to_upper allowed = to_upper name.
Proof.
  unfold isAllowlisted. rewrite orb_true_iff, js_elem_spec, existsb_exists.
  setoid_rewrite String.eqb_eq. setoid_rewrite <- list_elem_of_In. split.
  - intros [Hin|Hex]; [by exists name|done].
  - by right.
Qed.

Lemma passes_iff platform name :
  negb (isAllowlisted name (child_allowlist platform)) || isCredentialVariable name = false ↔
  passes platform name.
Proof.
  unfold passes. rewrite <- allowlisted_iff, orb_false_iff, negb_false_iff. done.
Qed.

Lemma leaks_iff name value :
  isProxyVariable name && hasProxyCredentials value = true ↔ leaks name value.
Proof.
  unfold leaks, isProxyVariable, hasProxyCredentials.
  rewrite andb_true_iff, js_elem_spec, orb_true_iff. destruct (parse_url value) as [u|]; [|done].
  rewrite orb_true_iff, !negb_true_iff, !String.eqb_neq. done.
Qed.

(** the environment of the bridge.  Either a proxy variable that passes
    carries credentials, and nothing is spawned; or the child gets exactly the
    variables of the parent whose name is listed, in any case, and is not that
    of a credential, each with its own value and in the same order, and none of
    its proxies carries credentials. *)
Theorem child_environment_is_filtered (source : list (string * option string)) (platform : string) :
  match createBridgeChildEnvironment source platform with
  | Throw _ => ∃ name value, (name, Some value) ∈ source ∧ passes platform name ∧ leaks name value
  | Ret env =>
      (λ kv, (kv.1, Some kv.2)) <$> env `sublist_of` source ∧
      (∀ name value, (name, value) ∈ env ↔ (name, Some value) ∈ source ∧ passes platform name) ∧
      (∀ name value, (name, value) ∈ env → ¬ leaks name value)
  end.
Proof.
  unfold createBridgeChildEnvironment. induction source as [|[name [value|]] source IH]; cbn [child_variables].
  - split_and!; [constructor|..]; intros *; rewrite ?elem_of_nil; naive_solver.
  - destruct (_ || _) eqn:Hp.
    + assert (Hn : ¬ passes platform name) by (rewrite <- passes_iff; congruence).
      destruct (child_variables _ source) as [env|e].
      * destruct IH as (Hs & Hiff & Hl). split_and!; [by constructor|..|done].
        intros n v. rewrite Hiff, elem_of_cons. naive_solver.
      * destruct IH as (n & v & Hin & ?). exists n, v. split; [by right|done].
    + apply passes_iff in Hp. destruct (_ && _) eqn:Hc.
      * apply leaks_iff in Hc. exists name, value. split; [by left|done].
      * assert (Hn : ¬ leaks name value) by (rewrite <- leaks_iff; congruence).
        destruct (child_variables _ source) as [env|e]; cbn [mbind outcome_bind].
        -- destruct IH as (Hs & Hiff & Hl). split_and!.
           ++ by constructor.
           ++ intros n v. rewrite !elem_of_cons, Hiff. naive_solver.
           ++ intros n v [[= -> ->]|?]%elem_of_cons; [done|by apply Hl].
        -- destruct IH as (n & v & Hin & ?). exists n, v. split; [by right|done].
  - destruct (child_variables _ source) as [env|e].
    + destruct IH as (Hs & Hiff & Hl). split_and!; [by constructor|..|done].
      intros n v. rewrite Hiff, elem_of_cons. naive_solver.
    + destruct IH as (n & v & Hin & ?). exists n, v. split; [by right|done].
Qed.

End environment.

(** A listed variable is never the name of a credential: on the names of the
    lists themselves the second test changes nothing. *)
Lemma listed_names_are_not_credentials :
  forallb (λ name, negb (isCredentialVariable name))
    (UNIX_CORE_VARIABLES ++ WINDOWS_CORE_VARIABLES ++ NETWORK_VARIABLES) = true.
Proof. vm_compute. reflexivity. Qed.
