(* ===== verification/Diagnostics.v ===== *)
(** * Diagnostics

    [src/src/application/diagnostics.ts] and
    [src/src/infrastructure/diagnostics/file-diagnostics-exporter.ts]: the
    snapshot that may leave the machine is built from the native diagnostics
    and the host context by keeping what is listed and harmless, is built so
    once more before it is written, and is written after a confirmation.

    What comes from outside is any value; SHA-256 and [path.dirname] are
    parameters. *)

From S2P Require Import Prelude Io StructuredJson Config Json Protocol ConfigStore Dispatch.

(** ** Texts *)

Definition MAX_SAFE_STRING : nat := 256.
Definition MAX_RECENT_ERRORS : nat := 20.

Definition str_mem (c : ascii) (s : string) : bool := str_exists (Ascii.eqb c) s.
Definition NUL : ascii := ascii_of_N 0.
Definition single_line (s : string) : bool :=
  negb (str_mem NUL s || str_mem (ascii_of_N 10) s || str_mem (ascii_of_N 13) s).

Definition sanitizeIdentityString (value : jsval) : option string :=
  match value with
  | VStr s =>
      let trimmed := trim s in
      if (String.length trimmed =? 0)%nat || (MAX_SAFE_STRING <? String.length trimmed)%nat then None
      else if negb (single_line trimmed) then None
      else if starts_with "/" trimmed || includes "\" trimmed then None
      else Some trimmed
  | _ => None
  end.

(** [/(api[_-]?key|token|bearer|authorization|password)/i] and [/[A-Za-z]:\\/]. *)
Definition SECRET_WORDS : list string :=
  ["apikey"; "api_key"; "api-key"; "token"; "bearer"; "authorization"; "password"].
Definition mentions_secret (s : string) : bool := existsb (λ w, includes w (to_lower s)) SECRET_WORDS.
Definition is_letter (c : ascii) : bool :=
  let n := unit_of c in (bool_decide (65 ≤ n ∧ n ≤ 90) || bool_decide (97 ≤ n ∧ n ≤ 122))%N.
Fixpoint drive_path (s : string) : bool :=
  match s with
  | EmptyString => false
  | String c s' => (is_letter c && starts_with ":\" s') || drive_path s'
  end.

Definition sanitizeErrorMessage (value : jsval) : option string :=
  match value with
  | VStr s =>
      let trimmed := trim s in
      if (String.length trimmed =? 0)%nat then None
      else if (512 <? String.length trimmed)%nat then None
      else if negb (single_line trimmed) then None
      else if mentions_secret trimmed then None
      else if starts_with "/" trimmed || drive_path trimmed then None
      else Some trimmed
  | _ => None
  end.

Definition sanitizeChecksum (value : jsval) : option string :=
  match value with VStr s => if is_hex 64 s then Some s else None | _ => None end.

(** ** Errors *)

Definition SAFE_ERROR_CATEGORIES : list string :=
  ["ConfigurationError"; "AuthenticationError"; "ProtocolError"; "CapabilityError"; "NativeToolError"].

Record SafeDiagnosticError := {
  se_category : string;
  se_code : string;
  se_message : string;
  se_requestId : option string;
  se_retryable : option bool }.

Definition sanitizeError (value : jsval) : option SafeDiagnosticError :=
  entry ← as_record value;
  category ← match field entry "category" with
             | VStr c => if js_elem c SAFE_ERROR_CATEGORIES then Some c else None
             | _ => None end;
  code ← sanitizeIdentityString (field entry "code");
  message ← sanitizeErrorMessage (field entry "message");
  Some {| se_category := category; se_code := code; se_message := message;
          se_requestId := sanitizeIdentityString (field entry "requestId");
          se_retryable := match field entry "retryable" with VBool b => Some b | _ => None end |}.

Fixpoint collect_errors (entries : list jsval) (errors : list SafeDiagnosticError) : list SafeDiagnosticError :=
  match entries with
  | [] => errors
  | entry :: entries =>
      if (MAX_RECENT_ERRORS <=? length errors)%nat then errors
      else collect_errors entries
        (match sanitizeError entry with Some e => errors ++ [e] | None => errors end)
  end.

Definition sanitizeRecentErrors (value : jsval) : list SafeDiagnosticError :=
  match value with VArr entries => collect_errors entries [] | _ => [] end.

(** ** Capabilities *)

(** [/^[A-Za-z][A-Za-z0-9]{0,63}$/]. *)
Definition is_alnum (c : ascii) : bool :=
  is_letter c || (let n := unit_of c in bool_decide (48 ≤ n ∧ n ≤ 57)%N).
Definition capability_name (key : string) : bool :=
  match key with
  | EmptyString => false
  | String c rest => is_letter c && str_forall is_alnum rest && (String.length rest <=? 63)%nat
  end.

Definition sanitize_item (item : jsval) : option jsval :=
  match item with
  | VBool _ | VNull => Some item
  | VNum n => if is_safe_integer n && num_geb n 0%Z then Some item else None
  | VStr _ => VStr <$> sanitizeIdentityString item
  | VArr items => values ← mapM sanitizeIdentityString items; Some (VArr (VStr <$> values))
  | _ => None
  end.

Definition sanitize_entry (kv : string * jsval) : option (string * jsval) :=
  if capability_name kv.1 then item ← sanitize_item kv.2; Some (kv.1, item) else None.

Definition sanitizeEffectiveCapabilities (value : jsval) : option (list (string * jsval)) :=
  source ← as_record value;
  match omap sanitize_entry source with [] => None | result => Some result end.

(** ** The snapshot *)

Definition BRIDGE_FIELDS : list string :=
  ["bridgeProtocolVersion"; "officialCodexVersion"; "officialCodexTag"; "officialSourceCommit";
   "buildTarget"; "buildSourceCommit"; "vendorTreeSha256"; "capabilities"].

Definition is_string (v : jsval) : bool := match v with VStr _ => true | _ => false end.
Definition isSafeDiagnosticValue (value : jsval) : bool :=
  match value with
  | VStr _ | VNum _ => true
  | VArr items => forallb is_string items
  | _ => false
  end.

(** [if (isSafeDiagnosticValue(value)) bridge[field] = value]. *)
Definition bridge_field (source : list (string * jsval)) (k : string) : option (string * jsval) :=
  if isSafeDiagnosticValue (field source k) then Some (k, field source k) else None.
Definition bridge_fields (source : list (string * jsval)) : list (string * jsval) :=
  omap (bridge_field source) BRIDGE_FIELDS.

(** [schemaVersion] is 2, [configSchemaVersion] is 3 and [supportedApis] is
    [CODEX_PI_APIS]. *)
Record DiagnosticsSnapshot := {
  dg_providerCount : jsnum;
  dg_bridge : list (string * jsval);
  dg_recentErrors : list SafeDiagnosticError;
  dg_adaptor : option string;
  dg_pi : option string;
  dg_runtime : option (string * string);
  dg_binaryChecksum : option string;
  dg_effectiveCapabilities : option (list (string * jsval)) }.

Record DiagnosticsHostContext := {
  h_adaptorVersion : jsval; h_piVersion : jsval; h_os : jsval; h_arch : jsval;
  h_binaryChecksum : jsval; h_recentErrors : jsval; h_effectiveCapabilities : jsval }.

(** [a ?? b], and [v?.k] on a value that may be anything. *)
Definition nullish (a b : jsval) : jsval := match a with VUndef | VNull => b | _ => a end.
Definition prop (v : jsval) (k : string) : jsval :=
  match v with VObj fs => field fs k | _ => VUndef end.

Definition runtime_pair (os arch : jsval) : option (string * string) :=
  os ← sanitizeIdentityString os; arch ← sanitizeIdentityString arch; Some (os, arch).

Definition createDiagnosticsSnapshot (config : CodexConfig) (nativeDiagnostics : jsval)
    (host : DiagnosticsHostContext) : DiagnosticsSnapshot :=
  let source := default [] (as_record nativeDiagnostics) in
  {| dg_providerCount := Z.of_nat (length (providers (activation config)));
     dg_bridge := bridge_fields source;
     dg_recentErrors := sanitizeRecentErrors (nullish (h_recentErrors host) (field source "recentErrors"));
     dg_adaptor := sanitizeIdentityString (h_adaptorVersion host);
     dg_pi := sanitizeIdentityString (h_piVersion host);
     dg_runtime := runtime_pair (h_os host) (h_arch host);
     dg_binaryChecksum := sanitizeChecksum (nullish (h_binaryChecksum host)
       (nullish (field source "binaryChecksum") (field source "binarySha256")));
     dg_effectiveCapabilities := sanitizeEffectiveCapabilities (h_effectiveCapabilities host) |}.

(** On the snapshot object, whatever was done to it. *)
Definition sanitizeSnapshot (snapshot : list (string * jsval)) : DiagnosticsSnapshot :=
  {| dg_providerCount := match prop (field snapshot "activation") "providerCount" with
       | VNum n => if is_safe_integer n && num_geb n 0%Z then n else 0%Z
       | _ => 0%Z end;
     dg_bridge := bridge_fields (default [] (as_record (field snapshot "bridge")));
     dg_recentErrors := sanitizeRecentErrors (field snapshot "recentErrors");
     dg_adaptor := sanitizeIdentityString (prop (field snapshot "adaptor") "version");
     dg_pi := sanitizeIdentityString (prop (field snapshot "pi") "version");
     dg_runtime := runtime_pair (prop (field snapshot "runtime") "os") (prop (field snapshot "runtime") "arch");
     dg_binaryChecksum := sanitizeChecksum (field snapshot "binaryChecksum");
     dg_effectiveCapabilities := sanitizeEffectiveCapabilities (field snapshot "effectiveCapabilities") |}.

(** ** The snapshot as an object *)

Definition error_value (e : SafeDiagnosticError) : jsval :=
  VObj ([("category", VStr (se_category e)); ("code", VStr (se_code e)); ("message", VStr (se_message e))] ++
        optional_field "requestId" VStr (se_requestId e) ++ optional_field "retryable" VBool (se_retryable e)).

Definition version_value (v : string) : jsval := VObj [("version", VStr v)].

Definition snapshot_fields (s : DiagnosticsSnapshot) : list (string * jsval) :=
  [("schemaVersion", VNum 2%Z); ("configSchemaVersion", VNum 3%Z);
   ("activation", VObj [("providerCount", VNum (dg_providerCount s));
                        ("supportedApis", VArr (VStr <$> CODEX_PI_APIS))]);
   ("bridge", VObj (dg_bridge s)); ("recentErrors", VArr (error_value <$> dg_recentErrors s))] ++
  optional_field "adaptor" version_value (dg_adaptor s) ++
  optional_field "pi" version_value (dg_pi s) ++
  optional_field "runtime" (λ r, VObj [("os", VStr r.1); ("arch", VStr r.2)]) (dg_runtime s) ++
  optional_field "binaryChecksum" VStr (dg_binaryChecksum s) ++
  optional_field "effectiveCapabilities" VObj (dg_effectiveCapabilities s).

(** ** Export *)

Inductive export_error := confirmation_required | export_failure.

Record DiagnosticExport := { ex_path : string; ex_sha256 : string }.

Section exporter.
Context {Disk} `{FileSystem Disk} `{JsonText} (sha256Hex : string → string) (dirname : string → string).

Definition export_text (snapshot : list (string * jsval)) : string :=
  (stringify_indented (VObj (snapshot_fields (sanitizeSnapshot snapshot))) ++ line_feed)%string.

(** [FileDiagnosticsExporter.export]: a temporary file is written, synced and
    renamed into place, and removed when anything fails. *)
Definition export_file (snapshot : list (string * jsval)) (path uuid : string) : io Disk DiagnosticExport :=
  let text := export_text snapshot in
  call (fs_mkdir (dirname path));;
  atomicWrite path text uuid;;
  mret {| ex_path := path; ex_sha256 := sha256Hex text |}.

Definition exportDiagnosticsConfirmed (snapshot : list (string * jsval)) (path uuid : string)
    (confirmed : bool) (fs : Disk) : outcome export_error DiagnosticExport * Disk * list Disk :=
  if negb confirmed then (Throw confirmation_required, fs, []) else
  let '(r, fs', trace) := export_file (snapshot_fields (sanitizeSnapshot snapshot)) path uuid fs in
  (match r with Ret x => Ret x | Throw _ => Throw export_failure end, fs', trace).

End exporter.
