(* ===== verification/DiagnosticsFacts.v ===== *)
(** * DiagnosticsFacts

    Facts of [Diagnostics]: whatever the bridge and the host say, a snapshot
    holds the listed fields only, the texts of the host and of errors bounded and
    on one line; sanitizing it again changes nothing; and a file is written only
    after a confirmation, whole or not at all. *)

From S2P Require Import Prelude Io StructuredJson Config Json Protocol ConfigStore ConfigStoreFacts Dispatch.
From S2P Require Import Diagnostics.

(** ** Trimming *)

Lemma trim_end_idem s : trim_end (trim_end s) = trim_end s.
Proof.
  induction s as [|c s IH]; [done|]. simpl. destruct (trim_end s) as [|d t] eqn:Et.
  - destruct (is_js_space c) eqn:Hc; [done|]. simpl. by rewrite Hc.
  - change (trim_end (String c (String d t))) with
      (match trim_end (String d t) with
       | EmptyString => if is_js_space c then EmptyString else String c EmptyString
       | t' => String c t' end). by rewrite IH.
Qed.

Lemma trim_start_head s : trim_start s = "" ∨ ∃ c t, trim_start s = String c t ∧ is_js_space c = false.
Proof.
  induction s as [|c s IH]; [by left|]. simpl. destruct (is_js_space c) eqn:Hc; [done|]. right. eauto.
Qed.

Lemma trim_end_head c t : is_js_space c = false → ∃ t', trim_end (String c t) = String c t'.
Proof. intros Hc. simpl. rewrite Hc. destruct (trim_end t); eauto. Qed.

Lemma trim_idem s : trim (trim s) = trim s.
Proof.
  unfold trim. destruct (trim_start_head s) as [->|(c & t & -> & Hc)]; [done|].
  destruct (trim_end_head c t Hc) as [t' Ht]. rewrite Ht.
  assert (trim_start (String c t') = String c t') as -> by (simpl; by rewrite Hc).
  rewrite <- Ht. apply trim_end_idem.
Qed.

(** ** What may leave the machine *)

Record identity_text (t : string) : Prop := {
  it_trimmed : trim t = t;
  it_length : 0 < String.length t ≤ MAX_SAFE_STRING;
  it_line : single_line t = true;
  it_no_path : starts_with "/" t = false ∧ includes "\" t = false }.

Record message_text (t : string) : Prop := {
  mt_trimmed : trim t = t;
  mt_length : 0 < String.length t ≤ 512;
  mt_line : single_line t = true;
  mt_no_secret : ∀ w, w ∈ SECRET_WORDS → includes w (to_lower t) = false;
  mt_no_path : starts_with "/" t = false ∧ drive_path t = false }.

Record safe_error (e : SafeDiagnosticError) : Prop := {
  sf_category : se_category e ∈ SAFE_ERROR_CATEGORIES;
  sf_code : identity_text (se_code e);
  sf_message : message_text (se_message e);
  sf_requestId : ∀ t, se_requestId e = Some t → identity_text t }.

Inductive safe_item : jsval → Prop :=
| safe_bool b : safe_item (VBool b)
| safe_null : safe_item VNull
| safe_number n : is_safe_integer n = true → num_geb n 0%Z = true → safe_item (VNum n)
| safe_text t : identity_text t → safe_item (VStr t)
| safe_texts ts : Forall identity_text ts → safe_item (VArr (VStr <$> ts)).

(** What the bridge says of itself is only checked for its kind: its texts and
    numbers may be any. *)
Inductive bridge_value : jsval → Prop :=
| bridge_text t : bridge_value (VStr t)
| bridge_number n : bridge_value (VNum n)
| bridge_texts ts : bridge_value (VArr (VStr <$> ts)).

(** Listed fields only, each at most once, in the order of the list. *)
Record bridge_identity (fs : list (string * jsval)) : Prop := {
  bi_listed : sublist fs.*1 BRIDGE_FIELDS;
  bi_values : Forall (λ kv, bridge_value kv.2) fs }.

Record safe_snapshot (s : DiagnosticsSnapshot) : Prop := {
  ss_bridge : bridge_identity (dg_bridge s);
  ss_errors : Forall safe_error (dg_recentErrors s) ∧ length (dg_recentErrors s) ≤ 20;
  ss_adaptor : ∀ t, dg_adaptor s = Some t → identity_text t;
  ss_pi : ∀ t, dg_pi s = Some t → identity_text t;
  ss_runtime : ∀ os arch, dg_runtime s = Some (os, arch) → identity_text os ∧ identity_text arch;
  ss_checksum : ∀ t, dg_binaryChecksum s = Some t → is_hex 64 t = true;
  ss_capabilities : ∀ fs, dg_effectiveCapabilities s = Some fs →
    fs ≠ [] ∧ Forall (λ kv, capability_name kv.1 = true ∧ safe_item kv.2) fs }.

(** ** Texts *)

Lemma length_bounds n hi :
  (n =? 0)%nat || (hi <? n)%nat = false ↔ 0 < n ≤ hi.
Proof. rewrite orb_false_iff, Nat.eqb_neq, Nat.ltb_ge. lia. Qed.

Lemma identity_iff v t : sanitizeIdentityString v = Some t → identity_text t.
Proof.
  destruct v as [| | | |s| | |]; try done. unfold sanitizeIdentityString. destruct (_ || _) eqn:Hl; [done|].
  destruct (single_line (trim s)) eqn:Hn; simpl; [|done].
  destruct (starts_with "/" (trim s) || includes "\" (trim s)) eqn:Hp; [done|]. intros [= <-].
  apply length_bounds in Hl. apply orb_false_iff in Hp. split; try done. apply trim_idem.
Qed.

Lemma identity_fixed t : identity_text t → sanitizeIdentityString (VStr t) = Some t.
Proof.
  intros [Ht Hl Hn [Hp1 Hp2]]. unfold sanitizeIdentityString. rewrite Ht, (proj2 (length_bounds _ _) Hl), Hn, Hp1, Hp2. done.
Qed.

Lemma message_iff v t : sanitizeErrorMessage v = Some t → message_text t.
Proof.
  destruct v as [| | | |s| | |]; try done. simpl.
  destruct (String.length (trim s) =? 0)%nat eqn:H1; [done|].
  destruct (512 <? String.length (trim s))%nat eqn:H2; [done|].
  destruct (single_line (trim s)) eqn:H3; simpl; [|done].
  destruct (mentions_secret (trim s)) eqn:H4; [done|].
  destruct (starts_with "/" (trim s) || drive_path (trim s)) eqn:H5; [done|]. intros [= <-].
  apply Nat.eqb_neq in H1. apply Nat.ltb_ge in H2. apply orb_false_iff in H5.
  split; try done; [apply trim_idem|lia|].
  intros w Hw. destruct (includes w _) eqn:Hi; [|done]. rewrite <- H4. symmetry.
  apply existsb_exists. exists w. split; [by apply list_elem_of_In|done].
Qed.

Lemma message_fixed t : message_text t → sanitizeErrorMessage (VStr t) = Some t.
Proof.
  intros [Ht Hl Hn Hs [Hp1 Hp2]]. unfold sanitizeErrorMessage. rewrite Ht, Hn, Hp1, Hp2.
  destruct (Nat.eqb_spec (String.length t) 0); [lia|]. destruct (Nat.ltb_spec 512 (String.length t)); [lia|].
  assert (mentions_secret t = false) as ->; [|done].
  apply not_true_iff_false. intros (w & Hw & Hi)%existsb_exists.
  apply list_elem_of_In in Hw. specialize (Hs w Hw). congruence.
Qed.

Lemma checksum_iff v t : sanitizeChecksum v = Some t → is_hex 64 t = true.
Proof. destruct v; simpl; try done. destruct (is_hex 64 s) eqn:Hs; [|done]. by intros [= <-]. Qed.


(** ** Errors *)

Lemma error_iff v e : sanitizeError v = Some e → safe_error e.
Proof.
  unfold sanitizeError. intros He.
  apply bind_Some in He as (entry & _ & He). apply bind_Some in He as (c & Hc & He).
  apply bind_Some in He as (code & Hcode & He). apply bind_Some in He as (msg & Hmsg & [= <-]).
  split; simpl.
  - destruct (field entry "category"); try done. destruct (js_elem s _) eqn:Hs; [|done].
    injection Hc as <-. by apply js_elem_spec.
  - by eapply identity_iff.
  - by eapply message_iff.
  - intros t. apply identity_iff.
Qed.

Lemma error_fixed e : safe_error e → sanitizeError (error_value e) = Some e.
Proof.
  intros [Hcat Hcode Hmsg Hid]. destruct e as [cat code msg id retry]. simpl in *.
  apply js_elem_spec in Hcat.
  assert (Hid' : sanitizeIdentityString (match id with Some t => VStr t | None => VUndef end) = id).
  { destruct id as [t|]; [|done]. by apply identity_fixed, Hid. }
  unfold sanitizeError, error_value.
  destruct id as [t|], retry as [b|];
    cbn -[sanitizeIdentityString sanitizeErrorMessage js_elem SAFE_ERROR_CATEGORIES];
    rewrite Hcat; cbn -[sanitizeIdentityString sanitizeErrorMessage];
    rewrite (identity_fixed _ Hcode), (message_fixed _ Hmsg); cbn -[sanitizeIdentityString];
    by rewrite ?Hid'.
Qed.

Lemma collect_errors_eq entries errors : length errors ≤ MAX_RECENT_ERRORS →
  collect_errors entries errors = take MAX_RECENT_ERRORS (errors ++ omap sanitizeError entries).
Proof.
  revert errors. induction entries as [|x entries IH]; intros errors Hl; cbn [collect_errors].
  - simpl. by rewrite app_nil_r, take_ge.
  - destruct (Nat.leb_spec MAX_RECENT_ERRORS (length errors)) as [Hm|Hm].
    + rewrite take_app_le by lia. rewrite take_ge by lia. done.
    + cbn [omap list_omap]. destruct (sanitizeError x) as [e|].
      * rewrite IH by (rewrite length_app; simpl; lia). by rewrite <- (assoc_L app).
      * by apply IH.
Qed.

Lemma recent_errors_eq v : sanitizeRecentErrors v =
  match v with VArr entries => take MAX_RECENT_ERRORS (omap sanitizeError entries) | _ => [] end.
Proof. destruct v; try done. simpl. apply collect_errors_eq. simpl. unfold MAX_RECENT_ERRORS. lia. Qed.

Lemma recent_errors_safe v :
  Forall safe_error (sanitizeRecentErrors v) ∧ length (sanitizeRecentErrors v) ≤ 20.
Proof.
  rewrite recent_errors_eq. destruct v; try (split; [constructor|simpl; lia]). split.
  - apply Forall_take, Forall_forall. intros e (v & _ & He)%list_elem_of_omap. by eapply error_iff.
  - rewrite length_take. unfold MAX_RECENT_ERRORS. lia.
Qed.

Lemma omap_fixed {A B} (f : A → B) (g : B → option A) l :
  Forall (λ x, g (f x) = Some x) l → omap g (f <$> l) = l.
Proof. induction 1 as [|x l Hx _ IH]; [done|]. cbn. by rewrite Hx, IH. Qed.

Lemma recent_errors_fixed es : Forall safe_error es → length es ≤ 20 →
  sanitizeRecentErrors (VArr (error_value <$> es)) = es.
Proof.
  intros He Hl. rewrite recent_errors_eq, omap_fixed.
  - apply take_ge. unfold MAX_RECENT_ERRORS. lia.
  - eapply Forall_impl; [done|]. apply error_fixed.
Qed.

(** ** Capabilities *)

Lemma identities_iff items ts : mapM sanitizeIdentityString items = Some ts → Forall identity_text ts.
Proof.
  intros Hm. apply mapM_Some in Hm. induction Hm as [|v t items ts Hv _ IH]; constructor; [|done].
  by eapply identity_iff.
Qed.

Lemma identities_fixed ts : Forall identity_text ts → mapM sanitizeIdentityString (VStr <$> ts) = Some ts.
Proof.
  intros Ht. apply mapM_Some, Forall2_fmap_l.
  induction Ht as [|t ts Ht _ IH]; constructor; [by apply identity_fixed|done].
Qed.

Lemma item_iff v w : sanitize_item v = Some w → safe_item w.
Proof.
  destruct v as [| |b|n|s|items|fs|]; try done; unfold sanitize_item.
  - intros [= <-]. constructor.
  - intros [= <-]. constructor.
  - destruct (is_safe_integer n) eqn:H1; [|done]. destruct (num_geb n 0%Z) eqn:H2; [|done].
    intros [= <-]. by constructor.
  - intros Hs. apply fmap_Some in Hs as (t & Ht & ->). constructor. by apply (identity_iff (VStr s)).
  - intros (ts & Hts & [= <-])%bind_Some. constructor. by eapply identities_iff.
Qed.

Lemma item_fixed v : safe_item v → sanitize_item v = Some v.
Proof.
  intros [b| |n H1 H2|t Ht|ts Hts]; try done; unfold sanitize_item.
  - by rewrite H1, H2.
  - by rewrite identity_fixed.
  - by rewrite identities_fixed.
Qed.

Lemma entry_iff kv kv' : sanitize_entry kv = Some kv' → capability_name kv'.1 = true ∧ safe_item kv'.2.
Proof.
  unfold sanitize_entry. destruct (capability_name kv.1) eqn:Hk; [|done].
  intros (w & Hw & [= <-])%bind_Some. split; [done|by eapply item_iff].
Qed.

Lemma entry_fixed kv : capability_name kv.1 = true ∧ safe_item kv.2 → sanitize_entry kv = Some kv.
Proof. intros [Hk Hi]. unfold sanitize_entry. rewrite Hk, (item_fixed _ Hi). by destruct kv. Qed.

Lemma capabilities_iff v fs : sanitizeEffectiveCapabilities v = Some fs →
  fs ≠ [] ∧ Forall (λ kv, capability_name kv.1 = true ∧ safe_item kv.2) fs.
Proof.
  intros (source & _ & Hr)%bind_Some.
  assert (Hf : Forall (λ kv, capability_name kv.1 = true ∧ safe_item kv.2) (omap sanitize_entry source)).
  { apply Forall_forall. intros kv (x & _ & Hx)%list_elem_of_omap. by eapply entry_iff. }
  destruct (omap sanitize_entry source); [done|]. by injection Hr as <-.
Qed.

Lemma capabilities_fixed fs :
  fs ≠ [] → Forall (λ kv, capability_name kv.1 = true ∧ safe_item kv.2) fs →
  sanitizeEffectiveCapabilities (VObj fs) = Some fs.
Proof.
  intros Hne Hf. unfold sanitizeEffectiveCapabilities. cbn [as_record mbind option_bind].
  pose proof (omap_fixed id sanitize_entry fs) as Ho. rewrite list_fmap_id in Ho.
  rewrite Ho; [by destruct fs|]. eapply Forall_impl; [done|]. intros kv. apply entry_fixed.
Qed.

(** ** The bridge *)

Lemma bridge_value_iff v : isSafeDiagnosticValue v = true ↔ bridge_value v.
Proof.
  split.
  - destruct v as [| | |n|t|items| |]; try done; try (intros _; constructor). cbn. intros Hall.
    assert (∃ ts, items = VStr <$> ts) as [ts ->]; [|constructor].
    induction items as [|v items IH]; [by exists []|]. cbn in Hall. apply andb_true_iff in Hall as [Hv Hall].
    destruct v as [| | | |t| | |]; try done. destruct (IH Hall) as [ts ->]. by exists (t :: ts).
  - intros [t|n|ts]; [done..|]. cbn. by induction ts.
Qed.

Lemma bridge_fields_identity source : bridge_identity (bridge_fields source).
Proof.
  assert (∀ ks, sublist (omap (bridge_field source) ks).*1 ks ∧ Forall (λ kv, bridge_value kv.2) (omap (bridge_field source) ks)) as Hall;
    [|by destruct (Hall BRIDGE_FIELDS)].
  induction ks as [|k ks [IH1 IH2]]; [by split|]. cbn [omap list_omap].
  destruct (bridge_field source k) as [kv|] eqn:Hkv; unfold bridge_field in Hkv;
    destruct (isSafeDiagnosticValue (field source k)) eqn:Hv; simplify_eq; cbn.
  - split; [by apply sublist_skip|]. constructor; [by apply bridge_value_iff|done].
  - split; [by apply sublist_cons|done].
Qed.

Lemma bridge_nodup : NoDup BRIDGE_FIELDS.
Proof. by apply (bool_decide_unpack _). Qed.

Lemma fields_kept source fs ks :
  NoDup ks → sublist fs.*1 ks → Forall (λ kv, bridge_value kv.2) fs →
  (∀ k v, (k, v) ∈ fs → field source k = v) → (∀ k, k ∈ ks → k ∉ fs.*1 → field source k = VUndef) →
  omap (bridge_field source) ks = fs.
Proof.
  intros Hnd. revert fs. induction Hnd as [|k ks Hk _ IH]; intros fs Hs Hv Hin Hout.
  { by apply sublist_nil_r, fmap_nil_inv in Hs. }
  cbn [omap list_omap]. unfold bridge_field at 1. apply sublist_cons_r in Hs as [Hs|(names & He & Hs)].
  - assert (k ∉ fs.*1) as Hno by (intros Hx; by eapply Hk, sublist_subseteq; [exact Hs|]).
    rewrite (Hout k) by (done || by left). cbn. apply IH; [done..|]. intros x Hx. apply Hout. by right.
  - destruct fs as [|[k' v] fs]; [done|]. cbn in He. injection He as -> <-. apply Forall_cons in Hv as [Hv1 Hv2]. cbn in Hv1.
    rewrite (Hin k v) by (by left). apply bridge_value_iff in Hv1. rewrite Hv1. cbn. f_equal.
    apply IH; [done|done|intros x y Hx; apply Hin; by right|].
    intros x Hx Hno. apply Hout; [by right|]. cbn. rewrite not_elem_of_cons. split; [by intros ->|done].
Qed.

Lemma field_of_entry (fs : list (string * jsval)) k v : NoDup fs.*1 → (k, v) ∈ fs → field fs k = v.
Proof.
  induction fs as [|[k' v'] fs IH]; [by intros _ ?%elem_of_nil|]. cbn. intros [Hk Hnd]%NoDup_cons [[= -> ->]|Hin]%elem_of_cons.
  - by rewrite String.eqb_refl.
  - destruct (String.eqb_spec k' k) as [->|]; [|by apply IH]. destruct Hk. apply list_elem_of_fmap. by exists (k, v).
Qed.

Lemma bridge_fields_fixed fs : bridge_identity fs → bridge_fields fs = fs.
Proof.
  intros [Hl Hv]. assert (NoDup fs.*1) as Hnd by (eapply sublist_NoDup; [apply bridge_nodup|exact Hl]).
  apply fields_kept; [apply bridge_nodup|done|done|intros k v; by apply field_of_entry|].
  intros k _ Hk. by apply field_absent.
Qed.

(** A field is passed on exactly if it is listed and of one of the kinds. *)
Lemma bridge_fields_elem source k v :
  (k, v) ∈ bridge_fields source ↔ k ∈ BRIDGE_FIELDS ∧ field source k = v ∧ bridge_value v.
Proof.
  unfold bridge_fields. rewrite list_elem_of_omap. unfold bridge_field. split.
  - intros (x & Hx & He). destruct (isSafeDiagnosticValue _) eqn:Hv; [|done]. injection He as <- <-.
    split_and!; [done|done|by apply bridge_value_iff].
  - intros (Hk & <- & Hv). exists k. split; [done|]. apply bridge_value_iff in Hv. by rewrite Hv.
Qed.

(** ** Snapshots *)

Lemma pair_iff a b os arch : runtime_pair a b = Some (os, arch) → identity_text os ∧ identity_text arch.
Proof.
  intros (x & Hx & (y & Hy & [= <- <-])%bind_Some)%bind_Some. split; by eapply identity_iff.
Qed.


Lemma sanitized_is_safe snapshot : safe_snapshot (sanitizeSnapshot snapshot).
Proof.
  split; simpl; intros *.
  - apply bridge_fields_identity.
  - apply recent_errors_safe.
  - apply identity_iff.
  - apply identity_iff.
  - apply pair_iff.
  - apply checksum_iff.
  - apply capabilities_iff.
Qed.

Definition safe_count (n : jsnum) : Prop := is_safe_integer n = true ∧ num_geb n 0%Z = true.

Lemma opt_identity o : (∀ t, o = Some t → identity_text t) →
  sanitizeIdentityString (match o with Some t => VStr t | None => VUndef end) = o.
Proof. intros Ho. destruct o as [t|]; [|done]. by apply identity_fixed, Ho. Qed.

(** Reading a snapshot object back, field by field. *)
Lemma snapshot_read s :
  let fs := snapshot_fields s in
  let text o := match o with Some t => VStr t | None => VUndef end in
  field fs "activation" = VObj [("providerCount", VNum (dg_providerCount s));
                                ("supportedApis", VArr (VStr <$> CODEX_PI_APIS))] ∧
  field fs "bridge" = VObj (dg_bridge s) ∧
  field fs "recentErrors" = VArr (error_value <$> dg_recentErrors s) ∧
  prop (field fs "adaptor") "version" = text (dg_adaptor s) ∧
  prop (field fs "pi") "version" = text (dg_pi s) ∧
  prop (field fs "runtime") "os" = text (fst <$> dg_runtime s) ∧
  prop (field fs "runtime") "arch" = text (snd <$> dg_runtime s) ∧
  field fs "binaryChecksum" = text (dg_binaryChecksum s) ∧
  field fs "effectiveCapabilities" = match dg_effectiveCapabilities s with Some c => VObj c | None => VUndef end.
Proof.
  destruct s as [n b es ad pi rt ck ec]. destruct ad, pi, rt as [[]|], ck, ec; repeat split.
Qed.

Lemma sanitize_fixed s : safe_snapshot s → safe_count (dg_providerCount s) →
  sanitizeSnapshot (snapshot_fields s) = s.
Proof.
  intros [Hb [He Hn] Had Hpi Hrt Hck Hec] [Hc1 Hc2].
  destruct (snapshot_read s) as (E1 & E2 & E3 & E4 & E5 & E6 & E7 & E8 & E9).
  unfold sanitizeSnapshot. rewrite E1, E2, E3, E4, E5, E6, E7, E8, E9. clear E1 E2 E3 E4 E5 E6 E7 E8 E9.
  destruct s as [n b es ad pi rt ck ec]; cbn -[sanitizeRecentErrors sanitizeIdentityString bridge_fields] in *.
  rewrite Hc1, Hc2, (bridge_fields_fixed _ Hb), recent_errors_fixed, !opt_identity by done.
  assert (Er : runtime_pair (match fst <$> rt with Some t => VStr t | None => VUndef end)
                            (match snd <$> rt with Some t => VStr t | None => VUndef end) = rt).
  { destruct rt as [[os arch]|]; [|done]. destruct (Hrt os arch eq_refl) as [Ho Ha].
    unfold runtime_pair. cbn -[sanitizeIdentityString]. by rewrite !identity_fixed. }
  assert (Ec : sanitizeChecksum (match ck with Some t => VStr t | None => VUndef end) = ck).
  { destruct ck as [t|]; [|done]. unfold sanitizeChecksum. by rewrite (Hck t eq_refl). }
  assert (Eec : sanitizeEffectiveCapabilities (match ec with Some c => VObj c | None => VUndef end) = ec).
  { destruct ec as [c|]; [|done]. destruct (Hec c eq_refl). by apply capabilities_fixed. }
  cbn -[sanitizeIdentityString] in Er. rewrite Er, Ec, Eec. done.
Qed.


(** Zero for a count that is none. *)
Lemma sanitized_count snapshot : safe_count (dg_providerCount (sanitizeSnapshot snapshot)).
Proof.
  unfold sanitizeSnapshot. cbn [dg_providerCount]. destruct (prop _ _); try done.
  destruct (_ && _) eqn:Hn; [|done]. apply andb_true_iff in Hn. done.
Qed.


(** What the bridge says is exported as it is: a path or a token in one of the
    listed fields leaves the machine. *)
Lemma bridge_text_is_exported config host t :
  ("buildTarget", VStr t) ∈ dg_bridge (createDiagnosticsSnapshot config (VObj [("buildTarget", VStr t)]) host).
Proof. apply bridge_fields_elem. split_and!; [apply (bool_decide_unpack _); by vm_compute|done|constructor]. Qed.

(** ** Export *)

Section export.
Context {Disk} {Hfs : FileSystem Disk} {Hlaws : FileSystemLaws Disk} {Hjson : JsonText}.
Context (sha256Hex : string → string) (dirname : string → string).

(** The text of the file for a snapshot that was sanitized. *)
Definition file_text (snapshot : list (string * jsval)) : string :=
  (stringify_indented (VObj (snapshot_fields (sanitizeSnapshot snapshot))) ++ line_feed)%string.

Lemma export_text_twice snapshot :
  export_text (snapshot_fields (sanitizeSnapshot snapshot)) = file_text snapshot.
Proof.
  unfold export_text, file_text.
  by rewrite sanitize_fixed by (apply sanitized_is_safe || apply sanitized_count).
Qed.

Lemma wp_export snapshot path uuid fs0 :
  wp (export_file sha256Hex dirname snapshot path uuid)
    (λ fs, contents fs path = contents fs0 path ∨ contents fs path = Some (export_text snapshot))
    (λ r fs, kept_except [temporary path uuid; path] fs0 fs ∧
       match r with
       | Ret x => x = {| ex_path := path; ex_sha256 := sha256Hex (export_text snapshot) |} ∧
                  contents fs path = Some (export_text snapshot)
       | Throw _ => contents fs path = contents fs0 path
       end) fs0.
Proof.
  pose proof (temporary_ne path uuid) as Htmp.
  assert (Hk1 : ∀ fs : Disk, kept_except [] fs0 fs → kept_except [temporary path uuid; path] fs0 fs).
  { intros fs Hk. eapply kept_weaken; [|done]. set_solver. }
  unfold export_file. apply wp_bind, wp_call. intros r fs1 Hop.
  pose proof (mkdir_law (dirname path) fs0) as Hm. rewrite Hop in Hm. simpl in Hm.
  split; [left; apply Hm; set_solver|].
  destruct r as [[]|e]; [|split; [by apply Hk1|apply Hm; set_solver]].
  apply wp_bind, wp_atomicWrite.
  - intros fs Hk [Hc|Hc]; [left|by right]. rewrite Hc. apply Hm. set_solver.
  - intros fs Hk Hc. apply wp_ret. split; [|done]. eapply kept_trans; [by apply Hk1|done].
  - intros fs Hk. split.
    + eapply kept_trans; [by apply Hk1|]. eapply kept_weaken; [|done]. set_solver.
    + rewrite (Hk path Htmp). apply Hm. set_solver.
Qed.

(** nothing is written without a confirmation.  With one the file at the
    path is, at every moment, the old one or the whole sanitized snapshot; the
    export returns its path and the digest of exactly that text, or fails with
    one error and leaves the file as it was; no other file changes but the
    temporary one. *)
Theorem export_is_confirmed_and_atomic (snapshot : list (string * jsval)) (path uuid : string)
    (confirmed : bool) (fs0 : Disk) :
  let '(r, fs, trace) := exportDiagnosticsConfirmed sha256Hex dirname snapshot path uuid confirmed fs0 in
  (confirmed = false → r = Throw confirmation_required ∧ fs = fs0 ∧ trace = []) ∧
  Forall (λ fs, contents fs path = contents fs0 path ∨ contents fs path = Some (file_text snapshot)) trace ∧
  kept_except [temporary path uuid; path] fs0 fs ∧
  match r with
  | Ret x => confirmed = true ∧ contents fs path = Some (file_text snapshot) ∧
             x = {| ex_path := path; ex_sha256 := sha256Hex (file_text snapshot) |}
  | Throw e => contents fs path = contents fs0 path ∧
               (e = confirmation_required ↔ confirmed = false)
  end.
Proof.
  unfold exportDiagnosticsConfirmed. destruct confirmed; simpl.
  2:{ by split_and!. }
  pose proof (wp_export (snapshot_fields (sanitizeSnapshot snapshot)) path uuid fs0) as Hw.
  unfold wp in Hw. destruct (export_file _ _ _ _ _ fs0) as [[r fs] trace].
  rewrite export_text_twice in Hw. destruct Hw as (Ht & Hk & Hr).
  destruct r as [x|e]; simpl; split_and!; naive_solver.
Qed.
End export.

Definition example_tampered : list (string * jsval) :=
  [("bridge", VObj [("buildTarget", VStr "t"); ("token", VStr "x")]); ("adaptor", VStr "/home/u")].

Abbreviation example_export :=
  (exportDiagnosticsConfirmed (H0 := bits_json) (λ s, s) (λ s, s) example_tampered "c" "1" true
     (example_disk [false; false; false; false; false; true])).

(** The rename fails: the old file stays. *)
Lemma export_is_confirmed_and_atomic_witness :
  example_export.1.1 = Throw export_failure ∧
  contents example_export.1.2 "c" = contents (example_disk []) "c".
Proof.
  assert (Hr : example_export.1.1 = Throw export_failure) by (vm_compute; reflexivity).
  pose proof (export_is_confirmed_and_atomic (Hjson := bits_json) (λ s, s) (λ s, s)
    example_tampered "c" "1" true (example_disk [false; false; false; false; false; true])) as Hw.
  revert Hw Hr. destruct example_export as [[r fs] trace]. simpl. intros (_ & _ & _ & Hw) ->.
  split; [done|]. apply Hw.
Defined.
