(* ===== verification/Overlay.v ===== *)
(** * Overlay

    [src/src/ui/terminal/settings-overlay.ts]: the settings dialog in the
    terminal.  Keys go to the model of [Settings]; its effects start tasks that
    wait for the resolver, the configuration service, prompts and the exporter,
    and several may wait at once.

    A task is synchronous up to an [await].  The events of [overlay_step] are
    the terminal's calls and what the awaited promises deliver, in any order;
    [ov_log] is what the overlay did outside itself, in order.  The abort
    controllers are aborted by [dispose] only, so an aborted signal is a
    disposed overlay. *)

From S2P Require Import Prelude StructuredJson Config Capability Compaction EffectiveCapabilities.
From S2P Require Import Json ConfigStore Dispatch ToolActivation Tools Diagnostics Settings.

(** ** State *)

Inductive notice := notice_info | notice_warning | notice_error.

Inductive overlay_effect :=
| fx_notify (text : string) (kind : notice)
| fx_done
| fx_resolve (input : ResolveEffectiveCapabilitiesInput)
| fx_apply (config : CodexConfig) (context : ConfigCapabilityContext)
| fx_reset
| fx_confirm (title : string)
| fx_ask (title initial : string)
| fx_hidden (hidden : bool)
| fx_compact
| fx_export (path : string).

(** What a prompt is for. *)
Inductive prompt := ask_compact | ask_export | ask_limit | ask_providers | ask_path.

(** Where a task waits; for a prompt, whether it hid the overlay. *)
Inductive waiting_for :=
| for_capabilities (close : bool) (config : CodexConfig)
| for_apply (close : bool) (config : CodexConfig)
| for_reset
| for_prompt (p : prompt) (hid : bool)
| for_export.

Record overlay := {
  ov_model : SettingsModel;
  ov_disposed : bool;
  ov_attached : bool;
  ov_tasks : list waiting_for;
  ov_sessions : option coordinator;
  ov_log : list overlay_effect }.

(** What the constructor is given besides the model. *)
Record overlay_options := {
  oo_selected : option tool_model;
  oo_resolver : bool;
  oo_exporter : bool;
  oo_sessionId : string;
  oo_defaultPath : string }.

Definition on_model (f : SettingsModel → SettingsModel) (s : overlay) : overlay :=
  {| ov_model := f (ov_model s); ov_disposed := ov_disposed s; ov_attached := ov_attached s;
     ov_tasks := ov_tasks s; ov_sessions := ov_sessions s; ov_log := ov_log s |}.
Definition on_tasks (f : list waiting_for → list waiting_for) (s : overlay) : overlay :=
  {| ov_model := ov_model s; ov_disposed := ov_disposed s; ov_attached := ov_attached s;
     ov_tasks := f (ov_tasks s); ov_sessions := ov_sessions s; ov_log := ov_log s |}.
Definition on_sessions (f : coordinator → coordinator) (s : overlay) : overlay :=
  {| ov_model := ov_model s; ov_disposed := ov_disposed s; ov_attached := ov_attached s;
     ov_tasks := ov_tasks s; ov_sessions := f <$> ov_sessions s; ov_log := ov_log s |}.
Definition emit (x : overlay_effect) (s : overlay) : overlay :=
  {| ov_model := ov_model s; ov_disposed := ov_disposed s; ov_attached := ov_attached s;
     ov_tasks := ov_tasks s; ov_sessions := ov_sessions s; ov_log := ov_log s ++ [x] |}.
Definition attachOverlayHandle (s : overlay) : overlay :=
  if ov_disposed s then s else
  {| ov_model := ov_model s; ov_disposed := false; ov_attached := true;
     ov_tasks := ov_tasks s; ov_sessions := ov_sessions s; ov_log := ov_log s |}.

Definition notify (text : string) (kind : notice) : overlay → overlay := emit (fx_notify text kind).
Definition await (w : waiting_for) : overlay → overlay := on_tasks (λ ts, ts ++ [w]).

Definition dispose (s : overlay) : overlay :=
  if ov_disposed s then s else
  {| ov_model := Settings.dispose (ov_model s); ov_disposed := true; ov_attached := ov_attached s;
     ov_tasks := ov_tasks s; ov_sessions := ov_sessions s; ov_log := ov_log s |}.

Definition closeNow (s : overlay) : overlay :=
  if ov_disposed s then s else emit fx_done (dispose s).

Section overlay.
Context (number_text : jsnum → string) (parseTuiKey : string → option string).
Context (options : overlay_options).

(** ** Prompts *)

Definition prompt_effect (p : prompt) (m : SettingsModel) : overlay_effect :=
  match p with
  | ask_compact => fx_confirm "Compact Codex context"
  | ask_export => fx_confirm "Export Codex diagnostics"
  | ask_limit => fx_ask "Auto compact token limit"
      match compaction (codex (draft m)) with
      | compaction_auto (limit_tokens n) => number_text n
      | _ => "model" end
  | ask_providers => fx_ask "Active Pi provider ids" (join ", " (providers (activation (draft m))))
  | ask_path => fx_ask "Diagnostics export path" (oo_defaultPath options)
  end.

(** [#withOverlayHidden], up to its [await] and after it. *)
Definition hide_and_ask (p : prompt) (s : overlay) : overlay :=
  let hid := ov_attached s in
  let s := if hid then emit (fx_hidden true) s else s in
  await (for_prompt p hid) (emit (prompt_effect p (ov_model s)) s).
Definition show_again (hid : bool) (s : overlay) : overlay :=
  if hid && negb (ov_disposed s) then emit (fx_hidden false) s else s.

(** ** Saving *)

Definition is_configuration_error (e : store_error) : bool :=
  match e with schema_error _ => true | _ => false end.

Definition save_failed (configuration_error : bool) (s : overlay) : overlay :=
  if ov_disposed s then s else
  on_model
    (if configuration_error
     then markError "Fix the highlighted configuration fields before saving" validation_error
     else markError "Codex settings could not be saved" write_error) s.

Definition capability_input (m : tool_model) (config : CodexConfig) : ResolveEffectiveCapabilitiesInput :=
  {| in_modelId := tm_id m; in_providerId := tm_provider m; modelInputModalities := tm_input m;
     in_config := config; in_contextWindow := tm_contextWindow m; hostToolNames := None |}.

Definition apply_draft (close : bool) (config : CodexConfig) (context : ConfigCapabilityContext)
    (s : overlay) : overlay :=
  await (for_apply close config) (emit (fx_apply config context) s).

Definition save (close : bool) (s : overlay) : overlay :=
  let '(r, m) := beginSave (ov_model s) in
  let s := on_model (λ _, m) s in
  match r with
  | Throw overlay_disposed => save_failed false s
  | Throw (save_rejected _) => save_failed true s
  | Ret config =>
      match oo_selected options with
      | Some selected =>
          if oo_resolver options
          then await (for_capabilities close config) (emit (fx_resolve (capability_input selected config)) s)
          else apply_draft close config empty_context s
      | None => apply_draft close config empty_context s
      end
  end.

(** The overlay is not asked whether it was disposed before the draft is
    applied. *)
Definition save_resolved (close : bool) (config : CodexConfig)
    (r : outcome store_error EffectiveCapabilitySnapshot) (s : overlay) : overlay :=
  match r with
  | Ret effective =>
      apply_draft close config
        (capabilityContextFromSnapshot effective (oo_selected options ≫= tm_contextWindow)) s
  | Throw e => save_failed (is_configuration_error e) s
  end.

Definition save_applied (close : bool) (config : CodexConfig) (r : outcome store_error unit)
    (s : overlay) : overlay :=
  match r with
  | Ret _ =>
      if ov_disposed s then s else
      let s := notify "Codex settings saved" notice_info (on_model (markSaved config) s) in
      if close then closeNow s else s
  | Throw e => save_failed (is_configuration_error e) s
  end.

(** ** The other actions *)

(** The service resets to the default configuration. *)
Definition reset_done (r : outcome store_error unit) (s : overlay) : overlay :=
  if ov_disposed s then s else
  match r with
  | Ret _ => notify "Codex settings restored to defaults" notice_info
               (on_model (replaceWithSaved createDefaultConfig) s)
  | Throw _ => on_model (markError "Codex settings could not be reset" write_error) s
  end.

Definition compact (s : overlay) : overlay :=
  let m := ov_model s in
  let compactRow := List.find (λ r, String.eqb (row_id r) "compactNow") (rows number_text m) in
  match r ← compactRow; if enabled r then None else Some r with
  | Some r => notify (default "Codex compaction is unavailable" (disabledReason r)) notice_warning s
  | None =>
      if bool_decide (state m = dirty)
      then notify "Save or discard Codex settings before compaction" notice_warning s
      else if negb (is_auto (compaction (codex (draft m))))
      then notify "OpenAI Codex compaction is disabled" notice_warning s
      else hide_and_ask ask_compact s
  end.

Definition start_compaction (s : overlay) : overlay :=
  match ov_sessions s with
  | None => notify "OpenAI Codex compaction requested" notice_info (emit fx_compact s)
  | Some sessions =>
      let '(granted, sessions) := requestExecution (oo_sessionId options) sessions in
      if granted
      then notify "OpenAI Codex compaction requested" notice_info
             (emit fx_compact (on_sessions (λ _, sessions) s))
      else notify "OpenAI Codex compaction is already in progress" notice_warning s
  end.

Definition enter_limit (value : string) (m : SettingsModel) : SettingsModel :=
  let trimmed := trim value in
  if String.eqb trimmed "model" then setAutoCompactTokenLimit limit_model m
  else
    let numeric := js_Number trimmed in
    if negb (is_safe_integer numeric) || num_leb numeric 0%Z
    then markError "Auto compact token limit must be model or a positive integer" validation_error m
    else setAutoCompactTokenLimit (limit_tokens numeric) m.

Definition enter_providers (value : string) (m : SettingsModel) : SettingsModel :=
  let entered := trim <$> split_on "," value in
  if (length entered =? 0)%nat || existsb (λ p, (String.length p =? 0)%nat) entered ||
     negb (size (list_to_set entered : gset string) =? length entered)%nat
  then markError "Active providers must be unique, non-empty Pi provider ids" validation_error m
  else setActivationProviders entered m.

Definition exported (r : outcome export_error DiagnosticExport) (s : overlay) : overlay :=
  if ov_disposed s then s else
  match r with
  | Ret x => notify ("Diagnostics exported: " ++ ex_path x ++ " (" ++ ex_sha256 x ++ ")")%string notice_info s
  | Throw _ => notify "Codex diagnostics could not be exported" notice_error s
  end.

(** ** Effects of a key *)

Definition applyEffect (effect : SettingsEffect) (s : overlay) : overlay :=
  match effect with
  | effect_none => s
  | effect_close => closeNow s
  | effect_save => save false s
  | effect_save_and_close => save true s
  | effect_compact => compact s
  | effect_export =>
      if oo_exporter options then hide_and_ask ask_export s
      else notify "Diagnostics export is unavailable" notice_warning s
  | effect_edit_auto_compact => hide_and_ask ask_limit s
  | effect_edit_providers => hide_and_ask ask_providers s
  | effect_reset_defaults => await for_reset (emit fx_reset s)
  | security_policy_enabled message => notify message notice_warning s
  end.

Definition handleInput (data : string) (s : overlay) : overlay :=
  if ov_disposed s then s else
  let '(effect, m) := handleKey number_text parseTuiKey data (ov_model s) in
  applyEffect effect (on_model (λ _, m) s).

(** An exception of a task. *)
Definition task_failed (s : overlay) : overlay :=
  if ov_disposed s then s
  else on_model (markError "Codex settings action could not be completed" write_error) s.

(** The answer of a confirmation, and of an input; a prompt may also throw. *)
Definition confirmed (p : prompt) (hid : bool) (r : outcome unit bool) (s : overlay) : overlay :=
  let s := show_again hid s in
  match r with
  | Throw _ => task_failed s
  | Ret yes =>
      if ov_disposed s || negb yes then s else
      match p with
      | ask_compact => start_compaction s
      | ask_export => hide_and_ask ask_path s
      | _ => s
      end
  end.

Definition entered (p : prompt) (hid : bool) (r : outcome unit (option string)) (s : overlay) : overlay :=
  let s := show_again hid s in
  match r with
  | Throw _ => task_failed s
  | Ret None => s
  | Ret (Some value) =>
      if ov_disposed s then s else
      match p with
      | ask_limit => on_model (enter_limit value) s
      | ask_providers => on_model (enter_providers value) s
      | ask_path =>
          let path := trim value in
          if (String.length path =? 0)%nat then s else await for_export (emit (fx_export path) s)
      | _ => s
      end
  end.

(** ** Events *)

Inductive overlay_event :=
| ov_input (data : string)
| ov_render (width : Z)
| ov_attach
| ov_dispose
| ov_capabilities (i : nat) (r : outcome store_error EffectiveCapabilitySnapshot)
| ov_applied (i : nat) (r : outcome store_error unit)
| ov_reset (i : nat) (r : outcome store_error unit)
| ov_confirmed (i : nat) (r : outcome unit bool)
| ov_entered (i : nat) (r : outcome unit (option string))
| ov_exported (i : nat) (r : outcome export_error DiagnosticExport)
| ov_compaction_ended (result : CompactionOutcome).

(** Task [i] goes on with [k] when it waits for what arrived. *)
Definition go_on (i : nat) (k : waiting_for → option (overlay → overlay)) (s : overlay) : overlay :=
  match ov_tasks s !! i ≫= k with
  | Some f => f (on_tasks (delete i) s)
  | None => s
  end.

Definition is_confirmation (p : prompt) : bool :=
  match p with ask_compact | ask_export => true | _ => false end.

Definition overlay_step (e : overlay_event) (s : overlay) : overlay :=
  match e with
  | ov_input data => handleInput data s
  | ov_render width => on_model (λ m, (lines number_text m width).2) s
  | ov_attach => attachOverlayHandle s
  | ov_dispose => dispose s
  | ov_capabilities i r => go_on i (λ w, match w with
      | for_capabilities close config => Some (save_resolved close config r) | _ => None end) s
  | ov_applied i r => go_on i (λ w, match w with
      | for_apply close config => Some (save_applied close config r) | _ => None end) s
  | ov_reset i r => go_on i (λ w, match w with for_reset => Some (reset_done r) | _ => None end) s
  | ov_confirmed i r => go_on i (λ w, match w with
      | for_prompt p hid => if is_confirmation p then Some (confirmed p hid r) else None
      | _ => None end) s
  | ov_entered i r => go_on i (λ w, match w with
      | for_prompt p hid => if is_confirmation p then None else Some (entered p hid r)
      | _ => None end) s
  | ov_exported i r => go_on i (λ w, match w with for_export => Some (exported r) | _ => None end) s
  | ov_compaction_ended result => on_sessions (end_ (oo_sessionId options) result) s
  end.

Definition overlay_run (events : list overlay_event) (s : overlay) : overlay :=
  fold_left (λ s e, overlay_step e s) events s.

Definition new_overlay (model : SettingsModel) (sessions : option coordinator) : overlay :=
  {| ov_model := model; ov_disposed := false; ov_attached := false; ov_tasks := [];
     ov_sessions := sessions; ov_log := [] |}.

(** ** Opening *)

Definition availability_status (a : Availability) : string :=
  match a with available _ => "available" | Capability.disabled _ => "disabled" | unavailable _ => "unavailable" end.

Definition diagnosticCapabilities (e : EffectiveCapabilitySnapshot) : jsval := VObj [
  ("modelId", VStr (modelId e)); ("shellPrimary", lit (primary (shell e)));
  ("sessionSurface", lit (sh_sessionSurface (shell e)));
  ("sessions", VStr (availability_status (sessions (shell e))));
  ("applyPatch", VStr (availability_status (applyPatch e)));
  ("viewImage", VStr (availability_status (snap_viewImage e)));
  ("imageGeneration", VStr (availability_status (snap_imageGeneration e)));
  ("webSearch", VStr (availability_status (snap_webSearch e))); ("webSurface", lit (snap_webSurface e));
  ("manualCompaction", VStr (availability_status (manual (snap_compaction e))));
  ("automaticCompaction", VStr (availability_status (automatic (snap_compaction e))));
  ("autoCompactThreshold", nullable (threshold (snap_compaction e)));
  ("transport", VStr (availability_status (transport e)));
  ("localTools", VArr (lit <$> localTools e)); ("hostedTools", VArr (VStr <$> hostedTools e))].

Definition SETTING_IDS : list (string * string) :=
  [("tools.backgroundSessions", "backgroundSessions"); ("tools.optional.viewImage", "viewImage");
   ("tools.optional.imageGeneration", "imageGeneration"); ("codex.transport.mode", "transport");
   ("codex.webSearch.mode", "webSearch"); ("codex.compaction.mode", "compaction");
   ("codex.compaction.autoCompactTokenLimit", "autoCompactTokenLimit")].

Definition unsupported_reason (e : ConfigSettingEvaluation) : option string :=
  match eval_availability e with setting_unsupported reason => Some reason | _ => None end.

Definition disabled_reason (e : ConfigSettingEvaluation) : option (string * string) :=
  reason ← unsupported_reason e;
  id ← List.find (λ kv, String.eqb kv.1 (eval_path e)) SETTING_IDS;
  Some (id.2, reason).

Definition disabledReasons_of (evaluations : list ConfigSettingEvaluation) : list (string * string) :=
  omap disabled_reason evaluations ++
  match e ← List.find (λ e, String.eqb (eval_path e) "codex.compaction.mode") evaluations;
        unsupported_reason e with
  | Some reason => [("compactNow", reason)]
  | None => []
  end.

(** What [openSettingsOverlay] finds: the terminal, the configuration, the
    native diagnostics ([undefined] when they cannot be read), and what the
    resolver answers. *)
Record open_world := {
  ow_terminal : bool;
  ow_config : outcome store_error CodexConfig;
  ow_diagnostics : jsval;
  ow_effective : outcome store_error EffectiveCapabilitySnapshot }.

Definition no_host (effective : option EffectiveCapabilitySnapshot) : DiagnosticsHostContext :=
  {| h_adaptorVersion := VUndef; h_piVersion := VUndef; h_os := VUndef; h_arch := VUndef;
     h_binaryChecksum := VUndef; h_recentErrors := VUndef;
     h_effectiveCapabilities := default VUndef (diagnosticCapabilities <$> effective) |}.

Definition model_options (config : CodexConfig) (snapshot : DiagnosticsSnapshot)
    (effective : option EffectiveCapabilitySnapshot) : SettingsModelOptions :=
  let selected := oo_selected options in
  {| baseline := "0.146.0";
     opt_provider := default "unresolved" (tm_provider <$> selected);
     opt_model := default "unresolved" (tm_id <$> selected);
     bridge := match field (dg_bridge snapshot) "bridgeProtocolVersion" with
       | VNum n => ("protocol v" ++ number_text n)%string | _ => "unavailable" end;
     opt_activationModel := (λ m, {| am_provider := tm_provider m; am_api := tm_api m |}) <$> selected;
     opt_activationStatus := None;
     opt_capabilities := match field (dg_bridge snapshot) "capabilities" with
       | VArr items => Some (omap (λ v, match v with VStr s => Some s | _ => None end) items)
       | _ => None end;
     disabledReasons := match effective with
       | Some e => disabledReasons_of (evaluateConfigSettings config
           (capabilityContextFromSnapshot e (selected ≫= tm_contextWindow)))
       | None => [] end;
     opt_modelLimit := effective ≫= λ e, modelThreshold (snap_compaction e) |}.

(** The notification of a failure, the overlay that opens, and the snapshot it
    may export. *)
Definition openSettingsOverlay (w : open_world) (sessions : option coordinator)
    : list overlay_effect * option (overlay * DiagnosticsSnapshot) :=
  if negb (ow_terminal w)
  then ([fx_notify "Codex settings require an interactive terminal" notice_warning], None) else
  match ow_config w with
  | Throw e =>
      ([fx_notify (if is_configuration_error e then "Codex configuration is invalid"
                   else "Codex configuration could not be loaded") notice_error], None)
  | Ret config =>
      let '(notices, effective) :=
        match oo_selected options with
        | Some _ =>
            if oo_resolver options then
              match ow_effective w with
              | Ret e => ([], Some e)
              | Throw _ => ([fx_notify "Codex effective capabilities could not be resolved" notice_warning], None)
              end
            else ([], None)
        | None => ([], None)
        end in
      let snapshot := createDiagnosticsSnapshot config (ow_diagnostics w) (no_host effective) in
      (notices, Some (new_overlay (new_settings config (model_options config snapshot effective)) sessions,
                      snapshot))
  end.

End overlay.
