(* ===== verification/OverlayFacts.v ===== *)
(** * OverlayFacts

    Facts of [Overlay]: what the dialog does outside itself needs its own
    confirmation, what it saves is a configuration the parser accepts, and a
    closed dialog changes nothing more. *)

From S2P Require Import Prelude StructuredJson Config ConfigFacts Capability Compaction EffectiveCapabilities.
From S2P Require Import Json ConfigStore ToolActivation Tools Diagnostics Settings Overlay.

Section facts.
Context (number_text : jsnum → string) (parseTuiKey : string → option string) (options : overlay_options).

Abbreviation step := (overlay_step number_text parseTuiKey options).
Abbreviation run := (overlay_run number_text parseTuiKey options).
Abbreviation handle := (handleKey number_text parseTuiKey).

(** ** Steps that only add to the log and the tasks *)

(** From [s] to [s'] the log grows by effects in [P] and the tasks by tasks in
    [Q]. *)
Definition adds (P : overlay_effect → Prop) (Q : waiting_for → Prop) (s s' : overlay) : Prop :=
  (∃ xs, ov_log s' = ov_log s ++ xs ∧ Forall P xs) ∧
  (∀ w, w ∈ ov_tasks s' → w ∈ ov_tasks s ∨ Q w).

Lemma adds_refl P Q s : adds P Q s s.
Proof. split; [exists []; by rewrite app_nil_r|auto]. Qed.

Lemma adds_trans P Q s1 s2 s3 : adds P Q s1 s2 → adds P Q s2 s3 → adds P Q s1 s3.
Proof.
  intros [(xs & E1 & H1) T1] [(ys & E2 & H2) T2]. split.
  - exists (xs ++ ys). rewrite E2, E1, (assoc_L app). split; [done|by apply Forall_app].
  - intros w [Hw|Hw]%T2; [by apply T1|by right].
Qed.

Lemma adds_emit (P : overlay_effect → Prop) Q x s s' : P x → adds P Q s s' → adds P Q s (emit x s').
Proof.
  intros Hx [(xs & E & H) T]. split; [|done]. exists (xs ++ [x]). simpl. rewrite E, (assoc_L app).
  split; [done|]. apply Forall_app. split; [done|by constructor].
Qed.

Lemma adds_await P (Q : waiting_for → Prop) w s s' : Q w → adds P Q s s' → adds P Q s (await w s').
Proof.
  intros Hw [Hx T]. split; [done|]. simpl. intros v [Hv| ->%list_elem_of_singleton]%elem_of_app; auto.
Qed.

Lemma adds_model P Q f s s' : adds P Q s s' → adds P Q s (on_model f s').
Proof. done. Qed.
Lemma adds_sessions P Q f s s' : adds P Q s s' → adds P Q s (on_sessions f s').
Proof. done. Qed.

Lemma adds_take P Q i s : adds P Q s (on_tasks (delete i) s).
Proof.
  split; [exists []; by rewrite app_nil_r|]. simpl. intros w Hw. left.
  eapply sublist_subseteq; [apply (sublist_delete _ i)|done].
Qed.

Lemma adds_dispose P Q s s' : adds P Q s s' → adds P Q s (dispose s').
Proof. unfold dispose. by destruct (ov_disposed s'). Qed.

Create HintDb overlay.
Hint Resolve adds_refl adds_emit adds_await adds_model adds_sessions adds_take adds_dispose : overlay.

Ltac adds_same := repeat first [apply adds_refl | apply adds_take | apply adds_model | apply adds_sessions].

Lemma adds_show (P : overlay_effect → Prop) Q hid s s' :
  P (fx_hidden false) → adds P Q s s' → adds P Q s (show_again hid s').
Proof. unfold show_again. case_match; auto with overlay. Qed.

Lemma adds_hide (P : overlay_effect → Prop) (Q : waiting_for → Prop) p s s' :
  (∀ b, P (fx_hidden b)) → P (prompt_effect number_text options p (ov_model s')) →
  (∀ hid, Q (for_prompt p hid)) → adds P Q s s' → adds P Q s (hide_and_ask number_text options p s').
Proof.
  intros Hh Hp Hq Ha. unfold hide_and_ask. apply adds_await; [done|].
  apply adds_emit; [|case_match; auto with overlay].
  by destruct (ov_attached s').
Qed.

Lemma adds_close (P : overlay_effect → Prop) Q s s' :
  (ov_disposed s' = false → P fx_done) → adds P Q s s' → adds P Q s (closeNow s').
Proof. unfold closeNow. destruct (ov_disposed s'); auto with overlay. Qed.

Lemma adds_failed P Q b s s' : adds P Q s s' → adds P Q s (save_failed b s').
Proof. unfold save_failed. by destruct (ov_disposed s'). Qed.
Lemma adds_task_failed P Q s s' : adds P Q s s' → adds P Q s (task_failed s').
Proof. unfold task_failed. by destruct (ov_disposed s'). Qed.

Hint Resolve adds_show adds_hide adds_close adds_failed adds_task_failed : overlay.

(** ** Causes *)

(** The effect the model has for a key of an open dialog. *)
Definition pressed (e : overlay_event) (s : overlay) (effect : SettingsEffect) : Prop :=
  ov_disposed s = false ∧ ∃ data, e = ov_input data ∧ (handle data (ov_model s)).1 = effect.

(** A key for saving, with or without closing, and the configuration it begins to
    save: the draft, parsed. *)
Definition begins (e : overlay_event) (s : overlay) (close : bool) (config : CodexConfig) : Prop :=
  ov_disposed s = false ∧ ∃ data, e = ov_input data ∧
    (handle data (ov_model s)).1 = (if close then effect_save_and_close else effect_save) ∧
    (beginSave (handle data (ov_model s)).2).1 = Ret config.

Definition resolves : Prop := is_Some (oo_selected options) ∧ oo_resolver options = true.

(** What may cause an effect outside the dialog. *)
Definition caused (e : overlay_event) (s : overlay) (x : overlay_effect) : Prop :=
  match x with
  | fx_compact => ov_disposed s = false ∧
      ∃ i hid, e = ov_confirmed i (Ret true) ∧ ov_tasks s !! i = Some (for_prompt ask_compact hid) ∧
        ∀ sessions, ov_sessions s = Some sessions → isBusy (oo_sessionId options) sessions = false
  | fx_export path => ov_disposed s = false ∧
      ∃ i hid value, e = ov_entered i (Ret (Some value)) ∧ ov_tasks s !! i = Some (for_prompt ask_path hid) ∧
        path = trim value ∧ path ≠ ""
  | fx_apply config context =>
      (¬ resolves ∧ (∃ close, begins e s close config) ∧ context = empty_context) ∨
      (∃ i close snapshot, e = ov_capabilities i (Ret snapshot) ∧
         ov_tasks s !! i = Some (for_capabilities close config) ∧
         context = capabilityContextFromSnapshot snapshot (oo_selected options ≫= tm_contextWindow))
  | fx_resolve input => resolves ∧ ∃ close config selected, begins e s close config ∧
      oo_selected options = Some selected ∧ input = capability_input selected config
  | fx_reset => pressed e s effect_reset_defaults
  | fx_done => ov_disposed s = false ∧
      (pressed e s effect_close ∨ ∃ i config, e = ov_applied i (Ret tt) ∧ ov_tasks s !! i = Some (for_apply true config))
  | fx_notify _ _ | fx_confirm _ | fx_ask _ _ | fx_hidden _ => True
  end.

(** And what may start a task. *)
Definition started (e : overlay_event) (s : overlay) (w : waiting_for) : Prop :=
  match w with
  | for_prompt ask_path _ =>
      ∃ i hid, e = ov_confirmed i (Ret true) ∧ ov_tasks s !! i = Some (for_prompt ask_export hid)
  | for_prompt ask_compact _ => pressed e s effect_compact ∧ ∀ data, e = ov_input data →
      let m := (handle data (ov_model s)).2 in
      state m ≠ dirty ∧ is_auto (compaction (codex (draft m))) = true
  | for_prompt ask_export _ => pressed e s effect_export
  | for_prompt ask_limit _ => pressed e s effect_edit_auto_compact
  | for_prompt ask_providers _ => pressed e s effect_edit_providers
  | for_capabilities close config => resolves ∧ begins e s close config
  | for_apply close config =>
      (¬ resolves ∧ begins e s close config) ∨
      (∃ i snapshot, e = ov_capabilities i (Ret snapshot) ∧ ov_tasks s !! i = Some (for_capabilities close config))
  | for_reset => pressed e s effect_reset_defaults
  | for_export =>
      ∃ i hid value, e = ov_entered i (Ret (Some value)) ∧ ov_tasks s !! i = Some (for_prompt ask_path hid)
  end.

Lemma adds_save e s data (close : bool) : e = ov_input data → ov_disposed s = false →
  (handle data (ov_model s)).1 = (if close then effect_save_and_close else effect_save) →
  adds (caused e s) (started e s) s
    (save options close (on_model (λ _, (handle data (ov_model s)).2) s)).
Proof.
  intros -> Hd Hk. unfold save. simpl. destruct (beginSave _) as [[config|err] m] eqn:Eb.
  - assert (Hb : begins (ov_input data) s close config) by (split; [done|exists data; by rewrite Eb]).
    assert (Ha : ¬ resolves → adds (caused (ov_input data) s) (started (ov_input data) s) s
      (apply_draft close config empty_context (on_model (λ _, m) (on_model (λ _, (handle data (ov_model s)).2) s)))).
    { intros Hr. unfold apply_draft. apply adds_await; [by left|]. apply adds_emit; [left; by eauto|adds_same]. }
    destruct (oo_selected options) as [selected|] eqn:Hs; [|apply Ha; intros [[y Hy] _]; congruence].
    destruct (oo_resolver options) eqn:Hr; [|apply Ha; intros [_ Hy]; congruence].
    assert (Hres : resolves) by (split; [by eexists|done]).
    apply adds_await; [done|]. apply adds_emit; [|adds_same]. split; [done|]. by exists close, config, selected.
  - destruct err; apply adds_failed; adds_same.
Qed.

Lemma adds_input data s : adds (caused (ov_input data) s) (started (ov_input data) s) s
  (handleInput number_text parseTuiKey options data s).
Proof.
  unfold handleInput. destruct (ov_disposed s) eqn:Hd; [adds_same|].
  destruct (handle data (ov_model s)) as [effect m] eqn:Eh.
  assert (Em : m = (handle data (ov_model s)).2) by (by rewrite Eh).
  assert (Hp : pressed (ov_input data) s effect) by (split; [done|exists data; by rewrite Eh]).
  destruct effect; cbn [applyEffect].
  - adds_same.
  - rewrite Em. apply adds_save; [done..|by rewrite Eh].
  - rewrite Em. apply adds_save; [done..|by rewrite Eh].
  - apply adds_close; [|adds_same]. intros _. split; [done|by left].
  - unfold compact. cbn [ov_model on_model].
    case_match; [apply adds_emit; [done|adds_same]|].
    destruct (bool_decide (state m = dirty)) eqn:Hst; [apply adds_emit; [done|adds_same]|].
    destruct (negb (is_auto _)) eqn:Hau; [apply adds_emit; [done|adds_same]|].
    apply adds_hide; [done..| |adds_same]. intros hid. split; [done|]. intros data' [= <-]. cbv zeta. rewrite <- Em.
    apply bool_decide_eq_false in Hst. by apply negb_false_iff in Hau.
  - case_match; [|apply adds_emit; [done|adds_same]]. apply adds_hide; try done. adds_same.
  - apply adds_hide; try done. adds_same.
  - apply adds_hide; try done. adds_same.
  - apply adds_await; [done|]. apply adds_emit; [done|adds_same].
  - apply adds_emit; [done|adds_same].
Qed.

(** ** Every step *)

Lemma adds_go_on P Q i k s :
  (∀ w f, ov_tasks s !! i = Some w → k w = Some f → adds P Q s (f (on_tasks (delete i) s))) →
  adds P Q s (go_on i k s).
Proof.
  intros Hk. unfold go_on. destruct (ov_tasks s !! i) as [w|] eqn:Hw; [|apply adds_refl]. simpl.
  destruct (k w) as [f|] eqn:Hf; [by eapply Hk|apply adds_refl].
Qed.

Lemma adds_step e s : adds (caused e s) (started e s) s (step e s).
Proof.
  destruct e as [data|w| | |i r|i r|i r|i r|i r|i r|result]; cbn [overlay_step].
  - apply adds_input.
  - adds_same.
  - unfold attachOverlayHandle. destruct (ov_disposed s); exact (adds_refl _ _ s).
  - apply adds_dispose, adds_refl.
  - apply adds_go_on. intros w f Hw Hf. destruct w as [close config| | | |]; simplify_eq/=.
    destruct r as [snapshot|err]; simpl; [|apply adds_failed; adds_same].
    unfold apply_draft. apply adds_await; [right; eauto|]. apply adds_emit; [|adds_same]. right. eauto 6.
  - apply adds_go_on. intros w f Hw Hf. destruct w as [|close config| | |]; simplify_eq/=.
    destruct r as [[]|err]; simpl; [|apply adds_failed; adds_same].
    destruct (ov_disposed s) eqn:Hd; [adds_same|].
    destruct close; [apply adds_close|]; [|apply adds_emit; [done|adds_same]..].
    intros _. split; [done|]. right. eauto.
  - apply adds_go_on. intros w f Hw Hf. destruct w; simplify_eq/=. unfold reset_done. simpl.
    destruct (ov_disposed s); [adds_same|]. destruct r; [apply adds_emit; [done|]|]; adds_same.
  - apply adds_go_on. intros w f Hw Hf. destruct w as [| | |p hid|]; simplify_eq/=.
    destruct (is_confirmation p) eqn:Hp; simplify_eq. unfold confirmed.
    set (s1 := on_tasks (delete i) s).
    assert (Ha : adds (caused (ov_confirmed i r) s) (started (ov_confirmed i r) s) s (show_again hid s1)).
    { apply adds_show; [done|]. adds_same. }
    assert (Hd : ov_disposed (show_again hid s1) = ov_disposed s ∧ ov_sessions (show_again hid s1) = ov_sessions s).
    { unfold show_again. by destruct (_ && _). }
    destruct r as [yes|[]]; [|by apply adds_task_failed]. destruct Hd as [-> Es].
    destruct (ov_disposed s) eqn:Hd; [done|]. destruct yes; [|done]. simpl.
    destruct p; try done.
    + unfold start_compaction. rewrite Es. destruct (ov_sessions s) as [sessions|] eqn:Ess.
      * unfold requestExecution. destruct (isBusy _ sessions) eqn:Hb; [by apply adds_emit|].
        apply adds_emit; [done|]. apply adds_emit; [|done]. simpl. split; [done|].
        exists i, hid. split_and!; [done..|]. intros x. rewrite Ess. by intros [= <-].
      * apply adds_emit; [done|]. apply adds_emit; [|done]. simpl. split; [done|].
        exists i, hid. split_and!; [done..|]. by rewrite Ess.
    + apply adds_hide; try done. intros hid'. simpl. eauto.
  - apply adds_go_on. intros w f Hw Hf. destruct w as [| | |p hid|]; simplify_eq/=.
    destruct (is_confirmation p) eqn:Hp; simplify_eq. unfold entered.
    set (s1 := on_tasks (delete i) s).
    assert (Ha : adds (caused (ov_entered i r) s) (started (ov_entered i r) s) s (show_again hid s1)).
    { apply adds_show; [done|]. adds_same. }
    assert (Hd : ov_disposed (show_again hid s1) = ov_disposed s).
    { unfold show_again. by destruct (_ && _). }
    destruct r as [[value|]|[]]; [|done|by apply adds_task_failed]. rewrite Hd.
    destruct (ov_disposed s) eqn:Hds; [done|].
    destruct p; try done.
    destruct (Nat.eqb_spec (String.length (trim value)) 0) as [|Hne]; [done|].
    apply adds_await; [by exists i, hid, value|]. apply adds_emit; [|done]. simpl. split; [done|].
    exists i, hid, value. split_and!; try done. by intros E; rewrite E in Hne.
  - apply adds_go_on. intros w f Hw Hf. destruct w; simplify_eq/=. unfold exported. simpl.
    destruct (ov_disposed s); [adds_same|]. destruct r; (apply adds_emit; [done|adds_same]).
  - adds_same.
Qed.
(** ** What every operation keeps *)

(** A property of states that the operations the steps are made of keep. *)
Record closed (P : overlay → Prop) : Prop := {
  c_emit : ∀ x s, x ≠ fx_done → P s → P (emit x s);
  c_close : ∀ s, P s → P (closeNow s);
  c_dispose : ∀ s, P s → P (Overlay.dispose s);
  c_attach : ∀ s, P s → P (attachOverlayHandle s);
  c_model : ∀ f s, P s → P (on_model f s);
  c_tasks : ∀ f s, P s → P (on_tasks f s);
  c_sessions : ∀ f s, P s → P (on_sessions f s) }.

Lemma closed_step P e s : closed P → P s → P (step e s).
Proof.
  intros [He Hc Hd Ha Hm Ht Hs] HP.
  assert (Hf : ∀ b s, P s → P (save_failed b s)) by (intros b x ?; unfold save_failed; case_match; auto).
  assert (Htf : ∀ s, P s → P (task_failed s)) by (intros x ?; unfold task_failed; case_match; auto).
  assert (Hh : ∀ p s, P s → P (hide_and_ask number_text options p s)).
  { intros p x Hx. unfold hide_and_ask, await. apply Ht, He; [by destruct p|]. case_match; auto. }
  assert (Hw : ∀ h s, P s → P (show_again h s)).
  { intros h x Hx. unfold show_again. case_match; auto. }
  assert (Hn : ∀ t k s, P s → P (Overlay.notify t k s)) by (intros; by apply He).
  assert (Haw : ∀ w s, P s → P (await w s)) by (intros; by apply Ht).
  assert (Hap : ∀ b c x s, P s → P (apply_draft b c x s)) by (intros; apply Ht; by apply He).
  assert (Hgo : ∀ i k, (∀ w f s, k w = Some f → P s → P (f s)) → P (go_on i k s)).
  { intros i k Hk. unfold go_on. destruct (ov_tasks s !! i) as [w|]; [simpl|done].
    destruct (k w) eqn:E; [|done]. eapply Hk; [done|by apply Ht]. }
  assert (Hsv : ∀ b s, P s → P (save options b s)).
  { intros b x Hx. unfold save. destruct (beginSave _) as [[config|[]] m]; auto.
    destruct (oo_selected options); [|by auto]. destruct (oo_resolver options); [|by auto].
    apply Ht. apply He; [done|by auto]. }
  destruct e as [data|w| | |i r|i r|i r|i r|i r|i r|result]; cbn [overlay_step]; auto.
  - unfold handleInput. destruct (ov_disposed s); [done|].
    destruct (handle data (ov_model s)) as [[] m]; cbn [applyEffect]; unfold compact;
      repeat case_match; auto.
  - apply Hgo. intros [] f x ?; simplify_eq/=. intros Hx. destruct r; simpl; auto.
  - apply Hgo. intros [] f x ?; simplify_eq/=. intros Hx. destruct r; simpl; [|by auto].
    repeat case_match; auto.
  - apply Hgo. intros [] f x ?; simplify_eq/=. intros Hx. unfold reset_done. repeat case_match; auto.
  - apply Hgo. intros [] f x ?; simplify_eq/=. destruct (is_confirmation p); simplify_eq. intros Hx.
    unfold confirmed, start_compaction, requestExecution. repeat case_match; simplify_eq; auto.
  - apply Hgo. intros [] f x ?; simplify_eq/=. destruct (is_confirmation p); simplify_eq. intros Hx.
    unfold entered. repeat case_match; simplify_eq; auto.
  - apply Hgo. intros [] f x ?; simplify_eq/=. intros Hx. unfold exported. repeat case_match; auto.
Qed.

Lemma closed_run P events s : closed P → P s → P (run events s).
Proof.
  intros Hc. revert s. induction events as [|e events IH]; intros s HP; [done|].
  by apply IH, closed_step.
Qed.

(** ** Closing *)

Definition is_done (x : overlay_effect) : bool := match x with fx_done => true | _ => false end.
Definition is_apply (x : overlay_effect) : Prop := match x with fx_apply _ _ => True | _ => False end.

Definition done_once (s : overlay) : Prop :=
  length (List.filter is_done (ov_log s)) ≤ if ov_disposed s then 1 else 0.

Lemma done_once_closed : closed done_once.
Proof.
  unfold done_once. split; intros *; simpl; try done.
  - intros Hx Hs. rewrite List.filter_app, length_app. destruct x; simpl; try done; lia.
  - unfold closeNow, Overlay.dispose. destruct (ov_disposed s) eqn:Hd; rewrite ?Hd; simpl; [done|].
    intros Hs. rewrite List.filter_app, length_app. simpl. lia.
  - unfold Overlay.dispose. destruct (ov_disposed s) eqn:Hd; rewrite ?Hd; simpl; [done|lia].
  - unfold attachOverlayHandle. destruct (ov_disposed s) eqn:Hd; rewrite ?Hd; simpl; [done|lia].
Qed.

(** What is kept of the model once the overlay is disposed. *)
Record closed_with (m : SettingsModel) (n : list overlay_effect) (s : overlay) : Prop := {
  cw_disposed : ov_disposed s = true;
  cw_draft : draft (ov_model s) = draft m ∧ saved (ov_model s) = saved m;
  cw_log : ∃ xs, ov_log s = n ++ xs ∧ Forall is_apply xs }.

Lemma closed_with_step m n e s : closed_with m n s → closed_with m n (step e s).
Proof.
  intros [Hd Hdr (xs & Hl & Hx)].
  assert (Hself : ∀ i, closed_with m n (on_tasks (delete i) s)) by (intros; split; eauto).
  assert (Hs : closed_with m n s) by (split; eauto).
  destruct e as [data|w| | |i r|i r|i r|i r|i r|i r|result]; cbn [overlay_step].
  - unfold handleInput. by rewrite Hd.
  - split; simpl; eauto.
  - unfold attachOverlayHandle. by rewrite Hd.
  - unfold Overlay.dispose. by rewrite Hd.
  - unfold go_on. destruct (ov_tasks s !! i) as [[close config| | | |]|]; simpl; try done.
    destruct r; simpl; [|unfold save_failed; simpl; by rewrite Hd].
    split; simpl; try done. exists (xs ++ [fx_apply config (capabilityContextFromSnapshot a (oo_selected options ≫= tm_contextWindow))]).
    rewrite Hl, (assoc_L app). split; [done|]. apply Forall_app. split; [done|by constructor].
  - unfold go_on. destruct (ov_tasks s !! i) as [[| | | |]|]; simpl; try done.
    destruct r; simpl; [by rewrite Hd|unfold save_failed; simpl; by rewrite Hd].
  - unfold go_on. destruct (ov_tasks s !! i) as [[| | | |]|]; simpl; try done.
    unfold reset_done. simpl. by rewrite Hd.
  - unfold go_on. destruct (ov_tasks s !! i) as [[| | |p hid|]|]; simpl; try done.
    destruct (is_confirmation p); simpl; [|done].
    unfold confirmed, show_again, task_failed. simpl. rewrite Hd, andb_false_r. simpl. rewrite Hd.
    destruct r; apply Hself.
  - unfold go_on. destruct (ov_tasks s !! i) as [[| | |p hid|]|]; simpl; try done.
    destruct (is_confirmation p); simpl; [done|].
    unfold entered, show_again, task_failed. simpl. rewrite Hd, andb_false_r. simpl. rewrite Hd.
    destruct r as [[]|]; apply Hself.
  - unfold go_on. destruct (ov_tasks s !! i) as [[| | | |]|]; simpl; try done.
    unfold exported. simpl. by rewrite Hd.
  - split; simpl; eauto.
Qed.

(** What is saved was accepted by the parser. *)
Definition saves_valid (s : overlay) : Prop :=
  (∀ close config, for_capabilities close config ∈ ov_tasks s → valid_config config) ∧
  (∀ config context, fx_apply config context ∈ ov_log s → valid_config config).

Lemma begins_valid e s close config : begins e s close config → valid_config config.
Proof.
  intros (_ & data & _ & _ & Hb). revert Hb. unfold beginSave. destruct (disposed _); [done|].
  destruct (parseConfig _) as [c|] eqn:Hp; simpl; [|done]. intros [= <-]. by eapply parseConfig_valid.
Qed.

Lemma saves_valid_step e s : saves_valid s → saves_valid (step e s).
Proof.
  intros [Ht Hl]. destruct (adds_step e s) as [(xs & Exs & Hxs) Hts]. split.
  - intros close config [Hw|[_ Hb]]%Hts; [by eapply Ht|by eapply begins_valid].
  - intros config context. rewrite Exs, elem_of_app. intros [Hx|Hx]; [by eapply Hl|].
    rewrite Forall_forall in Hxs. destruct (Hxs _ Hx) as [(_ & [close Hb] & _)|(i & close & e' & _ & Hw & _)].
    + by eapply begins_valid.
    + eapply Ht. by eapply list_elem_of_lookup_2.
Qed.

Lemma saves_valid_run events s : saves_valid s → saves_valid (run events s).
Proof.
  revert s. induction events as [|e events IH]; intros s Hs; [done|]. by apply IH, saves_valid_step.
Qed.

Lemma closed_with_run m n events s : closed_with m n s → closed_with m n (run events s).
Proof.
  revert s. induction events as [|e events IH]; intros s Hs; [done|]. by apply IH, closed_with_step.
Qed.

Lemma closed_with_close s : closed_with (ov_model s) (ov_log (closeNow s)) (closeNow s).
Proof.
  assert (Hx : ∀ l : list overlay_effect, ∃ xs, l = l ++ xs ∧ Forall is_apply xs).
  { intros l. exists []. by rewrite app_nil_r. }
  unfold closeNow, Overlay.dispose. destruct (ov_disposed s) eqn:Hd; split; auto; by rewrite Hd.
Qed.

Lemma saves_valid_close s : saves_valid s → saves_valid (closeNow s).
Proof.
  intros [Ht Hl]. unfold closeNow, Overlay.dispose. destruct (ov_disposed s); [done|].
  split; [done|]. simpl. intros config context [Hx|Hx%list_elem_of_singleton]%elem_of_app; [by eapply Hl|done].
Qed.

(** C26: every effect of the dialog outside itself has its own cause.  A
    compaction starts only when its confirmation is accepted, the dialog is
    open and no compaction of the session is busy, and the confirmation was
    asked for by its key, for a clean draft with compaction on; an export only to
    the path entered in the prompt that follows an accepted confirmation, which
    its key asks for.  A draft is applied only as the parsed draft of a key whose
    effect is to save, when there is a resolver only after it answered for that
    save and with the context of the answer, and is closed after only for the key
    that saves and closes; the defaults are restored only for the key for that; and
    the dialog reports that it is done only while it is open, for the key that
    closes it or when a save that closes it has succeeded. *)
Theorem overlay_acts_with_consent (e : overlay_event) (s : overlay) :
  (∃ xs, ov_log (step e s) = ov_log s ++ xs ∧
         Forall (caused e s) xs) ∧
  (∀ w, w ∈ ov_tasks (step e s) → w ∈ ov_tasks s ∨ started e s w).
Proof. exact (adds_step e s). Qed.

(** in every order of keys, answers and failures, the dialog reports that
    it is done at most once and every configuration it saves is valid; and once
    it is closed, whatever arrives later neither shows nor notifies anything,
    starts nothing but the saving of a draft already under way, and leaves
    draft and saved configuration as they were. *)
Theorem closed_overlay_is_inert (events later : list overlay_event) (model : SettingsModel)
    (sessions : option coordinator) :
  let s := run events (new_overlay model sessions) in
  let s' := run later (closeNow s) in
  length (List.filter is_done (ov_log s')) ≤ 1 ∧
  (∀ config context, fx_apply config context ∈ ov_log s' → valid_config config) ∧
  ov_disposed s' = true ∧
  draft (ov_model s') = draft (ov_model s) ∧ saved (ov_model s') = saved (ov_model s) ∧
  ∃ xs, ov_log s' = ov_log (closeNow s) ++ xs ∧ Forall is_apply xs.
Proof.
  intros s s'. pose proof (closed_with_run _ _ later _ (closed_with_close s)) as [Hd [Hdr Hsv] Hlog].
  fold s' in Hd, Hdr, Hsv, Hlog. split_and!; try done.
  - assert (Hn : done_once s').
    { apply closed_run; [apply done_once_closed|]. apply (c_close _ done_once_closed).
      apply closed_run; [apply done_once_closed|]. unfold done_once. simpl. lia. }
    unfold done_once in Hn. by rewrite Hd in Hn.
  - apply saves_valid_run, saves_valid_close, saves_valid_run. split; intros *; simpl; by rewrite elem_of_nil.
Qed.
End facts.
