(* ===== verification/Extension.v ===== *)
(** * Extension

    The composition root: [src/src/extension.ts] with the provider routes of
    [src/src/integration/pi/provider-dispatcher.ts], the host gates of
    [src/src/integration/pi/host-capability.ts] and the listeners
    [src/src/integration/pi/codex-compaction.ts] registers.

    A process holds the instances of the extension and the session router they
    share.  An instance holds the objects [piCodexAdaptor] creates, each the
    state of its own component, and the provider registry of the host it was
    started in.  An event is a handler the host calls or the continuation of
    one that waits; everything between two [await]s is one step. *)

From S2P Require Import Prelude Json StructuredJson Capability Config ConfigStore ToolProfile Compaction EffectiveCapabilities.
From S2P Require Import RequestGuard SessionRouter Runtime ToolActivation.

(** ** Host gates *)

(** The API object of a host: its values, and the names of its functions. *)
Record PiHost := { host_values : list (string * jsval); host_functions : list string }.

Definition is_function (pi : PiHost) (name : string) : bool := js_elem name (host_functions pi).

Definition capabilityVersion (pi : PiHost) (name : string) : jsval := field (host_values pi) name.

(** Every version required is 1. *)
Definition REQUIRED_API_VERSION : jsval := VNum 1%Z.
Definition is_required (v : jsval) : bool := bool_decide (v = REQUIRED_API_VERSION).

Definition host_incompatible (what : string) : string :=
  ("Pi host is incompatible: requires " ++ what ++ " version 1")%string.

Definition assertProviderPayloadCompactionHost (pi : PiHost) : outcome string unit :=
  guard_throw (is_required (capabilityVersion pi "extensionSdkApiVersion"))
    (host_incompatible "extension SDK API");;
  guard_throw (is_required (capabilityVersion pi "providerPayloadCompactionApiVersion"))
    (host_incompatible "provider payload compaction API");;
  guard_throw (is_required (capabilityVersion pi "compactionFailureResultApiVersion"))
    (host_incompatible "compaction failure result API");;
  guard_throw (is_required (capabilityVersion pi "providerCheckpointCommitApiVersion") &&
               is_function pi "setProviderCheckpointUsageBoundary")
    (host_incompatible "provider checkpoint commit API").

Inductive startup_error :=
| host_error (message : string)
| diagnostics_error (e : runtime_error)
| bridge_error (message : string)
| slot_error.

Definition BRIDGE_UNVERIFIED : startup_error := bridge_error
  "Native bridge is incompatible: verified Remote Compaction capabilities are unavailable".
Definition BRIDGE_UNAVAILABLE : startup_error :=
  bridge_error "Native bridge is incompatible: Remote Compaction is unavailable".

Definition string_items (v : jsval) : option (list string) :=
  match v with
  | VArr items => mapM (λ v, match v with VStr s => Some s | _ => None end) items
  | _ => None
  end.

(** [diagnostics] is what [readDiagnostics] gives, [undefined] without it. *)
Definition assertRemoteCompactionBridge (diagnostics : outcome runtime_error jsval)
    : outcome startup_error unit :=
  match diagnostics with
  | Throw e => Throw (diagnostics_error e)
  | Ret d =>
      match as_record d with
      | None => Throw BRIDGE_UNVERIFIED
      | Some fs =>
          match string_items (field fs "capabilities") with
          | None => Throw BRIDGE_UNAVAILABLE
          | Some capabilities =>
              guard_throw (js_elem "remote_compaction_v2" capabilities ||
                           js_elem "compact_endpoint" capabilities) BRIDGE_UNAVAILABLE
          end
      end
  end.

(** ** Provider routes *)

Definition selectedCodexProviderIds (providerIds : list string) : list string :=
  dedup [] ("openai-codex" :: providerIds).

(** [streamSimple] is the router's dispatcher of that name. *)
Record ProviderConfig := { config_api : string; streamSimple : dispatcher_field }.
#[export] Instance dispatcher_field_eq_dec : EqDecision dispatcher_field.
Proof. solve_decision. Defined.
#[export] Instance ProviderConfig_eq_dec : EqDecision ProviderConfig.
Proof. solve_decision. Defined.

(** The registry of a host: [registerProvider] sets an entry,
    [unregisterProvider] removes it. *)
Abbreviation registry := (gmap string ProviderConfig).

Definition route_config (providerId : string) : ProviderConfig :=
  if String.eqb providerId "openai-codex"
  then {| config_api := "openai-codex-responses"; streamSimple := codexResponses |}
  else {| config_api := "openai-responses"; streamSimple := openAiResponses |}.

Definition registerCodexProviderRoutes (providerIds : list string) (r : registry) : registry :=
  fold_left (λ r id, <[ id := route_config id ]> r) (selectedCodexProviderIds providerIds) r.

Definition unregister_stale (previous selected : list string) (r : registry) : registry :=
  fold_left (λ r id, if js_elem id selected then r else delete id r) previous r.

Definition reconcileCodexProviderRoutes (can_unregister : bool) (previous providerIds : list string)
    (r : registry) : list string * registry :=
  let selected := selectedCodexProviderIds providerIds in
  let r := if can_unregister then unregister_stale previous selected r else r in
  (selected, registerCodexProviderRoutes providerIds r).

(** The stream a request is answered with: the adaptor's, or Pi's own. *)
Inductive stream_target := codex_adaptor | pi_native (field : dispatcher_field).

Definition createDispatcher (isActive : ProviderActivationModel → bool) (adaptor fallback : stream_target)
    (model : ProviderActivationModel) : stream_target :=
  if isActive model then adaptor else fallback.

Definition createCodexProviderDispatchers (isActive : ProviderActivationModel → bool)
    (field : dispatcher_field) : ProviderActivationModel → stream_target :=
  createDispatcher isActive codex_adaptor (pi_native field).

(** ** Instances *)

(** Where a [session_start] handler waits: for the configuration
    [activation.refresh] loads, or for [refresh] itself. *)
Inductive start_wait := wait_load | wait_refresh.

(** [x_refreshes] are the [session_start] handlers that wait; [x_tools] is
    [None] on a host without the tool functions. *)
Record instance (H : Type) := {
  x_host : PiHost;
  x_providers : list string;
  x_policy_listens : bool;
  x_routes_listen : bool;
  x_registered : list string;
  x_registry : registry;
  x_lease : option nat;
  x_refreshes : list start_wait;
  x_guard : CodexProviderRequestGuard;
  x_store : CodexCompactionStore;
  x_coordinator : coordinator;
  x_tools : option (tools_state H);
  x_runtime : Runtime.state }.
Arguments x_host {H} _. Arguments x_providers {H} _. Arguments x_policy_listens {H} _.
Arguments x_routes_listen {H} _. Arguments x_registered {H} _. Arguments x_registry {H} _.
Arguments x_lease {H} _. Arguments x_refreshes {H} _. Arguments x_guard {H} _.
Arguments x_store {H} _. Arguments x_coordinator {H} _. Arguments x_tools {H} _.
Arguments x_runtime {H} _.

(** [owners] names the instance each lease was created by; [stopped] are the
    runtimes shut down because the extension could not start. *)
Record process (H : Type) := {
  p_router : router;
  owners : list nat;
  instances : list (instance H);
  stopped : list Runtime.state }.
Arguments p_router {H} _. Arguments owners {H} _. Arguments instances {H} _. Arguments stopped {H} _.

Definition new_process {H} : process H :=
  {| p_router := createProviderSessionRouter; owners := []; instances := []; stopped := [] |}.

Section extension.
Context {H : Type} `{ExtensionAPI H} `{JsonText}.
Context (normalizedEntryPath : string → string) (sha256Hex : string → string).

Definition set_policy (providers : list string) (x : instance H) : instance H :=
  {| x_host := x_host x; x_providers := providers; x_policy_listens := x_policy_listens x;
     x_routes_listen := x_routes_listen x; x_registered := x_registered x; x_registry := x_registry x;
     x_lease := x_lease x; x_refreshes := x_refreshes x; x_guard := x_guard x; x_store := x_store x;
     x_coordinator := x_coordinator x; x_tools := x_tools x; x_runtime := x_runtime x |}.
Definition set_listening (policy routes : bool) (x : instance H) : instance H :=
  {| x_host := x_host x; x_providers := x_providers x; x_policy_listens := policy;
     x_routes_listen := routes; x_registered := x_registered x; x_registry := x_registry x;
     x_lease := x_lease x; x_refreshes := x_refreshes x; x_guard := x_guard x; x_store := x_store x;
     x_coordinator := x_coordinator x; x_tools := x_tools x; x_runtime := x_runtime x |}.
Definition set_routes (routes : list string * registry) (x : instance H) : instance H :=
  {| x_host := x_host x; x_providers := x_providers x; x_policy_listens := x_policy_listens x;
     x_routes_listen := x_routes_listen x; x_registered := routes.1; x_registry := routes.2;
     x_lease := x_lease x; x_refreshes := x_refreshes x; x_guard := x_guard x; x_store := x_store x;
     x_coordinator := x_coordinator x; x_tools := x_tools x; x_runtime := x_runtime x |}.
Definition set_lease (lease : option nat) (x : instance H) : instance H :=
  {| x_host := x_host x; x_providers := x_providers x; x_policy_listens := x_policy_listens x;
     x_routes_listen := x_routes_listen x; x_registered := x_registered x; x_registry := x_registry x;
     x_lease := lease; x_refreshes := x_refreshes x; x_guard := x_guard x; x_store := x_store x;
     x_coordinator := x_coordinator x; x_tools := x_tools x; x_runtime := x_runtime x |}.
Definition on_refreshes (f : list start_wait → list start_wait) (x : instance H) : instance H :=
  {| x_host := x_host x; x_providers := x_providers x; x_policy_listens := x_policy_listens x;
     x_routes_listen := x_routes_listen x; x_registered := x_registered x; x_registry := x_registry x;
     x_lease := x_lease x; x_refreshes := f (x_refreshes x); x_guard := x_guard x; x_store := x_store x;
     x_coordinator := x_coordinator x; x_tools := x_tools x; x_runtime := x_runtime x |}.
Definition on_guard (f : CodexProviderRequestGuard → CodexProviderRequestGuard) (x : instance H) : instance H :=
  {| x_host := x_host x; x_providers := x_providers x; x_policy_listens := x_policy_listens x;
     x_routes_listen := x_routes_listen x; x_registered := x_registered x; x_registry := x_registry x;
     x_lease := x_lease x; x_refreshes := x_refreshes x; x_guard := f (x_guard x); x_store := x_store x;
     x_coordinator := x_coordinator x; x_tools := x_tools x; x_runtime := x_runtime x |}.
Definition on_compactions (f : CodexCompactionStore → CodexCompactionStore)
    (g : coordinator → coordinator) (x : instance H) : instance H :=
  {| x_host := x_host x; x_providers := x_providers x; x_policy_listens := x_policy_listens x;
     x_routes_listen := x_routes_listen x; x_registered := x_registered x; x_registry := x_registry x;
     x_lease := x_lease x; x_refreshes := x_refreshes x; x_guard := x_guard x; x_store := f (x_store x);
     x_coordinator := g (x_coordinator x); x_tools := x_tools x; x_runtime := x_runtime x |}.
Definition on_tools (f : tools_state H → tools_state H) (x : instance H) : instance H :=
  {| x_host := x_host x; x_providers := x_providers x; x_policy_listens := x_policy_listens x;
     x_routes_listen := x_routes_listen x; x_registered := x_registered x; x_registry := x_registry x;
     x_lease := x_lease x; x_refreshes := x_refreshes x; x_guard := x_guard x; x_store := x_store x;
     x_coordinator := x_coordinator x; x_tools := f <$> x_tools x; x_runtime := x_runtime x |}.
Definition on_runtime (f : Runtime.state → Runtime.state) (x : instance H) : instance H :=
  {| x_host := x_host x; x_providers := x_providers x; x_policy_listens := x_policy_listens x;
     x_routes_listen := x_routes_listen x; x_registered := x_registered x; x_registry := x_registry x;
     x_lease := x_lease x; x_refreshes := x_refreshes x; x_guard := x_guard x; x_store := x_store x;
     x_coordinator := x_coordinator x; x_tools := x_tools x; x_runtime := f (x_runtime x) |}.

Definition with_router (r : router) (owners : list nat) (p : process H) : process H :=
  {| p_router := r; owners := owners; instances := instances p; stopped := stopped p |}.
Definition on_instance (i : nat) (f : instance H → instance H) (p : process H) : process H :=
  {| p_router := p_router p; owners := owners p; instances := alter f i (instances p);
     stopped := stopped p |}.

(** [typeof pi.registerProvider === "function"], and so on. *)
Definition has_routes (x : instance H) : bool := is_function (x_host x) "registerProvider".
Definition has_events (x : instance H) : bool := is_function (x_host x) "on".
Definition TOOL_FUNCTIONS : list string :=
  ["getActiveTools"; "getAllTools"; "setActiveTools"; "registerTool"; "on"].
Definition COMPACTION_FUNCTIONS : list string := ["on"; "getActiveTools"; "getAllTools"; "getThinkingLevel"].
Definition has_tools (pi : PiHost) : bool := forallb (is_function pi) TOOL_FUNCTIONS.
Definition has_compaction (x : instance H) : bool := forallb (is_function (x_host x)) COMPACTION_FUNCTIONS.

(** [registerSelectedProviderRoutes?.()]. *)
Definition registerSelectedProviderRoutes (x : instance H) : instance H :=
  if has_routes x then
    set_routes (reconcileCodexProviderRoutes (is_function (x_host x) "unregisterProvider")
                  (x_registered x) (x_providers x) (x_registry x)) x
  else x.

(** [createProviderSessionLease()] of instance [i]. *)
Definition take_lease (i : nat) (p : process H) : process H :=
  let '(token, r) := createLease (p_router p) in
  on_instance i (set_lease (Some token)) (with_router r (owners p ++ [i]) p).

Definition release_lease (x : instance H) (p : process H) : process H :=
  match x_lease x with
  | Some token => with_router (SessionRouter.release token (p_router p)) (owners p) p
  | None => p
  end.

(** ** Startup

    [loaded] is the result of the first [activation.refresh], [diagnostics]
    that of [readDiagnostics], after which the runtime is [rt]; [slot_ok] tells
    whether the process slot holds, or can be given, a compatible router. *)
Definition new_instance (pi : PiHost) (h : H) (entryPath : string)
    (loaded : outcome store_error CodexConfig) (rt : Runtime.state) : instance H :=
  {| x_host := pi; x_providers := refresh loaded initial_providers; x_policy_listens := true;
     x_routes_listen := true; x_registered := []; x_registry := ∅; x_lease := None;
     x_refreshes := []; x_guard := new_guard; x_store := new_store; x_coordinator := ∅;
     x_tools := if has_tools pi then Some (registerCodexTools normalizedEntryPath (Some entryPath) h) else None;
     x_runtime := rt |}.

Definition add_instance (x : instance H) (p : process H) : process H :=
  {| p_router := p_router p; owners := owners p; instances := instances p ++ [x]; stopped := stopped p |}.
Definition add_stopped (rt : Runtime.state) (p : process H) : process H :=
  {| p_router := p_router p; owners := owners p; instances := instances p; stopped := stopped p ++ [rt] |}.

Definition piCodexAdaptor (pi : PiHost) (h : H) (entryPath : string)
    (loaded : outcome store_error CodexConfig) (slot_ok : bool)
    (diagnostics : outcome runtime_error jsval) (rt : Runtime.state) (p : process H)
    : outcome startup_error unit * process H :=
  if negb (is_function pi "registerCommand") then (Ret tt, p) else
  match assertProviderPayloadCompactionHost pi with
  | Throw message => (Throw (host_error message), p)
  | Ret _ =>
      let routes := is_function pi "registerProvider" in
      match if routes then assertRemoteCompactionBridge diagnostics else Ret tt with
      | Throw e => (Throw e, add_stopped (Runtime.shutdown rt) p)
      | Ret _ =>
          if routes && negb slot_ok then (Throw slot_error, p) else
          let i := length (instances p) in
          let p := add_instance (new_instance pi h entryPath loaded rt) p in
          let p := if routes then take_lease i p else p in
          (Ret tt, on_instance i registerSelectedProviderRoutes p)
      end
  end.

(** ** The handlers of [extension.ts] *)

Definition begin_refresh (x : instance H) : instance H :=
  on_refreshes (λ l, l ++ [wait_load]) (on_guard invalidateAll x).

(** [session_start] up to its [await]; an exception of [bind] ends it. *)
Definition session_start (i : nat) (sessionId : string) (p : process H) : process H :=
  match instances p !! i with
  | None => p
  | Some x =>
      if negb (has_events x) then p else
      let p := release_lease x p in
      if negb (has_routes x) then on_instance i begin_refresh p else
      let token := length (bindings (p_router p)) in
      let p := take_lease i p in
      match SessionRouter.bind token sessionId (p_router p) with
      | Throw _ => p
      | Ret r => on_instance i begin_refresh (with_router r (owners p) p)
      end
  end.

(** [activation.refresh] has its configuration, or the error of loading it. *)
Definition config_loaded (k : nat) (loaded : outcome store_error CodexConfig) (x : instance H) : instance H :=
  match x_refreshes x !! k with
  | Some wait_load => on_refreshes <[k := wait_refresh]> (set_policy (refresh loaded (x_providers x)) x)
  | _ => x
  end.

(** The rest of [session_start]. *)
Definition refreshed (k : nat) (x : instance H) : instance H :=
  match x_refreshes x !! k with
  | Some wait_refresh => registerSelectedProviderRoutes (on_refreshes (delete k) x)
  | _ => x
  end.

(** A change notification reaches the policy, the routes and the tools, in the
    order they subscribed. *)
Definition config_changed (config : CodexConfig) (selected : option tool_model) (x : instance H) : instance H :=
  let x := if x_policy_listens x then set_policy (replace_providers config (x_providers x)) x else x in
  let x := if x_routes_listen x then registerSelectedProviderRoutes x else x in
  on_tools (tools_step normalizedEntryPath (ToolActivation.config_changed config selected (x_providers x))) x.

Definition shutdown_instance (x : instance H) : instance H :=
  let x := set_listening (x_policy_listens x) false x in
  let x := on_guard (λ g, RequestGuard.dispose (invalidateAll g)) x in
  let x := on_tools (on_world restorePi) x in
  let x := on_compactions id coordinator_disposeAll x in
  let x := on_tools (on_resolver invalidate) x in
  let x := set_listening false (x_routes_listen x) x in
  on_runtime Runtime.shutdown x.

Definition session_shutdown (i : nat) (p : process H) : process H :=
  match instances p !! i with
  | None => p
  | Some x =>
      if negb (has_events x) then p else on_instance i shutdown_instance (release_lease x p)
  end.

(** ** The listeners of [codex-compaction.ts] *)

Inductive compaction_lifecycle := lc_session_start | lc_model_select | lc_session_tree | lc_session_shutdown.

Definition compaction_event (e : compaction_lifecycle) (sessionId : string) (x : instance H) : instance H :=
  if negb (has_compaction x) then x else
  match e with
  | lc_session_start | lc_session_shutdown =>
      on_compactions (store_dispose sessionId) (coordinator_dispose sessionId) x
  | lc_model_select | lc_session_tree => on_compactions (invalidateContextAccounting sessionId) id x
  end.

(** ** Requests *)

Inductive served :=
| by_adaptor (i : nat)
| by_native (i : nat) (field : dispatcher_field)
| refused (e : route_error).

(** The dispatchers instance [x] gave its lease. *)
Definition dispatchers (x : instance H) : dispatcher_field → ProviderActivationModel → stream_target :=
  createCodexProviderDispatchers (λ m, isActive (Some m) (x_providers x)).

(** The router's dispatcher [field] is called; the owner of a lease is always
    known. *)
Definition request (field : dispatcher_field) (m : ProviderActivationModel) (session : jsval)
    (p : process H) : served * process H :=
  let '(result, r) := SessionRouter.dispatch field session (p_router p) in
  (match result with
   | createRouteErrorStream e => refused e
   | routed token field =>
       match i ← owners p !! token; x ← instances p !! i; Some (i, x) with
       | Some (i, x) => match dispatchers x field m with
                        | codex_adaptor => by_adaptor i
                        | pi_native f => by_native i f
                        end
       | None => refused ROUTE_UNAVAILABLE
       end
   end, with_router r (owners p) p).

(** ** Events *)

Inductive process_event :=
| e_start (pi : PiHost) (h : H) (entryPath : string) (loaded : outcome store_error CodexConfig)
    (slot_ok : bool) (diagnostics : outcome runtime_error jsval) (rt : Runtime.state)
| e_session_start (i : nat) (sessionId : string)
| e_config_loaded (i k : nat) (loaded : outcome store_error CodexConfig)
| e_refreshed (i k : nat)
| e_config_changed (i : nat) (config : CodexConfig) (selected : option tool_model)
| e_session_shutdown (i : nat)
| e_compaction (i : nat) (e : compaction_lifecycle) (sessionId : string)
| e_tools (i : nat) (e : tools_event)
| e_guard (i : nat) (o : guard_op)
| e_coordinator (i : nat) (f : coordinator → coordinator)
| e_runtime (i : nat) (e : runtime_event)
| e_request (field : dispatcher_field) (m : ProviderActivationModel) (session : jsval)
| e_collect (token : nat)
| e_finalize (token : nat).

(** The policy answers with the providers it holds; the configuration service
    alone notifies changes. *)
Definition tools_own (x : instance H) (e : tools_event) : option tools_event :=
  match e with
  | ToolActivation.session_start ctx selected _ => Some (ToolActivation.session_start ctx selected (x_providers x))
  | model_select ctx selected _ => Some (model_select ctx selected (x_providers x))
  | ToolActivation.config_changed _ _ _ => None
  | e => Some e
  end.
Definition tools_event_step (e : tools_event) (x : instance H) : instance H :=
  match tools_own x e with
  | Some e => on_tools (tools_step normalizedEntryPath e) x
  | None => x
  end.

(** The collector takes only bindings that exist and whose lease nobody holds. *)
Definition held (p : process H) (token : nat) : bool :=
  existsb (λ x, bool_decide (x_lease x = Some token)) (instances p).

Definition process_step (e : process_event) (p : process H) : process H :=
  match e with
  | e_start pi h entryPath loaded slot_ok diagnostics rt =>
      (piCodexAdaptor pi h entryPath loaded slot_ok diagnostics rt p).2
  | e_session_start i s => session_start i s p
  | e_config_loaded i k loaded => on_instance i (config_loaded k loaded) p
  | e_refreshed i k => on_instance i (refreshed k) p
  | e_config_changed i config selected => on_instance i (config_changed config selected) p
  | e_session_shutdown i => session_shutdown i p
  | e_compaction i e s => on_instance i (compaction_event e s) p
  | e_tools i e => on_instance i (tools_event_step e) p
  | e_guard i o => on_instance i (on_guard (guard_step sha256Hex o)) p
  | e_coordinator i f => on_instance i (on_compactions id f) p
  | e_runtime i e => on_instance i (on_runtime (runtime_step e)) p
  | e_request field m session => (request field m session p).2
  | e_collect token =>
      if held p token || (length (bindings (p_router p)) <=? token)%nat then p
      else with_router (collect token (p_router p)) (owners p) p
  | e_finalize token => with_router (router_step (r_finalize token) (p_router p)) (owners p) p
  end.

Definition process_run (events : list process_event) (p : process H) : process H :=
  fold_left (λ p e, process_step e p) events p.

End extension.
