(* ===== verification/ExtensionFacts.v ===== *)
(** * ExtensionFacts

    The composition root: which instance a request reaches, which routes the
    host has, what a shutdown leaves behind and when the extension starts. *)

From Stdlib Require Import Lia.
From S2P Require Import Prelude Json StructuredJson Capability Config ConfigStore ToolProfile Compaction EffectiveCapabilities.
From S2P Require Import RequestGuard RequestGuardFacts ToolProfileFacts SessionRouter Runtime ToolActivation Extension.

Section extension.
Context {H : Type} `{ExtensionAPI H} `{JsonText}.
Context (normalizedEntryPath : string → string) (sha256Hex : string → string).
Implicit Types (p : process H) (x : instance H).

Abbreviation event := (process_event (H:=H)).
Abbreviation step := (process_step normalizedEntryPath sha256Hex).
Abbreviation run := (process_run normalizedEntryPath sha256Hex).

(** ** Sessions

    The specification: which instance is bound to which session.  A
    [session_start] binds the instance anew, or to nothing when the session id
    is blank or the host has no providers; a [session_shutdown] ends the binding; nothing else matters. *)
Definition sessions_step (e : event) (p : process H) (T : gmap nat string) : gmap nat string :=
  match e with
  | e_session_start i s =>
      match instances p !! i with
      | Some x => if has_events x then
                    if has_routes x && negb (blank s) then <[i := s]> T else delete i T
                  else T
      | None => T
      end
  | e_session_shutdown i =>
      match instances p !! i with
      | Some x => if has_events x then delete i T else T
      | None => T
      end
  | _ => T
  end.

Fixpoint session_table (events : list event) (p : process H) (T : gmap nat string) : gmap nat string :=
  match events with
  | [] => T
  | e :: events => session_table events (step e p) (sessions_step e p T)
  end.

Definition leases (p : process H) : list (option nat) := x_lease <$> instances p.

(** Instance [i] holds [t]. *)
Definition holds (p : process H) (i t : nat) : Prop := leases p !! i = Some (Some t).

Record proc_ok (p : process H) (T : gmap nat string) : Prop := {
  po_router : router_ok (p_router p);
  po_owners : length (owners p) = length (bindings (p_router p));
  po_collected t : t ∈ collected (p_router p) → t < length (bindings (p_router p));
  po_holds i t : holds p i t → owners p !! t = Some i ∧ t ∉ collected (p_router p);
  po_serves s t : serves (p_router p) s t → ∃ i, holds p i t;
  po_table i s : T !! i = Some s ↔ ∃ t, holds p i t ∧ serves (p_router p) s t }.

(** The invariant sees the router, the owners and the leases only. *)
Lemma proc_ok_same p p' T :
  p_router p' = p_router p → owners p' = owners p → leases p' = leases p →
  proc_ok p T → proc_ok p' T.
Proof.
  intros Hr Ho Hl [? ? ? Hh Hs Ht].
  split; unfold holds in *; rewrite ?Hr, ?Ho, ?Hl; [done..|exact Hh|exact Hs|exact Ht].
Qed.

Lemma lease_lookup p i x : instances p !! i = Some x → leases p !! i = Some (x_lease x).
Proof. intros Hx. unfold leases. by rewrite list_lookup_fmap, Hx. Qed.

Lemma leases_on_instance i f p :
  (∀ x, x_lease (f x) = x_lease x) → leases (on_instance i f p) = leases p.
Proof.
  intros Hf. unfold leases. cbn [instances on_instance]. apply list_eq. intros j.
  rewrite !list_lookup_fmap. destruct (decide (i = j)) as [->|].
  - rewrite list_lookup_alter_eq. destruct (instances p !! j); simpl; [by rewrite Hf|done].
  - by rewrite list_lookup_alter_ne.
Qed.

Lemma proc_ok_instance i f p T :
  (∀ x, x_lease (f x) = x_lease x) → proc_ok p T → proc_ok (on_instance i f p) T.
Proof. intros Hf. by apply proc_ok_same; [..|apply leases_on_instance]. Qed.

(** ** The pieces of a [session_start] *)

Lemma serves_release_iff t r s t' : serves (SessionRouter.release t r) s t' ↔ serves r s t' ∧ t' ≠ t.
Proof.
  split; [apply serves_release|]. intros [Hs Hne]. unfold SessionRouter.release.
  destruct (bindings r !! t) as [b|]; [|done]. destruct (released b); [done|].
  rewrite serves_iff in *. simpl. by rewrite list_lookup_insert_ne.
Qed.

Lemma release_length t r : length (bindings (SessionRouter.release t r)) = length (bindings r).
Proof.
  unfold SessionRouter.release. destruct (bindings r !! t) as [b|]; [|done].
  destruct (released b); [done|]. simpl. by rewrite length_insert.
Qed.

Lemma release_collected t r : collected (SessionRouter.release t r) = collected r.
Proof. unfold SessionRouter.release. by destruct (bindings r !! t) as [[? []]|]. Qed.

Lemma holds_inj p T i j t : proc_ok p T → holds p i t → holds p j t → i = j.
Proof. intros Hok [Hi _]%(po_holds _ _ Hok) [Hj _]%(po_holds _ _ Hok). congruence. Qed.

Lemma release_lease_instances x p : instances (release_lease x p) = instances p.
Proof. unfold release_lease. by destruct (x_lease x). Qed.

Lemma release_lease_ok i x p T :
  instances p !! i = Some x → proc_ok p T → proc_ok (release_lease x p) (delete i T).
Proof.
  intros Hx Hok. pose proof Hok as [Hro Hown Hcol Hho Hse Hta]. unfold release_lease.
  apply lease_lookup in Hx. destruct (x_lease x) as [t|] eqn:Hl.
  - assert (Hi : holds p i t) by done. split; simpl.
    + by apply router_ok_release.
    + by rewrite release_length.
    + intros t'. rewrite release_collected, release_length. apply Hcol.
    + intros j t' Hj. rewrite release_collected. by apply Hho.
    + intros s t' [Hs _]%serves_release. apply (Hse _ _ Hs).
    + intros j s. rewrite lookup_delete_Some, Hta. setoid_rewrite serves_release_iff. split.
      * intros (Hne & t' & Ht' & Hs). exists t'. split_and!; [done..|]. intros ->.
        apply Hne. by apply (holds_inj p T _ _ t).
      * intros (t' & Ht' & Hs & Hne). split; [|by exists t']. intros <-.
        change (holds p i t') in Ht'. unfold holds in *. congruence.
  - rewrite delete_id; [done|]. destruct (T !! i) as [s|] eqn:Hs; [|done].
    apply Hta in Hs as (t & Ht & _). unfold holds in Ht. congruence.
Qed.

Lemma take_lease_leases i p x : instances p !! i = Some x →
  leases (take_lease i p) = <[ i := Some (length (bindings (p_router p))) ]> (leases p).
Proof.
  intros Hx. unfold leases, take_lease. simpl. apply list_eq. intros j. rewrite list_lookup_fmap.
  destruct (decide (i = j)) as [->|].
  - rewrite list_lookup_alter_eq, Hx, list_lookup_insert_eq; [done|].
    rewrite length_fmap. by eapply lookup_lt_Some.
  - by rewrite list_lookup_alter_ne, list_lookup_insert_ne, list_lookup_fmap.
Qed.

(** A lease is taken by an instance bound to no session. *)
Lemma take_lease_ok i p T :
  is_Some (instances p !! i) → T !! i = None → proc_ok p T → proc_ok (take_lease i p) T.
Proof.
  intros [x Hx] HT [Hro Hown Hcol Hho Hse Hta].
  assert (Hl : ∀ j t, holds (take_lease i p) j t ↔
    (j = i ∧ t = length (bindings (p_router p))) ∨ (j ≠ i ∧ holds p j t)).
  { intros j t. unfold holds. rewrite (take_lease_leases _ _ _ Hx). apply lease_lookup, lookup_lt_Some in Hx.
    destruct (decide (j = i)) as [->|].
    - rewrite list_lookup_insert_eq by done. naive_solver.
    - rewrite list_lookup_insert_ne by done. naive_solver. }
  assert (Hs : ∀ s t, serves (p_router (take_lease i p)) s t ↔ serves (p_router p) s t)
    by apply serves_createLease.
  assert (Hidle : ∀ s t, holds p i t → ¬ serves (p_router p) s t).
  { intros s t Ht Hst. assert (T !! i = Some s) by (apply Hta; by exists t). congruence. }
  assert (Hfresh : ∀ s, ¬ serves (p_router p) s (length (bindings (p_router p)))).
  { intros s (_ & b & Hb & _)%serves_iff. apply lookup_lt_Some in Hb. lia. }
  split.
  - apply (router_ok_step r_createLease), Hro.
  - simpl. rewrite !length_app, Hown. done.
  - simpl. intros t Ht. rewrite length_app. specialize (Hcol t Ht). lia.
  - intros j t [[-> ->]|[_ Hj]]%Hl; simpl.
    + split; [by rewrite <-Hown, lookup_app_r, Nat.sub_diag|]. intros Hc. specialize (Hcol _ Hc). lia.
    + apply Hho in Hj as [Hj ?]. split; [by apply lookup_app_l_Some|done].
  - intros s t Hst%Hs. destruct (Hse s t Hst) as [j Hj]. exists j. apply Hl. right. split; [|done].
    intros ->. by apply (Hidle s t).
  - intros j s. rewrite Hta. setoid_rewrite Hl. setoid_rewrite Hs. split.
    + intros (t & Ht & Hst). exists t. split; [|done]. right. split; [|done]. intros ->. by apply (Hidle s t).
    + intros (t & [[-> ->]|[Hne Ht]] & Hst); [by apply Hfresh in Hst|by exists t].
Qed.

(** A fresh lease is bound. *)
Lemma bind_fresh t s r :
  bindings r !! t = Some {| sessionId := None; released := false |} → t ∉ collected r → router_ok r →
  match SessionRouter.bind t s r with
  | Throw _ => blank s = true
  | Ret r' => blank s = false ∧ router_ok r' ∧ length (bindings r') = length (bindings r) ∧
      collected r' = collected r ∧
      ∀ s' t', serves r' s' t' ↔ serves r s' t' ∨ (t' = t ∧ s' = s)
  end.
Proof.
  intros Hb Hc Hok. destruct (SessionRouter.bind t s r) as [r'|e] eqn:Hbind.
  - pose proof (router_ok_bind _ _ _ _ Hbind Hok) as Hok'. revert Hbind.
    unfold SessionRouter.bind. rewrite Hb. destruct (blank s) eqn:Hbl; [done|]. simpl.
    intros [= <-]. simpl. split_and!; [done..|by rewrite length_insert|done|].
    intros s' t'. rewrite !serves_iff. simpl. destruct (decide (t' = t)) as [->|].
    + rewrite Hb, list_lookup_insert_eq by (by eapply lookup_lt_Some). naive_solver.
    + rewrite list_lookup_insert_ne by done. naive_solver.
  - revert Hbind. unfold SessionRouter.bind. rewrite Hb. by destruct (blank s).
Qed.

Lemma take_lease_fresh i x p T :
  instances p !! i = Some x → proc_ok p T →
  let t := length (bindings (p_router p)) in
  holds (take_lease i p) i t ∧ instances (take_lease i p) !! i = Some (set_lease (Some t) x) ∧
  bindings (p_router (take_lease i p)) !! t = Some {| sessionId := None; released := false |}.
Proof.
  intros Hx Hok t. split_and!.
  - unfold holds. rewrite (take_lease_leases _ _ _ Hx). apply list_lookup_insert_eq.
    by apply lease_lookup, lookup_lt_Some in Hx.
  - simpl. by rewrite list_lookup_alter_eq, Hx.
  - simpl. by rewrite lookup_app_r, Nat.sub_diag.
Qed.

Lemma bind_lease_ok i t s r' p T :
  SessionRouter.bind t s (p_router p) = Ret r' → holds p i t →
  bindings (p_router p) !! t = Some {| sessionId := None; released := false |} →
  T !! i = None → proc_ok p T →
  proc_ok (with_router r' (owners p) p) (<[i := s]> T).
Proof.
  intros Hbind Hi Hb HT Hok. pose proof Hok as [Hro Hown Hcol Hho Hse Hta].
  pose proof (bind_fresh t s (p_router p) Hb (proj2 (Hho _ _ Hi)) Hro) as Hf. rewrite Hbind in Hf.
  destruct Hf as (_ & Hro' & Hlen & Hc & Hs). split; simpl.
  - done.
  - by rewrite Hlen.
  - rewrite Hc, Hlen. exact Hcol.
  - rewrite Hc. exact Hho.
  - intros s' t' [Hst|[-> _]]%Hs; [by eapply Hse|by exists i].
  - intros j s'. change (holds (with_router r' (owners p) p) j) with (holds p j). setoid_rewrite Hs.
    destruct (decide (j = i)) as [->|Hne].
    + rewrite lookup_insert_eq. split.
      * intros [= <-]. exists t. auto.
      * intros (t' & Ht' & [Hst|[_ ->]]); [|done].
        assert (T !! i = Some s') by (apply Hta; by exists t'). congruence.
    + rewrite lookup_insert_ne by done. rewrite Hta. split.
      * intros (t' & ? & ?). exists t'. auto.
      * intros (t' & Ht' & [Hst|[-> _]]); [by exists t'|].
        destruct Hne. by apply (holds_inj p T _ _ t).
Qed.

Lemma session_start_ok i s p T : proc_ok p T →
  proc_ok (session_start i s p) (sessions_step (e_session_start i s) p T).
Proof.
  intros Hok. unfold session_start, sessions_step. destruct (instances p !! i) as [x|] eqn:Hx; [|done].
  destruct (has_events x); [|done]. pose proof (release_lease_ok i x p T Hx Hok) as Hok1.
  cbn [negb]. destruct (has_routes x); cbn [negb andb].
  - set (p1 := release_lease x p) in *.
    assert (Hx1 : instances p1 !! i = Some x) by (unfold p1; by rewrite release_lease_instances).
    assert (HT1 : delete i T !! i = None) by apply lookup_delete_eq.
    pose proof (take_lease_ok i p1 _ (ex_intro _ x Hx1) HT1 Hok1) as Hok2.
    destruct (take_lease_fresh i x p1 _ Hx1 Hok1) as (Hi & _ & Hb).
    pose proof (bind_fresh _ s _ Hb (proj2 (po_holds _ _ Hok2 _ _ Hi)) (po_router _ _ Hok2)) as Hf.
    destruct (SessionRouter.bind _ s (p_router (take_lease i p1))) as [r'|e] eqn:Hbind.
    + destruct Hf as [-> _]. apply proc_ok_instance; [done|]. rewrite <-insert_delete_eq.
      by eapply bind_lease_ok.
    + by rewrite Hf.
  - by apply proc_ok_instance.
Qed.

Lemma session_shutdown_ok i p T : proc_ok p T →
  proc_ok (session_shutdown i p) (sessions_step (e_session_shutdown i) p T).
Proof.
  intros Hok. unfold session_shutdown, sessions_step. destruct (instances p !! i) as [x|] eqn:Hx; [|done].
  destruct (has_events x); [|done]. apply proc_ok_instance; [done|]. by apply release_lease_ok.
Qed.

Lemma add_instance_ok x p T : x_lease x = None → proc_ok p T →
  proc_ok (add_instance x p) T ∧ T !! length (instances p) = None.
Proof.
  intros Hx [Hro Hown Hcol Hho Hse Hta].
  assert (Hl : ∀ i t, holds (add_instance x p) i t ↔ holds p i t).
  { intros i t. unfold holds, leases. simpl. rewrite fmap_app. split.
    - intros [?|[_ Hlk]]%lookup_app_Some; [done|]. simpl in Hlk.
      apply list_lookup_singleton_Some in Hlk as [_ ?]. congruence.
    - apply lookup_app_l_Some. }
  split.
  - split; [done..| | |].
    + intros i t. rewrite Hl. apply Hho.
    + intros s t. setoid_rewrite Hl. apply Hse.
    + intros i s. setoid_rewrite Hl. apply Hta.
  - destruct (T !! _) as [s|] eqn:Hs; [|done]. apply Hta in Hs as (t & Ht & _).
    apply lookup_lt_Some in Ht. unfold leases in Ht. rewrite length_fmap in Ht. lia.
Qed.

Lemma start_ok pi h entry loaded slot diagnostics rt p T : proc_ok p T →
  proc_ok (piCodexAdaptor normalizedEntryPath pi h entry loaded slot diagnostics rt p).2 T.
Proof.
  intros Hok. unfold piCodexAdaptor. destruct (negb _); [done|].
  destruct (assertProviderPayloadCompactionHost pi); [|done].
  destruct (if is_function pi "registerProvider" then _ else _); [|by apply (proc_ok_same p)].
  destruct (_ && _); [done|]. cbn [snd]. apply proc_ok_instance.
  { intros x. unfold registerSelectedProviderRoutes. by destruct (has_routes x). }
  destruct (add_instance_ok (new_instance normalizedEntryPath pi h entry loaded rt) p T eq_refl Hok) as [Hok' HT].
  destruct (is_function pi "registerProvider"); [|done]. apply take_lease_ok; [|done..].
  simpl. rewrite lookup_app_r, Nat.sub_diag by done. by eexists.
Qed.

(** A step of the router that serves the same and takes no held binding. *)
Lemma router_step_ok o p T :
  (∀ s t, serves (router_step o (p_router p)) s t ↔ serves (p_router p) s t) →
  length (bindings (router_step o (p_router p))) = length (bindings (p_router p)) →
  (∀ t, t ∈ collected (router_step o (p_router p)) →
     t ∈ collected (p_router p) ∨ t < length (bindings (p_router p)) ∧ ∀ i, ¬ holds p i t) →
  proc_ok p T → proc_ok (with_router (router_step o (p_router p)) (owners p) p) T.
Proof.
  intros Hs Hl Hc [Hro Hown Hcol Hho Hse Hta].
  split; cbn [p_router owners with_router].
  - by apply router_ok_step.
  - by rewrite Hl.
  - intros t [?|[? _]]%Hc; rewrite Hl; auto.
  - intros i t Hi. destruct (Hho _ _ Hi) as [? Hn]. split; [done|].
    intros [?|[_ Hnh]]%Hc; [done|]. by apply (Hnh i).
  - intros s t Hst%Hs. by eapply Hse.
  - intros i s. setoid_rewrite Hs. apply Hta.
Qed.

Lemma held_spec p t : held p t = false → ∀ i, ¬ holds p i t.
Proof.
  intros Hh i Hi. unfold held, holds, leases in *. rewrite list_lookup_fmap in Hi.
  apply fmap_Some in Hi as (x & Hx & Hl). apply list_elem_of_lookup_2, list_elem_of_In in Hx.
  assert (existsb (λ x, bool_decide (x_lease x = Some t)) (instances p) = true); [|congruence].
  apply existsb_exists. exists x. split; [done|]. by apply bool_decide_eq_true.
Qed.

Lemma dispatch_router field session r : (SessionRouter.dispatch field session r).2 = router_step (r_dispatch field session) r.
Proof. done. Qed.

Lemma dispatch_same field session r :
  bindings (SessionRouter.dispatch field session r).2 = bindings r ∧
  collected (SessionRouter.dispatch field session r).2 = collected r.
Proof.
  unfold SessionRouter.dispatch. destruct session as [| | | |s| | |]; try done. destruct (blank s); [done|].
  unfold resolveBinding. destruct (buckets r !! s); [|done]. by destruct (filter _ _) as [|? [|]].
Qed.

Lemma serves_same r r' s t : bindings r' = bindings r → collected r' = collected r → serves r' s t ↔ serves r s t.
Proof. intros Hb Hc. by rewrite !serves_iff, Hb, Hc. Qed.

Lemma request_router field m session p :
  (request field m session p).2 =
  with_router (router_step (r_dispatch field session) (p_router p)) (owners p) p.
Proof. unfold request. cbn [router_step]. by destruct (SessionRouter.dispatch _ _ _). Qed.

Lemma request_ok field m session p T : proc_ok p T → proc_ok (request field m session p).2 T.
Proof.
  rewrite request_router. destruct (dispatch_same field session (p_router p)) as [Hb Hc].
  apply router_step_ok; cbn [router_step].
  - intros s t. by apply serves_same.
  - by rewrite Hb.
  - intros t. rewrite Hc. by left.
Qed.

Lemma collect_ok t p T : proc_ok p T →
  proc_ok (step (e_collect t) p) T.
Proof.
  intros Hok. cbn [process_step]. destruct (held p t) eqn:Hh; [done|]. cbn [orb].
  destruct (Nat.leb_spec (length (bindings (p_router p))) t) as [|Hlt]; [done|].
  pose proof (held_spec _ _ Hh) as Hn. apply (router_step_ok (r_collect t)); [|done| |done]; cbn [router_step].
  - intros s t'. rewrite !serves_iff. simpl. rewrite not_elem_of_union, not_elem_of_singleton. split.
    + by intros [[? ?] ?].
    + intros Hst. split; [|by destruct Hst]. split; [|by destruct Hst]. intros ->.
      apply serves_iff in Hst. destruct (po_serves _ _ Hok _ _ Hst) as [i Hi]. by apply (Hn i).
  - intros t'. simpl. rewrite elem_of_union, elem_of_singleton. intros [->|?]; [right|by left]. done.
Qed.

Lemma finalize_ok t p T : proc_ok p T → proc_ok (step (e_finalize t) p) T.
Proof.
  intros Hok. cbn [process_step]. apply router_step_ok; [| | |done]; cbn [router_step];
    case_bool_decide; unfold finalize; destruct (registrations (p_router p) !! t); simpl; auto.
  all: intros s t'; by apply serves_same.
Qed.

Lemma frame_lease e x : x_lease (tools_event_step normalizedEntryPath e x) = x_lease x.
Proof. unfold tools_event_step. by destruct (tools_own x e). Qed.

Lemma routes_lease x : x_lease (registerSelectedProviderRoutes x) = x_lease x.
Proof. unfold registerSelectedProviderRoutes. by destruct (has_routes x). Qed.

Lemma config_changed_lease c m x : x_lease (config_changed normalizedEntryPath c m x) = x_lease x.
Proof.
  unfold config_changed. destruct (x_policy_listens x); simpl;
    (destruct (x_routes_listen x); [by rewrite routes_lease|done]).
Qed.

Lemma process_step_ok e p T : proc_ok p T → proc_ok (step e p) (sessions_step e p T).
Proof.
  intros Hok. destruct e; cbn [process_step sessions_step].
  - by apply start_ok.
  - by apply session_start_ok.
  - apply proc_ok_instance; [|done]. intros x. unfold config_loaded.
    by destruct (x_refreshes x !! k) as [[]|].
  - apply proc_ok_instance; [|done]. intros x. unfold refreshed.
    destruct (x_refreshes x !! k) as [[]|]; [done| |done]. by rewrite routes_lease.
  - apply proc_ok_instance; [|done]. intros x. apply config_changed_lease.
  - by apply session_shutdown_ok.
  - apply proc_ok_instance; [|done]. intros x. unfold compaction_event.
    destruct (has_compaction x); [|done]. by destruct e.
  - apply proc_ok_instance; [|done]. apply frame_lease.
  - by apply proc_ok_instance.
  - by apply proc_ok_instance.
  - by apply proc_ok_instance.
  - by apply request_ok.
  - by apply collect_ok.
  - by apply finalize_ok.
Qed.

Lemma process_run_ok events p T : proc_ok p T → proc_ok (run events p) (session_table events p T).
Proof.
  revert p T. induction events as [|e events IH]; intros p T Hok; [done|].
  apply (IH (step e p)). by apply process_step_ok.
Qed.

Lemma new_process_ok : proc_ok new_process ∅.
Proof.
  split; [apply router_ok_new|done|set_solver|done| |].
  - intros s t (_ & b & Hb & _)%serves_iff. done.
  - intros i s. split; [done|]. by intros (t & ? & _).
Qed.

(** How a request is served, given the table of sessions. *)
Definition served_well (field : dispatcher_field) (m : ProviderActivationModel) (session : jsval)
    (p : process H) (T : gmap nat string) (r : served) : Prop :=
  let answered i active := ∃ s x, session = VStr s ∧ T !! i = Some s ∧
    (∀ j, T !! j = Some s → j = i) ∧ instances p !! i = Some x ∧
    isActive (Some m) (x_providers x) = active in
  match r with
  | by_adaptor i => answered i true
  | by_native i f => f = field ∧ answered i false
  | refused ROUTE_AMBIGUOUS => ∃ s i j, session = VStr s ∧ i ≠ j ∧ T !! i = Some s ∧ T !! j = Some s
  | refused ROUTE_UNAVAILABLE => ∀ s i, session = VStr s → T !! i ≠ Some s
  end.

Lemma request_served field m session p T :
  proc_ok p T → served_well field m session p T (request field m session p).1.
Proof.
  intros [Hro Hown Hcol Hho Hse Hta]. unfold request, SessionRouter.dispatch.
  destruct session as [| | | |s| | |]; try done.
  destruct (blank s) eqn:Hbl.
  { intros s' i [= <-] (t & _ & Hs)%Hta. apply (ok_blank _ Hro) in Hs. congruence. }
  pose proof (resolve_result s _ Hro) as Hr.
  destruct (resolveBinding s (p_router p)) as [[t|[]] r']; simpl in *.
  - destruct Hr as [Hs Huniq]. destruct (Hse _ _ Hs) as [i Hi]. destruct (Hho _ _ Hi) as [Ho _].
    rewrite Ho. simpl. pose proof Hi as Hx. unfold holds, leases in Hx. rewrite list_lookup_fmap in Hx.
    apply fmap_Some in Hx as (x & Hx & _). rewrite Hx. simpl.
    assert (HTi : T !! i = Some s) by (apply Hta; by exists t).
    assert (Hans : ∀ b, isActive (Some m) (x_providers x) = b → ∃ s' x', VStr s = VStr s' ∧
      T !! i = Some s' ∧ (∀ j, T !! j = Some s' → j = i) ∧ instances p !! i = Some x' ∧
      isActive (Some m) (x_providers x') = b).
    { intros b Hb. exists s, x. split_and!; try done. intros j (t' & Hj & Ht')%Hta.
      apply Huniq in Ht' as ->. destruct (Hho _ _ Hj) as [Ho' _]. congruence. }
    unfold dispatchers, createCodexProviderDispatchers, createDispatcher.
    destruct (isActive _ _) eqn:Ha; [by apply Hans|]. split; [done|by apply Hans].
  - intros s' i [= <-] (t & _ & Hs)%Hta. by apply (Hr t).
  - destruct Hr as (t & t' & Hne & Hs & Hs'). destruct (Hse _ _ Hs) as [i Hi], (Hse _ _ Hs') as [j Hj].
    exists s, i, j. split_and!; [done| |apply Hta; eauto|apply Hta; eauto].
    intros ->. unfold holds in *. congruence.
Qed.

(** C2: A request reaches the instance bound to its session, and no other: the
    one whose last [session_start] was for that session, not shut down since.
    There it is answered by the Codex adaptor when the instance's policy
    selects the model's provider and its API is supported, by Pi's own stream
    of the same dispatcher when not.  It is refused as ambiguous when several
    instances are bound to the session and as unavailable when none is,
    whatever the instances, the collector and the other requests did. *)
Theorem requests_reach_their_session events field m session :
  let p := run events new_process in
  let T := session_table events new_process ∅ in
  let answered i active := ∃ s x, session = VStr s ∧ T !! i = Some s ∧
    (∀ j, T !! j = Some s → j = i) ∧ instances p !! i = Some x ∧
    isActive (Some m) (x_providers x) = active in
  match (request field m session p).1 with
  | by_adaptor i => answered i true
  | by_native i f => f = field ∧ answered i false
  | refused ROUTE_AMBIGUOUS => ∃ s i j, session = VStr s ∧ i ≠ j ∧ T !! i = Some s ∧ T !! j = Some s
  | refused ROUTE_UNAVAILABLE => ∀ s i, session = VStr s → T !! i ≠ Some s
  end.
Proof. apply request_served, process_run_ok, new_process_ok. Qed.

(** ** What every instance satisfies *)

Section every_instance.
Context (P : instance H → Prop).
Hypothesis P_started : ∀ pi h entry loaded rt,
  is_function pi "registerCommand" = true → assertProviderPayloadCompactionHost pi = Ret tt →
  P (registerSelectedProviderRoutes (new_instance normalizedEntryPath pi h entry loaded rt)).
Hypothesis P_lease : ∀ l x, P x → P (set_lease l x).
Hypothesis P_begin : ∀ x, P x → P (begin_refresh x).
Hypothesis P_loaded : ∀ k loaded x, P x → P (config_loaded k loaded x).
Hypothesis P_refreshed : ∀ k x, P x → P (refreshed k x).
Hypothesis P_changed : ∀ c m x, P x → P (config_changed normalizedEntryPath c m x).
Hypothesis P_shutdown : ∀ x, P x → P (shutdown_instance x).
Hypothesis P_tools : ∀ f x, P x → P (on_tools f x).
Hypothesis P_guard : ∀ o x, P x → P (on_guard (guard_step sha256Hex o) x).
Hypothesis P_compactions : ∀ f g x, P x → P (on_compactions f g x).
Hypothesis P_runtime : ∀ e x, P x → P (on_runtime (runtime_step e) x).

Lemma Forall_on_instance i f p : (∀ x, P x → P (f x)) → Forall P (instances p) → Forall P (instances (on_instance i f p)).
Proof. intros Hf Hp. apply Forall_alter; auto. Qed.

Lemma take_lease_every i p : Forall P (instances p) → Forall P (instances (take_lease i p)).
Proof. intros Hp. by apply Forall_on_instance; [apply P_lease|]. Qed.

(** Registering the routes and taking the first lease commute. *)
Lemma routes_set_lease l x :
  registerSelectedProviderRoutes (set_lease l x) = set_lease l (registerSelectedProviderRoutes x).
Proof. unfold registerSelectedProviderRoutes, has_routes. by destruct (is_function _ _). Qed.

Lemma start_every pi h entry loaded slot diagnostics rt p :
  Forall P (instances p) →
  Forall P (instances (piCodexAdaptor normalizedEntryPath pi h entry loaded slot diagnostics rt p).2).
Proof.
  intros Hp. unfold piCodexAdaptor. destruct (is_function pi "registerCommand") eqn:Hc; [|done]. cbn [negb].
  destruct (assertProviderPayloadCompactionHost pi) as [[]|] eqn:Ha; [|done].
  destruct (if is_function pi "registerProvider" then _ else _); [|done].
  destruct (_ && _); [done|]. cbn [snd]. set (x := new_instance _ pi h entry loaded rt).
  assert (Hx : P (registerSelectedProviderRoutes x)) by (by apply P_started).
  assert (Hlast : ∀ f (l : list (instance H)) y, alter f (length l) (l ++ [y]) = l ++ [f y]).
  { intros f l y. rewrite alter_app_r_alt by done. by rewrite Nat.sub_diag. }
  destruct (is_function pi "registerProvider");
    cbn [take_lease createLease on_instance with_router add_instance instances]; rewrite !Hlast;
    (apply Forall_app; split; [done|]); constructor; try done.
  rewrite routes_set_lease. by apply P_lease.
Qed.

Lemma session_start_every i s p : Forall P (instances p) → Forall P (instances (session_start i s p)).
Proof.
  intros Hp. unfold session_start. destruct (instances p !! i) as [x|]; [|done].
  destruct (has_events x); [|done]. cbn [negb].
  assert (Hr : Forall P (instances (release_lease x p))) by (by rewrite release_lease_instances).
  destruct (has_routes x); cbn [negb]; [|by apply Forall_on_instance].
  pose proof (take_lease_every i _ Hr). destruct (SessionRouter.bind _ _ _); [|done].
  by apply Forall_on_instance.
Qed.

Lemma step_every e p : Forall P (instances p) → Forall P (instances (step e p)).
Proof.
  intros Hp. destruct e; cbn [process_step]; try (apply Forall_on_instance; by auto).
  - by apply start_every.
  - by apply session_start_every.
  - unfold session_shutdown. destruct (instances p !! i) as [x|]; [|done].
    destruct (has_events x); [|done]. cbn [negb]. apply Forall_on_instance; [done|].
    by rewrite release_lease_instances.
  - apply Forall_on_instance; [|done]. intros x Hx. unfold compaction_event.
    destruct (has_compaction x); [|done]. destruct e; by apply P_compactions.
  - apply Forall_on_instance; [|done]. intros x Hx. unfold tools_event_step.
    destruct (tools_own x e); [by apply P_tools|done].
  - by rewrite request_router.
  - by destruct (_ || _).
  - done.
Qed.

Lemma run_every events : Forall P (instances (run events new_process)).
Proof.
  assert (Hrun : ∀ p, Forall P (instances p) → Forall P (instances (run events p))); [|by apply Hrun].
  induction events as [|e events IH]; intros p Hp; [done|]. apply (IH (step e p)). by apply step_every.
Qed.
End every_instance.

(** ** Routes *)

(** What is selected: the built-in provider and the providers of the policy. *)
Lemma elem_of_selected id ids : id ∈ selectedCodexProviderIds ids ↔ id = "openai-codex" ∨ id ∈ ids.
Proof.
  unfold selectedCodexProviderIds. rewrite elem_of_dedup, elem_of_cons.
  split; [by intros [? _]|]. intros ?. split; [done|apply not_elem_of_nil].
Qed.

Lemma lookup_insert_all ids (r : registry) id :
  fold_left (λ r id, <[ id := route_config id ]> r) ids r !! id =
  if bool_decide (id ∈ ids) then Some (route_config id) else r !! id.
Proof.
  revert r. induction ids as [|x ids IH]; intros r; [done|]. cbn [fold_left]. rewrite IH.
  destruct (decide (id = x)) as [->|Hne].
  - rewrite lookup_insert_eq, (bool_decide_true (x ∈ x :: ids)) by (by left). by case_bool_decide.
  - rewrite lookup_insert_ne by done. apply (f_equal (λ b : bool, if b then _ else _)).
    apply bool_decide_ext. rewrite elem_of_cons. naive_solver.
Qed.

Lemma lookup_unregister previous selected (r : registry) id :
  unregister_stale previous selected r !! id =
  if bool_decide (id ∈ previous ∧ id ∉ selected) then None else r !! id.
Proof.
  unfold unregister_stale. revert r. induction previous as [|x previous IH]; intros r; cbn [fold_left].
  { by rewrite bool_decide_false by (by intros [?%not_elem_of_nil _]). }
  rewrite IH. destruct (js_elem x selected) eqn:Hx.
  - apply js_elem_spec in Hx. apply (f_equal (λ b : bool, if b then _ else _)).
    apply bool_decide_ext. rewrite elem_of_cons. naive_solver.
  - apply js_elem_false in Hx. destruct (decide (id = x)) as [->|Hne].
    + rewrite lookup_delete_eq, (bool_decide_true (x ∈ x :: previous ∧ _)) by (split; [by left|done]).
      by case_bool_decide.
    + rewrite lookup_delete_ne by done. apply (f_equal (λ b : bool, if b then _ else _)).
      apply bool_decide_ext. rewrite elem_of_cons. naive_solver.
Qed.

(** The routes of an instance agree with what it registered last; they agree
    with its policy unless a [session_start] is about to register them. *)
Record routes_ok (x : instance H) : Prop := {
  ro_config id c : x_registry x !! id = Some c → c = route_config id;
  ro_all id : id ∈ x_registered x → is_Some (x_registry x !! id);
  ro_only id : is_function (x_host x) "unregisterProvider" = true →
    is_Some (x_registry x !! id) → id ∈ x_registered x;
  ro_none : has_routes x = false → x_registry x = ∅ ∧ x_registered x = [];
  ro_listens : x_policy_listens x = x_routes_listen x;
  ro_synced : has_routes x = true → wait_refresh ∉ x_refreshes x →
    x_registered x = selectedCodexProviderIds (x_providers x) }.

(** All of it is about these parts of an instance. *)
Definition routes_view (x : instance H) :=
  (x_host x, x_providers x, (x_policy_listens x, x_routes_listen x), (x_registered x, x_registry x)).

Lemma routes_ok_view x x' :
  routes_view x' = routes_view x → (wait_refresh ∈ x_refreshes x → wait_refresh ∈ x_refreshes x') →
  routes_ok x → routes_ok x'.
Proof.
  unfold routes_view. intros [= Hh Hp Hl Hl' Hr Hg] Hw [].
  split; unfold has_routes in *; rewrite ?Hh, ?Hp, ?Hl, ?Hl', ?Hr, ?Hg; auto.
Qed.

(** Registering brings the routes in line with the policy. *)
Lemma registered_ok x :
  (∀ id c, x_registry x !! id = Some c → c = route_config id) →
  (is_function (x_host x) "unregisterProvider" = true →
     ∀ id, is_Some (x_registry x !! id) → id ∈ x_registered x) →
  (has_routes x = false → x_registry x = ∅ ∧ x_registered x = []) →
  x_policy_listens x = x_routes_listen x →
  routes_ok (registerSelectedProviderRoutes x).
Proof.
  intros Hc Ho Hn Hl. unfold registerSelectedProviderRoutes. destruct (has_routes x) eqn:Hr.
  - set (u := if is_function (x_host x) "unregisterProvider"
              then unregister_stale (x_registered x) (selectedCodexProviderIds (x_providers x)) (x_registry x)
              else x_registry x).
    assert (Hlk : ∀ id, x_registry (set_routes (reconcileCodexProviderRoutes
        (is_function (x_host x) "unregisterProvider") (x_registered x) (x_providers x) (x_registry x)) x) !! id =
        if bool_decide (id ∈ selectedCodexProviderIds (x_providers x)) then Some (route_config id) else u !! id).
    { intros id. apply lookup_insert_all. }
    split; try done.
    + intros id c. rewrite Hlk. case_bool_decide; [by intros [= <-]|]. subst u.
      destruct (is_function (x_host x) "unregisterProvider"); [|apply Hc].
      rewrite lookup_unregister. case_bool_decide; [done|apply Hc].
    + intros id Hid. rewrite Hlk. rewrite bool_decide_true by done. by eexists.
    + intros id Hu. rewrite Hlk. cbn [x_registered set_routes reconcileCodexProviderRoutes fst].
      case_bool_decide as Hid; [done|]. cbn in Hu. subst u. rewrite Hu, lookup_unregister.
      intros Hs. case_bool_decide as Hd; [by destruct Hs|]. destruct Hd. split; [|done]. by apply Ho.
    + unfold has_routes. cbn. intros Hr'. unfold has_routes in Hr. congruence.
  - destruct (Hn eq_refl) as [Hg Hreg]. split; try done.
    + intros id Hid. rewrite Hreg in Hid. by apply not_elem_of_nil in Hid.
    + auto.
    + intros Hr'. congruence.
Qed.

Lemma register_ok x : routes_ok x → routes_ok (registerSelectedProviderRoutes x).
Proof. intros []. apply registered_ok; auto. Qed.

Lemma run_routes_ok events : Forall routes_ok (instances (run events new_process)).
Proof.
  apply run_every.
  - intros pi h entry loaded rt _ _. apply registered_ok; cbn; [| |done|done].
    + intros id c. by rewrite lookup_empty.
    + intros _ id. rewrite lookup_empty. by intros [].
  - intros l x. by apply routes_ok_view.
  - intros x. apply routes_ok_view; [done|]. cbn. rewrite elem_of_app. auto.
  - intros k loaded x Hx. unfold config_loaded. destruct (x_refreshes x !! k) as [[]|] eqn:Hk; [|done..].
    destruct Hx as [? ? ? ? ? _]. split; try done. intros _ Hw. destruct Hw. cbn.
    apply list_elem_of_lookup. exists k. apply list_lookup_insert_eq. by eapply lookup_lt_Some.
  - intros k x Hx. unfold refreshed. destruct (x_refreshes x !! k) as [[]|]; [done| |done].
    destruct Hx. by apply registered_ok; auto.
  - intros c m x Hx. pose proof (ro_listens _ Hx) as Hl. unfold config_changed.
    eapply (routes_ok_view (if x_routes_listen x then registerSelectedProviderRoutes
      (set_policy (replace_providers c (x_providers x)) x) else x)).
    { rewrite Hl. by destruct (x_routes_listen x) eqn:Hr; cbn; rewrite Hr. }
    { rewrite Hl. by destruct (x_routes_listen x) eqn:Hr; cbn; rewrite Hr. }
    destruct (x_routes_listen x); [|done]. destruct Hx. by apply registered_ok; auto.
  - intros x []. split; auto.
  - intros f x. by apply routes_ok_view.
  - intros o x. by apply routes_ok_view.
  - intros f g x. by apply routes_ok_view.
  - intros e x. by apply routes_ok_view.
Qed.

(** C24: In every instance, at every moment, each route of the host leads to the
    router's dispatcher for its provider, and the built-in provider and every
    provider of the policy have one; when the host can unregister providers no
    other has.  The only moments excepted are those between the end of a
    [session_start]'s refresh of the policy and the registration that follows
    it.  A host without providers gets none. *)
Theorem host_routes_follow_policy events :
  Forall (λ x,
    (∀ id c, x_registry x !! id = Some c → c = route_config id) ∧
    (has_routes x = false → x_registry x = ∅) ∧
    (has_routes x = true → wait_refresh ∉ x_refreshes x →
      (∀ id, id = "openai-codex" ∨ id ∈ x_providers x → x_registry x !! id = Some (route_config id)) ∧
      (is_function (x_host x) "unregisterProvider" = true →
         ∀ id, is_Some (x_registry x !! id) → id = "openai-codex" ∨ id ∈ x_providers x)))
    (instances (run events new_process)).
Proof.
  eapply Forall_impl; [apply run_routes_ok|]. intros x [Hc Ha Ho Hn Hl Hs]. split_and!; [done|by intros [? _]%Hn|].
  intros Hr Hw. specialize (Hs Hr Hw). rewrite Hs in *. setoid_rewrite <-elem_of_selected. split.
  - intros id [c Hlk]%Ha. rewrite Hlk. f_equal. by apply Hc.
  - intros Hu id. by apply Ho.
Qed.

(** ** Shutdown *)

(** The handler that binds instance [i] again. *)
Definition restarts (i : nat) (e : event) : bool :=
  match e with e_session_start j _ => (j =? i)%nat | _ => false end.

(** What any other event does to an instance. *)
Inductive instance_step : instance H → instance H → Prop :=
| step_same x : instance_step x x
| step_loaded k loaded x : instance_step x (config_loaded k loaded x)
| step_refreshed k x : instance_step x (refreshed k x)
| step_changed c m x : instance_step x (config_changed normalizedEntryPath c m x)
| step_shutdown x : instance_step x (shutdown_instance x)
| step_tools f x : instance_step x (on_tools f x)
| step_guard o x : instance_step x (on_guard (guard_step sha256Hex o) x)
| step_compactions f g x : instance_step x (on_compactions f g x)
| step_runtime e x : instance_step x (on_runtime (runtime_step e) x).

Lemma on_instance_step i j f p x :
  (∀ x, instance_step x (f x)) → instances p !! i = Some x →
  ∃ x', instances (on_instance j f p) !! i = Some x' ∧ instance_step x x'.
Proof.
  intros Hf Hx. cbn [instances on_instance]. destruct (decide (i = j)) as [->|].
  - rewrite list_lookup_alter_eq, Hx. by eexists.
  - rewrite list_lookup_alter_ne by done. exists x. split; [done|constructor].
Qed.

Lemma other_instance i j f p x :
  i ≠ j → instances p !! i = Some x → instances (on_instance j f p) !! i = Some x.
Proof. intros Hne Hx. cbn [instances on_instance]. by rewrite list_lookup_alter_ne. Qed.

Lemma start_instance i pi h entry loaded slot diagnostics rt p x :
  instances p !! i = Some x →
  instances (piCodexAdaptor normalizedEntryPath pi h entry loaded slot diagnostics rt p).2 !! i = Some x.
Proof.
  intros Hx. pose proof (lookup_lt_Some _ _ _ Hx) as Hlt. unfold piCodexAdaptor. destruct (negb _); [done|].
  destruct (assertProviderPayloadCompactionHost pi); [|done].
  destruct (if is_function pi "registerProvider" then _ else _); [|done].
  destruct (_ && _); [done|]. cbn [snd]. apply other_instance; [lia|].
  assert (Hadd : ∀ y, instances (add_instance y p) !! i = Some x).
  { intros y. cbn. by apply lookup_app_l_Some. }
  destruct (is_function pi "registerProvider"); [|done].
  unfold take_lease. cbn. rewrite list_lookup_alter_ne by lia. apply Hadd.
Qed.

Lemma session_start_instance i j s p x :
  i ≠ j → instances p !! i = Some x → instances (session_start j s p) !! i = Some x.
Proof.
  intros Hne Hx. unfold session_start. destruct (instances p !! j) as [y|]; [|done].
  destruct (has_events y); [|done]. cbn [negb].
  assert (Hr : instances (release_lease y p) !! i = Some x) by (by rewrite release_lease_instances).
  destruct (has_routes y); cbn [negb]; [|by apply other_instance].
  assert (Ht : instances (take_lease j (release_lease y p)) !! i = Some x) by (by apply other_instance).
  destruct (SessionRouter.bind _ _ _); [|done]. by apply other_instance.
Qed.

Lemma step_instance i e p x :
  restarts i e = false → instances p !! i = Some x →
  ∃ x', instances (step e p) !! i = Some x' ∧ instance_step x x'.
Proof.
  intros He Hx. assert (Hsame : ∃ x', instances p !! i = Some x' ∧ instance_step x x')
    by (exists x; split; [done|constructor]).
  destruct e; cbn [process_step restarts] in *;
    try (apply on_instance_step; [intros y; constructor|done]).
  - exists x. split; [by apply start_instance|constructor].
  - apply Nat.eqb_neq in He. exists x. split; [by apply session_start_instance|constructor].
  - unfold session_shutdown. destruct (instances p !! i0) as [y|]; [|done].
    destruct (has_events y); [|done]. cbn [negb]. apply on_instance_step; [intros z; constructor|].
    by rewrite release_lease_instances.
  - apply on_instance_step; [|done]. intros y. unfold compaction_event.
    destruct (has_compaction y); [|constructor]. destruct e; constructor.
  - apply on_instance_step; [|done]. intros y. unfold tools_event_step.
    destruct (tools_own y e); constructor.
  - by rewrite request_router.
  - by destruct (_ || _).
  - done.
Qed.

Lemma runtime_shutdown s :
  rt (Runtime.shutdown s) = {| rt_client := None; rt_connecting := None; rt_models := ∅ |}.
Proof. unfold Runtime.shutdown. by destruct (rt_client (rt s)). Qed.

(** What is left after a shutdown, whatever happens then. *)
Record ended (x0 x : instance H) : Prop := {
  en_disposed : disposed (x_guard x) = true;
  en_deaf : x_policy_listens x = false ∧ x_routes_listen x = false;
  en_frozen : x_refreshes x0 = [] →
    x_refreshes x = [] ∧ x_providers x = x_providers x0 ∧ x_registry x = x_registry x0 }.

Lemma dispose_disposed g : disposed (RequestGuard.dispose (invalidateAll g)) = true.
Proof.
  assert (He : ∀ g, disposed g = true → disposed (invalidateAll g) = true).
  { intros g'. apply (ev_disposed _ _ _ (close_each_evolves (λ _, true) 0 _ g')). }
  unfold RequestGuard.dispose. by apply He.
Qed.

Lemma step_ended x0 x x' : instance_step x x' → ended x0 x → ended x0 x'.
Proof.
  intros Hs [Hd [Hp Hr] Hf]. destruct Hs.
  - by split.
  - unfold config_loaded. destruct (x_refreshes x !! k) as [[]|] eqn:Hk; [|by split..].
    split; [done..|]. intros [Hn _]%Hf. by rewrite Hn in Hk.
  - unfold refreshed. destruct (x_refreshes x !! k) as [[]|] eqn:Hk; [by split| |by split].
    unfold registerSelectedProviderRoutes. destruct (has_routes _); split; try done;
      intros [Hn _]%Hf; by rewrite Hn in Hk.
  - unfold config_changed. rewrite Hp. cbn. rewrite Hr. by split.
  - split; [apply dispose_disposed|done|exact Hf].
  - by split.
  - split; [|done..]. cbn. by apply (ev_disposed _ _ _ (step_evolves sha256Hex o (nextGeneration (x_guard x)) _ (Z.le_refl _))).
  - by split.
  - by split.
Qed.

Lemma run_ended i late : forallb (λ e, negb (restarts i e)) late = true → ∀ x0 x p T,
  instances p !! i = Some x → ended x0 x → proc_ok p T → T !! i = None →
  ∃ x' T', instances (run late p) !! i = Some x' ∧ ended x0 x' ∧ proc_ok (run late p) T' ∧ T' !! i = None.
Proof.
  induction late as [|e late IH]; intros Hl x0 x p T Hx He Hok HT; [by exists x, T|].
  cbn [forallb] in Hl. apply andb_true_iff in Hl as [Hr Hl]. apply negb_true_iff in Hr.
  destruct (step_instance i e p x Hr Hx) as (x' & Hx' & Hs).
  apply (IH Hl x0 x' (step e p) (sessions_step e p T)); [done|by eapply step_ended|by apply process_step_ok|].
  destruct e; try done; cbn [sessions_step restarts] in *.
  - apply Nat.eqb_neq in Hr. destruct (instances p !! i0) as [y|]; [|done].
    destruct (has_events y); [|done]. destruct (_ && _); by rewrite ?lookup_insert_ne, ?lookup_delete_ne.
  - destruct (instances p !! i0) as [y|]; [|done]. destruct (has_events y); [|done].
    rewrite lookup_delete_None. by right.
Qed.

(** C25: After the [session_shutdown] of an instance and until its next
    [session_start], whatever else happens in the process: no request is served
    by the instance, its request guard approves nothing and opens nothing, and
    it no longer hears configuration changes; its providers and routes stay as
    they were, unless a [session_start] was still waiting.  The shutdown itself
    leaves no busy compaction, no bridge client, no cached capabilities, and
    the tool profile back with Pi. *)
Theorem shutdown_ends_the_instance events i late :
  forallb (λ e, negb (restarts i e)) late = true →
  let p0 := run events new_process in
  let p1 := step (e_session_shutdown i) p0 in
  let p2 := run late p1 in
  ∀ x0, instances p0 !! i = Some x0 → has_events x0 = true →
  ∃ x1 x2, instances p1 !! i = Some x1 ∧ instances p2 !! i = Some x2 ∧
    (x_coordinator x1 = ∅ ∧ rt_client (rt (x_runtime x1)) = None ∧ rt_models (rt (x_runtime x1)) = ∅ ∧
     ∀ ts, x_tools x1 = Some ts →
       cache (ts_resolver ts) = [] ∧ readiness (ts_world ts).1.1 = inactive ∧ ToolProfile.state (ts_world ts).1.1 = None) ∧
    (∀ gen, assertLive gen (x_guard x2) = false) ∧
    (∀ input, (RequestGuard.open sha256Hex input (x_guard x2)).1 = Throw RECORD_UNAVAILABLE) ∧
    (∀ field m session f, (request field m session p2).1 ≠ by_adaptor i ∧
                          (request field m session p2).1 ≠ by_native i f) ∧
    (x_refreshes x0 = [] → x_providers x2 = x_providers x0 ∧ x_registry x2 = x_registry x0).
Proof.
  intros Hl p0 p1 p2 x0 Hx0 Hev. pose proof (process_run_ok events _ _ new_process_ok) as Hok0.
  fold p0 in Hok0. pose proof (process_step_ok (e_session_shutdown i) p0 _ Hok0) as Hok1. fold p1 in Hok1.
  cbn [sessions_step] in Hok1. rewrite Hx0, Hev in Hok1.
  assert (Hx1 : instances p1 !! i = Some (shutdown_instance x0)).
  { subst p1. cbn [process_step]. unfold session_shutdown. rewrite Hx0, Hev. cbn [negb on_instance instances].
    by rewrite release_lease_instances, list_lookup_alter_eq, Hx0. }
  assert (He1 : ended x0 (shutdown_instance x0)) by (split; [apply dispose_disposed|done..]).
  destruct (run_ended i late Hl x0 _ p1 _ Hx1 He1 Hok1 (lookup_delete_eq _ _)) as (x2 & T2 & Hx2 & He2 & Hok2 & HT2).
  exists (shutdown_instance x0), x2. destruct He2 as [Hd _ Hf]. split_and!; try done.
  - cbn. by rewrite runtime_shutdown.
  - cbn. by rewrite runtime_shutdown.
  - cbn. destruct (x_tools x0) as [ts0|]; [|done]. intros ts [= <-]. cbn.
    by destruct (ts_world ts0) as [[prof h] out].
  - intros gen. unfold assertLive. rewrite Hd. by destruct (heap _ !! gen).
  - intros input. unfold RequestGuard.open. by rewrite Hd.
  - intros field m session f. pose proof (request_served field m session p2 _ Hok2) as Hs. unfold served_well in Hs.
    destruct (request field m session p2).1 as [j|j g|]; split; try done; intros [= ->].
    + destruct Hs as (s & x & _ & HTi & _). congruence.
    + destruct Hs as (_ & s & x & _ & HTi & _). congruence.
  - by intros (_ & ? & ?)%Hf.
Qed.

(** ** Startup *)

(** The instance a successful start adds. *)
Lemma started_instances pi h entry loaded rt p :
  let x := new_instance normalizedEntryPath pi h entry loaded rt in
  let q := add_instance x p in
  ∃ l, instances (on_instance (length (instances p)) registerSelectedProviderRoutes
         (if is_function pi "registerProvider" then take_lease (length (instances p)) q else q)) =
       instances p ++ [registerSelectedProviderRoutes (set_lease l x)].
Proof.
  intros x q.
  assert (Hlast : ∀ f (l : list (instance H)) y, alter f (length l) (l ++ [y]) = l ++ [f y]).
  { intros f l y. rewrite alter_app_r_alt by done. by rewrite Nat.sub_diag. }
  destruct (is_function pi "registerProvider");
    cbn [q take_lease createLease on_instance with_router add_instance instances]; rewrite !Hlast.
  - by eexists.
  - by exists None.
Qed.

(** The routes of a new instance. *)
Lemma started_routes pi (h : H) entry loaded rt l id :
  let x := registerSelectedProviderRoutes (set_lease l (new_instance normalizedEntryPath pi h entry loaded rt)) in
  x_registry x !! id =
    if is_function pi "registerProvider" && bool_decide (id = "openai-codex" ∨ id ∈ x_providers x)
    then Some (route_config id) else None.
Proof.
  unfold registerSelectedProviderRoutes, has_routes. cbn [x_host set_lease new_instance].
  destruct (is_function pi "registerProvider"); cbn [andb]; [|apply lookup_empty].
  cbn [x_registry x_providers set_routes snd reconcileCodexProviderRoutes]. unfold registerCodexProviderRoutes.
  rewrite lookup_insert_all. cbn [set_lease new_instance x_registry x_registered x_providers].
  rewrite (bool_decide_ext _ _ (elem_of_selected id _)). case_bool_decide; [done|].
  destruct (is_function pi "unregisterProvider"); apply lookup_empty.
Qed.

Lemma host_gate pi :
  assertProviderPayloadCompactionHost pi = Ret tt →
  Forall (λ name, field (host_values pi) name = VNum 1%Z)
    ["extensionSdkApiVersion"; "providerPayloadCompactionApiVersion";
     "compactionFailureResultApiVersion"; "providerCheckpointCommitApiVersion"] ∧
  is_function pi "setProviderCheckpointUsageBoundary" = true.
Proof.
  unfold assertProviderPayloadCompactionHost, is_required, capabilityVersion, REQUIRED_API_VERSION.
  rewrite !guard_bind_iff, guard_throw_ret. intros (H1' & H2' & H3' & H4'). bool_to_prop.
  destruct H4' as [H4' Hf]. by repeat constructor.
Qed.

Lemma bridge_gate diagnostics :
  assertRemoteCompactionBridge diagnostics = Ret tt →
  ∃ fs capabilities, diagnostics = Ret (VObj fs) ∧ field fs "capabilities" = VArr (VStr <$> capabilities) ∧
    ("remote_compaction_v2" ∈ capabilities ∨ "compact_endpoint" ∈ capabilities).
Proof.
  unfold assertRemoteCompactionBridge. destruct diagnostics as [d|]; [|done].
  destruct (as_record d) as [fs|] eqn:Hd; [|done]. destruct d; try done. injection Hd as ->.
  destruct (string_items (field fs "capabilities")) as [cs|] eqn:Hc; [|done].
  rewrite guard_throw_ret. intros Hin. bool_to_prop. exists fs, cs. split_and!; [done| |done].
  unfold string_items in Hc. destruct (field fs "capabilities"); try done. f_equal.
  apply mapM_Some in Hc. clear Hin. induction Hc as [|v s l k Hv _ IH]; [done|]. cbn.
  rewrite IH. f_equal. destruct v; by simplify_eq.
Qed.

(** C37: The extension starts only on a host that declares every API version it
    was written for and can set the usage boundary, and, on a host with
    providers, only with a bridge that reports Remote Compaction and a process
    slot with a compatible router; it then has the policy of the configuration
    it loaded, the routes of that policy and a lease that is bound to nothing.
    Otherwise the process has no new instance and the router is untouched, and
    a runtime whose bridge was refused is shut down. *)
Theorem extension_starts_only_on_compatible_host pi h entry loaded slot diagnostics rt p :
  let '(r, p') := piCodexAdaptor normalizedEntryPath pi h entry loaded slot diagnostics rt p in
  let routes := is_function pi "registerProvider" in
  match r with
  | Throw e =>
      instances p' = instances p ∧ p_router p' = p_router p ∧
      match e with
      | host_error _ | slot_error => stopped p' = stopped p
      | diagnostics_error _ | bridge_error _ => routes = true ∧ stopped p' = stopped p ++ [Runtime.shutdown rt]
      end
  | Ret _ =>
      if is_function pi "registerCommand" then
        Forall (λ name, field (host_values pi) name = VNum 1%Z)
          ["extensionSdkApiVersion"; "providerPayloadCompactionApiVersion";
           "compactionFailureResultApiVersion"; "providerCheckpointCommitApiVersion"] ∧
        is_function pi "setProviderCheckpointUsageBoundary" = true ∧
        (routes = true → slot = true ∧ ∃ fs capabilities,
           diagnostics = Ret (VObj fs) ∧ field fs "capabilities" = VArr (VStr <$> capabilities) ∧
           ("remote_compaction_v2" ∈ capabilities ∨ "compact_endpoint" ∈ capabilities)) ∧
        ∃ x, instances p' = instances p ++ [x] ∧ x_host x = pi ∧
          x_providers x = refresh loaded initial_providers ∧
          ∀ id, x_registry x !! id =
            if routes && bool_decide (id = "openai-codex" ∨ id ∈ x_providers x)
            then Some (route_config id) else None
      else p' = p
  end.
Proof.
  unfold piCodexAdaptor. destruct (is_function pi "registerCommand"); [|done]. cbn [negb].
  destruct (assertProviderPayloadCompactionHost pi) as [[]|m] eqn:Ha; [|done].
  apply host_gate in Ha as [Hv Hf].
  destruct (if is_function pi "registerProvider" then _ else _) as [[]|e] eqn:Hb.
  - destruct (_ && _) eqn:Hs; [done|]. split_and!; [done..| |].
    + intros Hr. rewrite Hr in Hb, Hs. apply bridge_gate in Hb. by destruct slot.
    + destruct (started_instances pi h entry loaded rt p) as [l Hl]. eexists. split_and!; [exact Hl| | |].
      * unfold registerSelectedProviderRoutes. by destruct (has_routes _).
      * unfold registerSelectedProviderRoutes. by destruct (has_routes _).
      * apply started_routes.
  - cbn. split_and!; [done..|]. destruct (is_function pi "registerProvider"); [|done].
    unfold assertRemoteCompactionBridge in Hb. destruct diagnostics as [d|e']; [|by injection Hb as <-].
    destruct (as_record d); [|by injection Hb as <-].
    destruct (string_items _); [|by injection Hb as <-].
    unfold guard_throw in Hb. destruct (_ || _); [done|]. by injection Hb as <-.
Qed.
End extension.

(** ** A host with every function *)

Definition full_host : PiHost := {|
  host_values := [("extensionSdkApiVersion", VNum 1%Z); ("providerPayloadCompactionApiVersion", VNum 1%Z);
                  ("compactionFailureResultApiVersion", VNum 1%Z); ("providerCheckpointCommitApiVersion", VNum 1%Z)];
  host_functions := ["registerCommand"; "setProviderCheckpointUsageBoundary"; "registerProvider";
                     "unregisterProvider"; "getThinkingLevel"] ++ TOOL_FUNCTIONS |}.

Definition full_diagnostics : jsval := VObj [("capabilities", VArr [VStr "remote_compaction_v2"])].

Definition full_start : process_event (H := plain_host) :=
  e_start full_host sample_host "/ext" (Ret createDefaultConfig) true (Ret full_diagnostics) new_runtime.

(** An instance is started and bound to a session. *)
Definition full_events : list (process_event (H := plain_host)) :=
  [full_start; e_session_start 0 "s"; e_config_loaded 0 0 (Ret createDefaultConfig); e_refreshed 0 0].
Definition full_late : list (process_event (H := plain_host)) :=
  [e_config_changed 0 createDefaultConfig None; e_session_start 1 "s"; e_runtime 0 ev_shutdown].

Definition codex_model : ProviderActivationModel :=
  {| am_provider := "openai-codex"; am_api := "openai-codex-responses" |}.

Definition full_run : list (process_event (H := plain_host)) → process plain_host → process plain_host :=
  process_run (H1 := bits_json) (λ p, p) id.

Definition full_instance : instance plain_host :=
  default (new_instance (λ p, p) full_host sample_host "/ext" (Ret createDefaultConfig) new_runtime)
    (instances (full_run full_events new_process) !! 0).

Lemma shutdown_ends_the_instance_witness :
  let p0 := full_run full_events new_process in
  let p2 := full_run full_late (process_step (H1 := bits_json) (λ p, p) id (e_session_shutdown 0) p0) in
  (request codexResponses codex_model (VStr "s") p0).1 = by_adaptor 0 ∧
  (request codexResponses codex_model (VStr "s") p2).1 ≠ by_adaptor 0.
Proof.
  split; [vm_compute; reflexivity|].
  destruct (shutdown_ends_the_instance (H1 := bits_json) (λ p, p) id full_events 0 full_late eq_refl
    full_instance ltac:(vm_compute; reflexivity) ltac:(vm_compute; reflexivity)) as (x1 & x2 & _ & _ & _ & _ & _ & Hr & _).
  apply (Hr codexResponses codex_model (VStr "s") codexResponses).
Defined.
