(* ===== verification/Decimal.v ===== *)
(** * Decimal

    Integers written in decimal, as template literals and [toString] write
    them, and the rounding of numbers: [Math.round] and [toFixed(1)]. *)

From Stdlib Require Import Lia QArith Qcanon ZifyNat ZifyN.
From S2P Require Import Prelude.

(** The fuel of [dec_digits] is the number of bits, which is at least the
    number of digits. *)
Definition digit (d : Z) : ascii := ascii_of_N (48 + Z.to_N d).

Fixpoint dec_digits (fuel : nat) (n : Z) (acc : string) : string :=
  match fuel with
  | O => acc
  | S fuel =>
      let acc := String (digit (n mod 10)) acc in
      if (n / 10 =? 0)%Z then acc else dec_digits fuel (n / 10) acc
  end.
Definition decimal (n : Z) : string := dec_digits (S (Z.to_nat (Z.log2 n))) n "".

(** [Math.round] of a finite number: halves are rounded up. *)
Definition math_round (q : Qc) : Z :=
  ((2 * Qnum (this q) + Zpos (Qden (this q))) / (2 * Zpos (Qden (this q))))%Z.

(** ** Reading a decimal text back *)

(** The digits are read from the left; commas are skipped. *)
Fixpoint read_digits (s : string) (a : Z) : Z :=
  match s with
  | EmptyString => a
  | String c s => read_digits s (if Ascii.eqb c "," then a else 10 * a + Z.of_N (unit_of c) - 48)%Z
  end.

Lemma digit_unit d : (0 ≤ d < 10)%Z → Z.of_N (unit_of (digit d)) = (48 + d)%Z.
Proof. intros Hd. unfold unit_of, digit. rewrite N_ascii_embedding; lia. Qed.

Lemma digit_not_comma d : (0 ≤ d < 10)%Z → Ascii.eqb (digit d) "," = false.
Proof.
  intros Hd. destruct (Ascii.eqb_spec (digit d) ",") as [He|]; [|done].
  pose proof (digit_unit d Hd) as Hu. rewrite He in Hu. change (Z.of_N (unit_of ",")) with 44%Z in Hu. lia.
Qed.

Lemma mod10 n : (0 ≤ n mod 10 < 10)%Z. Proof. apply Z.mod_pos_bound. lia. Qed.

Lemma pow10_S (k : nat) : (10 ^ Z.of_nat (S k) = 10 * 10 ^ Z.of_nat k)%Z.
Proof. rewrite Nat2Z.inj_succ, Z.pow_succ_r by lia. lia. Qed.

Lemma read_dec_digits fuel n acc : (0 ≤ n < 10 ^ Z.of_nat fuel)%Z →
  read_digits (dec_digits fuel n acc) 0 = read_digits acc n.
Proof.
  revert n acc. induction fuel as [|fuel IH]; intros n acc Hn.
  { simpl in Hn. by replace n with 0%Z by lia. }
  rewrite pow10_S in Hn. cbn [dec_digits]. pose proof (mod10 n) as Hm. pose proof (Z.div_mod n 10 ltac:(done)).
  assert (Hread : ∀ a, read_digits (String (digit (n mod 10)) acc) a = read_digits acc (10 * a + n mod 10)).
  { intros a. cbn [read_digits]. rewrite digit_not_comma, digit_unit by done. f_equal. lia. }
  destruct (Z.eqb_spec (n / 10) 0) as [Hz|Hz].
  - rewrite Hread. f_equal. lia.
  - rewrite IH, Hread; [f_equal; lia|]. split; [apply Z.div_pos; lia|].
    apply Z.div_lt_upper_bound; lia.
Qed.

(** How many digits there are. *)
Lemma length_dec_digits_le fuel k n acc : (0 ≤ n < 10 ^ Z.of_nat (S k))%Z →
  String.length (dec_digits fuel n acc) ≤ S k + String.length acc.
Proof.
  revert k n acc. induction fuel as [|fuel IH]; intros k n acc Hn; cbn [dec_digits]; [lia|].
  rewrite pow10_S in Hn. destruct (Z.eqb_spec (n / 10) 0) as [Hz|Hz]; [simpl; lia|].
  destruct k as [|k]; [simpl in Hn; rewrite Z.div_small in Hz by lia; done|].
  etrans; [apply (IH k)|simpl; lia]. split; [apply Z.div_pos; lia|]. apply Z.div_lt_upper_bound; lia.
Qed.

Lemma length_dec_digits_ge fuel k n acc : (10 ^ Z.of_nat k ≤ n < 10 ^ Z.of_nat fuel)%Z →
  S k + String.length acc ≤ String.length (dec_digits fuel n acc).
Proof.
  revert k n acc. induction fuel as [|fuel IH]; intros k n acc Hn; cbn [dec_digits].
  { simpl in Hn. pose proof (Z.pow_pos_nonneg 10 (Z.of_nat k)). lia. }
  destruct k as [|k].
  - assert (Hacc : ∀ fuel n acc, String.length acc ≤ String.length (dec_digits fuel n acc)).
    { intros f. induction f as [|f IHf]; intros n' acc'; cbn [dec_digits]; [done|].
      destruct (_ =? 0)%Z; [simpl; lia|]. etrans; [|apply IHf]. simpl. lia. }
    destruct (_ =? 0)%Z; [simpl; lia|]. etrans; [|apply Hacc]. simpl. lia.
  - rewrite pow10_S in Hn. pose proof (Z.pow_pos_nonneg 10 (Z.of_nat k)).
    assert (Hlow : (10 ^ Z.of_nat k ≤ n / 10)%Z) by (apply Z.div_le_lower_bound; lia).
    destruct (Z.eqb_spec (n / 10) 0); [lia|]. etrans; [|apply (IH k)]; [simpl; lia|].
    split; [done|]. rewrite pow10_S in Hn. apply Z.div_lt_upper_bound; lia.
Qed.

(** The fuel of [decimal] is enough. *)
Lemma decimal_fuel n : (0 ≤ n)%Z → (0 ≤ n < 10 ^ Z.of_nat (S (Z.to_nat (Z.log2 n))))%Z.
Proof.
  intros Hn. split; [done|]. rewrite Nat2Z.inj_succ, Z2Nat.id by apply Z.log2_nonneg.
  destruct (decide (n = 0%Z)) as [->|]; [done|].
  eapply Z.lt_le_trans; [apply Z.log2_spec; lia|]. apply Z.pow_le_mono_l. lia.
Qed.

Lemma read_decimal n : (0 ≤ n)%Z → read_digits (decimal n) 0 = n.
Proof. intros Hn. unfold decimal. rewrite read_dec_digits by by apply decimal_fuel. done. Qed.

Lemma length_decimal_le k n : (0 ≤ n < 10 ^ Z.of_nat (S k))%Z → String.length (decimal n) ≤ S k.
Proof. intros Hn. etrans; [by apply (length_dec_digits_le _ k)|]. change (String.length "") with 0. lia. Qed.

Lemma length_decimal_ge k n : (10 ^ Z.of_nat k ≤ n)%Z → S k ≤ String.length (decimal n).
Proof.
  intros Hn. pose proof (Z.pow_pos_nonneg 10 (Z.of_nat k)). destruct (decimal_fuel n) as [_ Hf]; [lia|].
  etrans; [|by apply (length_dec_digits_ge _ k)]. lia.
Qed.

(** [Math.round]: the nearest integer, halves up. *)
Lemma math_round_spec q :
  (inject_Z (math_round q) - (1 # 2) <= this q)%Q ∧ (this q < inject_Z (math_round q) + (1 # 2))%Q.
Proof.
  destruct q as [[a d] Hq]. unfold math_round. cbn [this Qnum Qden].
  pose proof (Z.div_mod (2 * a + Zpos d) (2 * Zpos d) ltac:(lia)) as Hdm.
  pose proof (Z.mod_pos_bound (2 * a + Zpos d) (2 * Zpos d) ltac:(lia)) as Hmb.
  set (n := ((2 * a + Zpos d) / (2 * Zpos d))%Z) in *. clearbody n.
  unfold Qle, Qlt. cbn. split; nia.
Qed.

Lemma math_round_nonneg q : num_ltb (NFin q) 0%Z = false → (0 ≤ math_round q)%Z.
Proof.
  simpl. rewrite bool_decide_eq_false. intros Hq%Qcnot_lt_le. destruct q as [[a d] Hc].
  unfold Qcle, Qle in Hq. unfold math_round. cbn in *. apply Z.div_pos; lia.
Qed.

