(* ===== verification/CompactionUi.v ===== *)
(** * CompactionUi

    [src/src/integration/pi/codex-compaction-ui.ts]: the status and the
    notifications of an inline compaction, and the one-line rendering of a
    checkpoint.  The functions of the host's UI may be missing and may throw;
    [ui_log] records the calls made, in order. *)

From Stdlib Require Import Lia QArith Qcanon.
From Stdlib Require Import Lia QArith Qcanon ZifyNat ZifyN.
From S2P Require Import Prelude Compaction Decimal.

(** ** Token counts *)

(** [useGrouping]: a comma before every third digit from the right. *)
Fixpoint group_digits (s : string) : string :=
  match s with
  | EmptyString => EmptyString
  | String c s =>
      String c (if negb (String.eqb s "") && (String.length s mod 3 =? 0)%nat
                then ("," ++ group_digits s)%string else group_digits s)
  end.

(** [toLocaleString("en-US", ...)] of a rounded number that is not negative. *)
Definition toLocaleString (n : Z) : string := group_digits (decimal n).

(** [toExponential(3)] of an integer of at least four digits: four significant
    digits, halves rounded up, and the exponent. *)
Definition toExponential3 (n : Z) : string :=
  let e := (Z.of_nat (String.length (decimal n)) - 1)%Z in
  let p := (10 ^ (e - 3))%Z in
  let m := ((n + p / 2) / p)%Z in
  let '(m, e) := if (m =? 10000)%Z then (1000, e + 1)%Z else (m, e) in
  match decimal m with
  | String c s => (String c ("." ++ s) ++ "e+" ++ decimal e)%string
  | EmptyString => EmptyString
  end.

Definition MAX_FORMATTED_TOKEN_COUNT_LENGTH : nat := 24.

Definition formatTokenCount (value : jsnum) : option string :=
  match value with
  | NFin q =>
      if num_ltb value 0%Z then None else
      let rounded := math_round q in
      let formatted := toLocaleString rounded in
      Some (if (String.length formatted <=? MAX_FORMATTED_TOKEN_COUNT_LENGTH)%nat
            then formatted else toExponential3 rounded)
  | _ => None
  end.

Example format_zero : formatTokenCount 0%Z = Some "0". Proof. reflexivity. Qed.
Example format_grouped : formatTokenCount 1234567%Z = Some "1,234,567". Proof. reflexivity. Qed.
Example format_exact : formatTokenCount 999999999999999999%Z = Some "999,999,999,999,999,999".
Proof. reflexivity. Qed.
Example format_exponent : formatTokenCount 1234500000000000000%Z = Some "1.235e+18". Proof. reflexivity. Qed.
Example format_carry : formatTokenCount 9999900000000000000%Z = Some "1.000e+19". Proof. reflexivity. Qed.
Example format_half : formatTokenCount (NFin (Q2Qc (5 # 2))) = Some "3". Proof. reflexivity. Qed.

(** ** Status and notifications *)

Definition CODEX_REMOTE_COMPACTION_STATUS_KEY : string := "codex-adaptor.remote-compaction".
Definition CODEX_REMOTE_COMPACTION_LABEL : string := "Codex checkpoint".

Inductive CodexInlineCompactionPhase := phase_threshold | phase_recompact.
Definition CODEX_INLINE_COMPACTION_PHASE_LABELS (phase : CodexInlineCompactionPhase) : string :=
  match phase with phase_threshold => "Codex compaction" | phase_recompact => "Codex re-compaction" end.

Inductive CodexInlineCompactionOutcome := inline_error | inline_cancel | inline_indeterminate.
Inductive CodexCompactionCompletionTrigger :=
| provider_inline | trigger_manual | trigger_threshold | trigger_overflow.
#[export] Instance trigger_eq_dec : EqDecision CodexCompactionCompletionTrigger.
Proof. solve_decision. Defined.

Inductive notice_type := notice_info | notice_warning | notice_error.

(** A call of [setStatus], under the key above, or of [notify]. *)
Inductive ui_call :=
| called_setStatus (key : string) (text : option string)
| called_notify (message : string) (type : notice_type).

(** [ctx.ui]: [ui_broken] when reading it throws; a function is missing or
    there, and then throws or not. *)
Inductive ui_function := ui_missing | ui_returns | ui_throws.
Record StatusUI := { ui_broken : bool; ui_setStatus : ui_function; ui_notify : ui_function }.

Abbreviation ui_run := (stateful (list ui_call) unit).

(** [ctx.ui.f?.(...)]. *)
Definition ui_invoke (ui : StatusUI) (f : ui_function) (call : ui_call) : ui_run unit :=
  if ui_broken ui then st_lift (Throw tt) else
  match f with
  | ui_missing => mret tt
  | ui_returns => st_modify (λ log, log ++ [call])
  | ui_throws => st_modify (λ log, log ++ [call]);; st_lift (Throw tt)
  end.

Definition setStatus (ui : StatusUI) (text : option string) : ui_run unit :=
  st_catch (ui_invoke ui (ui_setStatus ui) (called_setStatus CODEX_REMOTE_COMPACTION_STATUS_KEY text))
    (λ _, mret tt).
Definition clearStatus (ui : StatusUI) : ui_run unit := setStatus ui None.
Definition notify (ui : StatusUI) (message : string) (type : notice_type) : ui_run unit :=
  st_catch (ui_invoke ui (ui_notify ui) (called_notify message type)) (λ _, mret tt).

Definition beginInline (ui : StatusUI) (phase : CodexInlineCompactionPhase) : ui_run unit :=
  setStatus ui (Some (CODEX_INLINE_COMPACTION_PHASE_LABELS phase ++ ": creating checkpoint")%string).

Definition clearInline (ui : StatusUI) : ui_run unit := clearStatus ui.

Definition saved_message (tokensBefore : jsnum) : string :=
  match formatTokenCount tokensBefore with
  | None => (CODEX_REMOTE_COMPACTION_LABEL ++ " saved")%string
  | Some count => (CODEX_REMOTE_COMPACTION_LABEL ++ " saved (" ++ count ++ " tokens before compaction)")%string
  end.

Definition completeInline (ui : StatusUI) (tokensBefore : jsnum)
    (trigger : CodexCompactionCompletionTrigger) : ui_run unit :=
  clearStatus ui;;
  if negb (bool_decide (trigger = provider_inline)) then mret tt
  else notify ui (saved_message tokensBefore) notice_info.

Definition failInlineForTrigger (ui : StatusUI) (outcome : CodexInlineCompactionOutcome)
    (trigger : CodexCompactionCompletionTrigger) : ui_run unit :=
  clearStatus ui;;
  if negb (bool_decide (trigger = provider_inline)) then mret tt else
  match outcome with
  | inline_cancel => notify ui "Codex compaction cancelled" notice_warning
  | inline_error => notify ui "Codex checkpoint failed" notice_error
  | inline_indeterminate => notify ui "Codex checkpoint outcome could not be verified" notice_warning
  end.

Definition failInline (ui : StatusUI) (outcome : CodexInlineCompactionOutcome) : ui_run unit :=
  failInlineForTrigger ui outcome provider_inline.

(** ** The entry renderer *)

(** [entry.navigation], when it is a checkpoint with a token count. *)
Definition providerCheckpointNavigation (navigation : jsval) : option jsnum :=
  match navigation with
  | VObj fs =>
      if negb (bool_decide (field fs "role" = VStr "provider_checkpoint")) then None else
      match field fs "tokensBefore" with
      | VNum n => if is_finite n && negb (num_ltb n 0%Z) then Some n else None
      | _ => None
      end
  | _ => None
  end.

(** A custom entry of the session; [entry_data] is never read. *)
Record CustomEntry := { entry_customType : string; entry_navigation : jsval; entry_data : jsval }.

Definition renderRemoteCompactionEntry (fg : string → string → string) (entry : CustomEntry) : option string :=
  if negb (String.eqb (entry_customType entry) CODEX_REMOTE_COMPACTION_KIND) then None else
  tokensBefore ← providerCheckpointNavigation (entry_navigation entry);
  count ← formatTokenCount tokensBefore;
  Some (fg "borderAccent"
          (CODEX_REMOTE_COMPACTION_LABEL ++ " (" ++ count ++ " tokens before compaction)")%string).

(** [registerEntryRenderer]: what the host has registered, [None] when it has
    no such function or it throws. *)
Definition registerEntryRenderer (registrable : ui_function) : option string :=
  match registrable with ui_returns => Some CODEX_REMOTE_COMPACTION_KIND | _ => None end.

(** ** What the listeners call, one after the other *)

Inductive ui_op :=
| op_begin (phase : CodexInlineCompactionPhase)
| op_clear
| op_complete (tokensBefore : jsnum) (trigger : CodexCompactionCompletionTrigger)
| op_fail (outcome : CodexInlineCompactionOutcome) (trigger : CodexCompactionCompletionTrigger).

Definition ui_op_run (ui : StatusUI) (op : ui_op) : ui_run unit :=
  match op with
  | op_begin phase => beginInline ui phase
  | op_clear => clearInline ui
  | op_complete tokensBefore trigger => completeInline ui tokensBefore trigger
  | op_fail outcome trigger => failInlineForTrigger ui outcome trigger
  end.

Fixpoint ui_ops_run (ui : StatusUI) (ops : list ui_op) : ui_run unit :=
  match ops with
  | [] => mret tt
  | op :: ops => ui_op_run ui op;; ui_ops_run ui ops
  end.

(** * Facts of the compaction feedback

    Token counts are written exactly and within their bound; the status and
    the notifications never disturb the code that asks for them. *)

(** ** Grouping *)

Lemma length_group_digits s : String.length (group_digits s) = String.length s + (String.length s - 1) / 3.
Proof.
  induction s as [|c s IH]; [done|]. cbn [group_digits String.length].
  destruct (String.eqb_spec s "") as [->|Hne]; [done|]. cbn [negb andb].
  assert (0 < String.length s) by (destruct s; simpl; [done|lia]).
  destruct (Nat.eqb_spec (String.length s mod 3) 0); rewrite ?length_str_app, IH; simpl String.length;
    rewrite ?Nat.sub_0_r;
    pose proof (Nat.div_mod_eq (String.length s) 3); pose proof (Nat.div_mod_eq (String.length s - 1) 3);
    pose proof (Nat.mod_upper_bound (String.length s) 3); pose proof (Nat.mod_upper_bound (String.length s - 1) 3); lia.
Qed.

Lemma read_group_digits s a : read_digits (group_digits s) a = read_digits s a.
Proof.
  revert a. induction s as [|c s IH]; intros a; [done|]. cbn [group_digits read_digits].
  destruct (_ && _); [|apply IH]. cbn [append read_digits]. by rewrite IH.
Qed.

(** ** The exponent form *)

Lemma significant_digits n (k : nat) : 3 ≤ k →
  (10 ^ Z.of_nat k ≤ n < 10 ^ Z.of_nat (S k))%Z →
  let p := (10 ^ (Z.of_nat k - 3))%Z in
  (1000 ≤ (n + p / 2) / p ≤ 10000)%Z.
Proof.
  intros Hk Hn p. assert (Hp : (0 < p)%Z) by (apply Z.pow_pos_nonneg; lia).
  assert (Hpow : (10 ^ Z.of_nat k = 1000 * p)%Z).
  { subst p. change 1000%Z with (10 ^ 3)%Z. rewrite <-Z.pow_add_r by lia. f_equal. lia. }
  rewrite pow10_S, Hpow in Hn. pose proof (Z.div_pos p 2). pose proof (Z.mul_div_le p 2).
  split; [apply Z.div_le_lower_bound; lia|]. apply Z.lt_succ_r, Z.div_lt_upper_bound; lia.
Qed.

Lemma length_toExponential3 n (k : nat) : 3 ≤ k < 400 →
  (10 ^ Z.of_nat k ≤ n < 10 ^ Z.of_nat (S k))%Z → String.length (toExponential3 n) ≤ 10.
Proof.
  intros Hk Hn. assert (Hl : String.length (decimal n) = S k).
  { pose proof (length_decimal_ge k n ltac:(lia)). pose proof (Z.pow_pos_nonneg 10 (Z.of_nat k)).
    pose proof (length_decimal_le k n ltac:(lia)). lia. }
  unfold toExponential3. rewrite Hl. replace (Z.of_nat (S k) - 1)%Z with (Z.of_nat k) by lia.
  pose proof (significant_digits n k ltac:(lia) Hn) as Hm. cbn zeta in Hm.
  set (m := ((n + 10 ^ (Z.of_nat k - 3) / 2) / 10 ^ (Z.of_nat k - 3))%Z) in *.
  assert (Hlen : ∀ m e, (0 ≤ m < 10 ^ Z.of_nat 4)%Z → (0 ≤ e < 10 ^ Z.of_nat 3)%Z →
    String.length (match decimal m with
      | String c s => (String c ("." ++ s) ++ "e+" ++ decimal e)%string | EmptyString => "" end) ≤ 10).
  { intros m' e Hm' He. pose proof (length_decimal_le 3 m' Hm'). pose proof (length_decimal_le 2 e He).
    destruct (decimal m') as [|c s]; [simpl; lia|].
    rewrite length_str_app. cbn [String.length append] in *. rewrite ?length_str_app. cbn [String.length]. lia. }
  assert (10 ^ Z.of_nat 4 = 10000 ∧ 10 ^ Z.of_nat 3 = 1000)%Z as [E4 E3] by done.
  destruct (Z.eqb_spec m 10000); apply Hlen; rewrite ?E4, ?E3; lia.
Qed.

(** The digits of a positive number determine its decade. *)
Lemma decade n : (0 < n)%Z → ∃ k : nat, (10 ^ Z.of_nat k ≤ n < 10 ^ Z.of_nat (S k))%Z.
Proof.
  intros Hn. assert (Hb : ∃ j : nat, (n < 10 ^ Z.of_nat (S j))%Z).
  { exists (Z.to_nat (Z.log2 n)). apply decimal_fuel. lia. }
  destruct Hb as [j Hj]. induction j as [|j IH].
  - exists 0. split; [simpl; lia|done].
  - destruct (Z.lt_ge_cases n (10 ^ Z.of_nat (S j))) as [Hlt|Hge]; [by apply IH|]. exists (S j). done.
Qed.

(** C5: A token count is written exactly when it is a finite number that is not
    negative.  The number written is the nearest integer, halves rounded up;
    below 10^18 the text is that integer in decimal with its digits grouped,
    which read back give the integer, and no text for a double is longer than
    the 24 units allowed. *)
Theorem token_count_is_exact_and_bounded value :
  match formatTokenCount value with
  | None => is_finite value = false ∨ num_ltb value 0%Z = true
  | Some text => ∃ q, value = NFin q ∧ num_ltb value 0%Z = false ∧
      let n := math_round q in
      (inject_Z n - (1 # 2) <= this q)%Q ∧ (this q < inject_Z n + (1 # 2))%Q ∧
      ((n < 10 ^ 18)%Z → text = toLocaleString n ∧ read_digits text 0 = n) ∧
      ((n < 10 ^ 309)%Z → String.length text ≤ MAX_FORMATTED_TOKEN_COUNT_LENGTH)
  end.
Proof.
  destruct value as [q| | |]; cbn [formatTokenCount]; [|by left..].
  destruct (num_ltb (NFin q) 0%Z) eqn:Hneg; [by right|]. apply math_round_nonneg in Hneg as Hn.
  pose proof (math_round_spec q) as [Hlo Hhi]. exists q. set (n := math_round q) in *. clearbody n.
  assert (Hlen : String.length (toLocaleString n) = String.length (decimal n) + (String.length (decimal n) - 1) / 3)
    by apply length_group_digits.
  split_and!; [done..| |].
  - intros Hlt. assert (String.length (decimal n) ≤ 18) by (apply (length_decimal_le 17); split; [done|exact Hlt]).
    assert (String.length (toLocaleString n) ≤ MAX_FORMATTED_TOKEN_COUNT_LENGTH) as ->%Nat.leb_le.
    { rewrite Hlen. unfold MAX_FORMATTED_TOKEN_COUNT_LENGTH.
      pose proof (Nat.Div0.div_le_mono (String.length (decimal n) - 1) 17 3 ltac:(lia)). change (17 / 3) with 5 in *. lia. }
    split; [done|]. unfold toLocaleString. rewrite read_group_digits. by apply read_decimal.
  - intros Hlt. destruct (Nat.leb_spec (String.length (toLocaleString n)) MAX_FORMATTED_TOKEN_COUNT_LENGTH) as [|Hlong]; [done|].
    destruct (decide (n < 10 ^ Z.of_nat 18)%Z) as [Hs|Hs].
    { pose proof (length_decimal_le 17 n (conj Hn Hs)). rewrite Hlen in Hlong. unfold MAX_FORMATTED_TOKEN_COUNT_LENGTH in Hlong.
      pose proof (Nat.Div0.div_le_mono (String.length (decimal n) - 1) 17 3 ltac:(lia)). change (17 / 3) with 5 in *. lia. }
    destruct (decade n) as [k Hk]; [pose proof (Z.pow_pos_nonneg 10 (Z.of_nat 18)); lia|].
    etrans; [apply (length_toExponential3 n k); [|done]|unfold MAX_FORMATTED_TOKEN_COUNT_LENGTH; lia].
    split.
    + assert (Z.of_nat 18 < Z.of_nat (S k))%Z; [|lia]. apply (Z.pow_lt_mono_r_iff 10); lia.
    + assert (Z.of_nat k < 309)%Z; [|lia]. apply (Z.pow_lt_mono_r_iff 10); lia.
Qed.

(** ** Feedback *)

Definition visible_function (ui : StatusUI) (f : ui_function) : bool :=
  negb (ui_broken ui) && match f with ui_missing => false | _ => true end.

Definition calls_if (b : bool) (l : list ui_call) : list ui_call := if b then l else [].

(** The status and the notices an operation stands for. *)
Definition op_status (op : ui_op) : option string :=
  match op with
  | op_begin phase => Some (CODEX_INLINE_COMPACTION_PHASE_LABELS phase ++ ": creating checkpoint")%string
  | _ => None
  end.
Definition op_notices (op : ui_op) : list (string * notice_type) :=
  match op with
  | op_complete tokensBefore provider_inline => [(saved_message tokensBefore, notice_info)]
  | op_fail inline_cancel provider_inline => [("Codex compaction cancelled", notice_warning)]
  | op_fail inline_error provider_inline => [("Codex checkpoint failed", notice_error)]
  | op_fail inline_indeterminate provider_inline =>
      [("Codex checkpoint outcome could not be verified", notice_warning)]
  | _ => []
  end.

Lemma setStatus_run ui text log : setStatus ui text log =
  (Ret tt, log ++ calls_if (visible_function ui (ui_setStatus ui))
                    [called_setStatus CODEX_REMOTE_COMPACTION_STATUS_KEY text]).
Proof.
  unfold setStatus, st_catch, ui_invoke, visible_function.
  destruct (ui_broken ui), (ui_setStatus ui); cbn; by rewrite ?app_nil_r.
Qed.

Lemma notify_run ui message type log : notify ui message type log =
  (Ret tt, log ++ calls_if (visible_function ui (ui_notify ui)) [called_notify message type]).
Proof.
  unfold notify, st_catch, ui_invoke, visible_function.
  destruct (ui_broken ui), (ui_notify ui); cbn; by rewrite ?app_nil_r.
Qed.

#[local] Arguments notify : simpl never.
#[local] Arguments calls_if : simpl never.

Definition op_calls (ui : StatusUI) (op : ui_op) : list ui_call :=
  calls_if (visible_function ui (ui_setStatus ui))
    [called_setStatus CODEX_REMOTE_COMPACTION_STATUS_KEY (op_status op)] ++
  calls_if (visible_function ui (ui_notify ui)) ((λ n, called_notify n.1 n.2) <$> op_notices op).

Lemma calls_if_nil b : calls_if b [] = []. Proof. by destruct b. Qed.

Lemma if_inline {A} trigger (a b : A) :
  (if negb (bool_decide (trigger = provider_inline)) then a else b) =
  match trigger with provider_inline => b | _ => a end.
Proof. by destruct trigger; case_bool_decide. Qed.

Lemma op_run ui op log : ui_op_run ui op log = (Ret tt, log ++ op_calls ui op).
Proof.
  unfold op_calls. destruct op as [phase| |tokens trigger|outcome trigger]; cbn [ui_op_run op_status op_notices].
  - unfold beginInline. by rewrite setStatus_run, calls_if_nil, app_nil_r.
  - unfold clearInline, clearStatus. by rewrite setStatus_run, calls_if_nil, app_nil_r.
  - unfold completeInline, clearStatus, mbind, st_bind. rewrite setStatus_run, if_inline.
    destruct trigger; rewrite ?calls_if_nil, ?app_nil_r; try done. by rewrite notify_run, <-app_assoc.
  - unfold failInlineForTrigger, clearStatus, mbind, st_bind. rewrite setStatus_run, if_inline.
    destruct trigger, outcome; rewrite ?calls_if_nil, ?app_nil_r; try done; by rewrite notify_run, <-app_assoc.
Qed.

Lemma ops_run ui ops log : ui_ops_run ui ops log = (Ret tt, log ++ (ops ≫= op_calls ui)).
Proof.
  revert log. induction ops as [|op ops IH]; intros log; [by rewrite app_nil_r|].
  cbn [ui_ops_run]. unfold mbind at 1, st_bind. rewrite op_run, IH. by rewrite <-app_assoc.
Qed.

(** What the user sees of a log. *)
Definition shown_status (log : list ui_call) : option string :=
  match last (omap (λ c, match c with called_setStatus _ text => Some text | _ => None end) log) with
  | Some text => text
  | None => None
  end.
Definition shown_notices (log : list ui_call) : list (string * notice_type) :=
  omap (λ c, match c with called_notify message type => Some (message, type) | _ => None end) log.

Lemma notices_no_status l :
  omap (λ c, match c with called_setStatus _ text => Some text | _ => None end)
    ((λ n : string * notice_type, called_notify n.1 n.2) <$> l) = [].
Proof. induction l as [|n l IH]; [done|]. exact IH. Qed.

Lemma op_calls_statuses ui op :
  omap (λ c, match c with called_setStatus _ text => Some text | _ => None end) (op_calls ui op) =
  if visible_function ui (ui_setStatus ui) then [op_status op] else [].
Proof.
  unfold op_calls, calls_if. rewrite omap_app.
  destruct (visible_function ui (ui_setStatus ui)), (visible_function ui (ui_notify ui)); cbn;
    by rewrite ?notices_no_status.
Qed.

Lemma op_calls_notices ui op :
  shown_notices (op_calls ui op) = if visible_function ui (ui_notify ui) then op_notices op else [].
Proof.
  unfold op_calls, shown_notices, calls_if. rewrite omap_app.
  destruct (visible_function ui (ui_setStatus ui)), (visible_function ui (ui_notify ui)); cbn; try done.
  all: induction (op_notices op) as [|[? ?] l IH]; cbn; [done|by rewrite IH].
Qed.

(** C6: The feedback of a compaction never throws, whatever the host's UI
    lacks or throws.  With a working UI the status shown after any sequence of
    operations is that of an inline compaction exactly when the last operation
    began one, and the notices shown are those of the inline operations, one
    each and in order; what Pi itself started - a manual, threshold or
    overflow compaction - clears the status and says nothing. *)
Theorem inline_feedback_contract ui ops :
  let '(r, log) := ui_ops_run ui ops [] in
  r = Ret tt ∧
  shown_status log = (if visible_function ui (ui_setStatus ui) then last ops ≫= op_status else None) ∧
  shown_notices log = (if visible_function ui (ui_notify ui) then ops ≫= op_notices else []) ∧
  Forall (λ c, match c with called_setStatus key _ => key = CODEX_REMOTE_COMPACTION_STATUS_KEY | _ => True end) log.
Proof.
  rewrite ops_run. cbn [app]. split_and!; [done| | |].
  - unfold shown_status. assert (Hs : omap (λ c, match c with called_setStatus _ text => Some text | _ => None end)
        (ops ≫= op_calls ui) = if visible_function ui (ui_setStatus ui) then op_status <$> ops else []).
    { induction ops as [|op ops IH]; [by destruct (visible_function _ _)|].
      rewrite bind_cons, omap_app, op_calls_statuses, IH. by destruct (visible_function _ _). }
    rewrite Hs. destruct (visible_function _ _); [|done]. rewrite fmap_last. by destruct (last ops).
  - induction ops as [|op ops IH]; [by destruct (visible_function _ _)|].
    unfold shown_notices in *. rewrite !bind_cons, omap_app, IH. fold (shown_notices (op_calls ui op)).
    rewrite op_calls_notices. by destruct (visible_function _ _).
  - induction ops as [|op ops IH]; [constructor|]. rewrite bind_cons. apply Forall_app. split; [|exact IH]. unfold op_calls, calls_if.
    apply Forall_app. split; [destruct (visible_function ui (ui_setStatus ui)); repeat constructor|].
    destruct (visible_function ui (ui_notify ui)); [|constructor]. cbn. induction (op_notices op); by constructor.
Qed.
