(* ===== verification/SystemPrompt.v ===== *)
(** * SystemPrompt

    [src/src/integration/pi/codex-system-prompt.ts]: the list of skills added
    to the system prompt, and the [before_agent_start] listener of
    [codex-tools.ts] that adds it. *)

From Stdlib Require Import Lia.
From S2P Require Import Prelude ToolProfile.

(** [s.replace(/c/g, by)]. *)
Fixpoint replace_all (c : ascii) (by_ : string) (s : string) : string :=
  match s with
  | EmptyString => EmptyString
  | String d s => if Ascii.eqb d c then (by_ ++ replace_all c by_ s)%string else String d (replace_all c by_ s)
  end.

Definition QUOTE : ascii := ascii_of_N 34.

Definition escapeXml (value : string) : string :=
  replace_all "'" "&apos;" (replace_all QUOTE "&quot;" (replace_all ">" "&gt;"
    (replace_all "<" "&lt;" (replace_all "&" "&amp;" value)))).

Record Skill := {
  skill_name : string; skill_description : string; skill_filePath : string;
  disableModelInvocation : bool }.

Definition loader_text (l : SkillLoader) : string :=
  match l with loader_exec_command => "exec_command" | loader_shell_command => "shell_command" end.

Definition skill_lines (skill : Skill) : list string :=
  ["  <skill>";
   "    <name>" ++ escapeXml (skill_name skill) ++ "</name>";
   "    <description>" ++ escapeXml (skill_description skill) ++ "</description>";
   "    <location>" ++ escapeXml (skill_filePath skill) ++ "</location>";
   "  </skill>"]%string.

Definition LF : string := String (ascii_of_N 10) "".

Definition prompt_lines (loader : SkillLoader) (visible : list Skill) : list string :=
  [""; "";
   "The following skills provide specialized instructions for specific tasks.";
   "Use " ++ loader_text loader ++ " to load a matching skill file when the task matches its description.";
   "When a skill file references a relative path, resolve it against the skill directory.";
   "";
   "<available_skills>"]%string ++ (visible ≫= skill_lines) ++ ["</available_skills>"].

Definition visible_skills (skills : option (list Skill)) : list Skill :=
  filter (λ s, disableModelInvocation s = false) (default [] skills).

Definition codexSkillsPrompt (skills : option (list Skill)) (loader : option SkillLoader)
    (existingPrompt : string) : string :=
  match loader with
  | None => ""
  | Some loader =>
      if includes "<available_skills>" existingPrompt then "" else
      match visible_skills skills with
      | [] => ""
      | visible => join LF (prompt_lines loader visible)
      end
  end.

(** The listener: the new system prompt, [None] when it stays as it is. *)
Definition before_agent_start (p : CodexToolProfile) (skills : option (list Skill)) (systemPrompt : string)
    : option string :=
  match readiness p with
  | healthy _ =>
      let section := codexSkillsPrompt skills (skillLoader p) systemPrompt in
      if (String.length section =? 0)%nat then None else Some (systemPrompt ++ section)%string
  | _ => None
  end.

(** * Facts of the system prompt

    The list of skills can be read back from the prompt, and is added once. *)

(** ** Escaping in one pass *)

Definition entity (c : ascii) : string :=
  if Ascii.eqb c "&" then "&amp;" else if Ascii.eqb c "<" then "&lt;" else if Ascii.eqb c ">" then "&gt;"
  else if Ascii.eqb c QUOTE then "&quot;" else if Ascii.eqb c "'" then "&apos;" else String c "".

Fixpoint escape_units (s : string) : string :=
  match s with
  | EmptyString => EmptyString
  | String c s => (entity c ++ escape_units s)%string
  end.

Lemma replace_all_app c b s t : replace_all c b (s ++ t)%string = (replace_all c b s ++ replace_all c b t)%string.
Proof.
  induction s as [|d s IH]; [done|]. cbn [append replace_all].
  destruct (Ascii.eqb d c); cbn [append]; rewrite IH; [by rewrite append_assoc|done].
Qed.

Lemma escapeXml_units s : escapeXml s = escape_units s.
Proof.
  unfold escapeXml. induction s as [|c s IH]; [done|]. cbn [escape_units]. rewrite <-IH.
  change (String c s) with (String c "" ++ s)%string. rewrite !replace_all_app. f_equal.
  unfold entity.
  destruct (Ascii.eqb_spec c "&") as [->|H1]; [done|].
  destruct (Ascii.eqb_spec c "<") as [->|H2]; [done|].
  destruct (Ascii.eqb_spec c ">") as [->|H3]; [done|].
  destruct (Ascii.eqb_spec c QUOTE) as [->|H4]; [done|].
  destruct (Ascii.eqb_spec c "'") as [->|H5]; [done|].
  assert (E : ∀ d b, c ≠ d → replace_all d b (String c "") = String c "").
  { intros d b Hne. cbn [replace_all]. by destruct (Ascii.eqb_spec c d). }
  by rewrite !E.
Qed.

(** ** Reading entities back *)

(** [strip p s] is [s] without the prefix [p]. *)
Fixpoint strip (p s : string) : option string :=
  match p, s with
  | EmptyString, _ => Some s
  | String c p, String d s => if Ascii.eqb c d then strip p s else None
  | _, _ => None
  end.

Definition ENTITIES : list (string * ascii) :=
  [("&amp;", "&"%char); ("&lt;", "<"%char); ("&gt;", ">"%char); ("&quot;", QUOTE); ("&apos;", "'"%char)].

(** The first entity the text starts with. *)
Definition read_entity (s : string) : option (ascii * string) :=
  head (omap (λ e, rest ← strip e.1 s; Some (e.2, rest)) ENTITIES).

(** The text up to the next [<], with its entities resolved, and the rest. *)
Fixpoint read_text (fuel : nat) (s : string) : option (string * string) :=
  match fuel, s with
  | S fuel, String c s' =>
      if Ascii.eqb c "<" then Some ("", s)
      else if Ascii.eqb c "&" then
        '(d, rest) ← read_entity s; '(t, rest) ← read_text fuel rest; Some (String d t, rest)
      else '(t, rest) ← read_text fuel s'; Some (String c t, rest)
  | _, _ => None
  end.

Lemma strip_app p s : strip p (p ++ s)%string = Some s.
Proof. induction p as [|c p IH]; [done|]. cbn [append strip]. by rewrite Ascii.eqb_refl. Qed.

Lemma read_text_escape t rest fuel :
  String.length t < fuel →
  read_text fuel (escape_units t ++ String "<" rest)%string = Some (t, String "<" rest).
Proof.
  revert fuel. induction t as [|c t IH]; intros [|fuel] Hf; [simpl in Hf; lia|done|simpl in Hf; lia|].
  simpl in Hf. cbn [escape_units]. rewrite append_assoc. unfold entity.
  destruct (Ascii.eqb_spec c "&") as [->|H1]; [cbn; by rewrite IH by lia|].
  destruct (Ascii.eqb_spec c "<") as [->|H2]; [cbn; by rewrite IH by lia|].
  destruct (Ascii.eqb_spec c ">") as [->|H3]; [cbn; by rewrite IH by lia|].
  destruct (Ascii.eqb_spec c QUOTE) as [->|H4]; [cbn; by rewrite IH by lia|].
  destruct (Ascii.eqb_spec c "'") as [->|H5]; [cbn; by rewrite IH by lia|].
  cbn [append read_text].
  destruct (Ascii.eqb_spec c "<"); [done|]. destruct (Ascii.eqb_spec c "&"); [done|]. by rewrite IH by lia.
Qed.

(** ** Reading the list of skills *)

Definition between (tag : string) : string := ("</" ++ tag ++ ">" ++ LF ++ "    <")%string.

(** One entry: its name, description and location, and what follows it. *)
Definition read_skill (s : string) : option (string * string * string * string) :=
  let text s := read_text (S (String.length s)) s in
  s ← strip ("  <skill>" ++ LF ++ "    <name>") s;
  '(name, s) ← text s; s ← strip ("</name>" ++ LF ++ "    <description>") s;
  '(description, s) ← text s; s ← strip ("</description>" ++ LF ++ "    <location>") s;
  '(location, s) ← text s; s ← strip ("</location>" ++ LF ++ "  </skill>" ++ LF) s;
  Some (name, description, location, s).

(** The entries up to the first text that is none. *)
Fixpoint read_skills (fuel : nat) (s : string) : list (string * string * string) * string :=
  match fuel with
  | O => ([], s)
  | S fuel =>
      match read_skill s with
      | Some (entry, rest) => let '(l, rest) := read_skills fuel rest in (entry :: l, rest)
      | None => ([], s)
      end
  end.

Definition skill_entry (s : Skill) : string * string * string :=
  (skill_name s, skill_description s, skill_filePath s).

Lemma length_escape t : String.length t ≤ String.length (escape_units t).
Proof.
  induction t as [|c t IH]; [done|]. cbn [escape_units]. rewrite length_str_app.
  assert (1 ≤ String.length (entity c)); [|simpl; lia]. unfold entity.
  repeat (match goal with |- context [if ?b then _ else _] => destruct b end; [simpl; lia|]). simpl. lia.
Qed.

Lemma read_text_full t rest :
  let s := (escapeXml t ++ String "<" rest)%string in
  read_text (S (String.length s)) s = Some (t, String "<" rest).
Proof.
  cbn zeta. rewrite escapeXml_units. apply read_text_escape.
  rewrite length_str_app. pose proof (length_escape t). lia.
Qed.

Lemma join_app sep l k : l ≠ [] → k ≠ [] → join sep (l ++ k) = (join sep l ++ sep ++ join sep k)%string.
Proof.
  intros Hl Hk. induction l as [|x l IH]; [done|]. destruct l as [|y l].
  - by destruct k.
  - change (join sep ((x :: y :: l) ++ k)) with (x ++ sep ++ join sep ((y :: l) ++ k))%string.
    rewrite IH by done. change (join sep (x :: y :: l)) with (x ++ sep ++ join sep (y :: l))%string.
    by rewrite !append_assoc.
Qed.

#[local] Arguments read_text : simpl never.
#[local] Arguments escapeXml : simpl never.

Lemma read_skill_lines skill rest :
  read_skill (join LF (skill_lines skill) ++ LF ++ rest)%string =
  Some (skill_name skill, skill_description skill, skill_filePath skill, rest).
Proof.
  assert (E : (join LF (skill_lines skill) ++ LF ++ rest)%string =
    (("  <skill>" ++ LF ++ "    <name>") ++ escapeXml (skill_name skill) ++
     ("</name>" ++ LF ++ "    <description>") ++ escapeXml (skill_description skill) ++
     ("</description>" ++ LF ++ "    <location>") ++ escapeXml (skill_filePath skill) ++
     ("</location>" ++ LF ++ "  </skill>" ++ LF) ++ rest)%string).
  { unfold skill_lines, LF. cbn [join]. by rewrite !append_assoc. }
  rewrite E. unfold read_skill. rewrite strip_app.
  assert (Hstep : ∀ t p rest, (∃ q, p = String "<" q) →
    read_text (S (String.length (escapeXml t ++ p ++ rest)%string)) (escapeXml t ++ p ++ rest)%string =
    Some (t, (p ++ rest)%string)).
  { intros t p r [q ->]. apply (read_text_full t (q ++ r)). }
  cbn [mbind option_bind]. rewrite Hstep by by eexists.
  cbn [mbind option_bind]. rewrite strip_app. cbn [mbind option_bind]. rewrite Hstep by by eexists.
  cbn [mbind option_bind]. rewrite strip_app. cbn [mbind option_bind]. rewrite Hstep by by eexists.
  cbn [mbind option_bind]. rewrite strip_app. done.
Qed.

Lemma length_skill_lines skill : 0 < String.length (join LF (skill_lines skill)).
Proof. unfold skill_lines. cbn. lia. Qed.

Lemma read_skills_lines visible rest fuel :
  length visible < fuel → read_skill rest = None →
  read_skills fuel (join LF ((visible ≫= skill_lines) ++ [rest])) = (skill_entry <$> visible, rest).
Proof.
  intros Hf Hrest. revert fuel Hf. induction visible as [|v visible IH]; intros [|fuel] Hf; simpl in Hf; try lia.
  - change (join LF (([] ≫= skill_lines) ++ [rest])) with rest. cbn [read_skills]. by rewrite Hrest.
  - rewrite bind_cons, <-app_assoc, join_app by (done || (by destruct (visible ≫= skill_lines))).
    cbn [read_skills]. rewrite read_skill_lines, IH by lia. done.
Qed.

(** What is said before the list. *)
Definition introduction (loader : SkillLoader) : string :=
  join LF (take 6 (prompt_lines loader [])).

Lemma prompt_text loader visible :
  join LF (prompt_lines loader visible) =
  (introduction loader ++ LF ++ "<available_skills>" ++ LF ++
   join LF ((visible ≫= skill_lines) ++ ["</available_skills>"]))%string.
Proof.
  assert (prompt_lines loader visible = (take 6 (prompt_lines loader []) ++ ["<available_skills>"]) ++
    (visible ≫= skill_lines) ++ ["</available_skills>"]) as -> by reflexivity.
  rewrite !join_app by (done || (by destruct (visible ≫= skill_lines))).
  unfold introduction. by rewrite !append_assoc.
Qed.

Lemma includes_app_l sub s t : includes sub t = true → includes sub (s ++ t)%string = true.
Proof. intros Ht. induction s as [|c s IH]; [done|]. cbn [append includes]. rewrite IH. apply orb_true_r. Qed.

Lemma includes_prefix sub t : includes sub (sub ++ t)%string = true.
Proof.
  assert (Hp : starts_with sub (sub ++ t)%string = true) by (apply starts_with_iff; by exists t).
  destruct (sub ++ t)%string; cbn [includes]; by rewrite Hp.
Qed.

(** Skills are added to the system prompt exactly when a loader is active,
    some skill may be invoked by the model and the prompt lists none yet.  The
    section added then lists, in order, the name, description and path of
    every such skill: whatever units these contain, reading the section back
    gives exactly them.  A prompt with a section gets no second one. *)
Theorem skills_prompt_lists_the_skills skills loader existing :
  let section := codexSkillsPrompt skills loader existing in
  let visible := filter (λ s, disableModelInvocation s = false) (default [] skills) in
  match loader with
  | Some l =>
      if negb (includes "<available_skills>" existing) && negb (length visible =? 0)%nat then
        ∃ list, section = (introduction l ++ LF ++ "<available_skills>" ++ LF ++ list)%string ∧
          read_skills (S (length visible)) list = (skill_entry <$> visible, "</available_skills>") ∧
          ∀ skills' loader', codexSkillsPrompt skills' loader' (existing ++ section)%string = ""
      else section = ""
  | None => section = ""
  end.
Proof.
  cbn zeta. unfold codexSkillsPrompt, visible_skills. destruct loader as [l|]; [|done].
  destruct (includes _ existing) eqn:Hi; [done|]. set (visible := filter _ (default [] skills)). cbn [negb andb].
  clearbody visible. destruct visible as [|v visible]; [done|]. cbn [length Nat.eqb negb].
  rewrite prompt_text.
  eexists. split; [reflexivity|]. split; [by apply read_skills_lines; [simpl; lia|]|].
  intros skills' [l'|]; [|done]. rewrite includes_app_l; [done|]. apply includes_app_l, includes_app_l, includes_prefix.
Qed.
