(* ===== verification/ToolRenderer.v ===== *)
(** * ToolRenderer

    [src/src/ui/terminal/codex-tool-renderer.ts]: what a managed tool shows
    while it runs and when it has ended.  The text functions of the terminal
    library ([visibleWidth], [truncateToWidth], [wrapTextWithAnsi]), the theme
    and the text of a number are parameters. *)

From Stdlib Require Import Lia QArith Qcanon.
From S2P Require Import Prelude StructuredJson Json Decimal Render.

(** ** Data *)

Inductive CodexToolPresentationKind :=
| kind_command | kind_session_input | kind_patch | kind_view_image | kind_image_generation
| kind_web | kind_plan.

(** The glyphs, one column each: U+2022, U+2502 and U+2514. *)
Definition CODEX_TOOL_MARKER : string := "•".
Definition CODEX_TOOL_GUTTER_CONTINUE : string := "│".
Definition CODEX_TOOL_GUTTER_LAST : string := "└".

Definition COLLAPSED_OUTPUT_LINES : nat := 5.
Definition DEFAULT_SUMMARY_LIMIT : nat := 64.
Definition INPUT_PREVIEW_LIMIT : nat := 48.
Definition WEB_QUERY_LIMIT : nat := 48.
Definition HEADER_PREFIX_COLS : nat := 2.
Definition DETAIL_PREFIX_COLS : nat := 4.

Inductive TerminalState :=
| st_completed | st_failed | st_timed_out | st_aborted | st_running | st_unknown.
#[export] Instance TerminalState_eq_dec : EqDecision TerminalState.
Proof. solve_decision. Defined.

(** [original_token_count] is kept and never shown. *)
Record NativeToolPresentationDetails := {
  d_status : option string;
  d_output : option string;
  d_exit_code : option jsnum;
  d_exitCode : option jsnum;
  d_wall_time_seconds : option jsnum;
  d_session_id : option jsnum;
  d_original_token_count : option jsnum;
  d_added : list string;
  d_modified : list string;
  d_deleted : list string;
  d_detail : option string }.

Definition no_details : NativeToolPresentationDetails :=
  {| d_status := None; d_output := None; d_exit_code := None; d_exitCode := None;
     d_wall_time_seconds := None; d_session_id := None; d_original_token_count := None;
     d_added := []; d_modified := []; d_deleted := []; d_detail := None |}.

Inductive row_kind := row_output | row_muted.
Record DetailRow := { row_text : string; row_style : row_kind }.

(** [h_command]: the action, the summary and the suffix of a command. *)
Record HeaderModel := {
  h_state : TerminalState; h_title : string; h_command : option (string * string * string) }.

Record PresentationModel := { pm_header : option HeaderModel; pm_details : list DetailRow }.

(** What a tool returned, [content] and [details], and the render options. *)
Record ResultLike := { r_content : jsval; r_details : jsval }.
Record ResultOptions := { o_expanded : bool; o_isPartial : bool }.

(** The fields of the context, [undefined] as [None]. *)
Record RenderContextLike := {
  rc_args : jsval; rc_isPartial : option bool; rc_executionStarted : option bool; rc_isError : option bool }.

(** ** Texts *)

Fixpoint collapse_from (s : string) (in_space : bool) : string :=
  match s with
  | EmptyString => EmptyString
  | String c s =>
      if is_js_space c then (if in_space then collapse_from s true else String " " (collapse_from s true))
      else String c (collapse_from s false)
  end.
(** [value.replaceAll(/\s+/g, " ").trim()]. *)
Definition collapseWs (value : string) : string := trim (collapse_from value false).

Definition clipSummary (value : string) (limit : nat) : string :=
  let normalized := collapseWs value in
  if (String.length normalized <=? limit)%nat then normalized
  else (str_take (limit - 3) normalized ++ "...")%string.

Definition CR : ascii := ascii_of_N 13.
Definition LF : ascii := ascii_of_N 10.

(** [\r\n] and [\r] become [\n]. *)
Fixpoint normalize_breaks (s : string) : string :=
  match s with
  | EmptyString => EmptyString
  | String c s' =>
      if Ascii.eqb c CR then
        String LF match s' with
                  | String d s'' => if Ascii.eqb d LF then normalize_breaks s'' else normalize_breaks s'
                  | EmptyString => EmptyString
                  end
      else String c (normalize_breaks s')
  end.

(** [s.split("\n")]. *)
Fixpoint split_lines (s line : string) : list string :=
  match s with
  | EmptyString => [line]
  | String c s => if Ascii.eqb c LF then line :: split_lines s "" else split_lines s (line ++ String c "")
  end.

Definition drop_last_blank (lines : list string) : list string :=
  match last lines with Some "" => removelast lines | _ => lines end.

Definition splitLogicalLines (value : string) : list string :=
  if String.eqb value "" then [] else drop_last_blank (split_lines (normalize_breaks value) "").

Definition collapseLines (lines : list string) (max : nat) : list string * nat :=
  if (length lines <=? max)%nat then (lines, 0) else (take max lines, length lines - max).

Definition hex_digit (n : N) : ascii := ascii_of_N (if (n <? 10)%N then 48 + n else 87 + n).
Definition BACKSLASH : ascii := ascii_of_N 92.

(** One unit of input, as it is displayed. *)
Definition escape_unit (c : ascii) : string :=
  let code := unit_of c in
  if Ascii.eqb c BACKSLASH then String BACKSLASH (String BACKSLASH "")
  else if (code =? 10)%N then String BACKSLASH "n"
  else if (code =? 13)%N then String BACKSLASH "r"
  else if (code =? 9)%N then String BACKSLASH "t"
  else if (code <? 32)%N || (code =? 127)%N then
    String BACKSLASH (String "x" (String (hex_digit (code / 16)) (String (hex_digit (code mod 16)) "")))
  else String c "".

Fixpoint escape_loop (value escaped : string) (limit : nat) : string :=
  match value with
  | EmptyString => escaped
  | String c value =>
      let escaped := (escaped ++ escape_unit c)%string in
      if (limit <=? String.length escaped)%nat then (str_take (limit - 3) escaped ++ "...")%string
      else escape_loop value escaped limit
  end.
Definition escapeForDisplay (value : string) (limit : nat) : string := escape_loop value "" limit.

(** ** Commands *)

Definition DOUBLE_QUOTE : ascii := ascii_of_N 34.

(** After an opening quote: the body of the token, and the rest. *)
Fixpoint take_quoted (quote : ascii) (s : string) : string * string :=
  match s with
  | EmptyString => (EmptyString, EmptyString)
  | String c s' =>
      if Ascii.eqb c quote then (EmptyString, s') else
      match s' with
      | String d s'' =>
          if Ascii.eqb quote DOUBLE_QUOTE && Ascii.eqb c BACKSLASH
          then let '(body, rest) := take_quoted quote s'' in (String d body, rest)
          else let '(body, rest) := take_quoted quote s' in (String c body, rest)
      | EmptyString => (String c EmptyString, EmptyString)
      end
  end.

(** Up to the next white space. *)
Fixpoint take_bare (s : string) : string * string :=
  match s with
  | EmptyString => (EmptyString, EmptyString)
  | String c s' =>
      if is_js_space c then (EmptyString, s)
      else let '(body, rest) := take_bare s' in (String c body, rest)
  end.

(** The fuel is the length of the text: each token takes at least one unit. *)
Fixpoint tokenize (fuel : nat) (s : string) : list string :=
  match fuel, trim_start s with
  | S fuel, String c s' =>
      let '(body, rest) :=
        if Ascii.eqb c "'" || Ascii.eqb c DOUBLE_QUOTE then take_quoted c s' else take_bare (String c s') in
      body :: tokenize fuel rest
  | _, _ => []
  end.
Definition tokenizeShellPresentation (input : string) : list string :=
  let text := trim input in tokenize (String.length text) text.

Definition is_ascii_letter (c : ascii) : bool := in_units 65 90 c || in_units 97 122 c.

(** [s] without the prefix [p]. *)
Fixpoint strip_prefix (p s : string) : option string :=
  match p, s with
  | EmptyString, _ => Some s
  | String c p, String d s => if Ascii.eqb c d then strip_prefix p s else None
  | _, _ => None
  end.
Fixpoint strip_slashes (s : string) : string :=
  match s with
  | String c s' => if Ascii.eqb c "/" then strip_slashes s' else s
  | EmptyString => EmptyString
  end.

(** The path prefix of the pattern: slashes or [./], then [bin/] or
    [usr/bin/], each optional. *)
Definition isShOrBashToken (token : string) : bool :=
  let roots := [token; strip_slashes token] ++ option_list (strip_prefix "./" token) in
  let names := roots ≫= λ r, r :: option_list (strip_prefix "bin/" r) ++ option_list (strip_prefix "usr/bin/" r) in
  existsb (λ name, js_elem name ["sh"; "bash"]) names.

(** [/^-[a-zA-Z]+$/], and the flags among them with a [c]. *)
Definition is_short_flag (token : string) : bool :=
  match token with
  | String c (String _ _ as letters) => Ascii.eqb c "-" && str_forall is_ascii_letter letters
  | _ => false
  end.
Definition isShortFlagTokenWithC (token : string) : bool :=
  is_short_flag token && str_exists (Ascii.eqb "c") token.

(** The tokens after the flag with a [c]; only short flags may precede it. *)
Fixpoint after_c_flag (tokens : list string) : option (list string) :=
  match tokens with
  | [] => None
  | token :: tokens =>
      if String.eqb token "-c" || isShortFlagTokenWithC token then Some tokens
      else if is_short_flag token then after_c_flag tokens else None
  end.

Definition unwrapShellDashC (command : string) : option string :=
  match tokenizeShellPresentation command with
  | shell :: ((_ :: _ :: _) as tokens) =>
      if negb (isShOrBashToken shell) then None else
      match after_c_flag tokens with
      | Some ((_ :: _) as rest) =>
          let payload := trim (join " " rest) in
          if (0 <? String.length payload)%nat then Some payload else None
      | _ => None
      end
  | _ => None
  end.

Fixpoint unwrap_times (depth : nat) (current : string) : string :=
  match depth with
  | O => current
  | S depth =>
      match unwrapShellDashC current with
      | None => current
      | Some unwrapped =>
          let next := collapseWs unwrapped in
          if String.eqb next current then current else unwrap_times depth next
      end
  end.
Definition presentCommandText (command : string) : string := unwrap_times 2 (collapseWs command).

Example unwrap_login : presentCommandText "/bin/bash -lc 'npm  test'" = "npm test". Proof. reflexivity. Qed.
Example unwrap_nested : presentCommandText "sh -c 'bash -e -c ls'" = "ls". Proof. reflexivity. Qed.
Example unwrap_other : presentCommandText "zsh -c 'ls'" = "zsh -c 'ls'". Proof. reflexivity. Qed.

(** ** Arguments *)

(** [record(v)?.k], [undefined] when [v] is no record. *)
Definition prop_of (v : jsval) (k : string) : jsval :=
  match as_record v with Some fs => field fs k | None => VUndef end.

Definition nonempty_string (v : jsval) : option string :=
  match v with VStr s => if String.eqb s "" then None else Some s | _ => None end.
Definition string_of (v : jsval) : option string := match v with VStr s => Some s | _ => None end.
Definition finite_of (v : jsval) : option jsnum :=
  match v with VNum n => if is_finite n then Some n else None | _ => None end.

Definition rawCommandFromArgs (args : jsval) : option string :=
  match nonempty_string (prop_of args "cmd") with
  | Some cmd => Some cmd
  | None => nonempty_string (prop_of args "command")
  end.

Definition commandSummary (args : jsval) (limit : nat) : string :=
  match rawCommandFromArgs args with
  | None => "command"
  | Some raw => clipSummary (presentCommandText raw) limit
  end.

Definition pathSummary (args : jsval) : string :=
  match nonempty_string (prop_of args "path") with
  | Some path => clipSummary path DEFAULT_SUMMARY_LIMIT
  | None => "image"
  end.

(** [firstQuery] is [firstNamed] with the key [q]. *)
Definition firstNamed (value : jsval) (key : string) : option string :=
  match value with
  | VArr items =>
      head (omap (λ entry, match prop_of entry key with
                           | VStr s => if (0 <? String.length (trim s))%nat then Some (trim s) else None
                           | _ => None end) items)
  | _ => None
  end.
Definition firstQuery (value : jsval) : option string := firstNamed value "q".

(** The fields a web call may have, in the order they are tried. *)
Definition web_candidates (args : jsval) : list (option string) :=
  [firstQuery (prop_of args "search_query"); firstQuery (prop_of args "image_query");
   firstNamed (prop_of args "weather") "location"; firstNamed (prop_of args "finance") "ticker";
   firstNamed (prop_of args "find") "pattern"; firstNamed (prop_of args "open") "ref_id"].
Definition webSummary (args : jsval) : option string :=
  (λ s, clipSummary s WEB_QUERY_LIMIT) <$> head (omap id (web_candidates args)).

Definition sessionIdOf (args : jsval) : option jsnum := finite_of (prop_of args "session_id").
Definition charsOf (args : jsval) : option string := string_of (prop_of args "chars").
Definition hasNonEmptyChars (args : jsval) : bool :=
  match charsOf args with Some chars => (0 <? String.length chars)%nat | None => false end.

(** The steps of a plan with their statuses; [None] without any. *)
Definition planItems (value : jsval) : option (list (string * string)) :=
  match prop_of value "plan" with
  | VArr plan =>
      let items := omap (λ entry, match prop_of entry "step" with
        | VStr step => Some (step, default "pending" (string_of (prop_of entry "status")))
        | _ => None end) plan in
      match items with [] => None | _ => Some items end
  | _ => None
  end.

Definition stringArray (value : jsval) : list string :=
  match value with VArr items => omap nonempty_string items | _ => [] end.

Definition presentDetails (value : jsval) : NativeToolPresentationDetails :=
  match as_record value with
  | None => no_details
  | Some root =>
      {| d_status := string_of (field root "status"); d_output := string_of (field root "output");
         d_exit_code := finite_of (field root "exit_code"); d_exitCode := finite_of (field root "exitCode");
         d_wall_time_seconds := finite_of (field root "wall_time_seconds");
         d_session_id := finite_of (field root "session_id");
         d_original_token_count := finite_of (field root "original_token_count");
         d_added := stringArray (field root "added"); d_modified := stringArray (field root "modified");
         d_deleted := stringArray (field root "deleted"); d_detail := string_of (field root "detail") |}
  end.

Definition exitCodeOf (details : NativeToolPresentationDetails) : option jsnum :=
  match d_exit_code details with Some n => Some n | None => d_exitCode details end.

Definition withSummary (action summary : string) : string := (action ++ " " ++ summary)%string.
Definition withOptionalSummary (action : string) (summary : option string) : string :=
  match summary with
  | Some summary => if String.eqb summary "" then action else (action ++ " for " ++ summary)%string
  | None => action
  end.

(** [toFixed(1)] of a number below 10 that is not negative, without [.0]. *)
Definition fixed_one (q : Qc) : string :=
  let tenths := math_round (q * Qc_of_Z 10)%Qc in
  if (tenths mod 10 =? 0)%Z then decimal (tenths / 10)
  else (decimal (tenths / 10) ++ "." ++ decimal (tenths mod 10))%string.

Definition floor_of (q : Qc) : Z := (Qnum (this q) / Zpos (Qden (this q)))%Z.

Definition formatDuration (seconds : option jsnum) : option string :=
  match seconds with
  | Some (NFin q as n) =>
      if num_ltb n 0%Z then None
      else if num_ltb n 10%Z then Some (fixed_one q ++ "s")%string
      else if num_ltb n 60%Z then Some (decimal (math_round q) ++ "s")%string
      else
        let minutes := (floor_of q / 60)%Z in
        let rem := math_round (q - Qc_of_Z (60 * minutes))%Qc in
        Some (if (rem =? 0)%Z then decimal minutes ++ "m"
              else decimal minutes ++ "m " ++ decimal rem ++ "s")%string
  | _ => None
  end.

Example duration_short : formatDuration (Some (NFin (Q2Qc (3 # 2)))) = Some "1.5s". Proof. reflexivity. Qed.
Example duration_whole : formatDuration (Some (num_of_Z 7)) = Some "7s". Proof. reflexivity. Qed.
Example duration_minutes : formatDuration (Some (num_of_Z 125)) = Some "2m 5s". Proof. reflexivity. Qed.

(** The rest is rounded, so just below two minutes is [1m 60s]. *)
Example duration_sixty : formatDuration (Some (NFin (Q2Qc (1197 # 10)))) = Some "1m 60s".
Proof. reflexivity. Qed.

(** ** Outcome *)

Definition is_timed_out (s : string) : bool := js_elem s ["timed_out"; "timeout"].
Definition is_aborted (s : string) : bool := js_elem s ["aborted"; "cancelled"; "canceled"].

(** [content.find] / [content.some] by type: an item that is [null] or
    [undefined] throws when it is reached. *)
Fixpoint find_type (type : string) (items : list jsval) : outcome unit (option jsval) :=
  match items with
  | [] => Ret None
  | item :: items =>
      match item with
      | VUndef | VNull => Throw tt
      | _ => if bool_decide (prop_of item "type" = VStr type) then Ret (Some item) else find_type type items
      end
  end.
Definition find_content (type : string) (result : ResultLike) : outcome unit (option jsval) :=
  match r_content result with VArr items => find_type type items | _ => Throw tt end.

Definition textContent (result : ResultLike) : outcome unit (option string) :=
  content ← find_content "text" result;
  Ret (c ← content; string_of (prop_of c "text")).

Definition nonzero (n : option jsnum) : bool :=
  match n with Some n => negb (num_eqb n 0%Z) | None => false end.

Definition resolveTerminalState (details : NativeToolPresentationDetails) (result : ResultLike)
    (isError : bool) : outcome unit TerminalState :=
  let status := default "" (d_status details) in
  if isError then
    Ret (if is_timed_out status then st_timed_out else if is_aborted status then st_aborted else st_failed)
  else if String.eqb status "running" then Ret st_running
  else if is_timed_out status then Ret st_timed_out
  else if is_aborted status then Ret st_aborted
  else if js_elem status ["failed"; "incomplete"] then Ret st_failed
  else
    let exit := exitCodeOf details in
    if String.eqb status "completed" then Ret (if nonzero exit then st_failed else st_completed)
    else if nonzero exit then Ret st_failed
    else if bool_decide (exit ≠ None) then Ret st_completed
    else
      image ← find_content "image" result;
      Ret (if bool_decide (image ≠ None) then st_completed
           else if bool_decide (planItems (r_details result) ≠ None) then st_completed
           else st_unknown).

Section renderer.
Context `{JsonText} (number_text : jsnum → string).

(** ** Headers *)

(** The action and the suffix of a command in a state. *)
Definition command_words (state : TerminalState) (exit : option jsnum) (duration : option string)
    : string * string :=
  match state with
  | st_running => ("Running", "")
  | st_timed_out => ("Command timed out", "")
  | st_aborted => ("Command aborted", "")
  | st_failed => ("Command failed", match exit with Some n => " (exit " ++ number_text n ++ ")" | None => "" end)
  | st_unknown => ("Command finished", "")
  | st_completed => ("Ran", match duration with Some d => " (" ++ d ++ ")" | None => "" end)
  end%string.

Definition commandHeader (state : TerminalState) (args : jsval) (details : NativeToolPresentationDetails)
    : HeaderModel :=
  let '(action, suffix) := command_words state (exitCodeOf details) (formatDuration (d_wall_time_seconds details)) in
  let reserved := String.length action +
    (if (0 <? String.length suffix)%nat then String.length suffix + 1 else 1) in
  let bodyBudget := 12 `max` (DEFAULT_SUMMARY_LIMIT + 24 - reserved `min` 48) in
  let summary := commandSummary args bodyBudget in
  {| h_state := state; h_title := (action ++ " " ++ summary ++ suffix)%string;
     h_command := Some (action, summary, suffix) |}.

Definition sessionLabel (session : option jsnum) : string :=
  match session with
  | None => "background session"
  | Some n => ("background session " ++ number_text n)%string
  end.

Definition sessionRunningTitle (args : jsval) : string :=
  let label := sessionLabel (sessionIdOf args) in
  if hasNonEmptyChars args then ("Sending input to " ++ label)%string else ("Waiting for " ++ label)%string.

Definition sessionTerminalTitle (args : jsval) (details : NativeToolPresentationDetails) (state : TerminalState)
    : string :=
  let label := sessionLabel (match sessionIdOf args with Some n => Some n | None => d_session_id details end) in
  let pick sent waited := if hasNonEmptyChars args then sent else waited in
  match state with
  | st_timed_out => pick ("Sending input to " ++ label ++ " timed out") ("Waiting for " ++ label ++ " timed out")
  | st_aborted => pick ("Sending input to " ++ label ++ " aborted") ("Waiting for " ++ label ++ " aborted")
  | st_failed => pick ("Sending input to " ++ label ++ " failed") ("Waiting for " ++ label ++ " failed")
  | st_unknown => pick ("Background session input finished for " ++ label)
                       ("Background session wait finished for " ++ label)
  | st_completed | st_running => pick ("Sent input to " ++ label) ("Waited for " ++ label)
  end%string.

Definition genericFailureTitle (base : string) (state : TerminalState) : string :=
  (base ++ match state with st_timed_out => " timed out" | st_aborted => " aborted" | _ => " failed" end)%string.

Definition is_failure (state : TerminalState) : bool :=
  match state with st_failed | st_aborted | st_timed_out => true | _ => false end.

Definition viewImageTerminalTitle (args : jsval) (details : NativeToolPresentationDetails) (state : TerminalState)
    : string :=
  let path := pathSummary args in
  if is_failure state then genericFailureTitle (withSummary "View image" path) state
  else if bool_decide (state = st_unknown) then withSummary "View image finished" path
  else
    let base := withSummary "Viewed" path in
    match d_detail details with
    | Some detail => if String.eqb detail "" then base else (base ++ " (" ++ detail ++ ")")%string
    | None => base
    end.

Definition webTerminalTitle (args : jsval) (state : TerminalState) : string :=
  let summary := webSummary args in
  if is_failure state then genericFailureTitle (withOptionalSummary "Search web" summary) state
  else if bool_decide (state = st_unknown) then withOptionalSummary "Web search finished" summary
  else withOptionalSummary "Searched web" summary.

Definition runningTitle (kind : CodexToolPresentationKind) (args : jsval) : string :=
  match kind with
  | kind_command => h_title (commandHeader st_running args no_details)
  | kind_session_input => sessionRunningTitle args
  | kind_patch => "Applying patch"
  | kind_view_image => withSummary "Viewing" (pathSummary args)
  | kind_image_generation => "Generating image"
  | kind_web => withOptionalSummary "Searching web" (webSummary args)
  | kind_plan => "Updating plan"
  end.

(** The title of a kind that has only three forms. *)
Definition plain_title (state : TerminalState) (completed finished base : string) : string :=
  match state with
  | st_completed => completed
  | st_unknown => finished
  | _ => genericFailureTitle base state
  end.

Definition terminalTitle (kind : CodexToolPresentationKind) (args : jsval)
    (details : NativeToolPresentationDetails) (state : TerminalState) : string :=
  match kind with
  | kind_command => h_title (commandHeader state args details)
  | kind_session_input => sessionTerminalTitle args details state
  | kind_patch => plain_title state "Updated files" "Patch finished" "Patch"
  | kind_view_image => viewImageTerminalTitle args details state
  | kind_image_generation =>
      plain_title state "Generated image" "Image generation finished" "Image generation"
  | kind_web => webTerminalTitle args state
  | kind_plan => plain_title state "Updated plan" "Plan finished" "Plan"
  end.

Definition runningHeader (kind : CodexToolPresentationKind) (args : jsval) : HeaderModel :=
  match kind with
  | kind_command => commandHeader st_running args no_details
  | _ => {| h_state := st_running; h_title := runningTitle kind args; h_command := None |}
  end.

Definition terminalHeader (kind : CodexToolPresentationKind) (args : jsval)
    (details : NativeToolPresentationDetails) (state : TerminalState) : HeaderModel :=
  match kind with
  | kind_command => commandHeader state args details
  | _ => {| h_state := state; h_title := terminalTitle kind args details state; h_command := None |}
  end.

Definition fallback_labels (kind : CodexToolPresentationKind) : string * string * string :=
  match kind with
  | kind_command => ("Running command", "Command finished", "Command failed")
  | kind_session_input =>
      ("Waiting for background session", "Background session finished", "Background session failed")
  | kind_patch => ("Applying patch", "Patch finished", "Patch failed")
  | kind_view_image => ("Viewing image", "View image finished", "View image failed")
  | kind_image_generation => ("Generating image", "Image generation finished", "Image generation failed")
  | kind_web => ("Searching web", "Web search finished", "Web search failed")
  | kind_plan => ("Updating plan", "Plan finished", "Plan failed")
  end.
Definition safeFallbackTitle (kind : CodexToolPresentationKind) (running failed : bool) : string :=
  let '(run, done_, fail) := fallback_labels kind in
  if running then run else if failed then fail else done_.

(** ** Details *)

Definition output_row (text : string) : DetailRow := {| row_text := text; row_style := row_output |}.
Definition muted_row (text : string) : DetailRow := {| row_text := text; row_style := row_muted |}.
Definition NO_OUTPUT : DetailRow := muted_row "(no output)".

Definition omitted_row (omitted : nat) : list DetailRow :=
  if (0 <? omitted)%nat
  then [muted_row ("... " ++ decimal (Z.of_nat omitted) ++ " lines omitted")%string] else [].

(** The rows of some lines, collapsed unless expanded. *)
Definition line_rows (logical : list string) (expanded : bool) : list DetailRow :=
  let '(lines, omitted) := if expanded then (logical, 0) else collapseLines logical COLLAPSED_OUTPUT_LINES in
  (output_row <$> lines) ++ omitted_row omitted.

Definition formatOutputRows (output : string) (expanded : bool) : list DetailRow :=
  match splitLogicalLines output with
  | [] => [NO_OUTPUT]
  | logical => line_rows logical expanded
  end.

Definition looksLikeMetadataOnly (text : string) : bool :=
  let trimmed := trim text in
  match trimmed with
  | String c _ =>
      Ascii.eqb c "{" &&
      match String.get (String.length trimmed - 1) trimmed with Some d => Ascii.eqb d "}" | None => false end &&
      match json_parse trimmed with
      | Some parsed => bool_decide (is_Some (string_of (prop_of parsed "status")))
      | None => false
      end
  | EmptyString => false
  end.

Definition stripTrailingMetadata (text : string) : string :=
  let lines := splitLogicalLines text in
  match last lines with
  | Some l => if looksLikeMetadataOnly l then join (String LF "") (removelast lines) else text
  | None => text
  end.

Definition commandDetailRows (result : ResultLike) (expanded : bool) (details : NativeToolPresentationDetails)
    : outcome unit (list DetailRow) :=
  match d_output details with
  | Some output =>
      Ret (if String.eqb output "" then [NO_OUTPUT] else formatOutputRows output expanded)
  | None =>
      fallback ← textContent result;
      Ret match fallback with
          | Some text =>
              if String.eqb text "" || looksLikeMetadataOnly text then [NO_OUTPUT]
              else formatOutputRows (stripTrailingMetadata text) expanded
          | None => [NO_OUTPUT]
          end
  end.

Definition sessionDetailRows (result : ResultLike) (expanded : bool) (args : jsval)
    (details : NativeToolPresentationDetails) : outcome unit (list DetailRow) :=
  displayOutput ← match d_output details with
    | Some output => Ret output
    | None => text ← textContent result; Ret (stripTrailingMetadata (default "" text))
    end;
  Ret ((if expanded && hasNonEmptyChars args
        then [output_row ("Input: " ++ escapeForDisplay (default "" (charsOf args)) INPUT_PREVIEW_LIMIT)%string]
        else []) ++
       (if (0 <? String.length displayOutput)%nat
        then line_rows (splitLogicalLines displayOutput) expanded else [])).

Definition path_rows (verb : string) (paths : list string) : list DetailRow :=
  (λ path, output_row (verb ++ " " ++ clipSummary path DEFAULT_SUMMARY_LIMIT)%string) <$> paths.
Definition patchRows (details : NativeToolPresentationDetails) : list DetailRow :=
  path_rows "Added" (d_added details) ++ path_rows "Modified" (d_modified details) ++
  path_rows "Deleted" (d_deleted details).

Definition plan_marker (status : string) : string :=
  if String.eqb status "completed" then "[x]" else if String.eqb status "in_progress" then "[>]" else "[ ]".
Definition planRows (args : jsval) (result : ResultLike) : list DetailRow :=
  match match planItems args with Some items => Some items | None => planItems (r_details result) end with
  | Some items =>
      (λ item, output_row (plan_marker item.2 ++ " " ++ clipSummary item.1 DEFAULT_SUMMARY_LIMIT)%string) <$> items
  | None => []
  end.

Definition partialDetailRows (kind : CodexToolPresentationKind) (result : ResultLike) (expanded : bool)
    (args : jsval) : outcome unit (list DetailRow) :=
  match kind with
  | kind_command | kind_session_input =>
      text ← textContent result; Ret (formatOutputRows (default "" text) expanded)
  | kind_plan => Ret (planRows args result)
  | _ => Ret []
  end.

Definition terminalDetailRows (kind : CodexToolPresentationKind) (result : ResultLike) (expanded : bool)
    (args : jsval) (details : NativeToolPresentationDetails) : outcome unit (list DetailRow) :=
  match kind with
  | kind_command => commandDetailRows result expanded details
  | kind_session_input => sessionDetailRows result expanded args details
  | kind_patch => Ret (patchRows details)
  | kind_plan => Ret (planRows args result)
  | kind_view_image | kind_image_generation | kind_web => Ret []
  end.

(** ** The two slots *)

Definition callSlotShouldBeEmpty (context : option RenderContextLike) : bool :=
  match context with
  | None => false
  | Some c => bool_decide (rc_isPartial c = Some false) || bool_decide (rc_executionStarted c = Some true)
  end.

Definition emptyComponent : PresentationModel := {| pm_header := None; pm_details := [] |}.

(** Nothing in the [try] of [renderCall] throws. *)
Definition renderCall (kind : CodexToolPresentationKind) (args : jsval) (context : option RenderContextLike)
    : PresentationModel :=
  if callSlotShouldBeEmpty context then emptyComponent
  else {| pm_header := Some (runningHeader kind args); pm_details := [] |}.

Definition is_error (context : option RenderContextLike) : bool :=
  match context with Some c => bool_decide (rc_isError c = Some true) | None => false end.

Definition render_result (kind : CodexToolPresentationKind) (result : ResultLike) (options : ResultOptions)
    (context : option RenderContextLike) : outcome unit PresentationModel :=
  let args := match context with Some c => rc_args c | None => VUndef end in
  if o_isPartial options then
    rows ← partialDetailRows kind result (o_expanded options) args;
    Ret {| pm_header := Some (runningHeader kind args); pm_details := rows |}
  else
    let details := presentDetails (r_details result) in
    state ← resolveTerminalState details result (is_error context);
    rows ← terminalDetailRows kind result (o_expanded options) args details;
    Ret {| pm_header := Some (terminalHeader kind args details state); pm_details := rows |}.

Definition renderResult (kind : CodexToolPresentationKind) (result : ResultLike) (options : ResultOptions)
    (context : option RenderContextLike) : PresentationModel :=
  match render_result kind result options context with
  | Ret model => model
  | Throw _ =>
      let failed := is_error context in
      {| pm_header := Some {| h_state := if failed then st_failed else st_unknown;
                              h_title := safeFallbackTitle kind false failed; h_command := None |};
         pm_details := [] |}
  end.

(** ** Lines *)

Context (visibleWidth : string → nat) (truncateToWidth : string → nat → string → string)
  (wrapTextWithAnsi : string → nat → list string) (fg : string → string → string) (bold : string → string).

(** [ESC], then brackets, digits and semicolons, then [m]: the pattern's
    bracket opens a class that holds a bracket. *)
Fixpoint after_csi (s : string) : option string :=
  match s with
  | EmptyString => None
  | String c s => if Ascii.eqb c "[" || in_units 48 57 c || Ascii.eqb c ";" then after_csi s
                  else if Ascii.eqb c "m" then Some s else None
  end.
(** The fuel is the length of the text: each step takes at least one unit. *)
Fixpoint strip_csi (fuel : nat) (s : string) : string :=
  match fuel, s with
  | S fuel, String c s' =>
      match if Ascii.eqb c ESC then after_csi s' else None with
      | Some rest => strip_csi fuel rest
      | None => String c (strip_csi fuel s')
      end
  | _, _ => EmptyString
  end.
Definition stripAnsi (value : string) : string := strip_csi (String.length value) value.

Definition is_printable_ascii (c : ascii) : bool := in_units 32 126 c.

Definition truncatePlain (text : string) (maxCols : nat) : string :=
  if (maxCols =? 0)%nat then "" else
  if (visibleWidth text <=? maxCols)%nat then text
  else if (maxCols <=? 3)%nat then str_take maxCols "..."
  else if str_forall is_printable_ascii text then (str_take (maxCols - 3) text ++ "...")%string
  else stripAnsi (truncateToWidth text maxCols "...").

Definition formatHeaderTitle (header : HeaderModel) (titleBudget : nat) : string :=
  match h_command header with
  | None => truncatePlain (h_title header) titleBudget
  | Some (action, summary, suffix) =>
      let prefix := (action ++ " ")%string in
      let fixed := visibleWidth prefix + visibleWidth suffix in
      if (titleBudget <=? fixed)%nat then truncatePlain (action ++ suffix)%string titleBudget
      else (prefix ++ truncatePlain summary (1 `max` (titleBudget - fixed)) ++ suffix)%string
  end.

Definition markerThemeColor (state : TerminalState) : string :=
  match state with
  | st_running => "warning"
  | st_completed => "success"
  | st_failed | st_timed_out | st_aborted => "error"
  | st_unknown => "dim"
  end.

Definition header_line (header : HeaderModel) (safeWidth : nat) : string :=
  let title := formatHeaderTitle header (1 `max` (safeWidth - HEADER_PREFIX_COLS)) in
  (fg (markerThemeColor (h_state header)) CODEX_TOOL_MARKER ++ " " ++ fg "toolTitle" (bold title))%string.

Definition detail_lines (row : DetailRow) (isLast : bool) (safeWidth : nat) : list string :=
  let gutter := fg "dim" (if isLast then CODEX_TOOL_GUTTER_LAST else CODEX_TOOL_GUTTER_CONTINUE) in
  let styled := fg (match row_style row with row_muted => "muted" | row_output => "toolOutput" end) (row_text row) in
  match wrapTextWithAnsi styled (1 `max` (safeWidth - DETAIL_PREFIX_COLS)) with
  | [] => ["  " ++ gutter ++ " "]
  | first :: rest => ("  " ++ gutter ++ " " ++ first) :: ((λ segment, "    " ++ segment) <$> rest)
  end%string.

Fixpoint details_lines (rows : list DetailRow) (safeWidth : nat) : list string :=
  match rows with
  | [] => []
  | row :: rows =>
      detail_lines row (match rows with [] => true | _ => false end) safeWidth ++ details_lines rows safeWidth
  end.

(** [render(width)], for an integral width. *)
Definition render (model : PresentationModel) (width : Z) : list string :=
  let safeWidth := Z.to_nat (Z.max 1 width) in
  match pm_header model with Some header => [header_line header safeWidth] | None => [] end ++
  details_lines (pm_details model) safeWidth.

End renderer.
