(* ===== verification/ToolRendererFacts.v ===== *)
(** * ToolRendererFacts

    What the renderer of managed tools promises: no false success, no lost
    output, bounded summaries and lines that fit. *)

From Stdlib Require Import Lia QArith Qcanon.
From S2P Require Import Prelude StructuredJson Json Decimal Render ToolRenderer.

(** ** Outcome *)

(** What may count as a success. *)
Definition success_evidence (details : NativeToolPresentationDetails) (result : ResultLike) : Prop :=
  d_status details = Some "completed" ∨ exitCodeOf details ≠ None ∨
  (∃ image, find_content "image" result = Ret (Some image)) ∨ is_Some (planItems (r_details result)).

Lemma nonzero_false n : nonzero n = false ↔ n = None ∨ n = Some (num_of_Z 0).
Proof.
  unfold nonzero. destruct n as [n|]; [|naive_solver]. rewrite negb_false_iff, num_eqb_spec_Z. naive_solver.
Qed.

Definition STOPPED : list string :=
  ["running"; "timed_out"; "timeout"; "aborted"; "cancelled"; "canceled"; "failed"; "incomplete"].

Lemma completed_is_earned details result isError :
  resolveTerminalState details result isError = Ret st_completed →
  isError = false ∧ (exitCodeOf details = None ∨ exitCodeOf details = Some (num_of_Z 0)) ∧
  (default "" (d_status details) ∉ STOPPED) ∧ success_evidence details result.
Proof.
  unfold resolveTerminalState. destruct isError.
  { destruct (is_timed_out _); [done|]. by destruct (is_aborted _). }
  set (status := default "" (d_status details)). unfold is_timed_out, is_aborted.
  destruct (String.eqb_spec status "running") as [|H1]; [done|].
  destruct (js_elem status ["timed_out"; "timeout"]) eqn:H2; [done|].
  destruct (js_elem status ["aborted"; "cancelled"; "canceled"]) eqn:H3; [done|].
  destruct (js_elem status ["failed"; "incomplete"]) eqn:H4; [done|].
  assert (Hs : status ∉ STOPPED).
  { apply js_elem_false in H2, H3, H4. unfold STOPPED.
    rewrite !not_elem_of_cons in *. repeat split; try tauto. }
  intros Hc. split_and!; [done| |done|].
  - apply nonzero_false. destruct (nonzero _) eqn:Hn; [|done].
    by destruct (String.eqb status "completed").
  - destruct (String.eqb_spec status "completed") as [He|].
    + left. subst status. by destruct (d_status details); [f_equal|].
    + destruct (nonzero _); [done|]. right. case_bool_decide; [by left|]. right.
      apply bind_ret_iff in Hc as (image & Hi & Hc). case_bool_decide as Hd.
      * left. destruct image as [image|]; [by exists image|done].
      * right. case_bool_decide as Hp; [|done]. by apply not_eq_None_Some.
Qed.

Lemma error_is_failure details result :
  ∃ state, resolveTerminalState details result true = Ret state ∧ is_failure state = true.
Proof. unfold resolveTerminalState. destruct (is_timed_out _); [by eexists|]. destruct (is_aborted _); by eexists. Qed.

Section renderer.
Context `{JsonText} (number_text : jsnum → string).

Lemma header_state kind args details state :
  h_state (terminalHeader number_text kind args details state) = state.
Proof.
  destruct kind; try done. unfold terminalHeader, commandHeader. by destruct (command_words _ _ _ _).
Qed.

Lemma running_state kind args : h_state (runningHeader number_text kind args) = st_running.
Proof. by destruct kind. Qed.

(** ** The two slots *)

(** The host says that the execution has started, or that the result is final. *)
Definition started (context : option RenderContextLike) : Prop :=
  ∃ c, context = Some c ∧ (rc_isPartial c = Some false ∨ rc_executionStarted c = Some true).

Definition host_error (context : option RenderContextLike) : Prop :=
  ∃ c, context = Some c ∧ rc_isError c = Some true.

Lemma is_error_iff context : is_error context = true ↔ host_error context.
Proof.
  unfold is_error, host_error. destruct context as [c|]; [rewrite bool_decide_eq_true|]; naive_solver.
Qed.

Lemma callSlot_iff context : callSlotShouldBeEmpty context = true ↔ started context.
Proof.
  unfold callSlotShouldBeEmpty, started. destruct context as [c|]; [|by split; [|intros (? & [=] & _)]].
  rewrite orb_true_iff, !bool_decide_eq_true. naive_solver.
Qed.

(** The words of a failing state. *)
Definition failure_words (state : TerminalState) : option string :=
  match state with
  | st_failed => Some " failed"
  | st_timed_out => Some " timed out"
  | st_aborted => Some " aborted"
  | _ => None
  end.

(** The marker is in the colour of errors, and the title, or the part of a
    command's title that is not clipped first, has the words. *)
Definition looks_failed (header : HeaderModel) : Prop :=
  markerThemeColor (h_state header) = "error" ∧
  ∃ words before after, failure_words (h_state header) = Some words ∧
    match h_command header with
    | Some (action, _, _) => action
    | None => h_title header
    end = (before ++ words ++ after)%string.

Lemma failure_looks_failed kind args details state :
  is_failure state = true → looks_failed (terminalHeader number_text kind args details state).
Proof.
  intros Hf. split; [rewrite header_state; by destruct state|]. rewrite header_state.
  assert (∀ base, ∃ words before after, failure_words state = Some words ∧
    genericFailureTitle base state = (before ++ words ++ after)%string) as Hgen.
  { intros base. destruct state; try done; (eexists _, base, ""; split; [done|]); by rewrite append_nil_r. }
  destruct kind; cbn [terminalHeader h_command h_title terminalTitle].
  - destruct state; try done; (eexists _, "Command", ""; split; reflexivity).
  - unfold sessionTerminalTitle. set (label := sessionLabel _ _). destruct (hasNonEmptyChars args), state; try done;
      cbn [failure_words]; eexists _, (_ ++ label)%string, ""; (split; [reflexivity|]);
      rewrite append_nil_r, append_assoc; reflexivity.
  - destruct state; try done; apply Hgen.
  - unfold viewImageTerminalTitle. rewrite Hf. apply Hgen.
  - destruct state; try done; apply Hgen.
  - unfold webTerminalTitle. rewrite Hf. apply Hgen.
  - destruct state; try done; apply Hgen.
Qed.

Lemma fallback_looks_failed kind :
  looks_failed {| h_state := st_failed; h_title := safeFallbackTitle kind false true; h_command := None |}.
Proof.
  split; [done|]. exists " failed". destruct kind;
    [exists "Command"|exists "Background session"|exists "Patch"|exists "View image"|exists "Image generation"
    |exists "Web search"|exists "Plan"]; by exists "".
Qed.

(** C36: The call slot of a tool shows nothing once the host says that the
    execution has started or the result is final, and the header of a running tool
    before; the result slot always has a header, whatever malformed value the tool
    returned, so that a row never shows two when the host shows a result of a
    started tool only.  A partial result that is well formed looks like a running
    tool; a final result looks
    completed, marked as a success, only when the host reports no error, the native
    status is none
    of the stopped ones, no exit code differs from 0 and something speaks for
    success; and with a final result an error reported by the host is marked as an
    error, under a title that says that the tool failed, timed out or was aborted. *)
Theorem tool_outcome_is_honest kind result options context :
  let model := renderResult number_text kind result options context in
  let details := presentDetails (r_details result) in
  (∀ args ctx, started ctx → renderCall number_text kind args ctx = {| pm_header := None; pm_details := [] |}) ∧
  (∀ args ctx, ¬ started ctx →
     ∃ header, renderCall number_text kind args ctx = {| pm_header := Some header; pm_details := [] |} ∧
               markerThemeColor (h_state header) = "warning") ∧
  ∃ header, pm_header model = Some header ∧
    (o_isPartial options = true →
       h_state header = st_running ∨ render_result number_text kind result options context = Throw tt) ∧
    (o_isPartial options = false → host_error context → looks_failed header) ∧
    (markerThemeColor (h_state header) = "success" →
       o_isPartial options = false ∧ ¬ host_error context ∧
       (exitCodeOf details = None ∨ exitCodeOf details = Some (num_of_Z 0)) ∧
       (default "" (d_status details) ∉ STOPPED) ∧ success_evidence details result).
Proof.
  intros model details. split; [|split].
  - intros args ctx Hs%callSlot_iff. unfold renderCall. by rewrite Hs.
  - intros args ctx Hs. unfold renderCall. destruct (callSlotShouldBeEmpty ctx) eqn:He; [by apply callSlot_iff in He|].
    eexists. split; [reflexivity|]. by rewrite running_state.
  - setoid_rewrite <- is_error_iff. subst model. unfold renderResult.
    destruct (render_result number_text kind result options context) as [model|[]] eqn:Hr.
    + unfold render_result in Hr. destruct (o_isPartial options) eqn:Hp.
      * apply bind_ret_iff in Hr as (rows & _ & [= <-]). eexists. split; [reflexivity|].
        rewrite running_state. split_and!; try done. intros _. by left.
      * apply bind_ret_iff in Hr as (state & Hs & Hr). apply bind_ret_iff in Hr as (rows & _ & [= <-]).
        eexists. split; [reflexivity|]. rewrite header_state. split_and!; [done| |].
        -- intros _ He. rewrite He in Hs. destruct (error_is_failure details result) as (state' & Hs' & Hf).
           apply failure_looks_failed. subst details. congruence.
        -- intros Hc. assert (state = st_completed) as -> by (by destruct state). apply completed_is_earned in Hs.
           destruct Hs as [-> ?]. by split_and!; try tauto.
    + eexists. split; [reflexivity|]. cbn.
      destruct (is_error context); cbn; split_and!; try done; try (by right). intros _ _. apply fallback_looks_failed.
Qed.
End renderer.

(** ** Output *)

Lemma join_cons sep x l : l ≠ [] → join sep (x :: l) = (x ++ sep ++ join sep l)%string.
Proof. by destruct l. Qed.

Lemma split_lines_nonempty s line : split_lines s line ≠ [].
Proof. revert line. induction s as [|c s IH]; intros line; [done|]. cbn [split_lines].
  destruct (Ascii.eqb c LF); [intros [=]|apply IH].
Qed.

Lemma split_lines_join s line : join (String LF "") (split_lines s line) = (line ++ s)%string.
Proof.
  revert line. induction s as [|c s IH]; intros line; cbn [split_lines].
  { cbn. by rewrite append_nil_r. }
  destruct (Ascii.eqb_spec c LF) as [->|].
  - rewrite join_cons by apply split_lines_nonempty. by rewrite IH.
  - rewrite IH. by rewrite append_assoc.
Qed.

(** The texts between breaks have none. *)
Lemma split_lines_unbroken s line :
  str_exists (Ascii.eqb CR) s = false → str_exists is_line_break line = false →
  Forall (λ l, str_exists is_line_break l = false) (split_lines s line).
Proof.
  revert line. induction s as [|c s IH]; intros line Hs Hl; cbn [split_lines]; [by constructor|].
  cbn [str_exists] in Hs. apply orb_false_iff in Hs as [Hc Hs].
  destruct (Ascii.eqb_spec c LF) as [->|Hne]; [by constructor; [|apply IH]|].
  apply IH; [done|]. rewrite str_exists_app, Hl. cbn. rewrite orb_false_r. unfold is_line_break.
  apply orb_false_iff. split; apply N.eqb_neq; intros Hu.
  - destruct Hne. unfold unit_of in Hu. rewrite <-(ascii_N_embedding c), Hu. done.
  - apply Ascii.eqb_neq in Hc. destruct Hc. unfold unit_of in Hu. unfold CR. by rewrite <-Hu, ascii_N_embedding.
Qed.

Lemma normalize_no_cr s : str_exists (Ascii.eqb CR) (normalize_breaks s) = false.
Proof.
  assert (Hn : ∀ n s, String.length s ≤ n → str_exists (Ascii.eqb CR) (normalize_breaks s) = false); [|by eapply Hn].
  clear s. intros n. induction n as [|n IH]; intros [|c s] Hl; [done|simpl in Hl; lia|done|].
  simpl in Hl. cbn [normalize_breaks]. destruct (Ascii.eqb_spec c CR) as [->|Hc].
  - cbn [str_exists]. change (Ascii.eqb CR LF) with false. cbn [orb].
    destruct s as [|d s]; [done|]. simpl in Hl. destruct (Ascii.eqb d LF); apply IH; simpl; lia.
  - cbn [str_exists]. rewrite IH by lia. by apply not_eq_sym, Ascii.eqb_neq in Hc as ->.
Qed.

Lemma normalize_nonempty s : s ≠ "" → normalize_breaks s ≠ "".
Proof. destruct s as [|c s]; [done|]. intros _. cbn [normalize_breaks]. destruct (Ascii.eqb c CR); intros [=]. Qed.

Lemma drop_last_blank_join lines :
  lines ≠ [] → lines ≠ [""] →
  drop_last_blank lines ≠ [] ∧
  (join (String LF "") lines = join (String LF "") (drop_last_blank lines) ∨
   join (String LF "") lines = (join (String LF "") (drop_last_blank lines) ++ String LF "")%string).
Proof.
  intros Hne Hb. unfold drop_last_blank. destruct (last lines) as [[|c l]|] eqn:Hl; [|by auto..].
  apply last_Some in Hl as [k ->]. rewrite removelast_last. destruct k as [|x k]; [done|]. split; [done|]. right.
  clear Hne Hb. revert x. induction k as [|y k IH]; intros x; [done|].
  change (join (String LF "") ((x :: y :: k) ++ [""])) with (x ++ String LF "" ++ join (String LF "") ((y :: k) ++ [""]))%string.
  rewrite IH. change (join (String LF "") (x :: y :: k)) with (x ++ String LF "" ++ join (String LF "") (y :: k))%string.
  by rewrite !append_assoc.
Qed.

Lemma sublist_drop_last_blank lines : drop_last_blank lines ⊆ lines.
Proof.
  unfold drop_last_blank. destruct (last lines) as [[|c l]|] eqn:Hl; [|done..].
  apply last_Some in Hl as [k ->]. rewrite removelast_last. intros x Hx. apply elem_of_app. by left.
Qed.

Lemma line_rows_spec lines (expanded : bool) :
  let shown := if expanded then length lines else COLLAPSED_OUTPUT_LINES `min` length lines in
  line_rows lines expanded = (output_row <$> take shown lines) ++
    if (shown =? length lines)%nat then []
    else [muted_row ("... " ++ decimal (Z.of_nat (length lines - shown)) ++ " lines omitted")%string].
Proof.
  cbn zeta. unfold line_rows, collapseLines. destruct expanded; cbv beta iota.
  { by rewrite Nat.eqb_refl, firstn_all. }
  destruct (Nat.leb_spec (length lines) COLLAPSED_OUTPUT_LINES) as [Hs|Hs].
  - by rewrite Nat.min_r, Nat.eqb_refl, firstn_all by done.
  - rewrite Nat.min_l by lia. destruct (Nat.eqb_spec COLLAPSED_OUTPUT_LINES (length lines)); [lia|].
    unfold omitted_row. destruct (Nat.ltb_spec 0 (length lines - COLLAPSED_OUTPUT_LINES)); [done|lia].
Qed.

(** C9: No output is lost silently.  The logical lines of an output contain no
    line break and joined again give the output, its breaks normalized, but
    for one final break; the rows show all of them when expanded, and else the
    first five and the exact number of those left out. *)
Theorem output_rows_account_for_output output (expanded : bool) :
  let lines := splitLogicalLines output in
  let shown := if expanded then length lines else COLLAPSED_OUTPUT_LINES `min` length lines in
  Forall (λ l, str_exists is_line_break l = false) lines ∧
  (if String.eqb output "" then lines = [] else
   lines ≠ [] ∧
   (normalize_breaks output = join (String LF "") lines ∨
    normalize_breaks output = (join (String LF "") lines ++ String LF "")%string)) ∧
  formatOutputRows output expanded =
    if (length lines =? 0)%nat then [NO_OUTPUT] else
    (output_row <$> take shown lines) ++
    if (shown =? length lines)%nat then []
    else [muted_row ("... " ++ decimal (Z.of_nat (length lines - shown)) ++ " lines omitted")%string].
Proof.
  intros lines shown. split_and!.
  - unfold lines, splitLogicalLines. destruct (String.eqb output ""); [constructor|].
    apply Forall_forall. intros l Hl%sublist_drop_last_blank. revert l Hl. apply Forall_forall.
    by apply split_lines_unbroken; [apply normalize_no_cr|].
  - unfold lines, splitLogicalLines. destruct (String.eqb_spec output "") as [|Hne]; [done|].
    pose proof (split_lines_join (normalize_breaks output) "") as Hj. cbn [append] in Hj.
    destruct (drop_last_blank_join (split_lines (normalize_breaks output) "")) as [Hd He];
      [apply split_lines_nonempty| |by rewrite Hj in He].
    intros He. rewrite He in Hj. by apply (normalize_nonempty output).
  - unfold formatOutputRows, shown. fold lines. generalize lines. intros [|l ls]; [done|]. apply line_rows_spec.
Qed.

(** ** Summaries *)

(** White space only as the space itself. *)
Definition single_line (s : string) : bool := str_forall (λ c, negb (is_js_space c) || Ascii.eqb c " ") s.

Lemma str_forall_app f s t : str_forall f (s ++ t)%string = str_forall f s && str_forall f t.
Proof. unfold str_forall. by rewrite str_exists_app, negb_orb. Qed.

Lemma trim_start_forall f s : str_forall f s = true → str_forall f (trim_start s) = true.
Proof.
  induction s as [|c s IH]; [done|]. intros Hs. cbn [trim_start].
  destruct (is_js_space c); [|done]. rewrite str_forall_cons in Hs. apply andb_true_iff in Hs as [_ Hs]. auto.
Qed.

Lemma trim_end_forall f s : str_forall f s = true → str_forall f (trim_end s) = true.
Proof.
  induction s as [|c s IH]; [done|]. rewrite str_forall_cons. intros [Hc Hs]%andb_true_iff.
  specialize (IH Hs). cbn [trim_end]. destruct (trim_end s) as [|d t].
  - destruct (is_js_space c); [done|]. by rewrite str_forall_cons, Hc.
  - by rewrite str_forall_cons, Hc.
Qed.

Lemma str_take_forall f n s : str_forall f s = true → str_forall f (str_take n s) = true.
Proof.
  revert n. induction s as [|c s IH]; intros [|n] Hs; try done. cbn [str_take]. rewrite str_forall_cons in *.
  apply andb_true_iff in Hs as [-> Hs]. cbn. auto.
Qed.

Lemma collapse_single_line s b : single_line (collapse_from s b) = true.
Proof.
  unfold single_line. revert b. induction s as [|c s IH]; intros b; [done|]. cbn [collapse_from].
  destruct (is_js_space c) eqn:Hc; [destruct b; [done|]|]; rewrite str_forall_cons, ?Hc; apply IH.
Qed.

Lemma collapseWs_single_line s : single_line (collapseWs s) = true.
Proof. apply trim_end_forall, trim_start_forall, collapse_single_line. Qed.

Lemma clipSummary_bound v limit : 3 ≤ limit → String.length (clipSummary v limit) ≤ limit.
Proof.
  intros Hl. unfold clipSummary. destruct (Nat.leb_spec (String.length (collapseWs v)) limit); [done|].
  rewrite length_str_app, length_str_take. simpl. lia.
Qed.

Lemma clipSummary_single_line v limit : single_line (clipSummary v limit) = true.
Proof.
  unfold clipSummary. destruct (_ <=? _)%nat; [apply collapseWs_single_line|]. unfold single_line.
  rewrite str_forall_app. rewrite str_take_forall by apply collapseWs_single_line. done.
Qed.

(** The units a terminal would act on. *)
Definition is_control (c : ascii) : bool := ((unit_of c <? 32) || (unit_of c =? 127))%N.
Definition displayable (s : string) : bool := str_forall (λ c, negb (is_control c)) s.

Lemma hex_digit_displayable n : (n < 16)%N → is_control (hex_digit n) = false.
Proof.
  intros Hn. unfold is_control, hex_digit, unit_of. destruct (N.ltb_spec n 10); rewrite N_ascii_embedding by lia.
  - destruct (N.ltb_spec (48 + n) 32), (N.eqb_spec (48 + n) 127); done || lia.
  - destruct (N.ltb_spec (87 + n) 32), (N.eqb_spec (87 + n) 127); done || lia.
Qed.

Lemma escape_unit_displayable c : displayable (escape_unit c) = true.
Proof.
  unfold escape_unit. destruct (Ascii.eqb_spec c BACKSLASH) as [->|]; [done|].
  destruct (unit_of c =? 10)%N; [done|]. destruct (unit_of c =? 13)%N; [done|]. destruct (unit_of c =? 9)%N; [done|].
  destruct ((unit_of c <? 32) || (unit_of c =? 127))%N eqn:Hc.
  - assert (Hu : (unit_of c < 256)%N) by apply N_ascii_bounded. unfold displayable.
    rewrite !str_forall_cons, !hex_digit_displayable; [done| |].
    + apply N.mod_lt. done.
    + apply N.Div0.div_lt_upper_bound. lia.
  - unfold displayable. rewrite str_forall_cons. unfold is_control. by rewrite Hc.
Qed.

Lemma escape_loop_facts value escaped limit : 3 ≤ limit → String.length escaped < limit → displayable escaped = true →
  String.length (escape_loop value escaped limit) ≤ limit ∧ displayable (escape_loop value escaped limit) = true.
Proof.
  intros Hl. revert escaped. induction value as [|c value IH]; intros escaped He Hd; cbn [escape_loop]; [split; [lia|done]|].
  assert (Hd' : displayable (escaped ++ escape_unit c)%string = true).
  { unfold displayable in *. rewrite str_forall_app, Hd. apply escape_unit_displayable. }
  destruct (Nat.leb_spec limit (String.length (escaped ++ escape_unit c)%string)) as [Hx|Hx]; [|by apply IH].
  split; [rewrite length_str_app, length_str_take; simpl; lia|].
  unfold displayable in *. rewrite str_forall_app, str_take_forall by done. done.
Qed.

Lemma tokenize_fuel fuel s : String.length s ≤ fuel → tokenize fuel s = tokenize (String.length s) s.
Proof.
  assert (Hq : ∀ q n s, String.length s ≤ n → String.length (take_quoted q s).2 ≤ String.length s).
  { intros q n. induction n as [|n IH]; intros [|c t] Hl; [done|simpl in Hl; lia|done|]. simpl in Hl.
    cbn [take_quoted]. destruct (Ascii.eqb c q); [simpl; lia|]. destruct t as [|d t]; [simpl; lia|].
    destruct (_ && _).
    - specialize (IH t ltac:(simpl in Hl; lia)). destruct (take_quoted q t). simpl in *. lia.
    - specialize (IH (String d t) ltac:(lia)). destruct (take_quoted q (String d t)). simpl in *. lia. }
  assert (Hb : ∀ s, String.length (take_bare s).2 ≤ String.length s).
  { intros t. induction t as [|c t IH]; [done|]. cbn [take_bare]. destruct (is_js_space c); [done|].
    destruct (take_bare t). simpl in *. lia. }
  assert (Ht : ∀ s, String.length (trim_start s) ≤ String.length s).
  { intros t. induction t as [|c t IH]; [done|]. cbn [trim_start]. destruct (is_js_space c); simpl in *; lia. }
  assert (Hnb : ∀ c s, trim_start s = String c (str_drop 1 (trim_start s)) → is_js_space c = false).
  { intros c t. induction t as [|d t IH]; [done|]. cbn [trim_start]. destruct (is_js_space d) eqn:Hd; [done|].
    intros [= <-]. done. }
  assert (Hen : ∀ n fuel fuel' s, String.length s ≤ n → n ≤ fuel → n ≤ fuel' → tokenize fuel s = tokenize fuel' s);
    [|intros; eapply Hen; [reflexivity|lia..]].
  clear fuel s. intros n. induction n as [|n IH]; intros fuel fuel' s Hs Hf Hf'.
  { destruct s; [|simpl in Hs; lia]. by destruct fuel, fuel'. }
  destruct fuel as [|fuel]; [lia|]. destruct fuel' as [|fuel']; [lia|]. cbn [tokenize].
  specialize (Ht s). destruct (trim_start s) as [|c t] eqn:Htr; [done|]. simpl in Ht.
  assert (Hlt : String.length (if Ascii.eqb c "'" || Ascii.eqb c DOUBLE_QUOTE then take_quoted c t
                               else take_bare (String c t)).2 ≤ n).
  { destruct (_ || _); [specialize (Hq c _ t (Nat.le_refl _)); lia|].
    specialize (Hnb c s). rewrite Htr in Hnb. specialize (Hnb eq_refl). cbn [take_bare]. rewrite Hnb.
    specialize (Hb t). destruct (take_bare t). simpl in *. lia. }
  destruct (if Ascii.eqb c "'" || Ascii.eqb c DOUBLE_QUOTE then take_quoted c t else take_bare (String c t)) as [body rest]. simpl in Hlt. f_equal. apply IH; lia.
Qed.

(** C10: What a title or a row quotes is bounded and harmless.  A summary is at
    most as long as its limit, holds no line break and is the whole text, its
    white space collapsed, when that fits; the summary of a command leaves
    room for its outcome; the preview of the input sent to a session is
    bounded and holds no control unit; and the tokenizer of commands always
    reads the text to its end. *)
Theorem summaries_are_bounded v limit state args details value extra : 3 ≤ limit →
  String.length (clipSummary v limit) ≤ limit ∧ single_line (clipSummary v limit) = true ∧
  (String.length (collapseWs v) ≤ limit → clipSummary v limit = collapseWs v) ∧
  (∀ number_text action summary suffix,
     h_command (commandHeader number_text state args details) = Some (action, summary, suffix) →
     h_title (commandHeader number_text state args details) = (action ++ " " ++ summary ++ suffix)%string ∧
     String.length summary ≤ 12 `max` (87 - 47 `min` (String.length action + String.length suffix)) ∧
     single_line summary = true) ∧
  String.length (escapeForDisplay value limit) ≤ limit ∧ displayable (escapeForDisplay value limit) = true ∧
  tokenize (String.length (trim v) + extra) (trim v) = tokenizeShellPresentation v.
Proof.
  intros Hl. split_and!.
  - by apply clipSummary_bound.
  - apply clipSummary_single_line.
  - intros Hf. unfold clipSummary. by apply Nat.leb_le in Hf as ->.
  - intros number_text action summary suffix. unfold commandHeader.
    destruct (command_words number_text state _ _) as [a x] eqn:Hw. cbn. intros [= <- <- <-].
    set (budget := Nat.max 12 _). assert (H12 : 12 ≤ budget) by apply Nat.le_max_l.
    assert (Hb : budget ≤ 12 `max` (87 - 47 `min` (String.length a + String.length x))).
    { subst budget. unfold DEFAULT_SUMMARY_LIMIT. destruct (String.length x); lia. }
    split; [done|]. unfold commandSummary. destruct (rawCommandFromArgs args) as [raw|].
    + split; [etrans; [apply clipSummary_bound; lia|exact Hb]|apply clipSummary_single_line].
    + split; [etrans; [|apply Nat.le_max_l]; simpl; lia|done].
  - apply escape_loop_facts; [done|simpl; lia|done].
  - apply escape_loop_facts; [done|simpl; lia|done].
  - unfold tokenizeShellPresentation. rewrite tokenize_fuel by lia. done.
Qed.

Lemma summaries_are_bounded_witness :
  let h := commandHeader (λ _, "0") st_failed (VObj [("cmd", VStr "npm  test")]) no_details in
  h_title h = "Command failed npm test" ∧ String.length (clipSummary "a very long summary" 8) ≤ 8.
Proof.
  split; [reflexivity|]. destruct (summaries_are_bounded "a very long summary" 8 st_failed VNull no_details "" 0
    ltac:(lia)) as [Hb _]. exact Hb.
Defined.

(** ** Lines *)

(** What the terminal library and the theme promise: columns are counted per
    printable unit, a text has at most the columns of its parts, cutting and
    wrapping keep to their width, and colors take no column. *)
Record terminal_text_laws (visibleWidth : string → nat) (truncateToWidth : string → nat → string → string)
    (wrapTextWithAnsi : string → nat → list string) (fg : string → string → string)
    (bold : string → string) : Prop := {
  tt_ascii s : str_forall is_printable_ascii s = true → visibleWidth s = String.length s;
  tt_app a b : visibleWidth (a ++ b)%string ≤ visibleWidth a + visibleWidth b;
  tt_glyph g : g ∈ [CODEX_TOOL_MARKER; CODEX_TOOL_GUTTER_CONTINUE; CODEX_TOOL_GUTTER_LAST] → visibleWidth g = 1;
  tt_truncate s n e : visibleWidth (stripAnsi (truncateToWidth s n e)) ≤ n;
  tt_wrap s n : 0 < n → Forall (λ l, visibleWidth l ≤ n) (wrapTextWithAnsi s n);
  tt_fg color s : visibleWidth (fg color s) = visibleWidth s;
  tt_bold s : visibleWidth (bold s) = visibleWidth s }.

Section lines.
Context (visibleWidth : string → nat) (truncateToWidth : string → nat → string → string)
  (wrapTextWithAnsi : string → nat → list string) (fg : string → string → string) (bold : string → string).
Context (laws : terminal_text_laws visibleWidth truncateToWidth wrapTextWithAnsi fg bold).

Lemma width_truncatePlain text n : visibleWidth (truncatePlain visibleWidth truncateToWidth text n) ≤ n.
Proof.
  unfold truncatePlain. destruct (Nat.eqb_spec n 0) as [->|Hn].
  { by rewrite (tt_ascii _ _ _ _ _ laws). }
  destruct (Nat.leb_spec (visibleWidth text) n); [done|]. destruct (Nat.leb_spec n 3) as [Hs|Hs].
  { rewrite (tt_ascii _ _ _ _ _ laws) by by apply str_take_forall. rewrite length_str_take. lia. }
  destruct (str_forall is_printable_ascii text) eqn:Ha; [|apply (tt_truncate _ _ _ _ _ laws)].
  rewrite (tt_ascii _ _ _ _ _ laws).
  - rewrite length_str_app, length_str_take. simpl. lia.
  - rewrite str_forall_app, str_take_forall by done. done.
Qed.

Lemma width_title header n : 0 < n → visibleWidth (formatHeaderTitle visibleWidth truncateToWidth header n) ≤ n.
Proof.
  intros Hn. unfold formatHeaderTitle. destruct (h_command header) as [[[action summary] suffix]|];
    [|apply width_truncatePlain].
  destruct (Nat.leb_spec n (visibleWidth (action ++ " ")%string + visibleWidth suffix)) as [|Hf];
    [apply width_truncatePlain|].
  rewrite Nat.max_r by lia. etrans; [apply (tt_app _ _ _ _ _ laws)|].
  etrans; [apply Nat.add_le_mono_l, (tt_app _ _ _ _ _ laws)|].
  pose proof (width_truncatePlain summary (n - (visibleWidth (action ++ " ")%string + visibleWidth suffix))). lia.
Qed.

(** A line is no wider than its parts. *)
Lemma width_app a b n m : visibleWidth a ≤ n → visibleWidth b ≤ m → visibleWidth (a ++ b)%string ≤ n + m.
Proof. intros Ha Hb. etrans; [apply (tt_app _ _ _ _ _ laws)|]. lia. Qed.

Lemma width_ascii s n : str_forall is_printable_ascii s = true → String.length s ≤ n → visibleWidth s ≤ n.
Proof. intros Ha Hl. by rewrite (tt_ascii _ _ _ _ _ laws). Qed.

Lemma width_header header w : 1 ≤ w →
  visibleWidth (header_line visibleWidth truncateToWidth fg bold header w) ≤ 3 `max` w.
Proof.
  intros Hw. unfold header_line, HEADER_PREFIX_COLS. set (title := formatHeaderTitle _ _ _ _).
  assert (visibleWidth title ≤ 1 `max` (w - 2)) as Ht by (apply width_title; lia).
  etrans; [apply (width_app _ _ 1 (1 + 1 `max` (w - 2)))|lia].
  - rewrite (tt_fg _ _ _ _ _ laws), (tt_glyph _ _ _ _ _ laws); [done|by left].
  - apply (width_app " "); [by apply width_ascii|]. by rewrite (tt_fg _ _ _ _ _ laws), (tt_bold _ _ _ _ _ laws).
Qed.

Lemma width_detail row isLast w : 1 ≤ w →
  Forall (λ l, visibleWidth l ≤ 5 `max` w) (detail_lines wrapTextWithAnsi fg row isLast w).
Proof.
  intros Hw. unfold detail_lines, DETAIL_PREFIX_COLS. set (styled := fg _ (row_text row)).
  pose proof (tt_wrap _ _ _ _ _ laws styled (1 `max` (w - 4)) ltac:(lia)) as Hwrap.
  assert (Hg : visibleWidth (fg "dim" (if isLast then CODEX_TOOL_GUTTER_LAST else CODEX_TOOL_GUTTER_CONTINUE)) ≤ 1).
  { rewrite (tt_fg _ _ _ _ _ laws), (tt_glyph _ _ _ _ _ laws); [done|]. destruct isLast; set_solver. }
  assert (Hp : ∀ s n, visibleWidth s ≤ n → visibleWidth ("  " ++ fg "dim" (if isLast then CODEX_TOOL_GUTTER_LAST
      else CODEX_TOOL_GUTTER_CONTINUE) ++ " " ++ s)%string ≤ 4 + n).
  { intros s n Hs. apply (width_app "  " _ 2 (2 + n)); [by apply width_ascii|].
    apply (width_app _ _ 1 (1 + n)); [done|]. apply (width_app " "); [by apply width_ascii|done]. }
  destruct (wrapTextWithAnsi styled _) as [|first rest].
  - constructor; [|done]. etrans; [apply (Hp "" 0)|lia]. by apply width_ascii.
  - apply Forall_cons in Hwrap as [Hf Hr]. constructor; [etrans; [by apply Hp|lia]|].
    apply Forall_fmap. eapply Forall_impl; [exact Hr|]. intros s Hs. cbn.
    etrans; [apply (width_app "    " _ 4); [by apply width_ascii|exact Hs]|lia].
Qed.

(** C40: Every line of a tool fits the width it is rendered for: with at least
    five columns none is wider, and with fewer none is wider than five.  When
    the title of a command has to be cut, only the command is: the action and
    the exit code or duration stay whole as long as they fit. *)
Theorem rendered_lines_fit model width :
  Forall (λ l, visibleWidth l ≤ 5 `max` Z.to_nat width)
    (render visibleWidth truncateToWidth wrapTextWithAnsi fg bold model width) ∧
  ∀ header action summary suffix budget,
    h_command header = Some (action, summary, suffix) →
    visibleWidth (action ++ " ")%string + visibleWidth suffix < budget →
    ∃ body, formatHeaderTitle visibleWidth truncateToWidth header budget = (action ++ " " ++ body ++ suffix)%string ∧
      visibleWidth body ≤ budget - (visibleWidth (action ++ " ")%string + visibleWidth suffix).
Proof.
  split.
  - unfold render. set (w := Z.to_nat (Z.max 1 width)). assert (Hw : 1 ≤ w) by lia.
    assert (Hle : w ≤ 5 `max` Z.to_nat width) by lia. apply Forall_app. split.
    + destruct (pm_header model) as [header|]; [|constructor]. constructor; [|constructor].
      pose proof (width_header header w Hw). lia.
    + induction (pm_details model) as [|row rows IH]; [constructor|]. cbn [details_lines].
      apply Forall_app. split; [|exact IH]. eapply Forall_impl; [by apply width_detail|]. intros l. cbn. lia.
  - intros header action summary suffix budget Hc Hf. unfold formatHeaderTitle. rewrite Hc.
    apply Nat.leb_gt in Hf as Hf'. rewrite Hf'. eexists. rewrite Nat.max_r by lia.
    split; [by rewrite append_assoc|]. apply width_truncatePlain.
Qed.
End lines.

(** ** A terminal that counts code points *)

Definition is_continuation (c : ascii) : bool := in_units 128 191 c.
Fixpoint plain_width (s : string) : nat :=
  match s with
  | EmptyString => 0
  | String c s => (if is_continuation c then 0 else 1) + plain_width s
  end.

Lemma plain_width_le s : plain_width s ≤ String.length s.
Proof. induction s as [|c s IH]; [done|]. cbn. destruct (is_continuation c); lia. Qed.

Lemma stripAnsi_shorter s : String.length (stripAnsi s) ≤ String.length s.
Proof.
  assert (Ha : ∀ s r, after_csi s = Some r → String.length r ≤ String.length s).
  { intros t. induction t as [|c t IH]; intros r; [done|]. cbn [after_csi].
    destruct (_ || _); [intros ?%IH; simpl; lia|]. destruct (Ascii.eqb c "m"); [|done]. intros [= <-]. simpl. lia. }
  unfold stripAnsi. generalize (String.length s) at 1. intros n. revert s.
  induction n as [|n IH]; intros [|c s]; [done|simpl; lia|done|]. cbn [strip_csi].
  destruct (if Ascii.eqb c ESC then _ else _) as [r|] eqn:Hr.
  - etrans; [apply IH|]. destruct (Ascii.eqb c ESC); [|done]. apply Ha in Hr. simpl. lia.
  - specialize (IH s). simpl. lia.
Qed.

Lemma plain_terminal_laws :
  terminal_text_laws plain_width (λ s n _, str_take n s) (λ s n, pieces (String.length s) n s) (λ _ s, s) id.
Proof.
  split; try done.
  - intros s Hs. induction s as [|c s IH]; [done|]. rewrite str_forall_cons in Hs.
    apply andb_true_iff in Hs as [Hc Hs]. cbn. rewrite IH by done.
    assert (is_continuation c = false) as ->; [|done]. unfold is_printable_ascii, is_continuation, in_units in *.
    apply bool_decide_eq_true in Hc. apply bool_decide_eq_false. lia.
  - intros a b. induction a as [|c a IH]; [done|]. cbn. lia.
  - intros g Hg. repeat (apply elem_of_cons in Hg as [->|Hg]; [reflexivity|]). by apply not_elem_of_nil in Hg.
  - intros s n e. etrans; [apply plain_width_le|]. etrans; [apply stripAnsi_shorter|]. rewrite length_str_take. lia.
  - intros s n _. eapply Forall_impl; [apply pieces_bound|]. intros l Hl. cbn in Hl.
    etrans; [apply plain_width_le|exact Hl].
Qed.

Lemma rendered_lines_fit_witness :
  let lines := render plain_width (λ s n _, str_take n s) (λ s n, pieces (String.length s) n s) (λ _ s, s) id
    {| pm_header := Some {| h_state := st_completed; h_title := "Updated files"; h_command := None |};
       pm_details := [output_row "Added src/index.ts"] |} 10 in
  lines = ["• Updat..."; "  └ Added "; "    src/in"; "    dex.ts"] ∧ Forall (λ l, plain_width l ≤ 10) lines.
Proof.
  split; [reflexivity|]. exact (proj1 (rendered_lines_fit _ _ _ _ _ plain_terminal_laws _ 10)).
Defined.
