(* ===== verification/BridgeControl.v ===== *)
(** * BridgeControl

    The rest of [src/src/infrastructure/codex-bridge/client.ts]: the messages
    the client writes, its control operations from the call to the answer, and
    the transport [spawnBridgeTransport] makes of a child process.  What a
    client does with an input is [BridgeClient]; the answers to a whole run of
    inputs are read off it here. *)

From Stdlib Require Import Lia.
From S2P Require Import Prelude Protocol BridgeClient Runtime.

(** ** Messages *)

Inductive NativeApprovalPolicy := policy_on_request | policy_never.
Definition policy_text (p : NativeApprovalPolicy) : string :=
  match p with policy_on_request => "on-request" | policy_never => "never" end.

Definition decision_text (d : BridgeApprovalDecision) : string :=
  match d with
  | allow_once => "allow_once"
  | allow_session => "allow_session"
  | decline => "decline"
  | cancel => "cancel"
  end.

(** The five control operations of the class, with their arguments. *)
Inductive control_operation :=
| op_cancel (targetRequestId : string)
| op_decideApproval (approvalId : string) (decision : BridgeApprovalDecision)
| op_writeSession (sessionId data : string) (approvalPolicy : NativeApprovalPolicy)
| op_resizeSession (sessionId : string) (columns rows : jsnum)
| op_terminateSession (sessionId : string).

Definition message (type : string) (requestId : string) (rest : list (string * jsval)) : jsval :=
  VObj (("type", VStr type) :: ("requestId", VStr requestId) :: rest).

(** The factory each operation hands to [#controlRequest]. *)
Definition control_message (op : control_operation) (requestId : string) : jsval :=
  match op with
  | op_cancel target => message "cancel" requestId [("targetRequestId", VStr target)]
  | op_decideApproval approvalId decision =>
      message "approval_decision" requestId
        [("approvalId", VStr approvalId); ("decision", VStr (decision_text decision))]
  | op_writeSession sessionId data approvalPolicy =>
      message "session_write" requestId
        [("sessionId", VStr sessionId); ("approvalPolicy", VStr (policy_text approvalPolicy)); ("data", VStr data)]
  | op_resizeSession sessionId columns rows =>
      message "session_resize" requestId
        [("sessionId", VStr sessionId); ("columns", VNum columns); ("rows", VNum rows)]
  | op_terminateSession sessionId => message "session_terminate" requestId [("sessionId", VStr sessionId)]
  end.

Definition initialize_message (requestId clientVersion : string) : jsval :=
  message "initialize" requestId
    [("protocolVersion", VNum BRIDGE_PROTOCOL_VERSION);
     ("client", VObj [("name", VStr "pi-codex-adaptor"); ("version", VStr clientVersion)])].
Definition request_message (requestId method : string) (params : jsval) : jsval :=
  message "request" requestId [("method", VStr method); ("params", params)].
Definition shutdown_message (requestId : string) : jsval := message "shutdown" requestId [].
Definition acknowledge_message (targetRequestId : string) (sequence : Z) : jsval :=
  VObj [("type", VStr "acknowledge"); ("targetRequestId", VStr targetRequestId); ("sequence", VNum sequence)].

(** ** Operations *)

Section control.
Context (Check_ : schema → jsval → bool) (json_bytes : jsval → option bytes).

(** [#write] up to the stream: the frame handed to it. *)
Definition write (m : jsval) (c : client) : outcome ClientError bytes :=
  if closed c then Throw (BridgeConnectionError connection_closed) else
  match encodeClientMessage Check_ json_bytes m with
  | Ret frame => Ret frame
  | Throw code => Throw (BridgeProtocolError code)
  end.

(** [#controlRequest] with its write: [None] when the call throws.  An error of
    the write rejects the request in a later task, [i_write_failed]. *)
Definition start_operation (op : control_operation) (requestId : string) (signal : option bool) (c : client)
    : option (outcome ClientError bytes * client) :=
  match controlRequest requestId signal false c with
  | Some c' => Some (write (control_message op requestId) c', c')
  | None => None
  end.
End control.

(** [#completedControlRequest], and the same check of [cancel] and of
    [#performShutdown]: the promise of an operation whose request was settled. *)
Definition control_result (s : settlement) : outcome ClientError jsval :=
  match s with
  | resolved status result =>
      if String.eqb status "completed" then Ret result
      else Throw (BridgeConnectionError protocol_failure)
  | rejected e => Throw e
  end.

(** The answer the application has got for the request, if any. *)
Definition answer (requestId : string) (c : client) : option (outcome ClientError jsval) :=
  match list_find (λ p : string * settlement, p.1 = requestId) (settlements c) with
  | Some (_, (_, s)) => Some (control_result s)
  | None => None
  end.

(** A whole run of inputs. *)
Definition client_run (target : string) (options : HandshakeVerificationOptions) (ins : list input) (c : client)
    : client := fold_left (λ c i, apply_input target options i c) ins c.

(** The timeout of a control operation: the first positive safe integer. *)
Definition is_timeout (n : jsnum) : bool := is_safe_integer n && num_gtb n 0%Z.
Definition resolveControlTimeoutMs (requested configured : option jsnum) : jsnum :=
  match filter (λ n, is_timeout n = true) (omap id [requested; configured]) with
  | n :: _ => n
  | [] => num_of_Z 30000
  end.

(** ** The transport *)

(** [l_called] are the listeners called, in order, and [kills] the times the
    child was killed; a listener is named by a number. *)
Record transport := {
  tr_closed : bool; tr_listeners : list nat; l_called : list nat; kills : nat }.
Definition spawnBridgeTransport : transport :=
  {| tr_closed := false; tr_listeners := []; l_called := []; kills := 0 |}.

(** [notify], for the [error] and the [exit] event of the child. *)
Definition tr_notify (t : transport) : transport :=
  if tr_closed t then t
  else {| tr_closed := true; tr_listeners := tr_listeners t; l_called := l_called t ++ tr_listeners t; kills := kills t |}.
Definition tr_close (t : transport) : transport :=
  if tr_closed t then t
  else {| tr_closed := false; tr_listeners := tr_listeners t; l_called := l_called t; kills := S (kills t) |}.
(** [listeners.add]: a listener that is there already is not added again. *)
Definition tr_onClose (l : nat) (t : transport) : transport :=
  {| tr_closed := tr_closed t;
     tr_listeners := if bool_decide (l ∈ tr_listeners t) then tr_listeners t else tr_listeners t ++ [l];
     l_called := l_called t; kills := kills t |}.
Definition tr_remove (l : nat) (t : transport) : transport :=
  {| tr_closed := tr_closed t; tr_listeners := filter (λ x, x ≠ l) (tr_listeners t);
     l_called := l_called t; kills := kills t |}.

Inductive transport_event := te_child_ended | te_close | te_onClose (l : nat) | te_remove (l : nat).
Definition transport_step (e : transport_event) (t : transport) : transport :=
  match e with
  | te_child_ended => tr_notify t
  | te_close => tr_close t
  | te_onClose l => tr_onClose l t
  | te_remove l => tr_remove l t
  end.
Definition transport_run (events : list transport_event) : transport :=
  fold_left (λ t e, transport_step e t) events spawnBridgeTransport.
