(* ===== verification/BridgeControlFacts.v ===== *)
(** * BridgeControlFacts

    What a control operation of the bridge client promises: it writes one
    frame the protocol accepts or fails, it succeeds only when the server said
    so, events are acknowledged in the order they were received, and the
    listeners of the transport are called once. *)

From Stdlib Require Import Lia Strings.Byte.
From S2P Require Import Prelude Protocol ProtocolFacts BridgeClient BridgeClientFacts BridgeControl.

(** ** Messages *)

Definition valid_id (id : string) : bool := within 1 (Some 256%Z) (Z.of_nat (String.length id)).
Definition valid_extent (n : jsnum) : bool :=
  match num_integer n with Some z => within 1 (Some 65535%Z) z | None => false end.

(** The arguments the protocol allows. *)
Definition valid_operation (op : control_operation) : bool :=
  match op with
  | op_cancel id | op_decideApproval id _ | op_writeSession id _ _ | op_terminateSession id => valid_id id
  | op_resizeSession id columns rows => valid_id id && valid_extent columns && valid_extent rows
  end.

Lemma any_length (n : nat) : within 0 None (Z.of_nat n) = true.
Proof. unfold within. rewrite andb_true_r. apply bool_decide_eq_true. lia. Qed.

Lemma control_message_conforms op id :
  conforms ClientMessageSchema (control_message op id) = valid_id id && valid_operation op.
Proof.
  destruct op as [t|a [| | |]|s d []|s cols rows|s]; cbn -[within]; unfold valid_id, valid_extent;
    rewrite ?any_length, ?andb_true_r, ?orb_false_r, ?orb_true_r, ?andb_true_r, ?andb_assoc; done.
Qed.

(** ** Where settlements and acknowledgements come from *)

Definition heard (ins : list input) : list ServerMessage :=
  ins ≫= λ i, match i with i_receive (Ret ms) => ms | _ => [] end.

Definition event_numbers (id : string) (ms : list ServerMessage) : list Z :=
  omap (λ m, match m with m_event id' n _ => if String.eqb id' id then Some n else None | _ => None end) ms.
Definition ack_numbers (id : string) (acks : list (string * Z)) : list Z :=
  omap (λ p, if String.eqb p.1 id then Some p.2 else None) acks.
Definition queued_acks (ts : list task) : list Z :=
  omap (λ t, match t with t_handler ack => ack | _ => None end) ts.
Definition queue (id : string) (c : client) : list task := default [] (chains c !! id).

(** Everything settled as a result, queued or acknowledged was received. *)
Record sourced (ms : list ServerMessage) (c : client) : Prop := {
  so_acks id : ack_numbers id (acknowledged c) ++ queued_acks (queue id c) `sublist_of` event_numbers id ms;
  so_settled id status result : (id, resolved status result) ∈ settlements c → m_result id status result ∈ ms;
  so_queued id status result : t_resolve status result ∈ queue id c → m_result id status result ∈ ms }.

(** Steps that neither queue, nor acknowledge, nor resolve; like every step
    they forget no settlement. *)
Record quiet (c c' : client) : Prop := {
  q_prefix : settlements c `prefix_of` settlements c';
  q_chains : chains c' = chains c;
  q_acks : acknowledged c' = acknowledged c;
  q_settled id status result :
    (id, resolved status result) ∈ settlements c' → (id, resolved status result) ∈ settlements c }.

#[export] Instance quiet_preorder : PreOrder quiet.
Proof.
  split.
  - intros c. by constructor.
  - intros a b c [Hp Hc Ha Hs] [Hp' Hc' Ha' Hs'].
    constructor; [by etransitivity|congruence|congruence|naive_solver].
Qed.

Lemma quiet_sourced ms c c' : quiet c c' → sourced ms c → sourced ms c'.
Proof.
  intros [_ Hc Ha Hs] [Sa Ss Sq]. constructor.
  - intros id. unfold queue. rewrite Hc, Ha. apply Sa.
  - intros id st r Hin. by apply Ss, Hs.
  - intros id st r. unfold queue. rewrite Hc. apply Sq.
Qed.

Lemma sourced_more ms ms' c : sourced ms c → sourced (ms ++ ms') c.
Proof.
  intros [Sa Ss Sq]. constructor.
  - intros id. unfold event_numbers. rewrite omap_app. by apply sublist_inserts_r.
  - intros id st r Hin. apply elem_of_app. left. by apply Ss.
  - intros id st r Hin. apply elem_of_app. left. by apply Sq.
Qed.

Lemma quiet_settle id s c : (∀ status result, s ≠ resolved status result) → quiet c (settle_pending id s c).
Proof.
  intros Hs. unfold settle_pending. destruct (pending c !! id); [|reflexivity].
  constructor; [by apply prefix_app_r|done|done|]. intros id' st r. simpl. rewrite elem_of_app, list_elem_of_singleton. intros [?|[= _ <-]]; [done|].
  by destruct (Hs st r).
Qed.

Lemma quiet_reject id e c : quiet c (rejectPending id e c). Proof. by apply quiet_settle. Qed.

Lemma quiet_same c c' :
  chains c' = chains c → acknowledged c' = acknowledged c → settlements c' = settlements c → quiet c c'.
Proof. intros Hc Ha Hs. constructor; [by rewrite Hs|done|done|]. by rewrite Hs. Qed.

Lemma quiet_handshake s c : quiet c (settle_handshake s c).
Proof. unfold settle_handshake. repeat case_match; by apply quiet_same. Qed.

Lemma quiet_rejectAll e c : quiet c (rejectAll e c).
Proof.
  unfold rejectAll. induction (map_to_list (pending c)).*1 as [|id ids IH]; simpl; [apply quiet_handshake|].
  etransitivity; [exact IH|apply quiet_reject].
Qed.

Lemma quiet_fail e c : quiet c (fail e c).
Proof.
  unfold fail. destruct (closed c); [reflexivity|].
  etransitivity; [|apply quiet_rejectAll]. by apply quiet_same.
Qed.

Lemma quiet_close c : quiet c (close c).
Proof.
  unfold close. destruct (closed c); [reflexivity|].
  etransitivity; [|apply quiet_rejectAll]. by apply quiet_same.
Qed.

Lemma quiet_ignore id c : quiet c (ignoreLateMessages id c).
Proof. unfold ignoreLateMessages. case_match; [apply quiet_fail|by apply quiet_same]. Qed.

Lemma quiet_control id signal allow c c' : controlRequest id signal allow c = Some c' → quiet c c'.
Proof.
  unfold controlRequest. destruct (negb _); [done|]. case_bool_decide; [done|]. intros [= <-]. by apply quiet_same.
Qed.

Lemma quiet_default c o : (∀ c', o = Some c' → quiet c c') → quiet c (default c o).
Proof. intros Ho. destruct o as [c'|]; [by apply Ho|reflexivity]. Qed.

Lemma quiet_abort id cancelId c : quiet c (abort id cancelId c).
Proof.
  unfold abort. destruct (pending c !! id) as [[control []]|]; try reflexivity.
  assert (quiet c (ignoreLateMessages id (rejectPending id AbortError c))) as Hq
    by (etransitivity; [apply quiet_reject|apply quiet_ignore]).
  destruct control; [done|]. etransitivity; [exact Hq|]. apply quiet_default. intros c'. apply quiet_control.
Qed.

Lemma quiet_timeout id c : quiet c (control_timed_out id c).
Proof.
  unfold control_timed_out. destruct (pending c !! id) as [[[] ?]|]; try reflexivity.
  etransitivity; [apply quiet_reject|apply quiet_ignore].
Qed.

Lemma quiet_initialized e c : quiet c (initialized e c).
Proof.
  unfold initialized. destruct (handshake c) as [h|]; [|reflexivity].
  assert (∀ err, quiet c (fail err (with_handshake None c))) as Hf
    by (intros err; etransitivity; [|apply quiet_fail]; by apply quiet_same).
  destruct e; [apply Hf|]. destruct (hs_state h); [reflexivity| |apply Hf]. by apply quiet_same.
Qed.

Lemma quiet_shutdown id signal c : quiet c (shutdown id signal c).
Proof.
  unfold shutdown. destruct (closed c); [reflexivity|]. destruct (shutdownRequest c); [reflexivity|].
  set (c1 := with_shutdown _ _). assert (quiet c c1) by (by apply quiet_same).
  destruct (controlRequest id signal true c1) as [c2|] eqn:Hc; etransitivity; try eassumption;
    [by eapply quiet_control|apply quiet_close].
Qed.

Lemma quiet_drop m c : quiet c (drop_ignored m c).
Proof. unfold drop_ignored. repeat case_match; first [reflexivity|by apply quiet_same]. Qed.

Section runs.
Context (target : string) (options : HandshakeVerificationOptions).

Lemma quiet_routeHandshake m c : quiet c (routeHandshake target options m c).
Proof.
  unfold routeHandshake. destruct (handshake c); [|apply quiet_fail].
  repeat case_match; apply quiet_handshake.
Qed.

(** A task queued for a message of the request. *)
Lemma enqueue_sourced ms m id t c :
  sourced ms c →
  queued_acks [t] `sublist_of` event_numbers id [m] →
  (∀ status result, t = t_resolve status result → m = m_result id status result) →
  sourced (ms ++ [m]) (enqueue id t c).
Proof.
  intros Hc Hack Hres. pose proof (sourced_more ms [m] c Hc) as [Sa Ss Sq]. constructor; [|done|].
  - intros id'. unfold queue, enqueue, with_chains. cbn [chains acknowledged].
    destruct (decide (id = id')) as [<-|Hne]; [|rewrite lookup_insert_ne by done; apply Sa].
    rewrite lookup_insert_eq. cbn [default Datatypes.id]. unfold queued_acks, event_numbers.
    rewrite !omap_app, app_assoc. apply sublist_app; [|exact Hack]. apply (so_acks _ _ Hc).
  - intros id' st r. unfold queue, enqueue, with_chains. cbn [chains].
    destruct (decide (id = id')) as [<-|Hne]; [|rewrite lookup_insert_ne by done; apply Sq].
    rewrite lookup_insert_eq. cbn [default Datatypes.id]. rewrite elem_of_app, list_elem_of_singleton.
    intros [Hin|Heq]; [by apply Sq|]. rewrite (Hres st r) by done. apply elem_of_app. right. by left.
Qed.

Lemma dispatch_sourced ms m id c :
  message_id m = Some id → sourced ms c → sourced (ms ++ [m]) (dispatch m id c).
Proof.
  intros Hid Hc. destruct m as [i h|i n e|i st r|i e|i a|i st p q]; cbn [dispatch];
    try (by apply sourced_more); cbn [message_id] in Hid; simplify_eq.
  - apply enqueue_sourced; [done| |done]. cbn. by rewrite String.eqb_refl.
  - apply enqueue_sourced; [done|cbn; apply sublist_nil_l|]. by intros ? ? [= <- <-].
  - apply enqueue_sourced; [done|cbn; apply sublist_nil_l|done].
  - apply enqueue_sourced; [done|cbn; apply sublist_nil_l|done].
Qed.

Lemma dispatch_settlements m id c : settlements (dispatch m id c) = settlements c.
Proof. by destruct m. Qed.

(** What routing a message does. *)
Lemma route_cases m c :
  quiet c (route target options m c) ∨
  ∃ id, message_id m = Some id ∧ route target options m c = dispatch m id c.
Proof.
  unfold route. destruct (ready c); cbn [negb]; [|left; apply quiet_routeHandshake].
  destruct m as [i h|i n e|i st r|[i|] e|i a|[i|] st p q]; cbn [message_id];
    try (destruct (is_ignored _ c); [left; apply quiet_drop|]);
    try (left; first [apply quiet_fail|apply quiet_reject]);
    destruct (pending c !! i); first [by eauto|left; apply quiet_fail].
Qed.

Lemma route_sourced ms m c : sourced ms c → sourced (ms ++ [m]) (route target options m c).
Proof.
  intros Hc. destruct (route_cases m c) as [Hq|(id & Hid & ->)]; [|by apply dispatch_sourced].
  by apply (quiet_sourced _ c), sourced_more.
Qed.

Lemma route_prefix m c : settlements c `prefix_of` settlements (route target options m c).
Proof. destruct (route_cases m c) as [[Hq _ _ _]|(id & Hid & ->)]; [done|by rewrite dispatch_settlements]. Qed.

Lemma receive_sourced ms d c :
  sourced ms c → sourced (ms ++ heard [i_receive d]) (receive target options d c).
Proof.
  intros Hc. unfold receive. destruct (closed c); [by apply sourced_more|]. destruct d as [l|e].
  - cbn [heard mbind list_bind]. rewrite app_nil_r. revert ms c Hc. induction l as [|m l IH]; intros ms c Hc.
    + by rewrite app_nil_r.
    + cbn [fold_left]. replace (ms ++ m :: l) with ((ms ++ [m]) ++ l) by (by rewrite <- app_assoc).
      by apply IH, route_sourced.
  - apply sourced_more. by apply (quiet_sourced _ c), Hc; apply quiet_fail.
Qed.

Lemma receive_prefix d c : settlements c `prefix_of` settlements (receive target options d c).
Proof.
  unfold receive. destruct (closed c); [done|]. destruct d as [l|e]; [|apply quiet_fail].
  revert c. induction l as [|m l IH]; intros c; [done|]. cbn [fold_left].
  etransitivity; [apply (route_prefix m)|apply IH].
Qed.

(** Running the first task of a chain. *)
Lemma pop_sourced ms id t ts acks c :
  sourced ms c → chains c !! id = Some (t :: ts) →
  acks = acknowledged c ∨ (∃ n, t = t_handler (Some n) ∧ acks = acknowledged c ++ [(id, n)]) →
  sourced ms (with_chains (<[ id := ts ]> (chains c)) acks c).
Proof.
  intros [Sa Ss Sq] Ht Hacks.
  assert (Hq : queue id c = t :: ts) by (unfold queue; by rewrite Ht).
  constructor; [|done|].
  - intros id'. specialize (Sa id'). unfold queue, with_chains. cbn [chains acknowledged].
    destruct (decide (id = id')) as [<-|Hne].
    + rewrite lookup_insert_eq. cbn [default Datatypes.id]. rewrite Hq in Sa.
      destruct Hacks as [-> |(n & -> & ->)].
      * etransitivity; [|exact Sa]. apply sublist_app; [done|].
        destruct t as [[n|]|st r]; cbn; [by constructor|done|done].
      * unfold ack_numbers. rewrite omap_app. cbn. rewrite String.eqb_refl, <- app_assoc. exact Sa.
    + rewrite lookup_insert_ne by done.
      replace (ack_numbers id' acks) with (ack_numbers id' (acknowledged c)); [done|].
      destruct Hacks as [-> |(n & -> & ->)]; [done|]. unfold ack_numbers. rewrite omap_app. cbn.
      apply String.eqb_neq in Hne. by rewrite Hne, app_nil_r.
  - intros id' st r. unfold queue, with_chains. cbn [chains].
    destruct (decide (id = id')) as [<-|Hne]; [|rewrite lookup_insert_ne by done; apply Sq].
    rewrite lookup_insert_eq. cbn [default Datatypes.id]. intros Hin. apply Sq. rewrite Hq. by right.
Qed.

Lemma resolve_sourced ms id status result c :
  m_result id status result ∈ ms → sourced ms c → sourced ms (resolvePending id status result c).
Proof.
  intros Hm [Sa Ss Sq]. unfold resolvePending, settle_pending. destruct (pending c !! id); [|done].
  constructor; [done| |done]. intros id' st r. simpl. rewrite elem_of_app, list_elem_of_singleton.
  intros [Hin|[= -> -> ->]]; [by apply Ss|done].
Qed.

Lemma run_task_sourced ms id ok c : sourced ms c → sourced ms (run_task id ok c).
Proof.
  intros Hc. unfold run_task. destruct (chains c !! id) as [[|t ts]|] eqn:Ht; try done.
  assert (sourced ms (with_chains (<[ id := ts ]> (chains c)) (acknowledged c) c)) as Hpop
    by (eapply pop_sourced; eauto).
  destruct t as [ack|status result].
  - destruct ok; cbn [negb]; [|by eapply quiet_sourced; [apply quiet_fail|]].
    destruct ack as [n|]; [|done].
    destruct (closed _); [by eapply quiet_sourced; [apply quiet_fail|]|].
    apply (pop_sourced ms id (t_handler (Some n)) ts (acknowledged c ++ [(id, n)]) c); eauto.
  - apply resolve_sourced; [|done]. apply (so_queued _ _ Hc). unfold queue. rewrite Ht. by left.
Qed.

Lemma run_task_prefix id ok c : settlements c `prefix_of` settlements (run_task id ok c).
Proof.
  unfold run_task. destruct (chains c !! id) as [[|t ts]|]; try done.
  set (c1 := with_chains _ _ c). change (settlements c) with (settlements c1). destruct t as [ack|status result].
  - destruct ok; cbn [negb]; [|apply quiet_fail]. destruct ack; [|done]. destruct (closed c1); [apply quiet_fail|done].
  - unfold resolvePending, settle_pending. destruct (pending c1 !! id); [by apply prefix_app_r|done].
Qed.

(** The inputs that only change flags, requests and rejections. *)
Definition is_quiet (i : input) : bool :=
  match i with i_receive _ | i_task _ _ => false | _ => true end.

Lemma quiet_input i c : is_quiet i = true → quiet c (apply_input target options i c).
Proof.
  destruct i as [id sg|id sg|id cid|id|id e|d|id ok| |e|t| |id sg| |]; try done; intros _; cbn [apply_input].
  - apply quiet_default. intros c'. unfold request. destruct (negb _); [done|]. case_bool_decide; [done|].
    intros [= <-]. by apply quiet_same.
  - apply quiet_default. intros c'. apply quiet_control.
  - apply quiet_abort.
  - apply quiet_timeout.
  - apply quiet_reject.
  - apply quiet_handshake.
  - apply quiet_initialized.
  - apply quiet_fail.
  - apply quiet_fail.
  - apply quiet_shutdown.
  - unfold shutdown_settled. destruct (shutdownRequest c); [|reflexivity].
    case_bool_decide; [apply quiet_close|reflexivity].
  - apply quiet_close.
Qed.

Lemma apply_sourced ms i c : sourced ms c → sourced (ms ++ heard [i]) (apply_input target options i c).
Proof.
  intros Hc. destruct (is_quiet i) eqn:Hi.
  - apply sourced_more. by apply (quiet_sourced _ c); [apply quiet_input|].
  - destruct i; try done; [by apply receive_sourced|]. by apply sourced_more, run_task_sourced.
Qed.

Lemma apply_prefix i c : settlements c `prefix_of` settlements (apply_input target options i c).
Proof.
  destruct (is_quiet i) eqn:Hi; [by apply quiet_input|].
  destruct i; try done; [apply receive_prefix|apply run_task_prefix].
Qed.

Lemma run_sourced ms ins c : sourced ms c → sourced (ms ++ heard ins) (client_run target options ins c).
Proof.
  revert ms c. induction ins as [|i ins IH]; intros ms c Hc; [by rewrite app_nil_r|].
  change (heard (i :: ins)) with (heard ([i] ++ ins)). unfold heard at 1. rewrite bind_app, app_assoc.
  by apply IH, apply_sourced.
Qed.

Lemma run_prefix ins c : settlements c `prefix_of` settlements (client_run target options ins c).
Proof.
  revert c. induction ins as [|i ins IH]; intros c; [done|]. etransitivity; [apply (apply_prefix i)|apply IH].
Qed.

Lemma connecting_sourced id : sourced [] (connecting id).
Proof.
  assert (∀ id', queue id' (connecting id) = []) as Hq by (intros id'; unfold queue; cbn; by rewrite lookup_empty).
  constructor.
  - intros id'. by rewrite Hq.
  - intros ? ? ? []%elem_of_nil.
  - intros ? ? ?. rewrite Hq. intros []%elem_of_nil.
Qed.
End runs.

(** ** Answers *)

Lemma find_app (id : string) (l k : list (string * settlement)) r :
  list_find (λ p : string * settlement, p.1 = id) l = Some r →
  list_find (λ p : string * settlement, p.1 = id) (l ++ k) = Some r.
Proof. destruct r as [n q]. intros Hl. apply list_find_app_Some. by left. Qed.

Lemma answer_kept id a c c' :
  settlements c `prefix_of` settlements c' → answer id c = Some a → answer id c' = Some a.
Proof.
  intros [k Hk]. unfold answer. rewrite Hk.
  destruct (list_find _ (settlements c)) as [[n [id' s]]|] eqn:Hf; [|done]. by rewrite (find_app _ _ _ _ Hf).
Qed.

Lemma answer_settled id s c :
  is_Some (pending c !! id) → id ∉ (settlements c).*1 →
  answer id (settle_pending id s c) = Some (control_result s).
Proof.
  intros [p Hp] Hid. unfold answer, settle_pending. rewrite Hp. cbn [settlements with_pending].
  assert (list_find (λ p : string * settlement, p.1 = id) (settlements c ++ [(id, s)]) =
          Some (length (settlements c), (id, s))) as ->; [|done].
  apply list_find_app_Some. right. split_and!; [lia| |by rewrite Nat.sub_diag; cbn; rewrite decide_True].
  apply list_find_None, Forall_forall. intros q Hq Heq. apply Hid. apply list_elem_of_fmap. by exists q.
Qed.

Lemma answer_completed id result c :
  answer id c = Some (Ret result) → (id, resolved "completed" result) ∈ settlements c.
Proof.
  unfold answer. destruct (list_find _ _) as [[n [id' s]]|] eqn:Hf; [|done].
  apply list_find_Some in Hf as (Hl & Hid & _). cbn in Hid. subst id'. intros [= Hs].
  apply list_elem_of_lookup_2 in Hl. destruct s as [status r|e]; [|done]. cbn in Hs.
  destruct (String.eqb_spec status "completed") as [->|]; [|done]. by injection Hs as ->.
Qed.

Lemma refused_operation Check_ json_bytes op id signal c :
  start_operation Check_ json_bytes op id signal c = None →
  isReady c = false ∨ closing c = true ∨ signal = Some true.
Proof.
  unfold start_operation, controlRequest, requireReady. destruct (isReady c), (closing c); auto. cbn.
  case_bool_decide; [auto|done].
Qed.

Lemma start_facts Check_ json_bytes op id signal c written c' :
  start_operation Check_ json_bytes op id signal c = Some (written, c') →
  written = write Check_ json_bytes (control_message op id) c' ∧ closed c' = false ∧
  is_Some (pending c' !! id) ∧ settlements c' = settlements c.
Proof.
  unfold start_operation, controlRequest, requireReady, isReady.
  destruct (ready c), (closed c) eqn:Hc, (closing c); cbn; try done. case_bool_decide; [done|].
  intros [= <- <-]. split_and!; [done|done| |done]. cbn. by rewrite lookup_insert_eq.
Qed.

Lemma started_operation Check_ json_bytes target options op id signal c written c' :
  (∀ s v, Check_ s v = conforms s v) →
  start_operation Check_ json_bytes op id signal c = Some (written, c') →
  match written with
  | Ret frame =>
      valid_id id = true ∧ valid_operation op = true ∧
      ∃ b, json_bytes (control_message op id) = Some b ∧ (byteLength b ≤ MAX_FRAME_BYTES)%Z ∧ frame = b ++ [LF]
  | Throw e =>
      (e = BridgeProtocolError invalid_frame ∧
         (valid_id id && valid_operation op = false ∨ json_bytes (control_message op id) = None) ∨
       e = BridgeProtocolError frame_too_large ∧
         ∃ b, json_bytes (control_message op id) = Some b ∧ (MAX_FRAME_BYTES < byteLength b)%Z) ∧
      (id ∉ (settlements c).*1 →
       answer id (apply_input target options (i_write_failed id e) c') = Some (Throw e))
  end.
Proof.
  intros Hdoc Hop. apply start_facts in Hop as (-> & Hcl & Hp & Hset).
  assert (∀ e, id ∉ (settlements c).*1 →
    answer id (apply_input target options (i_write_failed id e) c') = Some (Throw e)) as Hans
    by (intros e Hid; cbn [apply_input]; unfold rejectPending; rewrite answer_settled; [done|done|by rewrite Hset]).
  unfold write, encodeClientMessage. rewrite Hcl, Hdoc, control_message_conforms.
  destruct (valid_id id && valid_operation op) eqn:Hv; cbn [negb]; [|by auto].
  apply andb_true_iff in Hv as [Hv1 Hv2]. destruct (json_bytes _) as [b|]; [|by auto].
  case_bool_decide as Hb; [split; [right; split; [done|by exists b]|apply Hans]|]. split_and!; [done..|]. exists b. split_and!; [done|lia|done].
Qed.

(** C28: A control operation of the bridge client - cancel, an approval
    decision, writing to, resizing and terminating a session - starts only on a
    ready connection whose signal is not aborted, and then writes exactly one
    frame, its message, if and only if the protocol allows its arguments and
    the frame is not too large; else the write error is its answer.  Whatever
    inputs the client gets, an operation succeeds only when the server sent a
    completed result for it, an answer once given never changes, and the
    acknowledgements written for a request name events received for it, in the
    order they came and no event twice. *)
Theorem control_operation_contract Check_ json_bytes target options first ins op requestId signal :
  (∀ s v, Check_ s v = conforms s v) →
  let c := client_run target options ins (connecting first) in
  match start_operation Check_ json_bytes op requestId signal c with
  | None => isReady c = false ∨ closing c = true ∨ signal = Some true
  | Some (written, c') =>
      let payload := json_bytes (control_message op requestId) in
      match written with
      | Ret frame =>
          valid_id requestId = true ∧ valid_operation op = true ∧
          ∃ b, payload = Some b ∧ (byteLength b ≤ MAX_FRAME_BYTES)%Z ∧ frame = b ++ [LF]
      | Throw e =>
          (e = BridgeProtocolError invalid_frame ∧
             (valid_id requestId && valid_operation op = false ∨ payload = None) ∨
           e = BridgeProtocolError frame_too_large ∧
             ∃ b, payload = Some b ∧ (MAX_FRAME_BYTES < byteLength b)%Z) ∧
          (requestId ∉ (settlements c).*1 →
           answer requestId (apply_input target options (i_write_failed requestId e) c') = Some (Throw e))
      end
  end ∧
  (∀ id result, answer id c = Some (Ret result) → m_result id "completed" result ∈ heard ins) ∧
  (∀ id a later, answer id c = Some a → answer id (client_run target options later c) = Some a) ∧
  ∀ id, ack_numbers id (acknowledged c) `sublist_of` event_numbers id (heard ins).
Proof.
  intros Hdoc c.
  assert (sourced (heard ins) c) as Hs by (apply (run_sourced target options []), connecting_sourced).
  split_and!.
  - destruct (start_operation _ _ _ _ _ _) as [[written c']|] eqn:Hop.
    + by eapply started_operation.
    + by eapply refused_operation.
  - intros id result Ha. by apply (so_settled _ _ Hs), answer_completed.
  - intros id a later. apply answer_kept, run_prefix.
  - intros id. etransitivity; [|apply (so_acks _ _ Hs)]. by apply sublist_inserts_r.
Qed.

(** A resize with a frame of one byte, on a connection that is ready. *)
Lemma control_operation_contract_witness :
  let c := client_run "t" sample_options connected_inputs (connecting "h") in
  let json _ := Some [x6e] in
  start_operation conforms json (op_resizeSession "s" (num_of_Z 80) (num_of_Z 24)) "r" None c =
    Some (Ret [x6e; LF], register "r" {| p_control := true; p_signal := false |} c) ∧
  (∀ id result, answer id c = Some (Ret result) → m_result id "completed" result ∈ heard connected_inputs).
Proof.
  intros c json. split; [vm_compute; reflexivity|].
  exact (proj1 (proj2 (control_operation_contract conforms json "t" sample_options "h" connected_inputs
    (op_resizeSession "s" (num_of_Z 80) (num_of_Z 24)) "r" None (λ s v, eq_refl)))).
Defined.

(** The timeout of an operation is always a positive safe integer. *)
Lemma control_timeout_positive requested configured :
  is_timeout (resolveControlTimeoutMs requested configured) = true.
Proof.
  unfold resolveControlTimeoutMs. destruct (filter _ _) as [|n l] eqn:Hf; [reflexivity|].
  assert (n ∈ filter (λ n, is_timeout n = true) (omap id [requested; configured])) as Hin by (rewrite Hf; by left).
  by apply list_elem_of_filter in Hin as [? _].
Qed.

(** ** The transport *)

Definition is_end (e : transport_event) : bool := match e with te_child_ended => true | _ => false end.
Definition is_close (e : transport_event) : bool := match e with te_close => true | _ => false end.

(** The events before the child ended. *)
Fixpoint before_end (events : list transport_event) : list transport_event :=
  match events with
  | [] => []
  | e :: events => if is_end e then [] else e :: before_end events
  end.

(** Whether the event leaves the listener registered, if it is about it. *)
Definition registration (l : nat) (e : transport_event) : option bool :=
  match e with
  | te_onClose l' => if (l' =? l)%nat then Some true else None
  | te_remove l' => if (l' =? l)%nat then Some false else None
  | _ => None
  end.
Definition registered (events : list transport_event) (l : nat) : bool :=
  default false (last (omap (registration l) events)).

Lemma before_end_snoc events e :
  before_end (events ++ [e]) =
    if existsb is_end events then before_end events else if is_end e then events else events ++ [e].
Proof.
  induction events as [|d events IH]; [done|]. cbn. destruct (is_end d); [done|]. cbn. rewrite IH.
  by destruct (existsb is_end events), (is_end e).
Qed.

Lemma before_end_open events : existsb is_end events = false → before_end events = events.
Proof.
  induction events as [|d events IH]; [done|]. cbn. destruct (is_end d); [done|]. cbn. intros H. by rewrite IH.
Qed.

Lemma registered_snoc events e l :
  registered (events ++ [e]) l = default (registered events l) (registration l e).
Proof.
  unfold registered. rewrite omap_app. cbn. destruct (registration l e) as [b|]; [by rewrite last_snoc|].
  by rewrite app_nil_r.
Qed.

Lemma listeners_step e t l :
  NoDup (tr_listeners t) →
  NoDup (tr_listeners (transport_step e t)) ∧
  (l ∈ tr_listeners (transport_step e t) ↔
   default (bool_decide (l ∈ tr_listeners t)) (registration l e) = true).
Proof.
  intros Hnd. destruct e as [| |l'|l']; cbn.
  - unfold tr_notify. destruct (tr_closed t); cbn; by rewrite bool_decide_eq_true.
  - unfold tr_close. destruct (tr_closed t); cbn; by rewrite bool_decide_eq_true.
  - destruct (Nat.eqb_spec l' l) as [->|Hne]; cbn; case_bool_decide as Hin.
    + done.
    + split; [by apply NoDup_app; split_and!; [done|set_solver|apply NoDup_singleton]|]. set_solver.
    + rewrite bool_decide_eq_true. done.
    + rewrite bool_decide_eq_true. split; [by apply NoDup_app; split_and!; [done|set_solver|apply NoDup_singleton]|].
      set_solver.
  - split; [by apply NoDup_filter|]. rewrite list_elem_of_filter.
    destruct (Nat.eqb_spec l' l) as [->|Hne]; cbn; [naive_solver|]. rewrite bool_decide_eq_true. naive_solver.
Qed.

Lemma transport_run_snoc events e :
  transport_run (events ++ [e]) = transport_step e (transport_run events).
Proof. unfold transport_run. by rewrite fold_left_app. Qed.

Lemma run_listeners events :
  NoDup (tr_listeners (transport_run events)) ∧
  ∀ l, l ∈ tr_listeners (transport_run events) ↔ registered events l = true.
Proof.
  induction events as [|e events IH] using rev_ind.
  { split; [apply NoDup_nil_2|]. intros l. split; [by intros []%elem_of_nil|done]. }
  destruct IH as [Hnd Hl]. rewrite transport_run_snoc. split; [by apply (listeners_step _ _ 0)|].
  intros l. destruct (listeners_step e (transport_run events) l Hnd) as [_ ->].
  rewrite registered_snoc. destruct (registration l e); [done|]. cbn. rewrite bool_decide_eq_true. apply Hl.
Qed.

(** Whatever order the child's events, the registrations and the closing come
    in: the listeners called are exactly those registered when the child ended
    for the first time, each once; and the child is killed once for each close
    before that and never after. *)
Theorem transport_reports_end_once events :
  let t := transport_run events in
  tr_closed t = existsb is_end events ∧
  NoDup (l_called t) ∧
  (∀ l, l ∈ l_called t ↔ tr_closed t = true ∧ registered (before_end events) l = true) ∧
  kills t = length (List.filter is_close (before_end events)).
Proof.
  cbn. induction events as [|e events (Hc & Hnd & Hl & Hk)] using rev_ind.
  { split_and!; [done|constructor| |done]. intros l. split; [by intros []%elem_of_nil|by intros [? _]]. }
  rewrite transport_run_snoc, existsb_app, before_end_snoc. cbn. rewrite orb_false_r.
  pose proof (run_listeners events) as [Hlnd Hreg]. rewrite Hc in Hl.
  destruct (existsb is_end events) eqn:He.
  { destruct e; cbn; unfold tr_notify, tr_close; rewrite ?Hc; by split_and!. }
  assert (l_called (transport_run events) = []) as Hnil.
  { destruct (l_called (transport_run events)) as [|x xs] eqn:Hx; [done|].
    destruct (proj1 (Hl x)) as [? _]; [by left|done]. }
  rewrite (before_end_open _ He) in Hk.
  destruct e; cbn; unfold tr_notify, tr_close; rewrite ?Hc; cbn; rewrite ?Hnil; cbn [app].
  - split_and!; [done|done| |done]. intros l. rewrite Hreg. naive_solver.
  - rewrite List.filter_app, length_app, Hk. cbn. split_and!; [done|constructor| |lia].
    intros l. split; [by intros []%elem_of_nil|by intros [? _]].
  - rewrite List.filter_app, length_app, Hk. cbn. split_and!; [done|constructor| |lia].
    intros l'. split; [by intros []%elem_of_nil|by intros [? _]].
  - rewrite List.filter_app, length_app, Hk. cbn. split_and!; [done|constructor| |lia].
    intros l'. split; [by intros []%elem_of_nil|by intros [? _]].
Qed.
