(* ===== verification/BridgeStream.v ===== *)
(** * BridgeStream

    The composition of [ServerFrameDecoder] and [BridgeClient] in
    [src/src/infrastructure/codex-bridge/client.ts]: the bytes the bridge
    writes arrive in chunks, each is pushed to the decoder, and the validated
    values it returns are routed as messages ([#receive], [#outputEnded]). *)

From S2P Require Import Prelude Protocol BridgeClient.

(** ** A validated value as a message *)

Definition as_string (v : jsval) : option string := match v with VStr s => Some s | _ => None end.
Definition as_integer (v : jsval) : option Z := match v with VNum n => num_integer n | _ => None end.
Definition as_strings (v : jsval) : option (list string) :=
  match v with VArr items => mapM as_string items | _ => None end.

Definition handshake_of (v : jsval) : option BridgeHandshake :=
  match v with
  | VObj fs =>
      version ← as_integer (field fs "bridgeProtocolVersion");
      codexVersion ← as_string (field fs "officialCodexVersion");
      tag ← as_string (field fs "officialCodexTag");
      sourceCommit ← as_string (field fs "officialSourceCommit");
      target ← as_string (field fs "buildTarget");
      buildCommit ← as_string (field fs "buildSourceCommit");
      vendor ← as_string (field fs "vendorTreeSha256");
      frameBytes ← as_integer (field fs "maxFrameBytes");
      events ← as_integer (field fs "maxPendingEvents");
      caps ← as_strings (field fs "capabilities");
      Some {| bridgeProtocolVersion := version; officialCodexVersion := codexVersion; officialCodexTag := tag;
              officialSourceCommit := sourceCommit; buildTarget := target; buildSourceCommit := buildCommit;
              vendorTreeSha256 := vendor; maxFrameBytes := frameBytes; maxPendingEvents := events;
              capabilities := caps |}
  | _ => None
  end.

(** [None] for a value of another shape, which the validator does not accept. *)
Definition server_message (v : jsval) : option ServerMessage :=
  match v with
  | VObj fs =>
      type ← as_string (field fs "type");
      let id := as_string (field fs "requestId") in
      if String.eqb type "handshake" then
        id ← id; handshake ← handshake_of (field fs "handshake"); Some (m_handshake id handshake)
      else if String.eqb type "event" then
        id ← id; sequence ← as_integer (field fs "sequence"); Some (m_event id sequence (field fs "event"))
      else if String.eqb type "result" then
        id ← id; status ← as_string (field fs "status"); Some (m_result id status (field fs "result"))
      else if String.eqb type "error" then Some (m_error id (field fs "error"))
      else if String.eqb type "approval_request" then
        id ← id; Some (m_approval_request id (field fs "approval"))
      else if String.eqb type "backpressure" then
        state ← as_string (field fs "state");
        events ← as_integer (field fs "pendingEvents");
        capacity ← as_integer (field fs "capacity");
        Some (m_backpressure id state events capacity)
      else None
  | _ => None
  end.

Definition messages_of (values : list jsval) : list ServerMessage := omap server_message values.

(** ** The connection *)

Record connection := { cn_decoder : ServerFrameDecoder; cn_client : client }.

Section stream.
Context (Check_ : schema → jsval → bool) (parse_json : bytes → option jsval).
Context (target : string) (options : HandshakeVerificationOptions).

Definition new_connection (requestId : string) : connection :=
  {| cn_decoder := new_decoder; cn_client := connecting requestId |}.

(** [#receive]: a closed client does not push the chunk. *)
Definition receive_chunk (chunk : bytes) (s : connection) : connection :=
  if closed (cn_client s) then s else
  let '(result, d) := push Check_ parse_json chunk (cn_decoder s) in
  {| cn_decoder := d;
     cn_client := receive target options
       (match result with Ret values => Ret (messages_of values) | Throw e => Throw e end) (cn_client s) |}.

(** [#outputEnded]: what is left in the decoder is a partial frame. *)
Definition output_ended (s : connection) : connection :=
  let '(result, d) := finish (cn_decoder s) in
  {| cn_decoder := d;
     cn_client := apply_input target options
       (i_output_ended (match result with Ret _ => false | Throw _ => true end)) (cn_client s) |}.

(** What happens to a connection: a chunk, the end of the output, or an input
    of the client that does not come from the bridge's output. *)
Inductive stream_event :=
| se_chunk (chunk : bytes)
| se_end
| se_other (i : input).

(** The inputs [se_other] stands for. *)
Definition is_local (i : input) : bool :=
  match i with i_receive _ | i_output_ended _ => false | _ => true end.

Definition stream_step (e : stream_event) (s : connection) : connection :=
  match e with
  | se_chunk chunk => receive_chunk chunk s
  | se_end => output_ended s
  | se_other i =>
      if is_local i
      then {| cn_decoder := cn_decoder s; cn_client := apply_input target options i (cn_client s) |} else s
  end.

Definition stream_run (events : list stream_event) (s : connection) : connection :=
  fold_left (λ s e, stream_step e s) events s.
End stream.
