(* ===== verification/BridgeStreamFacts.v ===== *)
(** * BridgeStreamFacts

    The decoder and the client together: every value the validator accepts is
    a message, the way the bytes are cut into chunks does not show, and every
    answer the application gets was written by the bridge. *)

From Stdlib Require Import Lia Strings.Byte.
From S2P Require Import Prelude Protocol ProtocolFacts BridgeClient BridgeClientFacts.
From S2P Require Import BridgeControl BridgeControlFacts BridgeStream.

(** ** Accepted values are messages *)

Lemma required_conforms properties fs k s :
  conforms (SObject properties) (VObj fs) = true → (k, false, s) ∈ properties →
  conforms s (field fs k) = true.
Proof.
  intros (fs' & [= <-] & Hp & _)%object_conforms Hin. specialize (Hp k false s Hin). by case_decide.
Qed.

Lemma string_conforms lo hi v : conforms (SString lo hi) v = true → ∃ t, as_string v = Some t.
Proof. destruct v; try done. by eexists. Qed.
Lemma hex_conforms n v : conforms (SHex n) v = true → ∃ t, as_string v = Some t.
Proof. destruct v; try done. by eexists. Qed.
Lemma integer_conforms lo hi v : conforms (SInteger lo hi) v = true → ∃ z, as_integer v = Some z.
Proof. destruct v; try done. cbn. destruct (num_integer n); [by eexists|done]. Qed.
Lemma literals_conform ls v : conforms (literals ls) v = true → ∃ t, as_string v = Some t.
Proof.
  unfold literals. cbn [conforms]. rewrite existsb_exists. intros (s & Hs & Hc).
  apply list_elem_of_In, list_elem_of_fmap in Hs as (t & -> & _). apply literal_conforms in Hc as ->. by exists t.
Qed.
Lemma commit_conforms v : conforms (SUnion [SHex 40; SLiteral "development"]) v = true → ∃ t, as_string v = Some t.
Proof. destruct v; try done. by eexists. Qed.
Lemma strings_conform ls lo v : conforms (SArray (literals ls) lo) v = true → ∃ l, as_strings v = Some l.
Proof.
  destruct v as [| | | | |items| |]; try done. cbn [conforms as_strings].
  rewrite !andb_true_iff, forallb_forall. intros [[_ Hall] _].
  destruct (mapM as_string items) as [l|] eqn:Hm; [by exists l|exfalso].
  apply mapM_None_1, Exists_exists in Hm as (x & Hx & Hn).
  apply list_elem_of_In, Hall, literals_conform in Hx as (t & Ht). congruence.
Qed.

(** One rewrite per required property of the object, by its schema. *)
Ltac take_property Hobj k s :=
  let H := fresh in
  pose proof (required_conforms _ _ k s Hobj) as H;
  specialize (H ltac:(unfold req; rewrite !elem_of_cons; by repeat first [left; reflexivity|right]));
  first [ apply string_conforms in H | apply hex_conforms in H | apply integer_conforms in H
        | apply commit_conforms in H | apply strings_conform in H | apply literals_conform in H ];
  let x := fresh "x" in destruct H as [x H]; rewrite H; cbn [mbind option_bind].

Lemma handshake_conforms v : conforms HandshakeSchema v = true → ∃ h, handshake_of v = Some h.
Proof.
  intros Hv. pose proof Hv as (fs & -> & _ & _)%object_conforms. cbn [handshake_of].
  take_property Hv "bridgeProtocolVersion" (SInteger 0 (Some 4294967295%Z)).
  take_property Hv "officialCodexVersion" (SString (Some 1%Z) None).
  take_property Hv "officialCodexTag" (SString (Some 1%Z) None).
  take_property Hv "officialSourceCommit" (SHex 40).
  take_property Hv "buildTarget" (text 1 256).
  take_property Hv "buildSourceCommit" (SUnion [SHex 40; SLiteral "development"]).
  take_property Hv "vendorTreeSha256" (SHex 64).
  take_property Hv "maxFrameBytes" (SInteger 1 None).
  take_property Hv "maxPendingEvents" (SInteger 1 (Some 4294967295%Z)).
  take_property Hv "capabilities" (SArray BridgeCapability 0).
  by eexists.
Qed.

Lemma accepted_is_message v : conforms ServerMessageSchema v = true → ∃ m, server_message v = Some m.
Proof.
  unfold ServerMessageSchema. cbn [conforms]. rewrite existsb_exists. intros (s & Hs & Hv).
  apply list_elem_of_In, list_elem_of_fmap in Hs as ([type properties] & -> & Hin). cbn [fst snd] in Hv.
  pose proof Hv as (fs & -> & _ & _)%object_conforms. cbn [server_message].
  assert (Htype : field fs "type" = VStr type)
    by (apply literal_conforms, (required_conforms _ _ _ _ Hv); by left).
  rewrite Htype. cbn [as_string mbind option_bind]. clear Htype.
  unfold server_alternatives in Hin. rewrite !elem_of_cons, elem_of_nil in Hin.
  destruct Hin as [[= -> ->]|[[= -> ->]|[[= -> ->]|[[= -> ->]|[[= -> ->]|[[= -> ->]|[]]]]]]]; cbn [String.eqb Ascii.eqb Bool.eqb].
  - take_property Hv "requestId" RequestId.
    pose proof (required_conforms _ _ "handshake" HandshakeSchema Hv ltac:(right; right; by left)) as Hh.
    apply handshake_conforms in Hh as [h ->]. by eexists.
  - take_property Hv "requestId" RequestId. take_property Hv "sequence" Sequence. by eexists.
  - take_property Hv "requestId" RequestId. take_property Hv "status" TerminalStatus. by eexists.
  - by eexists.
  - take_property Hv "requestId" RequestId. by eexists.
  - take_property Hv "state" (literals ["paused"; "resumed"]).
    take_property Hv "pendingEvents" (SInteger 0 (Some 4294967295%Z)).
    take_property Hv "capacity" (SInteger 1 (Some 4294967295%Z)). by eexists.
Qed.

(** ** A closed client routes nothing *)

Section stream.
Context (Check_ : schema → jsval → bool) (parse_json : bytes → option jsval).
Context (target : string) (options : HandshakeVerificationOptions).
Local Abbreviation route_ := (route target options).
Local Abbreviation chunk_ := (receive_chunk Check_ parse_json target options).
Local Abbreviation read := (read_stream Check_ parse_json).

Definition unsettled (c : client) : bool :=
  match handshake c with Some {| hs_state := hs_waiting |} => true | _ => false end.
Definition dead (c : client) : Prop := closed c = true ∧ ready c = false ∧ unsettled c = false.

Lemma settle_handshake_settled s c : s ≠ hs_waiting → unsettled (settle_handshake s c) = false.
Proof.
  intros Hs. unfold unsettled, settle_handshake.
  destruct (handshake c) as [[id []]|] eqn:Hh; cbn; rewrite ?Hh; by destruct s.
Qed.

Lemma rejectAll_flags e c :
  closed (rejectAll e c) = closed c ∧ ready (rejectAll e c) = ready c ∧ unsettled (rejectAll e c) = false.
Proof.
  unfold rejectAll. induction (map_to_list (pending c)).*1 as [|id ids IH]; cbn [foldr].
  - destruct (settle_handshake_frame (hs_rejected e) c) as (_ & _ & _ & Hc & _ & Hr).
    split_and!; [done|done|by apply settle_handshake_settled].
  - unfold rejectPending, unsettled in *.
    destruct (settle_flags id (rejected e) (foldr (λ id c, settle_pending id (rejected e) c)
      (settle_handshake (hs_rejected e) c) ids)) as (-> & -> & _ & -> & _). exact IH.
Qed.

Lemma fail_dead e c : closed c = false → dead (fail e c).
Proof.
  intros Hc. unfold fail, dead. rewrite Hc.
  destruct (rejectAll_flags e (with_flags false (closing c) true c)) as (-> & -> & ->). done.
Qed.

Lemma settled_handshake_id s c : unsettled c = false → settle_handshake s c = c.
Proof. unfold unsettled, settle_handshake. by destruct (handshake c) as [[id []]|]. Qed.

Lemma route_dead m c : dead c → route_ m c = c.
Proof.
  intros (Hc & Hr & Hh). unfold route, routeHandshake. rewrite Hr. cbn [negb].
  assert (∀ e, fail e c = c) as Hf by (intros e; unfold fail; by rewrite Hc).
  assert (∀ s, settle_handshake s c = c) as Hs by (intros s; by apply settled_handshake_id).
  destruct (handshake c); [|apply Hf]. repeat case_match; apply Hs.
Qed.

Lemma routes_dead ms c : dead c → fold_left (λ c m, route_ m c) ms c = c.
Proof. intros Hc. induction ms as [|m ms IH]; [done|]. cbn. by rewrite route_dead. Qed.

Lemma route_open m c : closed c = false → closed (route_ m c) = false ∨ dead (route_ m c).
Proof.
  intros Hc.
  assert (∀ id s, closed (settle_pending id s c) = false) as Hp
    by (intros id s; by destruct (settle_flags id s c) as [-> _]).
  assert (∀ s, closed (settle_handshake s c) = false) as Hs
    by (intros s; by destruct (settle_handshake_frame s c) as (_ & _ & _ & -> & _)).
  unfold route. destruct (ready c); cbn [negb].
  - destruct m as [i h|i n e|i st r|[i|] e|i a|[i|] st p q]; cbn [message_id];
      try (destruct (is_ignored _ c); [left; unfold drop_ignored; by repeat case_match|]);
      try (right; by apply fail_dead); try (left; by apply Hp);
      destruct (pending c !! i); first [by left|right; by apply fail_dead].
  - unfold routeHandshake. destruct (handshake c); [|right; by apply fail_dead].
    left. repeat case_match; apply Hs.
Qed.

Lemma routes_open ms c : closed c = false →
  let c' := fold_left (λ c m, route_ m c) ms c in closed c' = false ∨ dead c'.
Proof.
  revert c. induction ms as [|m ms IH]; intros c Hc; [by left|]. cbn [fold_left].
  destruct (route_open m c Hc) as [Ho|Hd]; [by apply IH|]. right. by rewrite routes_dead.
Qed.

(** ** Chunks *)

Lemma chunk_closed cs s : closed (cn_client s) = true → fold_left (λ s c, chunk_ c s) cs s = s.
Proof.
  intros Hs. induction cs as [|c cs IH]; [done|]. cbn [fold_left]. unfold receive_chunk. by rewrite Hs.
Qed.

(** What an open connection makes of a chunk. *)
Lemma chunk_open chunk s :
  closed (cn_client s) = false → decoder_wf (cn_decoder s) →
  decoder_wf (cn_decoder (chunk_ chunk s)) ∧
  match read (concat (chunks (cn_decoder s))) chunk with
  | Ret (vs, rest) =>
      cn_client (chunk_ chunk s) = fold_left (λ c m, route_ m c) (messages_of vs) (cn_client s) ∧
      concat (chunks (cn_decoder (chunk_ chunk s))) = rest
  | Throw _ => closed (cn_client (chunk_ chunk s)) = true
  end.
Proof.
  intros Ho Hwf. unfold receive_chunk. rewrite Ho.
  destruct (push_spec Check_ parse_json chunk (cn_decoder s) Hwf) as [Hwf' Hag].
  destruct (push Check_ parse_json chunk (cn_decoder s)) as [result d]. cbn [fst snd cn_decoder cn_client] in *.
  split; [done|]. unfold receive. rewrite Ho.
  destruct (read _ chunk) as [[vs rest]|e]; [by destruct Hag as [-> <-]|]. injection Hag as -> ->.
  by destruct (fail_dead (BridgeConnectionError protocol_failure) (cn_client s) Ho).
Qed.

Lemma chunks_open cs s :
  closed (cn_client s) = false → decoder_wf (cn_decoder s) →
  let s' := fold_left (λ s c, chunk_ c s) cs s in
  match read (concat (chunks (cn_decoder s))) (concat cs) with
  | Ret (vs, rest) =>
      cn_client s' = fold_left (λ c m, route_ m c) (messages_of vs) (cn_client s) ∧
      (closed (cn_client s') = false → concat (chunks (cn_decoder s')) = rest)
  | Throw _ => closed (cn_client s') = true
  end.
Proof.
  revert s. induction cs as [|c cs IH]; intros s Ho Hwf; [by split|]. cbn [concat fold_left].
  rewrite read_stream_app. destruct (chunk_open c s Ho Hwf) as [Hwf' Hc].
  destruct (read (concat (chunks (cn_decoder s))) c) as [[vs rest]|e]; cbn [mbind outcome_bind];
    [|by rewrite chunk_closed].
  destruct Hc as [Hcl Hrest].
  destruct (routes_open (messages_of vs) (cn_client s) Ho) as [Ho'|Hd]; cbv zeta in *; rewrite <- Hcl in *.
  - specialize (IH (chunk_ c s) Ho' Hwf'). cbv zeta in IH. rewrite Hrest in IH.
    destruct (read rest (concat cs)) as [[vs' rest']|e]; cbn [mbind outcome_bind]; [|done].
    unfold messages_of. rewrite omap_app, fold_left_app. fold (messages_of vs). rewrite <- Hcl. exact IH.
  - rewrite chunk_closed by apply Hd.
    destruct (read rest (concat cs)) as [[vs' rest']|e]; cbn [mbind outcome_bind]; [|apply Hd].
    unfold messages_of. rewrite omap_app, fold_left_app. fold (messages_of vs) (messages_of vs').
    rewrite <- Hcl, routes_dead by done. split; [done|]. destruct Hd as [-> _]. done.
Qed.
End stream.

(** ** Whole runs *)

Section runs.
Context (Check_ : schema → jsval → bool) (parse_json : bytes → option jsval).
Context (target : string) (options : HandshakeVerificationOptions).
Local Abbreviation step_ := (stream_step Check_ parse_json target options).
Local Abbreviation run_ := (stream_run Check_ parse_json target options).
Local Abbreviation read := (read_stream Check_ parse_json).

(** The bytes the bridge wrote. *)
Definition wire (events : list stream_event) : bytes :=
  events ≫= λ e, match e with se_chunk chunk => chunk | _ => [] end.

Lemma fail_closed e c : closed (fail e c) = true.
Proof. destruct (closed c) eqn:Hc; [unfold fail; by rewrite Hc|by destruct (fail_dead e c Hc)]. Qed.

Lemma settle_closed id s c : closed (settle_pending id s c) = closed c.
Proof. by destruct (settle_flags id s c). Qed.

Lemma ignore_closed id c : closed c = true → closed (ignoreLateMessages id c) = true.
Proof. intros Hc. unfold ignoreLateMessages. case_match; [apply fail_closed|done]. Qed.

Lemma control_closed id signal c : closed c = true → controlRequest id signal false c = None.
Proof. intros Hc. unfold controlRequest, requireReady, isReady. rewrite Hc. by destruct (ready c). Qed.

(** A closed client stays closed. *)
Lemma local_closed i c : is_local i = true → closed c = true → closed (apply_input target options i c) = true.
Proof.
  intros Hi Hc. destruct i as [id sg|id sg|id cid|id|id e|d|id ok| |e|t| |id sg| |]; try done; cbn [apply_input].
  - unfold request, requireReady, isReady. rewrite Hc. by destruct (ready c).
  - by rewrite control_closed.
  - unfold abort. destruct (pending c !! id) as [[control []]|]; try done.
    assert (closed (ignoreLateMessages id (rejectPending id AbortError c)) = true) as Hcl
      by (apply ignore_closed; unfold rejectPending; by rewrite settle_closed).
    destruct control; [done|]. by rewrite control_closed.
  - unfold control_timed_out. destruct (pending c !! id) as [[[] ?]|]; try done.
    apply ignore_closed. unfold rejectPending. by rewrite settle_closed.
  - unfold rejectPending. by rewrite settle_closed.
  - unfold run_task. destruct (chains c !! id) as [[|t ts]|]; try done.
    destruct t as [ack|st r]; [|unfold resolvePending; by rewrite settle_closed].
    destruct ok; cbn [negb]; [|apply fail_closed]. destruct ack; [|done]. cbn [closed with_chains]. rewrite Hc. apply fail_closed.
  - by destruct (settle_handshake_frame (hs_rejected (BridgeConnectionError handshake_timeout)) c) as (_ & _ & _ & -> & _).
  - unfold initialized. destruct (handshake c) as [h|]; [|done]. destruct e; [apply fail_closed|].
    destruct (hs_state h); [done|done|apply fail_closed].
  - apply fail_closed.
  - unfold shutdown. by rewrite Hc.
  - unfold shutdown_settled. destruct (shutdownRequest c); [|done]. case_bool_decide; [|done].
    unfold close. by rewrite Hc.
  - unfold close. by rewrite Hc.
Qed.

(** A relation of the messages heard to the client that every input keeps. *)
Definition tracks (P : list ServerMessage → client → Prop) : Prop :=
  ∀ ms i c, P ms c → P (ms ++ heard [i]) (apply_input target options i c).

Context (P : list ServerMessage → client → Prop) (Htracks : tracks P).

(** What holds between the events of a run: the messages routed were read from
    the bytes written, all of them as long as the client is open. *)
Record faithful (bytes_ : bytes) (s : connection) : Prop := {
  fa_decoder : decoder_wf (cn_decoder s);
  fa_read : ∃ pre vs rest,
    pre `prefix_of` bytes_ ∧ read [] pre = Ret (vs, rest) ∧ P (messages_of vs) (cn_client s) ∧
    (closed (cn_client s) = false → pre = bytes_ ∧ concat (chunks (cn_decoder s)) = rest) }.

Lemma chunk_faithful b chunk s : faithful b s → faithful (b ++ chunk) (receive_chunk Check_ parse_json target options chunk s).
Proof.
  intros [Hwf (pre & vs & rest & Hpre & Hread & Hs & Hopen)]. destruct (closed (cn_client s)) eqn:Hc.
  { unfold receive_chunk. rewrite Hc. split; [done|]. exists pre, vs, rest.
    split_and!; [by apply prefix_app_r|done|done|]. by rewrite Hc. }
  destruct (Hopen eq_refl) as [-> Hrest].
  destruct (chunk_open Check_ parse_json target options chunk s Hc Hwf) as [Hwf' Hch]. split; [done|].
  rewrite Hrest in Hch. destruct (read rest chunk) as [[vs' rest']|e] eqn:Hr.
  - destruct Hch as [Hcl Hrest']. exists (b ++ chunk), (vs ++ vs'), rest'.
    split_and!; [done|by rewrite read_stream_app, Hread; cbn [mbind outcome_bind]; rewrite Hr| |done].
    rewrite Hcl. unfold messages_of. rewrite omap_app. fold (messages_of vs) (messages_of vs').
    pose proof (Htracks (messages_of vs) (i_receive (Ret (messages_of vs'))) _ Hs) as Hs'. cbn [apply_input] in Hs'.
    unfold receive in Hs'. rewrite Hc in Hs'. cbn [heard mbind list_bind] in Hs'. by rewrite app_nil_r in Hs'.
  - exists b, vs, rest. split_and!; [by apply prefix_app_r|done| |by rewrite Hch].
    unfold receive_chunk. rewrite Hc. destruct (push Check_ parse_json chunk (cn_decoder s)) as [result d] eqn:Hp.
    pose proof (push_spec Check_ parse_json chunk (cn_decoder s) Hwf) as [_ Hag].
    rewrite Hp, Hrest, Hr in Hag. injection Hag as -> ->. cbn [cn_client].
    pose proof (Htracks (messages_of vs) (i_receive (Throw e)) _ Hs) as Hs'. cbn in Hs'. by rewrite app_nil_r in Hs'.
Qed.

Lemma tracks_end ms c truncated : P ms c → P ms (apply_input target options (i_output_ended truncated) c).
Proof. intros HP. pose proof (Htracks ms (i_output_ended truncated) c HP) as H'. by rewrite app_nil_r in H'. Qed.

Lemma end_faithful b s : faithful b s → faithful b (output_ended target options s).
Proof.
  intros [Hwf (pre & vs & rest & Hpre & Hread & Hs & _)]. unfold output_ended, finish.
  destruct (bool_decide (pendingBytes (cn_decoder s) = 0%Z)); cbn [cn_decoder cn_client apply_input];
    (split; [first [done|apply new_decoder_wf]|]); exists pre, vs, rest;
    (split_and!; [done|done|first [exact (tracks_end _ _ true Hs)|exact (tracks_end _ _ false Hs)]
                 |by cbn [cn_client]; rewrite fail_closed]).
Qed.

Lemma local_faithful i b s : is_local i = true → faithful b s →
  faithful b {| cn_decoder := cn_decoder s; cn_client := apply_input target options i (cn_client s) |}.
Proof.
  intros Hi [Hwf (pre & vs & rest & Hpre & Hread & Hs & Hopen)]. split; [done|]. exists pre, vs, rest.
  split_and!; [done|done| |].
  - pose proof (Htracks _ i _ Hs) as Hs'. cbn [cn_client].
    assert (heard [i] = []) as Hh by (by destruct i). by rewrite Hh, app_nil_r in Hs'.
  - cbn [cn_client cn_decoder]. intros Ho. apply Hopen. destruct (closed (cn_client s)) eqn:Hc; [|done].
    by rewrite (local_closed i _ Hi Hc) in Ho.
Qed.

Lemma run_faithful events b s : faithful b s → faithful (b ++ wire events) (run_ events s).
Proof.
  revert b s. induction events as [|e events IH]; intros b s Hs; [by rewrite app_nil_r|].
  change (wire (e :: events)) with (wire ([e] ++ events)). unfold wire at 1. rewrite bind_app, app_assoc.
  apply IH. destruct e as [chunk| |i]; cbn [mbind list_bind]; rewrite ?app_nil_r.
  - by apply chunk_faithful.
  - by apply end_faithful.
  - cbn [stream_step]. destruct (is_local i) eqn:Hi; [by apply local_faithful|done].
Qed.

Lemma new_faithful first : P [] (connecting first) → faithful [] (new_connection first).
Proof.
  intros HP. split; [apply new_decoder_wf|]. exists [], [], []. by split_and!.
Qed.
End runs.

(** A whole run, from the start. *)
Lemma run_tracked Check_ parse_json target options P first events :
  tracks target options P → P [] (connecting first) →
  faithful Check_ parse_json P (wire events)
    (stream_run Check_ parse_json target options events (new_connection first)).
Proof. intros Ht HP. apply (run_faithful Check_ parse_json target options P Ht events []), new_faithful, HP. Qed.

Lemma run_sourced_faithful Check_ parse_json target options first events :
  faithful Check_ parse_json sourced (wire events)
    (stream_run Check_ parse_json target options events (new_connection first)).
Proof. apply run_tracked; [|apply connecting_sourced]. intros ms i c. apply apply_sourced. Qed.

(** A completed result, as it was written. *)
Definition completed_frame (id : string) (result v : jsval) : Prop :=
  ∃ fs, v = VObj fs ∧ field fs "type" = VStr "result" ∧ field fs "requestId" = VStr id ∧
        field fs "status" = VStr "completed" ∧ field fs "result" = result.

Lemma as_string_Some v t : as_string v = Some t → v = VStr t.
Proof. destruct v; try done. by intros [= ->]. Qed.

Lemma completed_frame_of id result v :
  server_message v = Some (m_result id "completed" result) → completed_frame id result v.
Proof.
  destruct v as [| | | | | |fs|]; try done. cbn [server_message]. intros Hm.
  apply bind_Some in Hm as (type & Ht & Hm). cbv zeta in Hm.
  repeat (match type of Hm with (if String.eqb ?a ?b then _ else _) = _ =>
            destruct (String.eqb_spec a b) as [->|_] end);
    repeat (let x := fresh in let Hx := fresh in apply bind_Some in Hm as (x & Hx & Hm)); try done.
  simplify_eq. repeat match goal with H : as_string _ = Some _ |- _ => apply as_string_Some in H end.
  by exists fs.
Qed.

(** Every value read is a message. *)
Lemma decoded_message Check_ parse_json frame v :
  (∀ s v, Check_ s v = conforms s v) → decodeServerFrame Check_ parse_json frame = Ret v →
  is_Some (server_message v).
Proof.
  intros Hdoc. unfold decodeServerFrame. repeat (case_match; try done). intros [= <-].
  apply accepted_is_message. by rewrite <- Hdoc.
Qed.

Lemma read_messages Check_ parse_json pending input vs rest :
  (∀ s v, Check_ s v = conforms s v) → read_stream Check_ parse_json pending input = Ret (vs, rest) →
  Forall (λ v, is_Some (server_message v)) vs.
Proof.
  intros Hdoc. revert pending vs. induction input as [|b input IH]; intros pending vs; cbn [read_stream].
  { by intros [= <- <-]. }
  case_bool_decide.
  - destruct (decodeServerFrame _ _ _) as [v|e] eqn:Hd; [|done]. cbn [mbind outcome_bind].
    destruct (read_stream _ _ [] input) as [[ms r]|e] eqn:Hr; [|done]. intros [= <- <-].
    constructor; [by eapply decoded_message|by eapply IH].
  - destruct (overlong _); [done|]. apply IH.
Qed.

(** C6: Where the bytes of the bridge are cut does not show.  Whatever has
    happened on a connection, the chunks that arrive next leave the client as
    if their bytes had been read one by one and every message routed; when the
    bytes are no sequence of valid frames the connection is closed, however
    they are cut; and a connection that is closed ignores them. *)
Theorem chunking_is_invisible Check_ parse_json target options first events cs :
  let s := stream_run Check_ parse_json target options events (new_connection first) in
  let s' := stream_run Check_ parse_json target options (se_chunk <$> cs) s in
  if closed (cn_client s) then s' = s else
  match read_stream Check_ parse_json (concat (chunks (cn_decoder s))) (concat cs) with
  | Ret (vs, rest) =>
      cn_client s' = fold_left (λ c m, route target options m c) (messages_of vs) (cn_client s) ∧
      (closed (cn_client s') = false → concat (chunks (cn_decoder s')) = rest)
  | Throw _ => closed (cn_client s') = true
  end.
Proof.
  intros s s'. assert (s' = fold_left (λ s c, receive_chunk Check_ parse_json target options c s) cs s) as Hs'.
  { unfold s'. generalize s. clear. induction cs as [|c cs IH]; intros s; [done|]. apply IH. }
  assert (decoder_wf (cn_decoder s)) as Hwf
    by apply (run_sourced_faithful Check_ parse_json target options first events).
  rewrite Hs'. destruct (closed (cn_client s)) eqn:Hc; [by apply chunk_closed|by apply chunks_open].
Qed.

(** C7: Nothing is answered that the bridge did not write.  With a validator
    that means what JSON Schema means, every value it accepts is routed as a
    message, none is lost; and whatever chunks, calls, timers, aborts and
    failures a connection sees, in any order, an operation succeeds only if a
    prefix of the bytes written reads as valid frames, one of which is the
    completed result with the identifier and the value of the answer. *)
Theorem answers_come_from_the_bridge Check_ parse_json target options first events :
  (∀ s v, Check_ s v = conforms s v) →
  let s := stream_run Check_ parse_json target options events (new_connection first) in
  (∀ input vs rest pending, read_stream Check_ parse_json pending input = Ret (vs, rest) →
     length (messages_of vs) = length vs) ∧
  ∀ id result, answer id (cn_client s) = Some (Ret result) →
    ∃ written vs rest v, written `prefix_of` wire events ∧
      read_stream Check_ parse_json [] written = Ret (vs, rest) ∧ v ∈ vs ∧ completed_frame id result v.
Proof.
  intros Hdoc s. split.
  - intros input vs rest pending Hr. apply read_messages in Hr; [|done].
    unfold messages_of. induction Hr as [|v vs (m & Hm) _ IH]; [done|]. cbn. rewrite Hm. cbn. by rewrite IH.
  - intros id result Ha%answer_completed.
    destruct (run_sourced_faithful Check_ parse_json target options first events)
      as [_ (pre & vs & rest & Hpre & Hread & Hs & _)].
    apply (so_settled _ _ Hs), list_elem_of_omap in Ha as (v & Hv & Hm).
    exists pre, vs, rest, v. split_and!; [done|done|done|by apply completed_frame_of].
Qed.

(** ** A connection that is made and answers, byte by byte *)

Definition sample_handshake_value : jsval := VObj [
  ("type", VStr "handshake"); ("requestId", VStr "h");
  ("handshake", VObj [
     ("bridgeProtocolVersion", VNum BRIDGE_PROTOCOL_VERSION);
     ("officialCodexVersion", VStr OFFICIAL_CODEX_VERSION);
     ("officialCodexTag", VStr OFFICIAL_CODEX_TAG);
     ("officialSourceCommit", VStr OFFICIAL_SOURCE_COMMIT);
     ("buildTarget", VStr "t"); ("buildSourceCommit", VStr "development");
     ("vendorTreeSha256", VStr VENDOR_TREE_SHA256);
     ("maxFrameBytes", VNum MAX_FRAME_BYTES); ("maxPendingEvents", VNum MAX_PENDING_EVENTS);
     ("capabilities", VArr [VStr "context_estimation"])])].
Definition sample_result_value : jsval := VObj [
  ("type", VStr "result"); ("requestId", VStr "a"); ("status", VStr "completed"); ("result", VBool true)].

(** A JSON text of one letter for each of the two. *)
Definition sample_parse (b : bytes) : option jsval :=
  match b with
  | [x68] => Some sample_handshake_value
  | [x72] => Some sample_result_value
  | _ => None
  end.

Definition sample_run : list stream_event :=
  [se_chunk [x68]; se_chunk [CR; LF]; se_other (i_initialized false); se_other (i_request "a" None);
   se_chunk [x72; LF; x72]; se_other (i_task "a" true); se_end].

Lemma answers_come_from_the_bridge_witness :
  let s := stream_run conforms sample_parse "t" sample_options sample_run (new_connection "h") in
  answer "a" (cn_client s) = Some (Ret (VBool true)) ∧
  ∃ written vs rest v, written `prefix_of` wire sample_run ∧
    read_stream conforms sample_parse [] written = Ret (vs, rest) ∧ v ∈ vs ∧
    completed_frame "a" (VBool true) v.
Proof.
  intros s. assert (answer "a" (cn_client s) = Some (Ret (VBool true))) as Ha by (vm_compute; reflexivity).
  split; [exact Ha|].
  exact (proj2 (answers_come_from_the_bridge conforms sample_parse "t" sample_options "h" sample_run
    (λ s v, eq_refl)) "a" (VBool true) Ha).
Defined.
