(* ===== verification/JsRegex.v ===== *)
(** * JsRegex

    The regular expressions of the language that the modelled code replaces
    with: classes, greedy and lazy repetitions of a class, alternatives, options,
    word boundaries and a one-unit look-behind.  [rmatch] is the backtracking
    matcher of the language, in continuation-passing style: it prefers the
    earlier alternative and the longer repetition, and gives up a choice when
    what follows fails.  [replace] is [String.prototype.replace] with a global
    pattern that has one group. *)

From Stdlib Require Import Lia.
From S2P Require Import Prelude Render.

Inductive regex :=
| REmpty
| RUnit (f : ascii → bool)
| RMany (min : nat) (f : ascii → bool)
| RLazy (f : ascii → bool)
| RSeq (a b : regex)
| RAlt (a b : regex)
| ROpt (a : regex)
| RBoundary
| RNotAfter (f : ascii → bool).

Definition in_range (lo hi : N) (c : ascii) : bool := bool_decide (lo ≤ unit_of c ∧ unit_of c ≤ hi)%N.
Definition is_alpha (c : ascii) : bool := in_range 65 90 c || in_range 97 122 c.
Definition is_digit (c : ascii) : bool := in_range 48 57 c.
(** [\w]. *)
Definition is_word (c : ascii) : bool := is_alpha c || is_digit c || Ascii.eqb c "_".

(** A unit of a set, and one not in it. *)
Definition one_of (set : string) (c : ascii) : bool := str_exists (Ascii.eqb c) set.
Definition none_of (set : string) (c : ascii) : bool := negb (one_of set c).

Definition word_at (o : option ascii) : bool := match o with Some c => is_word c | None => false end.
Definition first_unit (s : string) : option ascii := match s with String c _ => Some c | EmptyString => None end.

Section matcher.
Context {A : Type}.
Abbreviation cont := (option ascii → string → option A).

Fixpoint many (min : nat) (f : ascii → bool) (prev : option ascii) (s : string) (k : cont) : option A :=
  let stop := match min with O => k prev s | S _ => None end in
  match s with
  | String c s' =>
      if f c then match many (pred min) f (Some c) s' k with Some x => Some x | None => stop end else stop
  | EmptyString => stop
  end.

(** [f*?]: as few units as what follows allows. *)
Fixpoint lazily (f : ascii → bool) (prev : option ascii) (s : string) (k : cont) : option A :=
  match k prev s with
  | Some x => Some x
  | None =>
      match s with
      | String c s' => if f c then lazily f (Some c) s' k else None
      | EmptyString => None
      end
  end.

Fixpoint rmatch (r : regex) (prev : option ascii) (s : string) (k : cont) : option A :=
  match r with
  | REmpty => k prev s
  | RUnit f => match s with String c s' => if f c then k (Some c) s' else None | EmptyString => None end
  | RMany min f => many min f prev s k
  | RLazy f => lazily f prev s k
  | RSeq a b => rmatch a prev s (λ prev s, rmatch b prev s k)
  | RAlt a b => match rmatch a prev s k with Some x => Some x | None => rmatch b prev s k end
  | ROpt a => match rmatch a prev s k with Some x => Some x | None => k prev s end
  | RBoundary => if xorb (word_at prev) (word_at (first_unit s)) then k prev s else None
  | RNotAfter f => if match prev with Some c => f c | None => false end then None else k prev s
  end.
End matcher.

(** The units of a word, in either case with the flag [i]. *)
Fixpoint literal (s : string) : regex :=
  match s with EmptyString => REmpty | String c s => RSeq (RUnit (Ascii.eqb c)) (literal s) end.
Fixpoint literal_i (s : string) : regex :=
  match s with
  | EmptyString => REmpty
  | String c s => RSeq (RUnit (λ d, Ascii.eqb (lower_unit d) c)) (literal_i s)
  end.
Fixpoint alternatives (rs : list regex) : regex :=
  match rs with [] => RUnit (λ _, false) | [r] => r | r :: rs => RAlt r (alternatives rs) end.

(** [lead] comes before the group, [tail] after it; [text] is the replacement,
    given the text of the group. *)
Record pattern := { lead : regex; group : regex; tail : regex; text : string → string }.

(** A match at the start of [s]: the replacement, the last unit matched and
    what follows. *)
Definition match_at (p : pattern) (prev : option ascii) (s : string) : option (string * option ascii * string) :=
  rmatch (lead p) prev s (λ prev s1,
    rmatch (group p) prev s1 (λ prev s2,
      rmatch (tail p) prev s2 (λ prev s3,
        Some (text p (str_take (String.length s1 - String.length s2) s1), prev, s3)))).

(** The fuel is the length of the text: a match takes at least one unit. *)
Fixpoint replace_from (fuel : nat) (p : pattern) (prev : option ascii) (s : string) : string :=
  match fuel, s with
  | S fuel, String c s' =>
      match match_at p prev s with
      | Some (t, prev, rest) => (t ++ replace_from fuel p prev rest)%string
      | None => String c (replace_from fuel p (Some c) s')
      end
  | _, _ => EmptyString
  end.
Definition replace (p : pattern) (s : string) : string := replace_from (String.length s) p None s.

(** [matchAll]: the group of every match, from left to right. *)
Fixpoint matches_from (fuel : nat) (p : pattern) (prev : option ascii) (s : string) : list string :=
  match fuel, s with
  | S fuel, String c s' =>
      match match_at p prev s with
      | Some (t, prev, rest) => t :: matches_from fuel p prev rest
      | None => matches_from fuel p (Some c) s'
      end
  | _, _ => []
  end.
Definition match_all (p : pattern) (s : string) : list string := matches_from (String.length s) p None s.

(** A pattern [^...$], as the list of its parts; a marked part is a group.  The
    texts of the groups, when the pattern matches the whole text. *)
Fixpoint exec_parts (parts : list (bool * regex)) (prev : option ascii) (s : string) (groups : list string)
    : option (list string) :=
  match parts with
  | [] => match s with EmptyString => Some groups | _ => None end
  | (captured, r) :: parts =>
      rmatch r prev s (λ prev' s',
        exec_parts parts prev' s'
          (if captured then groups ++ [str_take (String.length s - String.length s') s] else groups))
  end.
Definition exec_whole (parts : list (bool * regex)) (s : string) : option (list string) := exec_parts parts None s [].
Definition test_whole (parts : list (bool * regex)) (s : string) : bool := bool_decide (is_Some (exec_whole parts s)).

(** ** What a match is *)

Fixpoint last_unit (prev : option ascii) (u : string) : option ascii :=
  match u with EmptyString => prev | String c u => last_unit (Some c) u end.

Fixpoint min_width (r : regex) : nat :=
  match r with
  | RUnit _ => 1
  | RMany min _ => min
  | RSeq a b => min_width a + min_width b
  | RAlt a b => min_width a `min` min_width b
  | REmpty | RLazy _ | ROpt _ | RBoundary | RNotAfter _ => 0
  end.

Lemma last_unit_app prev a b : last_unit prev (a ++ b)%string = last_unit (last_unit prev a) b.
Proof. revert prev. induction a as [|c a IH]; intros prev; [done|]. apply IH. Qed.

(** A match takes a prefix of the text, at least as long as the pattern's
    shortest, and goes on behind it. *)
Lemma many_takes {A} min f prev s (k : option ascii → string → option A) x :
  many min f prev s k = Some x →
  ∃ u s', s = (u ++ s')%string ∧ min ≤ String.length u ∧ k (last_unit prev u) s' = Some x.
Proof.
  assert (∀ min prev s, match min with O => k prev s | S _ => None end = Some x →
    ∃ u s', s = (u ++ s')%string ∧ min ≤ String.length u ∧ k (last_unit prev u) s' = Some x) as Hstop.
  { intros [|m] p t Hk; [|done]. by exists "", t. }
  revert min prev. induction s as [|c s IH]; intros min prev; cbn [many]; [apply Hstop|].
  destruct (f c); [|apply Hstop]. destruct (many (pred min) f (Some c) s k) as [y|] eqn:Hm; [|apply Hstop].
  intros [= ->]. apply IH in Hm as (u & s' & -> & Hl & Hk). exists (String c u), s'.
  split_and!; [done|cbn; lia|done].
Qed.

Lemma lazily_takes {A} f prev s (k : option ascii → string → option A) x :
  lazily f prev s k = Some x → ∃ u s', s = (u ++ s')%string ∧ k (last_unit prev u) s' = Some x.
Proof.
  revert prev. induction s as [|c s IH]; intros prev; cbn [lazily].
  - destruct (k prev "") as [y|] eqn:Hk; [|done]. intros [= ->]. by exists "", "".
  - destruct (k prev (String c s)) as [y|] eqn:Hk; [intros [= ->]; by exists "", (String c s)|].
    destruct (f c); [|done]. intros (u & s' & -> & Hu)%IH. by exists (String c u), s'.
Qed.

Lemma rmatch_takes {A} r prev s (k : option ascii → string → option A) x :
  rmatch r prev s k = Some x →
  ∃ u s', s = (u ++ s')%string ∧ min_width r ≤ String.length u ∧ k (last_unit prev u) s' = Some x.
Proof.
  revert prev s k. induction r as [|f|min f|f|a IHa b IHb|a IHa b IHb|a IHa| |f]; intros prev s k; cbn [rmatch min_width].
  - intros Hk. by exists "", s.
  - destruct s as [|c s]; [done|]. destruct (f c); [|done]. intros Hk. by exists (String c ""), s.
  - apply many_takes.
  - intros (u & s' & -> & Hk)%lazily_takes. exists u, s'. split_and!; [done|lia|done].
  - intros (u & s1 & -> & Hu & Hm)%IHa. apply IHb in Hm as (v & s2 & -> & Hv & Hk).
    exists (u ++ v)%string, s2. rewrite append_assoc, last_unit_app, length_str_app. split_and!; [done|lia|done].
  - destruct (rmatch a prev s k) as [y|] eqn:Ha.
    + intros [= ->]. apply IHa in Ha as (u & s' & -> & ? & ?). exists u, s'. split_and!; [done|lia|done].
    + intros (u & s' & -> & ? & ?)%IHb. exists u, s'. split_and!; [done|lia|done].
  - destruct (rmatch a prev s k) as [y|] eqn:Ha.
    + intros [= ->]. apply IHa in Ha as (u & s' & -> & ? & ?). exists u, s'. split_and!; [done|lia|done].
    + intros Hk. by exists "", s.
  - destruct (xorb _ _); [|done]. intros Hk. by exists "", s.
  - destruct (match prev with Some c => f c | None => false end); [done|]. intros Hk. by exists "", s.
Qed.

(** ** What a pattern accepts

    [lang r u]: the text [u] has the shape of [r]; where it stands is left out. *)

Fixpoint lang (r : regex) (u : string) : Prop :=
  match r with
  | REmpty | RBoundary | RNotAfter _ => u = ""
  | RUnit f => ∃ c, u = String c "" ∧ f c = true
  | RMany min f => min ≤ String.length u ∧ str_forall f u = true
  | RLazy f => str_forall f u = true
  | RSeq a b => ∃ v w, u = (v ++ w)%string ∧ lang a v ∧ lang b w
  | RAlt a b => lang a u ∨ lang b u
  | ROpt a => u = "" ∨ lang a u
  end.

Lemma many_lang {A} min f prev s (k : option ascii → string → option A) x :
  many min f prev s k = Some x →
  ∃ u s' prev', s = (u ++ s')%string ∧ (min ≤ String.length u ∧ str_forall f u = true) ∧ k prev' s' = Some x.
Proof.
  assert (∀ min prev s, match min with O => k prev s | S _ => None end = Some x →
    ∃ u s' prev', s = (u ++ s')%string ∧ (min ≤ String.length u ∧ str_forall f u = true) ∧ k prev' s' = Some x) as Hstop.
  { intros [|m] p t Hk; [|done]. by exists "", t, p. }
  revert min prev. induction s as [|c s IH]; intros min prev; cbn [many]; [apply Hstop|].
  destruct (f c) eqn:Hf; [|apply Hstop]. destruct (many (pred min) f (Some c) s k) as [y|] eqn:Hm; [|apply Hstop].
  intros [= ->]. apply IH in Hm as (u & s' & p & -> & [Hl Hu] & Hk). exists (String c u), s', p.
  split_and!; [done|cbn; lia|by rewrite str_forall_cons, Hf|done].
Qed.

Lemma lazily_lang {A} f prev s (k : option ascii → string → option A) x :
  lazily f prev s k = Some x → ∃ u s' prev', s = (u ++ s')%string ∧ str_forall f u = true ∧ k prev' s' = Some x.
Proof.
  revert prev. induction s as [|c s IH]; intros prev; cbn [lazily].
  - destruct (k prev "") as [y|] eqn:Hk; [|done]. intros [= ->]. by exists "", "", prev.
  - destruct (k prev (String c s)) as [y|] eqn:Hk; [intros [= ->]; by exists "", (String c s), prev|].
    destruct (f c) eqn:Hf; [|done]. intros (u & s' & p & -> & Hu & Hk')%IH. exists (String c u), s', p.
    by rewrite str_forall_cons, Hf.
Qed.

(** What is matched has the shape of the pattern. *)
Lemma rmatch_lang {A} r prev s (k : option ascii → string → option A) x :
  rmatch r prev s k = Some x → ∃ u s' prev', s = (u ++ s')%string ∧ lang r u ∧ k prev' s' = Some x.
Proof.
  revert prev s k. induction r as [|f|min f|f|a IHa b IHb|a IHa b IHb|a IHa| |f]; intros prev s k; cbn [rmatch lang].
  - intros Hk. by exists "", s, prev.
  - destruct s as [|c s]; [done|]. destruct (f c) eqn:Hf; [|done]. intros Hk. exists (String c ""), s, (Some c).
    split_and!; [done|by exists c|done].
  - apply many_lang.
  - apply lazily_lang.
  - intros (u & s1 & p1 & -> & Hu & Hm)%IHa. apply IHb in Hm as (v & s2 & p2 & -> & Hv & Hk).
    exists (u ++ v)%string, s2, p2. rewrite append_assoc. split_and!; [done|by exists u, v|done].
  - destruct (rmatch a prev s k) as [y|] eqn:Ha.
    + intros [= ->]. apply IHa in Ha as (u & s' & p & -> & ? & ?). exists u, s', p. split_and!; [done|by left|done].
    + intros (u & s' & p & -> & ? & ?)%IHb. exists u, s', p. split_and!; [done|by right|done].
  - destruct (rmatch a prev s k) as [y|] eqn:Ha.
    + intros [= ->]. apply IHa in Ha as (u & s' & p & -> & ? & ?). exists u, s', p. split_and!; [done|by right|done].
    + intros Hk. exists "", s, prev. split_and!; [done|by left|done].
  - destruct (xorb _ _); [|done]. intros Hk. by exists "", s, prev.
  - destruct (match prev with Some c => f c | None => false end); [done|]. intros Hk. by exists "", s, prev.
Qed.

Lemma literal_lang w u : lang (literal w) u ↔ u = w.
Proof.
  revert u. induction w as [|c w IH]; intros u; cbn [literal lang]; [done|]. setoid_rewrite IH. split.
  - by intros (v & ? & -> & (d & -> & ->%Ascii.eqb_eq) & ->).
  - intros ->. exists (String c ""), w. split_and!; [done| |done]. exists c. by rewrite Ascii.eqb_refl.
Qed.

(** The texts of the parts of a pattern that matches the whole text. *)
Inductive split_as : list (bool * regex) → string → list string → Prop :=
| split_end : split_as [] "" []
| split_part captured r parts u s groups : lang r u → split_as parts s groups →
    split_as ((captured, r) :: parts) (u ++ s)%string (if captured : bool then u :: groups else groups).

Lemma str_take_app u s : str_take (String.length u) (u ++ s)%string = u.
Proof. induction u as [|c u IH]; [by destruct s|]. cbn. by rewrite IH. Qed.

Lemma exec_parts_split parts prev s before groups :
  exec_parts parts prev s before = Some groups → ∃ more, split_as parts s more ∧ groups = before ++ more.
Proof.
  revert prev s before. induction parts as [|[captured r] parts IH]; intros prev s before; cbn [exec_parts].
  - destruct s; [|done]. intros [= ->]. exists []. rewrite app_nil_r. split; [constructor|done].
  - intros (u & s' & p & -> & Hu & Hk)%rmatch_lang. apply IH in Hk as (more & Hs & ->).
    exists (if captured then u :: more else more). split; [by constructor|]. destruct captured; [|done].
    assert (String.length (u ++ s') - String.length s' = String.length u) as -> by (rewrite length_str_app; lia).
    by rewrite str_take_app, <- app_assoc.
Qed.

Lemma exec_whole_split parts s groups : exec_whole parts s = Some groups → split_as parts s groups.
Proof. intros (more & Hs & ->)%exec_parts_split. done. Qed.

Lemma test_whole_split parts s : test_whole parts s = true → ∃ groups, split_as parts s groups.
Proof. unfold test_whole. rewrite bool_decide_eq_true. intros [groups Hg]. exists groups. by apply exec_whole_split. Qed.

Definition pattern_width (p : pattern) : nat := min_width (lead p) + min_width (group p) + min_width (tail p).

Lemma match_at_takes p prev s t prev' rest :
  match_at p prev s = Some (t, prev', rest) →
  ∃ u, s = (u ++ rest)%string ∧ pattern_width p ≤ String.length u ∧ prev' = last_unit prev u.
Proof.
  unfold match_at, pattern_width. intros (u & s1 & -> & Hu & H)%rmatch_takes.
  apply rmatch_takes in H as (v & s2 & -> & Hv & H). apply rmatch_takes in H as (w & s3 & -> & Hw & H).
  injection H as _ <- <-. exists (u ++ v ++ w)%string.
  rewrite !append_assoc, !last_unit_app, !length_str_app. split_and!; [done|lia|done].
Qed.

(** ** What a replacement is *)

(** From left to right: a unit at which nothing matches is kept, a match is
    replaced as a whole. *)
Inductive replaced (p : pattern) : option ascii → string → string → Prop :=
| replaced_end prev : replaced p prev "" ""
| replaced_keep prev c s t :
    match_at p prev (String c s) = None → replaced p (Some c) s t →
    replaced p prev (String c s) (String c t)
| replaced_match prev u rest t out :
    match_at p prev (u ++ rest)%string = Some (t, last_unit prev u, rest) → u ≠ "" →
    replaced p (last_unit prev u) rest out → replaced p prev (u ++ rest)%string (t ++ out)%string.

Lemma replace_from_replaced p fuel prev s :
  0 < pattern_width p → String.length s ≤ fuel → replaced p prev s (replace_from fuel p prev s).
Proof.
  intros Hp. revert prev s. induction fuel as [|fuel IH]; intros prev s Hs.
  { destruct s; [constructor|cbn in Hs; lia]. }
  destruct s as [|c s]; [constructor|]. cbn [replace_from].
  destruct (match_at p prev (String c s)) as [[[t prev'] rest]|] eqn:Hm.
  - pose proof Hm as (u & Hu & Hw & ->)%match_at_takes. rewrite Hu in Hm, Hs |- *.
    rewrite length_str_app in Hs. apply replaced_match; [done|by intros ->; cbn in Hw; lia|apply IH; lia].
  - cbn in Hs. apply replaced_keep; [done|apply IH; lia].
Qed.

Lemma replace_replaced p s : 0 < pattern_width p → replaced p None s (replace p s).
Proof. intros Hp. by apply replace_from_replaced. Qed.

Lemma replaced_inv p prev s t : replaced p prev s t →
  match s with
  | EmptyString => t = ""
  | String c s' =>
      match match_at p prev s with
      | None => ∃ out, t = String c out ∧ replaced p (Some c) s' out
      | Some (x, prev', rest) => ∃ out, t = (x ++ out)%string ∧ replaced p prev' rest out
      end
  end.
Proof.
  destruct 1 as [prev|prev c s t Hm Hr|prev u rest t out Hm Hu Hr]; [done|rewrite Hm; by exists t|].
  destruct u as [|c u]; [done|]. cbn [append] in *. rewrite Hm. by exists out.
Qed.

(** The replacement is a function of the text: there is only one reading. *)
Lemma replaced_unique p prev s t t' : replaced p prev s t → replaced p prev s t' → t = t'.
Proof.
  intros Ht. revert t'. induction Ht as [prev|prev c s t Hm _ IH|prev u rest t out Hm Hu _ IH]; intros t' Ht'%replaced_inv.
  - done.
  - rewrite Hm in Ht'. destruct Ht' as (out & -> & Hr). f_equal. by apply IH.
  - destruct u as [|c u]; [done|]. cbn [append] in *. rewrite Hm in Ht'.
    destruct Ht' as (out' & -> & Hr). f_equal. by apply IH.
Qed.
