(* ===== verification/Redaction.v ===== *)
(** * Redaction

    [src/src/domain/redaction.ts]: what is removed from texts, by six patterns
    one after the other, and from values, by the names of their keys.  A value
    may share objects and be cyclic; the objects met before are kept in
    [seen]. *)

From Stdlib Require Import Lia.
From S2P Require Import Prelude Render JsRegex.

Definition REDACTED : string := "[REDACTED]".
Definition REDACTED_PATH : string := "[PATH]".
Definition REDACTED_COMPACTION : string := "[COMPACTION]".

(** ** Keys

    The patterns of keys ignore case and have finitely many words, once the
    optional separator [[_-]?] is written out. *)

Definition separated (a b : string) : list string := [a ++ b; a ++ "_" ++ b; a ++ "-" ++ b]%string.

Definition USER_CONTENT_WORDS : list string :=
  ["prompt"; "message"; "messages"; "content"; "input"] ++ separated "input" "preview" ++
  ["chars"] ++ separated "user" "content".
Definition COMPACTION_WORDS : list string :=
  ["compaction"] ++ separated "compaction" "output" ++ ["compacted"] ++ separated "compacted" "items".
Definition CREDENTIAL_WORDS : list string :=
  ["authorization"] ++ separated "api" "key" ++ separated "access" "token" ++ separated "refresh" "token" ++
  separated "id" "token" ++ separated "session" "token" ++ ["token"; "password"; "secret"; "credential"].
Definition PATH_SUFFIXES : list string :=
  ["path"; "file"; "filename"; "dir"; "directory"; "workdir"; "cwd"; "root"].

Definition SENSITIVE_KEY : list string :=
  ["authorization"; "proxyauthorization"; "proxy-authorization"; "x-api-key"] ++ separated "api" "key" ++
  separated "access" "token" ++ separated "refresh" "token" ++ separated "id" "token" ++
  separated "session" "token" ++ ["token"; "password"; "secret"; "credential"; "credentials"] ++
  ["prompt"; "message"; "messages"; "content"; "input"] ++ separated "input" "preview" ++ ["chars"] ++
  separated "user" "content" ++ ["compaction"] ++ separated "compaction" "output" ++
  ["compacted"] ++ separated "compacted" "items".

Fixpoint has_suffix (suffix s : string) : bool :=
  String.eqb s suffix || match s with EmptyString => false | String _ s => has_suffix suffix s end.

Definition containsSensitiveKey (key : string) : bool := js_elem (to_lower key) SENSITIVE_KEY.
Definition isPathKey (key : string) : bool := existsb (λ w, has_suffix w (to_lower key)) PATH_SUFFIXES.
Definition isCredentialKey (key : string) : bool :=
  existsb (λ w, includes w (to_lower key)) CREDENTIAL_WORDS && negb (isPathKey key).
Definition isUserContentKey (key : string) : bool := js_elem (to_lower key) USER_CONTENT_WORDS.
Definition isCompactionKey (key : string) : bool := js_elem (to_lower key) COMPACTION_WORDS.

Definition BACKSLASH : string := String (ascii_of_N 92) "".

(** A drive letter and a home directory, in either case. *)
Definition looks_like_drive (value : string) : bool :=
  match value with
  | String c rest =>
      is_alpha c && (starts_with (":" ++ BACKSLASH ++ "users")%string (to_lower rest) ||
                     starts_with (":" ++ BACKSLASH ++ "home")%string (to_lower rest))
  | EmptyString => false
  end.
Definition looksLikeAbsolutePath (value : string) : bool :=
  existsb (λ p, starts_with p value) ["/home/"; "/Users/"; "/private/"; "/var/folders/"] ||
  looks_like_drive value || starts_with (BACKSLASH ++ BACKSLASH)%string value.

(** ** Texts *)

Definition QUOTES : string := String (ascii_of_N 34) "'`".
Definition BREAKS : string := String (ascii_of_N 13) (String (ascii_of_N 10) "").

Definition key_unit (c : ascii) : bool := is_word c || Ascii.eqb c "-".
Definition token_unit (c : ascii) : bool := is_word c || one_of ".-+/=" c.
Definition path_unit (c : ascii) : bool := negb (is_js_space c) && none_of QUOTES c.

Definition AUTHORIZATION_HEADER : pattern := {|
  lead := RBoundary;
  group := RAlt (literal_i "authorization") (literal_i "proxy-authorization");
  tail := RSeq (RMany 0 is_js_space) (RSeq (RUnit (one_of ":="))
            (RSeq (RMany 0 is_js_space) (RMany 1 (none_of (BREAKS ++ ",;")%string))));
  text := λ name, (name ++ ": [REDACTED]")%string |}.

Definition BEARER_TOKEN : pattern := {|
  lead := RBoundary;
  group := literal_i "bearer";
  tail := RSeq (RMany 1 is_js_space) (RMany 1 token_unit);
  text := λ name, (name ++ " [REDACTED]")%string |}.

(** A pattern whose match is replaced as a whole. *)
Definition whole (lead : regex) (r : regex) (by_ : string) : pattern :=
  {| lead := lead; group := REmpty; tail := r; text := λ _, by_ |}.

Definition API_KEY_LITERAL : pattern :=
  whole RBoundary
    (RSeq (alternatives [RSeq (literal "sk-") (RMany 8 key_unit); RSeq (literal "sk-proj-") (RMany 8 key_unit);
                         RSeq (literal "sk-svcacct-") (RMany 8 key_unit)]) RBoundary) REDACTED.

Definition JWT_LITERAL : pattern :=
  whole RBoundary
    (RSeq (literal "eyJ") (RSeq (RMany 10 key_unit) (RSeq (literal ".") (RSeq (RMany 10 key_unit)
      (RSeq (literal ".") (RSeq (RMany 10 key_unit) RBoundary)))))) REDACTED.

Definition ABSOLUTE_UNIX_PATH : pattern :=
  whole (RNotAfter is_word)
    (RSeq (literal "/") (RSeq (alternatives (literal <$> ["home"; "Users"; "private"; "var/folders"]))
      (RSeq (literal "/") (RMany 1 path_unit)))) REDACTED_PATH.

Definition ABSOLUTE_WINDOWS_PATH : pattern :=
  whole (RNotAfter is_word)
    (RAlt (RSeq (RUnit is_alpha) (RSeq (literal (":" ++ BACKSLASH)%string)
             (RSeq (RAlt (literal "Users") (literal "home"))
                (ROpt (RSeq (literal BACKSLASH) (RMany 1 path_unit))))))
          (RSeq (literal (BACKSLASH ++ BACKSLASH)%string)
             (RSeq (RMany 1 (λ c, path_unit c && none_of BACKSLASH c))
                (RSeq (literal BACKSLASH) (RMany 1 path_unit))))) REDACTED_PATH.

Definition TEXT_PATTERNS : list pattern :=
  [AUTHORIZATION_HEADER; BEARER_TOKEN; API_KEY_LITERAL; JWT_LITERAL; ABSOLUTE_UNIX_PATH; ABSOLUTE_WINDOWS_PATH].

Definition redactText (value : string) : string := fold_left (λ s p, replace p s) TEXT_PATTERNS value.
Definition redactString (value : string) : string := redactText value.

Example redact_header : redactText "authorization: Bearer abc; ok" = "authorization: [REDACTED]; ok".
Proof. vm_compute. reflexivity. Qed.
Example redact_bearer : redactText "got Bearer  a.b-c!" = "got Bearer [REDACTED]!".
Proof. vm_compute. reflexivity. Qed.
Example redact_key : redactText "key sk-12345678-, sk-1234567" = "key [REDACTED]-, sk-1234567".
Proof. vm_compute. reflexivity. Qed.
Example redact_paths : redactText "see '/home/me/x' and a/home/me" = "see '[PATH]' and a/home/me".
Proof. vm_compute. reflexivity. Qed.
Example redact_drive : redactText ("C:" ++ BACKSLASH ++ "Users" ++ BACKSLASH ++ "me x")%string = "[PATH] x".
Proof. vm_compute. reflexivity. Qed.

(** The Unix pattern runs before the Windows one, and does not match behind a
    letter: what follows a bare drive path stays, and a second run finds it. *)
Example redact_mixed :
  let s := ("C:" ++ BACKSLASH ++ "Users/home/me")%string in
  redactText s = "[PATH]/home/me" ∧ redactText (redactText s) = "[PATH][PATH]".
Proof. vm_compute. split; reflexivity. Qed.

(** ** Values *)

Abbreviation loc := positive (only parsing).

Inductive value :=
| u_undefined | u_null
| u_boolean (b : bool) | u_number (n : jsnum) | u_bigint (z : Z)
| u_string (s : string)
| u_function | u_symbol
| u_object (l : loc).

(** [c_record] has what [Object.entries] returns; an array may have holes. *)
Inductive content :=
| c_error (name message : string)
| c_array (items : list (option value))
| c_record (entries : list (string * value)).

(** The result is built afresh, so it is a tree. *)
Inductive redacted :=
| r_undefined | r_null
| r_boolean (b : bool) | r_number (n : jsnum) | r_bigint (z : Z)
| r_string (s : string)
| r_array (items : list (option redacted))
| r_object (fields : list (string * redacted)).

(** [map] and [for] over a list, with the shared set. *)
Fixpoint each {A B} (f : A → gset loc → option (B * gset loc)) (l : list A) (seen : gset loc)
    : option (list B * gset loc) :=
  match l with
  | [] => Some ([], seen)
  | a :: l =>
      '(b, seen) ← f a seen;
      '(bs, seen) ← each f l seen;
      Some (b :: bs, seen)
  end.

(** [result[key] = entry] on a fresh object: [__proto__] is the setter of the
    prototype and makes no property. *)
Definition assigned (fields : list (string * redacted)) : list (string * redacted) :=
  filter (λ kv, kv.1 ≠ "__proto__") fields.

Section redact.
Context (heap : gmap loc content).

(** The object at a location; one that is nowhere has no entries. *)
Definition content_at (l : loc) : content := default (c_record []) (heap !! l).

Definition redactObjectEntry (redactUnknown : value → gset loc → option (redacted * gset loc))
    (key : string) (v : value) (seen : gset loc) : option (redacted * gset loc) :=
  if isCompactionKey key then Some (r_string REDACTED_COMPACTION, seen)
  else if isUserContentKey key || isCredentialKey key then Some (r_string REDACTED, seen)
  else if isPathKey key && match v with u_string s => looksLikeAbsolutePath s | _ => false end
  then Some (r_string REDACTED_PATH, seen)
  else redactUnknown v seen.

(** [None] when the fuel, the depth of the call stack, runs out. *)
Fixpoint redactUnknown (fuel : nat) (v : value) (seen : gset loc) : option (redacted * gset loc) :=
  match v with
  | u_undefined => Some (r_undefined, seen)
  | u_null => Some (r_null, seen)
  | u_string s => Some (r_string (redactText s), seen)
  | u_boolean b => Some (r_boolean b, seen)
  | u_number n => Some (r_number n, seen)
  | u_bigint z => Some (r_bigint z, seen)
  | u_function | u_symbol => Some (r_string REDACTED, seen)
  | u_object l =>
      match fuel with
      | O => None
      | S fuel =>
          match content_at l with
          | c_error name message =>
              Some (r_object [("name", r_string name); ("message", r_string (redactText message))], seen)
          | c_array items =>
              if bool_decide (l ∈ seen) then Some (r_string REDACTED, seen) else
              '(out, seen) ← each (λ item seen, match item with
                  | Some v => '(r, seen) ← redactUnknown fuel v seen; Some (Some r, seen)
                  | None => Some (None, seen)
                  end) items ({[ l ]} ∪ seen);
              Some (r_array out, seen)
          | c_record entries =>
              if bool_decide (l ∈ seen) then Some (r_string REDACTED, seen) else
              '(out, seen) ← each (λ entry seen,
                  '(r, seen) ← redactObjectEntry (redactUnknown fuel) entry.1 entry.2 seen;
                  Some ((entry.1, r), seen)) entries ({[ l ]} ∪ seen);
              Some (r_object (assigned out), seen)
          end
      end
  end.

(** One frame per object of the heap, and one for what is nowhere. *)
Definition redact_fuel : nat := S (size heap).
Definition redactValue (v : value) : option redacted := fst <$> redactUnknown redact_fuel v ∅.
End redact.

(** * Redaction: facts

    Redaction ends on every value, cyclic or not, keeps its shape but for what was
    met before, and leaves nothing under a sensitive key of an object; a text is read by its six patterns in one
    way only. *)

(** ** Keys *)

Lemma js_elem_forallb s l (f : string → bool) : forallb f l = true → js_elem s l = true → f s = true.
Proof. rewrite forallb_forall. intros Hl Hs%js_elem_spec. by apply Hl, list_elem_of_In. Qed.

(** The classes of a key depend on its lower case only. *)
Definition marked_word (w : string) : bool :=
  js_elem w COMPACTION_WORDS || js_elem w USER_CONTENT_WORDS ||
  (existsb (λ x, includes x w) CREDENTIAL_WORDS && negb (existsb (λ x, has_suffix x w) PATH_SUFFIXES)).

Lemma sensitive_key_marked key : containsSensitiveKey key = true →
  isCompactionKey key || isUserContentKey key || isCredentialKey key = true.
Proof. apply (js_elem_forallb _ _ marked_word). vm_compute. reflexivity. Qed.

(** ** What redaction makes of a value *)

Definition marks : list string := [REDACTED; REDACTED_PATH; REDACTED_COMPACTION].
Definition is_mark (r : redacted) : Prop := ∃ s, r = r_string s ∧ s ∈ marks.

(** Everything that is left is an outcome of redaction, and nothing stands
    under a sensitive key of an object but a mark.  What is made of an error has
    the keys [name] and [message], though the second is sensitive in an object: its
    name is left as it is, and its message is redacted text. *)
Inductive safe : redacted → Prop :=
| safe_undefined : safe r_undefined
| safe_null : safe r_null
| safe_boolean b : safe (r_boolean b)
| safe_number n : safe (r_number n)
| safe_bigint z : safe (r_bigint z)
| safe_text s : safe (r_string (redactText s))
| safe_mark s : s ∈ marks → safe (r_string s)
| safe_array items : (∀ r, Some r ∈ items → safe r) → safe (r_array items)
| safe_error name message :
    safe (r_object [("name", r_string name); ("message", r_string (redactText message))])
| safe_object fields :
    (∀ k r, (k, r) ∈ fields → containsSensitiveKey k = true → is_mark r) →
    (∀ k r, (k, r) ∈ fields → safe r) → safe (r_object fields).

Definition safe_item (r : option redacted) : Prop := ∀ x, r = Some x → safe x.
Definition safe_entry (kv : string * redacted) : Prop :=
  (containsSensitiveKey kv.1 = true → is_mark kv.2) ∧ safe kv.2.

Lemma mark_safe s : s ∈ marks → is_mark (r_string s) ∧ safe (r_string s).
Proof. intros Hs. split; [by exists s|by apply safe_mark]. Qed.

(** From left to right, each with what the ones before it met. *)
Inductive threads {A B} (P : A → B → gset loc → gset loc → Prop) : list A → list B → gset loc → gset loc → Prop :=
| threads_nil seen : threads P [] [] seen seen
| threads_cons a b l k seen seen' out :
    P a b seen seen' → threads P l k seen' out → threads P (a :: l) (b :: k) seen out.

Section redacts.
Context (heap : gmap loc content).

(** [redacts v r seen out]: when the objects in [seen] were met before, [r] has the
    shape of [v], its texts redacted, and [out] are the objects met then.  An array
    or a record is a mark exactly when it was met before; an entry is what its key
    calls for.  An error is shown each time. *)
Inductive redacts : value → redacted → gset loc → gset loc → Prop :=
| rd_undefined seen : redacts u_undefined r_undefined seen seen
| rd_null seen : redacts u_null r_null seen seen
| rd_boolean b seen : redacts (u_boolean b) (r_boolean b) seen seen
| rd_number n seen : redacts (u_number n) (r_number n) seen seen
| rd_bigint z seen : redacts (u_bigint z) (r_bigint z) seen seen
| rd_string s seen : redacts (u_string s) (r_string (redactText s)) seen seen
| rd_function seen : redacts u_function (r_string REDACTED) seen seen
| rd_symbol seen : redacts u_symbol (r_string REDACTED) seen seen
| rd_error l name message seen :
    content_at heap l = c_error name message →
    redacts (u_object l) (r_object [("name", r_string name); ("message", r_string (redactText message))]) seen seen
| rd_again l seen :
    (∀ name message, content_at heap l ≠ c_error name message) → l ∈ seen →
    redacts (u_object l) (r_string REDACTED) seen seen
| rd_array l items results seen out :
    content_at heap l = c_array items → l ∉ seen → threads redacts_item items results ({[ l ]} ∪ seen) out →
    redacts (u_object l) (r_array results) seen out
| rd_record l entries results seen out :
    content_at heap l = c_record entries → l ∉ seen → threads redacts_entry entries results ({[ l ]} ∪ seen) out →
    redacts (u_object l) (r_object (assigned results)) seen out
with redacts_item : option value → option redacted → gset loc → gset loc → Prop :=
| rd_hole seen : redacts_item None None seen seen
| rd_item v r seen out : redacts v r seen out → redacts_item (Some v) (Some r) seen out
with redacts_entry : string * value → string * redacted → gset loc → gset loc → Prop :=
| rd_compaction k v seen : isCompactionKey k = true → redacts_entry (k, v) (k, r_string REDACTED_COMPACTION) seen seen
| rd_secret k v seen :
    isCompactionKey k = false → isUserContentKey k || isCredentialKey k = true →
    redacts_entry (k, v) (k, r_string REDACTED) seen seen
| rd_path k s seen :
    isCompactionKey k || isUserContentKey k || isCredentialKey k = false →
    isPathKey k = true → looksLikeAbsolutePath s = true →
    redacts_entry (k, u_string s) (k, r_string REDACTED_PATH) seen seen
| rd_value k v r seen out :
    isCompactionKey k || isUserContentKey k || isCredentialKey k = false →
    (∀ s, v = u_string s → isPathKey k && looksLikeAbsolutePath s = false) → redacts v r seen out →
    redacts_entry (k, v) (k, r) seen out.

Lemma each_all {A B} (f : A → gset loc → option (B * gset loc)) (P : A → B → gset loc → gset loc → Prop) (Q : B → Prop) l seen :
  (∀ a seen', a ∈ l → seen ⊆ seen' → ∃ b out, f a seen' = Some (b, out) ∧ seen' ⊆ out ∧ P a b seen' out ∧ Q b) →
  ∃ bs out, each f l seen = Some (bs, out) ∧ seen ⊆ out ∧ threads P l bs seen out ∧ Forall Q bs.
Proof.
  revert seen. induction l as [|a l IH]; intros seen Hf.
  { exists [], seen. split_and!; [done|done|constructor|constructor]. }
  cbn [each]. destruct (Hf a seen) as (b & s1 & -> & Hs1 & Hb & HQ); [by left|done|]. cbn [mbind option_bind].
  destruct (IH s1) as (bs & s2 & -> & Hs2 & Hbs & HQs).
  { intros x s' Hx Hs'. apply Hf; [by right|by etransitivity]. }
  exists (b :: bs), s2. split_and!; [done|by etransitivity|by econstructor|by constructor].
Qed.

Lemma seen_smaller l (seen : gset loc) fuel :
  is_Some (heap !! l) → l ∉ seen → size (dom heap ∖ seen) < S fuel →
  ∀ seen', {[ l ]} ∪ seen ⊆ seen' → size (dom heap ∖ seen') < fuel.
Proof.
  intros Hl%elem_of_dom Hn Hfuel seen' Hs.
  assert (dom heap ∖ seen' ⊂ dom heap ∖ seen) as Hlt%subset_size by set_solver. lia.
Qed.

Lemma entry_total fuel k v seen :
  (∀ v, ∃ r out, redactUnknown heap fuel v seen = Some (r, out) ∧ seen ⊆ out ∧ redacts v r seen out ∧ safe r) →
  ∃ r out, redactObjectEntry (redactUnknown heap fuel) k v seen = Some (r, out) ∧ seen ⊆ out ∧
           redacts_entry (k, v) (k, r) seen out ∧ safe_entry (k, r).
Proof.
  intros IH. unfold redactObjectEntry.
  pose proof (sensitive_key_marked k) as Hk.
  assert (∀ s, s ∈ marks → safe_entry (k, r_string s)) as Hmark
    by (intros s Hs; destruct (mark_safe s Hs); by split).
  destruct (isCompactionKey k) eqn:Hc;
    [eexists _, seen; split_and!; [done|done|by apply rd_compaction|apply Hmark; set_solver]|].
  destruct (isUserContentKey k || isCredentialKey k) eqn:Hu;
    [eexists _, seen; split_and!; [done|done|by apply rd_secret|apply Hmark; set_solver]|].
  destruct (isPathKey k && _) eqn:Hp.
  - apply andb_true_iff in Hp as [Hp Hv]. destruct v; try done. eexists _, seen.
    split_and!; [done|done|apply rd_path; [by rewrite Hc|done..]|apply Hmark; set_solver].
  - destruct (IH v) as (r & out & -> & Hs & Hr & Hsafe). eexists _, out. split_and!; [done|done| |].
    + apply rd_value; [by rewrite Hc|by intros s ->|done].
    + split; [|done]. intros Hsens%Hk. by rewrite orb_false_l, Hu in Hsens.
Qed.

Lemma fields_safe fields : Forall safe_entry fields → safe (r_object (assigned fields)).
Proof.
  rewrite Forall_forall. intros Hall. apply safe_object; intros k r [_ Hin]%list_elem_of_filter; by apply (Hall (k, r)).
Qed.

Lemma items_safe items : Forall safe_item items → safe (r_array items).
Proof. rewrite Forall_forall. intros Hall. apply safe_array. intros r Hin. by apply (Hall (Some r)). Qed.

Lemma redact_total fuel v seen : size (dom heap ∖ seen) < fuel →
  ∃ r out, redactUnknown heap fuel v seen = Some (r, out) ∧ seen ⊆ out ∧ redacts v r seen out ∧ safe r.
Proof.
  revert v seen. induction fuel as [|fuel IH]; intros v seen Hfuel; [lia|].
  assert (safe (r_string REDACTED)) as Hmark by (apply mark_safe; set_solver).
  destruct v as [| |b|n|z|s| | |l]; try (eexists _, seen; split_and!; [done|done|constructor|first [exact Hmark|constructor]]).
  cbn [redactUnknown]. destruct (content_at heap l) as [name message|items|entries] eqn:Hc.
  - eexists _, seen. split_and!; [done|done|by apply rd_error|constructor].
  - assert (is_Some (heap !! l)) as Hl by (unfold content_at in Hc; destruct (heap !! l); [done|by cbn in Hc]).
    case_bool_decide as Hin; [eexists _, seen; split_and!; [done|done|apply rd_again; [by rewrite Hc|done]|done]|].
    pose proof (seen_smaller l seen fuel Hl Hin Hfuel) as Hless.
    match goal with |- context [each ?f items ?s0] =>
      destruct (each_all f redacts_item safe_item items s0) as (out & s' & -> & Hs' & Hall & Hsafe); cycle 1 end.
    + eexists _, s'. split_and!; [done|set_solver|by eapply rd_array|]. by apply items_safe.
    + intros [v|] s' _ Hs; [|eexists _, s'; split_and!; [done|done|constructor|done]].
      destruct (IH v s') as (r & o & -> & Ho & Hr & Hsafe); [by apply Hless|].
      eexists _, o. split_and!; [done|done|by constructor|by intros x [= <-]].
  - case_bool_decide as Hin; [eexists _, seen; split_and!; [done|done|apply rd_again; [by rewrite Hc|done]|done]|].
    match goal with |- context [each ?f entries ?s0] =>
      destruct (each_all f redacts_entry safe_entry entries s0) as (out & s' & -> & Hs' & Hall & Hsafe); cycle 1 end.
    + eexists _, s'. split_and!; [done|set_solver|by eapply rd_record|]. by apply fields_safe.
    + intros [k v] s' Hkv Hs. cbn [fst snd].
      assert (is_Some (heap !! l)) as Hl.
      { unfold content_at in Hc. destruct (heap !! l); [done|]. cbn in Hc. injection Hc as <-. by apply elem_of_nil in Hkv. }
      pose proof (seen_smaller l seen fuel Hl Hin Hfuel s' Hs) as Hless.
      destruct (entry_total fuel k v s' (λ v, IH v s' Hless)) as (r & o & -> & Ho & Hr & Hsafe).
      eexists _, o. by split_and!.
Qed.
End redacts.

(** C32: Redaction ends with a fresh tree on every value, however its objects
    are shared or cyclic.  The tree has the shape of the value - the same keys
    in the same order, the same items - with every text redacted, an array or an
    object replaced by a mark exactly when it was met before, and each entry what
    its key and value call for.  Under a sensitive key of an object stands nothing
    but a mark, at any depth.  An error is shown by its name as it is and its
    message redacted, whatever the keys of these two are; every other text left is
    a mark or the outcome of redacting one. *)
Theorem redacted_value_is_safe heap v :
  ∃ r out, redactValue heap v = Some r ∧ redacts heap v r ∅ out ∧ safe r.
Proof.
  unfold redactValue, redact_fuel.
  destruct (redact_total heap (S (size heap)) v ∅) as (r & out & -> & _ & Hr & Hs); [|by exists r, out].
  rewrite difference_empty_L, size_dom. lia.
Qed.

(** The six patterns, one after the other, each reading the text of the one
    before from left to right. *)
Fixpoint reads (ps : list pattern) (s t : string) : Prop :=
  match ps with
  | [] => t = s
  | p :: ps => ∃ m, replaced p None s m ∧ reads ps m t
  end.

Theorem redacted_text_is_read text t : redactText text = t ↔ reads TEXT_PATTERNS text t.
Proof.
  assert (∀ ps s, Forall (λ p, 0 < pattern_width p) ps →
    (fold_left (λ s p, replace p s) ps s = t ↔ reads ps s t)) as Hreads.
  { induction ps as [|p ps IH]; intros s Hps; [by split|]. inversion Hps as [|? ? Hp Hps']; subst.
    pose proof (replace_replaced p s Hp) as Hr. cbn [fold_left reads]. rewrite IH by done. split.
    - intros Ht. by exists (replace p s).
    - intros (m & Hm & Ht). by rewrite (replaced_unique p None s _ m Hr Hm). }
  apply Hreads. unfold TEXT_PATTERNS. repeat (constructor; [cbn; lia|]). constructor.
Qed.
