(* ===== verification/LocalNative.v ===== *)
(** * LocalNative

    [src/scripts/prepare-local-native.ts]: building the native bridge from a
    clean commit, replacing the installed artifact as a transaction with a
    rollback, and verifying what is installed.

    A program is run on the files of a [Workspace]; the random suffix of the
    temporary names is an argument. *)

From Stdlib Require Import Lia.
From S2P Require Import Prelude Io Paths Workspace Json Protocol Decimal Render JsRegex Launch.

(** ** Options *)

Inductive build_profile := debug | release.
#[export] Instance build_profile_eq_dec : EqDecision build_profile. Proof. solve_decision. Defined.
Definition profile_text (p : build_profile) : string := match p with debug => "debug" | release => "release" end.

Record LocalNativeOptions := { ln_target : string; ln_profile : build_profile; ln_checkOnly : bool }.

Record LocalNativePaths := { ln_executable : path; assembledArtifact : path; installedArtifact : path }.

(** The errors of the script; [AggregateError] has the failure and the failure
    to undo it. *)
Inductive script_error :=
| platform_error (e : errno)
| failure (message : string)
| loader_error (e : launch_error)
| AggregateError (error rollbackError : script_error).

Definition is_aggregate (e : script_error) : bool := match e with AggregateError _ _ => true | _ => false end.

(** The loop over the arguments, from its current state. *)
Fixpoint parse_arguments (args : list string) (target : option string) (profile : build_profile) (checkOnly : bool)
    : outcome script_error (option string * build_profile * bool) :=
  match args with
  | [] => Ret (target, profile, checkOnly)
  | argument :: args =>
      if String.eqb argument "--debug" then parse_arguments args target debug checkOnly
      else if String.eqb argument "--check" then parse_arguments args target profile true
      else if String.eqb argument "--target" then
        match args with
        | [] => Throw (failure "--target requires a supported Rust target triple")
        | value :: args =>
            guard_throw (negb (starts_with "--" value)) (failure "--target requires a supported Rust target triple");;
            guard_throw (js_elem value SUPPORTED_NATIVE_TARGETS)
              (failure ("Unsupported native build target: " ++ value)%string);;
            parse_arguments args (Some value) profile checkOnly
        end
      else Throw (failure ("Unknown local native option: " ++ argument)%string)
  end.

Definition parseLocalNativeOptions (args : list string) (platform architecture : string)
    : outcome script_error LocalNativeOptions :=
  '(target, profile, checkOnly) ← parse_arguments args None release false;
  match (match target with Some target => Some target | None => nativeTargetFor platform architecture end) with
  | None => Throw (failure ("Unsupported native build target: " ++ platform ++ "/" ++ architecture)%string)
  | Some resolvedTarget =>
      guard_throw (negb (checkOnly && bool_decide (profile = debug)))
        (failure "--check cannot be combined with --debug");;
      Ret {| ln_target := resolvedTarget; ln_profile := profile; ln_checkOnly := checkOnly |}
  end.

Section local.
Context {Disk : Type} `{Workspace Disk} `{JsonText} (sha256Hex : string → string).
Context (repositoryRoot : path).

Abbreviation io A := (Io.io Disk script_error A).
Definition ws {A} (op : Disk → outcome errno A * Disk) : io A := io_call platform_error op.
Definition fail {A} (message : string) : io A := io_throw (failure message).

Definition resolveLocalNativePaths (root : path) (target : string) (profile : build_profile) : LocalNativePaths :=
  {| ln_executable := resolve_in root ["native"; "target"; target; profile_text profile; expectedExecutableName target];
     assembledArtifact := resolve_in root ["native"; "artifacts"; target];
     installedArtifact := resolve_in root ["native"; "bin"; target] |}.

(** ** The transaction *)

Definition pathExists (p : path) : io bool :=
  try_catch (ws (ws_lstat p);; mret true)
    (λ e, match e with platform_error ENOENT => mret false | e => io_throw e end).

Definition staging_path (destination : path) (suffix : string) : path :=
  resolve_from (dirname destination) ("." ++ basename destination ++ ".staging-" ++ suffix)%string.
Definition backup_path (destination : path) (suffix : string) : path :=
  resolve_from (dirname destination) ("." ++ basename destination ++ ".backup-" ++ suffix)%string.

(** The flags [movedPrevious] and [installed]. *)
Record progress := { movedPrevious : bool; installed : bool }.

(** A step of the [try] block; an error leaves with the flags of its moment. *)
Definition during {A} (p : progress) (m : io A) : Io.io Disk (script_error * progress) A :=
  try_catch m (λ e, io_throw (e, p)).

Definition install (source destination staging backup : path) (verify : io unit)
    : Io.io Disk (script_error * progress) unit :=
  let start := {| movedPrevious := false; installed := false |} in
  during start (ws (ws_cp source staging));;
  there ← during start (pathExists destination);
  (if (there : bool) then during start (ws (ws_rename destination backup)) else mret tt);;
  during {| movedPrevious := there; installed := false |} (ws (ws_rename staging destination));;
  during {| movedPrevious := there; installed := true |} verify;;
  (if (there : bool) then during {| movedPrevious := true; installed := true |} (ws (ws_rm backup)) else mret tt).

Definition roll_back (destination backup : path) (error : script_error) (p : progress) : io unit :=
  try_catch
    ((if installed p then ws (ws_rm destination) else mret tt);;
     (if movedPrevious p then ws (ws_rename backup destination) else mret tt))
    (λ rollbackError, io_throw (AggregateError error rollbackError));;
  io_throw error.

Definition replaceArtifactDirectory (source destination : path) (suffix : string) (verify : io unit) : io unit :=
  let staging := staging_path destination suffix in
  let backup := backup_path destination suffix in
  ws (ws_mkdir (dirname destination));;
  try_finally
    (try_catch (install source destination staging backup verify)
       (λ failed, roll_back destination backup failed.1 failed.2))
    (ws (ws_rm staging)).

(** ** The commit *)

Definition GIT_HEAD : list string := ["git"; "rev-parse"; "HEAD"].
Definition GIT_STATUS : list string := ["git"; "status"; "--porcelain=v1"; "--untracked-files=normal"].

Definition gitHead : io string :=
  child ← ws (ws_spawn GIT_HEAD);
  let sourceCommit := trim (stdout child) in
  if negb (exitCode child =? 0)%Z || negb (is_hex 40 sourceCommit)
  then fail "Current Git source commit is unavailable" else mret sourceCommit.

Definition gitWorktreeStatus : io string :=
  child ← ws (ws_spawn GIT_STATUS);
  if negb (exitCode child =? 0)%Z then fail "Git worktree state is unavailable" else mret (stdout child).

Definition requireCleanGitWorktree (status : string) : outcome script_error unit :=
  guard_throw (String.eqb (trim status) "")
    (failure "Local native artifact requires a clean Git worktree; commit or stash changes before running native:local").

Definition requireUnchangedGitHead (expected actual : string) : outcome script_error unit :=
  guard_throw (String.eqb actual expected)
    (failure "Git HEAD changed while preparing the local native artifact; retry the build").

Definition cleanGitHead : io string :=
  initialHead ← gitHead;
  status ← gitWorktreeStatus;
  io_lift (requireCleanGitWorktree status);;
  confirmedHead ← gitHead;
  io_lift (requireUnchangedGitHead initialHead confirmedHead);;
  mret confirmedHead.

Definition requireCurrentSourceCommit (sourceCommit : string) : io unit :=
  actual ← cleanGitHead;
  io_lift (requireUnchangedGitHead sourceCommit actual).

(** ** The artifact *)

(** [/^codex-bridge\s+\S+\s+\(protocol\s+(\d+),\s+codex\s+([^,]+),\s+source\s+
    ([0-9a-f]{40}),\s+target\s+([^,]+),\s+build\s+([0-9a-f]{40})\)$/] *)
Definition spaces : bool * regex := (false, RMany 1 is_js_space).
Definition word (s : string) : bool * regex := (false, literal s).
Fixpoint exactly (n : nat) (f : ascii → bool) : regex :=
  match n with O => REmpty | S n => RSeq (RUnit f) (exactly n f) end.
Definition IDENTITY : list (bool * regex) :=
  [word "codex-bridge"; spaces; (false, RMany 1 (λ c, negb (is_js_space c))); spaces;
   word "(protocol"; spaces; (true, RMany 1 is_digit); word ","; spaces;
   word "codex"; spaces; (true, RMany 1 (none_of ",")); word ","; spaces;
   word "source"; spaces; (true, exactly 40 hex_digit); word ","; spaces;
   word "target"; spaces; (true, RMany 1 (none_of ",")); word ","; spaces;
   word "build"; spaces; (true, exactly 40 hex_digit); word ")"].

Definition identity_matches (version target sourceCommit : string) : bool :=
  match exec_whole IDENTITY version with
  | Some [protocol; codex; source; built; build] =>
      (read_digits protocol 0 =? BRIDGE_PROTOCOL_VERSION)%Z && String.eqb codex OFFICIAL_CODEX_VERSION &&
      String.eqb source OFFICIAL_SOURCE_COMMIT && String.eqb built target && String.eqb build sourceCommit
  | _ => false
  end.

Definition executableVersion (executable : string) : io string :=
  child ← ws (ws_spawn [executable; "--version"]);
  if negb (exitCode child =? 0)%Z then fail "Local native executable did not report its identity"
  else mret (trim (stdout child)).

(** [path.resolve] as [Launch] takes it, and its check of the files of a state. *)
Definition resolve (texts : list string) : string := path_text (resolve_in repositoryRoot texts).
Definition packaged (d : Disk) (target : string) : outcome launch_error (string * NativeArtifactManifest) :=
  verifyPackagedBridgeArtifact resolve sha256Hex (ws_read d) (ws_stream d) (path_text repositoryRoot) target.

Definition verifyPackaged (target : string) : io (string * NativeArtifactManifest) := λ d,
  (match packaged d target with Ret a => Ret a | Throw e => Throw (loader_error e) end, d, []).

Definition verifyLocalArtifact (platform architecture target sourceCommit : string) : io unit :=
  verified ← verifyPackaged target;
  if negb (String.eqb (mf_projectSourceCommit verified.2) sourceCommit)
  then fail "Local native artifact does not match the current source commit"
  else if negb (bool_decide (nativeTargetFor platform architecture = Some target)) then mret tt
  else
    version ← executableVersion verified.1;
    if identity_matches version target sourceCommit then mret tt
    else fail "Local native executable identity does not match its artifact manifest".

(** ** The command *)

Definition run (command : list string) : io unit :=
  child ← ws (ws_spawn command);
  if negb (exitCode child =? 0)%Z then
    let name := match command with _ :: script :: _ => script | [program] => program | [] => "command" end in
    fail (basename (resolve_from [] name) ++ " exited with status " ++ decimal (exitCode child))%string
  else mret tt.

Definition help_text : string := "Usage: bun run native:local -- [options]

Build, assemble, transactionally install, and verify the local native bridge.
The Git worktree must remain clean and at one commit throughout the command.

Options:
  --debug            Build and install the debug profile instead of release
  --target <triple>  Build a declared target instead of the current host target
  --check            Verify the installed artifact without rebuilding it
  --help             Show this help".

(** [argv] is [process.argv]: the program, the script and the arguments.  The
    answer is the line that is logged. *)
Definition main (argv : list string) (platform architecture execPath suffix : string) : io string :=
  if js_elem "--help" argv then mret help_text else
  options ← io_lift (parseLocalNativeOptions (drop 2 argv) platform architecture);
  sourceCommit ← cleanGitHead;
  let target := ln_target options in
  let paths := resolveLocalNativePaths repositoryRoot target (ln_profile options) in
  let verify := verifyLocalArtifact platform architecture target sourceCommit;;
                requireCurrentSourceCommit sourceCommit in
  (if negb (ln_checkOnly options) then
     run ([execPath; "scripts/build-native.ts"] ++
          (if bool_decide (ln_profile options = release) then ["--release"] else []) ++ ["--target"; target]);;
     requireCurrentSourceCommit sourceCommit;;
     run [execPath; "scripts/assemble-native-artifact.ts"; "--target"; target;
          "--executable"; path_text (ln_executable paths); "--source-commit"; sourceCommit];;
     replaceArtifactDirectory (assembledArtifact paths) (installedArtifact paths) suffix verify
   else verify);;
  mret (if ln_checkOnly options
        then "Verified local native artifact for " ++ target ++ " at " ++ path_text (installedArtifact paths)
        else "Installed local " ++ profile_text (ln_profile options) ++ " native artifact for " ++ target ++
             " at " ++ path_text (installedArtifact paths))%string.
End local.
