(* ===== verification/LocalNativeFacts.v ===== *)
(** * LocalNativeFacts

    Replacing the installed artifact is a transaction: whatever call fails, the
    previous artifact or the verified new one is whole at every moment, unless
    removing the backup fails half way; and the command succeeds only with an
    artifact of the current, clean commit. *)

From Stdlib Require Import Lia.
From S2P Require Import Prelude Io Paths Workspace Json Protocol Decimal Render JsRegex Launch LocalNative.

(** ** Code that only reads *)

#[export] Instance kept_outside_preorder `{Workspace Disk} roots : PreOrder (kept_outside (Disk := Disk) roots).
Proof. split; [by intros d p Hp|]. intros d1 d2 d3 H12 H23 p Hp. by rewrite H23, H12. Qed.

Definition quiet `{Workspace Disk} {E A} (m : Io.io Disk E A) : Prop := stays (kept_outside []) m.

(** ** The transaction *)

Section transaction.
Context {Disk} `{Workspace Disk} {read_only : list string → Prop} {laws : WorkspaceLaws Disk read_only}.
Context (source destination staging backup : path) (verify : Io.io Disk script_error unit).
Context (Hverify : quiet verify) (Hplain : ∀ d e, (verify d).1.1 = Throw e → is_aggregate e = false).
Context (Hss : apart source staging) (Hsb : apart source backup) (Hsd : apart source destination).
Context (Hst : apart staging destination) (Hsk : apart staging backup) (Hbd : apart backup destination).
Context (d0 : Disk) (Hstaging : holds d0 staging no_tree) (Hbackup : holds d0 backup no_tree).

Definition old : tree := tree_at d0 destination.
Definition new : tree := tree_at d0 source.

(** The new artifact was in place when its verification succeeded. *)
Definition verified (states : list Disk) : Prop :=
  ∃ s, s ∈ states ∧ holds s destination new ∧ (verify s).1.1 = Ret tt.
(** Removing the backup failed, when the new artifact was in place. *)
Definition backup_removal_failed (states : list Disk) : Prop :=
  ∃ s e, s ∈ states ∧ holds s destination new ∧ (ws_rm backup s).1 = Throw e.
Definition one_is_whole (states : list Disk) (s : Disk) : Prop :=
  holds s destination old ∨ holds s backup old ∨ (holds s destination new ∧ verified states).

Lemma verified_mono t t' : t ⊆ t' → verified t → verified t'.
Proof. intros Ht (s & Hs & ?). exists s. auto. Qed.
Lemma failed_mono t t' : t ⊆ t' → backup_removal_failed t → backup_removal_failed t'.
Proof. intros Ht (s & e & Hs & ?). exists s, e. auto. Qed.
Lemma whole_mono t t' s : t ⊆ t' → one_is_whole t s → one_is_whole t' s.
Proof. intros Ht [?|[?|[? Hv]]]; [by left|by right; left|]. right; right. split; [done|by eapply verified_mono]. Qed.

(** What a state has at the four places. *)
Record at_places (s : Disk) (at_destination at_staging at_backup : tree) : Prop := {
  ap_source : holds s source new;
  ap_destination : holds s destination at_destination;
  ap_staging : holds s staging at_staging;
  ap_backup : holds s backup at_backup }.

Lemma places_kept s s' a b c : kept_outside [] s s' → at_places s a b c → at_places s' a b c.
Proof. intros Hk [????]. split; by eapply holds_kept. Qed.
Lemma some_tree s p : holds s p (tree_at s p).
Proof. done. Qed.

(** A call that touches only [roots], and what it leaves at the other places. *)
Ltac untouched :=
  eapply holds_kept;
    [eassumption|repeat first [apply Forall_nil_2|apply Forall_cons_2; [solve [auto with workspace]|]]|done].

Lemma cp_places s a b : at_places s a no_tree b →
  match ws_cp source staging s with
  | (Ret _, s') => at_places s' a new b
  | (Throw _, s') => ∃ x, at_places s' a x b
  end.
Proof.
  intros [Hs Hd Ht Hb]. pose proof (cp_keeps source staging s) as Hk.
  pose proof (cp_copies source staging s Hss Ht) as Hc.
  destruct (ws_cp source staging s) as [[[]|e] s']; cbn in *.
  - split; [untouched|untouched| |untouched]. eapply holds_ext; [|by apply Hc]. intros rel. by rewrite <- Hs.
  - exists (tree_at s' staging). split; [untouched|untouched|done|untouched].
Qed.

Lemma set_aside_places s a x b : at_places s a x b →
  match ws_rename destination backup s with
  | (Ret _, s') => at_places s' no_tree x a
  | (Throw _, s') => at_places s' a x b
  end.
Proof.
  intros [Hs Hd Ht Hb]. pose proof (rename_keeps destination backup s) as Hk.
  pose proof (rename_moves destination backup s (apart_sym _ _ Hbd)) as Hm.
  destruct (ws_rename destination backup s) as [[[]|e] s']; cbn in *.
  - destruct (Hm eq_refl) as [Hm1 Hm2]. split; [untouched|done|untouched|].
    eapply holds_ext; [|done]. intros rel. by rewrite <- Hd.
  - split; untouched.
Qed.

Lemma put_places s a x b : at_places s a x b →
  match ws_rename staging destination s with
  | (Ret _, s') => at_places s' x no_tree b
  | (Throw _, s') => at_places s' a x b
  end.
Proof.
  intros [Hs Hd Ht Hb]. pose proof (rename_keeps staging destination s) as Hk.
  pose proof (rename_moves staging destination s Hst) as Hm.
  destruct (ws_rename staging destination s) as [[[]|e] s']; cbn in *.
  - destruct (Hm eq_refl) as [Hm1 Hm2]. split; [untouched| |done|untouched].
    eapply holds_ext; [|done]. intros rel. by rewrite <- Ht.
  - split; untouched.
Qed.

Lemma put_back_places s a x b : at_places s a x b →
  match ws_rename backup destination s with
  | (Ret _, s') => at_places s' b x no_tree
  | (Throw _, s') => at_places s' a x b
  end.
Proof.
  intros [Hs Hd Ht Hb]. pose proof (rename_keeps backup destination s) as Hk.
  pose proof (rename_moves backup destination s Hbd) as Hm.
  destruct (ws_rename backup destination s) as [[[]|e] s']; cbn in *.
  - destruct (Hm eq_refl) as [Hm1 Hm2]. split; [untouched| |untouched|done].
    eapply holds_ext; [|done]. intros rel. by rewrite <- Hb.
  - split; untouched.
Qed.

Lemma rm_backup_places s a x b : at_places s a x b →
  match ws_rm backup s with
  | (Ret _, s') => at_places s' a x no_tree
  | (Throw _, s') => ∃ y, at_places s' a x y
  end.
Proof.
  intros [Hs Hd Ht Hb]. pose proof (rm_keeps backup s) as Hk. pose proof (rm_removes backup s) as Hr.
  destruct (ws_rm backup s) as [[[]|e] s']; cbn in *; [|exists (tree_at s' backup)];
    split; try untouched; [by apply Hr|done].
Qed.

Lemma rm_destination_places s a x b : at_places s a x b →
  match ws_rm destination s with
  | (Ret _, s') => at_places s' no_tree x b
  | (Throw _, s') => ∃ y, at_places s' y x b
  end.
Proof.
  intros [Hs Hd Ht Hb]. pose proof (rm_keeps destination s) as Hk. pose proof (rm_removes destination s) as Hr.
  destruct (ws_rm destination s) as [[[]|e] s']; cbn in *; [|exists (tree_at s' destination)];
    split; try untouched; [by apply Hr|done].
Qed.

Lemma rm_staging_places s a x b : at_places s a x b →
  match ws_rm staging s with
  | (Ret _, s') => at_places s' a no_tree b
  | (Throw _, s') => ∃ y, at_places s' a y b
  end.
Proof.
  intros [Hs Hd Ht Hb]. pose proof (rm_keeps staging s) as Hk. pose proof (rm_removes staging s) as Hr.
  destruct (ws_rm staging s) as [[[]|e] s']; cbn in *; [|exists (tree_at s' staging)];
    split; try untouched; [by apply Hr|done].
Qed.

Lemma start_places d : kept_outside [] d0 d → at_places d old no_tree no_tree.
Proof. intros Hk. eapply places_kept; [done|]. by split. Qed.

(** *** The [try] block *)

Lemma runs_during {A} p (m : Io.io Disk script_error A) Q d :
  runs m (λ r s t, Q match r with Ret a => Ret a | Throw e => Throw (e, p) end s t) d → runs (during p m) Q d.
Proof.
  intros Hm. apply runs_catch. eapply runs_mono; [exact Hm|].
  intros [a|e] s t HQ; [done|]. apply runs_throw. by rewrite app_nil_r.
Qed.

Lemma runs_ws {A} (op : Disk → outcome errno A * Disk) (Q : outcome script_error A → Disk → list Disk → Prop) d :
  (∀ r s, op d = (r, s) → Q match r with Ret a => Ret a | Throw e => Throw (platform_error e) end s [s]) →
  runs (ws op) Q d.
Proof. apply runs_call. Qed.

Lemma runs_pathExists p (Q : outcome script_error bool → Disk → list Disk → Prop) d :
  (∀ s b, kept_outside [] d s → (b = false → holds d p no_tree) → Q (Ret b) s [s]) →
  (∀ s e, kept_outside [] d s → Q (Throw (platform_error e)) s [s]) →
  runs (pathExists p) Q d.
Proof.
  intros HR HT. apply runs_catch, runs_bind, runs_ws. intros r s Hl.
  pose proof (lstat_keeps p d) as Hk. pose proof (lstat_missing p d) as Hm. rewrite Hl in Hk, Hm. cbn in *.
  destruct r as [u|[]]; cbn; [by apply HR| |by apply HT..].
  apply HR; [done|]. intros _. by apply Hm.
Qed.

(** What can be undone, by the flags the failure left with. *)
Definition undoable (states : list Disk) (p : progress) (s : Disk) : Prop :=
  match p with
  | {| movedPrevious := false; installed := false |} => ∃ x, at_places s old x no_tree
  | {| movedPrevious := true; installed := false |} => ∃ x, at_places s no_tree x old
  | {| movedPrevious := false; installed := true |} =>
      ∃ x, at_places s new x no_tree ∧ ∀ rel, old rel = None
  | {| movedPrevious := true; installed := true |} =>
      (∃ x, at_places s new x old) ∨
      backup_removal_failed states ∧ verified states ∧ ∃ x y, at_places s new x y
  end.

Definition installed_or_undoable (r : outcome (script_error * progress) unit) (s : Disk) (t : list Disk) : Prop :=
  Forall (one_is_whole t) t ∧
  match r with
  | Ret _ => verified t ∧ ∃ x, at_places s new x no_tree
  | Throw (e, p) => is_aggregate e = false ∧ undoable t p s
  end.

Lemma whole_old t s x b : at_places s old x b → one_is_whole t s.
Proof. intros []. by left. Qed.
Lemma whole_backup t s a x : at_places s a x old → one_is_whole t s.
Proof. intros []. right. by left. Qed.
Lemma whole_nothing t s a x : (∀ rel, old rel = None) → at_places s a x no_tree → one_is_whole t s.
Proof. intros Hn []. right; left. eapply holds_ext; [|done]. intros rel. by rewrite Hn. Qed.
Lemma whole_new t s x b : verified t → at_places s new x b → one_is_whole t s.
Proof. intros Hv []. right; by right. Qed.

Hint Resolve whole_old whole_backup whole_nothing : core.
Ltac each_whole := repeat first [apply Forall_nil_2|apply Forall_cons_2; [intros; eauto|]]; try done.

(** From the moment the new artifact is in place, over the states [t] before:
    with a backup of the old one, or without there having been one. *)
Lemma verify_runs (there : bool) s t :
  at_places s new no_tree (if there then old else no_tree) →
  (there = false → ∀ rel, old rel = None) → Forall (λ s, ∀ t, one_is_whole t s) t → s ∈ t →
  runs (during {| movedPrevious := there; installed := true |} verify;;
        (if there then during {| movedPrevious := true; installed := true |} (ws (ws_rm backup)) else mret tt))
    (λ r s' t', installed_or_undoable r s' (t ++ t')) s.
Proof.
  intros Hs Hn Ht Hin. apply runs_bind, runs_during.
  pose proof (Hverify s) as Hv. pose proof (Hplain s) as He. unfold runs in *.
  destruct (verify s) as [[r s1] t1] eqn:Hrun. destruct Hv as [Hin1 Hk1].
  inversion Hk1 as [|?? _ Hk1']; subst.
  assert (Hpl : Forall (λ s', at_places s' new no_tree (if there then old else no_tree)) (s :: t1)).
  { eapply Forall_impl; [exact Hk1|]. intros s' Hk. by eapply places_kept. }
  assert (at_places s1 new no_tree (if there then old else no_tree)) as Hs1.
  { rewrite Forall_forall in Hpl. by apply Hpl. }
  assert (Hw : Forall (λ s', ∀ t, one_is_whole t s') (s :: t1)).
  { eapply Forall_impl; [exact Hpl|]. intros s' Hp' t'. destruct there; eauto. }
  inversion Hw as [|?? _ Hw1]; subst.
  assert (Hall : ∀ t2, Forall (one_is_whole t2) (t ++ t1)).
  { intros t2. apply Forall_app. split; eapply Forall_impl; eauto. }
  destruct r as [[]|e].
  - assert (Hver : ∀ t2, verified (t ++ t1 ++ t2)).
    { intros t2. exists s. split_and!; [set_solver|by destruct Hs|by rewrite Hrun]. }
    destruct there.
    + apply runs_during, runs_ws. intros r2 s2 Hrm. pose proof (rm_backup_places s1 _ _ _ Hs1) as Hp2.
      rewrite Hrm in Hp2. split.
      * rewrite app_assoc. apply Forall_app. split; [apply Hall|]. constructor; [|constructor].
        rewrite <- app_assoc. destruct r2; [|destruct Hp2 as [y Hp2]]; by eapply whole_new.
      * destruct r2 as [[]|e2]; cbn; [eauto|]. split; [done|]. right. destruct Hp2 as [y Hp2].
        split_and!; [|done|by exists no_tree, y].
        exists s1, e2. split_and!; [|by destruct Hs1|by rewrite Hrm].
        apply elem_of_cons in Hin1 as [->|]; set_solver.
    + split; [by rewrite app_nil_r|]. cbn. rewrite app_nil_r. split; [|by exists no_tree].
      specialize (Hver []). by rewrite app_nil_r in Hver.
  - split; [apply Hall|]. split; [by apply He; rewrite ?Hrun|].
    destruct there; [left; by exists no_tree|]. exists no_tree. split; [done|by apply Hn].
Qed.

Lemma nothing_old d : at_places d old no_tree no_tree → holds d destination no_tree → ∀ rel, old rel = None.
Proof. intros [? Hd] Hn rel. by rewrite <- Hd, Hn. Qed.

Lemma install_runs d : kept_outside [] d0 d →
  runs (install source destination staging backup verify) installed_or_undoable d.
Proof.
  intros Hk0. pose proof (start_places d Hk0) as H0. unfold install.
  apply runs_bind, runs_during, runs_ws. intros r1 s1 Hop. pose proof (cp_places d _ _ H0) as H1. rewrite Hop in H1.
  destruct r1 as [[]|e1]; cbn.
  2: { destruct H1 as [x H1]. split; [each_whole|]. split; [done|]. by exists x. }
  apply runs_bind, runs_during, runs_pathExists; intros s2 b2 Hk2.
  2: { pose proof (places_kept _ _ _ _ _ Hk2 H1). split; [each_whole|]. split; [done|]. by exists new. }
  intros Hmissing. pose proof (places_kept _ _ _ _ _ Hk2 H1) as H2.
  assert (b2 = false → ∀ rel, old rel = None) as Hnone.
  { intros Hb rel. destruct H1. by rewrite <- (ap_destination0 rel), (Hmissing Hb). }
  apply runs_bind.
  (* The previous artifact is set aside. *)
  assert (∃ s3 t3 r3, (if b2 then during {| movedPrevious := false; installed := false |} (ws (ws_rename destination backup))
                       else mret tt) s2 = (r3, s3, t3) ∧ Forall (λ s, ∀ t, one_is_whole t s) t3 ∧
    match r3 with
    | Ret _ => at_places s3 (if b2 then no_tree else old) new (if b2 then old else no_tree)
    | Throw (e, p) => is_aggregate e = false ∧ ∀ t, undoable t p s3
    end) as (s3 & t3 & r3 & Hrun & Hw3 & H3).
  { destruct b2; [|by exists s2, [], (Ret tt)].
    pose proof (set_aside_places s2 _ _ _ H2) as H3. unfold during, try_catch, ws, io_call.
    destruct (ws_rename destination backup s2) as [[u|e] s3]; cbn.
    - exists s3, [s3], (Ret u). split_and!; [done|each_whole|done].
    - eexists s3, [s3], (Throw (_, _)). split_and!; [done|each_whole|done|].
      intros t'. by exists new. }
  unfold runs at 1. rewrite Hrun. clear Hrun.
  assert (Hbefore : Forall (λ s, ∀ t, one_is_whole t s) (s1 :: s2 :: t3)) by each_whole.
  assert (Hall : ∀ t, Forall (one_is_whole t) (s1 :: s2 :: t3)) by (intros t'; eapply Forall_impl; eauto).
  destruct r3 as [u|[e3 p3]]; [|by destruct H3].
  (* The new one is put in place. *)
  apply runs_bind, runs_during, runs_ws. intros r4 s4 Hop4. pose proof (put_places s3 _ _ _ H3) as H4. rewrite Hop4 in H4.
  change (s1 :: ?l) with ([s1] ++ l) in *.
  destruct r4 as [[]|e4].
  - eapply runs_mono; [apply (verify_runs b2 s4 ((s1 :: s2 :: t3) ++ [s4])); [done|done| |set_solver]|].
    + apply Forall_app. split; [done|]. destruct b2; each_whole.
    + intros r s t Hq. cbn in *. by rewrite <- app_assoc in Hq.
  - split.
    + apply (Forall_app _ (s1 :: s2 :: t3)). split; [apply Hall|]. destruct b2; each_whole.
    + split; [done|]. destruct b2; by exists new.
Qed.

(** *** Undoing *)

Definition undone (r : outcome script_error unit) (error : script_error) (s : Disk) (t : list Disk) : Prop :=
  (backup_removal_failed t ∧ verified t) ∨
  ∃ a x b, at_places s a x b ∧
    match r with
    | Ret _ => False
    | Throw e => (e = error ∧ ∀ rel, a rel = old rel) ∨ (is_aggregate e = true ∧ ∀ rel, b rel = old rel)
    end.

Definition rolled_back (error : script_error) (before : list Disk) (r : outcome script_error unit) (s : Disk)
    (t : list Disk) : Prop :=
  (∀ u, r ≠ Ret u) ∧ undone r error s (before ++ t) ∧
  (backup_removal_failed (before ++ t) ∨ Forall (one_is_whole (before ++ t)) (before ++ t)).

(** When removing the backup failed, nothing more is said. *)
Lemma rolled_back_failed error before r s t :
  (∀ u, r ≠ Ret u) → backup_removal_failed before → verified before → rolled_back error before r s t.
Proof.
  intros Hr Hf Hv. assert (before ⊆ before ++ t) as Hsub by set_solver.
  split_and!; [done|left; eauto using failed_mono, verified_mono|left; by eapply failed_mono].
Qed.

Lemma rolled_back_whole error before r s t :
  (∀ u, r ≠ Ret u) → Forall (one_is_whole before) before → Forall (λ s, ∀ t, one_is_whole t s) t →
  (∃ a x b, at_places s a x b ∧
     match r with
     | Ret _ => False
     | Throw e => (e = error ∧ ∀ rel, a rel = old rel) ∨ (is_aggregate e = true ∧ ∀ rel, b rel = old rel)
     end) → rolled_back error before r s t.
Proof.
  intros Hr Hb Ht Hp. split_and!; [done|by right|right]. apply Forall_app. split.
  - eapply Forall_impl; [exact Hb|]. intros s' Hs'. eapply whole_mono; [|exact Hs']. set_solver.
  - eapply Forall_impl; [exact Ht|auto].
Qed.

Lemma roll_back_runs error p s before :
  is_aggregate error = false → undoable before p s → Forall (one_is_whole before) before →
  runs (roll_back destination backup error p) (rolled_back error before) s.
Proof.
  intros He Hu Hb. destruct p as [[] []]; cbn in Hu;
    unfold runs, roll_back, try_catch, ws, io_call, mbind, io_bind, mret, io_ret, io_throw; cbn [movedPrevious installed].
  - destruct Hu as [[x Hs]|(Hf & Hv & x & y & Hs)]; pose proof (rm_destination_places s _ _ _ Hs) as H1;
      destruct (ws_rm destination s) as [[[]|e1] s1]; cbn.
    + pose proof (put_back_places s1 _ _ _ H1) as H2. destruct (ws_rename backup destination s1) as [[[]|e2] s2]; cbn.
      * apply rolled_back_whole; [done|done|each_whole|]. exists old, x, no_tree. by auto.
      * apply rolled_back_whole; [done|done|each_whole|]. exists no_tree, x, old. by auto.
    + destruct H1 as [a H1]. apply rolled_back_whole; [done|done|each_whole|]. exists a, x, old. by auto.
    + destruct (ws_rename backup destination s1) as [[[]|e2] s2]; by apply rolled_back_failed.
    + by apply rolled_back_failed.
  - destruct Hu as [x Hs]. pose proof (put_back_places s _ _ _ Hs) as H2.
    destruct (ws_rename backup destination s) as [[[]|e2] s2]; cbn.
    + apply rolled_back_whole; [done|done|each_whole|]. exists old, x, no_tree. by auto.
    + apply rolled_back_whole; [done|done|each_whole|]. exists no_tree, x, old. by auto.
  - destruct Hu as (x & Hs & Hn). pose proof (rm_destination_places s _ _ _ Hs) as H1.
    destruct (ws_rm destination s) as [[[]|e1] s1]; cbn.
    + apply rolled_back_whole; [done|done|each_whole|]. exists no_tree, x, no_tree. split; [done|left].
      split; [done|]. intros rel. by rewrite Hn.
    + destruct H1 as [a H1]. apply rolled_back_whole; [done|done|each_whole|]. exists a, x, no_tree. split; [done|right]. split; [done|]. intros rel. by rewrite Hn.
  - destruct Hu as [x Hs]. apply rolled_back_whole; [done|done|constructor|]. exists old, x, no_tree. by auto.
Qed.

(** *** The whole *)

(** What the transaction leaves behind.  A failure that is not the script's to
    undo is an [AggregateError], or the one of removing the staging directory. *)
Definition transactional (r : outcome script_error unit) (d : Disk) (states : list Disk) : Prop :=
  ((∀ u, r ≠ Ret u) ∧ backup_removal_failed states) ∨
  Forall (one_is_whole states) (d :: states) ∧
  match r with
  | Ret _ => holds d destination new ∧ verified states ∧ holds d staging no_tree ∧ holds d backup no_tree
  | Throw e =>
      holds d destination old ∨ (holds d destination new ∧ verified states) ∨ is_aggregate e = true ∨
      ∃ s e', ws_rm staging s = (Throw e', d) ∧ e = platform_error e'
  end.

(** How the [try] and [catch] blocks end. *)
Definition ended (r : outcome script_error unit) (s : Disk) (states : list Disk) : Prop :=
  ((∀ u, r ≠ Ret u) ∧ backup_removal_failed states) ∨
  Forall (one_is_whole states) states ∧
  ∃ a x b, at_places s a x b ∧
    match r with
    | Ret _ => a = new ∧ b = no_tree ∧ verified states
    | Throw e => (∀ rel, a rel = old rel) ∨ (is_aggregate e = true ∧ ∀ rel, b rel = old rel)
    end.

Lemma finally_transactional r s states :
  ended r s states →
  runs (ws (ws_rm staging)) (λ r' s' t,
    transactional match r' with Ret _ => r | Throw e => Throw e end s' (states ++ t)) s.
Proof.
  intros He. apply runs_ws. intros r1 s1 Hrm.
  assert (Hsub : states ⊆ states ++ [s1]) by set_solver.
  destruct He as [[Hn Hf]|(Hw & a & x & b & Hs & Hr)]; [left|right].
  { split; [by destruct r1|by eapply failed_mono]. }
  pose proof (rm_staging_places s _ _ _ Hs) as H1. rewrite Hrm in H1.
  assert (∃ x', at_places s1 a x' b) as [x' H1'] by (destruct r1 as [[]|]; [by exists no_tree|done]).
  assert (one_is_whole (states ++ [s1]) s1) as Hw1.
  { destruct r as [u|e].
    - destruct Hr as (-> & -> & Hv). eapply whole_new; [by eapply verified_mono|done].
    - destruct Hr as [Ha|[_ Hb]]; destruct H1'; [left|right; left]; by eapply holds_ext. }
  split.
  - constructor; [done|]. apply Forall_app. split; [|by repeat apply Forall_cons_2].
    eapply Forall_impl; [exact Hw|]. intros s' Hs'. by eapply whole_mono.
  - destruct r as [u|e].
    + destruct Hr as (-> & -> & Hv). apply (verified_mono _ _ Hsub) in Hv.
      destruct r1 as [[]|e1]; [by destruct H1|]. right; left. by destruct H1'.
    + destruct Hr as [Ha|[Hagg Hb]].
      * destruct r1 as [[]|e1]; left; destruct H1'; by eapply holds_ext.
      * destruct r1 as [[]|e1]; [by right; right; left|]. right; right; right. by exists s, e1.
Qed.

Lemma replace_runs d : kept_outside [] d0 d →
  runs (try_finally
    (try_catch (install source destination staging backup verify)
       (λ failed, roll_back destination backup failed.1 failed.2))
    (ws (ws_rm staging))) transactional d.
Proof.
  intros Hk. apply runs_finally.
  assert (runs (try_catch (install source destination staging backup verify)
       (λ failed, roll_back destination backup failed.1 failed.2)) ended d) as He.
  { apply runs_catch. eapply runs_mono; [by apply install_runs|].
    intros [u|[e p]] s t [Hw Hr].
    - destruct Hr as (Hv & x & Hs). right. split; [done|]. by exists new, x, no_tree.
    - destruct Hr as [Hagg Hu]. eapply runs_mono; [by apply (roll_back_runs e p s t)|].
      intros r s' t' (Hr & Hun & Hw'). destruct Hw' as [Hf|Hw']; [by left|].
      destruct Hun as [[Hf _]|(a & x & b & Hs & He)]; [by left|]. right. split; [done|].
      exists a, x, b. split; [done|]. destruct r as [u|e']; [done|].
      destruct He as [[_ ?]|?]; [by left|by right]. }
  eapply runs_mono; [exact He|]. intros r s t Hend. by apply finally_transactional.
Qed.

Lemma transactional_cons r s1 s t :
  kept_outside [] d0 s1 → transactional r s t → transactional r s (s1 :: t).
Proof.
  intros Hk [[Hn Hf]|[Hw Hr]]; [left; split; [done|eapply failed_mono; [|done]; set_solver]|right].
  assert (Hsub : t ⊆ s1 :: t) by set_solver. inversion Hw as [|?? Hs Ht]; subst. split.
  - constructor; [by eapply whole_mono|]. constructor; [eauto using start_places|].
    eapply Forall_impl; [exact Ht|]. intros s' Hs'. by eapply whole_mono.
  - destruct r as [u|e]; [|destruct Hr as [?|[[? Hv]|?]]; [by left|right; left|by right; right]].
    + destruct Hr as (? & Hv & ?). eauto using verified_mono.
    + eauto using verified_mono.
Qed.

Lemma made_directory_runs p :
  runs (ws (ws_mkdir p);;
    try_finally
      (try_catch (install source destination staging backup verify)
         (λ failed, roll_back destination backup failed.1 failed.2))
      (ws (ws_rm staging))) transactional d0.
Proof.
  apply runs_bind, runs_ws. intros r s Hop. pose proof (mkdir_keeps p d0) as Hk. rewrite Hop in Hk.
  pose proof (start_places s Hk) as Hs. destruct r as [u|e].
  - eapply runs_mono; [by apply replace_runs|]. intros r s' t Ht. by apply transactional_cons.
  - right. split; [each_whole|]. left. by destruct Hs.
Qed.
End transaction.

(** ** The temporary names *)

Lemma temporary_component name kind suffix :
  is_component name → kind ≠ "" → has_unit SEP kind = false → has_unit SEP suffix = false →
  is_component ("." ++ name ++ kind ++ suffix)%string.
Proof.
  intros (Hn & _ & _ & Hs) Hk0 Hk Hu. split_and!; [done| | |].
  - destruct name as [|c name]; [done|]. by intros [=].
  - destruct name as [|c name]; [done|]. intros [= _ Ht]. destruct name, kind; done.
  - change ("." ++ ?t)%string with (String "." t). unfold has_unit in *. cbn [str_exists].
    rewrite !str_exists_app, Hs, Hk, Hu. done.
Qed.

Lemma staging_at parent name suffix :
  is_component name → has_unit SEP suffix = false →
  staging_path (parent ++ [name]) suffix = parent ++ ["." ++ name ++ ".staging-" ++ suffix]%string.
Proof.
  intros Hn Hu. unfold staging_path, dirname, basename. rewrite removelast_last, last_last.
  by apply resolve_from_component, temporary_component.
Qed.
Lemma backup_at parent name suffix :
  is_component name → has_unit SEP suffix = false →
  backup_path (parent ++ [name]) suffix = parent ++ ["." ++ name ++ ".backup-" ++ suffix]%string.
Proof.
  intros Hn Hu. unfold backup_path, dirname, basename. rewrite removelast_last, last_last.
  by apply resolve_from_component, temporary_component.
Qed.

Lemma temporary_names_differ name suffix :
  ("." ++ name ++ ".staging-" ++ suffix)%string ≠ name ∧ ("." ++ name ++ ".backup-" ++ suffix)%string ≠ name ∧
  ("." ++ name ++ ".staging-" ++ suffix)%string ≠ ("." ++ name ++ ".backup-" ++ suffix)%string.
Proof.
  split_and!; intros He.
  - apply (f_equal String.length) in He. rewrite !length_str_app in He. simpl in He. lia.
  - apply (f_equal String.length) in He. rewrite !length_str_app in He. simpl in He. lia.
  - by apply append_inj_r, append_inj_r in He.
Qed.

(** C12: Installing an artifact is a transaction.  Whatever call fails, at every
    moment - so also when the process is stopped - the previous artifact is whole
    in its place or in the backup, or the new one is in place and was verified
    there; on success the new one is in place, verified, and nothing temporary is
    left; and after a failure the previous one is back, unless undoing failed
    too, which is reported, or only the cleaning up did.  The one exception is a
    failure to remove the backup of the previous artifact: then neither may be
    left. *)
Theorem replacement_is_a_transaction {Disk} `{Workspace Disk} read_only (laws : WorkspaceLaws Disk read_only)
    source parent name suffix (verify : Io.io Disk script_error unit) d :
  let destination := parent ++ [name] in
  let staging := staging_path destination suffix in
  let backup := backup_path destination suffix in
  is_component name → has_unit SEP suffix = false →
  quiet verify → (∀ s e, (verify s).1.1 = Throw e → is_aggregate e = false) →
  Forall (apart source) [destination; staging; backup] →
  holds d staging no_tree → holds d backup no_tree →
  runs (replaceArtifactDirectory source destination suffix verify)
    (transactional source destination staging backup verify d) d.
Proof.
  intros destination staging backup Hn Hu Hv Hp Hap Hs Hb. unfold replaceArtifactDirectory.
  subst destination staging backup. rewrite staging_at, backup_at in * by done.
  destruct (temporary_names_differ name suffix) as (H1 & H2 & H3).
  rewrite !Forall_cons in Hap. destruct Hap as (Ha1 & Ha2 & Ha3 & _).
  apply (made_directory_runs _ _ _ _ _ Hv Hp); auto using siblings_apart.
Qed.

(** ** The command *)

(** The programs that only read. *)
Definition reads_only (command : list string) : Prop :=
  command = GIT_HEAD ∨ command = GIT_STATUS ∨ ∃ executable, command = [executable; "--version"].

Definition head_was `{Workspace Disk} (c : string) (s : Disk) : Prop :=
  ∃ child s', ws_spawn GIT_HEAD s = (Ret child, s') ∧ exitCode child = 0%Z ∧ trim (stdout child) = c.
Definition clean_tree `{Workspace Disk} (s : Disk) : Prop :=
  ∃ child s', ws_spawn GIT_STATUS s = (Ret child, s') ∧ exitCode child = 0%Z ∧ trim (stdout child) = "".

(** A commit that was the head before and after a moment without changes. *)
Definition current_commit `{Workspace Disk} (c : string) (states : list Disk) : Prop :=
  is_hex 40 c = true ∧
  ∃ s1 s2 s3, s1 ∈ states ∧ s2 ∈ states ∧ s3 ∈ states ∧ head_was c s1 ∧ clean_tree s2 ∧ head_was c s3.

Section commit.
Context {Disk} `{Workspace Disk}.

Lemma gitHead_runs (d : Disk) :
  runs gitHead (λ r s t, ∀ c, r = Ret c → is_hex 40 c = true ∧ head_was c d ∧ s ∈ d :: t) d.
Proof.
  apply runs_bind, runs_ws. intros [child|e] s Hs; [|done]. cbv beta iota zeta.
  destruct (negb (exitCode child =? 0)%Z || negb (is_hex 40 (trim (stdout child)))) eqn:Hg; [by apply runs_throw|]. apply orb_false_iff in Hg as [Hx Hc].
  apply negb_false_iff in Hx, Hc. apply Z.eqb_eq in Hx.
  apply runs_ret. intros c [= <-]. split_and!; [done|by exists child, s|set_solver].
Qed.

Lemma cleanGitHead_runs (d : Disk) :
  runs cleanGitHead (λ r s t, ∀ c, r = Ret c → current_commit c (d :: t)) d.
Proof.
  apply runs_bind. eapply runs_mono; [apply gitHead_runs|]. intros [c1|e] s1 t1 H1; [|done].
  destruct (H1 c1 eq_refl) as (_ & Hh1 & Hin1).
  apply runs_bind, runs_bind, runs_ws. intros [child|e] s2 Hs2; [|done]. cbv beta iota zeta.
  destruct (Z.eqb_spec (exitCode child) 0) as [Hx|]; [|by apply runs_throw]. apply runs_ret.
  apply runs_bind, runs_lift. unfold requireCleanGitWorktree.
  destruct (String.eqb_spec (trim (stdout child)) "") as [Hst|]; [|done].
  apply runs_bind. eapply runs_mono; [apply gitHead_runs|]. intros [c2|e] s3 t3 H3; [|done].
  destruct (H3 c2 eq_refl) as (Hhex & Hh3 & _).
  apply runs_bind, runs_lift. unfold requireUnchangedGitHead. destruct (String.eqb_spec c2 c1) as [->|]; [|done].
  apply runs_ret. intros c [= <-]. split; [done|].
  exists d, s1, s2. split_and!; [by left| | |done|by exists child, s2|done].
  - apply elem_of_cons in Hin1 as [->|]; set_solver.
  - set_solver.
Qed.

End commit.

Section command.
Context {Disk} `{Workspace Disk} `{JsonText} (sha256Hex : string → string) (repositoryRoot : path).
Context (platform architecture : string).

(** The artifact in state [s]: its manifest and bytes agree and name the commit,
    and where it can be run it says who it is. *)
Definition artifact_current (target c : string) (s : Disk) : Prop :=
  ∃ executable manifest,
    packaged sha256Hex repositoryRoot s target = Ret (executable, manifest) ∧
    mf_projectSourceCommit manifest = c ∧
    (nativeTargetFor platform architecture = Some target →
     ∃ child s', ws_spawn [executable; "--version"] s = (Ret child, s') ∧ exitCode child = 0%Z ∧
       identity_matches (trim (stdout child)) target c = true).

Lemma artifact_runs target c (d : Disk) :
  runs (verifyLocalArtifact sha256Hex repositoryRoot platform architecture target c)
    (λ r s t, r = Ret tt → artifact_current target c d) d.
Proof.
  unfold verifyLocalArtifact. apply runs_bind. unfold verifyPackaged, runs at 1.
  destruct (packaged _ _ d target) as [[executable manifest]|e] eqn:Hp; [|done]. cbn [fst snd].
  destruct (String.eqb_spec (mf_projectSourceCommit manifest) c) as [Hc|]; [|by apply runs_throw]. cbn [negb].
  case_bool_decide as Ht; cbn [negb].
  2: { apply runs_ret. intros _. by exists executable, manifest. }
  apply runs_bind, runs_bind, runs_ws. intros [child|e] s Hs; [|done]. cbv beta iota zeta.
  destruct (Z.eqb_spec (exitCode child) 0) as [Hx|]; [|by apply runs_throw]. apply runs_ret.
  destruct (identity_matches (trim (stdout child)) target c) eqn:Hi; [|by apply runs_throw]. apply runs_ret. intros _.
  exists executable, manifest. split_and!; [done|done|]. intros _. by exists child, s.
Qed.
End command.

(** ** The options *)

Lemma parse_arguments_target args target profile check o :
  (∀ t, target = Some t → js_elem t SUPPORTED_NATIVE_TARGETS = true) →
  parse_arguments args target profile check = Ret o →
  ∀ t, o.1.1 = Some t → js_elem t SUPPORTED_NATIVE_TARGETS = true.
Proof.
  remember (length args) as n eqn:Hn. assert (length args ≤ n) as Hle by lia. clear Hn.
  revert args Hle target profile check. induction n as [|n IH]; intros args Hle target profile check Ht.
  { destruct args; [|simpl in Hle; lia]. intros [= <-]. exact Ht. }
  destruct args as [|a args]; [intros [= <-]; exact Ht|]. simpl in Hle. cbn [parse_arguments].
  repeat case_match; try done; [by apply IH; [lia|..]..|].
  rewrite !guard_bind_iff. intros (_ & Hv & Hp). simpl in Hle.
  eapply IH; [|..|exact Hp]; [lia|]. by intros t [= <-].
Qed.

Lemma nativeTargetFor_supported platform architecture t :
  nativeTargetFor platform architecture = Some t → js_elem t SUPPORTED_NATIVE_TARGETS = true.
Proof.
  unfold nativeTargetFor. destruct (list_find _ _) as [[i kv]|] eqn:Hf; [|done]. intros [= <-].
  apply list_find_Some in Hf as (Hi & _ & _).
  assert (Forall (λ kv, js_elem kv.2 SUPPORTED_NATIVE_TARGETS = true) targetByPlatform) as Hall by (by repeat constructor).
  rewrite Forall_lookup in Hall. by eapply Hall.
Qed.

Lemma parsed_target args platform architecture options :
  parseLocalNativeOptions args platform architecture = Ret options →
  js_elem (ln_target options) SUPPORTED_NATIVE_TARGETS = true ∧
  (ln_checkOnly options = true → ln_profile options = release).
Proof.
  unfold parseLocalNativeOptions. intros Ho. apply bind_ret_iff in Ho as ([[target profile] check] & Hp & Ho).
  pose proof (parse_arguments_target args None release false _ ltac:(done) Hp) as Ht. cbn in Ht.
  revert Ho. set (found := match target with Some t => Some t | None => nativeTargetFor platform architecture end).
  assert (∀ t, found = Some t → js_elem t SUPPORTED_NATIVE_TARGETS = true) as Hs.
  { intros t. destruct target as [t'|]; [intros [= ->]; by apply Ht|apply nativeTargetFor_supported]. }
  destruct found as [t|]; [|done]. intros Ho.
  apply guard_bind_iff in Ho as [Hg [= <-]]. cbn. split; [by apply Hs|].
  intros ->. by case_bool_decide; destruct profile.
Qed.

Lemma supported_component t : js_elem t SUPPORTED_NATIVE_TARGETS = true → is_component t.
Proof.
  intros Ht%js_elem_spec. assert (Forall is_component SUPPORTED_NATIVE_TARGETS) as Hall by (by repeat constructor).
  rewrite Forall_forall in Hall. by apply Hall.
Qed.

Lemma resolve_components base cs : Forall is_component cs → resolve_in base cs = base ++ cs.
Proof.
  revert base. induction cs as [|c cs IH]; intros base Hc; [by rewrite app_nil_r|].
  inversion Hc; subst. unfold resolve_in in *. cbn [fold_left]. rewrite resolve_from_component by done.
  rewrite IH by done. by rewrite <- app_assoc.
Qed.

(** ** The command as a whole *)

Section main.
Context {Disk} `{Workspace Disk} `{JsonText} (sha256Hex : string → string) (repositoryRoot : path).
Context {laws : WorkspaceLaws Disk reads_only} (platform architecture execPath suffix : string).

Definition checks (target c : string) : Io.io Disk script_error unit :=
  verifyLocalArtifact sha256Hex repositoryRoot platform architecture target c;; requireCurrentSourceCommit c.

Ltac quiet_steps :=
  repeat first
    [ apply stays_bind; [apply _| |intros ?]
    | apply stays_ret; apply _ | apply stays_throw; apply _ | apply stays_lift; apply _
    | apply stays_call; [apply _|]; intros ?; apply spawn_keeps;
        first [by left|by right; left|right; right; by eexists]
    | case_match ].

Lemma quiet_cleanGitHead : quiet (Disk := Disk) cleanGitHead.
Proof. unfold quiet, cleanGitHead, gitHead, gitWorktreeStatus, fail, ws. quiet_steps. Qed.

Lemma quiet_packaged target : quiet (Disk := Disk) (verifyPackaged sha256Hex repositoryRoot target).
Proof.
  intros d. unfold runs, verifyPackaged. split; [by left|]. by repeat apply Forall_cons_2.
Qed.

Lemma quiet_checks target c : quiet (checks target c).
Proof.
  unfold quiet, checks, verifyLocalArtifact, executableVersion, requireCurrentSourceCommit, fail, ws.
  apply stays_bind; [apply _| |intros _; apply stays_bind; [apply _|apply quiet_cleanGitHead|intros ?; by apply stays_lift; apply _]].
  apply stays_bind; [apply _|apply quiet_packaged|intros ?]. quiet_steps.
Qed.

Definition simple (e : script_error) : Prop := is_aggregate e = false.

Ltac simple_steps :=
  repeat first
    [ apply throws_bind; [|intros ?] | apply throws_ret | apply throws_throw; exact eq_refl
    | apply throws_guard; exact eq_refl
    | apply throws_call; intros ?; exact eq_refl | case_match ].

Lemma simple_checks target c : throws simple (checks target c).
Proof.
  unfold checks, verifyLocalArtifact, executableVersion, requireCurrentSourceCommit, cleanGitHead, gitHead,
    gitWorktreeStatus, fail, ws.
  apply throws_bind; [|intros _; simple_steps]. apply throws_bind; [|intros ?; simple_steps].
  intros d. unfold runs, verifyPackaged. by destruct (packaged _ _ d target).
Qed.

(** What successful checks say of the state they began in, and of the states
    they went through. *)
Lemma checks_passed target c (d : Disk) :
  runs (checks target c) (λ r s t, r = Ret tt →
    artifact_current sha256Hex repositoryRoot platform architecture target c d ∧ current_commit c (d :: t)) d.
Proof.
  pose proof (artifact_runs sha256Hex repositoryRoot platform architecture target c d) as Ha.
  assert (quiet (verifyLocalArtifact (Disk := Disk) sha256Hex repositoryRoot platform architecture target c)) as Hq.
  { unfold quiet, verifyLocalArtifact, executableVersion, fail, ws.
    apply stays_bind; [apply _|apply quiet_packaged|intros ?]. quiet_steps. }
  specialize (Hq d). unfold checks. apply runs_bind. unfold runs in Ha, Hq |- * at 1.
  destruct (verifyLocalArtifact _ _ _ _ _ _ d) as [[r s] t]. destruct r as [[]|e]; [|done].
  specialize (Ha eq_refl). destruct Hq as [Hin _].
  unfold requireCurrentSourceCommit. apply runs_bind. eapply runs_mono; [apply cleanGitHead_runs|].
  intros [c'|e] s' t' Hc; [|done]. apply runs_lift. unfold requireUnchangedGitHead.
  destruct (String.eqb_spec c' c) as [->|]; [|done]. intros _. split; [done|].
  rewrite app_nil_r. destruct (Hc c eq_refl) as (Hhex & s1 & s2 & s3 & H1 & H2 & H3 & Hrest).
  split; [done|]. exists s1, s2, s3. set_solver.
Qed.

(** The temporary names of a target, and what programs leave alone. *)
Definition installed_at (target : string) : path := repositoryRoot ++ ["native"; "bin"; target].
Definition unused (target : string) (d : Disk) : Prop :=
  holds d (staging_path (installed_at target) suffix) no_tree ∧
  holds d (backup_path (installed_at target) suffix) no_tree.
Definition leaves_unused (target : string) (d d' : Disk) : Prop := unused target d → unused target d'.

#[local] Instance leaves_unused_preorder target : PreOrder (leaves_unused target).
Proof. split; unfold leaves_unused; [by intros d|]. intros d1 d2 d3. auto. Qed.

Lemma runs_stays {A} (R : Disk → Disk → Prop) (m : Io.io Disk script_error A) Q d :
  stays R m → (∀ r s t, runs m (λ r' s' t', r' = r ∧ s' = s ∧ t' = t) d → R d s → Q r s t) → runs m Q d.
Proof.
  intros Hs HQ. specialize (Hs d). unfold runs in *. destruct (m d) as [[r s] t]. destruct Hs as [Hin Hall].
  apply HQ; [done|]. rewrite Forall_forall in Hall. by apply Hall.
Qed.

(** What the command promises of its last state [d]. *)
Definition prepared (argv : list string) (r : outcome script_error string) (d : Disk) (states : list Disk) : Prop :=
  ∀ line, r = Ret line →
  ∃ options c s,
    parseLocalNativeOptions (drop 2 argv) platform architecture = Ret options ∧
    js_elem (ln_target options) SUPPORTED_NATIVE_TARGETS = true ∧
    current_commit c states ∧ s ∈ states ∧
    artifact_current sha256Hex repositoryRoot platform architecture (ln_target options) c s ∧
    holds d (installed_at (ln_target options)) (tree_at s (installed_at (ln_target options))).

Lemma current_mono c t t' : t ⊆ t' → current_commit (Disk := Disk) c t → current_commit c t'.
Proof. intros Ht (Hh & s1 & s2 & s3 & ?). split; [done|]. exists s1, s2, s3. set_solver. Qed.

(** Checking what is installed. *)
Lemma check_runs target c (d : Disk) :
  runs (checks target c) (λ r s t, r = Ret tt →
    artifact_current sha256Hex repositoryRoot platform architecture target c d ∧
    holds s (installed_at target) (tree_at d (installed_at target))) d.
Proof.
  pose proof (checks_passed target c d) as Hp. pose proof (quiet_checks target c d) as Hq.
  unfold runs in *. destruct (checks target c d) as [[r s] t]. intros Hr. destruct (Hp Hr) as [Ha _].
  split; [done|]. destruct Hq as [Hin Hk]. rewrite Forall_forall in Hk.
  eapply holds_kept; [by apply Hk|constructor|done].
Qed.

(** Installing what was assembled. *)
Lemma install_artifact_runs target c (d : Disk) source :
  js_elem target SUPPORTED_NATIVE_TARGETS = true → has_unit SEP suffix = false → unused target d →
  source = repositoryRoot ++ ["native"; "artifacts"; target] →
  runs (replaceArtifactDirectory source (installed_at target) suffix (checks target c))
    (λ r s t, r = Ret tt → ∃ s0, s0 ∈ t ∧
      artifact_current sha256Hex repositoryRoot platform architecture target c s0 ∧
      holds s (installed_at target) (tree_at s0 (installed_at target))) d.
Proof.
  intros Ht Hu [Hs Hb] ->. pose proof (supported_component _ Ht) as Hc.
  assert (Hat : installed_at target = (repositoryRoot ++ ["native"; "bin"]) ++ [target]) by (unfold installed_at; by rewrite <- app_assoc).
  assert (Hap : ∀ x, apart (repositoryRoot ++ ["native"; "artifacts"; target]) ((repositoryRoot ++ ["native"; "bin"]) ++ [x])).
  { intros x. rewrite <- app_assoc. split; intros [k Hk]; rewrite <- app_assoc in Hk; by apply app_inv_head in Hk. }
  rewrite Hat in *. eapply runs_mono.
  { apply (replacement_is_a_transaction reads_only laws); [done|done|apply quiet_checks| | |done|done].
    - intros s e He. pose proof (simple_checks target c s) as Hp. unfold runs in Hp.
      destruct (checks target c s) as [[r s'] t]. cbn in He. by subst r.
    - rewrite staging_at, backup_at by done. by repeat apply Forall_cons_2. }
  intros r s t [[Hn _]|[_ Hr]] ->; [by destruct (Hn tt)|]. destruct Hr as (Hnew & (s0 & Hin & Hnew0 & Hv) & _).
  exists s0. split; [done|]. pose proof (checks_passed target c s0) as Hp. unfold runs in Hp.
  destruct (checks target c s0) as [[r s'] t']. cbn in Hv. split; [by apply Hp|].
  intros rel. by rewrite Hnew, <- Hnew0.
Qed.

Context (Hprograms : ∀ target command d, js_elem target SUPPORTED_NATIVE_TARGETS = true →
  unused target d → unused target (ws_spawn command d).2).

Ltac unused_steps :=
  repeat first
    [ apply stays_bind; [apply _| |intros ?]
    | apply stays_ret; apply _ | apply stays_throw; apply _ | apply stays_lift; apply _
    | apply stays_call; [apply _|]; intros ?; red; auto | case_match ].

Lemma run_stays target command :
  js_elem target SUPPORTED_NATIVE_TARGETS = true → stays (leaves_unused target) (run (Disk := Disk) command).
Proof. intros Ht. unfold run, fail, ws. unused_steps. Qed.
Lemma cleanGitHead_stays target :
  js_elem target SUPPORTED_NATIVE_TARGETS = true → stays (leaves_unused target) (cleanGitHead (Disk := Disk)).
Proof. intros Ht. unfold cleanGitHead, gitHead, gitWorktreeStatus, fail, ws. unused_steps. Qed.
Lemma requireCurrent_stays target c :
  js_elem target SUPPORTED_NATIVE_TARGETS = true →
  stays (leaves_unused target) (requireCurrentSourceCommit (Disk := Disk) c).
Proof.
  intros Ht. unfold requireCurrentSourceCommit. apply stays_bind; [apply _|by apply cleanGitHead_stays|].
  intros ?. apply stays_lift, _.
Qed.

(** What the action of the command leaves, from state [s] to state [s']. *)
Definition current_after (target c : string) (s : Disk) (r : outcome script_error unit) (s' : Disk) (t : list Disk) : Prop :=
  r = Ret tt → ∃ s0, s0 ∈ s :: t ∧
    artifact_current sha256Hex repositoryRoot platform architecture target c s0 ∧
    holds s' (installed_at target) (tree_at s0 (installed_at target)).

Lemma then_runs {A} target c (m : Io.io Disk script_error A) k s :
  stays (leaves_unused target) m → unused target s →
  (∀ s', unused target s' → runs k (current_after target c s') s') →
  runs (m;; k) (current_after target c s) s.
Proof.
  intros Hm Hs Hk. specialize (Hm s). apply runs_bind. unfold runs in Hm |- * at 1.
  destruct (m s) as [[[a|e] s1] t1]; [|done]. destruct Hm as [Hin Hall].
  assert (unused target s1) as H1. { rewrite Forall_forall in Hall. by apply (Hall _ Hin). }
  eapply runs_mono; [by apply Hk|]. intros r s2 t2 Hr ->. destruct (Hr eq_refl) as (s0 & Hin0 & Hrest).
  exists s0. split; [|done]. apply elem_of_cons in Hin0 as [->|]; set_solver.
Qed.

Lemma action_runs options c s :
  js_elem (ln_target options) SUPPORTED_NATIVE_TARGETS = true → has_unit SEP suffix = false →
  unused (ln_target options) s →
  let target := ln_target options in
  let paths := resolveLocalNativePaths repositoryRoot target (ln_profile options) in
  runs (if negb (ln_checkOnly options) then
     run ([execPath; "scripts/build-native.ts"] ++
          (if bool_decide (ln_profile options = release) then ["--release"] else []) ++ ["--target"; target]);;
     requireCurrentSourceCommit c;;
     run [execPath; "scripts/assemble-native-artifact.ts"; "--target"; target;
          "--executable"; path_text (ln_executable paths); "--source-commit"; c];;
     replaceArtifactDirectory (assembledArtifact paths) (installedArtifact paths) suffix (checks target c)
   else checks target c) (current_after target c s) s.
Proof.
  intros Ht Hu Hs target paths. pose proof (supported_component _ Ht) as Hc.
  assert (installedArtifact paths = installed_at target) as ->
    by (apply resolve_components; by repeat apply Forall_cons_2).
  assert (assembledArtifact paths = repositoryRoot ++ ["native"; "artifacts"; target]) as Has
    by (apply resolve_components; by repeat apply Forall_cons_2).
  destruct (negb (ln_checkOnly options)).
  - apply then_runs; [by apply run_stays|done|intros s1 H1].
    apply then_runs; [by apply requireCurrent_stays|done|intros s2 H2].
    apply then_runs; [by apply run_stays|done|intros s3 H3].
    eapply runs_mono; [by apply install_artifact_runs|]. intros r s' t Hr ->.
    destruct (Hr eq_refl) as (s0 & Hin & Hrest). exists s0. split; [set_solver|done].
  - eapply runs_mono; [apply check_runs|]. intros r s' t Hr ->. destruct (Hr eq_refl). exists s. split; [set_solver|done].
Qed.

Lemma main_runs argv d :
  js_elem "--help" argv = false → has_unit SEP suffix = false →
  (∀ target, js_elem target SUPPORTED_NATIVE_TARGETS = true → unused target d) →
  runs (main sha256Hex repositoryRoot argv platform architecture execPath suffix)
    (λ r d' t, prepared argv r d' (d :: t)) d.
Proof.
  intros Hhelp Hu Hd. unfold main. rewrite Hhelp.
  apply runs_bind, runs_lift. destruct (parseLocalNativeOptions _ _ _) as [options|e] eqn:Ho; [|done].
  destruct (parsed_target _ _ _ _ Ho) as [Ht _]. specialize (Hd _ Ht).
  apply runs_bind. pose proof (cleanGitHead_stays _ Ht d) as Hs. pose proof (cleanGitHead_runs d) as Hc.
  unfold runs in Hs, Hc |- * at 1. destruct (cleanGitHead d) as [[[c|e] s1] t1]; [|done].
  specialize (Hc c eq_refl). destruct Hs as [Hin Hall].
  assert (unused (ln_target options) s1) as H1. { rewrite Forall_forall in Hall. by apply (Hall _ Hin). }
  apply runs_bind. eapply runs_mono; [by apply action_runs|].
  intros [[]|e] s2 t2 H2; [|done]. apply runs_ret. intros line [= <-].
  destruct (H2 eq_refl) as (s0 & Hin0 & Ha & Hh). exists options, c, s0. rewrite app_nil_r.
  split_and!; [done|done| | |done|done].
  - eapply current_mono; [|exact Hc]. set_solver.
  - apply elem_of_cons in Hin0 as [->|]; set_solver.
Qed.
End main.

(** The command ends well only with an artifact of the commit that is checked
    out.  When it returns - after building or only checking - the target is a
    supported one, the head of the repository was one commit before and after a
    moment without changes, and what is installed at the end is what passed the
    checks: the manifest and the bytes agree, the manifest names that commit, and
    an executable that can run here reports the protocol, the Codex version and
    source, the target and that commit. *)
Theorem installed_artifact_is_current {Disk} `{Workspace Disk} `{JsonText} (sha256Hex : string → string)
    (laws : WorkspaceLaws Disk reads_only) repositoryRoot argv platform architecture execPath suffix d :
  js_elem "--help" argv = false → has_unit SEP suffix = false →
  (∀ target, js_elem target SUPPORTED_NATIVE_TARGETS = true → unused repositoryRoot suffix target d) →
  (∀ target command s, js_elem target SUPPORTED_NATIVE_TARGETS = true →
     unused repositoryRoot suffix target s → unused repositoryRoot suffix target (ws_spawn command s).2) →
  runs (main sha256Hex repositoryRoot argv platform architecture execPath suffix)
    (λ r d' t, prepared sha256Hex repositoryRoot platform architecture argv r d' (d :: t)) d.
Proof. intros Hhelp Hu Hd Hprograms. by apply main_runs. Qed.

(** ** A checkout *)

Definition sample_target : string := "x86_64-unknown-linux-musl".
Definition sample_commit : string := "0123456789012345678901234567890123456789".
Definition sample_sha256 (_ : string) : string := String.concat "" (repeat "00000000" 8).

Definition sample_manifest (commit : string) : jsval := VObj
  [("schemaVersion", VNum (num_of_Z 1)); ("target", VStr sample_target); ("executable", VStr "codex-bridge");
   ("executableSize", VNum (num_of_Z 3)); ("executableSha256", VStr (sample_sha256 ""));
   ("bridgeProtocolVersion", VNum (num_of_Z BRIDGE_PROTOCOL_VERSION)); ("officialCodexVersion", VStr OFFICIAL_CODEX_VERSION);
   ("officialCodexTag", VStr OFFICIAL_CODEX_TAG); ("officialSourceCommit", VStr OFFICIAL_SOURCE_COMMIT);
   ("vendorTreeSha256", VStr VENDOR_TREE_SHA256); ("projectSourceCommit", VStr commit)].

Definition sample_version : string :=
  ("codex-bridge 0.1.0 (protocol 8, codex " ++ OFFICIAL_CODEX_VERSION ++ ", source " ++ OFFICIAL_SOURCE_COMMIT ++
   ", target " ++ sample_target ++ ", build " ++ sample_commit ++ ")")%string.

Definition sample_programs (command : list string) : outcome errno process_result :=
  Ret {| exitCode := 0;
         stdout := if bool_decide (command = GIT_HEAD) then sample_commit
                   else if bool_decide (command = GIT_STATUS) then "" else sample_version |}.

Definition artifact_files (dir : path) (text bytes : string) : list (path * string) :=
  [(dir ++ ["native-artifact.json"], text); (dir ++ ["codex-bridge"], bytes)].

Definition sample_checkout (files : list (path * string)) (plan : list fault) : checkout :=
  {| co_files := files; co_programs := sample_programs; co_plan := plan |}.

Definition assembled_dir : path := ["r"; "native"; "artifacts"; sample_target].
Definition installed_dir : path := ["r"; "native"; "bin"; sample_target].
Definition two_artifacts (plan : list fault) : checkout :=
  sample_checkout (artifact_files assembled_dir "new" "NEW" ++ artifact_files installed_dir "old" "OLD") plan.

Example identity_of_sample : identity_matches sample_version sample_target sample_commit = true.
Proof. vm_compute. reflexivity. Qed.

(** Accepts the new artifact in its place. *)
Definition sample_verify : Io.io checkout script_error unit := λ d,
  (if bool_decide (file d (installed_dir ++ ["codex-bridge"]) = Some "NEW") then Ret tt
   else Throw (failure "not the new one"), d, []).
Lemma sample_verify_quiet : quiet sample_verify.
Proof. intros d. split; [by left|]. by repeat apply Forall_cons_2. Qed.
Lemma sample_verify_simple s e : (sample_verify s).1.1 = Throw e → is_aggregate e = false.
Proof. unfold sample_verify. case_bool_decide; [done|]. by intros [= <-]. Qed.

(** Installing a new artifact over an old one. *)
Lemma replacement_is_a_transaction_witness :
  let '(r, d, _) := replaceArtifactDirectory assembled_dir installed_dir "1" sample_verify (two_artifacts []) in
  r = Ret tt ∧ file d (installed_dir ++ ["codex-bridge"]) = Some "NEW" ∧
  runs (replaceArtifactDirectory assembled_dir installed_dir "1" sample_verify)
    (transactional assembled_dir installed_dir (staging_path installed_dir "1") (backup_path installed_dir "1")
       sample_verify (two_artifacts [])) (two_artifacts []).
Proof.
  split; [vm_compute; reflexivity|]. split; [vm_compute; reflexivity|].
  apply (replacement_is_a_transaction _ checkout_laws assembled_dir ["r"; "native"; "bin"] sample_target "1"
    sample_verify (two_artifacts [])).
  - by apply supported_component.
  - reflexivity.
  - apply sample_verify_quiet.
  - apply sample_verify_simple.
  - assert (∀ x, apart assembled_dir (["r"; "native"; "bin"] ++ [x])) as Ha.
    { intros x. split; intros [k Hk]; discriminate. }
    change (Forall (apart assembled_dir) [["r"; "native"; "bin"] ++ [sample_target];
      ["r"; "native"; "bin"] ++ ["." ++ sample_target ++ ".staging-1"]%string;
      ["r"; "native"; "bin"] ++ ["." ++ sample_target ++ ".backup-1"]%string]).
    by repeat apply Forall_cons_2.
  - apply holds_nothing. vm_compute. reflexivity.
  - apply holds_nothing. vm_compute. reflexivity.
Defined.

(** When the backup is removed only in part, the verified new artifact is removed
    too, and what is put back is the rest of the old one. *)
Lemma backup_removal_loses_both :
  let plan := [works; works; works; works; works; stops_at "codex-bridge"] in
  let '(r, d, _) := replaceArtifactDirectory assembled_dir installed_dir "1" sample_verify (two_artifacts plan) in
  r = Throw (platform_error other_errno) ∧
  file d (installed_dir ++ ["codex-bridge"]) = Some "OLD" ∧
  file d (installed_dir ++ ["native-artifact.json"]) = None.
Proof. vm_compute. split_and!; reflexivity. Qed.

Definition installed_checkout : checkout :=
  sample_checkout (artifact_files installed_dir (@stringify bits_json (sample_manifest sample_commit)) "NEW") [].

Lemma spawn_files (command : list string) (d : checkout) : co_files (ws_spawn command d).2 = co_files d.
Proof. cbn. by destruct (co_plan d) as [|[] ?]. Qed.

Lemma unused_same suffix target (d d' : checkout) :
  co_files d' = co_files d → unused ["r"] suffix target d → unused ["r"] suffix target d'.
Proof. intros He [Hs Hb]. split; intros rel; cbn; rewrite He; [apply Hs|apply Hb]. Qed.

(** Checking an artifact that is installed. *)
Lemma installed_artifact_is_current_witness :
  let command := main (H0 := bits_json) sample_sha256 ["r"] ["bun"; "prepare-local-native.ts"; "--check"] "linux" "x64" "bun" "1" in
  (command installed_checkout).1.1 =
    Ret "Verified local native artifact for x86_64-unknown-linux-musl at /r/native/bin/x86_64-unknown-linux-musl" ∧
  runs command
    (λ r d' t, prepared (H0 := bits_json) sample_sha256 ["r"] "linux" "x64"
       ["bun"; "prepare-local-native.ts"; "--check"] r d' (installed_checkout :: t)) installed_checkout.
Proof.
  split; [vm_compute; reflexivity|].
  apply (installed_artifact_is_current (H0 := bits_json) sample_sha256).
  - apply (Build_WorkspaceLaws checkout _ reads_only); apply checkout_laws || (intros; by apply checkout_laws).
  - reflexivity.
  - reflexivity.
  - intros target Ht%js_elem_spec. assert (Forall (λ t, unused ["r"] "1" t installed_checkout) SUPPORTED_NATIVE_TARGETS) as Hall.
    { repeat apply Forall_cons_2; try apply Forall_nil_2; split; apply holds_nothing; vm_compute; reflexivity. }
    rewrite Forall_forall in Hall. by apply Hall.
  - intros target command s _. apply unused_same, spawn_files.
Defined.
