(* ===== verification/Vendor.v ===== *)
(** * Vendor

    [src/scripts/sync-codex-upstream.ts]: the vendored sources of the official
    Codex are checked against the manifest that pins them, refreshed from the
    commit it names, and recorded file by file.

    The TOML parser is a parameter, at the type the code casts its result to.
    Walking a directory has fuel, the depth of the tree. *)

From S2P Require Import Prelude Io Paths Workspace Json Protocol Decimal Render JsRegex.

(** ** The manifests *)

Record UpstreamManifest := {
  um_schema_version : Z;
  um_version : string;
  um_tag : string;
  um_annotated_tag_object : string;
  um_source_commit : string;
  um_repository : string;
  um_license : string;
  um_rust_toolchain : string;
  um_status : string;
  um_tree_sha256 : string;
  um_allowlist_manifest : option string;
  um_allowlist_sha256 : option string;
  um_license_inventory : option string;
  um_license_inventory_sha256 : option string;
  um_sbom : option string;
  um_sbom_sha256 : option string;
  um_patches : list string;
  um_excluded_crates : list string;
  um_selected_crates : list string }.

Record VendorFileRecord := { vf_path : string; vf_source_sha256 : string; vf_vendor_sha256 : string }.

(** [type_error] is what the language throws for a value of another shape;
    [depth_exceeded] is being out of fuel. *)
Inductive sync_error :=
| platform_error (e : errno)
| failure (message : string)
| syntax_error
| type_error
| depth_exceeded.

Definition baseline_annotatedTagObject : string := "be449751a978f02e5bbba886999662956c7f38f5".
Definition baseline_rustToolchain : string := "1.95.0".
Definition baseline_sourceCommit : string := "e363b08c9175ac1cbe5893615dd2cb9ddf95043b".
Definition baseline_tag : string := "rust-v0.146.0".
Definition baseline_version : string := "0.146.0".

Definition selectedCrates : list (string * string) := [
  ("codex-api", "codex-rs/codex-api");
  ("codex-async-utils", "codex-rs/async-utils");
  ("codex-client", "codex-rs/codex-client");
  ("codex-execpolicy", "codex-rs/execpolicy");
  ("codex-extension-items", "codex-rs/ext/items");
  ("codex-http-client", "codex-rs/http-client");
  ("codex-network-proxy", "codex-rs/network-proxy");
  ("codex-protocol", "codex-rs/protocol");
  ("codex-utils-absolute-path", "codex-rs/utils/absolute-path");
  ("codex-utils-cache", "codex-rs/utils/cache");
  ("codex-utils-home-dir", "codex-rs/utils/home-dir");
  ("codex-utils-image", "codex-rs/utils/image");
  ("codex-utils-output-truncation", "codex-rs/utils/output-truncation");
  ("codex-utils-path-uri", "codex-rs/utils/path-uri");
  ("codex-utils-pty", "codex-rs/utils/pty");
  ("codex-utils-rustls-provider", "codex-rs/utils/rustls-provider");
  ("codex-utils-string", "codex-rs/utils/string");
  ("codex-websocket-client", "codex-rs/websocket-client")].

Definition selectedSourcePaths : list string := [
  "LICENSE"; "NOTICE"; "codex-rs/Cargo.lock"; "codex-rs/Cargo.toml";
  "codex-rs/models-manager/models.json"; "codex-rs/models-manager/prompt.md"] ++
  selectedCrates.*2 ++ [
  "codex-rs/tools/Cargo.toml"; "codex-rs/tools/src/dynamic_tool.rs"; "codex-rs/tools/src/dynamic_tool_tests.rs";
  "codex-rs/tools/src/json_schema.rs"; "codex-rs/tools/src/json_schema_tests.rs"; "codex-rs/tools/src/mcp_tool.rs";
  "codex-rs/tools/src/mcp_tool_tests.rs"; "codex-rs/tools/src/responses_api.rs";
  "codex-rs/tools/src/responses_api_tests.rs"; "codex-rs/tools/src/response_history.rs";
  "codex-rs/tools/src/tool_definition.rs"; "codex-rs/tools/src/tool_definition_tests.rs";
  "codex-rs/tools/src/tool_spec.rs"; "codex-rs/tools/src/tool_spec_tests.rs";
  "codex-rs/core/src/tools/handlers/plan_spec.rs"; "codex-rs/core/src/tools/handlers/apply_patch.lark";
  "codex-rs/core/src/tools/handlers/apply_patch_spec.rs"; "codex-rs/core/src/tools/handlers/apply_patch_spec_tests.rs";
  "codex-rs/core/src/tools/handlers/shell_spec.rs"; "codex-rs/core/src/tools/handlers/shell_spec_tests.rs";
  "codex-rs/core/src/tools/handlers/view_image_spec.rs"; "codex-rs/core/src/tools/hosted_spec.rs";
  "codex-rs/core/src/tools/hosted_spec_tests.rs"; "codex-rs/apply-patch/src/parser.rs";
  "codex-rs/apply-patch/src/seek_sequence.rs"; "codex-rs/apply-patch/src/streaming_parser.rs";
  "codex-rs/ext/image-generation/imagegen_description.md"; "codex-rs/ext/web-search/src/schema.rs";
  "codex-rs/ext/web-search/web_run_description.md"].

Definition supplementalLicensePackages : list (string * string) := [
  ("codex-model-metadata", "codex-rs/models-manager");
  ("codex-tools-p0-modules", "codex-rs/tools");
  ("codex-core-p0-tool-specs", "codex-rs/core/src/tools");
  ("codex-apply-patch-parser-modules", "codex-rs/apply-patch/src");
  ("codex-image-generation-tool-contract", "codex-rs/ext/image-generation");
  ("codex-standalone-web-search-contract", "codex-rs/ext/web-search")].

Definition excludedCrates : list string := ["codex-app-server"; "codex-core"; "codex-exec-server"; "codex-login"].

Definition defaultFileManifestPath : string := "native/upstream/openai-codex-files.json".
Definition defaultLicenseInventoryPath : string := "native/upstream/openai-codex-licenses.json".

(** ** Paths *)

Definition normalizePath (p : string) : string := join "/" (split_on SEP p).

Definition ESCAPES : sync_error := failure "Recorded upstream path escapes its allowed root".
Definition resolveWithin (root : path) (p : string) : outcome sync_error path :=
  let absolute := resolve_from root p in
  let relativePath := relative_text root absolute in
  if String.eqb relativePath "" || String.eqb relativePath ".." || starts_with "../" relativePath || isAbsolute p
  then Throw ESCAPES else Ret absolute.

(** [paths.sort()]: by the texts of the paths. *)
Definition path_le (p q : path) : Prop := str_le (path_text p) (path_text q).
#[export] Instance path_le_dec p q : Decision (path_le p q).
Proof. unfold path_le. apply _. Defined.
Definition sort_paths (l : list path) : list path := merge_sort path_le l.

(** ** Values of JSON files *)

(** [v.k], which throws for [null] and [undefined]. *)
Definition prop (v : jsval) (k : string) : outcome sync_error jsval :=
  match v with
  | VObj fs => Ret (field fs k)
  | VNull | VUndef => Throw type_error
  | _ => Ret VUndef
  end.
Definition is_value (v : jsval) (s : string) : bool := match v with VStr t => String.eqb t s | _ => false end.
Definition is_one (v : jsval) : bool := match v with VNum n => num_eqb n (num_of_Z 1) | _ => false end.

(** A digest that is not a string is refused here; the code refuses it when it
    compares it. *)
Definition file_record (v : jsval) : outcome sync_error VendorFileRecord :=
  match v with
  | VObj fs =>
      match field fs "path", field fs "source_sha256", field fs "vendor_sha256" with
      | VStr p, VStr s, VStr t => Ret {| vf_path := p; vf_source_sha256 := s; vf_vendor_sha256 := t |}
      | _, _, _ => Throw type_error
      end
  | _ => Throw type_error
  end.
Definition file_records (v : jsval) : outcome sync_error (list VendorFileRecord) :=
  match v with VArr l => map_throw file_record l | _ => Throw type_error end.

(** The names of the license files, which are compared as text. *)
Definition text_list (v : jsval) : outcome sync_error (list string) :=
  match v with
  | VArr l => map_throw (λ v, match v with VStr s => Ret s | _ => Throw type_error end) l
  | _ => Throw type_error
  end.

Definition integer_text (n : Z) : string := if (n <? 0)%Z then ("-" ++ decimal (- n))%string else decimal n.

(** ** The closure *)

Definition closure_names : list string := (selectedCrates ++ supplementalLicensePackages).*1.

Definition assertExactStringSet (actual expected : list string) (name : string) : outcome sync_error unit :=
  let uniqueActual := dedup [] actual in
  guard_throw ((length uniqueActual =? length actual)%nat && strs_eqb (js_sort uniqueActual) (js_sort expected))
    (failure ("UPSTREAM_CODEX.toml " ++ name ++ " does not match the selected source closure")%string).

Definition assertVendorClosure (manifest : UpstreamManifest) : outcome sync_error unit :=
  assertExactStringSet (um_selected_crates manifest) closure_names "vendor.selected_crates";;
  assertExactStringSet (um_excluded_crates manifest) excludedCrates "vendor.excluded_crates".

Definition expectedLicensePackages (manifest : UpstreamManifest) : list jsval :=
  (λ p : string * string, VObj [("name", VStr p.1); ("source_path", VStr p.2); ("license", VStr (um_license manifest))])
    <$> selectedCrates ++ supplementalLicensePackages.

(** ** Bridge identity constants *)

Definition QUOTES : string := String (ascii_of_N 34) "'".

(** The name as a word, anything but an equals sign or a line feed, an equals
    sign, spaces, and a text between quotes of either kind, which is the group. *)
Definition assignment_of (name : string) : pattern := {|
  lead := RSeq RBoundary (RSeq (literal name) (RSeq RBoundary (RSeq (RMany 0 (none_of ("=" ++ line_feed)))
            (RSeq (RUnit (Ascii.eqb "=")) (RSeq (RMany 0 is_js_space) (RUnit (one_of QUOTES)))))));
  group := RMany 1 (none_of QUOTES);
  tail := RUnit (one_of QUOTES);
  text := id |}.

Definition readAssignedStringConstant (source name : string) : outcome sync_error string :=
  match match_all (assignment_of name) source with
  | [value] => Ret value
  | _ => Throw (failure ("Bridge identity constant " ++ name ++ " must have exactly one string assignment")%string)
  end.

(** ** The commands *)

Definition GIT_TAG (manifest : UpstreamManifest) : string := ("refs/tags/" ++ um_tag manifest)%string.
Definition git_in (root : path) (rest : list string) : list string := ["git"; "-C"; path_text root] ++ rest.
Definition git_init (root : path) : list string := ["git"; "init"; "--quiet"; path_text root].
Definition git_fetch (root : path) (manifest : UpstreamManifest) : list string :=
  git_in root ["fetch"; "--quiet"; "--depth=1"; "origin"; (GIT_TAG manifest ++ ":" ++ GIT_TAG manifest)%string].
Definition git_checkout (root : path) (commit : string) : list string :=
  git_in root ["checkout"; "--quiet"; "--detach"; commit].
Definition git_apply (root : path) (check : bool) (patchPath : path) : list string :=
  git_in root (["apply"] ++ (if check then ["--check"] else []) ++
    ["--directory=native/vendor/openai-codex"; path_text patchPath]).

Section vendor.
Context {Disk : Type} `{SourceTree Disk} `{JsonText}.
Context (sha256 : string → string) (parse : string → option UpstreamManifest).
Context (repositoryRoot tmpdir : path).

Abbreviation io A := (Io.io Disk sync_error A).
Definition fs {A} (op : Disk → outcome errno A * Disk) : io A := io_call platform_error op.
Definition fail {A} (message : string) : io A := io_throw (failure message).

Definition vendorRoot : path := resolve_from repositoryRoot "native/vendor/openai-codex".

(** ** Walking the tree *)

Section collect.
Context (collectFiles : path → io (list path)).
(** The loop over the entries of a directory. *)
Fixpoint collect_entries (directory : path) (entries : list (string * kind)) (paths : list path) : io (list path) :=
  match entries with
  | [] => mret paths
  | (name, k) :: entries =>
      let p := resolve_from directory name in
      match k with
      | k_symlink => fail ("Symbolic links are not allowed in the upstream tree: " ++ path_text p)
      | k_directory => below ← collectFiles p; collect_entries directory entries (paths ++ below)
      | k_file => collect_entries directory entries (if String.eqb name ".gitkeep" then paths else paths ++ [p])
      | k_other => fail ("Unsupported file type in the upstream tree: " ++ path_text p)
      end
  end.
End collect.

Fixpoint collectFiles (depth : nat) (directory : path) : io (list path) :=
  match depth with
  | O => io_throw depth_exceeded
  | S depth =>
      entries ← fs (tr_readdir directory);
      paths ← collect_entries (collectFiles depth) directory entries [];
      mret (sort_paths paths)
  end.

Context (depth : nat).

Definition assertDirectoryContainsNoVendorFiles (directory : path) : io unit :=
  files ← collectFiles depth directory;
  io_lift (guard_throw (length files =? 0)%nat (failure "Vendor initialization requires an empty vendor tree")).

Definition collect_selected (sourceRoot : path) (selectedPath : string) : io (list path) :=
  absolutePath ← io_lift (resolveWithin sourceRoot selectedPath);
  metadata ← fs (tr_lstat absolutePath);
  match metadata with
  | k_directory => collectFiles depth absolutePath
  | k_file => mret [absolutePath]
  | _ => fail ("Selected upstream path is not a regular file or directory: " ++ selectedPath)
  end.

Fixpoint collect_all (sourceRoot : path) (selected : list string) (files : list path) : io (list path) :=
  match selected with
  | [] => mret files
  | selectedPath :: selected =>
      more ← collect_selected sourceRoot selectedPath; collect_all sourceRoot selected (files ++ more)
  end.

Definition collectSelectedSourceFiles (sourceRoot : path) : io (list string) :=
  files ← collect_all sourceRoot selectedSourcePaths [];
  mret (js_sort (dedup [] ((λ file, normalizePath (relative_text sourceRoot file)) <$> files))).

(** The text that is hashed, file by file, is the concatenation of the lines. *)
Record tree_hash := { th_files : list string; th_sha256 : string }.

Definition NUL : string := String (ascii_of_N 0) "".
Definition tree_line (relativePath fileHash : string) : string := (relativePath ++ NUL ++ fileHash ++ line_feed)%string.

Fixpoint hash_lines (files : list path) (tree : string) : io string :=
  match files with
  | [] => mret tree
  | file :: files =>
      bytes ← fs (tr_readFile file);
      hash_lines files (tree ++ tree_line (normalizePath (relative_text vendorRoot file)) (sha256 bytes))
  end.

Definition calculateTreeHash : io tree_hash :=
  files ← collectFiles depth vendorRoot;
  tree ← hash_lines files "";
  mret {| th_files := (λ file, normalizePath (relative_text vendorRoot file)) <$> files; th_sha256 := sha256 tree |}.

(** ** The pinned source *)

Definition run (command : list string) : io string :=
  child ← fs (tr_spawn command);
  if negb (exitCode child =? 0)%Z
  then fail (List.hd "" command ++ " exited with status " ++ decimal (exitCode child))
  else mret (trim (stdout child)).

Definition dispose (checkoutRoot : path) : io unit := fs (tr_rm checkoutRoot).

Definition fetch_into (manifest : UpstreamManifest) (checkoutRoot : path) : io unit :=
  run (git_init checkoutRoot);;
  run (git_in checkoutRoot ["remote"; "add"; "origin"; um_repository manifest]);;
  run (git_fetch checkoutRoot manifest);;
  tagObject ← run (git_in checkoutRoot ["rev-parse"; GIT_TAG manifest]);
  io_lift (guard_throw (String.eqb tagObject (um_annotated_tag_object manifest))
    (failure "Fetched tag object does not match UPSTREAM_CODEX.toml"));;
  sourceCommit ← run (git_in checkoutRoot ["rev-parse"; (GIT_TAG manifest ++ "^{commit}")%string]);
  io_lift (guard_throw (String.eqb sourceCommit (um_source_commit manifest))
    (failure "Fetched tag does not peel to the pinned source commit"));;
  run (git_checkout checkoutRoot sourceCommit);;
  mret tt.

Definition fetchPinnedSource (manifest : UpstreamManifest) : io path :=
  checkoutRoot ← fs (tr_mkdtemp (resolve_from tmpdir "pi-codex-upstream-"));
  try_catch (fetch_into manifest checkoutRoot) (λ error, dispose checkoutRoot;; io_throw error);;
  mret checkoutRoot.

(** The three uses of a checkout: [try] with it, [finally] dispose of it. *)
Definition with_pinned_source {A} (manifest : UpstreamManifest) (use : path → io A) : io A :=
  checkoutRoot ← fetchPinnedSource manifest;
  try_finally (use checkoutRoot) (dispose checkoutRoot).

(** ** Writing the vendored tree *)

Definition copySourceFile (sourceRoot : path) (p : string) : io unit :=
  destination ← io_lift (resolveWithin vendorRoot p);
  fs (tr_mkdir (dirname destination));;
  source ← io_lift (resolveWithin sourceRoot p);
  fs (tr_copyFile source destination).

Definition copySourceFiles (sourceRoot : path) (paths : list string) : io unit :=
  fs (tr_rm vendorRoot);;
  fs (tr_mkdir vendorRoot);;
  for_each (copySourceFile sourceRoot) paths.

Definition applyVendorPatch (patch : string) : io unit :=
  io_lift (guard_throw (starts_with "native/patches/openai-codex/" patch)
    (failure "Vendor patches must live under native/patches/openai-codex"));;
  patchPath ← io_lift (resolveWithin repositoryRoot patch);
  patchMetadata ← fs (tr_lstat patchPath);
  io_lift (guard_throw (bool_decide (patchMetadata = k_file)) (failure "Recorded vendor patch is not a regular file"));;
  run (git_apply repositoryRoot true patchPath);;
  run (git_apply repositoryRoot false patchPath);;
  mret tt.

Definition applyVendorPatches (manifest : UpstreamManifest) : io unit :=
  for_each applyVendorPatch (um_patches manifest).

(** ** Checking it *)

Definition valid_records (files : list VendorFileRecord) : bool :=
  let paths := vf_path <$> files in
  (length (dedup [] paths) =? length paths)%nat &&
  forallb (λ p, String.eqb (normalizePath p) p) paths &&
  forallb (λ f, is_hex 64 (vf_source_sha256 f) && is_hex 64 (vf_vendor_sha256 f)) files.

(** The checks of the parsed manifest. *)
Definition file_manifest_records (manifest : UpstreamManifest) (value : jsval) : outcome sync_error (list VendorFileRecord) :=
  schema_version ← prop value "schema_version";
  official_version ← prop value "official_version";
  source_commit ← prop value "source_commit";
  guard_throw (is_one schema_version && is_value official_version (um_version manifest) &&
               is_value source_commit (um_source_commit manifest))
    (failure "Vendor allowlist manifest has incompatible baseline metadata");;
  files ← prop value "files";
  files ← file_records files;
  guard_throw (valid_records files) (failure "Vendor allowlist manifest contains invalid file records");;
  Ret files.

Definition readVendorFileManifest (manifest : UpstreamManifest) : io (list VendorFileRecord) :=
  match um_allowlist_manifest manifest with
  | None => fail "UPSTREAM_CODEX.toml does not declare a vendor allowlist manifest"
  | Some p =>
      absolute ← io_lift (resolveWithin repositoryRoot p);
      bytes ← fs (tr_readFile absolute);
      io_lift (guard_throw (bool_decide (Some (sha256 bytes) = um_allowlist_sha256 manifest))
        (failure "Vendor allowlist manifest hash does not match UPSTREAM_CODEX.toml"));;
      value ← io_lift (match json_parse bytes with Some v => Ret v | None => Throw syntax_error end);
      io_lift (file_manifest_records manifest value)
  end.

Definition verifyVendorFile (file : VendorFileRecord) : io unit :=
  absolute ← io_lift (resolveWithin vendorRoot (vf_path file));
  bytes ← fs (tr_readFile absolute);
  io_lift (guard_throw (String.eqb (sha256 bytes) (vf_vendor_sha256 file))
    (failure ("Vendored file hash mismatch: " ++ vf_path file)%string)).

Definition verifyVendorFiles (manifest : UpstreamManifest) (files : list VendorFileRecord) : io unit :=
  tree ← calculateTreeHash;
  io_lift (guard_throw (String.eqb (th_sha256 tree) (um_tree_sha256 manifest))
    (failure ("Vendor tree hash mismatch: expected " ++ um_tree_sha256 manifest ++ ", received " ++ th_sha256 tree)%string));;
  io_lift (guard_throw (strs_eqb (js_sort (vf_path <$> files)) (js_sort (th_files tree)))
    (failure "The vendor tree does not match the recorded file allowlist"));;
  for_each verifyVendorFile files.

(** Two values of JSON files have the same text when they are equal, keys in order. *)
Definition assertLicenseInventory (inventory : jsval) (manifest : UpstreamManifest) : outcome sync_error unit :=
  schema_version ← prop inventory "schema_version";
  official_version ← prop inventory "official_version";
  source_commit ← prop inventory "source_commit";
  license ← prop inventory "license";
  license_files ← prop inventory "license_files";
  packages ← prop inventory "packages";
  guard_throw (is_one schema_version && is_value official_version (um_version manifest) &&
               is_value source_commit (um_source_commit manifest) && is_value license (um_license manifest) &&
               bool_decide (license_files = VArr [VStr "LICENSE"; VStr "NOTICE"]) &&
               bool_decide (packages = VArr (expectedLicensePackages manifest)))
    (failure "License inventory does not match the selected upstream package closure").

Definition verifyLicenseFile (licenseFile : string) : io unit :=
  absolute ← io_lift (resolveWithin vendorRoot licenseFile);
  metadata ← fs (tr_lstat absolute);
  io_lift (guard_throw (bool_decide (metadata = k_file))
    (failure ("Recorded license is not a regular file: " ++ licenseFile)%string)).

Definition verifyLicenseInventory (manifest : UpstreamManifest) : io unit :=
  match um_license_inventory manifest with
  | None => fail "UPSTREAM_CODEX.toml does not declare a license inventory"
  | Some p =>
      absolute ← io_lift (resolveWithin repositoryRoot p);
      bytes ← fs (tr_readFile absolute);
      io_lift (guard_throw (bool_decide (Some (sha256 bytes) = um_license_inventory_sha256 manifest))
        (failure "License inventory hash does not match UPSTREAM_CODEX.toml"));;
      inventory ← io_lift (match json_parse bytes with Some v => Ret v | None => Throw syntax_error end);
      io_lift (assertLicenseInventory inventory manifest);;
      license_files ← io_lift (prop inventory "license_files");
      names ← io_lift (text_list license_files);
      for_each verifyLicenseFile names
  end.

Definition assertNativeSbom (sbom : jsval) (manifest : UpstreamManifest) (cargoLockSha256 : option string)
    : outcome sync_error unit :=
  schema_version ← prop sbom "schema_version";
  official_version ← prop sbom "official_version";
  official_source_commit ← prop sbom "official_source_commit";
  cargo_lock_sha256 ← prop sbom "cargo_lock_sha256";
  guard_throw (is_one schema_version && is_value official_version (um_version manifest) &&
               is_value official_source_commit (um_source_commit manifest) &&
               match cargoLockSha256 with Some lock => is_value cargo_lock_sha256 lock | None => true end)
    (failure "Native SBOM does not match the pinned upstream and Cargo.lock identity").

Definition verifySbom (manifest : UpstreamManifest) : io unit :=
  match um_sbom manifest with
  | None => fail "UPSTREAM_CODEX.toml does not declare a native SBOM"
  | Some p =>
      absolute ← io_lift (resolveWithin repositoryRoot p);
      bytes ← fs (tr_readFile absolute);
      io_lift (guard_throw (bool_decide (Some (sha256 bytes) = um_sbom_sha256 manifest))
        (failure "Native SBOM hash does not match UPSTREAM_CODEX.toml"));;
      sbom ← io_lift (match json_parse bytes with
                      | Some v => Ret v
                      | None => Throw (failure "Native SBOM is not valid JSON") end);
      cargoLock ← fs (tr_readFile (resolve_from repositoryRoot "native/Cargo.lock"));
      io_lift (assertNativeSbom sbom manifest (Some (sha256 cargoLock)))
  end.

Definition RUST_IDENTITY : path := resolve_from repositoryRoot "native/crates/bridge-protocol/src/lib.rs".
Definition TYPESCRIPT_IDENTITY : path := resolve_from repositoryRoot "src/infrastructure/codex-bridge/identity.ts".

Definition identity_fields (manifest : UpstreamManifest) : list (string * string) := [
  ("OFFICIAL_CODEX_TAG", um_tag manifest); ("OFFICIAL_CODEX_VERSION", um_version manifest);
  ("OFFICIAL_SOURCE_COMMIT", um_source_commit manifest); ("VENDOR_TREE_SHA256", um_tree_sha256 manifest)].

Definition check_identity (rustSource typeScriptSource : string) (kv : string * string) : io unit :=
  let mismatch := failure ("Bridge identity field " ++ kv.1 ++ " is not synchronized with UPSTREAM_CODEX.toml")%string in
  rust ← io_lift (readAssignedStringConstant rustSource kv.1);
  io_lift (guard_throw (String.eqb rust kv.2) mismatch);;
  typeScript ← io_lift (readAssignedStringConstant typeScriptSource kv.1);
  io_lift (guard_throw (String.eqb typeScript kv.2) mismatch).

Definition verifyIdentitySources (manifest : UpstreamManifest) : io unit :=
  rustSource ← fs (tr_readFile RUST_IDENTITY);
  typeScriptSource ← fs (tr_readFile TYPESCRIPT_IDENTITY);
  for_each (check_identity rustSource typeScriptSource) (identity_fields manifest).

(** ** The commands of the script *)

Definition record_value (f : VendorFileRecord) : jsval :=
  VObj [("path", VStr (vf_path f)); ("source_sha256", VStr (vf_source_sha256 f)); ("vendor_sha256", VStr (vf_vendor_sha256 f))].

Definition file_manifest_value (manifest : UpstreamManifest) (files : list VendorFileRecord) : jsval :=
  VObj [("schema_version", VNum (num_of_Z 1)); ("official_version", VStr (um_version manifest));
        ("source_commit", VStr (um_source_commit manifest)); ("files", VArr (record_value <$> files))].

Definition inventory_value (manifest : UpstreamManifest) : jsval :=
  VObj [("schema_version", VNum (num_of_Z 1)); ("official_version", VStr (um_version manifest));
        ("source_commit", VStr (um_source_commit manifest)); ("license", VStr (um_license manifest));
        ("license_files", VArr [VStr "LICENSE"; VStr "NOTICE"]); ("packages", VArr (expectedLicensePackages manifest))].

Fixpoint record_files (sourceRoot : path) (paths : list string) (files : list VendorFileRecord)
    : io (list VendorFileRecord) :=
  match paths with
  | [] => mret files
  | p :: paths =>
      source ← io_lift (resolveWithin sourceRoot p);
      sourceBytes ← fs (tr_readFile source);
      vendored ← io_lift (resolveWithin vendorRoot p);
      vendorBytes ← fs (tr_readFile vendored);
      record_files sourceRoot paths
        (files ++ [{| vf_path := p; vf_source_sha256 := sha256 sourceBytes; vf_vendor_sha256 := sha256 vendorBytes |}])
  end.

(** What it logs: the paths, the digests and the number of the files. *)
Definition refresh_from (manifest : UpstreamManifest) (checkoutRoot : path) : io string :=
  selectedFiles ← collectSelectedSourceFiles checkoutRoot;
  copySourceFiles checkoutRoot selectedFiles;;
  applyVendorPatches manifest;;
  files ← record_files checkoutRoot selectedFiles [];
  let fileManifestBytes := (stringify_indented (file_manifest_value manifest files) ++ line_feed)%string in
  fs (tr_mkdir (resolve_from repositoryRoot "native/upstream"));;
  fs (tr_writeFile (resolve_from repositoryRoot defaultFileManifestPath) fileManifestBytes);;
  let licenseInventoryBytes := (stringify_indented (inventory_value manifest) ++ line_feed)%string in
  fs (tr_writeFile (resolve_from repositoryRoot defaultLicenseInventoryPath) licenseInventoryBytes);;
  tree ← calculateTreeHash;
  mret (stringify_indented (VObj [
    ("allowlist_manifest", VStr defaultFileManifestPath); ("allowlist_sha256", VStr (sha256 fileManifestBytes));
    ("file_count", VNum (num_of_Z (Z.of_nat (length files))));
    ("license_inventory", VStr defaultLicenseInventoryPath);
    ("license_inventory_sha256", VStr (sha256 licenseInventoryBytes)); ("tree_sha256", VStr (th_sha256 tree))])).

Definition writeSelectedVendor (manifest : UpstreamManifest) (allowReadyManifest : bool) : io string :=
  io_lift (guard_throw (String.eqb (um_status manifest) "pending" || allowReadyManifest)
    (failure "Vendor initialization is allowed only while the manifest status is pending"));;
  (if allowReadyManifest then mret tt else assertDirectoryContainsNoVendorFiles vendorRoot);;
  with_pinned_source manifest (refresh_from manifest).

Definition verifyPinnedFile (sourceRoot : path) (file : VendorFileRecord) : io unit :=
  sourcePath ← io_lift (resolveWithin sourceRoot (vf_path file));
  metadata ← fs (tr_lstat sourcePath);
  io_lift (guard_throw (bool_decide (metadata = k_file))
    (failure ("Pinned source path is not a regular file: " ++ vf_path file)%string));;
  bytes ← fs (tr_readFile sourcePath);
  io_lift (guard_throw (String.eqb (sha256 bytes) (vf_source_sha256 file))
    (failure ("Pinned source hash mismatch: " ++ vf_path file)%string)).

Definition verifyPinnedSourceHashes (sourceRoot : path) (files : list VendorFileRecord) : io unit :=
  for_each (verifyPinnedFile sourceRoot) files.

Definition verifyPinnedSource (manifest : UpstreamManifest) (files : list VendorFileRecord) : io unit :=
  with_pinned_source manifest (λ checkoutRoot, verifyPinnedSourceHashes checkoutRoot files).

Definition synchronizeVendor (manifest : UpstreamManifest) (files : list VendorFileRecord) : io unit :=
  with_pinned_source manifest (λ checkoutRoot,
    verifyPinnedSourceHashes checkoutRoot files;;
    copySourceFiles checkoutRoot (vf_path <$> files);;
    applyVendorPatches manifest;;
    verifyVendorFiles manifest files).

(** The check of a vendored tree, which is the whole command when it has no option. *)
Definition verify_ready (manifest : UpstreamManifest) (files : list VendorFileRecord) : io unit :=
  verifyVendorFiles manifest files;;
  verifyLicenseInventory manifest;;
  verifySbom manifest;;
  verifyIdentitySources manifest.

Definition verify_pending (manifest : UpstreamManifest) : io unit :=
  tree ← calculateTreeHash;
  io_lift (guard_throw (String.eqb (th_sha256 tree) (um_tree_sha256 manifest) && (length (th_files tree) =? 0)%nat &&
                        String.eqb (um_tree_sha256 manifest) (sha256 ""))
    (failure "Pending vendor state must contain only the recorded empty tree"));;
  verifyIdentitySources manifest.

Definition pinned_baseline (manifest : UpstreamManifest) : bool :=
  String.eqb (um_annotated_tag_object manifest) baseline_annotatedTagObject &&
  String.eqb (um_rust_toolchain manifest) baseline_rustToolchain &&
  String.eqb (um_source_commit manifest) baseline_sourceCommit &&
  String.eqb (um_tag manifest) baseline_tag && String.eqb (um_version manifest) baseline_version.

Definition readManifest : io UpstreamManifest :=
  text ← fs (tr_readFile (resolve_from repositoryRoot "UPSTREAM_CODEX.toml"));
  manifest ← io_lift (match parse text with Some m => Ret m | None => Throw syntax_error end);
  io_lift (guard_throw (um_schema_version manifest =? 1)%Z
    (failure ("Unsupported upstream manifest schema: " ++ integer_text (um_schema_version manifest))%string));;
  io_lift (guard_throw (pinned_baseline manifest)
    (failure "UPSTREAM_CODEX.toml does not match the pinned OpenAI Codex baseline"));;
  io_lift (assertVendorClosure manifest);;
  mret manifest.

(** [argv] is [process.argv]; the answer is what is logged. *)
Definition main (argv : list string) : io string :=
  manifest ← readManifest;
  if js_elem "--initialize" argv then writeSelectedVendor manifest false
  else if js_elem "--refresh-allowlist" argv then writeSelectedVendor manifest true
  else if String.eqb (um_status manifest) "pending" then
    verify_pending manifest;;
    mret ("Verified pending OpenAI Codex " ++ um_version manifest ++ " vendor state.")%string
  else
    files ← readVendorFileManifest manifest;
    (if js_elem "--sync" argv then synchronizeVendor manifest files
     else if js_elem "--verify-source" argv then verifyPinnedSource manifest files else mret tt);;
    verify_ready manifest files;;
    mret ("Verified OpenAI Codex " ++ um_version manifest ++ " vendor tree " ++ um_tree_sha256 manifest ++ ".")%string.
End vendor.
