(* ===== verification/VendorRepo.v ===== *)
(** * VendorRepo

    What the programs that vendoring runs do, and a concrete [SourceTree] of
    [Workspace]: a list of nodes, the commits that can be checked out, the answers
    of the programs and a plan of the calls that fail. *)

From Stdlib Require Import Lia.
From S2P Require Import Prelude Io Paths Workspace Json Vendor.

(** ** What git does *)

(** Where the commands write: in the directory of the checkout, at first only in
    its [.git], and in the vendored tree. *)
Inductive git_writes (repositoryRoot : path) : list string → list path → Prop :=
| gw_init r : normal r → git_writes repositoryRoot (git_init r) [r ++ [".git"]]
| gw_remote r url : normal r → git_writes repositoryRoot (git_in r ["remote"; "add"; "origin"; url]) [r ++ [".git"]]
| gw_fetch r m : normal r → git_writes repositoryRoot (git_fetch r m) [r ++ [".git"]]
| gw_rev_parse r ref : normal r → git_writes repositoryRoot (git_in r ["rev-parse"; ref]) [r ++ [".git"]]
| gw_checkout r commit : normal r → git_writes repositoryRoot (git_checkout r commit) [r]
| gw_apply check p : git_writes repositoryRoot (git_apply repositoryRoot check p) [vendorRoot repositoryRoot].

(** A directory where there is no file yet but those of git. *)
Definition only_git `{SourceTree Disk} (d : Disk) (r : path) : Prop :=
  ∀ rel bytes, node_at d (r ++ rel) = Some (n_file bytes) → head rel = Some ".git".

(** The files of a checkout are those of the commit. *)
Definition checked_out `{SourceTree Disk} (source : path → option string) (d : Disk) (r : path) : Prop :=
  ∀ rel bytes, head rel ≠ Some ".git" → node_at d (r ++ rel) = Some (n_file bytes) → source rel = Some bytes.

(** [git checkout] makes the files of the commit.  What a commit holds never
    changes. *)
Definition checks_out `{SourceTree Disk} (source : string → path → option string) : Prop :=
  ∀ r commit (d : Disk) result d', normal r → tr_spawn (git_checkout r commit) d = (Ret result, d') →
    exitCode result = 0%Z → only_git d r → checked_out (source commit) d' r.

Lemma Forall_one {A} (P : A → Prop) x : Forall P [x] → P x.
Proof. by inversion 1. Qed.

(** ** Nodes in a list *)

Abbreviation nodes := (list (path * node)) (only parsing).

Definition look (l : nodes) (p : path) : option node :=
  kv ← list_find (λ kv : path * node, kv.1 = p) l; Some kv.2.2.

Lemma look_cons q n l p : look ((q, n) :: l) p = if decide (q = p) then Some n else look l p.
Proof. unfold look. cbn. destruct (decide (q = p)); [done|]. by destruct (list_find _ l) as [[]|]. Qed.

Lemma look_app l l' p : look (l ++ l') p = match look l p with Some n => Some n | None => look l' p end.
Proof. induction l as [|[q n] l IH]; [done|]. cbn [app]. rewrite !look_cons, IH. by destruct (decide _). Qed.

Lemma look_filter (f : path → bool) l p : look (filter (λ kv, f kv.1 = true) l) p = if f p then look l p else None.
Proof.
  induction l as [|[q n] l IH]; [by destruct (f p)|]. rewrite filter_cons. cbn [fst].
  destruct (decide (f q = true)) as [Hq|Hq]; rewrite !look_cons, IH.
  - destruct (decide (q = p)) as [<-|]; [by rewrite Hq|done].
  - destruct (decide (q = p)) as [<-|]; [|done]. apply not_true_is_false in Hq. by rewrite Hq.
Qed.

Lemma look_in l p n : look l p = Some n → (p, n) ∈ l.
Proof.
  induction l as [|[q m] l IH]; [done|]. rewrite look_cons. destruct (decide (q = p)) as [->|].
  - intros [= ->]. by left.
  - intros Hl. right. auto.
Qed.

Definition is_directory (o : option node) : bool := match o with Some n_directory => true | _ => false end.

(** What is at a path, when every directory above it is there. *)
Definition reach (l : nodes) (p : path) : option node :=
  if forallb (λ n, is_directory (look l (take n p))) (seq 0 (length p)) then look l p else None.

Lemma reach_iff l p n :
  reach l p = Some n ↔ (∀ q x k, p = q ++ x :: k → look l q = Some n_directory) ∧ look l p = Some n.
Proof.
  unfold reach.
  assert (forallb (λ n, is_directory (look l (take n p))) (seq 0 (length p)) = true ↔
    ∀ q x k, p = q ++ x :: k → look l q = Some n_directory) as Hf.
  { rewrite forallb_forall. split.
    - intros Hall q x k ->. specialize (Hall (length q)). rewrite take_app_length in Hall.
      destruct (look l q) as [[]|]; try (exfalso; by apply Bool.diff_false_true, Hall, list_elem_of_In, elem_of_seq; rewrite length_app; cbn; lia).
      done.
    - intros Hq i Hi. apply list_elem_of_In, elem_of_seq in Hi.
      assert (drop i p ≠ []) as Hd by (intros Hd; apply (f_equal length) in Hd; rewrite length_drop in Hd; cbn in Hd; lia).
      destruct (drop i p) as [|x k] eqn:He; [done|]. by rewrite (Hq (take i p) x k) by (by rewrite <- He, take_drop). }
  destruct (forallb _ _).
  - pose proof (proj1 Hf eq_refl). split; [by intros ?|by intros []].
  - split; [done|]. intros [Hq _]. by discriminate (proj2 Hf Hq).
Qed.

(** The lists agree on a path and above it. *)
Lemma reach_same l l' p : (∀ q k, p = q ++ k → look l' q = look l q) → reach l' p = reach l p.
Proof.
  intros Hl. destruct (reach l p) as [n|] eqn:Hn.
  - apply reach_iff in Hn as [Hd Hn]. apply reach_iff. split.
    + intros q x k Hp. rewrite (Hl q (x :: k) Hp). by eapply Hd.
    + rewrite (Hl p []); [done|by rewrite app_nil_r].
  - destruct (reach l' p) as [n|] eqn:Hn'; [|done]. exfalso. apply reach_iff in Hn' as [Hd Hn'].
    assert (reach l p = Some n) as Hs; [|congruence]. apply reach_iff. split.
    + intros q x k Hp. rewrite <- (Hl q (x :: k) Hp). by eapply Hd.
    + rewrite <- (Hl p []); [done|by rewrite app_nil_r].
Qed.

(** The nodes that can be reached. *)
Definition present (o : option node) : bool := match o with Some _ => true | None => false end.
Definition reachable (l : nodes) : nodes := filter (λ kv, present (reach l kv.1) = true) l.

Lemma look_reachable l p : look (reachable l) p = reach l p.
Proof.
  unfold reachable. rewrite (look_filter (λ x, present (reach l x))). destruct (reach l p) as [n|] eqn:Hn; cbn; [|done].
  by apply reach_iff in Hn as [_ ->].
Qed.

Lemma reach_above l p x : reach l (p ++ [x]) ≠ None → reach l p = Some n_directory.
Proof.
  intros Hn. destruct (reach l (p ++ [x])) as [n|] eqn:He; [|done]. apply reach_iff in He as [Hd _]. apply reach_iff. split.
  - intros q y k ->. apply (Hd q y (k ++ [x])). by rewrite <- app_assoc.
  - by apply (Hd p x []).
Qed.

(** Adding what can be reached below [r] only. *)
Definition inside (r p : path) : bool := bool_decide (r `prefix_of` p).

Lemma reach_outside l l' r p :
  (∀ q, ¬ r `prefix_of` q → look l' q = look l q) → ¬ r `prefix_of` p → reach l' p = reach l p.
Proof. intros Hl Hp. apply reach_same. intros q k ->. apply Hl. intros [k' ->]. apply Hp. exists (k' ++ k). by rewrite app_assoc. Qed.

(** ** The calls *)

Record repo := {
  rp_nodes : nodes;
  rp_reply : list string → process_result;
  rp_plan : list bool }.

Section repo.
Context (commits : string → nodes).

Definition next (l : nodes) (d : repo) : repo :=
  {| rp_nodes := l; rp_reply := rp_reply d; rp_plan := tail (rp_plan d) |}.

(** A call that does [ok], unless it is planned to fail. *)
Definition call {A} (ok : outcome errno A * nodes) (d : repo) : outcome errno A * repo :=
  if default false (head (rp_plan d)) then (Throw other_errno, next (rp_nodes d) d) else (ok.1, next ok.2 d).

Definition name_in (p : path) (kv : path * node) : option string :=
  match drop (length p) kv.1 with [name] => if bool_decide (kv.1 = p ++ [name]) then Some name else None | _ => None end.

#[local] Instance is_component_dec c : Decision (is_component c).
Proof. unfold is_component. apply _. Defined.

Definition listing (l : nodes) (p : path) : list (string * kind) :=
  omap (λ name, n ← reach l (p ++ [name]); Some (name, kind_of n))
    (filter is_component (remove_dups (omap (name_in p) l))).

Definition content (l : nodes) (p : path) : option string :=
  match reach l p with Some (n_file b) => Some b | _ => None end.

Definition write (p : path) (bytes : string) (l : nodes) : outcome errno unit * nodes :=
  if is_directory (reach l (removelast p)) && negb (is_directory (reach l p)) && negb (bool_decide (p = []))
  then (Ret tt, (p, n_file bytes) :: l) else (Throw ENOENT, l).

Definition prefixes (p : path) : list path := (λ n, take n p) <$> seq 0 (S (length p)).

Definition make (p : path) (l : nodes) : outcome errno unit * nodes :=
  if existsb (λ q, present (reach l q) && negb (is_directory (reach l q))) (prefixes p) then (Throw EEXIST, l)
  else (Ret tt, ((λ q, (q, n_directory)) <$> filter (λ q, present (reach l q) = false) (prefixes p)) ++ reachable l).

Definition SUFFIX : string := "A1B2C3".
Definition make_temporary (p : path) (l : nodes) : outcome errno path * nodes :=
  let r := removelast p ++ [(basename p ++ SUFFIX)%string] in
  if is_directory (reach l (removelast p)) && negb (existsb (λ kv, inside r kv.1) l) && negb (bool_decide (p = []))
  then (Ret r, (r, n_directory) :: l) else (Throw EEXIST, l).

Definition remove (p : path) (l : nodes) : nodes := filter (λ kv, negb (inside p kv.1) = true) l.

(** Only checking out changes the nodes. *)
Definition spawned (command : list string) (l : nodes) : nodes :=
  match command with
  | ["git"; "-C"; root; "checkout"; "--quiet"; "--detach"; commit] =>
      ((λ kv, (resolve_from [] root ++ kv.1, kv.2)) <$> commits commit) ++ reachable l
  | _ => l
  end.

#[export] Instance repo_tree : SourceTree repo := {
  node_at d := reach (rp_nodes d);
  content_at d := content (rp_nodes d);
  tr_readdir p d := call (if is_directory (reach (rp_nodes d) p) then Ret (listing (rp_nodes d) p) else Throw ENOENT, rp_nodes d) d;
  tr_lstat p d := call (match reach (rp_nodes d) p with Some n => Ret (kind_of n) | None => Throw ENOENT end, rp_nodes d) d;
  tr_readFile p d := call (match content (rp_nodes d) p with Some b => Ret b | None => Throw ENOENT end, rp_nodes d) d;
  tr_writeFile p bytes d := call (write p bytes (rp_nodes d)) d;
  tr_copyFile p q d :=
    call (match content (rp_nodes d) p with Some b => write q b (rp_nodes d) | None => (Throw ENOENT, rp_nodes d) end) d;
  tr_mkdir p d := call (make p (rp_nodes d)) d;
  tr_mkdtemp p d := call (make_temporary p (rp_nodes d)) d;
  tr_rm p d := call (Ret tt, remove p (rp_nodes d)) d;
  tr_spawn command d := call (Ret (rp_reply d command), spawned command (rp_nodes d)) d }.

(** The files of a commit. *)
Definition committed (commit : string) (rel : path) : option string :=
  match look (commits commit) rel with Some (n_file b) => Some b | _ => None end.

(** ** The laws *)

(** A call that is planned to fail changes nothing. *)
Lemma call_cases {A} (ok : outcome errno A * nodes) d (P : outcome errno A → repo → Prop) :
  (∀ d', rp_nodes d' = rp_nodes d → P (Throw other_errno) d') → (∀ d', rp_nodes d' = ok.2 → P ok.1 d') →
  P (call ok d).1 (call ok d).2.
Proof. intros Hf Hok. unfold call. by destruct (default false (head (rp_plan d))); [apply Hf|apply Hok]. Qed.

Lemma same_nodes (d d' : repo) : rp_nodes d' = rp_nodes d → unchanged d d'.
Proof. intros He. split; intros p; cbn; by rewrite He. Qed.

Lemma call_unchanged {A} (r : outcome errno A) d : unchanged d (call (r, rp_nodes d) d).2.
Proof. apply (call_cases (r, rp_nodes d) d (λ _ d', unchanged d d')); intros d' Hd; by apply same_nodes. Qed.

Lemma call_touches {A} (ok : outcome errno A * nodes) roots d :
  (∀ p, Forall (λ r, ¬ r `prefix_of` p) roots →
     reach ok.2 p = reach (rp_nodes d) p ∨ (reach (rp_nodes d) p = None ∧ reach ok.2 p = Some n_directory)) →
  touched roots d (call ok d).2.
Proof.
  intros Hok. apply (call_cases ok d (λ _ d', touched roots d d')).
  - intros d' Hd. by apply unchanged_touched, same_nodes.
  - intros d' Hd p Hp. cbn. rewrite Hd. by apply Hok.
Qed.

Lemma call_ret {A} (ok : outcome errno A * nodes) d a :
  (call ok d).1 = Ret a → ok.1 = Ret a ∧ rp_nodes (call ok d).2 = ok.2.
Proof. unfold call. by destruct (default false _). Qed.

Lemma reach_cons r n l p : ¬ r `prefix_of` p → reach ((r, n) :: l) p = reach l p.
Proof.
  intros Hp. apply (reach_outside l _ r); [|done]. intros q Hq. rewrite look_cons.
  destruct (decide (r = q)) as [<-|]; [|done]. by destruct Hq.
Qed.

Lemma write_outside p bytes l q : ¬ p `prefix_of` q → reach (write p bytes l).2 q = reach l q.
Proof. intros Hq. unfold write. destruct (_ && _); [by apply reach_cons|done]. Qed.

Lemma write_writes p bytes l : (write p bytes l).1 = Ret tt → content (write p bytes l).2 p = Some bytes.
Proof.
  unfold write. destruct (is_directory (reach l (removelast p))) eqn:Hd; [|done].
  destruct (_ && negb (bool_decide (p = []))) eqn:Hp; [|done]. intros _. cbn.
  apply andb_true_iff in Hp as [_ Hp%negb_true_iff%bool_decide_eq_false].
  destruct p as [|c p _] using rev_ind; [done|]. rewrite removelast_last in Hd.
  destruct (reach l p) as [[]|] eqn:Hr; try done. apply reach_iff in Hr as [Hup Hhere].
  unfold content. rewrite (proj2 (reach_iff _ _ (n_file bytes))); [done|].
  rewrite look_cons, decide_True by done. split; [|done]. intros q x k Hq. rewrite look_cons.
  destruct (decide (p ++ [c] = q)) as [<-|]; [apply (f_equal length) in Hq; rewrite !length_app in Hq; cbn in Hq; lia|].
  destruct k as [|y k _] using rev_ind.
  - apply app_inj_tail in Hq as [-> _]. done.
  - change (x :: k ++ [y]) with ((x :: k) ++ [y]) in Hq. rewrite app_assoc in Hq. apply app_inj_tail in Hq as [-> _]. by eapply Hup.
Qed.

Lemma remove_outside p l q : ¬ p `prefix_of` q → reach (remove p l) q = reach l q.
Proof.
  intros Hq. apply (reach_outside l _ p); [|done]. intros q' Hq'. unfold remove.
  rewrite (look_filter (λ x, negb (inside p x))). unfold inside. by rewrite bool_decide_eq_false_2.
Qed.

Lemma remove_below p l rel : reach (remove p l) (p ++ rel) = None.
Proof.
  destruct (reach (remove p l) (p ++ rel)) as [n|] eqn:Hn; [|done]. apply reach_iff in Hn as [_ Hn]. unfold remove in Hn.
  rewrite (look_filter (λ x, negb (inside p x))) in Hn. unfold inside in Hn.
  rewrite bool_decide_eq_true_2 in Hn by (by eexists). done.
Qed.

Lemma name_in_iff p kv name : name_in p kv = Some name ↔ kv.1 = p ++ [name].
Proof.
  unfold name_in. split.
  - destruct (drop (length p) kv.1) as [|x [|??]]; try done. case_bool_decide; [|done]. by intros [= <-].
  - intros ->. rewrite drop_app_length. by rewrite bool_decide_eq_true_2.
Qed.

Lemma listing_iff l p name k :
  (name, k) ∈ listing l p ↔ is_component name ∧ kind_of <$> reach l (p ++ [name]) = Some k.
Proof.
  unfold listing. rewrite list_elem_of_omap. setoid_rewrite list_elem_of_filter. setoid_rewrite elem_of_remove_dups.
  setoid_rewrite list_elem_of_omap. setoid_rewrite name_in_iff. split.
  - intros (x & [Hc _] & Hn). destruct (reach l (p ++ [x])) as [n|] eqn:He; [|done]. injection Hn as <- <-. by rewrite He.
  - intros [Hc Hn]. destruct (reach l (p ++ [name])) as [n|] eqn:He; [|done]. exists name. rewrite He. injection Hn as <-.
    split; [|done]. split; [done|]. apply reach_iff in He as [_ He]. apply look_in in He. by exists (p ++ [name], n).
Qed.

Lemma listing_nodup l p : NoDup (listing l p).*1.
Proof.
  unfold listing. assert (NoDup (filter is_component (remove_dups (omap (name_in p) l)))) as Hnd
    by apply NoDup_filter, NoDup_remove_dups.
  induction Hnd as [|x names Hx _ IH]; [constructor|]. cbn. destruct (reach l (p ++ [x])) as [n|]; cbn; [|done].
  constructor; [|done]. intros Hin. apply Hx. apply list_elem_of_fmap in Hin as ([y k] & -> & Hy).
  apply list_elem_of_omap in Hy as (z & Hz & He). cbn in *. destruct (reach l (p ++ [z])); [|done]. by injection He as <- <-.
Qed.

Lemma make_outside p l q :
  reach (make p l).2 q = reach l q ∨ (reach l q = None ∧ reach (make p l).2 q = Some n_directory).
Proof.
  unfold make. destruct (existsb _ _); [by left|]. cbn [snd].
  set (missing := filter (λ q, present (reach l q) = false) (prefixes p)).
  assert (∀ q, look (((λ q, (q, n_directory)) <$> missing) ++ reachable l) q =
    if decide (q ∈ missing) then Some n_directory else reach l q) as Hlook.
  { intros q'. rewrite look_app, look_reachable. clear q. induction missing as [|m ms IH]; [done|].
    rewrite fmap_cons, look_cons. destruct (decide (m = q')) as [->|Hne].
    - rewrite decide_True by (by left). done.
    - destruct (decide (q' ∈ ms)) as [Hin|Hin]; [rewrite decide_True by (by right)|
        rewrite decide_False by (by intros [->|?]%elem_of_cons)]; done. }
  assert (∀ q, q ∈ missing → reach l q = None) as Hmissing.
  { intros q' [Hp _]%list_elem_of_filter. by destruct (reach l q'). }
  destruct (reach l q) as [n|] eqn:Hn.
  - left. apply reach_iff. split.
    + intros r x k ->. rewrite Hlook. apply reach_iff in Hn as [Hd _].
      assert (reach l r = Some n_directory) as Hr.
      { apply reach_iff. split; [|by eapply Hd]. intros r' y k' ->. apply (Hd r' y (k' ++ x :: k)). by rewrite <- app_assoc. }
      destruct (decide (r ∈ missing)) as [Hm|]; [|done]. apply Hmissing in Hm. congruence.
    + rewrite Hlook. destruct (decide (q ∈ missing)) as [Hm|]; [|done]. apply Hmissing in Hm. congruence.
  - destruct (reach _ q) as [n|] eqn:Hn' at 1 2; [|by left]. right. split; [done|]. apply reach_iff in Hn' as [_ Hn'].
    rewrite Hlook in Hn'. destruct (decide (q ∈ missing)); congruence.
Qed.

Lemma temporary_normal p : p ≠ [] → normal p → normal (removelast p ++ [(basename p ++ SUFFIX)%string]).
Proof.
  intros Hne Hp. destruct p as [|c p _] using rev_ind; [done|]. unfold basename. rewrite removelast_last, last_last.
  apply normal_app in Hp as [Hp Hc]. apply normal_app. split; [done|]. apply Forall_singleton.
  apply Forall_singleton in Hc as (H1 & H2 & H3 & H4). split_and!.
  - by destruct c.
  - by destruct c as [|a [|b c]].
  - destruct c as [|a [|b [|e c]]]; try done; cbn; congruence.
  - by rewrite has_unit_app, H4.
Qed.

Lemma temporary_makes p l :
  match (make_temporary p l).1 with
  | Ret r => (normal p → normal r) ∧ reach (make_temporary p l).2 r = Some n_directory ∧
      (∀ rel, reach l (r ++ rel) = None) ∧ (∀ rel, rel ≠ [] → reach (make_temporary p l).2 (r ++ rel) = None) ∧
      ∀ q, ¬ r `prefix_of` q → reach (make_temporary p l).2 q = reach l q
  | Throw _ => (make_temporary p l).2 = l
  end.
Proof.
  unfold make_temporary. set (r := removelast p ++ [(basename p ++ SUFFIX)%string]).
  destruct (is_directory (reach l (removelast p)) && negb (existsb (λ kv, inside r kv.1) l) && negb (bool_decide (p = []))) eqn:Hb;
    cbn [fst snd]; [|done].
  apply andb_true_iff in Hb as [[Hd Hno]%andb_true_iff Hne]. apply negb_true_iff in Hno.
  apply negb_true_iff, bool_decide_eq_false in Hne.
  assert (∀ rel, look l (r ++ rel) = None) as Hlook.
  { intros rel. destruct (look l (r ++ rel)) as [n|] eqn:Hl; [|done]. apply look_in in Hl. exfalso.
    apply not_true_iff_false in Hno. apply Hno, existsb_exists. exists (r ++ rel, n). split; [by apply list_elem_of_In|].
    unfold inside. apply bool_decide_eq_true. by eexists. }
  assert (∀ rel n, reach l (r ++ rel) = Some n → False) as Hnone.
  { intros rel n [_ Hn]%reach_iff. by rewrite Hlook in Hn. }
  split_and!.
  - by apply temporary_normal.
  - apply reach_iff. split; [|by rewrite look_cons, decide_True].
    intros q x k Hq. rewrite look_cons, decide_False by (intros ->; apply (f_equal length) in Hq; rewrite length_app in Hq; cbn in Hq; lia).
    destruct (reach l (removelast p)) as [[]|] eqn:Hp; try done. apply reach_iff in Hp as [Hup Hp].
    subst r. destruct k as [|y k _] using rev_ind.
    + apply app_inj_tail in Hq as [<- _]. done.
    + change (q ++ x :: k ++ [y]) with (q ++ (x :: k) ++ [y]) in Hq. rewrite app_assoc in Hq.
      apply app_inj_tail in Hq as [Hq _]. by eapply Hup.
  - intros rel. destruct (reach l (r ++ rel)) eqn:Hn; [|done]. by apply Hnone in Hn.
  - intros rel Hrel. destruct (reach ((r, n_directory) :: l) (r ++ rel)) as [n|] eqn:Hn; [|done].
    apply reach_iff in Hn as [_ Hn]. rewrite look_cons, decide_False, Hlook in Hn; [done|].
    intros He. apply (f_equal length) in He. rewrite length_app in He. destruct rel; [done|]. cbn in He. lia.
  - intros q Hq. by apply reach_cons.
Qed.

Lemma spawned_outside command roots repositoryRoot l q :
  git_writes repositoryRoot command roots → Forall (λ r, ¬ r `prefix_of` q) roots →
  reach (spawned command l) q = reach l q.
Proof.
  intros Hw Hq. assert (spawned command l = l ∨ ∃ r commit, normal r ∧ roots = [r] ∧
    spawned command l = ((λ kv : path * node, (r ++ kv.1, kv.2)) <$> commits commit) ++ reachable l) as [->|(r & commit & Hr & -> & ->)].
  { destruct Hw as [| | | |r commit Hr|[]]; try by left. right. exists r, commit. split_and!; [done|done|].
    cbn [spawned git_checkout git_in app]. by rewrite resolve_path_text. }
  - done.
  - rewrite Forall_singleton in Hq.
    assert (∀ q, ¬ r `prefix_of` q → look (((λ kv : path * node, (r ++ kv.1, kv.2)) <$> commits commit) ++ reachable l) q = reach l q) as Hl.
    { intros q' Hq'. rewrite look_app, look_reachable. destruct (look (_ <$> _) q') as [n|] eqn:Hn; [|done].
      apply look_in, list_elem_of_fmap in Hn as (kv & [= -> _] & _). destruct Hq'. by eexists. }
    rewrite (reach_outside (reachable l) _ r q); [|intros q1 Hq1; rewrite (Hl q1 Hq1); by rewrite look_reachable|exact Hq].
    destruct (reach l q) as [n|] eqn:Hn.
    + pose proof Hn as [Hd _]%reach_iff. apply reach_iff. split; [|by rewrite look_reachable].
      intros q' x k ->. rewrite look_reachable. apply reach_iff. split; [|by eapply Hd].
      intros q'' y k' ->. apply (Hd q'' y (k' ++ x :: k)). by rewrite <- app_assoc.
    + destruct (reach (reachable l) q) as [n|] eqn:Hn'; [|done]. apply reach_iff in Hn' as [_ Hn'].
      rewrite look_reachable in Hn'. congruence.
Qed.

#[export] Instance repo_laws repositoryRoot : SourceTreeLaws repo (git_writes repositoryRoot).
Proof.
  split.
  - intros p d. apply call_unchanged.
  - intros p d. apply call_unchanged.
  - intros p d. apply call_unchanged.
  - intros p d es [He _]%call_ret. cbn in He. destruct (is_directory _); [|done]. injection He as <-.
    split; [apply listing_nodup|apply listing_iff].
  - intros p d k [He _]%call_ret. cbn in *. destruct (reach (rp_nodes d) p); [|done]. by injection He as <-.
  - intros p d. cbn. unfold call. destruct (default false _); [done|]. cbn. by destruct (reach (rp_nodes d) p).
  - intros p d bytes [He _]%call_ret. cbn in *. destruct (content (rp_nodes d) p); [|done]. by injection He as <-.
  - intros p d bytes He. cbn in *. unfold content. by rewrite He.
  - intros p x d He. left. exact (reach_above _ _ _ He).
  - intros p bytes d. apply call_touches. intros q Hq%Forall_one. left. by apply write_outside.
  - intros p q d. apply call_touches. intros q' Hq%Forall_one. left. destruct (content _ _); [by apply write_outside|done].
  - intros p d. apply call_touches. intros q _. apply make_outside.
  - intros p d. pose proof (temporary_makes p (rp_nodes d)) as Hm.
    apply (call_cases (make_temporary p (rp_nodes d)) d (λ r d', match r with
      | Ret r => (normal p → normal r) ∧ node_at d' r = Some n_directory ∧ (∀ rel, node_at d (r ++ rel) = None) ∧
          (∀ rel, rel ≠ [] → node_at d' (r ++ rel) = None) ∧ touched [r] d d'
      | Throw _ => unchanged d d' end)).
    + intros d' Hd. by apply same_nodes.
    + intros d' Hd. destruct (make_temporary p (rp_nodes d)) as [[r|e] l']; cbn in *; subst l'.
      * destruct Hm as (H1 & H2 & H3 & H4 & H5). split_and!; [done|done|done|done|].
        intros q Hq%Forall_one. left. cbn. by apply H5.
      * by apply same_nodes.
  - intros p d. apply call_touches. intros q Hq%Forall_one. left. by apply remove_outside.
  - intros p d [_ He]%call_ret rel. cbn in *. rewrite He. apply remove_below.
  - intros command roots d Hw. apply call_touches. intros q Hq. left. by eapply spawned_outside.
  - intros p bytes d [Hr He]%call_ret. cbn in *. rewrite He. by apply write_writes.
Qed.

Lemma repo_checks_out : checks_out (Disk := repo) committed.
Proof.
  intros r commit d result d' Hr Hd _ Hg rel bytes Hh Hn. 
  change (call (Ret (rp_reply d (git_checkout r commit)), spawned (git_checkout r commit) (rp_nodes d)) d = (Ret result, d')) in Hd.
  change (reach (rp_nodes d') (r ++ rel) = Some (n_file bytes)) in Hn. pose proof (call_ret _ _ _ (f_equal fst Hd)) as [_ He].
  rewrite Hd in He. cbn [snd] in He. rewrite He in Hn. cbn [spawned git_checkout git_in app] in Hn.
  rewrite resolve_path_text in Hn by done. apply reach_iff in Hn as [_ Hn]. rewrite look_app, look_reachable in Hn.
  unfold committed. assert (∀ l : nodes, look ((λ kv : path * node, (r ++ kv.1, kv.2)) <$> l) (r ++ rel) = look l rel) as Hlook.
  { induction l as [|[q n] l IH]; [done|]. rewrite fmap_cons. cbn [fst snd]. rewrite !look_cons, IH.
    destruct (decide (r ++ q = r ++ rel)) as [Hq|Hq], (decide (q = rel)) as [Hq'|Hq']; try done.
    - by apply app_inv_head in Hq. - by subst. }
  rewrite Hlook in Hn. destruct (look (commits commit) rel) as [n|].
  - by injection Hn as ->.
  - exfalso. apply Hh. by eapply Hg.
Qed.
End repo.

(** ** A repository *)

(** A digest: the sum of the units, in two digits, as often as it takes. *)
Definition hex_digit_of (n : N) : ascii := ascii_of_N (if (n <? 10)%N then 48 + n else 87 + n)%N.
Fixpoint unit_sum (s : string) : N := match s with EmptyString => 0 | String c s => unit_of c + unit_sum s end.
Definition sample_digest (s : string) : string :=
  let n := (unit_sum s mod 256)%N in
  String.concat "" (repeat (String (hex_digit_of (n / 16)) (String (hex_digit_of (n mod 16)) "")) 32).

Definition sample_tree : list (string * string) :=
  [("LICENSE", "Apache"); ("NOTICE", "OpenAI"); ("codex-rs/Cargo.toml", "[workspace]")].
Definition sample_records : list VendorFileRecord :=
  (λ f : string * string, {| vf_path := f.1; vf_source_sha256 := sample_digest f.2; vf_vendor_sha256 := sample_digest f.2 |})
    <$> sample_tree.

Definition sample_root : path := ["r"].
Definition sample_temporary : path := ["t"].

(** The manifest, before the digests of the files it names. *)
Definition sample_upstream (status : string) (digests : list string) : UpstreamManifest := {|
  um_schema_version := 1; um_version := baseline_version; um_tag := baseline_tag;
  um_annotated_tag_object := baseline_annotatedTagObject; um_source_commit := baseline_sourceCommit;
  um_repository := "https://github.com/openai/codex"; um_license := "Apache-2.0";
  um_rust_toolchain := baseline_rustToolchain; um_status := status;
  um_tree_sha256 := sample_digest (String.concat "" ((λ f : string * string, tree_line f.1 (sample_digest f.2)) <$> sample_tree));
  um_allowlist_manifest := Some "files.json"; um_allowlist_sha256 := digests !! 0;
  um_license_inventory := Some "licenses.json"; um_license_inventory_sha256 := digests !! 1;
  um_sbom := Some "sbom.json"; um_sbom_sha256 := digests !! 2;
  um_patches := []; um_excluded_crates := excludedCrates; um_selected_crates := closure_names |}.

Definition sample_bill : jsval := VObj [
  ("schema_version", VNum (num_of_Z 1)); ("official_version", VStr baseline_version);
  ("official_source_commit", VStr baseline_sourceCommit); ("cargo_lock_sha256", VStr (sample_digest "lock"))].

Definition sample_files : list string :=
  let m := sample_upstream "ready" [] in
  [@stringify bits_json (file_manifest_value m sample_records); @stringify bits_json (inventory_value m);
   @stringify bits_json sample_bill].

Definition sample_manifest : UpstreamManifest := sample_upstream "ready" (sample_digest <$> sample_files).
Definition sample_parse (text : string) : option UpstreamManifest :=
  if String.eqb text "toml" then Some sample_manifest else None.

Definition sample_constants : string :=
  String.concat line_feed
    ((λ kv : string * string, "const " ++ kv.1 ++ " = '" ++ kv.2 ++ "';")%string <$> identity_fields sample_manifest).

Definition sample_commits (commit : string) : list (path * node) :=
  if String.eqb commit baseline_sourceCommit
  then (["codex-rs"], n_directory) :: ((λ f : string * string, (split_on SEP f.1, n_file f.2)) <$> sample_tree)
  else [].

Definition sample_reply (command : list string) : process_result :=
  {| exitCode := 0;
     stdout := match command with
       | [_; _; _; "rev-parse"; ref] => if String.eqb ref "refs/tags/rust-v0.146.0"
           then baseline_annotatedTagObject else baseline_sourceCommit
       | _ => "" end |}.

Definition sample_repo (vendored_files : list (string * string)) (plan : list bool) : repo := {|
  rp_nodes :=
    ((λ p : string, (split_on SEP p, n_directory)) <$> ["r/native/vendor/openai-codex/codex-rs"; "r/native/vendor/openai-codex";
       "r/native/vendor"; "r/native/crates/bridge-protocol/src"; "r/native/crates/bridge-protocol"; "r/native/crates"; "r/native";
       "r/src/infrastructure/codex-bridge"; "r/src/infrastructure"; "r/src"; "r"; "t"]) ++
    [([], n_directory)] ++
    ((λ f : string * string, (split_on SEP ("r/native/vendor/openai-codex/" ++ f.1), n_file f.2)) <$> vendored_files) ++
    ((λ f : string * string, (split_on SEP ("r/" ++ f.1), n_file f.2)) <$>
       [("UPSTREAM_CODEX.toml", "toml"); ("native/Cargo.lock", "lock");
        ("native/crates/bridge-protocol/src/lib.rs", sample_constants);
        ("src/infrastructure/codex-bridge/identity.ts", sample_constants)] ++
       zip ["files.json"; "licenses.json"; "sbom.json"] sample_files);
  rp_reply := sample_reply; rp_plan := plan |}.

Definition sample_main (argv : list string) : Io.io repo sync_error string :=
  main (H := repo_tree sample_commits) (H0 := bits_json) sample_digest sample_parse sample_root sample_temporary 4 argv.

Definition sample_message : string :=
  ("Verified OpenAI Codex 0.146.0 vendor tree " ++ um_tree_sha256 sample_manifest ++ ".")%string.
