(* ===== verification/VendorFacts.v ===== *)
(** * VendorFacts

    Checking the vendored sources decides whether they are the recorded ones:
    the check changes nothing, and answers exactly when the tree, the licenses,
    the bill of materials and the identity constants are those of the manifest. *)

From Stdlib Require Import Lia.
From S2P Require Import Prelude Io Paths Workspace Json Protocol Decimal Render JsRegex Vendor VendorRepo.

(** ** Paths *)

Lemma join_split s : join "/" (split_on SEP s) = s.
Proof.
  induction s as [|c s IH]; [done|]. cbn [split_on]. pose proof (split_on_nonempty SEP s) as Hne.
  destruct (Ascii.eqb_spec c SEP) as [->|Hc].
  - destruct (split_on SEP s) as [|x l] eqn:Hs; [done|]. cbn [join] in *. by rewrite IH.
  - destruct (split_on SEP s) as [|x l]; [done|]. rewrite <- IH. by destruct l.
Qed.
Lemma normalizePath_id p : normalizePath p = p.
Proof. apply join_split. Qed.

Lemma path_text_inj p q : normal p → normal q → path_text p = path_text q → p = q.
Proof. intros Hp Hq He. by rewrite <- (resolve_path_text [] p), He, resolve_path_text. Qed.

Lemma throw_if_ret {E A} (b : bool) (e : E) (a a' : A) :
  (if b then Throw e else Ret a) = Ret a' ↔ b = false ∧ a = a'.
Proof. destruct b; [by split; [|intros []]|]. split; [by intros [= ->]|by intros [_ ->]]. Qed.

(** A recorded path resolves to a place below its root. *)
Definition within (root : path) (p : string) (q : path) : Prop :=
  isAbsolute p = false ∧ q = resolve_from root p ∧ ∃ rest, rest ≠ [] ∧ q = root ++ rest.

Lemma resolveWithin_iff root p q : normal root → resolveWithin root p = Ret q ↔ within root p q.
Proof.
  intros Hr. pose proof (escapes_relative root (resolve_from root p) (normal_resolve_from _ p Hr)) as He.
  unfold resolveWithin, within, escapes in *. set (t := relative_text root (resolve_from root p)) in *.
  destruct (isAbsolute p) eqn:Ha.
  { rewrite orb_true_r. split; [done|]. by intros []. }
  rewrite orb_false_r, throw_if_ret. split.
  - intros [Hb <-]. split_and!; [done|done|]. apply He.
    rewrite Hb, orb_false_l. unfold isAbsolute. apply not_true_iff_false. rewrite starts_with_iff. intros [u Hu].
    subst t. unfold relative_text, relative in Hu.
    destruct (strip_common root (resolve_from root p)) as [up down] eqn:Hs.
    apply strip_common_spec in Hs as (common & _ & Hd & _).
    pose proof (normal_resolve_from root p Hr) as Hn. rewrite Hd in Hn. apply normal_app in Hn as [_ Hn].
    destruct up as [|x up]; cbn in Hu.
    + destruct down as [|c down]; [done|]. inversion Hn as [|?? (Hc & _ & _ & Hsep) _]; subst.
      destruct c as [|a c]; [done|]. destruct down; cbn in Hu; injection Hu as -> _; by cbn in Hsep.
    + by destruct (repeat _ _ ++ _).
  - intros (_ & -> & Hrest). apply He, orb_false_iff in Hrest. by destruct Hrest as [-> _].
Qed.

Lemma within_normal root p q : normal root → within root p q → normal q.
Proof. intros Hr (_ & -> & _). by apply normal_resolve_from. Qed.

(** ** Exact sets of names *)

Lemma dedup_length seen xs : length (dedup seen xs) ≤ length xs.
Proof. revert seen. induction xs as [|x xs IH]; intros seen; [done|]. cbn. destruct (js_elem x seen); cbn; [|apply le_n_S]; auto. Qed.

Lemma dedup_full seen xs : length (dedup seen xs) = length xs → dedup seen xs = xs.
Proof.
  revert seen. induction xs as [|x xs IH]; intros seen; [done|]. cbn [dedup].
  destruct (js_elem x seen) eqn:Hx; cbn.
  - intros Hl. pose proof (dedup_length seen xs). lia.
  - intros [= Hl]. f_equal. by apply IH.
Qed.

Lemma dedup_length_iff xs : length (dedup [] xs) = length xs ↔ NoDup xs.
Proof.
  split; [intros <-%dedup_full; apply NoDup_dedup|]. intros Hnd. rewrite dedup_id; [done|done|]. set_solver.
Qed.

Lemma assertExactStringSet_iff actual expected name u :
  NoDup expected → assertExactStringSet actual expected name = Ret u ↔ actual ≡ₚ expected.
Proof.
  intros Hnd. unfold assertExactStringSet.
  rewrite guard_throw_ret, andb_true_iff, Nat.eqb_eq, strs_eqb_iff, js_sort_eq. split.
  - intros [Hl Hp]. by rewrite dedup_full in Hp.
  - intros Hp. rewrite dedup_id; [done|by rewrite Hp|set_solver].
Qed.

(** ** Directories *)

Section listing.
Context {Disk} `{SourceTree Disk} {writes} {laws : SourceTreeLaws Disk writes}.
Implicit Types d : Disk.

(** The regular files below a directory, in the order of their texts; nothing
    below is a link or of another kind. *)
Record listed (directory : path) (d : Disk) (files : list path) : Prop := {
  ls_sorted : Sorted path_le files;
  ls_nodup : NoDup files;
  ls_files p : p ∈ files ↔ ∃ rel bytes, normal rel ∧ rel ≠ [] ∧ p = directory ++ rel ∧ basename rel ≠ ".gitkeep" ∧
    node_at d p = Some (n_file bytes);
  ls_plain rel n : normal rel → rel ≠ [] → node_at d (directory ++ rel) = Some n →
    kind_of n = k_file ∨ kind_of n = k_directory }.

#[export] Instance path_le_total : Total path_le.
Proof. intros p q. apply (total str_le). Qed.
#[export] Instance path_le_trans : Transitive path_le.
Proof. intros p q r. unfold path_le. apply str_le_trans. Qed.

Lemma listed_one directory d files files' :
  normal directory → listed directory d files → listed directory d files' → files = files'.
Proof.
  intros Hd Hl Hl'.
  assert (∀ f, listed directory d f → Forall normal f) as Hn.
  { intros f Hf. rewrite Forall_forall. intros p Hp. apply (ls_files _ _ _ Hf) in Hp as (rel & b & Hr & _ & -> & _).
    by apply normal_app. }
  assert (files ≡ₚ files') as Hp.
  { apply NoDup_Permutation; [apply Hl|apply Hl'|]. intros p.
    rewrite (ls_files _ _ _ Hl), (ls_files _ _ _ Hl'). done. }
  assert (path_text <$> files = path_text <$> files') as He.
  { apply (Sorted_unique str_le); [| |by rewrite Hp].
    - apply (Sorted_fmap path_text path_le); [done|apply Hl].
    - apply (Sorted_fmap path_text path_le); [done|apply Hl']. }
  apply Hn in Hl, Hl'. clear Hp Hn. revert files' Hl' He. induction Hl as [|p files Hp _ IH]; intros [|q files'] Hl' He; try done.
  inversion Hl'; subst. injection He as He1 He2. f_equal; [apply path_text_inj; [done..|unfold path_text; by rewrite He1]|by apply IH].
Qed.

(** A tree under a directory is the trees under its entries. *)
Definition entry_files (directory : path) (d : Disk) (entry : string * kind) (files : list path) : Prop :=
  match entry.2 with
  | k_file => files = if String.eqb entry.1 ".gitkeep" then [] else [directory ++ [entry.1]]
  | k_directory => listed (directory ++ [entry.1]) d files
  | _ => False
  end.

Definition entries_of (directory : path) (d : Disk) (entries : list (string * kind)) : Prop :=
  NoDup entries.*1 ∧
  ∀ name k, (name, k) ∈ entries ↔ is_component name ∧ kind_of <$> node_at d (directory ++ [name]) = Some k.

Lemma ancestor_plain directory x rel d :
  node_at d (directory ++ x :: rel) ≠ None →
  ∃ n, node_at d (directory ++ [x]) = Some n ∧ (rel ≠ [] → n = n_directory ∨ n = n_symlink).
Proof.
  intros Hn. destruct rel as [|y rel _] using rev_ind.
  { destruct (node_at d (directory ++ [x])) as [n|] eqn:He; [|done]. by exists n. }
  assert (∀ rel', node_at d (directory ++ x :: rel') ≠ None → ∀ z rel'', rel' = rel'' ++ [z] →
    node_at d (directory ++ [x]) = Some n_directory ∨ node_at d (directory ++ [x]) = Some n_symlink) as Hup.
  { intros rel'. induction rel' as [|z' rel' IH] using rev_ind; [intros _ z [|??]; done|].
    intros Hz z rel'' _. change (x :: rel' ++ [z']) with ((x :: rel') ++ [z']) in Hz. rewrite app_assoc in Hz.
    apply parent_is_directory in Hz. destruct rel' as [|w rel' _] using rev_ind; [done|].
    eapply IH; [|done]. destruct Hz as [-> | ->]; done. }
  destruct (Hup _ Hn y rel eq_refl) as [He|He]; rewrite He; eexists; (split; [done|]); auto.
Qed.

(** The files under one entry. *)
Definition entry_holds (directory : path) (d : Disk) (name : string) (k : kind) (p : path) : Prop :=
  match k with
  | k_file => name ≠ ".gitkeep" ∧ p = directory ++ [name]
  | k_directory => ∃ rel bytes, normal rel ∧ rel ≠ [] ∧ p = directory ++ name :: rel ∧ basename rel ≠ ".gitkeep" ∧
      node_at d p = Some (n_file bytes)
  | _ => False
  end.

Lemma entry_files_elem directory d name k fs p :
  entry_files directory d (name, k) fs → p ∈ fs ↔ entry_holds directory d name k p.
Proof.
  unfold entry_files, entry_holds. cbn. destruct k; try done.
  - intros ->. destruct (String.eqb_spec name ".gitkeep") as [->|Hne]; set_solver.
  - intros Hl. rewrite (ls_files _ _ _ Hl). setoid_rewrite <- app_assoc. done.
Qed.

Lemma entries_elem directory d entries files p :
  Forall2 (entry_files directory d) entries files →
  p ∈ concat files ↔ ∃ name k, (name, k) ∈ entries ∧ entry_holds directory d name k p.
Proof.
  induction 1 as [|[name k] fs entries files He _ IH]; cbn.
  - split; [by intros ?%elem_of_nil|]. by intros (? & ? & ?%elem_of_nil & _).
  - rewrite elem_of_app, IH, (entry_files_elem _ _ _ _ _ _ He). setoid_rewrite elem_of_cons. split.
    + intros [Hp|(n & k' & Hin & Hp)]; [exists name, k; auto|exists n, k'; auto].
    + intros (n & k' & [[= -> ->]|Hin] & Hp); [by left|right; eauto].
Qed.

Lemma entry_holds_name directory d name k p :
  entry_holds directory d name k p → ∃ rel, p = directory ++ name :: rel.
Proof. destruct k; try done; [by intros [_ ->]; exists []|]. intros (rel & _ & _ & _ & -> & _). by exists rel. Qed.

Lemma entries_nodup directory d entries files :
  NoDup entries.*1 → Forall2 (entry_files directory d) entries files → NoDup (concat files).
Proof.
  intros Hnd Hf. induction Hf as [|[name k] fs entries files He Hf IH]; [constructor|].
  cbn in *. apply NoDup_cons in Hnd as [Hname Hnd]. apply NoDup_app. split_and!; [| |by apply IH].
  - destruct k; cbn in He; try done; [subst; destruct (String.eqb _ _); [constructor|apply NoDup_singleton]|apply He].
  - intros p Hp Hq. apply (entry_files_elem _ _ _ _ _ _ He), entry_holds_name in Hp as [rel ->].
    apply (entries_elem _ _ _ _ _ Hf) in Hq as (name' & k' & Hin & Hq).
    apply entry_holds_name in Hq as [rel' Heq]. apply app_inv_head in Heq. injection Heq as <- _.
    apply Hname, list_elem_of_fmap. by exists (name, k').
Qed.

Lemma entries_plain directory d entries files name k :
  Forall2 (entry_files directory d) entries files → (name, k) ∈ entries →
  ∃ fs, entry_files directory d (name, k) fs.
Proof.
  intros Hf Hin. apply list_elem_of_lookup in Hin as [i Hi].
  destruct (Forall2_lookup_l _ _ _ _ _ Hf Hi) as (fs & _ & He). by exists fs.
Qed.

Lemma basename_cons x rel : rel ≠ [] → basename (x :: rel) = basename rel.
Proof. by destruct rel. Qed.

Lemma listed_entries directory d entries files :
  entries_of directory d entries → Forall2 (entry_files directory d) entries files →
  listed directory d (sort_paths (concat files)).
Proof.
  intros [Hnd Hes] Hf.
  assert (∀ x rel, is_component x → node_at d (directory ++ x :: rel) ≠ None →
    (rel = [] ∧ (∃ b, node_at d (directory ++ [x]) = Some (n_file b)) ∧ (x, k_file) ∈ entries) ∨
    ((x, k_directory) ∈ entries ∧ ∃ fs, listed (directory ++ [x]) d fs)) as Hcase.
  { intros x rel Hx Hn. apply ancestor_plain in Hn as (n & Hn & Hr).
    assert ((x, kind_of n) ∈ entries) as Hin by (apply Hes; by rewrite Hn).
    destruct (entries_plain _ _ _ _ _ _ Hf Hin) as (fs & He).
    destruct n as [b| | |]; try done; [left|right; split; [exact Hin|by exists fs]].
    split_and!; [|by exists b|done]. destruct rel; [done|]. assert (∀ b, n_file b = n_directory ∨ n_file b = n_symlink → False) as Hno by (by intros b' []).
    exfalso. by apply (Hno b), Hr. }
  split.
  - apply Sorted_merge_sort, _.
  - unfold sort_paths. rewrite merge_sort_Permutation. by eapply entries_nodup.
  - intros p. unfold sort_paths. rewrite merge_sort_Permutation, (entries_elem _ _ _ _ _ Hf). split.
    + intros (name & k & Hin & Hp). apply Hes in Hin as [Hc Hk]. destruct k; try done.
      * destruct Hp as [Hg ->]. destruct (node_at d (directory ++ [name])) as [[b| | |]|] eqn:Hn; try done.
        exists [name], b. split_and!; [by apply Forall_singleton|done..].
      * destruct Hp as (rel & b & Hr & Hne & -> & Hg & Hb). exists (name :: rel), b.
        split_and!; [by apply Forall_cons_2|done|done|by rewrite basename_cons|done].
    + intros (rel & b & Hr & Hne & -> & Hg & Hb). destruct rel as [|x rel]; [done|].
      inversion Hr as [|?? Hx Hr']; subst. assert (node_at d (directory ++ x :: rel) ≠ None) as Hn by (by rewrite Hb).
      destruct (Hcase x rel Hx Hn) as [(-> & _ & Hin)|[Hin (fs & Hl)]].
      * exists x, k_file. done.
      * exists x, k_directory. split; [done|]. exists rel, b. apply Hes in Hin as [_ Hk].
        destruct rel as [|y rel]; [by rewrite Hb in Hk|]. done.
  - intros rel n Hr Hne Hn. destruct rel as [|x rel]; [done|]. inversion Hr as [|?? Hx Hr']; subst.
    assert (node_at d (directory ++ x :: rel) ≠ None) as Hn' by (by rewrite Hn).
    destruct (Hcase x rel Hx Hn') as [(-> & (b & Hb) & _)|[Hin (fs & Hl)]]; [left; by simplify_eq|].
    destruct rel as [|y rel].
    + apply Hes in Hin as [_ Hk]. rewrite Hn in Hk. right. by injection Hk.
    + apply (ls_plain _ _ _ Hl (y :: rel)); [done|done|]. by rewrite <- app_assoc.
Qed.

Lemma listed_same directory d d' files : unchanged d d' → listed directory d files → listed directory d' files.
Proof.
  intros [Hn _] [H1 H2 H3 H4]. split; [done|done| |].
  - intros p. rewrite H3. setoid_rewrite Hn. done.
  - intros rel n. rewrite Hn. apply H4.
Qed.
End listing.

(** ** Walking *)

Definition silent (e : sync_error) : Prop := ∃ x, e = platform_error x.

Section walking.
Context {Disk} `{SourceTree Disk} {writes} {laws : SourceTreeLaws Disk writes}.
Implicit Types d : Disk.

(** Out of fuel: there is a directory that deep. *)
Definition too_deep (n : nat) (directory : path) (e : sync_error) (d : Disk) : Prop :=
  e = depth_exceeded ∧ (node_at d directory = Some n_directory →
    ∃ rel, length rel = n ∧ node_at d (directory ++ rel) = Some n_directory).

Lemma too_deep_same n directory e d d' : unchanged d d' → too_deep n directory e d → too_deep n directory e d'.
Proof.
  intros [Hn _] [-> Hdeep]. split; [done|]. rewrite Hn. intros Hd. destruct (Hdeep Hd) as (rel & Hl & Hrel).
  exists rel. by rewrite Hn.
Qed.

Lemma too_deep_below n directory name e d :
  node_at d (directory ++ [name]) = Some n_directory →
  too_deep n (directory ++ [name]) e d → too_deep (S n) directory e d.
Proof.
  intros Hd [-> Hdeep]. split; [done|]. intros _. destruct (Hdeep Hd) as (rel & <- & Hrel).
  exists (name :: rel). split; [done|]. by rewrite <- app_assoc in Hrel.
Qed.

(** A tree that can be listed can be listed entry by entry. *)
Lemma listed_sub directory d files name :
  is_component name → node_at d (directory ++ [name]) = Some n_directory → listed directory d files →
  ∃ fs, listed (directory ++ [name]) d fs.
Proof.
  intros Hc Hd Hl. exists (sort_paths (filter (λ p, directory ++ [name] `prefix_of` p) files)). split.
  - apply Sorted_merge_sort, _.
  - unfold sort_paths. rewrite merge_sort_Permutation. apply NoDup_filter, Hl.
  - intros p. unfold sort_paths. rewrite merge_sort_Permutation, list_elem_of_filter, (ls_files _ _ _ Hl). split.
    + intros [[rel ->] (rel' & b & Hr & _ & Heq & Hg & Hb)]. exists rel, b.
      rewrite <- app_assoc in Heq. apply app_inv_head in Heq. subst rel'. inversion Hr as [|?? _ Hr']; subst.
      assert (rel ≠ []) as Hne by (intros ->; rewrite app_nil_r in Hb; congruence).
      split_and!; [done|done|done| |done]. cbn [app] in Hg. by rewrite basename_cons in Hg.
    + intros (rel & b & Hr & Hne & -> & Hg & Hb). split; [by eexists|]. exists (name :: rel), b.
      rewrite <- app_assoc in *. split_and!; [by apply Forall_cons_2|done|done|by rewrite basename_cons|done].
  - intros rel n Hr Hne Hn. rewrite <- app_assoc in Hn.
    by apply (ls_plain _ _ _ Hl (name :: rel)); [apply Forall_cons_2|..].
Qed.

Lemma listed_complete directory d entries files :
  (∀ name k, (name, k) ∈ entries → is_component name ∧ kind_of <$> node_at d (directory ++ [name]) = Some k) →
  listed directory d files → ∃ fs, Forall2 (entry_files directory d) entries fs.
Proof.
  intros Hes Hl. induction entries as [|[name k] entries IH]; [by exists []|].
  destruct IH as [fs Hfs]; [intros; apply Hes; by right|].
  destruct (Hes name k) as [Hc Hk]; [by left|]. destruct (node_at d (directory ++ [name])) as [n|] eqn:Hn; [|done].
  injection Hk as Hk. assert (normal [name]) as Hname by (by apply Forall_singleton).
  destruct (ls_plain _ _ _ Hl [name] n Hname ltac:(done) Hn) as [Hf|Hd]; rewrite Hk in *; subst k.
  - rewrite Hf. exists ((if String.eqb name ".gitkeep" then [] else [directory ++ [name]]) :: fs). by constructor.
  - assert (n = n_directory) as -> by (by destruct n). destruct (listed_sub _ _ _ _ Hc Hn Hl) as [l Hsub].
    exists (l :: fs). by constructor.
Qed.

Lemma entry_files_same directory d d' entry fs :
  unchanged d d' → entry_files directory d entry fs → entry_files directory d' entry fs.
Proof. intros Hu. unfold entry_files. destruct entry.2; try done. by apply listed_same. Qed.
Lemma entries_files_same directory d d' entries fs :
  unchanged d d' → Forall2 (entry_files directory d) entries fs → Forall2 (entry_files directory d') entries fs.
Proof. intros Hu Hf. eapply Forall2_impl; [exact Hf|]. intros e l. by apply entry_files_same. Qed.

Lemma collect_entries_runs n directory (rec : path → Io.io Disk sync_error (list path)) entries paths d :
  normal directory →
  (∀ p, normal p → Decides silent (too_deep n p) (rec p) (λ d, listed p d)) →
  (∀ name k, (name, k) ∈ entries → is_component name ∧ kind_of <$> node_at d (directory ++ [name]) = Some k) →
  runs (collect_entries rec directory entries paths) (λ r d' t, Forall (unchanged d) (d' :: t) ∧
    match r with
    | Ret x => ∃ fs, Forall2 (entry_files directory d) entries fs ∧ x = paths ++ concat fs
    | Throw e => silent e ∨ too_deep (S n) directory e d ∨ ¬ ∃ fs, Forall2 (entry_files directory d) entries fs
    end) d.
Proof.
  intros Hd Hrec. revert paths d. induction entries as [|[name k] entries IH]; intros paths d Hes.
  { apply runs_ret. split; [by apply Forall_singleton|]. exists []. split; [constructor|]. by rewrite app_nil_r. }
  assert (∀ name k, (name, k) ∈ entries → is_component name ∧ kind_of <$> node_at d (directory ++ [name]) = Some k)
    as Hes' by (intros; apply Hes; by right).
  destruct (Hes name k) as [Hc Hk]; [by left|]. cbn [collect_entries].
  rewrite (resolve_from_component directory name Hc).
  destruct k.
  - eapply runs_mono; [by apply IH|]. intros r d' t [Ht Hr]. split; [done|].
    destruct r as [x|e]; [destruct Hr as (fs & Hfs & ->)|destruct Hr as [?|[?|Hno]]; [by left|by right; left|right; right]].
    + exists ((if String.eqb name ".gitkeep" then [] else [directory ++ [name]]) :: fs). split; [by constructor|].
      cbn. destruct (String.eqb name ".gitkeep"); [done|]. by rewrite <- app_assoc.
    + intros (fs & Hfs). inversion Hfs as [|? ? ? ? _ Hfs']; subst. apply Hno. by eexists.
  - assert (normal (directory ++ [name])) as Hsub by (apply normal_app; split; [done|by apply Forall_singleton]).
    assert (node_at d (directory ++ [name]) = Some n_directory) as Hdir
      by (destruct (node_at d (directory ++ [name])) as [[]|]; by simplify_eq/=).
    apply runs_bind. eapply runs_mono; [apply (de_runs _ _ _ _ (Hrec _ Hsub))|]. intros [l|e] d1 t1 [Ht1 Hv].
    + inversion Ht1 as [|?? Hu Ht1']; subst. eapply runs_mono.
      { apply (IH (paths ++ l) d1). intros name' k' Hin. destruct Hu as [Hu _]. rewrite Hu. by apply Hes'. }
      intros r d2 t2 [Ht2 Hr]. split; [by eapply moves_chain; [apply _|..]|]. apply unchanged_sym in Hu.
      destruct r as [x|e]; [destruct Hr as (fs & Hfs & ->)|destruct Hr as [?|[Hdeep|Hno]]; [by left|right; left|right; right]].
      * exists (l :: fs). split; [constructor; [done|by eapply entries_files_same]|]. cbn. by rewrite app_assoc.
      * by eapply too_deep_same.
      * intros (fs & Hfs). inversion Hfs as [|? ? ? ? _ Hfs']; subst. apply Hno. eexists.
        eapply entries_files_same; [by apply unchanged_sym|done].
    + split; [done|]. destruct Hv as [?|[?|Hno]]; [by left|right; left; by eapply too_deep_below|right; right].
      intros (fs & Hfs). inversion Hfs as [|? l ? ? He _]; subst. by apply (Hno l).
  - apply runs_throw. split; [by apply Forall_singleton|]. right; right. intros (fs & Hfs). by inversion Hfs.
  - apply runs_throw. split; [by apply Forall_singleton|]. right; right. intros (fs & Hfs). by inversion Hfs.
Qed.

Lemma collectFiles_decides n directory :
  normal directory → Decides silent (too_deep n directory) (collectFiles n directory) (λ d, listed directory d).
Proof.
  revert directory. induction n as [|n IH]; intros directory Hd.
  - split; [|intros d a a'; by apply listed_one|intros d d' a; by apply listed_same].
    intros d. apply runs_throw. split; [by apply Forall_singleton|]. right; left. split; [done|]. intros Hdir.
    exists []. by rewrite app_nil_r.
  - split; [|intros d a a'; by apply listed_one|intros d d' a; by apply listed_same].
    intros d. cbn [collectFiles]. apply runs_bind, runs_call. intros [entries|e] d1 Hr.
    2:{ pose proof (readdir_unchanged directory d) as Hu. rewrite Hr in Hu. split; [by repeat apply Forall_cons_2|].
        left. by eexists. }
    pose proof (readdir_unchanged directory d) as Hu. pose proof (readdir_lists directory d entries) as Hl.
    rewrite Hr in Hu, Hl. cbn in Hu. destruct (Hl eq_refl) as [Hnd Hes].
    assert (entries_of directory d1 entries) as Hes1.
    { split; [done|]. intros name k. rewrite Hes. by destruct Hu as [-> _]. }
    apply runs_bind. eapply runs_mono.
    { apply (collect_entries_runs n directory _ entries [] d1 Hd IH). intros name k Hin. by apply Hes1. }
    intros r d2 t2 [Ht2 Hv]. assert (Forall (unchanged d) (d2 :: [d1] ++ t2)) as Ht.
    { eapply moves_chain; [apply _| |done]. by repeat apply Forall_cons_2. }
    apply unchanged_sym in Hu. destruct r as [x|e].
    + destruct Hv as (fs & Hfs & ->). apply runs_ret. rewrite app_nil_r. split; [done|]. cbn.
      eapply listed_same; [done|]. by eapply listed_entries.
    + split; [done|]. destruct Hv as [?|[?|Hno]]; [by left|right; left; by eapply too_deep_same|right; right].
      intros files Hfiles. apply Hno. eapply (listed_complete directory d1 entries files).
      * intros name k Hin. by apply Hes1.
      * eapply listed_same; [by apply unchanged_sym|done].
Qed.
End walking.

(** ** What is checked *)

Section checks.
Context {Disk} `{SourceTree Disk} {writes} {laws : SourceTreeLaws Disk writes} `{JsonText}.
Context (sha256 : string → string).
Context (repositoryRoot : path) (depth : nat) (Hroot : normal repositoryRoot).
Implicit Types d : Disk.

Abbreviation vendor := (vendorRoot repositoryRoot).
Abbreviation D m P := (Decides silent (too_deep depth vendor) m P).

Lemma vendor_normal : normal vendor.
Proof. by apply normal_resolve_from. Qed.

(** The text whose digest is that of the tree. *)
Fixpoint tree_text d (files : list path) : option string :=
  match files with
  | [] => Some ""
  | file :: files =>
      bytes ← content_at d file; rest ← tree_text d files;
      Some (tree_line (relative_text vendor file) (sha256 bytes) ++ rest)%string
  end.

Definition names_of (files : list path) : list string := relative_text vendor <$> files.

Definition tree_is d (t : tree_hash) : Prop :=
  ∃ files text, listed vendor d files ∧ tree_text d files = Some text ∧
    t = {| th_files := names_of files; th_sha256 := sha256 text |}.

(** A recorded file has the recorded digest. *)
Definition vendored_file (file : VendorFileRecord) d : Prop :=
  ∃ q bytes, within vendor (vf_path file) q ∧ content_at d q = Some bytes ∧ sha256 bytes = vf_vendor_sha256 file.

(** The files below the vendored directory are the recorded ones, with the
    recorded digests, one by one and together. *)
Definition tree_matches (manifest : UpstreamManifest) (records : list VendorFileRecord) d : Prop :=
  (∃ files text, listed vendor d files ∧ tree_text d files = Some text ∧
     sha256 text = um_tree_sha256 manifest ∧ vf_path <$> records ≡ₚ names_of files) ∧
  Forall (λ file, vendored_file file d) records.

(** The value of a file that the manifest names with its digest. *)
Definition pinned_file (name digest : option string) d (bytes : string) : Prop :=
  ∃ p q, name = Some p ∧ within repositoryRoot p q ∧ content_at d q = Some bytes ∧ digest = Some (sha256 bytes).
Definition pinned_value (name digest : option string) d (fields : list (string * jsval)) : Prop :=
  ∃ bytes, pinned_file name digest d bytes ∧ json_parse bytes = Some (VObj fields).

Definition recorded (manifest : UpstreamManifest) d (records : list VendorFileRecord) : Prop :=
  ∃ fields, pinned_value (um_allowlist_manifest manifest) (um_allowlist_sha256 manifest) d fields ∧
    field fields "schema_version" = VNum (num_of_Z 1) ∧ field fields "official_version" = VStr (um_version manifest) ∧
    field fields "source_commit" = VStr (um_source_commit manifest) ∧
    file_records (field fields "files") = Ret records ∧ NoDup (vf_path <$> records) ∧
    Forall (λ f, is_hex 64 (vf_source_sha256 f) = true ∧ is_hex 64 (vf_vendor_sha256 f) = true) records.

Definition licensed (manifest : UpstreamManifest) d : Prop :=
  (∃ fields, pinned_value (um_license_inventory manifest) (um_license_inventory_sha256 manifest) d fields ∧
    field fields "schema_version" = VNum (num_of_Z 1) ∧ field fields "official_version" = VStr (um_version manifest) ∧
    field fields "source_commit" = VStr (um_source_commit manifest) ∧
    field fields "license" = VStr (um_license manifest) ∧
    field fields "license_files" = VArr [VStr "LICENSE"; VStr "NOTICE"] ∧
    field fields "packages" = VArr (expectedLicensePackages manifest)) ∧
  ∀ name, name ∈ ["LICENSE"; "NOTICE"] → ∃ bytes, node_at d (vendor ++ [name]) = Some (n_file bytes).

Definition billed (manifest : UpstreamManifest) d : Prop :=
  ∃ fields lock, pinned_value (um_sbom manifest) (um_sbom_sha256 manifest) d fields ∧
    content_at d (resolve_from repositoryRoot "native/Cargo.lock") = Some lock ∧
    field fields "schema_version" = VNum (num_of_Z 1) ∧ field fields "official_version" = VStr (um_version manifest) ∧
    field fields "official_source_commit" = VStr (um_source_commit manifest) ∧
    field fields "cargo_lock_sha256" = VStr (sha256 lock).

(** Both sources of the bridge assign the manifest's values to the constants. *)
Definition identified (manifest : UpstreamManifest) d : Prop :=
  ∃ rust typeScript, content_at d (RUST_IDENTITY repositoryRoot) = Some rust ∧
    content_at d (TYPESCRIPT_IDENTITY repositoryRoot) = Some typeScript ∧
    Forall (λ kv, readAssignedStringConstant rust kv.1 = Ret kv.2 ∧ readAssignedStringConstant typeScript kv.1 = Ret kv.2)
      (identity_fields manifest).

(** ** The checks decide it *)

Lemma d_bind {A B} (m : Io.io Disk sync_error A) (f : A → Io.io Disk sync_error B) P Q :
  D m P → (∀ a, D (f a) (Q a)) → D (m ≫= f) (λ d b, ∃ a, P d a ∧ Q a d b).
Proof. apply decides_bind. intros e d d'. apply too_deep_same. Qed.
Lemma d_each {A} (f : A → Io.io Disk sync_error unit) (P : A → Disk → Prop) (l : list A) :
  (∀ a, D (f a) (λ d _, P a d)) → D (for_each f l) (λ d _, Forall (λ a, P a d) l).
Proof. apply decides_each. intros e d d'. apply too_deep_same. Qed.

Lemma d_read p : D (fs (tr_readFile p)) (λ d bytes, content_at d p = Some bytes).
Proof.
  apply decides_call; [by eexists|apply readFile_unchanged|apply readFile_reads|congruence|].
  intros d d' a [_ Hc]. by rewrite Hc.
Qed.
Lemma d_lstat p : D (fs (tr_lstat p)) (λ d k, kind_of <$> node_at d p = Some k).
Proof.
  apply decides_call; [by eexists|apply lstat_unchanged|apply lstat_tells|congruence|].
  intros d d' a [Hn _]. by rewrite Hn.
Qed.

Lemma d_within root p : normal root → D (io_lift (resolveWithin root p)) (λ _ q, within root p q).
Proof. intros Hr. eapply decides_iff; [|apply decides_lift]. intros d q. by apply resolveWithin_iff. Qed.

Lemma hash_lines_decides files acc :
  D (hash_lines sha256 repositoryRoot files acc)
    (λ d t, ∃ rest, tree_text d files = Some rest ∧ t = (acc ++ rest)%string).
Proof.
  revert acc. induction files as [|file files IH]; intros acc; cbn [hash_lines tree_text].
  - eapply decides_iff; [|apply decides_ret]. intros d t. split.
    + intros ->. exists "". by rewrite append_nil_r.
    + intros (? & [= <-] & ->). by rewrite append_nil_r.
  - eapply decides_iff; [|apply d_bind; [apply d_read|intros bytes; apply IH]]. intros d t. cbn.
    rewrite normalizePath_id. split.
    + intros (bytes & Hb & rest & Hr & ->). rewrite Hb. cbn. rewrite Hr. cbn. eexists. split; [done|]. by rewrite append_assoc.
    + destruct (content_at d file) as [bytes|]; cbn; [|by intros (? & ? & _)].
      destruct (tree_text d files) as [rest|]; cbn; [|by intros (? & ? & _)].
      intros (? & [= <-] & ->). exists bytes. split; [done|]. exists rest. split; [done|]. by rewrite append_assoc.
Qed.

Lemma calculateTreeHash_decides : D (calculateTreeHash sha256 repositoryRoot depth) tree_is.
Proof.
  eapply decides_iff; [|apply d_bind; [apply collectFiles_decides, vendor_normal|intros files];
    apply d_bind; [apply hash_lines_decides|intros tree; apply decides_ret]].
  intros d t. unfold tree_is, names_of. split.
  - intros (files & Hl & text & (rest & Ht & ->) & ->). exists files, rest. split_and!; [done..|].
    f_equal. apply list_fmap_ext. intros i p _. by rewrite normalizePath_id.
  - intros (files & text & Hl & Ht & ->). exists files. split; [done|]. exists text. split; [by exists text|].
    f_equal. apply list_fmap_ext. intros i p _. by rewrite normalizePath_id.
Qed.

Lemma verifyVendorFile_decides file : D (verifyVendorFile sha256 repositoryRoot file) (λ d _, vendored_file file d).
Proof.
  eapply decides_iff; [|apply d_bind; [apply d_within, vendor_normal|intros q];
    apply d_bind; [apply d_read|intros bytes; apply decides_guard]].
  intros d []. unfold vendored_file. setoid_rewrite String.eqb_eq. naive_solver.
Qed.

Lemma verifyVendorFiles_decides manifest records :
  D (verifyVendorFiles sha256 repositoryRoot depth manifest records) (λ d _, tree_matches manifest records d).
Proof.
  eapply decides_iff; [|apply d_bind; [apply calculateTreeHash_decides|intros t];
    apply d_bind; [apply decides_guard|intros ?]; apply d_bind; [apply decides_guard|intros ?];
    apply d_each, verifyVendorFile_decides].
  intros d []. unfold tree_matches, tree_is. setoid_rewrite String.eqb_eq. setoid_rewrite strs_eqb_iff.
  setoid_rewrite js_sort_eq. split.
  - intros (t & (files & text & Hl & Ht & ->) & _ & H1 & _ & H2 & H3). split; [|done]. by exists files, text.
  - intros ((files & text & Hl & Ht & H1 & H2) & H3). eexists. split; [by exists files, text|].
    exists tt. split; [done|]. by exists tt.
Qed.

Lemma is_one_iff v : is_one v = true ↔ v = VNum (num_of_Z 1).
Proof. destruct v; simpl; try done. rewrite num_eqb_spec_Z. split; [by intros ->|congruence]. Qed.
Lemma is_value_iff v s : is_value v s = true ↔ v = VStr s.
Proof. destruct v; simpl; try done. rewrite String.eqb_eq. split; [by intros ->|congruence]. Qed.

(** Where the schema version is asked for and right, the value is an object. *)
Lemma prop_bind {A} v k (f : jsval → outcome sync_error A) a :
  prop v k ≫= f = Ret a ↔ match v with VObj fs => f (field fs k) = Ret a | VNull | VUndef => False | _ => f VUndef = Ret a end.
Proof. by destruct v. Qed.

Lemma file_manifest_records_iff manifest value records :
  file_manifest_records manifest value = Ret records ↔
  ∃ fields, value = VObj fields ∧
    field fields "schema_version" = VNum (num_of_Z 1) ∧ field fields "official_version" = VStr (um_version manifest) ∧
    field fields "source_commit" = VStr (um_source_commit manifest) ∧
    file_records (field fields "files") = Ret records ∧ NoDup (vf_path <$> records) ∧
    Forall (λ f, is_hex 64 (vf_source_sha256 f) = true ∧ is_hex 64 (vf_vendor_sha256 f) = true) records.
Proof.
  assert (∀ files, valid_records files = true ↔ NoDup (vf_path <$> files) ∧
    Forall (λ f, is_hex 64 (vf_source_sha256 f) = true ∧ is_hex 64 (vf_vendor_sha256 f) = true) files) as Hvalid.
  { intros files. unfold valid_records. rewrite !andb_true_iff, Nat.eqb_eq, dedup_length_iff.
    assert (forallb (λ p, String.eqb (normalizePath p) p) (vf_path <$> files) = true) as ->.
    { apply forallb_forall. intros p _. by rewrite normalizePath_id, String.eqb_refl. }
    assert (∀ P : Prop, (P ∧ true = true) ↔ P) as -> by (by intuition).
    apply and_iff_compat_l. rewrite forallb_forall, Forall_forall. setoid_rewrite list_elem_of_In.
    split; intros Hf f Hin; [by apply andb_true_iff, Hf|by apply andb_true_iff, Hf]. }
  unfold file_manifest_records. rewrite prop_bind. destruct value as [| | | | | |fields|];
    try (split; [|by intros (? & ? & _)]; cbn; by rewrite ?andb_false_l).
  rewrite prop_bind, prop_bind, guard_bind_iff, prop_bind, bind_ret_iff, !andb_true_iff, is_one_iff, !is_value_iff.
  setoid_rewrite guard_bind_iff. setoid_rewrite Hvalid. split.
  - intros ([[H1 H2] H3] & files & Hf & [Hnd Hhex] & [= <-]). by exists fields.
  - intros (fields' & [= <-] & H1 & H2 & H3 & Hf & Hnd & Hhex). split; [done|]. by exists records.
Qed.

Lemma assertLicenseInventory_iff inventory manifest u :
  assertLicenseInventory inventory manifest = Ret u ↔
  ∃ fields, inventory = VObj fields ∧
    field fields "schema_version" = VNum (num_of_Z 1) ∧ field fields "official_version" = VStr (um_version manifest) ∧
    field fields "source_commit" = VStr (um_source_commit manifest) ∧
    field fields "license" = VStr (um_license manifest) ∧
    field fields "license_files" = VArr [VStr "LICENSE"; VStr "NOTICE"] ∧
    field fields "packages" = VArr (expectedLicensePackages manifest).
Proof.
  unfold assertLicenseInventory. rewrite prop_bind. destruct inventory as [| | | | | |fields|];
    try (split; [|by intros (? & ? & _)]; cbn [prop mbind outcome_bind is_one]; first [done|by rewrite guard_throw_ret, ?andb_false_l]).
  repeat (cbv beta iota; rewrite prop_bind). cbv beta iota. rewrite guard_throw_ret, !andb_true_iff, is_one_iff, !is_value_iff, !bool_decide_eq_true.
  split; [intros [[[[[? ?] ?] ?] ?] ?]; by exists fields|]. by intros (? & [= <-] & ? & ? & ? & ? & ? & ?).
Qed.

Lemma assertNativeSbom_iff sbom manifest lock u :
  assertNativeSbom sbom manifest (Some lock) = Ret u ↔
  ∃ fields, sbom = VObj fields ∧
    field fields "schema_version" = VNum (num_of_Z 1) ∧ field fields "official_version" = VStr (um_version manifest) ∧
    field fields "official_source_commit" = VStr (um_source_commit manifest) ∧
    field fields "cargo_lock_sha256" = VStr lock.
Proof.
  unfold assertNativeSbom. rewrite prop_bind. destruct sbom as [| | | | | |fields|];
    try (split; [|by intros (? & ? & _)]; cbn [prop mbind outcome_bind is_one]; first [done|by rewrite guard_throw_ret, ?andb_false_l]).
  repeat (cbv beta iota; rewrite prop_bind). cbv beta iota. rewrite guard_throw_ret, !andb_true_iff, is_one_iff, !is_value_iff.
  split; [intros [[[? ?] ?] ?]; by exists fields|]. by intros (? & [= <-] & ? & ? & ? & ?).
Qed.


(** The checks that begin with a pinned file are that file's, and go on with its
    bytes. *)
Lemma d_pinned_then {A} (name digest : option string) missing mismatch (k : string → Io.io Disk sync_error A) Q :
  (∀ bytes, D (k bytes) (Q bytes)) →
  D (match name with
     | None => io_throw missing
     | Some p =>
         absolute ← io_lift (resolveWithin repositoryRoot p);
         bytes ← fs (tr_readFile absolute);
         io_lift (guard_throw (bool_decide (Some (sha256 bytes) = digest)) mismatch);;
         k bytes
     end) (λ d a, ∃ bytes, pinned_file name digest d bytes ∧ Q bytes d a).
Proof.
  intros Hk. destruct name as [p|].
  - eapply decides_iff; [|apply d_bind; [by apply d_within|intros q]; apply d_bind; [apply d_read|intros bytes];
      apply d_bind; [apply decides_guard|intros ?; apply Hk]].
    intros d a. unfold pinned_file. setoid_rewrite bool_decide_eq_true. split.
    + intros (q & Hq & bytes & Hb & _ & Hs & HQ). exists bytes. split; [|done]. by exists p, q.
    + intros (b & (p' & q & [= <-] & Hq & Hb & ->) & HQ). exists q. split; [done|]. exists b. split; [done|]. by exists tt.
  - eapply decides_iff; [|apply decides_throw]. intros d b. split; [done|]. by intros (? & (? & ? & ? & _) & _).
Qed.

Lemma readVendorFileManifest_decides manifest : D (readVendorFileManifest sha256 repositoryRoot manifest) (recorded manifest).
Proof.
  eapply decides_iff; [|apply d_pinned_then; intros bytes; apply d_bind; [apply decides_lift|intros value; apply decides_lift]].
  intros d records. unfold recorded, pinned_value. setoid_rewrite file_manifest_records_iff. split.
  - intros (bytes & Hb & value & Hv & fields & -> & Hf). exists fields. split; [|done]. exists bytes. split; [done|].
    by destruct (json_parse bytes); simplify_eq.
  - intros (fields & (bytes & Hb & Hv) & Hf). exists bytes. split; [done|]. exists (VObj fields). rewrite Hv.
    split; [done|]. by exists fields.
Qed.

Lemma license_name_within name : name ∈ ["LICENSE"; "NOTICE"] → within vendor name (vendor ++ [name]).
Proof.
  intros Hn. assert (is_component name) as Hc by (repeat (apply elem_of_cons in Hn as [->|Hn]; [done|]); by apply elem_of_nil in Hn).
  unfold within. rewrite (resolve_from_component vendor name Hc). split; [|split; [done|by exists [name]]].
  rewrite <- (append_nil_r name). apply not_absolute; apply Hc.
Qed.

Definition license_file d (name : string) : Prop := ∃ q, within vendor name q ∧ kind_of <$> node_at d q = Some k_file.

Lemma license_file_iff d name :
  name ∈ ["LICENSE"; "NOTICE"] → license_file d name ↔ ∃ bytes, node_at d (vendor ++ [name]) = Some (n_file bytes).
Proof.
  intros Hn. destruct (license_name_within name Hn) as (Ha & Hq & Hr). unfold license_file. split.
  - intros (q & (_ & -> & _) & Hk). rewrite <- Hq in Hk.
    destruct (node_at d (vendor ++ [name])) as [[b| | |]|]; try done. by exists b.
  - intros [b Hb]. exists (vendor ++ [name]). by rewrite Hb.
Qed.

Lemma verifyLicenseFile_decides name : D (verifyLicenseFile repositoryRoot name) (λ d _, license_file d name).
Proof.
  eapply decides_iff; [|apply d_bind; [apply d_within, vendor_normal|intros q];
    apply d_bind; [apply d_lstat|intros k; apply decides_guard]].
  intros d []. setoid_rewrite bool_decide_eq_true. unfold license_file. naive_solver.
Qed.

Lemma verifyLicenseInventory_decides manifest : D (verifyLicenseInventory sha256 repositoryRoot manifest) (λ d _, licensed manifest d).
Proof.
  eapply decides_iff; [|apply d_pinned_then; intros bytes; apply d_bind; [apply decides_lift|intros inventory];
    apply d_bind; [apply decides_lift|intros ?]; apply d_bind; [apply decides_lift|intros license_files];
    apply d_bind; [apply decides_lift|intros names];
    apply (d_each _ (λ name d, license_file d name)), verifyLicenseFile_decides].
  intros d []. unfold licensed, pinned_value. setoid_rewrite assertLicenseInventory_iff. split.
  - intros (bytes & Hb & inventory & Hi & _ & (fields & -> & H1 & H2 & H3 & H4 & H5 & H6) & files & [= <-] & names & Hnames & Hall).
    rewrite H5 in Hnames. injection Hnames as <-. split.
    + exists fields. split; [|done]. exists bytes. split; [done|]. by destruct (json_parse bytes); simplify_eq.
    + intros name Hn. apply license_file_iff; [done|]. rewrite Forall_forall in Hall. by apply Hall.
  - intros ((fields & (bytes & Hb & Hv) & Hf) & Hn). exists bytes. split; [done|]. exists (VObj fields). rewrite Hv.
    split; [done|]. exists tt. split; [by exists fields|]. destruct Hf as (_ & _ & _ & _ & H5 & _).
    eexists. split; [done|]. rewrite H5. exists ["LICENSE"; "NOTICE"]. split; [done|].
    rewrite Forall_forall. intros name Hname. by apply license_file_iff; [|apply Hn].
Qed.

Lemma verifySbom_decides manifest : D (verifySbom sha256 repositoryRoot manifest) (λ d _, billed manifest d).
Proof.
  eapply decides_iff; [|apply d_pinned_then; intros bytes; apply d_bind; [apply decides_lift|intros sbom];
    apply d_bind; [apply d_read|intros lock; apply decides_lift]].
  intros d []. unfold billed, pinned_value. setoid_rewrite assertNativeSbom_iff. split.
  - intros (bytes & Hb & sbom & Hs & lock & Hl & fields & -> & Hf). exists fields, lock. split; [|done]. exists bytes.
    split; [done|]. by destruct (json_parse bytes); simplify_eq.
  - intros (fields & lock & (bytes & Hb & Hv) & Hl & Hf). exists bytes. split; [done|]. exists (VObj fields). rewrite Hv.
    split; [done|]. exists lock. split; [done|]. by exists fields.
Qed.

Lemma verifyIdentitySources_decides manifest : D (verifyIdentitySources repositoryRoot manifest) (λ d _, identified manifest d).
Proof.
  eapply decides_iff; [|apply d_bind; [apply d_read|intros rust]; apply d_bind; [apply d_read|intros typeScript];
    apply (d_each _ (λ kv _, readAssignedStringConstant rust kv.1 = Ret kv.2 ∧ readAssignedStringConstant typeScript kv.1 = Ret kv.2))].
  - intros d []. unfold identified. naive_solver.
  - intros [k v]. eapply decides_iff; [|apply d_bind; [apply decides_lift|intros a]; apply d_bind; [apply decides_guard|intros ?];
      apply d_bind; [apply decides_lift|intros b; apply decides_guard]].
    intros d []. setoid_rewrite String.eqb_eq. cbn. split.
    + intros (a & Ha & _ & -> & b & Hb & ->). done.
    + intros [Ha Hb]. exists v. split; [done|]. exists tt. split; [done|]. by exists v.
Qed.

(** ** The whole command *)

(** A vendored tree that is ready, and one that is pending: empty. *)
Record ready_vendor (manifest : UpstreamManifest) (records : list VendorFileRecord) d : Prop := {
  rv_tree : tree_matches manifest records d;
  rv_licensed : licensed manifest d;
  rv_billed : billed manifest d;
  rv_identified : identified manifest d }.
Record pending_vendor (manifest : UpstreamManifest) d : Prop := {
  pv_empty : listed vendor d [];
  pv_digest : um_tree_sha256 manifest = sha256 "";
  pv_identified : identified manifest d }.

Lemma verify_ready_decides manifest records :
  D (verify_ready sha256 repositoryRoot depth manifest records) (λ d _, ready_vendor manifest records d).
Proof.
  eapply decides_iff; [|apply d_bind; [apply verifyVendorFiles_decides|intros ?]; apply d_bind; [apply verifyLicenseInventory_decides|intros ?];
    apply d_bind; [apply verifySbom_decides|intros ?; apply verifyIdentitySources_decides]].
  intros d []. split; [by intros (_ & ? & _ & ? & _ & ? & ?)|]. intros [????]. by repeat (exists tt; split; [done|]).
Qed.

Lemma verify_pending_decides manifest :
  D (verify_pending sha256 repositoryRoot depth manifest) (λ d _, pending_vendor manifest d).
Proof.
  eapply decides_iff; [|apply d_bind; [apply calculateTreeHash_decides|intros t]; apply d_bind; [apply decides_guard|intros ?];
    apply verifyIdentitySources_decides].
  intros d []. setoid_rewrite andb_true_iff. setoid_rewrite andb_true_iff. setoid_rewrite Nat.eqb_eq. setoid_rewrite String.eqb_eq.
  unfold tree_is. split.
  - intros (t & (files & text & Hl & Ht & ->) & _ & [[_ Hn] Hs] & Hi). destruct files; [|done]. by split.
  - intros [Hl Hs Hi]. eexists. split; [by exists [], ""|]. exists tt. by rewrite Hs.
Qed.

Context (parse : string → option UpstreamManifest) (tmpdir : path).

Definition pinned_manifest d (manifest : UpstreamManifest) : Prop :=
  ∃ text, content_at d (resolve_from repositoryRoot "UPSTREAM_CODEX.toml") = Some text ∧
    parse text = Some manifest ∧ um_schema_version manifest = 1%Z ∧ pinned_baseline manifest = true ∧
    um_selected_crates manifest ≡ₚ closure_names ∧ um_excluded_crates manifest ≡ₚ excludedCrates.

(** The vendored sources are those that the manifest in the repository pins. *)
Definition vendored d : Prop :=
  ∃ manifest, pinned_manifest d manifest ∧
    (if String.eqb (um_status manifest) "pending" then pending_vendor manifest d
     else ∃ records, recorded manifest d records ∧ ready_vendor manifest records d).

Lemma readManifest_decides : D (readManifest parse repositoryRoot) pinned_manifest.
Proof.
  eapply decides_iff; [|apply d_bind; [apply d_read|intros text]; apply d_bind; [apply decides_lift|intros manifest];
    apply d_bind; [apply decides_guard|intros ?]; apply d_bind; [apply decides_guard|intros ?];
    apply d_bind; [apply decides_lift|intros ?; apply decides_ret]].
  assert (∀ m u, assertVendorClosure m = Ret u ↔ um_selected_crates m ≡ₚ closure_names ∧ um_excluded_crates m ≡ₚ excludedCrates) as Hclosure.
  { intros m u. unfold assertVendorClosure. rewrite bind_ret_iff.
    assert (NoDup closure_names) by (by apply (bool_decide_unpack _)).
    assert (NoDup excludedCrates) by (by apply (bool_decide_unpack _)).
    setoid_rewrite assertExactStringSet_iff; [|done|done]. split; [by intros (_ & ? & ?)|by exists tt]. }
  intros d m. unfold pinned_manifest. setoid_rewrite Z.eqb_eq. setoid_rewrite Hclosure. split.
  - intros (text & Ht & m' & Hm & _ & H1 & _ & H2 & _ & [H3 H4] & ->). exists text. split_and!; try done.
    by destruct (parse text); simplify_eq.
  - intros (text & Ht & Hm & H1 & H2 & H3 & H4). exists text. split; [done|]. exists m. rewrite Hm. split; [done|].
    exists tt. split; [done|]. exists tt. split; [done|]. by exists tt.
Qed.

Definition plain_check (argv : list string) : Prop :=
  Forall (λ option, js_elem option argv = false) ["--initialize"; "--refresh-allowlist"; "--sync"; "--verify-source"].

Lemma main_decides argv : plain_check argv →
  D (main sha256 parse repositoryRoot tmpdir depth argv) (λ d message, ∃ manifest, pinned_manifest d manifest ∧
    (if String.eqb (um_status manifest) "pending"
     then pending_vendor manifest d ∧ message = ("Verified pending OpenAI Codex " ++ um_version manifest ++ " vendor state.")%string
     else ∃ records, recorded manifest d records ∧ ready_vendor manifest records d ∧
       message = ("Verified OpenAI Codex " ++ um_version manifest ++ " vendor tree " ++ um_tree_sha256 manifest ++ ".")%string)).
Proof.
  intros Hargv. repeat (apply Forall_cons in Hargv as [? Hargv]). unfold main.
  apply d_bind; [apply readManifest_decides|intros manifest]. rewrite H1, H2, H3, H4.
  destruct (String.eqb (um_status manifest) "pending").
  - eapply decides_iff; [|apply d_bind; [apply verify_pending_decides|intros ?; apply decides_ret]].
    intros d m. split; [by intros (_ & ? & ?)|by exists tt].
  - eapply decides_iff; [|apply d_bind; [apply readVendorFileManifest_decides|intros records];
      apply d_bind; [apply decides_ret|intros ?]; apply d_bind; [apply verify_ready_decides|intros ?; apply decides_ret]].
    intros d m. split.
    + intros (records & Hr & _ & _ & _ & Hv & ->). by exists records.
    + intros (records & Hr & Hv & ->). exists records. split; [done|]. exists tt. split; [done|]. by exists tt.
Qed.

(** C13: the check of the vendored sources decides, and changes nothing.
    Without an option the command leaves every file as it is at every moment,
    whatever fails; it answers only when the tree is empty and recorded as
    pending, or the files below the vendored directory, links and special files
    excluded, are exactly the recorded ones with their digests, the digest of the
    tree is the manifest's, and the licenses, the bill of materials and the
    identity constants of the bridge agree with the pinned baseline; and it
    refuses only when they do not, when a call fails, or when a directory is
    deeper than the fuel. *)
Theorem vendor_check_decides argv d :
  plain_check argv →
  runs (main sha256 parse repositoryRoot tmpdir depth argv)
    (λ r d' t, Forall (unchanged d) (d' :: t) ∧
       match r with
       | Ret _ => vendored d
       | Throw e => silent e ∨ too_deep depth vendor e d ∨ ¬ vendored d
       end) d.
Proof.
  intros Hargv. eapply runs_mono; [apply (de_runs _ _ _ _ (main_decides argv Hargv))|].
  intros r d' t [Ht Hv]. split; [done|]. destruct r as [message|e].
  - destruct Hv as (manifest & Hm & Hv). exists manifest. split; [done|].
    destruct (String.eqb _ _); [apply Hv|]. destruct Hv as (records & ? & ? & _). by exists records.
  - destruct Hv as [?|[?|Hno]]; [by left|by right; left|right; right]. intros (manifest & Hm & Hv).
    destruct (String.eqb (um_status manifest) "pending") eqn:Hp.
    + eapply Hno. exists manifest. split; [done|]. by rewrite Hp.
    + destruct Hv as (records & ? & ?). eapply Hno. exists manifest. split; [done|]. rewrite Hp. by exists records.
Qed.
End checks.

(** The check of a tree that is as recorded, and of one with another license. *)
Lemma vendor_check_decides_witness :
  let d := sample_repo sample_tree [] in
  let d' := sample_repo [("LICENSE", "MIT")] [] in
  let answer d r d' t := Forall (unchanged (H := repo_tree sample_commits) d) (d' :: t) ∧
    match r with
    | Ret _ => vendored (H := repo_tree sample_commits) (H0 := bits_json) sample_digest sample_root sample_parse d
    | Throw e => silent e ∨ too_deep (H := repo_tree sample_commits) 4 (vendorRoot sample_root) e d ∨
        ¬ vendored (H := repo_tree sample_commits) (H0 := bits_json) sample_digest sample_root sample_parse d
    end in
  (sample_main [] d).1.1 = Ret sample_message ∧ runs (sample_main []) (answer d) d ∧
  (sample_main [] d').1.1 ≠ Ret sample_message ∧ runs (sample_main []) (answer d') d'.
Proof.
  intros d d' answer. split_and!.
  - vm_compute. reflexivity.
  - apply (vendor_check_decides (laws := repo_laws sample_commits sample_root) (H0 := bits_json) sample_digest sample_root 4);
      [by repeat apply Forall_cons_2|by repeat apply Forall_cons_2].
  - vm_compute. discriminate.
  - apply (vendor_check_decides (laws := repo_laws sample_commits sample_root) (H0 := bits_json) sample_digest sample_root 4);
      [by repeat apply Forall_cons_2|by repeat apply Forall_cons_2].
Defined.
