(* ===== verification/VendorSync.v ===== *)
(** * VendorSync

    Rewriting the vendored sources: whatever fails, it is confined to the vendored
    tree, the manifests and temporary directories that are removed again, and what
    is synchronized comes from the pinned commit. *)

From Stdlib Require Import Lia.
From S2P Require Import Prelude Io Paths Workspace Json Protocol Decimal Render JsRegex Vendor VendorRepo VendorFacts.

Section synchronizing.
Context {Disk} `{SourceTree Disk} `{JsonText}.
Context (sha256 : string → string) (parse : string → option UpstreamManifest).
Context (repositoryRoot tmpdir : path) (depth : nat) (Hroot : normal repositoryRoot) (Htmp : normal tmpdir).
Context {laws : SourceTreeLaws Disk (git_writes repositoryRoot)}.
Implicit Types d : Disk.

Abbreviation vendor := (vendorRoot repositoryRoot).
Abbreviation upstream := (resolve_from repositoryRoot "native/upstream").

(** *** Confinement *)

Lemma decides_moves {A} (m : Io.io Disk sync_error A) silent exhausted P roots :
  Decides silent exhausted m P → moves (touched roots) m.
Proof.
  intros Hm d. eapply runs_mono; [apply (de_runs _ _ _ _ Hm)|]. intros r d' t [Ht _].
  eapply Forall_impl; [exact Ht|]. intros s. apply unchanged_touched.
Qed.

Lemma moves_fs {A} roots (op : Disk → outcome errno A * Disk) :
  (∀ d, touched roots d (op d).2) → moves (touched roots) (fs op).
Proof. by apply moves_call. Qed.

(** A call that touches one place below the roots. *)
Definition covered (roots : list path) (r : path) : Prop := ∃ r', r' ∈ roots ∧ r' `prefix_of` r.

Lemma touched_covered roots r d d' : covered roots r → touched [r] d d' → touched roots d d'.
Proof. intros Hr. apply touched_more. by apply Forall_singleton. Qed.
Lemma covered_self roots r : r ∈ roots → covered roots r.
Proof. intros Hr. by exists r. Qed.
Lemma covered_below roots root p q : root ∈ roots → within root p q → covered roots q.
Proof. intros Hr (_ & _ & rest & _ & ->). exists root. split; [done|]. by eexists. Qed.

Lemma moves_run roots root command :
  git_writes repositoryRoot command [root] → covered roots root → moves (touched roots) (run command).
Proof.
  intros Hw Hr. apply moves_bind; [apply _| |].
  - apply moves_fs. intros d. eapply touched_covered; [exact Hr|]. by apply spawn_touches.
  - intros child. destruct (negb _); [apply moves_throw|apply moves_ret]; apply _.
Qed.

Lemma vendor_below : vendor = repositoryRoot ++ ["native"; "vendor"; "openai-codex"].
Proof. unfold vendorRoot, resolve_from. cbn. by rewrite <- !app_assoc. Qed.

Lemma moves_collect n roots directory : normal directory → moves (touched roots) (collectFiles n directory).
Proof. intros Hd. by eapply decides_moves, collectFiles_decides. Qed.

Lemma moves_read roots p : moves (touched roots) (fs (tr_readFile p)).
Proof. apply moves_fs. intros d. apply unchanged_touched, readFile_unchanged. Qed.
Lemma moves_lstat roots p : moves (touched roots) (fs (tr_lstat p)).
Proof. apply moves_fs. intros d. apply unchanged_touched, lstat_unchanged. Qed.
Lemma moves_mkdir roots p : moves (touched roots) (fs (tr_mkdir p)).
Proof.
  apply moves_fs. intros d. eapply (touched_more []); [constructor|]. apply mkdir_touches.
Qed.

(** What a resolved path gives its continuation. *)
Lemma moves_within {A} roots root p (k : path → Io.io Disk sync_error A) :
  normal root → (∀ q, within root p q → moves (touched roots) (k q)) →
  moves (touched roots) (q ← io_lift (resolveWithin root p); k q).
Proof.
  intros Hr Hk d. apply runs_bind, runs_lift. destruct (resolveWithin root p) as [q|e] eqn:Hq.
  - apply resolveWithin_iff in Hq; [|done]. eapply runs_mono; [by apply Hk|]. intros r d' t Ht. exact Ht.
  - apply Forall_singleton. reflexivity.
Qed.

Ltac moves_all :=
  repeat lazymatch goal with |- moves _ (run _) => fail | |- _ => first
    [ apply moves_each; [apply _|intros ?] | apply moves_within; [|intros ? ?] | apply moves_bind; [apply _| |intros ?]
    | apply moves_lift; apply _ | apply moves_ret; apply _ | apply moves_throw; apply _
    | apply moves_read | apply moves_lstat | apply moves_mkdir | apply moves_collect ] end.

Lemma moves_copy roots sourceRoot paths :
  vendor ∈ roots → normal sourceRoot → moves (touched roots) (copySourceFiles repositoryRoot sourceRoot paths).
Proof.
  intros Hv Hs. unfold copySourceFiles, copySourceFile. pose proof (vendor_normal repositoryRoot Hroot).
  moves_all; try done.
  - apply moves_fs. intros d. eapply touched_covered; [by apply covered_self|apply rm_touches].
  - apply moves_fs. intros d. eapply touched_covered; [by eapply covered_below|apply copyFile_touches].
Qed.

Lemma moves_patches roots manifest : vendor ∈ roots → moves (touched roots) (applyVendorPatches repositoryRoot manifest).
Proof.
  intros Hv. unfold applyVendorPatches, applyVendorPatch. moves_all; try done;
    (eapply moves_run; [apply gw_apply|by apply covered_self]).
Qed.

Lemma moves_tree roots : moves (touched roots) (calculateTreeHash sha256 repositoryRoot depth).
Proof. by eapply decides_moves, calculateTreeHash_decides. Qed.

Lemma moves_verify_files roots manifest records :
  moves (touched roots) (verifyVendorFiles sha256 repositoryRoot depth manifest records).
Proof. by eapply decides_moves, verifyVendorFiles_decides. Qed.

Lemma moves_collect_all roots sourceRoot selected files :
  normal sourceRoot → moves (touched roots) (collect_all depth sourceRoot selected files).
Proof.
  intros Hs. revert files. induction selected as [|p selected IH]; intros files; cbn [collect_all]; [apply moves_ret, _|].
  apply moves_bind; [apply _| |intros more; apply IH]. unfold collect_selected.
  apply moves_within; [done|intros q Hq]. apply moves_bind; [apply _|apply moves_lstat|].
  pose proof (within_normal _ _ _ Hs Hq). intros []; moves_all; done.
Qed.

Lemma moves_record_files roots sourceRoot paths files :
  normal sourceRoot → moves (touched roots) (record_files sha256 repositoryRoot sourceRoot paths files).
Proof.
  intros Hs. pose proof (vendor_normal repositoryRoot Hroot). revert files.
  induction paths as [|p paths IH]; intros files; cbn [record_files]; moves_all; done || apply IH.
Qed.

Lemma moves_write roots p name bytes :
  upstream ∈ roots → resolve_from repositoryRoot p = upstream ++ [name] →
  moves (touched roots) (fs (tr_writeFile (resolve_from repositoryRoot p) bytes)).
Proof.
  intros Hu ->. apply moves_fs. intros d.
  eapply touched_covered; [|apply writeFile_touches]. exists upstream. split; [done|]. by eexists.
Qed.

Lemma moves_refresh roots manifest checkoutRoot :
  vendor ∈ roots → upstream ∈ roots → normal checkoutRoot →
  moves (touched roots) (refresh_from sha256 repositoryRoot depth manifest checkoutRoot).
Proof.
  intros Hv Hu Hc. unfold refresh_from.
  apply moves_bind; [apply _| |intros selected].
  { unfold collectSelectedSourceFiles. apply moves_bind; [apply _|by apply moves_collect_all|intros files; apply moves_ret, _]. }
  apply moves_bind; [apply _|by apply moves_copy|intros ?].
  apply moves_bind; [apply _|by apply moves_patches|intros ?].
  apply moves_bind; [apply _|by apply moves_record_files|intros files].
  apply moves_bind; [apply _|apply moves_mkdir|intros ?].
  apply moves_bind; [apply _|by apply (moves_write roots _ "openai-codex-files.json")|intros ?].
  apply moves_bind; [apply _|by apply (moves_write roots _ "openai-codex-licenses.json")|intros ?].
  apply moves_bind; [apply _|apply moves_tree|intros tree; apply moves_ret, _].
Qed.

(** *** The pinned source *)

Definition empty_at d (r : path) : Prop := ∀ rel, node_at d (r ++ rel) = None.

(** The whole run writes below [roots] and new temporary directories; unless a
    call failed, these are gone at the end. *)
Definition confined {A} (roots : list path) d (r : outcome sync_error A) d' (t : list Disk) : Prop :=
  ∃ temporary, Forall (empty_at d) temporary ∧ Forall (touched (temporary ++ roots) d) (d' :: t) ∧
    ((∀ x, r ≠ Throw (platform_error x)) → Forall (empty_at d') temporary).

Lemma confined_before {A} roots d d1 t1 (r : outcome sync_error A) d2 t2 :
  Forall (unchanged d) (d1 :: t1) → confined roots d1 r d2 t2 → confined roots d r d2 (t1 ++ t2).
Proof.
  intros Ht1 (temporary & Hf & Ht & Hg). exists temporary. inversion Ht1 as [|?? Hu _]; subst. split_and!; [| |done].
  - eapply Forall_impl; [exact Hf|]. intros r' He rel. destruct Hu as [Hn _]. by rewrite <- Hn.
  - eapply moves_chain; [apply _| |exact Ht]. eapply Forall_impl; [exact Ht1|]. intros s. apply unchanged_touched.
Qed.

Lemma confined_after {A B} roots d (a : A) d1 t1 (r : outcome sync_error B) d2 t2 :
  confined roots d (Ret a) d1 t1 → Forall (unchanged d1) (d2 :: t2) → confined roots d r d2 (t1 ++ t2).
Proof.
  intros (temporary & Hf & Ht & Hg) Ht2. exists temporary. split_and!; [done| |].
  - eapply moves_chain; [apply _|exact Ht|]. eapply Forall_impl; [exact Ht2|]. intros s. apply unchanged_touched.
  - intros _. inversion Ht2 as [|?? [Hn _] _]; subst. eapply Forall_impl; [by apply Hg|]. intros r' He rel. by rewrite Hn.
Qed.

Lemma confined_throw {A B} roots d e d' t :
  confined roots d (Throw (A := A) e) d' t → confined roots d (Throw (A := B) e) d' t.
Proof.
  intros (temporary & Hf & Ht & Hg). exists temporary. split_and!; [done|done|]. intros Hno. apply Hg.
  intros x [= ->]. by apply (Hno x).
Qed.

Lemma confined_unchanged {A} roots d (r : outcome sync_error A) d' t :
  Forall (unchanged d) (d' :: t) → confined roots d r d' t.
Proof.
  intros Ht. exists []. split_and!; [constructor| |constructor]. eapply Forall_impl; [exact Ht|].
  intros s. apply unchanged_touched.
Qed.

Lemma confined_more {A} roots roots' d (r : outcome sync_error A) d' t :
  roots ⊆ roots' → confined roots d r d' t → confined roots' d r d' t.
Proof.
  intros Hr (temporary & Hf & Ht & Hg). exists temporary. split_and!; [done| |done].
  eapply Forall_impl; [exact Ht|]. intros s. apply touched_more. rewrite Forall_forall. intros x Hx. exists x. set_solver.
Qed.

Lemma moves_fetch roots r manifest : r ∈ roots → normal r → moves (touched roots) (fetch_into manifest r).
Proof.
  intros Hr Hn. assert (covered roots (r ++ [".git"])) as Hgit by (exists r; split; [done|by eexists]).
  unfold fetch_into. moves_all;
    (eapply moves_run; [by constructor|first [exact Hgit|by apply covered_self]]).
Qed.

Lemma only_git_kept d d' r : touched [r ++ [".git"]] d d' → only_git d r → only_git d' r.
Proof.
  intros Ht Hg rel bytes Hn. destruct (decide (head rel = Some ".git")) as [|Hh]; [done|].
  exfalso. apply Hh, (Hg rel bytes). destruct (Ht (r ++ rel)) as [He|[_ He]]; [|congruence|congruence].
  apply Forall_singleton. intros [k Hk]. rewrite <- app_assoc in Hk. apply app_inv_head in Hk. subst rel. by apply Hh.
Qed.

Lemma run_only_git command r d :
  git_writes repositoryRoot command [r ++ [".git"]] → only_git d r → runs (run command) (λ _ d' _, only_git d' r) d.
Proof.
  intros Hw Hg. apply runs_bind, runs_call. intros res d' Hd. pose proof (spawn_touches command _ d Hw) as Ht.
  rewrite Hd in Ht. pose proof (only_git_kept _ _ _ Ht Hg). destruct res as [child|e]; [|done].
  destruct (negb _); [by apply runs_throw|by apply runs_ret].
Qed.

Context (source : string → path → option string) (Hsource : checks_out (Disk := Disk) source).

Lemma fetch_checks_out manifest r d :
  normal r → only_git d r →
  runs (fetch_into manifest r) (λ res d' _, res = Ret tt → checked_out (source (um_source_commit manifest)) d' r) d.
Proof.
  intros Hr Hg. unfold fetch_into.
  apply runs_bind. eapply runs_mono; [apply (run_only_git _ r); [by constructor|done]|]. intros [?|e] d1 t1 H1; [|done].
  apply runs_bind. eapply runs_mono; [apply (run_only_git _ r); [by constructor|done]|]. intros [?|e] d2 t2 H2; [|done].
  apply runs_bind. eapply runs_mono; [apply (run_only_git _ r); [by constructor|done]|]. intros [?|e] d3 t3 H3; [|done].
  apply runs_bind. eapply runs_mono; [apply (run_only_git _ r); [by constructor|done]|]. intros [?|e] d4 t4 H4; [|done].
  apply runs_bind, runs_lift. destruct (guard_throw _ _); [|done].
  apply runs_bind. eapply runs_mono; [apply (run_only_git _ r); [by constructor|done]|]. intros [commit|e] d5 t5 H5; [|done].
  apply runs_bind, runs_lift. destruct (String.eqb_spec commit (um_source_commit manifest)) as [->|]; [|done].
  cbn [guard_throw]. apply runs_bind. unfold run. apply runs_bind, runs_call. intros [child|e] d6 Hd; [|done].
  destruct (exitCode child =? 0)%Z eqn:Hx; cbn [negb]; [|by apply runs_throw]. apply runs_ret, runs_ret. intros _.
  eapply Hsource; [done|exact Hd|by apply Z.eqb_eq|done].
Qed.

Lemma dispose_runs r d :
  runs (dispose r) (λ res d' t, Forall (touched [r] d) (d' :: t) ∧
    match res with Ret _ => empty_at d' r | Throw e => silent e end) d.
Proof.
  apply runs_call. intros res d' Hd. pose proof (rm_touches r d) as Ht. pose proof (rm_empties r d) as He.
  rewrite Hd in Ht, He. split; [by repeat apply Forall_cons_2|]. destruct res as [[]|e]; [exact (He eq_refl)|by eexists].
Qed.

Lemma fetchPinned_runs manifest d :
  runs (fetchPinnedSource tmpdir manifest) (λ res d1 t1, match res with
    | Ret r => normal r ∧ empty_at d r ∧ Forall (touched [r] d) (d1 :: t1) ∧
        checked_out (source (um_source_commit manifest)) d1 r
    | Throw _ => confined [] d res d1 t1 end) d.
Proof.
  unfold fetchPinnedSource. apply runs_bind, runs_call. intros res d1 Hd.
  pose proof (mkdtemp_makes (resolve_from tmpdir "pi-codex-upstream-") d) as Hmk. rewrite Hd in Hmk. cbn [fst snd] in Hmk.
  destruct res as [r|e]; [|by apply confined_unchanged; repeat apply Forall_cons_2].
  destruct Hmk as (Hn & Hdir & Hfresh & Hnothing & Ht1). specialize (Hn (normal_resolve_from _ _ Htmp)).
  assert (only_git d1 r) as Hgit.
  { intros rel bytes Hb. destruct rel as [|x rel]; [rewrite app_nil_r in Hb; congruence|]. by rewrite Hnothing in Hb. }
  assert (Forall (touched [r] d) (d1 :: [d1])) as Hd1 by (by repeat apply Forall_cons_2).
  apply runs_bind, runs_catch. pose proof (moves_fetch [r] r manifest ltac:(by left) Hn d1) as Hm.
  pose proof (fetch_checks_out manifest r d1 Hn Hgit) as Hc. unfold runs in Hm, Hc |- *.
  destruct (fetch_into manifest r d1) as [[res d2] t2]. destruct res as [[]|e].
  - split_and!; [done|done| |by apply Hc]. rewrite app_nil_r. by eapply moves_chain; [apply _|exact Hd1|].
  - pose proof (dispose_runs r d2) as Hdis. unfold runs, mbind, io_bind in *.
    destruct (dispose r d2) as [[res3 d3] t3]. destruct Hdis as [Ht3 Hres3].
    assert (Forall (touched [r] d) (d3 :: [d1] ++ (t2 ++ t3))) as Hall.
    { eapply moves_chain; [apply _|exact Hd1|]. by eapply moves_chain; [apply _|exact Hm|]. }
    destruct res3 as [[]|e3]; cbn.
    + exists [r]. rewrite !app_nil_r. split_and!; [by apply Forall_singleton|exact Hall|]. intros _. by apply Forall_singleton.
    + exists [r]. split_and!; [by apply Forall_singleton|exact Hall|]. destruct Hres3 as [x ->]. intros Hno. by destruct (Hno x).
Qed.

Lemma with_pinned_runs {A} manifest (use : path → Io.io Disk sync_error A) roots d :
  (∀ r, normal r → moves (touched (r :: roots)) (use r)) →
  runs (with_pinned_source tmpdir manifest use) (λ res d' t, confined roots d res d' t ∧
    ∀ a, res = Ret a → ∃ r s s' ts, normal r ∧ checked_out (source (um_source_commit manifest)) s r ∧
      use r s = (Ret a, s', ts)) d.
Proof.
  intros Huse. unfold with_pinned_source. apply runs_bind. eapply runs_mono; [apply fetchPinned_runs|].
  intros [r|e] d1 t1 Hf.
  2:{ split; [|done]. destruct Hf as (temporary & H1 & H2 & H3). exists temporary. split_and!; [done| |].
      - rewrite app_nil_r in H2. eapply Forall_impl; [exact H2|]. intros s. apply touched_more.
        rewrite Forall_forall. intros x Hx. exists x. set_solver.
      - intros Hno. apply H3. intros x [= ->]. by apply (Hno x). }
  destruct Hf as (Hn & Hfresh & Ht1 & Hout). apply runs_finally. pose proof (Huse r Hn d1) as Hm. unfold runs in *.
  destruct (use r d1) as [[res d2] t2] eqn:Hu. pose proof (dispose_runs r d2) as Hdis. unfold runs in Hdis.
  destruct (dispose r d2) as [[res3 d3] t3]. destruct Hdis as [Ht3 Hres3].
  assert (∀ s s', touched [r] s s' → touched (r :: roots) s s') as Hsub.
  { intros s s'. apply touched_more, Forall_singleton. exists r. split; [by left|done]. }
  split.
  - exists [r]. split_and!; [by apply Forall_singleton| |].
    + eapply moves_chain; [apply _|eapply Forall_impl; [exact Ht1|apply Hsub]|].
      eapply moves_chain; [apply _|exact Hm|eapply Forall_impl; [exact Ht3|apply Hsub]].
    + intros Hno. destruct res3 as [[]|e3]; [by apply Forall_singleton|]. destruct Hres3 as [x ->]. by destruct (Hno x).
  - intros a Ha. destruct res3 as [[]|e3]; [|done]. subst res. by exists r, d1, d2, t2.
Qed.

(** The recorded digest of the source is that of the file in the checkout. *)
Definition pinned_hash (r : path) (file : VendorFileRecord) d : Prop :=
  ∃ q bytes, within r (vf_path file) q ∧ kind_of <$> node_at d q = Some k_file ∧ content_at d q = Some bytes ∧
    sha256 bytes = vf_source_sha256 file.

Lemma verifyPinned_decides r records :
  normal r → Decides silent (too_deep depth vendor) (verifyPinnedSourceHashes sha256 r records)
    (λ d _, Forall (λ file, pinned_hash r file d) records).
Proof.
  intros Hr. apply d_each. intros file.
  eapply decides_iff; [|apply d_bind; [by apply d_within|intros q]; apply d_bind; [apply d_lstat|intros k];
    apply d_bind; [apply decides_guard|intros ?]; apply d_bind; [apply d_read|intros bytes; apply decides_guard]].
  intros d []. unfold pinned_hash. setoid_rewrite bool_decide_eq_true. setoid_rewrite String.eqb_eq. naive_solver.
Qed.

Lemma resolve_join r rel : normal rel → rel ≠ [] → resolve_from r (join "/" rel) = r ++ rel.
Proof.
  intros Hr Hne. unfold resolve_from. rewrite split_join by done.
  assert (isAbsolute (join "/" rel) = false) as ->; [|by apply steps_components].
  destruct rel as [|c rel]; [done|]. inversion Hr as [|?? (Hc & _ & _ & Hs) _]; subst.
  destruct rel as [|c' rel]; [rewrite <- (append_nil_r (join "/" [c])); by apply not_absolute|].
  change (join "/" (c :: c' :: rel)) with (c ++ "/" ++ join "/" (c' :: rel))%string. by apply not_absolute.
Qed.

(** A recorded file: where it is, its bytes in the vendored tree, and its bytes
    in the official commit. *)
Definition official d (file : VendorFileRecord) : Prop :=
  ∃ rel, normal rel ∧ rel ≠ [] ∧ vf_path file = join "/" rel ∧
    (∃ bytes, node_at d (vendor ++ rel) = Some (n_file bytes) ∧ sha256 bytes = vf_vendor_sha256 file) ∧
    (head rel ≠ Some ".git" →
      ∃ bytes, source baseline_sourceCommit rel = Some bytes ∧ sha256 bytes = vf_source_sha256 file).

Lemma official_files manifest records r s d :
  checked_out (source baseline_sourceCommit) s r → normal r →
  Forall (λ file, pinned_hash r file s) records → tree_matches sha256 repositoryRoot manifest records d →
  Forall (official d) records.
Proof.
  intros Hout Hr Hp [(files & text & Hl & _ & _ & Hperm) Hv]. rewrite Forall_forall in Hp, Hv |- *. intros file Hin.
  assert (vf_path file ∈ names_of repositoryRoot files) as Hname by (rewrite <- Hperm; by apply list_elem_of_fmap_2).
  apply list_elem_of_fmap in Hname as (p & Hpath & Hfile).
  apply (ls_files _ _ _ Hl) in Hfile as (rel & b & Hn & Hne & -> & _ & Hb).
  unfold relative_text in Hpath. rewrite relative_below in Hpath.
  exists rel. split_and!; [done|done|done| |].
  - destruct (Hv file Hin) as (q & bytes & (_ & -> & _) & Hc & Hs). exists b. split; [done|].
    rewrite Hpath, resolve_join in Hc by done. apply file_content in Hb. congruence.
  - intros Hh. destruct (Hp file Hin) as (q & bytes & (_ & -> & _) & Hk & Hc & Hs).
    rewrite Hpath, resolve_join in Hk, Hc by done.
    destruct (node_at s (r ++ rel)) as [[b'| | |]|] eqn:Hn'; try done.
    exists bytes. split; [|done]. pose proof (file_content _ _ _ Hn') as Hc'. rewrite Hc in Hc'. injection Hc' as ->.
    by apply Hout.
Qed.

(** *** The commands *)

(** After a check that passed, from the state it left. *)
Lemma after_check {A B} (m : Io.io Disk sync_error A) (f : A → Io.io Disk sync_error B) P roots
    (Q : outcome sync_error B → Disk → Prop) d :
  Decides silent (too_deep depth vendor) m P →
  (∀ e d', Q (Throw e) d') →
  (∀ a d1, unchanged d d1 → P d a → runs (f a) (λ r d' t, confined roots d1 r d' t ∧ Q r d') d1) →
  runs (m ≫= f) (λ r d' t, confined roots d r d' t ∧ Q r d') d.
Proof.
  intros Hm HQ Hf. apply runs_bind. eapply runs_mono; [apply (de_runs _ _ _ _ Hm)|]. intros [a|e] d1 t1 [Ht1 HP].
  - inversion Ht1 as [|?? Hu _]; subst. eapply runs_mono; [by apply Hf|]. intros r d2 t2 [Hc Hr].
    split; [by eapply confined_before|done].
  - split; [by apply confined_unchanged|apply HQ].
Qed.

Lemma refresh_confined manifest allow d :
  runs (writeSelectedVendor sha256 repositoryRoot tmpdir depth manifest allow)
    (λ r d' t, confined [vendor; upstream] d r d' t ∧ True) d.
Proof.
  unfold writeSelectedVendor. apply (after_check _ _ _ _ _ _ (decides_guard _ _ _ _)); [done|]. intros [] d1 _ _.
  assert (∃ P, Decides silent (too_deep depth vendor)
    (if allow then mret tt else assertDirectoryContainsNoVendorFiles depth vendor) P) as [P HP].
  { destruct allow; [eexists; apply decides_ret|]. eexists. apply d_bind; [apply collectFiles_decides, vendor_normal, Hroot|].
    intros files. apply decides_guard. }
  apply (after_check _ _ _ _ _ _ HP); [done|]. intros [] d2 _ _. eapply runs_mono; [apply (with_pinned_runs _ _ [vendor; upstream])|].
  - intros r Hr. apply moves_refresh; [set_solver|set_solver|done].
  - by intros r d' t [Hc _].
Qed.

Lemma pinned_commit d manifest : pinned_manifest repositoryRoot parse d manifest → um_source_commit manifest = baseline_sourceCommit.
Proof.
  intros (text & _ & _ & _ & Hb & _). unfold pinned_baseline in Hb. rewrite !andb_true_iff, !String.eqb_eq in Hb. apply Hb.
Qed.

(** The optional step between reading the records and checking the tree. *)
Definition source_step (argv : list string) (manifest : UpstreamManifest) (records : list VendorFileRecord)
    : Io.io Disk sync_error unit :=
  if js_elem "--sync" argv then synchronizeVendor sha256 repositoryRoot tmpdir depth manifest records
  else if js_elem "--verify-source" argv then verifyPinnedSource sha256 tmpdir manifest records else mret tt.

Definition asks_source (argv : list string) : bool := js_elem "--sync" argv || js_elem "--verify-source" argv.
Definition written_roots (argv : list string) : list path :=
  if js_elem "--initialize" argv || js_elem "--refresh-allowlist" argv then [vendor; upstream]
  else if js_elem "--sync" argv then [vendor] else [].

Lemma source_step_runs argv manifest records d :
  um_source_commit manifest = baseline_sourceCommit →
  runs (source_step argv manifest records) (λ res d' t,
    confined (if js_elem "--sync" argv then [vendor] else []) d res d' t ∧
    (res = Ret tt → asks_source argv = true → ∃ r s, normal r ∧ checked_out (source baseline_sourceCommit) s r ∧
       Forall (λ file, pinned_hash r file s) records)) d.
Proof.
  intros Hcommit. unfold source_step, asks_source.
  assert (∀ r s (use : Io.io Disk sync_error unit) s' ts, normal r →
    (verifyPinnedSourceHashes sha256 r records;; use) s = (Ret tt, s', ts) → Forall (λ file, pinned_hash r file s) records) as Hpinned.
  { intros r s use s' ts Hr Hu. pose proof (de_runs _ _ _ _ (verifyPinned_decides r records Hr) s) as Hd.
    unfold runs, mbind, io_bind in *. destruct (verifyPinnedSourceHashes sha256 r records s) as [[[[]|e] s1] t1]; [|done].
    by destruct Hd as [_ Hp]. }
  destruct (js_elem "--sync" argv); [|destruct (js_elem "--verify-source" argv)].
  - eapply runs_mono; [apply (with_pinned_runs _ _ [vendor])|].
    + intros r Hr. apply moves_bind; [apply _|by eapply decides_moves, verifyPinned_decides|intros ?].
      apply moves_bind; [apply _|apply moves_copy; [set_solver|done]|intros ?].
      apply moves_bind; [apply _|apply moves_patches; set_solver|intros ?]. apply moves_verify_files.
    + intros res d' t [Hc Hret]. split; [done|]. intros -> _. destruct (Hret tt eq_refl) as (r & s & s' & ts & Hr & Hout & Hu).
      rewrite Hcommit in Hout. exists r, s. split_and!; [done|done|]. by eapply Hpinned.
  - eapply runs_mono; [apply (with_pinned_runs _ _ [])|].
    + intros r Hr. by eapply decides_moves, verifyPinned_decides.
    + intros res d' t [Hc Hret]. split; [done|]. intros -> _. destruct (Hret tt eq_refl) as (r & s & s' & ts & Hr & Hout & Hu).
      rewrite Hcommit in Hout. exists r, s. split_and!; [done|done|].
      pose proof (de_runs _ _ _ _ (verifyPinned_decides r records Hr) s) as Hd. unfold runs in Hd. rewrite Hu in Hd. apply Hd.
  - apply runs_ret. split; [apply confined_unchanged; by apply Forall_singleton|]. by intros _.
Qed.

(** C14: the script is confined, and what it synchronizes is the pinned source.
    In every mode and whatever fails, at every moment nothing outside the
    vendored directory, the directory of the manifests when they are rewritten,
    and new temporary directories has changed, but for missing directories; the
    temporary directories are gone at the end unless a call failed.  When a check
    answers, the tree it leaves is the recorded one; and when the source was asked
    for, every recorded file has the recorded digests, that of the official
    commit and that of the vendored tree. *)
Theorem synchronized_vendor_is_pinned argv d :
  runs (main sha256 parse repositoryRoot tmpdir depth argv) (λ r d' t,
    confined (written_roots argv) d r d' t ∧
    ∀ message, r = Ret message → js_elem "--initialize" argv = false → js_elem "--refresh-allowlist" argv = false →
      ∃ manifest, pinned_manifest repositoryRoot parse d manifest ∧
        if String.eqb (um_status manifest) "pending" then pending_vendor sha256 repositoryRoot manifest d'
        else ∃ records, recorded sha256 repositoryRoot manifest d records ∧
          ready_vendor sha256 repositoryRoot manifest records d' ∧
          (asks_source argv = true → Forall (official d') records)) d.
Proof.
  unfold main. eapply after_check; [by apply readManifest_decides|done|]. intros manifest d1 Hu1 Hm.
  unfold written_roots. destruct (js_elem "--initialize" argv) eqn:Hi; cbn [orb].
  { eapply runs_mono; [apply refresh_confined|]. by intros r d' t [Hc _]. }
  destruct (js_elem "--refresh-allowlist" argv) eqn:Hf.
  { eapply runs_mono; [apply refresh_confined|]. by intros r d' t [Hc _]. }
  destruct (String.eqb (um_status manifest) "pending") eqn:Hp.
  { apply (after_check _ _ _ _ _ _ (verify_pending_decides sha256 repositoryRoot depth Hroot manifest)); [done|].
    intros [] d2 Hu2 Hv. apply runs_ret. split; [by apply confined_unchanged, Forall_singleton|].
    intros message _ _ _. exists manifest. split; [done|]. rewrite Hp.
    by apply (de_same _ _ _ _ (verify_pending_decides sha256 repositoryRoot depth Hroot manifest) d1 d2 tt Hu2). }
  eapply after_check; [by apply readVendorFileManifest_decides|done|]. intros records d2 Hu2 Hr.
  fold (source_step argv manifest records). apply runs_bind. eapply runs_mono; [by apply source_step_runs, (pinned_commit d)|].
  intros [[]|e] d3 t3 [Hc3 Hpin]; [|split; [by eapply confined_throw|done]]. apply runs_bind.
  eapply runs_mono; [apply (de_runs _ _ _ _ (verify_ready_decides sha256 repositoryRoot depth Hroot manifest records))|].
  intros r4 d4 t4 [Ht4 Hv]. destruct r4 as [[]|e]; [|by split; [eapply confined_after|]].
  apply runs_ret. rewrite app_nil_r. split; [by eapply confined_after|]. intros message _ _ _. exists manifest.
  split; [done|]. rewrite Hp. exists records. split.
  { apply unchanged_sym in Hu1. by apply (de_same _ _ _ _ (readVendorFileManifest_decides sha256 repositoryRoot depth Hroot manifest) d1 d records Hu1). }
  assert (ready_vendor sha256 repositoryRoot manifest records d4) as Hready.
  { inversion Ht4 as [|?? Hu4 _]; subst.
    by apply (de_same _ _ _ _ (verify_ready_decides sha256 repositoryRoot depth Hroot manifest records) d3 d4 tt Hu4). }
  split; [done|]. intros Hask. destruct (Hpin eq_refl Hask) as (r & s & Hn & Hout & Hall).
  eapply official_files; [done..|apply Hready].
Qed.
End synchronizing.

(** Synchronizing a tree that has another file. *)
Lemma synchronized_vendor_is_pinned_witness :
  let d := sample_repo [("OTHER", "text")] [] in
  (sample_main ["--sync"] d).1.1 = Ret sample_message ∧
  runs (sample_main ["--sync"]) (λ r d' t,
    confined (H := repo_tree sample_commits) [vendorRoot sample_root] d r d' t ∧
    ∀ message, r = Ret message → false = false → false = false →
      ∃ manifest, pinned_manifest (H := repo_tree sample_commits) sample_root sample_parse d manifest ∧
        if String.eqb (um_status manifest) "pending"
        then pending_vendor (H := repo_tree sample_commits) sample_digest sample_root manifest d'
        else ∃ records, recorded (H := repo_tree sample_commits) (H0 := bits_json) sample_digest sample_root manifest d records ∧
          ready_vendor (H := repo_tree sample_commits) (H0 := bits_json) sample_digest sample_root manifest records d' ∧
          (true = true → Forall (official (H := repo_tree sample_commits) sample_digest sample_root (committed sample_commits) d') records)) d.
Proof.
  split; [vm_compute; reflexivity|].
  assert (normal sample_root) as Hr by (by repeat apply Forall_cons_2).
  assert (normal sample_temporary) as Ht by (by repeat apply Forall_cons_2).
  apply (synchronized_vendor_is_pinned (H0 := bits_json) sample_digest sample_parse sample_root sample_temporary 4 Hr Ht
    (laws := repo_laws sample_commits sample_root) _ (repo_checks_out sample_commits) ["--sync"]).
Defined.
