(* ===== verification/BridgeLaunchFacts.v ===== *)
(** * BridgeLaunchFacts

    [Launch], [BridgeStream] and the client together: a connection is ready, and
    an operation answered, only after the bridge has said that it is the build
    whose executable was verified before it was launched. *)

From Stdlib Require Import Lia Strings.Byte.
From S2P Require Import LocalNativeFacts.
From S2P Require Import Prelude Json Protocol ProtocolFacts Connection Launch LaunchFacts.
From S2P Require Import BridgeClient BridgeClientFacts BridgeControl BridgeControlFacts BridgeStream BridgeStreamFacts.

(** ** The handshake in a client *)

Definition hs_done (c : client) : Prop := ∃ p, handshake c = Some p ∧ hs_state p = hs_resolved.

(** Steps that resolve no handshake; a client becomes ready by a resolved one. *)
Record tame (c c' : client) : Prop := {
  ta_ready : ready c' = true → ready c = true ∨ hs_done c;
  ta_done : hs_done c' → hs_done c;
  ta_id p' : handshake c' = Some p' → ∃ p, handshake c = Some p ∧ hs_requestId p = hs_requestId p' }.

#[export] Instance tame_preorder : PreOrder tame.
Proof.
  split.
  - intros c. split; eauto.
  - intros a b c [Hr Hd Hi] [Hr' Hd' Hi']. split; [naive_solver|auto|].
    intros p Hp. destruct (Hi' p Hp) as (q & Hq & <-). by apply Hi.
Qed.

Lemma tame_same c c' : ready c' = ready c → handshake c' = handshake c → tame c c'.
Proof. intros Hr Hh. split; unfold hs_done; rewrite ?Hr, ?Hh; eauto. Qed.

(** Forgetting the handshake, or the readiness. *)
Lemma tame_forget c c' :
  (ready c' = true → ready c = true ∨ hs_done c) → handshake c' = None → tame c c'.
Proof. intros Hr Hh. split; [done|intros (p & Hp & _); congruence|congruence]. Qed.

Lemma tame_unready c c' : ready c' = false → handshake c' = handshake c → tame c c'.
Proof. intros Hr Hh. split; [by rewrite Hr|unfold hs_done; by rewrite Hh|rewrite Hh; eauto]. Qed.

Lemma tame_settle id s c : tame c (settle_pending id s c).
Proof. unfold settle_pending. destruct (pending c !! id); [|reflexivity]. by apply tame_same. Qed.
Lemma tame_reject id e c : tame c (rejectPending id e c).
Proof. apply tame_settle. Qed.

Lemma settle_handshake_id s c p' :
  handshake (settle_handshake s c) = Some p' →
  ∃ p, handshake c = Some p ∧ hs_requestId p = hs_requestId p'.
Proof.
  unfold settle_handshake. destruct (handshake c) as [[id st]|] eqn:Hh; [|congruence].
  destruct st; rewrite ?Hh; cbn; intros [= <-]; eexists; done.
Qed.

Lemma tame_handshake s c : s ≠ hs_resolved → tame c (settle_handshake s c).
Proof.
  intros Hs. unfold settle_handshake. destruct (handshake c) as [[id []]|] eqn:Hh; try reflexivity.
  split; [auto|intros (p & [= <-] & Hp); done|]. intros p' [= <-]. eauto.
Qed.

Lemma tame_rejectAll e c : tame c (rejectAll e c).
Proof.
  unfold rejectAll. induction (map_to_list (pending c)).*1 as [|id ids IH]; simpl; [by apply tame_handshake|].
  etransitivity; [exact IH|apply tame_reject].
Qed.

Lemma tame_fail e c : tame c (fail e c).
Proof.
  unfold fail. destruct (closed c); [reflexivity|].
  etransitivity; [|apply tame_rejectAll]. by apply tame_unready.
Qed.
Lemma tame_close c : tame c (close c).
Proof.
  unfold close. destruct (closed c); [reflexivity|].
  etransitivity; [|apply tame_rejectAll]. by apply tame_unready.
Qed.
Lemma tame_ignore id c : tame c (ignoreLateMessages id c).
Proof. unfold ignoreLateMessages. case_match; [apply tame_fail|by apply tame_same]. Qed.

Lemma tame_control id signal allow c c' : controlRequest id signal allow c = Some c' → tame c c'.
Proof.
  unfold controlRequest. destruct (negb _); [done|]. case_bool_decide; [done|]. intros [= <-]. by apply tame_same.
Qed.
Lemma tame_default c o : (∀ c', o = Some c' → tame c c') → tame c (default c o).
Proof. intros Ho. destruct o as [c'|]; [by apply Ho|reflexivity]. Qed.

Lemma tame_abort id cancelId c : tame c (abort id cancelId c).
Proof.
  unfold abort. destruct (pending c !! id) as [[control []]|]; try reflexivity.
  assert (tame c (ignoreLateMessages id (rejectPending id AbortError c))) as Hq
    by (etransitivity; [apply tame_reject|apply tame_ignore]).
  destruct control; [done|]. etransitivity; [exact Hq|]. apply tame_default. intros c'. apply tame_control.
Qed.
Lemma tame_timeout id c : tame c (control_timed_out id c).
Proof.
  unfold control_timed_out. destruct (pending c !! id) as [[[] ?]|]; try reflexivity.
  etransitivity; [apply tame_reject|apply tame_ignore].
Qed.

Lemma tame_initialized e c : tame c (initialized e c).
Proof.
  unfold initialized. destruct (handshake c) as [h|] eqn:Hh; [|reflexivity].
  assert (∀ err, tame c (fail err (with_handshake None c))) as Hf
    by (intros err; etransitivity; [|apply tame_fail]; apply tame_forget; [auto|done]).
  destruct e; [apply Hf|]. destruct (hs_state h) eqn:Hs; [reflexivity| |apply Hf].
  apply tame_forget; [|done]. intros _. right. by exists h.
Qed.

Lemma tame_shutdown id signal c : tame c (shutdown id signal c).
Proof.
  unfold shutdown. destruct (closed c); [reflexivity|]. destruct (shutdownRequest c); [reflexivity|].
  set (c1 := with_shutdown _ _). assert (tame c c1) by (by apply tame_same).
  destruct (controlRequest id signal true c1) as [c2|] eqn:Hc; etransitivity; try eassumption;
    [by eapply tame_control|apply tame_close].
Qed.

Lemma tame_drop m c : tame c (drop_ignored m c).
Proof. unfold drop_ignored. repeat case_match; first [reflexivity|by apply tame_same]. Qed.

Lemma tame_dispatch m id c : tame c (dispatch m id c).
Proof. destruct m; first [reflexivity|by apply tame_same]. Qed.

Lemma tame_run_task id ok c : tame c (run_task id ok c).
Proof.
  unfold run_task. destruct (chains c !! id) as [[|t ts]|]; try reflexivity.
  set (c1 := with_chains _ _ c). assert (tame c c1) as H1 by (by apply tame_same).
  etransitivity; [exact H1|]. destruct t as [ack|st r]; [|apply tame_settle].
  destruct ok; cbn [negb]; [|apply tame_fail]. destruct ack; [|reflexivity].
  destruct (closed c1); [apply tame_fail|by apply tame_same].
Qed.

Section greeting.
Context (target : string) (options : HandshakeVerificationOptions) (first : string).

(** The handshake the client waits for was among the messages, and passed. *)
Definition spoken (ms : list ServerMessage) : Prop :=
  ∃ h, m_handshake first h ∈ ms ∧ verifyHandshake h target options = Ret tt.

(** Whatever tells of a ready client: that it is, that it is about to be, a
    message queued for a request, or a request that was resolved. *)
Definition came_up (c : client) : Prop :=
  ready c = true ∨ hs_done c ∨ chains c ≠ ∅ ∨ ∃ id status result, (id, resolved status result) ∈ settlements c.

Record greeted (ms : list ServerMessage) (c : client) : Prop := {
  gr_id p : handshake c = Some p → hs_requestId p = first;
  gr_spoken : came_up c → spoken ms }.

Lemma spoken_more ms ms' : spoken ms → spoken (ms ++ ms').
Proof. intros (h & Hh & Hv). exists h. set_solver. Qed.
Lemma greeted_more ms ms' c : greeted ms c → greeted (ms ++ ms') c.
Proof. intros [Hi Hs]. split; [done|]. intros Hc. by apply spoken_more, Hs. Qed.

Lemma greeted_step ms c c' : tame c c' → quiet c c' → greeted ms c → greeted ms c'.
Proof.
  intros [Hr Hd Hi] [_ Hc _ Hst] [Hid Hs]. split.
  - intros p Hp. destruct (Hi p Hp) as (q & Hq & <-). by apply Hid.
  - intros Hup. apply Hs. unfold came_up in *. rewrite Hc in Hup.
    destruct Hup as [?|[?|[?|(id & st & r & Hin)]]]; [naive_solver|auto|auto|]. right; right; right. eauto.
Qed.

(** A client that is ready stays greeted, whatever is queued. *)
Lemma greeted_ready ms c c' :
  ready c = true → tame c c' → greeted ms c → greeted ms c'.
Proof.
  intros Hready [Hr Hd Hi] [Hid Hs]. split; [|intros _; apply Hs; by left].
  intros p Hp. destruct (Hi p Hp) as (q & Hq & <-). by apply Hid.
Qed.

Lemma tame_route m c : ready c = true → tame c (route target options m c).
Proof.
  intros Hr. unfold route. rewrite Hr. cbn [negb].
  destruct m as [i h|i n e|i st r|[i|] e|i a|[i|] st p q]; cbn [message_id];
    try (destruct (is_ignored _ c); [apply tame_drop|]);
    try first [apply tame_fail|apply tame_reject];
    destruct (pending c !! i); first [apply tame_dispatch|apply tame_fail].
Qed.

Lemma greeted_routeHandshake ms m c :
  greeted ms c → greeted (ms ++ [m]) (routeHandshake target options m c).
Proof.
  intros Hg. pose proof (greeted_more ms [m] c Hg) as Hg'.
  pose proof (quiet_routeHandshake target options m c) as Hq. unfold routeHandshake in *.
  destruct (handshake c) as [h|] eqn:Hh; [|by eapply greeted_step; [apply tame_fail|..]].
  assert (∀ s, s ≠ hs_resolved → greeted (ms ++ [m]) (settle_handshake s c)) as Hrej.
  { intros s Hs. eapply greeted_step; [by apply tame_handshake|apply quiet_handshake|done]. }
  destruct m as [i hs|i n e|i st r|[i|] e|i a|[i|] st p q]; try (by apply Hrej).
  - destruct (String.eqb_spec i (hs_requestId h)) as [->|]; [|by apply Hrej].
    destruct (verifyHandshake hs target options) as [[]|e] eqn:Hv; [|by apply Hrej].
    assert (spoken (ms ++ [m_handshake (hs_requestId h) hs])) as Hsp.
    { exists hs. rewrite (gr_id _ _ Hg _ Hh). set_solver. }
    split; [|done]. intros p (q & Hq' & <-)%settle_handshake_id. by apply (gr_id _ _ Hg).
  - by case_match; apply Hrej.
Qed.

Lemma greeted_route ms m c : greeted ms c → greeted (ms ++ [m]) (route target options m c).
Proof.
  intros Hg. destruct (ready c) eqn:Hr.
  - eapply greeted_ready; [exact Hr|by apply tame_route|by apply greeted_more].
  - unfold route. rewrite Hr. by apply greeted_routeHandshake.
Qed.

Lemma greeted_receive ms d c : greeted ms c → greeted (ms ++ heard [i_receive d]) (receive target options d c).
Proof.
  intros Hg. unfold receive. destruct (closed c); [by apply greeted_more|]. destruct d as [l|e].
  - cbn [heard mbind list_bind]. rewrite app_nil_r. revert ms c Hg. induction l as [|m l IH]; intros ms c Hg.
    + by rewrite app_nil_r.
    + cbn [fold_left]. replace (ms ++ m :: l) with ((ms ++ [m]) ++ l) by (by rewrite <- app_assoc).
      by apply IH, greeted_route.
  - apply greeted_more. by eapply greeted_step; [apply tame_fail|apply quiet_fail|].
Qed.

Lemma greeted_run_task ms id ok c : greeted ms c → greeted ms (run_task id ok c).
Proof.
  intros Hg. pose proof (tame_run_task id ok c) as [Hr Hd Hi]. split.
  { intros p Hp. destruct (Hi p Hp) as (q & Hq & <-). by apply (gr_id _ _ Hg). }
  intros Hup. apply (gr_spoken _ _ Hg).
  destruct (decide (chains c = ∅)) as [He|Hne]; [|by right; right; left].
  assert (run_task id ok c = c) as Heq by (unfold run_task; by rewrite He, lookup_empty).
  by rewrite Heq in Hup.
Qed.

Lemma tame_input i c : is_quiet i = true → tame c (apply_input target options i c).
Proof.
  destruct i as [id sg|id sg|id cid|id|id e|d|id ok| |e|t| |id sg| |]; try done; intros _; cbn [apply_input].
  - apply tame_default. intros c'. unfold request. destruct (negb _); [done|]. case_bool_decide; [done|].
    intros [= <-]. by apply tame_same.
  - apply tame_default. intros c'. apply tame_control.
  - apply tame_abort.
  - apply tame_timeout.
  - apply tame_reject.
  - by apply tame_handshake.
  - apply tame_initialized.
  - apply tame_fail.
  - apply tame_fail.
  - apply tame_shutdown.
  - unfold shutdown_settled. destruct (shutdownRequest c); [|reflexivity].
    case_bool_decide; [apply tame_close|reflexivity].
  - apply tame_close.
Qed.

Lemma greeted_tracks : tracks target options greeted.
Proof.
  intros ms i c Hg. destruct (is_quiet i) eqn:Hi.
  - apply greeted_more. eapply greeted_step; [by apply tame_input|by apply quiet_input|done].
  - destruct i; try done; [by apply greeted_receive|]. by apply greeted_more, greeted_run_task.
Qed.

Lemma connecting_greeted : greeted [] (connecting first).
Proof.
  split; [by intros p [= <-]|]. intros [?|[(p & [= <-] & ?)|[?|(id & st & r & Hin)]]]; [done..|].
  cbn in Hin. by apply elem_of_nil in Hin.
Qed.
End greeting.

(** ** From the file to the connection *)

(** What a packaged launch has verified. *)
Lemma packaged_launch `{JsonText} resolve sha256Hex readFile read_file options l :
  connectBundledBridge resolve sha256Hex readFile read_file options = Ret l → bo_executable options = None →
  ∃ m chunks, packaged resolve readFile (bo_packageRoot options) (bl_target l) m ∧
    read_file (bl_executable l) = Some chunks ∧ intact sha256Hex m chunks ∧
    expectedBuildSourceCommit (bl_handshake l) = Some (mf_projectSourceCommit m).
Proof.
  unfold connectBundledBridge, resolveBundledBridgeLaunch. intros Hl Hexe. rewrite Hexe in Hl.
  destruct (match bo_buildTarget options with Some _ => _ | None => _ end) as [target|]; [|done].
  cbn [mbind outcome_bind] in Hl.
  pose proof (verify_contract resolve sha256Hex readFile read_file (bo_packageRoot options) target) as Hv.
  revert Hl Hv. destruct (verifyPackagedBridgeArtifact _ _ _ _ _ _) as [[exe m]|e]; intros Hl Hv; [|done].
  injection Hl as <-. cbn [bl_executable bl_target bl_handshake expectedBuildSourceCommit fst snd]. destruct Hv as (-> & Hp & chunks & Hs & Hi). by exists m, chunks.
Qed.

Lemma answered_came_up id result c : answer id c = Some (Ret result) → came_up c.
Proof. intros Ha%answer_completed. right; right; right. eauto. Qed.

(** The bridge has said, in a frame of the bytes it wrote, that it is this build. *)
Definition introduced Check_ parse_json first written_all target commit : Prop :=
  ∃ written vs rest v h, written `prefix_of` written_all ∧
    read_stream Check_ parse_json [] written = Ret (vs, rest) ∧ v ∈ vs ∧
    server_message v = Some (m_handshake first h) ∧
    buildTarget h = target ∧ buildSourceCommit h = commit ∧
    officialSourceCommit h = OFFICIAL_SOURCE_COMMIT ∧ vendorTreeSha256 h = VENDOR_TREE_SHA256.

(** C8: the launch and the connection agree.  When a packaged bridge was
    launched, its executable had the size and the digest of a manifest of this
    product; and whatever chunks, calls, timers, aborts and failures the
    connection then sees, in any order, it is ready, or answers an operation,
    only if a frame of the bytes written is the handshake with the identifier
    that was sent first, of a bridge built for that target from the commit of
    that same manifest. *)
Theorem ready_connection_is_the_verified_build `{JsonText} resolve sha256Hex readFile read_file options l
    Check_ parse_json first events :
  connectBundledBridge resolve sha256Hex readFile read_file options = Ret l → bo_executable options = None →
  let s := stream_run Check_ parse_json (bl_target l) (bl_handshake l) events (new_connection first) in
  isReady (cn_client s) = true ∨ (∃ id result, answer id (cn_client s) = Some (Ret result)) →
  ∃ m chunks, packaged resolve readFile (bo_packageRoot options) (bl_target l) m ∧
    read_file (bl_executable l) = Some chunks ∧ intact sha256Hex m chunks ∧
    introduced Check_ parse_json first (wire events) (bl_target l) (mf_projectSourceCommit m).
Proof.
  intros Hl Hexe s Hup. destruct (packaged_launch _ _ _ _ _ _ Hl Hexe) as (m & chunks & Hp & Hs & Hi & Hcommit).
  exists m, chunks. split_and!; [done..|].
  destruct (run_tracked Check_ parse_json (bl_target l) (bl_handshake l)
    (greeted (bl_target l) (bl_handshake l) first) first events) as [_ (written & vs & rest & Hpre & Hread & Hg & _)];
    [apply greeted_tracks|apply connecting_greeted|].
  assert (came_up (cn_client s)) as Hc.
  { destruct Hup as [Hr|(id & result & Ha)]; [left|by eapply answered_came_up].
    revert Hr. unfold isReady. by destruct (ready _). }
  destruct (gr_spoken _ _ _ _ _ Hg Hc) as (h & Hh & Hv).
  apply list_elem_of_omap in Hh as (v & Hv' & Hm). apply verifyHandshake_iff in Hv as (_ & _ & _ & Ho & Hb & Ht & _ & _ & _ & Hc').
  exists written, vs, rest, v, h. split_and!; auto.
Qed.

(** A packaged bridge that is launched, introduces itself and answers. *)
Definition launch_options : ConnectBundledBridgeOptions :=
  {| bo_packageRoot := "r"; bo_allowDevelopmentBuild := None; bo_expectedBuildSourceCommit := None;
     bo_platform := "linux"; bo_architecture := "x64"; bo_executable := None; bo_buildTarget := None |}.
Definition launched : bridge_launch :=
  {| bl_executable := "native/codex-bridge"; bl_target := sample_target;
     bl_handshake := {| allowDevelopmentBuild := false; expectedBuildSourceCommit := Some sample_commit |} |}.
Definition launch_resolve (parts : list string) : string :=
  if bool_decide (last parts = Some "codex-bridge") then "native/codex-bridge" else "native/manifest".
Definition launch_file (path : string) : option string :=
  if String.eqb path "native/manifest" then Some (@stringify bits_json (sample_manifest sample_commit)) else None.
Definition launch_stream (path : string) : option (list string) :=
  if String.eqb path "native/codex-bridge" then Some ["N"; "EW"] else None.

Definition introduction : jsval := VObj [
  ("type", VStr "handshake"); ("requestId", VStr "h");
  ("handshake", VObj [
     ("bridgeProtocolVersion", VNum BRIDGE_PROTOCOL_VERSION);
     ("officialCodexVersion", VStr OFFICIAL_CODEX_VERSION);
     ("officialCodexTag", VStr OFFICIAL_CODEX_TAG);
     ("officialSourceCommit", VStr OFFICIAL_SOURCE_COMMIT);
     ("buildTarget", VStr sample_target); ("buildSourceCommit", VStr sample_commit);
     ("vendorTreeSha256", VStr VENDOR_TREE_SHA256);
     ("maxFrameBytes", VNum MAX_FRAME_BYTES); ("maxPendingEvents", VNum MAX_PENDING_EVENTS);
     ("capabilities", VArr [VStr "context_estimation"])])].
Definition launch_parse (b : bytes) : option jsval :=
  if bool_decide (b = [x68]) then Some introduction else sample_parse b.

Lemma ready_connection_is_the_verified_build_witness :
  let s := stream_run conforms launch_parse sample_target (bl_handshake launched) sample_run (new_connection "h") in
  answer "a" (cn_client s) = Some (Ret (VBool true)) ∧
  ∃ m chunks, packaged (H := bits_json) launch_resolve launch_file "r" sample_target m ∧
    launch_stream (bl_executable launched) = Some chunks ∧ intact sample_sha256 m chunks ∧
    introduced conforms launch_parse "h" (wire sample_run) sample_target (mf_projectSourceCommit m).
Proof.
  intros s. assert (answer "a" (cn_client s) = Some (Ret (VBool true))) as Ha by (vm_compute; reflexivity).
  split; [exact Ha|].
  apply (ready_connection_is_the_verified_build (H := bits_json) launch_resolve sample_sha256 launch_file launch_stream
    launch_options launched conforms launch_parse "h" sample_run).
  - vm_compute. reflexivity.
  - reflexivity.
  - right. exists "a", (VBool true). exact Ha.
Defined.
