(* ===== verification/Sbom.v ===== *)
(** * Sbom

    [src/scripts/generate-native-sbom.ts]: the bill of materials of the native
    bridge.  The packages that its production dependencies reach are collected
    with a stack and written with their checksums; what is written passes the
    check of [Vendor].

    Reading [Cargo.lock] and the output of [cargo metadata] are parameters, at the
    types the code casts them to, and so is [localeCompare].  The loop over the
    stack has as fuel the number of dependencies, and one more; it is enough. *)

From Stdlib Require Import Lia.
From stdpp Require Import relations.
From S2P Require Import Prelude StructuredJson Io Paths Workspace Json JsRegex Vendor VendorRepo VendorFacts.

(** ** What cargo tells *)

Record CargoPackage := {
  pk_id : string;
  pk_name : string;
  pk_version : string;
  pk_source : option string;
  pk_license : option string }.

(** A kind is [null] for a normal dependency. *)
Record CargoDependency := { dp_pkg : string; dp_kinds : option (list (option string)) }.
Record CargoNode := { nd_id : string; nd_deps : list CargoDependency }.
Record CargoMetadata := { cm_packages : list CargoPackage; cm_nodes : list CargoNode }.

Record LockEntry := {
  le_name : string;
  le_version : string;
  le_source : option string;
  le_checksum : option string }.

Definition officialSourceCommit : string := "e363b08c9175ac1cbe5893615dd2cb9ddf95043b".
Definition officialVersion : string := "0.146.0".
Definition officialPackages : list string := [
  "codex-api"; "codex-async-utils"; "codex-client"; "codex-execpolicy"; "codex-extension-items";
  "codex-http-client"; "codex-network-proxy"; "codex-protocol"; "codex-tools"; "codex-utils-absolute-path";
  "codex-utils-cache"; "codex-utils-home-dir"; "codex-utils-image"; "codex-utils-output-truncation";
  "codex-utils-path-uri"; "codex-utils-pty"; "codex-utils-rustls-provider"; "codex-utils-string";
  "codex-websocket-client"].

(** A line of the bill; the reference is [references.get(id)]. *)
Record BillPackage := {
  bp_ref : option string;
  bp_name : string;
  bp_version : string;
  bp_source : string;
  bp_license : option string;
  bp_checksum : option string;
  bp_dependencies : list string }.

(** [new Map(list.map(x => [key(x), x]))]: the last one wins. *)
Definition by_key {A} (key : A → string) (l : list A) : gmap string A :=
  foldl (λ m x, <[key x := x]> m) ∅ l.

(** ** The packages that are reached *)

Definition is_production (d : CargoDependency) : bool :=
  match dp_kinds d with
  | None | Some [] => true
  | Some kinds => existsb (λ k, negb (bool_decide (k = Some "dev"))) kinds
  end.
Definition productionDependencies (dependencies : list CargoDependency) : list CargoDependency :=
  filter (λ d, is_production d = true) dependencies.

Definition dependencies_of (nodes : gmap string CargoNode) (id : string) : list string :=
  dp_pkg <$> productionDependencies (default [] (nd_deps <$> nodes !! id)).

(** [pending] is the stack, its top first; [reachable] the set, in the order of
    insertion. *)
Fixpoint reach (fuel : nat) (nodes : gmap string CargoNode) (reachable pending : list string)
    : option (list string) :=
  match pending with
  | [] => Some reachable
  | id :: pending =>
      match fuel with
      | O => None
      | S fuel =>
          if decide (id ∈ reachable) then reach fuel nodes reachable pending
          else reach fuel nodes (reachable ++ [id]) (reverse (dependencies_of nodes id) ++ pending)
      end
  end.

Definition enough (nodes : list CargoNode) : nat := S (sum_list_with (λ n, length (nd_deps n)) nodes).

(** ** The bill *)

Definition NO_ROOT : sync_error := failure "Cargo metadata does not contain the native bridge package".
Definition UNKNOWN : sync_error := failure "Cargo resolve graph references an unknown package".

Definition sourceIdentity (pkg : CargoPackage) : string :=
  if js_elem (pk_name pkg) officialPackages && String.eqb (pk_version pkg) officialVersion
  then ("official:" ++ officialSourceCommit)%string else default "project" (pk_source pkg).

Definition is_root (pkg : CargoPackage) : Prop := pk_name pkg = "codex-bridge" ∧ pk_source pkg = None.
#[export] Instance is_root_dec pkg : Decision (is_root pkg).
Proof. unfold is_root. apply _. Defined.
Definition root_of (packages : list CargoPackage) : option CargoPackage :=
  found ← list_find is_root packages; Some found.2.

Definition opt_value (o : option string) : jsval := match o with Some s => VStr s | None => VNull end.
Definition package_value (p : BillPackage) : jsval := VObj (
  match bp_ref p with Some r => [("ref", VStr r)] | None => [] end ++
  [("name", VStr (bp_name p)); ("version", VStr (bp_version p)); ("source", VStr (bp_source p));
   ("license", opt_value (bp_license p)); ("checksum", opt_value (bp_checksum p));
   ("dependencies", VArr (VStr <$> bp_dependencies p))]).

Section bill.
Context (sha256 : string → string) (localeCompare : string → string → Z).

Definition reference (pkg : CargoPackage) : string :=
  (pk_name pkg ++ "@" ++ pk_version pkg ++ ":" ++ substring 0 12 (sha256 (sourceIdentity pkg)))%string.

Definition matches_entry (pkg : CargoPackage) (entry : LockEntry) : bool :=
  String.eqb (le_name entry) (pk_name pkg) && String.eqb (le_version entry) (pk_version pkg) &&
  bool_decide (le_source entry = pk_source pkg).
Definition checksum_of (lock : list LockEntry) (pkg : CargoPackage) : option string :=
  found ← list_find (λ entry, matches_entry pkg entry = true) lock; le_checksum found.2.

Definition known (packages : gmap string CargoPackage) (id : string) : outcome sync_error CargoPackage :=
  match packages !! id with Some pkg => Ret pkg | None => Throw UNKNOWN end.

Definition reference_of (packages : gmap string CargoPackage) (id : string) : outcome sync_error (string * string) :=
  pkg ← known packages id; Ret (id, reference pkg).

Definition bill_package (lock : list LockEntry) (packages : gmap string CargoPackage) (nodes : gmap string CargoNode)
    (references : gmap string string) (id : string) : outcome sync_error BillPackage :=
  pkg ← known packages id;
  Ret {| bp_ref := references !! id;
         bp_name := pk_name pkg;
         bp_version := pk_version pkg;
         bp_source := sourceIdentity pkg;
         bp_license := pk_license pkg;
         bp_checksum := checksum_of lock pkg;
         bp_dependencies :=
           merge_sort str_le (omap (λ dependency, references !! dependency) (dependencies_of nodes id)) |}.

Definition ref_le (a b : BillPackage) : Prop :=
  (localeCompare (default "" (bp_ref a)) (default "" (bp_ref b)) ≤ 0)%Z.
#[export] Instance ref_le_dec a b : Decision (ref_le a b).
Proof. unfold ref_le. apply _. Defined.

Definition bill_value (lockBytes : string) (root : option string) (packages : list BillPackage) : jsval := VObj (
  [("schema_version", VNum (num_of_Z 1)); ("official_version", VStr officialVersion);
   ("official_source_commit", VStr officialSourceCommit); ("cargo_lock_sha256", VStr (sha256 lockBytes))] ++
  match root with Some r => [("root", VStr r)] | None => [] end ++
  [("packages", VArr (package_value <$> packages))]).

(** The packages of the bill and the value that is written. *)
Definition make_bill (lockBytes : string) (lock : list LockEntry) (metadata : CargoMetadata)
    : outcome sync_error (list BillPackage * jsval) :=
  let packagesById := by_key pk_id (cm_packages metadata) in
  let nodesById := by_key nd_id (cm_nodes metadata) in
  match root_of (cm_packages metadata) with
  | None => Throw NO_ROOT
  | Some root =>
      match reach (enough (cm_nodes metadata)) nodesById [] [pk_id root] with
      | None => Throw depth_exceeded
      | Some reachable =>
          entries ← map_throw (reference_of packagesById) reachable;
          let references : gmap string string := list_to_map entries in
          unsorted ← map_throw (bill_package lock packagesById nodesById references) reachable;
          let packages := merge_sort ref_le unsorted in
          Ret (packages, bill_value lockBytes (references !! pk_id root) packages)
      end
  end.
End bill.

(** ** The command *)

Section command.
Context {Disk : Type} `{SourceTree Disk} `{JsonText}.
Context (sha256 : string → string) (localeCompare : string → string → Z).
Context (parse_lock : string → option (list LockEntry)) (parse_metadata : string → option CargoMetadata).
Context (repositoryRoot : path).

Definition lockPath : path := resolve_from repositoryRoot "native/Cargo.lock".
Definition outputPath : path := resolve_from repositoryRoot "native/upstream/openai-codex-sbom.json".
Definition CARGO_METADATA : list string :=
  ["cargo"; "metadata"; "--locked"; "--format-version"; "1"; "--manifest-path";
   path_text (resolve_from repositoryRoot "native/Cargo.toml")].

Definition parsed {A} (parse : string → option A) (text : string) : Io.io Disk sync_error A :=
  io_lift (match parse text with Some a => Ret a | None => Throw syntax_error end).

Definition cargoMetadata : Io.io Disk sync_error CargoMetadata :=
  child ← fs (tr_spawn CARGO_METADATA);
  if negb (exitCode child =? 0)%Z
  then fail ("cargo metadata exited with status " ++ Vendor.integer_text (exitCode child))%string
  else parsed parse_metadata (stdout child).

(** The number of packages that is logged. *)
Definition main (argv : list string) : Io.io Disk sync_error nat :=
  lockBytes ← fs (tr_readFile lockPath);
  lock ← parsed parse_lock lockBytes;
  metadata ← cargoMetadata;
  bill ← io_lift (make_bill sha256 localeCompare lockBytes lock metadata);
  let generated := (stringify_indented bill.2 ++ line_feed)%string in
  (if js_elem "--check" argv then
     current ← fs (tr_readFile outputPath);
     io_lift (guard_throw (String.eqb current generated) (failure "Native SBOM is stale"))
   else fs (tr_writeFile outputPath generated));;
  mret (length bill.1).
End command.

(** ** The stack *)

Section reach.
Context (nodes : gmap string CargoNode).

Definition depends (a b : string) : Prop := b ∈ dependencies_of nodes a.

(** What holds at each turn: the set is reachable from [root], the stack too, and
    a dependency of the set is in the set or on the stack. *)
Record turn (root : string) (reachable pending : list string) : Prop := {
  tn_nodup : NoDup reachable;
  tn_sound : ∀ id, id ∈ reachable ++ pending → rtc depends root id;
  tn_start : root ∈ reachable ++ pending;
  tn_closed : ∀ a b, a ∈ reachable → depends a b → b ∈ reachable ++ pending }.

Lemma turn_skip root reachable id pending :
  id ∈ reachable → turn root reachable (id :: pending) → turn root reachable pending.
Proof.
  intros Hin [Hn Hs Hr Hc]. split; [done|..].
  - intros x Hx. apply Hs. set_solver.
  - set_solver.
  - intros a b Ha Hab. specialize (Hc a b Ha Hab). set_solver.
Qed.

Lemma turn_visit root reachable id pending :
  id ∉ reachable → turn root reachable (id :: pending) →
  turn root (reachable ++ [id]) (reverse (dependencies_of nodes id) ++ pending).
Proof.
  intros Hin [Hn Hs Hr Hc].
  assert (rtc depends root id) as Hid by (apply Hs; set_solver).
  split.
  - apply NoDup_app. split_and!; [done|set_solver|apply NoDup_singleton].
  - intros x Hx. rewrite !elem_of_app, elem_of_reverse in Hx.
    destruct Hx as [[Hx|Hx]|[Hx|Hx]]; [apply Hs; set_solver|set_solver| |apply Hs; set_solver].
    eapply rtc_r; [exact Hid|exact Hx].
  - set_solver.
  - intros a b [Ha| ->%list_elem_of_singleton]%elem_of_app Hab.
    + specialize (Hc a b Ha Hab). set_solver.
    + rewrite !elem_of_app, elem_of_reverse. right; by left.
Qed.

Lemma turn_end root reachable : turn root reachable [] → ∀ id, id ∈ reachable ↔ rtc depends root id.
Proof.
  intros [Hn Hs Hr Hc] id. rewrite app_nil_r in Hs, Hr, Hc.
  split; [apply Hs|]. clear Hs. intros Hid. revert Hr. induction Hid as [x|x y z Hxy _ IH]; [done|]. intros Hx.
  by apply IH, (Hc x).
Qed.

Lemma reach_sound fuel root reachable pending result :
  turn root reachable pending → reach fuel nodes reachable pending = Some result →
  NoDup result ∧ ∀ id, id ∈ result ↔ rtc depends root id.
Proof.
  revert reachable pending. induction fuel as [|fuel IH]; intros reachable [|id pending] Ht; cbn [reach]; try done.
  1,2: intros [= <-]; by split; [apply (tn_nodup _ _ _ Ht)|apply turn_end].
  case_decide as Hin; apply IH; [by eapply turn_skip|by apply turn_visit].
Qed.

(** The dependencies of the nodes that are not in the set. *)
Definition left_over (l : list CargoNode) (reachable : list string) : nat :=
  sum_list_with (λ n, if decide (nd_id n ∈ reachable) then 0 else length (nd_deps n)) l.

Lemma left_over_nothing l : left_over l [] = sum_list_with (λ n, length (nd_deps n)) l.
Proof. unfold left_over. induction l as [|n l IH]; [done|]. cbn [sum_list_with]. by rewrite IH, decide_False by set_solver. Qed.

Lemma left_over_more l reachable id : left_over l (reachable ++ [id]) ≤ left_over l reachable.
Proof.
  unfold left_over. induction l as [|m l IH]; [done|]. cbn [sum_list_with].
  destruct (decide (nd_id m ∈ reachable)); [rewrite decide_True by set_solver|case_decide]; lia.
Qed.

Lemma left_over_visit l reachable n :
  nd_id n ∉ reachable → n ∈ l → length (nd_deps n) + left_over l (reachable ++ [nd_id n]) ≤ left_over l reachable.
Proof.
  intros Hid. induction l as [|m l IH]; [set_solver|]. intros [<-|Hn]%elem_of_cons; unfold left_over; cbn [sum_list_with].
  - rewrite (decide_True (P := nd_id n ∈ reachable ++ [nd_id n])), (decide_False (P := nd_id n ∈ reachable)) by set_solver.
    pose proof (left_over_more l reachable (nd_id n)) as Hm. unfold left_over in Hm. lia.
  - specialize (IH Hn). unfold left_over in IH. destruct (decide (nd_id m ∈ reachable)).
    + rewrite decide_True by set_solver. lia.
    + case_decide; lia.
Qed.

Lemma left_over_new l reachable id :
  (∀ n, nodes !! id = Some n → n ∈ l ∧ nd_id n = id) → id ∉ reachable →
  length (dependencies_of nodes id) + left_over l (reachable ++ [id]) ≤ left_over l reachable.
Proof.
  intros Hl Hid. unfold dependencies_of, productionDependencies. rewrite length_fmap.
  destruct (nodes !! id) as [n|]; [|apply left_over_more].
  destruct (Hl n eq_refl) as [Hn <-]. pose proof (left_over_visit l reachable n Hid Hn).
  pose proof (length_filter (λ d, is_production d = true) (nd_deps n)). cbn. lia.
Qed.

Lemma reach_ends l fuel reachable pending :
  (∀ id n, nodes !! id = Some n → n ∈ l ∧ nd_id n = id) →
  length pending + left_over l reachable ≤ fuel → is_Some (reach fuel nodes reachable pending).
Proof.
  intros Hl. revert reachable pending. induction fuel as [|fuel IH]; intros reachable [|id pending] Hf; cbn [reach]; try done.
  { cbn in Hf. lia. }
  case_decide as Hin; apply IH; cbn in Hf; [lia|]. rewrite length_app, length_reverse.
  pose proof (left_over_new l reachable id (Hl id) Hin). lia.
Qed.
End reach.

(** ** The bill *)

Lemma by_key_lookup {A} (key : A → string) l k x : by_key key l !! k = Some x → x ∈ l ∧ key x = k.
Proof.
  unfold by_key. induction l as [|y l IH] using rev_ind; [done|]. rewrite foldl_snoc.
  intros [[<- <-]|[_ Hx]]%lookup_insert_Some; [set_solver|]. destruct (IH Hx). set_solver.
Qed.

Lemma by_key_total {A} (key : A → string) l x : x ∈ l → is_Some (by_key key l !! key x).
Proof.
  unfold by_key. induction l as [|y l IH] using rev_ind; [set_solver|]. rewrite foldl_snoc. intros Hx.
  destruct (decide (key y = key x)) as [->|Hne]; [rewrite lookup_insert_eq; by eexists|].
  rewrite lookup_insert_ne by done. apply IH. apply elem_of_app in Hx as [?| ->%list_elem_of_singleton]; done.
Qed.

Lemma Forall2_in_l {A B} (P : A → B → Prop) l k x : Forall2 P l k → x ∈ l → ∃ y, y ∈ k ∧ P x y.
Proof. induction 1 as [|a b l k ? _ IH]; intros Hx; set_solver. Qed.
Lemma Forall2_in_r {A B} (P : A → B → Prop) l k y : Forall2 P l k → y ∈ k → ∃ x, x ∈ l ∧ P x y.
Proof. induction 1 as [|a b l k ? _ IH]; intros Hx; set_solver. Qed.

(** The packages that the production dependencies of [root] reach. *)
Definition linked (metadata : CargoMetadata) (root id : string) : Prop :=
  rtc (depends (by_key nd_id (cm_nodes metadata))) root id.
Definition package_of (metadata : CargoMetadata) (id : string) : option CargoPackage :=
  by_key pk_id (cm_packages metadata) !! id.

Section made.
Context (sha256 : string → string) (localeCompare : string → string → Z).
Context (lockBytes : string) (lock : list LockEntry) (metadata : CargoMetadata).
Abbreviation refer := (reference sha256).

(** The line of the package [id]: its own data, and the references of all its
    production dependencies, which are lines of the bill too. *)
Record describes (id : string) (p : BillPackage) : Prop := {
  ds_package : ∃ pkg, package_of metadata id = Some pkg ∧
    bp_ref p = Some (refer pkg) ∧ bp_name p = pk_name pkg ∧ bp_version p = pk_version pkg ∧
    bp_source p = sourceIdentity pkg ∧ bp_license p = pk_license pkg ∧ bp_checksum p = checksum_of lock pkg;
  ds_dependencies : ∃ refs, bp_dependencies p ≡ₚ refs ∧
    Forall2 (λ dependency r, ∃ pkg, package_of metadata dependency = Some pkg ∧ r = refer pkg)
      (dependencies_of (by_key nd_id (cm_nodes metadata)) id) refs }.

Lemma known_ret id pkg : known (by_key pk_id (cm_packages metadata)) id = Ret pkg ↔ package_of metadata id = Some pkg.
Proof. unfold known, package_of. destruct (_ !! id); naive_solver. Qed.
Lemma known_throw id e :
  known (by_key pk_id (cm_packages metadata)) id = Throw e → e = UNKNOWN ∧ package_of metadata id = None.
Proof. unfold known, package_of. destruct (_ !! id); naive_solver. Qed.

Lemma references_lookup ids entries :
  NoDup ids → Forall2 (λ id entry, reference_of sha256 (by_key pk_id (cm_packages metadata)) id = Ret entry) ids entries →
  ∀ id, (list_to_map entries : gmap string string) !! id =
    if decide (id ∈ ids) then refer <$> package_of metadata id else None.
Proof.
  intros Hn He id. apply option_eq. intros r.
  assert (entries.*1 = ids) as Hfst.
  { clear Hn. induction He as [|i en ids' entries Hi _ IH]; [done|]. apply bind_ret_iff in Hi as (pkg & _ & [= <-]).
    cbn. by rewrite IH. }
  rewrite <- elem_of_list_to_map by (by rewrite Hfst). split.
  - intros Hin. destruct (Forall2_in_r _ _ _ _ He Hin) as (i & Hi & (pkg & Hk & [= <- <-])%bind_ret_iff).
    apply known_ret in Hk. by rewrite decide_True, Hk.
  - case_decide as Hi; [|done]. destruct (Forall2_in_l _ _ _ _ He Hi) as (en & Hen & (pkg & Hk & [= <-])%bind_ret_iff).
    apply known_ret in Hk. rewrite Hk. by intros [= <-].
Qed.

Lemma omap_references (references : gmap string string) deps :
  Forall (λ d, ∃ pkg, package_of metadata d = Some pkg ∧ references !! d = Some (refer pkg)) deps →
  Forall2 (λ d r, ∃ pkg, package_of metadata d = Some pkg ∧ r = refer pkg) deps (omap (λ d, references !! d) deps).
Proof.
  induction 1 as [|d deps (pkg & Hp & Hr) _ IH]; [constructor|]. cbn [omap list_omap]. rewrite Hr.
  constructor; [by exists pkg|done].
Qed.

(** What the bill is, and the only reasons there is none. *)
Definition billed (r : outcome sync_error (list BillPackage * jsval)) : Prop :=
  match r with
  | Ret (packages, value) => ∃ root pkg ids lines,
      root_of (cm_packages metadata) = Some root ∧ package_of metadata (pk_id root) = Some pkg ∧
      NoDup ids ∧ (∀ id, id ∈ ids ↔ linked metadata (pk_id root) id) ∧
      Forall2 describes ids lines ∧ packages ≡ₚ lines ∧
      value = bill_value sha256 lockBytes (Some (refer pkg)) packages
  | Throw e =>
      (e = NO_ROOT ∧ root_of (cm_packages metadata) = None) ∨
      (e = UNKNOWN ∧ ∃ root id, root_of (cm_packages metadata) = Some root ∧ linked metadata (pk_id root) id ∧
         package_of metadata id = None)
  end.

Lemma describe_runs ids entries id p :
  NoDup ids → (∀ a b, a ∈ ids → depends (by_key nd_id (cm_nodes metadata)) a b → b ∈ ids) →
  Forall2 (λ id entry, reference_of sha256 (by_key pk_id (cm_packages metadata)) id = Ret entry) ids entries →
  id ∈ ids →
  bill_package lock (by_key pk_id (cm_packages metadata)) (by_key nd_id (cm_nodes metadata)) (list_to_map entries) id = Ret p →
  describes id p.
Proof.
  intros Hn Hc He Hid (pkg & Hk%known_ret & [= <-])%bind_ret_iff.
  pose proof (references_lookup ids entries Hn He) as Hr. split.
  - exists pkg. split_and!; try done. cbn. by rewrite Hr, decide_True, Hk.
  - eexists. split; [apply merge_sort_Permutation|]. apply omap_references, Forall_forall. intros d Hd.
    assert (d ∈ ids) as Hd' by (by apply (Hc id)).
    destruct (Forall2_in_l _ _ _ _ He Hd') as (en & _ & (q & Hq%known_ret & _)%bind_ret_iff).
    exists q. split; [done|]. by rewrite Hr, decide_True, Hq.
Qed.

Lemma make_bill_billed : billed (make_bill sha256 localeCompare lockBytes lock metadata).
Proof.
  unfold make_bill. destruct (root_of _) as [root|] eqn:Hroot; [|by left].
  destruct (reach_ends (by_key nd_id (cm_nodes metadata)) (cm_nodes metadata) (enough (cm_nodes metadata)) [] [pk_id root])
    as [ids Hids]; [intros ??; apply by_key_lookup|rewrite left_over_nothing; done|]. rewrite Hids.
  apply (reach_sound _ _ (pk_id root)) in Hids as [Hn Hl].
  2:{ split; [constructor| |by apply list_elem_of_singleton|set_solver].
      intros id ->%list_elem_of_singleton. apply rtc_refl. }
  destruct (map_throw (reference_of _ _) ids) as [entries|e] eqn:He; cbn [mbind outcome_bind].
  2:{ apply map_throw_throw in He as (id & Hid & [Hk|(? & _ & [=])]%bind_throw_iff). apply known_throw in Hk as [-> Hk].
      right. split; [done|]. exists root, id. split_and!; [done|by apply Hl|done]. }
  apply map_throw_ret in He.
  destruct (map_throw (bill_package _ _ _ _) ids) as [lines|e] eqn:Hb; cbn [mbind outcome_bind].
  2:{ apply map_throw_throw in Hb as (id & Hid & [Hk|(? & _ & [=])]%bind_throw_iff). apply known_throw in Hk as [-> Hk].
      right. split; [done|]. exists root, id. split_and!; [done|by apply Hl|done]. }
  apply map_throw_ret in Hb.
  assert (pk_id root ∈ ids) as Hin by (apply Hl; apply rtc_refl).
  destruct (Forall2_in_l _ _ _ _ He Hin) as (en & _ & (pkg & Hpkg%known_ret & _)%bind_ret_iff).
  exists root, pkg, ids, lines. split_and!; try done.
  - apply Forall2_same_length_lookup_2; [by eapply Forall2_length|]. intros i id p Hi Hp.
    apply (describe_runs ids entries id p); try done.
    + intros a b Ha Hab. apply Hl. apply Hl in Ha. by eapply rtc_r.
    + by eapply list_elem_of_lookup_2.
    + by eapply Forall2_lookup_lr in Hb.
  - apply merge_sort_Permutation.
  - by rewrite (references_lookup ids entries Hn He), decide_True, Hpkg.
Qed.
End made.

(** ** The text that is written *)

Lemma forallb_fmap {A B} (f : B → bool) (g : A → B) (l : list A) : forallb f (g <$> l) = forallb (λ x, f (g x)) l.
Proof. induction l as [|x l IH]; [done|]. cbn. by rewrite IH. Qed.
Lemma forallb_all {A} (f : A → bool) (l : list A) : (∀ x, f x = true) → forallb f l = true.
Proof. intros Hf. induction l as [|x l IH]; [done|]. cbn. by rewrite Hf. Qed.

Lemma package_value_ok p : json_value (package_value p) = true ∧ wf_value (package_value p) = true.
Proof.
  unfold package_value. destruct (bp_ref p), (bp_license p), (bp_checksum p); cbn;
    rewrite !forallb_fmap, !forallb_all by done; done.
Qed.

Lemma bill_value_ok sha256 lockBytes root packages :
  json_value (bill_value sha256 lockBytes root packages) = true ∧
  wf_value (bill_value sha256 lockBytes root packages) = true.
Proof.
  unfold bill_value. destruct root; cbn; rewrite !forallb_fmap, !forallb_all by (intros p; apply package_value_ok); done.
Qed.

(** The text is a bill that the vendoring script accepts for the pinned manifest. *)
Lemma bill_is_accepted `{JsonText} sha256 lockBytes root packages manifest :
  pinned_baseline manifest = true →
  ∃ value, json_parse (stringify_indented (bill_value sha256 lockBytes root packages) ++ line_feed)%string = Some value ∧
    assertNativeSbom value manifest (Some (sha256 lockBytes)) = Ret tt.
Proof.
  intros Hp. unfold pinned_baseline in Hp. rewrite !andb_true_iff, !String.eqb_eq in Hp. destruct Hp as [[[[_ _] Hc] _] Hv].
  destruct (bill_value_ok sha256 lockBytes root packages) as [Hj Hw].
  destruct (json_parse_indented _ Hj Hw) as (value & Ht & He). exists value. split; [done|]. symmetry in He.
  apply assertNativeSbom_iff. apply jseq_obj_iff in He as (fields & Hr & _ & Hf).
  2:{ unfold bill_value in Hw. cbn [wf_value] in Hw. by apply andb_true_iff in Hw as [?%bool_decide_eq_true _]. }
  exists fields. assert (value = VObj fields) as -> by (by destruct value; naive_solver). split; [done|].
  cbn [app] in Hf. repeat (apply Forall_cons in Hf as [?H Hf]). cbn in *.
  rewrite jseq_num_iff in *. rewrite !jseq_str_iff in *. rewrite Hc, Hv. done.
Qed.

(** ** The command *)

Section command_facts.
Context {Disk : Type} `{SourceTree Disk} `{JsonText}.
Context {writes : list string → list path → Prop} {laws : SourceTreeLaws Disk writes}.
Context (sha256 : string → string) (localeCompare : string → string → Z).
Context (parse_lock : string → option (list LockEntry)) (parse_metadata : string → option CargoMetadata).
Context (repositoryRoot : path).

(** The lock file is that of [d], and the graph what cargo then answers. *)
Definition inputs (d : Disk) (lockBytes : string) (lock : list LockEntry) (metadata : CargoMetadata) : Prop :=
  content_at d (lockPath repositoryRoot) = Some lockBytes ∧ parse_lock lockBytes = Some lock ∧
  ∃ s child, unchanged d s ∧ (tr_spawn (CARGO_METADATA repositoryRoot) s).1 = Ret child ∧
    exitCode child = 0%Z ∧ parse_metadata (stdout child) = Some metadata.

Definition bill_text (value : jsval) : string := (stringify_indented value ++ line_feed)%string.
Definition accepted (lockBytes text : string) : Prop := ∀ manifest, pinned_baseline manifest = true →
  ∃ value, json_parse text = Some value ∧ assertNativeSbom value manifest (Some (sha256 lockBytes)) = Ret tt.

(** Why there is no bill. *)
Definition refused (argv : list string) (d d' : Disk) (e : sync_error) : Prop :=
  match e with
  | platform_error _ | syntax_error => True
  | type_error | depth_exceeded => False
  | failure _ =>
      (∃ s child, (tr_spawn (CARGO_METADATA repositoryRoot) s).1 = Ret child ∧ exitCode child ≠ 0%Z) ∨
      ∃ lockBytes lock metadata, inputs d lockBytes lock metadata ∧
        (billed sha256 lockBytes lock metadata (Throw e) ∨
         ∃ packages value, billed sha256 lockBytes lock metadata (Ret (packages, value)) ∧
           js_elem "--check" argv = true ∧ content_at d' (outputPath repositoryRoot) ≠ Some (bill_text value))
  end.

Definition billing (argv : list string) (d : Disk) (r : outcome sync_error nat) (d' : Disk) : Prop :=
  match r with
  | Ret n => ∃ lockBytes lock metadata packages value, inputs d lockBytes lock metadata ∧
      billed sha256 lockBytes lock metadata (Ret (packages, value)) ∧ n = length packages ∧
      content_at d' (outputPath repositoryRoot) = Some (bill_text value) ∧ accepted lockBytes (bill_text value)
  | Throw e => refused argv d d' e
  end.

Lemma runs_parsed {A} (parse : string → option A) text Q (d : Disk) :
  match parse text with Some a => Q (Ret a) d [] | None => Q (Throw syntax_error) d [] end →
  runs (parsed parse text) Q d.
Proof. unfold parsed. intros HQ. apply runs_lift. by destruct (parse text). Qed.

Lemma output_runs argv d lockBytes lock metadata packages value (s : Disk) :
  inputs d lockBytes lock metadata → billed sha256 lockBytes lock metadata (Ret (packages, value)) →
  runs ((if js_elem "--check" argv then
           current ← fs (tr_readFile (outputPath repositoryRoot));
           io_lift (guard_throw (String.eqb current (bill_text value)) (failure "Native SBOM is stale"))
         else fs (tr_writeFile (outputPath repositoryRoot) (bill_text value)));;
        mret (length packages)) (λ r d' _, billing argv d r d') s.
Proof.
  intros Hin Hb.
  assert (∀ d', content_at d' (outputPath repositoryRoot) = Some (bill_text value) → billing argv d (Ret (length packages)) d') as Hok.
  { intros d' Hd'. exists lockBytes, lock, metadata, packages, value. split_and!; try done.
    destruct Hb as (? & ? & ? & ? & _ & _ & _ & _ & _ & _ & ->). intros manifest. apply bill_is_accepted. }
  apply runs_bind. destruct (js_elem "--check" argv) eqn:Hc.
  - apply runs_bind, runs_call. intros [current|e] s' Hs; [|done].
    pose proof (readFile_reads (outputPath repositoryRoot) s current) as Hr. rewrite Hs in Hr. specialize (Hr eq_refl).
    pose proof (readFile_unchanged (outputPath repositoryRoot) s) as [_ Hu]. rewrite Hs in Hu. cbn in Hu.
    apply runs_lift. destruct (String.eqb_spec current (bill_text value)) as [->|Hne]; cbn [guard_throw].
    + apply runs_ret, Hok. by rewrite Hu.
    + right. exists lockBytes, lock, metadata. split; [done|]. right. exists packages, value. split_and!; try done.
      rewrite Hu, Hr. congruence.
  - apply runs_call. intros [[]|e] s' Hs; [|done].
    pose proof (writeFile_writes (outputPath repositoryRoot) (bill_text value) s) as Hw. rewrite Hs in Hw.
    apply runs_ret, Hok. by apply Hw.
Qed.

Lemma main_billing argv (d : Disk) :
  runs (main sha256 localeCompare parse_lock parse_metadata repositoryRoot argv) (λ r d' _, billing argv d r d') d.
Proof.
  unfold main. apply runs_bind, runs_call. intros [lockBytes|e] s Hs; [|done].
  pose proof (readFile_reads (lockPath repositoryRoot) d lockBytes) as Hr. rewrite Hs in Hr. specialize (Hr eq_refl).
  pose proof (readFile_unchanged (lockPath repositoryRoot) d) as Hu. rewrite Hs in Hu. cbn in Hu.
  apply runs_bind, runs_parsed. destruct (parse_lock lockBytes) as [lock|] eqn:Hlock; [|done].
  apply runs_bind. unfold cargoMetadata. apply runs_bind, runs_call. intros [child|e] s' Hs'; [|done].
  assert ((tr_spawn (CARGO_METADATA repositoryRoot) s).1 = Ret child) as Hspawn by (by rewrite Hs').
  destruct (Z.eqb_spec (exitCode child) 0) as [Hz|Hz]; cbn [negb].
  2:{ apply runs_throw. left. by exists s, child. }
  apply runs_parsed. destruct (parse_metadata (stdout child)) as [metadata|] eqn:Hm; [|done].
  assert (inputs d lockBytes lock metadata) as Hin by (split_and!; [done|done|by exists s, child]).
  apply runs_bind, runs_lift. pose proof (make_bill_billed sha256 localeCompare lockBytes lock metadata) as Hb.
  destruct (make_bill _ _ _ _ _) as [[packages value]|e].
  - eapply runs_mono; [by apply (output_runs argv d lockBytes lock metadata packages value s')|]. by intros.
  - assert (∃ m, e = failure m) as [m ->] by (destruct Hb as [[-> _]|[-> _]]; by eexists).
    right. exists lockBytes, lock, metadata. split; [done|by left].
Qed.
End command_facts.

(** C16: the bill of materials.  When the script returns, after writing or after
    checking, the file holds the bill of the locked packages: one line for each
    package that the bridge reaches by dependencies that are not only for its
    tests, with its version, its source, its license and its locked checksum, and
    the references of all it needs, which are lines of the bill themselves; and the
    vendoring check accepts it with the pinned manifest and that lock file.
    Otherwise a file or a program failed, an input did not parse, there is no
    bridge package, a package of the graph is unknown, or the checked file is
    another; the search of the graph always ends. *)
Theorem bill_of_materials_is_complete {Disk} `{SourceTree Disk} `{JsonText} writes
    (laws : SourceTreeLaws Disk writes) (sha256 : string → string) (localeCompare : string → string → Z)
    (parse_lock : string → option (list LockEntry)) (parse_metadata : string → option CargoMetadata)
    (repositoryRoot : path) (argv : list string) (d : Disk) :
  let '(r, d', _) := main sha256 localeCompare parse_lock parse_metadata repositoryRoot argv d in
  billing sha256 parse_lock parse_metadata repositoryRoot argv d r d'.
Proof. exact (main_billing sha256 localeCompare parse_lock parse_metadata repositoryRoot argv d). Qed.

(** ** An example: a cycle, and a package for tests only *)

Definition sample_package (name : string) (source : option string) : CargoPackage :=
  {| pk_id := name ++ "#1"; pk_name := name; pk_version := "1.0.0"; pk_source := source; pk_license := Some "MIT" |}.
Definition sample_node (name : string) (deps : list (string * option (list (option string)))) : CargoNode :=
  {| nd_id := name ++ "#1";
     nd_deps := (λ d : string * option (list (option string)), {| dp_pkg := d.1 ++ "#1"; dp_kinds := d.2 |}) <$> deps |}.
Definition sample_graph : CargoMetadata := {|
  cm_packages := sample_package "codex-bridge" None ::
    ((λ name, sample_package name (Some "registry")) <$> ["alpha"; "gamma"; "tests"; "unused"]);
  cm_nodes := [
    sample_node "codex-bridge" [("alpha", None); ("tests", Some [Some "dev"])];
    sample_node "alpha" [("gamma", Some [None; Some "dev"])];
    sample_node "gamma" [("alpha", Some [Some "build"]); ("tests", Some [Some "dev"])];
    sample_node "tests" []; sample_node "unused" []] |}.
Definition sample_lock : list LockEntry := [
  {| le_name := "alpha"; le_version := "1.0.0"; le_source := None; le_checksum := Some "wrong" |};
  {| le_name := "alpha"; le_version := "1.0.0"; le_source := Some "registry"; le_checksum := Some "abc" |}].

Definition sample_compare (a b : string) : Z := if bool_decide (str_le a b) then -1 else 1.
Definition sample_disk : repo := {|
  rp_nodes := [([], n_directory); (["r"], n_directory); (["r"; "native"], n_directory);
    (["r"; "native"; "upstream"], n_directory); (["r"; "native"; "Cargo.lock"], n_file "lock")];
  rp_reply := λ _, {| exitCode := 0; stdout := "graph" |};
  rp_plan := [] |}.
Definition sample_bill_main (argv : list string) : Io.io repo sync_error nat :=
  main (H := repo_tree (λ _, [])) (H0 := bits_json) sample_digest sample_compare (λ _, Some sample_lock)
    (λ text, if String.eqb text "graph" then Some sample_graph else None) ["r"] argv.

(** Written, then checked; a stale bill is refused. *)
Lemma bill_of_materials_is_complete_witness :
  let billing' := billing (H := repo_tree (λ _, [])) (H0 := bits_json) sample_digest (λ _, Some sample_lock)
    (λ text, if String.eqb text "graph" then Some sample_graph else None) ["r"] in
  let written := (sample_bill_main [] sample_disk).1.2 in
  (sample_bill_main [] sample_disk).1.1 = Ret 3 ∧
  (let '(r, d', _) := sample_bill_main [] sample_disk in billing' [] sample_disk r d') ∧
  (sample_bill_main ["--check"] written).1.1 = Ret 3 ∧
  (let '(r, d', _) := sample_bill_main ["--check"] written in billing' ["--check"] written r d') ∧
  (sample_bill_main ["--check"] sample_disk).1.1 ≠ Ret 3.
Proof.
  intros billing' written. split_and!.
  - vm_compute. reflexivity.
  - apply (bill_of_materials_is_complete (H0 := bits_json) (git_writes ["r"]) (repo_laws (λ _, []) ["r"]) sample_digest sample_compare).
  - vm_compute. reflexivity.
  - apply (bill_of_materials_is_complete (H0 := bits_json) (git_writes ["r"]) (repo_laws (λ _, []) ["r"]) sample_digest sample_compare).
  - vm_compute. discriminate.
Defined.
