(* ===== verification/Package.v ===== *)
(** * Package

    [src/scripts/assemble-native-artifact.ts] and
    [src/scripts/assemble-package.ts]: an artifact is made of an executable and a
    manifest that describes it, and a package of the sources and the artifacts whose
    executables are what their manifests say.

    Both run on the files of a [Workspace]; [FileAccess] is what else they call. *)

From Stdlib Require Import Lia.
From S2P Require Import Prelude StructuredJson Io Paths Workspace Json Protocol JsRegex Launch Vendor.

(** Files one by one: whole, by size, and the entries of a directory, each with
    whether it is a directory. *)
Class FileAccess (Disk : Type) := {
  fa_readFile : path → Disk → outcome errno string * Disk;
  fa_writeFile : path → string → Disk → outcome errno unit * Disk;
  fa_copyFile : path → path → Disk → outcome errno unit * Disk;
  fa_size : path → Disk → outcome errno Z * Disk;
  fa_readdir : path → Disk → outcome errno (list (string * bool)) * Disk }.

(** What the calls promise; a directory that a file is in is listed. *)
Class FileAccessLaws (Disk : Type) `{Workspace Disk} `{FileAccess Disk} := {
  fa_readFile_keeps p d : kept_outside [] d (fa_readFile p d).2;
  fa_readFile_reads p d bytes : (fa_readFile p d).1 = Ret bytes → file d p = Some bytes;
  fa_writeFile_keeps p bytes d : kept_outside [p] d (fa_writeFile p bytes d).2;
  fa_writeFile_writes p bytes d : (fa_writeFile p bytes d).1 = Ret tt → file (fa_writeFile p bytes d).2 p = Some bytes;
  fa_copyFile_keeps p q d : kept_outside [q] d (fa_copyFile p q d).2;
  fa_copyFile_copies p q d : (fa_copyFile p q d).1 = Ret tt →
    ∃ bytes, file d p = Some bytes ∧ file (fa_copyFile p q d).2 q = Some bytes;
  fa_size_keeps p d : kept_outside [] d (fa_size p d).2;
  fa_size_counts p d n bytes : (fa_size p d).1 = Ret n → file d p = Some bytes → n = Z.of_nat (String.length bytes);
  fa_readdir_keeps p d : kept_outside [] d (fa_readdir p d).2;
  fa_readdir_lists p d entries : (fa_readdir p d).1 = Ret entries →
    NoDup entries.*1 ∧ Forall is_component entries.*1 ∧
    ∀ name rel, is_component name → rel ≠ [] → file d (p ++ name :: rel) ≠ None → (name, true) ∈ entries;
  read_is_file d p : normal p → ws_read d (path_text p) = file d p;
  stream_is_file d p : normal p → String.concat "" <$> ws_stream d (path_text p) = file d p }.

(** ** Arguments *)

(** [argv.indexOf(name)], and the value after it. *)
Definition value_after (name : string) (argv : list string) : option string :=
  found ← list_find (λ a, a = name) argv; argv !! S found.1.

Definition argument (name : string) (argv : list string) : outcome sync_error (option string) :=
  if js_elem name argv then
    match value_after name argv with
    | Some value => guard_throw (negb (starts_with "--" value)) (failure (name ++ " requires a value"));; Ret (Some value)
    | None => Throw (failure (name ++ " requires a value"))
    end
  else Ret None.

Definition requiredArgument (name : string) (argv : list string) : outcome sync_error string :=
  match value_after name argv with
  | Some value => guard_throw (negb (starts_with "--" value)) (failure (name ++ " requires a value"));; Ret value
  | None => Throw (failure (name ++ " requires a value"))
  end.

(** [/^[A-Za-z0-9][A-Za-z0-9._-]*$/] *)
Definition alphanumeric (c : ascii) : bool := is_alpha c || is_digit c.
Definition target_rest (c : ascii) : bool :=
  alphanumeric c || Ascii.eqb c "." || Ascii.eqb c "_" || Ascii.eqb c "-".
Definition plain_target (target : string) : bool :=
  match target with String c rest => alphanumeric c && str_forall target_rest rest | EmptyString => false end.

Definition resolveArtifactOutput (target : string) (artifactsRoot : path) : outcome sync_error path :=
  guard_throw (plain_target target) (failure "--target must be a plain target directory name");;
  let output := resolve_from artifactsRoot target in
  guard_throw (negb (escapes (relative_text artifactsRoot output)))
    (failure "--target must name a child directory of native/artifacts");;
  Ret output.

Definition isSafeFileName (value : jsval) : bool :=
  match value with
  | VStr s => negb (String.eqb s "") && negb (String.eqb s ".") && negb (String.eqb s "..") &&
      negb (includes "/" s) && negb (includes "\" s) && negb (includes ":" s)
  | _ => false
  end.

(** ** [assemble-native-artifact.ts] *)

Definition manifest_value (target executable : string) (size : Z) (sha256 commit : string) : jsval := VObj [
  ("schemaVersion", VNum (num_of_Z 1)); ("target", VStr target); ("executable", VStr executable);
  ("executableSize", VNum (num_of_Z size)); ("executableSha256", VStr sha256);
  ("projectSourceCommit", VStr commit); ("bridgeProtocolVersion", VNum (num_of_Z BRIDGE_PROTOCOL_VERSION));
  ("officialCodexVersion", VStr OFFICIAL_CODEX_VERSION); ("officialCodexTag", VStr OFFICIAL_CODEX_TAG);
  ("officialSourceCommit", VStr OFFICIAL_SOURCE_COMMIT); ("vendorTreeSha256", VStr VENDOR_TREE_SHA256)].

Section package.
Context {Disk : Type} `{Workspace Disk} `{FileAccess Disk} `{JsonText} (sha256Hex : string → string).
(** The working directory, and the directory above the scripts. *)
Context (cwd repositoryRoot : path).

Abbreviation io A := (Io.io Disk sync_error A).
Definition on_disk {A} (op : Disk → outcome errno A * Disk) : io A := io_call platform_error op.

Definition artifactsRoot : path := resolve_in cwd ["native"; "artifacts"].

Definition assemble_into (output executable : path) (target sourceCommit : string) : io unit :=
  on_disk (ws_rm output);;
  on_disk (ws_mkdir output);;
  let executableName := basename executable in
  let destination := resolve_from output executableName in
  on_disk (fa_copyFile executable destination);;
  bytes ← on_disk (fa_readFile destination);
  size ← on_disk (fa_size destination);
  let manifest := manifest_value target executableName size (sha256Hex bytes) sourceCommit in
  on_disk (fa_writeFile (resolve_from output "native-artifact.json") (stringify_indented manifest ++ line_feed)%string).

Definition assembleNativeArtifact (argv : list string) : io unit :=
  target ← io_lift (requiredArgument "--target" argv);
  executable ← io_lift (requiredArgument "--executable" argv);
  sourceCommit ← io_lift (requiredArgument "--source-commit" argv);
  io_lift (guard_throw (is_hex 40 sourceCommit)
    (failure "--source-commit must be a 40-character Git object id"));;
  output ← io_lift (resolveArtifactOutput target artifactsRoot);
  assemble_into output (resolve_from cwd executable) target sourceCommit.

(** ** [assemble-package.ts] *)

Definition stagingDirectory : path := resolve_from repositoryRoot "dist/package".

(** An empty argument counts as none. *)
Definition nativeArtifactsDirectory (argument : option string) : path :=
  match argument with
  | Some a => if String.eqb a "" then resolve_from repositoryRoot "native/bin" else resolve_from cwd a
  | None => resolve_from repositoryRoot "native/bin"
  end.

(** [Promise.all]: all of them run, and the first failure is the answer. *)
Definition both (m n : io unit) : io unit := λ d,
  let '(r1, d1, t1) := m d in
  let '(r2, d2, t2) := n d1 in
  (match r1 with Ret _ => r2 | Throw e => Throw e end, d2, t1 ++ t2).
Definition all_of (l : list (io unit)) : io unit := foldr both (mret tt) l.

Definition copy_artifact (sourceRoot : path) (target : string) : io unit :=
  let source := resolve_from sourceRoot target in
  let manifestPath := resolve_from source "native-artifact.json" in
  text ← on_disk (fa_readFile manifestPath);
  manifest ← io_lift (match json_parse text with Some v => Ret v | None => Throw syntax_error end);
  schemaVersion ← io_lift (prop manifest "schemaVersion");
  manifest_target ← io_lift (prop manifest "target");
  io_lift (guard_throw (is_one schemaVersion && is_value manifest_target target)
    (failure ("Native artifact manifest is invalid for " ++ target)%string));;
  manifest_executable ← io_lift (prop manifest "executable");
  io_lift (guard_throw (isSafeFileName manifest_executable)
    (failure ("Native artifact executable path is invalid for " ++ target)%string));;
  let name := match manifest_executable with VStr s => s | _ => "" end in
  let executable := resolve_from source name in
  bytes ← on_disk (fa_readFile executable);
  sha256 ← io_lift (prop manifest "executableSha256");
  size ← io_lift (prop manifest "executableSize");
  io_lift (guard_throw (is_value sha256 (sha256Hex bytes) && is_num (Z.of_nat (String.length bytes)) size)
    (failure ("Native artifact checksum mismatch for " ++ target)%string));;
  let destination := resolve_in stagingDirectory ["native"; "bin"; target] in
  on_disk (ws_mkdir destination);;
  on_disk (ws_cp executable (resolve_from destination name));;
  on_disk (ws_cp manifestPath (resolve_from destination "native-artifact.json")).

Definition copyNativeArtifacts (sourceRoot : path) : io unit :=
  entries ← on_disk (fa_readdir sourceRoot);
  let targets := js_sort (filter (λ entry, entry.2 = true) entries).*1 in
  io_lift (guard_throw (negb (bool_decide (targets = []))) (failure "No native artifact targets were found"));;
  for_each (copy_artifact sourceRoot) targets.

(** [delete packageJson.x] for the fields of development. *)
Definition DELETED : list string := ["devDependencies"; "files"; "overrides"; "scripts"].
Definition without_development (v : jsval) : outcome sync_error jsval :=
  match v with
  | VObj fs => Ret (VObj (filter (λ kv, kv.1 ∉ DELETED) fs))
  | VNull | VUndef => Throw type_error
  | _ => Ret v
  end.

(** What it logs is the staging directory. *)
Definition assemblePackage (argv : list string) : io path :=
  nativeArtifactsArgument ← io_lift (argument "--native-artifacts-dir" argv);
  let from_root name := resolve_from repositoryRoot name in
  let staged name := resolve_from stagingDirectory name in
  on_disk (ws_rm stagingDirectory);;
  on_disk (ws_mkdir stagingDirectory);;
  all_of [on_disk (ws_cp (from_root "LICENSE") (staged "LICENSE"));
          on_disk (ws_cp (from_root "README.md") (staged "README.md"));
          on_disk (ws_cp (from_root "src") (staged "src"))];;
  copyNativeArtifacts (nativeArtifactsDirectory nativeArtifactsArgument);;
  text ← on_disk (fa_readFile (from_root "package.json"));
  packageJson ← io_lift (match json_parse text with Some v => Ret v | None => Throw syntax_error end);
  published ← io_lift (without_development packageJson);
  on_disk (fa_writeFile (staged "package.json") (stringify_indented published ++ line_feed)%string);;
  mret stagingDirectory.

(** What both parts of [both] keep, it keeps. *)
Lemma moves_both (R : Disk → Disk → Prop) `{!PreOrder R} (m n : io unit) : moves R m → moves R n → moves R (both m n).
Proof.
  intros Hm Hn d. specialize (Hm d). unfold runs, both in *. destruct (m d) as [[r1 d1] t1]. specialize (Hn d1).
  unfold runs in Hn. destruct (n d1) as [[r2 d2] t2]. by eapply (moves_chain _).
Qed.
Lemma throws_both (P : sync_error → Prop) (m n : io unit) : throws P m → throws P n → throws P (both m n).
Proof.
  intros Hm Hn d. specialize (Hm d). unfold runs, both in *. destruct (m d) as [[r1 d1] t1]. specialize (Hn d1).
  unfold runs in Hn. destruct (n d1) as [[r2 d2] t2]. by destruct r1.
Qed.
End package.
