(* ===== verification/PackageFacts.v ===== *)
(** * PackageFacts

    An artifact that was assembled and packaged is accepted where the bridge is
    launched: what [Package] writes is what [Launch] verifies. *)

From Stdlib Require Import Lia.
From S2P Require Import Prelude StructuredJson Io Paths Workspace Json Protocol JsRegex LocalNative LocalNativeFacts Launch LaunchFacts.
From S2P Require Import Vendor VendorFacts Package.

(** ** Names *)

Lemma plain_target_component target : plain_target target = true → is_component target.
Proof.
  destruct target as [|c rest]; [done|]. cbn [plain_target]. intros [Hc Hrest]%andb_true_iff.
  assert (c ≠ "."%char ∧ c ≠ SEP) as [Hd Hs] by (split; intros ->; done).
  unfold is_component. split_and!; [done|congruence|congruence|].
  unfold has_unit. cbn [str_exists]. apply orb_false_iff. split; [apply Ascii.eqb_neq; congruence|].
  unfold str_forall in Hrest. apply negb_true_iff in Hrest. clear -Hrest.
  induction rest as [|d rest IH]; [done|]. cbn [str_exists] in *. apply orb_false_iff in Hrest as [Hd Hrest].
  apply orb_false_iff. split; [|auto]. apply Ascii.eqb_neq. by intros <-.
Qed.

Lemma safe_component v : isSafeFileName v = true → ∃ name, v = VStr name ∧ is_component name.
Proof.
  destruct v as [| | | |name| | |]; try done. cbn [isSafeFileName]. rewrite !andb_true_iff, !negb_true_iff, !String.eqb_neq.
  intros [[[[[? ?] ?] Hs] _] _]. exists name. split; [done|]. split_and!; try done. by rewrite <- includes_unit.
Qed.

Lemma expected_safe target : isSafeFileName (VStr (expectedExecutableName target)) = true.
Proof. unfold expectedExecutableName. by destruct (String.eqb _ _). Qed.

Lemma expected_component target : is_component (expectedExecutableName target) ∧ expectedExecutableName target ≠ "native-artifact.json".
Proof. unfold expectedExecutableName, is_component. by destruct (String.eqb _ _). Qed.

Lemma manifest_component : is_component "native-artifact.json".
Proof. done. Qed.

Lemma apart_below p q a b : apart p q → apart (p ++ a) (q ++ b).
Proof.
  intros Ha. split; intros [k Hk]; rewrite <- app_assoc in Hk.
  - apply (prefix_apart p q b Ha). by eexists.
  - apply (prefix_apart q p a (apart_sym _ _ Ha)). rewrite Hk. by eexists.
Qed.

Section facts.
Context {Disk} `{Workspace Disk} `{FileAccess Disk} `{JsonText}.
Context {read_only : list string → Prop} {laws : WorkspaceLaws Disk read_only} {access : FileAccessLaws Disk}.
Context (sha256Hex : string → string).
Implicit Types s : Disk.

Lemma file_kept roots s s' p : kept_outside roots s s' → Forall (λ r, ¬ r `prefix_of` p) roots → file s' p = file s p.
Proof. intros Hk. apply Hk. Qed.

(** ** An artifact *)

Definition manifest_text (target executable bytes commit : string) : string :=
  (stringify_indented (manifest_value target executable (Z.of_nat (String.length bytes)) (sha256Hex bytes) commit) ++
   line_feed)%string.

(** The manifest and the executable it describes. *)
Record artifact (s : Disk) (dir : path) (target executable bytes commit : string) : Prop := {
  ar_manifest : file s (dir ++ ["native-artifact.json"]) = Some (manifest_text target executable bytes commit);
  ar_executable : file s (dir ++ [executable]) = Some bytes }.

Lemma manifest_parses target executable bytes commit :
  ∃ fields, json_parse (manifest_text target executable bytes commit) = Some (VObj fields) ∧
    field fields "schemaVersion" = VNum (num_of_Z 1) ∧
    field fields "target" = VStr target ∧
    field fields "executable" = VStr executable ∧
    field fields "executableSize" = VNum (num_of_Z (Z.of_nat (String.length bytes))) ∧
    field fields "executableSha256" = VStr (sha256Hex bytes) ∧
    field fields "projectSourceCommit" = VStr commit ∧
    field fields "bridgeProtocolVersion" = VNum (num_of_Z BRIDGE_PROTOCOL_VERSION) ∧
    field fields "officialCodexVersion" = VStr OFFICIAL_CODEX_VERSION ∧
    field fields "officialCodexTag" = VStr OFFICIAL_CODEX_TAG ∧
    field fields "officialSourceCommit" = VStr OFFICIAL_SOURCE_COMMIT ∧
    field fields "vendorTreeSha256" = VStr VENDOR_TREE_SHA256.
Proof.
  unfold manifest_text. destruct (json_parse_indented (manifest_value target executable (Z.of_nat (String.length bytes)) (sha256Hex bytes) commit))
    as (v & Hv & Hj); [done|done|]. symmetry in Hj.
  apply jseq_obj_iff in Hj as (fields & Hr & _ & Hf); [|by apply (bool_decide_unpack _); vm_compute].
  assert (v = VObj fields) as -> by (by destruct v; naive_solver). exists fields. split; [done|].
  repeat (apply Forall_cons in Hf as [?H Hf]). cbn [fst snd] in *.
  rewrite jseq_num_iff in *. rewrite !jseq_str_iff in *. done.
Qed.

(** It is what [Launch] accepts. *)
Lemma artifact_is_accepted (cwd root : path) s target bytes commit :
  normal root → is_component target → bytes ≠ "" → is_hex 40 commit = true → is_hex 64 (sha256Hex bytes) = true →
  let exe := expectedExecutableName target in
  artifact s (root ++ ["native"; "bin"; target]) target exe bytes commit →
  verifyPackagedBridgeArtifact (λ texts, path_text (resolve_in cwd texts)) sha256Hex (ws_read s) (ws_stream s) (path_text root) target =
    Ret (path_text (root ++ ["native"; "bin"; target; exe]),
         {| mf_target := target; mf_executable := exe; mf_executableSize := Z.of_nat (String.length bytes);
            mf_executableSha256 := sha256Hex bytes; mf_projectSourceCommit := commit |}).
Proof.
  intros Hroot Ht Hb Hc Hs exe [Hm He].
  assert (∀ name, is_component name → normal (root ++ ["native"; "bin"; target; name]) ∧
    path_text (resolve_in cwd [path_text root; "native"; "bin"; target; name]) = path_text (root ++ ["native"; "bin"; target; name]))
    as Hres.
  { intros name Hname. assert (Forall is_component ["native"; "bin"; target; name]) as Hall
      by (repeat (apply Forall_cons_2; [done|]); constructor).
    split; [by apply normal_app|]. unfold resolve_in. cbn [fold_left]. rewrite resolve_path_text by done.
    by rewrite <- (resolve_components root _ Hall). }
  destruct (expected_component target) as [Hec _]. fold exe in Hec.
  destruct (Hres _ manifest_component) as [Hn1 Hr1]. destruct (Hres exe Hec) as [Hn2 Hr2].
  unfold verifyPackagedBridgeArtifact, resolveBridgeArtifactManifest. rewrite Hr1.
  rewrite <- app_assoc in Hm, He. cbn [app] in Hm, He. rewrite read_is_file, Hm by done.
  destruct (manifest_parses target exe bytes commit) as (fields & Hp & Hf). rewrite Hp.
  set (m := {| mf_target := target |}).
  assert (parseNativeArtifactManifest (VObj fields) target = Ret m) as ->.
  { apply parseNativeArtifactManifest_iff. exists fields. destruct_and! Hf. split_and!; try done. cbn. destruct bytes; [done|cbn; lia]. }
  cbn [mbind outcome_bind]. change (mf_executable m) with exe. rewrite Hr2. unfold hashFileSha256.
  pose proof (stream_is_file s _ Hn2) as Hst. rewrite He in Hst.
  destruct (ws_stream s _) as [chunks|]; [|done]. cbn in Hst. injection Hst as Hst. cbn [mbind option_bind].
  rewrite chunks_length, Hst, Z.add_0_l. cbn [mf_executableSize mf_executableSha256 m]. by rewrite Z.eqb_refl, String.eqb_refl.
Qed.

(** ** Assembling the artifact *)

Context (cwd repositoryRoot : path).
Abbreviation root := (artifactsRoot cwd).
Abbreviation staging := (stagingDirectory repositoryRoot).

Lemma moves_disk {A} roots (op : Disk → outcome errno A * Disk) :
  (∀ s, kept_outside roots s (op s).2) → moves (kept_outside roots) (on_disk op).
Proof. apply moves_call. Qed.

Lemma kept_more roots roots' s s' :
  Forall (λ r, ∃ r', r' ∈ roots' ∧ r' `prefix_of` r) roots → kept_outside roots s s' → kept_outside roots' s s'.
Proof.
  intros Hr Hk p Hp. apply Hk. rewrite Forall_forall in Hr |- *. rewrite Forall_forall in Hp.
  intros r Hin Hpre. destruct (Hr r Hin) as (r' & Hr' & Hpre'). apply (Hp r' Hr'). by etransitivity.
Qed.
Lemma kept_none roots s s' : kept_outside [] s s' → kept_outside roots s s'.
Proof. apply kept_more. constructor. Qed.
Lemma kept_in roots r rest s s' : r ∈ roots → kept_outside [r ++ rest] s s' → kept_outside roots s s'.
Proof. intros Hr. apply kept_more, Forall_singleton. exists r. split; [done|by eexists]. Qed.

Lemma normal_basename p : normal p → is_component (basename p) ∨ basename p = "".
Proof.
  intros Hp. unfold basename. destruct p as [|c p _] using rev_ind; [by right|]. left. rewrite last_last.
  apply normal_app in Hp as [_ Hc]. exact (Forall_inv Hc).
Qed.

Lemma assemble_moves output executable target commit :
  normal executable → moves (kept_outside [output]) (assemble_into sha256Hex output executable target commit).
Proof.
  intros He%normal_basename. unfold assemble_into. rewrite (resolve_from_component _ "native-artifact.json") by apply manifest_component.
  assert (output ∈ [output]) as Hin by set_solver.
  assert (∃ rest, resolve_from output (basename executable) = output ++ rest) as (rest & ->).
  { destruct He as [He| ->]; [exists [basename executable]; by apply resolve_from_component|exists []; by rewrite app_nil_r]. }
  repeat first [apply (moves_bind _); [|intros ?]|apply moves_disk; intros s].
  - apply rm_keeps.
  - apply kept_none, mkdir_keeps.
  - apply (kept_in _ output rest), fa_copyFile_keeps; done.
  - apply kept_none, fa_readFile_keeps.
  - apply kept_none, fa_size_keeps.
  - apply (kept_in _ output ["native-artifact.json"]), fa_writeFile_keeps; done.
Qed.

(** What is written is an artifact with the bytes of the executable. *)
Lemma assemble_runs output executable target commit s :
  is_component (basename executable) → basename executable ≠ "native-artifact.json" →
  runs (assemble_into sha256Hex output executable target commit) (λ r s' _, r = Ret tt →
    ∃ bytes, file s executable = Some bytes ∧ artifact s' output target (basename executable) bytes commit) s.
Proof.
  intros Hc Hne. unfold assemble_into. rewrite !resolve_from_component by done.
  apply runs_bind, runs_call. intros [[]|e] s1 E1; [|done].
  pose proof (rm_removes output s) as Hrm. pose proof (rm_keeps output s) as Hk1. rewrite E1 in Hrm, Hk1. specialize (Hrm eq_refl).
  apply runs_bind, runs_call. intros [[]|e] s2 E2; [|done]. pose proof (mkdir_keeps output s1) as Hk2. rewrite E2 in Hk2.
  apply runs_bind, runs_call. intros [[]|e] s3 E3; [|done].
  pose proof (fa_copyFile_copies executable (output ++ [basename executable]) s2) as Hcopy. rewrite E3 in Hcopy.
  destruct (Hcopy eq_refl) as (bytes & Hsrc & Hdst). clear Hcopy.
  apply runs_bind, runs_call. intros [bytes'|e] s4 E4; [|done].
  pose proof (fa_readFile_reads (output ++ [basename executable]) s3 bytes') as Hr. rewrite E4 in Hr. specialize (Hr eq_refl).
  cbn in Hdst. rewrite Hdst in Hr. injection Hr as <-.
  pose proof (fa_readFile_keeps (output ++ [basename executable]) s3) as Hk4. rewrite E4 in Hk4.
  apply runs_bind, runs_call. intros [size|e] s5 E5; [|done].
  pose proof (fa_size_keeps (output ++ [basename executable]) s4) as Hk5. rewrite E5 in Hk5.
  assert (file s4 (output ++ [basename executable]) = Some bytes) as Hd4 by (by rewrite (file_kept [] s3 s4)).
  pose proof (fa_size_counts (output ++ [basename executable]) s4 size bytes) as Hsize. rewrite E5 in Hsize.
  rewrite (Hsize eq_refl Hd4). clear Hsize.
  apply runs_call. intros r s6 E6 Hret. destruct r as [[]|e]; [|done].
  pose proof (fa_writeFile_writes (output ++ ["native-artifact.json"]) (manifest_text target (basename executable) bytes commit) s5) as Hw.
  pose proof (fa_writeFile_keeps (output ++ ["native-artifact.json"]) (manifest_text target (basename executable) bytes commit) s5) as Hk6.
  unfold manifest_text in Hw, Hk6. rewrite E6 in Hw, Hk6. exists bytes. split.
  - destruct (decide (output `prefix_of` executable)) as [[rel ->]|Hout].
    + rewrite (file_kept [] s1 s2) in Hsrc by done. specialize (Hrm rel). unfold no_tree in Hrm. cbn in Hrm. congruence.
    + rewrite <- Hsrc, (file_kept [] s1 s2), (file_kept [output] s s1) by (done || by apply Forall_singleton). done.
  - split; [by apply Hw|]. rewrite (file_kept [output ++ ["native-artifact.json"]] s5 s6), (file_kept [] s4 s5); try done.
    apply Forall_singleton. by apply siblings_apart.
Qed.

(** ** Packaging it *)

(** Copying one file to where nothing is. *)
Lemma copied_file p q s s' :
  apart p q → holds s q no_tree → ws_cp p q s = (Ret tt, s') → file s' q = file s p.
Proof.
  intros Hap Hno He. pose proof (cp_copies p q s Hap Hno) as Hc. rewrite He in Hc. specialize (Hc eq_refl []).
  cbn in Hc. unfold tree_at in Hc. by rewrite !app_nil_r in Hc.
Qed.

Definition place (target : string) : path := staging ++ ["native"; "bin"; target].

Lemma place_resolves target : is_component target → resolve_in staging ["native"; "bin"; target] = place target.
Proof. intros Ht. apply resolve_components. repeat (apply Forall_cons_2; [done|]). constructor. Qed.

Lemma places_apart a b : a ≠ b → apart (place a) (place b).
Proof.
  intros Hab. unfold place. change ["native"; "bin"; a] with (["native"; "bin"] ++ [a]).
  change ["native"; "bin"; b] with (["native"; "bin"] ++ [b]). rewrite !app_assoc. by apply siblings_apart.
Qed.

Lemma moves_guard {A} roots b e (m : Io.io Disk sync_error A) :
  (b = true → moves (kept_outside roots) m) → moves (kept_outside roots) (io_lift (guard_throw b e);; m).
Proof. intros Hm. destruct b; [by apply (moves_bind _); [apply (moves_ret _)|auto]|]. intros d. by apply Forall_singleton. Qed.

Lemma copy_moves sourceRoot target :
  is_component target → moves (kept_outside [place target]) (copy_artifact sha256Hex repositoryRoot sourceRoot target).
Proof.
  intros Ht. unfold copy_artifact. rewrite place_resolves by done.
  apply (moves_bind _); [apply moves_disk; intros s; apply kept_none, fa_readFile_keeps|intros text].
  apply (moves_bind _); [apply (moves_lift _)|intros v].
  apply (moves_bind _); [apply (moves_lift _)|intros ?].
  apply (moves_bind _); [apply (moves_lift _)|intros ?]. apply moves_guard. intros _.
  apply (moves_bind _); [apply (moves_lift _)|intros exe]. apply moves_guard.
  intros (name & -> & Hname)%safe_component. cbv zeta.
  apply (moves_bind _); [apply moves_disk; intros s; apply kept_none, fa_readFile_keeps|intros bytes].
  apply (moves_bind _); [apply (moves_lift _)|intros ?].
  apply (moves_bind _); [apply (moves_lift _)|intros ?]. apply moves_guard. intros _.
  apply (moves_bind _); [apply moves_disk; intros s; apply kept_none, mkdir_keeps|intros _].
  rewrite !resolve_from_component by done. assert (place target ∈ [place target]) as Hin by set_solver.
  apply (moves_bind _); [|intros _]; apply moves_disk; intros s;
    (eapply kept_in; [exact Hin|]; apply cp_keeps).
Qed.

Lemma artifact_kept roots s s' dir target exe bytes commit :
  kept_outside roots s s' → Forall (λ r, apart r dir) roots →
  artifact s dir target exe bytes commit → artifact s' dir target exe bytes commit.
Proof.
  intros Hk Hr [Hm He].
  assert (∀ name, file s' (dir ++ [name]) = file s (dir ++ [name])) as Hf.
  { intros name. apply Hk. eapply Forall_impl; [exact Hr|]. intros r Ha. by apply prefix_apart. }
  split; by rewrite Hf.
Qed.

Lemma copies_run source target destination exe bytes commit s :
  exe ≠ "native-artifact.json" → apart source destination →
  artifact s source target exe bytes commit → holds s destination no_tree →
  runs (on_disk (ws_cp (source ++ [exe]) (destination ++ [exe]));;
        on_disk (ws_cp (source ++ ["native-artifact.json"]) (destination ++ ["native-artifact.json"])))
    (λ (r : outcome sync_error unit) s' _, r = Ret tt → artifact s' destination target exe bytes commit) s.
Proof.
  intros Hne Hap Har Hno.
  assert (∀ name, holds s (destination ++ [name]) no_tree) as Hno'.
  { intros name rel. rewrite <- app_assoc. exact (Hno ([name] ++ rel)). }
  assert (apart (destination ++ [exe]) (destination ++ ["native-artifact.json"])) as Hsib by (by apply siblings_apart).
  apply runs_bind, runs_call. intros [[]|err] s1 E1; [|done].
  pose proof (copied_file _ _ _ _ (apart_below _ _ [exe] [exe] Hap) (Hno' exe) E1) as Hexe.
  pose proof (cp_keeps (source ++ [exe]) (destination ++ [exe]) s) as Hk. rewrite E1 in Hk. cbn [snd] in Hk.
  rewrite (ar_executable _ _ _ _ _ _ Har) in Hexe.
  apply (artifact_kept _ _ _ _ _ _ _ _ Hk) in Har.
  2:{ apply Forall_singleton, apart_sym. rewrite <- (app_nil_r source). by apply apart_below. }
  apply runs_call. intros r s2 E2 Hret. destruct r as [[]|err]; [|done]. split.
  - rewrite (copied_file _ _ _ _ (apart_below _ _ ["native-artifact.json"] ["native-artifact.json"] Hap)) with (2 := E2).
    + apply (ar_manifest _ _ _ _ _ _ Har).
    + eapply holds_kept; [exact Hk|by apply Forall_singleton|apply Hno'].
  - pose proof (cp_keeps (source ++ ["native-artifact.json"]) (destination ++ ["native-artifact.json"]) s1) as Hk2.
    rewrite E2 in Hk2. cbn [snd] in Hk2. rewrite (file_kept _ _ _ _ Hk2); [done|]. apply Forall_singleton. by destruct Hsib.
Qed.

(** The bytes and the manifest arrive. *)
Lemma copy_runs sourceRoot target bytes commit s :
  is_component target → apart sourceRoot staging →
  let exe := expectedExecutableName target in
  artifact s (sourceRoot ++ [target]) target exe bytes commit → holds s (place target) no_tree →
  runs (copy_artifact sha256Hex repositoryRoot sourceRoot target) (λ r s' _, r = Ret tt →
    artifact s' (place target) target exe bytes commit) s.
Proof.
  intros Ht Hap exe Har Hno. unfold copy_artifact. rewrite place_resolves by done.
  destruct (expected_component target) as [Hexe Hne]. fold exe in Hexe, Hne.
  rewrite (resolve_from_component sourceRoot) by done.
  rewrite !(resolve_from_component _ "native-artifact.json") by done.
  apply runs_bind, runs_call. intros [text|err] s1 E1; [|done].
  pose proof (fa_readFile_reads ((sourceRoot ++ [target]) ++ ["native-artifact.json"]) s text) as Hr. rewrite E1 in Hr.
  rewrite (ar_manifest _ _ _ _ _ _ Har) in Hr. specialize (Hr eq_refl). injection Hr as <-.
  pose proof (fa_readFile_keeps ((sourceRoot ++ [target]) ++ ["native-artifact.json"]) s) as Hk1. rewrite E1 in Hk1. cbn [snd] in Hk1.
  destruct (manifest_parses target exe bytes commit) as (fields & Hp & F1 & F2 & F3 & F4 & F5 & _).
  apply runs_bind, runs_lift. rewrite Hp. cbn [prop].
  apply runs_bind, runs_lift. rewrite F1. apply runs_bind, runs_lift. rewrite F2.
  apply runs_bind, runs_lift. cbn [is_one is_value]. rewrite String.eqb_refl, (proj2 (num_eqb_spec_Z _ _) eq_refl). cbn [guard_throw andb].
  apply runs_bind, runs_lift. rewrite F3. apply runs_bind, runs_lift.
  assert (isSafeFileName (VStr exe) = true) as -> by apply expected_safe. cbn [guard_throw].
  rewrite !(resolve_from_component _ exe) by done.
  apply (artifact_kept _ _ _ _ _ _ _ _ Hk1) in Har; [|constructor].
  apply runs_bind, runs_call. intros [bytes'|err] s2 E2; [|done].
  pose proof (fa_readFile_reads ((sourceRoot ++ [target]) ++ [exe]) s1 bytes') as Hr. rewrite E2 in Hr.
  rewrite (ar_executable _ _ _ _ _ _ Har) in Hr. specialize (Hr eq_refl). injection Hr as <-.
  pose proof (fa_readFile_keeps ((sourceRoot ++ [target]) ++ [exe]) s1) as Hk2. rewrite E2 in Hk2. cbn [snd] in Hk2.
  apply runs_bind, runs_lift. rewrite F5. apply runs_bind, runs_lift. rewrite F4. apply runs_bind, runs_lift.
  cbn [is_value is_num]. rewrite String.eqb_refl, (proj2 (num_eqb_spec_Z _ _) eq_refl). cbn [guard_throw andb].
  apply runs_bind, runs_call. intros [[]|err] s3 E3; [|done].
  pose proof (mkdir_keeps (place target) s2) as Hk3. rewrite E3 in Hk3. cbn [snd] in Hk3.
  assert (kept_outside [] s1 s3) as Hk by (etrans; [exact Hk2|exact Hk3]).
  apply copies_run; [done|by apply apart_below|by eapply artifact_kept|].
  eapply holds_kept; [exact Hk|constructor|]. by eapply holds_kept.
Qed.

(** All of them. *)
Lemma copies_moves sourceRoot targets :
  Forall is_component targets → moves (kept_outside (place <$> targets)) (for_each (copy_artifact sha256Hex repositoryRoot sourceRoot) targets).
Proof.
  intros Ht. assert (∀ l, l ⊆ targets → moves (kept_outside (place <$> targets)) (for_each (copy_artifact sha256Hex repositoryRoot sourceRoot) l)) as Hl.
  { induction l as [|t l IH]; intros Hl; [apply (moves_ret _)|]. apply (moves_bind _); [|intros _; apply IH; set_solver].
    rewrite Forall_forall in Ht. intros d. eapply runs_mono; [apply copy_moves, Ht; set_solver|].
    intros r d' tr Hd. eapply Forall_impl; [exact Hd|]. intros s Hs. apply (kept_in _ (place t) []); [|by rewrite app_nil_r].
    apply list_elem_of_fmap. exists t. split; [done|set_solver]. }
  by apply Hl.
Qed.

Lemma all_copied sourceRoot targets target bytes commit s :
  NoDup targets → Forall is_component targets → target ∈ targets → apart sourceRoot staging →
  let exe := expectedExecutableName target in
  artifact s (sourceRoot ++ [target]) target exe bytes commit → holds s (place target) no_tree →
  runs (for_each (copy_artifact sha256Hex repositoryRoot sourceRoot) targets)
    (λ r s' _, r = Ret tt → artifact s' (place target) target exe bytes commit) s.
Proof.
  intros Hnd Hc Hin Hap exe. revert s. induction Hnd as [|t targets Ht _ IH]; [set_solver|].
  intros s Har Hno. inversion Hc as [|?? Hct Hcs]; subst. apply runs_bind.
  destruct (decide (t = target)) as [->|Hne].
  - eapply runs_mono; [by apply copy_runs|]. intros [[]|e] s1 t1 H1'; [|done]. specialize (H1' eq_refl).
    eapply runs_mono; [by apply copies_moves|]. intros r s2 t2 Hk _. inversion Hk as [|?? Hk2 _]; subst.
    eapply artifact_kept; [exact Hk2| |exact H1']. apply Forall_fmap, Forall_forall. intros x Hx. apply places_apart. by intros ->.
  - eapply runs_mono; [by apply copy_moves|]. intros [[]|e] s1 t1 Hk; [|done]. inversion Hk as [|?? Hk1 _]; subst.
    apply IH; [done|set_solver|..].
    + eapply artifact_kept; [exact Hk1| |exact Har]. apply Forall_singleton. unfold place.
      apply apart_sym, apart_below. done.
    + eapply holds_kept; [exact Hk1| |exact Hno]. by apply Forall_singleton, places_apart.
Qed.

Definition directories (entries : list (string * bool)) : list string := js_sort (filter (λ entry, entry.2 = true) entries).*1.

Lemma directories_spec entries :
  NoDup entries.*1 → Forall is_component entries.*1 →
  NoDup (directories entries) ∧ Forall is_component (directories entries) ∧
  ∀ name, (name, true) ∈ entries → name ∈ directories entries.
Proof.
  intros Hnd Hc. unfold directories, js_sort.
  assert ((filter (λ entry : string * bool, entry.2 = true) entries).*1 `sublist_of` entries.*1) as Hsub
    by (apply fmap_sublist, sublist_filter).
  rewrite merge_sort_Permutation. split_and!.
  - by eapply sublist_NoDup.
  - rewrite Forall_forall in Hc |- *. intros x Hx. apply Hc. by eapply elem_of_sublist.
  - intros name Hin. rewrite merge_sort_Permutation. apply list_elem_of_fmap. exists (name, true). split; [done|].
    by apply list_elem_of_filter.
Qed.

Lemma native_moves sourceRoot : moves (kept_outside [staging]) (copyNativeArtifacts sha256Hex repositoryRoot sourceRoot).
Proof.
  intros d. unfold copyNativeArtifacts. apply runs_bind, runs_call. intros [entries|e] d1 E1.
  2:{ pose proof (fa_readdir_keeps sourceRoot d) as Hk. rewrite E1 in Hk. apply Forall_cons_2; [|apply Forall_singleton]; by apply kept_none. }
  pose proof (fa_readdir_keeps sourceRoot d) as Hk. rewrite E1 in Hk. cbn [snd] in Hk.
  pose proof (fa_readdir_lists sourceRoot d entries) as Hl. rewrite E1 in Hl. destruct (Hl eq_refl) as (Hnd & Hc & _). clear Hl.
  destruct (directories_spec entries Hnd Hc) as (Hnd' & Hc' & _).
  eapply runs_mono; [apply (moves_guard [staging])|].
  - intros _ d2. eapply runs_mono; [by apply copies_moves|]. intros r d' t Ht. eapply Forall_impl; [exact Ht|].
    intros s Hs. eapply kept_more; [|exact Hs]. apply Forall_fmap, Forall_forall. intros x _. exists staging.
    split; [set_solver|]. by eexists.
  - intros r d' t Ht. cbn [app]. rewrite Forall_cons in Ht |- *. rewrite Forall_cons. destruct Ht as [H1' H2'].
    split_and!; [etrans; [by apply kept_none|done]|by apply kept_none|].
    eapply Forall_impl; [exact H2'|]. intros s Hs. etrans; [by apply kept_none|done].
Qed.

Lemma native_runs sourceRoot target bytes commit s :
  is_component target → apart sourceRoot staging →
  let exe := expectedExecutableName target in
  artifact s (sourceRoot ++ [target]) target exe bytes commit → holds s (place target) no_tree →
  runs (copyNativeArtifacts sha256Hex repositoryRoot sourceRoot)
    (λ r s' _, r = Ret tt → artifact s' (place target) target exe bytes commit) s.
Proof.
  intros Ht Hap exe Har Hno. unfold copyNativeArtifacts. apply runs_bind, runs_call. intros [entries|e] d1 E1; [|done].
  pose proof (fa_readdir_keeps sourceRoot s) as Hk. rewrite E1 in Hk. cbn [snd] in Hk.
  pose proof (fa_readdir_lists sourceRoot s entries) as Hl. rewrite E1 in Hl. destruct (Hl eq_refl) as (Hnd & Hc & Hin). clear Hl.
  destruct (directories_spec entries Hnd Hc) as (Hnd' & Hc' & Hin'). fold (directories entries).
  apply runs_bind, runs_lift. destruct (negb _); [|done]. cbn [guard_throw]. apply all_copied; try done.
  - apply Hin', (Hin target ["native-artifact.json"]); [done..|].
    pose proof (ar_manifest _ _ _ _ _ _ Har) as Hm. rewrite <- app_assoc in Hm. cbn [app] in Hm. by rewrite Hm.
  - eapply artifact_kept; [exact Hk|constructor|done].
  - by eapply holds_kept.
Qed.

(** The three copies of the package's own files. *)
Definition own_files : list path := (λ name, staging ++ [name]) <$> ["LICENSE"; "README.md"; "src"].
Lemma own_moves (sources : list path) : length sources = 3 →
  moves (kept_outside own_files) (all_of (zip_with (λ p q, on_disk (ws_cp p q)) sources own_files)).
Proof.
  destruct sources as [|a [|b [|c [|]]]]; try done. intros _. cbn.
  repeat (apply (moves_both _); [apply moves_disk; intros s; eapply (kept_in _ _ []); [|rewrite app_nil_r; apply cp_keeps]; set_solver|]).
  apply (moves_ret _).
Qed.

Lemma own_in_staging s s' : kept_outside own_files s s' → kept_outside [staging] s s'.
Proof. apply kept_more. repeat (apply Forall_cons_2; [exists staging; split; [set_solver|by eexists]|]). constructor. Qed.

(** The script, with its steps named. *)
Lemma assemblePackage_eq argv :
  assemblePackage sha256Hex cwd repositoryRoot argv =
  (arg ← io_lift (argument "--native-artifacts-dir" argv);
   on_disk (ws_rm staging);;
   on_disk (ws_mkdir staging);;
   all_of (zip_with (λ p q, on_disk (ws_cp p q)) ((λ name, repositoryRoot ++ [name]) <$> ["LICENSE"; "README.md"; "src"]) own_files);;
   copyNativeArtifacts sha256Hex repositoryRoot (nativeArtifactsDirectory cwd repositoryRoot arg);;
   text ← on_disk (fa_readFile (repositoryRoot ++ ["package.json"]));
   packageJson ← io_lift (match json_parse text with Some v => Ret v | None => Throw syntax_error end);
   published ← io_lift (without_development packageJson);
   on_disk (fa_writeFile (staging ++ ["package.json"]) (stringify_indented published ++ line_feed)%string);;
   mret staging).
Proof. reflexivity. Qed.

Lemma package_moves argv : moves (kept_outside [staging]) (assemblePackage sha256Hex cwd repositoryRoot argv).
Proof.
  rewrite assemblePackage_eq.
  apply (moves_bind _); [apply (moves_lift _)|intros arg].
  apply (moves_bind _); [apply moves_disk; intros s; apply rm_keeps|intros _].
  apply (moves_bind _); [apply moves_disk; intros s; apply kept_none, mkdir_keeps|intros _].
  apply (moves_bind _).
  { intros d. eapply runs_mono; [by apply own_moves|]. intros r d' t Ht. eapply Forall_impl; [exact Ht|]. intros s. apply own_in_staging. }
  intros _. apply (moves_bind _); [apply native_moves|intros _].
  apply (moves_bind _); [apply moves_disk; intros s; apply kept_none, fa_readFile_keeps|intros text].
  apply (moves_bind _); [apply (moves_lift _)|intros v]. apply (moves_bind _); [apply (moves_lift _)|intros w].
  apply (moves_bind _); [|intros _; apply (moves_ret _)].
  apply moves_disk. intros s. eapply kept_in; [|apply fa_writeFile_keeps]. set_solver.
Qed.

Lemma package_runs argv dir target bytes commit s :
  argument "--native-artifacts-dir" argv = Ret dir →
  let sourceRoot := nativeArtifactsDirectory cwd repositoryRoot dir in
  is_component target → apart sourceRoot staging →
  let exe := expectedExecutableName target in
  artifact s (sourceRoot ++ [target]) target exe bytes commit →
  runs (assemblePackage sha256Hex cwd repositoryRoot argv)
    (λ r s' _, ∀ p, r = Ret p → p = staging ∧ artifact s' (place target) target exe bytes commit) s.
Proof.
  intros Harg sourceRoot Ht Hap exe Har. rewrite assemblePackage_eq.
  assert (∀ rel, apart staging (sourceRoot ++ rel)) as Hst.
  { intros rel. apply apart_sym. rewrite <- (app_nil_r staging). by apply apart_below. }
  assert (∀ name, name ≠ "native" → apart (staging ++ [name]) (place target)) as Hbeside.
  { intros name Hn. unfold place. change ["native"; "bin"; target] with (["native"] ++ ["bin"; target]).
    rewrite app_assoc, <- (app_nil_r (staging ++ [name])). by apply apart_below, siblings_apart. }
  apply runs_bind, runs_lift. rewrite Harg. fold sourceRoot.
  apply runs_bind, runs_call. intros [[]|e] s1 E1; [|done].
  pose proof (rm_removes staging s) as Hrm. pose proof (rm_keeps staging s) as Hk1. rewrite E1 in Hrm, Hk1. specialize (Hrm eq_refl).
  cbn [snd] in Hk1, Hrm. apply (artifact_kept _ _ _ _ _ _ _ _ Hk1) in Har; [|by apply Forall_singleton].
  assert (holds s1 (place target) no_tree) as Hno.
  { intros rel. unfold place. rewrite <- app_assoc. exact (Hrm (["native"; "bin"; target] ++ rel)). }
  apply runs_bind, runs_call. intros [[]|e] s2 E2; [|done].
  pose proof (mkdir_keeps staging s1) as Hk2. rewrite E2 in Hk2. cbn [snd] in Hk2.
  apply (artifact_kept _ _ _ _ _ _ _ _ Hk2) in Har; [|constructor]. apply (holds_kept [] _ _ _ _ Hk2) in Hno; [|constructor].
  apply runs_bind. eapply runs_mono; [by apply own_moves|]. intros [[]|e] s3 t3 Hk3%Forall_inv; [|done].
  apply (artifact_kept _ _ _ _ _ _ _ _ (own_in_staging _ _ Hk3)) in Har; [|by apply Forall_singleton].
  apply (holds_kept _ _ _ _ _ Hk3) in Hno.
  2:{ repeat (apply Forall_cons_2; [by apply Hbeside|]). constructor. }
  apply runs_bind. eapply runs_mono; [by apply (native_runs sourceRoot target bytes commit)|].
  intros [[]|e] s4 t4 Har4; [|done]. specialize (Har4 eq_refl).
  apply runs_bind, runs_call. intros [text|e] s5 E5; [|done].
  pose proof (fa_readFile_keeps (repositoryRoot ++ ["package.json"]) s4) as Hk5. rewrite E5 in Hk5. cbn [snd] in Hk5.
  apply (artifact_kept _ _ _ _ _ _ _ _ Hk5) in Har4; [|constructor].
  apply runs_bind, runs_lift. destruct (json_parse text) as [v|]; [|done].
  apply runs_bind, runs_lift. destruct (without_development v) as [w|e]; [|done].
  apply runs_bind, runs_call. intros [[]|e] s6 E6; [|done].
  pose proof (fa_writeFile_keeps (staging ++ ["package.json"]) (stringify_indented w ++ line_feed)%string s5) as Hk6.
  rewrite E6 in Hk6. cbn [snd] in Hk6. apply runs_ret. intros p [= <-]. split; [done|].
  eapply artifact_kept; [exact Hk6| |exact Har4]. by apply Forall_singleton, Hbeside.
Qed.

(** ** Both scripts *)

(** The arguments of the first script, when it accepts them. *)
Definition assembling (argv : list string) (target : string) (executable : path) (commit : string) : Prop :=
  requiredArgument "--target" argv = Ret target ∧
  (∃ text, requiredArgument "--executable" argv = Ret text ∧ executable = resolve_from cwd text) ∧
  requiredArgument "--source-commit" argv = Ret commit ∧
  is_hex 40 commit = true ∧ plain_target target = true.

Lemma output_iff target output :
  normal root → resolveArtifactOutput target root = Ret output ↔ plain_target target = true ∧ output = root ++ [target].
Proof.
  intros Hn. unfold resolveArtifactOutput. rewrite guard_bind_iff, guard_bind_iff, negb_true_iff. split.
  - intros (Hp & _ & [= <-]). split; [done|]. by apply resolve_from_component, plain_target_component.
  - intros [Hp ->]. pose proof (plain_target_component _ Hp) as Ht. rewrite resolve_from_component by done.
    split_and!; try done. apply escapes_relative; [|by exists [target]]. apply normal_app. split; [done|by apply Forall_singleton].
Qed.

Lemma native_artifact_runs argv s : normal root →
  runs (assembleNativeArtifact sha256Hex cwd argv) (λ r s' t,
    (∃ e, r = Throw e ∧ s' = s ∧ t = []) ∨
    ∃ target executable commit, assembling argv target executable commit ∧
      runs (assemble_into sha256Hex (root ++ [target]) executable target commit) (λ r' s'' t', r = r' ∧ s' = s'' ∧ t = t') s) s.
Proof.
  intros Hn. unfold assembleNativeArtifact.
  apply runs_bind, runs_lift. destruct (requiredArgument "--target" argv) as [target|e] eqn:Ht; [|by left; exists e].
  apply runs_bind, runs_lift. destruct (requiredArgument "--executable" argv) as [exe|e] eqn:He; [|by left; exists e].
  apply runs_bind, runs_lift. destruct (requiredArgument "--source-commit" argv) as [commit|e] eqn:Hc; [|by left; exists e].
  apply runs_bind, runs_lift. destruct (is_hex 40 commit) eqn:Hx; [|by left; eexists]. cbn [guard_throw].
  apply runs_bind, runs_lift. destruct (resolveArtifactOutput target root) as [output|e] eqn:Ho; [|by left; exists e].
  apply output_iff in Ho as [Hp ->]; [|done].
  unfold runs at 1. destruct (assemble_into _ _ _ _ _ s) as [[r s'] t] eqn:Hr. right.
  exists target, (resolve_from cwd exe), commit. split; [split_and!; eauto|]. unfold runs. by rewrite Hr.
Qed.
End facts.

(** An artifact that both scripts passed is the one that is launched: with its
    size, its digest and the commit it was assembled for, and the bytes are those of
    the executable that was given. *)
Definition launches `{Workspace Disk} `{JsonText} (sha256Hex : string → string) (s : Disk) (package : path)
    (target bytes commit : string) : Prop :=
  let exe := expectedExecutableName target in
  let at_path := package ++ ["native"; "bin"; target; exe] in
  file s at_path = Some bytes ∧
  ∀ cwd, verifyPackagedBridgeArtifact (λ texts, path_text (resolve_in cwd texts)) sha256Hex (ws_read s) (ws_stream s)
      (path_text package) target =
    Ret (path_text at_path,
         {| mf_target := target; mf_executable := exe; mf_executableSize := Z.of_nat (String.length bytes);
            mf_executableSha256 := sha256Hex bytes; mf_projectSourceCommit := commit |}).

Section both_scripts.
Context {Disk} `{Workspace Disk} `{FileAccess Disk} `{JsonText}.
Context {read_only : list string → Prop} {laws : WorkspaceLaws Disk read_only} {access : FileAccessLaws Disk}.
Context (sha256Hex : string → string) (cwd repositoryRoot : path) (argv argv' : list string) (dir : option string).

Lemma artifact_launches (s : Disk) target bytes commit :
  normal repositoryRoot → is_component target → bytes ≠ "" → is_hex 40 commit = true → is_hex 64 (sha256Hex bytes) = true →
  artifact sha256Hex s (place repositoryRoot target) target (expectedExecutableName target) bytes commit →
  launches sha256Hex s (stagingDirectory repositoryRoot) target bytes commit.
Proof.
  intros Hr Ht Hb Hc Hx Har. split.
  - pose proof (ar_executable _ _ _ _ _ _ _ Har) as He. unfold place in He. rewrite <- app_assoc in He. exact He.
  - intros base. apply artifact_is_accepted; try done. by apply normal_resolve_from.
Qed.

Lemma package_runs_all (d : Disk) :
  (∀ bytes, is_hex 64 (sha256Hex bytes) = true) → normal cwd → normal repositoryRoot →
  argument "--native-artifacts-dir" argv' = Ret dir →
  nativeArtifactsDirectory cwd repositoryRoot dir = artifactsRoot cwd →
  apart (artifactsRoot cwd) (stagingDirectory repositoryRoot) →
  runs (assembleNativeArtifact sha256Hex cwd argv;; assemblePackage sha256Hex cwd repositoryRoot argv')
    (λ r d' t, Forall (kept_outside [artifactsRoot cwd; stagingDirectory repositoryRoot] d) (d' :: t) ∧
      match r with
      | Ret package => ∃ target executable commit, assembling cwd argv target executable commit ∧
            (basename executable = expectedExecutableName target →
             ∃ bytes, file d executable = Some bytes ∧ package = stagingDirectory repositoryRoot ∧
               (bytes ≠ "" → launches sha256Hex d' package target bytes commit))
      | Throw _ => True
      end) d.
Proof.
  intros Hx Hcwd Hrepo Hdir Hroot Hap.
  assert (normal (artifactsRoot cwd)) as Hna by (by apply normal_resolve).
  apply runs_bind. eapply runs_mono; [by apply native_artifact_runs|].
  intros r1 d1 t1 [(e & -> & -> & ->)|(target & exe & commit & Ha & Hrun)]; [split; [by apply Forall_singleton|done]|].
  destruct Ha as (Ht & (text & Htext & Hexe) & Hc & H40 & Hplain).
  assert (normal exe) as Hn by (rewrite Hexe; by apply normal_resolve_from).
  pose proof (plain_target_component _ Hplain) as Hcomp.
  pose proof (assemble_moves (laws := laws) (access := access) sha256Hex (artifactsRoot cwd ++ [target]) exe target commit Hn d) as Hmoves.
  pose proof (assemble_runs (laws := laws) (access := access) sha256Hex (artifactsRoot cwd ++ [target]) exe target commit d) as Hruns.
  unfold runs in Hrun, Hmoves, Hruns. destruct (assemble_into _ _ _ _ _ d) as [[r' d''] t']. destruct Hrun as (<- & <- & <-).
  assert (Forall (kept_outside [artifactsRoot cwd; stagingDirectory repositoryRoot] d) (d1 :: t1)) as Hk.
  { eapply Forall_impl; [exact Hmoves|]. intros s. apply (kept_in _ (artifactsRoot cwd) [target]). set_solver. }
  destruct r1 as [[]|e]; [|done].
  pose proof (package_moves (laws := laws) (access := access) sha256Hex cwd repositoryRoot argv' d1) as Hpm.
  assert (basename exe = expectedExecutableName target → ∃ bytes, file d exe = Some bytes ∧
    artifact sha256Hex d1 (artifactsRoot cwd ++ [target]) target (expectedExecutableName target) bytes commit) as Hart.
  { intros Hb. destruct (expected_component target) as [He1 He2]. rewrite Hb in Hruns. by apply Hruns. }
  pose proof (λ bytes, package_runs (laws := laws) (access := access) sha256Hex cwd repositoryRoot argv' dir target bytes commit d1 Hdir Hcomp) as Hpr.
  rewrite Hroot in Hpr. unfold runs in *. destruct (assemblePackage _ _ _ _ d1) as [[r2 d2] t2]. split.
  - eapply (moves_chain _ d d1); [exact Hk|]. eapply Forall_impl; [exact Hpm|]. intros s Hs.
    eapply kept_more; [|exact Hs]. apply Forall_singleton. eexists. split; [|done]. set_solver.
  - destruct r2 as [p|e]; [|done]. exists target, exe, commit. split; [split_and!; eauto|].
    intros (bytes & Hb & Har)%Hart. exists bytes. split; [done|]. destruct (Hpr bytes Hap Har p eq_refl) as [-> Har2].
    split; [done|]. intros Hne. by apply artifact_launches.
Qed.
End both_scripts.

(** C15: from the build to the launch.  The native artifact is assembled and the
    package made from it.  Whatever call fails, nothing outside the directories of
    the artifacts and of the package is changed at any moment.  When both scripts
    return, the executable in the package is byte for byte the one that was given,
    and the verification before a launch accepts it, for the same target, with the
    commit it was assembled for; unless it has another name than the bridge has on
    that target, or is empty. *)
Theorem packaged_artifact_launches {Disk} `{Workspace Disk} `{FileAccess Disk} `{JsonText} read_only
    (laws : WorkspaceLaws Disk read_only) (access : FileAccessLaws Disk) (sha256Hex : string → string)
    (cwd repositoryRoot : path) (argv argv' : list string) (dir : option string) (d : Disk)
    (Hdigest : ∀ bytes, is_hex 64 (sha256Hex bytes) = true) (Hcwd : normal cwd) (Hrepo : normal repositoryRoot)
    (Hdir : argument "--native-artifacts-dir" argv' = Ret dir)
    (Hroot : nativeArtifactsDirectory cwd repositoryRoot dir = artifactsRoot cwd)
    (Hapart : apart (artifactsRoot cwd) (stagingDirectory repositoryRoot)) :
  let '(r, d', states) :=
    (assembleNativeArtifact sha256Hex cwd argv;; assemblePackage sha256Hex cwd repositoryRoot argv') d in
  Forall (kept_outside [artifactsRoot cwd; stagingDirectory repositoryRoot] d) (d' :: states) ∧
  match r with
  | Ret package => ∃ target executable commit, assembling cwd argv target executable commit ∧
        (basename executable = expectedExecutableName target →
         ∃ bytes, file d executable = Some bytes ∧ package = stagingDirectory repositoryRoot ∧
           (bytes ≠ "" → launches sha256Hex d' package target bytes commit))
  | Throw _ => True
  end.
Proof.
  apply (package_runs_all (laws := laws) (access := access) sha256Hex cwd repositoryRoot argv argv' dir d); done.
Qed.

(** ** A checkout *)

Definition only_reads {A} (r : outcome errno A) (d : checkout) : outcome errno A * checkout :=
  (match co_plan d with fails :: _ | stops_at _ :: _ => Throw other_errno | _ => r end, step_plan d (co_files d)).

Definition name_below (p : path) (kv : path * string) : option string :=
  if bool_decide (p `prefix_of` kv.1) then head (drop (length p) kv.1) else None.
#[local] Instance is_component_dec c : Decision (is_component c).
Proof. unfold is_component. apply _. Defined.
Definition has_below (p : path) (l : list (path * string)) : bool :=
  existsb (λ kv, bool_decide (p `prefix_of` kv.1) && negb (bool_decide (kv.1 = p))) l.
Definition entries_of (p : path) (l : list (path * string)) : list (string * bool) :=
  (λ name, (name, has_below (p ++ [name]) l)) <$> filter is_component (remove_dups (omap (name_below p) l)).

#[export] Instance checkout_access : FileAccess checkout := {
  fa_readFile p d := only_reads (match assoc (co_files d) p with Some b => Ret b | None => Throw ENOENT end) d;
  fa_writeFile p bytes d := attempt ((p, bytes) :: co_files d) (λ _, co_files d) d;
  fa_copyFile p q d :=
    match assoc (co_files d) p with
    | Some b => attempt ((q, b) :: co_files d) (λ _, co_files d) d
    | None => only_reads (Throw ENOENT) d
    end;
  fa_size p d :=
    only_reads (match assoc (co_files d) p with Some b => Ret (Z.of_nat (String.length b)) | None => Throw ENOENT end) d;
  fa_readdir p d := only_reads (Ret (entries_of p (co_files d))) d }.

Lemma assoc_in l p b : assoc l p = Some b → (p, b) ∈ l.
Proof.
  induction l as [|[q c] l IH]; [done|]. rewrite assoc_cons. case_decide as Hq; [subst; intros [= ->]; by left|].
  intros Hl. right. auto.
Qed.

Lemma only_reads_keeps {A} (r : outcome errno A) (d : checkout) : kept_outside [] d (only_reads r d).2.
Proof. by intros p _. Qed.
Lemma only_reads_ret {A} (r : outcome errno A) d a : (only_reads r d).1 = Ret a → r = Ret a.
Proof. unfold only_reads. by destruct (co_plan d) as [|[] ?]. Qed.

Lemma write_keeps q b (d : checkout) : kept_outside [q] d (attempt ((q, b) :: co_files d) (λ _, co_files d) d).2.
Proof.
  intros p Hp%outside_cons. cbn.
  apply (attempt_cases _ _ d (λ _ d', assoc (co_files d') p = assoc (co_files d) p)); [|congruence..].
  intros d' ->. rewrite assoc_cons. case_decide as Hq; [subst; by destruct Hp|done].
Qed.

Lemma entries_list p l :
  NoDup (entries_of p l).*1 ∧ Forall is_component (entries_of p l).*1 ∧
  ∀ name rel, is_component name → rel ≠ [] → assoc l (p ++ name :: rel) ≠ None → (name, true) ∈ entries_of p l.
Proof.
  unfold entries_of. rewrite <- list_fmap_compose. change (fst ∘ _) with (@id string). rewrite list_fmap_id. split_and!.
  - apply NoDup_filter, NoDup_remove_dups.
  - apply Forall_forall. by intros x [Hx _]%list_elem_of_filter.
  - intros name rel Hc Hrel Ha. destruct (assoc l (p ++ name :: rel)) as [b|] eqn:Hb; [|done]. apply assoc_in in Hb.
    apply list_elem_of_fmap. exists name. split.
    + f_equal. symmetry. apply existsb_exists. exists (p ++ name :: rel, b). split; [by apply list_elem_of_In|].
      cbn. rewrite bool_decide_eq_true_2 by (exists rel; by rewrite <- app_assoc).
      rewrite bool_decide_eq_false_2; [done|]. intros [= He]%app_inv_head. done.
    + apply list_elem_of_filter. split; [done|]. apply elem_of_remove_dups, list_elem_of_omap. exists (p ++ name :: rel, b).
      split; [done|]. unfold name_below. cbn. rewrite bool_decide_eq_true_2 by (by eexists). by rewrite drop_app_length.
Qed.

#[export] Instance checkout_access_laws : FileAccessLaws checkout.
Proof.
  split.
  - intros p d. apply only_reads_keeps.
  - intros p d bytes He%only_reads_ret. cbn. destruct (assoc _ p); by simplify_eq.
  - intros p bytes d. apply write_keeps.
  - intros p bytes d Hr. cbn in *. rewrite (attempt_ok _ _ _ Hr), assoc_cons. by rewrite decide_True.
  - intros p q d. cbn. destruct (assoc _ p); [apply write_keeps|]. by apply kept_none, only_reads_keeps.
  - intros p q d Hr. cbn in *. destruct (assoc (co_files d) p) as [b|]; [|by apply only_reads_ret in Hr].
    exists b. split; [done|]. rewrite (attempt_ok _ _ _ Hr), assoc_cons. by rewrite decide_True.
  - intros p d. apply only_reads_keeps.
  - intros p d n bytes He%only_reads_ret Hf. cbn in Hf. rewrite Hf in He. by simplify_eq.
  - intros p d. apply only_reads_keeps.
  - intros p d entries He%only_reads_ret. injection He as <-. apply entries_list.
  - intros d p Hp. cbn [ws_read file checkout_workspace]. by rewrite resolve_path_text.
  - intros d p Hp. cbn [ws_stream file checkout_workspace]. rewrite resolve_path_text by done. by destruct (assoc _ p).
Qed.

(** ** An example *)

Definition sample_package_json : string :=
  @stringify bits_json (VObj [("name", VStr "pi-codex-adaptor"); ("scripts", VObj [("test", VStr "bun test")])]).
Definition sample_build (plan : list fault) : checkout := sample_checkout
  [(["r"; "native"; "target"; "codex-bridge"], "BRIDGE"); (["r"; "LICENSE"], "license"); (["r"; "README.md"], "readme");
   (["r"; "src"; "extension.ts"], "source"); (["r"; "package.json"], sample_package_json);
   (["r"; "dist"; "package"; "stale"], "old")] plan.

Definition sample_argv : list string :=
  ["node"; "assemble-native-artifact.ts"; "--target"; sample_target; "--executable"; "native/target/codex-bridge";
   "--source-commit"; sample_commit].
Definition sample_argv' : list string := ["node"; "assemble-package.ts"; "--native-artifacts-dir"; "native/artifacts"].

Definition sample_packaging (argv argv' : list string) (d : checkout) : outcome sync_error path * checkout * list checkout :=
  (assembleNativeArtifact (H1 := bits_json) sample_sha256 ["r"] argv;;
   assemblePackage (H1 := bits_json) sample_sha256 ["r"] ["r"] argv') d.

(** Both scripts return and the stale file is gone; a failing copy leaves no
    result. *)
Lemma packaged_artifact_launches_witness :
  let after (d : checkout) := let '(r, d', states) := sample_packaging sample_argv sample_argv' d in
    Forall (kept_outside [artifactsRoot ["r"]; stagingDirectory ["r"]] d) (d' :: states) ∧
    match r with
    | Ret package => ∃ target executable commit, assembling ["r"] sample_argv target executable commit ∧
          (basename executable = expectedExecutableName target →
           ∃ bytes, file d executable = Some bytes ∧ package = stagingDirectory ["r"] ∧
             (bytes ≠ "" → launches (H0 := bits_json) sample_sha256 d' package target bytes commit))
    | Throw _ => True
    end in
  (sample_packaging sample_argv sample_argv' (sample_build [])).1.1 = Ret ["r"; "dist"; "package"] ∧
  file (sample_packaging sample_argv sample_argv' (sample_build [])).1.2 ["r"; "dist"; "package"; "stale"] = None ∧
  file (sample_packaging sample_argv sample_argv' (sample_build [])).1.2
    ["r"; "dist"; "package"; "native"; "bin"; sample_target; "codex-bridge"] = Some "BRIDGE" ∧
  after (sample_build []) ∧
  (sample_packaging sample_argv sample_argv' (sample_build (repeat works 9 ++ [fails]))).1.1 = Throw (platform_error other_errno) ∧
  after (sample_build (repeat works 9 ++ [fails])).
Proof.
  intros after. split_and!.
  - vm_compute. reflexivity.
  - vm_compute. reflexivity.
  - vm_compute. reflexivity.
  - apply (packaged_artifact_launches _ checkout_laws checkout_access_laws) with (dir := Some "native/artifacts").
    1-5: done || by repeat constructor.
    by apply (bool_decide_unpack _); vm_compute.
  - vm_compute. reflexivity.
  - apply (packaged_artifact_launches _ checkout_laws checkout_access_laws) with (dir := Some "native/artifacts").
    1-5: done || by repeat constructor.
    by apply (bool_decide_unpack _); vm_compute.
Defined.
