(* ===== verification/SchemaCheck.v ===== *)
(** * SchemaCheck

    [src/scripts/verify-app-server-schema.ts]: the committed part of the app-server
    schema is compared with what the pinned Codex generates, file by file and, for
    the JSON bundles, by the checksum of a canonical text.

    [spawn] runs a program in an environment and gives its exit code and what it
    wrote to its standard error; [env] is the environment of the script.
    [sortJson] is the function of [RequestGuard], which the script writes again. *)

From Stdlib Require Import Lia.
From S2P Require Import Prelude StructuredJson Io Paths Workspace Json Protocol Compaction RequestGuard.
From S2P Require Import RequestGuardFacts JsRegex Connection.
From S2P Require Import Vendor VendorRepo VendorFacts Package.

Record TypeScriptSubsetEntry := { se_source : string; se_file : string }.
Record SchemaManifest := {
  sm_schemaVersion : jsval;
  sm_officialCodexVersion : jsval;
  sm_officialSourceCommit : jsval;
  sm_stable : jsval;
  sm_jsonBundleCanonicalSha256 : string;
  sm_jsonV2BundleCanonicalSha256 : string;
  sm_typescriptTreeSha256 : string;
  sm_typescriptSubset : list TypeScriptSubsetEntry }.

(** Digests and names that are not strings are refused here; the code refuses them
    when it looks at them. *)
Definition text_of (v : jsval) : outcome sync_error string :=
  match v with VStr s => Ret s | _ => Throw type_error end.
Definition subset_entry (v : jsval) : outcome sync_error TypeScriptSubsetEntry :=
  source ← prop v "source"; file ← prop v "file";
  source ← text_of source; file ← text_of file;
  Ret {| se_source := source; se_file := file |}.

Definition schema_manifest (v : jsval) : outcome sync_error SchemaManifest :=
  schemaVersion ← prop v "schemaVersion";
  officialCodexVersion ← prop v "officialCodexVersion";
  officialSourceCommit ← prop v "officialSourceCommit";
  generation ← prop v "generation";
  stable ← prop generation "stable";
  bundle ← prop generation "jsonBundleCanonicalSha256";
  v2Bundle ← prop generation "jsonV2BundleCanonicalSha256";
  tree ← prop generation "typescriptTreeSha256";
  bundle ← text_of bundle; v2Bundle ← text_of v2Bundle; tree ← text_of tree;
  subset ← prop v "typescriptSubset";
  entries ← match subset with VArr l => map_throw subset_entry l | _ => Throw type_error end;
  Ret {| sm_schemaVersion := schemaVersion; sm_officialCodexVersion := officialCodexVersion;
         sm_officialSourceCommit := officialSourceCommit; sm_stable := stable;
         sm_jsonBundleCanonicalSha256 := bundle; sm_jsonV2BundleCanonicalSha256 := v2Bundle;
         sm_typescriptTreeSha256 := tree; sm_typescriptSubset := entries |}.

(** ** The manifest *)

Definition isSafeRelativePath (p : string) : bool :=
  if String.eqb p "" || starts_with "/" p || includes "\" p then false
  else forallb (λ part, negb (String.eqb part "") && negb (String.eqb part ".") && negb (String.eqb part "..")) (split_on SEP p).

Definition isPlainTypeScriptFile (file : string) : bool :=
  ends_with ".ts" file && negb (includes "/" file) && String.eqb file (trim file).

Definition is_true (v : jsval) : bool := match v with VBool b => b | _ => false end.

(** [new Set(l).size !== l.length]. *)
Definition repeats (l : list string) : bool := negb (length (dedup [] l) =? length l)%nat.

Definition validateManifest (value : SchemaManifest) : outcome sync_error unit :=
  guard_throw (is_one (sm_schemaVersion value) && is_value (sm_officialCodexVersion value) "0.146.0" &&
               is_value (sm_officialSourceCommit value) "e363b08c9175ac1cbe5893615dd2cb9ddf95043b" &&
               is_true (sm_stable value))
    (failure "App-server schema manifest does not match the pinned stable baseline");;
  guard_throw (forallb (is_hex 64) [sm_jsonBundleCanonicalSha256 value; sm_jsonV2BundleCanonicalSha256 value;
                                    sm_typescriptTreeSha256 value])
    (failure "App-server schema manifest contains an invalid SHA-256 value");;
  let subset := sm_typescriptSubset value in
  guard_throw (negb (bool_decide (subset = [])) && negb (repeats (se_file <$> subset)) && negb (repeats (se_source <$> subset)))
    (failure "App-server TypeScript subset must be non-empty and unique");;
  guard_throw (forallb (λ entry, isSafeRelativePath (se_source entry) && isPlainTypeScriptFile (se_file entry)) subset)
    (failure "App-server TypeScript subset contains an unsafe path").

(** ** The script *)

Section schema.
Context {Disk : Type} `{SourceTree Disk} `{JsonText} (sha256 : string → string).
Context (spawn : list string → list (string * string) → Disk → outcome errno (Z * string) * Disk).
Context (env : string → option string) (execPath : string) (repositoryRoot tmpdir : path).

Abbreviation io A := (Io.io Disk sync_error A).

Definition schemaRoot : path := resolve_in repositoryRoot ["fixtures"; "app-server-schema"].

Definition rejectCommittedJsonBundles : io unit :=
  try_catch
    (files ← fs (tr_readdir (resolve_from schemaRoot "json"));
     io_lift (guard_throw (bool_decide (files = []))
       (failure "Complete app-server JSON bundles must not be committed; retain canonical checksums only")))
    (λ e, match e with platform_error ENOENT => mret tt | e => io_throw e end).

Definition generatorEnvironment (codexHome : path) : list (string * string) :=
  let home := path_text codexHome in
  [("CODEX_HOME", home); ("HOME", home); ("NO_COLOR", "1"); ("PATH", default "" (env "PATH")); ("TEMP", home);
   ("TMP", home); ("TMPDIR", home); ("USERPROFILE", home)] ++
  omap (λ key, value ← env key; Some (key, value)) ["ComSpec"; "PATHEXT"; "SystemRoot"; "SYSTEMROOT"].

Definition GENERATOR (command : string) (output : path) : list string :=
  [execPath; path_text (resolve_in repositoryRoot ["node_modules"; "@openai"; "codex"; "bin"; "codex.js"]);
   "app-server"; command; "--out"; path_text output].

Definition runCodexGenerator (command : string) (output codexHome : path) : io unit :=
  child ← fs (spawn (GENERATOR command output) (generatorEnvironment codexHome));
  if (child.1 =? 0)%Z then mret tt
  else fail ("Pinned Codex app-server " ++ command ++ " failed" ++
             (if String.eqb child.2 "" then "" else " with status " ++ integer_text child.1))%string.

Definition assertCanonicalJsonHash (p : path) (expected : string) : io unit :=
  text ← fs (tr_readFile p);
  value ← io_lift (match json_parse text with Some v => Ret v | None => Throw syntax_error end);
  io_lift (guard_throw (String.eqb (sha256 (stringify (sortJson value))) expected)
    (failure ("App-server canonical schema checksum mismatch for " ++ path_text p)%string)).

Definition compare_entry (generatedRoot typescriptRoot : path) (entry : TypeScriptSubsetEntry) : io unit :=
  generated ← fs (tr_readFile (resolve_from generatedRoot (se_source entry)));
  committed ← fs (tr_readFile (resolve_from typescriptRoot (se_file entry)));
  io_lift (guard_throw (String.eqb generated committed)
    (failure ("App-server TypeScript subset is stale: " ++ se_file entry)%string)).

Fixpoint hash_tree (directory : path) (files : list string) (tree : string) : io string :=
  match files with
  | [] => mret tree
  | file :: files =>
      bytes ← fs (tr_readFile (resolve_from directory file));
      hash_tree directory files (tree ++ tree_line file (sha256 bytes))
  end.
Definition hashTypeScriptTree (directory : path) (files : list string) : io string :=
  tree ← hash_tree directory files ""; mret (sha256 tree).

(** The committed tree has the files of the subset and no other. *)
Definition compare_names (typescriptRoot : path) (subsetFiles : list string) : io unit :=
  entries ← fs (tr_readdir typescriptRoot);
  let present := js_sort (filter (λ file, ends_with ".ts" file = true) entries.*1) in
  io_lift (guard_throw (strs_eqb present subsetFiles)
    (failure "App-server TypeScript subset does not match the committed TypeScript tree exactly")).

(** What follows the generators only reads. *)
Definition compare (manifest : SchemaManifest) (jsonRoot typescriptGeneratedRoot : path) : io unit :=
  assertCanonicalJsonHash (resolve_from jsonRoot "codex_app_server_protocol.schemas.json")
    (sm_jsonBundleCanonicalSha256 manifest);;
  assertCanonicalJsonHash (resolve_from jsonRoot "codex_app_server_protocol.v2.schemas.json")
    (sm_jsonV2BundleCanonicalSha256 manifest);;
  let typescriptRoot := resolve_from schemaRoot "typescript" in
  let subsetFiles := js_sort (se_file <$> sm_typescriptSubset manifest) in
  compare_names typescriptRoot subsetFiles;;
  for_each (compare_entry typescriptGeneratedRoot typescriptRoot) (sm_typescriptSubset manifest);;
  treeSha256 ← hashTypeScriptTree typescriptRoot subsetFiles;
  io_lift (guard_throw (String.eqb treeSha256 (sm_typescriptTreeSha256 manifest))
    (failure ("App-server TypeScript tree hash mismatch: expected " ++ sm_typescriptTreeSha256 manifest ++
              ", received " ++ treeSha256)%string)).

Definition regenerate (manifest : SchemaManifest) (generatedRoot : path) : io unit :=
  let codexHome := resolve_from generatedRoot "codex-home" in
  let jsonRoot := resolve_from generatedRoot "json" in
  let typescriptGeneratedRoot := resolve_from generatedRoot "typescript" in
  all_of [fs (tr_mkdir codexHome); fs (tr_mkdir jsonRoot); fs (tr_mkdir typescriptGeneratedRoot)];;
  runCodexGenerator "generate-json-schema" jsonRoot codexHome;;
  runCodexGenerator "generate-ts" typescriptGeneratedRoot codexHome;;
  compare manifest jsonRoot typescriptGeneratedRoot.

(** The number of files that is logged. *)
Definition main : io nat :=
  text ← fs (tr_readFile (resolve_from schemaRoot "manifest.json"));
  value ← io_lift (match json_parse text with Some v => Ret v | None => Throw syntax_error end);
  manifest ← io_lift (schema_manifest value);
  io_lift (validateManifest manifest);;
  rejectCommittedJsonBundles;;
  generatedRoot ← fs (tr_mkdtemp (resolve_from tmpdir "pi-codex-app-server-schema-"));
  try_finally (regenerate manifest generatedRoot) (fs (tr_rm generatedRoot));;
  mret (length (sm_typescriptSubset manifest)).
End schema.

(** ** Names *)

Lemma ends_with_app suffix s : ends_with suffix s = true → ∃ u, s = (u ++ suffix)%string.
Proof.
  induction s as [|c s IH]; cbn [ends_with]; rewrite orb_true_iff, String.eqb_eq.
  - intros [<-|[=]]. by exists "".
  - intros [<-|Hs]; [by exists ""|]. destruct (IH Hs) as [u ->]. by exists (String c u).
Qed.

Lemma plain_component file : isPlainTypeScriptFile file = true → is_component file.
Proof.
  unfold isPlainTypeScriptFile. rewrite !andb_true_iff, negb_true_iff. intros [[(u & ->)%ends_with_app Hs] _].
  change "/" with (String SEP "") in Hs. rewrite includes_unit in Hs. split_and!; [by destruct u|..|done]; by destruct u as [|? [|? [|??]]].
Qed.

Lemma safe_below root p :
  isSafeRelativePath p = true → resolve_from root p = root ++ split_on SEP p ∧ normal (split_on SEP p).
Proof.
  unfold isSafeRelativePath. destruct (_ || _) eqn:Hb; [done|]. intros Hall.
  apply orb_false_iff in Hb as [[_ Habs]%orb_false_iff _].
  assert (normal (split_on SEP p)) as Hn.
  { apply Forall_forall. intros c Hc. rewrite forallb_forall in Hall. specialize (Hall c). rewrite list_elem_of_In in Hc.
    specialize (Hall Hc). rewrite !andb_true_iff, !negb_true_iff, !String.eqb_neq in Hall. destruct Hall as [[? ?] ?].
    split_and!; try done. pose proof (split_on_parts SEP p) as Hp. rewrite Forall_forall in Hp. by apply Hp, list_elem_of_In. }
  split; [|done]. unfold resolve_from, isAbsolute. rewrite Habs. by apply steps_components.
Qed.

Lemma repeats_iff l : repeats l = false ↔ NoDup l.
Proof. unfold repeats. by rewrite negb_false_iff, Nat.eqb_eq, dedup_length_iff. Qed.

(** What a valid manifest is: the pinned baseline, digests, and distinct names that
    stay in their directories. *)
Record valid_manifest (m : SchemaManifest) : Prop := {
  vm_schema : sm_schemaVersion m = VNum (num_of_Z 1);
  vm_version : sm_officialCodexVersion m = VStr "0.146.0";
  vm_commit : sm_officialSourceCommit m = VStr "e363b08c9175ac1cbe5893615dd2cb9ddf95043b";
  vm_stable : sm_stable m = VBool true;
  vm_digests : Forall (λ s, is_hex 64 s = true)
    [sm_jsonBundleCanonicalSha256 m; sm_jsonV2BundleCanonicalSha256 m; sm_typescriptTreeSha256 m];
  vm_some : sm_typescriptSubset m ≠ [];
  vm_files : NoDup (se_file <$> sm_typescriptSubset m);
  vm_sources : NoDup (se_source <$> sm_typescriptSubset m);
  vm_safe : Forall (λ e, isSafeRelativePath (se_source e) = true ∧ isPlainTypeScriptFile (se_file e) = true) (sm_typescriptSubset m) }.

Lemma is_true_iff v : is_true v = true ↔ v = VBool true.
Proof. destruct v as [| |[]| | | | |]; naive_solver. Qed.

Lemma validateManifest_iff m : validateManifest m = Ret tt ↔ valid_manifest m.
Proof.
  unfold validateManifest. rewrite !guard_bind_iff, guard_throw_ret, !andb_true_iff, is_one_iff, !is_value_iff, is_true_iff,
    !negb_true_iff, bool_decide_eq_false, !repeats_iff, !forallb_forall.
  assert (∀ A (P : A → Prop) l, (∀ x, In x l → P x) ↔ Forall P l) as Hin.
  { intros A P l. rewrite Forall_forall. by setoid_rewrite list_elem_of_In. }
  rewrite !Hin.
  setoid_rewrite (λ e, andb_true_iff (isSafeRelativePath (se_source e)) (isPlainTypeScriptFile (se_file e))). split.
  - intros ([[[? ?] ?] ?] & ? & [[? ?] ?] & ?). by split.
  - by intros [].
Qed.

Lemma validateManifest_throws m e : validateManifest m = Throw e → ∃ message, e = failure message.
Proof.
  unfold validateManifest. repeat (rewrite bind_throw_iff; intros [He|(? & _ & He)]; [|revert He]);
    try (intros He); unfold guard_throw in He; destruct (_ : bool) in He; simplify_eq; by eexists.
Qed.

Lemma text_of_throws v e : text_of v = Throw e → e = type_error.
Proof. destruct v; naive_solver. Qed.
Lemma prop_throws v k e : prop v k = Throw e → e = type_error.
Proof. destruct v; naive_solver. Qed.
Lemma subset_entry_throws v e : subset_entry v = Throw e → e = type_error.
Proof.
  unfold subset_entry. repeat (rewrite bind_throw_iff; intros [He|(? & _ & He)]; [|revert He]);
    eauto using text_of_throws, prop_throws; done.
Qed.
Lemma schema_manifest_throws v e : schema_manifest v = Throw e → e = type_error.
Proof.
  unfold schema_manifest. repeat (rewrite bind_throw_iff; intros [He|(? & _ & He)]; [|revert He]);
    eauto using text_of_throws, prop_throws; try done.
  case_match; simplify_eq; try done.
  apply map_throw_throw in He as (? & _ & He). by apply subset_entry_throws in He.
Qed.

(** ** What is compared *)

Section compared.
Context {Disk : Type} `{SourceTree Disk} `{JsonText}.
Context {writes : list string → list path → Prop} {laws : SourceTreeLaws Disk writes}.
Context (sha256 : string → string) (repositoryRoot : path).
Implicit Types d : Disk.

Abbreviation typescriptRoot := (schemaRoot repositoryRoot ++ ["typescript"]).

(** A value with this digest; by [sortJson] the text is that of any value equal up
    to the order of keys. *)
Definition has_canonical_digest (p : path) (expected : string) d : Prop :=
  ∃ text value, content_at d p = Some text ∧ json_parse text = Some value ∧
    sha256 (stringify (sortJson value)) = expected.

(** The entries of a directory, in some order. *)
Definition listing (directory : path) (entries : list (string * kind)) d : Prop :=
  NoDup entries.*1 ∧
  ∀ name k, (name, k) ∈ entries ↔ is_component name ∧ kind_of <$> node_at d (directory ++ [name]) = Some k.

Definition typescript_names (entries : list (string * kind)) : list string :=
  filter (λ file, ends_with ".ts" file = true) entries.*1.
Definition exactly_these (files : list string) d : Prop :=
  ∃ entries, listing typescriptRoot entries d ∧ typescript_names entries ≡ₚ files.

Definition same_file (generatedRoot : path) (entry : TypeScriptSubsetEntry) d : Prop :=
  ∃ bytes, content_at d (generatedRoot ++ split_on SEP (se_source entry)) = Some bytes ∧
    content_at d (typescriptRoot ++ [se_file entry]) = Some bytes.

Fixpoint hashed d (files : list string) : option string :=
  match files with
  | [] => Some ""
  | file :: files =>
      bytes ← content_at d (typescriptRoot ++ [file]);
      rest ← hashed d files;
      Some (tree_line file (sha256 bytes) ++ rest)%string
  end.

(** The committed schema is the generated one. *)
Record schema_current (m : SchemaManifest) (jsonRoot generatedRoot : path) d : Prop := {
  sc_bundle : has_canonical_digest (jsonRoot ++ ["codex_app_server_protocol.schemas.json"]) (sm_jsonBundleCanonicalSha256 m) d;
  sc_v2_bundle : has_canonical_digest (jsonRoot ++ ["codex_app_server_protocol.v2.schemas.json"]) (sm_jsonV2BundleCanonicalSha256 m) d;
  sc_files : exactly_these (se_file <$> sm_typescriptSubset m) d;
  sc_same : Forall (λ entry, same_file generatedRoot entry d) (sm_typescriptSubset m);
  sc_tree : ∃ text, hashed d (js_sort (se_file <$> sm_typescriptSubset m)) = Some text ∧ sha256 text = sm_typescriptTreeSha256 m }.

Abbreviation D m P := (Decides silent (λ _ _, False) m P).

Lemma c_bind {A B} (m : Io.io Disk sync_error A) (f : A → Io.io Disk sync_error B) P Q :
  D m P → (∀ a, D (f a) (Q a)) → D (m ≫= f) (λ d b, ∃ a, P d a ∧ Q a d b).
Proof. by apply decides_bind. Qed.
Lemma c_read p : D (fs (tr_readFile p)) (λ d bytes, content_at d p = Some bytes).
Proof.
  apply decides_call; [by eexists|apply readFile_unchanged|apply readFile_reads|congruence|].
  intros d d' a [_ Hc]. by rewrite Hc.
Qed.

Lemma canonical_decides p expected : D (assertCanonicalJsonHash sha256 p expected) (λ d _, has_canonical_digest p expected d).
Proof.
  eapply decides_iff; [|apply c_bind; [apply c_read|intros text]; apply c_bind; [apply decides_lift|intros v]; apply decides_guard].
  intros d []. unfold has_canonical_digest. setoid_rewrite String.eqb_eq. split.
  - intros (text & Ht & v & Hv & He). exists text, v. split_and!; try done. by destruct (json_parse text); simplify_eq.
  - intros (text & v & Ht & Hv & He). exists text. split; [done|]. exists v. by rewrite Hv.
Qed.

Lemma compare_decides generatedRoot entry :
  isSafeRelativePath (se_source entry) = true → isPlainTypeScriptFile (se_file entry) = true →
  D (compare_entry generatedRoot typescriptRoot entry) (λ d _, same_file generatedRoot entry d).
Proof.
  intros Hs Hf. unfold compare_entry. rewrite (proj1 (safe_below _ _ Hs)), resolve_from_component by (by apply plain_component).
  eapply decides_iff; [|apply c_bind; [apply c_read|intros a]; apply c_bind; [apply c_read|intros b]; apply decides_guard].
  intros d []. unfold same_file. setoid_rewrite String.eqb_eq. split.
  - intros (a & Ha & b & Hb & ->). by exists b.
  - intros (b & Ha & Hb). exists b. split; [done|]. by exists b.
Qed.

Lemma hash_decides files tree :
  Forall (λ file, is_component file) files →
  D (hash_tree sha256 typescriptRoot files tree) (λ d t, ∃ rest, hashed d files = Some rest ∧ t = (tree ++ rest)%string).
Proof.
  intros Hf. revert tree. induction Hf as [|file files Hc _ IH]; intros tree; cbn [hash_tree hashed].
  - eapply decides_iff; [|apply decides_ret]. intros d t. split.
    + intros ->. exists "". by rewrite append_nil_r.
    + intros (? & [= <-] & ->). by rewrite append_nil_r.
  - rewrite resolve_from_component by done.
    eapply decides_iff; [|apply c_bind; [apply c_read|intros bytes; apply IH]]. intros d t. cbn [mbind option_bind]. split.
    + intros (bytes & Hb & rest & Hr & ->). rewrite Hb. cbn [mbind option_bind]. rewrite Hr. eexists. split; [done|]. by rewrite append_assoc.
    + destruct (content_at d (typescriptRoot ++ [file])) as [bytes|]; [|by intros (? & ? & _)].
      destruct (hashed d files) as [rest|]; [|by intros (? & ? & _)].
      intros (? & [= <-] & ->). exists bytes. split; [done|]. exists rest. split; [done|]. by rewrite append_assoc.
Qed.

Lemma listing_same directory entries d d' : unchanged d d' → listing directory entries d → listing directory entries d'.
Proof. intros [Hn _] [Hnd Hl]. split; [done|]. intros name k. by rewrite Hn, Hl. Qed.

Lemma listing_names directory entries entries' d :
  listing directory entries d → listing directory entries' d → typescript_names entries ≡ₚ typescript_names entries'.
Proof.
  intros [Hnd Hl] [Hnd' Hl']. unfold typescript_names. assert (entries.*1 ≡ₚ entries'.*1) as ->; [|done].
  apply NoDup_Permutation; [done..|]. intros name. rewrite !list_elem_of_fmap. split; intros ([n k] & -> & Hin); exists (n, k);
    (split; [done|]); [by apply Hl', Hl|by apply Hl, Hl'].
Qed.

Lemma names_decide files : D (compare_names typescriptRoot (js_sort files)) (λ d _, exactly_these files d).
Proof.
  split; [|by intros ? [] []|].
  - intros d. apply runs_bind, runs_call. intros [entries|e] d1 Hd.
    2:{ pose proof (readdir_unchanged typescriptRoot d) as Hu. rewrite Hd in Hu. split; [by repeat apply Forall_cons_2|]. left. by exists e. }
    pose proof (readdir_unchanged typescriptRoot d) as Hu. pose proof (readdir_lists typescriptRoot d entries) as Hl.
    rewrite Hd in Hu, Hl. specialize (Hl eq_refl). apply runs_lift. split; [by repeat apply Forall_cons_2|].
    destruct (strs_eqb _ _) eqn:Hb; cbn [guard_throw verdict].
    + exists entries. split; [exact Hl|]. by apply js_sort_eq, strs_eqb_iff.
    + right; right. intros _ (entries' & Hl' & Hp). apply not_true_iff_false in Hb. apply Hb, strs_eqb_iff, js_sort_eq.
      rewrite <- Hp. exact (listing_names _ _ _ _ Hl Hl').
  - intros d d' _ Hu (entries & Hl & Hp). exists entries. split; [by eapply listing_same|done].
Qed.

Lemma compare_all_decides m jsonRoot generatedRoot : valid_manifest m →
  D (compare sha256 repositoryRoot m jsonRoot generatedRoot) (λ d _, schema_current m jsonRoot generatedRoot d).
Proof.
  intros Hm. pose proof (vm_safe m Hm) as Hsafe. rewrite Forall_forall in Hsafe.
  assert (Forall is_component (js_sort (se_file <$> sm_typescriptSubset m))) as Hc.
  { apply Forall_forall. intros f Hf. rewrite js_sort_perm in Hf. apply list_elem_of_fmap in Hf as (e & -> & He).
    by apply plain_component, Hsafe. }
  unfold compare. rewrite !resolve_from_component by done.
  eapply decides_iff; [|apply c_bind; [apply canonical_decides|intros ?]; apply c_bind; [apply canonical_decides|intros ?];
    apply c_bind; [apply names_decide|intros ?]; apply c_bind; [|intros ?; apply c_bind; [|intros tree; apply decides_guard]]].
  2:{ apply decides_each_in; [done|]. intros e He. by apply compare_decides; apply Hsafe. }
  2:{ unfold hashTypeScriptTree. apply c_bind; [by apply hash_decides|intros tree; apply decides_ret]. }
  intros d []. cbv beta. setoid_rewrite String.eqb_eq. split.
  - intros (_ & H1 & _ & H2 & _ & H3 & _ & H4 & t & (text & (rest & Hr & ->) & ->) & Ht). split; try done. by exists rest.
  - intros [H1 H2 H3 H4 (text & Hr & Ht)]. repeat (exists tt; split; [done|]). exists (sha256 text). split; [|done].
    exists text. split; [|done]. by exists text.
Qed.
End compared.

(** ** The script *)

Section run.
Context {Disk : Type} `{SourceTree Disk} `{JsonText}.
Context {writes : list string → list path → Prop} {laws : SourceTreeLaws Disk writes}.
Context (sha256 : string → string).
Context (spawn : list string → list (string * string) → Disk → outcome errno (Z * string) * Disk).
Context (env : string → option string) (execPath : string) (repositoryRoot tmpdir : path).
Implicit Types d : Disk.

(** A generator writes to its output and to its home. *)
Definition generates_below : Prop := ∀ command output home d, normal output → normal home →
  touched [output; home] d (spawn (GENERATOR execPath repositoryRoot command output) (generatorEnvironment env home) d).2.
Context (Hspawn : generates_below) (Htmp : normal tmpdir).

(** A generator that is started on the disk [s] ends with a status and leaves [s']. *)
Definition ends (command : string) (output home : path) (code : Z) (s s' : Disk) : Prop := ∃ stderr,
  spawn (GENERATOR execPath repositoryRoot command output) (generatorEnvironment env home) s = (Ret (code, stderr), s').

Definition json_of (generatedRoot : path) : path := generatedRoot ++ ["json"].
Definition typescript_of (generatedRoot : path) : path := generatedRoot ++ ["typescript"].
Definition home_of (generatedRoot : path) : path := generatedRoot ++ ["codex-home"].

(** Three moments of the run that follow each other: the bundles are generated
    between the first two, the types between the last two. *)
Definition generated (root : path) (code code' : Z) (states : list Disk) (s : Disk) : Prop :=
  ∃ before s0 s1 after, states = before ++ s0 :: s1 :: s :: after ∧
    ends "generate-json-schema" (json_of root) (home_of root) code s0 s1 ∧
    ends "generate-ts" (typescript_of root) (home_of root) code' s1 s.
Definition bundles_failed (root : path) (states : list Disk) : Prop :=
  ∃ before s0 s1 after code, states = before ++ s0 :: s1 :: after ∧
    ends "generate-json-schema" (json_of root) (home_of root) code s0 s1 ∧ code ≠ 0%Z.

(** What both generators left is what is committed. *)
Definition regenerated (m : SchemaManifest) (root : path) (states : list Disk) : Prop :=
  ∃ s, generated root 0 0 states s ∧ schema_current sha256 repositoryRoot m (json_of root) (typescript_of root) s.

Definition not_regenerated (m : SchemaManifest) (root : path) (states : list Disk) : Prop :=
  bundles_failed root states ∨
  (∃ s code, generated root 0 code states s ∧ code ≠ 0%Z) ∨
  ∃ s, generated root 0 0 states s ∧ ¬ schema_current sha256 repositoryRoot m (json_of root) (typescript_of root) s.

Lemma generated_more root code code' l states k s : generated root code code' states s → generated root code code' (l ++ states ++ k) s.
Proof.
  intros (before & s0 & s1 & after & -> & ? & ?). exists (l ++ before), s0, s1, (after ++ k).
  by rewrite <- !app_assoc.
Qed.
Lemma regenerated_more m root l states k : regenerated m root states → regenerated m root (l ++ states ++ k).
Proof. intros (s & ? & ?). exists s. split; [by apply generated_more|done]. Qed.
Lemma not_regenerated_more m root l states k : not_regenerated m root states → not_regenerated m root (l ++ states ++ k).
Proof.
  intros [(before & s0 & s1 & after & code & -> & ?)|[(s & code & ? & ?)|(s & ? & ?)]].
  - left. exists (l ++ before), s0, s1, (after ++ k), code. by rewrite <- !app_assoc.
  - right; left. exists s, code. split; [by apply generated_more|done].
  - right; right. exists s. split; [by apply generated_more|done].
Qed.

Definition compared (m : SchemaManifest) (root : path) (r : outcome sync_error unit) (states : list Disk) : Prop :=
  match r with Ret _ => regenerated m root states | Throw e => silent e ∨ not_regenerated m root states end.

Lemma below_touched root rest d d' : touched (map (λ x, root ++ [x]) rest) d d' → touched [root] d d'.
Proof.
  apply touched_more, Forall_forall. intros r Hr. apply list_elem_of_fmap in Hr as (x & -> & _). exists root.
  split; [set_solver|by eexists].
Qed.

Lemma generator_runs command output home name root Q d :
  normal root → is_component name → output = root ++ [name] → home = home_of root →
  (∀ d', touched [root] d d' → ends command output home 0 d d' → Q (Ret tt) d' [d']) →
  (∀ d' e, touched [root] d d' → silent e ∨ (∃ code, ends command output home code d d' ∧ code ≠ 0%Z) → Q (Throw e) d' [d']) →
  runs (runCodexGenerator spawn env execPath repositoryRoot command output home) Q d.
Proof.
  intros Hroot Hname -> -> Hok Hno. unfold runCodexGenerator. apply runs_bind, runs_call.
  intros r d' Hd. pose proof (Hspawn command (root ++ [name]) (home_of root) d) as Ht. rewrite Hd in Ht. cbn in Ht.
  assert (∀ x, is_component x → normal (root ++ [x])) as Hx by (intros x Hx; apply normal_app; split; [done|by apply Forall_singleton]).
  specialize (Ht (Hx _ Hname)). unfold home_of in Ht. assert (is_component "codex-home") as Hh by done. specialize (Ht (Hx _ Hh)).
  apply (below_touched root [name; "codex-home"]) in Ht. destruct r as [[code err]|e].
  2:{ apply Hno; [done|]. left. by exists e. }
  cbn [fst snd]. destruct (Z.eqb_spec code 0) as [->|Hne].
  - apply runs_ret. apply Hok; [done|]. by exists err.
  - apply runs_throw. apply Hno; [done|]. right. exists code. split; [by exists err|done].
Qed.

Lemma directories_runs root d :
  runs (all_of [fs (tr_mkdir (home_of root)); fs (tr_mkdir (json_of root)); fs (tr_mkdir (typescript_of root))])
    (λ r d' t, Forall (touched [root] d) (d' :: t) ∧ (∃ before, d :: t = before ++ [d']) ∧
       match r with Ret _ => True | Throw e => silent e end) d.
Proof.
  assert (∀ dirs : list path, moves (touched [root]) (all_of ((λ p, fs (tr_mkdir (Disk := Disk) p)) <$> dirs)) ∧
    (∀ d, runs (all_of ((λ p, fs (tr_mkdir (Disk := Disk) p)) <$> dirs)) (λ _ d' t, ∃ before, d :: t = before ++ [d']) d) ∧
    throws silent (all_of ((λ p, fs (tr_mkdir (Disk := Disk) p)) <$> dirs))) as Hall.
  { induction dirs as [|p dirs (IHm & IHl & IHt)]; [split_and!; [apply (moves_ret _)|by intros; exists []|apply throws_ret]|].
    split_and!.
    - apply (moves_both _); [|exact IHm]. apply (moves_call _). intros s.
      eapply touched_more; [|apply mkdir_touches]. constructor.
    - intros s. change (all_of (?f <$> p :: dirs)) with (both (f p) (all_of (f <$> dirs))). revert IHl.
      generalize (all_of ((λ p, fs (tr_mkdir (Disk := Disk) p)) <$> dirs)). intros m IHl.
      unfold runs, both, fs, io_call in *. destruct (tr_mkdir p s) as [r s1]. specialize (IHl s1).
      destruct (m s1) as [[r2 s2] t2]. destruct IHl as [before Hb]. exists (s :: before). cbn. by rewrite Hb.
    - apply throws_both; [|exact IHt]. apply throws_call. by eexists. }
  destruct (Hall [home_of root; json_of root; typescript_of root]) as (Hm & Hl & Ht).
  specialize (Hm d). specialize (Hl d). specialize (Ht d).
  cbn [fmap list_fmap] in *. unfold runs in *. by destruct (all_of _ d) as [[r d'] t].
Qed.

Lemma regenerate_runs m root d : valid_manifest m → normal root →
  runs (regenerate sha256 spawn env execPath repositoryRoot m root)
    (λ r d' t, Forall (touched [root] d) (d' :: t) ∧ compared m root r (d :: t)) d.
Proof.
  intros Hm Hroot. unfold regenerate. rewrite !resolve_from_component by done.
  change (root ++ ["codex-home"]) with (home_of root). change (root ++ ["json"]) with (json_of root).
  change (root ++ ["typescript"]) with (typescript_of root).
  apply runs_bind. eapply runs_mono; [apply directories_runs|].
  intros [[]|e] d1 t1 (Hmk & [before Hlast] & Hth); [|split; [done|by left]].
  apply runs_bind. eapply (generator_runs _ _ _ _ root); [done| |reflexivity|done| |]; [done|..].
  2:{ intros d2 e H2 He. split; [by eapply (moves_chain _); [|apply Forall_cons_2; [|apply Forall_singleton]]|].
      destruct He as [He|(code & He & Hc)]; [by left|right; left].
      exists before, d1, d2, [], code. rewrite app_comm_cons, Hlast. by rewrite <- app_assoc. }
  intros d2 H2 He2. assert (Forall (touched [root] d) (d2 :: t1 ++ [d2])) as Hd2
    by (eapply (moves_chain _); [exact Hmk|]; by repeat apply Forall_cons_2).
  apply runs_bind. eapply (generator_runs _ _ _ _ root); [done| |reflexivity|done| |]; [done|..].
  2:{ intros d3 e H3 He. split.
      - rewrite app_assoc. eapply (moves_chain _); [exact Hd2|]. by repeat apply Forall_cons_2.
      - destruct He as [He|(code & He & Hc)]; [by left|right; right; left]. exists d3, code. split; [|done].
        exists before, d1, d2, []. rewrite app_comm_cons, Hlast. by rewrite <- app_assoc. }
  intros d3 H3 He3. pose proof (de_runs _ _ _ _ (compare_all_decides sha256 repositoryRoot m (json_of root) (typescript_of root) Hm) d3) as Hc.
  eapply runs_mono; [exact Hc|]. intros r d4 t4 [Hu Hv].
  assert (Forall (touched [root] d) (d4 :: (t1 ++ [d2] ++ [d3]) ++ t4)) as Hd4.
  { eapply (moves_chain _ d d3).
    - rewrite app_assoc. eapply (moves_chain _); [exact Hd2|]. by repeat apply Forall_cons_2.
    - eapply Forall_impl; [exact Hu|]. intros s. apply unchanged_touched. }
  rewrite <- !app_assoc in Hd4. split; [exact Hd4|].
  assert (generated root 0 0 (d :: t1 ++ [d2] ++ [d3] ++ t4) d3) as Hgen.
  { exists before, d1, d2, t4. rewrite app_comm_cons, Hlast. by rewrite <- app_assoc. }
  destruct r as [u|e]; cbn [verdict compared] in *; [by exists d3|].
  destruct Hv as [Hs|[[]|Hno]]; [by left|]. right; right; right. exists d3. split; [done|]. by apply (Hno tt).
Qed.

Definition manifest_at (m : SchemaManifest) d : Prop := ∃ text value,
  content_at d (schemaRoot repositoryRoot ++ ["manifest.json"]) = Some text ∧ json_parse text = Some value ∧ schema_manifest value = Ret m.

(** There is no directory of complete bundles, or an empty one. *)
Abbreviation bundles := (schemaRoot repositoryRoot ++ ["json"]).
Definition no_bundles d : Prop := ∃ s, unchanged d s ∧ ((tr_readdir bundles s).1 = Throw ENOENT ∨ listing bundles [] s).

(** The committed manifest is a text that is none. *)
Definition no_manifest d : Prop := ∃ text,
  content_at d (schemaRoot repositoryRoot ++ ["manifest.json"]) = Some text ∧
  ∀ value m, json_parse text = Some value → schema_manifest value ≠ Ret m.

Definition schema_checked (d : Disk) (r : outcome sync_error nat) (d' : Disk) (states : list Disk) : Prop :=
  match r with
  | Ret n => ∃ m root, manifest_at m d ∧ valid_manifest m ∧ no_bundles d ∧ n = length (sm_typescriptSubset m) ∧
      regenerated m root states ∧ ∀ rel, node_at d' (root ++ rel) = None
  | Throw (platform_error _) => True
  | Throw _ => no_manifest d ∨ (∃ m, manifest_at m d ∧ ¬ valid_manifest m) ∨ (∃ entries, entries ≠ [] ∧ listing bundles entries d) ∨
      ∃ m root, manifest_at m d ∧ valid_manifest m ∧ not_regenerated m root states
  end.

Lemma checked_throw d e d' states :
  silent e ∨ (no_manifest d ∨ (∃ m, manifest_at m d ∧ ¬ valid_manifest m) ∨ (∃ entries, entries ≠ [] ∧ listing bundles entries d) ∨
      ∃ m root, manifest_at m d ∧ valid_manifest m ∧ not_regenerated m root states) →
  schema_checked d (Throw e) d' states.
Proof. intros [[x ->]|Hno]; [done|]. by destruct e. Qed.

(** Only a directory that was not there is written to. *)
Definition only_new_directory (d : Disk) (states : list Disk) : Prop :=
  Forall (unchanged d) states ∨ ∃ root, (∀ rel, node_at d (root ++ rel) = None) ∧ Forall (touched [root] d) states.

Lemma bundles_runs d :
  runs (rejectCommittedJsonBundles repositoryRoot) (λ r d' t, Forall (unchanged d) (d' :: t) ∧
    match r with Ret _ => no_bundles d | Throw e => silent e ∨ ∃ entries, entries ≠ [] ∧ listing bundles entries d end) d.
Proof.
  unfold rejectCommittedJsonBundles. rewrite resolve_from_component by done.
  apply runs_catch, runs_bind, runs_call. intros r d' Hd. pose proof (readdir_unchanged bundles d) as Hu. rewrite Hd in Hu. cbn in Hu.
  pose proof (readdir_lists bundles d) as Hl. rewrite Hd in Hl. destruct r as [entries|e].
  - specialize (Hl entries eq_refl). apply runs_lift. case_bool_decide as He; cbn [guard_throw].
    + subst. split; [by repeat apply Forall_cons_2|]. exists d. split; [reflexivity|by right].
    + apply runs_throw. split; [by repeat apply Forall_cons_2|]. right. by exists entries.
  - destruct e; [apply runs_ret|apply runs_throw..]; (split; [by repeat apply Forall_cons_2|]); [|by left; eexists..].
    exists d. split; [reflexivity|]. left. by rewrite Hd.
Qed.

Lemma temporary_runs m d0 d : unchanged d0 d → valid_manifest m → manifest_at m d0 → no_bundles d0 →
  runs (generatedRoot ← fs (tr_mkdtemp (resolve_from tmpdir "pi-codex-app-server-schema-"));
        try_finally (regenerate sha256 spawn env execPath repositoryRoot m generatedRoot) (fs (tr_rm generatedRoot));;
        mret (length (sm_typescriptSubset m)))
    (λ r d' t, only_new_directory d (d' :: t) ∧ schema_checked d0 r d' t) d.
Proof.
  intros Hu Hm Hat Hb. apply runs_bind, runs_call. intros r d1 Hd. set (p := resolve_from _ _) in *.
  pose proof (mkdtemp_makes p d) as Hmk. rewrite Hd in Hmk. cbn [fst snd] in Hmk. destruct r as [root|e].
  2:{ split; [left; by repeat apply Forall_cons_2|done]. }
  destruct Hmk as (Hroot & _ & Hfresh & _ & Ht1). specialize (Hroot (normal_resolve_from _ _ Htmp)). apply runs_bind, runs_finally.
  eapply runs_mono; [by apply regenerate_runs|]. intros r d2 t2 [H2 Hc]. apply runs_call. intros r3 d3 Hd3.
  pose proof (rm_touches root d2) as H3. pose proof (rm_empties root d2) as He. rewrite Hd3 in H3, He. cbn [fst snd] in H3, He.
  assert (∀ rest, [d1] ++ (t2 ++ [d3]) ++ rest = d1 :: t2 ++ d3 :: rest) as Heq by (intros; by rewrite <- !app_assoc).
  assert (only_new_directory d (d3 :: d1 :: t2 ++ [d3])) as Hnew.
  { right. exists root. split; [done|]. change (d1 :: t2 ++ [d3]) with ([d1] ++ t2 ++ [d3]).
    apply (moves_chain _ d d1); [by repeat apply Forall_cons_2|]. apply (moves_chain _ d1 d2); [exact H2|]. by repeat apply Forall_cons_2. }
  destruct r3 as [[]|e3]; cbn [app].
  2:{ split; [exact Hnew|done]. }
  change (d1 :: t2 ++ [d3]) with ([] ++ (d1 :: t2) ++ [d3]) in Hnew |- *. destruct r as [[]|e]; cbn [compared] in Hc.
  - apply runs_ret. rewrite app_nil_r. split; [exact Hnew|]. exists m, root. split_and!; try done; [|by apply He].
    apply (regenerated_more m root [] (d1 :: t2) [d3] Hc).
  - split; [exact Hnew|]. apply checked_throw. destruct Hc as [Hc|Hc]; [by left|right; right; right; right].
    exists m, root. split_and!; [done..|]. apply (not_regenerated_more m root [] (d1 :: t2) [d3] Hc).
Qed.

(** Before the directory is made nothing changes. *)
Lemma new_after d t0 d1 d2 t2 d3 t3 :
  unchanged d d1 → Forall (unchanged d1) (d2 :: t2) → only_new_directory d2 (d3 :: t3) → t0 = [d1] →
  only_new_directory d (d3 :: t0 ++ t2 ++ t3).
Proof.
  intros Hu H2 Hn ->. assert (Forall (unchanged d) (d1 :: d2 :: t2)) as H12.
  { apply Forall_cons_2; [done|]. eapply Forall_impl; [exact H2|]. intros s Hs. etrans; [exact Hu|exact Hs]. }
  apply Forall_cons in H12 as [_ H12]. assert (unchanged d d2) as Hu2 by (by apply Forall_inv in H12).
  destruct Hn as [Hn|(root & Hf & Hn)].
  - left. change ([d1] ++ t2 ++ t3) with (d1 :: (t2 ++ t3)). rewrite Forall_cons in Hn. destruct Hn as [Hn3 Hn].
    apply Forall_cons_2; [etrans; [exact Hu2|exact Hn3]|]. apply Forall_cons_2; [done|]. apply Forall_app. split; [by apply Forall_cons in H12 as [_ ?]|].
    eapply Forall_impl; [exact Hn|]. intros s Hs. etrans; [exact Hu2|exact Hs].
  - right. exists root. split; [intros rel; destruct Hu2 as [Hnode _]; by rewrite <- Hnode|].
    rewrite Forall_cons in Hn. destruct Hn as [Hn3 Hn].
    apply Forall_cons_2; [etrans; [by apply unchanged_touched|done]|].
    apply Forall_cons_2; [by apply unchanged_touched|]. apply Forall_app. split.
    + apply Forall_cons in H12 as [_ H12]. eapply Forall_impl; [exact H12|]. intros s. apply unchanged_touched.
    + eapply Forall_impl; [exact Hn|]. intros s Hs. etrans; [by apply unchanged_touched|done].
Qed.

Lemma checked_more d r d' t before : schema_checked d r d' t → schema_checked d r d' (before ++ t).
Proof.
  destruct r as [n|e]; cbn [schema_checked].
  - intros (m & root & ? & ? & ? & ? & Hr & ?). exists m, root. split_and!; try done.
    apply (regenerated_more m root before t []) in Hr. by rewrite app_nil_r in Hr.
  - intros He. apply (checked_throw d e d'). destruct e as [x| | | |]; [left; by exists x|right..];
      (destruct He as [?|[?|[?|(m & root & ? & ? & Hn)]]]; auto; right; right; right; exists m, root; split_and!; [done..|];
       apply (not_regenerated_more m root before t []) in Hn; by rewrite app_nil_r in Hn).
Qed.

Lemma schema_main_runs d :
  runs (main sha256 spawn env execPath repositoryRoot tmpdir)
    (λ r d' t, only_new_directory d (d' :: t) ∧ schema_checked d r d' t) d.
Proof.
  unfold main. rewrite (resolve_from_component _ "manifest.json") by done. apply runs_bind, runs_call.
  intros r d1 Hd.
  pose proof (readFile_unchanged (schemaRoot repositoryRoot ++ ["manifest.json"]) d) as Hu. rewrite Hd in Hu. cbn in Hu.
  pose proof (readFile_reads (schemaRoot repositoryRoot ++ ["manifest.json"]) d) as Hr. rewrite Hd in Hr.
  assert (unchanged d d1) as Hu1 by exact Hu. clear Hu. rename Hu1 into Hu.
  assert (only_new_directory d [d1; d1]) as Hnew by (left; by repeat apply Forall_cons_2).
  destruct r as [text|e]; [|done]. specialize (Hr text eq_refl).
  apply runs_bind, runs_lift. destruct (json_parse text) as [value|] eqn:Hv.
  2:{ split; [done|]. left. exists text. split; [done|]. by rewrite Hv. }
  apply runs_bind, runs_lift. destruct (schema_manifest value) as [m|e] eqn:Hm.
  2:{ split; [done|]. pose proof Hm as ->%schema_manifest_throws. left. exists text. split; [done|].
      rewrite Hv. intros v m [= <-]. congruence. }
  assert (manifest_at m d) as Hat by (by exists text, value).
  apply runs_bind, runs_lift. destruct (validateManifest m) as [[]|e] eqn:Hvalid.
  2:{ split; [done|]. pose proof Hvalid as Hn. apply validateManifest_throws in Hvalid as [msg ->]. right; left. exists m. split; [done|].
      rewrite <- validateManifest_iff. congruence. }
  apply validateManifest_iff in Hvalid.
  apply runs_bind. eapply runs_mono; [apply bundles_runs|]. intros [[]|e] d2 t2 [H2 Hb].
  - assert (no_bundles d) as Hnone by (destruct Hb as (s & Hs & Hb); exists s; split; [etrans; [exact Hu|exact Hs]|done]).
    assert (unchanged d d2) as Hud2 by (apply Forall_inv in H2; etrans; [exact Hu|exact H2]).
    eapply runs_mono; [by apply (temporary_runs m d d2)|]. intros r d3 t3 [Hn Hc].
    split; [exact (new_after d [d1] d1 d2 t2 d3 t3 Hu H2 Hn eq_refl)|]. exact (checked_more d r d3 t3 (d1 :: t2) Hc).
  - split; [left|].
    + apply Forall_cons in H2 as [H2 H2']. repeat apply Forall_cons_2; [etrans; [exact Hu|exact H2]|done|].
      eapply Forall_impl; [exact H2'|]. intros s Hs. etrans; [exact Hu|exact Hs].
    + apply checked_throw. destruct Hb as [Hb|(entries & Hne & Hl)]; [by left|]. right; right; right; left.
      exists entries. split; [done|]. eapply listing_same; [by apply unchanged_sym|done].
Qed.
End run.

(** C17: the committed schema.  The script writes to nothing but a temporary
    directory that was not there.  It answers only when the committed manifest is
    that of the pinned baseline with names that stay in their directories, no
    complete bundle is committed, and what the two generators left when they had
    ended well, one right after the other in this run, is what is committed: on the
    disk the second one left every committed file is the generated one, there is no
    other, the digest of the tree is the recorded one, and both generated bundles
    have, up to the order of keys, the recorded digests; and the temporary directory
    is gone.  When it refuses and not because a call of the platform failed, the
    manifest is none or not valid, a bundle is committed, or in this run a generator
    ended badly or what both left is not what is committed. *)
Theorem committed_schema_is_current {Disk} `{SourceTree Disk} `{JsonText} writes (laws : SourceTreeLaws Disk writes)
    (sha256 : string → string) (spawn : list string → list (string * string) → Disk → outcome errno (Z * string) * Disk)
    (env : string → option string) (execPath : string) (repositoryRoot tmpdir : path) (d : Disk)
    (Hspawn : generates_below spawn env execPath repositoryRoot) (Htmp : normal tmpdir) :
  let '(r, d', states) := main sha256 spawn env execPath repositoryRoot tmpdir d in
  only_new_directory d (d' :: states) ∧
  schema_checked sha256 spawn env execPath repositoryRoot d r d' states.
Proof. exact (schema_main_runs (laws := laws) sha256 spawn env execPath repositoryRoot tmpdir Hspawn Htmp d). Qed.

(** ** An example *)

Definition schema_bundle : jsval := VObj [("b", VNum (num_of_Z 1)); ("a", VStr "x")].
Definition schema_digest : string := sample_digest (@stringify bits_json (sortJson schema_bundle)).
Definition schema_sample (stable : bool) : jsval := VObj [
  ("schemaVersion", VNum (num_of_Z 1)); ("officialCodexVersion", VStr "0.146.0");
  ("officialSourceCommit", VStr "e363b08c9175ac1cbe5893615dd2cb9ddf95043b");
  ("generation", VObj [("stable", VBool stable); ("jsonBundleCanonicalSha256", VStr schema_digest);
    ("jsonV2BundleCanonicalSha256", VStr schema_digest);
    ("typescriptTreeSha256", VStr (sample_digest (tree_line "Turn.ts" (sample_digest "export type Turn"))))]);
  ("typescriptSubset", VArr [VObj [("source", VStr "v2/Turn.ts"); ("file", VStr "Turn.ts")]])].

(** The generators; the bundle has its keys in another order. *)
Definition schema_files (command : list string) : list (path * node) :=
  match command with
  | [_; _; _; "generate-json-schema"; _; out] =>
      let text := @stringify bits_json (VObj [("a", VStr "x"); ("b", VNum (num_of_Z 1))]) in
      [(resolve_from [] out ++ ["codex_app_server_protocol.schemas.json"], n_file text);
       (resolve_from [] out ++ ["codex_app_server_protocol.v2.schemas.json"], n_file text)]
  | [_; _; _; "generate-ts"; _; out] =>
      [(resolve_from [] out ++ ["v2"], n_directory); (resolve_from [] out ++ ["v2"; "Turn.ts"], n_file "export type Turn")]
  | _ => []
  end.
Definition schema_spawn (command : list string) (_ : list (string * string)) (d : repo) : outcome errno (Z * string) * repo :=
  (Ret (0%Z, ""), next (schema_files command ++ rp_nodes d) d).

Definition schema_disk (stable : bool) (committed : string) : repo := {|
  rp_nodes := ((λ p : path, (p, n_directory)) <$>
      [[]; ["r"]; ["t"]; ["r"; "fixtures"]; ["r"; "fixtures"; "app-server-schema"]; ["r"; "fixtures"; "app-server-schema"; "typescript"]]) ++
    [(["r"; "fixtures"; "app-server-schema"; "manifest.json"], n_file (@stringify bits_json (schema_sample stable)));
     (["r"; "fixtures"; "app-server-schema"; "typescript"; "Turn.ts"], n_file committed)];
  rp_reply := λ _, {| exitCode := 0; stdout := "" |};
  rp_plan := [] |}.
Definition schema_main (d : repo) : outcome sync_error nat * repo * list repo :=
  main (H := repo_tree (λ _, [])) (H0 := bits_json) sample_digest schema_spawn (λ _, None) "bun" ["r"] ["t"] d.

Lemma generated_outside output l l' p :
  Forall (λ kv, output `prefix_of` kv.1) l' → ¬ output `prefix_of` p → VendorRepo.reach (l' ++ l) p = VendorRepo.reach l p.
Proof.
  intros Hl Hp. induction Hl as [|[q n] l' Hq _ IH]; [done|]. cbn [app]. rewrite reach_cons; [done|].
  intros Hpre. apply Hp. etrans; [exact Hq|exact Hpre].
Qed.

Lemma schema_spawn_below : generates_below (H := repo_tree (λ _, [])) schema_spawn (λ _, None) "bun" ["r"].
Proof.
  intros command output home d Hn _. apply (touched_more [output]).
  { apply Forall_singleton. exists output. split; [set_solver|done]. }
  intros p Hp%Forall_inv. left. apply (generated_outside output); [|done].
  unfold schema_files, GENERATOR. repeat case_match; simplify_eq; try constructor;
    rewrite ?resolve_path_text by done; cbn [fst]; repeat constructor; by eexists.
Qed.

(** A current schema, a stale file and a manifest of an unstable schema. *)
Lemma committed_schema_is_current_witness :
  let after d := let '(r, d', states) := schema_main d in
    only_new_directory (H := repo_tree (λ _, [])) d (d' :: states) ∧
    schema_checked (H := repo_tree (λ _, [])) (H0 := bits_json) sample_digest schema_spawn (λ _, None) "bun" ["r"] d r d' states in
  let current := schema_disk true "export type Turn" in
  let stale := schema_disk true "export type" in
  (schema_main current).1.1 = Ret 1 ∧ after current ∧
  (schema_main stale).1.1 = Throw (failure "App-server TypeScript subset is stale: Turn.ts") ∧ after stale ∧
  (schema_main (schema_disk false "")).1.1 ≠ Ret 1 ∧ after (schema_disk false "").
Proof.
  intros after current stale. split_and!.
  - vm_compute. reflexivity.
  - apply (committed_schema_is_current (H0 := bits_json) (git_writes ["r"]) (repo_laws (λ _, []) ["r"])); [exact schema_spawn_below|by repeat constructor].
  - vm_compute. reflexivity.
  - apply (committed_schema_is_current (H0 := bits_json) (git_writes ["r"]) (repo_laws (λ _, []) ["r"])); [exact schema_spawn_below|by repeat constructor].
  - vm_compute. discriminate.
  - apply (committed_schema_is_current (H0 := bits_json) (git_writes ["r"]) (repo_laws (λ _, []) ["r"])); [exact schema_spawn_below|by repeat constructor].
Defined.
