(* ===== verification/Architecture.v ===== *)
(** * Architecture

    [src/scripts/check-architecture.ts]: the imports of the domain and of the
    application are read off the texts of their files, and each must stay in the
    layers below.

    Paths are lists of components; the lines that are logged for the violations
    are not modelled, their number is.  Listing a directory has fuel, the depth of
    the tree. *)

From Stdlib Require Import Lia.
From S2P Require Import Prelude Io Paths Workspace Decimal Render JsRegex Connection.
From S2P Require Import Vendor VendorRepo VendorFacts.

Inductive ArchitectureLayer := domain | application.
#[export] Instance ArchitectureLayer_eq_dec : EqDecision ArchitectureLayer. Proof. solve_decision. Defined.

Record ArchitectureViolation := { av_file : path; av_specifier : string; av_reason : string }.

Definition FORBIDDEN_PACKAGE_PREFIXES : list string := ["@earendil-works/"; "@openai/"; "pi-tui"; "typebox"].

Definition FORBIDDEN_NODE_MODULES : list string := [
  "assert"; "async_hooks"; "buffer"; "child_process"; "cluster"; "console"; "constants"; "crypto"; "dgram";
  "diagnostics_channel"; "dns"; "domain"; "events"; "fs"; "fs/promises"; "http"; "http2"; "https"; "inspector";
  "module"; "net"; "os"; "path"; "path/posix"; "path/win32"; "perf_hooks"; "process"; "punycode"; "querystring";
  "readline"; "repl"; "stream"; "stream/promises"; "string_decoder"; "sys"; "timers"; "tls"; "trace_events"; "tty";
  "url"; "util"; "v8"; "vm"; "wasi"; "worker_threads"; "zlib"].

Definition FORBIDDEN_BUN_MODULES : list string := ["bun:ffi"; "bun:sqlite"; "bun:jsc"].

(** ** The imports of a text *)

Definition blank (min : nat) : regex := RMany min is_js_space.
Definition quoted_by (lead tail : regex) : pattern := {|
  lead := RSeq lead (RUnit (one_of QUOTES));
  group := RMany 1 (none_of QUOTES);
  tail := RSeq (RUnit (one_of QUOTES)) tail;
  text := id |}.

(** The two alternatives of [IMPORT_PATTERN]. *)
Definition IMPORT_STATEMENT : pattern := quoted_by
  (RSeq (RAlt (literal "import") (literal "export"))
    (RSeq (ROpt (RSeq (blank 1) (literal "type")))
      (RAlt (RSeq (blank 1) (RSeq (RLazy (λ _, true)) (RSeq (blank 1) (RSeq (literal "from") (blank 0)))))
            (blank 0))))
  REmpty.
Definition IMPORT_CALL : pattern := quoted_by
  (RSeq (literal "import") (RSeq (blank 0) (RSeq (RUnit (Ascii.eqb "(")) (blank 0))))
  (RSeq (blank 0) (RUnit (Ascii.eqb ")"))).

Definition import_at (prev : option ascii) (s : string) : option (string * option ascii * string) :=
  match match_at IMPORT_STATEMENT prev s with
  | Some found => Some found
  | None => match_at IMPORT_CALL prev s
  end.

(** [source.matchAll(IMPORT_PATTERN)]: the specifiers.  The fuel is the length of
    the text. *)
Fixpoint imports_from (fuel : nat) (prev : option ascii) (s : string) : list string :=
  match fuel, s with
  | S fuel, String c s' =>
      match import_at prev s with
      | Some (specifier, prev, rest) => specifier :: imports_from fuel prev rest
      | None => imports_from fuel (Some c) s'
      end
  | _, _ => []
  end.
Definition imports (source : string) : list string := imports_from (String.length source) None source.

(** ** Layers *)

Definition layerForFile (filePath : string) : option ArchitectureLayer :=
  let normalized := normalizePath filePath in
  if includes "/src/domain/" normalized || ends_with "/src/domain" normalized then Some domain
  else if includes "/src/application/" normalized || ends_with "/src/application" normalized then Some application
  else None.

Definition topLevelLayer (relativeToSource : string) : string := default "" (head (split_on SEP relativeToSource)).

(** [`${before} '${specifier}'`] and its like. *)
Definition about (before specifier after : string) : string := (before ++ "'" ++ specifier ++ "'" ++ after)%string.

Definition is_typescript (name : string) : bool := ends_with ".ts" name && negb (ends_with ".d.ts" name).

Section check.
Context (repositoryRoot : path).

Definition SOURCE_ROOT : path := resolve_in repositoryRoot ["src"].

Definition classifyRelativeImport (filePath : path) (layer : ArchitectureLayer) (specifier : string) : option string :=
  let resolved := resolve_from (dirname filePath) specifier in
  let relativeToSource := normalizePath (relative_text SOURCE_ROOT resolved) in
  if starts_with ".." relativeToSource then Some (about "forbids import outside src (" specifier ")")
  else
    let targetLayer := topLevelLayer relativeToSource in
    match layer with
    | domain =>
        if negb (String.eqb targetLayer "domain") then Some (about "domain may only import domain modules (" specifier ")")
        else None
    | application =>
        if String.eqb targetLayer "domain" || String.eqb targetLayer "application" then None
        else if String.eqb targetLayer "integration" || String.eqb targetLayer "ui" || String.eqb targetLayer "infrastructure"
        then Some (about ("application may not import " ++ targetLayer ++ " (") specifier ")")
        else Some (about "application may not import " specifier "")
    end.

Definition classifyImport (filePath : path) (layer : ArchitectureLayer) (specifier : string) : option string :=
  if starts_with "node:" specifier then Some (about "forbids Node.js module " specifier "")
  else if existsb (String.eqb specifier) FORBIDDEN_BUN_MODULES || starts_with "bun:" specifier
  then Some (about "forbids Bun module " specifier "")
  else if existsb (String.eqb specifier) FORBIDDEN_NODE_MODULES then Some (about "forbids Node.js module " specifier "")
  else if existsb (λ prefix, String.eqb specifier prefix || starts_with prefix specifier) FORBIDDEN_PACKAGE_PREFIXES
  then Some (about "forbids package " specifier "")
  else if starts_with "." specifier then classifyRelativeImport filePath layer specifier
  else
    match layer with
    | domain => Some (about "forbids external package " specifier "")
    | application => if negb (starts_with "#" specifier) then Some (about "forbids external package " specifier "") else None
    end.

Definition analyzeSource (filePath : path) (source : string) (layer : option ArchitectureLayer) : list ArchitectureViolation :=
  let layer := match layer with Some layer => layer | None => default domain (layerForFile (path_text filePath)) end in
  omap (λ specifier,
    reason ← classifyImport filePath layer specifier;
    Some {| av_file := filePath; av_specifier := specifier; av_reason := reason |}) (imports source).

(** ** The script *)

Section script.
Context {Disk : Type} `{SourceTree Disk}.

Abbreviation io A := (Io.io Disk sync_error A).

Section listing.
Context (listTypeScriptFiles : path → io (list path)).
(** The loop over the entries of a directory. *)
Fixpoint list_entries (directory : path) (entries : list (string * kind)) (files : list path) : io (list path) :=
  match entries with
  | [] => mret files
  | (name, k) :: entries =>
      let fullPath := resolve_from directory name in
      match k with
      | k_directory => below ← listTypeScriptFiles fullPath; list_entries directory entries (files ++ below)
      | k_file => list_entries directory entries (if is_typescript name then files ++ [fullPath] else files)
      | _ => list_entries directory entries files
      end
  end.
End listing.

Fixpoint listTypeScriptFiles (depth : nat) (directory : path) : io (list path) :=
  match depth with
  | O => io_throw depth_exceeded
  | S depth => entries ← fs (tr_readdir directory); list_entries (listTypeScriptFiles depth) directory entries []
  end.

Fixpoint analyze_files (files : list path) (violations : list ArchitectureViolation) : io (list ArchitectureViolation) :=
  match files with
  | [] => mret violations
  | file :: files =>
      match layerForFile (path_text file) with
      | None => analyze_files files violations
      | Some layer =>
          source ← fs (tr_readFile file);
          analyze_files files (violations ++ analyzeSource file source (Some layer))
      end
  end.

Definition collectArchitectureViolations (depth : nat) (root : path) : io (list ArchitectureViolation) :=
  domainFiles ← listTypeScriptFiles depth (resolve_in root ["src"; "domain"]);
  applicationFiles ← listTypeScriptFiles depth (resolve_in root ["src"; "application"]);
  analyze_files (sort_paths (domainFiles ++ applicationFiles)) [].

Definition main (depth : nat) : io unit :=
  violations ← collectArchitectureViolations depth repositoryRoot;
  io_lift (guard_throw (bool_decide (violations = []))
    (failure ("Architecture dependency boundary check failed with " ++ decimal (Z.of_nat (length violations)) ++ " violation(s)")%string)).
End script.
End check.

(** The length of the text is enough fuel: a match takes a unit. *)
Lemma import_at_shorter prev c s t prev' rest :
  import_at prev (String c s) = Some (t, prev', rest) → String.length rest ≤ String.length s.
Proof.
  unfold import_at. assert (∀ p, 0 < pattern_width p → match_at p prev (String c s) = Some (t, prev', rest) →
    String.length rest ≤ String.length s) as Hw.
  { intros p Hp (u & Hu & Hl & _)%match_at_takes. apply (f_equal String.length) in Hu. rewrite length_str_app in Hu. cbn in Hu. lia. }
  destruct (match_at IMPORT_STATEMENT prev (String c s)) eqn:Hm.
  - intros [= ->]. apply (Hw IMPORT_STATEMENT); [cbn; lia|done].
  - apply Hw. cbn. lia.
Qed.

Lemma imports_from_enough fuel fuel' prev s :
  String.length s ≤ fuel → String.length s ≤ fuel' → imports_from fuel prev s = imports_from fuel' prev s.
Proof.
  revert fuel' prev s. induction fuel as [|fuel IH]; intros fuel' prev [|c s] Hf Hf'; try (by destruct fuel'); [cbn in Hf; lia|].
  destruct fuel' as [|fuel']; [cbn in Hf'; lia|]. cbn [imports_from String.length] in *.
  destruct (import_at prev (String c s)) as [[[t prev'] rest]|] eqn:Hm; [apply import_at_shorter in Hm|]; rewrite (IH fuel'); by try lia.
Qed.

(** ** What is allowed *)

Definition layer_name (layer : ArchitectureLayer) : string :=
  match layer with domain => "domain" | application => "application" end.

(** A relative specifier that leads into a layer. *)
Definition leads_into (repositoryRoot : path) (layer : ArchitectureLayer) (file : path) (specifier : string) : Prop :=
  starts_with "." specifier = true ∧
  ∃ rest, resolve_from (dirname file) specifier = SOURCE_ROOT repositoryRoot ++ layer_name layer :: rest.

Definition allowed (repositoryRoot : path) (layer : ArchitectureLayer) (file : path) (specifier : string) : Prop :=
  match layer with
  | domain => leads_into repositoryRoot domain file specifier
  | application =>
      leads_into repositoryRoot domain file specifier ∨ leads_into repositoryRoot application file specifier ∨
      starts_with "#" specifier = true
  end.

Lemma topLevelLayer_below root rest :
  normal rest → topLevelLayer (relative_text root (root ++ rest)) = default "" (head rest).
Proof.
  intros Hn. unfold relative_text, topLevelLayer. rewrite relative_below.
  destruct rest as [|c rest]; [done|]. by rewrite split_join.
Qed.

(** The head of the way is a layer exactly when the file is in it. *)
Lemma top_level_iff root p layer : normal p →
  (starts_with ".." (relative_text root p) = false ∧ topLevelLayer (relative_text root p) = layer_name layer) ↔
  ∃ rest, p = root ++ layer_name layer :: rest.
Proof.
  intros Hp. split.
  - intros [Hd Ht]. destruct (decide (root `prefix_of` p)) as [[rest ->]|Hn].
    + apply normal_app in Hp as [_ Hp]. rewrite topLevelLayer_below in Ht by done.
      destruct rest as [|c rest]; [by destruct layer|]. cbn in Ht. subst c. by exists rest.
    + apply relative_outside in Hn as [t Hn]. apply not_true_iff_false in Hd. destruct Hd. apply starts_with_iff. by exists t.
  - intros [rest ->]. apply normal_app in Hp as [_ Hp]. rewrite topLevelLayer_below by done. split; [|done].
    unfold relative_text. rewrite relative_below. destruct (head_text (layer_name layer) rest) as [t ->]. by destruct layer.
Qed.

Section classify.
Context (repositoryRoot : path).
Implicit Types (layer : ArchitectureLayer) (file : path).

Lemma relative_allowed file layer specifier :
  normal file → starts_with "." specifier = true →
  classifyRelativeImport repositoryRoot file layer specifier = None ↔
  allowed repositoryRoot layer file specifier.
Proof.
  intros Hn Hs. unfold classifyRelativeImport. rewrite normalizePath_id.
  assert (normal (resolve_from (dirname file) specifier)) as Hr by (by apply normal_resolve_from, normal_removelast).
  assert (starts_with "#" specifier = false) as Hh by (by destruct specifier as [|[[] [] [] [] [] [] [] []] ?]).
  assert (∀ l, leads_into repositoryRoot l file specifier ↔
    starts_with ".." (relative_text (SOURCE_ROOT repositoryRoot) (resolve_from (dirname file) specifier)) = false ∧
    topLevelLayer (relative_text (SOURCE_ROOT repositoryRoot) (resolve_from (dirname file) specifier)) = layer_name l) as Hl.
  { intros l. rewrite (top_level_iff _ _ l Hr). unfold leads_into. naive_solver. }
  destruct layer; unfold allowed; rewrite !Hl, ?Hh; cbn [layer_name];
    generalize (relative_text (SOURCE_ROOT repositoryRoot) (resolve_from (dirname file) specifier)); intros text;
    generalize (topLevelLayer text); intros t;
    destruct (starts_with ".." text); [by split; [|intros [[=] _]]| |by split; [|intros [[[=] _]|[[[=] _]|[=]]]]|].
  - destruct (String.eqb_spec t "domain"); cbn [negb]; split; [done|done|done|by intros [_ ?]].
  - destruct (String.eqb_spec t "domain") as [|Hd]; cbn [orb]; [split; [by left|done]|].
    destruct (String.eqb_spec t "application") as [|Ha]; [split; [by right; left|done]|].
    split; [by case_match|]. by intros [[_ ?]|[[_ ?]|[=]]].
Qed.

(** No list of forbidden modules has a relative specifier or one with a hash. *)
Lemma not_a_package specifier c :
  c = "."%char ∨ c = "#"%char → first_unit specifier = Some c →
  starts_with "node:" specifier = false ∧
  (existsb (String.eqb specifier) FORBIDDEN_BUN_MODULES || starts_with "bun:" specifier) = false ∧
  existsb (String.eqb specifier) FORBIDDEN_NODE_MODULES = false ∧
  existsb (λ prefix, String.eqb specifier prefix || starts_with prefix specifier) FORBIDDEN_PACKAGE_PREFIXES = false.
Proof. intros Hc. destruct specifier as [|d s]; [done|]. intros [= ->]. by destruct Hc as [-> | ->]. Qed.

Lemma starts_with_unit c s : starts_with (String c "") s = true ↔ first_unit s = Some c.
Proof. rewrite starts_with_iff. destruct s as [|d s]; [split; [by intros []|done]|]. cbn. split; [by intros [? [= -> ?]]|intros [= ->]; by exists s]. Qed.

(** An import passes exactly when it is allowed. *)
Lemma classifyImport_iff file layer specifier : normal file →
  classifyImport repositoryRoot file layer specifier = None ↔ allowed repositoryRoot layer file specifier.
Proof.
  intros Hn. unfold classifyImport. destruct (starts_with "." specifier) eqn:Hdot.
  { pose proof Hdot as Hf%starts_with_unit. apply not_a_package in Hf as (-> & -> & -> & ->); [|by left].
    by apply relative_allowed. }
  assert (∀ l, ¬ leads_into repositoryRoot l file specifier) as Hno by (intros l [Ht _]; congruence).
  destruct layer; cbn [allowed].
  - split; [by repeat case_match|]. by intros ?%Hno.
  - destruct (starts_with "#" specifier) eqn:Hh.
    + pose proof Hh as Hf%starts_with_unit. apply not_a_package in Hf as (-> & -> & -> & ->); [|by right]. naive_solver.
    + split; [by repeat case_match|]. naive_solver.
Qed.

(** Every violation is an import that is not allowed. *)
Lemma analyzeSource_nil file source layer : normal file →
  analyzeSource repositoryRoot file source (Some layer) = [] ↔ Forall (allowed repositoryRoot layer file) (imports source).
Proof.
  intros Hn. unfold analyzeSource. induction (imports source) as [|s l IH]; [done|]. cbn [omap list_omap].
  rewrite Forall_cons, <- (classifyImport_iff file layer s Hn).
  destruct (classifyImport repositoryRoot file layer s); cbn; [naive_solver|]. rewrite IH. naive_solver.
Qed.

Lemma analyzeSource_elem file source layer v : normal file →
  v ∈ analyzeSource repositoryRoot file source (Some layer) →
  av_file v = file ∧ av_specifier v ∈ imports source ∧ ¬ allowed repositoryRoot layer file (av_specifier v).
Proof.
  intros Hn. unfold analyzeSource. rewrite list_elem_of_omap. intros (s & Hs & Hv).
  destruct (classifyImport repositoryRoot file layer s) eqn:Hc; [|done].
  injection Hv as <-. cbn. split_and!; [done..|]. rewrite <- (classifyImport_iff file layer s Hn). congruence.
Qed.
End classify.

(** ** The files *)

Lemma includes_middle sub a b : includes sub (a ++ sub ++ b)%string = true.
Proof.
  induction a as [|c a IH]; cbn [append].
  - assert (starts_with sub (sub ++ b)%string = true) as Hs by (apply starts_with_iff; by exists b).
    destruct (sub ++ b)%string; cbn [includes]; by rewrite Hs.
  - cbn [includes]. by rewrite IH, orb_true_r.
Qed.

Lemma path_text_app p q : q ≠ [] → ∃ t, path_text (p ++ q) = (t ++ path_text q)%string.
Proof.
  intros Hq. induction p as [|c p [t IH]]; [by exists ""|]. exists ("/" ++ c ++ t)%string.
  unfold path_text in *. cbn [app].
  assert (join "/" (c :: p ++ q) = (c ++ "/" ++ join "/" (p ++ q))%string) as -> by (by destruct p, q).
  rewrite IH. cbn. by rewrite append_assoc.
Qed.

(** A file below the directory of a layer is of this layer or, when the name of the
    domain is on its way too, of the domain. *)
Lemma layerForFile_below root layer rel : rel ≠ [] →
  ∃ l, layerForFile (path_text (root ++ "src" :: layer_name layer :: rel)) = Some l ∧ (l = layer ∨ l = domain).
Proof.
  intros Hr. destruct (path_text_app root ("src" :: layer_name layer :: rel)) as [t Ht]; [done|].
  unfold layerForFile. rewrite normalizePath_id, Ht.
  assert (path_text ("src" :: layer_name layer :: rel) = ("/src/" ++ layer_name layer ++ "/" ++ join "/" rel)%string) as ->
    by (by destruct rel).
  destruct layer; cbn [layer_name].
  - exists domain. split; [|by left]. pose proof (includes_middle "/src/domain/" t (join "/" rel)) as Hi.
    change ("/src/domain/" ++ join "/" rel)%string with ("/src/" ++ "domain" ++ "/" ++ join "/" rel)%string in Hi. by rewrite Hi.
  - pose proof (includes_middle "/src/application/" t (join "/" rel)) as Hi.
    change ("/src/application/" ++ join "/" rel)%string with ("/src/" ++ "application" ++ "/" ++ join "/" rel)%string in Hi.
    rewrite Hi. cbn [orb]. case_match; [exists domain|exists application]; auto.
Qed.

Lemma allowed_domain root layer file specifier : allowed root domain file specifier → allowed root layer file specifier.
Proof. destruct layer; [done|by left]. Qed.

(** The files of a directory: what is a regular file with such a name, in a
    directory that is reached without following a link. *)
Inductive typescript_file `{SourceTree Disk} (d : Disk) : path → path → Prop :=
| ts_here directory name bytes : is_component name → node_at d (directory ++ [name]) = Some (n_file bytes) →
    is_typescript name = true → typescript_file d directory (directory ++ [name])
| ts_below directory name p : is_component name → node_at d (directory ++ [name]) = Some n_directory →
    typescript_file d (directory ++ [name]) p → typescript_file d directory p.

(** What an entry gives. *)
Definition entry_gives `{SourceTree Disk} (d : Disk) (directory : path) (name : string) (k : kind) (p : path) : Prop :=
  match k with
  | k_directory => typescript_file d (directory ++ [name]) p
  | k_file => is_typescript name = true ∧ p = directory ++ [name]
  | _ => False
  end.

Section files.
Context {Disk} `{SourceTree Disk} {writes} {laws : SourceTreeLaws Disk writes}.
Implicit Types d : Disk.

Lemma typescript_file_below d directory p :
  typescript_file d directory p → ∃ rel, rel ≠ [] ∧ normal rel ∧ p = directory ++ rel.
Proof.
  induction 1 as [directory name bytes Hc _ _|directory name p Hc _ _ (rel & _ & Hn & ->)].
  - exists [name]. split_and!; [done|by apply Forall_singleton|done].
  - exists (name :: rel). split_and!; [done|by apply Forall_cons_2|by rewrite <- app_assoc].
Qed.

Lemma typescript_file_same d d' directory p :
  unchanged d d' → typescript_file d directory p → typescript_file d' directory p.
Proof. intros [Hn _]. induction 1; [eapply ts_here|eapply ts_below]; rewrite ?Hn; done. Qed.

Lemma entry_gives_below d directory name k p :
  entry_gives d directory name k p → ∃ rel, p = directory ++ name :: rel.
Proof.
  destruct k; try done.
  - intros [_ ->]. by exists [].
  - intros (rel & _ & _ & ->)%typescript_file_below. exists rel. by rewrite <- app_assoc.
Qed.

(** The entries of a directory give its files. *)
Lemma entries_give d directory (entries : list (string * kind)) p :
  (∀ name k, (name, k) ∈ entries ↔ is_component name ∧ kind_of <$> node_at d (directory ++ [name]) = Some k) →
  typescript_file d directory p ↔ ∃ name k, (name, k) ∈ entries ∧ entry_gives d directory name k p.
Proof.
  intros Hes. split.
  - intros Hp. inversion Hp as [? name bytes Hc Hn Ht|? name ? Hc Hn Hb]; subst.
    + exists name, k_file. rewrite Hes, Hn. done.
    + exists name, k_directory. rewrite Hes, Hn. done.
  - intros (name & k & [Hc Hk]%Hes & Hg). destruct (node_at d (directory ++ [name])) as [n|] eqn:Hn; [|done].
    injection Hk as <-. destruct n; try done.
    + destruct Hg as [Ht ->]. by eapply ts_here.
    + by eapply ts_below.
Qed.

(** A listing: nothing is changed, and the files are those of [gives] or the
    listing stopped. *)
Definition lists (gives : path → Prop) (stopped : sync_error → Prop) d (before : list path)
    (r : outcome sync_error (list path)) (d' : Disk) (t : list Disk) : Prop :=
  Forall (unchanged d) (d' :: t) ∧
  match r with
  | Ret files => ∃ new, files = before ++ new ∧ NoDup new ∧ ∀ p, p ∈ new ↔ gives p
  | Throw e => silent e ∨ stopped e
  end.

Lemma list_entries_runs n directory (rec : path → Io.io Disk sync_error (list path)) (entries : list (string * kind)) files d :
  normal directory → NoDup entries.*1 →
  (∀ p d, normal p → runs (rec p) (lists (typescript_file d p) (λ e, too_deep n p e d) d []) d) →
  (∀ name k, (name, k) ∈ entries → is_component name ∧ kind_of <$> node_at d (directory ++ [name]) = Some k) →
  runs (list_entries rec directory entries files)
    (lists (λ p, ∃ name k, (name, k) ∈ entries ∧ entry_gives d directory name k p)
       (λ e, too_deep (S n) directory e d) d files) d.
Proof.
  intros Hd Hnd Hrec. revert files d. induction entries as [|[name k] entries IH]; intros files d Hes.
  { apply runs_ret. split; [by apply Forall_singleton|]. exists []. rewrite app_nil_r. split_and!; [done|constructor|].
    intros p. split; [by intros ?%elem_of_nil|]. by intros (? & ? & ?%elem_of_nil & _). }
  cbn [fmap list_fmap] in Hnd. apply NoDup_cons in Hnd as [Hname Hnd]. specialize (IH Hnd).
  destruct (Hes name k) as [Hc Hk]; [by left|]. cbn [list_entries]. rewrite (resolve_from_component directory name Hc).
  assert (∀ here d1 t1, Forall (unchanged d) (d1 :: t1) → NoDup here → (∀ p, p ∈ here ↔ entry_gives d directory name k p) →
    runs (list_entries rec directory entries (files ++ here)) (λ r d' t,
      lists (λ p, ∃ name' k', (name', k') ∈ (name, k) :: entries ∧ entry_gives d directory name' k' p)
        (λ e, too_deep (S n) directory e d) d files r d' (t1 ++ t)) d1) as Hrest.
  { intros here d1 t1 Ht1 Hh Hin. inversion Ht1 as [|?? Hu _]; subst. eapply runs_mono.
    { apply (IH (files ++ here) d1). intros name' k' Hin'. destruct Hu as [Hu _]. rewrite Hu. apply Hes. by right. }
    intros r d' t [Ht Hr]. split; [by eapply moves_chain; [apply _|..]|].
    destruct r as [all|e]; [|destruct Hr as [?|Hdeep]; [by left|right; eapply too_deep_same; [by apply unchanged_sym|done]]].
    destruct Hr as (new & -> & Hnew & Hg). exists (here ++ new). rewrite app_assoc. split; [done|].
    assert (∀ p, p ∈ new ↔ ∃ name' k', (name', k') ∈ entries ∧ entry_gives d directory name' k' p) as Hg'.
    { intros p. rewrite Hg. split; intros (name' & k' & Hin' & Hp); exists name', k'; (split; [done|]);
        destruct k'; try done; (eapply typescript_file_same; [|done]); [by apply unchanged_sym|done]. }
    split.
    - apply NoDup_app. split_and!; [done| |done]. intros p Hp (name' & k' & Hin' & Hp')%Hg'.
      apply Hin in Hp. apply entry_gives_below in Hp as [rel ->], Hp' as [rel' He].
      apply app_inv_head in He. injection He as -> _. apply Hname. apply list_elem_of_fmap. by exists (name', k').
    - intros p. rewrite elem_of_app, Hin, Hg'. setoid_rewrite elem_of_cons. split.
      + intros [Hp|(name' & k' & Hin' & Hp)]; [exists name, k; auto|exists name', k'; auto].
      + intros (name' & k' & [[= -> ->]|Hin'] & Hp); [by left|right; by exists name', k']. }
  assert (Forall (unchanged d) [d]) as Hself by (by apply Forall_singleton).
  assert (∀ p, p ∈ ([] : list path) ↔ False) as Hnone by (intros p; split; [by intros ?%elem_of_nil|done]).
  destruct k; [| |specialize (Hrest [] d [] Hself ltac:(constructor) Hnone); by rewrite app_nil_r in Hrest..].
  - destruct (is_typescript name) eqn:Ht.
    + apply (Hrest [directory ++ [name]] d []); [done|apply NoDup_singleton|]. intros p. rewrite list_elem_of_singleton. cbn. naive_solver.
    + assert (∀ p, p ∈ ([] : list path) ↔ entry_gives d directory name k_file p) as Hg.
      { intros p. rewrite Hnone. cbn. rewrite Ht. naive_solver. }
      specialize (Hrest [] d [] Hself ltac:(constructor) Hg). by rewrite app_nil_r in Hrest.
  - assert (node_at d (directory ++ [name]) = Some n_directory) as Hdir
      by (destruct (node_at d (directory ++ [name])) as [[]|]; by simplify_eq/=).
    assert (normal (directory ++ [name])) as Hsub by (apply normal_app; split; [done|by apply Forall_singleton]).
    apply runs_bind. eapply runs_mono; [by apply Hrec|]. intros [l|e] d1 t1 [Ht1 Hr].
    + destruct Hr as (new & -> & Hnew & Hg). by apply Hrest.
    + split; [done|]. destruct Hr as [?|?]; [by left|right; by eapply too_deep_below].
Qed.

Lemma listTypeScriptFiles_runs n directory d : normal directory →
  runs (listTypeScriptFiles n directory) (lists (typescript_file d directory) (λ e, too_deep n directory e d) d []) d.
Proof.
  revert directory d. induction n as [|n IH]; intros directory d Hd.
  { apply runs_throw. split; [by apply Forall_singleton|]. right. split; [done|]. intros Hdir. exists []. by rewrite app_nil_r. }
  cbn [listTypeScriptFiles]. apply runs_bind, runs_call. intros r d1 Hr.
  pose proof (readdir_unchanged directory d) as Hu. rewrite Hr in Hu. cbn in Hu.
  assert (Forall (unchanged d) [d1; d1]) as Hs by (by repeat apply Forall_cons_2).
  destruct r as [entries|e]; [|split; [done|]; left; by eexists].
  pose proof (readdir_lists directory d entries) as Hl. rewrite Hr in Hl. destruct (Hl eq_refl) as [Hnd Hes].
  assert (∀ name k, (name, k) ∈ entries ↔ is_component name ∧ kind_of <$> node_at d1 (directory ++ [name]) = Some k) as Hes1
    by (destruct Hu as [Hn _]; intros; by rewrite Hn).
  eapply runs_mono.
  { apply (list_entries_runs n directory _ entries [] d1 Hd Hnd); [by intros; apply IH|]. intros. by apply Hes1. }
  intros r d' t [Ht Hg]. split; [by eapply moves_chain; [apply _|..]|].
  destruct r as [files|e]; [|destruct Hg as [?|?]; [by left|right; eapply too_deep_same; [by apply unchanged_sym|done]]].
  destruct Hg as (new & -> & Hnew & Hg). exists new. split_and!; [done..|]. intros p. rewrite Hg, <- (entries_give d1) by done.
  split; intros ?; (eapply typescript_file_same; [|done]); [by apply unchanged_sym|done].
Qed.
End files.

(** ** The check *)

Section run.
Context {Disk} `{SourceTree Disk} {writes} {laws : SourceTreeLaws Disk writes}.
Context (repositoryRoot : path) (depth : nat) (Hroot : normal repositoryRoot).
Implicit Types d : Disk.

Definition layer_root (layer : ArchitectureLayer) : path := SOURCE_ROOT repositoryRoot ++ [layer_name layer].

(** What the script says of the tree. *)
Definition architecture_checked d (r : outcome sync_error unit) : Prop :=
  match r with
  | Ret _ =>
      ∀ layer file, typescript_file d (layer_root layer) file →
        ∃ source, content_at d file = Some source ∧ Forall (allowed repositoryRoot layer file) (imports source)
  | Throw (failure _) =>
      ∃ layer checked file source specifier, typescript_file d (layer_root layer) file ∧
        layerForFile (path_text file) = Some checked ∧ content_at d file = Some source ∧
        specifier ∈ imports source ∧ ¬ allowed repositoryRoot checked file specifier
  | Throw (platform_error _) => True
  | Throw depth_exceeded => ∃ layer, too_deep depth (layer_root layer) depth_exceeded d
  | Throw _ => False
  end.

(** What reading one file gives. *)
Definition inspected d (file : path) (violations : list ArchitectureViolation) : Prop :=
  match layerForFile (path_text file) with
  | None => violations = []
  | Some layer => ∃ source, content_at d file = Some source ∧ violations = analyzeSource repositoryRoot file source (Some layer)
  end.

Lemma inspected_same d d' file violations : unchanged d d' → inspected d file violations → inspected d' file violations.
Proof. intros [_ Hc]. unfold inspected. by rewrite Hc. Qed.

Lemma analyze_files_runs files before d :
  runs (analyze_files repositoryRoot files before) (λ r d' t, Forall (unchanged d) (d' :: t) ∧
    match r with
    | Ret violations => ∃ found, Forall2 (inspected d) files found ∧ violations = before ++ concat found
    | Throw e => silent e
    end) d.
Proof.
  revert before d. induction files as [|file files IH]; intros before d; cbn [analyze_files].
  { apply runs_ret. split; [by apply Forall_singleton|]. exists []. split; [constructor|]. by rewrite app_nil_r. }
  destruct (layerForFile (path_text file)) as [layer|] eqn:Hlayer.
  - apply runs_bind, runs_call. intros r d1 Hr. pose proof (readFile_unchanged file d) as Hu.
    pose proof (readFile_reads file d) as Hb. rewrite Hr in Hu, Hb. cbn in Hu.
    assert (Forall (unchanged d) [d1; d1]) as Hs by (by repeat apply Forall_cons_2).
    destruct r as [source|e]; [specialize (Hb source eq_refl)|split; [done|by eexists]].
    eapply runs_mono; [apply IH|]. intros r d' t [Ht Hf]. split; [by eapply moves_chain; [apply _|..]|].
    destruct r as [violations|e]; [|done]. destruct Hf as (found & Hf & ->).
    exists (analyzeSource repositoryRoot file source (Some layer) :: found). split.
    + constructor; [unfold inspected; rewrite Hlayer; by exists source|].
      eapply Forall2_impl; [exact Hf|]. intros. eapply inspected_same; [by apply unchanged_sym|done].
    + cbn. by rewrite <- app_assoc.
  - eapply runs_mono; [apply IH|]. intros r d' t [Ht Hf]. split; [done|].
    destruct r as [violations|e]; [|done]. destruct Hf as (found & Hf & ->). exists ([] :: found).
    split; [|done]. constructor; [|done]. unfold inspected. by rewrite Hlayer.
Qed.

Lemma layer_root_normal layer : normal (layer_root layer).
Proof. apply normal_app. split; [by apply normal_resolve|]. apply Forall_singleton. by destruct layer. Qed.

(** What a file below a layer is checked as. *)
Lemma checked_as d layer file found : typescript_file d (layer_root layer) file → inspected d file found →
  normal file ∧ ∃ checked source, (checked = layer ∨ checked = domain) ∧ layerForFile (path_text file) = Some checked ∧
    content_at d file = Some source ∧ found = analyzeSource repositoryRoot file source (Some checked).
Proof.
  intros (rel & Hr & Hn & ->)%typescript_file_below Hi. split; [apply normal_app; split; [apply layer_root_normal|done]|].
  destruct (layerForFile_below repositoryRoot layer rel Hr) as (l & Hl & Hor).
  assert (layer_root layer ++ rel = repositoryRoot ++ "src" :: layer_name layer :: rel) as He
    by (unfold layer_root, SOURCE_ROOT; cbn; by rewrite <- !app_assoc).
  unfold inspected in Hi. rewrite He in Hi |- *. rewrite Hl in Hi. destruct Hi as (source & Hc & ->). by exists l, source.
Qed.

Lemma files_are_checked d files found :
  (∀ file, file ∈ files ↔ typescript_file d (layer_root domain) file ∨ typescript_file d (layer_root application) file) →
  Forall2 (inspected d) files found →
  architecture_checked d (guard_throw (bool_decide (concat found = []))
    (failure ("Architecture dependency boundary check failed with " ++ decimal (Z.of_nat (length (concat found))) ++ " violation(s)")%string)).
Proof.
  intros Hfiles Hf. case_bool_decide as Hnil; cbn [guard_throw architecture_checked].
  - intros layer file Hfile. assert (file ∈ files) as Hin by (apply Hfiles; destruct layer; auto).
    apply list_elem_of_lookup in Hin as [i Hi]. destruct (Forall2_lookup_l _ _ _ _ _ Hf Hi) as (vs & Hvs & Hins).
    assert (vs = []) as -> by (apply concat_nil_Forall in Hnil; rewrite Forall_forall in Hnil; apply Hnil; by eapply list_elem_of_lookup_2).
    destruct (checked_as _ _ _ _ Hfile Hins) as (Hn & checked & source & Hor & _ & Hc & Hnone).
    exists source. split; [done|]. symmetry in Hnone. apply analyzeSource_nil in Hnone; [|done].
    destruct Hor as [-> | ->]; [done|]. eapply Forall_impl; [exact Hnone|]. intros s. apply allowed_domain.
  - destruct (concat found) as [|v vs] eqn:Hc; [done|].
    assert (In v (concat found)) as (l & Hl & Hv)%in_concat by (rewrite Hc; by left).
    apply list_elem_of_In in Hl, Hv. apply list_elem_of_lookup in Hl as [i Hi].
    destruct (Forall2_lookup_r _ _ _ _ _ Hf Hi) as (file & Hfi & Hins).
    apply list_elem_of_lookup_2 in Hfi. apply Hfiles in Hfi.
    assert (∃ layer, typescript_file d (layer_root layer) file) as [layer Hfile] by (destruct Hfi; by eexists).
    destruct (checked_as _ _ _ _ Hfile Hins) as (Hn & checked & source & _ & Hlayer & Hcontent & ->).
    apply analyzeSource_elem in Hv as (_ & Hs & Hno); [|done]. by exists layer, checked, file, source, (av_specifier v).
Qed.

Lemma listed_too_deep layer e d : silent e ∨ too_deep depth (layer_root layer) e d → architecture_checked d (Throw e).
Proof. intros [[x ->]|Hd]; [done|]. pose proof Hd as [-> _]. by exists layer. Qed.

Lemma architecture_checked_same d d' r : unchanged d d' → architecture_checked d r → architecture_checked d' r.
Proof.
  intros Hu. pose proof (unchanged_sym _ _ Hu) as Hu'. pose proof Hu as [_ Hcontent]. destruct r as [[]|[]]; cbn; try done.
  - intros Hall layer file Hf. rewrite Hcontent. apply Hall. by eapply typescript_file_same.
  - intros (layer & checked & file & source & specifier & Hf & ?). exists layer, checked, file, source, specifier.
    rewrite Hcontent. split; [by eapply typescript_file_same|done].
  - intros [layer Hd]. exists layer. by eapply too_deep_same.
Qed.

Lemma architecture_main_runs d :
  runs (main repositoryRoot depth) (λ r d' t, Forall (unchanged d) (d' :: t) ∧ architecture_checked d r) d.
Proof.
  unfold main, collectArchitectureViolations.
  change (resolve_in repositoryRoot ["src"; "domain"]) with (layer_root domain).
  change (resolve_in repositoryRoot ["src"; "application"]) with (layer_root application).
  apply runs_bind, runs_bind. eapply runs_mono; [apply (listTypeScriptFiles_runs depth), layer_root_normal|].
  intros [l1|e] d1 t1 [Ht1 H1]; [|split; [done|by apply (listed_too_deep domain)]]. destruct H1 as (files1 & -> & _ & H1).
  pose proof (Forall_inv Ht1) as Hu1. pose proof (unchanged_sym _ _ Hu1) as Hu1'.
  apply runs_bind. eapply runs_mono; [apply (listTypeScriptFiles_runs depth), layer_root_normal|].
  intros [l2|e] d2 t2 [Ht2 H2].
  2:{ split; [by eapply moves_chain; [apply _|..]|]. eapply architecture_checked_same; [exact Hu1'|by apply (listed_too_deep application)]. }
  destruct H2 as (files2 & -> & _ & H2). assert (Forall (unchanged d) (d2 :: t1 ++ t2)) as Ht12 by (by eapply moves_chain; [apply _|..]).
  pose proof (Forall_inv Ht12) as Hu2. pose proof (unchanged_sym _ _ Hu2) as Hu2'.
  eapply runs_mono; [apply analyze_files_runs|]. intros r d3 t3 [Ht3 H3].
  assert (Forall (unchanged d) (d3 :: t1 ++ t2 ++ t3)) as Ht by (rewrite app_assoc; by eapply moves_chain; [apply _|..]).
  destruct r as [violations|e]; [|split; [done|by destruct H3 as [? ->]]].
  destruct H3 as (found & Hf & ->). apply runs_lift. rewrite app_nil_r. split; [done|].
  eapply architecture_checked_same; [exact Hu2'|]. cbn [app]. eapply files_are_checked; [|exact Hf].
  intros file. unfold sort_paths. rewrite merge_sort_Permutation. cbn [app]. rewrite elem_of_app, H1, H2.
  split; (intros [?|?]; [left|right]); (eapply typescript_file_same; [|done]); try done.
  - etrans; [exact Hu1'|exact Hu2].
  - etrans; [exact Hu2'|exact Hu1].
Qed.
End run.

(** C18: the layers.  The check changes nothing.  When it passes, every import it
    reads off a TypeScript file of the domain is relative and leads into the domain,
    and one of the application leads into the domain or the application or is an
    alias that begins with a hash, for every file of the two directories that is
    reached without following a link; when it fails, there is such a file with an
    import that is not allowed, or a call failed or the tree is deeper than the
    fuel. *)
Theorem imports_stay_in_their_layers {Disk} `{SourceTree Disk} writes (laws : SourceTreeLaws Disk writes)
    (repositoryRoot : path) (depth : nat) (d : Disk) (Hroot : normal repositoryRoot) :
  let '(r, d', states) := main repositoryRoot depth d in
  Forall (unchanged d) (d' :: states) ∧ architecture_checked repositoryRoot depth d r.
Proof. exact (architecture_main_runs (laws := laws) repositoryRoot depth Hroot d). Qed.

(** ** An example *)

Definition architecture_disk (source : string) : repo := {|
  rp_nodes := ((λ p : path, (p, n_directory)) <$>
      [[]; ["r"]; ["r"; "src"]; ["r"; "src"; "domain"]; ["r"; "src"; "domain"; "x"]; ["r"; "src"; "application"]]) ++
    [(["r"; "src"; "domain"; "x"; "a.ts"], n_file source); (["r"; "src"; "domain"; "notes.md"], n_file "import 'node:fs'");
     (["r"; "src"; "application"; "b.ts"], n_file "import { a } from '../domain/x/a.ts'; export * from '#c';")];
  rp_reply := λ _, {| exitCode := 0; stdout := "" |};
  rp_plan := [] |}.
Definition architecture_main (depth : nat) (d : repo) : outcome sync_error unit * repo * list repo :=
  main (H := repo_tree (λ _, [])) ["r"] depth d.

(** A tree that passes, one that does not, and one that is too deep. *)
Lemma imports_stay_in_their_layers_witness :
  let after depth d := let '(r, d', states) := architecture_main depth d in
    Forall (unchanged (H := repo_tree (λ _, [])) d) (d' :: states) ∧
    architecture_checked (H := repo_tree (λ _, [])) ["r"] depth d r in
  let good := architecture_disk "import type { c } from '../c.ts';" in
  let bad := architecture_disk "import { b } from '../../application/b.ts'; import('node:fs')" in
  (architecture_main 3 good).1.1 = Ret tt ∧ after 3 good ∧
  (architecture_main 3 bad).1.1 = Throw (failure "Architecture dependency boundary check failed with 2 violation(s)") ∧ after 3 bad ∧
  (architecture_main 1 good).1.1 = Throw depth_exceeded ∧ after 1 good.
Proof.
  intros after good bad. split_and!.
  - vm_compute. reflexivity.
  - apply (imports_stay_in_their_layers (git_writes ["r"]) (repo_laws (λ _, []) ["r"])). by repeat constructor.
  - vm_compute. reflexivity.
  - apply (imports_stay_in_their_layers (git_writes ["r"]) (repo_laws (λ _, []) ["r"])). by repeat constructor.
  - vm_compute. reflexivity.
  - apply (imports_stay_in_their_layers (git_writes ["r"]) (repo_laws (λ _, []) ["r"])). by repeat constructor.
Defined.

(** An import without names before an import with names is not read: the lazy
    repetition runs over it to the next [from]. *)
Lemma bare_import_is_not_read :
  imports "import 'node:fs'; import { c } from '../c.ts';" = ["../c.ts"] ∧
  (architecture_main 3 (architecture_disk "import 'node:fs'; import { c } from '../c.ts';")).1.1 = Ret tt.
Proof. split; vm_compute; reflexivity. Qed.
