(* ===== verification/PackageVerify.v ===== *)
(** * PackageVerify

    [src/scripts/verify-package.ts]: the staged package is packed without being
    written, its list of files and its metadata are checked, and it is installed
    into clean directories, where the extension must be found inside the package.

    [launch] runs a program in a directory with more variables in its environment
    and gives its exit code and what it wrote to its two outputs; [realpath] is the
    call of that name.  The answers of npm are read at the type the code casts them
    to, with integers as sizes; the environment is a function. *)

From Stdlib Require Import Lia.
From stdpp Require Import gmap strings.
From S2P Require Import Prelude StructuredJson Io Paths Workspace Json Protocol Compaction RequestGuard JsRegex Launch.
From S2P Require Import Vendor VendorRepo VendorFacts Package.

Record PackFile := { pf_path : string; pf_size : Z }.
Record PackResult := { pr_files : list PackFile; pr_filename : option string; pr_unpackedSize : option Z }.

Definition piSdkPackages : list string :=
  ["@earendil-works/pi-agent-core"; "@earendil-works/pi-ai"; "@earendil-works/pi-coding-agent"; "@earendil-works/pi-tui"].

(** ** The list of files *)

Definition normalizePackagePath (p : string) : string :=
  if starts_with "package/" p then Render.str_drop (String.length "package/") p else p.

Definition plain (s : string) : bool * regex := (false, literal s).
(** A unit that is no line terminator. *)
Definition in_line (c : ascii) : bool := negb (is_line_break c).

Definition PACKAGE_PATH_ALLOWLIST : list (list (bool * regex)) := [
  [plain "LICENSE"];
  [plain "README.md"];
  [plain "package.json"];
  [plain "src/"; (false, RMany 1 in_line); plain "."; (false, RAlt (literal "md") (literal "ts"))];
  [plain "native/bin/"; (false, RMany 1 target_rest); plain "/";
   (false, RAlt (RSeq (literal "codex-bridge") (ROpt (literal ".exe"))) (literal "native-artifact.json"))]].

Definition unexpectedPackagePaths (paths : list string) (allowedPaths : list (list (bool * regex))) : list string :=
  List.filter (λ p, negb (existsb (λ pattern, test_whole pattern p) allowedPaths)) paths.

Definition REQUIRED_PACKAGE_FILES : list string := ["LICENSE"; "README.md"; "package.json"; "src/extension.ts"].

Definition missing_required (paths : list string) : option string :=
  List.find (λ requiredFile, negb (js_elem requiredFile paths)) REQUIRED_PACKAGE_FILES.

Definition NATIVE_FILE : list (bool * regex) := [
  plain "native/bin/"; (true, RMany 1 (none_of "/")); plain "/";
  (true, RAlt (RSeq (literal "codex-bridge") (ROpt (literal ".exe"))) (literal "native-artifact.json"))].

Definition add_native_file (targets : gmap string (gset string)) (p : string) : gmap string (gset string) :=
  match exec_whole NATIVE_FILE p with
  | Some [target; file] =>
      if js_elem target SUPPORTED_NATIVE_TARGETS
      then <[target := default ∅ (targets !! target) ∪ {[file]}]> targets else targets
  | _ => targets
  end.

Definition executable_of (target : string) : string :=
  if includes "windows" target then "codex-bridge.exe" else "codex-bridge".

Definition hasCompleteNativeArtifact (paths : list string) : bool :=
  existsb (λ '((target, files) : string * gset string), bool_decide ("native-artifact.json" ∈ files) && bool_decide (executable_of target ∈ files))
    (map_to_list (fold_left add_native_file paths ∅)).

(** ** The answers of npm *)

Definition pack_file (v : jsval) : outcome sync_error PackFile :=
  p ← prop v "path"; size ← prop v "size";
  match p, size with
  | VStr p, VNum n => match num_integer n with Some size => Ret {| pf_path := p; pf_size := size |} | None => Throw type_error end
  | _, _ => Throw type_error
  end.
Definition optional_size (v : jsval) : outcome sync_error (option Z) :=
  match v with
  | VUndef | VNull => Ret None
  | VNum n => match num_integer n with Some size => Ret (Some size) | None => Throw type_error end
  | _ => Throw type_error
  end.

Definition NO_RESULT : sync_error := failure "npm pack returned no package result".

(** The first value of what was parsed; the values of a text are texts. *)
Definition first_value (parsed : jsval) : outcome sync_error jsval :=
  match parsed with
  | VArr l => Ret (default VUndef (head l))
  | VObj fs => Ret (default VUndef (head (object_order fs).*2))
  | VNull | VUndef => Throw type_error
  | _ => Ret VUndef
  end.

Definition pack_result (result : jsval) : outcome sync_error PackResult :=
  match result with
  | VUndef => Throw NO_RESULT
  | _ =>
      files ← prop result "files";
      match files with
      | VArr l =>
          files ← map_throw pack_file l;
          filename ← prop result "filename";
          unpackedSize ← prop result "unpackedSize";
          unpackedSize ← optional_size unpackedSize;
          Ret {| pr_files := files; pr_filename := match filename with VStr s => Some s | _ => None end;
                 pr_unpackedSize := unpackedSize |}
      | _ => Throw NO_RESULT
      end
  end.

Definition unpacked_size (result : PackResult) : Z :=
  default (foldr Z.add 0%Z (pf_size <$> pr_files result)) (pr_unpackedSize result).

(** ** The metadata *)

(** [v?.k]. *)
Definition chain (v : jsval) (k : string) : outcome sync_error jsval :=
  match v with VNull | VUndef => Ret VUndef | _ => prop v k end.
Definition is_undefined (v : jsval) : bool := match v with VUndef => true | _ => false end.
Definition is_string (v : jsval) : bool := match v with VStr _ => true | _ => false end.

(** The check of one package of the SDK: a peer and no dependency. *)
Definition check_peer (packageJson : jsval) (packageName : string) : outcome sync_error unit :=
  peerDependencies ← prop packageJson "peerDependencies";
  peer ← chain peerDependencies packageName;
  guard_throw (is_value peer "*")
    (failure ("Staged package must declare " ++ packageName ++ " as a host-provided wildcard peer")%string);;
  dependencies ← prop packageJson "dependencies";
  dependency ← chain dependencies packageName;
  guard_throw (is_undefined dependency)
    (failure ("Staged package must not include " ++ packageName ++ " as a production dependency")%string).

Fixpoint check_peers (packageJson : jsval) (names : list string) : outcome sync_error unit :=
  match names with
  | [] => Ret tt
  | name :: names => check_peer packageJson name;; check_peers packageJson names
  end.

Definition check_metadata (packageJson : jsval) : outcome sync_error unit :=
  name ← prop packageJson "name"; version ← prop packageJson "version";
  guard_throw (is_value name "pi-codex-adaptor" && is_string version) (failure "Staged package metadata is invalid");;
  check_peers packageJson piSdkPackages.

(** ** The entry of the extension *)

Definition ESCAPES_PACKAGE : sync_error := failure "Installed Pi extension entry escapes the package root".

(** [/^[A-Za-z]:/] *)
Definition has_drive (s : string) : bool :=
  match s with String c (String d _) => is_alpha c && Ascii.eqb d ":" | _ => false end.

Definition valid_entry (entry : string) : bool :=
  negb (String.eqb entry "") && String.eqb entry (trim entry) && negb (includes "\" entry) &&
  negb (has_unit (ascii_of_N 0) entry) && negb (has_drive entry).

Definition resolvePackageExtension (packageRoot : path) (entry : jsval) : outcome sync_error path :=
  let invalid := failure "Installed package does not declare a valid Pi extension entry" in
  match entry with
  | VStr entry =>
      guard_throw (valid_entry entry) invalid;;
      let extension := resolve_from packageRoot entry in
      guard_throw (negb (escapes (relative_text packageRoot extension))) ESCAPES_PACKAGE;;
      Ret extension
  | _ => Throw invalid
  end.

Definition resolveDeclaredPackageExtension (packageRoot : path) (entries : jsval) : outcome sync_error path :=
  match entries with
  | VArr [entry] => resolvePackageExtension packageRoot entry
  | _ => Throw (failure "Installed package must declare exactly one Pi extension entry")
  end.

Definition INCOMPATIBLE : string := "Pi host is incompatible: requires extension SDK API version 1".
Definition assertIncompatiblePiHostRejected (exitCode : Z) (stderr : string) : outcome sync_error unit :=
  guard_throw (includes INCOMPATIBLE stderr && negb (exitCode =? 0)%Z)
    (failure ("Exact-tarball clean install did not reject the incompatible Pi host (status " ++ integer_text exitCode ++ ")")%string).

(** ** The script *)

(** What is logged at the end; [re_sha256] is the digest that is logged before. *)
Record report := {
  re_files : nat; re_unpackedSize : Z; re_native : bool; re_smokeInstall : bool; re_tarball : option path;
  re_sha256 : string }.

(** A text of the script, which has double quotes where this has single ones. *)
Fixpoint double_quoted (s : string) : string :=
  match s with
  | EmptyString => EmptyString
  | String c s => String (if Ascii.eqb c "'" then ascii_of_N 34 else c) (double_quoted s)
  end.

Definition UPSTREAM_PROBE : string := double_quoted (join line_feed [
  "import { discoverAndLoadExtensions } from '@earendil-works/pi-coding-agent';";
  "const extensionPath = process.argv[2];";
  "const result = await discoverAndLoadExtensions([extensionPath], process.cwd(), process.env.HOME);";
  "if (result.errors.length > 0) throw new Error(result.errors.map((entry) => entry.error).join('; '));"]).
Definition PRIVATE_PROBE : string := double_quoted (join line_feed [
  "import { discoverAndLoadExtensions } from '@earendil-works/pi-coding-agent';";
  "const extensionPath = process.argv[2];";
  "const result = await discoverAndLoadExtensions([extensionPath], process.cwd(), process.env.HOME);";
  "if (result.errors.length > 0 || result.extensions.length !== 1) throw new Error(result.errors.map((entry) => entry.error).join('; '));";
  "process.exit(0);"]).

Section script.
Context {Disk : Type} `{SourceTree Disk} `{JsonText} (sha256 : string → string).
Context (launch : list string → path → list (string * string) → Disk → outcome errno (Z * (string * string)) * Disk).
Context (realpath : path → Disk → outcome errno path * Disk).
Context (env : string → option string) (execPath : string) (cwd repositoryRoot tmpdir : path).

Abbreviation io A := (Io.io Disk sync_error A).

Definition run_in (directory : path) (environment : list (string * string)) (command : list string) : io string :=
  child ← fs (launch command directory environment);
  if negb (child.1 =? 0)%Z
  then fail (default "undefined" (head command) ++ " exited with status " ++ integer_text child.1)%string
  else mret child.2.1.
Definition run (command : list string) : io string := run_in repositoryRoot [] command.
Definition runBunScript (args : list string) : io unit := run ("bun" :: args);; mret tt.

Definition parse_json (text : string) : io jsval :=
  io_lift (match json_parse text with Some v => Ret v | None => Throw syntax_error end).

Definition parsePackResult (output : string) : io PackResult :=
  parsed ← parse_json output;
  result ← io_lift (first_value parsed);
  io_lift (pack_result result).

(** [parsePackResult(await run(command))] and [JSON.parse(await readFile(p))]. *)
Definition run_pack (command : list string) : io PackResult := output ← run command; parsePackResult output.
Definition read_json (p : path) : io jsval := text ← fs (tr_readFile p); parse_json text.

(** [Promise.all] of two calls with results. *)
Definition pair_of {A B} (m : io A) (n : io B) : io (A * B) := λ d,
  let '(r1, d1, t1) := m d in
  let '(r2, d2, t2) := n d1 in
  (match r1, r2 with Ret a, Ret b => Ret (a, b) | Throw e, _ | Ret _, Throw e => Throw e end, d2, t1 ++ t2).

Definition resolveInstalledPackageExtension (packageRoot : path) (entries : jsval) : io path :=
  extension ← io_lift (resolveDeclaredPackageExtension packageRoot entries);
  real ← pair_of (fs (realpath packageRoot)) (fs (realpath extension));
  io_lift (guard_throw (negb (escapes (relative_text real.1 real.2))) ESCAPES_PACKAGE);;
  mret real.2.

Definition packed_paths (result : PackResult) : list string :=
  (λ file, normalizePackagePath (pf_path file)) <$> pr_files result.

Definition packStagedTarball (destination : path) : io path :=
  fs (tr_mkdir destination);;
  result ← run_pack ["npm"; "pack"; "./dist/package"; "--json"; "--ignore-scripts"; "--pack-destination"; path_text destination];
  match pr_filename result with
  | Some filename => mret (resolve_from destination filename)
  | None => fail "npm pack returned no adaptor tarball filename"
  end.

(** The digest is what is logged. *)
Definition verifyTarball (tarball : path) (expectedPaths : list string) : io (PackResult * string) :=
  actualResult ← run_pack ["npm"; "pack"; path_text tarball; "--dry-run"; "--json"];
  io_lift (guard_throw (strs_eqb (js_sort (packed_paths actualResult)) (js_sort expectedPaths))
    (failure "Exact tarball file list differs from the verified staging file list"));;
  bytes ← fs (tr_readFile tarball);
  mret (actualResult, sha256 bytes).

Definition poison (packageRoot : path) (packageName : string) : io unit :=
  let packageDirectory := resolve_in packageRoot ["node_modules"; packageName] in
  fs (tr_mkdir packageDirectory);;
  fs (tr_writeFile (resolve_from packageDirectory "package.json")
    (stringify (VObj [("name", VStr packageName); ("type", VStr "module"); ("exports", VStr "./index.js")]) ++ line_feed)%string);;
  fs (tr_writeFile (resolve_from packageDirectory "index.js")
    ("throw new Error(" ++ stringify (VStr ("poison package imported: " ++ packageName)%string) ++ ");" ++ line_feed)%string).
Definition installPoisonPackages (packageRoot : path) : io unit := for_each (poison packageRoot) piSdkPackages.

(** The variables a host is started with. *)
Definition host_environment (piHome : path) : list (string * string) := [
  ("PI_CODING_AGENT_DIR", path_text piHome); ("PI_OFFLINE", "1"); ("HOME", path_text piHome);
  ("CODEX_HOME", path_text (resolve_from piHome "codex-home"))].

(** [resolveInstalledPackageExtension(packageRoot, metadata.pi?.extensions)]. *)
Definition installed_extension (packageRoot : path) (metadata : jsval) : io path :=
  pi ← io_lift (prop metadata "pi");
  entries ← io_lift (chain pi "extensions");
  resolveInstalledPackageExtension packageRoot entries.

Definition smokeInstallManifestTarball (tarball fixtureRoot : path) : io unit :=
  let piDirectory := resolve_from cwd (default (path_text (resolve_from repositoryRoot "../pi")) (env "PI_FORK_DIR")) in
  let piRef := match env "PI_EXTENSION_SDK_REF" with Some ref => ref | None => default "HEAD" (env "PI_FORK_REF") end in
  let piFixture := resolve_from fixtureRoot "pi-fixture" in
  let consumerDirectory := resolve_from fixtureRoot "manifest-consumer" in
  let helper := path_text (resolve_from piDirectory "scripts/local-fork-fixture.mjs") in
  run [execPath; helper; "prepare"; "--out"; path_text piFixture; "--ref"; piRef];;
  run [execPath; helper; "create-consumer"; "--manifest"; path_text (resolve_from piFixture "pi-sdk-manifest.json");
       "--directory"; path_text consumerDirectory; "--dependency"; ("pi-codex-adaptor=file:" ++ path_text tarball)%string];;
  let packageRoot := resolve_in consumerDirectory ["node_modules"; "pi-codex-adaptor"] in
  metadata ← read_json (resolve_from packageRoot "package.json");
  name ← io_lift (prop metadata "name");
  io_lift (guard_throw (is_value name "pi-codex-adaptor") (failure "Manifest consumer installed an unexpected package"));;
  extensionPath ← installed_extension packageRoot metadata;
  installPoisonPackages packageRoot;;
  let loaderProbe := resolve_from consumerDirectory "verify-private-host.mjs" in
  fs (tr_writeFile loaderProbe PRIVATE_PROBE);;
  piHome ← fs (tr_mkdtemp (resolve_from tmpdir "pi-codex-adaptor-private-host-"));
  try_finally
    (run_in consumerDirectory (host_environment piHome) [execPath; path_text loaderProbe; path_text extensionPath];; mret tt)
    (fs (tr_rm piHome)).

Definition npm_install (packages : list string) (installRoot : path) : list string :=
  ["npm"; "install"] ++ packages ++ ["--prefix"; path_text installRoot; "--ignore-scripts"; "--legacy-peer-deps"; "--no-fund"; "--no-audit"].
Definition UPSTREAM_PACKAGES : list string := [
  "@earendil-works/pi-agent-core@0.82.1"; "@earendil-works/pi-ai@0.82.1"; "@earendil-works/pi-coding-agent@0.82.1";
  "@earendil-works/pi-tui@0.82.1"; "typebox@1.3.6"].

Definition install_and_load (tarball installRoot piHome : path) : io unit :=
  run (npm_install UPSTREAM_PACKAGES installRoot);;
  run (npm_install [path_text tarball] installRoot);;
  let packageRoot := resolve_in installRoot ["node_modules"; "pi-codex-adaptor"] in
  metadata ← read_json (resolve_from packageRoot "package.json");
  name ← io_lift (prop metadata "name"); version ← io_lift (prop metadata "version");
  io_lift (guard_throw (is_value name "pi-codex-adaptor" && is_string version)
    (failure "Clean install did not produce the expected package metadata"));;
  extensionPath ← installed_extension packageRoot metadata;
  let loaderProbe := resolve_from installRoot "verify-upstream-host.mjs" in
  fs (tr_writeFile loaderProbe UPSTREAM_PROBE);;
  child ← fs (launch [execPath; path_text loaderProbe; path_text extensionPath] installRoot (host_environment piHome));
  io_lift (assertIncompatiblePiHostRejected child.1 child.2.2).

Definition smokeInstallExactTarball (tarball : path) : io unit :=
  installRoot ← fs (tr_mkdtemp (resolve_from tmpdir "pi-codex-adaptor-pack-"));
  piHome ← fs (tr_mkdtemp (resolve_from tmpdir "pi-codex-adaptor-pi-home-"));
  try_finally (install_and_load tarball installRoot piHome) (fs (tr_rm installRoot);; fs (tr_rm piHome)).

(** The staged package, as it would be packed. *)
Definition check_staged (requireNative : bool) : io (list string) :=
  result ← run_pack ["npm"; "pack"; "./dist/package"; "--dry-run"; "--json"];
  let paths := packed_paths result in
  let unexpected := unexpectedPackagePaths paths PACKAGE_PATH_ALLOWLIST in
  io_lift (guard_throw (bool_decide (unexpected = [])) (failure ("Unexpected npm package files: " ++ join ", " unexpected)%string));;
  io_lift (match missing_required paths with
    | Some requiredFile => Throw (failure ("Required npm package file is missing: " ++ requiredFile)%string)
    | None => Ret tt
    end);;
  packageJson ← read_json (resolve_from repositoryRoot "dist/package/package.json");
  io_lift (check_metadata packageJson);;
  io_lift (guard_throw (negb requireNative || hasCompleteNativeArtifact (List.filter (starts_with "native/bin/") paths))
    (failure "Release package must contain native bridge artifacts"));;
  mret paths.

Definition NO_FIXTURE {A} : io A := fail "Clean consumer fixture root is unavailable".

Definition verify (tarball nativeArtifactsDir : option string) (requireNative : bool) (fixtureRoot : option path) : io report :=
  let runCleanConsumerFixtures := bool_decide (is_Some fixtureRoot) in
  runBunScript ("scripts/assemble-package.ts" ::
    match nativeArtifactsDir with None => [] | Some directory => ["--native-artifacts-dir"; directory] end);;
  paths ← check_staged requireNative;
  exactTarball ← match tarball with
    | None => match fixtureRoot with
        | None => NO_FIXTURE
        | Some root => packStagedTarball (resolve_from root "adaptor-tarball")
        end
    | Some tarball => mret (resolve_from cwd tarball)
    end;
  tarballResult ← verifyTarball exactTarball paths;
  let native := negb (bool_decide (List.filter (starts_with "native/bin/") paths = [])) in
  let maximumUnpackedSize := (if native then 250 * 1024 * 1024 else 5 * 1024 * 1024)%Z in
  let unpackedSize := unpacked_size tarballResult.1 in
  io_lift (guard_throw (unpackedSize <=? maximumUnpackedSize)%Z
    (failure ("Package is too large: " ++ integer_text unpackedSize ++ " bytes")%string));;
  match fixtureRoot with
  | Some root => smokeInstallManifestTarball exactTarball root;; smokeInstallExactTarball exactTarball
  | None => mret tt
  end;;
  mret {| re_files := length paths; re_unpackedSize := unpackedSize; re_native := native;
          re_smokeInstall := runCleanConsumerFixtures; re_tarball := resolve_from cwd <$> tarball;
          re_sha256 := tarballResult.2 |}.

Definition main (argv : list string) : io report :=
  tarball ← io_lift (argument "--tarball" argv);
  nativeArtifactsDir ← io_lift (argument "--native-artifacts-dir" argv);
  let requireNative := js_elem "--require-native" argv in
  let smokeInstall := js_elem "--smoke-install" argv in
  let runCleanConsumerFixtures := bool_decide (tarball = None) || smokeInstall in
  if runCleanConsumerFixtures then
    fixtureRoot ← fs (tr_mkdtemp (resolve_from tmpdir "pi-codex-adaptor-pack-verify-"));
    try_finally (verify tarball nativeArtifactsDir requireNative (Some fixtureRoot)) (fs (tr_rm fixtureRoot))
  else verify tarball nativeArtifactsDir requireNative None.
End script.

(** ** The names of files *)

(** What the allowlist accepts. *)
Inductive packaged_path : string → Prop :=
| pp_metadata p : p ∈ ["LICENSE"; "README.md"; "package.json"] → packaged_path p
| pp_source name extension : str_forall in_line name = true → extension ∈ ["md"; "ts"] →
    packaged_path ("src/" ++ name ++ "." ++ extension)%string
| pp_native target file : str_forall target_rest target = true →
    file ∈ ["codex-bridge"; "codex-bridge.exe"; "native-artifact.json"] →
    packaged_path ("native/bin/" ++ target ++ "/" ++ file)%string.

Lemma split_as_nil s groups : split_as [] s groups → s = "" ∧ groups = [].
Proof. by inversion 1. Qed.
Lemma split_as_cons (captured : bool) r parts s groups : split_as ((captured, r) :: parts) s groups →
  ∃ u s' more, s = (u ++ s')%string ∧ lang r u ∧ split_as parts s' more ∧ groups = if captured then u :: more else more.
Proof. inversion 1 as [|? ? ? u s' more Hu Hs]; subst. by exists u, s', more. Qed.

Ltac split_parts :=
  repeat match goal with
  | H : split_as (_ :: _) _ _ |- _ =>
      unfold plain in H; apply split_as_cons in H as (? & ? & ? & -> & ? & H & ?)
  | H : split_as [] _ _ |- _ => apply split_as_nil in H as [-> ->]
  | H : lang (literal _) _ |- _ => apply literal_lang in H as ->
  end.

Lemma bridge_file_lang file :
  lang (RAlt (RSeq (literal "codex-bridge") (ROpt (literal ".exe"))) (literal "native-artifact.json")) file →
  file ∈ ["codex-bridge"; "codex-bridge.exe"; "native-artifact.json"].
Proof.
  intros [(v & w & -> & ->%literal_lang & [-> | ->%literal_lang])| ->%literal_lang]; set_solver.
Qed.

Lemma allowed_packaged p : existsb (λ pattern, test_whole pattern p) PACKAGE_PATH_ALLOWLIST = true → packaged_path p.
Proof.
  intros (pattern & Hin & [groups Hs]%test_whole_split)%existsb_exists.
  repeat destruct Hin as [<-|Hin]; [..|done]; split_parts; rewrite ?append_nil_r.
  - apply pp_metadata. set_solver.
  - apply pp_metadata. set_solver.
  - apply pp_metadata. set_solver.
  - rewrite <- ?append_assoc, ?append_assoc. apply pp_source; [by cbn in *; naive_solver|].
    repeat match goal with H : lang (RAlt _ _) _ |- _ => destruct H as [->%literal_lang | ->%literal_lang] end; set_solver.
  - apply pp_native; [cbn in *; naive_solver|]. by apply bridge_file_lang.
Qed.

Lemma unexpected_none paths : unexpectedPackagePaths paths PACKAGE_PATH_ALLOWLIST = [] → Forall packaged_path paths.
Proof.
  intros Hu. apply Forall_forall. intros p Hp. apply allowed_packaged, not_false_iff_true. intros Hf.
  assert (p ∈ unexpectedPackagePaths paths PACKAGE_PATH_ALLOWLIST) as Hin.
  { apply list_elem_of_In, filter_In. rewrite Hf. by rewrite <- list_elem_of_In. }
  rewrite Hu in Hin. by apply elem_of_nil in Hin.
Qed.

Lemma missing_none paths : missing_required paths = None → Forall (λ f, f ∈ paths) REQUIRED_PACKAGE_FILES.
Proof.
  intros Hm. apply Forall_forall. intros f Hf%list_elem_of_In.
  pose proof (find_none _ _ Hm f Hf) as Hn. by apply negb_false_iff, js_elem_spec in Hn.
Qed.

(** ** Native artifacts *)

Definition artifact_files (target : string) : list string :=
  [("native/bin/" ++ target ++ "/native-artifact.json")%string; ("native/bin/" ++ target ++ "/" ++ executable_of target)%string].

Lemma native_file_exec p target file :
  exec_whole NATIVE_FILE p = Some [target; file] → p = ("native/bin/" ++ target ++ "/" ++ file)%string.
Proof. intros Hs%exec_whole_split. unfold NATIVE_FILE in Hs. split_parts. simplify_eq. by rewrite append_nil_r. Qed.

(** A file of the list of a supported target is what is recorded for it. *)
Lemma native_files_in paths targets target file : target ∈ SUPPORTED_NATIVE_TARGETS →
  file ∈ ["codex-bridge"; "codex-bridge.exe"; "native-artifact.json"] →
  file ∈ default ∅ (fold_left add_native_file paths targets !! target) ↔
  file ∈ default ∅ (targets !! target) ∨ ("native/bin/" ++ target ++ "/" ++ file)%string ∈ paths.
Proof.
  intros Ht Hf. assert (exec_whole NATIVE_FILE ("native/bin/" ++ target ++ "/" ++ file)%string = Some [target; file]) as Hexec.
  { revert Ht Hf. unfold SUPPORTED_NATIVE_TARGETS. rewrite !list_elem_of_In.
    intros Ht Hf. repeat destruct Ht as [<-|Ht]; [..|done]; repeat destruct Hf as [<-|Hf]; by vm_compute. }
  revert targets. induction paths as [|p paths IH]; intros targets; cbn [fold_left].
  { rewrite elem_of_nil. tauto. }
  assert (("native/bin/" ++ target ++ "/" ++ file)%string = p ↔ exec_whole NATIVE_FILE p = Some [target; file]) as Hp.
  { split; [by intros <-|]. by intros ->%native_file_exec. }
  rewrite IH, elem_of_cons, Hp. unfold add_native_file. clear IH Hp Hexec.
  destruct (exec_whole NATIVE_FILE p) as [[|t [|f [|]]]|]; try naive_solver.
  destruct (js_elem t SUPPORTED_NATIVE_TARGETS) eqn:Hs.
  - destruct (decide (t = target)) as [->|Hne].
    + rewrite lookup_insert_eq. cbn. rewrite elem_of_union, elem_of_singleton. naive_solver.
    + rewrite lookup_insert_ne by done. naive_solver.
  - apply js_elem_false in Hs. assert (t ≠ target) by congruence. naive_solver.
Qed.

Lemma native_targets_supported paths targets target :
  is_Some (fold_left add_native_file paths targets !! target) → is_Some (targets !! target) ∨ target ∈ SUPPORTED_NATIVE_TARGETS.
Proof.
  revert targets. induction paths as [|p paths IH]; intros targets; cbn [fold_left]; [by left|].
  intros [Hs|?]%IH; [|by right]. unfold add_native_file in Hs.
  destruct (exec_whole NATIVE_FILE p) as [[|t [|f [|]]]|]; auto.
  destruct (js_elem t SUPPORTED_NATIVE_TARGETS) eqn:Ht; [|auto]. apply js_elem_spec in Ht.
  destruct (decide (t = target)) as [->|Hne]; [auto|]. rewrite lookup_insert_ne in Hs by done. auto.
Qed.

(** A native artifact is complete: a supported target has both of its files. *)
Lemma hasCompleteNativeArtifact_iff paths :
  hasCompleteNativeArtifact paths = true ↔
  ∃ target, target ∈ SUPPORTED_NATIVE_TARGETS ∧ Forall (λ f, f ∈ paths) (artifact_files target).
Proof.
  assert (∀ target, executable_of target ∈ ["codex-bridge"; "codex-bridge.exe"; "native-artifact.json"]) as Hexe
    by (intros target; unfold executable_of; case_match; set_solver).
  assert (∀ target, target ∈ SUPPORTED_NATIVE_TARGETS → Forall (λ f, f ∈ paths) (artifact_files target) ↔
    ("native-artifact.json" ∈ default ∅ (fold_left add_native_file paths ∅ !! target) ∧
     executable_of target ∈ default ∅ (fold_left add_native_file paths ∅ !! target))) as Hin.
  { intros target Ht. unfold artifact_files. rewrite !Forall_cons, !native_files_in, lookup_empty by (done || set_solver). cbn. set_solver. }
  unfold hasCompleteNativeArtifact. rewrite existsb_exists. split.
  - intros ([target files] & Hl & Hb). rewrite <- list_elem_of_In, elem_of_map_to_list in Hl.
    apply andb_true_iff in Hb as [H1%bool_decide_eq_true H2%bool_decide_eq_true].
    assert (target ∈ SUPPORTED_NATIVE_TARGETS) as Ht.
    { destruct (native_targets_supported paths ∅ target) as [[? He]|?]; [by eexists|by rewrite lookup_empty in He|done]. }
    exists target. split; [done|]. apply Hin; [done|]. by rewrite Hl.
  - intros (target & Ht & Hf). apply Hin in Hf as [H1 H2]; [|done].
    destruct (fold_left add_native_file paths ∅ !! target) as [files|] eqn:Hl; [|by apply not_elem_of_empty in H1].
    exists (target, files). rewrite <- list_elem_of_In, elem_of_map_to_list. split; [done|].
    by rewrite andb_true_iff, !bool_decide_eq_true.
Qed.

(** ** The metadata and the entry *)

(** Every package of the SDK is a wildcard peer and no dependency. *)
Definition host_provided (packageJson : jsval) (packageName : string) : Prop :=
  (∃ peers, prop packageJson "peerDependencies" = Ret peers ∧ chain peers packageName = Ret (VStr "*")) ∧
  ∃ dependencies, prop packageJson "dependencies" = Ret dependencies ∧ chain dependencies packageName = Ret VUndef.

Definition good_metadata (packageJson : jsval) : Prop :=
  prop packageJson "name" = Ret (VStr "pi-codex-adaptor") ∧ (∃ version, prop packageJson "version" = Ret (VStr version)) ∧
  Forall (host_provided packageJson) piSdkPackages.

Lemma is_undefined_iff v : is_undefined v = true ↔ v = VUndef.
Proof. by destruct v. Qed.
Lemma is_string_iff v : is_string v = true ↔ ∃ s, v = VStr s.
Proof. destruct v; naive_solver. Qed.

Lemma check_peer_iff packageJson name : check_peer packageJson name = Ret tt ↔ host_provided packageJson name.
Proof.
  unfold check_peer, host_provided. rewrite bind_ret_iff. setoid_rewrite bind_ret_iff. setoid_rewrite guard_bind_iff.
  setoid_rewrite bind_ret_iff. setoid_rewrite bind_ret_iff. setoid_rewrite guard_throw_ret.
  setoid_rewrite is_value_iff. setoid_rewrite is_undefined_iff. naive_solver.
Qed.

Lemma check_peers_iff packageJson names : check_peers packageJson names = Ret tt ↔ Forall (host_provided packageJson) names.
Proof.
  induction names as [|name names IH]; cbn [check_peers]; [by split; [constructor|]|].
  rewrite bind_ret_iff, Forall_cons, <- check_peer_iff, <- IH. split; [by intros ([] & ? & ?)|]. intros [? ?]. by exists tt.
Qed.

Lemma check_metadata_iff packageJson : check_metadata packageJson = Ret tt ↔ good_metadata packageJson.
Proof.
  unfold check_metadata, good_metadata. rewrite bind_ret_iff. setoid_rewrite bind_ret_iff. setoid_rewrite guard_bind_iff.
  setoid_rewrite check_peers_iff. setoid_rewrite andb_true_iff. setoid_rewrite is_value_iff. setoid_rewrite is_string_iff. naive_solver.
Qed.

(** A declared entry is below the package. *)
Lemma declared_below packageRoot entries extension : normal packageRoot →
  resolveDeclaredPackageExtension packageRoot entries = Ret extension →
  ∃ entry rest, entries = VArr [VStr entry] ∧ valid_entry entry = true ∧ rest ≠ [] ∧ extension = packageRoot ++ rest.
Proof.
  intros Hn. unfold resolveDeclaredPackageExtension. destruct entries as [| | | | |[|entry []]| |]; try done.
  unfold resolvePackageExtension. destruct entry as [| | | |entry| | |]; try done.
  rewrite guard_bind_iff. intros [Hv He]. revert He. rewrite guard_bind_iff, negb_true_iff. intros [He [= <-]].
  apply escapes_relative in He as (rest & Hr & ->); [|by apply normal_resolve_from]. by exists entry, rest.
Qed.

(** ** What a run has seen

    [gives m P]: when [m] returns, [P] holds of its value and of any list with all
    the states it went through. *)

Section gives.
Context {Disk : Type}.
Abbreviation io A := (Io.io Disk sync_error A).

Definition gives {A} (m : io A) (P : list Disk → A → Prop) : Prop := ∀ d,
  runs m (λ r d' t, d' ∈ d :: t ∧ match r with Ret a => ∀ l, d :: t ⊆ l → P l a | Throw _ => True end) d.

Lemma gives_mono {A} (m : io A) (P Q : list Disk → A → Prop) : (∀ l a, P l a → Q l a) → gives m P → gives m Q.
Proof. intros HPQ Hm d. eapply runs_mono; [apply Hm|]. intros [a|e] d' t [Hd HP]; (split; [done|]); auto. Qed.

Lemma gives_ret {A} (a : A) : gives (mret a) (λ _ b, b = a).
Proof. intros d. apply runs_ret. split; [by left|done]. Qed.

Lemma gives_lift {A} (r : outcome sync_error A) : gives (io_lift r) (λ _ a, r = Ret a).
Proof. intros d. apply runs_lift. split; [by left|]. by destruct r. Qed.

Lemma gives_throw {A} (e : sync_error) (P : list Disk → A → Prop) : gives (io_throw e) P.
Proof. intros d. apply runs_throw. split; [by left|done]. Qed.

Lemma gives_call {A} (op : Disk → outcome errno A * Disk) : gives (fs op) (λ l a, ∃ s, s ∈ l ∧ (op s).1 = Ret a).
Proof.
  intros d. apply runs_call. intros r d' Hd. split; [right; by left|]. destruct r as [a|e]; [|done].
  intros l Hl. exists d. rewrite Hd. split; [apply Hl; by left|done].
Qed.

(** What follows may rely on what the first part gave. *)
Lemma gives_bind_when {A B} (m : io A) (f : A → io B) P Q :
  gives m P → (∀ a l, P l a → gives (f a) (Q a)) → gives (m ≫= f) (λ l b, ∃ a, P l a ∧ Q a l b).
Proof.
  intros Hm Hf d. apply runs_bind. eapply runs_mono; [apply Hm|]. intros [a|e] d1 t1 [Hd1 HP]; [|done].
  eapply runs_mono; [by apply (Hf a (d :: t1)), HP|]. intros r d2 t2 [Hd2 HQ]. split; [set_solver|]. destruct r as [b|e]; [|done].
  intros l Hl. exists a. split; [apply HP; set_solver|apply HQ; set_solver].
Qed.

Lemma gives_bind {A B} (m : io A) (f : A → io B) P Q :
  gives m P → (∀ a, gives (f a) (Q a)) → gives (m ≫= f) (λ l b, ∃ a, P l a ∧ Q a l b).
Proof. intros Hm Hf. apply gives_bind_when; [done|]. intros a _ _. apply Hf. Qed.

Lemma gives_pair {A B} (m : io A) (n : io B) P Q :
  gives m P → gives n Q → gives (pair_of m n) (λ l ab, P l ab.1 ∧ Q l ab.2).
Proof.
  intros Hm Hn d. specialize (Hm d). unfold runs, pair_of in *. destruct (m d) as [[r1 d1] t1]. destruct Hm as [Hd1 HP].
  specialize (Hn d1). unfold runs in Hn. destruct (n d1) as [[r2 d2] t2]. destruct Hn as [Hd2 HQ].
  split; [set_solver|]. destruct r1 as [a|], r2 as [b|]; try done. intros l Hl. split; [apply HP|apply HQ]; set_solver.
Qed.

Lemma gives_any {A} (m : io A) P : gives m P → gives m (λ _ _, True).
Proof. by apply gives_mono. Qed.

Lemma gives_finally {A} (m : io A) (fin : io unit) P :
  gives m P → gives fin (λ _ _, True) → gives (try_finally m fin) P.
Proof.
  intros Hm Hn d. specialize (Hm d). unfold runs, try_finally in *. destruct (m d) as [[r1 d1] t1]. destruct Hm as [Hd1 HP].
  specialize (Hn d1). unfold runs in Hn. destruct (fin d1) as [[r2 d2] t2]. destruct Hn as [Hd2 _].
  split; [set_solver|]. destruct r2 as [[]|]; [|done]. destruct r1 as [a|]; [|done]. intros l Hl. apply HP. set_solver.
Qed.

Lemma gives_each {A} (f : A → io unit) l : (∀ a, gives (f a) (λ _ _, True)) → gives (for_each f l) (λ _ _, True).
Proof.
  intros Hf. induction l as [|x l IH]; [eapply gives_any, gives_ret|].
  eapply gives_any, (gives_bind _ _ (λ _ _, True) (λ _ _ _, True)); [apply Hf|intros ?; exact IH].
Qed.
End gives.

Create HintDb gives.
#[export] Hint Resolve gives_ret gives_lift gives_throw gives_call : gives.
Ltac gives_bind := eapply gives_bind; [|intros ?].

(** ** What a verified package is *)

Section facts.
Context {Disk : Type} `{SourceTree Disk} `{JsonText} {writes : list string → list path → Prop} {laws : SourceTreeLaws Disk writes}.
Context (sha256 : string → string).
Context (launch : list string → path → list (string * string) → Disk → outcome errno (Z * (string * string)) * Disk).
Context (realpath : path → Disk → outcome errno path * Disk).
Context (env : string → option string) (execPath : string) (cwd repositoryRoot tmpdir : path).
(** A real path is a path. *)
Context (Hreal : ∀ p d q, (realpath p d).1 = Ret q → normal q).

(** A program that was run in one of the states ended with this code and these
    outputs; npm answered with this result; a file had this text. *)
Definition ended (states : list Disk) (command : list string) (directory : path) (environment : list (string * string))
    (code : Z) (out err : string) : Prop :=
  ∃ s, s ∈ states ∧ (launch command directory environment s).1 = Ret (code, (out, err)).
Definition answered (states : list Disk) (command : list string) (result : PackResult) : Prop :=
  ∃ out err parsed value, ended states command repositoryRoot [] 0 out err ∧ json_parse out = Some parsed ∧
    first_value parsed = Ret value ∧ pack_result value = Ret result.
Definition had_text (states : list Disk) (p : path) (text : string) : Prop := ∃ s, s ∈ states ∧ content_at s p = Some text.
Definition had_json (states : list Disk) (p : path) (value : jsval) : Prop :=
  ∃ text, had_text states p text ∧ json_parse text = Some value.

(** What a package declares as its extension is, links followed, below it. *)
Definition extension_inside (states : list Disk) (packageRoot : path) (metadata : jsval) (extension : path) : Prop :=
  ∃ pi entries declared root rest,
    prop metadata "pi" = Ret pi ∧ chain pi "extensions" = Ret entries ∧
    resolveDeclaredPackageExtension packageRoot entries = Ret declared ∧
    (∃ s, s ∈ states ∧ (realpath packageRoot s).1 = Ret root) ∧
    (∃ s, s ∈ states ∧ (realpath declared s).1 = Ret extension) ∧
    rest ≠ [] ∧ extension = root ++ rest.

Definition NPM_PACK (target : string) : list string := ["npm"; "pack"; target; "--dry-run"; "--json"].

(** The staged package. *)
Record staged (states : list Disk) (requireNative : bool) (paths : list string) : Prop := {
  st_answer : ∃ result, answered states (NPM_PACK "./dist/package") result ∧ paths = packed_paths result;
  st_allowed : Forall packaged_path paths;
  st_required : Forall (λ f, f ∈ paths) REQUIRED_PACKAGE_FILES;
  st_metadata : ∃ packageJson, had_json states (repositoryRoot ++ ["dist"; "package"; "package.json"]) packageJson ∧ good_metadata packageJson;
  st_native : requireNative = true →
    ∃ target, target ∈ SUPPORTED_NATIVE_TARGETS ∧ Forall (λ f, f ∈ paths) (artifact_files target) }.

(** The private host loaded the extension of the package it was installed in. *)
Definition private_host_loads (states : list Disk) (fixtureRoot : path) : Prop :=
  let consumer := fixtureRoot ++ ["manifest-consumer"] in
  ∃ metadata extension environment out err,
    had_json states (consumer ++ ["node_modules"; "pi-codex-adaptor"; "package.json"]) metadata ∧
    prop metadata "name" = Ret (VStr "pi-codex-adaptor") ∧
    extension_inside states (consumer ++ ["node_modules"; "pi-codex-adaptor"]) metadata extension ∧
    ended states [execPath; path_text (consumer ++ ["verify-private-host.mjs"]); path_text extension] consumer environment 0 out err.

(** An incompatible host refused it. *)
Definition upstream_host_refuses (states : list Disk) : Prop :=
  ∃ installRoot metadata extension environment code out err,
    had_json states (installRoot ++ ["node_modules"; "pi-codex-adaptor"; "package.json"]) metadata ∧
    prop metadata "name" = Ret (VStr "pi-codex-adaptor") ∧
    extension_inside states (installRoot ++ ["node_modules"; "pi-codex-adaptor"]) metadata extension ∧
    ended states [execPath; path_text (installRoot ++ ["verify-upstream-host.mjs"]); path_text extension] installRoot environment code out err ∧
    includes INCOMPATIBLE err = true ∧ code ≠ 0%Z.

(** The tarball has the files of the staged package, and is not too large. *)
Definition tarball_matches (states : list Disk) (tarball : path) (paths : list string) (r : report) : Prop :=
  ∃ result bytes, answered states (NPM_PACK (path_text tarball)) result ∧ packed_paths result ≡ₚ paths ∧
    had_text states tarball bytes ∧ re_sha256 r = sha256 bytes ∧ re_unpackedSize r = unpacked_size result.

Lemma had_text_of l p text : (∃ s, s ∈ l ∧ (tr_readFile p s).1 = Ret text) → had_text l p text.
Proof. intros (s & Hs & Ht). exists s. split; [done|by apply readFile_reads]. Qed.

Lemma run_in_gives directory environment command :
  gives (run_in launch directory environment command) (λ l out, ∃ err, ended l command directory environment 0 out err).
Proof.
  unfold run_in. eapply gives_mono; [|gives_bind; [apply gives_call|]].
  2:{ instantiate (1 := λ child _ out, child.1 = 0%Z ∧ out = child.2.1). destruct (Z.eqb_spec a.1 0); cbn [negb].
      - eapply gives_mono; [|apply gives_ret]. by intros ? b ->.
      - apply gives_throw. }
  intros l out ([code [o err]] & (s & Hs & Hl) & Hc & ->). cbn in *. subst code. exists err, s. done.
Qed.

Lemma parse_json_gives text : gives (parse_json (Disk := Disk) text) (λ _ v, json_parse text = Some v).
Proof. eapply gives_mono; [|apply gives_lift]. intros ? v. by destruct (json_parse text); intros; simplify_eq. Qed.

Lemma parsePackResult_gives out : gives (parsePackResult (Disk := Disk) out)
  (λ _ result, ∃ parsed value, json_parse out = Some parsed ∧ first_value parsed = Ret value ∧ pack_result value = Ret result).
Proof.
  unfold parsePackResult. eapply gives_mono; [|gives_bind; [apply parse_json_gives|gives_bind; apply gives_lift]].
  intros l result (parsed & ? & value & ? & ?). by exists parsed, value.
Qed.

Lemma extension_gives packageRoot metadata :
  gives (installed_extension realpath packageRoot metadata) (λ l extension, extension_inside l packageRoot metadata extension).
Proof.
  unfold installed_extension, resolveInstalledPackageExtension.
  eapply gives_mono; [|gives_bind; [apply gives_lift|gives_bind; [apply gives_lift|
    gives_bind; [apply gives_lift|gives_bind; [apply gives_pair; apply gives_call|gives_bind; [apply gives_lift|apply gives_ret]]]]]].
  cbv beta. intros l extension (pi & Hpi & entries & He & declared & Hd & [root real] & [Hr Hx] & [] & Hg & ->). cbn [fst snd] in *.
  apply guard_throw_ret in Hg. rewrite negb_true_iff in Hg. apply escapes_relative in Hg as (rest & Hrest & ->).
  - exists pi, entries, declared, root, rest. done.
  - destruct Hx as (s & _ & Hx). by eapply Hreal.
Qed.

Lemma run_pack_gives command : gives (run_pack launch repositoryRoot command) (λ l result, answered l command result).
Proof.
  unfold run_pack, run.
  eapply gives_mono; [|gives_bind; [apply run_in_gives|apply parsePackResult_gives]].
  intros l result (out & [err He] & parsed & value & ?). by exists out, err, parsed, value.
Qed.

Lemma read_json_gives p : gives (read_json p) (λ l v, had_json l p v).
Proof.
  unfold read_json.
  eapply gives_mono; [|gives_bind; [apply gives_call|apply parse_json_gives]].
  intros l v (text & Ht & Hv). exists text. split; [by apply had_text_of|done].
Qed.

Lemma guard_gives b e : gives (Disk := Disk) (io_lift (guard_throw b e)) (λ _ _, b = true).
Proof. eapply gives_mono; [|apply gives_lift]. intros ? [] He. by apply guard_throw_ret in He. Qed.

Lemma staged_package_in : resolve_from repositoryRoot "dist/package/package.json" = repositoryRoot ++ ["dist"; "package"; "package.json"].
Proof.
  change (resolve_from repositoryRoot "dist/package/package.json") with (((repositoryRoot ++ ["dist"]) ++ ["package"]) ++ ["package.json"]).
  by rewrite <- !app_assoc.
Qed.

Lemma staged_gives requireNative :
  gives (check_staged launch repositoryRoot requireNative) (λ l paths, staged l requireNative paths).
Proof.
  unfold check_staged. eapply gives_mono; [|gives_bind; [apply run_pack_gives|gives_bind; [apply guard_gives|gives_bind;
    [apply gives_lift|gives_bind; [apply read_json_gives|gives_bind; [apply gives_lift|gives_bind; [apply guard_gives|apply gives_ret]]]]]]].
  cbv beta. intros l paths (result & Ha & [] & Hu & [] & Hm & packageJson & Hj & [] & Hmeta & [] & Hn & ->). split.
  - by exists result.
  - apply unexpected_none. by apply bool_decide_eq_true in Hu.
  - apply missing_none. by destruct (missing_required _).
  - exists packageJson. rewrite staged_package_in in Hj. split; [done|by apply check_metadata_iff].
  - intros ->. cbn in Hn. apply hasCompleteNativeArtifact_iff in Hn as (target & Ht & Hf). exists target. split; [done|].
    eapply Forall_impl; [exact Hf|]. intros f. rewrite !list_elem_of_In. by intros [? _]%filter_In.
Qed.

Lemma verifyTarball_gives tarball paths :
  gives (verifyTarball sha256 launch repositoryRoot tarball paths) (λ l res, ∃ bytes,
    answered l (NPM_PACK (path_text tarball)) res.1 ∧ packed_paths res.1 ≡ₚ paths ∧ had_text l tarball bytes ∧ res.2 = sha256 bytes).
Proof.
  unfold verifyTarball. eapply gives_mono; [|gives_bind; [apply run_pack_gives|gives_bind; [apply guard_gives|
    gives_bind; [apply gives_call|apply gives_ret]]]].
  cbv beta. intros l res (result & Ha & [] & Hs & bytes & Hb & ->). exists bytes. cbn.
  split_and!; [done|by apply js_sort_eq, strs_eqb_iff|by apply had_text_of|done].
Qed.

(** Names below a directory. *)
Lemma node_modules_in root : resolve_in root ["node_modules"; "pi-codex-adaptor"] = root ++ ["node_modules"; "pi-codex-adaptor"].
Proof. change (resolve_in root ["node_modules"; "pi-codex-adaptor"]) with ((root ++ ["node_modules"]) ++ ["pi-codex-adaptor"]). by rewrite <- app_assoc. Qed.

Lemma manifest_gives tarball fixtureRoot :
  gives (smokeInstallManifestTarball launch realpath env execPath cwd repositoryRoot tmpdir tarball fixtureRoot)
    (λ l _, private_host_loads l fixtureRoot).
Proof.
  unfold smokeInstallManifestTarball. rewrite (resolve_from_component fixtureRoot "manifest-consumer") by done.
  rewrite node_modules_in, !resolve_from_component by done.
  eapply gives_mono; [|gives_bind; [apply run_in_gives|gives_bind; [apply run_in_gives|gives_bind; [apply read_json_gives|
    gives_bind; [apply gives_lift|gives_bind; [apply guard_gives|gives_bind; [apply extension_gives|]]]]]]].
  2:{ gives_bind; [eapply gives_any, gives_each; intros name; unfold poison; eapply gives_any;
        gives_bind; [apply gives_call|gives_bind; apply gives_call]|].
      gives_bind; [apply gives_call|]. gives_bind; [apply gives_call|].
      eapply gives_finally; [gives_bind; [apply run_in_gives|apply gives_ret]|eapply gives_any, gives_call]. }
  cbv beta. intros l [] (_ & _ & _ & _ & metadata & Hj & name & Hname & [] & Hv & extension & Hx & _ & _ & _ & _ & piHome & _ & out & [err He] & _).
  apply is_value_iff in Hv as ->. rewrite <- (app_assoc (fixtureRoot ++ _)) in Hj.
  by exists metadata, extension, (host_environment piHome), out, err.
Qed.

Lemma upstream_gives tarball :
  gives (smokeInstallExactTarball launch realpath execPath repositoryRoot tmpdir tarball) (λ l _, upstream_host_refuses l).
Proof.
  unfold smokeInstallExactTarball.
  eapply gives_mono; [|gives_bind; [apply gives_call|gives_bind; [apply gives_call|eapply gives_finally]]].
  3:{ eapply gives_any. gives_bind; apply gives_call. }
  2:{ unfold install_and_load. rewrite node_modules_in, !resolve_from_component by done.
      gives_bind; [apply run_in_gives|]. gives_bind; [apply run_in_gives|]. gives_bind; [apply read_json_gives|].
      gives_bind; [apply gives_lift|]. gives_bind; [apply gives_lift|]. gives_bind; [apply guard_gives|].
      gives_bind; [apply extension_gives|]. gives_bind; [apply gives_call|]. gives_bind; [apply gives_call|apply guard_gives]. }
  cbv beta. intros l [] (installRoot & _ & piHome & _ & _ & _ & _ & _ & metadata & Hj & name & Hname & version & _ & [] & Hv &
    extension & Hx & _ & _ & [code [out err]] & (s & Hs & Hl) & Hr). cbn in Hr.
  apply andb_true_iff in Hv as [->%is_value_iff _]. apply andb_true_iff in Hr as [Hr Hc]. rewrite <- app_assoc in Hj.
  exists installRoot, metadata, extension, (host_environment piHome), code, out, err.
  apply negb_true_iff, Z.eqb_neq in Hc. split_and!; try done. by exists s.
Qed.

(** The tarball that is verified: the given one, or the one that was packed. *)
Definition tarball_of (argv : list string) (fixtureRoot : option path) (tarball : path) : Prop :=
  match argument "--tarball" argv with
  | Ret (Some given) => tarball = resolve_from cwd given
  | _ => ∃ root filename, fixtureRoot = Some root ∧ tarball = resolve_from (root ++ ["adaptor-tarball"]) filename
  end.

(** What the report says. *)
Record package_verified (states : list Disk) (argv : list string) (fixtureRoot : option path) (r : report) : Prop := {
  pv_smoke : re_smokeInstall r = bool_decide (is_Some fixtureRoot);
  pv_package : ∃ tarball paths, staged states (js_elem "--require-native" argv) paths ∧ tarball_matches states tarball paths r ∧
    re_files r = length paths ∧
    tarball_of argv fixtureRoot tarball ∧
    re_native r = existsb (starts_with "native/bin/") paths;
  pv_size : (re_unpackedSize r ≤ if re_native r then 262144000 else 5242880)%Z;
  pv_hosts : ∀ root, fixtureRoot = Some root → private_host_loads states root ∧ upstream_host_refuses states }.

Lemma native_listed paths :
  negb (bool_decide (List.filter (starts_with "native/bin/") paths = [])) = existsb (starts_with "native/bin/") paths.
Proof.
  induction paths as [|p paths IH]; [done|]. cbn [List.filter existsb]. destruct (starts_with "native/bin/" p); [|done].
  by rewrite bool_decide_eq_false_2.
Qed.

Lemma packStagedTarball_gives destination :
  gives (packStagedTarball launch repositoryRoot destination) (λ _ exact, ∃ filename, exact = resolve_from destination filename).
Proof.
  unfold packStagedTarball. eapply gives_mono; [|gives_bind; [apply gives_call|
    eapply (gives_bind _ _ _ (λ _ _ exact, ∃ filename, exact = resolve_from destination filename)); [apply run_pack_gives|intros result]]].
  2:{ destruct (pr_filename result) as [filename|]; [|apply gives_throw].
      eapply gives_mono; [|apply gives_ret]. intros l exact ->. by exists filename. }
  cbv beta. by intros l exact (_ & _ & _ & _ & ?).
Qed.

Lemma verify_gives argv tarball nativeArtifactsDir fixtureRoot : argument "--tarball" argv = Ret tarball →
  gives (verify sha256 launch realpath env execPath cwd repositoryRoot tmpdir tarball nativeArtifactsDir (js_elem "--require-native" argv) fixtureRoot)
    (λ l r, package_verified l argv fixtureRoot r).
Proof.
  intros Htar. unfold verify, runBunScript.
  eapply gives_mono; [|gives_bind; [gives_bind; [apply run_in_gives|apply gives_ret]|gives_bind; [apply staged_gives|
    eapply (gives_bind _ _ (λ _ exact, tarball_of argv fixtureRoot exact)); [|intros exact;
    gives_bind; [apply verifyTarball_gives|gives_bind; [apply guard_gives|
    eapply (gives_bind _ _ (λ l _, ∀ root, fixtureRoot = Some root → private_host_loads l root ∧ upstream_host_refuses l));
      [|intros ?; apply gives_ret]]]]]]].
  2:{ unfold tarball_of. rewrite Htar. destruct tarball as [given|]; [apply gives_ret|].
      destruct fixtureRoot as [root|]; [|apply gives_throw]. rewrite resolve_from_component by done.
      eapply gives_mono; [|apply packStagedTarball_gives]. intros l exact [filename ->]. by exists root, filename. }
  2:{ destruct fixtureRoot as [root|]; [|eapply gives_mono; [|apply gives_ret]; done].
      eapply gives_mono; [|gives_bind; [apply manifest_gives|apply upstream_gives]]. cbv beta. intros l ? ([] & ? & ?) ? [= <-]. done. }
  cbv beta. intros l r (_ & _ & paths & Hs & exact & Hexact & [result digest] & (bytes & Ha & Hp & Hb & Hd) & [] & Hsize & [] & Hhosts & ->).
  cbn [fst snd] in *. split; cbn.
  - done.
  - exists exact, paths. split_and!; try done; [by exists result, bytes|apply native_listed].
  - apply Z.leb_le in Hsize. by destruct (negb _).
  - done.
Qed.

(** ** The script *)

Definition makes_fixtures (argv : list string) : bool :=
  match argument "--tarball" argv with
  | Ret tarball => bool_decide (tarball = None) || js_elem "--smoke-install" argv
  | Throw _ => false
  end.

(** There was nothing at [root] before, and there is nothing after. *)
Definition comes_and_goes (d d' : Disk) (root : path) : Prop :=
  (∀ rel, node_at d (root ++ rel) = None) ∧ ∀ rel, node_at d' (root ++ rel) = None.

(** A run that returns has checked everything; one that makes a directory of
    fixtures removes it however it ends, unless a call or an argument failed. *)
Definition verified_run (d : Disk) (argv : list string) (r : outcome sync_error report) (d' : Disk) (states : list Disk) : Prop :=
  match r with
  | Ret rep => ∃ fixtureRoot, package_verified (d :: states) argv fixtureRoot rep ∧
      (is_Some fixtureRoot ↔ makes_fixtures argv = true) ∧ ∀ root, fixtureRoot = Some root → comes_and_goes d d' root
  | Throw e => makes_fixtures argv = true →
      silent e ∨ argument "--native-artifacts-dir" argv = Throw e ∨ ∃ root, comes_and_goes d d' root
  end.

Lemma removal_runs root d : runs (fs (tr_rm root)) (λ r d' _,
  match r with Ret _ => ∀ rel, node_at d' (root ++ rel) = None | Throw e => silent e end) d.
Proof.
  apply runs_call. intros r d' Hd. pose proof (rm_empties root d) as He. rewrite Hd in He. cbn in He.
  destruct r as [[]|e]; [by apply He|by eexists].
Qed.

Lemma verify_main_runs argv d :
  runs (main sha256 launch realpath env execPath cwd repositoryRoot tmpdir argv) (verified_run d argv) d.
Proof.
  unfold main. apply runs_bind, runs_lift. destruct (argument "--tarball" argv) as [tarball|e] eqn:Htar.
  2:{ unfold verified_run, makes_fixtures. by rewrite Htar. }
  apply runs_bind, runs_lift. destruct (argument "--native-artifacts-dir" argv) as [dir|e] eqn:Hdir; [|by right; left].
  assert (makes_fixtures argv = bool_decide (tarball = None) || js_elem "--smoke-install" argv) as Hmakes
    by (unfold makes_fixtures; by rewrite Htar).
  unfold verified_run. rewrite Hmakes. destruct (bool_decide (tarball = None) || js_elem "--smoke-install" argv).
  - apply runs_bind, runs_call. intros r d1 Hr. pose proof (mkdtemp_makes (resolve_from tmpdir "pi-codex-adaptor-pack-verify-") d) as Hm.
    rewrite Hr in Hm. destruct r as [root|e]; [|by left; eexists]. destruct Hm as (_ & _ & Hfresh & _).
    apply runs_finally. eapply runs_mono; [by apply (verify_gives argv tarball dir (Some root))|]. intros r2 d2 t2 [_ Hv].
    eapply runs_mono; [apply removal_runs|]. intros r3 d3 t3 Hrm.
    destruct r3 as [u|e]; [|by left]. destruct r2 as [rep|e]; [|by right; right; exists root].
    exists (Some root). split_and!; [apply Hv; set_solver|done|]. by intros ? [= <-].
  - eapply runs_mono; [by apply (verify_gives argv tarball dir None)|]. intros r2 d2 t2 [_ Hv].
    destruct r2 as [rep|e]; [|done]. exists None. split_and!; [by apply Hv|by split; [intros []|]|done].
Qed.
End facts.

(** C19: the package.  When the script returns, npm said of the staged package that it
    has only files of the allowlist and all required ones, its metadata makes every
    package of the SDK a wildcard peer and no dependency, a required native artifact
    is complete for a supported target, and the tarball has exactly these files, the
    reported digest and at most the allowed size; with fixtures, the extension that
    the installed package declares is inside the package once links are followed, a
    private host loaded it and an incompatible host refused it.  The directory of
    fixtures was not there before and is gone at the end, however the script ends,
    unless a call failed. *)
Theorem package_is_verified {Disk} `{SourceTree Disk} `{JsonText} writes (laws : SourceTreeLaws Disk writes)
    (sha256 : string → string)
    (launch : list string → path → list (string * string) → Disk → outcome errno (Z * (string * string)) * Disk)
    (realpath : path → Disk → outcome errno path * Disk) (env : string → option string) (execPath : string)
    (cwd repositoryRoot tmpdir : path) (argv : list string) (d : Disk)
    (Hreal : ∀ p d q, (realpath p d).1 = Ret q → normal q) :
  let '(r, d', states) := main sha256 launch realpath env execPath cwd repositoryRoot tmpdir argv d in
  verified_run sha256 launch realpath execPath cwd repositoryRoot d argv r d' states.
Proof. exact (verify_main_runs (laws := laws) sha256 launch realpath env execPath cwd repositoryRoot tmpdir Hreal argv d). Qed.

(** ** An example *)

Definition sample_file (p : string) : jsval := VObj [("path", VStr p); ("size", VNum (num_of_Z 10))].
Definition sample_pack (files : list string) : string :=
  @stringify bits_json (VArr [VObj [("files", VArr (sample_file <$> files)); ("filename", VStr "adaptor.tgz")]]).
Definition sample_package : string :=
  @stringify bits_json (VObj [("name", VStr "pi-codex-adaptor"); ("version", VStr "1.0.0");
    ("peerDependencies", VObj ((λ name, (name, VStr "*")) <$> piSdkPackages));
    ("pi", VObj [("extensions", VArr [VStr "./src/extension.ts"])])]).
Definition sample_files : list string := [
  "LICENSE"; "README.md"; "package/package.json"; "src/extension.ts"; "native/bin/x86_64-pc-windows-msvc/native-artifact.json";
  "native/bin/x86_64-pc-windows-msvc/codex-bridge.exe"].

(** An installation makes the package in the directory it is given. *)
Definition installed_in (directory : path) : list (path * node) :=
  ((λ p, (directory ++ p, n_directory)) <$> [[]; ["node_modules"]; ["node_modules"; "pi-codex-adaptor"]]) ++
  [(directory ++ ["node_modules"; "pi-codex-adaptor"; "package.json"], n_file sample_package)].
Definition sample_launched (command : list string) : list (path * node) :=
  match value_after "--pack-destination" command, value_after "--directory" command, value_after "--prefix" command with
  | Some destination, _, _ => [(resolve_from [] destination ++ ["adaptor.tgz"], n_file "bytes")]
  | _, Some directory, _ | _, _, Some directory => installed_in (resolve_from [] directory)
  | _, _, _ => []
  end.
Definition sample_said (files : list string) (command : list string) : Z * (string * string) :=
  match command with
  | "npm" :: "pack" :: _ => (0%Z, (sample_pack files, ""))
  | [_; probe; _] => if includes "verify-upstream-host.mjs" probe then (1%Z, ("", INCOMPATIBLE)) else (0%Z, ("", ""))
  | _ => (0%Z, ("", ""))
  end.
Definition sample_launch (files : list string) (command : list string) (_ : path) (_ : list (string * string)) (d : repo)
    : outcome errno (Z * (string * string)) * repo :=
  (Ret (sample_said files command), next (sample_launched command ++ rp_nodes d) d).

#[local] Instance component_dec c : Decision (is_component c).
Proof. unfold is_component. apply _. Defined.
Definition plain_realpath (p : path) (d : repo) : outcome errno path * repo :=
  (if bool_decide (Forall is_component p) then Ret p else Throw ENOENT, d).
Lemma plain_realpath_normal p d q : (plain_realpath p d).1 = Ret q → normal q.
Proof. cbn. case_bool_decide; [|done]. by intros [= <-]. Qed.

Definition package_disk : repo := {|
  rp_nodes := ((λ p : path, (p, n_directory)) <$> [[]; ["r"]; ["t"]; ["r"; "dist"]; ["r"; "dist"; "package"]]) ++
    [(["r"; "dist"; "package"; "package.json"], n_file sample_package)];
  rp_reply := λ _, {| exitCode := 0; stdout := "" |};
  rp_plan := [] |}.
Definition package_main (files argv : list string) : outcome sync_error report * repo * list repo :=
  main (H := repo_tree (λ _, [])) (H0 := bits_json) id (sample_launch files) plain_realpath (λ _, None) "bun" ["r"] ["r"] ["t"] argv package_disk.

(** A package that is verified and installed, and one with a file too many. *)
Lemma package_is_verified_witness :
  let after files argv := let '(r, d', states) := package_main files argv in
    verified_run (H := repo_tree (λ _, [])) (H0 := bits_json) id (sample_launch files) plain_realpath "bun" ["r"] ["r"] package_disk argv r d' states in
  (package_main sample_files ["--require-native"]).1.1 = Ret {| re_files := 6; re_unpackedSize := 60; re_native := true;
    re_smokeInstall := true; re_tarball := None; re_sha256 := "bytes" |} ∧ after sample_files ["--require-native"] ∧
  (package_main ("src/a.js" :: sample_files) []).1.1 = Throw (failure "Unexpected npm package files: src/a.js") ∧
  after ("src/a.js" :: sample_files) [].
Proof.
  intros after. split_and!.
  - vm_compute. reflexivity.
  - apply (package_is_verified (H0 := bits_json) (git_writes ["r"]) (repo_laws (λ _, []) ["r"])). exact plain_realpath_normal.
  - vm_compute. reflexivity.
  - apply (package_is_verified (H0 := bits_json) (git_writes ["r"]) (repo_laws (λ _, []) ["r"])). exact plain_realpath_normal.
Defined.
