(* ===== verification/Toolchain.v ===== *)
(** * Toolchain

    [src/scripts/verify-toolchain.ts]: the versions of the tools that the repository
    is built with are those of one fixture: in the package, in the files that pin
    Node.js and Rust, and in the workflows, where every action is pinned to a commit.

    The parsers of TOML and YAML are parameters.  Fields of the fixture and of the
    package that are compared are read as the strings the code casts them to. *)

From Stdlib Require Import Lia.
From S2P Require Import Prelude StructuredJson Io Paths Workspace Json Protocol Connection Vendor VendorRepo VendorFacts.
From S2P Require Import PackageVerify SchemaCheck.

(** [for (const a of l) s = f(a, s)], where [f] may throw. *)
Fixpoint fold_throw {E A S} (f : A → S → outcome E S) (l : list A) (s : S) : outcome E S :=
  match l with [] => Ret s | a :: l => s ← f a s; fold_throw f l s end.

(** [for (const a of l) f(a)], where [f] may throw. *)
Definition checks {E A} (f : A → outcome E unit) (l : list A) : outcome E unit := fold_throw (λ a _, f a) l tt.

(** [l.find(f)], where [f] may throw. *)
Fixpoint find_throw {E A} (f : A → outcome E bool) (l : list A) : outcome E (option A) :=
  match l with [] => Ret None | a :: l => b ← f a; if b : bool then Ret (Some a) else find_throw f l end.

Definition values_of (v : jsval) : outcome sync_error (list jsval) :=
  match v with VArr l => Ret l | _ => Throw type_error end.
(** [v ?? \[\]], where an array is expected. *)
Definition values_or_none (v : jsval) : outcome sync_error (list jsval) :=
  match v with VUndef | VNull => Ret [] | _ => values_of v end.
(** [o.a.b], where a string is expected. *)
Definition text_at (v : jsval) (key : string) : outcome sync_error string := v ← prop v key; text_of v.

(** ** The fixture

    What the code compares later is read here; the message for another schema leaves
    its number out. *)

Record ToolchainFixture := {
  fx_biome : string; fx_bun : string; fx_node : string; fx_rust : string;
  fx_typebox : string; fx_typesNode : string; fx_typescript : string;
  fx_githubActions : list (string * string) }.

(** The commit of an action. *)
Definition action_entry (kv : string * jsval) : outcome sync_error (string * string) :=
  sha ← text_at kv.2 "sha"; Ret (kv.1, sha).
Definition action_entries (v : jsval) : outcome sync_error (list (string * string)) :=
  match v with VObj fs => map_throw action_entry fs | _ => Throw type_error end.

Definition toolchain_fixture (v : jsval) : outcome sync_error ToolchainFixture :=
  schemaVersion ← prop v "schemaVersion";
  guard_throw (is_one schemaVersion) (failure "Unsupported toolchain fixture schema");;
  runtime ← prop v "runtime";
  biome ← text_at runtime "biome"; bun ← text_at runtime "bun"; node ← text_at runtime "node";
  rust ← text_at runtime "rust"; typebox ← text_at runtime "typebox"; typesNode ← text_at runtime "typesNode";
  typescript ← text_at runtime "typescript";
  actions ← prop v "githubActions";
  actions ← action_entries actions;
  Ret {| fx_biome := biome; fx_bun := bun; fx_node := node; fx_rust := rust; fx_typebox := typebox;
         fx_typesNode := typesNode; fx_typescript := typescript; fx_githubActions := actions |}.

Definition expectedPackageVersions (fixture : ToolchainFixture) : list (string * string) := [
  ("@biomejs/biome", fx_biome fixture);
  ("@openai/codex", "0.146.0");
  ("@openai/codex-sdk", "0.146.0");
  ("@earendil-works/pi-agent-core", "file:../pi/packages/agent");
  ("@earendil-works/pi-ai", "file:../pi/packages/ai");
  ("@earendil-works/pi-coding-agent", "file:../pi/packages/coding-agent");
  ("@earendil-works/pi-tui", "file:../pi/packages/tui");
  ("@types/node", fx_typesNode fixture);
  ("typebox", fx_typebox fixture);
  ("typescript", "^" ++ fx_typescript fixture)%string].

Definition check_dependency (devDependencies : jsval) (expected : string * string) : outcome sync_error unit :=
  version ← prop devDependencies expected.1;
  guard_throw (is_value version expected.2) (failure (expected.1 ++ " does not match the toolchain fixture")%string).

Definition check_package (fixture : ToolchainFixture) (packageJson : jsval) : outcome sync_error unit :=
  packageManager ← prop packageJson "packageManager";
  guard_throw (is_value packageManager ("bun@" ++ fx_bun fixture)) (failure "packageManager does not match the toolchain fixture");;
  devDependencies ← prop packageJson "devDependencies";
  checks (check_dependency devDependencies) (expectedPackageVersions fixture);;
  overrides ← prop packageJson "overrides";
  typesNode ← prop overrides "@types/node";
  guard_throw (is_value typesNode (fx_typesNode fixture))
    (failure "The transitive @types/node override does not match the toolchain fixture").

(** ** The actions of the workflows *)

(** The text before the last [c] and the text after it. *)
Fixpoint split_last (c : ascii) (s : string) : option (string * string) :=
  match s with
  | EmptyString => None
  | String d s =>
      match split_last c s with
      | Some (before, after) => Some (String d before, after)
      | None => if Ascii.eqb d c then Some ("", s) else None
      end
  end.

Definition longer (a b : string) : Prop := (String.length b ≤ String.length a)%nat.
#[export] Instance longer_dec a b : Decision (longer a b).
Proof. unfold longer. apply _. Defined.
Definition longest_first (l : list string) : list string := merge_sort longer l.

(** [candidate] is the action at [actionPath], or the repository it is in. *)
Definition covers (actionPath candidate : string) : bool :=
  String.eqb actionPath candidate || starts_with (candidate ++ "/") actionPath.

(** The action and the reference of a [uses]. *)
Definition resolve_use (known : list string) (child : string) : outcome sync_error (string * string) :=
  let unpinned := failure ("Action is not pinned: " ++ child)%string in
  match split_last "@" child with
  | None => Throw unpinned
  | Some (actionPath, reference) =>
      guard_throw (negb (String.eqb actionPath "")) unpinned;;
      match List.find (covers actionPath) (longest_first known) with
      | None => Throw (failure ("GitHub Action is missing from the toolchain fixture: " ++ actionPath)%string)
      | Some action => Ret (action, reference)
      end
  end.

(** [usedActions]: a map of sets, in the order of insertion. *)
Abbreviation used_actions := (list (string * list string)) (only parsing).

Fixpoint add_reference (action reference : string) (used : used_actions) : used_actions :=
  match used with
  | [] => [(action, [reference])]
  | (a, references) :: used =>
      if String.eqb a action
      then (a, if js_elem reference references then references else references ++ [reference]) :: used
      else (a, references) :: add_reference action reference used
  end.

Definition use_action (known : list string) (child : string) (used : used_actions) : outcome sync_error used_actions :=
  found ← resolve_use known child; Ret (add_reference found.1 found.2 used).

Fixpoint collectActions (known : list string) (value : jsval) (used : used_actions) : outcome sync_error used_actions :=
  match value with
  | VArr items => fold_throw (collectActions known) items used
  | VObj fields =>
      fold_throw (λ '((key, child) : string * jsval) used,
        match child with
        | VStr s =>
            if String.eqb key "uses" && negb (starts_with "./" s) then use_action known s used
            else collectActions known child used
        | _ => collectActions known child used
        end) fields used
  | _ => Ret used
  end.

Definition check_used (actions : list (string * string)) (used : string * list string) : outcome sync_error unit :=
  match list_find (λ kv : string * string, kv.1 = used.1) actions with
  | None => Throw (failure ("GitHub Action is missing from the toolchain fixture: " ++ used.1)%string)
  | Some (_, (_, sha)) =>
      guard_throw ((length used.2 =? 1)%nat && js_elem sha used.2) (failure (used.1 ++ " is not pinned to " ++ sha)%string)
  end.

Definition check_actions (actions : list (string * string)) (used : used_actions) : outcome sync_error unit :=
  checks (check_used actions) used;;
  checks (λ action, guard_throw (js_elem action used.*1)
    (failure ("Toolchain fixture contains an unused GitHub Action: " ++ action)%string)) actions.*1.

(** ** The jobs *)

(** An array of strings, or one. *)
Definition normalizeStepRun (run : jsval) : outcome sync_error string :=
  match run with
  | VUndef => Ret ""
  | VArr lines => lines ← map_throw text_of lines; Ret (join line_feed lines)
  | _ => text_of run
  end.

Definition CI_STEP : string := "Install Rust toolchain prerequisites".
Definition is_ci_step (step : jsval) : outcome sync_error bool :=
  run ← prop step "run"; script ← normalizeStepRun run; name ← prop step "name";
  Ret (is_value name CI_STEP || includes "rustup toolchain install" script).
Definition NATIVE_STEP : string := "Install target toolchain prerequisites".
Definition is_native_step (step : jsval) : outcome sync_error bool := name ← prop step "name"; Ret (is_value name NATIVE_STEP).

Definition QUOTE : string := String (ascii_of_N 34) "".
(** [script.includes(text)] of every text, or the failure of the first that is not there. *)
Fixpoint all_included (script : string) (l : list (string * string)) : outcome sync_error unit :=
  match l with
  | [] => Ret tt
  | (text, message) :: l => guard_throw (includes text script) (failure message);; all_included script l
  end.

Definition setup_requirements (workflow : string) : list (string * string) :=
  ((λ component, (component, workflow ++ " Rust setup must install the " ++ component ++ " component")%string)
     <$> ["clippy"; "rustfmt"; "rust-src"]) ++
  [("rustup target add", (workflow ++ " Rust setup must install the matrix native target")%string);
   ("musl-tools", (workflow ++ " Rust setup must install Linux musl prerequisites")%string)].

Definition installs (script rustVersion : string) : bool :=
  includes ("rustup toolchain install " ++ QUOTE ++ rustVersion ++ QUOTE)%string script ||
  includes ("rustup toolchain install " ++ rustVersion)%string script.

Definition verifyRustSetupScript (workflow script rustVersion : string) : outcome sync_error unit :=
  guard_throw (installs script rustVersion) (failure (workflow ++ " must install pinned Rust " ++ rustVersion)%string);;
  all_included script (setup_requirements workflow).

Definition expectedTargets : list (string * string) := [
  ("ubuntu-24.04", "x86_64-unknown-linux-musl"); ("macos-15", "aarch64-apple-darwin"); ("windows-2025", "x86_64-pc-windows-msvc")].

Definition check_target (matrixIncludes : list jsval) (expected : string * string) : outcome sync_error unit :=
  let pin := failure ("ci.yml check matrix must pin " ++ expected.1 ++ " to " ++ expected.2)%string in
  entry ← find_throw (λ candidate, os ← prop candidate "os"; Ret (is_value os expected.1)) matrixIncludes;
  match entry with
  | None => Throw pin
  | Some entry => target ← prop entry "target"; guard_throw (is_value target expected.2) pin
  end.

(** [workflow.jobs?.name]. *)
Definition job_of (workflow : jsval) (name : string) : outcome sync_error jsval := jobs ← prop workflow "jobs"; chain jobs name.

(** The first step that [f] finds, and its script. *)
Definition step_script (f : jsval → outcome sync_error bool) (job : jsval) (missing : string) : outcome sync_error string :=
  steps ← prop job "steps"; steps ← values_or_none steps;
  step ← find_throw f steps;
  match step with
  | None => Throw (failure missing)
  | Some step => run ← prop step "run"; normalizeStepRun run
  end.

Definition check_ci (rust : string) (ciWorkflow : jsval) : outcome sync_error unit :=
  checkJob ← job_of ciWorkflow "check";
  guard_throw (negb (is_undefined checkJob)) (failure "ci.yml is missing the check job");;
  strategy ← prop checkJob "strategy"; matrix ← chain strategy "matrix"; included ← chain matrix "include";
  matrixIncludes ← values_or_none included;
  checks (check_target matrixIncludes) expectedTargets;;
  script ← step_script is_ci_step checkJob "ci.yml check job does not provision a Rust toolchain";
  verifyRustSetupScript "ci.yml" script rust.

Definition check_native (rust : string) (nativeWorkflow : jsval) : outcome sync_error unit :=
  nativeBuildJob ← job_of nativeWorkflow "build";
  guard_throw (negb (is_undefined nativeBuildJob)) (failure "native.yml is missing the build job");;
  script ← step_script is_native_step nativeBuildJob
    "native.yml build job does not provision target toolchain prerequisites";
  verifyRustSetupScript "native.yml" script rust.

(** ** The script *)

Section script.
Context {Disk : Type} `{SourceTree Disk} `{JsonText} (parseToml parseYaml : string → option jsval) (repositoryRoot : path).

Abbreviation io A := (Io.io Disk sync_error A).

(** A file that is read and parsed. *)
Definition read_as (parser : string → option jsval) (p : path) : io jsval :=
  text ← fs (tr_readFile p); io_lift (match parser text with Some v => Ret v | None => Throw syntax_error end).

Definition in_repository (name : string) : path := resolve_from repositoryRoot name.
Definition workflowDirectory : path := in_repository ".github/workflows".
Definition is_workflow (file : string) : bool := ends_with ".yml" file || ends_with ".yaml" file.

Definition workflowFiles : io (list string) :=
  entries ← fs (tr_readdir workflowDirectory); mret (js_sort (List.filter is_workflow entries.*1)).

Fixpoint collect_workflows (known : list string) (files : list string) (used : used_actions) : io used_actions :=
  match files with
  | [] => mret used
  | file :: files =>
      value ← read_as parseYaml (resolve_from workflowDirectory file);
      used ← io_lift (collectActions known value used);
      collect_workflows known files used
  end.

Definition check_versions (fixture : ToolchainFixture) : io unit :=
  nodeVersion ← fs (tr_readFile (in_repository ".node-version"));
  io_lift (guard_throw (String.eqb (trim nodeVersion) (fx_node fixture)) (failure ".node-version does not match the toolchain fixture"));;
  rustToolchain ← read_as parseToml (in_repository "rust-toolchain.toml");
  toolchain ← io_lift (prop rustToolchain "toolchain"); channel ← io_lift (chain toolchain "channel");
  io_lift (guard_throw (is_value channel (fx_rust fixture)) (failure "rust-toolchain.toml does not match the toolchain fixture")).

(** The numbers of actions and of workflows, which are logged. *)
Definition main : io (nat * nat) :=
  fixture ← read_as json_parse (in_repository "fixtures/toolchain.json");
  packageJson ← read_as json_parse (in_repository "package.json");
  fixture ← io_lift (toolchain_fixture fixture);
  io_lift (check_package fixture packageJson);;
  check_versions fixture;;
  files ← workflowFiles;
  used ← collect_workflows (fx_githubActions fixture).*1 files [];
  io_lift (check_actions (fx_githubActions fixture) used);;
  ciWorkflow ← read_as parseYaml (resolve_from workflowDirectory "ci.yml");
  io_lift (check_ci (fx_rust fixture) ciWorkflow);;
  nativeWorkflow ← read_as parseYaml (resolve_from workflowDirectory "native.yml");
  io_lift (check_native (fx_rust fixture) nativeWorkflow);;
  mret (length used, length files).
End script.

(** ** Folds that may throw *)

Section folds.
Context {E A S : Type}.
Implicit Types f : A → S → outcome E S.

Lemma fold_throw_app f l l' s : fold_throw f (l ++ l') s = (s ← fold_throw f l s; fold_throw f l' s).
Proof. revert s. induction l as [|a l IH]; intros s; [done|]. cbn. destruct (f a s); cbn; [apply IH|done]. Qed.

Lemma fold_throw_ext f f' l s : (∀ a s, a ∈ l → f a s = f' a s) → fold_throw f l s = fold_throw f' l s.
Proof.
  revert s. induction l as [|a l IH]; intros s Hf; [done|]. cbn. rewrite Hf by (by left).
  destruct (f' a s); cbn; [|done]. apply IH. intros b t Hb. apply Hf. by right.
Qed.
End folds.

Lemma fold_throw_concat {E A B S} (f : B → S → outcome E S) (g : A → list B) l s :
  fold_throw f (concat (g <$> l)) s = fold_throw (λ a s, fold_throw f (g a) s) l s.
Proof.
  revert s. induction l as [|a l IH]; intros s; [done|]. cbn. rewrite fold_throw_app.
  destruct (fold_throw f (g a) s); cbn; [apply IH|done].
Qed.

Lemma then_ret {E B} (m : outcome E unit) (k : unit → outcome E B) (b : B) : (m ≫= k) = Ret b ↔ m = Ret tt ∧ k tt = Ret b.
Proof. rewrite bind_ret_iff. split; [by intros ([] & ? & ?)|]. intros [? ?]. by exists tt. Qed.

(** A loop of checks. *)
Lemma checks_ret {E A} (f : A → outcome E unit) l (u : unit) : checks f l = Ret u ↔ Forall (λ a, f a = Ret tt) l.
Proof.
  destruct u. unfold checks. induction l as [|a l IH]; cbn [fold_throw]; [by split; [constructor|]|].
  by rewrite Forall_cons, then_ret, <- IH.
Qed.

(** ** Uses *)

(** Every [uses] of a workflow that names another repository. *)
Fixpoint uses_of (value : jsval) : list string :=
  match value with
  | VArr items => concat (uses_of <$> items)
  | VObj fields =>
      concat ((λ '((key, child) : string * jsval),
        match child with
        | VStr s => if String.eqb key "uses" && negb (starts_with "./" s) then [s] else []
        | _ => uses_of child
        end) <$> fields)
  | _ => []
  end.

(** The search visits the whole tree. *)
Lemma collectActions_uses known value used :
  collectActions known value used = fold_throw (use_action known) (uses_of value) used.
Proof.
  revert used. induction value as [| | | | |items IH|fields IH|] using jsval_nested_ind; intros used; try done;
    cbn [collectActions uses_of]; rewrite fold_throw_concat; apply fold_throw_ext; rewrite Forall_forall in IH.
  - intros v s Hv. by apply IH.
  - intros [key child] s Hv. specialize (IH _ Hv s). cbn [snd] in IH. destruct child as [| | | |use| | |]; try exact IH.
    destruct (_ && _); [|done]. cbn. by destruct (use_action known use s).
Qed.

Definition record_uses (found : list (string * string)) : used_actions :=
  fold_left (λ used f, add_reference f.1 f.2 used) found [].

Lemma use_all_ret known uses used used' :
  fold_throw (use_action known) uses used = Ret used' ↔
  ∃ found, map_throw (resolve_use known) uses = Ret found ∧ used' = fold_left (λ u f, add_reference f.1 f.2 u) found used.
Proof.
  setoid_rewrite map_throw_ret. revert used. induction uses as [|u uses IH]; intros used; cbn [fold_throw].
  - split; [intros [= <-]; by exists []|]. intros (found & Hf & ->). by inversion Hf.
  - assert (use_action known u used = found ← resolve_use known u; Ret (add_reference found.1 found.2 used)) as -> by done.
    destruct (resolve_use known u) as [r|e] eqn:Hr; cbn [mbind outcome_bind].
    + rewrite IH. split.
      * intros (found & Hf & ->). exists (r :: found). by split; [constructor|].
      * intros (found & Hf & ->). inversion Hf as [|? r' ? found' Hr' Hf']; subst. assert (r' = r) as -> by (cbn in Hr'; congruence). by exists found'.
    + split; [done|]. intros (found & Hf & _). inversion Hf; congruence.
Qed.

(** ** What is recorded *)

Definition recorded (used : used_actions) (action reference : string) : Prop :=
  ∃ references, (action, references) ∈ used ∧ reference ∈ references.

(** Keys are distinct, and every key has distinct references and at least one. *)
Definition well_recorded (used : used_actions) : Prop :=
  NoDup used.*1 ∧ Forall (λ u : string * list string, u.2 ≠ [] ∧ NoDup u.2) used.

Lemma add_reference_keys action reference used a :
  a ∈ (add_reference action reference used).*1 ↔ a = action ∨ a ∈ used.*1.
Proof.
  induction used as [|[b references] used IH]; cbn [add_reference].
  { cbn. rewrite list_elem_of_singleton, elem_of_nil. tauto. }
  destruct (String.eqb_spec b action) as [->|Hne]; cbn [fmap list_fmap fst]; rewrite ?elem_of_cons in *; [tauto|].
  rewrite IH. tauto.
Qed.

Lemma add_reference_recorded action reference used a r : NoDup used.*1 →
  recorded (add_reference action reference used) a r ↔ (a, r) = (action, reference) ∨ recorded used a r.
Proof.
  unfold recorded. induction used as [|[b references] used IH]; intros Hnd; cbn [add_reference].
  { setoid_rewrite list_elem_of_singleton. setoid_rewrite elem_of_nil. split.
    - intros (? & [= -> ->] & ->%list_elem_of_singleton). by left.
    - intros [[= -> ->]|(? & [] & _)]. eexists. split; [done|by left]. }
  cbn in Hnd. apply NoDup_cons in Hnd as [Hb Hnd]. specialize (IH Hnd).
  destruct (String.eqb_spec b action) as [->|Hne]; repeat setoid_rewrite elem_of_cons.
  - split.
    + intros (refs & [[= -> ->]|Hin] & Hr); [|right; exists refs; auto].
      destruct (js_elem reference references); [right; exists references; auto|].
      apply elem_of_app in Hr as [Hr|Hr%list_elem_of_singleton]; [right; exists references; auto|left; by subst].
    + intros [[= -> ->]|(refs & [[= -> ->]|Hin] & Hr)].
      * eexists; split; [by left|]. destruct (js_elem reference references) eqn:He; [by apply js_elem_spec|].
        apply elem_of_app. right. by apply list_elem_of_singleton.
      * eexists; split; [by left|]. destruct (js_elem reference references); [done|]. apply elem_of_app. by left.
      * exists refs. auto.
  - split.
    + intros (refs & [[= -> ->]|Hin] & Hr); [right; exists references; auto|].
      destruct (proj1 IH) as [?|(refs' & ? & ?)]; [by exists refs|by left|right; exists refs'; auto].
    + intros [He|(refs & [[= -> ->]|Hin] & Hr)].
      * destruct (proj2 IH (or_introl He)) as (refs & ? & ?). exists refs; auto.
      * exists references; auto.
      * destruct (proj2 IH) as (refs' & ? & ?); [right; by exists refs|]. exists refs'; auto.
Qed.

Lemma add_reference_well action reference used : well_recorded used → well_recorded (add_reference action reference used).
Proof.
  intros [Hnd Hall]. induction used as [|[b references] used IH]; cbn [add_reference].
  { split; [by apply NoDup_singleton|]. apply Forall_singleton. split; [done|apply NoDup_singleton]. }
  cbn in Hnd. apply NoDup_cons in Hnd as [Hb Hnd]. apply Forall_cons in Hall as [[Hne Hr] Hall].
  destruct (IH Hnd Hall) as [Hnd' Hall']. destruct (String.eqb_spec b action) as [->|Hba].
  - split; [by apply NoDup_cons|]. apply Forall_cons. split; [|done]. cbn in *.
    destruct (js_elem reference references) eqn:He; [done|]. apply js_elem_false in He. split; [by destruct references|].
    apply NoDup_app. split_and!; [done| |apply NoDup_singleton]. by intros x Hx ->%list_elem_of_singleton.
  - split; [|by apply Forall_cons]. cbn. apply NoDup_cons. split; [|done].
    by intros [?|?]%add_reference_keys.
Qed.

Lemma record_uses_facts found :
  well_recorded (record_uses found) ∧ ∀ a r, recorded (record_uses found) a r ↔ (a, r) ∈ found.
Proof.
  unfold record_uses. induction found as [|[action reference] found [Hw Hr]] using rev_ind; cbn.
  { split; [by split; constructor|]. intros a r. unfold recorded. setoid_rewrite elem_of_nil. naive_solver. }
  rewrite fold_left_app. cbn. split; [by apply add_reference_well|]. intros a r.
  rewrite add_reference_recorded, Hr, elem_of_app, list_elem_of_singleton by apply Hw. tauto.
Qed.

(** The commit that the fixture pins an action to. *)
Definition sha_of (actions : list (string * string)) (action : string) : option string :=
  kv ← list_find (λ kv : string * string, kv.1 = action) actions; Some kv.2.2.

(** Every reference is the pinned commit, and every pinned action is used. *)
Definition all_pinned (actions found : list (string * string)) : Prop :=
  (∀ action reference, (action, reference) ∈ found → sha_of actions action = Some reference) ∧
  ∀ action, action ∈ actions.*1 → ∃ reference, (action, reference) ∈ found.

Lemma check_used_iff actions used : used.2 ≠ [] ∧ NoDup used.2 →
  check_used actions used = Ret tt ↔ ∀ reference, reference ∈ used.2 → sha_of actions used.1 = Some reference.
Proof.
  destruct used as [action references]. cbn. intros [Hne Hnd]. unfold check_used, sha_of. cbn [fst snd].
  destruct (list_find _ actions) as [[i [a sha]]|]; cbn.
  2:{ split; [done|]. intros Hall. destruct references as [|r references]; [done|]. by specialize (Hall r ltac:(by left)). }
  rewrite guard_throw_ret, andb_true_iff, Nat.eqb_eq, js_elem_spec. split.
  - intros [Hl Hs] r Hr. destruct references as [|x [|]]; try done.
    apply list_elem_of_singleton in Hs, Hr. by subst.
  - intros Hall. assert (references = [sha]) as ->; [|split; [done|by left]].
    destruct references as [|x [|y references]]; [done| |].
    + specialize (Hall x ltac:(by left)). by injection Hall as ->.
    + exfalso. pose proof (Hall x ltac:(by left)) as Hx. pose proof (Hall y ltac:(by right; left)) as Hy.
      apply NoDup_cons in Hnd as [Hnd _]. apply Hnd. assert (x = y) as -> by congruence. by left.
Qed.

Lemma check_actions_iff actions found : check_actions actions (record_uses found) = Ret tt ↔ all_pinned actions found.
Proof.
  destruct (record_uses_facts found) as [[Hnd Hw] Hr]. unfold check_actions, all_pinned.
  rewrite then_ret, !checks_ret, !Forall_forall. rewrite Forall_forall in Hw.
  setoid_rewrite guard_throw_ret. setoid_rewrite js_elem_spec.
  assert (∀ a, a ∈ (record_uses found).*1 ↔ ∃ r, (a, r) ∈ found) as Hkeys.
  { intros a. setoid_rewrite <- Hr. unfold recorded. rewrite list_elem_of_fmap. split.
    - intros ([b refs] & -> & Hin). destruct (Hw _ Hin) as [Hne _]. cbn in *. destruct refs as [|r refs]; [done|].
      exists r, (r :: refs). split; [done|by left].
    - intros (r & refs & Hin & _). by exists (a, refs). }
  setoid_rewrite Hkeys. split.
  - intros [Hused Hall]. split; [|done]. intros a r Hin. apply Hr in Hin as (refs & Hin & Hin').
    pose proof (Hused _ Hin) as Hc. by eapply (check_used_iff actions (a, refs) (Hw _ Hin)).
  - intros [Hsha Hall]. split; [|done]. intros [a refs] Hin. apply check_used_iff; [by apply Hw|].
    intros r Hin'. apply Hsha, Hr. by exists refs.
Qed.

(** ** Which action a use is of *)

Lemma split_last_some c s before after :
  split_last c s = Some (before, after) → s = (before ++ String c after)%string ∧ has_unit c after = false.
Proof.
  assert (∀ s, split_last c s = None → has_unit c s = false) as Hnone.
  { clear. unfold has_unit. induction s as [|d s IH]; cbn [split_last str_exists]; [done|].
    destruct (split_last c s) as [[]|]; [done|]. destruct (Ascii.eqb_spec d c) as [->|Hne]; [done|].
    intros _. apply orb_false_iff. split; [|by apply IH]. apply Ascii.eqb_neq. congruence. }
  revert before. induction s as [|d s IH]; intros before; cbn [split_last]; [done|].
  destruct (split_last c s) as [[b a]|] eqn:Hs.
  - intros [= <- <-]. by destruct (IH b eq_refl) as [-> ?].
  - destruct (Ascii.eqb_spec d c) as [->|]; [|done]. intros [= <- <-]. auto.
Qed.

#[export] Instance longer_total : Total longer.
Proof. intros a b. unfold longer. lia. Qed.
#[export] Instance longer_trans : Transitive longer.
Proof. intros a b c. unfold longer. lia. Qed.

(** The reference is what follows the last at sign, and the action the longest known
    one that is the path before it or a directory above. *)
Lemma resolve_use_spec known child action reference : resolve_use known child = Ret (action, reference) →
  ∃ actionPath, child = (actionPath ++ "@" ++ reference)%string ∧ actionPath ≠ "" ∧ has_unit "@" reference = false ∧
    action ∈ known ∧ covers actionPath action = true ∧
    ∀ other, other ∈ known → covers actionPath other = true → longer action other.
Proof.
  unfold resolve_use. destruct (split_last "@" child) as [[actionPath reference']|] eqn:Hs; [|done].
  apply split_last_some in Hs as [-> Hu]. rewrite guard_bind_iff, negb_true_iff, String.eqb_neq. intros [Hne Hf].
  destruct (List.find _ _) as [found|] eqn:Hfind; [|done]. injection Hf as -> ->. exists actionPath.
  pose proof (find_some _ _ Hfind) as [Hin Hc].
  rewrite <- list_elem_of_In in Hin. unfold longest_first in Hin. rewrite merge_sort_Permutation in Hin.
  split_and!; try done. intros other Ho Hco.
  assert (other ∈ longest_first known) as Ho' by (unfold longest_first; by rewrite merge_sort_Permutation).
  assert (Sorted longer (longest_first known)) as Hsort by (apply Sorted_merge_sort, _).
  apply (Sorted_StronglySorted longer) in Hsort. revert Hfind Hsort Ho'. generalize (longest_first known). clear - Hco.
  intros l. induction l as [|x l IH]; cbn [List.find]; [done|]. intros Hfind Hsort Ho.
  inversion Hsort as [|?? Hl Hx]; subst. destruct (covers actionPath x) eqn:Hcx.
  - injection Hfind as ->. apply elem_of_cons in Ho as [->|Ho]; [unfold longer; lia|].
    rewrite Forall_forall in Hx. by apply Hx.
  - apply elem_of_cons in Ho as [->|Ho]; [congruence|by apply IH].
Qed.

(** ** What is checked *)

Section spec.
Context {Disk : Type} `{SourceTree Disk} `{JsonText} {writes : list string → list path → Prop} {laws : SourceTreeLaws Disk writes}.
Context (parseToml parseYaml : string → option jsval) (repositoryRoot : path).
Implicit Types d : Disk.

Abbreviation D m P := (Decides silent (λ _ _, False) m P).

(** What a file holds. *)
Definition parsed_at (parser : string → option jsval) (p : path) (v : jsval) d : Prop :=
  ∃ text, content_at d p = Some text ∧ parser text = Some v.

(** The versions in the package. *)
Definition package_matches (fixture : ToolchainFixture) (packageJson : jsval) : Prop :=
  prop packageJson "packageManager" = Ret (VStr ("bun@" ++ fx_bun fixture)) ∧
  (∃ dependencies, prop packageJson "devDependencies" = Ret dependencies ∧
    Forall (λ e, prop dependencies e.1 = Ret (VStr e.2)) (expectedPackageVersions fixture)) ∧
  ∃ overrides, prop packageJson "overrides" = Ret overrides ∧
    prop overrides "@types/node" = Ret (VStr (fx_typesNode fixture)).

(** A script that sets the pinned Rust up. *)
Definition sets_up (rust script : string) : Prop :=
  installs script rust = true ∧
  Forall (λ t, includes t script = true) ["clippy"; "rustfmt"; "rust-src"; "rustup target add"; "musl-tools"].

(** The first entry of the matrix for a system has its target. *)
Definition builds_for (matrixIncludes : list jsval) (expected : string * string) : Prop :=
  ∃ entry, find_throw (λ candidate, os ← prop candidate "os"; Ret (is_value os expected.1)) matrixIncludes = Ret (Some entry) ∧
    prop entry "target" = Ret (VStr expected.2).

Definition ci_matches (rust : string) (workflow : jsval) : Prop :=
  ∃ job strategy matrix included entries script,
    job_of workflow "check" = Ret job ∧ job ≠ VUndef ∧
    prop job "strategy" = Ret strategy ∧ chain strategy "matrix" = Ret matrix ∧ chain matrix "include" = Ret included ∧
    values_or_none included = Ret entries ∧ Forall (builds_for entries) expectedTargets ∧
    step_script is_ci_step job "ci.yml check job does not provision a Rust toolchain" = Ret script ∧ sets_up rust script.

Definition native_matches (rust : string) (workflow : jsval) : Prop :=
  ∃ job script, job_of workflow "build" = Ret job ∧ job ≠ VUndef ∧
    step_script is_native_step job "native.yml build job does not provision target toolchain prerequisites" = Ret script ∧
    sets_up rust script.

Lemma check_value v k t (e : sync_error) : (x ← prop v k; guard_throw (is_value x t) e) = Ret tt ↔ prop v k = Ret (VStr t).
Proof.
  rewrite bind_ret_iff. setoid_rewrite guard_throw_ret. setoid_rewrite is_value_iff.
  split; [by intros (? & ? & ->)|eauto].
Qed.

Lemma check_dependencies v l u : checks (check_dependency v) l = Ret u ↔ Forall (λ e, prop v e.1 = Ret (VStr e.2)) l.
Proof. rewrite checks_ret. apply Forall_iff. intros e. apply check_value. Qed.

Lemma check_package_iff fixture packageJson : check_package fixture packageJson = Ret tt ↔ package_matches fixture packageJson.
Proof.
  unfold check_package, package_matches. rewrite bind_ret_iff. setoid_rewrite guard_bind_iff. setoid_rewrite is_value_iff.
  setoid_rewrite bind_ret_iff. setoid_rewrite then_ret. setoid_rewrite check_dependencies. setoid_rewrite bind_ret_iff.
  setoid_rewrite check_value. naive_solver.
Qed.

Lemma included_iff script l : all_included script l = Ret tt ↔ Forall (λ t, includes t script = true) l.*1.
Proof.
  induction l as [|[t message] l IH]; cbn; [by split; [constructor|]|]. by rewrite Forall_cons, guard_bind_iff, IH.
Qed.

Lemma sets_up_iff workflow script rust u : verifyRustSetupScript workflow script rust = Ret u ↔ sets_up rust script.
Proof. destruct u. unfold verifyRustSetupScript, sets_up. by rewrite guard_bind_iff, included_iff. Qed.

Lemma check_targets entries l u : checks (check_target entries) l = Ret u ↔ Forall (builds_for entries) l.
Proof.
  rewrite checks_ret. apply Forall_iff. intros e. unfold check_target, builds_for. rewrite bind_ret_iff. split.
  - intros ([entry|] & Hf & Hv); [|done]. apply check_value in Hv. by exists entry.
  - intros (entry & Hf & Hv). exists (Some entry). split; [done|]. by apply check_value.
Qed.

#[local] Opaque step_script job_of.

Lemma check_ci_iff rust workflow : check_ci rust workflow = Ret tt ↔ ci_matches rust workflow.
Proof.
  unfold check_ci, ci_matches. rewrite bind_ret_iff. setoid_rewrite guard_bind_iff. do 4 setoid_rewrite bind_ret_iff.
  setoid_rewrite then_ret. setoid_rewrite check_targets. setoid_rewrite bind_ret_iff. setoid_rewrite sets_up_iff.
  setoid_rewrite negb_true_iff. assert (∀ v, is_undefined v = false ↔ v ≠ VUndef) as Hd by (by intros []).
  setoid_rewrite Hd. split.
  - intros (job & ? & ? & strategy & ? & matrix & ? & included & ? & entries & ? & ? & script & ? & ?).
    exists job, strategy, matrix, included, entries, script. by split_and!.
  - intros (job & strategy & matrix & included & entries & script & ? & ? & ? & ? & ? & ? & ? & ? & ?).
    exists job. do 2 (split; [done|]). exists strategy. split; [done|]. exists matrix. split; [done|]. exists included.
    split; [done|]. exists entries. do 2 (split; [done|]). by exists script.
Qed.

Lemma check_native_iff rust workflow : check_native rust workflow = Ret tt ↔ native_matches rust workflow.
Proof.
  unfold check_native, native_matches. rewrite bind_ret_iff. setoid_rewrite guard_bind_iff. setoid_rewrite bind_ret_iff.
  setoid_rewrite sets_up_iff. setoid_rewrite negb_true_iff.
  assert (∀ v, is_undefined v = false ↔ v ≠ VUndef) as Hd by (by intros []). setoid_rewrite Hd. naive_solver.
Qed.

(** The workflows of the repository. *)
Definition workflows_at (files : list string) d : Prop :=
  ∃ entries, listing (workflowDirectory repositoryRoot) entries d ∧ files = js_sort (List.filter is_workflow entries.*1).

Abbreviation workflow_at file := (parsed_at parseYaml (resolve_from (workflowDirectory repositoryRoot) file)).

(** Everything the repository is built with is what the fixture says; [found] has the
    action and the reference of every use of the workflows. *)
Record toolchain_pinned (fixture : ToolchainFixture) (files : list string) (found : list (string * string)) d : Prop := {
  tp_fixture : ∃ v, parsed_at json_parse (in_repository repositoryRoot "fixtures/toolchain.json") v d ∧ toolchain_fixture v = Ret fixture;
  tp_package : ∃ v, parsed_at json_parse (in_repository repositoryRoot "package.json") v d ∧ package_matches fixture v;
  tp_node : ∃ text, content_at d (in_repository repositoryRoot ".node-version") = Some text ∧ trim text = fx_node fixture;
  tp_rust : ∃ v toolchain, parsed_at parseToml (in_repository repositoryRoot "rust-toolchain.toml") v d ∧
    prop v "toolchain" = Ret toolchain ∧ chain toolchain "channel" = Ret (VStr (fx_rust fixture));
  tp_workflows : workflows_at files d;
  tp_uses : ∃ values, Forall2 (λ file v, workflow_at file v d) files values ∧
    map_throw (resolve_use (fx_githubActions fixture).*1) (concat (uses_of <$> values)) = Ret found;
  tp_pinned : all_pinned (fx_githubActions fixture) found;
  tp_ci : ∃ v, workflow_at "ci.yml" v d ∧ ci_matches (fx_rust fixture) v;
  tp_native : ∃ v, workflow_at "native.yml" v d ∧ native_matches (fx_rust fixture) v }.

Definition toolchain_verified d (result : nat * nat) : Prop :=
  ∃ fixture files found, toolchain_pinned fixture files found d ∧ result = (length (record_uses found), length files).

Lemma t_bind {A B} (m : Io.io Disk sync_error A) (f : A → Io.io Disk sync_error B) P Q :
  D m P → (∀ a, D (f a) (Q a)) → D (m ≫= f) (λ d b, ∃ a, P d a ∧ Q a d b).
Proof. by apply decides_bind. Qed.
Lemma t_read p : D (fs (tr_readFile p)) (λ d text, content_at d p = Some text).
Proof.
  apply decides_call; [by eexists|apply readFile_unchanged|apply readFile_reads|congruence|].
  intros d d' a [_ Hc]. by rewrite Hc.
Qed.

Lemma read_as_decides parser p : D (read_as parser p) (λ d v, parsed_at parser p v d).
Proof.
  eapply decides_iff; [|apply t_bind; [apply t_read|intros text; apply decides_lift]].
  intros d v. unfold parsed_at. split; intros (text & Ht & Hv); exists text; (split; [done|]); by destruct (parser text); simplify_eq.
Qed.

Lemma workflowFiles_decides : D (workflowFiles repositoryRoot) (λ d files, workflows_at files d).
Proof.
  split.
  - intros d. apply runs_bind, runs_call. intros r d1 Hd. pose proof (readdir_unchanged (workflowDirectory repositoryRoot) d) as Hu.
    rewrite Hd in Hu. destruct r as [entries|e]; [|split; [by repeat apply Forall_cons_2|left; by eexists]].
    pose proof (readdir_lists (workflowDirectory repositoryRoot) d entries) as Hl. rewrite Hd in Hl. specialize (Hl eq_refl).
    apply runs_ret. split; [by repeat apply Forall_cons_2|]. by exists entries.
  - intros d files files' (entries & [Hn Hl] & ->) (entries' & [Hn' Hl'] & ->). apply js_sort_eq.
    assert (entries.*1 ≡ₚ entries'.*1) as Hp.
    { apply NoDup_Permutation; [done..|]. intros name. rewrite !list_elem_of_fmap.
      split; intros ([n k] & -> & Hin); exists (n, k); (split; [done|]); [by apply Hl', Hl|by apply Hl, Hl']. }
    clear - Hp. induction Hp as [|x l l' _ IH|x y l|l l' l'' _ IH _ IH']; cbn; [done|by case_match; rewrite IH| |by etrans].
    repeat case_match; [apply Permutation_swap|done..].
  - intros d d' files Hu (entries & Hl & ->). exists entries. split; [by eapply listing_same|done].
Qed.

Lemma workflows_decide known files used : D (collect_workflows parseYaml repositoryRoot known files used)
  (λ d used', ∃ values, Forall2 (λ file v, workflow_at file v d) files values ∧
    fold_throw (use_action known) (concat (uses_of <$> values)) used = Ret used').
Proof.
  revert used. induction files as [|file files IH]; intros used; cbn [collect_workflows].
  - eapply decides_iff; [|apply decides_ret]. intros d used'. split.
    + intros ->. by exists [].
    + intros (values & Hv & Hf). inversion Hv; subst. cbn in Hf. congruence.
  - eapply decides_iff; [|apply t_bind; [apply read_as_decides|intros v; apply t_bind; [apply decides_lift|intros used'; apply IH]]].
    intros d used'. cbv beta. split.
    + intros (v & Hv & used1 & H1 & values & Hvs & Hf). exists (v :: values). split; [by constructor|].
      cbn. rewrite fold_throw_app, <- collectActions_uses, H1. exact Hf.
    + intros (values & Hvs & Hf). inversion Hvs as [|? v ? values' Hv Hvs']; subst. cbn in Hf.
      rewrite fold_throw_app, <- collectActions_uses in Hf. apply bind_ret_iff in Hf as (used1 & H1 & Hf).
      exists v. split; [done|]. exists used1. split; [done|]. by exists values'.
Qed.

Lemma versions_decide fixture : D (check_versions parseToml repositoryRoot fixture) (λ d _,
  (∃ text, content_at d (in_repository repositoryRoot ".node-version") = Some text ∧ trim text = fx_node fixture) ∧
  ∃ v toolchain, parsed_at parseToml (in_repository repositoryRoot "rust-toolchain.toml") v d ∧
    prop v "toolchain" = Ret toolchain ∧ chain toolchain "channel" = Ret (VStr (fx_rust fixture))).
Proof.
  unfold check_versions. eapply decides_iff; [|apply t_bind; [apply t_read|intros text; apply t_bind; [apply decides_guard|intros u;
    apply t_bind; [apply read_as_decides|intros v; apply t_bind; [apply decides_lift|intros toolchain; apply t_bind; [apply decides_lift|
    intros channel; apply decides_guard]]]]]].
  intros d []. cbv beta. setoid_rewrite String.eqb_eq. setoid_rewrite is_value_iff. split.
  - intros (text & Ht & _ & Hn & v & Hv & toolchain & Hto & channel & Hc & ->). split; [by exists text|by exists v, toolchain].
  - intros ((text & Ht & Hn) & v & toolchain & Hv & Hto & Hc). exists text. split; [done|]. exists tt. split; [done|].
    exists v. split; [done|]. exists toolchain. split; [done|]. by exists (VStr (fx_rust fixture)).
Qed.

Lemma toolchain_decides : D (main parseToml parseYaml repositoryRoot) (λ d result, toolchain_verified d result).
Proof.
  unfold main. eapply decides_iff; [|apply t_bind; [apply read_as_decides|intros v; apply t_bind; [apply read_as_decides|intros packageJson;
    apply t_bind; [apply decides_lift|intros fixture; apply t_bind; [apply decides_lift|intros u; apply t_bind; [apply versions_decide|intros ?;
    apply t_bind; [apply workflowFiles_decides|intros files; apply t_bind; [apply workflows_decide|intros used;
    apply t_bind; [apply decides_lift|intros ?; apply t_bind; [apply read_as_decides|intros ci; apply t_bind; [apply decides_lift|intros ?;
    apply t_bind; [apply read_as_decides|intros native; apply t_bind; [apply decides_lift|intros ?; apply decides_ret]]]]]]]]]]]]].
  intros d result. cbv beta. split.
  - intros (v & Hv & packageJson & Hp & fixture & Hf & [] & Hpm%check_package_iff & _ & [Hnode Hrust] & files & Hfiles & used &
      (values & Hvs & (found & Hfound & ->)%use_all_ret) & [] & Ha%check_actions_iff & ci & Hci & [] & Hcm%check_ci_iff &
      native & Hn & [] & Hnm%check_native_iff & ->).
    exists fixture, files, found. split; [|done]. split; try done; [by exists v|by exists packageJson|by exists values|by exists ci|by exists native].
  - intros (fixture & files & found & [(v & Hv & Hf) (packageJson & Hp & Hpm) Hnode Hrust Hfiles (values & Hvs & Hfound) Ha
      (ci & Hci & Hcm) (native & Hn & Hnm)] & ->).
    exists v. split; [done|]. exists packageJson. split; [done|]. exists fixture. split; [done|]. exists tt. split; [by apply check_package_iff|].
    exists tt. split; [done|]. exists files. split; [done|]. exists (record_uses found).
    split; [exists values; split; [done|]; apply use_all_ret; by exists found|]. exists tt. split; [by apply check_actions_iff|].
    exists ci. split; [done|]. exists tt. split; [by apply check_ci_iff|]. exists native. split; [done|]. exists tt. by split; [apply check_native_iff|].
Qed.
End spec.

(** C20: the toolchain.  The check changes nothing, and unless a call fails it returns
    exactly when everything is pinned: the package, Node.js and Rust have the versions
    of the fixture, every use of an action in any workflow, however deep, is at the
    commit that the fixture pins the action to and every action of the fixture is
    used, and the two workflows build for the right targets and set the pinned Rust up
    with its components.  It answers the numbers of actions and of workflows. *)
Theorem toolchain_is_pinned {Disk} `{SourceTree Disk} `{JsonText} writes (laws : SourceTreeLaws Disk writes)
    (parseToml parseYaml : string → option jsval) (repositoryRoot : path) (d : Disk) :
  let '(r, d', states) := main parseToml parseYaml repositoryRoot d in
  Forall (unchanged d) (d' :: states) ∧
  match r with
  | Ret result => toolchain_verified parseToml parseYaml repositoryRoot d result
  | Throw e => silent e ∨ ∀ result, ¬ toolchain_verified parseToml parseYaml repositoryRoot d result
  end.
Proof.
  pose proof (de_runs _ _ _ _ (toolchain_decides (laws := laws) parseToml parseYaml repositoryRoot) d) as Hrun. unfold runs in Hrun.
  destruct (main parseToml parseYaml repositoryRoot d) as [[[result|e] d'] states]; [done|].
  destruct Hrun as [Ht [Hs|[[]|Hno]]]; split; auto.
Qed.

(** ** An example *)

Definition toolchain_text (v : jsval) : node := n_file (@stringify bits_json v).
Definition strings_of (l : list (string * string)) : jsval := VObj ((λ kv, (kv.1, VStr kv.2)) <$> l).
Definition sample_fixture : jsval := VObj [
  ("runtime", strings_of [("biome", "2"); ("bun", "1.3"); ("node", "24"); ("npm", "11"); ("rust", "1.95.0"); ("typebox", "1");
    ("typesNode", "24.1"); ("typescript", "5")]);
  ("githubActions", VObj [("actions/cache", strings_of [("sha", "c0ffee"); ("version", "v4")])]);
  ("schemaVersion", VNum (num_of_Z 1))].
Definition sample_package_json : jsval := VObj [
  ("packageManager", VStr "bun@1.3");
  ("devDependencies", strings_of [("@biomejs/biome", "2"); ("@openai/codex", "0.146.0"); ("@openai/codex-sdk", "0.146.0");
    ("@earendil-works/pi-agent-core", "file:../pi/packages/agent"); ("@earendil-works/pi-ai", "file:../pi/packages/ai");
    ("@earendil-works/pi-coding-agent", "file:../pi/packages/coding-agent"); ("@earendil-works/pi-tui", "file:../pi/packages/tui");
    ("@types/node", "24.1"); ("typebox", "1"); ("typescript", "^5")]);
  ("overrides", strings_of [("@types/node", "24.1")])].
Definition sample_setup : jsval :=
  VArr (VStr <$> ["rustup toolchain install 1.95.0 --component clippy,rustfmt,rust-src"; "rustup target add t"; "apt install musl-tools"]).
Definition sample_ci (use : string) : jsval := VObj [("jobs", VObj [("check", VObj [
  ("strategy", VObj [("matrix", VObj [("include", VArr ((λ e, strings_of [("os", e.1); ("target", e.2)]) <$> expectedTargets))])]);
  ("steps", VArr [strings_of [("uses", "./local")]; strings_of [("uses", use)];
    VObj [("name", VStr "Install Rust toolchain prerequisites"); ("run", sample_setup)]])])])].
Definition sample_native : jsval := VObj [("jobs", VObj [("build", VObj [
  ("steps", VArr [VObj [("name", VStr NATIVE_STEP); ("run", sample_setup)]])])])].

Definition toolchain_disk (use : string) : repo := {|
  rp_nodes := ((λ p : path, (p, n_directory)) <$> [[]; ["r"]; ["r"; "fixtures"]; ["r"; ".github"]; ["r"; ".github"; "workflows"]]) ++
    [(["r"; "fixtures"; "toolchain.json"], toolchain_text sample_fixture); (["r"; "package.json"], toolchain_text sample_package_json);
     (["r"; ".node-version"], n_file (" 24" ++ line_feed)%string);
     (["r"; "rust-toolchain.toml"], toolchain_text (VObj [("toolchain", strings_of [("channel", "1.95.0")])]));
     (["r"; ".github"; "workflows"; "ci.yml"], toolchain_text (sample_ci use));
     (["r"; ".github"; "workflows"; "native.yml"], toolchain_text sample_native)];
  rp_reply := λ _, {| exitCode := 0; stdout := "" |};
  rp_plan := [] |}.
Definition toolchain_main (d : repo) : outcome sync_error (nat * nat) * repo * list repo :=
  main (H := repo_tree (λ _, [])) (H0 := bits_json) (@json_parse bits_json) (@json_parse bits_json) ["r"] d.

(** An action at the pinned commit, one at another and one without a reference. *)
Lemma toolchain_is_pinned_witness :
  let after d := let '(r, d', states) := toolchain_main d in
    Forall (unchanged (H := repo_tree (λ _, [])) d) (d' :: states) ∧
    match r with
    | Ret result => toolchain_verified (H := repo_tree (λ _, [])) (H0 := bits_json) (@json_parse bits_json) (@json_parse bits_json) ["r"] d result
    | Throw e => silent e ∨ ∀ result, ¬ toolchain_verified (H := repo_tree (λ _, [])) (H0 := bits_json) (@json_parse bits_json) (@json_parse bits_json) ["r"] d result
    end in
  (toolchain_main (toolchain_disk "actions/cache/save@c0ffee")).1.1 = Ret (1, 2) ∧ after (toolchain_disk "actions/cache/save@c0ffee") ∧
  (toolchain_main (toolchain_disk "actions/cache@v4")).1.1 = Throw (failure "actions/cache is not pinned to c0ffee") ∧
  after (toolchain_disk "actions/cache@v4") ∧
  (toolchain_main (toolchain_disk "actions/cache")).1.1 = Throw (failure "Action is not pinned: actions/cache").
Proof.
  intros after. split_and!.
  - vm_compute. reflexivity.
  - apply (toolchain_is_pinned (H0 := bits_json) (git_writes ["r"]) (repo_laws (λ _, []) ["r"])).
  - vm_compute. reflexivity.
  - apply (toolchain_is_pinned (H0 := bits_json) (git_writes ["r"]) (repo_laws (λ _, []) ["r"])).
  - vm_compute. reflexivity.
Defined.
