(* ===== verification/PiFork.v ===== *)
(** * PiFork

    [src/scripts/test-pi-fork.ts]: the SDK that is packed from a checkout of Pi is
    what its manifest says, and a copy of the adaptor is installed, packed and tested
    with it, in a temporary directory.

    [launch] and [realpath] are as in [PackageVerify]; [glob] gives the files of a
    directory that a pattern matches.  What is written to the console is not
    modelled. *)

From Stdlib Require Import Lia.
From S2P Require Import Prelude StructuredJson Tools Io Paths Workspace Json Protocol Launch.
From S2P Require Import Vendor VendorRepo VendorFacts Package SchemaCheck PackageVerify Toolchain.

Record ForkOptions := { fo_piDir : path; fo_piRef : string; fo_keepTemp : bool }.
Record PackedPiSdk := { ps_forkCommit : string; ps_manifestPath : path; ps_sdkVersion : string }.

Definition piPackages : list string :=
  ["@earendil-works/pi-tui"; "@earendil-works/pi-ai"; "@earendil-works/pi-agent-core"; "@earendil-works/pi-coding-agent"].
Definition focusedTests : list string := [
  "tests/smoke/pi-fork-provenance.test.ts"; "tests/smoke/tool-surface.test.ts"; "tests/unit/compaction-checkpoint.test.ts";
  "tests/unit/codex-provider-request-guard.test.ts"; "tests/unit/codex-provider-lifecycle.test.ts";
  "tests/unit/provider-session-router.test.ts"; "tests/unit/codex-tool-profile.test.ts"].

(** ** Options *)

(** The loop over the arguments. *)
Fixpoint parse_loop (args : list string) (piDir piRef : option string) (keepTemp : bool)
    : outcome sync_error (option string * option string * bool) :=
  match args with
  | [] => Ret (piDir, piRef, keepTemp)
  | argument :: args =>
      if String.eqb argument "--pi-dir" || String.eqb argument "--pi-ref" then
        match args with
        | value :: args =>
            guard_throw (negb (starts_with "--" value)) (failure (argument ++ " requires a value")%string);;
            if String.eqb argument "--pi-dir" then parse_loop args (Some value) piRef keepTemp
            else parse_loop args piDir (Some value) keepTemp
        | [] => Throw (failure (argument ++ " requires a value")%string)
        end
      else if String.eqb argument "--keep-temp" then parse_loop args piDir piRef true
      else Throw (failure ("Unknown option: " ++ argument)%string)
  end.

Definition parseOptions (cwd : path) (args : list string) : outcome sync_error ForkOptions :=
  options ← parse_loop args None None false;
  match options with
  | (Some piDir, Some piRef, keepTemp) =>
      Ret {| fo_piDir := resolve_from cwd piDir; fo_piRef := piRef; fo_keepTemp := keepTemp |}
  | _ => Throw (failure "--pi-dir and --pi-ref are required")
  end.

(** ** The manifest of the SDK *)

Definition INVALID_ENTRY : sync_error := failure "Pi SDK manifest contains an invalid package entry".
Definition INVALID_MANIFEST : sync_error :=
  failure "Pi SDK manifest has an invalid commit, capability level, or package count".

Definition CAPABILITIES : list string := [
  "extensionSdkApiVersion"; "providerPayloadCompactionApiVersion"; "providerCheckpointCommitApiVersion";
  "compactionFailureResultApiVersion"].

(** Every capability is at level one. *)
Definition check_capabilities (capabilities : jsval) : outcome sync_error bool :=
  levels ← map_throw (chain capabilities) CAPABILITIES; Ret (forallb is_one levels).

(** [v?.length === n]. *)
Definition has_length (v : jsval) (n : nat) : bool :=
  match v with
  | VArr l => (length l =? n)%nat
  | VStr s => (String.length s =? n)%nat
  | VObj fs => is_num (Z.of_nat n) (field fs "length")
  | _ => false
  end.

(** The commit, the version and the entries. *)
Definition sdk_manifest (manifest : jsval) : outcome sync_error (string * string * list jsval) :=
  forkCommit ← prop manifest "forkCommit"; sdkVersion ← prop manifest "sdkVersion";
  capabilities ← prop manifest "capabilities"; levels ← check_capabilities capabilities;
  packages ← prop manifest "packages";
  match forkCommit, sdkVersion with
  | VStr commit, VStr version =>
      guard_throw (levels && has_length packages (length piPackages)) INVALID_MANIFEST;;
      entries ← values_of packages; Ret (commit, version, entries)
  | _, _ => Throw INVALID_MANIFEST
  end.

Record SdkPackage := { sp_name : string; sp_path : string; sp_sha256 : string }.
Definition sdk_package (sdkVersion : string) (entry : jsval) : outcome sync_error SdkPackage :=
  name ← prop entry "name"; version ← prop entry "version"; p ← prop entry "path"; sha256 ← prop entry "sha256";
  match name, p, sha256 with
  | VStr name, VStr p, VStr sha256 =>
      guard_throw (js_elem name piPackages && is_value version sdkVersion) INVALID_ENTRY;;
      Ret {| sp_name := name; sp_path := p; sp_sha256 := sha256 |}
  | _, _, _ => Throw INVALID_ENTRY
  end.

(** ** The metadata of the copy *)

(** [delete o\[k\]]. *)
Definition delete_entry (fs : list (string * jsval)) (k : string) : list (string * jsval) :=
  List.filter (λ kv, negb (String.eqb kv.1 k)) fs.

(** One package: its dependency is the tarball, and it is not overridden. *)
Definition use_tarball (root : path) (entry : jsval) (metadata : list (string * jsval)) : outcome sync_error (list (string * jsval)) :=
  name ← prop entry "name"; p ← prop entry "path";
  match name, p with
  | VStr name, VStr p =>
      guard_throw (js_elem name piPackages) INVALID_ENTRY;;
      match field metadata "devDependencies" with
      | VObj dependencies =>
          let metadata := assign_field "devDependencies"
            (VObj (assign_field name (VStr ("file:" ++ path_text (resolve_from root p))%string) dependencies)) metadata in
          Ret match field metadata "overrides" with
            | VObj overrides => assign_field "overrides" (VObj (delete_entry overrides name)) metadata
            | _ => metadata
            end
      | _ => Throw type_error
      end
  | _, _ => Throw INVALID_ENTRY
  end.

Definition MISSING_METADATA : sync_error := failure "Fork consumer metadata is missing development dependencies or SDK packages".

(** The metadata of the copy, with every package of the manifest as a tarball; a
    package without fields is refused. *)
Definition with_tarballs (root : path) (packageJson manifest : jsval) : outcome sync_error jsval :=
  devDependencies ← prop packageJson "devDependencies"; packages ← prop manifest "packages";
  guard_throw (negb (is_undefined devDependencies) && negb (is_undefined packages)) MISSING_METADATA;;
  entries ← values_of packages;
  match packageJson with
  | VObj metadata => metadata ← fold_throw (use_tarball root) entries metadata; Ret (VObj metadata)
  | _ => Throw type_error
  end.

(** ** The script *)

Definition LOADER_PROBE : string := double_quoted (join line_feed [
  "import { discoverAndLoadExtensions } from '@earendil-works/pi-coding-agent';";
  "const extensionPath = process.argv[2];";
  "if (extensionPath === undefined) throw new Error('Adaptor extension path is required');";
  "const result = await discoverAndLoadExtensions([extensionPath], process.cwd(), process.env.HOME);";
  "if (result.errors.length > 0 || result.extensions.length !== 1) throw new Error(result.errors.map((entry) => entry.error).join('; '));";
  "process.exit(0);"]).

Section script.
Context {Disk : Type} `{SourceTree Disk} `{JsonText} (sha256 : string → string).
Context (launch : list string → path → list (string * string) → Disk → outcome errno (Z * (string * string)) * Disk).
Context (realpath : path → Disk → outcome errno path * Disk).
Context (glob : string → path → Disk → outcome errno (list string) * Disk).
Context (execPath : string) (cwd repositoryRoot tmpdir : path).

Abbreviation io A := (Io.io Disk sync_error A).

(** [basename(command)]. *)
Definition command_name (command : string) : string := List.last (split_on SEP command) "".

Definition run (directory : path) (environment : list (string * string)) (command : string) (args : list string) : io unit :=
  child ← fs (launch (command :: args) directory environment);
  if negb (child.1 =? 0)%Z then fail (command_name command ++ " exited with status " ++ integer_text child.1)%string
  else mret tt.

(** [Promise.all] of calls with results: all of them run, and the first failure is
    the answer. *)
Fixpoint all_values {A} (l : list (io A)) : io (list A) :=
  match l with [] => mret [] | m :: l => values ← pair_of m (all_values l); mret (values.1 :: values.2) end.

Definition FIXTURE_HELPER (piDir : path) : string := path_text (resolve_from piDir "scripts/local-fork-fixture.mjs").

(** One entry of the manifest: the digest of its tarball, which is below [tempRoot]. *)
Definition verify_entry (tempRoot : path) (sdkVersion : string) (entry : jsval) : io string :=
  package ← io_lift (sdk_package sdkVersion entry);
  let tarball := resolve_from tempRoot (sp_path package) in
  let relativeTarball := relative_text tempRoot tarball in
  io_lift (guard_throw (negb (starts_with ".." relativeTarball || isAbsolute relativeTarball))
    (failure "Pi SDK manifest package path escapes the fixture directory"));;
  bytes ← fs (tr_readFile tarball);
  io_lift (guard_throw (String.eqb (sha256 bytes) (sp_sha256 package))
    (failure ("Pi SDK digest mismatch: " ++ sp_name package)%string));;
  mret (sp_name package).

Definition packLocalSdk (options : ForkOptions) (tempRoot : path) : io PackedPiSdk :=
  run cwd [] "node" [FIXTURE_HELPER (fo_piDir options); "prepare"; "--out"; path_text tempRoot; "--ref"; fo_piRef options];;
  let manifestPath := resolve_from tempRoot "pi-sdk-manifest.json" in
  manifest ← read_json manifestPath;
  sdk ← io_lift (sdk_manifest manifest);
  let '(forkCommit, sdkVersion, entries) := sdk in
  packageNames ← all_values (verify_entry tempRoot sdkVersion <$> entries);
  io_lift (guard_throw (length (dedup [] packageNames) =? length piPackages)%nat
    (failure "Pi SDK manifest contains duplicate packages"));;
  mret {| ps_forkCommit := forkCommit; ps_manifestPath := manifestPath; ps_sdkVersion := sdkVersion |}.

Definition EXCLUDED : list string := [
  "--exclude=./.git"; "--exclude=./bun.lock"; "--exclude=./dist"; "--exclude=./native/artifacts";
  "--exclude=./native/official/target"; "--exclude=./native/target"; "--exclude=./node_modules"].
Definition copyProject (projectDirectory tempRoot : path) : io unit :=
  let archive := path_text (resolve_from tempRoot "adaptor.tar") in
  fs (tr_mkdir projectDirectory);;
  run cwd [] "tar" (EXCLUDED ++ ["-C"; path_text repositoryRoot; "-cf"; archive; "."]);;
  run cwd [] "tar" ["-xf"; archive; "-C"; path_text projectDirectory].

(** Whether an entry of the settings is the source, links followed. *)
Definition is_source (projectDirectory : path) (entry : string) : io bool :=
  try_catch (E := sync_error)
    (a ← fs (realpath (resolve_in projectDirectory [".pi"; entry]));
     b ← fs (realpath projectDirectory);
     mret (bool_decide (a = b)))
    (λ _, mret false).

Definition texts_in (l : list jsval) : list string := omap (λ v, match v with VStr s => Some s | _ => None end) l.

Definition NOT_PERSISTED : sync_error := failure "Pi local install did not persist the absolute adaptor source".
Definition check_installed (projectDirectory settingsPath : path) : io unit :=
  installedSettings ← read_json settingsPath;
  packages ← io_lift (prop installedSettings "packages");
  match packages with
  | VArr entries =>
      sources ← all_values (is_source projectDirectory <$> texts_in entries);
      io_lift (guard_throw (existsb id sources) NOT_PERSISTED)
  | _ => io_throw NOT_PERSISTED
  end.
Definition check_removed (settingsPath : path) : io unit :=
  removedSettings ← read_json settingsPath;
  packages ← io_lift (prop removedSettings "packages");
  io_lift (guard_throw (match packages with VArr (_ :: _) => false | _ => true end)
    (failure "Pi local remove did not clear the adaptor source")).

Definition verifyPiLocalInstall (piDirectory tempRoot projectDirectory : path) : io unit :=
  let cliPath := path_text (resolve_from piDirectory "packages/coding-agent/dist/cli.js") in
  piHome ← fs (tr_mkdtemp (resolve_from tempRoot "pi-home-"));
  let sourcePath := path_text projectDirectory in
  let settingsPath := resolve_in projectDirectory [".pi"; "settings.json"] in
  run projectDirectory (host_environment piHome) execPath [cliPath; "install"; "-l"; sourcePath; "--approve"];;
  check_installed projectDirectory settingsPath;;
  run projectDirectory (host_environment piHome) execPath [cliPath; "remove"; sourcePath; "-l"; "--approve"];;
  check_removed settingsPath.

Definition installForkConsumer (projectDirectory manifestPath piDirectory : path) : io unit :=
  run projectDirectory [] "npm" ["install"; "--ignore-scripts"; "--legacy-peer-deps"; "--no-save"; "--no-fund"; "--no-audit"];;
  let packageJsonPath := resolve_from projectDirectory "package.json" in
  packageJson ← read_json packageJsonPath;
  manifest ← read_json manifestPath;
  packageJson ← io_lift (with_tarballs (dirname manifestPath) packageJson manifest);
  fs (tr_writeFile packageJsonPath (stringify_indented packageJson ++ line_feed)%string);;
  run cwd [] execPath [FIXTURE_HELPER piDirectory; "install-sdk"; "--manifest"; path_text manifestPath; "--prefix"; path_text projectDirectory].

Definition findAdaptorTarball (tarballDirectory : path) : io path :=
  matches ← fs (glob "pi-codex-adaptor-*.tgz" tarballDirectory);
  match matches with
  | [entry] => mret (resolve_from tarballDirectory entry)
  | _ => fail "Expected one packed adaptor tarball"
  end.

Definition assembleAndPackAdaptor (projectDirectory tarballDirectory : path) : io path :=
  run projectDirectory [] execPath ["scripts/assemble-package.ts"];;
  run projectDirectory [] "npm" ["pack"; "--silent"; "./dist/package"; "--ignore-scripts"; "--pack-destination"; path_text tarballDirectory];;
  findAdaptorTarball tarballDirectory.

(** The variables of a program that must not reach the network or a home. *)
Definition offline_environment (consumerDirectory : path) : list (string * string) := [
  ("PI_OFFLINE", "1"); ("HOME", path_text (resolve_from consumerDirectory "home"));
  ("CODEX_HOME", path_text (resolve_from consumerDirectory "codex-home"))].

Definition SURFACE_TEST : string := "tests/smoke/tool-surface.test.ts".
Definition verifyPackagedProviderDispatch (consumerDirectory packageRoot : path) : io unit :=
  sourceTest ← fs (tr_readFile (resolve_from repositoryRoot SURFACE_TEST));
  let testPath := resolve_from packageRoot SURFACE_TEST in
  fs (tr_mkdir (dirname testPath));;
  fs (tr_writeFile testPath sourceTest);;
  run packageRoot (offline_environment consumerDirectory) execPath ["test"; path_text testPath].

Definition verifyPackagedAdaptorConsumer (tempRoot manifestPath adaptorTarball piDirectory : path) : io unit :=
  let consumerDirectory := resolve_from tempRoot "consumer" in
  run cwd [] execPath [FIXTURE_HELPER piDirectory; "create-consumer"; "--manifest"; path_text manifestPath;
    "--directory"; path_text consumerDirectory; "--dependency"; ("pi-codex-adaptor=file:" ++ path_text adaptorTarball)%string];;
  let loaderPath := resolve_from consumerDirectory "verify-extension-load.mjs" in
  fs (tr_writeFile loaderPath LOADER_PROBE);;
  let extensionPath := resolve_in consumerDirectory ["node_modules"; "pi-codex-adaptor"; "src"; "extension.ts"] in
  verifyPackagedProviderDispatch consumerDirectory (dirname (dirname extensionPath));;
  for_each (poison (dirname (dirname extensionPath))) piPackages;;
  run consumerDirectory (offline_environment consumerDirectory) execPath [path_text loaderPath; path_text extensionPath].

Definition runFocusedTests (projectDirectory : path) (forkCommit sdkVersion : string) : io unit :=
  run projectDirectory
    [("PI_EXTENSION_SDK_COMMIT", forkCommit); ("PI_FORK_PROJECT_ROOT", path_text projectDirectory);
     ("PI_FORK_SDK_VERSION", sdkVersion); ("PI_OFFLINE", "1")]
    execPath ("test" :: focusedTests).

Definition test_fork (options : ForkOptions) (tempRoot : path) : io PackedPiSdk :=
  sdk ← packLocalSdk options tempRoot;
  let tarballDirectory := resolve_from tempRoot "tarballs" in
  let projectDirectory := resolve_from tempRoot "project" in
  copyProject projectDirectory tempRoot;;
  verifyPiLocalInstall (resolve_from tempRoot "pi") tempRoot projectDirectory;;
  installForkConsumer projectDirectory (ps_manifestPath sdk) (fo_piDir options);;
  adaptorTarball ← assembleAndPackAdaptor projectDirectory tarballDirectory;
  verifyPackagedAdaptorConsumer tempRoot (ps_manifestPath sdk) adaptorTarball (fo_piDir options);;
  runFocusedTests projectDirectory (ps_forkCommit sdk) (ps_sdkVersion sdk);;
  mret sdk.

(** The [finally] clause: the directory of a failure is kept when it is asked for. *)
Definition cleaning {A} (m : io A) (keepTemp : bool) (tempRoot : path) : io A := λ d,
  let '(r, d1, t1) := m d in
  let succeeded := match r with Ret _ => true | Throw _ => false end in
  let '(r', d2, t2) := (if succeeded || negb keepTemp then fs (tr_rm tempRoot) else mret tt) d1 in
  (match r' with Ret _ => r | Throw e => Throw e end, d2, t1 ++ t2).

(** [None] when only the help is printed. *)
Definition main (argv : list string) : io (option PackedPiSdk) :=
  if js_elem "--help" argv then mret None else
  options ← io_lift (parseOptions cwd (drop 2 argv));
  tempRoot ← fs (tr_mkdtemp (resolve_from tmpdir "pi-codex-adaptor-pi-fork-"));
  sdk ← cleaning (test_fork options tempRoot) (fo_keepTemp options) tempRoot;
  mret (Some sdk).
End script.

(** ** The SDK *)

Section facts.
Context {Disk : Type} `{SourceTree Disk} `{JsonText} {writes : list string → list path → Prop} {laws : SourceTreeLaws Disk writes}.
Context (sha256 : string → string).
Context (launch : list string → path → list (string * string) → Disk → outcome errno (Z * (string * string)) * Disk).
Context (realpath : path → Disk → outcome errno path * Disk).
Context (glob : string → path → Disk → outcome errno (list string) * Disk).
Context (execPath : string) (cwd repositoryRoot tmpdir : path) (Htmp : normal tmpdir).

(** A tarball below the directory, with the digest of the manifest. *)
Definition tarball_verified (states : list Disk) (tempRoot : path) (package : SdkPackage) : Prop :=
  ∃ rest bytes, resolve_from tempRoot (sp_path package) = tempRoot ++ rest ∧
    had_text states (tempRoot ++ rest) bytes ∧ sha256 bytes = sp_sha256 package.

(** The packages are the four of the SDK, at one version. *)
Definition sdk_verified (states : list Disk) (tempRoot : path) (sdk : PackedPiSdk) : Prop :=
  ∃ manifest entries packages,
    had_json states (tempRoot ++ ["pi-sdk-manifest.json"]) manifest ∧
    ps_manifestPath sdk = tempRoot ++ ["pi-sdk-manifest.json"] ∧
    sdk_manifest manifest = Ret (ps_forkCommit sdk, ps_sdkVersion sdk, entries) ∧
    Forall2 (λ e p, sdk_package (ps_sdkVersion sdk) e = Ret p) entries packages ∧
    sp_name <$> packages ≡ₚ piPackages ∧ Forall (tarball_verified states tempRoot) packages.

(** A program ended well. *)
Abbreviation passed states directory environment command :=
  (∃ out err, ended launch states command directory environment 0 out err).

Lemma run_gives directory environment command args :
  gives (run launch directory environment command args) (λ l _, passed l directory environment (command :: args)).
Proof.
  unfold run. eapply gives_mono; [|eapply (gives_bind _ _ _ (λ child _ _, child.1 = 0%Z)); [apply gives_call|intros child]].
  2:{ destruct (Z.eqb_spec child.1 0); cbn [negb]; [eapply gives_mono; [|apply gives_ret]; done|apply gives_throw]. }
  intros l [] ([code [out err]] & (s & Hs & Hl) & Hc). cbn in *. subst code. by exists out, err, s.
Qed.

Lemma all_values_gives {A} (ms : list (Io.io Disk sync_error A)) (Ps : list (list Disk → A → Prop)) :
  Forall2 gives ms Ps → gives (all_values ms) (λ l values, Forall2 (λ P a, P l a) Ps values).
Proof.
  induction 1 as [|m P ms Ps Hm _ IH]; cbn [all_values].
  - eapply gives_mono; [|apply gives_ret]. intros l values ->. constructor.
  - eapply gives_mono; [|gives_bind; [by apply gives_pair|apply gives_ret]].
    cbv beta. intros l values ([a values'] & [Ha Hv] & ->). by constructor.
Qed.

Lemma verify_entry_gives tempRoot version entry : normal tempRoot →
  gives (verify_entry sha256 tempRoot version entry)
    (λ l name, ∃ p, sdk_package version entry = Ret p ∧ sp_name p = name ∧ tarball_verified l tempRoot p).
Proof.
  intros Hn. unfold verify_entry. eapply gives_mono; [|gives_bind; [apply gives_lift|gives_bind; [apply guard_gives|
    gives_bind; [apply gives_call|gives_bind; [apply guard_gives|apply gives_ret]]]]].
  cbv beta. intros l name (p & Hp & [] & Hg & bytes & Hb & [] & Hd & ->). exists p. do 2 (split; [done|]).
  apply negb_true_iff, orb_false_iff in Hg as [Hg _]. apply String.eqb_eq in Hd.
  destruct (decide (tempRoot `prefix_of` resolve_from tempRoot (sp_path p))) as [[rest Hr]|Hno].
  - exists rest, bytes. split; [done|]. rewrite <- Hr. split; [by apply had_text_of|done].
  - apply relative_outside in Hno as [t Ht]. apply not_true_iff_false in Hg. destruct Hg. apply starts_with_iff. by exists t.
Qed.

Lemma sdk_package_known version entry p : sdk_package version entry = Ret p → sp_name p ∈ piPackages.
Proof.
  unfold sdk_package. intros (name & _ & (? & _ & (pt & _ & (sha & _ & Hm)%bind_ret_iff)%bind_ret_iff)%bind_ret_iff)%bind_ret_iff.
  destruct name, pt, sha; try done. apply guard_bind_iff in Hm as [[Hm _]%andb_true_iff [= <-]]. by apply js_elem_spec.
Qed.

(** As many distinct known names as there are packages are all of them. *)
Lemma names_complete names :
  Forall (λ n, n ∈ piPackages) names → length names = length piPackages →
  length (dedup [] names) = length piPackages → names ≡ₚ piPackages.
Proof.
  intros Hin Hl Hd. assert (NoDup names) as Hnd by (apply dedup_length_iff; congruence).
  apply submseteq_length_Permutation; [|by rewrite Hl]. apply NoDup_submseteq; [done|].
  intros n. rewrite Forall_forall in Hin. apply Hin.
Qed.

Lemma packLocalSdk_gives options tempRoot : normal tempRoot →
  gives (packLocalSdk sha256 launch cwd options tempRoot) (λ l sdk, sdk_verified l tempRoot sdk).
Proof.
  intros Hn. unfold packLocalSdk. rewrite (resolve_from_component tempRoot "pi-sdk-manifest.json") by done.
  eapply gives_mono; [|gives_bind; [apply run_gives|gives_bind; [apply read_json_gives|
    eapply (gives_bind _ _ _ (λ sdk l packed, ∃ packages,
      Forall2 (λ e p, sdk_package sdk.1.2 e = Ret p) sdk.2 packages ∧ Forall (tarball_verified l tempRoot) packages ∧
      length (dedup [] (sp_name <$> packages)) = length piPackages ∧
      packed = {| ps_forkCommit := sdk.1.1; ps_manifestPath := tempRoot ++ ["pi-sdk-manifest.json"]; ps_sdkVersion := sdk.1.2 |}));
    [apply gives_lift|intros [[commit version] entries]]]]].
  2:{ eapply gives_mono; [|gives_bind; [apply (all_values_gives _ ((λ entry l name, ∃ p, sdk_package version entry = Ret p ∧
        sp_name p = name ∧ tarball_verified l tempRoot p) <$> entries))|gives_bind; [apply guard_gives|apply gives_ret]]].
      2:{ clear - Hn laws. induction entries; cbn; constructor; [by apply verify_entry_gives|done]. }
      cbv beta. intros l packed (names & Hnames & [] & Hd & ->). cbn [fst snd].
      apply Nat.eqb_eq in Hd. rewrite Forall2_fmap_l in Hnames.
      assert (∃ packages, Forall2 (λ e p, sdk_package version e = Ret p) entries packages ∧ names = sp_name <$> packages ∧
        Forall (tarball_verified l tempRoot) packages) as (packages & Hp & -> & Ht).
      { clear Hd. induction Hnames as [|e n entries names (p & Hp & <- & Ht) _ IH]; [exists []; by repeat constructor|].
        destruct IH as (packages & ? & -> & ?). exists (p :: packages). by repeat constructor. }
      by exists packages. }
  cbv beta. intros l sdk (_ & _ & manifest & Hj & [[commit version] entries] & Hm & packages & Hp & Ht & Hd & ->). cbn [fst snd] in *.
  exists manifest, entries, packages. cbn. split_and!; try done. apply names_complete; [|rewrite length_fmap|done].
  - apply Forall_fmap, Forall_forall. intros p Hin. apply list_elem_of_lookup in Hin as [i Hi].
    destruct (Forall2_lookup_r _ _ _ _ _ Hp Hi) as (e & _ & He). by eapply sdk_package_known.
  - rewrite <- (Forall2_length _ _ _ Hp). revert Hm. unfold sdk_manifest.
    intros (c & _ & (v & _ & (? & _ & (lv & _ & (packages' & _ & Hm)%bind_ret_iff)%bind_ret_iff)%bind_ret_iff)%bind_ret_iff)%bind_ret_iff.
    destruct c, v; try done. apply guard_bind_iff in Hm as [[_ Hl]%andb_true_iff Hm].
    apply bind_ret_iff in Hm as (es & Hes & [= _ _ <-]). destruct packages'; try done. injection Hes as <-. by apply Nat.eqb_eq in Hl.
Qed.

(** ** The copy *)

Abbreviation project tempRoot := (tempRoot ++ ["project"]).
Abbreviation settings tempRoot := (tempRoot ++ ["project"; ".pi"; "settings.json"]).

(** After the installation the settings of the copy name it, links followed. *)
Definition install_persisted (states : list Disk) (tempRoot : path) : Prop :=
  ∃ value entries entry real, had_json states (settings tempRoot) value ∧ prop value "packages" = Ret (VArr entries) ∧
    VStr entry ∈ entries ∧
    (∃ s, s ∈ states ∧ (realpath (resolve_in (project tempRoot) [".pi"; entry]) s).1 = Ret real) ∧
    ∃ s, s ∈ states ∧ (realpath (project tempRoot) s).1 = Ret real.

(** After the removal they name no package. *)
Definition removal_persisted (states : list Disk) (tempRoot : path) : Prop :=
  ∃ value packages, had_json states (settings tempRoot) value ∧ prop value "packages" = Ret packages ∧
    ∀ entry entries, packages ≠ VArr (entry :: entries).

(** The metadata of the copy was written with the tarballs of the manifest. *)
Definition metadata_replaced (states : list Disk) (tempRoot : path) : Prop :=
  ∃ packageJson manifest replaced s, had_json states (project tempRoot ++ ["package.json"]) packageJson ∧
    had_json states (tempRoot ++ ["pi-sdk-manifest.json"]) manifest ∧ with_tarballs tempRoot packageJson manifest = Ret replaced ∧
    s ∈ states ∧ (tr_writeFile (project tempRoot ++ ["package.json"]) (stringify_indented replaced ++ line_feed)%string s).1 = Ret tt.

(** The tests passed in the copy, and the packed adaptor dispatched and was loaded by
    its consumer. *)
Definition tests_passed (states : list Disk) (tempRoot : path) (sdk : PackedPiSdk) : Prop :=
  (∃ s entry, s ∈ states ∧ (glob "pi-codex-adaptor-*.tgz" (tempRoot ++ ["tarballs"]) s).1 = Ret [entry]) ∧
  (∃ environment, passed states (project tempRoot) environment (execPath :: "test" :: focusedTests)) ∧
  let consumer := tempRoot ++ ["consumer"] in
  let package := consumer ++ ["node_modules"; "pi-codex-adaptor"] in
  passed states package (offline_environment consumer) [execPath; "test"; path_text (resolve_from package SURFACE_TEST)] ∧
  passed states consumer (offline_environment consumer)
    [execPath; path_text (consumer ++ ["verify-extension-load.mjs"]); path_text (package ++ ["src"; "extension.ts"])].

Lemma is_source_gives projectDirectory entry :
  gives (is_source realpath projectDirectory entry) (λ l b, b = true → ∃ real,
    (∃ s, s ∈ l ∧ (realpath (resolve_in projectDirectory [".pi"; entry]) s).1 = Ret real) ∧
    ∃ s, s ∈ l ∧ (realpath projectDirectory s).1 = Ret real).
Proof.
  assert (gives (a ← fs (realpath (resolve_in projectDirectory [".pi"; entry])); b ← fs (realpath projectDirectory);
      mret (bool_decide (a = b)) : Io.io Disk sync_error bool) (λ l b, b = true → ∃ real,
    (∃ s, s ∈ l ∧ (realpath (resolve_in projectDirectory [".pi"; entry]) s).1 = Ret real) ∧
    ∃ s, s ∈ l ∧ (realpath projectDirectory s).1 = Ret real)) as Hm.
  { eapply gives_mono; [|gives_bind; [apply gives_call|gives_bind; [apply gives_call|apply gives_ret]]].
    cbv beta. intros l b (a & Ha & c & Hc & ->) Heq%bool_decide_eq_true. subst c. by exists a. }
  intros d. apply runs_catch. eapply runs_mono; [apply Hm|]. intros [b|e] d1 t1 [Hd HP]; [done|].
  apply runs_ret. split; [by rewrite app_nil_r|done].
Qed.

Lemma check_installed_gives tempRoot :
  gives (check_installed realpath (project tempRoot) (settings tempRoot)) (λ l _, install_persisted l tempRoot).
Proof.
  unfold check_installed. eapply gives_mono; [|gives_bind; [apply read_json_gives|
    eapply (gives_bind _ _ _ (λ packages l _, ∃ entries entry real, packages = VArr entries ∧ VStr entry ∈ entries ∧
      (∃ s, s ∈ l ∧ (realpath (resolve_in (project tempRoot) [".pi"; entry]) s).1 = Ret real) ∧
      ∃ s, s ∈ l ∧ (realpath (project tempRoot) s).1 = Ret real)); [apply gives_lift|intros packages]]].
  2:{ destruct packages as [| | | | |entries| |]; try apply gives_throw.
      eapply gives_mono; [|gives_bind; [apply (all_values_gives _ ((λ entry l b, b = true → ∃ real,
        (∃ s, s ∈ l ∧ (realpath (resolve_in (project tempRoot) [".pi"; entry]) s).1 = Ret real) ∧
        ∃ s, s ∈ l ∧ (realpath (project tempRoot) s).1 = Ret real) <$> texts_in entries))|apply guard_gives]].
      2:{ induction (texts_in entries); cbn; constructor; [apply is_source_gives|done]. }
      cbv beta. intros l [] (sources & Hs & (b & Hb & Hid)%existsb_exists). cbn in Hid. subst b. rewrite Forall2_fmap_l in Hs.
      apply list_elem_of_In, list_elem_of_lookup in Hb as [i Hi].
      destruct (Forall2_lookup_r _ _ _ _ _ Hs Hi) as (entry & Hentry & real & ?); [done|].
      apply list_elem_of_lookup_2 in Hentry. unfold texts_in in Hentry. apply list_elem_of_omap in Hentry as (v & Hv & Hv').
      destruct v; try done. injection Hv' as ->. by exists entries, entry, real. }
  cbv beta. intros l [] (value & Hj & packages & Hp & entries & entry & real & -> & ?). by exists value, entries, entry, real.
Qed.

Lemma check_removed_gives tempRoot : gives (check_removed (settings tempRoot)) (λ l _, removal_persisted l tempRoot).
Proof.
  unfold check_removed. eapply gives_mono; [|gives_bind; [apply read_json_gives|gives_bind; [apply gives_lift|apply guard_gives]]].
  cbv beta. intros l [] (value & Hj & packages & Hp & Hg). exists value, packages. split_and!; [done..|].
  by intros entry entries ->.
Qed.

Lemma project_in tempRoot : resolve_from tempRoot "project" = project tempRoot.
Proof. done. Qed.
Lemma settings_in tempRoot : resolve_in (project tempRoot) [".pi"; "settings.json"] = settings tempRoot.
Proof.
  change (resolve_in (project tempRoot) [".pi"; "settings.json"]) with ((project tempRoot ++ [".pi"]) ++ ["settings.json"]).
  by rewrite <- !app_assoc.
Qed.

Lemma copyProject_gives tempRoot : gives (copyProject launch cwd repositoryRoot (project tempRoot) tempRoot) (λ _ _, True).
Proof. eapply gives_any. unfold copyProject. gives_bind; [apply gives_call|]. gives_bind; apply run_gives. Qed.

Lemma verifyPiLocalInstall_gives piDirectory tempRoot :
  gives (verifyPiLocalInstall launch realpath execPath piDirectory tempRoot (project tempRoot))
    (λ l _, install_persisted l tempRoot ∧ removal_persisted l tempRoot).
Proof.
  unfold verifyPiLocalInstall. rewrite settings_in.
  eapply gives_mono; [|gives_bind; [apply gives_call|gives_bind; [apply run_gives|gives_bind; [apply check_installed_gives|
    gives_bind; [apply run_gives|apply check_removed_gives]]]]].
  cbv beta. by intros l [] (_ & _ & _ & _ & _ & ? & _ & _ & ?).
Qed.

Lemma installForkConsumer_gives tempRoot piDirectory :
  gives (installForkConsumer launch execPath cwd (project tempRoot) (tempRoot ++ ["pi-sdk-manifest.json"]) piDirectory)
    (λ l _, metadata_replaced l tempRoot).
Proof.
  unfold installForkConsumer. rewrite (resolve_from_component (project tempRoot) "package.json") by done.
  unfold dirname. rewrite removelast_last.
  eapply gives_mono; [|gives_bind; [apply run_gives|gives_bind; [apply read_json_gives|gives_bind; [apply read_json_gives|
    gives_bind; [apply gives_lift|gives_bind; [apply gives_call|apply run_gives]]]]]].
  cbv beta. intros l [] (_ & _ & packageJson & Hp & manifest & Hm & replaced & Hr & [] & (s & Hs & Hw) & _).
  by exists packageJson, manifest, replaced, s.
Qed.

Lemma assembleAndPackAdaptor_gives tempRoot :
  gives (assembleAndPackAdaptor launch glob execPath (project tempRoot) (tempRoot ++ ["tarballs"]))
    (λ l _, ∃ s entry, s ∈ l ∧ (glob "pi-codex-adaptor-*.tgz" (tempRoot ++ ["tarballs"]) s).1 = Ret [entry]).
Proof.
  unfold assembleAndPackAdaptor, findAdaptorTarball.
  eapply gives_mono; [|gives_bind; [apply run_gives|gives_bind; [apply run_gives|
    eapply (gives_bind _ _ _ (λ found _ _, ∃ entry, found = [entry])); [apply gives_call|intros found]]]].
  2:{ destruct found as [|entry [|]]; try apply gives_throw. eapply gives_mono; [|apply gives_ret]. intros. by exists entry. }
  cbv beta. intros l p (_ & _ & _ & _ & found & (s & Hs & Hg) & entry & ->). by exists s, entry.
Qed.

Lemma consumer_gives tempRoot manifestPath tarball piDirectory :
  let consumer := tempRoot ++ ["consumer"] in
  let package := consumer ++ ["node_modules"; "pi-codex-adaptor"] in
  gives (verifyPackagedAdaptorConsumer launch execPath cwd repositoryRoot tempRoot manifestPath tarball piDirectory)
    (λ l _, passed l package (offline_environment consumer) [execPath; "test"; path_text (resolve_from package SURFACE_TEST)] ∧
      passed l consumer (offline_environment consumer)
        [execPath; path_text (consumer ++ ["verify-extension-load.mjs"]); path_text (package ++ ["src"; "extension.ts"])]).
Proof.
  intros consumer package. unfold verifyPackagedAdaptorConsumer, verifyPackagedProviderDispatch.
  rewrite (resolve_from_component tempRoot "consumer") by done.
  rewrite (resolve_from_component (tempRoot ++ ["consumer"]) "verify-extension-load.mjs") by done.
  assert (resolve_in (tempRoot ++ ["consumer"]) ["node_modules"; "pi-codex-adaptor"; "src"; "extension.ts"] = (package ++ ["src"]) ++ ["extension.ts"]) as ->.
  { change (resolve_in (tempRoot ++ ["consumer"]) ["node_modules"; "pi-codex-adaptor"; "src"; "extension.ts"]) with
      ((((consumer ++ ["node_modules"]) ++ ["pi-codex-adaptor"]) ++ ["src"]) ++ ["extension.ts"]).
    unfold package. by rewrite <- !app_assoc. }
  unfold dirname. rewrite !removelast_last, <- (app_assoc package).
  eapply gives_mono; [|gives_bind; [apply run_gives|gives_bind; [apply gives_call|gives_bind;
    [gives_bind; [apply gives_call|gives_bind; [apply gives_call|gives_bind; [apply gives_call|apply run_gives]]]|
    gives_bind; [|apply run_gives]]]]].
  2:{ eapply gives_each. intros name. unfold poison. eapply gives_any.
      gives_bind; [apply gives_call|gives_bind; apply gives_call]. }
  cbv beta. by intros l [] (_ & _ & _ & _ & _ & (_ & _ & _ & _ & _ & _ & ?) & _ & _ & ?).
Qed.

(** ** The whole test *)

Record fork_tested (states : list Disk) (tempRoot : path) (sdk : PackedPiSdk) : Prop := {
  ft_sdk : sdk_verified states tempRoot sdk;
  ft_installed : install_persisted states tempRoot;
  ft_removed : removal_persisted states tempRoot;
  ft_metadata : metadata_replaced states tempRoot;
  ft_tests : tests_passed states tempRoot sdk }.

Lemma test_fork_gives options tempRoot : normal tempRoot →
  gives (test_fork sha256 launch realpath glob execPath cwd repositoryRoot options tempRoot) (λ l sdk, fork_tested l tempRoot sdk).
Proof.
  intros Hn. unfold test_fork, runFocusedTests. rewrite project_in, (resolve_from_component tempRoot "tarballs") by done.
  eapply gives_mono; [|eapply (gives_bind_when _ _ _ (λ sdk l sdk', sdk' = sdk ∧
      install_persisted l tempRoot ∧ removal_persisted l tempRoot ∧ metadata_replaced l tempRoot ∧ tests_passed l tempRoot sdk));
    [by apply packLocalSdk_gives|intros sdk l (_ & _ & _ & _ & -> & _)]].
  2:{ eapply gives_mono; [|gives_bind; [apply copyProject_gives|gives_bind; [apply verifyPiLocalInstall_gives|gives_bind;
        [apply installForkConsumer_gives|gives_bind; [apply assembleAndPackAdaptor_gives|gives_bind; [apply consumer_gives|
        gives_bind; [apply run_gives|apply gives_ret]]]]]]].
      cbv beta. clear l. intros l sdk' (_ & _ & _ & [? ?] & _ & ? & tarball & Hglob & _ & [? ?] & _ & Htests & ->).
      split_and!; try done. split_and!; try done. by eexists. }
  cbv beta. intros l sdk' (sdk & Hsdk & -> & ? & ? & ? & ?). by split.
Qed.

(** A run that returns has tested the fork; one that makes its directory removes it,
    unless a call failed or a failure is to be kept. *)
Definition fork_checked (d : Disk) (argv : list string) (r : outcome sync_error (option PackedPiSdk)) (d' : Disk) (states : list Disk) : Prop :=
  match r with
  | Ret None => js_elem "--help" argv = true ∧ d' = d
  | Ret (Some sdk) => ∃ tempRoot, fork_tested (d :: states) tempRoot sdk ∧ comes_and_goes d d' tempRoot
  | Throw e => silent e ∨ parseOptions cwd (drop 2 argv) = Throw e ∨
      ∃ options tempRoot, parseOptions cwd (drop 2 argv) = Ret options ∧
        (fo_keepTemp options = true ∨ comes_and_goes d d' tempRoot)
  end.

Lemma fork_main_runs argv d :
  runs (main sha256 launch realpath glob execPath cwd repositoryRoot tmpdir argv) (fork_checked d argv) d.
Proof.
  unfold main. destruct (js_elem "--help" argv) eqn:Hhelp; [by apply runs_ret|].
  apply runs_bind, runs_lift. destruct (parseOptions cwd (drop 2 argv)) as [options|e] eqn:Ho; [|by right; left].
  assert (normal (resolve_from tmpdir "pi-codex-adaptor-pi-fork-")) as Hn by (by apply normal_resolve_from).
  apply runs_bind, runs_call. intros r d1 Hr. pose proof (mkdtemp_makes (resolve_from tmpdir "pi-codex-adaptor-pi-fork-") d) as Hm.
  rewrite Hr in Hm. destruct r as [root|e]; [|by left; eexists]. destruct Hm as (Hroot & _ & Hfresh & _). cbn [fst snd] in *.
  apply runs_bind. pose proof (test_fork_gives options root (Hroot Hn) d1) as Htest. unfold runs, cleaning in *.
  destruct (test_fork _ _ _ _ _ _ _ options root d1) as [[r2 d2] t2]. destruct Htest as [_ Hv].
  destruct ((match r2 with Ret _ => true | Throw _ => false end) || negb (fo_keepTemp options)) eqn:Hclean.
  - pose proof (removal_runs root d2) as Hrm. unfold runs in Hrm. destruct (fs (tr_rm root) d2) as [[[[]|e3] d3] t3]; [|by left].
    destruct r2 as [sdk|e]; cbn.
    + exists root. split; [|by split]. apply Hv. set_solver.
    + right; right. exists options, root. split; [done|right; by split].
  - destruct r2 as [sdk|e]; [done|]. apply negb_false_iff in Hclean. right; right. exists options, root. by split; [|left].
Qed.
End facts.

(** The fork.  When the test returns for a checkout of Pi, the packed SDK is the
    four packages at one version, each with the digest of the manifest and inside the
    temporary directory; the copy of the adaptor was installed so that the settings
    name it, links followed, removed so that they name nothing, and given the tarballs
    of the manifest as its dependencies; exactly one adaptor was packed, the packed one
    dispatched and was loaded, and the tests passed in the copy.  The temporary
    directory was not there before and is gone, unless a call failed or a failure was
    to be kept. *)
Theorem pi_fork_is_compatible {Disk} `{SourceTree Disk} `{JsonText} writes (laws : SourceTreeLaws Disk writes)
    (sha256 : string → string)
    (launch : list string → path → list (string * string) → Disk → outcome errno (Z * (string * string)) * Disk)
    (realpath : path → Disk → outcome errno path * Disk) (glob : string → path → Disk → outcome errno (list string) * Disk)
    (execPath : string) (cwd repositoryRoot tmpdir : path) (argv : list string) (d : Disk) (Htmp : normal tmpdir) :
  let '(r, d', states) := main sha256 launch realpath glob execPath cwd repositoryRoot tmpdir argv d in
  fork_checked sha256 launch realpath glob execPath cwd d argv r d' states.
Proof. exact (fork_main_runs (laws := laws) sha256 launch realpath glob execPath cwd repositoryRoot tmpdir Htmp argv d). Qed.

(** ** An example *)

Definition fork_package (sha : string) (name : string) : jsval := VObj [
  ("name", VStr name); ("version", VStr "1.0.0"); ("path", VStr "sdk.tgz"); ("sha256", VStr sha)].
Definition fork_manifest (sha : string) : jsval := VObj [
  ("forkCommit", VStr "f0"); ("sdkVersion", VStr "1.0.0");
  ("capabilities", VObj ((λ name, (name, VNum (num_of_Z 1))) <$> CAPABILITIES));
  ("packages", VArr (fork_package sha <$> piPackages))].

(** What the programs leave: [prepare] an SDK, [tar] a copy of the project, the
    installation and the removal their settings. *)
Definition fork_wrote (sha : string) (command : list string) (directory : path) : list (path * node) :=
  match command, value_after "--out" command, value_after "--directory" command with
  | _, Some out, _ =>
      [(resolve_from [] out ++ ["pi-sdk-manifest.json"], n_file (@stringify bits_json (fork_manifest sha)));
       (resolve_from [] out ++ ["sdk.tgz"], n_file "sdk")]
  | _, _, Some consumer => installed_in (resolve_from [] consumer)
  | ["tar"; "-xf"; _; _; copy], _, _ =>
      [(resolve_from [] copy ++ ["package.json"], n_file (@stringify bits_json
          (VObj [("devDependencies", VObj []); ("overrides", VObj [("@earendil-works/pi-ai", VStr "0")])])));
       (resolve_from [] copy ++ [".pi"], n_directory)]
  | [_; _; "install"; _; _; _], _, _ =>
      [(directory ++ [".pi"; "settings.json"], n_file (@stringify bits_json (VObj [("packages", VArr [VStr ".."])])))]
  | [_; _; "remove"; _; _; _], _, _ =>
      [(directory ++ [".pi"; "settings.json"], n_file (@stringify bits_json (VObj [("packages", VArr [])])))]
  | _, _, _ => []
  end.
Definition fork_launch (sha : string) (command : list string) (directory : path) (_ : list (string * string)) (d : repo)
    : outcome errno (Z * (string * string)) * repo :=
  (Ret (0%Z, ("", "")), next (fork_wrote sha command directory ++ rp_nodes d) d).
Definition fork_glob (_ : string) (_ : path) (d : repo) : outcome errno (list string) * repo := (Ret ["pi-codex-adaptor-1.tgz"], d).

Definition fork_disk : repo := {|
  rp_nodes := ((λ p : path, (p, n_directory)) <$> [[]; ["r"]; ["t"]; ["r"; "tests"]; ["r"; "tests"; "smoke"]]) ++
    [(["r"; "tests"; "smoke"; "tool-surface.test.ts"], n_file "test")];
  rp_reply := λ _, {| exitCode := 0; stdout := "" |};
  rp_plan := [] |}.
Definition fork_main (sha : string) (argv : list string) : outcome sync_error (option PackedPiSdk) * repo * list repo :=
  main (H := repo_tree (λ _, [])) (H0 := bits_json) id (fork_launch sha) plain_realpath fork_glob "bun" ["r"] ["r"] ["t"] argv fork_disk.

(** An SDK with its digests, and one with another digest whose directory is kept. *)
Lemma pi_fork_is_compatible_witness :
  let after sha argv := let '(r, d', states) := fork_main sha argv in
    fork_checked (H := repo_tree (λ _, [])) (H0 := bits_json) id (fork_launch sha) plain_realpath fork_glob "bun" ["r"] fork_disk argv r d' states in
  let argv := ["bun"; "test-pi-fork.ts"; "--pi-dir"; "/pi"; "--pi-ref"; "f0"] in
  (fork_main "sdk" argv).1.1 = Ret (Some {| ps_forkCommit := "f0";
    ps_manifestPath := ["t"; "pi-codex-adaptor-pi-fork-A1B2C3"; "pi-sdk-manifest.json"]; ps_sdkVersion := "1.0.0" |}) ∧ after "sdk" argv ∧
  (fork_main "other" (argv ++ ["--keep-temp"])).1.1 = Throw (failure "Pi SDK digest mismatch: @earendil-works/pi-tui") ∧
  after "other" (argv ++ ["--keep-temp"]).
Proof.
  intros after argv. split_and!.
  - vm_compute. reflexivity.
  - apply (pi_fork_is_compatible (H0 := bits_json) (git_writes ["r"]) (repo_laws (λ _, []) ["r"])). by repeat constructor.
  - vm_compute. reflexivity.
  - apply (pi_fork_is_compatible (H0 := bits_json) (git_writes ["r"]) (repo_laws (λ _, []) ["r"])). by repeat constructor.
Defined.
